(* ===== verification/_CoqProject ===== *)
-Q . S2P
Prelude.v
GoStd.v
Filepath.v
PathPolicy.v
Nesting.v
Syscalls.v
WriteOpen.v
Sandbox.v
SandboxSafety.v
TestCmd.v
FindExpr.v
FindTree.v
FindMatch.v
BoundedReplace.v
FindEval.v
FindWalk.v
Bufio.v
XargsInput.v
Xargs.v
XargsRun.v
XargsItems.v
GoRegexp.v
Utf8.v
SedParse.v
SedSubst.v
SedSize.v
SedEngine.v
SedRun.v
SedScript.v
SedSafe.v
SedCmd.v
SedLines.v
SedInPlace.v
SedTop.v
InterpSyntax.v
InterpValidate.v
InterpValidateSpec.v
InterpTilde.v
InterpVars.v
InterpStore.v
InterpState.v
InterpExpand.v
InterpRedir.v
InterpCall.v
InterpExec.v
InterpLogic.v
InterpQuiet.v
InterpExecLogic.v
InterpExecSpec.v
InterpOutput.v
InterpReturns.v
InterpLiveness.v
InterpBuiltins.v
InterpOptions.v
InterpRunWitness.v
JqValue.v
JqString.v
JqParse.v
JqEval.v
JqRetain.v
JqAccounts.v
JqRefine.v
JqObject.v
JqWf.v
JqParseSpec.v
JqOrder.v
JqTop.v
InterpServices.v
InterpCheck.v
InterpCheckArgs.v
InterpCheckRun.v
InterpCheckSteps.v
InterpCheckWalk.v
InterpCheckTop.v
LineFilters.v
Uniq.v
SortCmd.v
Tr.v
FileCmds.v
