(* ===== verification/Prelude.v ===== *)
(** * A verification of rshell

    rshell is a shell interpreter for agents: default-deny, with a restricted
    grammar, builtins written in Go instead of external programs, a sandbox for
    every file access, and limits on everything a script can consume.  This
    library models its core and proves what makes it safe and correct.

    ** The program and how its parts interact

    A script is checked by a lexical guard before it is parsed
    (interp/nesting.go), parsed by the third-party package mvdan.cc/sh, and
    validated statically (interp/validate.go).  The runner (interp/api.go,
    runner_exec.go, runner_expand.go, runner_redir.go) then walks the tree: it
    expands words through the third-party expander, which calls back for
    variables (interp/vars.go) and substitutions; applies redirections; and
    dispatches simple commands, through the gates of the allow list and of the
    remediation mode, to the handlers under builtins/.  A handler gets a set of
    capabilities: streams, the sandbox of allowedpaths/, running another command
    (find -exec, xargs), variables.  The sandbox resolves every path against the
    configured roots, and writes go through a no-follow opener.

    ** Files

    Foundations
    - Prelude: Go strings and bytes, shared tactics, hint databases and lemmas.
    - GoStd, Filepath, Utf8, Bufio, GoRegexp: the parts of Go's standard library
      that the code relies on: integer parsing, UTF-8, path cleaning and Rel,
      bufio.Reader as an instance of the class of byte sources, and package
      regexp as an interface with laws.
    - Syscalls: operations that touch the file system are trees of system calls
      whose answers are unconstrained, so a theorem about every execution covers
      races with other processes.

    The sandbox (allowedpaths/)
    - PathPolicy: path_mode.go, path_match.go, lexical.go.
    - WriteOpen: internal/writeopen (the openat walk and Unlink).
    - Sandbox: sandbox.go, check.go, write_open.go, portable.go,
      portable_unix.go, read_open_unix.go; one definition per operation.
    - SandboxSafety: where reads and writes may go, what is checked before a file
      changes, that read-only sandboxes never mutate, that no descriptor is lost.

    The interpreter (interp/)
    - Nesting: nesting.go, the byte scanner and the walk over the tree.
    - InterpSyntax: the third-party tree as a class Syntax, a view per type
      switch of the code.
    - InterpValidate, InterpValidateSpec, InterpTilde: validate.go against
      permitted, a description of the supported trees node by node; the tilde
      analysis against brace expansion.
    - InterpVars, InterpStore: vars.go, overlays and budgets as a shared heap;
      the storage budget is exact under every interleaving of operations.
    - InterpState, InterpExpand, InterpRedir, InterpCall, InterpExec: the runner
      and the world its subshells share, expansion, redirections, dispatch,
      statements and Run.
    - InterpLogic, InterpQuiet, InterpExecLogic: a program logic; one lemma per
      operation, collected in hint databases, lifts a preorder on worlds from
      single effects to runs.
    - InterpExecSpec, InterpOutput, InterpReturns, InterpLiveness: its instances:
      what a run dispatches and mutates, loop levels, output bounds, return after
      cancellation.
    - InterpBuiltins: break, continue, exit, true, false, echo as handlers;
      InterpOptions: AllowedCommands and SelectiveElevation.
    - InterpRunWitness: concrete scripts and runs.

    Builtins (builtins/)
    - TestCmd: testcmd/testcmd.go.
    - FindExpr, FindTree, FindMatch, FindEval, FindWalk: find/expr.go, match.go,
      eval.go, find.go; BoundedReplace: internal/boundedreplace.
    - XargsInput (with XargsTok), Xargs, XargsRun, XargsItems: xargs/xargs.go.
    - SedParse, SedSubst, SedSize, SedEngine, SedRun, SedScript, SedSafe, SedCmd,
      SedLines, SedInPlace, SedTop (with SedWitness): sed/parser.go, types.go,
      engine.go, sed.go.
    - JqValue, JqString, JqParse (with JqLex), JqEval: jq/value.go, surrogate.go,
      lexer.go, parser.go, eval.go, with the variables of jq.go;
      JqRetain, JqAccounts (accounts), JqRefine (with JqSem), JqObject (meaning),
      JqWf, JqParseSpec, JqOrder, JqTop (with JqText; properties).

    Filters and commands on files (builtins/)
    - LineFilters: module Filter, the shell as a filter sees it and bufio.Scanner
      with a cap on lines; module Cut, cut/cut.go.  Uniq: uniq/uniq.go.
    - SortCmd: module SortCmd, sort/sort.go; module SortOrder, its order, keys,
      output and -c.
    - Tr: tr/tr.go.
    - FileCmds: rm/rm.go, truncate/truncate.go, logrotate/logrotate.go,
      tee/tee.go, internal/sizeparse, and SafeOperand of builtins.go; every call
      of a callback is an event, and spec relates the events before a
      computation, its own and its result.

    The dry-run checker (interp/)
    - InterpServices: system_services.go, grants of systemd units.
    - InterpCheck, InterpCheckArgs, InterpCheckRun: check.go, check_commands.go
      and check_remote.go, as a state monad over the report and its budgets.
    - InterpCheckSteps, InterpCheckWalk, InterpCheckTop: what
      each operation leaves of the report, what the walk visits, the properties.

    Definitions keep the names of the Go functions; a definition that stands for
    part of a function says in its comment which part.

    ** Modelling

    - A Go string or byte slice is a list of 8-bit characters; an int is a Z with
      its wrap-around written out where the code can reach it, or a nat for an
      index.  Doubles are the IEEE binary64 numbers of the Standard Library's
      SpecFloat.  An index out of range, where the code does not exclude it
      locally, is an outcome Panic.
    - Errors are constructors; their texts are not modelled, except as far as the
      code computes with them.
    - The state of an object is a record that is threaded through its methods;
      shared objects (overlays, budgets, streams) live in a heap or world.
    - Everything outside the program is a parameter: the answers of the system
      calls (in the order they are made), the callbacks of a call context
      (functions of the history of events), the polls of a context (a function of
      how many there were), strings.ToLower (Unicode tables), the regular
      expressions, the syntax tree and the expander (an interaction tree that
      calls back), and the shortest text of a double (class FloatText).  The laws
      assumed of them are hypotheses of the theorems that need them, with
      witnesses at concrete instances.
    - In the interpreter a builtin's handler is a tree of the finitely many
      capabilities it uses, its context check among them; the builtins'
      own files model their loops.  Opens pass the mode of the sandbox
      (openPolicy); how it resolves a path is the Sandbox's part.
    - A run is sequential: the two sides of a pipe run one after the other and
      the goroutine that feeds a heredoc is one write.  The storage budget, which
      the sides share, is proved under every interleaving of its operations.
    - The platform is Linux; telemetry is left out.

    ** What the theorems show

    - Confinement and safety: writes_confined, reads_confined, writes_checked,
      read_only_never_mutates, no_descriptor_leak (sandbox); run_dispatches_allowed,
      run_read_only, refused_call (interpreter); find_run_safe, find_exec_guarded,
      xargs_run_safe, sed_handler_safe, sed_inplace_commit (builtins).
    - Equivalence with a reference: find_parser_decides (the grammar as an
      inductive relation), glob_exact_ascii, validate_exact, jq_order_total;
      tilde_fields_exact and lexical_write_allowed_iff beside them.
    - Refinement: xargs_delivers_items (the items reach the commands once, in
      order), jq_evaluate_refines (the evaluator refines the meaning of filters).
    - Functional behaviour: resolvePath_most_specific, posix_short_forms.
    - Invariants and types: storage_exact, loop_levels_clamped, sed_run_safe,
      sed_script_valid, jq_retention_balanced, jq_results_well_formed.
    - Bounds: run_stdout_bounded, storage_capped, substitute_fits,
      jq_evaluation_stops.
    - Termination and liveness: checkScriptNestingDepth_total, find_terminates,
      xargs_terminates, sed_terminates, jq_parser_total, cancelled_run_returns.
    - Round trips: temporary_binding_restored, xargs_names_roundtrip,
      jq_string_roundtrip, and find_print_parse beside them.
    - The dry-run checker: check_allowed_sound (nothing of an allowed script is
      unchecked), check_agrees_with_gates (its gates are those of execution),
      check_report_exact; system_services_exact.
    - Filters: cut_list_exact, cut_output_exact, uniq_output_exact,
      sort_output_exact, sort_order_total, sort_numbers_exact (comparison of
      texts as rational numbers), sort_key_fields, sort_keys_safe,
      sort_check_exact, tr_output_exact (independent of the reads),
      tr_sets_bounded.
    - Commands on files: rm_removes_exact, tee_copies_exact, tee_messages_plain,
      size_parse_exact, resize_exact.

    ** Fuel

    Recursion that is not structural runs on fuel, and running out of it is an
    outcome of its own, proved unreachable:
    - test: 6 per argument and 8 (a level of the grammar each); find's parser: 3
      per argument and 3; find's glob: quadratic in pattern and name, for its
      retries; find's walk: computed from the depth limit and the entries of a
      directory; the nesting scanner: 3 per byte and 1;
    - xargs: a turn per byte of input and 2; sed's script: 3 per byte and 3; a
      cycle per line and 2; branches: MaxBranchIterations and 1;
    - the interpreter: the size of the tree for statements and words; a while
      loop: more turns than the context has polls left before it is cancelled;
      commands run by builtins: as deep as it has polls left, since a handler
      checks its context before it spawns (spawnsChecked); an overlay's
      parents: its own number, since parents are older; the tilde analysis: the
      height of the word;
    - jq's lexer: the length of the text and 1; its parser: the number of tokens
      and 1, since every recursive call follows a token; its evaluator is
      structural in the filter.
    - the dry-run checker: three units for each of its levels, which are at most
      maxCheckDepth.
    - fields and sets: splitting blank fields, skipping fields and expanding a set
      of tr take a byte per turn, so the length is enough (tr_sets_bounded).

    ** Not modelled

    - awk: a second interpreter, whose numbers and conversions go through package
      strconv's shortest and printf formats and whose patterns are package
      regexp.
    - Of jq: the streaming decoder around encoding/json, whose partial reads and
      error recovery follow that package's internals, and the loop over inputs.
    - cat, grep, head, tail, wc, strings, printf, read, and the file commands that
      only read (ls, stat, du, df, sha256sum): left out; reader loops and
      clients of the sandbox operations, which are modelled.
    - The registry and the parsing of flags over the third-party pflag.
    - Builtins that print system information (ps, pmap, free, uptime, vmstat,
      lsof, ip, ss, ping, df), the clients of systemd, and the Windows parts
      (NTFS, Darwin and Windows variants of the sandbox): system calls and
      tables read from the kernel.
    - The command line, the privileged helper and the kernel sandboxes: process
      set-up.
    - Telemetry and the static analysis of the repository: not behaviour of a
      script. *)

From stdpp Require Import base list strings sorting.
From Stdlib Require Import ZArith Lia Ascii.

(** * Go strings and bytes

    A Go [string] (or [[]byte]) is a list of 8-bit characters; an index is a
    [nat].  A read past the end, which panics in Go, is [None] of [!!]. *)

Abbreviation bytes := (list ascii).

Declare Scope go_scope.
Delimit Scope go_scope with go.
Open Scope go_scope.

Definition lit (s : string) : bytes := String.list_ascii_of_string s.
Arguments lit s : simpl never.

Fixpoint bytes_eqb (a b : bytes) : bool :=
  match a, b with
  | [], [] => true
  | x :: a', y :: b' => Ascii.eqb x y && bytes_eqb a' b'
  | _, _ => false
  end.

Notation "a =c b" := (Ascii.eqb a b%char) (at level 70) : go_scope.
Notation "a =s b" := (bytes_eqb a (lit b%string)) (at level 70) : go_scope.

(** The numeric value of a byte. *)
Definition code (c : ascii) : Z := Z.of_N (N_of_ascii c).

(** [c] is one of the bytes of [set]. *)
Definition byte_in (c : ascii) (set : string) : bool :=
  existsb (Ascii.eqb c) (lit set).

(** The word [w] is one of the strings [l] (a Go [switch] on a string). *)
Definition str_in (w : bytes) (l : list string) : bool :=
  existsb (fun x => bytes_eqb w (lit x)) l.

(** The bytes that cannot be written inside a Rocq string literal. *)
Abbreviation ch_tab := "009"%char.
Abbreviation ch_nl := "010"%char.
Abbreviation ch_cr := "013"%char.
Abbreviation ch_dq := "034"%char.
Abbreviation ch_sq := "039"%char.
Abbreviation ch_bs := "092"%char.
Abbreviation ch_bt := "096"%char.

(** ** Prefixes, suffixes, splitting, joining (package [strings]) *)

Fixpoint HasPrefix (s p : bytes) {struct p} : bool :=
  match p, s with
  | [], _ => true
  | x :: p', y :: s' => Ascii.eqb y x && HasPrefix s' p'
  | _ :: _, [] => false
  end.

Definition HasSuffix (s p : bytes) : bool :=
  (length p <=? length s) && bytes_eqb (drop (length s - length p) s) p.

Fixpoint Split (sep : ascii) (s : bytes) : list bytes :=
  match s with
  | [] => [[]]
  | c :: s' =>
      if Ascii.eqb c sep then [] :: Split sep s'
      else match Split sep s' with
           | w :: ws => (c :: w) :: ws
           | [] => [[c]]
           end
  end.

Fixpoint Join_sep (sep : ascii) (l : list bytes) : bytes :=
  match l with
  | [] => []
  | [w] => w
  | w :: ws => w ++ sep :: Join_sep sep ws
  end.

Fixpoint IndexByte (s : bytes) (c : ascii) : option nat :=
  match s with
  | [] => None
  | x :: s' => if Ascii.eqb x c then Some 0 else S <$> IndexByte s' c
  end.

(** The number of leading bytes that satisfy [f]: every scanning loop of the
    form [for j < len(s) && f(s[j]) { j++ }] advances by it. *)
Fixpoint run_length (f : ascii -> bool) (s : bytes) : nat :=
  match s with
  | [] => 0
  | c :: s' => if f c then S (run_length f s') else 0
  end.

Fixpoint bytes_ltb (a b : bytes) : bool :=
  match a, b with
  | [], [] => false
  | [], _ :: _ => true
  | _ :: _, [] => false
  | x :: a', y :: b' =>
      if Z.ltb (code x) (code y) then true
      else if Z.ltb (code y) (code x) then false
      else bytes_ltb a' b'
  end.

(** * Reflection of the boolean tests *)

Lemma bytes_eqb_spec (a b : bytes) : reflect (a = b) (bytes_eqb a b).
Proof.
  revert b. induction a as [|x a IH]; intros [|y b]; cbn; try (constructor; congruence).
  destruct (Ascii.eqb_spec x y) as [->|Hne]; cbn.
  - destruct (IH b) as [->|]; constructor; congruence.
  - constructor; congruence.
Qed.

Lemma bytes_eqb_refl (a : bytes) : bytes_eqb a a = true.
Proof. by destruct (bytes_eqb_spec a a). Qed.

Lemma bytes_eqb_true (a b : bytes) : bytes_eqb a b = true <-> a = b.
Proof. destruct (bytes_eqb_spec a b); split; congruence. Qed.

Lemma bytes_eqb_false (a b : bytes) : bytes_eqb a b = false <-> a <> b.
Proof. destruct (bytes_eqb_spec a b); split; congruence. Qed.

Lemma HasPrefix_true (s p : bytes) : HasPrefix s p = true <-> exists t, s = p ++ t.
Proof.
  revert s. induction p as [|x p IH]; intros s; cbn.
  - destruct s; (split; [by eexists|done]).
  - destruct s as [|y s].
    + split; [done|]. by intros [t ?].
    + cbn. destruct (Ascii.eqb_spec y x) as [->|]; cbn.
      * rewrite IH. split; [intros [t ->]; by exists t|]. intros [t [= ->]]; eauto.
      * split; [done|]. intros [t [= ??]]; congruence.
Qed.

Lemma HasSuffix_true (s p : bytes) : HasSuffix s p = true <-> exists t, s = t ++ p.
Proof.
  unfold HasSuffix. rewrite andb_true_iff, Nat.leb_le, bytes_eqb_true. split.
  - intros [_ H]. exists (take (length s - length p) s).
    rewrite <- (take_drop (length s - length p) s) at 1. by rewrite H.
  - intros [t ->]. rewrite length_app. split; [lia|].
    replace (length t + length p - length p) with (length t) by lia. by rewrite drop_app_length.
Qed.

Lemma run_length_le f s : run_length f s <= length s.
Proof. induction s as [|c s IH]; cbn; [lia|]. destruct (f c); lia. Qed.

(** * Automation

    [go_case] splits on the innermost boolean or option the goal branches on;
    [go_crush] repeats it and closes what arithmetic and congruence close. *)

Ltac go_case :=
  match goal with
  | |- context [match ?x with _ => _ end] =>
      lazymatch x with
      | context [match _ with _ => _ end] => fail
      | _ => destruct x eqn:?
      end
  end.

Ltac go_case_in H :=
  match type of H with
  | context [match ?x with _ => _ end] =>
      lazymatch x with
      | context [match _ with _ => _ end] => fail
      | _ => destruct x eqn:?
      end
  end.

Create HintDb go.
#[export] Hint Resolve bytes_eqb_refl run_length_le : go.
