(* ===== verification/GoStd.v ===== *)
(** * The parts of Go's standard library the builtins rely on

    [strconv] (integer parsing with its two error kinds), [unicode/utf8]
    (decoding the first rune of a string), [strings] (trimming, counting and
    replacing) and [io/fs] (file mode bits). *)

From S2P Require Import Prelude.
From stdpp Require Import base list strings.
From Stdlib Require Import ZArith Lia Ascii.

Module GoStd.

(** ** strconv *)

Inductive numError := ErrSyntax | ErrRange.

Definition maxInt64 : Z := 2 ^ 63 - 1.
Definition maxUint64 : Z := 2 ^ 64 - 1.

Definition digitVal (c : ascii) : option Z :=
  (if (48 <=? code c) && (code c <=? 57) then Some (code c - 48)
   else if (97 <=? code c) && (code c <=? 122) then Some (code c - 97 + 10)
   else if (65 <=? code c) && (code c <=? 90) then Some (code c - 65 + 10)
   else None)%Z.

(** The digit loop of [ParseUint]: a bad digit is a syntax error, an overflow
    is a range error, whichever comes first in the string. *)
Fixpoint parseDigits (base maxVal n : Z) (s : bytes) : numError + Z :=
  match s with
  | [] => inr n
  | c :: s' =>
      match digitVal c with
      | None => inl ErrSyntax
      | Some d =>
          if (base <=? d)%Z then inl ErrSyntax
          else if (maxUint64 / base + 1 <=? n)%Z then inl ErrRange
          else if (maxVal <? n * base + d)%Z then inl ErrRange
          else parseDigits base maxVal (n * base + d) s'
      end
  end.

Definition ParseUint (base bitSize : Z) (s : bytes) : numError + Z :=
  match s with [] => inl ErrSyntax | _ => parseDigits base (2 ^ bitSize - 1) 0 s end.

(** [ParseInt(s, 10, 64)]; [strconv.Atoi] gives the same value or error. *)
Definition ParseInt (s : bytes) : numError + Z :=
  let '(neg, digits) :=
    match s with
    | c :: s' => if c =c "+" then (false, s') else if c =c "-" then (true, s') else (false, s)
    | [] => (false, s)
    end in
  match ParseUint 10 64 digits with
  | inl e => inl e
  | inr un =>
      if negb neg && (2 ^ 63 <=? un)%Z then inl ErrRange
      else if neg && (2 ^ 63 <? un)%Z then inl ErrRange
      else inr (if neg then - un else un)%Z
  end.

(** [strconv.FormatUint(n, base)] for [2 <= base <= 10]. *)
Definition digitChar (d : Z) : ascii := ascii_of_N (Z.to_N (48 + d)).

Fixpoint formatDigits (base : Z) (fuel : nat) (n : Z) : bytes :=
  match fuel with
  | 0 => []
  | S fuel =>
      if (n <? base)%Z then [digitChar n]
      else formatDigits base fuel (n / base) ++ [digitChar (n mod base)]
  end.

(** 64 digits write every 64-bit value in every base. *)
Definition FormatUint (base n : Z) : bytes := formatDigits base 64 n.

Definition FormatInt (n : Z) : bytes :=
  if (n <? 0)%Z then "-"%char :: FormatUint 10 (- n) else FormatUint 10 n.

(** ** unicode/utf8 *)

Definition RuneError : Z := 65533.

(** Byte [n] of [s] is a continuation byte in the range [lo..hi]. *)
Definition cont (s : bytes) (n : nat) (lo hi : Z) : option Z :=
  match s !! n with
  | Some c => if ((lo <=? code c) && (code c <=? hi))%Z then Some (Z.land (code c) 63) else None
  | None => None
  end.

(** [utf8.DecodeRuneInString]: the first rune and its width in bytes; an
    invalid sequence is [RuneError] of width one. *)
Definition DecodeRune (s : bytes) : Z * nat :=
  match s with
  | [] => (RuneError, 0)
  | c :: _ =>
      let b := code c in
      let two := match cont s 1 128 191 with
                 | Some x => (Z.land b 31 * 64 + x, 2%nat)%Z | None => (RuneError, 1) end in
      let three lo hi := match cont s 1 lo hi, cont s 2 128 191 with
                 | Some x, Some y => ((Z.land b 15 * 64 + x) * 64 + y, 3%nat)%Z
                 | _, _ => (RuneError, 1) end in
      let four lo hi := match cont s 1 lo hi, cont s 2 128 191, cont s 3 128 191 with
                 | Some x, Some y, Some z => (((Z.land b 7 * 64 + x) * 64 + y) * 64 + z, 4%nat)%Z
                 | _, _, _ => (RuneError, 1) end in
      if (b <? 128)%Z then (b, 1)
      else if ((194 <=? b) && (b <=? 223))%Z then two
      else if (b =? 224)%Z then three 160%Z 191%Z
      else if (b =? 237)%Z then three 128%Z 159%Z
      else if ((225 <=? b) && (b <=? 239))%Z then three 128%Z 191%Z
      else if (b =? 240)%Z then four 144%Z 191%Z
      else if ((241 <=? b) && (b <=? 243))%Z then four 128%Z 191%Z
      else if (b =? 244)%Z then four 128%Z 143%Z
      else (RuneError, 1)
  end.

Lemma DecodeRune_width s : s <> [] -> 1 <= snd (DecodeRune s) <= 4.
Proof.
  destruct s as [|c s]; [done|]. intros _. unfold DecodeRune. cbv zeta.
  repeat match goal with
  | |- context [if ?b then _ else _] => destruct b
  | |- context [match cont ?s ?n ?lo ?hi with _ => _ end] => destruct (cont s n lo hi)
  end; cbn; lia.
Qed.

(** An ASCII byte is a rune of width one. *)
Lemma DecodeRune_ascii c s : (code c < 128)%Z -> DecodeRune (c :: s) = (code c, 1).
Proof. intros H. unfold DecodeRune. by rewrite (proj2 (Z.ltb_lt _ _)). Qed.

(** ** strings.TrimSpace

    The UTF-8 encodings of the white-space runes of [unicode.IsSpace]; a rune
    at either end is a space iff its encoding is a prefix (suffix) of the
    string. *)
Definition byte (n : N) : ascii := ascii_of_N n.

Definition spaceRunes : list bytes :=
  [[byte 9]; [byte 10]; [byte 11]; [byte 12]; [byte 13]; [byte 32];
   [byte 194; byte 133]; [byte 194; byte 160]; [byte 225; byte 154; byte 128];
   [byte 226; byte 128; byte 128]; [byte 226; byte 128; byte 129]; [byte 226; byte 128; byte 130];
   [byte 226; byte 128; byte 131]; [byte 226; byte 128; byte 132]; [byte 226; byte 128; byte 133];
   [byte 226; byte 128; byte 134]; [byte 226; byte 128; byte 135]; [byte 226; byte 128; byte 136];
   [byte 226; byte 128; byte 137]; [byte 226; byte 128; byte 138]; [byte 226; byte 128; byte 168];
   [byte 226; byte 128; byte 169]; [byte 226; byte 128; byte 175]; [byte 226; byte 129; byte 159];
   [byte 227; byte 128; byte 128]].

Fixpoint trimLeft (fuel : nat) (s : bytes) : bytes :=
  match fuel with
  | 0 => s
  | S fuel =>
      match list_find (fun sp => HasPrefix s sp = true) spaceRunes with
      | Some (_, sp) => trimLeft fuel (drop (length sp) s)
      | None => s
      end
  end.

Fixpoint trimRight (fuel : nat) (s : bytes) : bytes :=
  match fuel with
  | 0 => s
  | S fuel =>
      match list_find (fun sp => HasSuffix s sp = true) spaceRunes with
      | Some (_, sp) => trimRight fuel (take (length s - length sp) s)
      | None => s
      end
  end.

Definition TrimSpace (s : bytes) : bytes := trimRight (length s) (trimLeft (length s) s).

(** ** strings.Count and strings.ReplaceAll for a non-empty [old] *)

Fixpoint countFuel (fuel : nat) (s old : bytes) : nat :=
  match fuel with
  | 0 => 0
  | S fuel =>
      match s with
      | [] => 0
      | _ :: s' =>
          if HasPrefix s old then S (countFuel fuel (drop (length old) s) old)
          else countFuel fuel s' old
      end
  end.

Fixpoint replaceFuel (fuel : nat) (s old new : bytes) : bytes :=
  match fuel with
  | 0 => s
  | S fuel =>
      match s with
      | [] => []
      | c :: s' =>
          if HasPrefix s old then new ++ replaceFuel fuel (drop (length old) s) old new
          else c :: replaceFuel fuel s' old new
      end
  end.

(** The rune boundaries, for an empty [old]: [Count] is the number of runes
    plus one and [ReplaceAll] inserts [new] before each rune and at the end. *)
Fixpoint runesFuel (fuel : nat) (s : bytes) : list bytes :=
  match fuel with
  | 0 => []
  | S fuel =>
      match s with
      | [] => []
      | _ => let w := snd (DecodeRune s) in take w s :: runesFuel fuel (drop w s)
      end
  end.

Definition runes (s : bytes) : list bytes := runesFuel (length s) s.

Definition Count (s old : bytes) : nat :=
  match old with [] => length (runes s) + 1 | _ => countFuel (length s) s old end.

Definition ReplaceAll (s old new : bytes) : bytes :=
  match old with
  | [] => mjoin (map (fun r => new ++ r) (runes s)) ++ new
  | _ => replaceFuel (length s) s old new
  end.

(** ** io/fs file modes *)

Definition ModeDir : Z := 2 ^ 31.
Definition ModeSymlink : Z := 2 ^ 27.
Definition ModeDevice : Z := 2 ^ 26.
Definition ModeNamedPipe : Z := 2 ^ 25.
Definition ModeSocket : Z := 2 ^ 24.
Definition ModeSetuid : Z := 2 ^ 23.
Definition ModeSetgid : Z := 2 ^ 22.
Definition ModeCharDevice : Z := 2 ^ 21.
Definition ModeSticky : Z := 2 ^ 20.
Definition ModeIrregular : Z := 2 ^ 19.

Definition ModeType : Z :=
  fold_right Z.lor 0%Z
    [ModeDir; ModeSymlink; ModeNamedPipe; ModeSocket; ModeDevice; ModeCharDevice; ModeIrregular].

Definition has (mode bits : Z) : bool := negb (Z.land mode bits =? 0)%Z.
Definition IsRegular (mode : Z) : bool := negb (has mode ModeType).
Definition IsDir (mode : Z) : bool := has mode ModeDir.
Definition Perm (mode : Z) : Z := Z.land mode 511.

(** * Lemmas *)

Lemma digitVal_bound c d : digitVal c = Some d -> (0 <= d)%Z.
Proof.
  unfold digitVal. repeat case_match; intros [= <-];
    repeat match goal with H : _ && _ = true |- _ => apply andb_true_iff in H as [?%Z.leb_le _] end; lia.
Qed.

Lemma parseDigits_bound base maxVal n s v :
  (0 < base)%Z -> (0 <= n <= maxVal)%Z -> parseDigits base maxVal n s = inr v -> (n <= v <= maxVal)%Z.
Proof.
  intros Hb. revert n. induction s as [|c s IH]; intros n Hn; cbn; [intros [= <-]; lia|].
  destruct (digitVal c) as [d|] eqn:Ed; [|done]. apply digitVal_bound in Ed.
  destruct (base <=? d)%Z; [done|]. destruct (_ <=? n)%Z; [done|].
  destruct (Z.ltb_spec maxVal (n * base + d)); [done|]. intros Hv.
  apply IH in Hv; [nia|nia].
Qed.

Lemma ParseInt_range s v : ParseInt s = inr v -> (- 2 ^ 63 <= v <= maxInt64)%Z.
Proof.
  unfold ParseInt.
  set (p := match s with [] => _ | c :: s' => _ end). destruct p as [neg digits].
  destruct (ParseUint 10 64 digits) as [e|un] eqn:Eu; [done|].
  assert (0 <= un)%Z.
  { unfold ParseUint in Eu. destruct digits; [done|]. apply parseDigits_bound in Eu; lia. }
  unfold maxInt64.
  destruct neg; cbn [negb andb].
  - destruct (Z.ltb_spec (2 ^ 63) un); [done|]. intros [= <-]. lia.
  - destruct (Z.leb_spec (2 ^ 63) un); [done|]. intros [= <-]. lia.
Qed.

Lemma digitVal_digitChar d : (0 <= d < 10)%Z -> digitVal (digitChar d) = Some d.
Proof.
  intros Hd. assert (d ∈ [0;1;2;3;4;5;6;7;8;9]%Z) as H by (rewrite !elem_of_cons; lia).
  rewrite !elem_of_cons, elem_of_nil in H. by destruct_or?; subst.
Qed.

Lemma parseDigits_snoc base maxVal a s c :
  parseDigits base maxVal a (s ++ [c]) =
  match parseDigits base maxVal a s with
  | inl e => inl e
  | inr v => parseDigits base maxVal v [c]
  end.
Proof.
  revert a. induction s as [|x s IH]; intros a; [done|]. cbn [app parseDigits].
  destruct (digitVal x); [|done]. do 3 (case_match; [done|]). apply IH.
Qed.

Lemma parseDigits_one base maxVal v d :
  (2 <= base <= 10 -> 0 <= d < base -> 0 <= v -> v * base + d <= maxVal -> maxVal <= maxUint64 ->
  parseDigits base maxVal v [digitChar d] = inr (v * base + d))%Z.
Proof.
  intros Hb Hd Hv Hle Hm. cbn [parseDigits]. rewrite digitVal_digitChar by lia.
  rewrite (proj2 (Z.leb_gt _ _)) by lia.
  rewrite (proj2 (Z.leb_gt _ _)) by (assert (v <= maxUint64 / base)%Z by (apply Z.div_le_lower_bound; nia); lia).
  by rewrite (proj2 (Z.ltb_ge _ _)) by lia.
Qed.

Lemma parse_formatDigits base maxVal fuel n :
  (2 <= base <= 10 -> 0 <= n < base ^ Z.of_nat fuel -> n <= maxVal -> maxVal <= maxUint64 ->
  parseDigits base maxVal 0 (formatDigits base fuel n) = inr n)%Z.
Proof.
  intros Hb. revert n. induction fuel as [|fuel IH]; intros n Hn Hle Hm; [cbn in Hn; cbn [formatDigits parseDigits]; f_equal; lia|].
  cbn [formatDigits]. destruct (Z.ltb_spec n base).
  { by rewrite parseDigits_one by lia. }
  pose proof (Z.div_mod n base ltac:(lia)). pose proof (Z.mod_pos_bound n base ltac:(lia)).
  assert (0 <= n / base)%Z by (apply Z.div_pos; lia).
  rewrite parseDigits_snoc, IH; [|split; [done|]|nia|done].
  - rewrite parseDigits_one by lia. f_equal. lia.
  - apply Z.div_lt_upper_bound; [lia|]. rewrite Nat2Z.inj_succ, Z.pow_succ_r in Hn by lia. lia.
Qed.

Lemma formatDigits_cons base fuel n :
  (2 <= base <= 10)%Z -> (0 <= n)%Z -> fuel <> 0 ->
  exists d s, formatDigits base fuel n = digitChar d :: s /\ (0 <= d < 10)%Z.
Proof.
  intros Hb. revert n. induction fuel as [|fuel IH]; intros n Hn Hf; [done|]. cbn [formatDigits].
  destruct (Z.ltb_spec n base); [exists n, []; split; [done|lia]|].
  pose proof (Z.mod_pos_bound n base ltac:(lia)).
  destruct fuel as [|fuel]; [exists (n mod base)%Z, []; split; [done|lia]|].
  destruct (IH (n / base)%Z) as (d & s & -> & Hd); [apply Z.div_pos; lia|done|]. by exists d, (s ++ [digitChar (n mod base)]).
Qed.

(** Parsing what was formatted gives the number back. *)
Lemma ParseUint_FormatUint base bits n :
  (2 <= base <= 10 -> 0 <= bits <= 64 -> 0 <= n < 2 ^ bits -> ParseUint base bits (FormatUint base n) = inr n)%Z.
Proof.
  intros Hb Hbits Hn. assert (2 ^ bits <= 2 ^ 64)%Z by (apply Z.pow_le_mono_r; lia).
  assert (2 ^ 64 <= base ^ 64)%Z by (apply Z.pow_le_mono_l; lia).
  assert (parseDigits base (2 ^ bits - 1) 0 (FormatUint base n) = inr n) as Hp.
  { apply parse_formatDigits; [lia|change (Z.of_nat 64) with 64%Z; lia|lia|unfold maxUint64; lia]. }
  unfold ParseUint. destruct (formatDigits_cons base 64 n) as (d & s & E & _); [lia|lia|done|].
  unfold FormatUint in *. rewrite E in *. exact Hp.
Qed.

Lemma digitChar_not_sign d : (0 <= d < 10)%Z -> (digitChar d =c "+") = false /\ (digitChar d =c "-") = false.
Proof.
  intros Hd. assert (d ∈ [0;1;2;3;4;5;6;7;8;9]%Z) as H by (rewrite !elem_of_cons; lia).
  rewrite !elem_of_cons, elem_of_nil in H. by destruct_or?; subst.
Qed.

Lemma ParseInt_FormatInt n : (- 2 ^ 63 <= n <= maxInt64)%Z -> ParseInt (FormatInt n) = inr n.
Proof.
  unfold maxInt64, FormatInt. intros Hn. unfold ParseInt. destruct (Z.ltb_spec n 0).
  - change ("-" =c "+") with false. change ("-" =c "-") with true. cbv iota beta.
    rewrite ParseUint_FormatUint by lia. cbn [negb andb].
    rewrite (proj2 (Z.ltb_ge _ _)) by lia. f_equal. lia.
  - pose proof (ParseUint_FormatUint 10 64 n ltac:(lia) ltac:(lia) ltac:(lia)) as E.
    unfold FormatUint in *. destruct (formatDigits_cons 10 64 n) as (d & s & Ed & Hd); [lia|lia|done|].
    rewrite Ed in *. destruct (digitChar_not_sign d Hd) as [-> ->]. rewrite E. cbn [negb andb].
    rewrite (proj2 (Z.leb_gt _ _)) by lia. done.
Qed.

(** Bytes with the same code are equal. *)
Lemma code_inj a b : code a = code b -> a = b.
Proof. unfold code. intros E. rewrite <- (ascii_N_embedding a), <- (ascii_N_embedding b). f_equal. lia. Qed.

End GoStd.
