(* ===== verification/Filepath.v ===== *)
(** * Package [path/filepath] on Unix

    The path functions that [allowedpaths] is built on, over components: a
    cleaned path is a flag (rooted or not) and a list of components.  The
    results proved here carry the sandbox: [Rel] does not escape iff the base is
    a component prefix of the target, and joining the result to the base gives
    the cleaned target back. *)

From S2P Require Import Prelude.
From stdpp Require Import base list strings sets.
From Stdlib Require Import ZArith Lia Ascii.

Module Filepath.

Abbreviation sep := "/"%char.

Definition IsAbs (p : bytes) : bool := HasPrefix p [sep].

(** One component of [Clean]: [acc] holds the components kept, last first. *)
Definition clean_step (rooted : bool) (acc : list bytes) (c : bytes) : list bytes :=
  if bytes_eqb c [] || (c =s ".") then acc
  else if c =s ".." then
    match acc with
    | t :: acc' => if t =s ".." then c :: acc else acc'
    | [] => if rooted then [] else [c]
    end
  else c :: acc.

Definition clean_comps (rooted : bool) (cs : list bytes) : list bytes :=
  rev (fold_left (clean_step rooted) cs []).

(** The cleaned components of [p]; [IsAbs p] tells whether it is rooted. *)
Definition comps (p : bytes) : list bytes := clean_comps (IsAbs p) (Split sep p).

Definition render (rooted : bool) (cs : list bytes) : bytes :=
  if rooted then sep :: Join_sep sep cs
  else match cs with [] => lit "." | _ => Join_sep sep cs end.

Definition Clean (p : bytes) : bytes := render (IsAbs p) (comps p).

(** [Join] skips leading empty elements and cleans the rest. *)
Fixpoint Join (elems : list bytes) : bytes :=
  match elems with
  | [] => []
  | e :: rest => if bytes_eqb e [] then Join rest else Clean (Join_sep sep elems)
  end.

(** [Dir]: all but the last element, cleaned. *)
Definition Dir (p : bytes) : bytes :=
  Clean (match rev (Split sep p) with
         | _ :: [] => []
         | _ :: init => Join_sep sep (rev init) ++ [sep]
         | [] => []
         end).

(** [Base]: the last element, after trailing slashes are removed. *)
Definition Base (p : bytes) : bytes :=
  match p with
  | [] => lit "."
  | _ =>
      let stripped := take (length p - run_length (fun c => Ascii.eqb c sep) (rev p)) p in
      let b := List.last (Split sep stripped) [] in
      if bytes_eqb b [] then [sep] else b
  end.

Fixpoint strip_common (b t : list bytes) : list bytes * list bytes :=
  match b, t with
  | x :: b', y :: t' => if bytes_eqb x y then strip_common b' t' else (b, t)
  | _, _ => (b, t)
  end.

(** [Rel base targ]; [None] is the error. *)
Definition Rel (base targ : bytes) : option bytes :=
  if bytes_eqb (Clean targ) (Clean base) then Some (lit ".")
  else if negb (Bool.eqb (IsAbs base) (IsAbs targ)) then None
  else
    let tw := if negb (IsAbs targ) && bool_decide (comps targ = []) then [lit "."] else comps targ in
    let '(b, t) := strip_common (comps base) tw in
    match b, t with
    | x :: _, _ :: _ =>
        if x =s ".." then None
        else Some (Join_sep sep (replicate (length b) (lit "..") ++ t))
    | _, _ => Some (Join_sep sep (replicate (length b) (lit "..") ++ t))
    end.

(** The test the callers apply to a relative path: it climbs out of the base. *)
Definition escapes (rel : bytes) : bool := (rel =s "..") || HasPrefix rel (lit "../").

(** * Splitting and joining *)

Lemma Split_nonempty c s : Split c s <> [].
Proof. destruct s as [|x s]; cbn; [done|]. destruct (Ascii.eqb x c); [done|]. by destruct (Split c s). Qed.

Lemma Split_no_sep c s : Forall (fun w => c ∉ w) (Split c s).
Proof.
  induction s as [|x s IH]; cbn; [repeat constructor; apply not_elem_of_nil|].
  destruct (Ascii.eqb_spec x c) as [->|Hne]; [constructor; [apply not_elem_of_nil|done]|].
  destruct (Split c s) as [|w ws]; inversion IH; subst; constructor; try done.
  - apply not_elem_of_cons. split; [congruence|apply not_elem_of_nil].
  - apply not_elem_of_cons. split; [congruence|done].
Qed.

Lemma Split_app c w s : c ∉ w -> Split c (w ++ c :: s) = w :: Split c s.
Proof.
  induction w as [|x w IH]; intros Hw; cbn.
  - by rewrite Ascii.eqb_refl.
  - apply not_elem_of_cons in Hw as [Hx Hw]. rewrite (proj2 (Ascii.eqb_neq x c)) by congruence.
    by rewrite IH.
Qed.

Lemma Split_word c w : c ∉ w -> Split c w = [w].
Proof.
  induction w as [|x w IH]; intros Hw; cbn; [done|].
  apply not_elem_of_cons in Hw as [Hx Hw]. rewrite (proj2 (Ascii.eqb_neq x c)) by congruence.
  by rewrite IH.
Qed.

Lemma Split_Join c l : l <> [] -> Forall (fun w => c ∉ w) l -> Split c (Join_sep c l) = l.
Proof.
  intros Hne Hl. induction Hl as [|w l Hw Hl IH]; [done|].
  destruct l as [|w' l]; [by apply Split_word|].
  change (Join_sep c (w :: w' :: l)) with (w ++ c :: Join_sep c (w' :: l)).
  rewrite Split_app by done. by rewrite IH.
Qed.

(** * Cleaned components *)

Definition valid_comp (c : bytes) : Prop :=
  c <> [] /\ c <> lit "." /\ c <> lit ".." /\ sep ∉ c.

Lemma clean_step_valid acc c :
  Forall valid_comp acc -> sep ∉ c -> Forall valid_comp (clean_step true acc c).
Proof.
  intros Hacc Hc. unfold clean_step.
  destruct (bytes_eqb_spec c []), (bytes_eqb_spec c (lit ".")); cbn; try done.
  destruct (bytes_eqb_spec c (lit "..")).
  - destruct Hacc as [|t acc Ht Hacc]; [constructor|].
    destruct (bytes_eqb_spec t (lit "..")); [by destruct Ht as (_ & _ & ? & _)|done].
  - constructor; [|done]. by repeat split.
Qed.

Lemma clean_fold_valid cs acc :
  Forall valid_comp acc -> Forall (fun c => sep ∉ c) cs ->
  Forall valid_comp (fold_left (clean_step true) cs acc).
Proof.
  intros Hacc Hcs. revert acc Hacc. induction Hcs; intros acc Hacc; [done|].
  cbn. apply IHHcs. by apply clean_step_valid.
Qed.

(** The components of a cleaned absolute path are ordinary names: no empty
    one, no dot, no dot-dot and no separator inside. *)
Lemma comps_valid p : IsAbs p = true -> Forall valid_comp (comps p).
Proof.
  intros Hp. unfold comps, clean_comps. rewrite Hp. apply Forall_rev, clean_fold_valid; [done|].
  apply Split_no_sep.
Qed.

Lemma clean_step_keep rooted acc c : valid_comp c -> clean_step rooted acc c = c :: acc.
Proof.
  intros (H1 & H2 & H3 & _). unfold clean_step.
  by rewrite (proj2 (bytes_eqb_false c [])), (proj2 (bytes_eqb_false c (lit "."))),
    (proj2 (bytes_eqb_false c (lit ".."))).
Qed.

Lemma clean_fold_keep rooted cs acc :
  Forall valid_comp cs -> fold_left (clean_step rooted) cs acc = rev cs ++ acc.
Proof.
  intros Hcs. revert acc. induction Hcs as [|c cs Hc Hcs IH]; intros acc; [done|].
  cbn. rewrite clean_step_keep, IH by done. by rewrite <- app_assoc.
Qed.

Lemma IsAbs_cons s : IsAbs (sep :: s) = true.
Proof. reflexivity. Qed.

Lemma valid_no_sep cs : Forall valid_comp cs -> Forall (fun c => sep ∉ c) cs.
Proof. intros H. eapply Forall_impl; [exact H|]. by intros c (_ & _ & _ & ?). Qed.

Lemma comps_render cs : Forall valid_comp cs -> comps (render true cs) = cs.
Proof.
  intros Hcs. unfold comps, render. rewrite IsAbs_cons.
  change (sep :: Join_sep sep cs) with ([] ++ sep :: Join_sep sep cs).
  rewrite Split_app by apply not_elem_of_nil. unfold clean_comps. cbn [fold_left].
  change (clean_step true [] []) with (@nil bytes).
  destruct cs as [|c cs]; [done|].
  rewrite Split_Join by (try done; by apply valid_no_sep).
  rewrite clean_fold_keep by done. rewrite app_nil_r. apply rev_involutive.
Qed.

Lemma Clean_abs p : IsAbs p = true -> Clean p = render true (comps p).
Proof. intros H. unfold Clean. by rewrite H. Qed.

Lemma IsAbs_Clean p : IsAbs p = true -> IsAbs (Clean p) = true.
Proof. intros H. by rewrite Clean_abs. Qed.

Lemma comps_Clean p : IsAbs p = true -> comps (Clean p) = comps p.
Proof. intros H. rewrite Clean_abs by done. apply comps_render, comps_valid, H. Qed.

(** Cleaning twice is cleaning once. *)
Lemma Clean_idem p : IsAbs p = true -> Clean (Clean p) = Clean p.
Proof.
  intros H. rewrite (Clean_abs (Clean p)) by (by apply IsAbs_Clean).
  rewrite comps_Clean by done. by rewrite <- Clean_abs.
Qed.

Lemma Clean_eq_comps p q :
  IsAbs p = true -> IsAbs q = true -> (Clean p = Clean q <-> comps p = comps q).
Proof.
  intros Hp Hq. split; intros H.
  - by rewrite <- (comps_Clean p), <- (comps_Clean q), H.
  - by rewrite (Clean_abs p), (Clean_abs q), H.
Qed.

(** * [Rel] on absolute paths *)

Lemma strip_common_spec b t b' t' :
  strip_common b t = (b', t') -> exists common, b = common ++ b' /\ t = common ++ t' /\
    (b' = [] \/ t' = [] \/ head b' <> head t').
Proof.
  revert t. induction b as [|x b IH]; intros t; [intros [= <- <-]; exists []; eauto|].
  destruct t as [|y t]; cbn; [intros [= <- <-]; exists []; eauto|].
  destruct (bytes_eqb_spec x y) as [->|Hne].
  - intros (common & -> & -> & H)%IH. exists (y :: common). eauto.
  - intros [= <- <-]. exists []. split; [done|]. split; [done|]. right; right. cbn. congruence.
Qed.

Lemma strip_common_prefix b t : strip_common b (b ++ t) = ([], t).
Proof. induction b as [|x b IH]; cbn; [by destruct t|]. by rewrite bytes_eqb_refl. Qed.

Lemma Join_sep_cons c ws : exists s, Join_sep sep (c :: ws) = c ++ s /\ (s = [] \/ exists s', s = sep :: s').
Proof. destruct ws as [|w ws]; [exists []; cbn; rewrite app_nil_r; eauto|]. eexists. split; [reflexivity|eauto]. Qed.

Lemma escapes_dotdot n t : escapes (Join_sep sep (replicate (S n) (lit "..") ++ t)) = true.
Proof.
  cbn [replicate app]. destruct (Join_sep_cons (lit "..") (replicate n (lit "..") ++ t)) as (s & -> & [->|[s' ->]]).
  - reflexivity.
  - reflexivity.
Qed.

Lemma escapes_valid c ws : valid_comp c -> escapes (Join_sep sep (c :: ws)) = false.
Proof.
  intros (H1 & H2 & H3 & H4). unfold escapes.
  destruct (Join_sep_cons c ws) as (s & -> & Hs).
  apply orb_false_iff. split.
  - apply bytes_eqb_false. intros E.
    destruct c as [|a [|b [|d c]]]; cbn in E; try done; destruct Hs as [->|[s' ->]];
      rewrite ?app_nil_r in E; cbn in E; injection E; intros; subst; try done.
  - destruct (HasPrefix (c ++ s) (lit "../")) eqn:E; [|done]. exfalso.
    apply HasPrefix_true in E as [t E].
    destruct c as [|a [|b [|d c]]]; cbn in E; try done; destruct Hs as [->|[s' ->]];
      cbn in E; injection E; intros; subst; try done.
    all: try (apply H4; set_solver).
Qed.

Lemma escapes_dot : escapes (lit ".") = false.
Proof. reflexivity. Qed.

(** The relative path [Rel] gives for a target inside the base. *)
Definition inner_rel (t : list bytes) : bytes :=
  match t with [] => lit "." | _ => Join_sep sep t end.

Lemma Rel_inside base targ t :
  IsAbs base = true -> IsAbs targ = true -> comps targ = comps base ++ t ->
  Rel base targ = Some (inner_rel t).
Proof.
  intros Hb Ht Hc. unfold Rel.
  destruct (bytes_eqb_spec (Clean targ) (Clean base)) as [E|E].
  - apply Clean_eq_comps in E; [|done..]. rewrite Hc in E.
    assert (t = []) as -> by (destruct t; [done|]; apply (f_equal length) in E; rewrite length_app in E; cbn in E; lia).
    reflexivity.
  - rewrite Hb, Ht. cbn [Bool.eqb negb andb]. rewrite Hc, strip_common_prefix. cbn [length replicate app].
    destruct t as [|c t]; [|done]. exfalso. apply E, Clean_eq_comps; [done..|]. by rewrite app_nil_r in Hc.
Qed.

Lemma Rel_outside base targ rel :
  IsAbs base = true -> IsAbs targ = true -> ~ (comps base `prefix_of` comps targ) ->
  Rel base targ = Some rel -> escapes rel = true.
Proof.
  intros Hb Ht Hp. unfold Rel.
  destruct (bytes_eqb_spec (Clean targ) (Clean base)) as [E|E].
  { exfalso. apply Hp. apply Clean_eq_comps in E; [|done..]. by rewrite E. }
  rewrite Hb, Ht. cbn [Bool.eqb negb andb].
  destruct (strip_common (comps base) (comps targ)) as [b t] eqn:Es.
  apply strip_common_spec in Es as (common & Eb & Et & _).
  destruct b as [|x b]; [exfalso; apply Hp; exists t; by rewrite Eb, app_nil_r in *|].
  assert (x <> lit "..") as Hx.
  { pose proof (comps_valid base Hb) as Hv. rewrite Eb in Hv. apply Forall_app in Hv as [_ Hv].
    inversion Hv as [|?? (_ & _ & ? & _)]; subst. done. }
  destruct t as [|y t].
  - intros [= <-]. apply escapes_dotdot.
  - rewrite (proj2 (bytes_eqb_false x (lit ".."))) by done. intros [= <-]. apply escapes_dotdot.
Qed.

Lemma Rel_total base targ :
  IsAbs base = true -> IsAbs targ = true -> is_Some (Rel base targ).
Proof.
  intros Hb Ht. unfold Rel. destruct (bytes_eqb _ _); [eauto|]. rewrite Hb, Ht. cbn [Bool.eqb negb andb].
  destruct (strip_common (comps base) (comps targ)) as [b t] eqn:Es.
  apply strip_common_spec in Es as (common & Eb & Et & _).
  destruct b as [|x b]; [eauto|]. destruct t as [|y t]; [eauto|].
  rewrite (proj2 (bytes_eqb_false x (lit ".."))); [eauto|].
  pose proof (comps_valid base Hb) as Hv. rewrite Eb in Hv. apply Forall_app in Hv as [_ Hv].
  inversion Hv as [|?? (_ & _ & ? & _)]; subst. done.
Qed.

(** [targ] is [base] or lies below it, component by component. *)
Definition within (base targ : bytes) : Prop := comps base `prefix_of` comps targ.

Lemma inner_rel_escapes base targ t :
  IsAbs targ = true -> comps targ = comps base ++ t -> escapes (inner_rel t) = false.
Proof.
  intros Ht Hc. destruct t as [|c t]; [reflexivity|].
  apply escapes_valid. pose proof (comps_valid targ Ht) as Hv. rewrite Hc in Hv.
  apply Forall_app in Hv as [_ Hv]. by inversion Hv.
Qed.

(** The lexical containment test of the sandbox decides [within]. *)
Lemma Rel_within base targ :
  IsAbs base = true -> IsAbs targ = true ->
  (exists rel, Rel base targ = Some rel /\ escapes rel = false) <-> within base targ.
Proof.
  intros Hb Ht. split.
  - intros (rel & Hr & He). destruct (decide (comps base `prefix_of` comps targ)) as [|Hp]; [done|].
    apply (Rel_outside _ _ _ Hb Ht Hp) in Hr. congruence.
  - intros [t Hc]. exists (inner_rel t). split; [by apply Rel_inside|by eapply inner_rel_escapes].
Qed.

(** * Joining the relative path back *)

Lemma Split_app_sep c a b : Split c (a ++ c :: b) = Split c a ++ Split c b.
Proof.
  induction a as [|x a IH]; cbn; [by rewrite Ascii.eqb_refl|].
  destruct (Ascii.eqb x c); [by rewrite IH|]. rewrite IH.
  pose proof (Split_nonempty c a). by destruct (Split c a).
Qed.

Lemma Join_two p r : p <> [] -> Join [p; r] = Clean (p ++ sep :: r).
Proof. intros Hp. cbn. destruct (bytes_eqb_spec p []); [done|]. reflexivity. Qed.

Lemma abs_nonempty p : IsAbs p = true -> p <> [].
Proof. by intros H ->. Qed.

Lemma IsAbs_app p s : IsAbs p = true -> IsAbs (p ++ s) = true.
Proof. unfold IsAbs. destruct p as [|c p]; [done|]. cbn. by destruct (Ascii.eqb c sep). Qed.

Lemma comps_app p r :
  IsAbs p = true ->
  comps (p ++ sep :: r) = rev (fold_left (clean_step true) (Split sep r) (rev (comps p))).
Proof.
  intros Hp. unfold comps, clean_comps. rewrite IsAbs_app, Hp by done.
  by rewrite Split_app_sep, fold_left_app, rev_involutive.
Qed.

Lemma comps_app_valid p t :
  IsAbs p = true -> Forall valid_comp t -> comps (p ++ sep :: inner_rel t) = comps p ++ t.
Proof.
  intros Hp Ht. rewrite comps_app by done. destruct t as [|c t].
  - cbn [inner_rel]. change (Split sep (lit ".")) with [lit "."]. cbn [fold_left].
    change (clean_step true (rev (comps p)) (lit ".")) with (rev (comps p)).
    by rewrite rev_involutive, app_nil_r.
  - cbn [inner_rel]. rewrite Split_Join by (try done; by apply valid_no_sep).
    rewrite clean_fold_keep by done. by rewrite rev_app_distr, !rev_involutive.
Qed.

Lemma IsAbs_Join p r : IsAbs p = true -> IsAbs (Join [p; r]) = true.
Proof. intros Hp. rewrite Join_two by (by apply abs_nonempty). by apply IsAbs_Clean, IsAbs_app. Qed.

(** Joining the base and the relative path of a target inside it gives the
    cleaned target. *)
Lemma Join_Rel base targ rel :
  IsAbs base = true -> IsAbs targ = true -> Rel base targ = Some rel -> escapes rel = false ->
  Join [base; rel] = Clean targ.
Proof.
  intros Hb Ht Hr He. destruct (proj1 (Rel_within base targ Hb Ht)) as [t Hc]; [eauto|].
  rewrite (Rel_inside _ _ t) in Hr by done. injection Hr as <-.
  rewrite Join_two by (by apply abs_nonempty).
  apply Clean_eq_comps; [by apply IsAbs_app|done|]. rewrite Hc. apply comps_app_valid; [done|].
  pose proof (comps_valid targ Ht) as Hv. rewrite Hc in Hv. by apply Forall_app in Hv as [_ ?].
Qed.

(** A relative path produced by [Rel] does not climb: its components are
    ordinary names. *)
Lemma Rel_rel_comps base targ rel :
  IsAbs base = true -> IsAbs targ = true -> Rel base targ = Some rel -> escapes rel = false ->
  exists t, rel = inner_rel t /\ Forall valid_comp t /\ comps targ = comps base ++ t.
Proof.
  intros Hb Ht Hr He. destruct (proj1 (Rel_within base targ Hb Ht)) as [t Hc]; [eauto|].
  rewrite (Rel_inside _ _ t) in Hr by done. injection Hr as <-. exists t. split; [done|].
  split; [|done]. pose proof (comps_valid targ Ht) as Hv. rewrite Hc in Hv. by apply Forall_app in Hv as [_ ?].
Qed.

End Filepath.
