(* ===== verification/PathPolicy.v ===== *)
(** * Path grants: [allowedpaths/path_mode.go], [path_match.go], [lexical.go]

    A grant is a directory with an access mode.  [resolvePath] selects the most
    specific grant that contains a path; it is generic in the type of the
    grants, here the class [Grant], whose two instances are the roots of the
    lexical policy (below) and those of the sandbox (file [Sandbox]). *)

From S2P Require Import Prelude Filepath.
From stdpp Require Import base list strings sets.
From Stdlib Require Import ZArith Lia Ascii.
Import Filepath.

Module PathPolicy.

Inductive pathMode := pathModeReadOnly | pathModeReadWrite.

#[export] Instance pathMode_eq_dec : EqDecision pathMode.
Proof. solve_decision. Defined.

(** A terminal [:ro] or [:rw] is the access mode; it is never part of the
    directory's name.  The third result tells whether a suffix was found. *)
Definition splitAllowedPathMode (path : bytes) : bytes * pathMode * bool :=
  if HasSuffix path (lit ":ro") && (3 <? length path)
  then (take (length path - 3) path, pathModeReadOnly, true)
  else if HasSuffix path (lit ":rw") && (3 <? length path)
  then (take (length path - 3) path, pathModeReadWrite, true)
  else (path, pathModeReadOnly, false).

Definition parseAllowedPathMode (path : bytes) : bytes * pathMode :=
  let '(p, mode, _) := splitAllowedPathMode path in (p, mode).

(** * Root selection *)

(** What root selection needs to know of a grant. *)
Class Grant (T : Type) := { grant_path : T -> bytes; grant_mode : T -> pathMode }.

Section Resolve.
Context {T : Type}.
Context (rootPath : T -> bytes) (prefer : option (T -> T -> bool)) (absPath : bytes).

(** One iteration over the roots; the accumulator is [best] and [bestRel]. *)
Definition resolve_step (acc : option (T * bytes)) (candidate : T) : option (T * bytes) :=
  match Rel (rootPath candidate) absPath with
  | None => acc
  | Some rel =>
      if escapes rel then acc
      else
        match acc with
        | None => Some (candidate, rel)
        | Some (best, _) =>
            let longerMatch := length (rootPath best) <? length (rootPath candidate) in
            let tieMatch :=
              (length (rootPath candidate) =? length (rootPath best)) &&
              match prefer with Some f => f candidate best | None => false end in
            if longerMatch || tieMatch then Some (candidate, rel) else acc
        end
  end.

Definition resolvePath (roots : list T) : option (T * bytes) :=
  fold_left resolve_step roots None.
End Resolve.

Definition preferReadOnly {T} `{Grant T} (candidate best : T) : bool :=
  bool_decide (grant_mode best = pathModeReadWrite) &&
  bool_decide (grant_mode candidate = pathModeReadOnly).

(** * The lexical policy of [CheckRemote] *)

Record lexicalRoot := mkLexicalRoot { lr_path : bytes; lr_mode : pathMode }.

#[export] Instance lexicalRoot_grant : Grant lexicalRoot :=
  {| grant_path := lr_path; grant_mode := lr_mode |}.

Inductive policyError :=
| ErrNotAbsolute (raw : bytes)
| ErrBadSuffix (raw : bytes)
| ErrUnknownOperation (op : bytes)
| ErrNeedsCwd (path : bytes)
| ErrNoGrant (op path : bytes)
| ErrGrantReadOnly (op path : bytes).

(** One grant of [NewLexicalPolicy]; on Unix the volume name is empty. *)
Definition parseGrant (raw : bytes) : policyError + lexicalRoot :=
  let '(path, mode) := parseAllowedPathMode raw in
  if negb (IsAbs path) || existsb (Ascii.eqb "000") path then inl (ErrNotAbsolute raw)
  else if existsb (Ascii.eqb ":") path then inl (ErrBadSuffix raw)
  else inr (mkLexicalRoot (Clean path) mode).

Fixpoint NewLexicalPolicy (paths : list bytes) : policyError + list lexicalRoot :=
  match paths with
  | [] => inr []
  | raw :: rest =>
      match parseGrant raw with
      | inl e => inl e
      | inr root =>
          match NewLexicalPolicy rest with
          | inl e => inl e
          | inr roots => inr (root :: roots)
          end
      end
  end.

Definition PathRead := lit "read".
Definition PathStat := lit "stat".
Definition PathLstat := lit "lstat".
Definition PathWrite := lit "write".
Definition PathRemove := lit "remove".

(** [toAbs] and [IsDevNull] of [sandbox.go]. *)
Definition toAbs (path cwd : bytes) : bytes := if IsAbs path then path else Join [cwd; path].

Definition IsDevNull (path : bytes) : bool := path =s "/dev/null".

Definition lexicalCheckPath (roots : list lexicalRoot) (path cwd operation : bytes) : option policyError :=
  let write := bytes_eqb operation PathWrite || bytes_eqb operation PathRemove in
  if negb write && negb (bytes_eqb operation PathRead) && negb (bytes_eqb operation PathStat) &&
     negb (bytes_eqb operation PathLstat)
  then Some (ErrUnknownOperation operation)
  else if (bytes_eqb operation PathStat || bytes_eqb operation PathLstat) && IsDevNull path then None
  else if negb (IsAbs path) && negb (IsAbs cwd) then Some (ErrNeedsCwd path)
  else
    let abs := toAbs path cwd in
    match resolvePath lr_path (Some preferReadOnly) abs roots with
    | None => Some (ErrNoGrant operation path)
    | Some (root, _) =>
        if write && negb (bool_decide (lr_mode root = pathModeReadWrite))
        then Some (ErrGrantReadOnly operation path)
        else None
    end.

Definition lexicalPathAccesses (roots : list lexicalRoot) : list (bytes * bool) :=
  map (fun root => (lr_path root, bool_decide (lr_mode root = pathModeReadWrite))) roots.

(** * Root selection is most-specific-first *)

Section ResolveSpec.
Context {T : Type}.
Context (rootPath : T -> bytes) (prefer : option (T -> T -> bool)) (absPath : bytes).
Hypothesis abs_target : IsAbs absPath = true.

Definition root_ok (r : T) : Prop := IsAbs (rootPath r) = true.
Definition matches (r : T) : Prop := within (rootPath r) absPath.

(** The accumulator after the roots [seen]: nothing when none matches,
    otherwise a matching root of maximal path length. *)
Definition acc_ok (seen : list T) (acc : option (T * bytes)) : Prop :=
  match acc with
  | None => forall r, r ∈ seen -> ~ matches r
  | Some (best, rel) =>
      best ∈ seen /\ matches best /\ Rel (rootPath best) absPath = Some rel /\ escapes rel = false /\
      forall r, r ∈ seen -> matches r -> length (rootPath r) <= length (rootPath best)
  end.

Definition ro_wins `{Grant T} (seen : list T) (acc : option (T * bytes)) : Prop :=
  match acc with
  | None => True
  | Some (best, _) =>
      forall r, r ∈ seen -> matches r -> length (rootPath r) = length (rootPath best) ->
        grant_mode r = pathModeReadOnly -> grant_mode best = pathModeReadOnly
  end.

Lemma matches_Rel r : root_ok r ->
  matches r \/ ~ matches r /\ (Rel (rootPath r) absPath = None \/
    exists rel, Rel (rootPath r) absPath = Some rel /\ escapes rel = true).
Proof.
  intros Hr. destruct (decide (comps (rootPath r) `prefix_of` comps absPath)) as [|Hn]; [by left|].
  right. split; [done|]. destruct (Rel (rootPath r) absPath) as [rel|] eqn:E; [right|by left].
  exists rel. split; [done|]. exact (Rel_outside _ _ _ Hr abs_target Hn E).
Qed.

Lemma resolve_step_ok seen acc c :
  root_ok c -> acc_ok seen acc -> acc_ok (seen ++ [c]) (resolve_step rootPath prefer absPath acc c).
Proof.
  intros Hc Hacc. unfold resolve_step.
  destruct (matches_Rel c Hc) as [Hm|[Hn HR]].
  - destruct (proj2 (Rel_within _ _ Hc abs_target) Hm) as (rel & HR & He). rewrite HR, He.
    destruct acc as [[best brel]|]; cbn in Hacc.
    + destruct Hacc as (Hin & Hbm & Hbr & Hbe & Hmax).
      destruct (Nat.ltb_spec (length (rootPath best)) (length (rootPath c))) as [Hlt|Hge]; cbn [orb].
      * cbn. split; [set_solver|]. repeat split; try done.
        intros r [Hr| ->%list_elem_of_singleton]%elem_of_app Hrm; [|lia]. specialize (Hmax r Hr Hrm). lia.
      * destruct (Nat.eqb_spec (length (rootPath c)) (length (rootPath best))) as [Heq|Hneq]; cbn [andb].
        -- destruct (match prefer with Some f => _ | None => _ end); cbn;
             (split; [set_solver|]; repeat split; try done;
              intros r [Hr| ->%list_elem_of_singleton]%elem_of_app Hrm; [|lia]; specialize (Hmax r Hr Hrm); lia).
        -- cbn. split; [set_solver|]. repeat split; try done.
           intros r [Hr| ->%list_elem_of_singleton]%elem_of_app Hrm; [by apply Hmax|lia].
    + cbn. split; [set_solver|]. repeat split; try done.
      intros r [Hr| ->%list_elem_of_singleton]%elem_of_app Hrm; [|done]. by destruct (Hacc r Hr).
  - assert (acc_ok (seen ++ [c]) acc) as Hkeep.
    { destruct acc as [[best brel]|]; cbn in *.
      - destruct Hacc as (Hin & Hbm & Hbr & Hbe & Hmax). split; [set_solver|]. repeat split; try done.
        intros r [Hr| ->%list_elem_of_singleton]%elem_of_app Hrm; [by apply Hmax|done].
      - intros r [Hr| ->%list_elem_of_singleton]%elem_of_app; [by apply Hacc|done]. }
    destruct HR as [->|(rel & -> & ->)]; done.
Qed.

Lemma resolvePath_ok roots :
  Forall root_ok roots -> acc_ok roots (resolvePath rootPath prefer absPath roots).
Proof.
  intros Hroots. unfold resolvePath.
  assert (forall seen acc, acc_ok seen acc ->
    acc_ok (seen ++ roots) (fold_left (resolve_step rootPath prefer absPath) roots acc)) as H.
  { induction Hroots as [|c roots Hc _ IH]; intros seen acc Hacc; cbn; [by rewrite app_nil_r|].
    replace (seen ++ c :: roots) with ((seen ++ [c]) ++ roots) by (by rewrite <- app_assoc).
    apply IH. by apply resolve_step_ok. }
  apply (H [] None). intros r Hr. by apply not_elem_of_nil in Hr.
Qed.
(** With the read-only tie rule, the mode of the selected root is read-only
    as soon as one matching root of the same length is. *)
Lemma resolve_step_ro `{Grant T} seen acc c :
  prefer = Some preferReadOnly ->
  root_ok c -> acc_ok seen acc -> ro_wins seen acc ->
  ro_wins (seen ++ [c]) (resolve_step rootPath prefer absPath acc c).
Proof.
  intros Hp Hc Hacc Hro. unfold resolve_step. rewrite Hp.
  destruct (matches_Rel c Hc) as [Hm|[Hn HR]].
  - destruct (proj2 (Rel_within _ _ Hc abs_target) Hm) as (rel & HR & He). rewrite HR, He.
    destruct acc as [[best brel]|]; cbn in Hacc, Hro; [|cbn].
    + destruct Hacc as (_ & _ & _ & _ & Hmax). unfold preferReadOnly.
      destruct (Nat.ltb_spec (length (rootPath best)) (length (rootPath c))) as [Hlt|Hge]; cbn [orb].
      { cbn. intros r [Hr| ->%list_elem_of_singleton]%elem_of_app Hrm Hl Hmode; [|done].
        specialize (Hmax r Hr Hrm). lia. }
      destruct (Nat.eqb_spec (length (rootPath c)) (length (rootPath best))) as [Heq|Hneq]; cbn [andb].
      * destruct (grant_mode best) eqn:Eb, (grant_mode c) eqn:Ec; cbn;
          intros r [Hr| ->%list_elem_of_singleton]%elem_of_app Hrm Hl Hmode; try congruence;
          rewrite ?Heq in *; try by eapply Hro.
        discriminate (Hro r Hr Hrm Hl Hmode).
      * cbn. intros r [Hr| ->%list_elem_of_singleton]%elem_of_app Hrm Hl Hmode; [by eapply Hro|lia].
    + intros r [Hr| ->%list_elem_of_singleton]%elem_of_app Hrm Hl Hmode; [|done]. by destruct (Hacc r Hr).
  - assert (ro_wins (seen ++ [c]) acc) as Hkeep.
    { destruct acc as [[best brel]|]; cbn in *; [|done].
      intros r [Hr| ->%list_elem_of_singleton]%elem_of_app Hrm Hl Hmode; [by eapply Hro|done]. }
    destruct HR as [->|(rel & -> & ->)]; done.
Qed.

Lemma resolvePath_ro `{Grant T} roots :
  prefer = Some preferReadOnly -> Forall root_ok roots ->
  ro_wins roots (resolvePath rootPath prefer absPath roots).
Proof.
  intros Hp Hroots. unfold resolvePath.
  assert (forall seen acc, acc_ok seen acc -> ro_wins seen acc ->
    ro_wins (seen ++ roots) (fold_left (resolve_step rootPath prefer absPath) roots acc)) as Hgen.
  { induction Hroots as [|c roots Hc _ IH]; intros seen acc Hacc Hro; cbn; [by rewrite app_nil_r|].
    replace (seen ++ c :: roots) with ((seen ++ [c]) ++ roots) by (by rewrite <- app_assoc).
    apply IH; [by apply resolve_step_ok|by apply resolve_step_ro]. }
  apply (Hgen [] None); [|done]. intros r Hr. by apply not_elem_of_nil in Hr.
Qed.
End ResolveSpec.

(** Two clean absolute paths, the first an ancestor of the second and no
    shorter, are equal. *)
Lemma Join_sep_length_app a b : b <> [] -> Forall (fun c => c <> []) b ->
  length (Join_sep sep a) < length (Join_sep sep (a ++ b)).
Proof.
  intros Hb Hne. induction a as [|x a IH].
  - destruct Hne as [|c cs Hc _]; [done|]. destruct c; [done|].
    destruct cs; cbn; rewrite ?length_app; cbn; lia.
  - destruct a as [|y a].
    + destruct b as [|c cs]; [done|]. cbn. rewrite length_app. cbn. lia.
    + change (Join_sep sep ((x :: y :: a) ++ b)) with (x ++ sep :: Join_sep sep ((y :: a) ++ b)).
      change (Join_sep sep (x :: y :: a)) with (x ++ sep :: Join_sep sep (y :: a)).
      rewrite !length_app. cbn [length]. lia.
Qed.

Lemma within_shorter a b :
  IsAbs a = true -> IsAbs b = true -> Clean a = a -> Clean b = b ->
  within a b -> length b <= length a -> a = b.
Proof.
  intros Ha Hb Hca Hcb [t Ht] Hl. rewrite <- Hca, <- Hcb. apply Clean_eq_comps; [done..|].
  destruct t as [|c t]; [by rewrite app_nil_r in Ht|]. exfalso.
  rewrite <- Hca, <- Hcb, (Clean_abs a), (Clean_abs b), Ht in Hl by done. cbn [render length] in Hl.
  assert (Forall (fun c => c <> []) (c :: t)) as Hv.
  { pose proof (comps_valid b Hb) as Hv. rewrite Ht in Hv. apply Forall_app in Hv as [_ Hv].
    eapply Forall_impl; [exact Hv|]. by intros ? (? & _). }
  pose proof (Join_sep_length_app (comps a) (c :: t) ltac:(done) Hv). lia.
Qed.

(** Two directories that contain the same path are comparable. *)
Lemma within_comparable a b p : within a p -> within b p -> within a b \/ within b a.
Proof. intros Ha Hb. unfold within in *. by eapply prefix_weak_total. Qed.

(** The roots of a policy: absolute and clean. *)
Definition clean_roots {T} (rootPath : T -> bytes) (roots : list T) : Prop :=
  Forall (fun r => IsAbs (rootPath r) = true /\ Clean (rootPath r) = rootPath r) roots.

Lemma clean_roots_abs {T} (rootPath : T -> bytes) roots :
  clean_roots rootPath roots -> Forall (root_ok rootPath) roots.
Proof. intros H. eapply Forall_impl; [exact H|]. by intros r [? _]. Qed.

(** The selected root and its relative path. *)
Lemma resolvePath_selects {T} (rootPath : T -> bytes) prefer absPath roots :
  IsAbs absPath = true -> clean_roots rootPath roots ->
  match resolvePath rootPath prefer absPath roots with
  | Some (r, rel) =>
      r ∈ roots /\ within (rootPath r) absPath /\ escapes rel = false /\
      Join [rootPath r; rel] = Clean absPath /\
      forall r', r' ∈ roots -> within (rootPath r') absPath -> within (rootPath r') (rootPath r)
  | None => forall r, r ∈ roots -> ~ within (rootPath r) absPath
  end.
Proof.
  intros Habs Hroots.
  pose proof (resolvePath_ok rootPath prefer absPath Habs roots (clean_roots_abs _ _ Hroots)) as Hok.
  destruct (resolvePath _ _ _ _) as [[r rel]|]; [|exact Hok].
  destruct Hok as (Hin & Hm & Hr & He & Hmax).
  unfold clean_roots in Hroots. rewrite Forall_forall in Hroots.
  destruct (Hroots r) as [Hra Hrc]; [done|].
  split; [done|]. split; [done|]. split; [done|]. split; [by apply Join_Rel|].
  intros r' Hin' Hm'. destruct (Hroots r') as [Hra' Hrc']; [done|].
  destruct (within_comparable _ _ _ Hm' Hm) as [|Hw]; [done|].
  rewrite (within_shorter (rootPath r) (rootPath r') Hra Hra' Hrc Hrc' Hw (Hmax r' Hin' Hm')).
  unfold within. reflexivity.
Qed.

(** Root selection picks the most specific grant.  When it finds a root,
    that root contains the path, every other root that contains the path is an
    ancestor of it (or it itself), and the relative path it returns joins back to
    the cleaned path.  When it finds none, no root contains the path. *)
Theorem resolvePath_most_specific {T} (rootPath : T -> bytes) prefer absPath roots :
  IsAbs absPath = true -> clean_roots rootPath roots ->
  match resolvePath rootPath prefer absPath roots with
  | Some (r, rel) =>
      r ∈ roots /\ within (rootPath r) absPath /\ escapes rel = false /\
      Join [rootPath r; rel] = Clean absPath /\
      forall r', r' ∈ roots -> within (rootPath r') absPath -> within (rootPath r') (rootPath r)
  | None => forall r, r ∈ roots -> ~ within (rootPath r) absPath
  end.
Proof. apply resolvePath_selects. Qed.

Lemma resolvePath_most_specific_witness :
  match resolvePath lr_path None (lit "/var/log/app/../x") 
      [mkLexicalRoot (lit "/var") pathModeReadWrite; mkLexicalRoot (lit "/var/log") pathModeReadOnly] with
  | Some (r, rel) => lr_path r = lit "/var/log" /\ Join [lr_path r; rel] = Clean (lit "/var/log/app/../x")
  | None => False
  end.
Proof.
  pose proof (resolvePath_most_specific lr_path None (lit "/var/log/app/../x")
    [mkLexicalRoot (lit "/var") pathModeReadWrite; mkLexicalRoot (lit "/var/log") pathModeReadOnly]
    eq_refl ltac:(repeat constructor)) as H.
  vm_compute in H |- *. split; [reflexivity|]. apply H.
Defined.

(** ** The lexical policy *)

Lemma parseGrant_clean raw r :
  parseGrant raw = inr r -> IsAbs (lr_path r) = true /\ Clean (lr_path r) = lr_path r.
Proof.
  unfold parseGrant. destruct (parseAllowedPathMode raw) as [path mode].
  destruct (IsAbs path) eqn:Ha; cbn; [|done].
  destruct (existsb _ path); [done|]. destruct (existsb _ path); [done|].
  intros [= <-]. split; [by apply IsAbs_Clean|by apply Clean_idem].
Qed.

Lemma NewLexicalPolicy_map paths roots :
  NewLexicalPolicy paths = inr roots <-> Forall2 (fun raw r => parseGrant raw = inr r) paths roots.
Proof.
  revert roots. induction paths as [|raw paths IH]; intros roots; cbn.
  - split; [intros [= <-]; constructor|]. by inversion 1.
  - destruct (parseGrant raw) as [e|r] eqn:Er.
    + split; [done|]. inversion 1; congruence.
    + destruct (NewLexicalPolicy paths) as [e|rs].
      * split; [done|]. inversion 1 as [|???? _ Hrs]; subst. apply IH in Hrs. done.
      * split; [intros [= <-]; constructor; [done|by apply IH]|].
        inversion 1 as [|???? Hr Hrs]; subst. apply IH in Hrs. congruence.
Qed.

Lemma NewLexicalPolicy_clean paths roots :
  NewLexicalPolicy paths = inr roots -> clean_roots lr_path roots.
Proof.
  intros H%NewLexicalPolicy_map. unfold clean_roots. induction H; constructor; [|done].
  by eapply parseGrant_clean.
Qed.

Lemma toAbs_abs path cwd : IsAbs path || IsAbs cwd = true -> IsAbs (toAbs path cwd) = true.
Proof. unfold toAbs. destruct (IsAbs path) eqn:Hp; [done|]. cbn. apply IsAbs_Join. Qed.

(** The root the lexical policy selects is read-write iff every matching root
    at least as specific as it is. *)
Lemma lexical_selected roots abs :
  clean_roots lr_path roots -> IsAbs abs = true ->
  match resolvePath lr_path (Some preferReadOnly) abs roots with
  | Some (best, _) =>
      best ∈ roots /\ within (lr_path best) abs /\
      (forall r, r ∈ roots -> within (lr_path r) abs -> within (lr_path r) (lr_path best)) /\
      (forall r, r ∈ roots -> lr_path r = lr_path best -> lr_mode r = pathModeReadOnly ->
                 lr_mode best = pathModeReadOnly)
  | None => forall r, r ∈ roots -> ~ within (lr_path r) abs
  end.
Proof.
  intros Hc Habs.
  pose proof (resolvePath_selects lr_path (Some preferReadOnly) abs roots Habs Hc) as Hs.
  pose proof (resolvePath_ro lr_path (Some preferReadOnly) abs Habs roots eq_refl
                (clean_roots_abs _ _ Hc)) as Hro.
  destruct (resolvePath _ _ _ _) as [[best rel]|]; [|done].
  destruct Hs as (Hin & Hm & _ & _ & Hall). repeat split; try done.
  intros r Hr Hp Hmode. cbn in Hro. eapply (Hro r); try done; unfold matches; by rewrite ?Hp.
Qed.

(** A write is allowed by the lexical policy exactly when the path lies in
    a read-write grant and in no read-only grant that is as specific or more:
    every read-only grant that contains the path is a strict ancestor of that
    read-write grant.  A read-only grant nested in a read-write one always wins. *)
Theorem lexical_write_allowed_iff paths roots path cwd :
  NewLexicalPolicy paths = inr roots -> IsAbs path || IsAbs cwd = true ->
  lexicalCheckPath roots path cwd PathWrite = None <->
  exists rw, rw ∈ roots /\ lr_mode rw = pathModeReadWrite /\ within (lr_path rw) (toAbs path cwd) /\
    forall ro, ro ∈ roots -> lr_mode ro = pathModeReadOnly -> within (lr_path ro) (toAbs path cwd) ->
      within (lr_path ro) (lr_path rw) /\ lr_path ro <> lr_path rw.
Proof.
  intros Hnew Habs. pose proof (NewLexicalPolicy_clean _ _ Hnew) as Hc.
  pose proof (toAbs_abs _ _ Habs) as Ht. unfold lexicalCheckPath.
  change (bytes_eqb PathWrite PathWrite || bytes_eqb PathWrite PathRemove) with true.
  change (bytes_eqb PathWrite PathStat || bytes_eqb PathWrite PathLstat) with false. cbn [negb andb].
  rewrite <- negb_orb, Habs. cbn [negb].
  pose proof (lexical_selected roots (toAbs path cwd) Hc Ht) as Hsel.
  destruct (resolvePath _ _ _ _) as [[best rel]|].
  - destruct Hsel as (Hin & Hm & Hall & Hro). case_bool_decide as Hmode; cbn.
    + split; [intros _|done]. exists best. repeat split; try done.
      * by apply Hall.
      * intros Heq. rewrite (Hro ro) in Hmode by done. done.
    + split; [done|]. intros (rw & Hrw & Hrwm & Hrww & Hrest). exfalso.
      destruct (Hrest best Hin) as [Hwb Hne]; [by destruct (lr_mode best)|done|]. apply Hne.
      unfold clean_roots in Hc. rewrite Forall_forall in Hc.
      destruct (Hc _ Hin) as [??], (Hc _ Hrw) as [??].
      replace (lr_path best) with (Clean (lr_path best)) by done.
      replace (lr_path rw) with (Clean (lr_path rw)) by done.
      apply Clean_eq_comps; [done..|]. by apply (anti_symm prefix), Hall.
  - split; [done|]. intros (rw & Hrw & _ & Hrww & _). by destruct (Hsel rw Hrw).
Qed.

Lemma lexical_write_allowed_iff_witness :
  exists roots, NewLexicalPolicy [lit "/var:rw"; lit "/var/log"] = inr roots /\
    lexicalCheckPath roots (lit "run/x") (lit "/var") PathWrite = None /\
    exists rw, rw ∈ roots /\ lr_mode rw = pathModeReadWrite.
Proof.
  eexists. split; [reflexivity|]. split; [reflexivity|].
  destruct (proj1 (lexical_write_allowed_iff [lit "/var:rw"; lit "/var/log"] _ (lit "run/x") (lit "/var")
    eq_refl eq_refl) eq_refl) as (rw & Hin & Hm & _).
  exists rw. split; [exact Hin|exact Hm].
Defined.

Lemma Forall2_Permutation_l {A B} (R : A -> B -> Prop) l l' k :
  Forall2 R l k -> l ≡ₚ l' -> exists k', k ≡ₚ k' /\ Forall2 R l' k'.
Proof.
  intros H Hp. revert k H. induction Hp as [|x l l' Hp IH|x y l|l l' l'' _ IH1 _ IH2]; intros k H.
  - inversion H; subst. exists []. split; constructor.
  - inversion H as [|? b ? k0 Hb Hk]; subst. destruct (IH _ Hk) as (k' & ? & ?).
    exists (b :: k'). split; constructor; done.
  - inversion H as [|? b ? k0 Hb Hk]; subst. inversion Hk as [|? b' ? k1 Hb' Hk']; subst.
    exists (b' :: b :: k1). split; [constructor|]. by repeat constructor.
  - destruct (IH1 _ H) as (k' & ? & Hk'). destruct (IH2 _ Hk') as (k'' & ? & ?).
    exists k''. split; [by etrans|done].
Qed.

(** The selection, seen through the mode of the selected root, does not depend
    on the order of the roots. *)
Lemma resolvePath_perm roots roots' abs :
  clean_roots lr_path roots -> roots ≡ₚ roots' -> IsAbs abs = true ->
  (lr_mode ∘ fst) <$> resolvePath lr_path (Some preferReadOnly) abs roots =
  (lr_mode ∘ fst) <$> resolvePath lr_path (Some preferReadOnly) abs roots'.
Proof.
  intros Hc Hp Habs.
  assert (clean_roots lr_path roots') as Hc' by (unfold clean_roots in *; by rewrite <- Hp).
  pose proof (lexical_selected roots abs Hc Habs) as Hs.
  pose proof (lexical_selected roots' abs Hc' Habs) as Hs'.
  destruct (resolvePath _ _ _ roots) as [[b rel]|], (resolvePath _ _ _ roots') as [[b' rel']|]; cbn.
  - destruct Hs as (Hin & Hm & Hall & Hro), Hs' as (Hin' & Hm' & Hall' & Hro').
    assert (forall r, r ∈ roots <-> r ∈ roots') as Hmem by (intros r; by rewrite Hp).
    apply Hmem in Hin'. f_equal.
    assert (lr_path b = lr_path b') as Heq.
    { unfold clean_roots in Hc. rewrite Forall_forall in Hc.
      destruct (Hc _ Hin) as [? Hb], (Hc _ Hin') as [? Hb']. rewrite <- Hb, <- Hb'.
      apply Clean_eq_comps; [done..|]. apply (anti_symm prefix); [by apply Hall', Hm; apply Hmem|by apply Hall]. }
    destruct (lr_mode b) eqn:Eb, (lr_mode b') eqn:Eb'; try done.
    + symmetry. apply (Hro' b); [by apply Hmem|done..].
    + apply (Hro b'); done.
  - exfalso. destruct Hs as (Hin & Hm & _). rewrite Hp in Hin. by apply (Hs' b).
  - exfalso. destruct Hs' as (Hin & Hm & _). rewrite <- Hp in Hin. by apply (Hs b').
  - done.
Qed.

(** The order in which an operator lists the grants is irrelevant: two
    policies built from permuted lists give the same verdict, error included,
    on every path, working directory and operation. *)
Theorem lexical_policy_order_irrelevant paths paths' roots :
  NewLexicalPolicy paths = inr roots -> paths ≡ₚ paths' ->
  exists roots', NewLexicalPolicy paths' = inr roots' /\
    forall path cwd op, lexicalCheckPath roots path cwd op = lexicalCheckPath roots' path cwd op.
Proof.
  intros Hnew Hp. pose proof (NewLexicalPolicy_clean _ _ Hnew) as Hc.
  apply NewLexicalPolicy_map in Hnew.
  destruct (Forall2_Permutation_l _ _ _ _ Hnew Hp) as (roots' & Hp' & Hnew').
  exists roots'. split; [by apply NewLexicalPolicy_map|]. intros path cwd op. unfold lexicalCheckPath.
  destruct (_ && _ && _ && _); [done|]. destruct ((_ || _) && IsDevNull path); [done|].
  destruct (negb (IsAbs path) && negb (IsAbs cwd)) eqn:Ha; [done|].
  rewrite <- negb_orb, negb_false_iff in Ha.
  pose proof (resolvePath_perm roots roots' _ Hc Hp' (toAbs_abs _ _ Ha)) as Heq.
  destruct (resolvePath _ _ _ roots) as [[b ?]|], (resolvePath _ _ _ roots') as [[b' ?]|]; cbn in Heq;
    try discriminate; [|done]. injection Heq as ->. done.
Qed.

Lemma lexical_policy_order_irrelevant_witness :
  exists roots', NewLexicalPolicy [lit "/b:ro"; lit "/a:rw"] = inr roots' /\
    lexicalCheckPath roots' (lit "/a/x") [] PathWrite = None.
Proof.
  destruct (lexical_policy_order_irrelevant [lit "/a:rw"; lit "/b:ro"] [lit "/b:ro"; lit "/a:rw"] _ eq_refl
    ltac:(constructor)) as (roots' & Hn & Heq).
  exists roots'. split; [exact Hn|]. rewrite <- Heq. reflexivity.
Defined.

End PathPolicy.
