(* ===== verification/Nesting.v ===== *)
(** * The lexical nesting guard of [interp/nesting.go]

    [checkScriptNestingDepth] scans a script before it is parsed and rejects it
    when it nests shell constructs more than [MaxNestingDepth] deep.  The file
    holds the scanner ([nestScanner] and its methods, one definition each), the
    iterative guard [checkNestingDepth] on the parsed tree, and the theorems on
    both.  A Go slice used as a stack is a list whose head is the top. *)

From S2P Require Import Prelude.
From stdpp Require Import base list strings.
From Stdlib Require Import ZArith Lia Ascii.

Module Nesting.

Definition MaxNestingDepth : Z := 5000.

(** ** Frame kinds *)

Inductive nestKind :=
| kindParen | kindParam | kindBrace | kindBacktick | kindIf | kindElif
| kindLoop | kindCase | kindArith | kindArithSq | kindArithParen
| kindArithIndex | kindPatGroup
| kindSingle | kindAnsi | kindDouble | kindHeredocExpand | kindHeredocLiteral
| kindCaseHead0 | kindCaseHead1 | kindCasePat | kindLet
| kindNone.

#[export] Instance nestKind_eq_dec : EqDecision nestKind.
Proof. solve_decision. Defined.

Definition kind_eqb (a b : nestKind) : bool := bool_decide (a = b).

Definition counted (k : nestKind) : bool :=
  match k with
  | kindParen | kindParam | kindBrace | kindBacktick | kindIf | kindElif
  | kindLoop | kindCase | kindArith | kindArithSq | kindArithParen
  | kindArithIndex | kindPatGroup => true
  | _ => false
  end.

Definition isHeredoc (k : nestKind) : bool :=
  match k with kindHeredocExpand | kindHeredocLiteral => true | _ => false end.

Record heredocInfo := mkHeredoc {
  delim : bytes;
  stripTabs : bool;
  expand : bool }.

(** ** Scanner state *)

Record nestScanner := mkScanner {
  sc_s : bytes;
  sc_i : nat;
  sc_kinds : list nestKind;
  sc_depth : Z;
  sc_heredocs : list heredocInfo;
  sc_pending : list heredocInfo;
  sc_lineStart : bool;
  sc_cmdPos : bool;
  sc_wordStart : bool;
  sc_argWords : nat;
  sc_inDecl : bool;
  sc_redirTarget : bool;
  sc_afterTime : bool;
  sc_patStart : bool;
  sc_prevSpace : bool }.

Definition set_s (x : bytes) (sc : nestScanner) : nestScanner :=
  mkScanner x (sc_i sc) (sc_kinds sc) (sc_depth sc) (sc_heredocs sc) (sc_pending sc) (sc_lineStart sc) (sc_cmdPos sc) (sc_wordStart sc) (sc_argWords sc) (sc_inDecl sc) (sc_redirTarget sc) (sc_afterTime sc) (sc_patStart sc) (sc_prevSpace sc).
Definition set_i (x : nat) (sc : nestScanner) : nestScanner :=
  mkScanner (sc_s sc) x (sc_kinds sc) (sc_depth sc) (sc_heredocs sc) (sc_pending sc) (sc_lineStart sc) (sc_cmdPos sc) (sc_wordStart sc) (sc_argWords sc) (sc_inDecl sc) (sc_redirTarget sc) (sc_afterTime sc) (sc_patStart sc) (sc_prevSpace sc).
Definition set_kinds (x : list nestKind) (sc : nestScanner) : nestScanner :=
  mkScanner (sc_s sc) (sc_i sc) x (sc_depth sc) (sc_heredocs sc) (sc_pending sc) (sc_lineStart sc) (sc_cmdPos sc) (sc_wordStart sc) (sc_argWords sc) (sc_inDecl sc) (sc_redirTarget sc) (sc_afterTime sc) (sc_patStart sc) (sc_prevSpace sc).
Definition set_depth (x : Z) (sc : nestScanner) : nestScanner :=
  mkScanner (sc_s sc) (sc_i sc) (sc_kinds sc) x (sc_heredocs sc) (sc_pending sc) (sc_lineStart sc) (sc_cmdPos sc) (sc_wordStart sc) (sc_argWords sc) (sc_inDecl sc) (sc_redirTarget sc) (sc_afterTime sc) (sc_patStart sc) (sc_prevSpace sc).
Definition set_heredocs (x : list heredocInfo) (sc : nestScanner) : nestScanner :=
  mkScanner (sc_s sc) (sc_i sc) (sc_kinds sc) (sc_depth sc) x (sc_pending sc) (sc_lineStart sc) (sc_cmdPos sc) (sc_wordStart sc) (sc_argWords sc) (sc_inDecl sc) (sc_redirTarget sc) (sc_afterTime sc) (sc_patStart sc) (sc_prevSpace sc).
Definition set_pending (x : list heredocInfo) (sc : nestScanner) : nestScanner :=
  mkScanner (sc_s sc) (sc_i sc) (sc_kinds sc) (sc_depth sc) (sc_heredocs sc) x (sc_lineStart sc) (sc_cmdPos sc) (sc_wordStart sc) (sc_argWords sc) (sc_inDecl sc) (sc_redirTarget sc) (sc_afterTime sc) (sc_patStart sc) (sc_prevSpace sc).
Definition set_lineStart (x : bool) (sc : nestScanner) : nestScanner :=
  mkScanner (sc_s sc) (sc_i sc) (sc_kinds sc) (sc_depth sc) (sc_heredocs sc) (sc_pending sc) x (sc_cmdPos sc) (sc_wordStart sc) (sc_argWords sc) (sc_inDecl sc) (sc_redirTarget sc) (sc_afterTime sc) (sc_patStart sc) (sc_prevSpace sc).
Definition set_cmdPos (x : bool) (sc : nestScanner) : nestScanner :=
  mkScanner (sc_s sc) (sc_i sc) (sc_kinds sc) (sc_depth sc) (sc_heredocs sc) (sc_pending sc) (sc_lineStart sc) x (sc_wordStart sc) (sc_argWords sc) (sc_inDecl sc) (sc_redirTarget sc) (sc_afterTime sc) (sc_patStart sc) (sc_prevSpace sc).
Definition set_wordStart (x : bool) (sc : nestScanner) : nestScanner :=
  mkScanner (sc_s sc) (sc_i sc) (sc_kinds sc) (sc_depth sc) (sc_heredocs sc) (sc_pending sc) (sc_lineStart sc) (sc_cmdPos sc) x (sc_argWords sc) (sc_inDecl sc) (sc_redirTarget sc) (sc_afterTime sc) (sc_patStart sc) (sc_prevSpace sc).
Definition set_argWords (x : nat) (sc : nestScanner) : nestScanner :=
  mkScanner (sc_s sc) (sc_i sc) (sc_kinds sc) (sc_depth sc) (sc_heredocs sc) (sc_pending sc) (sc_lineStart sc) (sc_cmdPos sc) (sc_wordStart sc) x (sc_inDecl sc) (sc_redirTarget sc) (sc_afterTime sc) (sc_patStart sc) (sc_prevSpace sc).
Definition set_inDecl (x : bool) (sc : nestScanner) : nestScanner :=
  mkScanner (sc_s sc) (sc_i sc) (sc_kinds sc) (sc_depth sc) (sc_heredocs sc) (sc_pending sc) (sc_lineStart sc) (sc_cmdPos sc) (sc_wordStart sc) (sc_argWords sc) x (sc_redirTarget sc) (sc_afterTime sc) (sc_patStart sc) (sc_prevSpace sc).
Definition set_redirTarget (x : bool) (sc : nestScanner) : nestScanner :=
  mkScanner (sc_s sc) (sc_i sc) (sc_kinds sc) (sc_depth sc) (sc_heredocs sc) (sc_pending sc) (sc_lineStart sc) (sc_cmdPos sc) (sc_wordStart sc) (sc_argWords sc) (sc_inDecl sc) x (sc_afterTime sc) (sc_patStart sc) (sc_prevSpace sc).
Definition set_afterTime (x : bool) (sc : nestScanner) : nestScanner :=
  mkScanner (sc_s sc) (sc_i sc) (sc_kinds sc) (sc_depth sc) (sc_heredocs sc) (sc_pending sc) (sc_lineStart sc) (sc_cmdPos sc) (sc_wordStart sc) (sc_argWords sc) (sc_inDecl sc) (sc_redirTarget sc) x (sc_patStart sc) (sc_prevSpace sc).
Definition set_patStart (x : bool) (sc : nestScanner) : nestScanner :=
  mkScanner (sc_s sc) (sc_i sc) (sc_kinds sc) (sc_depth sc) (sc_heredocs sc) (sc_pending sc) (sc_lineStart sc) (sc_cmdPos sc) (sc_wordStart sc) (sc_argWords sc) (sc_inDecl sc) (sc_redirTarget sc) (sc_afterTime sc) x (sc_prevSpace sc).
Definition set_prevSpace (x : bool) (sc : nestScanner) : nestScanner :=
  mkScanner (sc_s sc) (sc_i sc) (sc_kinds sc) (sc_depth sc) (sc_heredocs sc) (sc_pending sc) (sc_lineStart sc) (sc_cmdPos sc) (sc_wordStart sc) (sc_argWords sc) (sc_inDecl sc) (sc_redirTarget sc) (sc_afterTime sc) (sc_patStart sc) x.

(** Methods that may fail: the script is rejected, or a Go index is out of
    range and the method panics. *)
Inductive outcome (A : Type) :=
| Ret (a : A)
| TooDeep
| Panic.
Arguments Ret {A} a.
Arguments TooDeep {A}.
Arguments Panic {A}.

#[export] Instance outcome_ret : MRet outcome := fun _ a => Ret a.
#[export] Instance outcome_bind : MBind outcome := fun _ _ f m =>
  match m with Ret a => f a | TooDeep => TooDeep | Panic => Panic end.

Notation "x |> f" := (f x) (at level 41, left associativity, only parsing) : go_scope.

Definition adv (n : nat) (sc : nestScanner) : nestScanner := set_i (sc_i sc + n) sc.

Definition top (sc : nestScanner) : nestKind :=
  match sc_kinds sc with [] => kindNone | k :: _ => k end.

Definition push (k : nestKind) (sc : nestScanner) : outcome nestScanner :=
  let sc := set_kinds (k :: sc_kinds sc) sc in
  if negb (counted k) then Ret sc
  else
    let sc := set_depth (sc_depth sc + 1) sc in
    if (MaxNestingDepth <? sc_depth sc)%Z then TooDeep else Ret sc.

Definition replaceTop (k : nestKind) (sc : nestScanner) : outcome nestScanner :=
  match sc_kinds sc with
  | [] => Panic
  | _ :: ks => Ret (set_kinds (k :: ks) sc)
  end.

Definition pop (sc : nestScanner) : outcome nestScanner :=
  match sc_kinds sc with
  | [] => Panic
  | k :: ks =>
      let sc := set_kinds ks sc in
      if isHeredoc k then
        match sc_heredocs sc with
        | [] => Panic
        | _ :: hs => Ret (set_heredocs hs sc)
        end
      else if counted k then Ret (set_depth (sc_depth sc - 1) sc)
      else Ret sc
  end.

Definition startCmd (sc : nestScanner) : nestScanner :=
  sc |> set_cmdPos true |> set_wordStart true |> set_argWords 0
     |> set_inDecl false |> set_redirTarget false |> set_afterTime false.

Definition startNextHeredoc (sc : nestScanner) : nestScanner :=
  match sc_pending sc with
  | [] => sc
  | info :: rest =>
      if isHeredoc (top sc) then sc
      else
        let k := if expand info then kindHeredocExpand else kindHeredocLiteral in
        sc |> set_pending rest |> set_kinds (k :: sc_kinds sc)
           |> set_heredocs (info :: sc_heredocs sc)
  end.

Definition peek (sc : nestScanner) (off : nat) : ascii :=
  default "000"%char (sc_s sc !! (sc_i sc + off)).

(** [sc.s[sc.i]] and [sc.s[sc.i:]], which panic out of range. *)
Definition cur (sc : nestScanner) : outcome ascii :=
  match sc_s sc !! sc_i sc with Some c => Ret c | None => Panic end.

Definition rest (sc : nestScanner) : outcome bytes :=
  if length (sc_s sc) <? sc_i sc then Panic else Ret (drop (sc_i sc) (sc_s sc)).

(** ** Character classes *)

Definition isASCIILetter (c : ascii) : bool :=
  ((97 <=? code c) && (code c <=? 122) || (65 <=? code c) && (code c <=? 90))%Z.

Definition isASCIIDigit (c : ascii) : bool := ((48 <=? code c) && (code c <=? 57))%Z.

Definition isBlank (c : ascii) : bool := (c =c " ") || (c =c "009") || (c =c "013").

Definition isWordSep (c : ascii) : bool :=
  (c =c " ") || (c =c "009") || (c =c "010") || (c =c "013") || (c =c ";") ||
  (c =c "&") || (c =c "|") || (c =c "(") || (c =c ")") || (c =c "<") ||
  (c =c ">") || (c =c "096").

(** [i >= len(script) || isWordSep(script[i])]. *)
Definition sepAt (script : bytes) (i : nat) : bool :=
  match script !! i with None => true | Some c => isWordSep c end.

Definition cmdPosOrSep (script : bytes) (i : nat) : bool :=
  match i with
  | 0 => true
  | S j =>
      match script !! j with
      | Some c => (c =c " ") || (c =c "009") || (c =c "010") || (c =c "013") ||
                  (c =c ";") || (c =c "&") || (c =c "|") || (c =c "(")
      | None => false
      end
  end.

(** [for j < len(s) && f(s[j]) { j++ }] started at [j]. *)
Definition skip (f : ascii -> bool) (s : bytes) (j : nat) : nat :=
  j + run_length f (drop j s).

Definition substr (s : bytes) (i j : nat) : bytes := take (j - i) (drop i s).

(** ** Heredoc delimiters *)

(** The two inner loops of [readHeredocDelim] (over a quoted part) are the
    modes [InSq] and [InDq] of one scan. *)
Inductive delimMode := Plain | InSq | InDq.

Definition delimStop (c : ascii) : bool :=
  (c =c " ") || (c =c "009") || (c =c "010") || (c =c "013") || (c =c ";") ||
  (c =c "&") || (c =c "|") || (c =c "<") || (c =c ">") || (c =c "(") || (c =c ")").

Fixpoint readDelim_go (m : delimMode) (s b : bytes) (exp : bool) (i : nat) : bytes * bool * nat :=
  match s with
  | [] => (b, exp, i)
  | c :: s' =>
      match m with
      | Plain =>
          if delimStop c then (b, exp, i)
          else if c =c "039" then readDelim_go InSq s' b false (S i)
          else if c =c "034" then readDelim_go InDq s' b false (S i)
          else if c =c "092" then
            match s' with
            | [] => (b, false, S i)
            | d :: s'' => readDelim_go Plain s'' (b ++ [d]) false (S (S i))
            end
          else readDelim_go Plain s' (b ++ [c]) exp (S i)
      | InSq =>
          if c =c "039" then readDelim_go Plain s' b exp (S i)
          else readDelim_go InSq s' (b ++ [c]) exp (S i)
      | InDq =>
          if c =c "034" then readDelim_go Plain s' b exp (S i)
          else readDelim_go InDq s' (b ++ [c]) exp (S i)
      end
  end.

Definition readHeredocDelim (script : bytes) (i : nat) : bytes * bool * nat :=
  readDelim_go Plain (drop i script) [] true i.

Definition byteAtIs (s : bytes) (i : nat) (c : ascii) : bool :=
  match s !! i with Some d => Ascii.eqb d c | None => false end.

Definition scanRedirOrHeredoc (script : bytes) (i : nat) (pending : list heredocInfo)
    : nat * list heredocInfo :=
  if negb (byteAtIs script (i + 1) "<") then (i + 1, pending)
  else if byteAtIs script (i + 2) "<" then (i + 3, pending)
  else
    let j := i + 2 in
    let strip := byteAtIs script j "-" in
    let j := if strip then j + 1 else j in
    let j := skip (fun c => (c =c " ") || (c =c "009")) script j in
    let '(d, exp, e) := readHeredocDelim script j in
    (e, if bytes_eqb d [] then pending else pending ++ [mkHeredoc d strip exp]).

(** ** Substitutions, double quotes, parameter expansions, arithmetic *)

Definition dollar (ansi : bool) (sc : nestScanner) : outcome nestScanner :=
  let c := peek sc 1 in
  if c =c "(" then
    if peek sc 2 =c "(" then push kindArith (adv 3 sc)
    else push kindParen (sc |> adv 2 |> startCmd)
  else if c =c "{" then push kindParam (adv 2 sc)
  else if c =c "[" then push kindArithSq (adv 2 sc)
  else if (c =c "039") && ansi then push kindAnsi (adv 2 sc)
  else Ret (adv 1 sc).

Definition backtick (sc : nestScanner) : outcome nestScanner :=
  push kindBacktick (sc |> adv 1 |> startCmd).

Definition stepDouble (k : nestKind) (sc : nestScanner) : outcome nestScanner :=
  c ← cur sc;
  if c =c "092" then Ret (sc |> adv 1 |> adv 1)
  else if c =c "034" then
    sc ← (if kind_eqb k kindDouble then pop sc else Ret sc); Ret (adv 1 sc)
  else if c =c "096" then backtick sc
  else if c =c "$" then dollar false sc
  else if c =c "010" then Ret (sc |> set_lineStart true |> adv 1)
  else Ret (adv 1 sc).

Definition stepParam (sc : nestScanner) : outcome nestScanner :=
  c ← cur sc;
  if c =c "}" then sc ← pop sc; Ret (adv 1 sc)
  else if c =c "092" then Ret (sc |> adv 1 |> adv 1)
  else if c =c "039" then push kindSingle (adv 1 sc)
  else if c =c "034" then push kindDouble (adv 1 sc)
  else if c =c "096" then backtick sc
  else if c =c "$" then dollar true sc
  else Ret (adv 1 sc).

(** The part of [stepArith] after the [kindLet] test. *)
Definition stepArithByte (k : nestKind) (c : ascii) (sc : nestScanner) : outcome nestScanner :=
  let sc := set_prevSpace false sc in
  if c =c "(" then push kindArithParen (adv 1 sc)
  else if c =c ")" then
    if kind_eqb k kindArithParen then sc ← pop sc; Ret (adv 1 sc)
    else if kind_eqb k kindArith && (peek sc 1 =c ")") then
      sc ← pop sc; Ret (sc |> adv 1 |> set_cmdPos false |> adv 1)
    else if kind_eqb k kindArith then sc ← pop sc; Ret (adv 1 sc)
    else Ret (adv 1 sc)
  else if c =c "[" then push kindArithIndex (adv 1 sc)
  else if c =c "]" then
    sc ← (if kind_eqb k kindArithIndex || kind_eqb k kindArithSq then pop sc else Ret sc);
    Ret (adv 1 sc)
  else if c =c "092" then Ret (sc |> adv 1 |> adv 1)
  else if c =c "039" then push kindSingle (adv 1 sc)
  else if c =c "034" then push kindDouble (adv 1 sc)
  else if c =c "096" then backtick sc
  else if c =c "$" then dollar true sc
  else Ret (adv 1 sc).

Definition stepArith (k : nestKind) (sc : nestScanner) : outcome nestScanner :=
  c ← cur sc;
  if kind_eqb k kindLet then
    if ((c =c ";") || (c =c "010") || (c =c ")") || (c =c "096")) ||
       (sc_prevSpace sc && ((c =c "&") || (c =c "|") || (c =c "<") || (c =c ">")))
    then sc ← pop sc; Ret (set_cmdPos false sc)
    else if (c =c " ") || (c =c "009") || (c =c "013")
    then Ret (sc |> set_prevSpace true |> adv 1)
    else stepArithByte k c sc
  else stepArithByte k c sc.

Definition skipComment (sc : nestScanner) : nestScanner :=
  set_i (skip (fun c => negb (c =c "010")) (sc_s sc) (sc_i sc)) sc.

(** ** Case patterns *)

Definition stepPattern (k : nestKind) (sc : nestScanner) : outcome nestScanner :=
  c ← cur sc;
  if (c =c " ") || (c =c "009") || (c =c "013") then Ret (adv 1 sc)
  else if c =c "010" then
    Ret (sc |> adv 1 |> set_lineStart true |> startNextHeredoc)
  else if (c =c "#") && cmdPosOrSep (sc_s sc) (sc_i sc) then Ret (skipComment sc)
  else if isASCIILetter c then
    let j := skip isASCIILetter (sc_s sc) (sc_i sc + 1) in
    sc ← (if kind_eqb k kindCasePat && sc_patStart sc &&
             (substr (sc_s sc) (sc_i sc) j =s "esac") && sepAt (sc_s sc) j
          then
            sc ← pop sc;
            sc ← (if kind_eqb (top sc) kindCase then pop sc else Ret sc);
            Ret (sc |> startCmd |> set_cmdPos false)
          else Ret sc);
    Ret (sc |> set_patStart false |> set_i j)
  else
    let start := sc_patStart sc in
    let sc := set_patStart false sc in
    if c =c "(" then
      let sc := adv 1 sc in
      if kind_eqb k kindCasePat && start then Ret sc else push kindPatGroup sc
    else if c =c ")" then
      sc ← pop (adv 1 sc);
      Ret (if kind_eqb k kindCasePat then startCmd sc else sc)
    else if c =c "092" then Ret (adv 2 sc)
    else if c =c "039" then push kindSingle (adv 1 sc)
    else if c =c "034" then push kindDouble (adv 1 sc)
    else if c =c "096" then backtick sc
    else if c =c "$" then dollar true sc
    else Ret (adv 1 sc).

(** ** Words and keywords *)

Definition declWord (name : bytes) : bool :=
  str_in name ["declare"; "local"; "export"; "readonly"; "typeset"; "nameref"].

(** The tail of [beginWord]: the word counts as an argument word. *)
Definition countWord (name : bytes) (next : ascii) (sc : nestScanner) : nestScanner :=
  let sc := set_argWords (sc_argWords sc + 1) sc in
  if (sc_argWords sc =? 1) && sc_cmdPos sc && declWord name &&
     ((next =c "000") || isWordSep next)
  then set_inDecl true sc else sc.

Definition beginWord (sc : nestScanner) : outcome (bool * nestScanner) :=
  if sc_redirTarget sc then Ret (false, set_redirTarget false sc)
  else
    let afterTime := sc_afterTime sc in
    let sc := set_afterTime false sc in
    c ← cur sc;
    tail ← rest sc;
    let name_len :=
      if isASCIILetter c || (c =c "_")
      then 1 + run_length (fun d => isASCIILetter d || (d =c "_") || isASCIIDigit d) (drop 1 tail)
      else 0 in
    let j := sc_i sc + name_len in
    let name := take name_len tail in
    let next := default "000"%char (sc_s sc !! j) in
    if negb (bytes_eqb name []) && (next =c "[") && ((sc_argWords sc =? 0) || sc_inDecl sc) then
      sc ← push kindArithIndex (sc |> set_i (j + 1) |> set_cmdPos false);
      Ret (true, sc)
    else if negb (bytes_eqb name []) &&
            ((next =c "=") || ((next =c "+") && byteAtIs (sc_s sc) (j + 1) "=")) then
      Ret (false, sc)
    else if bytes_eqb name [] && isASCIIDigit c then
      let d := skip isASCIIDigit (sc_s sc) (sc_i sc) in
      if byteAtIs (sc_s sc) d "<" || byteAtIs (sc_s sc) d ">" then Ret (false, sc)
      else Ret (false, countWord name next sc)
    else if afterTime && sc_cmdPos sc && HasPrefix tail (lit "-p") &&
            sepAt (sc_s sc) (sc_i sc + 2) then
      Ret (true, sc |> adv 2 |> set_wordStart true)
    else Ret (false, countWord name next sc).

Definition coprocNamed (script : bytes) (j : nat) : bool :=
  let k := skip (fun c => negb (isWordSep c)) script j in
  if k =? j then false
  else if str_in (substr script j k) ["if"; "while"; "until"; "for"; "select"; "case"; "{"]
  then false
  else
    let k := skip isBlank script k in
    match script !! k with
    | None => false
    | Some c =>
        if (c =c "(") || (c =c "{") then true
        else
          let e := skip isASCIILetter script k in
          str_in (substr script k e) ["if"; "while"; "until"; "for"; "select"; "case"]
    end.

(** [for sc.top() == kindElif { sc.pop() }]. *)
Fixpoint popElifs (n : nat) (sc : nestScanner) : outcome nestScanner :=
  match n with
  | 0 => Ret sc
  | S n => if kind_eqb (top sc) kindElif then sc ← pop sc; popElifs n sc else Ret sc
  end.

Definition keyword (word : bytes) (sc : nestScanner) : outcome nestScanner :=
  let t := top sc in
  if word =s "if" then push kindIf (startCmd sc)
  else if word =s "elif" then push kindElif (startCmd sc)
  else if str_in word ["while"; "until"] then push kindLoop (startCmd sc)
  else if str_in word ["for"; "select"] then push kindLoop (set_cmdPos false sc)
  else if word =s "case" then
    sc ← push kindCase (set_cmdPos false sc);
    push kindCaseHead0 sc
  else if word =s "fi" then
    sc ← popElifs (length (sc_kinds sc)) sc;
    sc ← (if kind_eqb (top sc) kindIf then pop sc else Ret sc);
    Ret (set_cmdPos false sc)
  else if word =s "done" then
    sc ← (if kind_eqb t kindLoop then pop sc else Ret sc); Ret (set_cmdPos false sc)
  else if word =s "esac" then
    sc ← (if kind_eqb t kindCase then pop sc else Ret sc); Ret (set_cmdPos false sc)
  else if str_in word ["then"; "else"] then
    Ret (if kind_eqb t kindIf || kind_eqb t kindElif then startCmd sc else set_cmdPos false sc)
  else if word =s "do" then
    Ret (if kind_eqb t kindLoop then startCmd sc else set_cmdPos false sc)
  else if word =s "time" then Ret (sc |> startCmd |> set_afterTime true)
  else if str_in word ["function"; "coproc"] then
    let j := skip isBlank (sc_s sc) (sc_i sc) in
    if (word =s "coproc") && negb (coprocNamed (sc_s sc) j) then Ret (startCmd sc)
    else
      let j := skip (fun c => negb (isWordSep c)) (sc_s sc) j in
      Ret (sc |> set_i j |> startCmd)
  else if word =s "let" then
    push kindLet (sc |> set_cmdPos false |> set_prevSpace false)
  else Ret (set_cmdPos false sc).

(** ** Command context *)

(** The first [switch] of [stepCommand]: blanks, separators, redirects and
    parentheses.  [None] is the fall through to the word scanning below it. *)
Definition stepOperator (k : nestKind) (c : ascii) (sc : nestScanner)
    : option (outcome nestScanner) :=
  if (c =c " ") || (c =c "009") || (c =c "013") then
    Some (Ret (sc |> adv 1 |> set_wordStart true))
  else if c =c "010" then
    Some (Ret (sc |> adv 1 |> startCmd |> set_lineStart true |> startNextHeredoc))
  else if c =c ";" then
    if kind_eqb k kindCase && ((peek sc 1 =c ";") || (peek sc 1 =c "&")) then
      let sc := adv 2 sc in
      let sc := if peek sc 0 =c "&" then adv 1 sc else sc in
      Some (push kindCasePat (set_patStart true sc))
    else Some (Ret (sc |> adv 1 |> startCmd))
  else if c =c "&" then
    if peek sc 1 =c ">" then
      let sc := adv 2 sc in
      let sc := if peek sc 0 =c ">" then adv 1 sc else sc in
      Some (Ret (sc |> set_redirTarget true |> set_wordStart true |> set_cmdPos false))
    else Some (Ret (sc |> adv 1 |> startCmd))
  else if c =c "|" then Some (Ret (sc |> adv 1 |> startCmd))
  else if (c =c "<") || (c =c ">") then
    if peek sc 1 =c "(" then Some (push kindParen (sc |> adv 2 |> startCmd))
    else
      let sc :=
        if c =c "<" then
          let '(e, p) := scanRedirOrHeredoc (sc_s sc) (sc_i sc) (sc_pending sc) in
          sc |> set_i e |> set_pending p
        else adv 1 sc in
      let sc :=
        if byteAtIs (sc_s sc) (sc_i sc) ">" || byteAtIs (sc_s sc) (sc_i sc) "&" ||
           byteAtIs (sc_s sc) (sc_i sc) "|"
        then adv 1 sc else sc in
      Some (Ret (sc |> set_redirTarget true |> set_wordStart true |> set_cmdPos false))
  else if c =c "(" then
    let sc := set_wordStart true sc in
    let j := skip isBlank (sc_s sc) (sc_i sc + 1) in
    if byteAtIs (sc_s sc) j ")" then Some (Ret (sc |> set_i (j + 1) |> startCmd))
    else if peek sc 1 =c "(" then
      Some (push kindArith (sc |> adv 2 |> set_cmdPos false))
    else Some (push kindParen (sc |> adv 1 |> startCmd))
  else if c =c ")" then
    Some (sc ← (if kind_eqb k kindParen then pop sc else Ret sc);
          Ret (sc |> adv 1 |> set_wordStart true |> set_cmdPos false))
  else None.

(** The last [switch] of [stepCommand]: the bytes of a word.  [head] and
    [subjectSeen] are the values computed at the start of the method. *)
Definition stepWordByte (k : nestKind) (head subjectSeen : bool) (c : ascii) (sc : nestScanner)
    : outcome nestScanner :=
  if c =c "092" then
    if peek sc 1 =c "010" then Ret (adv 2 sc)
    else Ret (sc |> adv 2 |> set_cmdPos false)
  else if c =c "039" then push kindSingle (sc |> adv 1 |> set_cmdPos false)
  else if c =c "034" then push kindDouble (sc |> adv 1 |> set_cmdPos false)
  else if c =c "096" then
    if kind_eqb k kindBacktick then
      sc ← pop sc; Ret (sc |> adv 1 |> set_cmdPos false)
    else backtick sc
  else if (c =c "#") && cmdPosOrSep (sc_s sc) (sc_i sc) then Ret (skipComment sc)
  else if c =c "$" then dollar true (set_cmdPos false sc)
  else if c =c "{" then
    let sc := adv 1 sc in
    if sc_cmdPos sc && sepAt (sc_s sc) (sc_i sc) then push kindBrace (startCmd sc)
    else Ret (set_cmdPos false sc)
  else if c =c "}" then
    let sc := adv 1 sc in
    sc ← (if sc_cmdPos sc && kind_eqb k kindBrace && sepAt (sc_s sc) (sc_i sc)
          then pop sc else Ret sc);
    Ret (set_cmdPos false sc)
  else if isASCIILetter c then
    let j := skip isASCIILetter (sc_s sc) (sc_i sc + 1) in
    let word := substr (sc_s sc) (sc_i sc) j in
    let standalone := sepAt (sc_s sc) j in
    let sc := set_i j sc in
    if head then
      if subjectSeen && (word =s "in") && standalone then
        sc ← replaceTop kindCasePat sc; Ret (set_patStart true sc)
      else Ret sc
    else if sc_cmdPos sc && standalone then keyword word sc
    else Ret (set_cmdPos false sc)
  else Ret (sc |> adv 1 |> set_cmdPos false).

(** The [if sc.wordStart] block between the two switches; [None] when the
    scan goes on with the byte [c], [Some] when the block returned. *)
Definition stepWordStart (head : bool) (c : ascii) (sc : nestScanner)
    : outcome (option nestScanner * nestScanner) :=
  if negb (sc_wordStart sc) then Ret (None, sc)
  else
    let sc := set_wordStart false sc in
    if (c =c "!") && sc_cmdPos sc && sepAt (sc_s sc) (sc_i sc + 1) then
      let sc := sc |> adv 1 |> set_wordStart true in Ret (Some sc, sc)
    else if head then Ret (None, sc)
    else
      '(handled, sc) ← beginWord sc;
      if handled : bool then Ret (Some sc, sc) else Ret (None, sc).

Definition stepCommand (k : nestKind) (sc : nestScanner) : outcome nestScanner :=
  c ← cur sc;
  let head := kind_eqb k kindCaseHead0 || kind_eqb k kindCaseHead1 in
  let subjectSeen := kind_eqb k kindCaseHead1 in
  let sc := if head then set_cmdPos false sc else sc in
  let enter := kind_eqb k kindCaseHead0 && negb (isBlank c) && negb (c =c "010") in
  sc ← (if enter then replaceTop kindCaseHead1 sc else Ret sc);
  let k := if enter then kindCaseHead1 else k in
  match stepOperator k c sc with
  | Some r => r
  | None =>
      '(returned, sc) ← stepWordStart head c sc;
      match returned with
      | Some sc => Ret sc
      | None => stepWordByte k head subjectSeen c sc
      end
  end.

(** ** Heredoc bodies, dispatch and the main loop *)

Definition heredocLine (k : nestKind) (sc : nestScanner) : outcome (bool * nestScanner) :=
  tail ← rest sc;
  let eol := match IndexByte tail "010" with
             | None => length (sc_s sc)
             | Some e => e + sc_i sc
             end in
  match sc_heredocs sc with
  | [] => Panic
  | info :: _ =>
      let line := substr (sc_s sc) (sc_i sc) eol in
      let line := match last line with
                  | Some c => if c =c "013" then take (length line - 1) line else line
                  | None => line
                  end in
      let line := if stripTabs info
                  then drop (run_length (Ascii.eqb "009") line) line else line in
      let consume sc :=
        let sc := set_i eol sc in
        let sc := if sc_i sc <? length (sc_s sc) then adv 1 sc else sc in
        set_lineStart true sc in
      if bytes_eqb line (delim info) then
        sc ← pop sc; Ret (true, startNextHeredoc (consume sc))
      else if kind_eqb k kindHeredocLiteral then Ret (true, consume sc)
      else Ret (false, sc)
  end.

(** The [switch] of [step] on the kind of the top frame. *)
Definition stepMode (k : nestKind) (sc : nestScanner) : outcome nestScanner :=
  let sc := set_lineStart false sc in
  match k with
  | kindSingle =>
      c ← cur sc;
      sc ← (if c =c "039" then pop sc else Ret sc); Ret (adv 1 sc)
  | kindAnsi =>
      c ← cur sc;
      if c =c "092" then Ret (sc |> adv 1 |> adv 1)
      else sc ← (if c =c "039" then pop sc else Ret sc); Ret (adv 1 sc)
  | kindDouble | kindHeredocExpand => stepDouble k sc
  | kindParam => stepParam sc
  | kindArith | kindArithSq | kindArithParen | kindArithIndex | kindLet => stepArith k sc
  | kindCasePat | kindPatGroup => stepPattern k sc
  | _ => stepCommand k sc
  end.

Definition step (sc : nestScanner) : outcome nestScanner :=
  let k := top sc in
  if sc_lineStart sc && isHeredoc k then
    '(consumed, sc) ← heredocLine k sc;
    if consumed : bool then Ret sc else stepMode k sc
  else stepMode k sc.

Definition initScanner (script : bytes) : nestScanner :=
  startCmd (mkScanner script 0 [] 0 [] [] true false false 0 false false false false false).

(** The loop [for sc.i < len(sc.s) { step }]; [None] when the fuel runs out. *)
Fixpoint scan (fuel : nat) (sc : nestScanner) : option (outcome nestScanner) :=
  if sc_i sc <? length (sc_s sc) then
    match fuel with
    | 0 => None
    | S fuel =>
        match step sc with
        | Ret sc => scan fuel sc
        | TooDeep => Some TooDeep
        | Panic => Some Panic
        end
    end
  else Some (Ret sc).

Definition scanFuel (script : bytes) : nat := 3 * length script + 1.

Definition checkScriptNestingDepth (script : bytes) : option (outcome nestScanner) :=
  scan (scanFuel script) (initScanner script).

(** * Invariant of the scanner

    The counter [depth] is the number of counted frames on the stack and never
    exceeds the limit; the heredoc stack has one entry per heredoc frame. *)

Definition count_kinds (f : nestKind -> bool) (ks : list nestKind) : nat :=
  length (List.filter f ks).

Definition wf (sc : nestScanner) : Prop :=
  sc_depth sc = Z.of_nat (count_kinds counted (sc_kinds sc)) /\
  (sc_depth sc <= MaxNestingDepth)%Z /\
  length (sc_heredocs sc) = count_kinds isHeredoc (sc_kinds sc).

(** [sc'] is well formed, scans the same script, is at least [n] bytes further
    than [sc] and has at most [m] more frames, of which at most one counts. *)
Definition moved (n m : nat) (sc sc' : nestScanner) : Prop :=
  wf sc' /\ sc_s sc' = sc_s sc /\ sc_i sc + n <= sc_i sc' /\
  length (sc_kinds sc') <= length (sc_kinds sc) + m /\
  (sc_depth sc' <= sc_depth sc + match m with 0%nat => 0 | _ => 1 end)%Z.

(** [o] does not panic, every state it returns satisfies [Q], and it rejects
    the script only under [E]. *)
Inductive wp {A} : outcome A -> Prop -> (A -> Prop) -> Prop :=
| wp_Ret a (E : Prop) (Q : A -> Prop) : Q a -> wp (Ret a) E Q
| wp_TooDeep (E : Prop) (Q : A -> Prop) : E -> wp TooDeep E Q.

Lemma wp_bind {A B} (o : outcome A) (f : A -> outcome B) E Q :
  wp o E (fun a => wp (f a) E Q) -> wp (o ≫= f) E Q.
Proof. inversion 1; subst; [done | by constructor]. Qed.

Lemma wp_mono {A} (o : outcome A) (E : Prop) (Q Q' : A -> Prop) :
  wp o E Q -> (forall a, Q a -> Q' a) -> wp o E Q'.
Proof. inversion 1; subst; intros; constructor; auto. Qed.

Lemma wp_elim {A} (o : outcome A) (E : Prop) (Q : A -> Prop) :
  wp o E Q -> (exists a, o = Ret a /\ Q a) \/ (o = TooDeep /\ E).
Proof. inversion 1; subst; eauto. Qed.

Lemma wp_imp {A} (o : outcome A) (E E' : Prop) (Q Q' : A -> Prop) :
  wp o E Q -> (E -> E') -> (forall a, Q a -> Q' a) -> wp o E' Q'.
Proof. inversion 1; subst; intros; constructor; auto. Qed.

(** The same from a state that differs from [sc] only in its flags. *)
Lemma wp_weaken n m sc' o (E : Prop) (Q : nestScanner -> Prop) :
  wp o (sc_depth sc' = MaxNestingDepth) (moved n m sc') ->
  (sc_depth sc' = MaxNestingDepth -> E) ->
  (forall a, moved n m sc' a -> Q a) -> wp o E Q.
Proof. inversion 1; subst; intros; constructor; auto. Qed.

Lemma wp_push k sc E (Q : nestScanner -> Prop) :
  wf sc -> isHeredoc k = false ->
  (counted k = true -> sc_depth sc = MaxNestingDepth -> E) ->
  (forall sc', moved 0 1 sc sc' -> top sc' = k ->
     sc_depth sc' = (sc_depth sc + if counted k then 1 else 0)%Z -> Q sc') ->
  wp (push k sc) E Q.
Proof.
  intros (Hd & Hm & Hh) Hk HE HQ. unfold push.
  destruct (counted k) eqn:Hc; cbn [negb].
  - destruct (Z.ltb_spec MaxNestingDepth (sc_depth (set_depth (sc_depth (set_kinds (k :: sc_kinds sc) sc) + 1)
                                           (set_kinds (k :: sc_kinds sc) sc)))); cbn in *.
    + constructor. apply HE; [done|lia].
    + constructor. apply HQ; [|done|done]. unfold moved, wf, count_kinds in *; cbn. rewrite Hc, Hk. cbn. repeat split; lia.
  - constructor. apply HQ; [|done|cbn; lia]. unfold moved, wf, count_kinds in *; cbn. rewrite Hc, Hk. repeat split; lia.
Qed.

Lemma wp_pop k sc E (Q : nestScanner -> Prop) :
  wf sc -> top sc = k -> k <> kindNone ->
  (forall sc', wf sc' -> sc_s sc' = sc_s sc -> sc_i sc' = sc_i sc ->
               S (length (sc_kinds sc')) = length (sc_kinds sc) ->
               (sc_depth sc' <= sc_depth sc)%Z -> Q sc') ->
  wp (pop sc) E Q.
Proof.
  intros (Hd & Hm & Hh) <- Hk HQ. unfold pop, top, wf, count_kinds in *.
  destruct (sc_kinds sc) as [|k ks]; [done|]. cbn in *.
  destruct (isHeredoc k) eqn:Eh; cbn in *.
  - destruct (sc_heredocs sc) as [|h hs]; cbn in *; [lia|]. constructor. apply HQ; cbn; try done.
    assert (counted k = false) as E2 by (destruct k; cbn in *; congruence). rewrite E2 in Hd. repeat split; cbn; lia.
  - destruct (counted k) eqn:Ec; constructor; apply HQ; cbn in *; try done; repeat split; cbn; try lia.
Qed.

Lemma wp_cur sc E (Q : ascii -> Prop) :
  sc_i sc < length (sc_s sc) -> (forall c, sc_s sc !! sc_i sc = Some c -> Q c) -> wp (cur sc) E Q.
Proof.
  intros Hi HQ. unfold cur.
  destruct (sc_s sc !! sc_i sc) eqn:Ec; [constructor; auto|]. apply lookup_ge_None in Ec. lia.
Qed.

Lemma wp_rest sc E (Q : bytes -> Prop) :
  sc_i sc <= length (sc_s sc) -> Q (drop (sc_i sc) (sc_s sc)) -> wp (rest sc) E Q.
Proof. intros Hi HQ. unfold rest. destruct (Nat.ltb_spec (length (sc_s sc)) (sc_i sc)); [lia|by constructor]. Qed.

Lemma wp_replaceTop k k' sc E (Q : nestScanner -> Prop) :
  wf sc -> top sc = k -> k <> kindNone ->
  counted k = counted k' -> isHeredoc k = isHeredoc k' ->
  (forall sc', moved 0 0 sc sc' -> sc_i sc' = sc_i sc -> top sc' = k' -> Q sc') ->
  wp (replaceTop k' sc) E Q.
Proof.
  intros (Hd & Hm & Hh) Ht Hn Hc He HQ. unfold replaceTop, top in *.
  destruct (sc_kinds sc) as [|k0 ks] eqn:Ek; [congruence|]. subst k0. constructor. apply HQ; try done.
  unfold moved, wf, count_kinds in *; cbn in *. rewrite Ek in *. cbn in *.
  rewrite <- Hc, <- He. destruct (counted k), (isHeredoc k); cbn in *; repeat split; lia.
Qed.

Lemma startNextHeredoc_moved sc : wf sc -> moved 0 1 sc (startNextHeredoc sc).
Proof.
  intros Hwf. unfold startNextHeredoc.
  destruct (sc_pending sc) as [|info rest]; [unfold moved; repeat split; try apply Hwf; lia|].
  destruct (isHeredoc (top sc)); [unfold moved; repeat split; try apply Hwf; lia|].
  destruct Hwf as (Hd & Hm & Hh). unfold moved, wf, count_kinds in *; cbn.
  destruct (expand info); cbn; repeat split; lia.
Qed.

Lemma kind_eqb_true a b : kind_eqb a b = true -> a = b.
Proof. apply bool_decide_eq_true_1. Qed.

Lemma skip_ge f s j : j <= skip f s j.
Proof. unfold skip. lia. Qed.

Lemma moved_trans n m a b c : moved 0 0 a b -> moved n m b c -> moved n m a c.
Proof.
  intros (_ & Hs & Hi & Hk & Hd) (Hw & Hs' & Hi' & Hk' & Hd'). unfold moved.
  split; [done|]. split; [congruence|]. repeat split; lia.
Qed.

Lemma moved_refl sc : wf sc -> moved 0 0 sc sc.
Proof. intros H. unfold moved. split; [done|]. repeat split; lia. Qed.

Lemma skipComment_moved c sc E (Q : nestScanner -> Prop) :
  wf sc -> sc_s sc !! sc_i sc = Some c -> (c =c "#") = true ->
  (forall sc', moved 1 0 sc sc' -> Q sc') -> wp (Ret (skipComment sc)) E Q.
Proof.
  intros Hwf Hc Heq HQ. apply Ascii.eqb_eq in Heq as ->. constructor. apply HQ.
  unfold skipComment, moved, skip. cbn. split; [exact Hwf|].
  rewrite (drop_S _ _ _ Hc). cbn. repeat split; lia.
Qed.

Lemma wp_popElifs n sc E (Q : nestScanner -> Prop) :
  wf sc ->
  (forall sc', wf sc' -> sc_s sc' = sc_s sc -> sc_i sc' = sc_i sc ->
               length (sc_kinds sc') <= length (sc_kinds sc) ->
               (sc_depth sc' <= sc_depth sc)%Z -> Q sc') ->
  wp (popElifs n sc) E Q.
Proof.
  revert sc. induction n as [|n IH]; intros sc Hwf HQ; cbn; [constructor; apply HQ; auto; lia|].
  destruct (kind_eqb (top sc) kindElif) eqn:Et; [|constructor; apply HQ; auto; lia].
  apply kind_eqb_true in Et. apply wp_bind. eapply wp_pop; [done|exact Et|done|].
  intros sc' Hw Hs Hi Hk Hd. apply IH; [done|].
  intros sc'' Hw' Hs' Hi' Hk' Hd'. apply HQ; [done|congruence..|lia|lia].
Qed.

(** Setters leave the invariant alone: after reduction every goal on a state
    is one on the projections of the state it was built from. *)
Ltac sc_solve :=
  repeat match goal with H : _ = true |- _ => clear H | H : _ = false |- _ => clear H end;
  repeat match goal with
  | |- context [skip ?f ?s ?j] =>
      lazymatch goal with
      | _ : j <= skip f s j |- _ => fail
      | _ => pose proof (skip_ge f s j)
      end
  | _ : context [skip ?f ?s ?j] |- _ =>
      lazymatch goal with
      | _ : j <= skip f s j |- _ => fail
      | _ => pose proof (skip_ge f s j)
      end
  end;
  unfold moved, wf, adv, startCmd in *;
  cbn [sc_s sc_i sc_kinds sc_depth sc_heredocs set_s set_i set_kinds set_depth set_heredocs
       set_pending set_lineStart set_cmdPos set_wordStart set_argWords set_inDecl
       set_redirTarget set_afterTime set_patStart set_prevSpace] in *;
  repeat match goal with H : _ /\ _ |- _ => destruct H end;
  repeat match goal with |- _ /\ _ => split end;
  try congruence; try lia.

(** Case analysis on the next test of the goal; only tests on frame kinds are
    remembered, as equations on the kind. *)
Ltac sc_case :=
  match goal with
  | |- context [if ?x then _ else _] =>
      lazymatch x with
      | context [if _ then _ else _] => fail
      | context [kind_eqb] => destruct x eqn:?
      | context [cmdPosOrSep] => destruct x eqn:?
      | _ => destruct x
      end
  end;
  repeat match goal with
  | H : _ && _ = true |- _ => apply andb_true_iff in H; destruct H
  | H : _ || _ = true |- _ => apply orb_true_iff in H; destruct H
  | H : kind_eqb _ _ = true |- _ => apply kind_eqb_true in H
  end.

Ltac sc_push :=
  apply wp_push;
  [sc_solve | done | first [discriminate | intros _; sc_solve] | intros ? ? ? ?; cbn [counted] in *; sc_solve].
Ltac sc_pop :=
  eapply wp_pop;
  [sc_solve | match goal with H : top _ = _ |- _ => exact H end | congruence | intros ? ? ? ? ? ?].
Ltac sc_step :=
  lazymatch goal with
  | |- wp (Ret (if _ then _ else _)) _ _ => sc_case
  | |- wp (Ret (skipComment _)) _ _ =>
      eapply skipComment_moved; [sc_solve | eassumption | eassumption | intros ? ?; sc_solve]
  | |- wp (Ret (startNextHeredoc ?x)) _ _ =>
      let H := fresh in
      assert (moved 0 1 x (startNextHeredoc x)) as H by (apply startNextHeredoc_moved; sc_solve);
      apply wp_Ret; sc_solve
  | |- wp (Ret _) _ _ => apply wp_Ret; sc_solve
  | |- wp (mbind _ _) _ _ => apply wp_bind
  | |- wp (if _ then _ else _) _ _ => sc_case
  | |- wp (push _ _) _ _ => sc_push
  | |- wp (pop _) _ _ => sc_pop
  | |- wp (popElifs _ _) _ _ => apply wp_popElifs; [sc_solve | intros ? ? ? ? ? ?]
  | |- wp (cur _) _ _ => apply wp_cur; [done | intros ? ?]
  end.

(** One step: it returns a well-formed state at least one byte further with at
    most two more frames, and rejects only when the stack is full. *)
Definition advances (sc : nestScanner) (o : outcome nestScanner) : Prop :=
  wp o (sc_depth sc = MaxNestingDepth) (moved 1 2 sc).

Lemma dollar_ok ansi sc : wf sc -> advances sc (dollar ansi sc).
Proof. intros Hwf. unfold advances, dollar. cbv zeta. repeat sc_step. Qed.

Lemma backtick_ok sc : wf sc -> advances sc (backtick sc).
Proof. intros Hwf. unfold advances, backtick. sc_push. Qed.

(** The precondition of every step function: a well-formed state inside the
    script whose top frame is [k]. *)
Definition at_frame (k : nestKind) (sc : nestScanner) : Prop :=
  wf sc /\ sc_i sc < length (sc_s sc) /\ top sc = k.





Lemma keyword_ok w sc0 sc :
  wf sc -> sc_s sc = sc_s sc0 -> sc_depth sc = sc_depth sc0 ->
  sc_i sc0 + 1 <= sc_i sc -> length (sc_kinds sc) = length (sc_kinds sc0) ->
  advances sc0 (keyword w sc).
Proof.
  intros Hwf Hs Hd Hi Hks. unfold advances, keyword. cbv zeta.
  repeat sc_step.
Qed.

Ltac sc_sub :=
  lazymatch goal with
  | |- wp (backtick _) _ _ => eapply wp_weaken; [apply backtick_ok; sc_solve | sc_solve ..]
  | |- wp (dollar _ _) _ _ => eapply wp_weaken; [apply dollar_ok; sc_solve | sc_solve ..]
  | |- wp (keyword _ _) _ _ => apply keyword_ok; sc_solve
  | |- wp (replaceTop _ _) _ _ =>
      eapply wp_replaceTop;
      [ sc_solve | match goal with H : top _ = _ |- _ => exact H end
      | done | done | done | intros ? ? ? ?]
  | _ => sc_step
  end.

Lemma stepDouble_ok k sc : at_frame k sc -> k <> kindNone -> advances sc (stepDouble k sc).
Proof. intros (Hwf & Hlt & Hk) Hn. unfold advances, stepDouble. repeat sc_sub. Qed.

Lemma stepParam_ok sc : at_frame kindParam sc -> advances sc (stepParam sc).
Proof. intros (Hwf & Hlt & Hk). unfold advances, stepParam. repeat sc_sub. Qed.

Lemma stepArithByte_ok k c sc :
  at_frame k sc -> k <> kindNone -> advances sc (stepArithByte k c sc).
Proof. intros (Hwf & Hlt & Hk) Hn. unfold advances, stepArithByte. cbv zeta. repeat sc_sub. Qed.

Lemma stepPattern_ok k sc :
  at_frame k sc -> k <> kindNone -> advances sc (stepPattern k sc).
Proof.
  intros (Hwf & Hlt & Hk) Hn. unfold advances, stepPattern. cbv zeta. repeat sc_sub.
Qed.


Lemma readDelim_go_ge m s b exp i b' exp' e :
  readDelim_go m s b exp i = (b', exp', e) -> i <= e.
Proof.
  intros H. cut (forall n m s b exp i, length s <= n ->
    forall b' exp' e, readDelim_go m s b exp i = (b', exp', e) -> i <= e).
  { intros Hgen. eapply Hgen; [|exact H]. reflexivity. }
  clear. induction n as [|n IH]; intros m [|c s] b exp i Hn b' exp' e; cbn [readDelim_go];
    try (intros [= <- <- <-]; lia); cbn in Hn; [lia|].
  repeat case_match; subst; intros E;
    first [injection E as <- <- <-; lia | apply IH in E; cbn in *; lia].
Qed.

Lemma scanRedirOrHeredoc_ge s i p e p' : scanRedirOrHeredoc s i p = (e, p') -> i + 1 <= e.
Proof.
  unfold scanRedirOrHeredoc. cbv zeta. destruct (negb _); [intros [= <- <-]; lia|].
  destruct (byteAtIs s (i + 2) "<"); [intros [= <- <-]; lia|].
  set (j := if byteAtIs s (i + 2) "-" then i + 2 + 1 else i + 2).
  assert (i + 2 <= j) by (subst j; destruct (byteAtIs s (i + 2) "-"); lia).
  destruct (readHeredocDelim s _) as [[d ex] e'] eqn:Er. intros [= <- <-].
  apply readDelim_go_ge in Er. pose proof (skip_ge (fun c => (c =c " ") || (c =c "009")) s j). lia.
Qed.

(** A consuming branch of [stepCommand], with the flags of the state changed. *)
Definition operator_post (sc : nestScanner) (r : option (outcome nestScanner)) : Prop :=
  match r with Some o => advances sc o | None => True end.

Lemma stepOperator_ok k c sc :
  at_frame k sc -> operator_post sc (stepOperator k c sc).
Proof.
  intros (Hwf & Hlt & Hk). unfold operator_post, stepOperator, advances. cbv zeta.
  destruct (scanRedirOrHeredoc (sc_s sc) (sc_i sc) (sc_pending sc)) as [e p] eqn:Escan.
  apply scanRedirOrHeredoc_ge in Escan.
  repeat first [exact I | sc_case | sc_step].
Qed.

Lemma stepWordByte_ok k head seen c sc :
  at_frame k sc -> sc_s sc !! sc_i sc = Some c ->
  (seen = true -> k = kindCaseHead1) ->
  advances sc (stepWordByte k head seen c sc).
Proof.
  intros (Hwf & Hlt & Hk) Hc Hseen. unfold advances, stepWordByte. cbv zeta.
  destruct seen; [specialize (Hseen eq_refl); subst k|clear Hseen]; cbn [andb];
    repeat sc_sub.
Qed.

(** The flags of [sc'] may differ from those of [sc], nothing else. *)
Definition same_pos (sc sc' : nestScanner) : Prop :=
  moved 0 0 sc sc' /\ sc_i sc' = sc_i sc /\ sc_depth sc' = sc_depth sc /\
  sc_kinds sc' = sc_kinds sc.

Lemma countWord_same name next sc : wf sc -> same_pos sc (countWord name next sc).
Proof. intros Hwf. unfold countWord, same_pos. cbv zeta. sc_case; sc_solve. Qed.

Lemma beginWord_ok sc :
  wf sc -> sc_i sc < length (sc_s sc) ->
  wp (beginWord sc) (sc_depth sc = MaxNestingDepth)
     (fun '(handled, sc') => if handled : bool then moved 1 2 sc sc' else same_pos sc sc').
Proof.
  intros Hwf Hlt. unfold beginWord. cbv zeta.
  assert (forall name next, same_pos (set_afterTime false sc)
            (countWord name next (set_afterTime false sc))) as Hcw.
  { intros. apply countWord_same. sc_solve. }
  sc_case; [apply wp_Ret; unfold same_pos; sc_solve|].
  apply wp_bind, wp_cur; [done|intros c Hc]. apply wp_bind, wp_rest; [cbn; lia|].
  repeat first [sc_case | sc_step].
  all: first [exact (Hcw _ _) | unfold same_pos; sc_solve].
Qed.

Lemma stepWordStart_ok head c sc :
  wf sc -> sc_i sc < length (sc_s sc) ->
  wp (stepWordStart head c sc) (sc_depth sc = MaxNestingDepth)
     (fun '(returned, sc') =>
        match returned with Some sc' => moved 1 2 sc sc' | None => same_pos sc sc' end).
Proof.
  intros Hwf Hlt. unfold stepWordStart. cbv zeta.
  sc_case; [apply wp_Ret; unfold same_pos; sc_solve|].
  sc_case; [apply wp_Ret; sc_solve|].
  sc_case; [apply wp_Ret; unfold same_pos; sc_solve|].
  apply wp_bind. eapply wp_mono; [exact (beginWord_ok (set_wordStart false sc) Hwf Hlt)|].
  intros [[] sc'] H; apply wp_Ret; exact H.
Qed.

(** The head of a case statement: the first byte of its subject turns the
    frame [kindCaseHead0] into [kindCaseHead1]. *)
Lemma enterCaseHead_ok k c sc (enter : bool) :
  at_frame k sc -> sc_s sc !! sc_i sc = Some c ->
  (enter = true -> k = kindCaseHead0) ->
  wp (if enter then replaceTop kindCaseHead1 sc else Ret sc) False
     (fun sc2 => at_frame (if enter then kindCaseHead1 else k) sc2 /\
        sc_s sc2 !! sc_i sc2 = Some c /\ sc_i sc2 = sc_i sc /\ moved 0 0 sc sc2 /\
        sc_depth sc2 = sc_depth sc).
Proof.
  intros (Hwf & Hlt & Hk) Hc He. destruct enter.
  - rewrite (He eq_refl) in Hk. unfold replaceTop, top in *.
    destruct (sc_kinds sc) as [|k0 ks] eqn:Eks; [done|]. subst k0. apply wp_Ret.
    unfold at_frame, top, moved, wf, count_kinds in *. cbn. rewrite Eks in *. cbn in *.
    repeat split; try done; lia.
  - apply wp_Ret. unfold at_frame. repeat split; try done; try apply Hwf; lia.
Qed.

Lemma stepCommand_ok k sc : at_frame k sc -> advances sc (stepCommand k sc).
Proof.
  intros (Hwf & Hlt & Hk). unfold stepCommand.
  apply wp_bind, wp_cur; [done|intros c Hc]. cbv zeta.
  set (head := kind_eqb k kindCaseHead0 || kind_eqb k kindCaseHead1).
  set (sc1 := if head then set_cmdPos false sc else sc).
  assert (same_pos sc sc1) as Hs1 by (subst sc1; unfold same_pos; destruct head; sc_solve).
  set (enter := kind_eqb k kindCaseHead0 && negb (isBlank c) && negb (c =c "010")).
  set (k' := if enter then kindCaseHead1 else k).
  set (seen := kind_eqb k kindCaseHead1).
  assert (seen = true -> k' = kindCaseHead1) as Hseen.
  { subst seen k' enter. intros ->%kind_eqb_true. reflexivity. }
  assert (at_frame k sc1 /\ sc_s sc1 !! sc_i sc1 = Some c) as [Hf1 Hc1].
  { subst sc1. destruct head; repeat split; try done; apply Hwf. }
  pose proof (enterCaseHead_ok k c sc1 enter Hf1 Hc1) as H2. fold k' in H2.
  destruct Hs1 as (Hm1 & Hi1 & Hd1 & _).
  clearbody k' seen. apply wp_bind.
  eapply wp_imp; [apply H2; subst enter; by intros [[?%kind_eqb_true _]%andb_true_iff _]%andb_true_iff
                 |done|].
  intros sc2 (Hf2 & Hc2 & Hi2 & Hm2 & Hd2). cbv beta.
  pose proof (stepOperator_ok k' c sc2 Hf2) as Hop. unfold operator_post in Hop.
  assert (forall o, advances sc2 o -> advances sc o) as Hlift.
  { intros o Ho. eapply wp_weaken; [exact Ho|congruence|].
    intros a Ha. exact (moved_trans 1 2 _ _ _ (moved_trans 0 0 _ _ _ Hm1 Hm2) Ha). }
  destruct (stepOperator k' c sc2) as [o|]; [exact (Hlift o Hop)|]. apply Hlift.
  destruct Hf2 as (Hw2 & Hl2 & Ht2). apply wp_bind.
  eapply wp_mono; [apply stepWordStart_ok; [exact Hw2|exact Hl2]|].
  intros [[sc3|] sc4] H3; [apply wp_Ret; exact H3|].
  destruct H3 as ((Hw3 & Hs3 & _) & Hi3 & Hd3 & Hk3).
  eapply wp_weaken; [apply stepWordByte_ok|..].
  - split; [exact Hw3|]. split; [congruence|]. unfold top in *. by rewrite Hk3.
  - by rewrite Hs3, Hi3.
  - exact Hseen.
  - congruence.
  - intros a Ha. sc_solve.
Qed.

(** ** Every step makes progress

    The measure counts three units per unread byte and one per open frame: a
    step that reads a byte opens at most two frames, and the only step that
    reads nothing closes one. *)
Definition measure (sc : nestScanner) : nat :=
  3 * (length (sc_s sc) - sc_i sc) + length (sc_kinds sc).

Definition progresses (sc : nestScanner) (o : outcome nestScanner) : Prop :=
  wp o (sc_depth sc = MaxNestingDepth)
    (fun sc' => wf sc' /\ sc_s sc' = sc_s sc /\ sc_i sc <= sc_i sc' /\ measure sc' < measure sc /\
       (sc_depth sc' - sc_depth sc <= Z.of_nat (sc_i sc' - sc_i sc))%Z).

Lemma advances_progresses sc o :
  sc_i sc < length (sc_s sc) -> advances sc o -> progresses sc o.
Proof.
  intros Hlt H. eapply wp_mono; [exact H|]. intros sc' (Hw & Hs & Hi & Hk & Hd).
  unfold measure. rewrite Hs. repeat split; try apply Hw; lia.
Qed.

Lemma stepArith_ok k sc : at_frame k sc -> k <> kindNone -> progresses sc (stepArith k sc).
Proof.
  intros Hf Hn. pose proof Hf as (Hwf & Hlt & Hk). unfold stepArith.
  apply wp_bind, wp_cur; [done|intros c Hc].
  assert (progresses sc (stepArithByte k c sc)) as Hbyte.
  { by apply advances_progresses, stepArithByte_ok. }
  sc_case; [|exact Hbyte]. sc_case.
  - apply wp_bind. sc_pop. apply wp_Ret. unfold measure. cbn [sc_s set_cmdPos].
    match goal with H : sc_s _ = sc_s sc |- _ => rewrite H end. sc_solve.
  - sc_case; [|exact Hbyte]. apply wp_Ret. unfold measure. sc_solve.
Qed.

Lemma IndexByte_lt s c n : IndexByte s c = Some n -> n < length s.
Proof.
  revert n. induction s as [|x s IH]; intros n; cbn; [done|].
  destruct (Ascii.eqb x c); [intros [= <-]; lia|].
  destruct (IndexByte s c); cbn; [|done]. intros [= <-]. specialize (IH _ eq_refl). lia.
Qed.

Lemma heredocLine_ok k sc :
  at_frame k sc -> isHeredoc k = true ->
  wp (heredocLine k sc) False
     (fun '(consumed, sc') => if consumed : bool then moved 1 2 sc sc' else sc' = sc).
Proof.
  intros (Hwf & Hlt & Hk) Hh. unfold heredocLine.
  apply wp_bind, wp_rest; [lia|]. cbv zeta.
  set (eol := match IndexByte (drop (sc_i sc) (sc_s sc)) "010" with
              | Some e => e + sc_i sc | None => length (sc_s sc) end).
  assert (sc_i sc <= eol <= length (sc_s sc)) as Heol.
  { subst eol. destruct (IndexByte _ _) as [e|] eqn:Ei; [|lia].
    apply IndexByte_lt in Ei. rewrite length_drop in Ei. lia. }
  destruct (sc_heredocs sc) as [|info hs] eqn:Eh.
  { exfalso. destruct Hwf as (_ & _ & Hl). unfold top, count_kinds in *. rewrite Eh in Hl.
    destruct (sc_kinds sc) as [|k0 ks]; subst k; cbn in *; [done|]. rewrite Hh in Hl. done. }
  clearbody eol. destruct (bytes_eqb _ _).
  - apply wp_bind. eapply wp_pop; [exact Hwf|exact Hk|by intros ->|].
    intros sc1 Hw1 Hs1 Hi1 Hk1 Hd1. apply wp_Ret.
    change (sc_i (set_i eol sc1)) with eol. change (sc_s (set_i eol sc1)) with (sc_s sc1). rewrite Hs1.
    match goal with |- moved 1 2 sc (startNextHeredoc ?x) =>
      assert (moved 0 1 x (startNextHeredoc x)) as Hm by (apply startNextHeredoc_moved; sc_case; sc_solve);
      revert Hm
    end.
    destruct (Nat.ltb_spec eol (length (sc_s sc))); intros Hm; sc_solve.
  - sc_case; [|by apply wp_Ret]. apply wp_Ret. cbn [set_i sc_i sc_s].
    destruct (Nat.ltb_spec eol (length (sc_s sc))); sc_solve.
Qed.

Lemma stepMode_ok sc :
  wf sc -> sc_i sc < length (sc_s sc) -> progresses sc (stepMode (top sc) sc).
Proof.
  intros Hwf Hlt. unfold stepMode. cbv zeta.
  assert (at_frame (top sc) (set_lineStart false sc)) as Hf by (split; [exact Hwf|done]).
  assert (forall o, advances (set_lineStart false sc) o -> progresses sc o) as Hadv.
  { intros o Ho. apply advances_progresses; [exact Hlt|exact Ho]. }
  assert (forall o, progresses (set_lineStart false sc) o -> progresses sc o) as Hpro by done.
  destruct (top sc) eqn:Ht;
    try (apply Hadv, stepCommand_ok; exact Hf);
    try (apply Hadv, stepDouble_ok; [exact Hf|done]);
    try (apply Hadv, stepParam_ok; exact Hf);
    try (apply Hadv, stepPattern_ok; [exact Hf|done]);
    try (apply Hpro, stepArith_ok; [exact Hf|done]).
  all: apply Hadv; destruct Hf as (Hwf' & Hlt' & Ht'); clear Hadv Hpro Ht Hwf Hlt;
    unfold advances; repeat sc_step.
Qed.

Lemma step_ok sc : wf sc -> sc_i sc < length (sc_s sc) -> progresses sc (step sc).
Proof.
  intros Hwf Hlt. unfold step. cbv zeta. pose proof (stepMode_ok sc Hwf Hlt) as Hmode.
  destruct (sc_lineStart sc && isHeredoc (top sc)) eqn:Eh; [|exact Hmode].
  apply andb_true_iff in Eh as [_ Eh]. apply wp_bind.
  eapply wp_imp; [apply heredocLine_ok; [by split|exact Eh]|done|].
  intros [[] sc'] H; [|by subst]. apply advances_progresses; [done|]. by apply wp_Ret.
Qed.

(** * Theorems on the scan *)

Inductive reachable (script : bytes) : nestScanner -> Prop :=
| reachable_init : reachable script (initScanner script)
| reachable_step sc sc' :
    reachable script sc -> sc_i sc < length (sc_s sc) -> step sc = Ret sc' ->
    reachable script sc'.

(** The invariant of the loop: well formed, over the same script, and at most
    as deep as the bytes read. *)
Definition loop_inv (script : bytes) (sc : nestScanner) : Prop :=
  wf sc /\ sc_s sc = script /\ (sc_depth sc <= Z.of_nat (sc_i sc))%Z.

Lemma initScanner_inv script : loop_inv script (initScanner script).
Proof. unfold loop_inv, wf, MaxNestingDepth. cbn. repeat split; lia. Qed.

Lemma step_inv script sc :
  loop_inv script sc -> sc_i sc < length script ->
  wp (step sc) (sc_depth sc = MaxNestingDepth)
     (fun sc' => loop_inv script sc' /\ measure sc' < measure sc).
Proof.
  intros (Hwf & Hs & Hd) Hlt. eapply wp_mono; [apply step_ok; [done|by rewrite Hs]|].
  intros sc' (Hw & Hs' & Hi & Hm & Hd'). unfold loop_inv. repeat split; try apply Hw; try congruence; lia.
Qed.

Lemma reachable_inv script sc : reachable script sc -> loop_inv script sc.
Proof.
  induction 1 as [|sc sc' Hr IH Hlt Hst]; [apply initScanner_inv|].
  pose proof (step_inv script sc IH) as H. destruct IH as (_ & Hs & _). rewrite Hs in Hlt.
  destruct (wp_elim _ _ _ (H Hlt)) as [(a & Ha & Hi & _)|[Ha _]]; congruence.
Qed.

(** With enough fuel the loop ends, in a state that satisfies the invariant or
    with the script rejected by a full stack. *)
Lemma scan_ok script fuel sc :
  loop_inv script sc -> measure sc < fuel ->
  (exists sc', scan fuel sc = Some (Ret sc') /\ loop_inv script sc' /\ length script <= sc_i sc') \/
  (scan fuel sc = Some TooDeep /\ (MaxNestingDepth < Z.of_nat (length script))%Z).
Proof.
  revert sc. induction fuel as [|fuel IH]; intros sc Hinv Hm; [lia|].
  pose proof Hinv as (_ & Hs & Hd). cbn [scan]. rewrite Hs.
  destruct (Nat.ltb_spec (sc_i sc) (length script)) as [Hlt|Hge]; [|left; eauto].
  destruct (wp_elim _ _ _ (step_inv script sc Hinv Hlt)) as [(sc' & -> & Hinv' & Hm')|[-> HE]].
  - apply IH; [done|lia].
  - right. split; [done|lia].
Qed.

Lemma measure_init script : measure (initScanner script) < scanFuel script.
Proof. unfold measure, scanFuel. cbn. lia. Qed.

(** The pre-scan is total on every byte string: it never indexes out of
    range, never pops an empty stack and never loops; it ends either with the
    script rejected, or past the end of the script with [depth] equal to the
    number of counted frames still open, which is within the limit. *)
Theorem checkScriptNestingDepth_total script :
  checkScriptNestingDepth script = Some TooDeep \/
  exists sc, checkScriptNestingDepth script = Some (Ret sc) /\
    length script <= sc_i sc /\
    sc_depth sc = Z.of_nat (count_kinds counted (sc_kinds sc)) /\
    (sc_depth sc <= MaxNestingDepth)%Z.
Proof.
  destruct (scan_ok script (scanFuel script) (initScanner script)) as [(sc & H & Hi & Hl)|[H _]].
  - apply initScanner_inv.
  - apply measure_init.
  - right. exists sc. destruct Hi as ((Hd & Hm & _) & _). auto.
  - by left.
Qed.

(** In every state the loop reaches, [depth] is the number of counted
    frames on the stack, it is at most [MaxNestingDepth] and at most the number
    of bytes read, and there is exactly one pending delimiter per open heredoc
    body. *)
Theorem reachable_depth_exact script sc :
  reachable script sc ->
  sc_depth sc = Z.of_nat (count_kinds counted (sc_kinds sc)) /\
  (sc_depth sc <= MaxNestingDepth)%Z /\
  (sc_depth sc <= Z.of_nat (sc_i sc))%Z /\
  length (sc_heredocs sc) = count_kinds isHeredoc (sc_kinds sc).
Proof. intros ((Hd & Hm & Hh) & _ & Hi)%reachable_inv. auto. Qed.

(** No false alarm on short scripts: a script of at most [MaxNestingDepth]
    bytes is accepted, whatever it contains. *)
Theorem short_script_accepted script :
  (Z.of_nat (length script) <= MaxNestingDepth)%Z ->
  exists sc, checkScriptNestingDepth script = Some (Ret sc).
Proof.
  intros Hlen. destruct (scan_ok script (scanFuel script) (initScanner script)) as [(sc & H & _)|[_ H]].
  - apply initScanner_inv.
  - apply measure_init.
  - eauto.
  - lia.
Qed.

Lemma short_script_accepted_witness :
  exists sc, checkScriptNestingDepth (lit "if (((; then ${x") = Some (Ret sc).
Proof. apply short_script_accepted. vm_compute. congruence. Defined.

Lemma reachable_depth_exact_witness :
  exists sc, reachable (lit "$(") sc /\ sc_depth sc = 1%Z /\
    sc_depth sc = Z.of_nat (count_kinds counted (sc_kinds sc)).
Proof.
  destruct (step (initScanner (lit "$("))) as [sc| |] eqn:E; [|done..].
  assert (reachable (lit "$(") sc) as Hr.
  { eapply reachable_step; [apply reachable_init|vm_compute; lia|exact E]. }
  exists sc. split; [exact Hr|]. split; [|apply (reachable_depth_exact _ _ Hr)].
  vm_compute in E. injection E as <-. reflexivity.
Defined.

(** ** Deep scripts are rejected *)

(** The scanner in command position at byte [i] with frames [ks]. *)
Definition inCommand (script : bytes) (ls : bool) (i : nat) (ks : list nestKind) (d : Z) : nestScanner :=
  mkScanner script i ks d [] [] ls true true 0 false false false false false.

Lemma inCommand_init script : initScanner script = inCommand script true 0 [] 0.
Proof. reflexivity. Qed.

(** Runs the scanner on a state whose byte at [sc_i] is known. *)
Ltac sc_run :=
  repeat first
  [ match goal with
    | |- context [kind_eqb ?a ?b] =>
        let v := eval vm_compute in (kind_eqb a b) in
        lazymatch v with true => idtac | false => idtac end;
        change (kind_eqb a b) with v
    | H : ?s !! ?i = Some _ |- context [?s !! ?i] => rewrite H
    | H : ?i < length ?s |- context [length ?s <? ?i] =>
        rewrite (proj2 (Nat.ltb_ge (length s) i)) by lia
    | |- context [?i + 0] => rewrite (Nat.add_0_r i)
    end
  | progress cbn -[lookup length Nat.ltb MaxNestingDepth Z.ltb Z.add Z.of_nat Nat.mul Nat.add] ].

(** A dollar sign in command position starts a word and reaches [dollar]. *)
Lemma step_dollar script ls i ks d :
  script !! i = Some "$"%char -> Forall (eq kindParen) ks ->
  step (inCommand script ls i ks d) =
    dollar true (mkScanner script i ks d [] [] false false false 1 false false false false false).
Proof.
  intros Hc Hks. assert (i < length script) as Hlt by (by eapply lookup_lt_Some).
  unfold step, inCommand. cbv zeta.
  destruct Hks as [|k0 ks <- _]; cbn [top sc_kinds isHeredoc sc_lineStart andb];
    rewrite ?andb_false_r;
    unfold stepMode, stepCommand, cur, stepWordStart, beginWord, rest; sc_run; unfold cur; sc_run; reflexivity.
Qed.

Lemma step_open script ls i ks d :
  script !! i = Some "$"%char -> script !! (i + 1) = Some "("%char ->
  Forall (eq kindParen) ks ->
  ((d < MaxNestingDepth)%Z -> script !! (i + 2) = Some "$"%char ->
   step (inCommand script ls i ks d) = Ret (inCommand script false (i + 2) (kindParen :: ks) (d + 1))) /\
  ((MaxNestingDepth <= d)%Z -> step (inCommand script ls i ks d) = TooDeep).
Proof.
  intros H0 H1 Hks. rewrite step_dollar by done. unfold dollar, peek, push. split.
  - intros Hd H2. sc_run. rewrite (proj2 (Z.ltb_ge MaxNestingDepth (d + 1))) by lia. reflexivity.
  - intros Hd. sc_run.
    destruct (Ascii.eqb _ _); sc_run; rewrite (proj2 (Z.ltb_lt MaxNestingDepth (d + 1))) by lia; reflexivity.
Qed.

Definition openings (n : nat) : bytes := mjoin (replicate n (lit "$(")).

Lemma openings_lookup n k rest :
  k < n -> (openings n ++ rest) !! (2 * k) = Some "$"%char /\
           (openings n ++ rest) !! (2 * k + 1) = Some "("%char.
Proof.
  revert k. induction n as [|n IH]; intros k Hk; [lia|].
  change (openings (S n) ++ rest) with ("$"%char :: "("%char :: openings n ++ rest).
  destruct k as [|k]; [done|].
  replace (2 * S k) with (S (S (2 * k))) by lia. cbn [lookup]. apply IH. lia.
Qed.

Lemma scan_openings n rest fuel m k ls :
  (MaxNestingDepth < Z.of_nat n)%Z ->
  (Z.of_nat k + Z.of_nat m = MaxNestingDepth)%Z -> m < fuel ->
  scan fuel (inCommand (openings n ++ rest) ls (2 * k) (replicate k kindParen) (Z.of_nat k)) = Some TooDeep.
Proof.
  intros Hn. revert fuel k ls. induction m as [|m IH]; intros [|fuel] k ls Hk Hf; try lia.
  all: destruct (openings_lookup n k rest) as [H0 H1]; [lia|].
  all: assert (2 * k < length (openings n ++ rest)) as Hlt by (by eapply lookup_lt_Some).
  all: cbn [scan]; change (sc_i (inCommand _ _ ?i _ _)) with i; change (sc_s (inCommand ?s _ _ _ _)) with s.
  all: rewrite (proj2 (Nat.ltb_lt _ _)) by done.
  all: destruct (step_open (openings n ++ rest) ls (2 * k) (replicate k kindParen) (Z.of_nat k)) as [Hgo Hstop];
    [done|done|by apply Forall_replicate|].
  - rewrite Hstop by lia. reflexivity.
  - rewrite Hgo; [|lia|].
    + replace (2 * k + 2) with (2 * S k) by lia. replace (Z.of_nat k + 1)%Z with (Z.of_nat (S k)) by lia.
      apply (IH fuel (S k) false); lia.
    + replace (2 * k + 2) with (2 * S k) by lia. apply openings_lookup. lia.
Qed.

(** The guard catches deep nesting: a script that opens more than
    [MaxNestingDepth] command substitutions is rejected, whatever follows. *)
Theorem deep_substitutions_rejected n rest :
  (MaxNestingDepth < Z.of_nat n)%Z ->
  checkScriptNestingDepth (openings n ++ rest) = Some TooDeep.
Proof.
  intros Hn. unfold checkScriptNestingDepth. rewrite inCommand_init.
  apply (scan_openings n rest _ (Z.to_nat MaxNestingDepth) 0 true); [done|unfold MaxNestingDepth; lia|].
  unfold scanFuel. rewrite length_app. unfold openings.
  assert (length (mjoin (replicate n (lit "$("))) = 2 * n) as ->.
  { clear. induction n as [|n IH]; [done|].
    change (mjoin (replicate (S n) (lit "$("))) with (lit "$(" ++ mjoin (replicate n (lit "$("))).
    rewrite length_app, IH. change (length (lit "$(")) with 2. lia. }
  lia.
Qed.

Lemma deep_substitutions_rejected_witness :
  checkScriptNestingDepth (openings (Z.to_nat 5001) ++ lit ")") = Some TooDeep.
Proof. apply deep_substitutions_rejected. unfold MaxNestingDepth. lia. Defined.

(** ** Quoted text is literal *)

Lemma step_single script i ks d c :
  script !! i = Some c ->
  step (mkScanner script i (kindSingle :: ks) d [] [] false false false 1 false false false false false) =
  if c =c "039" then Ret (mkScanner script (i + 1) ks d [] [] false false false 1 false false false false false)
  else Ret (mkScanner script (i + 1) (kindSingle :: ks) d [] [] false false false 1 false false false false false).
Proof.
  intros Hc. unfold step, stepMode, cur. sc_run.
  destruct (Ascii.eqb c "'"); sc_run; reflexivity.
Qed.

Lemma scan_single body fuel pre i :
  Forall (fun c => c <> ch_sq) body -> i = length pre ->
  length body + 1 < fuel ->
  scan fuel (mkScanner (pre ++ body ++ [ch_sq]) i [kindSingle] 0 [] [] false false false 1 false false false false false) =
  Some (Ret (mkScanner (pre ++ body ++ [ch_sq]) (length pre + length body + 1) [] 0 [] [] false
               false false 1 false false false false false)).
Proof.
  intros Hb. revert pre i fuel. induction Hb as [|c body Hc Hb IH]; intros pre i [|fuel] -> Hf; try (cbn in Hf; lia).
  - cbn [scan]. change (sc_i (mkScanner _ ?i _ _ _ _ _ _ _ _ _ _ _ _ _)) with i.
    change (sc_s (mkScanner ?s _ _ _ _ _ _ _ _ _ _ _ _ _ _)) with s. cbn [app].
    rewrite (proj2 (Nat.ltb_lt _ _)) by (rewrite length_app; cbn; lia).
    rewrite (step_single _ _ _ _ ch_sq) by (rewrite lookup_app_r, Nat.sub_diag by lia; done).
    rewrite Ascii.eqb_refl. destruct fuel as [|fuel]; [cbn in Hf; lia|]. cbn [scan].
    change (sc_i (mkScanner _ ?i _ _ _ _ _ _ _ _ _ _ _ _ _)) with i.
    change (sc_s (mkScanner ?s _ _ _ _ _ _ _ _ _ _ _ _ _ _)) with s.
    rewrite (proj2 (Nat.ltb_ge _ _)) by (rewrite length_app; cbn; lia). cbn [length]. by rewrite Nat.add_0_r.
  - cbn [scan]. change (sc_i (mkScanner _ ?i _ _ _ _ _ _ _ _ _ _ _ _ _)) with i.
    change (sc_s (mkScanner ?s _ _ _ _ _ _ _ _ _ _ _ _ _ _)) with s.
    rewrite (proj2 (Nat.ltb_lt _ _)) by (rewrite !length_app; cbn; lia).
    rewrite (step_single _ _ _ _ c) by (rewrite lookup_app_r, Nat.sub_diag by lia; done).
    rewrite (proj2 (Ascii.eqb_neq c _)) by done.
    replace (pre ++ (c :: body) ++ [ch_sq]) with ((pre ++ [c]) ++ body ++ [ch_sq]) by (by rewrite <- app_assoc).
    rewrite IH; [|rewrite length_app; cbn; lia|cbn in Hf; lia].
    rewrite !length_app. cbn [length]. do 3 f_equal. lia.
Qed.

(** Single quotes make everything literal: a script that is one quoted
    string is accepted with no frame left open, whatever constructs, keywords
    or heredoc operators the quoted text contains and however long it is. *)
Theorem single_quoted_literal body :
  Forall (fun c => c <> ch_sq) body ->
  exists sc, checkScriptNestingDepth (ch_sq :: body ++ [ch_sq]) = Some (Ret sc) /\
    sc_kinds sc = [] /\ sc_depth sc = 0%Z /\ sc_i sc = length body + 2.
Proof.
  intros Hb. unfold checkScriptNestingDepth, scanFuel.
  set (script := ch_sq :: body ++ [ch_sq]).
  assert (script !! 0 = Some ch_sq) as H0 by done.
  assert (0 < length script) as Hl by (cbn; lia).
  assert (step (initScanner script) =
    Ret (mkScanner script 1 [kindSingle] 0 [] [] false false false 1 false false false false false)) as Hs.
  { rewrite inCommand_init. clearbody script. unfold step, inCommand. sc_run.
    unfold stepMode, stepCommand, cur, stepWordStart, beginWord, rest; sc_run; unfold cur; sc_run; reflexivity. }
  eexists. split; [|split; [|split]].
  - replace (3 * length script + 1) with (S (3 * length script)) by lia. cbn [scan].
    change (sc_i (initScanner script)) with 0. change (sc_s (initScanner script)) with script.
    rewrite (proj2 (Nat.ltb_lt _ _)) by done. rewrite Hs.
    apply (scan_single body _ [ch_sq] 1); [done|done|]. subst script. cbn [length]. rewrite length_app. cbn. lia.
  - done.
  - done.
  - cbn. lia.
Qed.

Lemma single_quoted_literal_witness :
  exists sc, checkScriptNestingDepth (ch_sq :: lit "$(if { case <<E" ++ [ch_sq]) = Some (Ret sc) /\
    sc_kinds sc = [] /\ sc_depth sc = 0%Z /\ sc_i sc = length (lit "$(if { case <<E") + 2.
Proof. apply single_quoted_literal. repeat constructor; discriminate. Defined.

(** * The guard on the parsed tree

    [checkNestingDepth] walks the syntax tree with an explicit stack.  The
    tree and [directChildren] (one level of the parser package's [Walk]) are
    parameters: the parser is not part of this repository.  [size] bounds the
    number of nodes below a node, so that a finite tree has enough fuel. *)
Section AST.
Context {node : Type} (directChildren : node -> list node).

Fixpoint walkStack (fuel : nat) (stack : list (node * Z)) : option (outcome unit) :=
  match stack with
  | [] => Some (Ret tt)
  | (n, depth) :: stack =>
      match fuel with
      | 0 => None
      | S fuel =>
          if (MaxNestingDepth <? depth)%Z then Some TooDeep
          else walkStack fuel (reverse ((fun c => (c, (depth + 1)%Z)) <$> directChildren n) ++ stack)
      end
  end.

Definition checkNestingDepth (fuel : nat) (root : option node) : option (outcome unit) :=
  match root with
  | None => Some (Ret tt)
  | Some root => walkStack fuel [(root, 0%Z)]
  end.

(** [n] is [d] levels below [root]. *)
Inductive at_depth (root : node) : node -> Z -> Prop :=
| at_root : at_depth root root 0
| at_child n c d : at_depth root n d -> c ∈ directChildren n -> at_depth root c (d + 1).

Context (size : node -> nat).
Hypothesis size_children : forall n, sum_list_with size (directChildren n) < size n.

Definition stack_size (stack : list (node * Z)) : nat := sum_list_with (fun x => size (fst x)) stack.

(** [m] is [e] levels below some [n] of the stack, counted from its depth. *)
Definition below (stack : list (node * Z)) (m : node) (e : Z) : Prop :=
  exists n d k, (n, d) ∈ stack /\ at_depth n m k /\ e = (d + k)%Z.

Lemma sum_list_with_pair (d : Z) (l : list node) :
  sum_list_with (fun x => size (fst x)) ((fun c => (c, d)) <$> l) = sum_list_with size l.
Proof. induction l as [|c l IH]; [done|]. cbn. by rewrite IH. Qed.

Lemma at_depth_child n c m k : c ∈ directChildren n -> at_depth c m k -> at_depth n m (k + 1).
Proof.
  intros Hc. induction 1 as [|a b d _ IH Hb].
  - eapply at_child; [apply at_root|done].
  - eapply at_child; [exact IH|done].
Qed.

Lemma at_depth_inv n m k : at_depth n m k ->
  (m = n /\ k = 0%Z) \/ exists c k', c ∈ directChildren n /\ at_depth c m k' /\ k = (k' + 1)%Z.
Proof.
  induction 1 as [|a c d _ IH Hc]; [auto|]. right. destruct IH as [[-> ->]|(b & k' & Hb & Hk & ->)].
  - exists c, 0%Z. split; [done|]. split; [apply at_root|lia].
  - exists b, (k' + 1)%Z. split; [done|]. split; [by econstructor|lia].
Qed.

Lemma below_cons n d stack m e :
  below ((n, d) :: stack) m e <->
  (m = n /\ e = d) \/
  below (reverse ((fun c => (c, (d + 1)%Z)) <$> directChildren n) ++ stack) m e.
Proof.
  split.
  - intros (n' & d' & k & [[= -> ->]|Hin]%elem_of_cons & Hk & ->).
    + destruct (at_depth_inv _ _ _ Hk) as [[-> ->]|(c & k' & Hc & Hk' & ->)]; [left; split; [done|lia]|].
      right. exists c, (d + 1)%Z, k'. split; [|split; [done|lia]].
      apply elem_of_app. left. apply elem_of_reverse, list_elem_of_fmap. eauto.
    + right. exists n', d', k. split; [apply elem_of_app; auto|done].
  - intros [[-> ->]|(n' & d' & k & [Hin|Hin]%elem_of_app & Hk & ->)].
    + exists n, d, 0%Z. (split; [left|split; [apply at_root|lia]]).
    + apply elem_of_reverse, list_elem_of_fmap in Hin as (c & [= -> ->] & Hc).
      exists n, d, (k + 1)%Z. split; [left|]. split; [by eapply at_depth_child|lia].
    + exists n', d', k. split; [by right|done].
Qed.

Lemma walkStack_ok fuel stack :
  stack_size stack < fuel ->
  (walkStack fuel stack = Some (Ret tt) /\ forall m e, below stack m e -> (e <= MaxNestingDepth)%Z) \/
  (walkStack fuel stack = Some TooDeep /\ exists m e, below stack m e /\ (MaxNestingDepth < e)%Z).
Proof.
  revert stack. induction fuel as [|fuel IH]; intros stack Hf; [lia|].
  destruct stack as [|[n d] stack]; cbn [walkStack].
  { left. split; [done|]. intros m e (n & d & k & Hin & _). by apply not_elem_of_nil in Hin. }
  destruct (Z.ltb_spec MaxNestingDepth d) as [Hd|Hd].
  { right. split; [done|]. exists n, d. split; [|done]. exists n, d, 0%Z. (split; [left|split; [apply at_root|lia]]). }
  set (kids := reverse ((fun c => (c, (d + 1)%Z)) <$> directChildren n)).
  assert (stack_size (kids ++ stack) < fuel) as Hs.
  { unfold stack_size in *. cbn in Hf. rewrite sum_list_with_app. subst kids.
    rewrite sum_list_with_reverse. pose proof (size_children n).
    rewrite (sum_list_with_pair (d + 1)). lia. }
  destruct (IH _ Hs) as [[-> Hle]|[-> (m & e & Hb & Hgt)]]; [left|right]; (split; [done|]).
  - intros m e [[-> ->]|Hb]%below_cons; [lia|]. by eapply Hle.
  - exists m, e. split; [|done]. apply below_cons. by right.
Qed.

(** The guard on the parsed tree is exact: given fuel for the nodes of the
    tree it returns, and it accepts the tree iff no node is more than
    [MaxNestingDepth] levels below the root. *)
Theorem checkNestingDepth_exact root fuel :
  size root < fuel ->
  (checkNestingDepth fuel (Some root) = Some (Ret tt) <->
     forall m e, at_depth root m e -> (e <= MaxNestingDepth)%Z) /\
  (checkNestingDepth fuel (Some root) = Some TooDeep <->
     exists m e, at_depth root m e /\ (MaxNestingDepth < e)%Z).
Proof.
  intros Hf. cbn [checkNestingDepth].
  assert (forall m e, below [(root, 0%Z)] m e <-> at_depth root m e) as Hb.
  { intros m e. split.
    - intros (n & d & k & [[= -> ->]|Hin]%elem_of_cons & Hk & ->); [by rewrite Z.add_0_l|].
      by apply not_elem_of_nil in Hin.
    - intros Hk. exists root, 0%Z, e. split; [left|split; [done|lia]]. }
  destruct (walkStack_ok fuel [(root, 0%Z)]) as [[-> H]|[-> (m & e & H & Hgt)]]; [cbn; lia|..];
    (split; split; [try done|try done|try done|try done]).
  - intros _ m e Hm. apply (H m e), Hb, Hm.
  - intros (m & e & Hm & Hgt). specialize (H m e (proj2 (Hb m e) Hm)). lia.
  - intros Hle. specialize (Hle m e (proj1 (Hb m e) H)). lia.
  - intros _. exists m, e. split; [by apply Hb|done].
Qed.
End AST.

(** A chain of nested nodes, the shape of a long pipeline. *)
Definition chain (n : nat) : list nat := match n with 0 => [] | S n => [n] end.

Lemma checkNestingDepth_exact_witness :
  checkNestingDepth chain 5 (Some 3) = Some (Ret tt) /\
  (forall m e, at_depth chain 3 m e -> (e <= MaxNestingDepth)%Z).
Proof.
  assert (forall n, sum_list_with S (chain n) < S n) as Hsz by (intros [|n]; cbn; lia).
  split; [reflexivity|]. apply (checkNestingDepth_exact chain S Hsz 3 5); [lia|reflexivity].
Defined.
End Nesting.
