(* ===== verification/Syscalls.v ===== *)
(** * Operating system calls as trees

    Code that touches the filesystem is a tree of calls: a node is a call with
    the continuation that receives its answer.  The answers are unconstrained,
    so a statement about every execution of a tree holds whatever the
    filesystem contains and however other processes change it between two
    calls of the same operation.

    The calls are those the sandbox issues: methods of an [os.Root] handle
    (a handle and a path relative to it), the descriptor calls of
    [golang.org/x/sys/unix] the write opener uses, methods of an open
    [os.File], the process identity and the cancellation state of the
    context. *)

From S2P Require Import Prelude GoStd.
From stdpp Require Import base list strings sets.
From Stdlib Require Import ZArith Lia Ascii.
Import GoStd.

Module Sys.

(** ** Errors *)

(** What [errors.Is] recognises an error as. *)
Inductive errKind :=
| KPermission | KNotExist | KExist | KNotRegularFile | KSymlinkWriteTarget
| KMultiplyLinked | KIsDirectory | KNotDirectory | KEISDIR | KELOOP | KENXIO | KInvalid
| KWriteOutcomeUnknown | KOther.

#[export] Instance errKind_eq_dec : EqDecision errKind.
Proof. solve_decision. Defined.

(** A leaf error: its kind and its text. *)
Record baseErr := mkErr { e_kind : errKind; e_msg : bytes }.

(** An [*os.PathError] or any other error. *)
Inductive error :=
| PathError (op path : bytes) (err : baseErr)
| PlainError (err : baseErr).

Abbreviation result A := (error + A)%type.

Definition leaf (e : error) : baseErr :=
  match e with PathError _ _ err => err | PlainError err => err end.

Definition isKind (k : errKind) (e : error) : bool := bool_decide (e_kind (leaf e) = k).

Definition ErrPermission := mkErr KPermission (lit "permission denied").
Definition EINVAL := mkErr KInvalid (lit "invalid argument").
Definition EISDIR := mkErr KEISDIR (lit "is a directory").
Definition errorsNew (msg : bytes) := mkErr KOther msg.

(** ** Files *)

(** The platform [Stat_t] of a [FileInfo]. *)
Record Stat_t := mkStat { st_uid : Z; st_gid : Z; st_nlink : Z }.

(** [fi_id] stands for the device and inode pair that [os.SameFile] compares. *)
Record fileInfo := mkInfo { fi_mode : Z; fi_size : Z; fi_id : Z; fi_sys : option Stat_t }.

Definition SameFile (a b : fileInfo) : bool := (fi_id a =? fi_id b)%Z.
Definition isSymlink (i : fileInfo) : bool := has (fi_mode i) ModeSymlink.
Definition isRegular (i : fileInfo) : bool := IsRegular (fi_mode i).

(** ** Open flags (Linux values) *)

Definition O_RDONLY : Z := 0.
Definition O_WRONLY : Z := 1.
Definition O_CREATE : Z := 64.
Definition O_TRUNC : Z := 512.
Definition O_APPEND : Z := 1024.
Definition O_NONBLOCK : Z := 2048.
Definition O_DIRECTORY : Z := 65536.
Definition O_NOFOLLOW : Z := 131072.
Definition O_CLOEXEC : Z := 524288.

(** ** Calls and their answers *)

Inductive sys :=
(* os.Root *)
| OpLstat (h : nat) (p : bytes)
| OpStat (h : nat) (p : bytes)
| OpReadlink (h : nat) (p : bytes)
| OpOpenFile (h : nat) (p : bytes) (flag perm : Z)
(* unix descriptors *)
| OpOpenat (dirfd : nat) (name : bytes) (flag perm : Z)
| OpFstatat (dirfd : nat) (name : bytes) (follow : bool)
| OpUnlinkat (dirfd : nat) (name : bytes)
(* os.File *)
| OpFStat (fd : nat)
| OpSetBlocking (fd : nat)
| OpTruncate (fd : nat) (size : Z)
| OpWrite (fd : nat) (data : bytes)
| OpReadDir (fd : nat) (n : Z)
| OpClose (fd : nat)
(* the process *)
| OpStatDevNull
| OpGetids
| OpCtxErr
(* goroutines: the slots of the write pool, and who wins against the context *)
| OpSlotAcquire
| OpSlotRelease
| OpRace
(* construction of the roots *)
| OpGetwd
| OpLstatPath (p : bytes)
| OpStatPath (p : bytes)
| OpEvalSymlinks (p : bytes)
| OpOpenRoot (p : bytes)
| OpCloseRoot (h : nat).

Definition ans (c : sys) : Type :=
  match c with
  | OpLstat _ _ | OpStat _ _ | OpFStat _ | OpStatDevNull | OpLstatPath _ | OpStatPath _ => result fileInfo
  | OpReadlink _ _ | OpGetwd | OpEvalSymlinks _ => result bytes
  | OpOpenFile _ _ _ _ | OpOpenat _ _ _ _ | OpOpenRoot _ => result nat
  | OpFstatat _ _ _ => result Z                           (* st_mode *)
  | OpUnlinkat _ _ | OpSetBlocking _ | OpTruncate _ _ | OpClose _ | OpCloseRoot _ => result unit
  | OpWrite _ _ => nat * option error
  | OpReadDir _ _ => list bytes * option (bool * error)   (* the bool marks io.EOF *)
  | OpGetids => Z * Z * option (list Z)
  | OpCtxErr | OpRace => option error
  | OpSlotAcquire => bool
  | OpSlotRelease => unit
  end.

Inductive prog (A : Type) :=
| Done (a : A)
| Do (c : sys) (k : ans c -> prog A).
Arguments Done {A} a.
Arguments Do {A} c k.

Fixpoint bind {A B} (p : prog A) (f : A -> prog B) : prog B :=
  match p with
  | Done a => f a
  | Do c k => Do c (fun r => bind (k r) f)
  end.

#[export] Instance prog_ret : MRet prog := fun _ a => Done a.
#[export] Instance prog_bind : MBind prog := fun _ _ f p => bind p f.

(** Runs a tree against a filesystem that answers each call by [env]. *)
Fixpoint run {A} (env : forall c, ans c) (p : prog A) : A :=
  match p with Done a => a | Do c k => run env (k (env c)) end.

(** ** Executions *)

(** A call together with the answer it got. *)
Definition event : Type := {c : sys & ans c}.
Definition ev (c : sys) (r : ans c) : event := existT c r.

(** [exec p t a]: [p] can return [a] after the calls and answers [t]. *)
Inductive exec {A} : prog A -> list event -> A -> Prop :=
| exec_done a : exec (Done a) [] a
| exec_do c k r t a : exec (k r) t a -> exec (Do c k) (ev c r :: t) a.

(** The execution a fixed environment produces. *)
Fixpoint trace_of {A} (env : forall c, ans c) (p : prog A) : list event :=
  match p with
  | Done _ => []
  | Do c k => ev c (env c) :: trace_of env (k (env c))
  end.

(** Every event of [t] satisfies [ok] given the events before it. *)
Fixpoint guarded (ok : list event -> event -> Prop) (h t : list event) : Prop :=
  match t with
  | [] => True
  | e :: t => ok h e /\ guarded ok (h ++ [e]) t
  end.

(** The calls that change the filesystem, or open a file for writing. *)
Definition writeFlags : Z := Z.lor O_WRONLY (Z.lor O_APPEND (Z.lor O_CREATE O_TRUNC)).

Definition mutating (c : sys) : bool :=
  match c with
  | OpOpenFile _ _ flag _ | OpOpenat _ _ flag _ => has flag writeFlags
  | OpUnlinkat _ _ | OpTruncate _ _ | OpWrite _ _ => true
  | _ => false
  end.

(** The descriptors an event opens and closes. *)
Definition opens (e : event) : list nat :=
  let 'existT c r := e in
  match c return ans c -> list nat with
  | OpOpenFile _ _ _ _ | OpOpenat _ _ _ _ => fun r => match r with inr fd => [fd] | inl _ => [] end
  | _ => fun _ => []
  end r.

Definition closes (e : event) : list nat :=
  match projT1 e with OpClose fd => [fd] | _ => [] end.

Definition opened (t : list event) : list nat := mjoin (opens <$> t).
Definition closed (t : list event) : list nat := mjoin (closes <$> t).

(** * Lemmas *)

Lemma exec_inv {A} (p : prog A) t a :
  exec p t a ->
  match p with
  | Done b => t = [] /\ a = b
  | Do c k => exists r t', t = ev c r :: t' /\ exec (k r) t' a
  end.
Proof. destruct 1; eauto. Qed.

Lemma exec_done_inv {A} (b : A) t a : exec (Done b) t a -> t = [] /\ a = b.
Proof. apply (exec_inv (Done b)). Qed.

Lemma exec_do_inv {A} c (k : ans c -> prog A) t a :
  exec (Do c k) t a -> exists r t', t = ev c r :: t' /\ exec (k r) t' a.
Proof. apply (exec_inv (Do c k)). Qed.

Lemma exec_bind_inv {A B} (p : prog A) (f : A -> prog B) t b :
  exec (bind p f) t b -> exists t1 a t2, t = t1 ++ t2 /\ exec p t1 a /\ exec (f a) t2 b.
Proof.
  revert t. induction p as [a|c k IH]; intros t; cbn; intros H.
  - exists [], a, t. auto using exec_done.
  - apply exec_do_inv in H as (r & t' & -> & H).
    destruct (IH _ _ H) as (t1 & a & t2 & -> & H1 & H2).
    exists (ev c r :: t1), a, t2. eauto using exec_do.
Qed.

Lemma exec_bind {A B} (p : prog A) (f : A -> prog B) t1 a t2 b :
  exec p t1 a -> exec (f a) t2 b -> exec (bind p f) (t1 ++ t2) b.
Proof. induction 1; cbn; eauto using exec_do. Qed.

(** Every environment gives an execution. *)
Lemma exec_run {A} env (p : prog A) : exec p (trace_of env p) (run env p).
Proof. induction p; cbn; eauto using exec_done, exec_do. Qed.

Lemma guarded_app ok h t1 t2 : guarded ok h (t1 ++ t2) <-> guarded ok h t1 /\ guarded ok (h ++ t1) t2.
Proof.
  revert h. induction t1 as [|e t1 IH]; intros h; cbn.
  - rewrite app_nil_r. tauto.
  - rewrite IH, <- app_assoc. cbn. tauto.
Qed.

(** A guard that only asks for something to have happened is kept by a longer past. *)
Lemma guarded_past ok h0 h t :
  (forall h e, ok h e -> ok (h0 ++ h) e) -> guarded ok h t -> guarded ok (h0 ++ h) t.
Proof.
  intros Hok. revert h. induction t as [|e t IH]; intros h; cbn; [done|].
  intros [He Ht]. rewrite <- app_assoc. auto.
Qed.

Lemma guarded_forall ok h t : (forall h e, e ∈ t -> ok h e) -> guarded ok h t.
Proof.
  revert h. induction t as [|e t IH]; intros h Hok; cbn; [done|].
  split; [apply Hok; left|]. apply IH. intros. apply Hok. by right.
Qed.

(** What a guarded execution says of an event in the middle of it. *)
Lemma guarded_at ok t1 e t2 : guarded ok [] (t1 ++ e :: t2) -> ok t1 e.
Proof. rewrite guarded_app. cbn. tauto. Qed.

Lemma opened_app t1 t2 : opened (t1 ++ t2) = opened t1 ++ opened t2.
Proof. unfold opened. by rewrite fmap_app, join_app. Qed.

Lemma closed_app t1 t2 : closed (t1 ++ t2) = closed t1 ++ closed t2.
Proof. unfold closed. by rewrite fmap_app, join_app. Qed.

Lemma opened_cons e t : opened (e :: t) = opens e ++ opened t.
Proof. done. Qed.

Lemma closed_cons e t : closed (e :: t) = closes e ++ closed t.
Proof. done. Qed.

End Sys.

(** [exec_step] takes one call, return or sequencing off an execution; a
    branch on a value is split.  [exec_steps] repeats it. *)
Ltac exec_step :=
  match goal with
  | H : Sys.exec (Sys.Done _) _ _ |- _ => first [apply Sys.exec_done_inv in H as [-> ->] | by apply Sys.exec_done_inv in H as [_ [=]]
            | apply Sys.exec_done_inv in H as [-> H]; simplify_eq]
  | H : Sys.exec (Sys.Do _ _) _ _ |- _ =>
      apply Sys.exec_do_inv in H as (? & ? & -> & H); cbv beta in H
  | H : Sys.exec (mbind _ _) _ _ |- _ =>
      apply Sys.exec_bind_inv in H as (? & ? & ? & -> & ? & H); cbv beta in H
  | H : Sys.exec (Sys.bind _ _) _ _ |- _ =>
      apply Sys.exec_bind_inv in H as (? & ? & ? & -> & ? & H); cbv beta in H
  | H : Sys.exec (match ?x with _ => _ end) _ _ |- _ => destruct x eqn:?
  end.

(** Splits on the condition an execution branches on. *)
Ltac exec_if H :=
  match type of H with Sys.exec (if ?b then _ else _) _ _ => destruct b eqn:? end.
