(* ===== verification/WriteOpen.v ===== *)
(** * No-follow writes: [allowedpaths/internal/writeopen]

    The Unix opener walks a root-relative path one component at a time with
    [openat(O_NOFOLLOW)], starting from the descriptor of the root directory,
    so that a directory swapped for a symlink while a write is in progress
    makes the open fail instead of redirecting it. *)

From S2P Require Import Prelude GoStd Filepath Syscalls.
From stdpp Require Import base list strings sets.
From Stdlib Require Import ZArith Lia Ascii.
Import GoStd Filepath Sys.

Module WriteOpen.

(** ** errors.go *)

Definition ErrSymlinkWriteTarget := mkErr KSymlinkWriteTarget (lit "symlinks are not supported as write targets").
Definition ErrNotRegularFile := mkErr KNotRegularFile (lit "not a regular file").
Definition ErrIsDirectory := mkErr KIsDirectory (lit "is a directory").
Definition ErrNotDirectory := mkErr KNotDirectory (lit "not a directory").

(** ** dirsyntax.go *)

Definition HasTrailingDirSyntax (relPath : bytes) : bool :=
  match last relPath with
  | None => false
  | Some c => (c =c "/") || (let base := Base relPath in (base =s ".") || (base =s ".."))
  end.

(** ** writeopen_unix.go *)

Definition writePathError (relPath : bytes) (e : error) : error :=
  PathError (lit "openat") relPath
    (if isKind KELOOP e then ErrSymlinkWriteTarget
     else if isKind KENXIO e then ErrNotRegularFile
     else leaf e).

(** [if closeDir { unix.Close(dirFD) }] *)
Definition closeDirIf {A} (closeDir : bool) (dirFD : nat) (k : prog A) : prog A :=
  if closeDir then Do (OpClose dirFD) (fun _ => k) else k.

Definition dirFlags : Z := Z.lor O_RDONLY (Z.lor O_DIRECTORY (Z.lor O_CLOEXEC O_NOFOLLOW)).

(** The loop over every component but the last, which both operations run:
    the descriptor of the parent directory and whether it has to be closed. *)
Fixpoint walkDirs (op relPath : bytes) (dirFD : nat) (closeDir : bool) (components : list bytes)
    : prog (result (nat * bool)) :=
  match components with
  | [] => Done (inr (dirFD, closeDir))
  | component :: rest =>
      if bytes_eqb component [] || (component =s ".") then walkDirs op relPath dirFD closeDir rest
      else if component =s ".." then
        closeDirIf closeDir dirFD (Done (inl (PathError op relPath ErrPermission)))
      else
        Do (OpOpenat dirFD component dirFlags 0) (fun next =>
          closeDirIf closeDir dirFD
            (match next with
             | inl e => Done (inl (writePathError relPath e))
             | inr nextFD => walkDirs op relPath nextFD true rest
             end))
  end.

Definition badBase (base : bytes) : bool := bytes_eqb base [] || (base =s ".") || (base =s "..").

(** [components[:len-1]] and [components[len-1]] of the cleaned path. *)
Definition dirsAndBase (clean : bytes) : list bytes * bytes :=
  let components := Split sep clean in
  (take (length components - 1) components, List.last components []).

Definition OpenFile (rootFile : option nat) (relPath : bytes) (flag perm : Z) : prog (result nat) :=
  let op := lit "openat" in
  match rootFile with
  | None => Done (inl (PathError op relPath ErrPermission))
  | Some rootFD =>
      let clean := Clean relPath in
      if clean =s "." then Done (inl (PathError op relPath EISDIR))
      else
        let '(dirs, base) := dirsAndBase clean in
        w ← walkDirs op relPath rootFD false dirs;
        match w with
        | inl e => Done (inl e)
        | inr (dirFD, closeDir) =>
            if badBase base then closeDirIf closeDir dirFD (Done (inl (PathError op relPath EISDIR)))
            else
              Do (OpOpenat dirFD base (Z.lor flag (Z.lor O_CLOEXEC O_NOFOLLOW)) (Perm perm)) (fun fd =>
                closeDirIf closeDir dirFD
                  (match fd with
                   | inl e => Done (inl (writePathError relPath e))
                   | inr fd => Done (inr fd)
                   end))
        end
  end.

Definition S_IFMT : Z := 61440.    (* 0170000 *)
Definition S_IFDIR : Z := 16384.   (* 0040000 *)

(** [None] is the nil error. *)
Definition Unlink (rootFile : option nat) (relPath : bytes) : prog (option error) :=
  let op := lit "unlinkat" in
  match rootFile with
  | None => Done (Some (PathError op relPath ErrPermission))
  | Some rootFD =>
      let requiresDir := HasTrailingDirSyntax relPath in
      let clean := Clean relPath in
      if clean =s "." then Done (Some (PathError op relPath ErrIsDirectory))
      else
        let '(dirs, base) := dirsAndBase clean in
        w ← walkDirs op relPath rootFD false dirs;
        match w with
        | inl e => Done (Some e)
        | inr (dirFD, closeDir) =>
            r ← (if badBase base then Done (Some (PathError op relPath ErrIsDirectory))
                 else
                   Do (OpFstatat dirFD base requiresDir) (fun st =>
                     match st with
                     | inl e => Done (Some (writePathError relPath e))
                     | inr mode =>
                         if (Z.land mode S_IFMT =? S_IFDIR)%Z
                         then Done (Some (PathError op relPath ErrIsDirectory))
                         else if requiresDir then Done (Some (PathError op relPath ErrNotDirectory))
                         else
                           Do (OpUnlinkat dirFD base) (fun u =>
                             Done (match u with
                                   | inl e => Some (writePathError relPath e)
                                   | inr _ => None
                                   end))
                     end));
            closeDirIf closeDir dirFD (Done r)
        end
  end.

End WriteOpen.
