(* ===== verification/Sandbox.v ===== *)
(** * The filesystem sandbox: [allowedpaths/sandbox.go], [check.go],
      [write_open.go], [portable.go], [portable_unix.go], [read_open_unix.go]

    Every operation of the sandbox is a tree of operating system calls (see
    [Syscalls]): resolution of the path against the configured roots, the mode
    checks, and the calls themselves. *)

From S2P Require Import Prelude GoStd Filepath PathPolicy Syscalls WriteOpen.
From stdpp Require Import base list strings sets sorting pretty.
From Stdlib Require Import ZArith Lia Ascii.
Import GoStd Filepath PathPolicy Sys WriteOpen.

Module Sandbox.

(** ** Errors: [portable.go], [write_open.go] *)

Definition ErrMultiplyLinkedWriteTarget :=
  mkErr KMultiplyLinked (lit "hard links are not supported as write targets").

Definition denied (op path : bytes) : error := PathError op path ErrPermission.

Definition isPathEscapeError (e : error) : bool :=
  match e with
  | PathError _ _ err => e_msg err =s "path escapes from parent"
  | PlainError _ => false
  end.

Definition PortableErrMsg (err : baseErr) : bytes :=
  match e_kind err with
  | KSymlinkWriteTarget => e_msg ErrSymlinkWriteTarget
  | KNotRegularFile => e_msg ErrNotRegularFile
  | KMultiplyLinked => e_msg ErrMultiplyLinkedWriteTarget
  | KNotExist => lit "no such file or directory"
  | KPermission => lit "permission denied"
  | KExist => lit "file exists"
  | KEISDIR => lit "is a directory"
  | _ => e_msg err
  end.

Definition rewrapPathError (op path : bytes) (e : error) : error := PathError op path (leaf e).

Definition PortablePathError (e : error) : error :=
  match e with
  | PathError op path err => PathError op path (errorsNew (PortableErrMsg err))
  | PlainError _ => e
  end.

(** ** Files, roots and the sandbox *)

Record root := mkRoot {
  r_absPath : bytes;
  r_canonicalAbsPath : bytes;
  r_mode : pathMode;
  r_handle : nat;                 (* root *os.Root *)
  r_writeRoot : option nat;       (* the descriptor no-follow writes start from *)
  r_identity : option fileInfo }.

#[export] Instance root_grant : Grant root := {| grant_path := r_absPath; grant_mode := r_mode |}.

Record Sandbox := mkSandbox { roots : list root; hostPrefix : bytes; readOnly : bool }.

(** A method may be called on a nil sandbox. *)
Definition roots_of (s : option Sandbox) : list root :=
  match s with Some s => roots s | None => [] end.

(** ** Root resolution *)

Definition resolve (s : option Sandbox) (absPath : bytes) : option (root * bytes) :=
  resolvePath r_absPath None absPath (roots_of s).

Definition resolveCanonical (s : option Sandbox) (absPath : bytes) : option (root * bytes) :=
  resolvePath r_canonicalAbsPath (Some preferReadOnly) absPath (roots_of s).

Definition isAncestorOfRoot (s : option Sandbox) (absPath : bytes) : bool :=
  existsb (fun r =>
    let rootPath := Clean (r_absPath r) in
    if bytes_eqb (Clean absPath) rootPath then false
    else match Rel (Clean absPath) rootPath with
         | None => false
         | Some rel => negb (escapes rel)
         end) (roots_of s).

Definition maxSymlinkHops : nat := 10.

Definition prefixOf (s : option Sandbox) : bytes := match s with Some s => hostPrefix s | None => [] end.

(** What the walk over the components of one [rel] found. *)
Inductive walkResult :=
| WNoSymlink                     (* no component is a symlink *)
| WStop                          (* a component is missing: return what we have *)
| WFail                          (* a link cannot be read *)
| WRedirect (absPath : bytes).   (* resolution continues at this path *)

(** The absolute path a symlink at component [i] redirects to. *)
Definition redirectTarget (s : option Sandbox) (absPath : bytes) (climb : nat) (target : bytes)
    (remaining : list bytes) : bytes :=
  let target := if IsAbs target then target else Join [Nat.iter climb Dir absPath; target] in
  let target := match remaining with [] => target | _ => Join [target; Join_sep sep remaining] end in
  let p := Clean target in
  if negb (bytes_eqb (prefixOf s) []) && negb (HasPrefix p (prefixOf s ++ [sep]))
  then Join [prefixOf s; p] else p.

Fixpoint walkComponents (s : option Sandbox) (ar : root) (absPath : bytes) (preserveLast : bool)
    (done todo : list bytes) : prog walkResult :=
  match todo with
  | [] => Done WNoSymlink
  | c :: rest =>
      if c =s "." then walkComponents s ar absPath preserveLast (done ++ [c]) rest
      else if preserveLast && bool_decide (rest = []) then Done WNoSymlink
      else
        let partial := Join_sep sep (done ++ [c]) in
        Do (OpLstat (r_handle ar) partial) (fun info =>
          match info with
          | inl _ => Done WStop
          | inr info =>
              if negb (isSymlink info) then walkComponents s ar absPath preserveLast (done ++ [c]) rest
              else Do (OpReadlink (r_handle ar) partial) (fun target =>
                match target with
                | inl _ => Done WFail
                | inr target =>
                    Done (WRedirect (redirectTarget s absPath (S (length rest)) target rest))
                end)
          end)
  end.

Fixpoint resolveHops (s : option Sandbox) (hops : nat) (preserveLast : bool) (absPath : bytes)
    : prog (option (root * bytes)) :=
  match hops with
  | 0 => Done None
  | S hops =>
      match resolve s absPath with
      | None => Done None
      | Some (ar, rel) =>
          w ← walkComponents s ar absPath preserveLast [] (Split sep rel);
          match w with
          | WNoSymlink | WStop => Done (Some (ar, rel))
          | WFail => Done None
          | WRedirect absPath => resolveHops s hops preserveLast absPath
          end
      end
  end.

Definition resolveRootFollowingSymlinks (s : option Sandbox) (absPath : bytes) (preserveLast : bool)
    : prog (option (root * bytes)) :=
  resolveHops s (maxSymlinkHops + 1) preserveLast (Clean absPath).

Definition resolveFollowingSymlinks (s : option Sandbox) (absPath : bytes) (preserveLast : bool)
    : prog (option (nat * bytes)) :=
  r ← resolveRootFollowingSymlinks s absPath preserveLast;
  Done (match r with Some (ar, rel) => Some (r_handle ar, rel) | None => None end).

Definition isWithinRoot (rootPath path : bytes) : bool :=
  match Rel (Clean rootPath) (Clean path) with
  | None => false
  | Some rel => negb (escapes rel)
  end.

(** ** Read-only roots compared by identity *)

Definition readOnlyIdentities (s : option Sandbox) : list fileInfo :=
  omap (fun r => if bool_decide (r_mode r = pathModeReadOnly) then r_identity r else None) (roots_of s).

Definition matchesReadOnly (ros : list fileInfo) (info : fileInfo) : bool :=
  existsb (fun ro => SameFile ro info) ros.

Fixpoint reachesWalk (ros : list fileInfo) (ar : root) (preserveLast : bool) (done todo : list bytes)
    : prog bool :=
  match todo with
  | [] => Done false
  | c :: rest =>
      if c =s "." then reachesWalk ros ar preserveLast (done ++ [c]) rest
      else
        let prefix := Join_sep sep (done ++ [c]) in
        let next (info : result fileInfo) :=
          match info with
          | inl _ => Done false
          | inr info =>
              if matchesReadOnly ros info then Done true
              else reachesWalk ros ar preserveLast (done ++ [c]) rest
          end in
        if preserveLast && bool_decide (rest = [])
        then Do (OpLstat (r_handle ar) prefix) next
        else Do (OpStat (r_handle ar) prefix) next
  end.

Definition reachesReadOnlyRoot (s : option Sandbox) (ar : root) (relPath : bytes) (preserveLast : bool)
    : prog bool :=
  let ros := readOnlyIdentities s in
  match ros with
  | [] => Done false
  | _ =>
      if match r_identity ar with Some i => matchesReadOnly ros i | None => false end then Done true
      else reachesWalk ros ar preserveLast [] (Split sep (Clean relPath))
  end.

(** ** Write targets *)

Definition isRW (r : root) : bool := bool_decide (r_mode r = pathModeReadWrite).

Definition resolveModeCheckedTarget (s : option Sandbox) (absPath : bytes) (preserveLast : bool)
    : prog (option (root * bytes)) :=
  match resolve s absPath with
  | None => Done None
  | Some (ar, relPath) =>
      if negb (isRW ar) then Done None
      else
        r ← resolveRootFollowingSymlinks s absPath preserveLast;
        match r with
        | None => Done None
        | Some (resolved, resolvedRel) =>
            let resolvedAbs := Join [r_absPath resolved; resolvedRel] in
            let resolvedCanonicalAbs := Join [r_canonicalAbsPath resolved; resolvedRel] in
            if negb (isWithinRoot (r_absPath ar) resolvedAbs) &&
               negb (isWithinRoot (r_canonicalAbsPath ar) resolvedCanonicalAbs)
            then Done None
            else if negb (isRW resolved) then Done None
            else if match resolveCanonical s resolvedCanonicalAbs with
                    | Some (canonicalRoot, _) => negb (isRW canonicalRoot)
                    | None => false
                    end
            then Done None
            else
              b1 ← reachesReadOnlyRoot s ar relPath preserveLast;
              if b1 : bool then Done None
              else
                b2 ← reachesReadOnlyRoot s resolved resolvedRel preserveLast;
                if b2 : bool then Done None else Done (Some (ar, relPath))
        end
  end.

Definition resolveWriteTarget (s : option Sandbox) (absPath : bytes) : prog (option (root * bytes)) :=
  resolveModeCheckedTarget s absPath false.

Definition resolveRemoveTarget (s : option Sandbox) (absPath : bytes) : prog (option (root * bytes)) :=
  resolveModeCheckedTarget s absPath true.

(** ** Access checks *)

Definition modeRead : Z := 4.
Definition modeWrite : Z := 2.
Definition modeExecute : Z := 1.

(** The permission class that applies to the process: a mask of mode bits. *)
Definition permClass (st : Stat_t) (uid gid : Z) (groups : option (list Z)) : Z :=
  if (st_uid st =? uid)%Z then 448                       (* 0700 *)
  else if (st_gid st =? gid)%Z then 56                   (* 0070 *)
  else match groups with
       | Some gs => if existsb (Z.eqb (st_gid st)) gs then 56 else 7
       | None => 7
       end.

Definition effectiveHasPerm (info : fileInfo) (ids : Z * Z * option (list Z))
    (checkRead checkWrite checkExec : bool) : bool :=
  let perm := Perm (fi_mode info) in
  let '(uid, gid, groups) := ids in
  let check ownerBits :=
    negb (checkRead && (Z.land (Z.land perm 292) ownerBits =? 0)%Z) &&    (* 0444 *)
    negb (checkWrite && (Z.land (Z.land perm 146) ownerBits =? 0)%Z) &&   (* 0222 *)
    negb (checkExec && (Z.land (Z.land perm 73) ownerBits =? 0)%Z) in     (* 0111 *)
  match fi_sys info with
  | Some st =>
      if (uid =? 0)%Z then negb (checkExec && (Z.land perm 73 =? 0)%Z)
      else check (permClass st uid gid groups)
  | None => check 7%Z
  end.

Definition hasPerm (info : fileInfo) (r w x : bool) : prog bool :=
  Do OpGetids (fun ids => Done (effectiveHasPerm info ids r w x)).

Definition accessVerdict (info : fileInfo) (r w x : bool) : prog (result fileInfo) :=
  ok ← hasPerm info r w x;
  Done (if ok : bool then inr info else inl (PlainError ErrPermission)).

Definition accessCheck (ar : root) (rel : bytes) (checkRead checkWrite checkExec : bool)
    : prog (result fileInfo) :=
  if negb checkRead then
    Do (OpStat (r_handle ar) rel) (fun r =>
      match r with
      | inl e => Done (inl e)
      | inr info => accessVerdict info false checkWrite checkExec
      end)
  else
    Do (OpOpenFile (r_handle ar) rel (Z.lor O_RDONLY O_NONBLOCK) 0) (fun r =>
      match r with
      | inl _ =>
          Do (OpStat (r_handle ar) rel) (fun r =>
            match r with
            | inl e => Done (inl e)
            | inr info =>
                if isRegular info then Done (inl (PlainError ErrPermission))
                else accessVerdict info checkRead checkWrite checkExec
            end)
      | inr fd =>
          Do (OpFStat fd) (fun st =>
          Do (OpClose fd) (fun cl =>
            match st, cl with
            | inl e, _ => Done (inl e)
            | inr _, inl e => Done (inl e)
            | inr info, inr _ =>
                if negb (isRegular info) then accessVerdict info checkRead checkWrite checkExec
                else if checkWrite || checkExec then accessVerdict info false checkWrite checkExec
                else Done (inr info)
            end))
      end).

Definition Access (s : option Sandbox) (path cwd : bytes) (mode : Z) : prog (result unit) :=
  let absPath := toAbs path cwd in
  let op := lit "access" in
  match resolve s absPath with
  | None => Done (inl (denied op path))
  | Some (ar, rel) =>
      let checkRead := has mode modeRead in
      let checkWrite := has mode modeWrite in
      let checkExec := has mode modeExecute in
      r ← accessCheck ar rel checkRead checkWrite checkExec;
      match r with
      | inr _ => Done (inr tt)
      | inl e =>
          if negb (isPathEscapeError e) then Done (inl (denied op path))
          else
            r ← resolveRootFollowingSymlinks s absPath false;
            match r with
            | None => Done (inl (denied op path))
            | Some (resolved, resolvedRel) =>
                r ← accessCheck resolved resolvedRel checkRead checkWrite checkExec;
                Done (match r with inr _ => inr tt | inl _ => inl (denied op path) end)
            end
      end
  end.

(** ** Opening files *)

Definition allowedOpenFlags : Z :=
  Z.lor O_RDONLY (Z.lor O_WRONLY (Z.lor O_APPEND (Z.lor O_CREATE O_TRUNC))).
Definition writeOpenFlags : Z := Z.lor O_WRONLY (Z.lor O_APPEND (Z.lor O_CREATE O_TRUNC)).

Definition openReadFile (h : nat) (path : bytes) (flag perm : Z) : prog (result nat) :=
  Do (OpOpenFile h path (Z.lor flag O_NONBLOCK) perm) (fun r =>
    match r with
    | inl e => Done (inl e)
    | inr fd =>
        Do (OpFStat fd) (fun st =>
          match st with
          | inl e => Do (OpClose fd) (fun _ => Done (inl e))
          | inr info =>
              if negb (has (fi_mode info) ModeNamedPipe) then
                Do (OpSetBlocking fd) (fun b =>
                  match b with
                  | inl e => Do (OpClose fd) (fun _ => Done (inl e))
                  | inr _ => Done (inr fd)
                  end)
              else Done (inr fd)
          end)
    end).

(** Walks the components of a cleaned relative path and rejects the first
    symlink; [None] is the nil error. *)
Fixpoint rejectWalk (ar : root) (relPath : bytes) (includeLast : bool) (partial : bytes)
    (todo : list bytes) : prog (option error) :=
  match todo with
  | [] => Done None
  | component :: rest =>
      if bytes_eqb component [] || (component =s ".") then rejectWalk ar relPath includeLast partial rest
      else
        let partial := if bytes_eqb partial [] then component else Join [partial; component] in
        if negb includeLast && bool_decide (rest = []) then Done None
        else
          Do (OpLstat (r_handle ar) partial) (fun info =>
            match info with
            | inl _ => Done None
            | inr info =>
                if isSymlink info then Done (Some (PathError (lit "open") relPath ErrSymlinkWriteTarget))
                else rejectWalk ar relPath includeLast partial rest
            end)
  end.

Definition rejectSymlinkPathComponents (ar : root) (relPath : bytes) (includeLast : bool)
    : prog (option error) :=
  rejectWalk ar relPath includeLast [] (Split sep (Clean relPath)).

Definition rejectSymlinkWriteTarget (ar : root) (relPath : bytes) := rejectSymlinkPathComponents ar relPath true.
Definition rejectSymlinkPathPrefix (ar : root) (relPath : bytes) := rejectSymlinkPathComponents ar relPath false.

Definition fileLinkCount (info : fileInfo) : option Z := st_nlink <$> fi_sys info.

Definition errLinkCountUnavailable := errorsNew (lit "cannot determine hard link count").

(** [inr regular] or the error, with [regular] the type of the descriptor. *)
Definition checkWriteTargetLinks (fd : nat) (relPath : bytes) : prog (result bool) :=
  Do (OpFStat fd) (fun st =>
    Done (match st with
          | inl e => inl e
          | inr info =>
              if negb (isRegular info) then inr false
              else match fileLinkCount info with
                   | None => inl (PathError (lit "open") relPath errLinkCountUnavailable)
                   | Some links =>
                       if (links <=? 1)%Z then inr true
                       else inl (PathError (lit "open") relPath ErrMultiplyLinkedWriteTarget)
                   end
          end)).

Definition openWriteFile (ar : root) (relPath : bytes) (flag perm : Z) : prog (result nat) :=
  rej ← rejectSymlinkWriteTarget ar relPath;
  match rej with
  | Some e => Done (inl e)
  | None =>
      let truncateAfterOpen := has flag O_TRUNC in
      r ← OpenFile (r_writeRoot ar) relPath (Z.land flag (Z.lnot O_TRUNC)) perm;
        match r with
        | inl e => Done (inl e)
        | inr fd =>
            links ← checkWriteTargetLinks fd relPath;
            match links with
            | inl e => Do (OpClose fd) (fun _ => Done (inl e))
            | inr regular =>
                if truncateAfterOpen && regular then
                  Do (OpTruncate fd 0) (fun t =>
                    match t with
                    | inl e => Do (OpClose fd) (fun _ => Done (inl e))
                    | inr _ => Done (inr fd)
                    end)
                else Done (inr fd)
            end
        end
  end.

Definition Open (s : option Sandbox) (path cwd : bytes) (flag perm : Z) : prog (result nat) :=
  let op := lit "open" in
  match s with
  | None => Done (inl (denied op path))
  | Some sb =>
      if readOnly sb && has flag writeOpenFlags then Done (inl (denied op path))
      else if negb (Z.land flag (Z.lnot allowedOpenFlags) =? 0)%Z then Done (inl (denied op path))
      else
        let absPath := toAbs path cwd in
        target ← (if negb (has flag writeOpenFlags) then Done (resolve s absPath)
                  else resolveWriteTarget s absPath);
        match target with
        | None => Done (inl (denied op path))
        | Some (ar, relPath) =>
            r ← (if has flag writeOpenFlags then openWriteFile ar relPath flag perm
                 else openReadFile (r_handle ar) relPath flag perm);
            match r with
            | inr fd => Done (inr fd)
            | inl e =>
                if isKind KMultiplyLinked e then Done (inl (PortablePathError (rewrapPathError op path e)))
                else if negb (isPathEscapeError e) then Done (inl (PortablePathError e))
                else if negb (flag =? O_RDONLY)%Z then Done (inl (PortablePathError e))
                else
                  rr ← resolveFollowingSymlinks s absPath false;
                  match rr with
                  | None => Done (inl (PortablePathError e))
                  | Some (h, rel) =>
                      r ← openReadFile h rel flag perm;
                      Done (match r with inl e => inl (PortablePathError e) | inr fd => inr fd end)
                  end
            end
        end
  end.

(** ** Truncation *)

(** [fstat] of a write descriptor, closing it on error or when it is not a
    regular file. *)
Definition statRegular (op path : bytes) (fd : nat) : prog (result fileInfo) :=
  Do (OpFStat fd) (fun st =>
    match st with
    | inl e => Do (OpClose fd) (fun _ => Done (inl e))
    | inr info =>
        if negb (isRegular info)
        then Do (OpClose fd) (fun _ => Done (inl (PathError op path ErrNotRegularFile)))
        else Done (inr info)
    end).

(** A failed write open: a non-regular target gets the caller-facing error. *)
Definition writeOpenError (op path : bytes) (e : error) : error :=
  if isKind KNotRegularFile e then PathError op path ErrNotRegularFile else e.

Definition Truncate (s : option Sandbox) (path cwd : bytes) (size : Z) (create : bool) : prog (result unit) :=
  let op := lit "truncate" in
  match s with
  | None => Done (inl (denied op path))
  | Some sb =>
      if readOnly sb then Done (inl (denied op path))
      else if (size <? 0)%Z then Done (inl (PathError op path EINVAL))
      else
        t ← resolveWriteTarget s (toAbs path cwd);
        match t with
        | None => Done (inl (denied op path))
        | Some (ar, relPath) =>
            let flag := Z.lor (Z.lor O_WRONLY O_NONBLOCK) (if create then O_CREATE else 0) in
            r ← openWriteFile ar relPath flag 438;
            match r with
            | inl e => Done (inl (writeOpenError op path e))
            | inr fd =>
                st ← statRegular op path fd;
                match st with
                | inl e => Done (inl e)
                | inr _ =>
                    Do (OpTruncate fd size) (fun t =>
                    Do (OpClose fd) (fun cl =>
                      Done (match t with inl e => inl e | inr _ => cl end)))
                end
            end
        end
  end.

Definition TruncateToZeroIfAtLeast (s : option Sandbox) (path cwd : bytes) (minSize : Z) (dryRun : bool)
    : prog (Z * bool * option error) :=
  let op := lit "truncate" in
  match s with
  | None => Done (0%Z, false, Some (denied op path))
  | Some sb =>
      if readOnly sb then Done (0%Z, false, Some (denied op path))
      else if (minSize <? 0)%Z then Done (0%Z, false, Some (PathError op path EINVAL))
      else
        t ← resolveWriteTarget s (toAbs path cwd);
        match t with
        | None => Done (0%Z, false, Some (denied op path))
        | Some (ar, relPath) =>
            r ← openWriteFile ar relPath (Z.lor O_WRONLY O_NONBLOCK) 0;
            match r with
            | inl e => Done (0%Z, false, Some (writeOpenError op path e))
            | inr fd =>
                st ← statRegular op path fd;
                match st with
                | inl e => Done (0%Z, false, Some e)
                | inr info =>
                    let sizeBefore := fi_size info in
                    if (sizeBefore <? minSize)%Z then Do (OpClose fd) (fun _ => Done (sizeBefore, false, None))
                    else if (sizeBefore =? 0)%Z then Do (OpClose fd) (fun _ => Done (0%Z, false, None))
                    else if dryRun then Do (OpClose fd) (fun _ => Done (sizeBefore, true, None))
                    else
                      Do (OpTruncate fd 0) (fun t =>
                      Do (OpClose fd) (fun cl =>
                        Done (match t with
                              | inl e => (sizeBefore, false, Some e)
                              | inr _ => (sizeBefore, true, match cl with inl e => Some e | inr _ => None end)
                              end)))
                end
            end
        end
  end.

(** ** Metadata *)

Definition Stat (s : option Sandbox) (path cwd : bytes) : prog (result fileInfo) :=
  let op := lit "stat" in
  if IsDevNull path then Do OpStatDevNull Done
  else
    let absPath := toAbs path cwd in
    match resolve s absPath with
    | None => Done (inl (denied op path))
    | Some (ar, relPath) =>
        Do (OpStat (r_handle ar) relPath) (fun r =>
          match r with
          | inr info => Done (inr info)
          | inl e =>
              if negb (isPathEscapeError e) then Done (inl (rewrapPathError op path e))
              else
                rr ← resolveFollowingSymlinks s absPath false;
                match rr with
                | None => Done (inl (rewrapPathError op path e))
                | Some (h, rel) =>
                    Do (OpStat h rel) (fun r =>
                      Done (match r with inl e => inl (rewrapPathError op path e) | inr i => inr i end))
                end
          end)
    end.

Definition Lstat (s : option Sandbox) (path cwd : bytes) : prog (result fileInfo) :=
  let op := lit "lstat" in
  if IsDevNull path then Do OpStatDevNull Done
  else
    let absPath := toAbs path cwd in
    match resolve s absPath with
    | None => Done (inl (denied op path))
    | Some (ar, relPath) =>
        Do (OpLstat (r_handle ar) relPath) (fun r =>
          match r with
          | inr info => Done (inr info)
          | inl e =>
              if negb (isPathEscapeError e) then Done (inl (rewrapPathError op path e))
              else
                rr ← resolveFollowingSymlinks s absPath true;
                match rr with
                | None => Done (inl (rewrapPathError op path e))
                | Some (h, rel) =>
                    Do (OpLstat h rel) (fun r =>
                      Done (match r with inl e => inl (rewrapPathError op path e) | inr i => inr i end))
                end
          end)
    end.

Definition Readlink (s : option Sandbox) (path cwd : bytes) : prog (result bytes) :=
  let absPath := toAbs path cwd in
  match resolve s absPath with
  | None => Done (inl (denied (lit "readlink") path))
  | Some (ar, relPath) =>
      Do (OpReadlink (r_handle ar) relPath) (fun r =>
        match r with
        | inr target => Done (inr target)
        | inl e =>
            if negb (isPathEscapeError e) then Done (inl (PortablePathError e))
            else
              rr ← resolveFollowingSymlinks s absPath true;
              match rr with
              | None => Done (inl (PortablePathError e))
              | Some (h, rel) =>
                  Do (OpReadlink h rel) (fun r =>
                    Done (match r with inl e => inl (PortablePathError e) | inr t => inr t end))
              end
        end)
  end.

(** ** Identity-verified reads *)

(** The checks [openRegular] makes on the descriptor it opened. *)
Definition verifyOpened (path : bytes) (expected : fileInfo) (fd : nat) : prog (result nat) :=
  Do (OpFStat fd) (fun st =>
    match st with
    | inl e => Do (OpClose fd) (fun _ => Done (inl (PortablePathError e)))
    | inr opened =>
        if negb (isRegular opened) then
          Do (OpClose fd) (fun _ => Done (inl (PathError (lit "open") path ErrNotRegularFile)))
        else if negb (SameFile expected opened) then
          Do (OpClose fd) (fun _ =>
            Done (inl (PathError (lit "open") path (errorsNew (lit "file identity changed while opening")))))
        else Done (inr fd)
    end).

Definition openRegular (s : option Sandbox) (path cwd : bytes) : prog (result nat) :=
  let op := lit "open" in
  match s with
  | None => Done (inl (denied op path))
  | Some _ =>
      st ← Stat s path cwd;
      match st with
      | inl e => Done (inl e)
      | inr expected =>
          if negb (isRegular expected) then Done (inl (PathError op path ErrNotRegularFile))
          else
            let absPath := toAbs path cwd in
            match resolve s absPath with
            | None => Done (inl (denied op path))
            | Some (ar, relPath) =>
                let flag := Z.lor O_RDONLY O_NONBLOCK in
                Do (OpOpenFile (r_handle ar) relPath flag 0) (fun r =>
                  match r with
                  | inr fd => verifyOpened path expected fd
                  | inl e =>
                      if negb (isPathEscapeError e) then Done (inl (PortablePathError e))
                      else
                        rr ← resolveFollowingSymlinks s absPath false;
                        match rr with
                        | None => Done (inl (PortablePathError e))
                        | Some (h, rel) =>
                            Do (OpOpenFile h rel flag 0) (fun r =>
                              match r with
                              | inl e => Done (inl (PortablePathError e))
                              | inr fd => verifyOpened path expected fd
                              end)
                        end
                  end)
            end
      end
  end.

(** ** Rewriting a file *)

Definition acquireWriteHandle (s : option Sandbox) (path cwd : bytes) (expectedIdentity : option fileInfo)
    : prog (result nat) :=
  let op := lit "write" in
  t ← resolveWriteTarget s (toAbs path cwd);
  match t with
  | None => Done (inl (denied op path))
  | Some (ar, relPath) =>
      r ← openWriteFile ar relPath (Z.lor O_WRONLY O_NONBLOCK) 0;
      match r with
      | inl e => Done (inl (writeOpenError op path e))
      | inr fd =>
          st ← statRegular op path fd;
          match st with
          | inl e => Done (inl e)
          | inr info =>
              if match expectedIdentity with Some x => negb (SameFile x info) | None => false end
              then Do (OpClose fd) (fun _ =>
                     Done (inl (PathError op path (errorsNew (lit "file identity changed since it was read")))))
              else Done (inr fd)
          end
      end
  end.

Definition writeRegularFileChunkBytes : nat := Z.to_nat 32768.

(** The loop of [writeChunkedCancellable]: [chunks] are the successive slices
    [data[:n]]. *)
Fixpoint writeChunks (fd : nat) (wroteAny : bool) (chunks : list bytes) : prog (bool * option error) :=
  match chunks with
  | [] => Done (wroteAny, None)
  | chunk :: rest =>
      Do OpCtxErr (fun ctx =>
        match ctx with
        | Some e => Done (wroteAny, Some e)
        | None =>
            Do (OpWrite fd chunk) (fun w =>
              let '(written, werr) := w in
              let wroteAny := wroteAny || (0 <? written) in
              match werr with
              | Some e => Done (wroteAny, Some e)
              | None => writeChunks fd wroteAny rest
              end)
        end)
  end.

(** The slices of [data] the loop takes: [n] bytes each but the last. *)
Fixpoint chunksOf (fuel n : nat) (data : bytes) : list bytes :=
  match fuel, data with
  | S fuel, _ :: _ => take n data :: chunksOf fuel n (drop n data)
  | _, _ => []
  end.

Definition writeChunkedCancellable (fd : nat) (data : bytes) : prog (bool * option error) :=
  writeChunks fd false (chunksOf (length data) writeRegularFileChunkBytes data).

Definition writeAndTruncateSync (fd : nat) (data : bytes) : prog (bool * option error) :=
  w ← writeChunkedCancellable fd data;
  let '(wroteAnyChunk, writeErr) := w in
  writeErr ← match writeErr with Some e => Done (Some e) | None => Do OpCtxErr Done end;
  match writeErr with
  | Some e => Do (OpClose fd) (fun _ => Done (wroteAnyChunk, Some e))
  | None =>
      Do (OpTruncate fd (Z.of_nat (length data))) (fun t =>
      Do (OpClose fd) (fun cl =>
        Done (match t with
              | inl e => (wroteAnyChunk, Some e)
              | inr _ => (true, match cl with inl e => Some e | inr _ => None end)
              end)))
  end.

(** ** Bounding a rewrite by the context

    The acquisition and the write each run in a goroutine of their own, raced
    against the end of the context.  A goroutine that loses the race keeps
    running; its calls are part of the execution too, and the caller makes none
    after it gave up, so the order of the calls is that of the goroutine.
    [OpRace] answers the error of the context if that ended first. *)

Definition errTooManyInFlight := PlainError (errorsNew
  (lit "too many in-flight write acquisitions (a target may be stuck on an unresponsive filesystem); try again later")).

Definition raceAcquisitionAgainstContext (acquire : prog (result nat)) : prog (result nat) :=
  Do OpSlotAcquire (fun slot =>
    if negb slot then Done (inl errTooManyInFlight)
    else
      r ← acquire;
      Do OpRace (fun lost =>
        match lost with
        | None => Do OpSlotRelease (fun _ => Done r)
        | Some ctxErr =>
            match r with
            | inr fd => Do (OpClose fd) (fun _ => Do OpSlotRelease (fun _ => Done (inl ctxErr)))
            | inl _ => Do OpSlotRelease (fun _ => Done (inl ctxErr))
            end
        end)).

Definition acquireWriteHandleBounded (s : option Sandbox) (path cwd : bytes)
    (expectedIdentity : option fileInfo) : prog (result nat) :=
  raceAcquisitionAgainstContext (acquireWriteHandle s path cwd expectedIdentity).

Definition writeOutcomeUnknownError (ctxErr : error) : error :=
  PlainError (mkErr KWriteOutcomeUnknown
    (lit "write outcome unknown: a background write may still be in progress: " ++ e_msg (leaf ctxErr))).

Definition IsWriteOutcomeUnknown (e : error) : bool := isKind KWriteOutcomeUnknown e.

Definition writeAndTruncateBounded (fd : nat) (data : bytes) : prog (bool * option error) :=
  Do OpSlotAcquire (fun slot =>
    if negb slot then Do (OpClose fd) (fun _ => Done (false, Some errTooManyInFlight))
    else
      r ← writeAndTruncateSync fd data;
      Do OpSlotRelease (fun _ =>
      Do OpRace (fun lost =>
        Done (match lost with
              | None => r
              | Some ctxErr => (true, Some (writeOutcomeUnknownError ctxErr))
              end)))).

Definition WriteRegularFile (s : option Sandbox) (path cwd data : bytes) (expectedIdentity : option fileInfo)
    : prog (bool * option error) :=
  let op := lit "write" in
  match s with
  | None => Done (false, Some (denied op path))
  | Some sb =>
      if readOnly sb then Done (false, Some (denied op path))
      else
        Do OpCtxErr (fun ctx =>
          match ctx with
          | Some e => Done (false, Some e)
          | None =>
              r ← acquireWriteHandleBounded s path cwd expectedIdentity;
              match r with
              | inl e => Done (false, Some e)
              | inr fd => writeAndTruncateBounded fd data
              end
          end)
  end.

(** ** Removal *)

Definition removeFile (ar : root) (relPath : bytes) : prog (option error) :=
  rej ← rejectSymlinkPathPrefix ar relPath;
  match rej with
  | Some e => Done (Some e)
  | None => Unlink (r_writeRoot ar) relPath
  end.

Definition removeError (path : bytes) (e : error) : error :=
  if isKind KIsDirectory e then PathError (lit "remove") path (errorsNew (lit "is a directory"))
  else if isKind KNotDirectory e then PathError (lit "remove") path (errorsNew (lit "not a directory"))
  else e.

Definition Remove (s : option Sandbox) (path cwd : bytes) : prog (option error) :=
  let op := lit "remove" in
  match s with
  | None => Done (Some (denied op path))
  | Some sb =>
      if readOnly sb then Done (Some (denied op path))
      else
        let requiresDir := HasTrailingDirSyntax path in
        let absPath := toAbs path cwd in
        t ← resolveRemoveTarget s absPath;
        match t with
        | None => Done (Some (denied op path))
        | Some (ar, relPath) =>
            reached ← (if requiresDir then resolveRootFollowingSymlinks s absPath false else Done t);
            if bool_decide (reached = None) then Done (Some (denied op path))
            else
              let relPath := if requiresDir && negb (HasTrailingDirSyntax relPath)
                             then relPath ++ [sep] else relPath in
              e ← removeFile ar relPath;
              Done (match e with Some e => Some (removeError path e) | None => None end)
        end
  end.

(** ** Directories *)

Definition openWithSymlinkFallback (s : option Sandbox) (h : nat) (relPath absPath : bytes)
    : prog (result nat) :=
  Do (OpOpenFile h relPath O_RDONLY 0) (fun r =>
    match r with
    | inr fd => Done (inr fd)
    | inl e =>
        if isPathEscapeError e then
          rr ← resolveFollowingSymlinks s absPath false;
          match rr with
          | Some (h, rel) => Do (OpOpenFile h rel O_RDONLY 0) Done
          | None => Done (inl e)
          end
        else Done (inl e)
    end).

(** [strings.Compare(a, b) <= 0] *)
Definition bytes_le (a b : bytes) : Prop := bytes_ltb b a = false.
#[export] Instance bytes_le_dec : RelDecision bytes_le.
Proof. intros a b. unfold bytes_le. apply _. Defined.

Definition sortEntries (entries : list bytes) : list bytes := merge_sort bytes_le entries.

Definition MaxGlobEntries : Z := 10000.

(** The error a [ReadDir] call reports, unless it is [io.EOF]. *)
Definition nonEOF (err : option (bool * error)) : option error :=
  match err with Some (false, e) => Some e | _ => None end.

Definition readDirN (s : option Sandbox) (path cwd : bytes) (maxEntries : Z) : prog (result (list bytes)) :=
  let absPath := toAbs path cwd in
  match resolve s absPath with
  | None =>
      if (0 <? maxEntries)%Z && isAncestorOfRoot s absPath then Done (inr [])
      else Done (inl (denied (lit "readdir") path))
  | Some (ar, relPath) =>
      r ← openWithSymlinkFallback s (r_handle ar) relPath absPath;
      match r with
      | inl e => Done (inl (PortablePathError e))
      | inr fd =>
          Do (OpReadDir fd (if (maxEntries <=? 0)%Z then -1 else maxEntries + 1)%Z) (fun d =>
          Do (OpClose fd) (fun _ =>
            let '(entries, err) := d in
            Done (match nonEOF err with
                  | Some e => inl (PortablePathError e)
                  | None =>
                      if (0 <? maxEntries)%Z && (maxEntries <? Z.of_nat (length entries))%Z
                      then inl (PathError (lit "readdir") path
                                  (errorsNew (lit "directory has too many entries (cap: " ++ lit (pretty maxEntries) ++ lit ")")))
                      else inr (sortEntries entries)
                  end)))
      end
  end.

Definition ReadDir (s : option Sandbox) (path cwd : bytes) := readDirN s path cwd (-1).
Definition ReadDirForGlob (s : option Sandbox) (path cwd : bytes) := readDirN s path cwd MaxGlobEntries.

Definition OpenDir (s : option Sandbox) (path cwd : bytes) : prog (result nat) :=
  let absPath := toAbs path cwd in
  match resolve s absPath with
  | None => Done (inl (denied (lit "opendir") path))
  | Some (ar, relPath) =>
      r ← openWithSymlinkFallback s (r_handle ar) relPath absPath;
      Done (match r with inl e => inl (PortablePathError e) | inr fd => inr fd end)
  end.

Definition IsDirEmpty (s : option Sandbox) (path cwd : bytes) : prog (result bool) :=
  let absPath := toAbs path cwd in
  match resolve s absPath with
  | None => Done (inl (denied (lit "readdir") path))
  | Some (ar, relPath) =>
      r ← openWithSymlinkFallback s (r_handle ar) relPath absPath;
      match r with
      | inl e => Done (inl (PortablePathError e))
      | inr fd =>
          Do (OpReadDir fd 1) (fun d =>
          Do (OpClose fd) (fun _ =>
            let '(entries, err) := d in
            Done (match nonEOF err with
                  | Some e => inl (PortablePathError e)
                  | None => inr (bool_decide (entries = []))
                  end)))
      end
  end.

(** One batch of [CollectDirEntries]: skip while [skipped < offset]. *)
Fixpoint collectBatch (offset skipped : nat) (entries batch : list bytes) : nat * list bytes :=
  match batch with
  | [] => (skipped, entries)
  | e :: batch =>
      if skipped <? offset then collectBatch offset (S skipped) entries batch
      else collectBatch offset skipped (entries ++ [e]) batch
  end.

(** The reading loop: the entries, whether they overshot, and the last error
    that is not [io.EOF]; [None] when the fuel runs out. *)
Fixpoint collectLoop (fuel fd : nat) (batchSize : Z) (offset maxRead skipped : nat) (entries : list bytes)
    : prog (option (list bytes * bool * option error)) :=
  match fuel with
  | 0 => Done None
  | S fuel =>
      Do (OpReadDir fd batchSize) (fun d =>
        let '(batch, err) := d in
        let '(skipped, entries) := collectBatch offset skipped entries batch in
        if maxRead <? length entries then Done (Some (entries, true, nonEOF err))
        else match err with
             | Some _ => Done (Some (entries, false, nonEOF err))
             | None => collectLoop fuel fd batchSize offset maxRead skipped entries
             end)
  end.

Definition CollectDirEntries (fd : nat) (batchSize : Z) (offset maxRead : nat)
    : prog (option (list bytes * bool * option error)) :=
  r ← collectLoop (offset + maxRead + 2) fd batchSize offset maxRead 0 [];
  Done (match r with
        | None => None
        | Some (entries, truncated, lastErr) =>
            let entries := sortEntries entries in
            Some (if truncated && (maxRead <? length entries) then take maxRead entries else entries,
                  truncated, lastErr)
        end).

Definition ReadDirLimited (s : option Sandbox) (path cwd : bytes) (offset maxRead : Z)
    : prog (option (list bytes * bool * option error)) :=
  let absPath := toAbs path cwd in
  match resolve s absPath with
  | None => Done (Some ([], false, Some (denied (lit "readdir") path)))
  | Some (ar, relPath) =>
      r ← openWithSymlinkFallback s (r_handle ar) relPath absPath;
      match r with
      | inl e => Done (Some ([], false, Some (PortablePathError e)))
      | inr fd =>
          let offset := if (offset <? 0)%Z then 0%Z else offset in
          if (maxRead <=? 0)%Z then Do (OpClose fd) (fun _ => Done (Some ([], false, None)))
          else
            c ← CollectDirEntries fd 256 (Z.to_nat offset) (Z.to_nat maxRead);
            Do (OpClose fd) (fun _ =>
              Done (match c with
                    | Some (entries, truncated, Some e) => Some (entries, truncated, Some (PortablePathError e))
                    | c => c
                    end))
      end
  end.

(** ** Checking a path without touching it: [check.go]

    The text of the unknown-operation error leaves out the quoting of [%q]. *)

Definition CheckPath (s : option Sandbox) (path cwd operation : bytes) : prog (option error) :=
  let isOp op := bytes_eqb operation op in
  if (isOp PathStat || isOp PathLstat) && IsDevNull path then Done None
  else
    let abs := toAbs path cwd in
    match s with
    | None => Done (Some (denied operation path))
    | Some sb =>
        if isOp PathRead || isOp PathStat || isOp PathLstat then
          match resolve s abs with
          | None => Done (Some (denied operation path))
          | Some (ar, rel) =>
              let next (r : result fileInfo) :=
                match r with
                | inl e =>
                    if isPathEscapeError e then
                      rr ← resolveRootFollowingSymlinks s abs (isOp PathLstat);
                      Done (if bool_decide (rr = None) then Some (denied operation path) else None)
                    else Done None
                | inr _ => Done None
                end in
              if isOp PathLstat then Do (OpLstat (r_handle ar) rel) next
              else Do (OpStat (r_handle ar) rel) next
          end
        else if negb (isOp PathWrite) && negb (isOp PathRemove)
        then Done (Some (PlainError (errorsNew (lit "unknown path operation " ++ operation))))
        else if readOnly sb then Done (Some (denied operation path))
        else
          t ← (if isOp PathRemove then resolveRemoveTarget s abs else resolveWriteTarget s abs);
          match t with
          | None => Done (Some (denied operation path))
          | Some (ar, rel) =>
              rej ← rejectSymlinkPathComponents ar rel (isOp PathWrite);
              match rej with
              | Some e => Done (Some (rewrapPathError operation path e))
              | None =>
                  Do (OpLstat (r_handle ar) rel) (fun r =>
                    Done (match r with
                          | inl _ => None
                          | inr info =>
                              if isOp PathRemove then
                                if IsDir (fi_mode info)
                                then Some (PlainError (errorsNew
                                       (lit "remove " ++ path ++ lit ": directories are not supported")))
                                else None
                              else if negb (isRegular info)
                              then Some (PlainError (errorsNew (lit "write " ++ path ++ lit ": not a regular file")))
                              else match fileLinkCount info with
                                   | Some links =>
                                       if (1 <? links)%Z
                                       then Some (PathError (lit "write") path ErrMultiplyLinkedWriteTarget)
                                       else None
                                   | None => None
                                   end
                          end))
              end
          end
    end.

(** ** Construction and configuration *)

Inductive warning :=
| WSkip (path : bytes) (e : error)
| WLiteralSuffix (raw suffix stripped : bytes).

Definition warnLiteralSuffixPath (raw stripped : bytes) : prog (list warning) :=
  Do (OpLstatPath raw) (fun r =>
    Done (match r with
          | inl _ => []
          | inr _ => [WLiteralSuffix raw (drop (length stripped) raw) stripped]
          end)).

(** [filepath.Abs] *)
Definition Abs (p : bytes) : prog (result bytes) :=
  if IsAbs p then Done (inr (Clean p))
  else Do OpGetwd (fun r => Done (match r with inl e => inl e | inr wd => inr (Join [wd; p]) end)).

(** [FileIdentity] of [portable_unix.go]: known when the platform stat is. *)
Definition FileIdentity (info : fileInfo) : option Z :=
  match fi_sys info with Some _ => Some (fi_id info) | None => None end.

Definition sameOpenedRootAndPath (h : nat) (path : bytes) : prog (result bool) :=
  Do (OpStat h (lit ".")) (fun ri =>
    match ri with
    | inl e => Done (inl e)
    | inr rootInfo =>
        Do (OpStatPath path) (fun pi =>
          Done (match pi with
                | inl e => inl e
                | inr pathInfo =>
                    inr (match FileIdentity rootInfo, FileIdentity pathInfo with
                         | Some a, Some b => (a =? b)%Z
                         | _, _ => false
                         end)
                end))
    end).

Definition canonicalForOpenedRoot (abs : bytes) (h : nat) : prog (result bytes) :=
  Do (OpEvalSymlinks abs) (fun r =>
    let canonical := match r with inl _ => abs | inr c => c end in
    same ← sameOpenedRootAndPath h canonical;
    Done (match same with
          | inl e => inl e
          | inr false => inl (PlainError (errorsNew (lit "path changed while opening root")))
          | inr true => inr canonical
          end)).

(** One iteration of the loop of [New]: the warnings and the root, if any. *)
Definition newRoot (p : bytes) (mode : pathMode) : prog (list warning * option root) :=
  abs ← Abs p;
  match abs with
  | inl e => Done ([WSkip p e], None)
  | inr abs =>
      Do (OpOpenRoot abs) (fun r =>
        match r with
        | inl e => Done ([WSkip abs e], None)
        | inr h =>
            let abandon e := Do (OpCloseRoot h) (fun _ => Done ([WSkip abs e], None)) in
            canonical ← canonicalForOpenedRoot abs h;
            match canonical with
            | inl e => abandon e
            | inr canonical =>
                Do (OpStat h (lit ".")) (fun ident =>
                  match ident with
                  | inl e => abandon e
                  | inr ident =>
                      let mk w := mkRoot abs canonical mode h w (Some ident) in
                      if bool_decide (mode = pathModeReadWrite) then
                        Do (OpOpenFile h (lit ".") O_RDONLY 0) (fun w =>
                          match w with
                          | inl e => abandon e
                          | inr fd => Done ([], Some (mk (Some fd)))
                          end)
                      else Done ([], Some (mk None))
                  end)
            end
        end)
  end.

Fixpoint newRoots (paths : list bytes) : prog (list warning * list root) :=
  match paths with
  | [] => Done ([], [])
  | raw :: paths =>
      let '(p, mode, suffix) := splitAllowedPathMode raw in
      w1 ← (if suffix : bool then warnLiteralSuffixPath raw p else Done []);
      wr ← newRoot p mode;
      rest ← newRoots paths;
      Done (w1 ++ fst wr ++ fst rest, match snd wr with Some r => r :: snd rest | None => snd rest end)
  end.

Definition New (paths : list bytes) : prog (Sandbox * list warning) :=
  r ← newRoots paths;
  Done (mkSandbox (snd r) [] true, fst r).

Definition SetHostPrefix (prefix : bytes) (s : Sandbox) : Sandbox :=
  mkSandbox (roots s) (Clean prefix) (readOnly s).

Definition SetWritable (s : Sandbox) : Sandbox := mkSandbox (roots s) (hostPrefix s) false.

Fixpoint canonicalizeFrom (rs : list root) (absPath : bytes) : bytes :=
  match rs with
  | [] => absPath
  | r :: rs =>
      if bytes_eqb (r_canonicalAbsPath r) [] || bytes_eqb (r_canonicalAbsPath r) (r_absPath r)
      then canonicalizeFrom rs absPath
      else match Rel (r_absPath r) absPath with
           | None => canonicalizeFrom rs absPath
           | Some rel =>
               if escapes rel then canonicalizeFrom rs absPath
               else if rel =s "." then r_canonicalAbsPath r
               else Join [r_canonicalAbsPath r; rel]
           end
  end.

Definition CanonicalizeRootPrefix (s : option Sandbox) (absPath : bytes) : bytes :=
  canonicalizeFrom (roots_of s) absPath.

Definition Paths (s : option Sandbox) : list bytes := map r_absPath (roots_of s).

Definition PathAccesses (s : option Sandbox) : list (bytes * bool) :=
  map (fun r => (r_absPath r, isRW r)) (roots_of s).

End Sandbox.
