(* ===== verification/SandboxSafety.v ===== *)
(** * What the sandbox guarantees

    Theorems about every execution of every operation of [Sandbox], for
    arbitrary answers of the operating system: where reads and writes may go,
    what has been checked before a file changes, and that no descriptor is
    lost. *)

From S2P Require Import Prelude GoStd Filepath PathPolicy Syscalls WriteOpen Sandbox.
From stdpp Require Import base list strings sets sorting.
From Stdlib Require Import ZArith Lia Ascii.
Import GoStd Filepath PathPolicy Sys WriteOpen Sandbox.

Module SandboxSafety.

(** ** The operations as one interface

    [serve] runs a request and returns the descriptors the caller receives. *)

Inductive request :=
| RAccess (mode : Z)
| ROpen (flag perm : Z)
| ROpenRegular
| RTruncate (size : Z) (create : bool)
| RTruncateToZeroIfAtLeast (minSize : Z) (dryRun : bool)
| RWriteRegularFile (data : bytes) (expectedIdentity : option fileInfo)
| RRemove
| RReadDir
| RReadDirForGlob
| ROpenDir
| RIsDirEmpty
| RReadDirLimited (offset maxRead : Z)
| RStat
| RLstat
| RReadlink
| RCheckPath (operation : bytes).

Definition handed (r : result nat) : list nat := match r with inr fd => [fd] | inl _ => [] end.

Definition nothing {A} (p : prog A) : prog (list nat) := _ ← p; Done [].

Definition serve (s : option Sandbox) (path cwd : bytes) (q : request) : prog (list nat) :=
  match q with
  | RAccess mode => nothing (Access s path cwd mode)
  | ROpen flag perm => r ← Open s path cwd flag perm; Done (handed r)
  | ROpenRegular => r ← openRegular s path cwd; Done (handed r)
  | RTruncate size create => nothing (Truncate s path cwd size create)
  | RTruncateToZeroIfAtLeast minSize dryRun => nothing (TruncateToZeroIfAtLeast s path cwd minSize dryRun)
  | RWriteRegularFile data expected => nothing (WriteRegularFile s path cwd data expected)
  | RRemove => nothing (Remove s path cwd)
  | RReadDir => nothing (ReadDir s path cwd)
  | RReadDirForGlob => nothing (ReadDirForGlob s path cwd)
  | ROpenDir => r ← OpenDir s path cwd; Done (handed r)
  | RIsDirEmpty => nothing (IsDirEmpty s path cwd)
  | RReadDirLimited offset maxRead => nothing (ReadDirLimited s path cwd offset maxRead)
  | RStat => nothing (Stat s path cwd)
  | RLstat => nothing (Lstat s path cwd)
  | RReadlink => nothing (Readlink s path cwd)
  | RCheckPath operation => nothing (CheckPath s path cwd operation)
  end.

(** ** The roots *)

(** What [New] establishes of a root: a clean absolute path, and a descriptor
    for writes exactly when the grant is read-write. *)
Definition root_wf (r : root) : Prop :=
  IsAbs (r_absPath r) = true /\ Clean (r_absPath r) = r_absPath r /\
  (is_Some (r_writeRoot r) <-> r_mode r = pathModeReadWrite).

Definition sandbox_wf (s : option Sandbox) : Prop := Forall root_wf (roots_of s).

(** A path below a directory: a dot, or components none of which is empty, a
    dot or a dot-dot. *)
Definition local_path (p : bytes) : Prop := exists t, p = inner_rel t /\ Forall valid_comp t.

(** The handle is that of a configured root, and the path stays below it. *)
Definition in_root (s : option Sandbox) (h : nat) (p : bytes) : Prop :=
  exists r, r ∈ roots_of s /\ r_handle r = h /\ local_path p.

(** ** Calls that only look *)

Definition looks (s : option Sandbox) (c : sys) : Prop :=
  match c with
  | OpLstat h p | OpStat h p | OpReadlink h p => in_root s h p
  | _ => False
  end.

Definition looking (s : option Sandbox) (t : list event) : Prop := Forall (fun e => looks s (projT1 e)) t.

Lemma looking_app s t1 t2 : looking s (t1 ++ t2) <-> looking s t1 /\ looking s t2.
Proof. apply Forall_app. Qed.

(** * Resolution *)

Lemma IsAbs_Clean_rel p : IsAbs p = false -> IsAbs (Clean p) = false.
Proof.
  intros Hp. unfold Clean. rewrite Hp. unfold render.
  assert (Forall (fun c => c <> [] /\ sep ∉ c) (comps p)) as Hc.
  { unfold comps, clean_comps. rewrite Hp. apply Forall_rev.
    assert (forall cs acc, Forall (fun c => sep ∉ c) cs -> Forall (fun c => c <> [] /\ sep ∉ c) acc ->
      Forall (fun c => c <> [] /\ sep ∉ c) (fold_left (clean_step false) cs acc)) as H.
    { intros cs acc Hcs. revert acc. induction Hcs as [|c cs Hc Hcs IH]; intros acc Hacc; [done|].
      cbn. apply IH. unfold clean_step.
      destruct (bytes_eqb_spec c []), (bytes_eqb_spec c (lit ".")); cbn; try done.
      repeat case_match; try (by inversion Hacc); by constructor. }
    apply H; [apply Split_no_sep|done]. }
  destruct (comps p) as [|c cs]; [reflexivity|]. inversion Hc as [|? ? [Hne Hs] ?]; subst.
  destruct (Join_sep_cons c cs) as (s & -> & _). destruct c as [|x c]; [done|].
  apply not_elem_of_cons in Hs as [Hx _]. cbn. by rewrite (proj2 (Ascii.eqb_neq x sep)) by congruence.
Qed.

Lemma Rel_abs base targ rel : IsAbs base = true -> Rel base targ = Some rel -> IsAbs targ = true.
Proof.
  intros Hb. unfold Rel. destruct (bytes_eqb_spec (Clean targ) (Clean base)) as [E|E].
  - intros _. destruct (IsAbs targ) eqn:Ht; [done|].
    apply IsAbs_Clean_rel in Ht. rewrite E, (IsAbs_Clean base) in Ht by done. done.
  - rewrite Hb. by destruct (IsAbs targ).
Qed.

Lemma resolvePath_abs {T} (rootPath : T -> bytes) prefer p rs r rel :
  Forall (root_ok rootPath) rs -> resolvePath rootPath prefer p rs = Some (r, rel) -> IsAbs p = true.
Proof.
  intros Hrs. unfold resolvePath.
  assert (forall acc, (acc = None \/ IsAbs p = true) ->
    fold_left (resolve_step rootPath prefer p) rs acc = Some (r, rel) -> IsAbs p = true) as H; [|eauto].
  induction Hrs as [|x rs Hx _ IH]; intros acc Hacc; cbn; [by destruct Hacc as [->|]|].
  apply IH. destruct Hacc as [->|]; [|by right]. unfold resolve_step.
  destruct (Rel (rootPath x) p) as [rel'|] eqn:E; [right; by eapply Rel_abs|by left].
Qed.

Lemma sandbox_wf_abs s : sandbox_wf s -> Forall (root_ok r_absPath) (roots_of s).
Proof. intros H. eapply Forall_impl; [exact H|]. by intros r (? & _). Qed.

Lemma resolve_sound s p ar rel :
  sandbox_wf s -> resolve s p = Some (ar, rel) ->
  ar ∈ roots_of s /\ IsAbs p = true /\
  exists t, rel = inner_rel t /\ Forall valid_comp t /\ comps p = comps (r_absPath ar) ++ t.
Proof.
  intros Hwf Hr. pose proof (sandbox_wf_abs s Hwf) as Habs.
  pose proof (resolvePath_abs _ _ _ _ _ _ Habs Hr) as Hp.
  pose proof (resolvePath_ok _ None p Hp _ Habs) as Hok. unfold resolve in Hr. rewrite Hr in Hok.
  destruct Hok as (Hin & _ & Hrel & He & _). split; [done|]. split; [done|].
  apply (Rel_rel_comps (r_absPath ar) p); try done.
  rewrite Forall_forall in Habs. by apply Habs.
Qed.

(** ** Relative paths *)

Lemma IsAbs_inner t : Forall valid_comp t -> IsAbs (inner_rel t) = false.
Proof.
  destruct 1 as [|c t (Hc & _ & _ & Hs) Ht]; [reflexivity|]. cbn [inner_rel].
  destruct (Join_sep_cons c t) as (s & -> & _). destruct c as [|x c]; [done|].
  apply not_elem_of_cons in Hs as [Hx _]. cbn. by rewrite (proj2 (Ascii.eqb_neq x sep)) by congruence.
Qed.

Lemma Split_inner t :
  Forall valid_comp t -> Split sep (inner_rel t) = match t with [] => [lit "."] | _ => t end.
Proof.
  intros Ht. destruct t as [|c t]; [reflexivity|]. cbn [inner_rel].
  apply Split_Join; [done|]. by apply valid_no_sep.
Qed.

Lemma Clean_inner t : Forall valid_comp t -> Clean (inner_rel t) = inner_rel t.
Proof.
  intros Ht. unfold Clean. rewrite IsAbs_inner by done. unfold render, comps, clean_comps.
  rewrite IsAbs_inner, Split_inner by done. destruct t as [|c t]; [reflexivity|].
  rewrite clean_fold_keep, app_nil_r, rev_involutive by done. done.
Qed.

Lemma inner_rel_dot t : Forall valid_comp t -> inner_rel t = lit "." -> t = [].
Proof.
  intros Ht E. pose proof (Split_inner t Ht) as H. rewrite E in H. destruct t as [|c t]; [done|].
  change (Split sep (lit ".")) with [lit "."] in H. injection H as <- <-.
  inversion Ht as [|? ? (_ & Hd & _) _]; subst. done.
Qed.

(** A trailing slash is cleaned away. *)
Lemma Clean_inner_slash t : Forall valid_comp t -> Clean (inner_rel t ++ [sep]) = inner_rel t.
Proof.
  intros Ht. destruct t as [|c t]; [reflexivity|].
  assert (IsAbs (inner_rel (c :: t) ++ [sep]) = false) as Hr.
  { pose proof (IsAbs_inner _ Ht) as Hr. inversion Ht as [|? ? (Hc & _) _]; subst. cbn [inner_rel] in *.
    destruct (Join_sep_cons c t) as (s & E & _). rewrite E in *. destruct c as [|x c]; [done|].
    unfold IsAbs in *. cbn in *. done. }
  unfold Clean. rewrite Hr. unfold render, comps, clean_comps. rewrite Hr, Split_app_sep, Split_inner by done.
  rewrite fold_left_app. cbn [Split]. rewrite (clean_fold_keep false (c :: t) []), app_nil_r by done.
  cbn [fold_left].
  change (clean_step false (rev (c :: t)) []) with (rev (c :: t)). by rewrite rev_involutive.
Qed.

Lemma Join_sep_snoc l c : l <> [] -> Join_sep sep (l ++ [c]) = Join_sep sep l ++ sep :: c.
Proof.
  induction l as [|x l IH]; [done|]. intros _. destruct l as [|y l]; [done|].
  change (Join_sep sep ((x :: y :: l) ++ [c])) with (x ++ sep :: Join_sep sep ((y :: l) ++ [c])).
  rewrite IH by done. by rewrite app_comm_cons, app_assoc.
Qed.

Lemma Join_inner done c :
  done <> [] -> Forall valid_comp (done ++ [c]) ->
  Join [Join_sep sep done; c] = Join_sep sep (done ++ [c]).
Proof.
  intros Hd Hv. destruct done as [|x done]; [done|].
  assert (Join_sep sep (x :: done) <> []) as Hne.
  { inversion Hv as [|? ? (Hx & _) _]; subst. destruct (Join_sep_cons x done) as (s & -> & _).
    by destruct x. }
  rewrite Join_two by done. rewrite <- Join_sep_snoc by done.
  apply (Clean_inner ((x :: done) ++ [c])). done.
Qed.

Lemma local_prefix done c rest :
  Forall valid_comp (done ++ c :: rest) -> local_path (Join_sep sep (done ++ [c])).
Proof.
  intros Hv. exists (done ++ [c]). split; [by destruct done|].
  replace (done ++ c :: rest) with ((done ++ [c]) ++ rest) in Hv by (by rewrite <- app_assoc).
  by apply Forall_app in Hv as [? _].
Qed.

(** ** Resolution only looks, and only below the configured roots *)

(** Applies a lemma whose last premise is an execution at hand. *)
Ltac by_exec L := solve [eapply L; [..|eassumption]; done].

Section Looking.
Context (s : option Sandbox) (s_wf : sandbox_wf s).

Lemma in_root_prefix ar done c rest :
  ar ∈ roots_of s -> Forall valid_comp (done ++ c :: rest) ->
  in_root s (r_handle ar) (Join_sep sep (done ++ [c])).
Proof. intros Har Hv. exists ar. repeat (split; [done|]). by eapply local_prefix. Qed.

Lemma walkComponents_looking ar absPath pl done todo t a :
  ar ∈ roots_of s -> Forall valid_comp (done ++ todo) ->
  exec (walkComponents s ar absPath pl done todo) t a -> looking s t.
Proof.
  intros Har. revert done t. induction todo as [|c rest IH]; intros done t Hv H; cbn [walkComponents] in H.
  { exec_step. constructor. }
  assert (Forall valid_comp ((done ++ [c]) ++ rest)) as Hv' by (by rewrite <- app_assoc).
  assert (in_root s (r_handle ar) (Join_sep sep (done ++ [c]))) as Hin by (by eapply in_root_prefix).
  repeat exec_step; try (by_exec IH); try constructor; try done; try (by_exec IH); repeat constructor; done.
Qed.

Lemma resolveHops_looking n pl p t a : exec (resolveHops s n pl p) t a ->
  looking s t /\ (forall ar rel, a = Some (ar, rel) -> ar ∈ roots_of s /\ local_path rel).
Proof.
  revert p t. induction n as [|n IH]; intros p t H; cbn [resolveHops] in H.
  { exec_step. split; [constructor|done]. }
  destruct (resolve s p) as [[ar rel]|] eqn:Er; [|exec_step; split; [constructor|done]].
  destruct (resolve_sound _ _ _ _ s_wf Er) as (Har & _ & tl & -> & Hv & _).
  apply exec_bind_inv in H as (t1 & w & t2 & -> & Hw & H).
  assert (looking s t1) as Ht1.
  { rewrite Split_inner in Hw by done. destruct tl as [|c tl].
    - cbn [walkComponents] in Hw. change (lit "." =s ".") with true in Hw. cbv iota in Hw.
      exec_step. constructor.
    - by_exec walkComponents_looking. }
  assert (forall ar' rel', Some (ar, inner_rel tl) = Some (ar', rel') -> ar' ∈ roots_of s /\ local_path rel') as Hres.
  { intros ar' rel' [= <- <-]. split; [done|]. by exists tl. }
  destruct w; try (exec_step; rewrite app_nil_r; done).
  destruct (IH _ _ H) as [Ht2 Ha]. split; [by apply looking_app|done].
Qed.

Lemma resolveRoot_looking p pl t a : exec (resolveRootFollowingSymlinks s p pl) t a ->
  looking s t /\ (forall ar rel, a = Some (ar, rel) -> ar ∈ roots_of s /\ local_path rel).
Proof. apply resolveHops_looking. Qed.

Lemma reachesWalk_looking ros ar pl done todo t a :
  ar ∈ roots_of s -> Forall valid_comp (done ++ todo) ->
  exec (reachesWalk ros ar pl done todo) t a -> looking s t.
Proof.
  intros Har. revert done t. induction todo as [|c rest IH]; intros done t Hv H; cbn [reachesWalk] in H.
  { exec_step. constructor. }
  assert (Forall valid_comp ((done ++ [c]) ++ rest)) as Hv' by (by rewrite <- app_assoc).
  assert (in_root s (r_handle ar) (Join_sep sep (done ++ [c]))) as Hin by (by eapply in_root_prefix).
  cbv zeta in H. repeat exec_step; try (by_exec IH); constructor; try done; try (by_exec IH); constructor.
Qed.

Lemma reaches_looking ar rel pl t a :
  ar ∈ roots_of s -> local_path rel -> exec (reachesReadOnlyRoot s ar rel pl) t a -> looking s t.
Proof.
  intros Har (tl & -> & Hv) H. unfold reachesReadOnlyRoot in H. rewrite Clean_inner, Split_inner in H by done.
  destruct (readOnlyIdentities s) as [|ro ros]; [exec_step; constructor|].
  exec_if H; [exec_step; constructor|].
  destruct tl as [|c tl]; [|by_exec reachesWalk_looking].
  cbn [reachesWalk] in H. change (lit "." =s ".") with true in H. cbv iota in H. exec_step. constructor.
Qed.

(** A checked target is looked at only, and is the read-write root the path
    resolves to. *)
Lemma modeChecked_looking p pl t a : exec (resolveModeCheckedTarget s p pl) t a ->
  looking s t /\ (forall ar rel, a = Some (ar, rel) ->
    resolve s p = Some (ar, rel) /\ r_mode ar = pathModeReadWrite).
Proof.
  unfold resolveModeCheckedTarget. intros H.
  destruct (resolve s p) as [[ar rel]|] eqn:Er; [|exec_step; split; [constructor|done]].
  destruct (resolve_sound _ _ _ _ s_wf Er) as (Har & _ & tl & Hrel & Hv & _).
  destruct (isRW ar) eqn:Erw; cbn [negb] in H; [|exec_step; split; [constructor|done]].
  unfold isRW in Erw. apply bool_decide_eq_true in Erw.
  apply exec_bind_inv in H as (t1 & rr & t2 & -> & H1 & H). apply resolveRoot_looking in H1 as [Ht1 Hrr].
  destruct rr as [[resolved rrel]|]; [|exec_step; rewrite app_nil_r; done].
  destruct (Hrr _ _ eq_refl) as [Hres Hloc]. cbv zeta in H.
  do 3 (exec_if H; [exec_step; rewrite app_nil_r; done|]).
  apply exec_bind_inv in H as (t3 & b1 & t4 & -> & H3 & H).
  eapply reaches_looking in H3; [|done|by exists tl].
  destruct b1; [exec_step; rewrite app_nil_r; split; [by apply looking_app|done]|].
  apply exec_bind_inv in H as (t5 & b2 & t6 & -> & H5 & H). eapply reaches_looking in H5; [|done..].
  assert (looking s (t1 ++ t3 ++ t5)) as Ht by (by rewrite !looking_app).
  destruct b2; exec_step; rewrite app_nil_r; (split; [done|]); [done|]. by intros ?? [= <- <-].
Qed.

Lemma rejectWalk_looking ar relPath il done todo t a :
  ar ∈ roots_of s -> Forall valid_comp (done ++ todo) ->
  exec (rejectWalk ar relPath il (match done with [] => [] | _ => Join_sep sep done end) todo) t a -> looking s t.
Proof.
  intros Har. revert done t. induction todo as [|c rest IH]; intros done t Hv H; cbn [rejectWalk] in H.
  { exec_step. constructor. }
  assert (Forall valid_comp ((done ++ [c]) ++ rest)) as Hv' by (by rewrite <- app_assoc).
  assert (valid_comp c) as (Hc1 & Hc2 & _ & _).
  { apply Forall_app in Hv as [_ Hv]. by inversion Hv. }
  rewrite (proj2 (bytes_eqb_false c [])), (proj2 (bytes_eqb_false c (lit "."))) in H by done. cbn [orb] in H.
  set (partial := if bytes_eqb _ [] then c else _) in H.
  assert (partial = Join_sep sep (done ++ [c])) as Hp.
  { subst partial. destruct done as [|x done]; [done|].
    assert (valid_comp x) as (Hx & _) by (inversion Hv; done).
    destruct (bytes_eqb_spec (Join_sep sep (x :: done)) []) as [E|_].
    - destruct (Join_sep_cons x done) as (s' & E' & _). rewrite E' in E. by destruct x.
    - apply Join_inner; [done|]. by apply Forall_app in Hv' as [? _]. }
  clearbody partial. subst partial.
  assert (in_root s (r_handle ar) (Join_sep sep (done ++ [c]))) as Hin by (by eapply in_root_prefix).
  assert (match done ++ [c] with [] => [] | _ => Join_sep sep (done ++ [c]) end = Join_sep sep (done ++ [c])) as Em.
  { by destruct done. }
  repeat exec_step; constructor; try done; try (eapply (IH (done ++ [c])); [done|]; rewrite Em; eassumption); constructor.
Qed.

Lemma reject_looking ar rel il t a :
  ar ∈ roots_of s -> local_path (Clean rel) -> exec (rejectSymlinkPathComponents ar rel il) t a -> looking s t.
Proof.
  intros Har (tl & Ec & Hv) H. unfold rejectSymlinkPathComponents in H.
  rewrite Ec, Split_inner in H by done. destruct tl as [|c tl].
  - cbn [rejectWalk] in H. change (bytes_eqb (lit ".") [] || (lit "." =s ".")) with true in H.
    cbv iota in H. exec_step. constructor.
  - by_exec (rejectWalk_looking ar rel il []).
Qed.

End Looking.

(** * What precedes a change to the filesystem *)

(** [walked h w dirs d]: in the past [h], descriptor [d] was reached from [w]
    by opening the directories [dirs] one after the other without following
    symlinks. *)
Inductive walked (h : list event) (w : nat) : list bytes -> nat -> Prop :=
| walked_root : walked h w [] w
| walked_dir dirs d c d' :
    walked h w dirs d -> ev (OpOpenat d c dirFlags 0) (inr d') ∈ h -> walked h w (dirs ++ [c]) d'.

(** Name [base] in directory [d] is the target of the request: the sandbox is
    writable, the path resolves to a read-write root, and [d] was reached from
    the descriptor of that root by the components before [base]. *)
Definition authorised (s : option Sandbox) (abs : bytes) (h : list event) (d : nat) (base : bytes) : Prop :=
  exists sb ar w dirs,
    s = Some sb /\ readOnly sb = false /\
    resolve s abs = Some (ar, inner_rel (dirs ++ [base])) /\ r_mode ar = pathModeReadWrite /\
    r_writeRoot ar = Some w /\ Forall valid_comp (dirs ++ [base]) /\ walked h w dirs d.

(** Descriptor [fd] came from opening the target. *)
Definition target_fd (s : option Sandbox) (abs : bytes) (h : list event) (fd : nat) : Prop :=
  exists h1 h2 d base flag perm,
    h = h1 ++ ev (OpOpenat d base flag perm) (inr fd) :: h2 /\
    has flag O_NOFOLLOW = true /\ authorised s abs h1 d base.

Definition single_link (info : fileInfo) : Prop := exists st, fi_sys info = Some st /\ (st_nlink st <= 1)%Z.

(** [fstat] said that the file is regular; and, unless it said that the file is
    not regular, that it has one link. *)
Definition regular_seen (h : list event) (fd : nat) : Prop :=
  exists info, ev (OpFStat fd) (inr info) ∈ h /\ isRegular info = true.
Definition link_seen (h : list event) (fd : nat) : Prop :=
  exists info, ev (OpFStat fd) (inr info) ∈ h /\ (isRegular info = true -> single_link info).

(** The guard every event satisfies. *)
Definition guard (s : option Sandbox) (abs : bytes) (h : list event) (e : event) : Prop :=
  match projT1 e with
  | OpLstat r p | OpStat r p | OpReadlink r p => in_root s r p
  | OpOpenFile r p flag _ => in_root s r p /\ has flag writeFlags = false
  | OpOpenat d name flag _ =>
      valid_comp name /\ has flag O_NOFOLLOW = true /\ (has flag writeFlags = true -> authorised s abs h d name)
  | OpUnlinkat d name => authorised s abs h d name
  | OpTruncate fd _ | OpWrite fd _ => target_fd s abs h fd /\ regular_seen h fd /\ link_seen h fd
  | _ => True
  end.

Lemma regular_past h h' fd : regular_seen h fd -> regular_seen (h ++ h') fd.
Proof. intros (i & ? & ?). exists i. set_solver. Qed.

Lemma link_past h h' fd : link_seen h fd -> link_seen (h ++ h') fd.
Proof. intros (i & ? & ?). exists i. set_solver. Qed.

Section Guarded.
Context (s : option Sandbox) (s_wf : sandbox_wf s) (abs : bytes).
Abbreviation ok := (guarded (guard s abs)).

Lemma looking_guarded h t : looking s t -> ok h t.
Proof.
  unfold looking. rewrite Forall_forall. intros Hl. apply guarded_forall. intros h' e He.
  specialize (Hl e He). unfold guard, looks in *. by destruct (projT1 e).
Qed.

Lemma ok_app h t1 t2 : ok h t1 -> ok (h ++ t1) t2 -> ok h (t1 ++ t2).
Proof. intros. by apply guarded_app. Qed.

Lemma walked_past h h' w dirs d : walked h w dirs d -> walked (h ++ h') w dirs d.
Proof. induction 1; econstructor; [done|]. apply elem_of_app. by left. Qed.

Lemma target_past h h' fd : target_fd s abs h fd -> target_fd s abs (h ++ h') fd.
Proof.
  intros (h1 & h2 & d & base & flag & perm & -> & Hn & Ha).
  exists h1, (h2 ++ h'), d, base, flag, perm. by rewrite <- app_assoc.
Qed.

Lemma closeDirIf_exec {A} (cl : bool) d (k : prog A) t a :
  exec (closeDirIf cl d k) t a ->
  exists t', exec k t' a /\ (cl = false /\ t = t' \/ cl = true /\ exists r, t = ev (OpClose d) r :: t').
Proof. unfold closeDirIf. destruct cl; intros H; [exec_step|]; eauto 10. Qed.

(** Closing a directory descriptor first changes nothing for the rest. *)
Lemma closeDirIf_pre {A} cl d (k : prog A) t a :
  exec (closeDirIf cl d k) t a -> exists pre t', t = pre ++ t' /\ exec k t' a /\ (forall h, ok h pre).
Proof.
  intros H. apply closeDirIf_exec in H as (t' & H & [[_ ->]|[_ [r ->]]]); [by exists [], t'|].
  by exists [ev (OpClose d) r], t'.
Qed.

(** The no-follow walk reaches the parent of the target and nothing else. *)
Lemma walkDirs_ok op rel w comps done d cl h t a :
  Forall valid_comp comps -> walked h w done d -> exec (walkDirs op rel d cl comps) t a ->
  ok h t /\ (forall d' cl', a = inr (d', cl') -> walked (h ++ t) w (done ++ comps) d').
Proof.
  intros Hv. revert done d cl h t. induction Hv as [|c comps Hc Hv IH]; intros done d cl h t Hw H;
    cbn [walkDirs] in H.
  { exec_step. split; [done|]. intros d' cl' [= <- <-]. by rewrite !app_nil_r. }
  destruct Hc as (H1 & H2 & H3 & H4).
  rewrite (proj2 (bytes_eqb_false c [])), (proj2 (bytes_eqb_false c (lit "."))),
    (proj2 (bytes_eqb_false c (lit ".."))) in H by done. cbn [orb] in H.
  exec_step. apply closeDirIf_exec in H as (t' & H & Ht).
  set (e := ev (OpOpenat d c dirFlags 0) x) in *.
  assert (guard s abs h e) as He by done.
  assert (exists pre, x0 = pre ++ t' /\ forall h0, ok h0 pre) as (pre & -> & Hpre).
  { destruct Ht as [[_ ->]|[_ [r ->]]]; [by exists []|]. by exists [ev (OpClose d) r]. }
  clear Ht. destruct x as [er|d'].
  - exec_step. split; [|done]. cbn [guarded]. split; [done|]. rewrite app_nil_r. apply Hpre.
  - destruct (IH (done ++ [c]) d' true ((h ++ [e]) ++ pre) t') as [Hok Hwk]; [|done|].
    { apply walked_past. econstructor; [by apply walked_past|]. subst e. set_solver. }
    split.
    + cbn [guarded]. split; [done|]. by apply ok_app.
    + intros d'' cl' Ha. specialize (Hwk d'' cl' Ha).
      replace (h ++ e :: pre ++ t') with (((h ++ [e]) ++ pre) ++ t') by (by rewrite <- !app_assoc).
      by replace (done ++ c :: comps) with ((done ++ [c]) ++ comps) by (by rewrite <- app_assoc).
Qed.

(** ** The write opener *)

(** The state in which a target is opened. *)
Definition writable_target (ar : root) (tl : list bytes) : Prop :=
  exists sb, s = Some sb /\ readOnly sb = false /\ resolve s abs = Some (ar, inner_rel tl) /\
    r_mode ar = pathModeReadWrite /\ Forall valid_comp tl.

Lemma dirsAndBase_snoc dirs base :
  Forall valid_comp (dirs ++ [base]) -> dirsAndBase (inner_rel (dirs ++ [base])) = (dirs, base).
Proof.
  intros Hv. unfold dirsAndBase. rewrite Split_inner by done.
  replace (match dirs ++ [base] with [] => _ | _ => _ end) with (dirs ++ [base]) by (by destruct dirs).
  rewrite length_app. cbn [length]. rewrite Nat.add_sub, take_app_length, List.last_last. done.
Qed.

Lemma badBase_valid c : valid_comp c -> badBase c = false.
Proof.
  intros (H1 & H2 & H3 & _). unfold badBase.
  by rewrite (proj2 (bytes_eqb_false c [])), (proj2 (bytes_eqb_false c (lit "."))),
    (proj2 (bytes_eqb_false c (lit ".."))).
Qed.

Lemma has_lor_r m b c : has c b = true -> has (Z.lor m c) b = true.
Proof.
  unfold has. rewrite !negb_true_iff, !Z.eqb_neq. intros H E. apply H.
  apply Z.bits_inj'. intros n Hn. rewrite Z.bits_0, Z.land_spec.
  assert (Z.testbit (Z.land (Z.lor m c) b) n = false) as Hb by (by rewrite E, Z.bits_0).
  rewrite Z.land_spec, Z.lor_spec in Hb. by destruct (Z.testbit m n), (Z.testbit c n), (Z.testbit b n).
Qed.

Lemma nofollow_flag flag : has (Z.lor flag (Z.lor O_CLOEXEC O_NOFOLLOW)) O_NOFOLLOW = true.
Proof. by apply has_lor_r. Qed.

Lemma OpenFile_ok ar tl flag perm h t a :
  writable_target ar tl -> exec (OpenFile (r_writeRoot ar) (inner_rel tl) flag perm) t a ->
  ok h t /\ (forall fd, a = inr fd -> target_fd s abs (h ++ t) fd).
Proof.
  intros (sb & Es & Ero & Er & Em & Hv) H. unfold OpenFile in H. rewrite Clean_inner in H by done.
  destruct (r_writeRoot ar) as [w|] eqn:Ew; [|by exec_step].
  destruct (bytes_eqb_spec (inner_rel tl) (lit ".")) as [_|Hd]; [by exec_step|].
  destruct tl as [|base dirs _] using rev_ind; [done|].
  rewrite dirsAndBase_snoc in H by done. apply exec_bind_inv in H as (t1 & r & t2 & -> & H1 & H).
  pose proof (proj1 (Forall_app _ _ _) Hv) as [Hdirs Hb%Forall_inv].
  eapply (walkDirs_ok _ _ w _ [] _ _ h) in H1 as [Hok Hw]; [|done|apply walked_root]. cbn [app] in Hw.
  destruct r as [er|[d cl]]; [exec_step; rewrite app_nil_r; by split|].
  specialize (Hw d cl eq_refl). rewrite badBase_valid in H by done. exec_step.
  apply closeDirIf_pre in H as (pre & t' & -> & H & Hpre).
  assert (authorised s abs (h ++ t1) d base) as Hauth by (by exists sb, ar, w, dirs).
  set (e := ev _ x) in *.
  assert (guard s abs (h ++ t1) e) as He by (split; [done|]; split; [apply nofollow_flag|done]).
  assert (t' = [] /\ (forall fd, a = inr fd -> x = inr fd)) as [-> Ha].
  { destruct x; exec_step; split; try done; by intros fd [= <-]. }
  rewrite app_nil_r. split.
  - apply ok_app; [done|]. cbn [guarded]. split; [done|apply Hpre].
  - intros fd Hfd. apply Ha in Hfd as ->.
    exists (h ++ t1), pre, d, base. do 2 eexists. split; [rewrite <- app_assoc; reflexivity|].
    split; [apply nofollow_flag|done].
Qed.

Lemma Unlink_ok ar tl rel h t a :
  writable_target ar tl -> Clean rel = inner_rel tl -> exec (Unlink (r_writeRoot ar) rel) t a -> ok h t.
Proof.
  intros (sb & Es & Ero & Er & Em & Hv) Ec H. unfold Unlink in H. rewrite Ec in H.
  destruct (r_writeRoot ar) as [w|] eqn:Ew; [|by exec_step].
  destruct (bytes_eqb_spec (inner_rel tl) (lit ".")) as [_|Hd]; [by exec_step|].
  destruct tl as [|base dirs _] using rev_ind; [done|].
  rewrite dirsAndBase_snoc in H by done. cbv zeta in H.
  pose proof (proj1 (Forall_app _ _ _) Hv) as [Hdirs Hb%Forall_inv].
  rewrite badBase_valid in H by done. apply exec_bind_inv in H as (t1 & r & t2 & -> & H1 & H).
  eapply (walkDirs_ok _ _ w _ [] _ _ h) in H1 as [Hok Hw]; [|done|apply walked_root]. cbn [app] in Hw.
  apply ok_app; [done|].
  destruct r as [er|[d cl]]; [by exec_step|]. specialize (Hw d cl eq_refl).
  assert (forall h', authorised s abs ((h ++ t1) ++ h') d base) as Hauth.
  { intros h'. exists sb, ar, w, dirs. eauto 10 using walked_past. }
  apply exec_bind_inv in H as (t3 & r & t4 & -> & H1 & H). apply ok_app.
  - repeat exec_step; cbn [guarded]; repeat split; apply Hauth.
  - apply closeDirIf_pre in H as (pre & t' & -> & H & Hpre). exec_step. rewrite app_nil_r. apply Hpre.
Qed.

(** A file that passed the link check was seen by [fstat]. *)
Lemma checkLinks_ok fd rel h t a :
  exec (checkWriteTargetLinks fd rel) t a ->
  ok h t /\ (forall reg, a = inr reg -> link_seen (h ++ t) fd /\ (reg = true -> regular_seen (h ++ t) fd)).
Proof.
  unfold checkWriteTargetLinks. intros H. repeat exec_step. split; [done|]. intros reg Ha.
  destruct x as [|info]; [done|]. assert (ev (OpFStat fd) (inr info) ∈ h ++ [ev (OpFStat fd) (inr info)]) by set_solver.
  unfold fileLinkCount in Ha. destruct (isRegular info) eqn:Ei; cbn [negb] in Ha.
  - destruct (fi_sys info) as [st|] eqn:Est; cbn in Ha; [|done].
    destruct (Z.leb_spec (st_nlink st) 1); [|done]. injection Ha as <-.
    split; [|by exists info]. exists info. split; [done|]. by exists st.
  - injection Ha as <-. split; [|done]. exists info. split; [done|]. by rewrite Ei.
Qed.

Lemma writable_in ar tl : writable_target ar tl -> ar ∈ roots_of s.
Proof. intros (sb & _ & _ & Er & _). by destruct (resolve_sound _ _ _ _ s_wf Er). Qed.

Lemma openWriteFile_ok ar tl flag perm h t a :
  writable_target ar tl -> exec (openWriteFile ar (inner_rel tl) flag perm) t a ->
  ok h t /\ (forall fd, a = inr fd -> target_fd s abs (h ++ t) fd /\ link_seen (h ++ t) fd).
Proof.
  intros Hw H. pose proof (writable_in _ _ Hw) as Har. unfold openWriteFile in H.
  apply exec_bind_inv in H as (t1 & rej & t2 & -> & H1 & H).
  apply (reject_looking s ar) in H1 as Hl;
    [|done|destruct Hw as (_ & _ & _ & _ & _ & Hv); exists tl; split; [by apply Clean_inner|done]].
  apply (looking_guarded h) in Hl.
  destruct rej as [er|]; [exec_step; rewrite !app_nil_r; by split|]. cbv zeta in H.
  apply exec_bind_inv in H as (t3 & r & t4 & -> & H3 & H).
  apply (OpenFile_ok _ _ _ _ (h ++ t1)) in H3 as [Hok Ht]; [|done].
  destruct r as [er|fd]; [exec_step; rewrite !app_nil_r; split; [by apply ok_app|done]|].
  specialize (Ht fd eq_refl). apply exec_bind_inv in H as (t5 & links & t6 & -> & H5 & H).
  apply (checkLinks_ok _ _ ((h ++ t1) ++ t3)) in H5 as [Hok5 Hlk].
  destruct links as [er|reg].
  { repeat exec_step. split; [|done]. by repeat (apply ok_app; [done|]). }
  destruct (Hlk reg eq_refl) as [Hlink Hreg]. apply (target_past _ t5) in Ht.
  destruct (has flag O_TRUNC && reg) eqn:Etr.
  - apply andb_true_iff in Etr as [_ ->]. specialize (Hreg eq_refl). exec_step.
    assert (ok (((h ++ t1) ++ t3) ++ t5) [ev (OpTruncate fd 0) x]) as He by (by split).
    split.
    + repeat (apply ok_app; [done|]). destruct x; repeat exec_step; done.
    + rewrite !app_assoc. destruct x; repeat exec_step; [done|].
      intros ? [= <-]. eauto using target_past, link_past.
  - exec_step. rewrite app_nil_r, !app_assoc. split; [|by intros ? [= <-]].
    rewrite <- app_assoc. by repeat (apply ok_app; [done|]).
Qed.

End Guarded.

(** ** Operations that only read *)

Definition reads (s : option Sandbox) (c : sys) : Prop :=
  match c with
  | OpLstat h p | OpStat h p | OpReadlink h p => in_root s h p
  | OpOpenFile h p flag _ => in_root s h p /\ has flag writeFlags = false
  | OpFStat _ | OpSetBlocking _ | OpReadDir _ _ | OpClose _ | OpStatDevNull | OpGetids => True
  | _ => False
  end.

Definition reading (s : option Sandbox) (t : list event) : Prop := Forall (fun e => reads s (projT1 e)) t.

Lemma reading_guarded s abs h t : reading s t -> guarded (guard s abs) h t.
Proof.
  unfold reading. rewrite Forall_forall. intros Hl. apply guarded_forall. intros h' e He.
  specialize (Hl e He). unfold guard, reads in *. by destruct (projT1 e).
Qed.

Lemma reading_app s t1 t2 : reading s (t1 ++ t2) <-> reading s t1 /\ reading s t2.
Proof. apply Forall_app. Qed.

Lemma reading_cons s c r t : reading s (ev c r :: t) <-> reads s c /\ reading s t.
Proof. unfold reading. by rewrite Forall_cons. Qed.

Lemma reading_nil s : reading s [].
Proof. constructor. Qed.

Lemma looking_reading s t : looking s t -> reading s t.
Proof. intros H. eapply Forall_impl; [exact H|]. intros [c r]. by destruct c. Qed.

Lemma resolve_in s p ar rel : sandbox_wf s -> resolve s p = Some (ar, rel) -> in_root s (r_handle ar) rel.
Proof.
  intros Hwf Hr. destruct (resolve_sound _ _ _ _ Hwf Hr) as (Har & _ & tl & -> & Hv & _).
  exists ar. repeat (split; [done|]). by exists tl.
Qed.

Lemma followRoot_reading s p pl t a : sandbox_wf s -> exec (resolveRootFollowingSymlinks s p pl) t a ->
  reading s t /\ (forall ar rel, a = Some (ar, rel) -> in_root s (r_handle ar) rel).
Proof.
  intros Hwf H. apply resolveRoot_looking in H as [Hl Ha]; [|done]. split; [by apply looking_reading|].
  intros ar rel E. destruct (Ha ar rel E). by exists ar.
Qed.

Lemma follow_reading s p pl t a : sandbox_wf s -> exec (resolveFollowingSymlinks s p pl) t a ->
  reading s t /\ (forall h rel, a = Some (h, rel) -> in_root s h rel).
Proof.
  unfold resolveFollowingSymlinks. intros Hwf H.
  apply exec_bind_inv in H as (t1 & r & t2 & -> & H1 & H). apply followRoot_reading in H1 as [Ht Hr]; [|done].
  exec_step. rewrite app_nil_r. split; [done|]. destruct r as [[ar rel]|]; [|done].
  intros h rel' [= <- <-]. by apply Hr.
Qed.

(** Takes an execution of a reading operation apart and checks every call. *)
Ltac reading_tac :=
  repeat first
    [ exec_step
    | progress cbv zeta in *
    | match goal with
      | H : exec (resolveFollowingSymlinks _ _ _) _ _ |- _ => apply follow_reading in H as [? ?]; [|assumption]
      | H : exec (resolveRootFollowingSymlinks _ _ _) _ _ |- _ => apply followRoot_reading in H as [? ?]; [|assumption]
      | H : exec (let '(_, _) := ?x in _) _ _ |- _ => destruct x eqn:?
      end ];
  repeat first [rewrite reading_app | rewrite reading_cons]; cbn [reads];
  repeat split; subst; eauto using resolve_in, reading_nil.

Lemma hasPerm_reading s i r w x t a : exec (hasPerm i r w x) t a -> reading s t.
Proof. unfold hasPerm. intros H. reading_tac. Qed.

Lemma verdict_reading s i r w x t a : exec (accessVerdict i r w x) t a -> reading s t.
Proof.
  unfold accessVerdict. intros H. exec_step. apply (hasPerm_reading s) in H0. exec_step. by rewrite app_nil_r.
Qed.

Lemma accessCheck_reading s ar rel r w x t a :
  in_root s (r_handle ar) rel -> exec (accessCheck ar rel r w x) t a -> reading s t.
Proof. unfold accessCheck. intros Hin H. reading_tac; eauto using verdict_reading. Qed.

Lemma Access_reading s path cwd mode t a : sandbox_wf s -> exec (Access s path cwd mode) t a -> reading s t.
Proof. unfold Access. intros Hwf H. reading_tac; eauto using accessCheck_reading, resolve_in. Qed.

Lemma Stat_reading s path cwd t a : sandbox_wf s -> exec (Stat s path cwd) t a -> reading s t.
Proof. unfold Stat. intros Hwf H. reading_tac. Qed.

Lemma Lstat_reading s path cwd t a : sandbox_wf s -> exec (Lstat s path cwd) t a -> reading s t.
Proof. unfold Lstat. intros Hwf H. reading_tac. Qed.

Lemma Readlink_reading s path cwd t a : sandbox_wf s -> exec (Readlink s path cwd) t a -> reading s t.
Proof. unfold Readlink. intros Hwf H. reading_tac. Qed.

Lemma verifyOpened_reading s path i fd t a : exec (verifyOpened path i fd) t a -> reading s t.
Proof. unfold verifyOpened. intros H. reading_tac. Qed.

Lemma openRegular_reading s path cwd t a : sandbox_wf s -> exec (openRegular s path cwd) t a -> reading s t.
Proof. unfold openRegular. intros Hwf H. reading_tac; eauto using Stat_reading, verifyOpened_reading. Qed.

Lemma openReadFile_reading s h rel flag perm t a :
  in_root s h rel -> has (Z.lor flag O_NONBLOCK) writeFlags = false ->
  exec (openReadFile h rel flag perm) t a -> reading s t.
Proof. unfold openReadFile. intros Hin Hf H. reading_tac. Qed.

Lemma openFallback_reading s h rel absPath t a :
sandbox_wf s ->   in_root s h rel -> exec (openWithSymlinkFallback s h rel absPath) t a -> reading s t.
Proof. unfold openWithSymlinkFallback. intros Hwf Hin H. reading_tac. Qed.

Lemma readDirN_reading s path cwd n t a : sandbox_wf s -> exec (readDirN s path cwd n) t a -> reading s t.
Proof. unfold readDirN. intros Hwf H. reading_tac; eauto using openFallback_reading, resolve_in. Qed.

Lemma OpenDir_reading s path cwd t a : sandbox_wf s -> exec (OpenDir s path cwd) t a -> reading s t.
Proof. unfold OpenDir. intros Hwf H. reading_tac; eauto using openFallback_reading, resolve_in. Qed.

Lemma IsDirEmpty_reading s path cwd t a : sandbox_wf s -> exec (IsDirEmpty s path cwd) t a -> reading s t.
Proof. unfold IsDirEmpty. intros Hwf H. reading_tac; eauto using openFallback_reading, resolve_in. Qed.

Lemma collectLoop_reading s fuel fd n offset maxRead skipped entries t a :
  exec (collectLoop fuel fd n offset maxRead skipped entries) t a -> reading s t.
Proof.
  revert skipped entries t. induction fuel as [|fuel IH]; intros skipped entries t H; cbn [collectLoop] in H.
  - reading_tac.
  - reading_tac.
Qed.

Lemma Collect_reading s fd n offset maxRead t a : exec (CollectDirEntries fd n offset maxRead) t a -> reading s t.
Proof. unfold CollectDirEntries. intros H. reading_tac; eauto using collectLoop_reading. Qed.

Lemma ReadDirLimited_reading s path cwd o m t a : sandbox_wf s -> exec (ReadDirLimited s path cwd o m) t a -> reading s t.
Proof.
  unfold ReadDirLimited. intros Hwf H. reading_tac; eauto using openFallback_reading, Collect_reading, resolve_in.
Qed.

Lemma modeChecked_reading s p pl t a : sandbox_wf s -> exec (resolveModeCheckedTarget s p pl) t a -> reading s t.
Proof. intros Hwf H. apply modeChecked_looking in H as [? _]; [|done]. by apply looking_reading. Qed.

Lemma reject_reading s ar rel il t a :
sandbox_wf s ->   in_root s (r_handle ar) rel -> ar ∈ roots_of s -> exec (rejectSymlinkPathComponents ar rel il) t a -> reading s t.
Proof.
  intros Hwf (_ & _ & _ & tl & -> & Hv) Har H. eapply looking_reading, reject_looking; [done| |exact H].
  exists tl. split; [by apply Clean_inner|done].
Qed.


Lemma CheckPath_reading s path cwd op t a : sandbox_wf s -> exec (CheckPath s path cwd op) t a -> reading s t.
Proof.
  unfold CheckPath. intros Hwf H. cbv zeta in H.
  destruct ((_ || _) && IsDevNull path); [reading_tac|]. destruct s as [sb|]; [|reading_tac].
  destruct (_ || _); [reading_tac|]. destruct (negb _ && negb _); [reading_tac|].
  destruct (readOnly sb); [reading_tac|].
  apply exec_bind_inv in H as (t1 & tg & t2 & -> & H1 & H).
  assert (exec (resolveModeCheckedTarget (Some sb) (toAbs path cwd) (bytes_eqb op PathRemove)) t1 tg) as H1'.
  { by destruct (bytes_eqb op PathRemove). }
  apply modeChecked_looking in H1' as [Hl Htg]; [|done]. clear H1. apply looking_reading in Hl.
  destruct tg as [[ar rel]|]; [|reading_tac]. destruct (Htg ar rel eq_refl) as [Hr _].
  pose proof (resolve_in _ _ _ _ Hwf Hr). destruct (resolve_sound _ _ _ _ Hwf Hr) as (Har & _).
  reading_tac; eauto using reject_reading.
Qed.

(** ** Operations that write *)

Section Writing.
Context (sb : Sandbox) (wf : sandbox_wf (Some sb)) (writable : readOnly sb = false) (abs : bytes).
Abbreviation ok := (guarded (guard (Some sb) abs)).

Lemma modeChecked_ok pl h t a :
  exec (resolveModeCheckedTarget (Some sb) abs pl) t a ->
  ok h t /\ (forall ar rel, a = Some (ar, rel) -> exists tl, rel = inner_rel tl /\ writable_target (Some sb) abs ar tl).
Proof.
  intros H. pose proof (modeChecked_reading _ _ _ _ _ wf H). split; [by apply reading_guarded|].
  intros ar rel Ha. apply modeChecked_looking in H as [_ Hc]; [|done]. destruct (Hc ar rel Ha) as [Hr Hm].
  destruct (resolve_sound _ _ _ _ wf Hr) as (_ & _ & tl & -> & Hv & _). exists tl. split; [done|]. by exists sb.
Qed.

(** Resolution followed by the write opener, as every writing operation runs
    them: the descriptor is that of the target, and its links were checked. *)
Lemma open_target_ok {A} flag perm (onDeny : prog A) (k : result nat -> prog A) h t a :
  exec (tg ← resolveWriteTarget (Some sb) abs;
        match tg with
        | None => onDeny
        | Some (ar, relPath) => r ← openWriteFile ar relPath flag perm; k r
        end) t a ->
  (forall h' t', exec onDeny t' a -> ok h' t') ->
  (forall e h' t', exec (k (inl e)) t' a -> ok h' t') ->
  (forall fd h' t', target_fd (Some sb) abs h' fd -> link_seen h' fd -> exec (k (inr fd)) t' a -> ok h' t') ->
  ok h t.
Proof.
  intros H Hdeny Herr Hfd. apply exec_bind_inv in H as (t1 & tg & t2 & -> & H1 & H).
  apply (modeChecked_ok _ h) in H1 as [Hok1 Htg]. apply ok_app; [done|].
  destruct tg as [[ar rel]|]; [|by eapply Hdeny]. destruct (Htg _ _ eq_refl) as (tl & -> & Hw).
  apply exec_bind_inv in H as (t3 & r & t4 & -> & H3 & H).
  eapply (openWriteFile_ok _ wf _ _ _ _ _ (h ++ t1)) in H3 as [Hok3 Hr]; [|done].
  apply ok_app; [done|]. destruct r as [e|fd]; [by eapply Herr|].
  destruct (Hr fd eq_refl). by eapply Hfd.
Qed.

Lemma ok_cons c r h t : guard (Some sb) abs h (ev c r) -> ok (h ++ [ev c r]) t -> ok h (ev c r :: t).
Proof. by split. Qed.

Lemma ok_nil h : ok h [].
Proof. done. Qed.

(** After a successful [statRegular] the descriptor may be written to. *)
Lemma statRegular_ok op path fd h t a :
  target_fd (Some sb) abs h fd -> link_seen h fd -> exec (statRegular op path fd) t a ->
  ok h t /\ (forall i, a = inr i ->
    target_fd (Some sb) abs (h ++ t) fd /\ regular_seen (h ++ t) fd /\ link_seen (h ++ t) fd).
Proof.
  intros Ht Hl H. unfold statRegular in H. exec_step. destruct x as [e|info].
  - repeat exec_step. by split.
  - destruct (isRegular info) eqn:Ei; cbn [negb] in H; repeat exec_step; [|by split].
    split; [done|]. intros i [= <-]. split; [by apply target_past|]. split; [|by apply link_past].
    exists info. split; [set_solver|done].
Qed.

(** The loop of a rewrite keeps the descriptor's checks in its past. *)
Definition may_write h fd := target_fd (Some sb) abs h fd /\ regular_seen h fd /\ link_seen h fd.

Lemma may_write_past h h' fd : may_write h fd -> may_write (h ++ h') fd.
Proof. intros (? & ? & ?). split; [by apply target_past|]. split; [by apply regular_past|by apply link_past]. Qed.

Lemma writeChunks_ok fd any chunks h t a : may_write h fd -> exec (writeChunks fd any chunks) t a -> ok h t.
Proof.
  revert any h t. induction chunks as [|c chunks IH]; intros any h t Hm H; cbn [writeChunks] in H; [by exec_step|].
  exec_step. apply ok_cons; [done|]. destruct x; [by exec_step|]. exec_step.
  apply ok_cons; [apply (may_write_past _ _ _ Hm)|]. cbv zeta in H. destruct x as [n werr].
  destruct werr; [by exec_step|]. eapply IH, H. by do 2 apply may_write_past.
Qed.

Lemma writeSync_ok fd data h t a : may_write h fd -> exec (writeAndTruncateSync fd data) t a -> ok h t.
Proof.
  intros Hm H. unfold writeAndTruncateSync in H. apply exec_bind_inv in H as (t1 & w & t2 & -> & H1 & H).
  apply ok_app; [by eapply writeChunks_ok|]. apply (may_write_past _ t1) in Hm. destruct w as [any werr].
  apply exec_bind_inv in H as (t3 & we & t4 & -> & H3 & H). apply (may_write_past _ t3) in Hm as Hm3.
  apply ok_app; [destruct werr; repeat exec_step; done|]. clear H1 H3.
  destruct we; repeat exec_step; [done|]. apply ok_cons; [exact Hm3|done].
Qed.

Lemma has_readonly flag : has flag writeOpenFlags = false ->
  Z.land flag (Z.lnot allowedOpenFlags) = 0%Z -> has (Z.lor flag O_NONBLOCK) writeFlags = false.
Proof.
  intros H _. unfold has in *. apply negb_false_iff, Z.eqb_eq in H. apply negb_false_iff, Z.eqb_eq.
  change writeFlags with writeOpenFlags. rewrite Z.land_lor_distr_l, H. reflexivity.
Qed.

Lemma Open_ok path cwd flag perm t a :
  abs = toAbs path cwd -> exec (Open (Some sb) path cwd flag perm) t a -> ok [] t.
Proof.
  intros Habs H. unfold Open in H. rewrite writable in H. cbn [andb] in H. rewrite <- Habs in H.
  destruct (negb (Z.land flag _ =? 0)%Z) eqn:Ef; [by exec_step|].
  apply negb_false_iff, Z.eqb_eq in Ef. destruct (has flag writeOpenFlags) eqn:Ew; cbn [negb] in H; cbv zeta in H.
  - eapply (open_target_ok flag perm _ (fun r => match r with inr fd => Done (inr fd) | inl e => _ end)); [exact H|..]; clear H.
    + intros ? ? H'. by exec_step.
    + intros e h' t' H'. cbv beta iota in H'.
      assert ((flag =? O_RDONLY)%Z = false) as Ero.
      { apply Z.eqb_neq. intros ->. done. }
      rewrite Ero in H'. cbn [negb] in H'. repeat exec_step; done.
    + intros fd h' t' _ _ H'. by exec_step.
  - apply reading_guarded. pose proof (has_readonly _ Ew Ef). clear Habs.
    reading_tac; eauto using openReadFile_reading, resolve_in.
Qed.

Lemma Truncate_ok path cwd size create t a :
  abs = toAbs path cwd -> exec (Truncate (Some sb) path cwd size create) t a -> ok [] t.
Proof.
  intros Habs H. unfold Truncate in H. rewrite writable in H. rewrite <- Habs in H.
  destruct (size <? 0)%Z; [by exec_step|]. cbv zeta in H. eapply open_target_ok; [exact H|..]; clear H; cbv beta iota.
  - intros ? ? H'. by exec_step.
  - intros e h' t' H'. by exec_step.
  - intros fd h' t' Ht Hl H'. apply exec_bind_inv in H' as (t1 & st & t2 & -> & H1 & H').
    eapply statRegular_ok in H1 as [Hok Hi]; [|done..]. apply ok_app; [done|].
    destruct st as [e|i]; [by exec_step|]. repeat exec_step. apply ok_cons; [exact (Hi i eq_refl)|done].
Qed.

Lemma TruncateToZero_ok path cwd minSize dryRun t a :
  abs = toAbs path cwd -> exec (TruncateToZeroIfAtLeast (Some sb) path cwd minSize dryRun) t a -> ok [] t.
Proof.
  intros Habs H. unfold TruncateToZeroIfAtLeast in H. rewrite writable in H. rewrite <- Habs in H.
  destruct (minSize <? 0)%Z; [by exec_step|]. cbv zeta in H. eapply open_target_ok; [exact H|..]; clear H; cbv beta iota.
  - intros ? ? H'. by exec_step.
  - intros e h' t' H'. by exec_step.
  - intros fd h' t' Ht Hl H'. apply exec_bind_inv in H' as (t1 & st & t2 & -> & H1 & H').
    eapply statRegular_ok in H1 as [Hok Hi]; [|done..]. apply ok_app; [done|].
    destruct st as [e|i]; [by exec_step|]. specialize (Hi i eq_refl).
    repeat exec_step; done.
Qed.

Lemma acquire_ok path cwd expected h t a :
  abs = toAbs path cwd -> exec (acquireWriteHandle (Some sb) path cwd expected) t a ->
  ok h t /\ (forall fd, a = inr fd -> may_write (h ++ t) fd).
Proof.
  intros Habs H. unfold acquireWriteHandle in H. rewrite <- Habs in H.
  apply exec_bind_inv in H as (t1 & tg & t2 & -> & H1 & H). apply (modeChecked_ok _ h) in H1 as [Hok1 Htg].
  destruct tg as [[ar rel]|]; [|exec_step; rewrite app_nil_r; by split].
  destruct (Htg _ _ eq_refl) as (tl & -> & Hw). apply exec_bind_inv in H as (t3 & r & t4 & -> & H3 & H).
  eapply (openWriteFile_ok _ wf _ _ _ _ _ (h ++ t1)) in H3 as [Hok3 Hr]; [|done].
  destruct r as [e|fd]; [exec_step; rewrite app_nil_r; split; [by apply ok_app|done]|].
  destruct (Hr fd eq_refl) as [Ht Hl]. apply exec_bind_inv in H as (t5 & st & t6 & -> & H5 & H).
  eapply statRegular_ok in H5 as [Hok5 Hi]; [|exact Ht|exact Hl].
  destruct st as [e|i]; [exec_step; rewrite app_nil_r; split; [by repeat (apply ok_app; [done|])|done]|].
  specialize (Hi i eq_refl).
  exec_if H; repeat exec_step.
  - split; [by repeat (apply ok_app; [done|])|done].
  - rewrite app_nil_r. split; [by repeat (apply ok_app; [done|])|]. intros ? [= <-]. by rewrite !app_assoc.
Qed.

Lemma WriteRegularFile_ok path cwd data expected t a :
  abs = toAbs path cwd -> exec (WriteRegularFile (Some sb) path cwd data expected) t a -> ok [] t.
Proof.
  intros Habs H. unfold WriteRegularFile in H. rewrite writable in H. exec_step. apply ok_cons; [done|].
  destruct x; [by exec_step|]. apply exec_bind_inv in H as (t1 & r & t2 & -> & H1 & H).
  unfold acquireWriteHandleBounded, raceAcquisitionAgainstContext in H1.
  apply exec_do_inv in H1 as (slot & t1' & -> & H1). destruct slot; cbn [negb] in H1; [|exec_step; by exec_step].
  apply exec_bind_inv in H1 as (t3 & r' & t4 & -> & H3 & H1).
  set (h0 := [ev OpCtxErr None] ++ [ev OpSlotAcquire true]).
  apply (acquire_ok _ _ _ h0) in H3 as [Hok3 Hm]; [|done].
  rewrite <- app_comm_cons, <- app_assoc. apply ok_cons; [done|]. apply ok_app; [done|].
  apply exec_do_inv in H1 as (lost & t5 & -> & H1). cbv beta in H1. destruct lost as [e|].
  { destruct r'; repeat exec_step; done. }
  repeat exec_step; [done|]. specialize (Hm n eq_refl). cbn [app]. do 2 (apply ok_cons; [done|]).
  unfold writeAndTruncateBounded in H. repeat exec_step; [done|]. apply ok_cons; [done|]. apply ok_app; [|done].
  eapply writeSync_ok; [|eassumption]. by repeat apply may_write_past.
Qed.

Lemma Remove_ok path cwd t a : abs = toAbs path cwd -> exec (Remove (Some sb) path cwd) t a -> ok [] t.
Proof.
  intros Habs H. unfold Remove in H. rewrite writable, <- Habs in H. cbv zeta in H.
  apply exec_bind_inv in H as (t1 & tg & t2 & -> & H1 & H). apply (modeChecked_ok _ []) in H1 as [Hok1 Htg].
  apply ok_app; [done|]. destruct tg as [[ar rel]|]; [|by exec_step]. destruct (Htg _ _ eq_refl) as (tl & -> & Hw).
  apply exec_bind_inv in H as (t3 & rr & t4 & -> & H3 & H).
  apply ok_app.
  { destruct (HasTrailingDirSyntax path); [|by exec_step].
    apply followRoot_reading in H3 as [? _]; [by apply reading_guarded|done]. }
  destruct (bool_decide (rr = None)); [by exec_step|].
  apply exec_bind_inv in H as (t5 & e & t6 & -> & H5 & H). exec_step. rewrite app_nil_r.
  set (rel' := if _ && _ then _ else _) in H5.
  assert (Clean rel' = inner_rel tl) as Ec.
  { pose proof Hw as (_ & _ & _ & _ & _ & Hv). subst rel'. destruct (_ && _).
    - by apply Clean_inner_slash.
    - by apply Clean_inner. }
  clearbody rel'. unfold removeFile in H5. apply exec_bind_inv in H5 as (t7 & rej & t8 & -> & H7 & H5).
  apply ok_app.
  - eapply looking_guarded, reject_looking; [..|exact H7]; [by eapply writable_in|].
    pose proof Hw as (_ & _ & _ & _ & _ & Hv). rewrite Ec. by exists tl.
  - destruct rej; [by exec_step|]. by eapply Unlink_ok.
Qed.

End Writing.

(** * Every request *)

Definition writes_allowed (s : option Sandbox) : bool :=
  match s with Some sb => negb (readOnly sb) | None => false end.

Ltac read_op :=
  first [ solve [eapply Access_reading; eassumption] | solve [eapply openRegular_reading; eassumption]
        | solve [eapply readDirN_reading; eassumption] | solve [eapply OpenDir_reading; eassumption]
        | solve [eapply IsDirEmpty_reading; eassumption] | solve [eapply ReadDirLimited_reading; eassumption]
        | solve [eapply Stat_reading; eassumption] | solve [eapply Lstat_reading; eassumption]
        | solve [eapply Readlink_reading; eassumption] | solve [eapply CheckPath_reading; eassumption] ].

(** A sandbox that is nil or read-only refuses before any call, or reads. *)
Lemma refused_reading s path cwd q t a :
  sandbox_wf s -> writes_allowed s = false -> exec (serve s path cwd q) t a -> reading s t.
Proof.
  intros Hwf Hro H.
  assert (s = None \/ exists sb, s = Some sb /\ readOnly sb = true) as Hs.
  { destruct s as [sb|]; [right|by left]. exists sb. split; [done|]. by apply negb_false_iff in Hro. }
  clear Hro. destruct q; unfold serve, nothing in H; apply exec_bind_inv in H as (t1 & r & t2 & -> & H & H2);
    exec_step; rewrite app_nil_r.
  all: try read_op.
  all: destruct Hs as [->|(sb & -> & Hro)];
    unfold Open, Truncate, TruncateToZeroIfAtLeast, WriteRegularFile, Remove in H; cbv zeta in H;
    rewrite ?Hro in H; try (exec_step; constructor).
  destruct (has flag writeOpenFlags) eqn:Ew; cbn [andb negb] in H; [exec_step; constructor|].
  destruct (negb (Z.land flag _ =? 0)%Z) eqn:Ef; [exec_step; constructor|].
  apply negb_false_iff, Z.eqb_eq in Ef. pose proof (has_readonly _ Ew Ef).
  reading_tac; eauto using openReadFile_reading, resolve_in.
Qed.

Lemma serve_guarded s path cwd q t a :
  sandbox_wf s -> exec (serve s path cwd q) t a -> guarded (guard s (toAbs path cwd)) [] t.
Proof.
  intros Hwf H. destruct (writes_allowed s) eqn:Ew; [|by eapply reading_guarded, refused_reading].
  destruct s as [sb|]; [|done]. cbn in Ew. apply negb_true_iff in Ew.
  destruct q; unfold serve, nothing in H; apply exec_bind_inv in H as (t1 & r & t2 & -> & H & H2);
    exec_step; rewrite app_nil_r.
  all: first
    [ apply reading_guarded; read_op
    | solve [eapply Open_ok; first [eassumption|reflexivity]]
    | solve [eapply Truncate_ok; first [eassumption|reflexivity]]
    | solve [eapply TruncateToZero_ok; first [eassumption|reflexivity]]
    | solve [eapply WriteRegularFile_ok; first [eassumption|reflexivity]]
    | solve [eapply Remove_ok; first [eassumption|reflexivity]] ].
Qed.

Lemma event_guard s path cwd q t1 e t2 a :
  sandbox_wf s -> exec (serve s path cwd q) (t1 ++ e :: t2) a -> guard s (toAbs path cwd) t1 e.
Proof. intros Hwf H. by eapply guarded_at, serve_guarded. Qed.

Lemma authorised_writable s abs h d base : authorised s abs h d base -> writes_allowed s = true.
Proof. intros (sb & ar & w & dirs & -> & Hro & _). cbn. by rewrite Hro. Qed.

(** A change goes through the target of the request. *)
Lemma mutation_authorised s path cwd q t1 e t2 a :
  sandbox_wf s -> exec (serve s path cwd q) (t1 ++ e :: t2) a -> mutating (projT1 e) = true ->
  match projT1 e with
  | OpOpenat d name _ _ | OpUnlinkat d name => authorised s (toAbs path cwd) t1 d name
  | OpTruncate fd _ | OpWrite fd _ => target_fd s (toAbs path cwd) t1 fd
  | _ => False
  end.
Proof.
  intros Hwf H Hm. apply event_guard in H; [|done]. unfold guard in H. destruct (projT1 e); cbn in Hm; try done.
  - destruct H as [_ H]. congruence.
  - by apply H.
  - by destruct H.
  - by destruct H.
Qed.

(** C7. Reads are confined.  Whatever the filesystem answers, every metadata,
    readlink or open call that any operation of the sandbox makes through a root
    handle uses the handle of a configured root and a path that stays below it
    (no empty, dot or dot-dot component), and such opens never carry a write
    flag. *)
Theorem reads_confined s path cwd q t1 e t2 a :
  sandbox_wf s -> exec (serve s path cwd q) (t1 ++ e :: t2) a ->
  match projT1 e with
  | OpLstat h p | OpStat h p | OpReadlink h p => in_root s h p
  | OpOpenFile h p flag _ => in_root s h p /\ has flag writeFlags = false
  | _ => True
  end.
Proof. intros Hwf H. apply event_guard in H; [|done]. unfold guard in H. by destruct (projT1 e). Qed.

(** C1. Writes are confined.  A call that opens a file for writing or unlinks
    one names a single component relative to a directory descriptor that was
    reached from the descriptor of the most specific root of the requested path,
    a read-write root of a writable sandbox, by opening exactly the remaining
    components of that path one by one without following symlinks; truncations
    and writes go to a descriptor opened that way.  No answer of the filesystem,
    and no change made to it meanwhile, redirects a write elsewhere. *)
Theorem writes_confined s path cwd q t1 e t2 a :
  sandbox_wf s -> exec (serve s path cwd q) (t1 ++ e :: t2) a -> mutating (projT1 e) = true ->
  match projT1 e with
  | OpOpenat d name flag _ => has flag O_NOFOLLOW = true /\ authorised s (toAbs path cwd) t1 d name
  | OpUnlinkat d name => authorised s (toAbs path cwd) t1 d name
  | OpTruncate fd _ | OpWrite fd _ => target_fd s (toAbs path cwd) t1 fd
  | _ => False
  end.
Proof.
  intros Hwf H Hm. pose proof (mutation_authorised _ _ _ _ _ _ _ _ Hwf H Hm) as Ha.
  apply event_guard in H; [|done]. unfold guard in H. destruct (projT1 e); try done. by destruct H as (_ & ? & _).
Qed.

(** A sandbox that was not made writable changes nothing: in no execution of
    any operation on it does a mutating call occur, whatever flags, paths or
    roots the request has. *)
Theorem read_only_never_mutates s path cwd q t a :
  sandbox_wf s -> writes_allowed s = false -> exec (serve s path cwd q) t a ->
  Forall (fun e => mutating (projT1 e) = false) t.
Proof.
  intros Hwf Hro H. apply refused_reading in H; [|done..]. eapply Forall_impl; [exact H|].
  intros [c r] Hc. destruct c; cbn in *; try done. by destruct Hc.
Qed.

(** The type of the file behind a descriptor does not change. *)
Definition types_stable (t : list event) : Prop :=
  forall fd i1 i2, ev (OpFStat fd) (inr i1) ∈ t -> ev (OpFStat fd) (inr i2) ∈ t -> isRegular i1 = isRegular i2.

(** C2. Nothing is truncated or overwritten unchecked: before any truncation or
    write, [fstat] of that very descriptor reported a regular file, and reported
    it with a known link count of at most one, so that no second name of the
    file is changed through it. *)
Theorem writes_checked s path cwd q t1 e t2 a fd :
  sandbox_wf s -> exec (serve s path cwd q) (t1 ++ e :: t2) a -> types_stable (t1 ++ e :: t2) ->
  (exists n, projT1 e = OpTruncate fd n) \/ (exists data, projT1 e = OpWrite fd data) ->
  exists info, ev (OpFStat fd) (inr info) ∈ t1 /\ isRegular info = true /\ single_link info.
Proof.
  intros Hwf H Hst He. apply event_guard in H; [|done]. unfold guard in H.
  assert (regular_seen t1 fd /\ link_seen t1 fd) as [(i1 & H1 & R1) (i2 & H2 & R2)].
  { destruct He as [[n Ee]|[d Ee]]; rewrite Ee in H; tauto. }
  exists i2. split; [done|]. assert (isRegular i2 = true) as Hr.
  { rewrite <- R1. apply (Hst fd); set_solver. }
  split; [done|by apply R2].
Qed.

(** * Descriptors *)

(** How many more times [t] opens descriptor [x] than it closes it. *)
Definition occ (x : nat) (l : list nat) : Z := Z.of_nat (count_occ Nat.eq_dec l x).
Definition ledger (t : list event) (x : nat) : Z := (occ x (opened t) - occ x (closed t))%Z.

Lemma occ_app x l1 l2 : occ x (l1 ++ l2) = (occ x l1 + occ x l2)%Z.
Proof. unfold occ. rewrite count_occ_app. lia. Qed.

Lemma ledger_app t1 t2 x : ledger (t1 ++ t2) x = (ledger t1 x + ledger t2 x)%Z.
Proof. unfold ledger. rewrite opened_app, closed_app, !occ_app. lia. Qed.

Lemma ledger_cons c r t x :
  ledger (ev c r :: t) x = (occ x (opens (ev c r)) - occ x (closes (ev c r)) + ledger t x)%Z.
Proof. unfold ledger. rewrite opened_cons, closed_cons, !occ_app. lia. Qed.

Lemma ledger_nil x : ledger [] x = 0%Z.
Proof. reflexivity. Qed.

Lemma occ_nil x : occ x [] = 0%Z.
Proof. reflexivity. Qed.

Lemma looking_ledger s t x : looking s t -> ledger t x = 0%Z.
Proof.
  induction 1 as [|[c r] t Hc _ IH]; [done|]. change (existT c r) with (ev c r). rewrite ledger_cons, IH.
  destruct c; cbn in *; done.
Qed.

(** [t] turns the descriptors [inp] it owns into the descriptors [out]. *)
Definition ledger_is (t : list event) (out inp : list nat) : Prop :=
  forall x, ledger t x = (occ x out - occ x inp)%Z.

(** The descriptors a step owes: one it holds, or one it handed on. *)
Definition held (cl : bool) (d : nat) : list nat := if cl then [d] else [].
Definition reached (r : result (nat * bool)) : list nat :=
  match r with inr (d, cl) => held cl d | inl _ => [] end.

Ltac ledger_norm :=
  repeat first [rewrite ledger_app | rewrite ledger_cons | rewrite ledger_nil];
  cbn [opens closes ev projT1 projT2 handed reached held]; rewrite ?occ_nil.

Ltac ledger_use x :=
  repeat match goal with
  | H : ledger_is _ _ _ |- _ => specialize (H x)
  | H : forall y, ledger _ y = _ |- _ => specialize (H x)
  end.

Ltac ledger_tac :=
  repeat first [exec_step | progress cbv zeta in *
    | match goal with H : exec (let '(_, _) := ?x in _) _ _ |- _ => destruct x eqn:? end];
  let x := fresh "x" in intros x; unfold ledger_is in *; ledger_use x; subst; ledger_norm;
  cbn [handed reached held] in *; rewrite ?ledger_nil, ?occ_nil in *; try lia.

Lemma closeDirIf_ledger {A} cl d (k : prog A) t a :
  exec (closeDirIf cl d k) t a -> exists t', exec k t' a /\ forall x, ledger t x = (ledger t' x - occ x (held cl d))%Z.
Proof.
  intros H. apply closeDirIf_exec in H as (t' & H & [[-> ->]|[-> [r ->]]]); exists t'; (split; [done|]); intros x; ledger_norm; lia.
Qed.

Lemma walkDirs_ledger op rel d cl comps t a :
  exec (walkDirs op rel d cl comps) t a -> ledger_is t (reached a) (held cl d).
Proof.
  revert d cl t. induction comps as [|c comps IH]; intros d cl t H; cbn [walkDirs] in H; [ledger_tac|].
  exec_if H; [by apply IH|]. exec_if H; [apply closeDirIf_ledger in H as (t' & H & Hl); ledger_tac|].
  exec_step. apply closeDirIf_ledger in H as (t' & H & Hl). destruct x as [e|d'].
  - ledger_tac.
  - apply IH in H. ledger_tac.
Qed.

Lemma OpenFile_ledger w rel flag perm t a :
  exec (OpenFile w rel flag perm) t a -> ledger_is t (handed a) [].
Proof.
  unfold OpenFile. intros H. destruct w as [w|]; [|ledger_tac]. destruct (Clean rel =s "."); [ledger_tac|].
  destruct (dirsAndBase (Clean rel)) as [dirs base]. apply exec_bind_inv in H as (t1 & r & t2 & -> & H1 & H).
  apply walkDirs_ledger in H1. destruct r as [e|[d cl]]; [ledger_tac|].
  destruct (badBase base); [apply closeDirIf_ledger in H as (t' & H & Hl); ledger_tac|].
  exec_step. apply closeDirIf_ledger in H as (t' & H & Hl). ledger_tac.
Qed.

Lemma Unlink_ledger w rel t a : exec (Unlink w rel) t a -> ledger_is t [] [].
Proof.
  unfold Unlink. intros H. destruct w as [w|]; [|ledger_tac]. cbv zeta in H.
  destruct (Clean rel =s "."); [ledger_tac|].
  destruct (dirsAndBase (Clean rel)) as [dirs base]. apply exec_bind_inv in H as (t1 & r & t2 & -> & H1 & H).
  apply walkDirs_ledger in H1. destruct r as [e|[d cl]]; [ledger_tac|].
  apply exec_bind_inv in H as (t3 & r & t4 & -> & H3 & H). apply closeDirIf_ledger in H as (t' & H & Hl).
  destruct (badBase base); ledger_tac.
Qed.

Lemma checkLinks_ledger fd rel t a : exec (checkWriteTargetLinks fd rel) t a -> ledger_is t [] [].
Proof. unfold checkWriteTargetLinks. intros H. ledger_tac. Qed.

Lemma reject_ledger ar rel il t a : exec (rejectSymlinkPathComponents ar rel il) t a -> ledger_is t [] [].
Proof.
  unfold rejectSymlinkPathComponents. generalize (@nil ascii) as partial. revert t.
  induction (Split sep (Clean rel)) as [|c cs IH]; intros t partial H; cbn [rejectWalk] in H; [ledger_tac|].
  exec_if H; [by eapply IH|]. cbv zeta in H. exec_if H; [ledger_tac|].
  exec_step. destruct x as [e|i]; [ledger_tac|]. destruct (isSymlink i); [ledger_tac|].
  apply IH in H. ledger_tac.
Qed.

Lemma openWriteFile_ledger ar rel flag perm t a :
  exec (openWriteFile ar rel flag perm) t a -> ledger_is t (handed a) [].
Proof.
  unfold openWriteFile. intros H. apply exec_bind_inv in H as (t1 & r & t2 & -> & H1 & H).
  apply reject_ledger in H1. destruct r; [ledger_tac|]. cbv zeta in H.
  apply exec_bind_inv in H as (t3 & r & t4 & -> & H3 & H). apply OpenFile_ledger in H3.
  destruct r as [e|fd]; [ledger_tac|]. apply exec_bind_inv in H as (t5 & l & t6 & -> & H5 & H).
  apply checkLinks_ledger in H5. ledger_tac.
Qed.

Lemma looking_balanced s t : looking s t -> ledger_is t [] [].
Proof. intros H x. by rewrite (looking_ledger s). Qed.

Lemma followRoot_ledger s p pl t a :
  sandbox_wf s -> exec (resolveRootFollowingSymlinks s p pl) t a -> ledger_is t [] [].
Proof. intros Hwf H. apply resolveRoot_looking in H as [? _]; [|done]. by eapply looking_balanced. Qed.

Lemma follow_ledger s p pl t a :
  sandbox_wf s -> exec (resolveFollowingSymlinks s p pl) t a -> ledger_is t [] [].
Proof.
  unfold resolveFollowingSymlinks. intros Hwf H. exec_step. eapply followRoot_ledger in H0; [|done]. ledger_tac.
Qed.

Lemma modeChecked_ledger s p pl t a :
  sandbox_wf s -> exec (resolveModeCheckedTarget s p pl) t a -> ledger_is t [] [].
Proof. intros Hwf H. apply modeChecked_looking in H as [? _]; [|done]. by eapply looking_balanced. Qed.

Lemma openReadFile_ledger h rel flag perm t a :
  exec (openReadFile h rel flag perm) t a -> ledger_is t (handed a) [].
Proof. unfold openReadFile. intros H. ledger_tac. Qed.

Lemma verdict_ledger i r w x t a : exec (accessVerdict i r w x) t a -> ledger_is t [] [].
Proof. unfold accessVerdict, hasPerm. intros H. ledger_tac. Qed.

Lemma accessCheck_ledger ar rel r w x t a : exec (accessCheck ar rel r w x) t a -> ledger_is t [] [].
Proof.
  unfold accessCheck. intros H. repeat exec_step;
    repeat match goal with H : exec (accessVerdict _ _ _ _) _ _ |- _ => apply verdict_ledger in H end; ledger_tac.
Qed.

Lemma verifyOpened_ledger path i fd t a : exec (verifyOpened path i fd) t a -> ledger_is t (handed a) [fd].
Proof. unfold verifyOpened. intros H. ledger_tac. Qed.

Lemma statRegular_ledger op path fd t a :
  exec (statRegular op path fd) t a -> ledger_is t (match a with inr _ => [fd] | inl _ => [] end) [fd].
Proof. unfold statRegular. intros H. ledger_tac. Qed.

Lemma collectLoop_ledger fuel fd n o m sk es t a :
  exec (collectLoop fuel fd n o m sk es) t a -> ledger_is t [] [].
Proof.
  revert sk es t. induction fuel as [|fuel IH]; intros sk es t H; cbn [collectLoop] in H; [ledger_tac|].
  exec_step. destruct x as [batch err]. destruct (collectBatch o sk es batch) as [sk' es'].
  exec_if H; [ledger_tac|]. destruct err; [ledger_tac|]. apply IH in H. ledger_tac.
Qed.

Lemma collect_ledger fd n o m t a : exec (CollectDirEntries fd n o m) t a -> ledger_is t [] [].
Proof. unfold CollectDirEntries. intros H. exec_step. apply collectLoop_ledger in H0. ledger_tac. Qed.

Lemma writeSync_ledger fd data t a : exec (writeAndTruncateSync fd data) t a -> ledger_is t [] [fd].
Proof.
  unfold writeAndTruncateSync. intros H. apply exec_bind_inv in H as (t1 & r & t2 & -> & H1 & H).
  assert (ledger_is t1 [] []) as Ht1.
  { unfold writeChunkedCancellable in H1. revert H1. generalize (chunksOf (length data) writeRegularFileChunkBytes data).
    generalize false as any. intros any chunks. revert any t1.
    induction chunks as [|c cs IH]; intros any t1 H1; cbn [writeChunks] in H1; [ledger_tac|].
    exec_step. destruct x; [ledger_tac|]. exec_step. destruct x as [n [e|]]; [ledger_tac|].
    apply IH in H1. ledger_tac. }
  clear H1. destruct r as [any [e|]]; apply exec_bind_inv in H as (t3 & r & t4 & -> & H3 & H); [|exec_step];
    exec_step; ledger_tac.
Qed.

(** Replaces every execution of a known operation by its ledger. *)
Ltac ledger_facts :=
  repeat match goal with
  | Hwf : sandbox_wf ?s, H : exec (resolveFollowingSymlinks ?s _ _) _ _ |- _ =>
      apply (follow_ledger _ _ _ _ _ Hwf) in H
  | Hwf : sandbox_wf ?s, H : exec (resolveRootFollowingSymlinks ?s _ _) _ _ |- _ =>
      apply (followRoot_ledger _ _ _ _ _ Hwf) in H
  | Hwf : sandbox_wf ?s, H : exec (resolveWriteTarget ?s _) _ _ |- _ =>
      apply (modeChecked_ledger _ _ _ _ _ Hwf) in H
  | Hwf : sandbox_wf ?s, H : exec (resolveRemoveTarget ?s _) _ _ |- _ =>
      apply (modeChecked_ledger _ _ _ _ _ Hwf) in H
  | H : exec (accessCheck _ _ _ _ _) _ _ |- _ => apply accessCheck_ledger in H
  | H : exec (openReadFile _ _ _ _) _ _ |- _ => apply openReadFile_ledger in H
  | H : exec (openWriteFile _ _ _ _) _ _ |- _ => apply openWriteFile_ledger in H
  | H : exec (verifyOpened _ _ _) _ _ |- _ => apply verifyOpened_ledger in H
  | H : exec (statRegular _ _ _) _ _ |- _ => apply statRegular_ledger in H
  | H : exec (CollectDirEntries _ _ _ _) _ _ |- _ => apply collect_ledger in H
  | H : exec (writeAndTruncateSync _ _) _ _ |- _ => apply writeSync_ledger in H
  | H : exec (Unlink _ _) _ _ |- _ => apply Unlink_ledger in H
  | H : exec (rejectSymlinkPathComponents _ _ _) _ _ |- _ => apply reject_ledger in H
  | H : exec (rejectSymlinkPathPrefix _ _) _ _ |- _ => apply reject_ledger in H
  end.

Ltac ledger_op :=
  repeat exec_step; ledger_facts; ledger_tac;
  repeat match goal with
  | r : (error + _)%type |- _ => destruct r
  | |- context [match ?r with inl _ => _ | inr _ => _ end] => destruct r
  end;
  cbn [handed] in *; rewrite ?occ_nil in *; lia.

Lemma Stat_ledger s path cwd t a : sandbox_wf s -> exec (Stat s path cwd) t a -> ledger_is t [] [].
Proof. intros Hwf H. unfold Stat in H. ledger_op. Qed.

Lemma Lstat_ledger s path cwd t a : sandbox_wf s -> exec (Lstat s path cwd) t a -> ledger_is t [] [].
Proof. intros Hwf H. unfold Lstat in H. ledger_op. Qed.

Lemma Readlink_ledger s path cwd t a : sandbox_wf s -> exec (Readlink s path cwd) t a -> ledger_is t [] [].
Proof. intros Hwf H. unfold Readlink in H. ledger_op. Qed.

Lemma Access_ledger s path cwd mode t a : sandbox_wf s -> exec (Access s path cwd mode) t a -> ledger_is t [] [].
Proof. intros Hwf H. unfold Access in H. ledger_op. Qed.

Lemma Open_ledger s path cwd flag perm t a :
  sandbox_wf s -> exec (Open s path cwd flag perm) t a -> ledger_is t (handed a) [].
Proof.
  intros Hwf H. unfold Open in H. destruct s as [sb|]; [|ledger_tac]. exec_if H; [ledger_tac|].
  exec_if H; [ledger_tac|]. cbv zeta in H. destruct (has flag writeOpenFlags); cbn [negb] in H; ledger_op.
Qed.

Lemma openRegular_ledger s path cwd t a :
  sandbox_wf s -> exec (openRegular s path cwd) t a -> ledger_is t (handed a) [].
Proof.
  intros Hwf H. unfold openRegular in H. destruct s as [sb|]; [|ledger_tac].
  apply exec_bind_inv in H as (t1 & st & t2 & -> & H1 & H). apply Stat_ledger in H1; [|done]. ledger_op.
Qed.

Lemma fallback_ledger s h rel p t a :
  sandbox_wf s -> exec (openWithSymlinkFallback s h rel p) t a -> ledger_is t (handed a) [].
Proof. intros Hwf H. unfold openWithSymlinkFallback in H. ledger_op. Qed.

(** The operations on a directory open it, use it and close it. *)
Ltac dir_op Hwf :=
  repeat exec_step;
  repeat match goal with
  | H : exec (openWithSymlinkFallback _ _ _ _) _ _ |- _ => apply (fallback_ledger _ _ _ _ _ _ Hwf) in H
  end; ledger_op.

Lemma readDirN_ledger s path cwd n t a : sandbox_wf s -> exec (readDirN s path cwd n) t a -> ledger_is t [] [].
Proof. intros Hwf H. unfold readDirN in H. dir_op Hwf. Qed.

Lemma OpenDir_ledger s path cwd t a : sandbox_wf s -> exec (OpenDir s path cwd) t a -> ledger_is t (handed a) [].
Proof. intros Hwf H. unfold OpenDir in H. dir_op Hwf. Qed.

Lemma IsDirEmpty_ledger s path cwd t a : sandbox_wf s -> exec (IsDirEmpty s path cwd) t a -> ledger_is t [] [].
Proof. intros Hwf H. unfold IsDirEmpty in H. dir_op Hwf. Qed.

Lemma ReadDirLimited_ledger s path cwd o m t a :
  sandbox_wf s -> exec (ReadDirLimited s path cwd o m) t a -> ledger_is t [] [].
Proof. intros Hwf H. unfold ReadDirLimited in H. dir_op Hwf. Qed.

Lemma Truncate_ledger s path cwd n c t a : sandbox_wf s -> exec (Truncate s path cwd n c) t a -> ledger_is t [] [].
Proof. intros Hwf H. unfold Truncate in H. destruct s as [sb|]; [|ledger_tac]. ledger_op. Qed.

Lemma TruncateToZero_ledger s path cwd n d t a :
  sandbox_wf s -> exec (TruncateToZeroIfAtLeast s path cwd n d) t a -> ledger_is t [] [].
Proof. intros Hwf H. unfold TruncateToZeroIfAtLeast in H. destruct s as [sb|]; [|ledger_tac]. ledger_op. Qed.

Lemma acquire_ledger s path cwd x t a :
  sandbox_wf s -> exec (acquireWriteHandle s path cwd x) t a -> ledger_is t (handed a) [].
Proof. intros Hwf H. unfold acquireWriteHandle in H. ledger_op. Qed.

(** Whoever wins the race, the descriptor is handed on or closed. *)
Lemma race_ledger acquire t a :
  (forall t' a', exec acquire t' a' -> ledger_is t' (handed a') []) ->
  exec (raceAcquisitionAgainstContext acquire) t a -> ledger_is t (handed a) [].
Proof.
  intros Hacq H. unfold raceAcquisitionAgainstContext in H. exec_step. destruct x; cbn [negb] in H; [|ledger_tac].
  apply exec_bind_inv in H as (t1 & r & t2 & -> & H1 & H). apply Hacq in H1. exec_step.
  destruct x as [e|]; [destruct r as [e'|fd]|]; ledger_tac.
Qed.

Lemma writeBounded_ledger fd data t a : exec (writeAndTruncateBounded fd data) t a -> ledger_is t [] [fd].
Proof.
  unfold writeAndTruncateBounded. intros H. exec_step. destruct x; cbn [negb] in H; [|ledger_tac].
  apply exec_bind_inv in H as (t1 & r & t2 & -> & H1 & H). apply writeSync_ledger in H1. ledger_tac.
Qed.

Lemma WriteRegularFile_ledger s path cwd data i t a :
  sandbox_wf s -> exec (WriteRegularFile s path cwd data i) t a -> ledger_is t [] [].
Proof.
  intros Hwf H. unfold WriteRegularFile in H. destruct s as [sb|]; [|ledger_tac].
  exec_if H; [ledger_tac|]. exec_step. destruct x; [ledger_tac|].
  apply exec_bind_inv in H as (t1 & r & t2 & -> & H1 & H).
  apply race_ledger in H1; [|intros t' a'; by apply acquire_ledger].
  destruct r as [e|fd]; [ledger_tac|]. apply writeBounded_ledger in H. ledger_tac.
Qed.

Lemma Remove_ledger s path cwd t a : sandbox_wf s -> exec (Remove s path cwd) t a -> ledger_is t [] [].
Proof.
  intros Hwf H. unfold Remove in H. destruct s as [sb|]; [|ledger_tac]. exec_if H; [ledger_tac|]. cbv zeta in H.
  unfold removeFile in H. destruct (HasTrailingDirSyntax path); ledger_op.
Qed.

Lemma CheckPath_ledger s path cwd op t a : sandbox_wf s -> exec (CheckPath s path cwd op) t a -> ledger_is t [] [].
Proof.
  intros Hwf H. unfold CheckPath in H. cbv zeta in H. exec_if H; [ledger_tac|].
  destruct s as [sb|]; [|ledger_tac]. exec_if H; [ledger_op|]. exec_if H; [ledger_tac|].
  exec_if H; [ledger_tac|]. destruct (bytes_eqb op PathRemove); ledger_op.
Qed.

Lemma serve_ledger s path cwd q t fds : sandbox_wf s -> exec (serve s path cwd q) t fds -> ledger_is t fds [].
Proof.
  intros Hwf H. destruct q; unfold serve, nothing in H;
    apply exec_bind_inv in H as (t1 & r & t2 & -> & H & H2); exec_step; rewrite app_nil_r.
  all: first
    [ solve [eapply Open_ledger; eassumption] | solve [eapply openRegular_ledger; eassumption]
    | solve [eapply OpenDir_ledger; eassumption] | solve [eapply Access_ledger; eassumption]
    | solve [eapply Truncate_ledger; eassumption] | solve [eapply TruncateToZero_ledger; eassumption]
    | solve [eapply WriteRegularFile_ledger; eassumption] | solve [eapply Remove_ledger; eassumption]
    | solve [eapply readDirN_ledger; eassumption] | solve [eapply IsDirEmpty_ledger; eassumption]
    | solve [eapply ReadDirLimited_ledger; eassumption] | solve [eapply Stat_ledger; eassumption]
    | solve [eapply Lstat_ledger; eassumption] | solve [eapply Readlink_ledger; eassumption]
    | solve [eapply CheckPath_ledger; eassumption] ].
Qed.

(** C40. No descriptor leaks and none is closed twice: in every execution of every
    operation, error paths and lost races included, the descriptors opened are,
    counted with multiplicity, those closed together with those handed to the
    caller. *)
Theorem no_descriptor_leak s path cwd q t fds :
  sandbox_wf s -> exec (serve s path cwd q) t fds -> Permutation (opened t) (closed t ++ fds).
Proof.
  intros Hwf H. apply serve_ledger in H; [|done]. apply (Permutation_count_occ Nat.eq_dec). intros x.
  specialize (H x). unfold ledger, occ in H. rewrite count_occ_app. cbn [count_occ] in H. lia.
Qed.

(** * Bounds on symlink resolution *)

Definition isReadlink (e : event) : bool := match projT1 e with OpReadlink _ _ => true | _ => false end.
Fixpoint readlinks (t : list event) : nat :=
  match t with [] => 0 | e :: t => (if isReadlink e then 1 else 0) + readlinks t end.

Lemma readlinks_app t1 t2 : readlinks (t1 ++ t2) = readlinks t1 + readlinks t2.
Proof. induction t1 as [|e t1 IH]; cbn [app readlinks]; lia. Qed.

Lemma walk_readlinks s ar p pl done todo t w :
  exec (walkComponents s ar p pl done todo) t w ->
  readlinks t <= 1 /\ (w = WNoSymlink \/ w = WStop -> readlinks t = 0).
Proof.
  revert done t. induction todo as [|c rest IH]; intros done t H; cbn [walkComponents] in H; [exec_step; cbn; lia|].
  exec_if H; [by eapply IH|]. exec_if H; [exec_step; cbn; lia|]. cbv zeta in H. exec_step.
  destruct x as [e|i]; [exec_step; cbn; lia|]. exec_if H.
  - apply IH in H as [H1 H2]. cbn. done.
  - exec_step. destruct x; exec_step; cbn; (split; [lia|]); by intros [?|?].
Qed.

Lemma hops_readlinks s n pl p t a :
  exec (resolveHops s n pl p) t a -> readlinks t <= n /\ (a <> None -> readlinks t < n).
Proof.
  revert p t. induction n as [|n IH]; intros p t H; cbn [resolveHops] in H; [exec_step; cbn; split; [lia|done]|].
  destruct (resolve s p) as [[ar rel]|]; [|exec_step; cbn; split; [lia|done]].
  apply exec_bind_inv in H as (t1 & w & t2 & -> & H1 & H). apply walk_readlinks in H1 as [Hle Hz].
  rewrite readlinks_app. destruct w.
  - exec_step. rewrite Hz by auto. cbn. lia.
  - exec_step. rewrite Hz by auto. cbn. lia.
  - exec_step. cbn. split; [lia|done].
  - apply IH in H as [H1 H2]. split; [lia|]. intros Ha. specialize (H2 Ha). lia.
Qed.

(** Symlink resolution across roots ends: in any filesystem, circular links
    included, it reads at most [maxSymlinkHops + 1] links, and when it succeeds
    it followed at most [maxSymlinkHops] of them. *)
Theorem symlink_hops_bounded s p pl t a :
  exec (resolveRootFollowingSymlinks s p pl) t a ->
  readlinks t <= maxSymlinkHops + 1 /\ (a <> None -> readlinks t <= maxSymlinkHops).
Proof. intros H. apply hops_readlinks in H as [H1 H2]. split; [done|]. intros Ha. specialize (H2 Ha). lia. Qed.

(** * Rewriting a file *)

Definition payload (e : event) : bytes := match projT1 e with OpWrite _ d => d | _ => [] end.
Definition written (t : list event) : bytes := mjoin (payload <$> t).

(** The event put bytes into the file or changed its length. *)
Definition landed (e : event) : bool :=
  let 'existT c r := e in
  match c return ans c -> bool with
  | OpWrite _ _ => fun r => 0 <? fst r
  | OpTruncate _ _ => fun r => match r with inr _ => true | inl _ => false end
  | _ => fun _ => false
  end r.

Lemma written_app t1 t2 : written (t1 ++ t2) = written t1 ++ written t2.
Proof. unfold written. by rewrite fmap_app, join_app. Qed.

Lemma written_cons e t : written (e :: t) = payload e ++ written t.
Proof. done. Qed.

Lemma chunks_join fuel n data : 0 < n -> length data <= fuel -> mjoin (chunksOf fuel n data) = data.
Proof.
  intros Hn. revert data. induction fuel as [|fuel IH]; intros data Hl; cbn [chunksOf].
  - by destruct data; [|cbn in Hl; lia].
  - destruct data as [|c data]; [done|]. change (mjoin (?x :: ?l)) with (x ++ mjoin l).
    rewrite IH, take_drop; [done|]. rewrite length_drop. cbn in *. lia.
Qed.

Lemma writeChunks_exec fd any chunks t any' err :
  exec (writeChunks fd any chunks) t (any', err) ->
  any' = any || existsb landed t /\ (err = None -> written t = mjoin chunks).
Proof.
  revert any t. induction chunks as [|c chunks IH]; intros any t H; cbn [writeChunks] in H.
  { apply exec_done_inv in H as [-> [= -> ->]]. cbn. rewrite orb_false_r. done. }
  exec_step. destruct x as [e|].
  { apply exec_done_inv in H as [-> [= -> ->]]. cbn. rewrite orb_false_r. done. }
  exec_step. cbv zeta in H. destruct x as [n werr]. destruct werr as [e|].
  { apply exec_done_inv in H as [-> [= -> ->]]. cbn. rewrite orb_false_r. done. }
  apply IH in H as [-> Hw]. split.
  - cbn [existsb landed ev fst]. by rewrite orb_false_l, orb_assoc.
  - intros He. rewrite !written_cons. by rewrite (Hw He).
Qed.

(** The report of a rewrite is exact: [mutated] is true exactly when some byte
    landed in the file or its length was set, whether or not the rewrite then
    failed; and when it succeeds, the chunks written in order are the data and
    the file was cut to its length. *)
Theorem rewrite_reports_exactly fd data t mutated err :
  exec (writeAndTruncateSync fd data) t (mutated, err) ->
  mutated = existsb landed t /\
  (err = None -> written t = data /\ ev (OpTruncate fd (Z.of_nat (length data))) (inr tt) ∈ t).
Proof.
  intros H. unfold writeAndTruncateSync in H. apply exec_bind_inv in H as (t1 & [any werr] & t2 & -> & H1 & H).
  unfold writeChunkedCancellable in H1. apply writeChunks_exec in H1 as [-> Hw]. cbn [orb] in H.
  rewrite chunks_join in Hw by (unfold writeRegularFileChunkBytes; lia).
  rewrite existsb_app, written_app. apply exec_bind_inv in H as (t3 & we & t4 & -> & H3 & H).
  assert (existsb landed t3 = false /\ written t3 = [] /\ (we = None -> werr = None)) as (E3 & W3 & Hn).
  { destruct werr; repeat exec_step; done. }
  rewrite existsb_app, E3, written_app, W3. clear H3. destruct we as [e|].
  - exec_step. apply exec_done_inv in H as [-> [= -> ->]]. cbn. rewrite orb_false_r. done.
  - do 2 exec_step. apply exec_done_inv in H as [-> H]. destruct x as [e|[]]; injection H as -> ->; cbn.
    + rewrite orb_false_r. done.
    + rewrite orb_true_r, Hw, app_nil_r by auto. split; [done|]. intros _. split; [done|].
      rewrite !elem_of_app. right. right. left.
Qed.

(** * Reading a large directory *)

(** The names the directory delivered, in order. *)
Definition batch_of (e : event) : list bytes :=
  let 'existT c r := e in
  match c return ans c -> list bytes with OpReadDir _ _ => fun r => fst r | _ => fun _ => [] end r.
Definition delivered (t : list event) : list bytes := mjoin (batch_of <$> t).

Lemma delivered_cons e t : delivered (e :: t) = batch_of e ++ delivered t.
Proof. done. Qed.

Lemma collectBatch_spec offset seen batch :
  collectBatch offset (Nat.min offset (length seen)) (drop offset seen) batch =
  (Nat.min offset (length (seen ++ batch)), drop offset (seen ++ batch)).
Proof.
  revert seen. induction batch as [|e batch IH]; intros seen; cbn [collectBatch]; [by rewrite app_nil_r|].
  assert (length (seen ++ [e]) = S (length seen)) as Hl by (rewrite length_app; cbn; lia).
  replace (seen ++ e :: batch) with ((seen ++ [e]) ++ batch) by (by rewrite <- app_assoc).
  rewrite <- IH, Hl, drop_app.
  destruct (Nat.ltb_spec (Nat.min offset (length seen)) offset) as [Hlt|Hge].
  - rewrite (drop_ge seen offset) by lia. replace (offset - length seen) with (S (offset - length seen - 1)) by lia.
    cbn [drop app]. rewrite drop_nil. f_equal; lia.
  - replace (offset - length seen) with 0 by lia. cbn [drop]. f_equal; lia.
Qed.

Lemma collectLoop_spec fuel fd n offset maxRead seen t a :
  exec (collectLoop fuel fd n offset maxRead (Nat.min offset (length seen)) (drop offset seen)) t a ->
  (forall entries truncated err, a = Some (entries, truncated, err) ->
     entries = drop offset (seen ++ delivered t) /\ truncated = (maxRead <? length entries)) /\
  (a = None -> length seen < offset + maxRead + 1 ->
   Forall (fun e => batch_of e <> []) t -> length seen + fuel < offset + maxRead + 2).
Proof.
  revert seen t. induction fuel as [|fuel IH]; intros seen t H; cbn [collectLoop] in H.
  { exec_step. split; [done|]. intros _ ? _. lia. }
  exec_step. destruct x as [batch err]. rewrite collectBatch_spec in H.
  rewrite delivered_cons. cbn [batch_of ev fst].
  destruct (Nat.ltb_spec maxRead (length (drop offset (seen ++ batch)))) as [Hlt|Hle].
  { exec_step. split; [|done]. intros ? ? ? [= <- <- _]. rewrite app_nil_r. split; [done|].
    symmetry. by apply Nat.ltb_lt. }
  destruct err as [er|].
  { exec_step. split; [|done]. intros ? ? ? [= <- <- _]. rewrite app_nil_r. split; [done|].
    symmetry. by apply Nat.ltb_ge. }
  apply IH in H as [H1 H2]. rewrite app_assoc. split; [done|].
  intros Ha Hs Hne. inversion Hne as [|? ? Hb Hne']; subst. cbn in Hb. rewrite length_drop in Hle.
  rewrite length_app in *. assert (0 < length batch) by (destruct batch; [done|cbn; lia]).
  specialize (H2 eq_refl ltac:(lia) Hne'). lia.
Qed.

Lemma bytes_ltb_asym a b : bytes_ltb a b = true -> bytes_ltb b a = false.
Proof.
  revert b. induction a as [|x a IH]; intros [|y b]; cbn; try done.
  destruct (Z.ltb_spec (code x) (code y)), (Z.ltb_spec (code y) (code x)); try done; try lia. apply IH.
Qed.

Lemma bytes_ltb_trans a b c : bytes_ltb b a = false -> bytes_ltb c b = false -> bytes_ltb c a = false.
Proof.
  revert b c. induction a as [|x a IH]; intros [|y b] [|z c]; cbn; try done.
  destruct (Z.ltb_spec (code y) (code x)), (Z.ltb_spec (code x) (code y)), (Z.ltb_spec (code z) (code y)),
    (Z.ltb_spec (code y) (code z)), (Z.ltb_spec (code z) (code x)), (Z.ltb_spec (code x) (code z));
    try done; try lia; apply IH.
Qed.

#[export] Instance bytes_le_total : Total bytes_le.
Proof.
  intros a b. unfold bytes_le. destruct (bytes_ltb b a) eqn:E; [right|by left]. by apply bytes_ltb_asym.
Qed.

#[export] Instance bytes_le_trans : Transitive bytes_le.
Proof. intros a b c. apply bytes_ltb_trans. Qed.

(** Paging through a directory: the result is the first [maxRead] names, in
    sorted order, of what was read after skipping [offset] entries, it is flagged
    truncated exactly when more than [maxRead] were read, and reading stops (the
    fuel of the loop suffices) as long as the directory only delivers an empty
    batch together with an error or the end. *)
Theorem directory_page fd n offset maxRead t a :
  exec (CollectDirEntries fd n offset maxRead) t a ->
  let page := drop offset (delivered t) in
  (forall entries truncated err, a = Some (entries, truncated, err) ->
     entries = take maxRead (sortEntries page) /\ truncated = (maxRead <? length page) /\
     Sorted bytes_le (sortEntries page) /\ Permutation (sortEntries page) page) /\
  (Forall (fun e => batch_of e <> []) t -> a <> None).
Proof.
  intros H page. unfold CollectDirEntries in H. apply exec_bind_inv in H as (t1 & r & t2 & -> & H1 & H).
  exec_step. subst page. rewrite app_nil_r.
  destruct (collectLoop_spec _ _ _ offset maxRead [] _ _ ltac:(rewrite Nat.min_0_r, drop_nil; exact H1)) as [Hs Hf].
  assert (forall l, Permutation (sortEntries l) l) as Hperm by (intros; apply merge_sort_Permutation).
  split.
  - intros entries truncated err Ha. destruct r as [[[es tr] er]|]; [|done]. injection Ha as <- <- _.
    destruct (Hs es tr er eq_refl) as [He Ht]. cbn [app] in He.
    split; [|split; [by rewrite <- He|split; [apply Sorted_merge_sort, _|done]]].
    rewrite <- He. pose proof (Permutation_length (Hperm es)) as Hlen. rewrite Hlen, Ht.
    destruct (Nat.ltb_spec maxRead (length es)) as [?|?]; [done|].
    symmetry. change (take maxRead (sortEntries es) = sortEntries es). apply take_ge. rewrite Hlen. done.
  - intros Hne Ha. destruct r as [[[es tr] er]|]; [done|]. specialize (Hf eq_refl). cbn in Hf.
    specialize (Hf ltac:(lia) Hne). lia.
Qed.

(** * Construction *)

(** The working directory is reported as an absolute path. *)
Definition wd_absolute (t : list event) : Prop := forall wd, ev OpGetwd (inr wd) ∈ t -> IsAbs wd = true.

Lemma Clean_Join2 p r : IsAbs p = true -> Clean (Join [p; r]) = Join [p; r].
Proof. intros Hp. rewrite Join_two by (by apply abs_nonempty). apply Clean_idem. by apply IsAbs_app. Qed.

Lemma newRoot_spec p mode t ws r :
  wd_absolute t -> exec (newRoot p mode) t (ws, Some r) ->
  root_wf r /\ r_mode r = mode /\ (IsAbs p = true -> r_absPath r = Clean p).
Proof.
  intros Hwd H. unfold newRoot in H. apply exec_bind_inv in H as (t1 & abs & t2 & -> & H1 & H).
  destruct abs as [e|abs]; [apply exec_done_inv in H as [_ [=]]|].
  assert (IsAbs abs = true /\ Clean abs = abs /\ (IsAbs p = true -> abs = Clean p)) as (Ha & Hc & Hp).
  { unfold Abs in H1. destruct (IsAbs p) eqn:Ep.
    - apply exec_done_inv in H1 as [_ [= ->]]. rewrite IsAbs_Clean, Clean_idem by done. done.
    - apply exec_do_inv in H1 as (x & t' & -> & H1). apply exec_done_inv in H1 as [-> Hx]. destruct x as [|wd]; [done|].
      assert (abs = Join [wd; p]) as -> by congruence.
      assert (IsAbs wd = true) as Hw by (apply Hwd; set_solver).
      rewrite IsAbs_Join, Clean_Join2 by done. done. }
  clear H1. apply exec_do_inv in H as (x & t' & -> & H).
  destruct x as [e|h]; [apply exec_done_inv in H as [_ [=]]|]. cbv zeta in H.
  assert (forall e t0, ~ exec (Do (OpCloseRoot h) (fun _ => Done ([WSkip abs e], None))) t0 (ws, Some r)) as Habandon.
  { intros e t0 (x & t1' & -> & H')%exec_do_inv. apply exec_done_inv in H' as [_ [=]]. }
  apply exec_bind_inv in H as (t3 & can & t4 & -> & _ & H). destruct can as [e|can]; [by apply Habandon in H|].
  apply exec_do_inv in H as (i & t5 & -> & H). cbv beta in H. destruct i as [e|i]; [by apply Habandon in H|].
  destruct (bool_decide_reflect (mode = pathModeReadWrite)) as [->|Hm].
  - apply exec_do_inv in H as (w & t6 & -> & H). destruct w as [e|fd]; [by apply Habandon in H|].
    apply exec_done_inv in H as [_ [= _ ->]]. split; [|done]. repeat split; done.
  - apply exec_done_inv in H as [_ [= _ ->]]. split; [|done]. repeat split; try done. by intros [? [=]].
Qed.

Lemma wd_app t1 t2 : wd_absolute (t1 ++ t2) -> wd_absolute t1 /\ wd_absolute t2.
Proof. intros H. split; intros wd Hin; apply H, elem_of_app; auto. Qed.

(** The root comes from an entry of the list, with the mode its suffix declares. *)
Definition granted_by (paths : list bytes) (r : root) : Prop :=
  exists raw, raw ∈ paths /\ r_mode r = snd (parseAllowedPathMode raw) /\
    (IsAbs (fst (parseAllowedPathMode raw)) = true -> r_absPath r = Clean (fst (parseAllowedPathMode raw))).

Lemma newRoots_spec paths t ws rs :
  wd_absolute t -> exec (newRoots paths) t (ws, rs) -> Forall root_wf rs /\ Forall (granted_by paths) rs.
Proof.
  revert t ws rs. induction paths as [|raw paths IH]; intros t ws rs Hwd H; cbn [newRoots] in H.
  { apply exec_done_inv in H as [_ [= _ ->]]. by split. }
  destruct (splitAllowedPathMode raw) as [[p mode] suffix] eqn:Es.
  apply exec_bind_inv in H as (t1 & w1 & t2 & -> & _ & H). apply wd_app in Hwd as [_ Hwd].
  apply exec_bind_inv in H as (t3 & [ws2 r] & t4 & -> & H3 & H). apply wd_app in Hwd as [Hwd3 Hwd].
  apply exec_bind_inv in H as (t5 & [ws3 rest] & t6 & -> & H5 & H). apply wd_app in Hwd as [Hwd5 _].
  apply exec_done_inv in H as [_ [= _ ->]]. cbn [fst snd]. destruct (IH _ _ _ Hwd5 H5) as [Hw Hg].
  assert (Forall (granted_by (raw :: paths)) rest) as Hg'.
  { eapply Forall_impl; [exact Hg|]. intros r' (raw' & Hin & Hr). exists raw'. split; [by right|done]. }
  destruct r as [r|]; [|by split]. apply newRoot_spec in H3 as (Hr & Hm & Hp); [|done].
  split; constructor; try done. exists raw. split; [left|]. unfold parseAllowedPathMode. by rewrite Es.
Qed.

(** A new sandbox is well formed and closed: every root is a clean absolute
    path that comes from an entry of the list with the mode its suffix declares,
    it has a descriptor for writes exactly when it was granted read-write, and
    the sandbox starts read-only; making it writable or setting a host prefix
    keeps the roots well formed. *)
Theorem New_well_formed paths t sb ws prefix :
  wd_absolute t -> exec (New paths) t (sb, ws) ->
  readOnly sb = true /\ sandbox_wf (Some sb) /\ Forall (granted_by paths) (roots sb) /\
  sandbox_wf (Some (SetWritable (SetHostPrefix prefix sb))).
Proof.
  intros Hwd H. unfold New in H. apply exec_bind_inv in H as (t1 & [ws' rs] & t2 & -> & H1 & H).
  apply wd_app in Hwd as [Hwd _]. apply exec_done_inv in H as [_ [= -> ->]].
  apply newRoots_spec in H1 as [Hw Hg]; [|done]. done.
Qed.

(** * Dry runs *)

Definition no_truncation (t : list event) : Prop :=
  Forall (fun e => match projT1 e with OpTruncate _ _ => False | _ => True end) t.

Lemma no_truncation_app t1 t2 : no_truncation t1 -> no_truncation t2 -> no_truncation (t1 ++ t2).
Proof. intros. by apply Forall_app. Qed.

Lemma no_truncation_cons e t :
  match projT1 e with OpTruncate _ _ => False | _ => True end -> no_truncation t -> no_truncation (e :: t).
Proof. by constructor. Qed.

Lemma no_truncation_nil : no_truncation [].
Proof. constructor. Qed.

Lemma looking_no_truncation s t : looking s t -> no_truncation t.
Proof. intros H. eapply Forall_impl; [exact H|]. intros [c r]. by destruct c. Qed.

Ltac no_truncation_tac :=
  repeat exec_step; repeat first
    [ assumption | apply no_truncation_nil
    | apply no_truncation_app | apply no_truncation_cons; [exact I|] ].

Lemma closeDirIf_no_truncation {A} cl d (k : prog A) t a :
  exec (closeDirIf cl d k) t a -> exists pre t', t = pre ++ t' /\ exec k t' a /\ no_truncation pre.
Proof.
  intros H. apply closeDirIf_exec in H as (t' & H & [[_ ->]|[_ [r ->]]]).
  - exists [], t'. auto using no_truncation_nil.
  - exists [ev (OpClose d) r], t'. split; [done|]. split; [done|]. no_truncation_tac.
Qed.

Lemma walkDirs_no_truncation op rel d cl comps t a : exec (walkDirs op rel d cl comps) t a -> no_truncation t.
Proof.
  revert d cl t. induction comps as [|c comps IH]; intros d cl t H; cbn [walkDirs] in H; [no_truncation_tac|].
  exec_if H; [by eapply IH|]. exec_if H.
  - apply closeDirIf_no_truncation in H as (pre & t' & -> & H & ?). no_truncation_tac.
  - exec_step. apply closeDirIf_no_truncation in H as (pre & t' & -> & H & ?).
    assert (no_truncation t') by (destruct x; [no_truncation_tac|by eapply IH]). no_truncation_tac.
Qed.

Lemma OpenFile_no_truncation w rel flag perm t a : exec (OpenFile w rel flag perm) t a -> no_truncation t.
Proof.
  unfold OpenFile. intros H. destruct w as [w|]; [|no_truncation_tac]. exec_if H; [no_truncation_tac|].
  destruct (dirsAndBase (Clean rel)) as [dirs base]. apply exec_bind_inv in H as (t1 & r & t2 & -> & H1 & H).
  apply walkDirs_no_truncation in H1. destruct r as [e|[d cl]]; [no_truncation_tac|]. exec_if H.
  - apply closeDirIf_no_truncation in H as (pre & t' & -> & H & ?). no_truncation_tac.
  - exec_step. apply closeDirIf_no_truncation in H as (pre & t' & -> & H & ?). no_truncation_tac.
Qed.

Lemma openWriteFile_no_truncation s abs ar tl flag perm t a :
  sandbox_wf s -> writable_target s abs ar tl -> has flag O_TRUNC = false ->
  exec (openWriteFile ar (inner_rel tl) flag perm) t a -> no_truncation t.
Proof.
  intros Hwf Hw Hf H. unfold openWriteFile in H. apply exec_bind_inv in H as (t1 & rej & t2 & -> & H1 & H).
  eapply (reject_looking s) in H1; [|by eapply writable_in|].
  2:{ destruct Hw as (_ & _ & _ & _ & _ & Hv). exists tl. split; [by apply Clean_inner|done]. }
  apply looking_no_truncation in H1. destruct rej; [no_truncation_tac|]. cbv zeta in H. rewrite Hf in H. cbn [andb] in H.
  apply exec_bind_inv in H as (t3 & r & t4 & -> & H3 & H). apply OpenFile_no_truncation in H3.
  unfold checkWriteTargetLinks in H. destruct r; no_truncation_tac.
Qed.

(** A dry run of log truncation touches nothing and predicts the run: it
    never truncates, and it reports a size as one it would cut only when that
    size is not zero, is at least the threshold, and is what [fstat] of the
    opened target said of a regular file. *)
Theorem dry_run_only_looks s path cwd minSize t size would err :
  sandbox_wf s -> exec (TruncateToZeroIfAtLeast s path cwd minSize true) t (size, would, err) ->
  no_truncation t /\
  (would = true -> (minSize <= size)%Z /\ size <> 0%Z /\ err = None /\
     exists fd info, ev (OpFStat fd) (inr info) ∈ t /\ isRegular info = true /\ fi_size info = size).
Proof.
  intros Hwf H. unfold TruncateToZeroIfAtLeast in H.
  assert (forall e t0, exec (Done (0%Z, false, Some e)) t0 (size, would, err) -> t0 = [] /\ would = false) as Hno.
  { intros e t0 H0. by apply exec_done_inv in H0 as [-> [= _ -> _]]. }
  destruct s as [sb|]; [|apply Hno in H as [-> ->]; by split; [apply no_truncation_nil|]].
  destruct (readOnly sb) eqn:Ero; [apply Hno in H as [-> ->]; by split; [apply no_truncation_nil|]|].
  exec_if H; [apply Hno in H as [-> ->]; by split; [apply no_truncation_nil|]|]. cbv zeta in H.
  apply exec_bind_inv in H as (t1 & tg & t2 & -> & H1 & H).
  eapply (modeChecked_ok sb Hwf Ero) with (h := []) in H1 as Hok. destruct Hok as [_ Htg].
  apply modeChecked_looking in H1 as [Hl _]; [|done]. apply looking_no_truncation in Hl.
  destruct tg as [[ar rel]|]; [|apply Hno in H as [-> ->]; rewrite app_nil_r; by split].
  destruct (Htg _ _ eq_refl) as (tl & -> & Hw). apply exec_bind_inv in H as (t3 & r & t4 & -> & H3 & H).
  eapply openWriteFile_no_truncation in H3; [|done..].
  destruct r as [e|fd]; [apply Hno in H as [-> ->]; rewrite app_nil_r; split; [no_truncation_tac|done]|].
  apply exec_bind_inv in H as (t5 & st & t6 & -> & H5 & H).
  unfold statRegular in H5. apply exec_do_inv in H5 as (x & t7 & -> & H5). cbv beta in H5.
  destruct st as [e|info].
  { apply Hno in H as [-> ->]. split; [|done]. destruct x as [|i]; no_truncation_tac. }
  destruct x as [e|i]; [apply exec_do_inv in H5 as (? & ? & _ & H5); by apply exec_done_inv in H5 as [_ [=]]|].
  destruct (isRegular i) eqn:Ei; cbn [negb] in H5;
    [|apply exec_do_inv in H5 as (? & ? & _ & H5); by apply exec_done_inv in H5 as [_ [=]]].
  apply exec_done_inv in H5 as [-> [= ->]].
  destruct (Z.ltb_spec (fi_size i) minSize).
  { apply exec_do_inv in H as (? & ? & -> & H). apply exec_done_inv in H as [-> [= -> -> ->]].
    split; [no_truncation_tac|done]. }
  destruct (Z.eqb_spec (fi_size i) 0).
  { apply exec_do_inv in H as (? & ? & -> & H). apply exec_done_inv in H as [-> [= -> -> ->]].
    split; [no_truncation_tac|done]. }
  apply exec_do_inv in H as (? & ? & -> & H). apply exec_done_inv in H as [-> [= -> -> ->]].
  split; [no_truncation_tac|]. intros _. split; [done|]. split; [done|]. split; [done|].
  exists fd, i. split; [|done]. rewrite !elem_of_app. right. right. left. apply list_elem_of_singleton. done.
Qed.

(** * A concrete filesystem

    One read-write root, [/data] (handle 7, descriptor 3), in a writable sandbox,
    and a filesystem in which every name is a regular file of ten bytes with one
    link, except that [Lstat] of [log] is a directory. *)

Definition demo_file := mkInfo 420 10 1 (Some (mkStat 0 0 1)).
Definition demo_dir := mkInfo (Z.lor ModeDir 493) 0 2 (Some (mkStat 0 0 2)).

Definition demo_env (c : sys) : ans c :=
  match c return ans c with
  | OpLstat _ p => inr (if p =s "log" then demo_dir else demo_file)
  | OpStat _ p => inr (if (p =s ".") || (p =s "log") then demo_dir else demo_file)
  | OpReadlink _ _ => inl (PlainError EINVAL)
  | OpOpenFile _ p _ _ => inr 9
  | OpOpenat _ _ flag _ => inr (if (flag =? dirFlags)%Z then 4 else 5)
  | OpFstatat _ _ _ => inr 33188%Z
  | OpUnlinkat _ _ => inr tt
  | OpFStat _ => inr demo_file
  | OpSetBlocking _ => inr tt
  | OpTruncate _ _ => inr tt
  | OpWrite _ d => (length d, None)
  | OpReadDir _ _ => ([lit "b"; lit "c"; lit "a"], Some (true, PlainError EINVAL))
  | OpClose _ => inr tt
  | OpStatDevNull => inl (PlainError EINVAL)
  | OpGetids => (0%Z, 0%Z, None)
  | OpCtxErr => None
  | OpSlotAcquire => true
  | OpSlotRelease => tt
  | OpRace => None
  | OpGetwd => inr (lit "/home")
  | OpLstatPath _ => inl (PlainError EINVAL)
  | OpStatPath _ => inr demo_dir
  | OpEvalSymlinks p => inr p
  | OpOpenRoot _ => inr 7
  | OpCloseRoot _ => inr tt
  end.

Definition demo_root (m : pathMode) : root :=
  mkRoot (lit "/data") (lit "/data") m 7
    (match m with pathModeReadWrite => Some 3 | pathModeReadOnly => None end) (Some demo_dir).
Definition demo_sandbox : option Sandbox := Some (mkSandbox [demo_root pathModeReadWrite] [] false).
Definition demo_trace (q : request) : list event := trace_of demo_env (serve demo_sandbox (lit "log/a") (lit "/data") q).

Lemma demo_wf : sandbox_wf demo_sandbox.
Proof. constructor; [|constructor]. split; [reflexivity|]. split; [reflexivity|]. split; [done|]. intros _. by exists 3. Qed.

Lemma demo_exec q : exec (serve demo_sandbox (lit "log/a") (lit "/data") q) (demo_trace q)
  (run demo_env (serve demo_sandbox (lit "log/a") (lit "/data") q)).
Proof. apply exec_run. Qed.

(** Splits a trace at a position. *)
Lemma cut_trace n (t : list event) e :
  t !! n = Some e -> take n t ++ e :: drop (S n) t = t.
Proof. apply take_drop_middle. Qed.

Definition demo_truncate := RTruncate 3 false.

Lemma demo_at q n e :
  demo_trace q !! n = Some e ->
  exec (serve demo_sandbox (lit "log/a") (lit "/data") q) (take n (demo_trace q) ++ e :: drop (S n) (demo_trace q))
    (run demo_env (serve demo_sandbox (lit "log/a") (lit "/data") q)).
Proof. intros He. rewrite cut_trace by done. apply demo_exec. Qed.

(** Every answer of a trace is that of its environment. *)
Lemma trace_of_answers {A} env (p : prog A) e : e ∈ trace_of env p -> e = ev (projT1 e) (env (projT1 e)).
Proof.
  induction p as [|c k IH]; cbn; [by intros ?%elem_of_nil|]. intros [->|H]%elem_of_cons; [done|by eapply IH].
Qed.

Lemma demo_stable q : types_stable (demo_trace q).
Proof.
  intros fd i1 i2 H1 H2. apply trace_of_answers in H1, H2. cbn in H1, H2.
  apply Eqdep_dec.inj_pair2_eq_dec in H1, H2; [|solve_decision..]. congruence.
Qed.

Lemma reads_confined_witness : in_root demo_sandbox 7 (lit "log").
Proof.
  exact (reads_confined _ _ _ demo_truncate _ _ _ _ demo_wf
    (demo_at demo_truncate 0 (ev (OpLstat 7 (lit "log")) (inr demo_dir)) ltac:(vm_compute; reflexivity))).
Defined.

Lemma writes_confined_witness :
  authorised demo_sandbox (lit "/data/log/a") (take 5 (demo_trace demo_truncate)) 4 (lit "a").
Proof.
  exact (proj2 (writes_confined _ (lit "log/a") (lit "/data") demo_truncate _ _ _ _ demo_wf
    (demo_at demo_truncate 5 (ev (OpOpenat 4 (lit "a") 657409 438) (inr 5)) ltac:(vm_compute; reflexivity))
    ltac:(vm_compute; reflexivity))).
Defined.

Definition demo_read_only : option Sandbox := Some (mkSandbox [demo_root pathModeReadWrite] [] true).

Lemma read_only_never_mutates_witness :
  Forall (fun e => mutating (projT1 e) = false)
    (trace_of demo_env (serve demo_read_only (lit "log/a") (lit "/data") (ROpen O_RDONLY 0))).
Proof.
  exact (read_only_never_mutates demo_read_only _ _ _ _ _ demo_wf ltac:(reflexivity)
    (exec_run demo_env (serve demo_read_only (lit "log/a") (lit "/data") (ROpen O_RDONLY 0)))).
Defined.

Lemma writes_checked_witness :
  exists info, ev (OpFStat 5) (inr info) ∈ take 9 (demo_trace demo_truncate) /\ isRegular info = true /\ single_link info.
Proof.
  refine (writes_checked demo_sandbox (lit "log/a") (lit "/data") demo_truncate _ _ _ _ 5 demo_wf
    (demo_at demo_truncate 9 (ev (OpTruncate 5 3) (inr tt)) ltac:(vm_compute; reflexivity)) _ _).
  - rewrite cut_trace by (vm_compute; reflexivity). apply demo_stable.
  - left. by exists 3%Z.
Defined.

Lemma no_descriptor_leak_witness :
  Permutation (opened (demo_trace demo_truncate)) (closed (demo_trace demo_truncate) ++ []) /\
  opened (demo_trace demo_truncate) = [4; 5].
Proof.
  split; [|vm_compute; reflexivity].
  exact (no_descriptor_leak _ _ _ _ _ _ demo_wf (demo_exec demo_truncate)).
Defined.

Lemma symlink_hops_bounded_witness :
  readlinks (trace_of demo_env (resolveRootFollowingSymlinks demo_sandbox (lit "/data/log/a") false)) <= maxSymlinkHops.
Proof.
  refine (proj2 (symlink_hops_bounded demo_sandbox (lit "/data/log/a") false _ _ (exec_run demo_env _)) _).
  intros E. vm_compute in E. discriminate.
Defined.

Lemma rewrite_reports_exactly_witness :
  written (trace_of demo_env (writeAndTruncateSync 5 (lit "hello"))) = lit "hello".
Proof.
  exact (proj1 (proj2 (rewrite_reports_exactly 5 (lit "hello") _ true None
    (exec_run demo_env (writeAndTruncateSync 5 (lit "hello")))) eq_refl)).
Defined.

Lemma directory_page_witness :
  let t := trace_of demo_env (CollectDirEntries 9 256 1 1) in
  take 1 (sortEntries (drop 1 (delivered t))) = [lit "a"].
Proof.
  intros t. symmetry.
  exact (proj1 (proj1 (directory_page 9 256 1 1 _ _ (exec_run demo_env (CollectDirEntries 9 256 1 1)))
    [lit "a"] true None ltac:(vm_compute; reflexivity))).
Defined.

Definition demo_new := New [lit "/data:rw"; lit "logs"].

Lemma New_well_formed_witness :
  sandbox_wf (Some (fst (run demo_env demo_new))) /\ Paths (Some (fst (run demo_env demo_new))) = [lit "/data"; lit "/home/logs"].
Proof.
  split; [|vm_compute; reflexivity].
  refine (proj1 (proj2 (New_well_formed [lit "/data:rw"; lit "logs"] (trace_of demo_env demo_new) _
    (snd (run demo_env demo_new)) [] _ _))).
  - intros wd H. apply trace_of_answers in H. cbn in H.
    apply Eqdep_dec.inj_pair2_eq_dec in H; [|solve_decision]. injection H as ->. reflexivity.
  - rewrite <- surjective_pairing. apply exec_run.
Defined.

Lemma dry_run_only_looks_witness :
  no_truncation (trace_of demo_env (TruncateToZeroIfAtLeast demo_sandbox (lit "log/a") (lit "/data") 4 true)).
Proof.
  exact (proj1 (dry_run_only_looks demo_sandbox (lit "log/a") (lit "/data") 4 _ 10 true None demo_wf
    (exec_run demo_env (TruncateToZeroIfAtLeast demo_sandbox (lit "log/a") (lit "/data") 4 true)))).
Defined.

End SandboxSafety.
