(* ===== verification/TestCmd.v ===== *)
(** * The [test] and [[] builtins: [builtins/testcmd/testcmd.go]

    The recursive-descent parser that evaluates while it parses.  The parser
    object is a record threaded through the calls; an index out of range in
    [args] is the outcome [Panic]; recursion runs on fuel, and running out of it
    is an outcome of its own. *)

From S2P Require Import Prelude GoStd.
From stdpp Require Import base list strings.
From Stdlib Require Import ZArith Lia Ascii.
Import GoStd.

Module TestCmd.

(** What [StatFile] and [LstatFile] say of a file; times are instants. *)
Record tinfo := mkTInfo { ti_mode : Z; ti_size : Z; ti_mtime : Z }.

(** The part of the call context the command uses: the file callbacks, each nil
    or a function ([None] is an error), and the n-th answer of [ctx.Err()]. *)
Record callContext := mkCtx {
  AccessFile : option (bytes -> Z -> bool);
  StatFile : option (bytes -> option tinfo);
  LstatFile : option (bytes -> option tinfo);
  ctxDone : nat -> bool }.

(** The diagnostics, with the operand that is quoted in the text. *)
Inductive message :=
| MMissingBracket
| MTooManyArguments
| MTooDeep
| MMissingArgument
| MMissingParen
| MUnaryExpected (op : bytes)
| MMissingAfter (op : bytes)
| MUnknownBinary (op : bytes)
| MIntegerExpected (s : bytes).

(** ** The parser *)

Record parser := mkParser {
  args : list bytes;
  pos : nat;
  err : bool;
  depth : nat;
  subexprStart : nat;
  subexprEnd : nat;
  polls : nat;               (* how often ctx.Err() was asked *)
  stderr : list message }.

Definition set_pos (x : nat) (p : parser) : parser :=
  mkParser (args p) x (err p) (depth p) (subexprStart p) (subexprEnd p) (polls p) (stderr p).
Definition set_depth (x : nat) (p : parser) : parser :=
  mkParser (args p) (pos p) (err p) x (subexprStart p) (subexprEnd p) (polls p) (stderr p).
Definition set_start (x : nat) (p : parser) : parser :=
  mkParser (args p) (pos p) (err p) (depth p) x (subexprEnd p) (polls p) (stderr p).
Definition set_end (x : nat) (p : parser) : parser :=
  mkParser (args p) (pos p) (err p) (depth p) (subexprStart p) x (polls p) (stderr p).
Definition set_polls (x : nat) (p : parser) : parser :=
  mkParser (args p) (pos p) (err p) (depth p) (subexprStart p) (subexprEnd p) x (stderr p).

(** [p.callCtx.Errf(...)] followed by [p.err = true]. *)
Definition fail (m : message) (p : parser) : parser :=
  mkParser (args p) (pos p) true (depth p) (subexprStart p) (subexprEnd p) (polls p) (stderr p ++ [m]).

Inductive outcome (A : Type) :=
| Ret (a : A) (p : parser)
| Panic
| NoFuel.
Arguments Ret {A} a p.
Arguments Panic {A}.
Arguments NoFuel {A}.

Definition obind {A B} (o : outcome A) (f : A -> parser -> outcome B) : outcome B :=
  match o with Ret a p => f a p | Panic => Panic | NoFuel => NoFuel end.

Notation "'let*' ( a , p ) := o 'in' f" := (obind o (fun a p => f))
  (at level 10, a name, p name, o at level 100, f at level 200) : go_scope.

Definition maxParenDepth : nat := Z.to_nat 128.

Definition len (p : parser) : nat := length (args p).

(** [p.args[i]]; [None] is an index out of range. *)
Definition arg (p : parser) (i : nat) : option bytes := args p !! i.

Definition peek (p : parser) : bytes :=
  match arg p (pos p) with None => [] | Some s => s end.

Definition advance (p : parser) : outcome bytes :=
  match arg p (pos p) with
  | None => Panic
  | Some s => Ret s (set_pos (S (pos p)) p)
  end.

(** ** Operators *)

Definition isBinaryOp (op : bytes) : bool :=
  str_in op ["="; "=="; "!="; "<"; ">"; "-eq"; "-ne"; "-lt"; "-le"; "-gt"; "-ge"; "-nt"; "-ot"]%string.

Definition isBinaryOpOrLogical (op : bytes) : bool :=
  isBinaryOp op || (op =s "-a") || (op =s "-o").

Definition isUnaryFileOp (op : bytes) : bool :=
  str_in op ["-a"; "-e"; "-f"; "-d"; "-s"; "-r"; "-w"; "-x"; "-h"; "-L"; "-p"]%string.

Definition subexprLen (p : parser) : Z := (Z.of_nat (subexprEnd p) - Z.of_nat (subexprStart p))%Z.

Definition isThreeArgBinary (p : parser) (pos : nat) : bool :=
  (subexprLen p =? 3)%Z &&
  match arg p (pos + 1) with Some op => isBinaryOpOrLogical op | None => false end.

(** The loop of [findMatchingParen] over [args[start:]]. *)
Fixpoint matchParen (depth i : nat) (rest : list bytes) : option nat :=
  match rest with
  | [] => None
  | a :: rest =>
      if a =s "(" then matchParen (S depth) (S i) rest
      else if a =s ")" then
        match depth with
        | 0 => None   (* not reached: the depth starts at one *)
        | 1 => Some i
        | S depth => matchParen depth (S i) rest
        end
      else matchParen depth (S i) rest
  end.

Definition findMatchingParen (p : parser) (start : nat) : nat :=
  match matchParen 1 start (drop start (args p)) with Some i => i | None => len p end.

(** ** Evaluation of the primaries *)

Section Eval.
Context (ctx : callContext).

Definition evalFileInfo (op : bytes) (info : tinfo) : bool :=
  if str_in op ["-a"; "-e"]%string then true
  else if op =s "-f" then IsRegular (ti_mode info)
  else if op =s "-d" then IsDir (ti_mode info)
  else if op =s "-s" then (0 <? ti_size info)%Z
  else if op =s "-r" then has (Perm (ti_mode info)) 292       (* 0444 *)
  else if op =s "-w" then has (Perm (ti_mode info)) 146       (* 0222 *)
  else if op =s "-x" then has (Perm (ti_mode info)) 73        (* 0111 *)
  else if op =s "-p" then has (ti_mode info) ModeNamedPipe
  else false.

(** The second [switch] of [evalFileTest]. *)
Definition evalByInfo (op path : bytes) : bool :=
  if str_in op ["-h"; "-L"]%string then
    match LstatFile ctx with
    | None => false
    | Some f => match f path with None => false | Some info => has (ti_mode info) ModeSymlink end
    end
  else
    match StatFile ctx with
    | None => false
    | Some f => match f path with None => false | Some info => evalFileInfo op info end
    end.

Definition evalFileTest (op path : bytes) : bool :=
  if bytes_eqb path [] then false
  else
    match AccessFile ctx with
    | Some access =>
        if op =s "-r" then access path 4%Z
        else if op =s "-w" then access path 2%Z
        else if op =s "-x" then access path 1%Z
        else evalByInfo op path
    | None => evalByInfo op path
    end.

(** [None] is the second result false, after the error was recorded. *)
Definition parseInt (s : bytes) (p : parser) : outcome (option Z) :=
  let s := TrimSpace s in
  if bytes_eqb s [] then Ret None (fail (MIntegerExpected []) p)
  else match ParseInt s with
       | inl _ => Ret None (fail (MIntegerExpected s) p)
       | inr n => Ret (Some n) p
       end.

Definition intCompare (op : bytes) (l r : Z) : bool :=
  if op =s "-eq" then (l =? r)%Z
  else if op =s "-ne" then negb (l =? r)%Z
  else if op =s "-lt" then (l <? r)%Z
  else if op =s "-le" then (l <=? r)%Z
  else if op =s "-gt" then (r <? l)%Z
  else if op =s "-ge" then (r <=? l)%Z
  else false.

Definition evalIntCompare (left op right : bytes) (p : parser) : outcome bool :=
  let* (l, p) := parseInt left p in
  match l with
  | None => Ret false p
  | Some l =>
      let* (r, p) := parseInt right p in
      match r with
      | None => Ret false p
      | Some r => Ret (intCompare op l r) p
      end
  end.

Definition evalFileCompare (left op right : bytes) : bool :=
  match StatFile ctx with
  | None => false
  | Some stat =>
      let l := stat left in
      let r := stat right in
      if op =s "-nt" then
        match l, r with
        | None, _ => false
        | Some _, None => true
        | Some l, Some r => (ti_mtime r <? ti_mtime l)%Z
        end
      else if op =s "-ot" then
        match r, l with
        | None, _ => false
        | Some _, None => true
        | Some r, Some l => (ti_mtime l <? ti_mtime r)%Z
        end
      else false
  end.

(** ** Primaries *)

(** [inl tt] is the failure of [consumeUnaryOperand]. *)
Definition consumeUnaryOperand (op : bytes) (p : parser) : outcome (option bytes) :=
  if len p <=? pos p then Ret None (fail (MUnaryExpected op) p)
  else let* (s, p) := advance p in Ret (Some s) p.

Definition parseUnaryFileOp (p : parser) : outcome bool :=
  let* (op, p) := advance p in
  let* (operand, p) := consumeUnaryOperand op p in
  match operand with
  | None => Ret false p
  | Some operand => Ret (evalFileTest op operand) p
  end.

Definition parseUnaryStringOp (p : parser) : outcome bool :=
  let* (op, p) := advance p in
  let* (s, p) := consumeUnaryOperand op p in
  match s with
  | None => Ret false p
  | Some s => Ret (Bool.eqb (op =s "-z") (bytes_eqb s [])) p
  end.

Definition parseBinaryExpr (p : parser) : outcome bool :=
  let* (left, p) := advance p in
  let* (op, p) := advance p in
  if len p <=? pos p then Ret false (fail (MMissingAfter op) p)
  else
    let* (right, p) := advance p in
    if str_in op ["="; "=="]%string then Ret (bytes_eqb left right) p
    else if op =s "!=" then Ret (negb (bytes_eqb left right)) p
    else if op =s "<" then Ret (bytes_ltb left right) p
    else if op =s ">" then Ret (bytes_ltb right left) p
    else if str_in op ["-eq"; "-ne"; "-lt"; "-le"; "-gt"; "-ge"]%string then evalIntCompare left op right p
    else if str_in op ["-nt"; "-ot"]%string then Ret (evalFileCompare left op right) p
    else if op =s "-a" then Ret (negb (bytes_eqb left []) && negb (bytes_eqb right [])) p
    else if op =s "-o" then Ret (negb (bytes_eqb left []) || negb (bytes_eqb right [])) p
    else Ret false (fail (MUnknownBinary op) p).

(** The end of a group: [p.peek() != ")"] is an error, otherwise it is consumed. *)
Definition closeParen (result : bool) (p : parser) : outcome bool :=
  if err p then Ret false p
  else if (len p <=? pos p) || negb (peek p =s ")") then Ret false (fail MMissingParen p)
  else let* (_, p) := advance p in Ret result p.

(** The end of [parsePrimary]: unary operators, then a bare string. *)
Definition parseUnaryOrString (cur : bytes) (p : parser) : outcome bool :=
  let remaining := (Z.of_nat (subexprEnd p) - Z.of_nat (pos p))%Z in
  if (2 <=? remaining)%Z && isUnaryFileOp cur then parseUnaryFileOp p
  else if (2 <=? remaining)%Z && ((cur =s "-z") || (cur =s "-n")) then parseUnaryStringOp p
  else if (2 <=? remaining)%Z && (cur =s "-o") then
    let* (_, p) := advance p in
    let* (_, p) := advance p in
    Ret false p
  else
    let* (_, p) := advance p in
    Ret (negb (bytes_eqb cur [])) p.

(** The tail of [parsePrimary], for a token that does not open a group. *)
Definition parseOperand (cur : bytes) (p : parser) : outcome bool :=
  let remaining := (Z.of_nat (subexprEnd p) - Z.of_nat (pos p))%Z in
  if (3 <=? remaining)%Z then
    match arg p (pos p + 1) with
    | None => Panic
    | Some op =>
        if isBinaryOp op then parseBinaryExpr p
        else if (subexprLen p =? 3)%Z && ((op =s "-a") || (op =s "-o")) then parseBinaryExpr p
        else parseUnaryOrString cur p
    end
  else parseUnaryOrString cur p.

(** [cur == "(" && subexprLen == 3 && p.pos+2 < len(p.args) && ...] *)
Definition isGroupOfOne (cur : bytes) (p : parser) : bool :=
  (cur =s "(") && (subexprLen p =? 3)%Z &&
  match arg p (pos p + 2) with
  | Some c => (c =s ")") && match arg p (pos p + 1) with
                            | Some x => negb (isBinaryOpOrLogical x)
                            | None => false
                            end
  | None => false
  end.

Definition isGroupOfTwo (cur : bytes) (p : parser) : bool :=
  (cur =s "(") && (subexprLen p =? 4)%Z &&
  match arg p (pos p + 3) with Some c => c =s ")" | None => false end.

(** ** The grammar *)

(** [for !p.err && p.ctx.Err() == nil && p.pos < len(p.args) && p.peek() == op]:
    whether the loop goes on, with the poll recorded. *)
Definition loopGoesOn (op : string) (p : parser) : bool * parser :=
  if err p then (false, p)
  else
    let p' := set_polls (S (polls p)) p in
    if ctxDone ctx (polls p) then (false, p')
    else ((pos p <? len p) && (peek p =s op), p').

Fixpoint parseOr (fuel : nat) (p : parser) : outcome bool :=
  match fuel with
  | 0 => NoFuel
  | S fuel => let* (left, p) := parseAnd fuel p in orLoop fuel left p
  end
with orLoop (fuel : nat) (left : bool) (p : parser) : outcome bool :=
  match fuel with
  | 0 => NoFuel
  | S fuel =>
      let '(more, p) := loopGoesOn "-o" p in
      if more then
        let* (_, p) := advance p in
        let* (right, p) := parseAnd fuel p in
        orLoop fuel (left || right) p
      else Ret left p
  end
with parseAnd (fuel : nat) (p : parser) : outcome bool :=
  match fuel with
  | 0 => NoFuel
  | S fuel => let* (left, p) := parseNot fuel p in andLoop fuel left p
  end
with andLoop (fuel : nat) (left : bool) (p : parser) : outcome bool :=
  match fuel with
  | 0 => NoFuel
  | S fuel =>
      let '(more, p) := loopGoesOn "-a" p in
      if more then
        let* (_, p) := advance p in
        let* (right, p) := parseNot fuel p in
        andLoop fuel (left && right) p
      else Ret left p
  end
with parseNot (fuel : nat) (p : parser) : outcome bool :=
  match fuel with
  | 0 => NoFuel
  | S fuel =>
      if (pos p <? len p) && (peek p =s "!") then
        if (subexprLen p =? 1)%Z then
          let* (_, p) := advance p in Ret true p
        else
          let negation (p : parser) :=
            if maxParenDepth <=? depth p then Ret false (fail MTooDeep p)
            else
              let p := set_depth (S (depth p)) p in
              let* (_, p) := advance p in
              let saved := subexprStart p in
              let* (r, p) := parseNot fuel (set_start (pos p) p) in
              Ret (negb r) (set_depth (depth p - 1) (set_start saved p)) in
          if (subexprLen p =? 3)%Z then
            match arg p (pos p + 1) with
            | None => Panic
            | Some op => if isBinaryOpOrLogical op then parsePrimary fuel p else negation p
            end
          else negation p
      else parsePrimary fuel p
  end
with parsePrimary (fuel : nat) (p : parser) : outcome bool :=
  match fuel with
  | 0 => NoFuel
  | S fuel =>
      if err p || (len p <=? pos p) then Ret false (fail MMissingArgument p)
      else
        let cur := peek p in
        let remaining := (Z.of_nat (subexprEnd p) - Z.of_nat (pos p))%Z in
        if isGroupOfOne cur p then
          let* (_, p) := advance p in
          let* (s, p) := advance p in
          let* (_, p) := advance p in
          Ret (negb (bytes_eqb s [])) p
        else if isGroupOfTwo cur p then
          let* (_, p) := advance p in
          let savedStart := subexprStart p in
          let savedEnd := subexprEnd p in
          let* (result, p) := parseOr fuel (set_end (pos p + 2) (set_start (pos p) p)) in
          closeParen result (set_end savedEnd (set_start savedStart p))
        else if (cur =s "(") && ((1 <? remaining)%Z || (1 <? subexprLen p)%Z) && negb (isThreeArgBinary p (pos p)) then
          if maxParenDepth <=? depth p then Ret false (fail MTooDeep p)
          else
            let p := set_depth (S (depth p)) p in
            let* (_, p) := advance p in
            if (len p <=? pos p) || (peek p =s ")") then Ret false (fail MMissingArgument p)
            else
              let savedStart := subexprStart p in
              let savedEnd := subexprEnd p in
              let* (result, p) := parseOr fuel (set_end (findMatchingParen p (pos p)) (set_start (pos p) p)) in
              closeParen result (set_depth (depth p - 1) (set_end savedEnd (set_start savedStart p)))
        else parseOperand cur p
  end.

(** ** The commands *)

Definition exitSyntaxError : Z := 2.

Definition initParser (args : list bytes) : parser :=
  mkParser args 0 false 0 0 (length args) 0 [].

(** The exit code and the diagnostics. *)
Definition evaluate (fuel : nat) (args : list bytes) : outcome Z :=
  match args with
  | [] => Ret 1%Z (initParser [])
  | _ =>
      let* (result, p) := parseOr fuel (initParser args) in
      if err p then Ret exitSyntaxError p
      else if pos p <? len p then Ret exitSyntaxError (fail MTooManyArguments p)
      else Ret (if result : bool then 0 else 1)%Z p
  end.

(** Enough for every argument list: each token costs at most six calls. *)
Definition fuelFor (args : list bytes) : nat := 6 * length args + 8.

Definition isHelp (args : list bytes) : bool :=
  match args with [a] => a =s "--help" | _ => false end.

Definition runTest (args : list bytes) : outcome Z :=
  if isHelp args then Ret 0%Z (initParser args) else evaluate (fuelFor args) args.

Definition runBracket (args : list bytes) : outcome Z :=
  if isHelp args then Ret 0%Z (initParser args)
  else
    match last args with
    | Some c =>
        if c =s "]" then
          let args := take (length args - 1) args in evaluate (fuelFor args) args
        else Ret exitSyntaxError (fail MMissingBracket (initParser args))
    | None => Ret exitSyntaxError (fail MMissingBracket (initParser args))
    end.

(** * Termination and panics *)

(** [q] is [p] after consuming some tokens: the bounds of the subexpression are
    those of [p] again. *)
Definition later (p q : parser) : Prop :=
  args q = args p /\ subexprStart q = subexprStart p /\ subexprEnd q = subexprEnd p /\
  (err p = true -> err q = true) /\ pos p <= pos q <= len p.

Definition in_bounds (p : parser) : Prop := pos p <= len p /\ subexprEnd p <= len p.

(** A call of the grammar from [p]: it returns, having consumed a token unless it
    reported an error ([strict]); or it panics, and the last argument is [!]. *)
Definition good {A} (strict : bool) (p : parser) (o : outcome A) : Prop :=
  match o with
  | Ret _ q => later p q /\ (strict = true -> err q = false -> pos p < pos q)
  | Panic => last (args p) = Some (lit "!")
  | NoFuel => False
  end.

Lemma later_refl p : pos p <= len p -> later p p.
Proof. unfold later. repeat split; auto; lia. Qed.

Lemma later_trans p q r : later p q -> later q r -> later p r.
Proof. unfold later, len. intros (-> & -> & -> & ? & ?) (-> & -> & -> & ? & ?). repeat split; auto; lia. Qed.

Lemma later_bounds p q : in_bounds p -> later p q -> in_bounds q.
Proof. unfold in_bounds, later, len. intros [? ?] (-> & _ & -> & _ & ?). lia. Qed.

Lemma good_weaken {A} s p (o : outcome A) : good true p o -> good s p o.
Proof. destruct o; cbn; [|done|done]. intros [? H]. split; [done|]. auto. Qed.

(** Sequencing: the second call starts where the first one stopped. *)
Lemma good_bind {A B} s1 s2 p (o : outcome A) (f : A -> parser -> outcome B) :
  good s1 p o ->
  (forall a q, later p q -> (s1 = true -> err q = false -> pos p < pos q) -> good (s2 && negb s1) q (f a q)) ->
  good s2 p (obind o f).
Proof.
  destruct o as [a q| |]; cbn; [|done|done]. intros [Hl Hs] Hf. specialize (Hf a q Hl Hs).
  destruct (f a q) as [b r| |]; cbn in *; [|by destruct Hl as (<- & _)|done]. destruct Hf as [Hr Hs2].
  split; [by eapply later_trans|]. intros -> He.
  destruct Hl as (_ & _ & _ & _ & ?), Hr as (_ & _ & _ & Hm & ?). destruct s1; cbn in *.
  - destruct (err q) eqn:Eq; [rewrite Hm in He by done; done|]. specialize (Hs eq_refl eq_refl). lia.
  - specialize (Hs2 eq_refl He). lia.
Qed.

Lemma good_ret {A} s p (a : A) q : later p q -> (s = true -> err q = false -> pos p < pos q) -> good s p (Ret a q).
Proof. by split. Qed.

Lemma good_fail {A} s p (a : A) m : pos p <= len p -> good s p (Ret a (fail m p)).
Proof. intros Hp. apply good_ret; [|done]. repeat split; auto; cbn; lia. Qed.

Lemma advance_in p : pos p < len p ->
  exists s, arg p (pos p) = Some s /\ advance p = Ret s (set_pos (S (pos p)) p) /\
    later p (set_pos (S (pos p)) p).
Proof.
  intros Hp. unfold advance. destruct (arg p (pos p)) as [s|] eqn:E.
  - exists s. repeat split; auto; cbn; unfold len in *; lia.
  - unfold arg in E. apply lookup_ge_None in E. unfold len in Hp. lia.
Qed.

Lemma peek_in p : pos p < len p -> arg p (pos p) = Some (peek p).
Proof.
  intros Hp. unfold peek. destruct (arg p (pos p)) eqn:E; [done|].
  unfold arg in E. apply lookup_ge_None in E. unfold len in Hp. lia.
Qed.

Lemma matchParen_le d i rest j : matchParen d i rest = Some j -> i <= j < i + length rest.
Proof.
  revert d i. induction rest as [|a rest IH]; intros d i; cbn -[bytes_eqb]; [done|].
  destruct (a =s "("); [intros H%IH; lia|]. destruct (a =s ")"); [|intros H%IH; lia].
  destruct d as [|[|d]]; [done|intros [= <-]; lia|intros H%IH; lia].
Qed.

Lemma findMatchingParen_le p start : start <= len p -> findMatchingParen p start <= len p.
Proof.
  intros Hs. unfold findMatchingParen. destruct (matchParen _ _ _) as [i|] eqn:E; [|done].
  apply matchParen_le in E. rewrite length_drop in E. unfold len in *. lia.
Qed.

(** A call after at least one token was consumed. *)
Lemma good_from {A} s p q (o : outcome A) : later p q -> pos p < pos q -> good false q o -> good s p o.
Proof.
  intros Hl Hlt. destruct o as [a r| |]; cbn; [|by destruct Hl as (<- & _)|done]. intros [Hr _].
  split; [by eapply later_trans|]. intros _ _. destruct Hr as (_ & _ & _ & _ & ?). lia.
Qed.

(** Consuming a token that is there. *)
Lemma good_advance {B} s p (f : bytes -> parser -> outcome B) :
  pos p < len p ->
  (forall a, later p (set_pos (S (pos p)) p) -> good false (set_pos (S (pos p)) p) (f a (set_pos (S (pos p)) p))) ->
  good s p (obind (advance p) f).
Proof.
  intros Hp Hf. destruct (advance_in p Hp) as (a & _ & -> & Hl). cbn [obind].
  eapply good_from; [exact Hl|cbn; lia|by apply Hf].
Qed.

Ltac advance_good := apply good_advance; [unfold len in *; cbn in *; lia|intros ? ?].
Ltac ret_good := apply good_ret; [apply later_refl; unfold len in *; cbn in *; lia|done].

Ltac good_if := match goal with |- good _ _ (if ?b then _ else _) => destruct b end.

Lemma parseInt_good s p : pos p <= len p -> good false p (parseInt s p).
Proof.
  intros Hp. unfold parseInt. cbv zeta. destruct (bytes_eqb _ _); [by apply good_fail|].
  destruct (ParseInt _); [by apply good_fail|]. by apply good_ret; [apply later_refl|].
Qed.

Lemma evalIntCompare_good l op r p : pos p <= len p -> good false p (evalIntCompare l op r p).
Proof.
  intros Hp. unfold evalIntCompare. eapply good_bind; [by apply parseInt_good|]. intros a q Hq _. cbn [andb].
  assert (pos q <= len q) by (destruct Hq as (E & _ & _ & _ & ?); unfold len in *; rewrite E; lia).
  destruct a; [|ret_good]. eapply good_bind; [by apply parseInt_good|]. intros b r' Hr _. cbn [andb].
  assert (pos r' <= len r') by (destruct Hr as (E & _ & _ & _ & ?); unfold len in *; rewrite E; lia).
  destruct b; ret_good.
Qed.

Lemma consume_good {B} s op p (f : option bytes -> parser -> outcome B) :
  pos p < len p ->
  (forall a q, pos q <= len q -> good false q (f a q)) -> good s p (obind (consumeUnaryOperand op p) f).
Proof.
  intros Hp Hf. unfold consumeUnaryOperand. rewrite (proj2 (Nat.leb_gt _ _)) by lia.
  destruct (advance_in p Hp) as (a & _ & E & Hl). rewrite E. cbn [obind].
  eapply good_from; [exact Hl|cbn; lia|]. apply Hf. unfold len in *. cbn. lia.
Qed.

Lemma parseUnaryFileOp_good p : S (pos p) < len p -> good true p (parseUnaryFileOp p).
Proof.
  intros Hp. unfold parseUnaryFileOp. advance_good. apply consume_good; [unfold len in *; cbn in *; lia|].
  intros [b|] q Hq; ret_good.
Qed.

Lemma parseUnaryStringOp_good p : S (pos p) < len p -> good true p (parseUnaryStringOp p).
Proof.
  intros Hp. unfold parseUnaryStringOp. advance_good. apply consume_good; [unfold len in *; cbn in *; lia|].
  intros [b|] q Hq; ret_good.
Qed.

Lemma parseBinaryExpr_good p : S (S (pos p)) < len p -> good true p (parseBinaryExpr p).
Proof.
  intros Hp. unfold parseBinaryExpr. advance_good. advance_good.
  rewrite (proj2 (Nat.leb_gt _ _)) by (unfold len in *; cbn in *; lia). advance_good.
  repeat (good_if; [ret_good || (apply evalIntCompare_good; unfold len in *; cbn in *; lia)|]).
  apply good_fail. unfold len in *. cbn in *. lia.
Qed.

Lemma parseUnaryOrString_good cur p : in_bounds p -> pos p < len p -> good true p (parseUnaryOrString cur p).
Proof.
  intros [_ Hend] Hp. unfold parseUnaryOrString. cbv zeta.
  destruct (Z.leb_spec 2 (Z.of_nat (subexprEnd p) - Z.of_nat (pos p))) as [H2|H2]; cbn [andb];
    [|advance_good; ret_good].
  good_if; [apply parseUnaryFileOp_good; lia|].
  good_if; [apply parseUnaryStringOp_good; lia|].
  good_if; [|advance_good; ret_good]. advance_good. advance_good. ret_good.
Qed.

Lemma parseOperand_good cur p : in_bounds p -> pos p < len p -> good true p (parseOperand cur p).
Proof.
  intros Hin Hp. pose proof (parseUnaryOrString_good cur p Hin Hp) as Hrest. destruct Hin as [_ Hend].
  unfold parseOperand. cbv zeta.
  destruct (Z.leb_spec 3 (Z.of_nat (subexprEnd p) - Z.of_nat (pos p))) as [H3|H3]; [|done].
  destruct (arg p (pos p + 1)) as [op|] eqn:Ea.
  - good_if; [apply parseBinaryExpr_good; lia|]. good_if; [apply parseBinaryExpr_good; lia|done].
  - unfold arg in Ea. apply lookup_ge_None in Ea. unfold len in *. lia.
Qed.

Lemma closeParen_good r p : pos p <= len p -> good false p (closeParen r p).
Proof.
  intros Hp. unfold closeParen. destruct (err p); [ret_good|].
  destruct (Nat.leb_spec (len p) (pos p)); cbn [orb]; [by apply good_fail|].
  destruct (negb _); [by apply good_fail|]. advance_good. ret_good.
Qed.

Lemma loopGoesOn_spec op p more q : pos p <= len p -> loopGoesOn op p = (more, q) ->
  later p q /\ pos q = pos p /\ err q = err p /\ (more = true -> pos q < len q /\ err p = false).
Proof.
  intros Hp. unfold loopGoesOn. destruct (err p) eqn:Ee.
  - intros [= <- <-]. repeat split; auto; lia.
  - destruct (ctxDone ctx (polls p)); intros [= <- <-]; (split; [repeat split; auto; cbn; lia|]);
      (split; [done|]); (split; [by cbn|]); [done|]. intros [?%Nat.ltb_lt _]%andb_true_iff. done.
Qed.

(** [q] differs from [p] in the bounds of the subexpression, its depth and its
    polls only. *)
Definition rebound (p q : parser) : Prop := args q = args p /\ pos q = pos p /\ err q = err p.

(** A call inside other bounds, and what follows once they are restored. *)
Lemma good_scope {A B} p q (o : outcome A) (f : A -> parser -> outcome B) :
  rebound p q -> good true q o ->
  (forall a r, args r = args p -> subexprEnd r = subexprEnd q -> pos p <= pos r <= len p ->
     exists r', rebound r r' /\ subexprStart r' = subexprStart p /\ subexprEnd r' = subexprEnd p /\
       good false r' (f a r)) ->
  good false p (obind o f).
Proof.
  intros (Ha & Hp & He). destruct o as [a r| |]; cbn [obind good]; [|by rewrite Ha|done]. intros [Hl _] Hf.
  destruct Hl as (E1 & _ & E3 & E4 & E5). unfold len in E5. rewrite Ha in E1, E5. rewrite He in E4. rewrite Hp in E5.
  destruct (Hf a r E1 E3 ltac:(unfold len; lia)) as (r' & (R1 & R2 & R3) & R4 & R5 & Hg).
  destruct (f a r) as [b t| |]; cbn in *; [|by rewrite <- E1, <- R1|done]. destruct Hg as [(T1 & T2 & T3 & T4 & T5) _].
  split; [|done]. unfold later, len in *. rewrite T1, T2, T3, R1, E1, R4, R5 in *.
  repeat split; try done; try lia. intros H. apply T4. rewrite R3. auto.
Qed.

Lemma set_depth_good {A} s d p (o : outcome A) : good s (set_depth d p) o -> good s p o.
Proof. by destruct o. Qed.

(** [room p] tokens are left. *)
Definition room (p : parser) : nat := len p - pos p.

Lemma later_room p q : later p q -> room q <= room p /\ (pos p < pos q -> pos p < len p -> room q < room p).
Proof. unfold later, room, len. intros (-> & _ & _ & _ & ?). lia. Qed.

Definition grammar_ok (fuel : nat) : Prop :=
  (forall p, in_bounds p -> 6 * room p + 4 <= fuel -> good true p (parseOr fuel p)) /\
  (forall b p, in_bounds p -> (err p = true /\ 1 <= fuel \/ 6 * room p + 1 <= fuel) -> good false p (orLoop fuel b p)) /\
  (forall p, in_bounds p -> 6 * room p + 3 <= fuel -> good true p (parseAnd fuel p)) /\
  (forall b p, in_bounds p -> (err p = true /\ 1 <= fuel \/ 6 * room p + 1 <= fuel) -> good false p (andLoop fuel b p)) /\
  (forall p, in_bounds p -> 6 * room p + 2 <= fuel -> good true p (parseNot fuel p)) /\
  (forall p, in_bounds p -> 6 * room p + 1 <= fuel -> good true p (parsePrimary fuel p)).

(** The chains of [-o] and [-a]: the first operand, then the loop. *)
Lemma chain_good fuel (operand : parser -> outcome bool) (loop : bool -> parser -> outcome bool) p :
  in_bounds p -> 1 <= fuel -> 6 * room p + 1 <= fuel ->
  good true p (operand p) ->
  (forall b q, in_bounds q -> (err q = true /\ 1 <= fuel \/ 6 * room q + 1 <= fuel) -> good false q (loop b q)) ->
  good true p (obind (operand p) loop).
Proof.
  intros Hin H1 Hf Ho Hl. eapply good_bind; [exact Ho|]. intros b q Hq _. apply Hl; [by eapply later_bounds|].
  right. apply later_room in Hq as [? _]. lia.
Qed.

Lemma loop_good fuel op (operand : parser -> outcome bool) (loop : bool -> parser -> outcome bool)
    (join : bool -> bool -> bool) b p :
  in_bounds p -> (err p = true \/ 6 * room p <= fuel) ->
  (forall q, in_bounds q -> 6 * room q + 3 <= fuel -> good true q (operand q)) ->
  (forall b q, in_bounds q -> (err q = true /\ 1 <= fuel \/ 6 * room q + 1 <= fuel) -> good false q (loop b q)) ->
  good false p (let '(more, p) := loopGoesOn op p in
    if more then
      let* (_, p) := advance p in
      let* (right, p) := operand p in
      loop (join b right) p
    else Ret b p).
Proof.
  intros Hin Hf Ho Hl. destruct (loopGoesOn op p) as [more q] eqn:E.
  apply loopGoesOn_spec in E as (Hq & Epos & Eerr & Hmore); [|apply Hin].
  pose proof (later_bounds _ _ Hin Hq) as Hinq. destruct more; [|by apply good_ret].
  destruct (Hmore eq_refl) as [Hlt Hne]. destruct Hf as [|Hf]; [congruence|].
  assert (room q = room p) as Er by (destruct Hq as (E & _); unfold room, len; rewrite E, Epos; done).
  assert (good false q (let* (_, p) := advance q in let* (right, p) := operand p in loop (join b right) p)) as Hg.
  { apply good_advance; [done|]. intros a Hla. pose proof (later_bounds _ _ Hinq Hla) as Hina.
    apply later_room in Hla as [_ Hr]. specialize (Hr ltac:(cbn; lia) Hlt).
    eapply good_bind; [apply Ho; [done|lia]|]. intros c r Hr' _. cbn [andb].
    apply Hl; [by eapply later_bounds|]. apply later_room in Hr' as [? _]. right. lia. }
  destruct (obind _ _) as [v t| |]; cbn in *; [|by destruct Hq as (<- & _)|done].
  destruct Hg as [Hg _]. split; [by eapply later_trans|done].
Qed.

Lemma grammar_good fuel : grammar_ok fuel.
Proof.
  induction fuel as [|fuel (IHor & IHorl & IHand & IHandl & IHnot & IHprim)].
  { repeat split; intros; exfalso; lia. }
  split; [|split; [|split; [|split; [|split]]]].
  - intros p Hin Hf. cbn [parseOr]. apply (chain_good fuel); [done|lia|lia|apply IHand; [done|lia]|apply IHorl].
  - intros b p Hin Hf. cbn [orLoop].
    apply (loop_good fuel "-o" (parseAnd fuel) (orLoop fuel) orb); [done|destruct Hf as [[? _]|?]; [by left|right; lia]|done|done].
  - intros p Hin Hf. cbn [parseAnd]. apply (chain_good fuel); [done|lia|lia|apply IHnot; [done|lia]|apply IHandl].
  - intros b p Hin Hf. cbn [andLoop].
    apply (loop_good fuel "-a" (parseNot fuel) (andLoop fuel) andb); [done|destruct Hf as [[? _]|?]; [by left|right; lia]| |done].
    intros q Hq Hfq. apply IHnot; [done|lia].
  - intros p Hin Hf. cbn [parseNot].
    destruct (Nat.ltb_spec (pos p) (len p)) as [Hlt|Hge]; cbn [andb]; [|apply IHprim; [done|lia]].
    destruct (peek p =s "!") eqn:Ebang; [|apply IHprim; [done|lia]].
    good_if; [advance_good; ret_good|]. cbv zeta.
    set (negation := if maxParenDepth <=? depth p then _ else _).
    assert (good true p negation) as Hneg.
    { subst negation. good_if; [apply good_fail; lia|]. apply (set_depth_good _ (S (depth p))).
      apply good_advance; [done|]. intros a Hla. set (q := set_pos _ _) in *.
      assert (in_bounds q) as Hinq by (destruct Hin; subst q; unfold in_bounds, len in *; cbn in *; lia).
      eapply (good_scope q (set_start (pos q) q)); [done| |].
      - apply IHnot; [done|]. unfold room, len in *. subst q. cbn in *. lia.
      - intros b r Ha He Hp. exists (set_depth (depth r - 1) (set_start (subexprStart q) r)).
        split; [done|]. split; [done|]. split; [cbn|apply good_ret; [apply later_refl|done]].
        + by rewrite He.
        + unfold len in *. cbn. rewrite Ha. lia. }
    clearbody negation. good_if; [|done]. destruct (arg p (pos p + 1)) as [op|] eqn:Ea.
    + good_if; [apply IHprim; [done|lia]|done].
    + cbn. unfold arg in Ea. apply lookup_ge_None in Ea. rewrite last_lookup.
      replace (pred (length (args p))) with (pos p) by (unfold len in *; lia).
      change (arg p (pos p) = Some (lit "!")). rewrite peek_in by done. by apply bytes_eqb_true in Ebang as ->.
  - intros p Hin Hf. cbn [parsePrimary].
    destruct (err p) eqn:Ee; cbn [orb]; [by apply good_fail; destruct Hin|].
    destruct (Nat.leb_spec (len p) (pos p)) as [Hge|Hlt]; [by apply good_fail; destruct Hin|]. cbv zeta.
    destruct (isGroupOfOne (peek p) p) eqn:Eg1.
    { unfold isGroupOfOne in Eg1. apply andb_true_iff in Eg1 as [_ Eg1].
      destruct (arg p (pos p + 2)) eqn:Ea; [|done]. unfold arg in Ea. apply lookup_lt_Some in Ea.
      advance_good. advance_good. advance_good. ret_good. }
    destruct (isGroupOfTwo (peek p) p) eqn:Eg2.
    { unfold isGroupOfTwo in Eg2. apply andb_true_iff in Eg2 as [_ Eg2].
      destruct (arg p (pos p + 3)) eqn:Ea; [|done]. unfold arg in Ea. apply lookup_lt_Some in Ea.
      apply good_advance; [done|]. intros a Hla. set (q := set_pos _ _) in *.
      eapply (good_scope q (set_end (pos q + 2) (set_start (pos q) q))); [done| |].
      - apply IHor.
        + unfold in_bounds, len in *. subst q. cbn. lia.
        + unfold room, len in *. subst q. cbn. lia.
      - intros b r Ha _ Hp. eexists. split; [|split; [|split]]; [..|apply closeParen_good]; try done.
        unfold len in *. cbn. rewrite Ha. lia. }
    good_if; [|by apply parseOperand_good].
    good_if; [by apply good_fail; destruct Hin|]. apply (set_depth_good _ (S (depth p))).
    apply good_advance; [done|]. intros a Hla. set (q := set_pos _ _) in *.
    destruct (Nat.leb_spec (len q) (pos q)) as [Hge|Hltq]; cbn [orb].
    { apply good_fail. subst q. unfold len in *. cbn. lia. }
    good_if; [apply good_fail; lia|].
    eapply (good_scope q (set_end (findMatchingParen q (pos q)) (set_start (pos q) q))); [done| |].
    + apply IHor.
      * split; [exact (Nat.lt_le_incl _ _ Hltq)|]. apply (findMatchingParen_le q). lia.
      * unfold room, len in *. subst q. cbn. lia.
    + intros b r Ha _ Hp. eexists. split; [|split; [|split]]; [..|apply closeParen_good]; try done.
      unfold len in *. cbn. rewrite Ha. lia.
Qed.

Lemma evaluate_good l :
  match evaluate (fuelFor l) l with
  | Ret c _ => c = 0%Z \/ c = 1%Z \/ c = 2%Z
  | Panic => last l = Some (lit "!")
  | NoFuel => False
  end.
Proof.
  unfold evaluate. destruct l as [|a l0]; [auto|]. set (l := a :: l0).
  destruct (grammar_good (fuelFor l)) as [Hor _].
  assert (good true (initParser l) (parseOr (fuelFor l) (initParser l))) as Hg.
  { apply Hor; [unfold in_bounds, len; cbn; lia|]. unfold room, len, fuelFor. cbn -[Nat.mul]. lia. }
  destruct (parseOr _ _) as [b q| |]; cbn [obind good] in *; [|done|done].
  destruct (err q); [auto|]. destruct (pos q <? len q); [auto|]. destruct b; auto.
Qed.

(** [test] always terminates, on every argument list and whatever the
    filesystem and the context answer, with exit status 0, 1 or 2; it can index
    out of range only when the last argument is [!]. *)
Theorem test_terminates l :
  match runTest l with
  | Ret c _ => c = 0%Z \/ c = 1%Z \/ c = 2%Z
  | Panic => last l = Some (lit "!")
  | NoFuel => False
  end.
Proof. unfold runTest. destruct (isHelp l); [auto|]. apply evaluate_good. Qed.

End Eval.

(** An index out of range is reachable: inside a group of three tokens the
    length kept for the group outlives the group's closing parenthesis, and a
    trailing [!] is then looked up past the end of the arguments. *)
Theorem test_panics_on_trailing_bang access stat lstat :
  runTest (mkCtx access stat lstat (fun _ => false))
    (map lit ["("; "-n"; "x"; "-a"; ")"; "-a"; "!"]%string) = Panic.
Proof. vm_compute. reflexivity. Qed.

(** * The POSIX rules for short argument lists *)

(** What [exit status] a verdict stands for; no verdict is a syntax error. *)
Definition status (v : option bool) : Z :=
  match v with Some true => 0 | Some false => 1 | None => 2 end.

Definition exitCode (o : outcome Z) : option Z := match o with Ret c _ => Some c | _ => None end.

Section Posix.
Context (ctx : callContext).

Definition nonempty (s : bytes) : bool := negb (bytes_eqb s []).

Definition toInteger (s : bytes) : option Z :=
  match ParseInt (TrimSpace s) with inr n => Some n | inl _ => None end.

(** A binary primary. *)
Definition posixBinary (l op r : bytes) : option bool :=
  if str_in op ["="; "=="]%string then Some (bytes_eqb l r)
  else if op =s "!=" then Some (negb (bytes_eqb l r))
  else if op =s "<" then Some (bytes_ltb l r)
  else if op =s ">" then Some (bytes_ltb r l)
  else if str_in op ["-eq"; "-ne"; "-lt"; "-le"; "-gt"; "-ge"]%string then
    match toInteger l, toInteger r with
    | Some x, Some y => Some (intCompare op x y)
    | _, _ => None
    end
  else if str_in op ["-nt"; "-ot"]%string then Some (evalFileCompare ctx l op r)
  else if op =s "-a" then Some (nonempty l && nonempty r)
  else Some (nonempty l || nonempty r).

(** A unary primary. *)
Definition posixUnary (op x : bytes) : option bool :=
  if isUnaryFileOp op then Some (evalFileTest ctx op x)
  else if op =s "-z" then Some (negb (nonempty x))
  else if op =s "-n" then Some (nonempty x)
  else if op =s "-o" then Some false
  else None.

(** No argument: false.  One: true if it is not empty.  Two: a negation or a unary primary.
    Three: a binary primary if the second is a binary operator, whatever the
    operands look like; else the negation of a two-argument test; else a
    parenthesised one-argument test. *)
Definition posix (l : list bytes) : option bool :=
  match l with
  | [] => Some false
  | [a] => Some (nonempty a)
  | [a; b] => if a =s "!" then Some (negb (nonempty b)) else posixUnary a b
  | [a; op; b] =>
      if isBinaryOpOrLogical op then posixBinary a op b
      else if a =s "!" then
        negb <$> (if op =s "!" then Some (negb (nonempty b)) else posixUnary op b)
      else if (a =s "(") && (b =s ")") then Some (nonempty op)
      else None
  | _ => None
  end.

(** ** Symbolic execution of the parser

    The lists are concrete up to their strings, so every position is; the tests on
    the strings are the branches.  The equations unfold one call at a time. *)

Lemma parseOr_S f p : parseOr ctx (S f) p =
  ltac:(let t := eval cbn [parseOr] in (parseOr ctx (S f) p) in exact t).
Proof. reflexivity. Qed.

Lemma orLoop_S f (b : bool) p : orLoop ctx (S f) b p =
  ltac:(let t := eval cbn [orLoop] in (orLoop ctx (S f) b p) in exact t).
Proof. reflexivity. Qed.

Lemma parseAnd_S f p : parseAnd ctx (S f) p =
  ltac:(let t := eval cbn [parseAnd] in (parseAnd ctx (S f) p) in exact t).
Proof. reflexivity. Qed.

Lemma andLoop_S f (b : bool) p : andLoop ctx (S f) b p =
  ltac:(let t := eval cbn [andLoop] in (andLoop ctx (S f) b p) in exact t).
Proof. reflexivity. Qed.

Lemma parseNot_S f p : parseNot ctx (S f) p =
  ltac:(let t := eval cbn [parseNot] in (parseNot ctx (S f) p) in exact t).
Proof. reflexivity. Qed.

Lemma parsePrimary_S f p : parsePrimary ctx (S f) p =
  ltac:(let t := eval cbn [parsePrimary] in (parsePrimary ctx (S f) p) in exact t).
Proof. reflexivity. Qed.

#[local] Opaque parseOr orLoop parseAnd andLoop parseNot parsePrimary.

Lemma isBinaryOp_cases b : isBinaryOp b =
  str_in b ["="; "=="]%string || (b =s "!=") || (b =s "<") || (b =s ">") ||
  str_in b ["-eq"; "-ne"; "-lt"; "-le"; "-gt"; "-ge"]%string || str_in b ["-nt"; "-ot"]%string.
Proof.
  unfold isBinaryOp, str_in. cbn [existsb].
  repeat (match goal with |- context [bytes_eqb b ?x] => destruct (bytes_eqb b x) end; [reflexivity|]). reflexivity.
Qed.

Lemma if_same {A} (b : bool) (x : A) : (if b then x else x) = x.
Proof. by destruct b. Qed.

(** Compute the record updates and the positions, leave the tests on strings. *)
Ltac norm_state :=
  cbv beta iota delta [set_pos set_depth set_start set_end set_polls fail args pos err depth subexprStart subexprEnd polls stderr
       arg lookup list_lookup length len peek Nat.add Nat.sub initParser isBinaryOpOrLogical nonempty].
(** Close a branch in which a closed test has the wrong value. *)
Ltac absurd_test :=
  match goal with
  | E : ?b = ?v |- _ => lazymatch b with bytes_eqb _ _ => idtac | isBinaryOp _ => idtac | isUnaryFileOp _ => idtac | isBinaryOpOrLogical _ => idtac end;
      let b' := eval vm_compute in b in
      lazymatch b' with v => fail | true => idtac | false => idtac end;
      exfalso; vm_compute in E; discriminate E
  end.
(** Split on a test; an equality with a literal is substituted. *)
Ltac decide_test b :=
  destruct b eqn:?;
  try match goal with E : bytes_eqb ?x _ = true |- _ => is_var x; apply bytes_eqb_true in E; subst x; try absurd_test end.
(** Decide the leftmost atomic test of a condition. *)
Ltac atom b :=
  lazymatch b with
  | andb ?x _ => atom x
  | orb ?x _ => atom x
  | negb ?x => atom x
  | Bool.eqb ?x ?y => atom x; atom y
  | evalFileTest _ _ _ => destruct b eqn:?
  | evalFileCompare _ _ _ _ => destruct b eqn:?
  | ctxDone _ _ => destruct b eqn:?
  | bytes_ltb _ _ => destruct b eqn:?
  | intCompare _ _ _ => destruct b eqn:?
  | bytes_eqb (TrimSpace ?x) [] =>
      let E := fresh "Etrim" in destruct b eqn:E; [apply bytes_eqb_true in E|]
  | _ =>
      lazymatch goal with
      | E : b = _ |- _ => rewrite E
      | _ =>
        let b' := eval vm_compute in b in
        lazymatch b' with
        | true => change b with true
        | false => change b with false
        | _ => decide_test b
        end
      end; cbn [andb orb negb Bool.eqb]
  end.
(** One step of the parser call [o], of the scrutinee of a match, of a condition. *)
Ltac se o :=
  lazymatch o with
  | obind ?o' _ => se o'
  | Ret _ _ => cbn [obind]
  | Panic => cbn [obind]
  | advance _ => unfold advance; norm_state; cbn [obind]
  | parseOr _ ?f _ => rewrite parseOr_S; cbv zeta; norm_state
  | parseAnd _ ?f _ => rewrite parseAnd_S; cbv zeta; norm_state
  | parseNot _ ?f _ => rewrite parseNot_S; cbv zeta; norm_state
  | parsePrimary _ ?f _ => rewrite parsePrimary_S; cbv zeta; norm_state
  | orLoop _ ?f _ _ => rewrite orLoop_S; cbv zeta; norm_state
  | andLoop _ ?f _ _ => rewrite andLoop_S; cbv zeta; norm_state
  | parseOperand _ _ _ => unfold parseOperand; cbv zeta; norm_state
  | parseUnaryOrString _ _ _ => unfold parseUnaryOrString; cbv zeta; norm_state
  | parseBinaryExpr _ _ => unfold parseBinaryExpr; norm_state
  | evalIntCompare _ _ _ _ => unfold evalIntCompare; norm_state
  | parseInt _ _ => unfold parseInt; cbv zeta; norm_state
  | parseUnaryFileOp _ _ => unfold parseUnaryFileOp, consumeUnaryOperand; norm_state
  | parseUnaryStringOp _ => unfold parseUnaryStringOp, consumeUnaryOperand; norm_state
  | closeParen _ _ => unfold closeParen; norm_state
  | if ?b then _ else _ => se_cond b
  | match ?x with _ => _ end => se_scrut x
  end
with se_scrut x :=
  lazymatch x with
  | loopGoesOn _ _ _ => unfold loopGoesOn; cbv zeta; norm_state
  | (if ctxDone _ _ then (false, ?q) else (?c, ?q)) =>
      let c' := eval vm_compute in c in
      lazymatch c' with
      | false => change c with false; rewrite if_same
      | _ => lazymatch x with if ?b then _ else _ => se_cond b end
      end
  | (if ?b then _ else _) => se_cond b
  | ParseInt _ => destruct x eqn:?
  | _ => norm_state
  end
with se_cond b :=
  lazymatch b with
  | isGroupOfOne _ _ => unfold isGroupOfOne, subexprLen; norm_state
  | isGroupOfTwo _ _ => unfold isGroupOfTwo, subexprLen; norm_state
  | context [findMatchingParen] => unfold findMatchingParen; norm_state; cbv beta iota delta [drop matchParen]
  | context [match (if bytes_eqb ?x ?y then _ else _) with _ => _ end] => atom (bytes_eqb x y)
  | context [isThreeArgBinary] => unfold isThreeArgBinary, subexprLen; norm_state
  | _ => atom b
  end.
(** Run the parser to its outcome on every branch. *)
Ltac run_all :=
  repeat (lazymatch goal with
          | |- exitCode (Ret _ _) = _ => fail
          | |- exitCode Panic = _ => fail
          | |- exitCode ?o = _ => se o
          end; cbv iota beta).
(** Compare a final outcome with the specification. *)
Ltac leaf := first [ absurd_test | reflexivity |
  change (exitCode (Ret ?v _)) with (Some v) in *; cbn [exitCode]; unfold posix, posixUnary, posixBinary, toInteger; norm_state;
  repeat (match goal with
   | |- context [if ?b then _ else _] => atom b
   | |- context [Bool.eqb ?a ?b] => atom (Bool.eqb a b)
   | E : TrimSpace ?x = [] |- context [TrimSpace ?x] => rewrite E; change (ParseInt []) with (@inl numError Z ErrSyntax)
   | E : ParseInt ?x = _ |- context [ParseInt ?x] => rewrite E
   | |- context [ParseInt ?x] => destruct (ParseInt x) eqn:?
  end; cbn [status fmap option_fmap option_map andb orb negb Bool.eqb]; cbv iota beta);
  try reflexivity; try congruence;
  exfalso; match goal with E : isBinaryOp ?b = true |- _ => rewrite (isBinaryOp_cases b) in E; repeat match goal with F : _ = false |- _ => rewrite F in E; clear F end; discriminate E end ].

Lemma evaluate_one a : exitCode (evaluate ctx (fuelFor [a]) [a]) = Some (status (posix [a])).
Proof. unfold evaluate. change (fuelFor [a]) with 14. norm_state. run_all; leaf. Qed.

Lemma evaluate_two a b :
  exitCode (evaluate ctx (fuelFor [a; b]) [a; b]) = Some (status (posix [a; b])).
Proof. unfold evaluate. change (fuelFor [a; b]) with 20. norm_state. run_all; leaf. Qed.

Lemma evaluate_three a b c :
  exitCode (evaluate ctx (fuelFor [a; b; c]) [a; b; c]) = Some (status (posix [a; b; c])).
Proof. unfold evaluate. change (fuelFor [a; b; c]) with 26. norm_state. run_all; leaf. Qed.

Lemma runBracket_closed l : runBracket ctx (l ++ [lit "]"]) = evaluate ctx (fuelFor l) l.
Proof.
  assert (isHelp (l ++ [lit "]"]) = false) as E by (destruct l as [|? []]; reflexivity).
  unfold runBracket. rewrite E, last_snoc, bytes_eqb_refl, length_app.
  replace (length l + length [lit "]"] - 1) with (length l) by (cbn [length]; lia).
  by rewrite take_app_length.
Qed.

(** Up to three arguments, [test] and [[ ... ]] compute the verdict POSIX
    prescribes from the number of arguments, whatever the operands look like:
    exit status 0 for true, 1 for false, 2 for a syntax error, with no panic. *)
Theorem posix_short_forms l :
  length l <= 3 ->
  exitCode (runTest ctx l) = Some (status (posix l)) /\
  exitCode (runBracket ctx (l ++ [lit "]"])) = Some (status (posix l)).
Proof.
  intros Hl. rewrite runBracket_closed.
  assert (exitCode (evaluate ctx (fuelFor l) l) = Some (status (posix l))) as E.
  { destruct l as [|a [|b [|c [|]]]]; [reflexivity|apply evaluate_one|apply evaluate_two|
      apply evaluate_three|cbn in Hl; lia]. }
  split; [|done]. unfold runTest. destruct (isHelp l) eqn:Eh; [|done].
  destruct l as [|a []]; try discriminate. cbn [isHelp] in Eh.
  apply bytes_eqb_true in Eh. subst a. reflexivity.
Qed.

End Posix.

(** The operand [(] of [=] is a string, not a parenthesis. *)
Lemma posix_short_forms_witness :
  let ctx := mkCtx None None None (fun _ => false) in
  length (map lit ["("; "="; "("]%string) <= 3 /\
  exitCode (runTest ctx (map lit ["("; "="; "("]%string)) = Some 0%Z.
Proof.
  intros ctx. split; [cbn; lia|].
  exact (proj1 (posix_short_forms ctx (map lit ["("; "="; "("]%string) ltac:(cbn; lia))).
Defined.

End TestCmd.
