(* ===== verification/FindExpr.v ===== *)
(** The expression parser of the find builtin ([builtins/find/expr.go]): the
    syntax tree, the recursive-descent parser with its depth and node limits,
    the leaf arguments (types, sizes, numbers, permission modes, [-exec]
    templates).  The grammar it accepts is stated as an inductive relation and
    the parser is proved to decide it, to terminate and never to panic. *)

From S2P Require Import Prelude GoStd.
From stdpp Require Import base list strings.
From Stdlib Require Import ZArith Lia Ascii.

Module FindExpr.
Import GoStd.

(** ** The syntax tree *)

Definition maxExprDepth : nat := Z.to_nat 64.
Definition maxExprNodes : nat := Z.to_nat 256.

Inductive exprKind :=
| exprName | exprIName | exprPath | exprIPath | exprType | exprSize | exprEmpty | exprNewer
| exprMtime | exprMmin | exprPerm | exprQuit | exprPrint | exprPrint0 | exprPrune | exprTrue
| exprFalse | exprExecDir | exprExec | exprAnd | exprOr | exprNot.

#[export] Instance exprKind_eq_dec : EqDecision exprKind.
Proof. solve_decision. Defined.

Inductive cmpOp := cmpLess | cmpExact | cmpMore.

Record sizeUnit := mkSizeUnit { su_n : Z; su_cmp : cmpOp; su_unit : ascii }.

(** A node: the constructors group the fields of the Go struct that a kind
    uses; an absent child is no constructor. *)
Inductive expr :=
| EStr (k : exprKind) (strVal : bytes)
| ESize (sizeVal : sizeUnit)
| ENum (k : exprKind) (numVal : Z) (numCmp : cmpOp)
| EPerm (permVal : Z) (permCmp : ascii)
| EExec (k : exprKind) (execCmd : bytes) (execArgs : list bytes)
| ELeaf (k : exprKind)
| EAnd (left right : expr)
| EOr (left right : expr)
| ENot (operand : expr).

Definition kind (e : expr) : exprKind :=
  match e with
  | EStr k _ | ENum k _ _ | EExec k _ _ | ELeaf k => k
  | ESize _ => exprSize
  | EPerm _ _ => exprPerm
  | EAnd _ _ => exprAnd
  | EOr _ _ => exprOr
  | ENot _ => exprNot
  end.

Definition isAction (e : expr) : bool :=
  match kind e with exprPrint | exprPrint0 | exprExecDir | exprExec => true | _ => false end.

Fixpoint hasAction (e : expr) : bool :=
  isAction e ||
  match e with
  | EAnd l r | EOr l r => hasAction l || hasAction r
  | ENot e => hasAction e
  | _ => false
  end.

(** ** Errors and the parser state *)

Inductive parseErr :=
| HelpRequested
| MBlocked (tok : bytes)
| MUnknownPredicate (tok : bytes)
| MUnexpectedArgument (tok : bytes)
| MExpectedExpression
| MExpectedToken (s : bytes) (got : option bytes)
| MTooManyNodes
| MTooDeep
| MEmptyParens
| MMissingArgument (name : bytes)
| MInvalidArgument (val name : bytes)
| MUnknownType (val : bytes)
| MInvalidMode (val : bytes)
| MBatchMode (name : bytes).

Record parser := mkParser {
  args : list bytes; pos : nat; depth : nat; nodes : nat; maxDepth : Z; minDepth : Z }.

Definition set_pos (x : nat) (p : parser) : parser :=
  mkParser (args p) x (depth p) (nodes p) (maxDepth p) (minDepth p).
Definition set_depth (x : nat) (p : parser) : parser :=
  mkParser (args p) (pos p) x (nodes p) (maxDepth p) (minDepth p).
Definition set_nodes (x : nat) (p : parser) : parser :=
  mkParser (args p) (pos p) (depth p) x (maxDepth p) (minDepth p).
Definition set_maxDepth (x : Z) (p : parser) : parser :=
  mkParser (args p) (pos p) (depth p) (nodes p) x (minDepth p).
Definition set_minDepth (x : Z) (p : parser) : parser :=
  mkParser (args p) (pos p) (depth p) (nodes p) (maxDepth p) x.

Inductive outcome (A : Type) :=
| Ret (a : A) (p : parser)
| Err (e : parseErr)
| Panic
| NoFuel.
Arguments Ret {A}. Arguments Err {A}. Arguments Panic {A}. Arguments NoFuel {A}.

Definition obind {A B} (o : outcome A) (f : A -> parser -> outcome B) : outcome B :=
  match o with Ret a p => f a p | Err e => Err e | Panic => Panic | NoFuel => NoFuel end.

Notation "'let*' ( x , p ) := o 'in' k" := (obind o (fun x p => k))
  (at level 10, x name, p name, o at level 100, k at level 200).

Definition len (p : parser) : nat := length (args p).

Definition peek (p : parser) : bytes :=
  match args p !! pos p with Some s => s | None => [] end.

Definition advance (p : parser) : outcome bytes :=
  match args p !! pos p with
  | Some s => Ret s (set_pos (S (pos p)) p)
  | None => Panic
  end.

Definition expect (s : bytes) (p : parser) : outcome unit :=
  match args p !! pos p with
  | None => Err (MExpectedToken s None)
  | Some x => if bytes_eqb x s then Ret tt (set_pos (S (pos p)) p) else Err (MExpectedToken s (Some x))
  end.

Definition addNode (p : parser) : outcome unit :=
  let p := set_nodes (S (nodes p)) p in
  if maxExprNodes <? nodes p then Err MTooManyNodes else Ret tt p.

(** ** Leaf arguments *)

Definition isTypeChar (c : ascii) : bool := byte_in c "bcfdlps".

(** The loop of [parseTypePredicate]: the final [expectType], or [None] at a
    bad character. *)
Fixpoint typeLoop (expectType : bool) (s : bytes) : option bool :=
  match s with
  | [] => Some expectType
  | c :: s =>
      if c =c "," then if expectType then None else typeLoop true s
      else if isTypeChar c then if negb expectType then None else typeLoop false s
      else None
  end.

Definition typeArg (val : bytes) : bool :=
  match val with
  | [] => false
  | _ => match typeLoop true val with Some false => true | _ => false end
  end.

(** [None] is every error: each names the whole argument. *)
Definition parseSize (s : bytes) : option sizeUnit :=
  match s with
  | [] => None
  | c :: s' =>
      let '(cmp, numStr) :=
        if c =c "+" then (cmpMore, s') else if c =c "-" then (cmpLess, s') else (cmpExact, s) in
      match last numStr with
      | None => None
      | Some u =>
          let '(unit, numStr) :=
            if byte_in u "cwbkMG" then (u, take (length numStr - 1) numStr) else ("b"%char, numStr) in
          match numStr with
          | [] => None
          | _ =>
              match ParseInt numStr with
              | inl _ => None
              | inr n => if (n <? 0)%Z then None else Some (mkSizeUnit n cmp unit)
              end
          end
      end
  end.

Definition numericArg (val : bytes) : option (Z * cmpOp) :=
  let '(cmp, numStr) :=
    match val with
    | c :: s => if c =c "+" then (cmpMore, s) else if c =c "-" then (cmpLess, s) else (cmpExact, val)
    | [] => (cmpExact, val)
    end in
  match ParseInt numStr with
  | inr n => Some (n, cmp)
  | inl ErrRange => Some (maxInt64, cmp)
  | inl ErrSyntax => None
  end.

Definition depthArg (val : bytes) : option Z :=
  match val with
  | c :: _ =>
      if (c =c "+") || (c =c "-") then None
      else match ParseInt val with inr n => if (n <? 0)%Z then None else Some n | inl _ => None end
  | [] => None
  end.

(** ** Symbolic modes *)

Fixpoint parseWho (who : Z) (s : bytes) : Z * bytes :=
  match s with
  | c :: s' =>
      if c =c "u" then parseWho (Z.lor who 4) s'
      else if c =c "g" then parseWho (Z.lor who 2) s'
      else if c =c "o" then parseWho (Z.lor who 1) s'
      else if c =c "a" then parseWho (Z.lor who 7) s'
      else (who, s)
  | [] => (who, s)
  end.

(** The loop over [rwxXst]; the class bits and the special bits. *)
Fixpoint parsePerms (mode who bits special : Z) (s : bytes) : option (Z * Z) :=
  match s with
  | [] => Some (bits, special)
  | c :: s =>
      if c =c "r" then parsePerms mode who (Z.lor bits 4) special s
      else if c =c "w" then parsePerms mode who (Z.lor bits 2) special s
      else if c =c "x" then parsePerms mode who (Z.lor bits 1) special s
      else if c =c "X" then parsePerms mode who (if has mode 73 then Z.lor bits 1 else bits) special s
      else if c =c "s" then
        let special := if has who 4 then Z.lor special 2048 else special in
        let special := if has who 2 then Z.lor special 1024 else special in
        parsePerms mode who bits special s
      else if c =c "t" then
        parsePerms mode who bits (if has who 1 then Z.lor special 512 else special) s
      else None
  end.

(** The permissions of a clause: one copied class, or a list of letters. *)
Definition clausePerms (mode who : Z) (s : bytes) : option (Z * Z) :=
  match s with
  | c :: s' =>
      if byte_in c "ugo" then
        let bits :=
          if c =c "u" then Z.land (Z.shiftr mode 6) 7
          else if c =c "g" then Z.land (Z.shiftr mode 3) 7 else Z.land mode 7 in
        match s' with [] => Some (bits, 0%Z) | _ => None end
      else parsePerms mode who 0 0 s
  | [] => Some (0, 0)%Z
  end.

(** Apply the bits of one class, which occupies [7 << shift]. *)
Definition applyClass (op : ascii) (shift bits mode : Z) : Z :=
  if op =c "=" then Z.lor (Z.ldiff mode (Z.shiftl 7 shift)) (Z.shiftl bits shift)
  else if op =c "+" then Z.lor mode (Z.shiftl bits shift)
  else Z.ldiff mode (Z.shiftl bits shift).

Definition applySpecial (op : ascii) (who special mode : Z) : Z :=
  let mode :=
    if op =c "=" then
      let mode := if has who 4 then Z.ldiff mode 2048 else mode in
      let mode := if has who 2 then Z.ldiff mode 1024 else mode in
      if has who 1 then Z.ldiff mode 512 else mode
    else mode in
  if (op =c "=") || (op =c "+") then Z.lor mode special else Z.ldiff mode special.

Definition symbolicClause (mode : Z) (clause : bytes) : option Z :=
  match clause with
  | [] => None
  | _ =>
      let '(who, s) := parseWho 0 clause in
      let who := if (who =? 0)%Z then 7%Z else who in
      match s with
      | [] => None
      | op :: s =>
          if negb (byte_in op "=+-") then None
          else
            match clausePerms mode who s with
            | None => None
            | Some (bits, special) =>
                let mode := if has who 4 then applyClass op 6 bits mode else mode in
                let mode := if has who 2 then applyClass op 3 bits mode else mode in
                let mode := if has who 1 then applyClass op 0 bits mode else mode in
                Some (applySpecial op who special mode)
            end
      end
  end.

Fixpoint symbolicClauses (mode : Z) (clauses : list bytes) : option Z :=
  match clauses with
  | [] => Some mode
  | c :: cs => match symbolicClause mode c with None => None | Some mode => symbolicClauses mode cs end
  end.

Definition parseSymbolicMode (s : bytes) : option Z := symbolicClauses 0 (Split "," s).

(** The value of [-perm] after the emptiness test; [None] is an invalid mode. *)
Definition permArg (val : bytes) : option (Z * ascii) :=
  let '(cmpMode, modeStr) :=
    match val with
    | c :: s => if c =c "-" then ("-"%char, s) else if c =c "/" then ("/"%char, s) else ("="%char, val)
    | [] => ("="%char, val)
    end in
  match modeStr with
  | [] => None
  | _ =>
      match (match ParseUint 8 32 modeStr with inr m => Some m | inl _ => parseSymbolicMode modeStr end) with
      | None => None
      | Some mode => if (4095 <? mode)%Z then None else Some (mode, cmpMode)
      end
  end.

(** ** Leaf predicates *)

Definition kindString (k : exprKind) : bytes :=
  lit match k with
  | exprName => "-name" | exprIName => "-iname" | exprPath => "-path" | exprIPath => "-ipath"
  | exprType => "-type" | exprSize => "-size" | exprEmpty => "-empty" | exprNewer => "-newer"
  | exprMtime => "-mtime" | exprMmin => "-mmin" | exprPerm => "-perm" | exprExecDir => "-execdir"
  | exprExec => "-exec" | exprQuit => "-quit" | exprPrint => "-print" | exprPrint0 => "-print0"
  | exprPrune => "-prune" | exprTrue => "-true" | exprFalse => "-false" | exprAnd => "-and"
  | exprOr => "-or" | exprNot => "-not"
  end.

(** [if p.pos >= len(p.args) { missing argument }; val := p.advance()]. *)
Definition argumentOf (name : bytes) (p : parser) : outcome bytes :=
  if len p <=? pos p then Err (MMissingArgument name) else advance p.

Definition parseStringPredicate (k : exprKind) (p : parser) : outcome expr :=
  let* (val, p) := argumentOf (kindString k) p in Ret (EStr k val) p.

(** [filepath.ToSlash] is the identity where the separator is a slash. *)
Definition parsePathPredicate (k : exprKind) (p : parser) : outcome expr :=
  let* (val, p) := argumentOf (kindString k) p in Ret (EStr k val) p.

Definition parseTypePredicate (p : parser) : outcome expr :=
  let* (val, p) := argumentOf (lit "-type") p in
  if typeArg val then Ret (EStr exprType val) p else Err (MUnknownType val).

Definition parseSizePredicate (p : parser) : outcome expr :=
  let* (val, p) := argumentOf (lit "-size") p in
  match parseSize val with
  | None => Err (MInvalidArgument val (lit "-size"))
  | Some su => Ret (ESize su) p
  end.

Definition parseNumericPredicate (k : exprKind) (p : parser) : outcome expr :=
  let* (val, p) := argumentOf (kindString k) p in
  match numericArg val with
  | None => Err (MInvalidArgument val (kindString k))
  | Some (n, cmp) => Ret (ENum k n cmp) p
  end.

Definition parseDepthOption (isMax : bool) (p : parser) : outcome expr :=
  let name := lit (if isMax then "-maxdepth" else "-mindepth") in
  let* (val, p) := argumentOf name p in
  match depthArg val with
  | None => Err (MInvalidArgument val name)
  | Some n => Ret (ELeaf exprTrue) (if isMax then set_maxDepth n p else set_minDepth n p)
  end.

Definition parsePermPredicate (p : parser) : outcome expr :=
  let* (val, p) := argumentOf (lit "-perm") p in
  match val with
  | [] => Err (MMissingArgument (lit "-perm"))
  | _ => match permArg val with
         | None => Err (MInvalidMode val)
         | Some (m, c) => Ret (EPerm m c) p
         end
  end.

(** The token loop of [parseExecLikePredicate] from [startPos]: the tokens
    before the semicolon, a batch-mode error, or the end of the arguments. *)
Inductive execScan := ExecTokens (l : list bytes) | ExecBatch | ExecMissing.

Fixpoint scanExec (prev : option bytes) (rest : list bytes) : execScan :=
  match rest with
  | [] => ExecMissing
  | tok :: rest =>
      if tok =s ";" then ExecTokens []
      else if (tok =s "+") && match prev with Some x => x =s "{}" | None => false end then ExecBatch
      else match scanExec (Some tok) rest with
           | ExecTokens l => ExecTokens (tok :: l)
           | r => r
           end
  end.

Definition parseExecLikePredicate (k : exprKind) (p : parser) : outcome expr :=
  let name := kindString k in
  if len p <=? pos p then Err (MMissingArgument name)
  else
    match scanExec None (drop (pos p) (args p)) with
    | ExecBatch => Err (MBatchMode name)
    | ExecMissing => Err (MMissingArgument name)
    | ExecTokens [] => Err (MMissingArgument name)
    | ExecTokens (cmd :: xs) => Ret (EExec k cmd xs) (set_pos (pos p + length (cmd :: xs) + 1) p)
    end.

Definition blockedPredicates (tok : bytes) : bool :=
  str_in tok ["-delete"; "-ok"; "-okdir"; "-fls"; "-fprint"; "-fprint0"; "-fprintf"; "-regex"; "-iregex"]%string.

(** The [switch] of [parsePrimary], after its token was consumed. *)
Definition predicate (tok : bytes) (p : parser) : outcome expr :=
  if tok =s "--help" then Err HelpRequested
  else if blockedPredicates tok then Err (MBlocked tok)
  else if tok =s "-name" then parseStringPredicate exprName p
  else if tok =s "-iname" then parseStringPredicate exprIName p
  else if str_in tok ["-path"; "-wholename"]%string then parsePathPredicate exprPath p
  else if str_in tok ["-ipath"; "-iwholename"]%string then parsePathPredicate exprIPath p
  else if tok =s "-type" then parseTypePredicate p
  else if tok =s "-size" then parseSizePredicate p
  else if tok =s "-empty" then Ret (ELeaf exprEmpty) p
  else if tok =s "-newer" then parsePathPredicate exprNewer p
  else if tok =s "-mtime" then parseNumericPredicate exprMtime p
  else if tok =s "-mmin" then parseNumericPredicate exprMmin p
  else if tok =s "-perm" then parsePermPredicate p
  else if tok =s "-quit" then Ret (ELeaf exprQuit) p
  else if tok =s "-print" then Ret (ELeaf exprPrint) p
  else if tok =s "-print0" then Ret (ELeaf exprPrint0) p
  else if tok =s "-prune" then Ret (ELeaf exprPrune) p
  else if tok =s "-maxdepth" then parseDepthOption true p
  else if tok =s "-mindepth" then parseDepthOption false p
  else if tok =s "-exec" then parseExecLikePredicate exprExec p
  else if tok =s "-execdir" then parseExecLikePredicate exprExecDir p
  else if tok =s "-true" then Ret (ELeaf exprTrue) p
  else if tok =s "-false" then Ret (ELeaf exprFalse) p
  else Err (MUnknownPredicate tok).

Definition parsePrimary (p : parser) : outcome expr :=
  if len p <=? pos p then Err MExpectedExpression
  else
    let* (_, p) := addNode p in
    let* (tok, p) := advance p in
    predicate tok p.

(** ** The grammar *)

Definition isOrTok (t : bytes) : bool := (t =s "-o") || (t =s "-or").
Definition isAndTok (t : bytes) : bool := (t =s "-a") || (t =s "-and").
Definition isNotTok (t : bytes) : bool := (t =s "!") || (t =s "-not").

Fixpoint parseOr (fuel : nat) (p : parser) : outcome expr :=
  match fuel with
  | 0 => NoFuel
  | S fuel => let* (left, p) := parseAnd fuel p in orLoop fuel left p
  end
with orLoop (fuel : nat) (left : expr) (p : parser) : outcome expr :=
  match fuel with
  | 0 => NoFuel
  | S fuel =>
      if isOrTok (peek p) then
        let* (_, p) := advance p in
        let* (_, p) := addNode p in
        let* (right, p) := parseAnd fuel p in
        orLoop fuel (EOr left right) p
      else Ret left p
  end
with parseAnd (fuel : nat) (p : parser) : outcome expr :=
  match fuel with
  | 0 => NoFuel
  | S fuel => let* (left, p) := parseUnary fuel p in andLoop fuel left p
  end
with andLoop (fuel : nat) (left : expr) (p : parser) : outcome expr :=
  match fuel with
  | 0 => NoFuel
  | S fuel =>
      let tok := peek p in
      let conjunct (p : parser) :=
        let* (_, p) := addNode p in
        let* (right, p) := parseUnary fuel p in
        andLoop fuel (EAnd left right) p in
      if isAndTok tok then let* (_, p) := advance p in conjunct p
      else if bytes_eqb tok [] || isOrTok tok || (tok =s ")") then Ret left p
      else conjunct p
  end
with parseUnary (fuel : nat) (p : parser) : outcome expr :=
  match fuel with
  | 0 => NoFuel
  | S fuel =>
      let tok := peek p in
      if isNotTok tok then
        let* (_, p) := advance p in
        let p := set_depth (S (depth p)) p in
        if maxExprDepth <? depth p then Err MTooDeep
        else
          let* (_, p) := addNode p in
          let* (operand, p) := parseUnary fuel p in
          Ret (ENot operand) (set_depth (depth p - 1) p)
      else if tok =s "(" then
        let* (_, p) := advance p in
        if peek p =s ")" then Err MEmptyParens
        else
          let p := set_depth (S (depth p)) p in
          if maxExprDepth <? depth p then Err MTooDeep
          else
            let* (e, p) := parseOr fuel p in
            let* (_, p) := expect (lit ")") (set_depth (depth p - 1) p) in
            Ret e p
      else parsePrimary p
  end.

Record parseResult := mkResult { pr_expr : option expr; pr_maxDepth : Z; pr_minDepth : Z }.

Definition initParser (args : list bytes) : parser := mkParser args 0 0 0 (-1) (-1).

(** Enough for every argument list: a token costs at most three nested calls. *)
Definition fuelFor (args : list bytes) : nat := 3 * length args + 3.

Definition parseExpression (argv : list bytes) : outcome parseResult :=
  match argv with
  | [] => Ret (mkResult None (-1) (-1)) (initParser [])
  | _ =>
      let* (e, p) := parseOr (fuelFor argv) (initParser argv) in
      match args p !! pos p with
      | Some x => Err (MUnexpectedArgument x)
      | None => Ret (mkResult (Some e) (maxDepth p) (minDepth p)) p
      end
  end.

(** * The grammar, declaratively

    [d] bounds the nesting of negations and parentheses; [s] lists the depth
    options met, in order. *)

Abbreviation depthOption := (bool * Z)%type.

Definition strPreds : list (bytes * exprKind) :=
  [(lit "-name", exprName); (lit "-iname", exprIName); (lit "-path", exprPath);
   (lit "-wholename", exprPath); (lit "-ipath", exprIPath); (lit "-iwholename", exprIPath);
   (lit "-newer", exprNewer)].

Definition numPreds : list (bytes * exprKind) := [(lit "-mtime", exprMtime); (lit "-mmin", exprMmin)].

Definition execPreds : list (bytes * exprKind) := [(lit "-exec", exprExec); (lit "-execdir", exprExecDir)].

Definition plainPreds : list (bytes * exprKind) :=
  [(lit "-empty", exprEmpty); (lit "-quit", exprQuit); (lit "-print", exprPrint);
   (lit "-print0", exprPrint0); (lit "-prune", exprPrune); (lit "-true", exprTrue);
   (lit "-false", exprFalse)].

(** A command template: no semicolon, and no [+] right after [{}]. *)
Definition execTemplate (l : list bytes) : Prop :=
  (lit ";" ∉ l) /\ (forall i, ~ (l !! i = Some (lit "{}") /\ l !! S i = Some (lit "+"))).

Inductive leaf_g : list bytes -> expr -> list depthOption -> Prop :=
| g_str t k v : (t, k) ∈ strPreds -> leaf_g [t; v] (EStr k v) []
| g_type v : typeArg v = true -> leaf_g [lit "-type"; v] (EStr exprType v) []
| g_size v su : parseSize v = Some su -> leaf_g [lit "-size"; v] (ESize su) []
| g_num t k v n c : (t, k) ∈ numPreds -> numericArg v = Some (n, c) -> leaf_g [t; v] (ENum k n c) []
| g_perm v m c : v <> [] -> permArg v = Some (m, c) -> leaf_g [lit "-perm"; v] (EPerm m c) []
| g_plain t k : (t, k) ∈ plainPreds -> leaf_g [t] (ELeaf k) []
| g_depth (isMax : bool) v n : depthArg v = Some n ->
    leaf_g [lit (if isMax then "-maxdepth" else "-mindepth"); v] (ELeaf exprTrue) [(isMax, n)]
| g_exec t k cmd xs : (t, k) ∈ execPreds -> execTemplate (cmd :: xs) ->
    leaf_g (t :: (cmd :: xs) ++ [lit ";"]) (EExec k cmd xs) [].

Definition conj_tok (t : list bytes) : Prop := t = [] \/ t = [lit "-a"] \/ t = [lit "-and"].

Inductive unary_g : nat -> list bytes -> expr -> list depthOption -> Prop :=
| u_leaf d l e s : leaf_g l e s -> unary_g d l e s
| u_not d t l e s : isNotTok t = true -> unary_g d l e s -> unary_g (S d) (t :: l) (ENot e) s
| u_paren d l e s : or_g d l e s -> unary_g (S d) (lit "(" :: l ++ [lit ")"]) e s
with and_g : nat -> list bytes -> expr -> list depthOption -> Prop :=
| a_one d l e s : unary_g d l e s -> and_g d l e s
| a_and d l1 e1 s1 t l2 e2 s2 :
    and_g d l1 e1 s1 -> conj_tok t -> unary_g d l2 e2 s2 ->
    and_g d (l1 ++ t ++ l2) (EAnd e1 e2) (s1 ++ s2)
with or_g : nat -> list bytes -> expr -> list depthOption -> Prop :=
| o_one d l e s : and_g d l e s -> or_g d l e s
| o_or d l1 e1 s1 t l2 e2 s2 :
    or_g d l1 e1 s1 -> isOrTok t = true -> and_g d l2 e2 s2 ->
    or_g d (l1 ++ t :: l2) (EOr e1 e2) (s1 ++ s2).

(** The number of nodes. *)
Fixpoint size (e : expr) : nat :=
  match e with
  | EAnd l r | EOr l r => size l + S (size r)
  | ENot e => S (size e)
  | _ => 1
  end.

(** The last setting of an option wins. *)
Definition setting (isMax : bool) (s : list depthOption) (z : Z) : Z :=
  fold_left (fun z o => if Bool.eqb (fst o) isMax then snd o else z) s z.

(** ** The parser implements the grammar *)

Definition rest (p : parser) : list bytes := drop (pos p) (args p).

(** The state after the tokens [l] of an expression [e]. *)
Definition after (p : parser) (l : list bytes) (n : nat) (s : list depthOption) : parser :=
  mkParser (args p) (pos p + length l) (depth p) (nodes p + n)
    (setting true s (maxDepth p)) (setting false s (minDepth p)).

Lemma setting_app b s1 s2 z : setting b (s1 ++ s2) z = setting b s2 (setting b s1 z).
Proof. apply fold_left_app. Qed.

Lemma after_after p l1 n1 s1 l2 n2 s2 :
  after (after p l1 n1 s1) l2 n2 s2 = after p (l1 ++ l2) (n1 + n2) (s1 ++ s2).
Proof. unfold after. cbn. by rewrite length_app, !setting_app, !Nat.add_assoc. Qed.

Lemma rest_after p l n s r : rest p = l ++ r -> rest (after p l n s) = r.
Proof. unfold rest, after. cbn. intros H. by rewrite <- drop_drop, H, drop_app_length. Qed.

Lemma rest_lookup p : args p !! pos p = head (rest p).
Proof. unfold rest. by rewrite head_lookup, lookup_drop, Nat.add_0_r. Qed.

Lemma peek_rest p : peek p = default [] (head (rest p)).
Proof. unfold peek. rewrite rest_lookup. by destruct (head _). Qed.

Lemma len_pos_rest p : (len p <=? pos p) = match rest p with [] => true | _ => false end.
Proof.
  unfold len, rest. destruct (drop (pos p) (args p)) eqn:E.
  - apply Nat.leb_le. apply (f_equal length) in E. rewrite length_drop in E. cbn in E. lia.
  - apply Nat.leb_gt. apply (f_equal length) in E. rewrite length_drop in E. cbn in E. lia.
Qed.

Lemma after_nil p : after p [] 0 [] = p.
Proof. unfold after. cbn. rewrite !Nat.add_0_r. by destruct p. Qed.

Lemma advance_cons p x r : rest p = x :: r -> advance p = Ret x (after p [x] 0 []).
Proof.
  intros H. unfold advance. rewrite rest_lookup, H. cbn. unfold after, set_pos. cbn.
  by rewrite Nat.add_0_r, Nat.add_1_r.
Qed.

Lemma advance_nil p : rest p = [] -> advance p = Panic.
Proof. intros H. unfold advance. by rewrite rest_lookup, H. Qed.

Lemma addNode_eq p :
  addNode p = if maxExprNodes <? S (nodes p) then Err MTooManyNodes else Ret tt (after p [] 1 []).
Proof.
  unfold addNode, set_nodes, after. cbn. rewrite Nat.add_0_r, Nat.add_1_r. done.
Qed.

(** [scanExec] accepts exactly the templates that a semicolon ends. *)
Lemma scanExec_sound prev r l :
  scanExec prev r = ExecTokens l ->
  exists r', r = l ++ lit ";" :: r' /\ execTemplate l /\
    (prev = Some (lit "{}") -> head l <> Some (lit "+")).
Proof.
  revert prev l. induction r as [|x r IH]; intros prev l; cbn [scanExec]; [done|].
  destruct (bytes_eqb x (lit ";")) eqn:Ex.
  { apply bytes_eqb_true in Ex. intros [= <-]. subst x. exists r. split; [done|]. split; [|done].
    split; [apply not_elem_of_nil|]. intros i [H _]. by rewrite lookup_nil in H. }
  apply bytes_eqb_false in Ex.
  destruct (bytes_eqb x (lit "+") && _) eqn:Eb; [done|].
  destruct (scanExec (Some x) r) as [l'| |] eqn:Es; intros [= <-].
  apply IH in Es as (r' & -> & [Hsemi Hplus] & Hhd). exists r'. split; [done|]. split; [split|].
  - by rewrite not_elem_of_cons.
  - intros [|i] [H1 H2]; cbn in H1, H2; [|by apply (Hplus i)].
    injection H1 as ->. apply Hhd; [done|]. by rewrite head_lookup.
  - intros ->. cbn. intros [= ->]. by rewrite !bytes_eqb_refl in Eb.
Qed.

Lemma scanExec_complete l prev r :
  execTemplate l -> (prev = Some (lit "{}") -> head l <> Some (lit "+")) ->
  scanExec prev (l ++ lit ";" :: r) = ExecTokens l.
Proof.
  revert prev. induction l as [|x l IH]; intros prev [Hsemi Hplus] Hhd; cbn [app scanExec].
  { by rewrite bytes_eqb_refl. }
  rewrite not_elem_of_cons in Hsemi. destruct Hsemi as [Hx Hsemi].
  rewrite (proj2 (bytes_eqb_false x (lit ";"))) by done.
  assert (bytes_eqb x (lit "+") && match prev with Some x => x =s "{}" | None => false end = false) as ->.
  { destruct prev as [y|]; [|apply andb_false_r]. apply andb_false_iff.
    destruct (bytes_eqb y (lit "{}")) eqn:Ey; [left|by right].
    apply bytes_eqb_true in Ey. apply bytes_eqb_false. intros ->. apply Hhd; by rewrite ?Ey. }
  rewrite IH; [done| |].
  - split; [done|]. intros i. apply (Hplus (S i)).
  - intros [= ->] Hh. apply (Hplus 0). split; [done|]. cbn. by rewrite head_lookup in Hh.
Qed.

Lemma rest_exec p l r :
  rest p = l ++ lit ";" :: r -> set_pos (pos p + length l + 1) p = after p (l ++ [lit ";"]) 0 [].
Proof. intros _. unfold set_pos, after. cbn. rewrite length_app, !Nat.add_0_r, Nat.add_assoc. done. Qed.

(** *** Leaves *)

(** Evaluate the tests of a [switch] on a known token. *)
Ltac known_token :=
  repeat (lazymatch goal with
          | |- (if ?b then _ else _) = _ =>
              let v := eval vm_compute in b in change b with v; cbv iota
          end).

Lemma argumentOf_cons name p v r : rest p = v :: r -> argumentOf name p = Ret v (after p [v] 0 []).
Proof. intros H. unfold argumentOf. rewrite len_pos_rest, H. by eapply advance_cons. Qed.

Lemma parseExec_complete k p cmd xs r :
  execTemplate (cmd :: xs) -> rest p = (cmd :: xs) ++ lit ";" :: r ->
  parseExecLikePredicate k p = Ret (EExec k cmd xs) (after p ((cmd :: xs) ++ [lit ";"]) 0 []).
Proof.
  intros Ht Hr. unfold parseExecLikePredicate. rewrite len_pos_rest. fold (rest p). rewrite Hr.
  cbn [app]. rewrite app_comm_cons, scanExec_complete by done.
  f_equal. by eapply rest_exec.
Qed.

Lemma predicate_complete t l e s p r :
  leaf_g (t :: l) e s -> rest p = l ++ r -> predicate t p = Ret e (after p l 0 s).
Proof.
  intros Hg Hr. inversion Hg; subst; cbn [app] in Hr;
    repeat match goal with
    | Hin : _ ∈ _ |- _ => unfold strPreds, numPreds, plainPreds, execPreds in Hin;
                          rewrite ?elem_of_cons, elem_of_nil in Hin
    end; destruct_or?; simplify_eq; try destruct isMax; unfold predicate; known_token.
  all: unfold parseStringPredicate, parsePathPredicate, parseTypePredicate, parseSizePredicate,
         parseNumericPredicate, parseDepthOption, parsePermPredicate.
  all: try (erewrite argumentOf_cons by exact Hr; cbn [obind]).
  all: try (by unfold after; rewrite Nat.add_0_r; destruct p).
  all: try match goal with H : _ = _ |- _ => rewrite H end; try done.
  all: try (rewrite <- app_assoc in Hr; by apply parseExec_complete with r).
  all: try (by rewrite after_nil).
  destruct v; [done|]. done.
Qed.

Ltac in_table :=
  unfold strPreds, numPreds, plainPreds, execPreds; solve [repeat first [left; reflexivity | right]].

(** What an outcome from the state [p] promises: the consumed tokens derive the
    tree; [base] nodes of the tree were counted before.  [nofuel] is what
    running out of fuel would imply. *)
Definition parses (base : nat) (g : list bytes -> expr -> list depthOption -> Prop)
    (p : parser) (o : outcome expr) (nofuel : Prop) : Prop :=
  match o with
  | Ret e q => exists l n s, g l e s /\ rest p = l ++ rest q /\ q = after p l n s /\
                            n + base = size e /\ nodes q <= maxExprNodes
  | Err _ => True
  | Panic => False
  | NoFuel => nofuel
  end.

Lemma argumentOf_parses name p g base (k : bytes -> parser -> outcome expr) nofuel :
  (forall v r, rest p = v :: r -> parses base g p (k v (after p [v] 0 [])) nofuel) ->
  parses base g p (obind (argumentOf name p) k) nofuel.
Proof.
  intros H. unfold argumentOf. rewrite len_pos_rest.
  destruct (rest p) as [|v r] eqn:Hr; [done|]. rewrite (advance_cons _ _ _ Hr). cbn [obind]. by eapply H.
Qed.

Lemma parses_leaf1 p v r e s t :
  rest p = v :: r -> nodes p <= maxExprNodes -> leaf_g [t; v] e s -> size e = 1 ->
  parses 1 (fun l => leaf_g (t :: l)) p (Ret e (after p [v] 0 s)) False.
Proof.
  intros Hr Hn Hg Hs. exists [v], 0, s. rewrite (rest_after _ _ _ _ r) by done. rewrite Hs.
  split_and!; try done. unfold after. cbn. lia.
Qed.

Lemma parses_leaf0 p e t :
  nodes p <= maxExprNodes -> leaf_g [t] e [] -> size e = 1 ->
  parses 1 (fun l => leaf_g (t :: l)) p (Ret e p) False.
Proof.
  intros Hn Hg Hs. exists [], 0, []. rewrite after_nil, Hs. by split_and!.
Qed.

Lemma parseExec_parses t k p :
  (t, k) ∈ execPreds -> nodes p <= maxExprNodes ->
  parses 1 (fun l => leaf_g (t :: l)) p (parseExecLikePredicate k p) False.
Proof.
  intros Ht Hn. unfold parseExecLikePredicate. destruct (len p <=? pos p); [done|].
  destruct (scanExec None _) as [[|cmd xs]| |] eqn:Es; try done.
  apply scanExec_sound in Es as (r & Hr & Htpl & _).
  rewrite (rest_exec _ (cmd :: xs) r) by done.
  exists ((cmd :: xs) ++ [lit ";"]), 0, []. rewrite (rest_after _ _ _ _ r), <- app_assoc by (by rewrite <- app_assoc).
  split_and!; try done; [by constructor|]. unfold after. cbn. lia.
Qed.

Lemma predicate_parses t p :
  nodes p <= maxExprNodes -> parses 1 (fun l => leaf_g (t :: l)) p (predicate t p) False.
Proof.
  intros Hn. unfold predicate, str_in. cbn [existsb].
  repeat match goal with
  | |- context [if ?b then _ else _] =>
      lazymatch b with
      | bytes_eqb t ?x || ?c => destruct (bytes_eqb t x) eqn:?; cbn [orb]
      | false => cbv iota
      | _ => destruct b eqn:?
      end
  end; try done.
  all: match goal with E : bytes_eqb ?t _ = true |- _ => apply bytes_eqb_true in E; subst t end.
  all: unfold parseStringPredicate, parsePathPredicate, parseTypePredicate, parseSizePredicate,
         parseNumericPredicate, parseDepthOption, parsePermPredicate.
  all: try (apply argumentOf_parses; intros v r Hr).
  all: repeat match goal with |- parses _ _ _ (match ?x with _ => _ end) _ => destruct x eqn:? end; try done.
  all: try (eapply parses_leaf1; [eassumption|done|econstructor; (done||in_table)|done]).
  all: try (apply parses_leaf0; [done|econstructor; in_table|done]).
  all: try (apply parseExec_parses; [in_table|done]).
  all: match goal with
  | |- context [set_maxDepth ?z (after ?p [?v] 0 [])] =>
      by eapply (parses_leaf1 p v _ (ELeaf exprTrue) [(true, z)]); [eassumption|done|apply (g_depth true)|]
  | |- context [set_minDepth ?z (after ?p [?v] 0 [])] =>
      by eapply (parses_leaf1 p v _ (ELeaf exprTrue) [(false, z)]); [eassumption|done|apply (g_depth false)|]
  end.
Qed.

Lemma parsePrimary_parses f p :
  parses 0 leaf_g p (parsePrimary p) f.
Proof.
  unfold parsePrimary. rewrite len_pos_rest, addNode_eq.
  destruct (rest p) as [|t r] eqn:Hr; [done|].
  destruct (Nat.ltb_spec maxExprNodes (S (nodes p))) as [|Hn]; [done|]. cbn [obind].
  rewrite (advance_cons _ t r) by (by apply (rest_after p [] 1 [] (t :: r))).
  cbn [obind]. rewrite after_after. cbn [app Nat.add].
  pose proof (predicate_parses t (after p [t] 1 [])) as Hp.
  destruct (predicate t _) as [e q| | |]; try done.
  - destruct Hp as (l & n & s & Hg & Hl & -> & Hsz & Hq); [cbn; lia|].
    rewrite after_after. exists (t :: l), (1 + n), s.
    rewrite (rest_after p [t] 1 [] r) in Hl by done. rewrite after_after in *.
    split_and!; try done; [by rewrite Hr, Hl|lia].
  - apply Hp. cbn. lia.
  - exfalso. apply Hp. cbn. lia.
Qed.

(** *** The grammar *)

Definition depth_left (p : parser) : nat := maxExprDepth - depth p.

Definition room (p : parser) : nat := length (rest p).

(** Every derivation consumes a token. *)
Lemma leaf_nonempty l e s : leaf_g l e s -> l <> [].
Proof. by destruct 1. Qed.

Lemma unary_nonempty d l e s : unary_g d l e s -> l <> [].
Proof. destruct 1; [by eapply leaf_nonempty|done..]. Qed.

Lemma and_nonempty d l e s : and_g d l e s -> l <> [].
Proof.
  induction 1 as [????|???????? _ IH _ _]; [by eapply unary_nonempty|].
  intros [? _]%app_nil. done.
Qed.

Lemma or_nonempty d l e s : or_g d l e s -> l <> [].
Proof.
  induction 1 as [????|???????? _ IH _ _]; [by eapply and_nonempty|].
  intros [? _]%app_nil. done.
Qed.

(** The loops extend what was parsed before them. *)
Definition extends (g : list bytes -> expr -> list depthOption -> Prop) (left : expr)
    (l : list bytes) (e : expr) (s : list depthOption) : Prop :=
  forall l0 s0, g l0 left s0 -> g (l0 ++ l) e (s0 ++ s).

Lemma nodes_after p l n s : nodes (after p l n s) = nodes p + n.
Proof. done. Qed.

(** Sequencing: what the continuation consumes is appended. *)
Lemma parses_bind base1 g1 base g p o k (nf1 nf : Prop) :
  parses base1 g1 p o nf1 -> (nf1 -> nf) ->
  (forall e l n s, g1 l e s -> n + base1 = size e -> nodes p + n <= maxExprNodes ->
     rest p = l ++ rest (after p l n s) ->
     parses (base + n) (fun l' e' s' => g (l ++ l') e' (s ++ s')) (after p l n s)
       (k e (after p l n s)) nf) ->
  parses base g p (obind o k) nf.
Proof.
  intros Ho Hnf Hk. destruct o as [e q| | |]; cbn [obind]; [|done|done|by apply Hnf].
  destruct Ho as (l & n & s & Hg & Hr & -> & Hsz & Hn).
  specialize (Hk e l n s Hg Hsz Hn Hr). destruct (k e _) as [e' q'| | |]; try done.
  destruct Hk as (l' & n' & s' & Hg' & Hr' & -> & Hsz' & Hn'). rewrite after_after in *.
  exists (l ++ l'), (n + n'), (s ++ s'). split_and!; try done; [|lia].
  by rewrite Hr, Hr', app_assoc.
Qed.

Lemma parses_token base g p k nf x r :
  rest p = x :: r ->
  parses base (fun l => g (x :: l)) (after p [x] 0 []) (k x (after p [x] 0 [])) nf ->
  parses base g p (obind (advance p) k) nf.
Proof.
  intros Hr Hk. rewrite (advance_cons _ _ _ Hr). cbn [obind]. destruct (k x _) as [e q| | |]; try done.
  destruct Hk as (l & n & s & Hg & Hl & -> & Hsz & Hn). rewrite after_after in *.
  exists (x :: l), n, s. split_and!; try done. rewrite Hr. cbn. f_equal.
  by rewrite (rest_after _ _ _ _ r) in Hl.
Qed.

Lemma parses_node base g p k nf :
  (nodes (after p [] 1 []) <= maxExprNodes ->
   parses (S base) g (after p [] 1 []) (k tt (after p [] 1 [])) nf) ->
  parses base g p (obind (addNode p) k) nf.
Proof.
  intros Hk. rewrite addNode_eq. destruct (Nat.ltb_spec maxExprNodes (S (nodes p))) as [|Hn]; [done|].
  cbn [obind]. specialize (Hk ltac:(rewrite nodes_after; lia)). destruct (k tt _) as [e q| | |]; try done.
  destruct Hk as (l & n & s & Hg & Hl & -> & Hsz & Hn'). rewrite after_after in *.
  rewrite (rest_after p [] 1 [] (rest p)) in Hl by done.
  exists l, (S n), s. split_and!; try done. lia.
Qed.

Lemma parses_ret base g p e :
  g [] e [] -> size e = base -> nodes p <= maxExprNodes -> forall nf, parses base g p (Ret e p) nf.
Proof. intros Hg Hs Hn nf. exists [], 0, []. by rewrite after_nil. Qed.

(** A nested call runs with the depth raised by one. *)
Lemma parses_nested base g p o nf :
  parses base g (set_depth (S (depth p)) p) o nf ->
  parses base g p (let* (e, q) := o in Ret e (set_depth (depth q - 1) q)) nf.
Proof.
  destruct o as [e q| | |]; try done. intros (l & n & s & Hg & Hl & -> & Hsz & Hn).
  exists l, n, s. split_and!; try done. cbn. unfold after, set_depth. cbn. by rewrite Nat.sub_0_r.
Qed.

Lemma parses_mono base (g g' : list bytes -> expr -> list depthOption -> Prop) p o (nf nf' : Prop) :
  parses base g p o nf -> (forall l e s, g l e s -> g' l e s) -> (nf -> nf') -> parses base g' p o nf'.
Proof.
  intros Ho Hg Hnf. destruct o as [e q| | |]; try done; [|by apply Hnf].
  destruct Ho as (l & n & s & ? & ?). exists l, n, s. split; [by apply Hg|done].
Qed.

Lemma peek_token p (f : bytes -> bool) :
  f [] = false -> f (peek p) = true -> exists x r, rest p = x :: r /\ f x = true.
Proof. rewrite peek_rest. destruct (rest p) as [|x r]; cbn; [congruence|]. eauto. Qed.

(** Closing a parenthesis. *)
Lemma parses_close d p o nf :
  parses 0 (or_g d) (set_depth (S (depth p)) p) o nf ->
  parses 0 (fun l e s => unary_g (S d) (lit "(" :: l) e s) p
    (let* (e, q) := o in let* (_, q) := expect (lit ")") (set_depth (depth q - 1) q) in Ret e q) nf.
Proof.
  destruct o as [e q| | |]; try done. intros (l & n & s & Hg & Hl & -> & Hsz & Hn). cbn [obind].
  change (rest (after (set_depth (S (depth p)) p) l n s)) with (rest (after p l n s)) in Hl.
  change (rest (set_depth (S (depth p)) p)) with (rest p) in Hl.
  replace (set_depth _ _) with (after p l n s) by (unfold after, set_depth; cbn; by rewrite Nat.sub_0_r).
  unfold expect. rewrite rest_lookup. destruct (rest (after p l n s)) as [|x r] eqn:Hr; [done|]. cbn [head hd_error].
  destruct (bytes_eqb x (lit ")")) eqn:Ex; [|done]. apply bytes_eqb_true in Ex. subst x. cbn [obind].
  assert (set_pos (S (pos (after p l n s))) (after p l n s) = after p (l ++ [lit ")"]) n s) as ->.
  { unfold set_pos, after. cbn. rewrite length_app. cbn. f_equal. lia. }
  exists (l ++ [lit ")"]), n, s. split_and!; try done; [by apply u_paren|].
  by rewrite (rest_after _ _ _ _ r), <- app_assoc by (by rewrite <- app_assoc).
Qed.

(** *** Soundness and totality, by induction on the fuel *)

Definition or_ok (f : nat) : Prop := forall p, depth p <= maxExprDepth ->
  parses 0 (or_g (depth_left p)) p (parseOr f p) (f < 3 * room p + 3).
Definition orLoop_ok (f : nat) : Prop := forall e p, depth p <= maxExprDepth -> nodes p <= maxExprNodes ->
  parses (size e) (extends (or_g (depth_left p)) e) p (orLoop f e p) (f < 3 * room p + 2).
Definition and_ok (f : nat) : Prop := forall p, depth p <= maxExprDepth ->
  parses 0 (and_g (depth_left p)) p (parseAnd f p) (f < 3 * room p + 2).
Definition andLoop_ok (f : nat) : Prop := forall e p, depth p <= maxExprDepth -> nodes p <= maxExprNodes ->
  parses (size e) (extends (and_g (depth_left p)) e) p (andLoop f e p) (f < 3 * room p + 2).
Definition unary_ok (f : nat) : Prop := forall p, depth p <= maxExprDepth ->
  parses 0 (unary_g (depth_left p)) p (parseUnary f p) (f < 3 * room p + 1).

Lemma room_after p l n s : rest p = l ++ rest (after p l n s) -> room (after p l n s) + length l = room p.
Proof. intros H. unfold room. rewrite H, length_app. lia. Qed.

Lemma nonempty_length {A} (l : list A) : l <> [] -> 1 <= length l.
Proof. destruct l; cbn; [done|lia]. Qed.

Lemma room_token p x r l n s : rest p = x :: r -> l = [x] -> room (after p l n s) + 1 = room p.
Proof. intros H ->. unfold room. rewrite (rest_after _ _ _ _ r), H by done. cbn. lia. Qed.

(** Negation: the nested operand, one node and one level deeper. *)
Lemma parses_not p t r (o : parser -> outcome expr) (nf : Prop) :
  rest p = t :: r -> isNotTok t = true -> depth p < maxExprDepth ->
  (forall q, room q + 1 = room p -> depth q = S (depth p) ->
     parses 0 (unary_g (depth_left q)) q (o q) nf) ->
  parses 0 (fun l => unary_g (depth_left p) (t :: l)) (after p [t] 0 [])
    (let* (_, p) := addNode (set_depth (S (depth p)) (after p [t] 0 [])) in
     let* (operand, p) := o p in
     Ret (ENot operand) (set_depth (depth p - 1) p)) nf.
Proof.
  intros Hr Ht Hd Ho. set (q := set_depth _ _).
  assert (parses 0 (fun l => unary_g (depth_left p) (t :: l)) q
    (let* (_, p) := addNode q in let* (e, p) := o p in Ret (ENot e) p) nf) as H.
  { apply parses_node. intros Hn. eapply parses_bind; [apply Ho| |].
    - unfold room. rewrite (rest_after q [] 1 [] r), Hr; [cbn; lia|by apply (rest_after p [t] 0 [] r)].
    - done.
    - done.
    - intros e l n s Hg Hsz Hn2 Hl. apply parses_ret; [|cbn [size]; lia|rewrite nodes_after; lia].
      rewrite !app_nil_r. replace (depth_left p) with (S (depth_left (after q [] 1 []))).
      + by apply u_not.
      + unfold depth_left, after, q. cbn [set_depth depth]. lia. }
  apply (parses_nested _ _ (after p [t] 0 [])) in H. destruct (addNode q) as [? q1| | |]; try done.
  cbn [obind] in *. by destruct (o q1).
Qed.

Lemma parseOr_ok f : and_ok f -> orLoop_ok f -> or_ok (S f).
Proof.
  intros IHand IHorl p Hd. cbn [parseOr]. eapply parses_bind; [by apply IHand|lia|].
  intros e l n s Hg Hsz Hn Hr. pose proof (room_after _ _ _ _ Hr).
  pose proof (nonempty_length _ (and_nonempty _ _ _ _ Hg)).
  replace (0 + n) with (size e) by lia.
  eapply parses_mono; [by apply IHorl| |lia]. intros l' e' s' Hx. apply Hx. by apply o_one.
Qed.

Lemma orLoop_step f : and_ok f -> orLoop_ok f -> orLoop_ok (S f).
Proof.
  intros IHand IHorl e p Hd Hnp. cbn [orLoop]. destruct (isOrTok (peek p)) eqn:Et.
  2:{ apply parses_ret; [|done|done]. intros l0 s0. by rewrite !app_nil_r. }
  apply peek_token in Et as (t & r & Hr & Et); [|done].
  eapply parses_token; [done|]. pose proof (room_token p t r [t] 1 [] Hr eq_refl) as Hroom.
  apply parses_node. intros Hn1. rewrite after_after.
  eapply parses_bind; [by apply IHand|cbn [app Nat.add]; lia|].
  intros e' l n s Hg Hsz Hn2 Hl. rewrite after_after in *. cbn [app Nat.add] in *.
  pose proof (f_equal length Hl) as Hlen. rewrite length_app in Hlen. fold (room (after p [t] 1 [])) in Hlen.
  replace (S (size e + n)) with (size (EOr e e')) by (cbn [size]; lia).
  eapply parses_mono; [by apply IHorl; [|rewrite nodes_after in *; lia]| |unfold room in *; lia].
  intros l' e2 s' Hx l0 s0 Hl0. rewrite app_comm_cons, !app_assoc. apply Hx. by apply o_or.
Qed.

Lemma parseAnd_ok f : unary_ok f -> andLoop_ok f -> and_ok (S f).
Proof.
  intros IHun IHandl p Hd. cbn [parseAnd]. eapply parses_bind; [by apply IHun|lia|].
  intros e l n s Hg Hsz Hn Hr. pose proof (room_after _ _ _ _ Hr).
  pose proof (nonempty_length _ (unary_nonempty _ _ _ _ Hg)).
  replace (0 + n) with (size e) by lia.
  eapply parses_mono; [by apply IHandl| |lia]. intros l' e' s' Hx. apply Hx. by apply a_one.
Qed.

Lemma andLoop_step f : unary_ok f -> andLoop_ok f -> andLoop_ok (S f).
Proof.
  intros IHun IHandl e p Hd Hnp. cbn [andLoop]. cbv zeta. set (conjunct := fun p : parser => obind (addNode p) _).
  assert (forall t, conj_tok t -> rest p = t ++ rest (after p t 0 []) ->
    parses (size e) (fun l => extends (and_g (depth_left p)) e (t ++ l)) (after p t 0 [])
      (conjunct (after p t 0 [])) (S f < 3 * room p + 2)) as Hconj.
  { intros t Ht Hr. unfold conjunct. apply parses_node. intros Hn1. rewrite after_after, app_nil_r in *.
    cbn [app Nat.add] in *.
    assert (room (after p t 1 []) <= room p) by (unfold room; rewrite Hr, length_app; cbn; lia).
    eapply parses_bind; [by apply IHun|lia|].
    intros e' l n s Hg Hsz Hn2 Hl. rewrite after_after in *. cbn [app Nat.add] in *.
    pose proof (nonempty_length _ (unary_nonempty _ _ _ _ Hg)).
    pose proof (f_equal length Hl) as Hlen. rewrite length_app in Hlen. fold (room (after p t 1 [])) in Hlen.
    replace (S (size e + n)) with (size (EAnd e e')) by (cbn [size]; lia).
    eapply parses_mono; [by apply IHandl; [|rewrite nodes_after in *; lia]| |unfold room in *; lia].
    intros l' e2 s' Hx l0 s0 Hl0. rewrite !app_assoc. apply Hx. rewrite <- app_assoc. by apply a_and. }
  destruct (isAndTok (peek p)) eqn:Et.
  { apply peek_token in Et as (t & r & Hr & Et); [|done]. eapply parses_token; [done|].
    apply (Hconj [t]); [|by rewrite (rest_after _ _ _ _ r)].
    apply orb_true_iff in Et as [->%bytes_eqb_true| ->%bytes_eqb_true]; [by right; left|by right; right]. }
  destruct (_ || _ || _).
  + apply parses_ret; [|done|done]. intros l0 s0. by rewrite !app_nil_r.
  + specialize (Hconj [] ltac:(by left)). rewrite after_nil in Hconj. by apply Hconj.
Qed.

Lemma parseUnary_ok f : unary_ok f -> or_ok f -> unary_ok (S f).
Proof.
  intros IHun IHor p Hd. cbn [parseUnary]. cbv zeta. destruct (isNotTok (peek p)) eqn:Et.
  { apply peek_token in Et as (t & r & Hr & Et); [|done]. eapply parses_token; [done|].
    destruct (Nat.ltb_spec maxExprDepth (S (depth p))) as [|Hd'].
    { cbn [depth set_depth after]. by rewrite (proj2 (Nat.ltb_lt _ _)). }
    cbn [depth set_depth after]. rewrite (proj2 (Nat.ltb_ge _ _)) by done.
    eapply (parses_not p t r); [done|done|done|].
    intros q Hq Hdq. eapply parses_mono; [apply IHun; lia|done|lia]. }
  destruct (bytes_eqb (peek p) (lit "(")) eqn:Ep.
  2:{ eapply parses_mono; [apply (parsePrimary_parses False)|by constructor|done]. }
  apply (peek_token p (fun x => bytes_eqb x (lit "("))) in Ep as (t & r & Hr & Ep%bytes_eqb_true); [|done].
  subst t. eapply parses_token; [done|]. pose proof (room_token p _ r [lit "("] 0 [] Hr eq_refl) as Hroom.
  destruct (bytes_eqb (peek (after p [lit "("] 0 [])) (lit ")")); [done|].
  destruct (Nat.ltb_spec maxExprDepth (S (depth p))) as [|Hd'].
  { cbn [depth set_depth after]. by rewrite (proj2 (Nat.ltb_lt _ _)). }
  cbn [depth set_depth after]. rewrite (proj2 (Nat.ltb_ge _ _)) by done.
  replace (depth_left p) with (S (depth_left (set_depth (S (depth p)) p))).
  2:{ unfold depth_left. cbn [set_depth depth]. lia. }
  apply (parses_close _ (after p [lit "("] 0 [])).
  eapply parses_mono; [apply IHor; done|done|].
  change (room (set_depth _ _)) with (room (after p [lit "("] 0 [])). lia.
Qed.

Lemma find_grammar_good f : or_ok f /\ orLoop_ok f /\ and_ok f /\ andLoop_ok f /\ unary_ok f.
Proof.
  induction f as [|f (IHor & IHorl & IHand & IHandl & IHun)]; [split_and!; intros ?; intros; cbn; lia|].
  split_and!; [by apply parseOr_ok|by apply orLoop_step|by apply parseAnd_ok|by apply andLoop_step|
               by apply parseUnary_ok].
Qed.

(** ** Completeness: every derivation within the limits is parsed *)

Lemma leaf_size l e s : leaf_g l e s -> size e = 1.
Proof. by destruct 1. Qed.

(** A token that begins an expression ends neither loop. *)
Definition starter (x : bytes) : bool :=
  negb (isAndTok x) && negb (bytes_eqb x []) && negb (isOrTok x) && negb (x =s ")").

Lemma leaf_start l e s :
  leaf_g l e s -> exists x l', l = x :: l' /\ starter x = true /\ isNotTok x = false /\ (x =s "(") = false.
Proof.
  intros Hg. inversion Hg; subst; do 2 eexists; (split; [reflexivity|]);
    repeat match goal with
    | Hin : _ ∈ _ |- _ => unfold strPreds, numPreds, plainPreds, execPreds in Hin;
                          rewrite ?elem_of_cons, elem_of_nil in Hin
    end; destruct_or?; simplify_eq; try destruct isMax; by vm_compute.
Qed.

Lemma unary_start d l e s : unary_g d l e s -> exists x l', l = x :: l' /\ starter x = true.
Proof.
  destruct 1 as [???? H|????? Ht ?|]; [apply leaf_start in H; naive_solver| |eauto].
  exists t, l. split; [done|].
  apply orb_true_iff in Ht as [->%bytes_eqb_true| ->%bytes_eqb_true]; done.
Qed.

Lemma and_start d l e s : and_g d l e s -> exists x l', l = x :: l' /\ starter x = true.
Proof.
  induction 1 as [???? H|???????? _ (x & l' & -> & Hx) _ _]; [by eapply unary_start|]. cbn. eauto.
Qed.

Lemma or_start d l e s : or_g d l e s -> exists x l', l = x :: l' /\ starter x = true.
Proof.
  induction 1 as [???? H|???????? _ (x & l' & -> & Hx) _ _]; [by eapply and_start|]. cbn. eauto.
Qed.

(** What ends the conjunction loop. *)
Definition ends_and (r : list bytes) : bool :=
  match r with [] => true | x :: _ => negb (starter x) && negb (isAndTok x) end.

Lemma parsePrimary_complete l e s p r :
  leaf_g l e s -> rest p = l ++ r -> nodes p + size e <= maxExprNodes ->
  parsePrimary p = Ret e (after p l (size e) s).
Proof.
  intros Hg Hr Hn. pose proof (leaf_size _ _ _ Hg) as Hsz. rewrite Hsz in *.
  destruct (leaf_start _ _ _ Hg) as (x & l' & -> & _). cbn [app] in Hr.
  unfold parsePrimary. rewrite len_pos_rest, Hr, addNode_eq, (proj2 (Nat.ltb_ge _ _)) by lia. cbn [obind].
  rewrite (advance_cons _ x (l' ++ r)) by (by apply (rest_after p [] 1 [] (x :: l' ++ r))).
  cbn [obind]. rewrite after_after. cbn [app Nat.add].
  rewrite (predicate_complete x l' e s _ r); [|done|by apply rest_after]. by rewrite after_after.
Qed.

Lemma peek_start l x l' r p : rest p = l ++ r -> l = x :: l' -> peek p = x.
Proof. intros H ->. by rewrite peek_rest, H. Qed.

Lemma starter_spec x :
  starter x = true -> isAndTok x = false /\ bytes_eqb x [] = false /\ isOrTok x = false /\ (x =s ")") = false.
Proof. unfold starter. rewrite !andb_true_iff, !negb_true_iff. naive_solver. Qed.

Lemma addNode_ok p : nodes p + 1 <= maxExprNodes -> addNode p = Ret tt (after p [] 1 []).
Proof. intros H. rewrite addNode_eq, (proj2 (Nat.ltb_ge _ _)); [done|lia]. Qed.

Lemma rest_depth x p : rest (set_depth x p) = rest p.
Proof. done. Qed.

(** The three statements, by mutual induction on the derivation: with fuel for
    the room left, an expression is parsed, and a chain reaches its loop. *)
Definition unary_complete d l e s := forall f p r,
  rest p = l ++ r -> nodes p + size e <= maxExprNodes -> depth p + d <= maxExprDepth ->
  3 * room p + 1 <= f -> parseUnary f p = Ret e (after p l (size e) s).
Definition and_complete d l e s := forall f p r,
  rest p = l ++ r -> nodes p + size e <= maxExprNodes -> depth p + d <= maxExprDepth ->
  3 * room p + 2 <= f ->
  exists f', 3 * length r + 2 <= f' /\ parseAnd f p = andLoop f' e (after p l (size e) s).
Definition or_complete d l e s := forall f p r,
  rest p = l ++ r -> ends_and r = true -> nodes p + size e <= maxExprNodes -> depth p + d <= maxExprDepth ->
  3 * room p + 3 <= f ->
  exists f', 3 * length r + 2 <= f' /\ parseOr f p = orLoop f' e (after p l (size e) s).

Scheme unary_mut := Induction for unary_g Sort Prop
with and_mut := Induction for and_g Sort Prop
with or_mut := Induction for or_g Sort Prop.
Combined Scheme grammar_mut from unary_mut, and_mut, or_mut.

Lemma unary_leaf_complete d l e s : leaf_g l e s -> unary_complete d l e s.
Proof.
  intros Hg f p r Hr Hn Hd Hf. destruct f as [|f]; [lia|]. cbn [parseUnary]. cbv zeta.
  destruct (leaf_start _ _ _ Hg) as (x & l' & El & _ & Hnot & Hpar).
  rewrite (peek_start l x l' r p), Hnot, Hpar by done. by eapply parsePrimary_complete.
Qed.

Lemma unary_not_complete d t l e s :
  isNotTok t = true -> unary_complete d l e s -> unary_complete (S d) (t :: l) (ENot e) s.
Proof.
  intros Ht IH f p r Hr Hn Hd Hf. destruct f as [|f]; [lia|]. cbn [parseUnary size] in *. cbv zeta.
  rewrite (peek_start (t :: l) t l r p), Ht by done. cbn [app] in Hr.
  rewrite (advance_cons _ _ _ Hr). cbn [obind depth set_depth after].
  rewrite (proj2 (Nat.ltb_ge _ _)) by lia. rewrite addNode_ok by (cbn; lia). cbn [obind].
  set (q := after (set_depth _ _) [] 1 []).
  assert (rest q = l ++ r) as Hq by (apply (rest_after _ [] 1 [] (l ++ r)); by apply (rest_after p [t] 0 [])).
  rewrite (IH f q r Hq); [|unfold q, after; cbn; lia..|unfold room in *; rewrite Hr, Hq in *; cbn in *; lia].
  cbn [obind]. f_equal. unfold q, after, set_depth. cbn. f_equal; lia.
Qed.

Lemma unary_paren_complete d l e s :
  or_g d l e s -> or_complete d l e s -> unary_complete (S d) (lit "(" :: l ++ [lit ")"]) e s.
Proof.
  intros Hg IH f p r Hr Hn Hd Hf. destruct f as [|f]; [lia|]. cbn [parseUnary]. cbv zeta.
  rewrite (peek_start _ (lit "(") (l ++ [lit ")"]) r p) by done. change (isNotTok (lit "(")) with false.
  rewrite bytes_eqb_refl. cbn [app] in Hr. rewrite <- app_assoc in Hr. cbn [app] in Hr.
  rewrite (advance_cons _ _ _ Hr). cbn [obind].
  assert (rest (after p [lit "("] 0 []) = l ++ lit ")" :: r) as Hq by (by apply (rest_after p [lit "("] 0 [])).
  destruct (or_start _ _ _ _ Hg) as (x & l' & El & Hx). apply starter_spec in Hx as (_ & _ & _ & Hx).
  rewrite (peek_start l x l' (lit ")" :: r)), Hx by done. cbn [depth set_depth after].
  rewrite (proj2 (Nat.ltb_ge _ _)) by lia.
  set (q := set_depth _ _).
  destruct (IH f q (lit ")" :: r)) as (f' & Hf' & ->);
    [exact Hq|done|unfold q; cbn; lia|unfold q; cbn; lia| |].
  { unfold room in *. change (rest q) with (rest (after p [lit "("] 0 [])).
    rewrite Hr in Hf. rewrite Hq. cbn [length] in Hf. lia. }
  destruct f' as [|f']; [cbn in Hf'; lia|]. cbn [orLoop].
  assert (rest (after q l (size e) s) = lit ")" :: r) as Hq' by (by apply rest_after).
  rewrite peek_rest, Hq'. cbn [head hd_error default from_option id]. change (isOrTok (lit ")")) with false.
  cbn [obind]. unfold expect. rewrite rest_lookup, rest_depth, Hq'. cbn [head hd_error].
  rewrite bytes_eqb_refl. cbn [obind]. f_equal. unfold q, after, set_depth, set_pos. cbn.
  rewrite length_app. cbn. f_equal; lia.
Qed.

Lemma room_rest p l r : rest p = l ++ r -> room p = length l + length r.
Proof. intros H. unfold room. by rewrite H, length_app. Qed.

Lemma and_one_complete d l e s : unary_g d l e s -> unary_complete d l e s -> and_complete d l e s.
Proof.
  intros Hg IH f p r Hr Hn Hd Hf. pose proof (room_rest _ _ _ Hr).
  pose proof (nonempty_length _ (unary_nonempty _ _ _ _ Hg)).
  destruct f as [|f]; [lia|]. exists f. split; [lia|]. cbn [parseAnd]. by rewrite (IH f p r) by (done || lia).
Qed.

(** One turn of the conjunction loop. *)
Lemma andLoop_turn f e1 p t d l e2 s r :
  conj_tok t -> unary_g d l e2 s -> unary_complete d l e2 s ->
  rest p = t ++ l ++ r -> nodes p + S (size e2) <= maxExprNodes -> depth p + d <= maxExprDepth ->
  3 * (length l + length r) + 1 <= f ->
  andLoop (S f) e1 p = andLoop f (EAnd e1 e2) (after p (t ++ l) (S (size e2)) s).
Proof.
  intros Ht Hg IH Hr Hn Hd Hf. cbn [andLoop]. cbv zeta. set (conjunct := fun p : parser => obind (addNode p) _).
  assert (conjunct (after p t 0 []) = andLoop f (EAnd e1 e2) (after p (t ++ l) (S (size e2)) s)) as Hc.
  { unfold conjunct. rewrite addNode_ok by (rewrite nodes_after; lia). cbn [obind]. rewrite after_after, app_nil_r.
    cbn [app Nat.add]. assert (rest (after p t 1 []) = l ++ r) as Hq by (by apply rest_after).
    pose proof (room_rest _ _ _ Hq).
    rewrite (IH f _ r Hq); [|rewrite nodes_after; lia|done|lia]. cbn [obind]. by rewrite after_after. }
  destruct (unary_start _ _ _ _ Hg) as (x & l' & El & Hx). apply starter_spec in Hx as (Hx1 & Hx2 & Hx3 & Hx4).
  destruct Ht as [->|Ht].
  - rewrite after_nil in Hc. rewrite (peek_start l x l' r p), Hx1, Hx2, Hx3, Hx4 by done. exact Hc.
  - assert (exists y, t = [y] /\ isAndTok y = true) as (y & -> & Hy) by (destruct Ht as [->| ->]; by eexists).
    rewrite (peek_start _ y [] (l ++ r) p), Hy by done. cbn [app] in Hr.
    rewrite (advance_cons _ _ _ Hr). exact Hc.
Qed.

Lemma and_and_complete d l1 e1 s1 t l2 e2 s2 :
  and_complete d l1 e1 s1 -> conj_tok t -> unary_g d l2 e2 s2 -> unary_complete d l2 e2 s2 ->
  and_complete d (l1 ++ t ++ l2) (EAnd e1 e2) (s1 ++ s2).
Proof.
  intros IH1 Ht Hg IH2 f p r Hr Hn Hd Hf. cbn [size] in Hn. rewrite <- !app_assoc in Hr.
  destruct (IH1 f p (t ++ l2 ++ r)) as (f1 & Hf1 & ->); [done|lia|done|done|].
  rewrite !length_app in Hf1. pose proof (nonempty_length _ (unary_nonempty _ _ _ _ Hg)).
  destruct f1 as [|f1]; [lia|]. exists f1. split; [lia|].
  rewrite (andLoop_turn f1 e1 _ t d l2 e2 s2 r); try done.
  - by rewrite after_after.
  - by apply rest_after.
  - rewrite nodes_after. lia.
  - lia.
Qed.

Lemma ends_and_stops r p : rest p = r -> ends_and r = true -> forall f e, andLoop (S f) e p = Ret e p.
Proof.
  intros <- He f e. cbn [andLoop]. cbv zeta. rewrite peek_rest. destruct (rest p) as [|x r]; cbn [head hd_error default from_option id].
  { done. }
  cbn [ends_and] in He. unfold starter in He. destruct (isAndTok x); [by rewrite andb_false_r in He|].
  destruct (bytes_eqb x []); [done|]. destruct (isOrTok x); [done|]. destruct (bytes_eqb x (lit ")")); done.
Qed.

Lemma or_one_complete d l e s : and_g d l e s -> and_complete d l e s -> or_complete d l e s.
Proof.
  intros Hg IH f p r Hr He Hn Hd Hf. pose proof (room_rest _ _ _ Hr).
  pose proof (nonempty_length _ (and_nonempty _ _ _ _ Hg)).
  destruct f as [|f]; [lia|]. exists f. split; [lia|]. cbn [parseOr].
  destruct (IH f p r) as (f' & Hf' & ->); [done..|lia|]. destruct f' as [|f']; [lia|].
  by rewrite (ends_and_stops r) by (done || by apply rest_after).
Qed.

Lemma orTok_ends t r : isOrTok t = true -> ends_and (t :: r) = true.
Proof. by intros [->%bytes_eqb_true| ->%bytes_eqb_true]%orb_true_iff. Qed.

Lemma or_or_complete d l1 e1 s1 t l2 e2 s2 :
  or_complete d l1 e1 s1 -> isOrTok t = true -> and_g d l2 e2 s2 -> and_complete d l2 e2 s2 ->
  or_complete d (l1 ++ t :: l2) (EOr e1 e2) (s1 ++ s2).
Proof.
  intros IH1 Ht Hg IH2 f p r Hr He Hn Hd Hf. cbn [size] in Hn. rewrite <- app_assoc in Hr. cbn [app] in Hr.
  destruct (IH1 f p (t :: l2 ++ r)) as (f1 & Hf1 & ->); [done|by apply orTok_ends|lia|done|done|].
  cbn [length] in Hf1. rewrite length_app in Hf1. destruct f1 as [|f1]; [lia|]. cbn [orLoop].
  set (q := after p l1 (size e1) s1).
  assert (rest q = t :: l2 ++ r) as Hq by (by apply rest_after).
  rewrite (peek_start (t :: l2) t l2 r q), Ht by done. rewrite (advance_cons _ _ _ Hq). cbn [obind].
  rewrite addNode_ok by (unfold q, after; cbn; lia). cbn [obind]. rewrite after_after. cbn [app Nat.add].
  assert (rest (after q [t] 1 []) = l2 ++ r) as Hq2 by (by apply (rest_after q [t] 1 [])).
  pose proof (room_rest _ _ _ Hq2).
  destruct (IH2 f1 (after q [t] 1 []) r) as (f2 & Hf2 & ->); [done|unfold q, after; cbn; lia|done|lia|].
  destruct f2 as [|f2]; [lia|].
  rewrite (ends_and_stops r) by (done || by apply rest_after). cbn [obind].
  pose proof (nonempty_length _ (and_nonempty _ _ _ _ Hg)).
  exists f1. split; [lia|]. unfold q. by rewrite !after_after.
Qed.

Lemma grammar_complete :
  (forall d l e s, unary_g d l e s -> unary_complete d l e s) /\
  (forall d l e s, and_g d l e s -> and_complete d l e s) /\
  (forall d l e s, or_g d l e s -> or_complete d l e s).
Proof.
  apply (grammar_mut (fun d l e s _ => unary_complete d l e s) (fun d l e s _ => and_complete d l e s)
           (fun d l e s _ => or_complete d l e s)); intros.
  - by apply unary_leaf_complete.
  - by apply unary_not_complete.
  - by apply unary_paren_complete.
  - by apply and_one_complete.
  - by apply and_and_complete.
  - by apply or_one_complete.
  - by apply or_or_complete.
Qed.

(** * The claims *)

Lemma parseExpression_parses argv :
  argv <> [] ->
  parses 0 (or_g maxExprDepth) (initParser argv) (parseOr (fuelFor argv) (initParser argv)) False.
Proof.
  intros _. destruct (find_grammar_good (fuelFor argv)) as (H & _).
  eapply parses_mono; [apply H; cbn; lia|done|].
  unfold room, rest, fuelFor. cbn [initParser pos args]. rewrite drop_0. lia.
Qed.

Lemma parseExpression_total argv :
  match parseExpression argv with Ret _ _ | Err _ => True | Panic | NoFuel => False end.
Proof.
  destruct argv as [|a argv]; [done|]. unfold parseExpression.
  pose proof (parseExpression_parses (a :: argv) ltac:(done)) as H.
  destruct (parseOr _ _) as [e p| | |]; try done. cbn [obind]. by destruct (args p !! pos p).
Qed.

(** The find expression parser terminates on every argument list and never
    indexes out of range. *)
Theorem find_parser_total argv :
  match parseExpression argv with Ret _ _ | Err _ => True | Panic | NoFuel => False end.
Proof. apply parseExpression_total. Qed.

Lemma find_parser_sound argv e md mn p :
  parseExpression argv = Ret (mkResult (Some e) md mn) p ->
  exists s, or_g maxExprDepth argv e s /\ size e <= maxExprNodes /\
            md = setting true s (-1)%Z /\ mn = setting false s (-1)%Z.
Proof.
  intros H. destruct argv as [|a argv]; [done|]. unfold parseExpression in H.
  pose proof (parseExpression_parses (a :: argv) ltac:(done)) as Hp.
  destruct (parseOr _ _) as [e' q| | |]; try done. cbn [obind] in H.
  destruct Hp as (l & n & s & Hg & Hr & -> & Hsz & Hn). rewrite rest_lookup in H.
  destruct (rest (after _ l n s)) as [|? ?] eqn:Er; [|done]. cbn [head hd_error] in H. injection H as -> <- <- <-.
  exists s. unfold rest in Hr. cbn [initParser pos args] in Hr. rewrite drop_0, app_nil_r in Hr. subst l.
  split_and!; try done. rewrite nodes_after in Hn. cbn [initParser nodes] in Hn. lia.
Qed.

Lemma rest_init argv : rest (initParser argv) = argv.
Proof. unfold rest. cbn [initParser pos args]. apply drop_0. Qed.

Lemma find_parser_complete argv e s :
  or_g maxExprDepth argv e s -> size e <= maxExprNodes ->
  exists p, parseExpression argv = Ret (mkResult (Some e) (setting true s (-1)) (setting false s (-1))) p.
Proof.
  intros Hg Hn. destruct argv as [|a argv]; [by apply or_nonempty in Hg|].
  destruct grammar_complete as (_ & _ & H).
  destruct (H _ _ _ _ Hg (fuelFor (a :: argv)) (initParser (a :: argv)) []) as (f & Hf & E).
  - by rewrite rest_init, app_nil_r.
  - done.
  - cbn [initParser nodes]. lia.
  - cbn [initParser depth]. lia.
  - unfold room, fuelFor. rewrite rest_init. lia.
  - destruct f as [|f]; [lia|]. unfold parseExpression. rewrite E. cbn [orLoop].
    assert (rest (after (initParser (a :: argv)) (a :: argv) (size e) s) = []) as Hr.
    { apply rest_after. by rewrite rest_init, app_nil_r. }
    rewrite peek_rest, Hr. cbn [head hd_error default from_option]. change (isOrTok []) with false.
    cbn [obind]. rewrite rest_lookup, Hr. cbn [head hd_error]. by eexists.
Qed.

(** C4. The find expression parser decides the grammar: it returns a tree
    exactly when the arguments derive that tree with at most [maxExprDepth]
    nested negations and parentheses and at most [maxExprNodes] nodes; the depth
    options it returns are the last ones given. *)
Theorem find_parser_decides argv e md mn :
  (exists p, parseExpression argv = Ret (mkResult (Some e) md mn) p) <->
  (exists s, or_g maxExprDepth argv e s /\ size e <= maxExprNodes /\
             md = setting true s (-1)%Z /\ mn = setting false s (-1)%Z).
Proof.
  split; [intros [p H]; by eapply find_parser_sound|].
  intros (s & Hg & Hn & -> & ->). by apply find_parser_complete.
Qed.

End FindExpr.
