(* ===== verification/FindTree.v ===== *)
(** What the find parser's trees satisfy and how they print: every value a
    leaf carries is in the range its argument allows, symbolic modes stay
    within twelve bits, and a tree printed canonically parses back to itself. *)

From S2P Require Import Prelude GoStd FindExpr.
From stdpp Require Import base list strings.
From Stdlib Require Import ZArith Lia Ascii.

Module FindTree.
Import GoStd FindExpr.

(** ** Symbolic modes stay within twelve bits *)

Definition bits12 (m : Z) : Prop := (0 <= m < 2 ^ 12)%Z.

Lemma bits_lor n a b : (0 <= n)%Z -> (0 <= a < 2 ^ n)%Z -> (0 <= b < 2 ^ n)%Z -> (0 <= Z.lor a b < 2 ^ n)%Z.
Proof.
  intros Hn [Ha Ha'] [Hb Hb']. split; [by apply Z.lor_nonneg|].
  destruct (Z.eq_dec a 0) as [->|]; [by rewrite Z.lor_0_l|].
  destruct (Z.eq_dec b 0) as [->|]; [by rewrite Z.lor_0_r|].
  assert (0 < Z.lor a b)%Z as Hpos.
  { pose proof (proj2 (Z.lor_nonneg a b) (conj Ha Hb)). destruct (Z.eq_dec (Z.lor a b) 0) as [E|]; [|lia].
    by apply Z.lor_eq_0_iff in E as [? ?]. }
  apply Z.log2_lt_pow2; [done|]. rewrite Z.log2_lor by lia.
  apply Z.max_lub_lt; apply Z.log2_lt_pow2; lia.
Qed.

Lemma bits_ldiff n a b : (0 <= a < 2 ^ n)%Z -> (0 <= Z.ldiff a b < 2 ^ n)%Z.
Proof.
  intros [Ha Ha']. split; [by apply Z.ldiff_nonneg; left|].
  eapply Z.le_lt_trans; [|exact Ha']. pose proof (Z.add_nocarry_lxor (Z.ldiff a b) (Z.land a b)).
  assert (Z.land (Z.ldiff a b) (Z.land a b) = 0)%Z as E0.
  { apply Z.bits_inj'. intros i _. rewrite !Z.land_spec, Z.ldiff_spec, Z.bits_0. by destruct (Z.testbit a i), (Z.testbit b i). }
  assert (Z.ldiff a b + Z.land a b = a)%Z as E.
  { rewrite Z.add_nocarry_lxor by done. apply Z.bits_inj'. intros i _.
    rewrite Z.lxor_spec, Z.ldiff_spec, Z.land_spec. by destruct (Z.testbit a i), (Z.testbit b i). }
  pose proof (proj2 (Z.land_nonneg a b) (or_introl Ha)). lia.
Qed.

Lemma bits_weaken n m a : (0 <= n <= m)%Z -> (0 <= a < 2 ^ n)%Z -> (0 <= a < 2 ^ m)%Z.
Proof. intros Hnm Ha. pose proof (Z.pow_le_mono_r 2 n m ltac:(lia) ltac:(lia)). lia. Qed.

Lemma bits_low m k : (0 <= k)%Z -> (0 <= Z.land m (Z.ones k) < 2 ^ k)%Z.
Proof. intros Hk. rewrite Z.land_ones by done. apply Z.mod_pos_bound. by apply Z.pow_pos_nonneg. Qed.

Lemma parsePerms_bound mode who bits special s b sp :
  (0 <= bits < 2 ^ 3)%Z -> bits12 special -> parsePerms mode who bits special s = Some (b, sp) ->
  (0 <= b < 2 ^ 3)%Z /\ bits12 sp.
Proof.
  revert bits special. induction s as [|c s IH]; intros bits special Hb Hs H; cbn [parsePerms] in H.
  { by injection H as <- <-. }
  unfold bits12 in *.
  repeat (case_match; [eapply IH in H; [done| |]; repeat case_match; try done;
                       repeat apply bits_lor; try done; lia|]). done.
Qed.

Lemma clausePerms_bound mode who s b sp :
  clausePerms mode who s = Some (b, sp) -> (0 <= b < 2 ^ 3)%Z /\ bits12 sp.
Proof.
  unfold clausePerms. destruct s as [|c s]; [intros [= <- <-]; unfold bits12; lia|].
  destruct (byte_in c "ugo"); [|apply parsePerms_bound; unfold bits12; lia].
  destruct s; [|done]. intros [= <- <-]. split; [|unfold bits12; lia].
  change 7%Z with (Z.ones 3). repeat case_match; by apply bits_low.
Qed.

Lemma applyClass_bound op shift bits mode :
  (0 <= shift <= 6)%Z -> (0 <= bits < 2 ^ 3)%Z -> bits12 mode -> bits12 (applyClass op shift bits mode).
Proof.
  unfold bits12. intros Hs Hb Hm. unfold applyClass.
  assert (0 <= Z.shiftl bits shift < 2 ^ 12)%Z.
  { rewrite Z.shiftl_mul_pow2 by lia. pose proof (Z.pow_le_mono_r 2 shift 6 ltac:(lia) ltac:(lia)).
    assert (0 < 2 ^ shift)%Z by (apply Z.pow_pos_nonneg; lia). split; [nia|].
    apply Z.lt_le_trans with (2 ^ 3 * 2 ^ shift)%Z; [nia|]. rewrite <- Z.pow_add_r by lia. apply Z.pow_le_mono_r; lia. }
  repeat case_match; repeat first [apply bits_lor; [lia|..] | apply bits_ldiff]; done.
Qed.

Lemma applySpecial_bound op who special mode :
  bits12 special -> bits12 mode -> bits12 (applySpecial op who special mode).
Proof.
  unfold bits12, applySpecial. intros Hs Hm. cbv zeta.
  repeat case_match; repeat first [apply bits_lor; [lia|..] | apply bits_ldiff]; done.
Qed.

Lemma symbolicClause_bound mode clause m : bits12 mode -> symbolicClause mode clause = Some m -> bits12 m.
Proof.
  intros Hm H. unfold symbolicClause in H. destruct clause as [|c clause]; [done|].
  destruct (parseWho 0 _) as [who s]. cbv zeta in H. destruct s as [|op s]; [done|].
  destruct (negb _); [done|]. destruct (clausePerms _ _ _) as [[bits sp]|] eqn:E; [|done].
  apply clausePerms_bound in E as [Hb Hsp]. injection H as <-.
  apply applySpecial_bound; [done|]. repeat case_match; repeat (apply applyClass_bound; [lia|done|]); done.
Qed.

Lemma parseSymbolicMode_bound s m : parseSymbolicMode s = Some m -> bits12 m.
Proof.
  unfold parseSymbolicMode. assert (bits12 0) as H0 by (unfold bits12; lia). revert H0.
  generalize 0%Z. induction (Split "," s) as [|c l IH]; intros mode Hm; cbn [symbolicClauses]; [by intros [= <-]|].
  destruct (symbolicClause mode c) as [m'|] eqn:E; [|done]. apply IH. by eapply symbolicClause_bound.
Qed.

(** ** Valid trees *)

Definition strKind (k : exprKind) : Prop :=
  k = exprName \/ k = exprIName \/ k = exprPath \/ k = exprIPath \/ k = exprNewer.
Definition numKind (k : exprKind) : Prop := k = exprMtime \/ k = exprMmin.
Definition execKind (k : exprKind) : Prop := k = exprExec \/ k = exprExecDir.
Definition plainKind (k : exprKind) : Prop :=
  k ∈ [exprEmpty; exprQuit; exprPrint; exprPrint0; exprPrune; exprTrue; exprFalse].

Fixpoint valid (e : expr) : Prop :=
  match e with
  | EStr k v => strKind k \/ (k = exprType /\ typeArg v = true)
  | ESize su => (0 <= su_n su <= maxInt64)%Z /\ byte_in (su_unit su) "cwbkMG" = true
  | ENum k n c => numKind k /\ (- 2 ^ 63 <= n <= maxInt64)%Z /\ (c = cmpExact -> 0 <= n)%Z
  | EPerm m c => bits12 m /\ byte_in c "=-/" = true
  | EExec k cmd xs => execKind k /\ execTemplate (cmd :: xs)
  | ELeaf k => plainKind k
  | EAnd l r | EOr l r => valid l /\ valid r
  | ENot e => valid e
  end.

Lemma parseSize_valid v su : parseSize v = Some su -> valid (ESize su).
Proof.
  unfold parseSize. destruct v as [|c s]; [done|].
  set (d := if c =c "+" then _ else _). destruct d as [cmp numStr].
  destruct (last numStr) as [u|]; [|done].
  destruct (byte_in u "cwbkMG") eqn:Eu.
  - destruct (take _ numStr) as [|x xs]; [done|]. destruct (ParseInt (x :: xs)) as [|n] eqn:En; [done|].
    apply ParseInt_range in En. destruct (Z.ltb_spec n 0); [done|]. intros [= <-]. cbn. split; [lia|done].
  - destruct numStr as [|x xs]; [done|]. destruct (ParseInt (x :: xs)) as [|n] eqn:En; [done|].
    apply ParseInt_range in En. destruct (Z.ltb_spec n 0); [done|]. intros [= <-]. cbn. split; [lia|done].
Qed.

Lemma ParseInt_unsigned c s n :
  (c =c "+") = false -> (c =c "-") = false -> ParseInt (c :: s) = inr n -> (0 <= n)%Z.
Proof.
  unfold ParseInt. intros -> ->. destruct (ParseUint 10 64 (c :: s)) as [|un] eqn:E; [done|].
  unfold ParseUint in E. apply parseDigits_bound in E; [|lia..]. cbn [negb andb].
  case_match; [done|]. intros [= <-]. lia.
Qed.

Lemma numericArg_valid v n c k : numKind k -> numericArg v = Some (n, c) -> valid (ENum k n c).
Proof.
  intros Hk H. split; [done|]. unfold numericArg in H.
  destruct v as [|x s]; [done|].
  assert (forall t cmp, match ParseInt t with inr n => Some (n, cmp) | inl ErrRange => Some (maxInt64, cmp)
                        | inl ErrSyntax => None end = Some (n, c) ->
          (- 2 ^ 63 <= n <= maxInt64)%Z /\ cmp = c /\ (ParseInt t = inr n \/ (0 <= n)%Z)) as Haux.
  { intros t cmp. destruct (ParseInt t) as [[]|m] eqn:E; try done; intros [= <- <-].
    - unfold maxInt64. split; [lia|]. split; [done|]. right. lia.
    - apply ParseInt_range in E as ?. split; [done|]. split; [done|]. by left. }
  destruct (x =c "+") eqn:E1; [apply Haux in H as (? & <- & _); done|].
  destruct (x =c "-") eqn:E2; [apply Haux in H as (? & <- & _); done|].
  apply Haux in H as (? & <- & [H|?]); split; try done. intros _. by eapply ParseInt_unsigned.
Qed.

Lemma permArg_valid v m c : permArg v = Some (m, c) -> valid (EPerm m c).
Proof.
  unfold permArg. set (d := match v with [] => _ | c :: s => _ end).
  assert (byte_in (fst d) "=-/" = true) as Hd by (unfold d; repeat case_match; done).
  destruct d as [cmp ms]. cbn [fst] in Hd. destruct ms as [|x ms]; [done|].
  destruct (ParseUint 8 32 (x :: ms)) as [|u] eqn:E.
  - destruct (parseSymbolicMode (x :: ms)) as [u|] eqn:Es; [|done]. apply parseSymbolicMode_bound in Es.
    destruct (4095 <? u)%Z; [done|]. by intros [= <- <-].
  - unfold ParseUint in E. apply parseDigits_bound in E; [|lia..].
    destruct (Z.ltb_spec 4095 u); [done|]. intros [= <- <-]. split; [unfold bits12; lia|done].
Qed.

Lemma leaf_valid l e s : leaf_g l e s -> valid e.
Proof.
  intros Hg. inversion Hg; subst; cbn [valid];
    repeat match goal with
    | Hin : _ ∈ _ |- _ => unfold strPreds, numPreds, plainPreds, execPreds in Hin;
                          rewrite ?elem_of_cons, elem_of_nil in Hin
    end.
  - left. unfold strKind. naive_solver.
  - by right.
  - by apply (parseSize_valid v).
  - apply (numericArg_valid v); [|done]. unfold numKind. naive_solver.
  - by apply (permArg_valid v).
  - unfold plainKind. rewrite !elem_of_cons. naive_solver.
  - unfold plainKind. rewrite !elem_of_cons. naive_solver.
  - split; [|done]. unfold execKind. naive_solver.
Qed.

Lemma grammar_valid :
  (forall d l e s, unary_g d l e s -> valid e) /\
  (forall d l e s, and_g d l e s -> valid e) /\
  (forall d l e s, or_g d l e s -> valid e).
Proof.
  apply (grammar_mut (fun d l e s _ => valid e) (fun d l e s _ => valid e) (fun d l e s _ => valid e));
    intros; cbn [valid]; try done. by eapply leaf_valid.
Qed.

(** Every tree the find parser returns is valid: sizes and times fit 64
    bits, an unsigned time is not negative, permission bits (octal or symbolic)
    stay within 07777, types and units are known, command templates are closed,
    and the tree has at most [maxExprNodes] nodes. *)
Theorem find_tree_valid argv e md mn p :
  parseExpression argv = Ret (mkResult (Some e) md mn) p -> valid e /\ size e <= maxExprNodes.
Proof.
  intros H. apply find_parser_sound in H as (s & Hg & Hn & _). split; [|done].
  by eapply grammar_valid.
Qed.

Lemma find_tree_valid_witness :
  exists p e, parseExpression (map lit ["-perm"; "-u+s,g=u"; "-o"; "-mtime"; "-3"]%string)
    = Ret (mkResult (Some e) (-1) (-1)) p /\ valid e /\ size e <= maxExprNodes.
Proof.
  do 2 eexists. split; [vm_compute; reflexivity|].
  eapply (find_tree_valid (map lit ["-perm"; "-u+s,g=u"; "-o"; "-mtime"; "-3"]%string)). vm_compute. reflexivity.
Defined.

(** ** Printing *)

Definition sign (c : cmpOp) : bytes := match c with cmpLess => lit "-" | cmpExact => [] | cmpMore => lit "+" end.

Definition permSign (c : ascii) : bytes := if c =c "=" then [] else [c].

Fixpoint show (e : expr) : list bytes :=
  let nested (e : expr) :=
    match e with EAnd _ _ | EOr _ _ => lit "(" :: show e ++ [lit ")"] | _ => show e end in
  match e with
  | EStr k v => [kindString k; v]
  | ESize su => [lit "-size"; sign (su_cmp su) ++ FormatInt (su_n su) ++ [su_unit su]]
  | ENum k n c => [kindString k; sign c ++ FormatInt n]
  | EPerm m c => [lit "-perm"; permSign c ++ FormatUint 8 m]
  | EExec k cmd xs => kindString k :: (cmd :: xs) ++ [lit ";"]
  | ELeaf k => [kindString k]
  | EAnd l r => nested l ++ [lit "-a"] ++ nested r
  | EOr l r => nested l ++ lit "-o" :: nested r
  | ENot e => lit "!" :: nested e
  end.

(** How many levels of negations and parentheses the printed tree has. *)
Fixpoint levels (e : expr) : nat :=
  let nested (e : expr) := match e with EAnd _ _ | EOr _ _ => S (levels e) | _ => levels e end in
  match e with
  | EAnd l r | EOr l r => Nat.max (nested l) (nested r)
  | ENot e => S (nested e)
  | _ => 0
  end.

Lemma FormatInt_nonneg n : (0 <= n)%Z -> exists d s, FormatInt n = digitChar d :: s /\ (0 <= d < 10)%Z.
Proof.
  intros Hn. unfold FormatInt. rewrite (proj2 (Z.ltb_ge _ _)) by done.
  by apply (formatDigits_cons 10 64 n); [lia|..].
Qed.

Lemma parseSize_show su :
  valid (ESize su) -> parseSize (sign (su_cmp su) ++ FormatInt (su_n su) ++ [su_unit su]) = Some su.
Proof.
  intros [Hn Hu]. destruct su as [n c u]. cbn [su_n su_cmp su_unit] in *.
  destruct (FormatInt_nonneg n) as (d & s & E & Hd); [lia|]. destruct (digitChar_not_sign d Hd) as [Hp Hm].
  assert (forall x, last ((FormatInt n) ++ [u]) = Some x -> x = u) as Hlast by (intros x; rewrite last_snoc; by intros [= <-]).
  assert (take (length (FormatInt n ++ [u]) - 1) (FormatInt n ++ [u]) = FormatInt n) as Htake.
  { rewrite length_app. cbn [length]. rewrite Nat.add_sub. apply take_app_length. }
  assert (forall cmp, (let '(unit, numStr) :=
            if byte_in u "cwbkMG" then (u, take (length (FormatInt n ++ [u]) - 1) (FormatInt n ++ [u]))
            else ("b"%char, FormatInt n ++ [u]) in
          match numStr with
          | [] => None
          | _ => match ParseInt numStr with
                 | inl _ => None
                 | inr n => if (n <? 0)%Z then None else Some (mkSizeUnit n cmp unit)
                 end
          end) = Some (mkSizeUnit n cmp u)) as Haux.
  { intros cmp. rewrite Hu, Htake, ParseInt_FormatInt by lia. rewrite (proj2 (Z.ltb_ge _ _)) by lia. by rewrite E. }
  unfold parseSize. destruct c; cbn [sign app lit].
  - change (lit "-" ++ FormatInt n ++ [u]) with ("-"%char :: FormatInt n ++ [u]).
    cbn [Ascii.eqb Bool.eqb].
    rewrite last_snoc. apply Haux.
  - assert (FormatInt n ++ [u] = digitChar d :: s ++ [u]) as E2 by (by rewrite E).
    rewrite E2. rewrite Hp, Hm. rewrite <- E2, last_snoc. apply Haux.
  - change (lit "+" ++ FormatInt n ++ [u]) with ("+"%char :: FormatInt n ++ [u]).
    cbn [Ascii.eqb Bool.eqb]. rewrite last_snoc. apply Haux.
Qed.

Lemma numericArg_show k n c : valid (ENum k n c) -> numericArg (sign c ++ FormatInt n) = Some (n, c).
Proof.
  intros (_ & Hn & Hc). unfold numericArg. destruct c; cbn [sign].
  - change (lit "-" ++ FormatInt n) with ("-"%char :: FormatInt n).
    cbn [Ascii.eqb Bool.eqb]. by rewrite ParseInt_FormatInt.
  - destruct (FormatInt_nonneg n) as (d & s & E & Hd); [auto|]. destruct (digitChar_not_sign d Hd) as [Hp Hm].
    cbn [app]. rewrite E, Hp, Hm, <- E. by rewrite ParseInt_FormatInt.
  - change (lit "+" ++ FormatInt n) with ("+"%char :: FormatInt n).
    cbn [Ascii.eqb Bool.eqb]. by rewrite ParseInt_FormatInt.
Qed.

Lemma permArg_show m c : valid (EPerm m c) -> permArg (permSign c ++ FormatUint 8 m) = Some (m, c).
Proof.
  intros [Hm Hc]. unfold bits12 in Hm. pose proof (ParseUint_FormatUint 8 32 m ltac:(lia) ltac:(lia) ltac:(lia)) as HU.
  destruct (formatDigits_cons 8 64 m) as (d & s & E & Hd); [lia|lia|done|].
  assert ((4095 <? m)%Z = false) as Hle by (apply Z.ltb_ge; lia).
  unfold FormatUint in *. unfold permArg, permSign. cbn [byte_in] in Hc.
  unfold byte_in in Hc. apply existsb_exists in Hc as (x & Hin & ->%Ascii.eqb_eq).
  cbv in Hin. destruct Hin as [<-|[<-|[<-|[]]]].
  - cbn [Ascii.eqb Bool.eqb]. cbn [app].
    assert ((digitChar d =c "-") = false /\ (digitChar d =c "/") = false) as [H1 H2].
    { assert (d ∈ [0;1;2;3;4;5;6;7;8;9]%Z) as H by (rewrite !elem_of_cons; lia).
      rewrite !elem_of_cons, elem_of_nil in H. by destruct_or?; subst. }
    rewrite E in *. by rewrite H1, H2, HU, Hle.
  - rewrite E in *. cbn [app Ascii.eqb Bool.eqb]. by rewrite HU, Hle.
  - rewrite E in *. cbn [app Ascii.eqb Bool.eqb]. by rewrite HU, Hle.
Qed.

Definition leafShape (e : expr) : bool :=
  match e with EAnd _ _ | EOr _ _ | ENot _ => false | _ => true end.

Lemma leaf_show e : valid e -> leafShape e = true -> leaf_g (show e) e [].
Proof.
  destruct e as [k v|su|k n c|m c|k cmd xs|k| | |]; intros Hv Hs; try discriminate Hs; cbn [show].
  - destruct Hv as [Hk|[-> Hv]]; [|by apply g_type].
    apply g_str. unfold strKind in Hk. destruct_or?; subst; in_table.
  - apply g_size. by apply parseSize_show.
  - apply g_num; [|by eapply numericArg_show]. destruct Hv as [[->| ->] _]; in_table.
  - apply g_perm; [|by apply permArg_show]. destruct (formatDigits_cons 8 64 m) as (d & s & E & Hd); [lia| |done|].
    { destruct Hv as [[? _] _]. done. }
    unfold FormatUint. rewrite E. by destruct (permSign c).
  - destruct Hv as [Hk Ht]. apply g_exec; [|done]. destruct Hk as [->| ->]; in_table.
  - cbn [valid] in Hv. unfold plainKind in Hv. rewrite !elem_of_cons, elem_of_nil in Hv.
    apply g_plain. destruct_or?; subst; try done; in_table.
Qed.

Definition nested (e : expr) : list bytes :=
  match e with EAnd _ _ | EOr _ _ => lit "(" :: show e ++ [lit ")"] | _ => show e end.
Definition nestedLevels (e : expr) : nat :=
  match e with EAnd _ _ | EOr _ _ => S (levels e) | _ => levels e end.

Lemma or_of_unary d l e s : unary_g d l e s -> or_g d l e s.
Proof. intros H. by apply o_one, a_one. Qed.

(** A printed tree derives itself, nested as a factor or standing alone. *)
Lemma show_derives e :
  valid e -> (forall d, nestedLevels e <= d -> unary_g d (nested e) e []) /\
             (forall d, levels e <= d -> or_g d (show e) e []).
Proof.
  induction e as [k v|su|k n c|m c|k cmd xs|k|l IHl r IHr|l IHl r IHr|e IH]; intros Hv.
  1-6: (split; [intros d _; by apply u_leaf, leaf_show|intros d _; by apply or_of_unary, u_leaf, leaf_show]).
  - destruct Hv as [Hl Hr]. destruct (IHl Hl) as [IHl' _], (IHr Hr) as [IHr' _].
    assert (forall d, levels (EAnd l r) <= d -> or_g d (show (EAnd l r)) (EAnd l r) []) as H.
    { intros d Hd. apply o_one. apply (a_and d (nested l) l [] [lit "-a"] (nested r) r []).
      - apply a_one, IHl'. cbn in Hd. fold (nestedLevels l) in Hd. lia.
      - by right; left.
      - apply IHr'. cbn in Hd. fold (nestedLevels r) in Hd. lia. }
    split; [|done]. intros d Hd. cbn [nestedLevels] in Hd. destruct d as [|d]; [lia|].
    apply u_paren, H. lia.
  - destruct Hv as [Hl Hr]. destruct (IHl Hl) as [IHl' _], (IHr Hr) as [IHr' _].
    assert (forall d, levels (EOr l r) <= d -> or_g d (show (EOr l r)) (EOr l r) []) as H.
    { intros d Hd. apply (o_or d (nested l) l [] (lit "-o") (nested r) r []); [|done|].
      - apply or_of_unary, IHl'. cbn in Hd. fold (nestedLevels l) in Hd. lia.
      - apply a_one, IHr'. cbn in Hd. fold (nestedLevels r) in Hd. lia. }
    split; [|done]. intros d Hd. cbn [nestedLevels] in Hd. destruct d as [|d]; [lia|].
    apply u_paren, H. lia.
  - destruct (IH Hv) as [IH' _].
    assert (forall d, levels (ENot e) <= d -> unary_g d (show (ENot e)) (ENot e) []) as H.
    { intros d Hd. cbn [levels] in Hd. fold (nestedLevels e) in Hd. destruct d as [|d]; [lia|].
      apply (u_not d (lit "!") (nested e)); [done|]. apply IH'. lia. }
    split; intros d Hd; [by apply H|by apply or_of_unary, H].
Qed.

(** A number out of the range of [int64] is clamped to the greatest one even when
    it is below the least one, or when something that is not a digit follows. *)
Lemma numeric_clamp :
  numericArg (lit "--99999999999999999999") = Some (maxInt64, cmpLess) /\
  numericArg (lit "99999999999999999999x") = Some (maxInt64, cmpExact).
Proof. by vm_compute. Qed.

(** Round trip: a valid tree within the parser's limits, printed in the
    canonical syntax, parses back to the same tree. *)
Theorem find_print_parse e :
  valid e -> levels e <= maxExprDepth -> size e <= maxExprNodes ->
  exists p, parseExpression (show e) = Ret (mkResult (Some e) (-1) (-1)) p.
Proof.
  intros Hv Hl Hn. by apply (find_parser_complete (show e) e []); [apply show_derives|].
Qed.

Lemma find_print_parse_witness :
  let e := EOr (ENot (EStr exprName (lit "*.go"))) (EAnd (ENum exprMtime 7 cmpMore) (EPerm 2541 "-"%char)) in
  valid e /\ exists p, parseExpression (show e) = Ret (mkResult (Some e) (-1) (-1)) p.
Proof.
  intros e. assert (valid e) as Hv.
  { cbn. unfold strKind, numKind, bits12, maxInt64.
    split; [left; by left|]. split; [|split; [lia|done]]. split; [by left|]. split; [lia|done]. }
  split; [done|]. apply (find_print_parse e Hv); [apply Nat.leb_le; reflexivity|apply Nat.leb_le; reflexivity].
Defined.

End FindTree.
