(* ===== verification/FindMatch.v ===== *)
(** The matchers of the find builtin ([builtins/find/match.go]): permissions,
    file types, sizes rounded up to blocks, base names, and the backtracking
    glob matcher with its bracket classes and cancellation polls.  The matcher is
    compared with an inductive definition of glob matching. *)

From S2P Require Import Prelude GoStd FindExpr.
From stdpp Require Import base list strings.
From Stdlib Require Import ZArith Lia Ascii.

Module FindMatch.
Import GoStd FindExpr.

(** ** Permissions, types, sizes, names *)

(** The twelve Unix permission bits of a Go file mode. *)
Definition unixPerm (mode : Z) : Z :=
  let fp := Perm mode in
  let fp := if has mode ModeSetuid then Z.lor fp 2048 else fp in
  let fp := if has mode ModeSetgid then Z.lor fp 1024 else fp in
  if has mode ModeSticky then Z.lor fp 512 else fp.

Definition matchPerm (mode target : Z) (cmpMode : ascii) : bool :=
  let fp := unixPerm mode in
  if cmpMode =c "-" then (Z.land fp target =? target)%Z
  else if cmpMode =c "/" then if (target =? 0)%Z then true else negb (Z.land fp target =? 0)%Z
  else (fp =? target)%Z.

Definition fileTypeChar (mode : Z) : ascii :=
  if IsRegular mode then "f"%char
  else if has mode ModeDir then "d"%char
  else if has mode ModeSymlink then "l"%char
  else if has mode ModeNamedPipe then "p"%char
  else if has mode ModeSocket then "s"%char
  else if has mode ModeCharDevice then "c"%char
  else if has mode ModeDevice then "b"%char
  else "?"%char.

(** The parser only lets ASCII type lists through, so runes are bytes. *)
Definition matchType (mode : Z) (typeArg : bytes) : bool :=
  let fileType := fileTypeChar mode in
  existsb (fun c => negb (c =c ",") && Ascii.eqb c fileType) typeArg.

Definition sizeBlockSize (unit : ascii) : Z :=
  if unit =c "c" then 1
  else if unit =c "w" then 2
  else if unit =c "b" then 512
  else if unit =c "k" then 1024
  else if unit =c "M" then 1024 * 1024
  else if unit =c "G" then 1024 * 1024 * 1024
  else 512.

(** A 64-bit two's complement result; Go's [/] truncates. *)
Definition int64 (z : Z) : Z := ((z + 2 ^ 63) mod 2 ^ 64 - 2 ^ 63)%Z.

Definition fileBlocks (fileSize blockSz : Z) : Z :=
  if (0 <? fileSize)%Z then
    if (blockSz =? 1)%Z then fileSize
    else if (fileSize <=? int64 (int64 (maxInt64 - blockSz) + 1))%Z
    then Z.quot (int64 (int64 (fileSize + blockSz) - 1)) blockSz
    else int64 (Z.quot fileSize blockSz + 1)
  else 0%Z.

Definition compareNumeric (actual target : Z) (cmp : cmpOp) : bool :=
  match cmp with
  | cmpMore => (target <? actual)%Z
  | cmpLess => (actual <? target)%Z
  | cmpExact => (actual =? target)%Z
  end.

(** Its final [switch] is that of [compareNumeric]. *)
Definition compareSize (fileSize : Z) (su : sizeUnit) : bool :=
  compareNumeric (fileBlocks fileSize (sizeBlockSize (su_unit su))) (su_n su) (su_cmp su).

(** [for len(p) > 1 && p[len(p)-1] == '/' { p = p[:len(p)-1] }], on the
    reversed path. *)
Fixpoint stripSlashes (r : bytes) : bytes :=
  match r with
  | c :: ((_ :: _) as r') => if c =c "/" then stripSlashes r' else r
  | _ => r
  end.

(** The bytes after the last slash of the reversed path, in order. *)
Fixpoint lastElement (r acc : bytes) : option bytes :=
  match r with
  | [] => None
  | c :: r => if c =c "/" then Some acc else lastElement r (c :: acc)
  end.

Definition baseName (p : bytes) : bytes :=
  let r := stripSlashes (rev p) in
  match lastElement r [] with
  | Some [] => lit "/"
  | Some tail => tail
  | None => rev r
  end.

(** ** Glob matching *)

Definition globCancelCheckInterval : Z := Z.shiftl 1 12.

Section Glob.
(** The answers of [ctx.Err() != nil], by the number of calls so far. *)
Context (ctxDone : nat -> bool).

(** [steps&(globCancelCheckInterval-1) == 0 && ctx.Err() != nil], and the polls
    made after it. *)
Definition cancelled (steps : Z) (polls : nat) : bool * nat :=
  if (Z.land steps (globCancelCheckInterval - 1) =? 0)%Z then (ctxDone polls, S polls) else (false, polls).

Definition isAt (s : bytes) (i : nat) (c : ascii) : bool :=
  match s !! i with Some x => Ascii.eqb x c | None => false end.

(** [utf8.DecodeRuneInString(s[i:])], and a backslash that escapes the rune
    after it: the rune, and the index after it. *)
Definition classRune (s : bytes) (i : nat) : Z * nat :=
  let '(r, w) := DecodeRune (drop i s) in
  if (r =? 92)%Z && (i + w <? length s) then
    let '(r', w') := DecodeRune (drop (i + w) s) in (r', S i + w')
  else (r, i + w).

(** One item of a bracket class at index [i]: its range and the index after it,
    or [None] for an incomplete range. *)
Definition classItem (s : bytes) (i : nat) : option (Z * Z * nat) :=
  let '(lo, i) := classRune s i in
  if (i + 1 <? length s) && isAt s i "-" && negb (isAt s (i + 1) "]") then
    let '(hi, i) := classRune s (i + 1) in Some (lo, hi, i)
  else if (i <? length s) && isAt s i "-" && (length s <=? i + 1) then None
  else Some (lo, lo, i).

(** The loop of [matchClass]; the width is -1 for an incomplete range or a
    cancellation, 0 for an unclosed bracket. *)
Fixpoint classLoop (fuel : nat) (s : bytes) (ch : Z) (negate : bool) (i : nat)
    (matched first : bool) (steps : Z) (polls : nat) : bool * Z * nat :=
  match fuel with
  | 0 => (false, 0%Z, polls)
  | S fuel =>
      if i <? length s then
        let steps := (steps + 1)%Z in
        let '(stop, polls) := cancelled steps polls in
        if stop then (false, (-1)%Z, polls)
        else if isAt s i "]" && negb first then
          ((if negate then negb matched else matched), Z.of_nat (i + 1), polls)
        else
          match classItem s i with
          | None => (false, (-1)%Z, polls)
          | Some (lo, hi, i) =>
              let matched := if ((lo <=? ch) && (ch <=? hi))%Z then true else matched in
              classLoop fuel s ch negate i matched false steps polls
          end
      else (false, 0%Z, polls)
  end.

Definition matchClass (s : bytes) (ch : Z) (polls : nat) : bool * Z * nat :=
  if (length s <? 2) || negb (isAt s 0 "[") then (false, 0%Z, polls)
  else
    let negate := isAt s 1 "^" || isAt s 1 "!" in
    classLoop (length s) s ch negate (if negate then 2 else 1) false true 0 polls.

(** The state of the matcher's loop; [star] is [Some (nextPx, nextNx)] when a
    [*] is active. *)
Record gstate := mkG { px : nat; nx : nat; star : option (nat * nat); steps : Z; polls : nat }.

Definition at_ (px nx : nat) (s : gstate) : gstate := mkG px nx (star s) (steps s) (polls s).

(** The retry at the end of the loop's body. *)
Definition backtrack (name : bytes) (s : gstate) : bool + gstate :=
  match star s with
  | Some (nextPx, nextNx) =>
      if nextNx <=? length name
      then inr (mkG (nextPx + 1) nextNx (Some (nextPx, nextNx + 1)) (steps s) (polls s))
      else inl false
  | None => inl false
  end.

(** The case of a bracket, with a byte of the name left. *)
Definition classStep (pattern name : bytes) (s : gstate) : bool + gstate :=
  let '(r, w) := DecodeRune (drop (nx s) name) in
  let '(matched, patWidth, polls') := matchClass (drop (px s) pattern) r (polls s) in
  let s := mkG (px s) (nx s) (star s) (steps s) polls' in
  if matched then inr (at_ (px s + Z.to_nat patWidth) (nx s + w) s)
  else if (patWidth =? 0)%Z && isAt name (nx s) "[" then inr (at_ (S (px s)) (S (nx s)) s)
  else if (patWidth =? -1)%Z then inl false
  else backtrack name s.

(** One turn of the loop after the cancellation poll. *)
Definition globStep (pattern name : bytes) (s : gstate) : bool + gstate :=
  match pattern !! px s with
  | None => backtrack name s
  | Some c =>
      if c =c "*" then inr (mkG (S (px s)) (nx s) (Some (px s, S (nx s))) (steps s) (polls s))
      else if c =c "?" then
        if nx s <? length name
        then inr (at_ (S (px s)) (nx s + snd (DecodeRune (drop (nx s) name))) s)
        else backtrack name s
      else if c =c "[" then
        if nx s <? length name then classStep pattern name s else backtrack name s
      else if Ascii.eqb c ch_bs then
        match pattern !! S (px s) with
        | None => backtrack name s
        | Some c' =>
            if isAt name (nx s) c' then inr (at_ (S (S (px s))) (S (nx s)) s) else backtrack name s
        end
      else if isAt name (nx s) c then inr (at_ (S (px s)) (S (nx s)) s)
      else backtrack name s
  end.

Fixpoint globLoop (fuel : nat) (pattern name : bytes) (s : gstate) : option bool :=
  match fuel with
  | 0 => None
  | S fuel =>
      if (px s <? length pattern) || (nx s <? length name) then
        let '(stop, polls') := cancelled (steps s + 1) (polls s) in
        if stop then Some false
        else
          match globStep pattern name (mkG (px s) (nx s) (star s) (steps s + 1) polls') with
          | inl b => Some b
          | inr s => globLoop fuel pattern name s
          end
      else Some true
  end.

(** A bound on the turns: each star and each retry begins a scan of the pattern. *)
Definition globFuel (pattern name : bytes) : nat :=
  S ((length name + length pattern + 4) * (length pattern + 2)).

Definition initG : gstate := mkG 0 0 None 0 0.

(** [None] is out of fuel. *)
Definition pathGlobMatch (pattern name : bytes) : option bool :=
  globLoop (globFuel pattern name) pattern name initG.

Definition matchGlob := pathGlobMatch.
Definition matchPathGlob := pathGlobMatch.

(** [strings.ToLower] is Unicode's; its tables are a parameter. *)
Context (ToLower : bytes -> bytes).

Definition matchGlobFold (pattern name : bytes) : option bool := pathGlobMatch (ToLower pattern) (ToLower name).
Definition matchPathGlobFold (pattern name : bytes) : option bool := pathGlobMatch (ToLower pattern) (ToLower name).

End Glob.

(** ** What glob patterns mean *)

(** A bracket expression, read once for all characters: its ranges and width,
    or one of the two malformed forms. *)
Inductive bracket :=
| Closed (negate : bool) (ranges : list (Z * Z)) (width : nat)
| Unclosed
| Incomplete.

Fixpoint bracketItems (fuel : nat) (s : bytes) (negate : bool) (i : nat) (first : bool)
    (ranges : list (Z * Z)) : bracket :=
  match fuel with
  | 0 => Unclosed
  | S fuel =>
      if i <? length s then
        if isAt s i "]" && negb first then Closed negate ranges (i + 1)
        else
          match classItem s i with
          | None => Incomplete
          | Some (lo, hi, i) => bracketItems fuel s negate i false (ranges ++ [(lo, hi)])
          end
      else Unclosed
  end.

Definition bracketOf (s : bytes) : bracket :=
  if (length s <? 2) || negb (isAt s 0 "[") then Unclosed
  else
    let negate := isAt s 1 "^" || isAt s 1 "!" in
    bracketItems (length s) s negate (if negate then 2 else 1) true [].

Definition inRanges (ch : Z) (ranges : list (Z * Z)) : bool :=
  existsb (fun r => (fst r <=? ch) && (ch <=? snd r))%Z ranges.

Definition rune (s : bytes) : Z := fst (DecodeRune s).
Definition runeWidth (s : bytes) : nat := snd (DecodeRune s).

Definition special (c : ascii) : bool := byte_in c "*?[" || Ascii.eqb c ch_bs.

(** [glob p n]: the pattern [p] matches the whole name [n].  A star matches any
    bytes, a question mark one rune, a bracket expression one rune of its set; an
    unclosed bracket is a literal, an incomplete range matches nothing. *)
Inductive glob : bytes -> bytes -> Prop :=
| glob_end : glob [] []
| glob_star p n k : k <= length n -> glob p (drop k n) -> glob ("*"%char :: p) n
| glob_any p n : n <> [] -> glob p (drop (runeWidth n) n) -> glob ("?"%char :: p) n
| glob_class p n negate ranges w :
    n <> [] -> bracketOf ("["%char :: p) = Closed negate ranges w ->
    xorb negate (inRanges (rune n) ranges) = true ->
    glob (drop w ("["%char :: p)) (drop (runeWidth n) n) -> glob ("["%char :: p) n
| glob_open p n : bracketOf ("["%char :: p) = Unclosed -> glob p n -> glob ("["%char :: p) ("["%char :: n)
| glob_escape c p n : glob p n -> glob (ch_bs :: c :: p) (c :: n)
| glob_literal c p n : special c = false -> glob p n -> glob (c :: p) (c :: n).

(** Every byte is ASCII, so every rune is one byte. *)
Definition ascii_only (s : bytes) : Prop := Forall (fun c => (code c < 128)%Z) s.

(** ** The class matcher *)

Lemma inRanges_snoc ch l r :
  inRanges ch (l ++ [r]) = inRanges ch l || ((fst r <=? ch) && (ch <=? snd r))%Z.
Proof. unfold inRanges. rewrite existsb_app. cbn. by rewrite orb_false_r. Qed.

Definition bracketVerdict (ch : Z) (b : bracket) : bool * Z :=
  match b with
  | Closed negate ranges w => (xorb negate (inRanges ch ranges), Z.of_nat w)
  | Unclosed => (false, 0%Z)
  | Incomplete => (false, (-1)%Z)
  end.

(** Unless a poll stops it, the loop computes the verdict of the expression. *)
Lemma classLoop_spec ctxDone fuel s ch negate i ranges first steps polls :
  let '(m, w, _) := classLoop ctxDone fuel s ch negate i (inRanges ch ranges) first steps polls in
  (m, w) = bracketVerdict ch (bracketItems fuel s negate i first ranges) \/
  ((m, w) = (false, (-1)%Z) /\ exists n, ctxDone n = true).
Proof.
  revert i ranges first steps polls. induction fuel as [|fuel IH]; intros i ranges first steps polls;
    cbn [classLoop bracketItems]; [by left|].
  destruct (i <? length s); [|by left]. cbv zeta. unfold cancelled at 1.
  destruct (_ =? 0)%Z eqn:?.
  - destruct (ctxDone polls) eqn:Ed; [right; split; [done|eauto]|].
    destruct (isAt s i "]" && negb first); [left; cbn; by destruct negate, (inRanges ch ranges)|].
    destruct (classItem s i) as [[[lo hi] j]|]; [|by left].
    specialize (IH j (ranges ++ [(lo, hi)]) false (steps + 1)%Z (S polls)). rewrite inRanges_snoc in IH. cbn [fst snd] in IH.
    replace (if ((lo <=? ch) && (ch <=? hi))%Z then true else inRanges ch ranges)
      with (inRanges ch ranges || ((lo <=? ch) && (ch <=? hi))%Z) by (by destruct (inRanges _ _), (_ && _)).
    exact IH.
  - destruct (isAt s i "]" && negb first); [left; cbn; by destruct negate, (inRanges ch ranges)|].
    destruct (classItem s i) as [[[lo hi] j]|]; [|by left].
    specialize (IH j (ranges ++ [(lo, hi)]) false (steps + 1)%Z polls). rewrite inRanges_snoc in IH. cbn [fst snd] in IH.
    replace (if ((lo <=? ch) && (ch <=? hi))%Z then true else inRanges ch ranges)
      with (inRanges ch ranges || ((lo <=? ch) && (ch <=? hi))%Z) by (by destruct (inRanges _ _), (_ && _)).
    exact IH.
Qed.

Lemma matchClass_spec ctxDone s ch polls :
  let '(m, w, _) := matchClass ctxDone s ch polls in
  (m, w) = bracketVerdict ch (bracketOf s) \/ ((m, w) = (false, (-1)%Z) /\ exists n, ctxDone n = true).
Proof.
  unfold matchClass, bracketOf. destruct (_ || _); [by left|]. cbv zeta. apply (classLoop_spec _ _ _ _ _ _ []).
Qed.

Lemma bracketItems_width fuel s negate i first ranges n r w :
  1 <= i -> bracketItems fuel s negate i first ranges = Closed n r w -> 1 <= w <= length s.
Proof.
  revert i first ranges. induction fuel as [|fuel IH]; intros i first ranges Hi; cbn [bracketItems]; [done|].
  destruct (Nat.ltb_spec i (length s)); [|done].
  destruct (_ && _); [intros [= _ _ <-]; lia|].
  destruct (classItem s i) as [[[lo hi] j]|] eqn:E; [|done]. apply IH.
  unfold classItem, classRune in E. repeat case_match; simplify_eq; lia.
Qed.

Lemma bracketOf_width s n r w : bracketOf s = Closed n r w -> 1 <= w <= length s.
Proof.
  unfold bracketOf. destruct (_ || _); [done|]. cbv zeta. apply bracketItems_width. case_match; lia.
Qed.

Lemma cont_length s n lo hi x : cont s n lo hi = Some x -> n < length s.
Proof.
  unfold cont. destruct (s !! n) eqn:E; [|done]. intros _. by apply lookup_lt_Some in E.
Qed.

Lemma runeWidth_bounds s : s <> [] -> 1 <= runeWidth s <= length s.
Proof.
  intros Hs. unfold runeWidth. split; [apply DecodeRune_width in Hs; lia|].
  destruct s as [|c s]; [done|]. unfold DecodeRune. cbv zeta.
  repeat match goal with
  | |- context [if ?b then _ else _] => destruct b
  | |- context [match cont ?s ?n ?lo ?hi with _ => _ end] =>
      let E := fresh "E" in destruct (cont s n lo hi) eqn:E; [apply cont_length in E|]
  end; cbn [snd length] in *; lia.
Qed.

Lemma runeWidth_ascii c s : (code c < 128)%Z -> runeWidth (c :: s) = 1.
Proof. intros H. unfold runeWidth. by rewrite DecodeRune_ascii. Qed.

(** ** One turn of the matcher *)

Section Step.
Context (ctxDone : nat -> bool) (pattern name : bytes).

(** The pattern from [i] matches the name from [j]. *)
Definition matches (i j : nat) : Prop := j <= length name /\ glob (drop i pattern) (drop j name).

Lemma drop_nonempty (s : bytes) j : j < length s -> drop j s <> [].
Proof. intros H E. apply (f_equal length) in E. rewrite length_drop in E. cbn in E. lia. Qed.

Lemma isAt_drop (s : bytes) j c : isAt s j c = true <-> j < length s /\ drop j s = c :: drop (S j) s.
Proof.
  unfold isAt. destruct (s !! j) as [x|] eqn:E.
  - pose proof (lookup_lt_Some _ _ _ E). rewrite (drop_S _ _ _ E), Ascii.eqb_eq. split; [by intros ->|].
    intros [_ H']. congruence.
  - apply lookup_ge_None in E. split; [done|]. intros [? _]. lia.
Qed.

(** In ASCII names every rune is one byte. *)
Lemma ascii_width j : ascii_only name -> j < length name -> runeWidth (drop j name) = 1.
Proof.
  intros Ha Hj. destruct (lookup_lt_is_Some_2 _ _ Hj) as [c Hc]. rewrite (drop_S _ _ _ Hc).
  apply runeWidth_ascii. by eapply Forall_lookup_1 in Ha.
Qed.

(** A token that consumes one rune: what a turn that advances establishes. *)
Definition advances (i j i' j' : nat) : Prop :=
  i < i' <= length pattern /\ j < j' <= length name /\ (matches i' j' -> matches i j) /\
  (ascii_only name -> j' = S j /\ forall k, matches i k -> matches i' (S k)).

Lemma any_advances i j :
  pattern !! i = Some "?"%char -> j < length name -> advances i j (S i) (j + runeWidth (drop j name)).
Proof.
  intros Hi Hj. pose proof (lookup_lt_Some _ _ _ Hi). pose proof (runeWidth_bounds _ (drop_nonempty _ _ Hj)) as Hw.
  rewrite length_drop in Hw. unfold advances, matches. rewrite (drop_S _ _ _ Hi). split_and!; try lia.
  - intros [_ Hg]. split; [lia|]. apply glob_any; [by apply drop_nonempty|]. by rewrite drop_drop.
  - intros Ha. split; [rewrite ascii_width by done; lia|]. intros k [Hk Hg].
    inversion Hg as [| |p n Hne Hg'| | | |c p n Hs]; subst; [|discriminate Hs].
    assert (k < length name) by (destruct (Nat.lt_ge_cases k (length name)); [done|]; by rewrite drop_ge in Hne by lia).
    split; [lia|]. rewrite ascii_width, drop_drop in Hg' by done. by rewrite Nat.add_1_r in Hg'.
Qed.

(** A byte of the pattern that stands for itself. *)
Lemma byte_advances i j i' c :
  i < i' <= length pattern -> isAt name j c = true ->
  (forall n, glob (drop i' pattern) n -> glob (drop i pattern) (c :: n)) ->
  (forall n, glob (drop i pattern) n -> exists n', n = c :: n' /\ glob (drop i' pattern) n') ->
  advances i j i' (S j).
Proof.
  intros Hi [Hj Hn]%isAt_drop Hin Hout. unfold advances, matches. split_and!; try lia.
  - intros [_ Hg]. split; [lia|]. rewrite Hn. by apply Hin.
  - intros _. split; [done|]. intros k [Hk Hg]. apply Hout in Hg as (n' & En & Hg).
    assert (k < length name) as Hk' by (destruct (Nat.lt_ge_cases k (length name)); [done|]; by rewrite drop_ge in En by lia).
    destruct (lookup_lt_is_Some_2 _ _ Hk') as [x Hx]. rewrite (drop_S _ _ _ Hx) in En. injection En as _ <-.
    split; [lia|done].
Qed.

Lemma class_advances i j negate ranges w :
  pattern !! i = Some "["%char -> j < length name ->
  bracketOf (drop i pattern) = Closed negate ranges w -> xorb negate (inRanges (rune (drop j name)) ranges) = true ->
  advances i j (i + w) (j + runeWidth (drop j name)).
Proof.
  intros Hi Hj Hb Hx. pose proof (bracketOf_width _ _ _ _ Hb) as Hw. rewrite length_drop in Hw.
  pose proof (runeWidth_bounds _ (drop_nonempty _ _ Hj)) as Hrw. rewrite length_drop in Hrw.
  unfold advances, matches. split_and!; try lia.
  - intros [_ Hg]. split; [lia|]. rewrite (drop_S _ _ _ Hi) in *.
    eapply glob_class; [by apply drop_nonempty|done|done|].
    by rewrite <- (drop_S _ _ _ Hi), !drop_drop.
  - intros Ha. split; [rewrite ascii_width by done; lia|]. intros k [Hk Hg]. rewrite (drop_S _ _ _ Hi) in *.
    inversion Hg as [| | |p n ng rs w' Hne Hb' Hx' Hg'|p n Ho| |c p n Hs]; subst; [|congruence|discriminate Hs].
    rewrite Hb in Hb'. injection Hb' as <- <- <-.
    assert (k < length name) by (destruct (Nat.lt_ge_cases k (length name)); [done|]; by rewrite drop_ge in Hne by lia).
    split; [lia|]. rewrite <- (drop_S _ _ _ Hi), !drop_drop, ascii_width in Hg' by done. by rewrite Nat.add_1_r in Hg'.
Qed.

(** What one turn does, in terms of what is left to match. *)
Definition turn_ok (s : gstate) (o : bool + gstate) : Prop :=
  (pattern !! px s = Some "*"%char /\
     o = inr (mkG (S (px s)) (nx s) (Some (px s, S (nx s))) (steps s) (polls s))) \/
  (exists i j n, o = inr (mkG i j (star s) (steps s) n) /\ advances (px s) (nx s) i j) \/
  (exists n, o = backtrack name (mkG (px s) (nx s) (star s) (steps s) n) /\ ~ matches (px s) (nx s)) \/
  (o = inl false /\ ((forall k, ~ matches (px s) k) \/ exists n, ctxDone n = true)).

Lemma turn_backtrack s : ~ matches (px s) (nx s) -> turn_ok s (backtrack name s).
Proof. intros H. right; right; left. exists (polls s). split; [by destruct s|done]. Qed.

Lemma turn_advance s i j : advances (px s) (nx s) i j -> turn_ok s (inr (at_ i j s)).
Proof. intros H. right; left. by exists i, j, (polls s). Qed.

Lemma not_matches_end i j : length pattern <= i -> j < length name -> ~ matches i j.
Proof.
  intros Hi Hj [_ Hg]. rewrite drop_ge in Hg by done. inversion Hg as [E| | | | | |].
  by apply (drop_nonempty name j).
Qed.

Lemma bracket_verdict i k negate ranges w :
  pattern !! i = Some "["%char -> bracketOf (drop i pattern) = Closed negate ranges w ->
  matches i k -> xorb negate (inRanges (rune (drop k name)) ranges) = true.
Proof.
  intros Hi Hb [_ Hg]. rewrite (drop_S _ _ _ Hi) in *.
  inversion Hg as [| | |p n ng rs w' Hne Hb' Hx' Hg'|p n Ho| |c p n Hs]; subst; [|congruence|discriminate Hs].
  rewrite Hb in Hb'. by injection Hb' as <- <- <-.
Qed.

Lemma open_literal i k :
  pattern !! i = Some "["%char -> bracketOf (drop i pattern) = Unclosed -> matches i k ->
  isAt name k "[" = true.
Proof.
  intros Hi Hb [Hk Hg]. rewrite (drop_S _ _ _ Hi) in *. unfold isAt.
  rewrite <- (Nat.add_0_r k), <- lookup_drop. remember (drop k name) as n eqn:En.
  inversion Hg as [| | |p n' ng rs w' Hne Hb' Hx' Hg'|p n' Ho Hg'| |c p n' Hs]; subst; [congruence|done|discriminate Hs].
Qed.

Lemma incomplete_never i k :
  pattern !! i = Some "["%char -> bracketOf (drop i pattern) = Incomplete -> ~ matches i k.
Proof.
  intros Hi Hb [_ Hg]. rewrite (drop_S _ _ _ Hi) in *.
  inversion Hg as [| | |p n ng rs w' Hne Hb' Hx' Hg'|p n Ho| |c p n Hs]; subst; [congruence..|discriminate Hs].
Qed.

Lemma open_advances i j :
  pattern !! i = Some "["%char -> bracketOf (drop i pattern) = Unclosed -> isAt name j "[" = true ->
  advances i j (S i) (S j).
Proof.
  intros Hi Hb Hj. pose proof (lookup_lt_Some _ _ _ Hi). rewrite (drop_S _ _ _ Hi) in Hb.
  eapply byte_advances; [lia|done|rewrite (drop_S _ _ _ Hi)..].
  - intros n Hg. by apply glob_open.
  - intros n Hg. inversion Hg as [| | |p n' ng rs w' Hne Hb' Hx' Hg'|p n' Ho Hg'| |c p n' Hs]; subst;
      [congruence|eauto|discriminate Hs].
Qed.

Lemma classStep_ok s :
  pattern !! px s = Some "["%char -> nx s < length name ->
  turn_ok s (classStep ctxDone pattern name s).
Proof.
  intros Hi Hj. unfold classStep. pose proof (matchClass_spec ctxDone (drop (px s) pattern) (rune (drop (nx s) name)) (polls s)) as Hm.
  unfold rune in Hm. destruct (DecodeRune (drop (nx s) name)) as [r w] eqn:Er. cbn [fst] in Hm.
  destruct (matchClass _ _ _ _) as [[m pw] polls']. cbv zeta. cbn [px nx star steps polls].
  destruct Hm as [Hm|[[= -> ->] Hd]]; [|cbn; right; right; right; split; [done|by right]].
  assert (rune (drop (nx s) name) = r) as Hr by (unfold rune; by rewrite Er).
  assert (runeWidth (drop (nx s) name) = w) as Hw by (unfold runeWidth; by rewrite Er).
  destruct (bracketOf (drop (px s) pattern)) as [negate ranges bw| |] eqn:Hb; cbn [bracketVerdict] in Hm; injection Hm as -> ->.
  - destruct (xorb negate (inRanges r ranges)) eqn:Hx.
    + rewrite Nat2Z.id. right; left. exists (px s + bw), (nx s + w), polls'. split; [done|]. rewrite <- Hw.
      eapply class_advances; [done..|by rewrite Hr].
    + pose proof (bracketOf_width _ _ _ _ Hb).
      rewrite (proj2 (Z.eqb_neq _ _)) by lia. rewrite (proj2 (Z.eqb_neq (Z.of_nat bw) (-1))) by lia. cbn [andb].
      right; right; left. exists polls'. split; [done|]. intros HG.
      pose proof (bracket_verdict _ _ _ _ _ Hi Hb HG). congruence.
  - cbn [Z.eqb andb]. destruct (isAt name (nx s) "[") eqn:Ea.
    + right; left. exists (S (px s)), (S (nx s)), polls'. split; [done|]. by apply open_advances.
    + right; right; left. exists polls'. split; [done|]. intros HG.
      pose proof (open_literal _ _ Hi Hb HG). congruence.
  - cbn. right; right; right. split; [done|]. left. intros k. by apply incomplete_never.
Qed.

Lemma escape_advances i j c :
  pattern !! i = Some ch_bs -> pattern !! S i = Some c -> isAt name j c = true -> advances i j (S (S i)) (S j).
Proof.
  intros Hi Hc Hj. pose proof (lookup_lt_Some _ _ _ Hc).
  eapply byte_advances; [lia|done|rewrite (drop_S _ _ _ Hi), (drop_S _ _ _ Hc)..].
  - intros n Hg. by apply glob_escape.
  - intros n Hg. inversion Hg as [| | | | |c' p n' Hg'|c' p n' Hs]; subst; [eauto|discriminate Hs].
Qed.

Lemma literal_advances i j c :
  pattern !! i = Some c -> special c = false -> isAt name j c = true -> advances i j (S i) (S j).
Proof.
  intros Hi Hs Hj. pose proof (lookup_lt_Some _ _ _ Hi).
  eapply byte_advances; [lia|done|rewrite (drop_S _ _ _ Hi)..].
  - intros n Hg. by apply glob_literal.
  - intros n Hg. inversion Hg; subst; try discriminate Hs. eauto.
Qed.

Lemma matches_head i j c :
  pattern !! i = Some c -> matches i j -> c <> "*"%char ->
  j < length name /\
  (c = ch_bs -> exists c', pattern !! S i = Some c' /\ isAt name j c' = true) /\
  (special c = false -> isAt name j c = true).
Proof.
  intros Hi [Hj Hg] Hstar. rewrite (drop_S _ _ _ Hi) in Hg.
  assert (j < length name) as Hlt.
  { destruct (Nat.lt_ge_cases j (length name)); [done|]. rewrite (drop_ge name) in Hg by lia. by inversion Hg. }
  split; [done|]. destruct (lookup_lt_is_Some_2 _ _ Hlt) as [x Hx].
  unfold isAt. rewrite Hx. rewrite (drop_S _ _ _ Hx) in Hg. split.
  - intros ->. destruct (drop (S i) pattern) as [|c' p'] eqn:Ep; inversion Hg; subst; try discriminate.
    exists x. split; [|apply Ascii.eqb_refl]. by rewrite <- (Nat.add_0_r (S i)), <- lookup_drop, Ep.
  - intros Hs. inversion Hg; subst; try discriminate Hs. apply Ascii.eqb_refl.
Qed.

Lemma globStep_ok s :
  px s < length pattern \/ nx s < length name -> turn_ok s (globStep ctxDone pattern name s).
Proof.
  intros Hin. unfold globStep. destruct (pattern !! px s) as [c|] eqn:Hi.
  2:{ apply turn_backtrack, not_matches_end; [by apply lookup_ge_None|]. apply lookup_ge_None in Hi. lia. }
  destruct (Ascii.eqb_spec c "*") as [->|Hstar]; [by left|].
  assert (forall k, matches (px s) k -> k < length name) as Hlt by (intros k H; by eapply (matches_head (px s) k c)).
  destruct (Ascii.eqb_spec c "?") as [->|Hq].
  { destruct (Nat.ltb_spec (nx s) (length name)); [by apply turn_advance, any_advances|].
    apply turn_backtrack. intros H'%Hlt. lia. }
  destruct (Ascii.eqb_spec c "[") as [->|Hb].
  { destruct (Nat.ltb_spec (nx s) (length name)); [by apply classStep_ok|].
    apply turn_backtrack. intros H'%Hlt. lia. }
  destruct (Ascii.eqb_spec c ch_bs) as [->|Hbs].
  { destruct (pattern !! S (px s)) as [c'|] eqn:Hc.
    - destruct (isAt name (nx s) c') eqn:Ea; [by eapply turn_advance, escape_advances|].
      apply turn_backtrack. intros HG. destruct (matches_head _ _ _ Hi HG Hstar) as (_ & (x & Hx & Ha) & _); [done|]. congruence.
    - apply turn_backtrack. intros HG. destruct (matches_head _ _ _ Hi HG Hstar) as (_ & (x & Hx & Ha) & _); [done|]. congruence. }
  assert (special c = false) as Hs.
  { unfold special, byte_in. change (lit "*?[") with ["*"; "?"; "["]%char. cbn [existsb].
    rewrite !orb_false_iff. repeat split; by apply Ascii.eqb_neq. }
  destruct (isAt name (nx s) c) eqn:Ea; [by eapply turn_advance, literal_advances|].
  apply turn_backtrack. intros HG. destruct (matches_head _ _ _ Hi HG Hstar) as (_ & _ & Ha). rewrite Ha in Ea; done.
Qed.

End Step.

(** ** The loop *)

Section Loop.
Context (ctxDone : nat -> bool) (pattern name : bytes).

Abbreviation matches := (matches pattern name).

(** What is known when the loop is about to turn.  The first three clauses are
    sound for every name; the last group needs one byte per rune: the current
    attempt began at the byte [m], each token since the star took one byte, and
    every way to match begins at [m] or later. *)
Record loop_inv (s : gstate) : Prop := {
  inv_bounds : px s <= length pattern /\ nx s <= length name;
  inv_sound : matches (px s) (nx s) -> matches 0 0;
  inv_star : match star s with
    | None => ascii_only name -> matches 0 0 -> matches (px s) (nx s)
    | Some (p, n) => exists m, n = S m /\ m <= nx s /\ p < px s /\ p < length pattern /\
        (forall k, m <= k -> matches (S p) k -> matches 0 0) /\
        (ascii_only name ->
          (forall k, matches (S p) k -> matches (px s) (k + (nx s - m))) /\
          (matches 0 0 -> exists k, m <= k /\ matches (S p) k))
    end }.

Lemma matches_star i j :
  pattern !! i = Some "*"%char -> matches i j <-> j <= length name /\ exists k, j <= k /\ matches (S i) k.
Proof.
  intros Hi. unfold FindMatch.matches. rewrite (drop_S _ _ _ Hi). split.
  - intros [Hj Hg]. split; [done|]. inversion Hg as [|p n k Hk Hg'| | | | |c p n Hs]; subst; [|discriminate Hs].
    rewrite length_drop in Hk. exists (j + k). rewrite drop_drop in Hg'. split; [lia|]. split; [lia|done].
  - intros [Hj (k & Hjk & Hk & Hg)]. split; [done|]. apply (glob_star _ _ (k - j)); [rewrite length_drop; lia|].
    rewrite drop_drop. by replace (j + (k - j)) with k by lia.
Qed.

Lemma inv_init : loop_inv initG.
Proof. split; cbn; [lia|done|done]. Qed.

Lemma inv_star_step s :
  loop_inv s -> pattern !! px s = Some "*"%char ->
  loop_inv (mkG (S (px s)) (nx s) (Some (px s, S (nx s))) (steps s) (polls s)).
Proof.
  intros [Hb Hsound Hstar] Hi. pose proof (lookup_lt_Some _ _ _ Hi).
  assert (forall k, nx s <= k -> matches (S (px s)) k -> matches 0 0) as Hs'.
  { intros k Hk HG. apply Hsound, matches_star; [done|]. split; [lia|eauto]. }
  split; cbn [px nx star]; [lia| |].
  - intros HG. by apply (Hs' (nx s)).
  - exists (nx s). split_and!; try done; try lia. intros Ha. split.
    + intros k HG. by rewrite Nat.sub_diag, Nat.add_0_r.
    + intros H0. destruct (star s) as [[p n]|].
      * destruct Hstar as (m & -> & Hm & Hp & _ & _ & Hc). destruct (Hc Ha) as [Hfwd Hall].
        destruct (Hall H0) as (k & Hk & HG). apply Hfwd in HG. apply matches_star in HG as [_ (k' & ? & ?)]; [|done].
        exists k'. split; [lia|done].
      * apply (Hstar Ha) in H0. apply matches_star in H0 as [_ (k' & ? & ?)]; [|done]. eauto.
Qed.

Lemma inv_advance s i j n :
  loop_inv s -> advances pattern name (px s) (nx s) i j -> loop_inv (mkG i j (star s) (steps s) n).
Proof.
  intros [Hb Hsound Hstar] (Hi & Hj & Hback & Hfwd). split; cbn [px nx star]; [lia|auto|].
  destruct (star s) as [[p q]|].
  - destruct Hstar as (m & -> & Hm & Hp & Hpl & Hs & Hc). exists m. split_and!; try done; try lia.
    intros Ha. destruct (Hc Ha) as [Hf Hall]. destruct (Hfwd Ha) as [-> Hstep]. split; [|done].
    intros k HG. replace (k + (S (nx s) - m)) with (S (k + (nx s - m))) by lia. auto.
  - intros Ha H0. destruct (Hfwd Ha) as [-> Hstep]. auto.
Qed.

Lemma inv_backtrack s n s' :
  loop_inv s -> ~ matches (px s) (nx s) ->
  backtrack name (mkG (px s) (nx s) (star s) (steps s) n) = inr s' -> loop_inv s'.
Proof.
  intros [Hb Hsound Hstar] Hno. unfold backtrack. cbn [star steps polls].
  destruct (star s) as [[p q]|]; [|done]. destruct Hstar as (m & -> & Hm & Hp & Hpl & Hs & Hc).
  destruct (Nat.leb_spec (S m) (length name)); [|done]. intros [= <-].
  split; cbn [px nx star]; [lia| |].
  - rewrite Nat.add_1_r. apply Hs. lia.
  - exists (S m). split_and!; try lia; [intros k Hk; apply Hs; lia|]. intros Ha. destruct (Hc Ha) as [Hf Hall]. split.
    + intros k HG. by rewrite Nat.sub_diag, Nat.add_0_r, Nat.add_1_r.
    + intros H0. destruct (Hall H0) as (k & Hk & HG). exists k. split; [|done].
      destruct (Nat.eq_dec k m) as [->|]; [|lia]. exfalso. apply Hno. apply Hf in HG.
      by replace (nx s) with (m + (nx s - m)) by lia.
Qed.

(** Giving up without an active star, or with the star at the end of the name,
    is right for ASCII names. *)
Lemma inv_fail s n :
  loop_inv s -> ~ matches (px s) (nx s) -> ascii_only name ->
  backtrack name (mkG (px s) (nx s) (star s) (steps s) n) = inl false -> ~ matches 0 0.
Proof.
  intros [Hb Hsound Hstar] Hno Ha. unfold backtrack. cbn [star steps polls].
  destruct (star s) as [[p q]|]; [|intros _ H0; auto]. destruct Hstar as (m & -> & Hm & Hp & Hpl & Hs & Hc).
  destruct (Nat.leb_spec (S m) (length name)); [done|]. intros _ H0.
  destruct (Hc Ha) as [Hf Hall]. destruct (Hall H0) as (k & Hk & HG).
  assert (k = m) as -> by (destruct HG; lia). apply Hno. apply Hf in HG.
  by replace (nx s) with (m + (nx s - m)) by lia.
Qed.

Lemma inv_fatal s : loop_inv s -> (forall k, ~ matches (px s) k) -> ascii_only name -> ~ matches 0 0.
Proof.
  intros [Hb Hsound Hstar] Hno Ha H0. destruct (star s) as [[p q]|]; [|by eapply Hno, Hstar].
  destruct Hstar as (m & -> & Hm & Hp & Hpl & Hs & Hc). destruct (Hc Ha) as [Hf Hall].
  destruct (Hall H0) as (k & _ & HG). by eapply Hno, Hf.
Qed.

(** The turn's cancellation poll does not touch the positions. *)
Lemma inv_polled s st n : loop_inv s -> loop_inv (mkG (px s) (nx s) (star s) st n).
Proof. by intros [? ? ?]. Qed.

Lemma cancelled_true st n : fst (cancelled ctxDone st n) = true -> exists k, ctxDone k = true.
Proof. unfold cancelled. case_match; cbn; [eauto|done]. Qed.

Lemma loop_end s :
  (px s <? length pattern) || (nx s <? length name) = false -> loop_inv s -> matches (px s) (nx s).
Proof.
  intros [?%Nat.ltb_ge ?%Nat.ltb_ge]%orb_false_iff [? _ _]. split; [lia|]. rewrite !drop_ge by lia. constructor.
Qed.

Lemma loop_live s :
  (px s <? length pattern) || (nx s <? length name) = true -> px s < length pattern \/ nx s < length name.
Proof. by intros [?%Nat.ltb_lt|?%Nat.ltb_lt]%orb_true_iff; [left|right]. Qed.

(** The loop's answer: true is sound, false is right for ASCII names unless a
    poll stopped the loop. *)
Lemma globLoop_answer fuel s b :
  loop_inv s -> globLoop ctxDone fuel pattern name s = Some b ->
  if b : bool then matches 0 0
  else ascii_only name -> (forall n, ctxDone n = false) -> ~ matches 0 0.
Proof.
  revert s. induction fuel as [|fuel IH]; intros s Hinv; [done|]. cbn [globLoop].
  destruct (_ || _) eqn:Hin.
  2:{ intros [= <-]. by eapply inv_sound, loop_end. }
  pose proof (cancelled_true (steps s + 1)%Z (polls s)) as Hpoll.
  destruct (cancelled ctxDone _ _) as [stop polls'].
  destruct stop. { intros [= <-] _ Hn. destruct (Hpoll eq_refl) as [k Hk]. congruence. }
  set (s1 := mkG _ _ _ _ _). apply (inv_polled s (steps s + 1)%Z polls') in Hinv. fold s1 in Hinv.
  assert (turn_ok ctxDone pattern name s1 (globStep ctxDone pattern name s1)) as Hturn
    by (by apply globStep_ok, loop_live).
  destruct Hturn as [[Hi ->]|[(i & j & n & -> & Hadv)|[(n & -> & Hno)|[-> Hno]]]].
  - apply IH. by apply inv_star_step.
  - apply IH. by eapply inv_advance.
  - destruct (backtrack _ _) as [b'|s'] eqn:Eb; [|by apply IH; eapply inv_backtrack].
    intros [= ->]. assert (b = false) as -> by (unfold backtrack in Eb; repeat case_match; simplify_eq; done).
    intros Ha _. by eapply inv_fail.
  - intros [= <-] Ha Hn. destruct Hno as [Hno|[k Hk]]; [by eapply inv_fatal|congruence].
Qed.

(** *** Termination *)

Definition credit (s : gstate) : nat :=
  match star s with
  | None => length name + length pattern + 3
  | Some (p, n) => (length name + 2 - n) + (length pattern - p)
  end.

Definition measure (s : gstate) : nat :=
  credit s * (length pattern + 2) + (length pattern + 1 - px s).

Lemma measure_credit s s' :
  credit s' < credit s -> measure s' < measure s.
Proof. unfold measure. intros H. assert (length pattern + 1 - px s' < length pattern + 2) by lia. nia. Qed.

Lemma turn_decreases s s' :
  loop_inv s -> px s < length pattern \/ nx s < length name ->
  globStep ctxDone pattern name s = inr s' -> loop_inv s' /\ measure s' < measure s.
Proof.
  intros Hinv Hin E.
  destruct (globStep_ok ctxDone pattern name s Hin) as [[Hi Eo]|[(i & j & n & Eo & Hadv)|[(n & Eo & Hno)|[Eo _]]]];
    rewrite E in Eo; [injection Eo as ->|injection Eo as ->| |done].
  - split; [by apply inv_star_step|]. apply measure_credit. pose proof (lookup_lt_Some _ _ _ Hi).
    destruct Hinv as [Hb _ Hs]. unfold credit. cbn [star]. destruct (star s) as [[p n]|]; [|lia].
    destruct Hs as (m & -> & Hm & Hp & Hpl & _). lia.
  - split; [by eapply inv_advance|]. destruct Hadv as (Hi & _). unfold measure, credit. cbn [star px]. lia.
  - split; [by eapply inv_backtrack|]. apply measure_credit. destruct Hinv as [Hb _ Hs].
    unfold backtrack in Eo. cbn [star] in Eo. unfold credit. destruct (star s) as [[p q]|]; [|done].
    destruct (Nat.leb_spec q (length name)); [|done]. injection Eo as ->. cbn [star]. lia.
Qed.

Lemma globLoop_terminates fuel s :
  loop_inv s -> measure s < fuel -> globLoop ctxDone fuel pattern name s <> None.
Proof.
  revert s. induction fuel as [|fuel IH]; intros s Hinv Hm; [lia|]. cbn [globLoop].
  destruct (_ || _) eqn:Hin; [|done]. destruct (cancelled ctxDone _ _) as [[] polls']; [done|].
  destruct (globStep _ _ _ _) as [b|s'] eqn:E; [done|].
  apply turn_decreases in E as [Hinv' Hlt]; [|by apply inv_polled|by apply loop_live].
  apply IH; [done|]. unfold measure, credit in *. cbn [star px] in Hlt. lia.
Qed.

End Loop.

(** The glob matcher terminates on every pattern, name and pattern of
    cancellations, within a number of turns bounded by the product of the lengths. *)
Theorem glob_terminates ctxDone pattern name : pathGlobMatch ctxDone pattern name <> None.
Proof.
  apply globLoop_terminates; [apply inv_init|]. unfold measure, credit, globFuel, initG. cbn [star px]. nia.
Qed.

(** A positive answer of the glob matcher is right for every name, whether or
    not the context is cancelled meanwhile. *)
Theorem glob_sound ctxDone pattern name :
  pathGlobMatch ctxDone pattern name = Some true -> glob pattern name.
Proof.
  intros H. apply (globLoop_answer _ _ _ _ _ true (inv_init pattern name)) in H. by destruct H as [_ Hg].
Qed.

Lemma glob_sound_witness :
  pathGlobMatch (fun _ => true) (lit "[!a-c]*") (lit "x/y") = Some true /\ glob (lit "[!a-c]*") (lit "x/y").
Proof.
  assert (pathGlobMatch (fun _ => true) (lit "[!a-c]*") (lit "x/y") = Some true) as H by (vm_compute; reflexivity).
  split; [exact H|]. exact (glob_sound _ _ _ H).
Defined.

(** C5. For ASCII names the matcher decides glob matching: keeping only the last
    star to return to loses no match. *)
Theorem glob_exact_ascii ctxDone pattern name :
  ascii_only name -> (forall n, ctxDone n = false) ->
  pathGlobMatch ctxDone pattern name = Some true <-> glob pattern name.
Proof.
  intros Ha Hn. destruct (pathGlobMatch ctxDone pattern name) as [b|] eqn:E.
  2:{ exfalso. revert E. apply globLoop_terminates; [apply inv_init|].
      unfold measure, credit, globFuel, initG. cbn [star px]. nia. }
  apply (globLoop_answer _ _ _ _ _ b (inv_init pattern name)) in E. destruct b.
  - split; [|done]. intros _. by destruct E as [_ Hg].
  - split; [done|]. intros Hg. exfalso. apply (E Ha Hn). split; [lia|done].
Qed.

Lemma glob_exact_ascii_witness : ~ glob (lit "*a*b?") (lit "bbaacb").
Proof.
  intros H. apply (glob_exact_ascii (fun _ => false)) in H; [vm_compute in H; discriminate H| |done].
  repeat constructor.
Defined.


(** One euro sign: three bytes, one rune. *)
Definition euro : bytes := [byte 226; byte 130; byte 172].

(** A star can stop inside a rune: two question marks after it match a name of
    a single three-byte rune, each taking one of its continuation bytes, although a
    question mark stands for one rune and the name has only one. *)
Theorem glob_splits_rune :
  runes euro = [euro] /\
  pathGlobMatch (fun _ => false) (lit "??") euro = Some false /\
  pathGlobMatch (fun _ => false) (lit "*??") euro = Some true.
Proof. vm_compute. done. Qed.

(** ** Sizes *)

Lemma int64_id z : (- 2 ^ 63 <= z < 2 ^ 63)%Z -> int64 z = z.
Proof. intros H. unfold int64. rewrite Z.mod_small by lia. lia. Qed.

Lemma sizeBlockSize_bounds u : (1 <= sizeBlockSize u <= 2 ^ 30)%Z.
Proof. unfold sizeBlockSize. repeat case_match; lia. Qed.

(** The block divides the word, so no size above the last multiple is one. *)
Lemma sizeBlockSize_divides u : exists c, (2 ^ 63 = sizeBlockSize u * c)%Z.
Proof.
  exists (2 ^ 63 / sizeBlockSize u)%Z. unfold sizeBlockSize. repeat case_match; reflexivity.
Qed.

(** The size in blocks is the ceiling of the size over the block, for every
    unit and every size up to the largest 64-bit value: no intermediate result
    overflows. *)
Theorem fileBlocks_ceiling fileSize unit :
  (0 <= fileSize <= maxInt64)%Z ->
  let b := sizeBlockSize unit in
  ((fileBlocks fileSize b - 1) * b < fileSize <= fileBlocks fileSize b * b)%Z.
Proof.
  intros Hf b. unfold maxInt64 in *. pose proof (sizeBlockSize_bounds unit) as Hb.
  destruct (sizeBlockSize_divides unit) as [c Hc]. fold b in Hb, Hc. clearbody b.
  unfold fileBlocks, maxInt64. destruct (Z.ltb_spec 0 fileSize); [|nia].
  destruct (Z.eqb_spec b 1); [subst; lia|].
  rewrite (int64_id (2 ^ 63 - 1 - b)), (int64_id (2 ^ 63 - 1 - b + 1)) by lia.
  destruct (Z.leb_spec fileSize (2 ^ 63 - 1 - b + 1)).
  - destruct (Z.eq_dec fileSize (2 ^ 63 - b)) as [->|].
    + (* the sum wraps around and back *)
      assert (int64 (2 ^ 63 - b + b) = - 2 ^ 63)%Z as E by (unfold int64; replace (2 ^ 63 - b + b + 2 ^ 63)%Z with (1 * 2 ^ 64)%Z by lia; rewrite Z.mod_mul by lia; lia).
      rewrite E. replace (- 2 ^ 63 - 1)%Z with (2 ^ 63 - 1 + -1 * 2 ^ 64)%Z by lia.
      assert (int64 (2 ^ 63 - 1 + -1 * 2 ^ 64) = 2 ^ 63 - 1)%Z as ->.
      { unfold int64. replace (2 ^ 63 - 1 + -1 * 2 ^ 64 + 2 ^ 63)%Z with (2 ^ 64 - 1 + -1 * 2 ^ 64)%Z by lia.
        rewrite Z.mod_add by lia. rewrite Z.mod_small by lia. lia. }
      rewrite Z.quot_div_nonneg by lia.
      pose proof (Z.div_mod (2 ^ 63 - 1) b ltac:(lia)). pose proof (Z.mod_pos_bound (2 ^ 63 - 1) b ltac:(lia)). nia.
    + rewrite (int64_id (fileSize + b)), int64_id by lia. rewrite Z.quot_div_nonneg by lia.
      pose proof (Z.div_mod (fileSize + b - 1) b ltac:(lia)). pose proof (Z.mod_pos_bound (fileSize + b - 1) b ltac:(lia)). nia.
  - rewrite Z.quot_div_nonneg by lia.
    pose proof (Z.div_mod fileSize b ltac:(lia)). pose proof (Z.mod_pos_bound fileSize b ltac:(lia)).
    assert (0 <= fileSize / b <= fileSize / 2)%Z by (split; [apply Z.div_pos; lia|apply Z.div_le_compat_l; lia]).
    assert (fileSize / 2 < 2 ^ 62)%Z by (apply Z.div_lt_upper_bound; lia).
    set (q := (fileSize / b)%Z) in *. set (m := (fileSize mod b)%Z) in *. clearbody q m.
    assert (m <> 0)%Z by (intros ->; assert (c - 1 < q < c)%Z by (split; apply (Z.mul_lt_mono_pos_l b); lia); lia).
    rewrite (int64_id (q + 1)) by lia. nia.
Qed.

Lemma fileBlocks_ceiling_witness :
  fileBlocks maxInt64 1024 = (2 ^ 53)%Z /\
  ((fileBlocks maxInt64 1024 - 1) * 1024 < maxInt64 <= fileBlocks maxInt64 1024 * 1024)%Z.
Proof.
  split; [vm_compute; reflexivity|].
  assert (0 <= maxInt64 <= maxInt64)%Z as H by (split; [vm_compute; discriminate|apply Z.le_refl]).
  apply (fileBlocks_ceiling _ "k") in H. cbv zeta in H. change (sizeBlockSize "k") with 1024%Z in H. exact H.
Defined.

(** ** Permissions *)

Lemma land_subset a b : (0 <= b)%Z -> Z.land a b = b <-> (forall i, 0 <= i -> Z.testbit b i = true -> Z.testbit a i = true)%Z.
Proof.
  intros Hb. split.
  - intros E i Hi Hbi. rewrite <- E, Z.land_spec in Hbi. by apply andb_true_iff in Hbi as [? _].
  - intros H. apply Z.bits_inj'. intros i Hi. rewrite Z.land_spec.
    destruct (Z.testbit b i) eqn:E; [by rewrite H|apply andb_false_r].
Qed.

Lemma land_meets a b : Z.land a b <> 0%Z <-> (exists i, 0 <= i /\ Z.testbit a i = true /\ Z.testbit b i = true)%Z.
Proof.
  split.
  - intros H. destruct (Z.eq_dec (Z.land a b) 0) as [|Hne]; [done|].
    destruct (Z_lt_le_dec (Z.land a b) 0) as [Hneg|Hpos].
    + destruct (Z.bits_iff_neg_ex (Z.land a b)) as [Hex _]. destruct (Hex Hneg) as [k Hk].
      exists (Z.max 0 (k + 1)). split; [lia|]. rewrite <- andb_true_iff, <- Z.land_spec. apply Hk. lia.
    + exists (Z.log2 (Z.land a b)). split; [apply Z.log2_nonneg|].
      rewrite <- andb_true_iff, <- Z.land_spec. apply Z.bit_log2. lia.
  - intros (i & Hi & Ha & Hb) E. apply (f_equal (fun z => Z.testbit z i)) in E.
    by rewrite Z.land_spec, Ha, Hb, Z.bits_0 in E.
Qed.

(** The three forms of [-perm]: a dash asks for every target bit, a slash for
    some target bit (or an empty target), otherwise the twelve bits are equal. *)
Theorem matchPerm_spec mode target :
  (0 <= target)%Z ->
  (matchPerm mode target "-" = true <->
     forall i, (0 <= i -> Z.testbit target i = true -> Z.testbit (unixPerm mode) i = true)%Z) /\
  (matchPerm mode target "/" = true <->
     target = 0%Z \/ exists i, (0 <= i /\ Z.testbit (unixPerm mode) i = true /\ Z.testbit target i = true)%Z) /\
  (matchPerm mode target "=" = true <-> unixPerm mode = target).
Proof.
  intros Ht. unfold matchPerm. cbv zeta. cbn [Ascii.eqb Bool.eqb]. split_and!.
  - rewrite Z.eqb_eq. by apply land_subset.
  - destruct (Z.eqb_spec target 0) as [->|Hne]; [tauto|]. rewrite negb_true_iff, Z.eqb_neq, land_meets. tauto.
  - apply Z.eqb_eq.
Qed.

(** Setuid and rwxr-xr-x: 04755. *)
Lemma matchPerm_spec_witness :
  let mode := Z.lor ModeSetuid 493 in matchPerm mode 2048 "-" = true /\ unixPerm mode = 2541%Z.
Proof.
  intros mode. destruct (matchPerm_spec mode 2048 ltac:(vm_compute; discriminate)) as (_ & _ & _).
  destruct (matchPerm_spec mode 2541 ltac:(vm_compute; discriminate)) as (_ & _ & H).
  split; [vm_compute; reflexivity|]. apply H. vm_compute. reflexivity.
Defined.

(** ** Base names *)

Lemma elem_of_rev (x : ascii) l : x ∈ rev l <-> x ∈ l.
Proof. rewrite rev_alt. apply elem_of_reverse. Qed.

Lemma stripSlashes_spec r :
  r <> [] -> exists k, r = replicate k "/"%char ++ stripSlashes r /\ stripSlashes r <> [] /\
    (head (stripSlashes r) = Some "/"%char -> stripSlashes r = lit "/").
Proof.
  induction r as [|c r IH]; [done|]. intros _. destruct r as [|c' r].
  { exists 0. split; [done|]. split; [done|]. cbn. by intros [= ->]. }
  cbn [stripSlashes]. destruct (Ascii.eqb_spec c "/") as [->|Hc].
  - destruct IH as (k & E & ?); [done|]. exists (S k). split; [|done]. cbn [replicate app]. f_equal; exact E.
  - exists 0. split; [done|]. split; [done|]. cbn. by intros [= ->].
Qed.

Lemma lastElement_spec r acc :
  match lastElement r acc with
  | Some t => exists d l, r = l ++ "/"%char :: d /\ ("/"%char ∉ l) /\ t = rev l ++ acc
  | None => "/"%char ∉ r
  end.
Proof.
  revert acc. induction r as [|c r IH]; intros acc; cbn [lastElement]; [apply not_elem_of_nil|].
  destruct (Ascii.eqb_spec c "/") as [->|Hc].
  { exists r, []. split; [done|]. split; [apply not_elem_of_nil|done]. }
  specialize (IH (c :: acc)). destruct (lastElement r (c :: acc)) as [t|].
  - destruct IH as (d & l & -> & Hl & ->). exists d, (c :: l). split; [done|]. split; [by apply not_elem_of_cons|].
    cbn. by rewrite <- app_assoc.
  - by apply not_elem_of_cons.
Qed.

(** The base name of a path that is not only slashes is its last element: no
    slash in it, only slashes after it, and a slash or nothing before it; of a path
    of slashes it is one slash. *)
Theorem baseName_last p :
  p <> [] ->
  (exists k, p = replicate k "/"%char /\ baseName p = lit "/") \/
  (exists dir k, p = dir ++ baseName p ++ replicate k "/"%char /\ ("/"%char ∉ baseName p) /\ baseName p <> [] /\
                 (dir = [] \/ exists d, dir = d ++ ["/"%char])).
Proof.
  intros Hp. unfold baseName. cbv zeta.
  destruct (stripSlashes_spec (rev p)) as (k & E & Hne & Hhd).
  { intros E. apply (f_equal (@rev ascii)) in E. by rewrite rev_involutive in E. }
  apply (f_equal (@rev ascii)) in E. rewrite rev_involutive, rev_app_distr in E.
  assert (rev (replicate k "/"%char) = replicate k "/"%char) as Hrep.
  { clear. induction k as [|k IH]; [done|]. cbn [replicate rev]. rewrite IH. by rewrite <- replicate_cons_app. }
  rewrite Hrep in E. pose proof (lastElement_spec (stripSlashes (rev p)) []) as Hl.
  destruct (lastElement _ _) as [t|].
  - destruct Hl as (d & l & Er & Hl & ->). rewrite app_nil_r. rewrite Er, rev_app_distr in E. cbn [rev] in E.
    destruct l as [|x l].
    + left. rewrite Er in Hhd. specialize (Hhd eq_refl). injection Hhd as ->. exists (S k). cbn [rev app] in *.
      split; [done|done].
    + right. assert (rev (x :: l) <> []) as Hne'.
      { intros E'. apply (f_equal length) in E'. rewrite length_rev in E'. done. }
      destruct (rev (x :: l)) as [|y ys] eqn:Ey; [done|]. exists (rev d ++ ["/"%char]), k. rewrite <- Ey in *.
      split; [by rewrite E, <- !app_assoc|]. split; [by rewrite elem_of_rev|].
      split; [done|right; eauto].
  - right. exists [], k. split; [by rewrite E at 1|]. split_and!; [|..|by left].
    + by rewrite elem_of_rev.
    + intros E'. apply (f_equal length) in E'. rewrite length_rev in E'. by destruct (stripSlashes (rev p)).
Qed.

Lemma baseName_last_witness :
  baseName (lit "usr/lib//") = lit "lib" /\
  ((exists k, lit "usr/lib//" = replicate k "/"%char /\ lit "lib" = lit "/") \/
   (exists dir k, lit "usr/lib//" = dir ++ lit "lib" ++ replicate k "/"%char /\ ("/"%char ∉ lit "lib") /\
                  lit "lib" <> [] /\ (dir = [] \/ exists d, dir = d ++ ["/"%char]))).
Proof.
  split; [vm_compute; reflexivity|]. exact (baseName_last (lit "usr/lib//") ltac:(discriminate)).
Defined.

End FindMatch.
