(* ===== verification/BoundedReplace.v ===== *)
(** The size budget of replacements ([builtins/internal/boundedreplace]): a
    charge sequence is within the budget exactly when the strings it announces
    fit together, without building them and without overflow. *)

From S2P Require Import Prelude GoStd.
From stdpp Require Import base list strings.
From Stdlib Require Import ZArith Lia Ascii.

Module BoundedReplace.
Import GoStd.

Definition MaxCommandLineBytes : Z := Z.shiftl 1 20.

Record Budget := mkBudget { remaining : Z; exceeded : bool }.

Definition NewBudget (limit : Z) : Budget :=
  if (limit <? 0)%Z then mkBudget 0 true else mkBudget limit false.

Definition Exceeded (b : Budget) : bool := exceeded b.

(** Each operation returns the budget after it and whether the result fits. *)
Definition Add (n : Z) (b : Budget) : Budget * bool :=
  if exceeded b || (n <=? 0)%Z then (b, negb (exceeded b))
  else if (remaining b <? n)%Z then (mkBudget (remaining b) true, false)
  else (mkBudget (remaining b - n) (exceeded b), true).

Definition AddMul (count n : Z) (b : Budget) : Budget * bool :=
  if exceeded b || (count <=? 0)%Z || (n <=? 0)%Z then (b, negb (exceeded b))
  else if (Z.quot (remaining b) n <? count)%Z then (mkBudget (remaining b) true, false)
  else Add (count * n) b.

Definition len (s : bytes) : Z := Z.of_nat (length s).

Definition AddReplaceAll (s old new : bytes) (b : Budget) : Budget * bool :=
  if exceeded b then (b, false)
  else
    let count := Z.of_nat (Count s old) in
    if (len new <=? len old)%Z then Add (len s - count * (len old - len new)) b
    else
      let '(b, fits) := Add (len s) b in
      if fits : bool then AddMul count (len new - len old) b else (b, false).

(** ** The length of a replacement *)

Lemma countFuel_length fuel s old :
  old <> [] -> length s <= fuel -> countFuel fuel s old * length old <= length s.
Proof.
  intros Ho. revert s. induction fuel as [|fuel IH]; intros s Hs; cbn [countFuel]; [lia|].
  destruct s as [|c s]; [cbn; lia|]. cbn [length] in *.
  destruct (HasPrefix (c :: s) old) eqn:Hp.
  - apply HasPrefix_true in Hp as [t Et]. rewrite Et, drop_app_length.
    assert (1 <= length old) by (destruct old; cbn; [done|lia]).
    pose proof (f_equal length Et) as El. rewrite length_app in El. cbn [length] in El.
    specialize (IH t ltac:(lia)). lia.
  - specialize (IH s ltac:(lia)). lia.
Qed.

Lemma replaceFuel_length fuel s old new :
  old <> [] -> length s <= fuel ->
  length (replaceFuel fuel s old new) + countFuel fuel s old * length old =
  length s + countFuel fuel s old * length new.
Proof.
  intros Ho. revert s. induction fuel as [|fuel IH]; intros s Hs; [cbn; lia|].
  destruct s as [|c s]; [cbn; lia|]. cbn [length] in Hs. cbn [countFuel replaceFuel].
  destruct (HasPrefix (c :: s) old) eqn:Hp.
  - apply HasPrefix_true in Hp as [t Et]. rewrite Et, drop_app_length, !length_app.
    assert (1 <= length old) by (destruct old; cbn; [done|lia]).
    pose proof (f_equal length Et) as El. rewrite length_app in El. cbn [length] in El.
    specialize (IH t ltac:(lia)). lia.
  - specialize (IH s ltac:(lia)). cbn [length]. lia.
Qed.

Lemma ReplaceAll_length s old new :
  old <> [] ->
  (len (ReplaceAll s old new) = len s + Z.of_nat (Count s old) * (len new - len old))%Z /\
  (0 <= len s - Z.of_nat (Count s old) * len old)%Z.
Proof.
  intros Ho. unfold len, ReplaceAll, Count. destruct old as [|o old]; [done|].
  pose proof (replaceFuel_length (length s) s (o :: old) new Ho ltac:(lia)).
  pose proof (countFuel_length (length s) s (o :: old) Ho ltac:(lia)). nia.
Qed.

(** ** Exactness of the budget *)

(** [b] has been charged [total] of a limit. *)
Definition charged (limit total : Z) (b : Budget) : Prop :=
  exceeded b = (limit <? total)%Z /\ (total <= limit -> remaining b = limit - total)%Z.

Lemma Add_charged limit total n b :
  (0 <= n)%Z -> charged limit total b -> charged limit (total + n) (fst (Add n b)) /\ snd (Add n b) = negb (exceeded (fst (Add n b))).
Proof.
  intros Hn [He Hr]. unfold Add, charged. destruct (Z.ltb_spec limit total).
  - rewrite He. cbn. rewrite He. split; [|done]. split; [symmetry; apply Z.ltb_lt; lia|lia].
  - specialize (Hr ltac:(lia)). rewrite He. cbn [orb]. destruct (Z.leb_spec n 0).
    + cbn. rewrite He. split; [|done]. split; [symmetry; apply Z.ltb_ge; lia|lia].
    + rewrite Hr. destruct (Z.ltb_spec (limit - total) n); cbn.
      * split; [|done]. split; [symmetry; apply Z.ltb_lt; lia|lia].
      * split; [|done]. split; [symmetry; apply Z.ltb_ge; lia|lia].
Qed.

Lemma AddMul_charged limit total count n b :
  (0 <= count)%Z -> (0 < n)%Z -> (0 <= total)%Z -> charged limit total b -> charged limit (total + count * n) (fst (AddMul count n b)).
Proof.
  intros Hc Hn Ht Hb. unfold AddMul. destruct (exceeded b) eqn:Ee; cbn [orb].
  { destruct Hb as [He Hr]. rewrite Ee in He. symmetry in He. apply Z.ltb_lt in He. split; cbn.
    - rewrite Ee. symmetry. apply Z.ltb_lt. nia.
    - nia. }
  destruct (Z.leb_spec count 0).
  { cbn. by replace (total + count * n)%Z with total by nia. }
  rewrite (proj2 (Z.leb_gt n 0)) by lia. cbn [orb]. pose proof Hb as [He Hr]. rewrite Ee in He.
  symmetry in He. apply Z.ltb_ge in He. specialize (Hr He). rewrite Hr, Z.quot_div_nonneg by lia.
  destruct (Z.ltb_spec ((limit - total) / n) count) as [Hlt|Hge].
  - assert (limit - total < count * n)%Z.
    { pose proof (Z.div_mod (limit - total) n ltac:(lia)). pose proof (Z.mod_pos_bound (limit - total) n Hn). nia. }
    split; cbn; [symmetry; apply Z.ltb_lt; lia|lia].
  - by apply (Add_charged _ _ (count * n)); [nia|].
Qed.

Lemma AddReplaceAll_charged limit total s old new b :
  old <> [] -> (0 <= total)%Z -> charged limit total b ->
  charged limit (total + len (ReplaceAll s old new)) (fst (AddReplaceAll s old new b)).
Proof.
  intros Ho Ht Hb. destruct (ReplaceAll_length s old new Ho) as [El Hl]. unfold AddReplaceAll.
  assert (0 <= len (ReplaceAll s old new))%Z as Hpos by (unfold len; lia).
  destruct (exceeded b) eqn:Ee.
  { destruct Hb as [He Hr]. rewrite Ee in He. symmetry in He. apply Z.ltb_lt in He. split; cbn.
    - rewrite Ee. symmetry. apply Z.ltb_lt. lia.
    - lia. }
  cbv zeta. destruct (Z.leb_spec (len new) (len old)).
  - replace (len s - Z.of_nat (Count s old) * (len old - len new))%Z with (len (ReplaceAll s old new)) by lia.
    by apply Add_charged.
  - assert (0 <= len s)%Z as Hs by (unfold len; lia).
    destruct (Add_charged limit total (len s) b Hs Hb) as [Hc Hf].
    destruct (Add (len s) b) as [b' fits]. cbn [fst snd] in *. rewrite El.
    replace (total + (len s + Z.of_nat (Count s old) * (len new - len old)))%Z
      with (total + len s + Z.of_nat (Count s old) * (len new - len old))%Z by lia.
    destruct fits.
    + apply AddMul_charged; [lia..|done].
    + destruct (exceeded b') eqn:Eb; [|done]. destruct Hc as [He Hr]. rewrite Eb in He. symmetry in He. apply Z.ltb_lt in He.
      split; cbn; [rewrite Eb; symmetry; apply Z.ltb_lt; nia|nia].
Qed.

Lemma NewBudget_charged limit : (0 <= limit)%Z -> charged limit 0 (NewBudget limit).
Proof.
  intros Hl. unfold NewBudget, charged. rewrite (proj2 (Z.ltb_ge limit 0)) by done. cbn.
  split; [done|lia].
Qed.

(** The charges of a builtin that assembles a command line: for each template
    the length of its expansion, plus one separator. *)
Fixpoint chargeTemplates (templates : list bytes) (marker value : bytes) (b : Budget) : Budget :=
  match templates with
  | [] => b
  | t :: ts => chargeTemplates ts marker value (fst (Add 1 (fst (AddReplaceAll t marker value b))))
  end.

Definition lineLength (l : list bytes) : Z := fold_right (fun s n => len s + 1 + n)%Z 0%Z l.

Lemma lineLength_nonneg l : (0 <= lineLength l)%Z.
Proof. unfold lineLength. induction l as [|s l IH]; cbn [fold_right]; unfold len in *; lia. Qed.

Lemma chargeTemplates_charged limit total templates marker value b :
  marker <> [] -> (0 <= total)%Z -> charged limit total b ->
  charged limit (total + lineLength (map (fun t => ReplaceAll t marker value) templates))
    (chargeTemplates templates marker value b).
Proof.
  intros Hm. revert total b. induction templates as [|t ts IH]; intros total b Ht Hb; cbn [chargeTemplates map lineLength fold_right].
  { by rewrite Z.add_0_r. }
  pose proof (AddReplaceAll_charged limit total t marker value b Hm Ht Hb) as H1.
  destruct (Add_charged _ _ 1 _ ltac:(lia) H1) as [H2 _].
  assert (0 <= len (ReplaceAll t marker value))%Z by (unfold len; lia).
  specialize (IH (total + len (ReplaceAll t marker value) + 1)%Z _ ltac:(lia) H2).
  fold (lineLength (map (fun t => ReplaceAll t marker value) ts)). by rewrite !Z.add_assoc.
Qed.

(** The budget decides, before any replacement is built, whether the expanded
    templates fit the limit together with one separator each. *)
Theorem budget_exact limit templates marker value :
  (0 <= limit)%Z -> marker <> [] ->
  Exceeded (chargeTemplates templates marker value (NewBudget limit)) =
  (limit <? lineLength (map (fun t => ReplaceAll t marker value) templates))%Z.
Proof.
  intros Hl Hm. pose proof (chargeTemplates_charged limit 0 templates marker value _ Hm (Z.le_refl 0) (NewBudget_charged limit Hl)) as [H _].
  exact H.
Qed.

(** Two templates that triple and shrink: 12 bytes with separators. *)
Lemma budget_exact_witness :
  Exceeded (chargeTemplates (map lit ["{}{}"; "x"]%string) (lit "{}") (lit "abcd") (NewBudget 11)) = false /\
  Exceeded (chargeTemplates (map lit ["{}{}"; "x"]%string) (lit "{}") (lit "abcd") (NewBudget 10)) = true.
Proof.
  split.
  - rewrite budget_exact; [vm_compute; reflexivity|lia|discriminate].
  - rewrite budget_exact; [vm_compute; reflexivity|lia|discriminate].
Defined.

End BoundedReplace.
