(* ===== verification/FindEval.v ===== *)
(** Evaluation of find expressions ([builtins/find/eval.go]).  The outside world
    is the record of callbacks of the builtin's call context; each answer may
    depend on everything that happened before, which is the list of events. *)

From S2P Require Import Prelude GoStd FindExpr FindTree FindMatch BoundedReplace.
From stdpp Require Import base list strings gmap.
From Stdlib Require Import ZArith Lia Ascii SpecFloat.

Module FindEval.
Import GoStd FindExpr FindMatch BoundedReplace.

(** ** The world *)

Record fileInfo := mkInfo { Mode : Z; Size : Z; ModTime : Z (* nanoseconds *) }.

(** An error: whether [isNotExist] recognises it, and its text. *)
Record gerror := mkErr { isNotExist : bool; err_text : bytes }.

Inductive message :=
| MPathError (path : bytes) (e : gerror)
| MEmptyOperand
| MExecUnavailable (name : bytes)
| MTooLong (name : bytes)
| MNotAllowed (cmd : bytes)
| MRunError (cmd : bytes) (e : gerror)
| MLoop (path : bytes) (first : option bytes)
| MClamped (maxDepth : Z)
| MUnsupported (opt : bytes)
| MUsage (e : parseErr).

Inductive event :=
| EvOut (s : bytes)
| EvErrf (m : message)
| EvHelp
| EvStat (follow : bool) (path : bytes)
| EvIsDirEmpty (path : bytes)
| EvRun (dir cmd : bytes) (args : list bytes)
| EvOpenDir (path : bytes) (handle : option nat)
| EvReadDir (handle : nat)
| EvCloseDir (handle : nat).

Abbreviation history := (list event).   (* newest first *)

(** One answer of [dir.ReadDir(1)]: [io.EOF], an error, no entry, an entry. *)
Inductive readResult := REof | RErr (e : gerror) | RNone | REntry (name : bytes).

Record callContext := mkCall {
  LstatFile : history -> bytes -> gerror + fileInfo;
  StatFile : history -> bytes -> gerror + fileInfo;
  IsDirEmpty : history -> bytes -> gerror + bool;
  RunCommand : option (history -> bytes -> bytes -> list bytes -> gerror + Z);
  CommandAllowed : option (bytes -> bool);
  FileIdentity : option (bytes -> fileInfo -> option (Z * Z));
  OpenDir : history -> bytes -> gerror + nat;
  ReadDir : history -> nat -> readResult;
  WorkDir : option bytes;
  Now : Z;
  ctxErr : nat -> nat -> bool;   (* [ctx.Err() != nil], by phase and poll *)
  ToLower : bytes -> bytes }.

(** What evaluation reads of one entry; [relPath] and [printPath] are both the
    entry's path. *)
Record evalContext := mkEc {
  now : Z; path : bytes; info : fileInfo; followLinks : bool;
  execDirParent : bytes; execWorkDir : bytes }.

(** The state threaded through a walk. *)
Record est := mkEst {
  hist : history; newerCache : gmap bytes Z; newerErrors : gset bytes; failed : bool; phase : nat }.

Definition emit (ev : event) (s : est) : est :=
  mkEst (ev :: hist s) (newerCache s) (newerErrors s) (failed s) (phase s).
Definition fail (s : est) : est := mkEst (hist s) (newerCache s) (newerErrors s) true (phase s).
Definition next_phase (s : est) : est :=
  mkEst (hist s) (newerCache s) (newerErrors s) (failed s) (S (phase s)).
Definition add_cache (p : bytes) (t : Z) (s : est) : est :=
  mkEst (hist s) (<[p := t]> (newerCache s)) (newerErrors s) (failed s) (phase s).
Definition add_error (p : bytes) (s : est) : est :=
  mkEst (hist s) (newerCache s) ({[p]} ∪ newerErrors s) (failed s) (phase s).

Record evalResult := mkRes { matched : bool; prune : bool; quit : bool }.

Definition result (b : bool) : evalResult := mkRes b false false.

Section Eval.
Context (call : callContext).

(** [ctx.Err() != nil], one poll. *)
Definition ctxDone (s : est) : bool * est := (ctxErr call (phase s) 0, next_phase s).

Definition stat (follow : bool) (p : bytes) (s : est) : (gerror + fileInfo) * est :=
  ((if follow then StatFile call (hist s) p else LstatFile call (hist s) p), emit (EvStat follow p) s).

(** ** Times *)

Definition Second : Z := 1000000000.
Definition Minute : Z := 60 * Second.
Definition Hour : Z := 60 * Minute.
Definition Day : Z := 24 * Hour.

(** [Time.Sub] saturates. *)
Definition Sub (t u : Z) : Z := Z.max (- 2 ^ 63) (Z.min (t - u) maxInt64).
Definition TruncateSecond (t : Z) : Z := (t / Second * Second)%Z.

Definition maxMtimeN : Z := maxInt64 / Day - 1.
Definition maxMminN : Z := maxInt64 / Minute.

(** IEEE 754 binary64. *)
Definition float64 (z : Z) : spec_float := binary_normalize 53 1024 z 0 false.
Definition fadd : spec_float -> spec_float -> spec_float := SFadd 53 1024.
Definition fdiv : spec_float -> spec_float -> spec_float := SFdiv 53 1024.

(** [math.Floor] and [math.Ceil] of a finite value, as integers. *)
Definition Floor (f : spec_float) : Z :=
  match f with
  | S754_finite s m e =>
      let z := if s then Z.neg m else Z.pos m in
      if (0 <=? e)%Z then (z * 2 ^ e)%Z else (z / 2 ^ (- e))%Z
  | _ => 0%Z
  end.
Definition Ceil (f : spec_float) : Z :=
  match f with
  | S754_finite s m e =>
      let z := if s then Z.neg m else Z.pos m in
      if (0 <=? e)%Z then (z * 2 ^ e)%Z else (- ((- z) / 2 ^ (- e)))%Z
  | _ => 0%Z
  end.

(** [Duration.Hours] and [Duration.Minutes]; Go's [/] and [%] truncate. *)
Definition Hours (d : Z) : spec_float :=
  fadd (float64 (Z.quot d Hour)) (fdiv (float64 (Z.rem d Hour)) (float64 Hour)).
Definition Minutes (d : Z) : spec_float :=
  fadd (float64 (Z.quot d Minute)) (fdiv (float64 (Z.rem d Minute)) (float64 Minute)).

Definition evalMtime (ec : evalContext) (n : Z) (cmp : cmpOp) : bool :=
  let modTime := ModTime (info ec) in
  match cmp with
  | cmpMore =>
      if (maxMtimeN <? n)%Z then false
      else
        let diff := Sub (TruncateSecond (now ec)) modTime in
        (int64 (int64 (int64 (n + 1) * 24) * Hour) <=? diff)%Z
  | cmpLess =>
      if (maxMtimeN <? n)%Z then true
      else
        let diff := Sub (TruncateSecond (now ec)) modTime in
        (diff <? int64 (int64 (n * 24) * Hour))%Z
  | cmpExact =>
      let diff := Sub (now ec) modTime in
      (int64 (Floor (fdiv (Hours diff) (float64 24))) =? n)%Z
  end.

Definition evalMmin (ec : evalContext) (n : Z) (cmp : cmpOp) : bool :=
  let diff := Sub (now ec) (ModTime (info ec)) in
  match cmp with
  | cmpMore => if (maxMminN <? n)%Z then false else (int64 (n * Minute) <? diff)%Z
  | cmpLess => if (maxMminN <? n)%Z then true else (diff <? int64 (n * Minute))%Z
  | cmpExact => (int64 (Ceil (Minutes diff)) =? n)%Z
  end.

(** ** Predicates with effects *)

(** A glob match, and the poll of [globResult] after it. *)
Definition globResult (b : bool) (s : est) : evalResult * est :=
  let '(done, s) := ctxDone s in
  if done then (mkRes false false true, fail s) else (result b, s).

(** The matcher polls the context in a phase of its own; it always answers. *)
Definition runGlob (m : (nat -> bool) -> option bool) (s : est) : evalResult * est :=
  globResult (match m (ctxErr call (phase s)) with Some b => b | None => false end) (next_phase s).

Definition evalEmpty (ec : evalContext) (s : est) : bool * est :=
  if IsDir (Mode (info ec)) then
    let a := IsDirEmpty call (hist s) (path ec) in
    let s := emit (EvIsDirEmpty (path ec)) s in
    match a with
    | inl e => (false, fail (emit (EvErrf (MPathError (path ec) e)) s))
    | inr empty => (empty, s)
    end
  else if IsRegular (Mode (info ec)) then ((Size (info ec) =? 0)%Z, s)
  else (false, s).

Definition evalNewer (ec : evalContext) (refPath : bytes) (s : est) : bool * est :=
  if bool_decide (refPath ∈ newerErrors s) then (false, s)
  else
    match newerCache s !! refPath with
    | Some refTime => ((refTime <? ModTime (info ec))%Z, s)
    | None =>
        let '(a, s) := stat (followLinks ec) refPath s in
        let '(a, s) :=
          match a with
          | inl e => if followLinks ec && isNotExist e then stat false refPath s else (a, s)
          | inr _ => (a, s)
          end in
        match a with
        | inl e => (false, add_error refPath (emit (EvErrf (MPathError refPath e)) s))
        | inr i => ((ModTime i <? ModTime (info ec))%Z, add_cache refPath (ModTime i) s)
        end
    end.

Definition marker : bytes := lit "{}".

Definition evalExecLike (e : bytes * list bytes) (name replacement dir : bytes) (s : est) : evalResult * est :=
  let '(execCmd, execArgs) := e in
  match RunCommand call with
  | None => (result false, fail (emit (EvErrf (MExecUnavailable name)) s))
  | Some run =>
      let b := chargeTemplates (execCmd :: execArgs) marker replacement (NewBudget MaxCommandLineBytes) in
      if Exceeded b then (result false, fail (emit (EvErrf (MTooLong name)) s))
      else
        let cmd := ReplaceAll execCmd marker replacement in
        if match CommandAllowed call with Some allowed => negb (allowed cmd) | None => false end
        then (result false, fail (emit (EvErrf (MNotAllowed cmd)) s))
        else
          let args := map (fun a => ReplaceAll a marker replacement) execArgs in
          let a := run (hist s) dir cmd args in
          let s := emit (EvRun dir cmd args) s in
          match a with
          | inl e => (result false, fail (emit (EvErrf (MRunError cmd e)) s))
          | inr exitCode => (result (exitCode =? 0)%Z, s)
          end
  end.

(** The replacement of [-execdir]. *)
Definition execDirReplacement (relPath : bytes) : bytes :=
  let base := baseName relPath in
  if base =s "/" then lit "/"
  else if HasSuffix relPath (lit "/") then lit "./" ++ base ++ lit "/"
  else lit "./" ++ base.

Definition evalExecDir (ec : evalContext) (e : bytes * list bytes) : est -> evalResult * est :=
  evalExecLike e (lit "-execdir") (execDirReplacement (path ec)) (execDirParent ec).

Definition evalExec (ec : evalContext) (e : bytes * list bytes) : est -> evalResult * est :=
  evalExecLike e (lit "-exec") (path ec) (execWorkDir ec).

(** A leaf: [evalResult{matched: b}] with the state after it. *)
Definition leaf (r : bool * est) : evalResult * est := (result (fst r), snd r).

Definition evalStr (ec : evalContext) (k : exprKind) (v : bytes) (s : est) : evalResult * est :=
  match k with
  | exprName => runGlob (fun c => matchGlob c v (baseName (path ec))) s
  | exprIName => runGlob (fun c => matchGlobFold c (ToLower call) v (baseName (path ec))) s
  | exprPath => runGlob (fun c => matchPathGlob c v (path ec)) s
  | exprIPath => runGlob (fun c => matchPathGlobFold c (ToLower call) v (path ec)) s
  | exprType => (result (matchType (Mode (info ec)) v), s)
  | exprNewer => leaf (evalNewer ec v s)
  | _ => (result false, s)
  end.

Definition evalLeaf (ec : evalContext) (k : exprKind) (s : est) : evalResult * est :=
  match k with
  | exprEmpty => leaf (evalEmpty ec s)
  | exprQuit => (mkRes true false true, s)
  | exprPrint => (result true, emit (EvOut (path ec ++ [ch_nl])) s)
  | exprPrint0 => (result true, emit (EvOut (path ec ++ ["000"%char])) s)
  | exprPrune => (mkRes true true false, s)
  | exprTrue => (result true, s)
  | _ => (result false, s)
  end.

Fixpoint evaluate (ec : evalContext) (e : expr) (s : est) : evalResult * est :=
  match e with
  | EAnd l r =>
      let '(lr, s) := evaluate ec l s in
      if quit lr then (lr, s)
      else if negb (matched lr) then (mkRes false (prune lr) false, s)
      else
        let '(rr, s) := evaluate ec r s in
        (mkRes (matched rr) (prune lr || prune rr) (quit rr), s)
  | EOr l r =>
      let '(lr, s) := evaluate ec l s in
      if quit lr then (lr, s)
      else if matched lr then (mkRes true (prune lr) false, s)
      else
        let '(rr, s) := evaluate ec r s in
        (mkRes (matched rr) (prune lr || prune rr) (quit rr), s)
  | ENot e =>
      let '(r, s) := evaluate ec e s in (mkRes (negb (matched r)) (prune r) (quit r), s)
  | EStr k v => evalStr ec k v s
  | ESize su => (result (compareSize (Size (info ec)) su), s)
  | ENum exprMtime n c => (result (evalMtime ec n c), s)
  | ENum exprMmin n c => (result (evalMmin ec n c), s)
  | ENum _ _ _ => (result false, s)
  | EPerm m c => (result (matchPerm (Mode (info ec)) m c), s)
  | EExec exprExecDir cmd args => evalExecDir ec (cmd, args) s
  | EExec exprExec cmd args => evalExec ec (cmd, args) s
  | EExec _ _ _ => (result false, s)
  | ELeaf k => evalLeaf ec k s
  end.

(** A missing expression matches everything. *)
Definition evaluateOpt (ec : evalContext) (e : option expr) (s : est) : evalResult * est :=
  match e with Some e => evaluate ec e s | None => (result true, s) end.

End Eval.

(** ** Commands are guarded *)

Section Safety.
Context (call : callContext).

(** The commands a tree may run, as its templates. *)
Fixpoint templates (e : expr) : list (exprKind * bytes * list bytes) :=
  match e with
  | EExec k cmd args => [(k, cmd, args)]
  | EAnd l r | EOr l r => templates l ++ templates r
  | ENot e => templates e
  | _ => []
  end.

(** A command that evaluating [e] for an entry may run: the command runner is
    there, the name passed the allow list, the whole line is within the limit,
    and line and directory come from a template of [e] for this entry. *)
Definition guarded_run (ec : evalContext) (e : expr) (dir cmd : bytes) (args : list bytes) : Prop :=
  RunCommand call <> None /\
  (forall allowed, CommandAllowed call = Some allowed -> allowed cmd = true) /\
  (lineLength (cmd :: args) <= MaxCommandLineBytes)%Z /\
  exists k c xs, (k, c, xs) ∈ templates e /\
    (k = exprExec /\ dir = execWorkDir ec /\
       cmd :: args = map (fun t => ReplaceAll t marker (path ec)) (c :: xs) \/
     k = exprExecDir /\ dir = execDirParent ec /\
       cmd :: args = map (fun t => ReplaceAll t marker (execDirReplacement (path ec))) (c :: xs)).

Definition ok_event (ec : evalContext) (e : expr) (ev : event) : Prop :=
  match ev with
  | EvRun dir cmd args => guarded_run ec e dir cmd args
  | EvOut _ | EvErrf _ | EvStat _ _ | EvIsDirEmpty _ => True
  | EvHelp | EvOpenDir _ _ | EvReadDir _ | EvCloseDir _ => False
  end.

(** [s'] continues [s] with events that satisfy [P]. *)
Definition continues (P : event -> Prop) (s s' : est) : Prop :=
  exists l, hist s' = l ++ hist s /\ Forall P l.

Lemma continues_refl P s s' : hist s' = hist s -> continues P s s'.
Proof. intros E. exists []. by split. Qed.

Lemma continues_trans P s1 s2 s3 : continues P s1 s2 -> continues P s2 s3 -> continues P s1 s3.
Proof.
  intros (l1 & E1 & H1) (l2 & E2 & H2). exists (l2 ++ l1). rewrite E2, E1, app_assoc. split; [done|].
  by apply Forall_app.
Qed.

Lemma continues_emit (P : event -> Prop) s s' ev : P ev -> continues P s s' -> continues P s (emit ev s').
Proof.
  intros HP (l & E & H). exists (ev :: l). cbn. rewrite E. split; [done|by constructor].
Qed.

Lemma continues_hist P s s1 s2 : continues P s s1 -> hist s2 = hist s1 -> continues P s s2.
Proof. intros (l & E & H) E2. exists l. by rewrite E2. Qed.

Lemma continues_weaken (P Q : event -> Prop) s s' : (forall ev, P ev -> Q ev) -> continues P s s' -> continues Q s s'.
Proof. intros HPQ (l & E & H). exists l. split; [done|]. by eapply Forall_impl. Qed.

Lemma ok_event_mono ec e e' ev : (forall x, x ∈ templates e -> x ∈ templates e') -> ok_event ec e ev -> ok_event ec e' ev.
Proof.
  intros H. destruct ev; try done. intros (H1 & H2 & H3 & k & c & xs & Hin & Hk). split_and!; try done.
  exists k, c, xs. auto.
Qed.

Ltac quiet := repeat first [apply continues_emit; [exact I|] | by apply continues_refl].

Lemma runGlob_quiet ec e m s : continues (ok_event ec e) s (snd (runGlob call m s)).
Proof. unfold runGlob, globResult, ctxDone. cbn. case_match; cbn; quiet. Qed.

Lemma evalEmpty_quiet ec e s : continues (ok_event ec e) s (snd (evalEmpty call ec s)).
Proof.
  unfold evalEmpty. repeat case_match; cbn; try (by apply continues_refl).
  - eapply continues_hist; [|reflexivity]. quiet.
  - quiet.
Qed.

Lemma evalNewer_quiet ec e v s : continues (ok_event ec e) s (snd (evalNewer call ec v s)).
Proof.
  unfold evalNewer, stat. cbv zeta. repeat case_match; simplify_eq; cbn;
    (eapply continues_hist; [|reflexivity]); quiet.
Qed.

Lemma evalExecLike_guarded ec k c xs name replacement dir s :
  (k = exprExec /\ dir = execWorkDir ec /\ replacement = path ec \/
   k = exprExecDir /\ dir = execDirParent ec /\ replacement = execDirReplacement (path ec)) ->
  continues (ok_event ec (EExec k c xs)) s (snd (evalExecLike call (c, xs) name replacement dir s)).
Proof.
  intros Hk. unfold evalExecLike. destruct (RunCommand call) as [run|] eqn:Hrun.
  2:{ cbn. eapply continues_hist; [|reflexivity]. quiet. }
  pose proof (chargeTemplates_charged MaxCommandLineBytes 0 (c :: xs) marker replacement _ ltac:(done)
    (Z.le_refl 0) (NewBudget_charged MaxCommandLineBytes ltac:(vm_compute; discriminate))) as [Hb _].
  cbv zeta. unfold Exceeded. rewrite Hb. destruct (Z.ltb_spec MaxCommandLineBytes (0 + lineLength (map (fun t => ReplaceAll t marker replacement) (c :: xs)))) as [|Hle].
  { cbn. eapply continues_hist; [|reflexivity]. quiet. }
  destruct (match CommandAllowed call with Some _ => _ | None => _ end) eqn:Ha.
  { cbn. eapply continues_hist; [|reflexivity]. quiet. }
  assert (ok_event ec (EExec k c xs)
    (EvRun dir (ReplaceAll c marker replacement) (map (fun a => ReplaceAll a marker replacement) xs))) as Hok.
  { split; [by rewrite Hrun|]. split; [|split; [exact Hle|]].
    - intros allowed E. rewrite E in Ha. by apply negb_false_iff in Ha.
    - exists k, c, xs. split; [cbn; by left|]. destruct Hk as [(-> & -> & ->)|(-> & -> & ->)]; [by left|by right]. }
  destruct (run _ _ _ _); cbn.
  - eapply continues_hist; [|reflexivity]. apply continues_emit; [exact I|]. apply continues_emit; [exact Hok|by apply continues_refl].
  - apply continues_emit; [exact Hok|by apply continues_refl].
Qed.

Lemma evaluate_continues ec e s : continues (ok_event ec e) s (snd (evaluate call ec e s)).
Proof.
  revert s. induction e as [k v|su|k n c|m c|k cmd xs|k|l IHl r IHr|l IHl r IHr|e IH]; intros s; cbn [evaluate].
  - unfold evalStr. destruct k; try (by apply continues_refl); try apply runGlob_quiet.
    apply (evalNewer_quiet ec (EStr exprNewer v)).
  - by apply continues_refl.
  - destruct k; by apply continues_refl.
  - by apply continues_refl.
  - destruct k; try (by apply continues_refl); apply evalExecLike_guarded; auto.
  - unfold evalLeaf. destruct k; cbn [snd]; try (by apply continues_refl); quiet.
    apply (evalEmpty_quiet ec (ELeaf exprEmpty)).
  - specialize (IHl s). destruct (evaluate call ec l s) as [lr s1]. cbn [snd] in IHl.
    eapply continues_weaken in IHl; [|intros ev; apply (ok_event_mono ec l (EAnd l r)); set_solver].
    destruct (quit lr); [done|]. destruct (negb (matched lr)); [done|].
    specialize (IHr s1). destruct (evaluate call ec r s1) as [rr s2]. eapply continues_trans; [exact IHl|].
    eapply continues_weaken; [|exact IHr]. intros ev. apply ok_event_mono. set_solver.
  - specialize (IHl s). destruct (evaluate call ec l s) as [lr s1]. cbn [snd] in IHl.
    eapply continues_weaken in IHl; [|intros ev; apply (ok_event_mono ec l (EOr l r)); set_solver].
    destruct (quit lr); [done|]. destruct (matched lr); [done|].
    specialize (IHr s1). destruct (evaluate call ec r s1) as [rr s2]. eapply continues_trans; [exact IHl|].
    eapply continues_weaken; [|exact IHr]. intros ev. apply ok_event_mono. set_solver.
  - specialize (IH s). by destruct (evaluate call ec e s) as [r s1].
Qed.

End Safety.

(** Evaluating an expression runs only guarded commands, whatever the world
    answers: each passed the allow list after its markers were replaced, its
    expanded line is within [MaxCommandLineBytes], it runs in the entry's or
    find's directory and instantiates a template of the expression; evaluation
    opens and reads no directory. *)
Theorem find_exec_guarded call ec e s :
  exists l, hist (snd (evaluate call ec e s)) = l ++ hist s /\ Forall (ok_event call ec e) l.
Proof. apply evaluate_continues. Qed.

(** ** Short-circuit evaluation computes the boolean meaning *)

Section Meaning.
Context (call : callContext).

Definition uncancelled (m : (nat -> bool) -> option bool) : bool :=
  match m (fun _ => false) with Some b => b | None => false end.

(** The tests that neither print, run, stop nor report. *)
Fixpoint test_only (e : expr) : Prop :=
  match e with
  | EStr k _ => k ∈ [exprName; exprIName; exprPath; exprIPath; exprType]
  | ESize _ | EPerm _ _ | ENum _ _ _ => True
  | ELeaf k => k ∈ [exprTrue; exprFalse]
  | EExec _ _ _ => False
  | EAnd l r | EOr l r => test_only l /\ test_only r
  | ENot e => test_only e
  end.

Definition strMeaning (ec : evalContext) (k : exprKind) (v : bytes) : bool :=
  match k with
  | exprName => uncancelled (fun c => matchGlob c v (baseName (path ec)))
  | exprIName => uncancelled (fun c => matchGlobFold c (ToLower call) v (baseName (path ec)))
  | exprPath => uncancelled (fun c => matchPathGlob c v (path ec))
  | exprIPath => uncancelled (fun c => matchPathGlobFold c (ToLower call) v (path ec))
  | _ => matchType (Mode (info ec)) v
  end.

Fixpoint meaning (ec : evalContext) (e : expr) : bool :=
  match e with
  | EStr k v => strMeaning ec k v
  | ESize su => compareSize (Size (info ec)) su
  | ENum exprMtime n c => evalMtime ec n c
  | ENum exprMmin n c => evalMmin ec n c
  | EPerm m c => matchPerm (Mode (info ec)) m c
  | ELeaf exprTrue => true
  | EAnd l r => meaning ec l && meaning ec r
  | EOr l r => meaning ec l || meaning ec r
  | ENot e => negb (meaning ec e)
  | _ => false
  end.

(** Two states that differ in the number of polls only. *)
Definition same_but_phase (s s' : est) : Prop :=
  hist s' = hist s /\ newerCache s' = newerCache s /\ newerErrors s' = newerErrors s /\ failed s' = failed s.

Lemma same_but_phase_trans s1 s2 s3 : same_but_phase s1 s2 -> same_but_phase s2 s3 -> same_but_phase s1 s3.
Proof. unfold same_but_phase. intros (?&?&?&?) (?&?&?&?). split_and!; congruence. Qed.

Hypothesis live : forall k n, ctxErr call k n = false.

(** A matcher reads its oracle only where it polls it. *)
Definition polls_only (m : (nat -> bool) -> option bool) : Prop :=
  forall c, (forall n, c n = false) -> m c = m (fun _ => false).

Lemma classLoop_polls_only c fuel s ch negate i m first steps polls :
  (forall n, c n = false) ->
  classLoop c fuel s ch negate i m first steps polls = classLoop (fun _ => false) fuel s ch negate i m first steps polls.
Proof.
  intros Hc. revert i m first steps polls. induction fuel as [|fuel IH]; intros; cbn [classLoop]; [done|].
  unfold cancelled. rewrite Hc. repeat case_match; simplify_eq; try done; apply IH.
Qed.

Lemma matchClass_polls_only c s ch polls :
  (forall n, c n = false) -> matchClass c s ch polls = matchClass (fun _ => false) s ch polls.
Proof.
  intros Hc. unfold matchClass. destruct (_ || _); [done|]. cbv zeta. by apply classLoop_polls_only.
Qed.

Lemma globStep_polls_only c pattern name s :
  (forall n, c n = false) -> globStep c pattern name s = globStep (fun _ => false) pattern name s.
Proof.
  intros Hc. unfold globStep.
  assert (classStep c pattern name s = classStep (fun _ => false) pattern name s) as ->; [|done].
  unfold classStep. destruct (DecodeRune _) as [r w]. by rewrite matchClass_polls_only.
Qed.

Lemma glob_polls_only pattern name : polls_only (fun c => pathGlobMatch c pattern name).
Proof.
  intros c Hc. unfold pathGlobMatch. generalize initG. induction (globFuel pattern name) as [|fuel IH]; intros s; [done|].
  cbn [globLoop]. unfold cancelled. rewrite Hc. destruct (_ || _); [|done].
  destruct (_ =? 0)%Z; (rewrite globStep_polls_only by done; destruct (globStep _ _ _ _); [done|]; apply IH).
Qed.

Lemma runGlob_live m s :
  polls_only m -> exists s', runGlob call m s = (result (uncancelled m), s') /\ same_but_phase s s'.
Proof.
  intros Hm. unfold runGlob, globResult, ctxDone, uncancelled. rewrite live, (Hm (ctxErr call (phase s))) by done.
  eexists. split; [done|]. by unfold same_but_phase.
Qed.

(** On a live context an expression of tests evaluates to its boolean meaning,
    with no pruning, no stop and no effect: skipping the right operand of a
    conjunction or disjunction changes nothing. *)
Theorem find_tests_boolean ec e s :
  test_only e ->
  exists s', evaluate call ec e s = (result (meaning ec e), s') /\ same_but_phase s s'.
Proof.
  revert s. induction e as [k v|su|k n c|m c|k cmd xs|k|l IHl r IHr|l IHl r IHr|e IH]; intros s Ht;
    cbn [evaluate meaning test_only] in *; try done.
  - rewrite !elem_of_cons, elem_of_nil in Ht. unfold evalStr, strMeaning.
    destruct_or?; subst; try done; try (apply runGlob_live, glob_polls_only).
    exists s. by unfold same_but_phase.
  - exists s. by unfold same_but_phase.
  - exists s. by destruct k.
  - exists s. by unfold same_but_phase.
  - exists s. rewrite !elem_of_cons, elem_of_nil in Ht. by destruct_or?; subst.
  - destruct Ht as [Hl Hr]. destruct (IHl s Hl) as (s1 & -> & H1). cbn [result quit matched prune].
    destruct (meaning ec l); cbn [negb andb]; [|by exists s1].
    destruct (IHr s1 Hr) as (s2 & -> & H2). exists s2. split; [done|]. by eapply same_but_phase_trans.
  - destruct Ht as [Hl Hr]. destruct (IHl s Hl) as (s1 & -> & H1). cbn [result quit matched prune].
    destruct (meaning ec l); cbn [orb]; [by exists s1|].
    destruct (IHr s1 Hr) as (s2 & -> & H2). exists s2. split; [done|]. by eapply same_but_phase_trans.
  - destruct (IH s Ht) as (s1 & -> & H1). by exists s1.
Qed.

End Meaning.

Definition demo_call : callContext :=
  mkCall (fun _ _ => inl (mkErr true [])) (fun _ _ => inl (mkErr true [])) (fun _ _ => inr true) None None None
    (fun _ _ => inl (mkErr true [])) (fun _ _ => REof) None 0 (fun _ _ => false) id.

Lemma find_tests_boolean_witness :
  let ec := mkEc 0 (lit "src/a.go") (mkInfo 420 700 0) false [] [] in
  let e := EAnd (EStr exprName (lit "*.go")) (ENot (ESize (mkSizeUnit 1 cmpExact "b"))) in
  let s := mkEst [] ∅ ∅ false 0 in
  meaning demo_call ec e = true /\
  exists s', evaluate demo_call ec e s = (result true, s') /\ same_but_phase s s'.
Proof.
  intros ec e s. assert (meaning demo_call ec e = true) as Hm by (vm_compute; reflexivity). split; [exact Hm|].
  pose proof (find_tests_boolean demo_call ltac:(reflexivity) ec e s) as H. rewrite Hm in H. apply H.
  split; [left|exact I].
Defined.

(** ** Times *)

Lemma Sub_range t u : (- 2 ^ 63 <= Sub t u <= maxInt64)%Z.
Proof. unfold Sub, maxInt64. lia. Qed.

(** For a non-negative number of minutes, [-mmin] compares the age in
    nanoseconds exactly, with no overflow even for numbers whose duration does not
    fit 64 bits. *)
Theorem mmin_exact ec n :
  (0 <= n <= maxInt64)%Z ->
  let age := Sub (now ec) (ModTime (info ec)) in
  evalMmin ec n cmpMore = (n * Minute <? age)%Z /\ evalMmin ec n cmpLess = (age <? n * Minute)%Z.
Proof.
  intros Hn age. pose proof (Sub_range (now ec) (ModTime (info ec))) as Hr. fold age in Hr.
  unfold evalMmin. fold age. change maxMminN with 153722867%Z. change Minute with 60000000000%Z.
  unfold maxInt64 in *. destruct (Z.ltb_spec 153722867 n).
  - split; symmetry; [apply Z.ltb_ge|apply Z.ltb_lt]; lia.
  - by rewrite int64_id by lia.
Qed.

Lemma mmin_exact_witness :
  let ec := mkEc 61000000000 [] (mkInfo 0 0 0) false [] [] in
  evalMmin ec 1 cmpMore = true /\ evalMmin ec maxInt64 cmpLess = true.
Proof.
  intros ec. destruct (mmin_exact ec 1) as [-> _]; [unfold maxInt64; lia|].
  destruct (mmin_exact ec maxInt64) as [_ ->]; [unfold maxInt64; lia|]. split; vm_compute; reflexivity.
Defined.

(** For a non-negative number of days other than 106751, [-mtime +n] and
    [-mtime -n] compare the age from the start of the current second exactly and do
    not overflow; 106751 days is the one number that fits 64 bits of nanoseconds
    and is treated as if it did not. *)
Theorem mtime_exact ec n :
  (0 <= n <= maxInt64)%Z ->
  let age := Sub (TruncateSecond (now ec)) (ModTime (info ec)) in
  evalMtime ec n cmpMore = ((n + 1) * Day <=? age)%Z /\
  (n <> 106751%Z -> evalMtime ec n cmpLess = (age <? n * Day)%Z) /\
  evalMtime ec 106751 cmpLess = true /\ (106751 * Day <= maxInt64)%Z.
Proof.
  intros Hn age. pose proof (Sub_range (TruncateSecond (now ec)) (ModTime (info ec))) as Hr. fold age in Hr.
  unfold evalMtime. fold age. change maxMtimeN with 106750%Z. change Hour with 3600000000000%Z. change Day with 86400000000000%Z.
  unfold maxInt64 in *. split_and!; [| |done|lia].
  - destruct (Z.ltb_spec 106750 n); [symmetry; apply Z.leb_gt; lia|].
    rewrite (int64_id (n + 1)), (int64_id ((n + 1) * 24)), int64_id by lia. f_equal. lia.
  - intros Hne. destruct (Z.ltb_spec 106750 n); [symmetry; apply Z.ltb_lt; lia|].
    rewrite (int64_id (n * 24)), int64_id by lia. f_equal. lia.
Qed.

Lemma mtime_exact_witness :
  let ec := mkEc (3 * Day) [] (mkInfo 0 0 0) false [] [] in
  evalMtime ec 2 cmpMore = true /\ evalMtime ec 3 cmpLess = false.
Proof.
  intros ec. destruct (mtime_exact ec 2) as [-> _]; [unfold maxInt64; lia|].
  destruct (mtime_exact ec 3) as (_ & H & _); [unfold maxInt64; lia|]. rewrite H by lia. split; vm_compute; reflexivity.
Defined.

(** A negative number of days is accepted and overflows: a file one day old is
    older than -199999 days, yet [-mtime +-200000] does not match it. *)
Theorem mtime_negative_overflows :
  numericArg (lit "+-200000") = Some (-200000, cmpMore)%Z /\
  let ec := mkEc Day [] (mkInfo 0 0 0) false [] [] in
  evalMtime ec (-200000) cmpMore = false /\ ((-200000 + 1) * Day <=? Sub (TruncateSecond (now ec)) 0)%Z = true.
Proof. vm_compute. done. Qed.

(** [-mtime N] rounds the age in floating point: a file one nanosecond short of
    171 days old is counted in day 171, not in day 170. *)
Theorem mtime_rounds_up :
  let ec := mkEc (171 * Day - 1) [] (mkInfo 0 0 0) false [] [] in
  evalMtime ec 171 cmpExact = true /\ (Sub (now ec) 0 / Day = 170)%Z.
Proof. vm_compute. done. Qed.

End FindEval.
