(* ===== verification/FindWalk.v ===== *)
(** The find builtin itself ([builtins/find/find.go]): options, paths, the
    checks before the walk, and the depth-first walk with its stack of open
    directories, loop detection and depth limits. *)

From S2P Require Import Prelude GoStd Filepath FindExpr FindTree FindMatch BoundedReplace FindEval.
From stdpp Require Import base list strings gmap.
From Stdlib Require Import ZArith Lia Ascii.

Module FindWalk.
Import GoStd Filepath FindExpr FindMatch FindEval.

Definition maxTraversalDepth : Z := 256.

Definition joinPath (dir name : bytes) : bytes :=
  match last dir with
  | None => name
  | Some c => if c =c "/" then dir ++ name else dir ++ lit "/" ++ name
  end.

(** The trimming loop of [execDirParentDir]: trailing slashes, except the root
    and a drive root of three bytes. *)
Fixpoint trimTrailing (fuel : nat) (p : bytes) : bytes :=
  match fuel with
  | 0 => p
  | S fuel =>
      if (1 <? length p) && HasSuffix p (lit "/") then
        if (length p =? 3) && isAt p 1 ":" then p
        else trimTrailing fuel (take (length p - 1) p)
      else p
  end.

Definition execDirParentDir (absPath : bytes) : bytes := Dir (trimTrailing (length absPath) absPath).

Definition isExpressionStart (arg : bytes) : bool :=
  (arg =s "!") || (arg =s "(") || (HasPrefix arg (lit "-") && (1 <? length arg)).

Fixpoint collectExecCmds (e : expr) : list bytes :=
  match e with
  | EExec _ cmd _ => [cmd]
  | EAnd l r | EOr l r => collectExecCmds l ++ collectExecCmds r
  | ENot e => collectExecCmds e
  | _ => []
  end.

Fixpoint collectNewerRefs (e : expr) : list bytes :=
  match e with
  | EStr exprNewer v => [v]
  | EAnd l r | EOr l r => collectNewerRefs l ++ collectNewerRefs r
  | ENot e => collectNewerRefs e
  | _ => []
  end.

(** ** The walk *)

Record walkOptions := mkOptions {
  expression : option expr; implicitPrint : bool; opt_follow : bool;
  opt_maxDepth : Z; opt_minDepth : Z; opt_now : Z; opt_workDir : bytes }.

Record dirIterator := mkIter {
  dir : nat; parentPath : bytes; itDepth : Z;
  ancestorIDs : gmap (Z * Z) bytes; ancestorPaths : gset bytes; done_ : bool }.

Definition set_done (it : dirIterator) : dirIterator :=
  mkIter (dir it) (parentPath it) (itDepth it) (ancestorIDs it) (ancestorPaths it) true.

(** The ancestors handed to the children; Go's nil maps are empty. *)
Abbreviation ancestors := (gmap (Z * Z) bytes * gset bytes)%type.

Section Walk.
Context (call : callContext) (opts : walkOptions).

(** The metadata of an entry: with [-L] the target's, or the link's own when the
    target does not exist. *)
Definition entryInfo (p : bytes) (s : est) : (gerror + fileInfo) * est :=
  let '(a, s) := stat call (opt_follow opts) p s in
  match a with
  | inl e => if opt_follow opts && isNotExist e then stat call false p s else (a, s)
  | inr _ => (a, s)
  end.

(** [None] is a loop, reported and recorded as a failure. *)
Definition checkLoop (p : bytes) (i : fileInfo) (anc : ancestors) (s : est) : option ancestors * est :=
  if IsDir (Mode i) && opt_follow opts then
    match match FileIdentity call with Some f => f p i | None => None end with
    | Some id =>
        match fst anc !! id with
        | Some firstPath => (None, fail (emit (EvErrf (MLoop p (Some firstPath))) s))
        | None => (Some (<[id := p]> (fst anc), ∅), s)
        end
    | None =>
        if bool_decide (p ∈ snd anc) then (None, fail (emit (EvErrf (MLoop p None)) s))
        else (Some (∅, {[p]} ∪ snd anc), s)
    end
  else (Some (∅, ∅), s).

Definition contextFor (p : bytes) (i : fileInfo) : evalContext :=
  let absPath := if IsAbs p then p else joinPath (opt_workDir opts) p in
  mkEc (opt_now opts) p i (opt_follow opts) (execDirParentDir absPath) (opt_workDir opts).

(** [(prune, quit)] and the state after; [failed] is sticky across entries. *)
Definition processEntry (p : bytes) (i : fileInfo) (depth : Z) (s : est) : (bool * bool) * est :=
  if (opt_minDepth opts <=? depth)%Z then
    let '(r, s) := evaluateOpt call (contextFor p i) (expression opts) s in
    let s := if bool_decide (newerErrors s = ∅) then s else fail s in
    if quit r then ((prune r, true), s)
    else
      let s := if matched r && implicitPrint opts then emit (EvOut (p ++ [ch_nl])) s else s in
      ((prune r, false), s)
  else ((false, false), s).

(** [OpenDir]; on an error the message and the failure. *)
Definition openDir (p : bytes) (s : est) : option nat * est :=
  match OpenDir call (hist s) p with
  | inl e => (None, fail (emit (EvErrf (MPathError p e)) (emit (EvOpenDir p None) s)))
  | inr h => (Some h, emit (EvOpenDir p (Some h)) s)
  end.

(** The outcome of one turn of the walk's loop. *)
Inductive turn := Continue (stack : list dirIterator) (s : est) | Break (quit : bool) (stack : list dirIterator) (s : est).

(** The child [p] of the iterator [top], after its metadata was read. *)
Definition visitChild (top : dirIterator) (rest : list dirIterator) (p : bytes) (i : fileInfo) (s : est) : turn :=
  let '(anc, s) := checkLoop p i (ancestorIDs top, ancestorPaths top) s in
  match anc with
  | None => Continue (top :: rest) s
  | Some (ids, paths) =>
      let '((pruned, q), s) := processEntry p i (itDepth top) s in
      if q then Break true (top :: rest) s
      else if IsDir (Mode i) && negb pruned && (itDepth top <? opt_maxDepth opts)%Z then
        let '(h, s) := openDir p s in
        match h with
        | None => Continue (top :: rest) s
        | Some h => Continue (mkIter h p (itDepth top + 1) ids paths false :: top :: rest) s
        end
      else Continue (top :: rest) s
  end.

(** The body of the loop; the stack's top is its first element. *)
Definition walkTurn (stack : list dirIterator) (s : est) : turn :=
  let '(stop, s) := ctxDone call s in
  if stop then
    let '(again, s) := ctxDone call s in Break false stack (if again then fail s else s)
  else
    match stack with
    | [] => Break false [] s
    | top :: rest =>
        if done_ top then Continue rest (emit (EvCloseDir (dir top)) s)
        else
          let a := ReadDir call (hist s) (dir top) in
          let s := emit (EvReadDir (dir top)) s in
          match a with
          | REof | RNone => Continue (set_done top :: rest) s
          | RErr e => Continue (set_done top :: rest) (fail (emit (EvErrf (MPathError (parentPath top) e)) s))
          | REntry name =>
              let childPath := joinPath (parentPath top) name in
              let '(i, s) := entryInfo childPath s in
              match i with
              | inl e => Continue (top :: rest) (fail (emit (EvErrf (MPathError childPath e)) s))
              | inr i => visitChild top rest childPath i s
              end
          end
    end.

(** [None] is out of fuel; the iterators left open are closed from the bottom. *)
Fixpoint walkLoop (fuel : nat) (stack : list dirIterator) (s : est) : option (bool * est) :=
  match stack with
  | [] => Some (false, s)
  | _ =>
      match fuel with
      | 0 => None
      | S fuel =>
          match walkTurn stack s with
          | Continue stack s => walkLoop fuel stack s
          | Break q stack s => Some (q, fold_right (fun it s => emit (EvCloseDir (dir it)) s) s stack)
          end
      end
  end.

(** The result is whether [-quit] was met; the failure is in the state. *)
Definition walkPath (fuel : nat) (startPath : bytes) (s : est) : option (bool * est) :=
  let '(i, s) := entryInfo startPath s in
  match i with
  | inl e => Some (false, fail (emit (EvErrf (MPathError startPath e)) s))
  | inr i =>
      let '(anc, s) := checkLoop startPath i (∅, ∅) s in
      match anc with
      | None => walkLoop fuel [] s
      | Some (ids, paths) =>
          let '((pruned, q), s) := processEntry startPath i 0 s in
          if q then Some (true, s)
          else if negb pruned && IsDir (Mode i) && (0 <? opt_maxDepth opts)%Z then
            let '(h, s) := openDir startPath s in
            match h with
            | None => Some (false, s)
            | Some h => walkLoop fuel [mkIter h startPath 1 ids paths false] s
            end
          else walkLoop fuel [] s
      end
  end.

End Walk.

(** ** The command *)

Section Run.
Context (call : callContext).

(** The leading options: help, an unsupported option, or whether links are
    followed and the arguments left. *)
Inductive optScan := OptHelp | OptUnsupported | OptDone (follow : bool) (rest : list bytes).

Fixpoint scanOptions (follow : bool) (args : list bytes) : optScan :=
  match args with
  | [] => OptDone follow []
  | a :: rest =>
      if a =s "--help" then OptHelp
      else if a =s "-L" then scanOptions true rest
      else if a =s "-P" then scanOptions false rest
      else if a =s "-H" then OptUnsupported
      else if a =s "--" then OptDone follow rest
      else OptDone follow args
  end.

Fixpoint splitPaths (args : list bytes) : list bytes * list bytes :=
  match args with
  | [] => ([], [])
  | a :: rest =>
      if isExpressionStart a then ([], args)
      else let '(ps, es) := splitPaths rest in (a :: ps, es)
  end.

(** The commands named without a marker must be allowed before the walk. *)
Fixpoint commandsAllowed (cmds : list bytes) : option bytes :=
  match cmds with
  | [] => None
  | c :: cs =>
      if match Count c marker with 0 => false | _ => true end then commandsAllowed cs
      else match CommandAllowed call with
           | Some allowed => if allowed c then commandsAllowed cs else Some c
           | None => commandsAllowed cs
           end
  end.

(** The [-newer] references, each checked once. *)
Fixpoint checkRefs (follow : bool) (seen : list bytes) (refs : list bytes) (s : est) : est :=
  match refs with
  | [] => s
  | r :: refs =>
      if bool_decide (r ∈ seen) then checkRefs follow seen refs s
      else
        let seen := r :: seen in
        match r with
        | [] => checkRefs follow seen refs (fail (add_error r (emit (EvErrf MEmptyOperand) s)))
        | _ =>
            let '(a, s) := stat call follow r s in
            match a with
            | inr _ => checkRefs follow seen refs s
            | inl e =>
                let '(found, s) :=
                  if follow && isNotExist e then
                    let '(l, s) := stat call false r s in
                    (match l with inr _ => true | inl _ => false end, s)
                  else (false, s) in
                if found : bool then checkRefs follow seen refs s
                else checkRefs follow seen refs (fail (add_error r (emit (EvErrf (MPathError r e)) s)))
            end
        end
  end.

(** The walk of each path; [eager] are the references already known to fail. *)
Fixpoint walkPaths (fuel : nat) (opts : walkOptions) (eager : gset bytes) (paths : list bytes) (s : est) : option est :=
  match paths with
  | [] => Some s
  | p :: ps =>
      let '(stop, s) := ctxDone call s in
      if stop then Some (fail s)
      else
        match p with
        | [] => walkPaths fuel opts eager ps (fail (emit (EvErrf MEmptyOperand) s))
        | _ =>
            match walkPath call opts fuel p (mkEst (hist s) ∅ eager (failed s) (phase s)) with
            | None => None
            | Some (q, s) => if q : bool then Some s else walkPaths fuel opts eager ps s
            end
        end
  end.

Definition initState : est := mkEst [] ∅ ∅ false 0.

(** The exit code and the final state; [None] is out of fuel. *)
Definition run (fuel : nat) (argv : list bytes) : option (Z * est) :=
  let s := initState in
  match scanOptions false argv with
  | OptHelp => Some (0%Z, emit EvHelp s)
  | OptUnsupported => Some (1%Z, emit (EvErrf (MUnsupported (lit "-H"))) s)
  | OptDone follow rest =>
      let '(paths, exprArgs) := splitPaths rest in
      let paths := match paths with [] => [lit "."] | _ => paths end in
      match parseExpression exprArgs with
      | Err HelpRequested => Some (0%Z, emit EvHelp s)
      | Err e => Some (1%Z, emit (EvErrf (MUsage e)) s)
      | Panic | NoFuel => None
      | Ret pr _ =>
          let maxDepth := if (pr_maxDepth pr <? 0)%Z then maxTraversalDepth else pr_maxDepth pr in
          let s := if (maxTraversalDepth <? maxDepth)%Z then emit (EvErrf (MClamped maxDepth)) s else s in
          let maxDepth := if (maxTraversalDepth <? maxDepth)%Z then maxTraversalDepth else maxDepth in
          let minDepth := if (pr_minDepth pr <? 0)%Z then 0%Z else pr_minDepth pr in
          match commandsAllowed (match pr_expr pr with Some e => collectExecCmds e | None => [] end) with
          | Some c => Some (1%Z, emit (EvErrf (MNotAllowed c)) s)
          | None =>
              let implicit := match pr_expr pr with Some e => negb (hasAction e) | None => true end in
              let s := checkRefs follow [] (match pr_expr pr with Some e => collectNewerRefs e | None => [] end) s in
              let workDir := match WorkDir call with Some d => d | None => [] end in
              let opts := mkOptions (pr_expr pr) implicit follow maxDepth minDepth (Now call) workDir in
              let s' := if failed s then Some s else walkPaths fuel opts (newerErrors s) paths s in
              match s' with
              | None => None
              | Some s => Some ((if failed s then 1 else 0)%Z, s)
              end
          end
      end
  end.

End Run.

(** * Handles, depth and commands *)

Definition opened (h : history) : list nat :=
  omap (fun ev => match ev with EvOpenDir _ (Some d) => Some d | _ => None end) h.
Definition closed (h : history) : list nat :=
  omap (fun ev => match ev with EvCloseDir d => Some d | _ => None end) h.

(** At every moment of a history at most [n] directories are open. *)
Definition at_most_open (n : nat) (h : history) : Prop :=
  forall later before, h = later ++ before -> length (opened before) <= length (closed before) + n.

(** A command that passed the allow list and the size limit. *)
Definition safe_event (call : callContext) (ev : event) : Prop :=
  match ev with
  | EvRun dir cmd args =>
      RunCommand call <> None /\
      (forall allowed, CommandAllowed call = Some allowed -> allowed cmd = true) /\
      (BoundedReplace.lineLength (cmd :: args) <= BoundedReplace.MaxCommandLineBytes)%Z
  | _ => True
  end.

(** Events that neither open nor close a directory. *)
Definition neutral (call : callContext) (ev : event) : Prop :=
  safe_event call ev /\
  match ev with EvOpenDir _ (Some _) | EvCloseDir _ => False | _ => True end.

Lemma opened_neutral call l : Forall (neutral call) l -> opened l = [] /\ closed l = [].
Proof.
  induction 1 as [|ev l [_ Hn] _ [IHo IHc]]; [done|]. unfold opened, closed in *. cbn.
  destruct ev; try done; try (split; [exact IHo|exact IHc]).
  destruct handle; [done|]. split; [exact IHo|exact IHc].
Qed.

Lemma iter_opened_app l h : opened (l ++ h) = opened l ++ opened h.
Proof. apply omap_app. Qed.

Lemma iter_closed_app l h : closed (l ++ h) = closed l ++ closed h.
Proof. apply omap_app. Qed.

Lemma handles_open p d h :
  opened (EvOpenDir p (Some d) :: h) = d :: opened h /\ closed (EvOpenDir p (Some d) :: h) = closed h.
Proof. done. Qed.

Lemma handles_close d h :
  opened (EvCloseDir d :: h) = opened h /\ closed (EvCloseDir d :: h) = d :: closed h.
Proof. done. Qed.

Lemma at_most_open_neutral call n l h : Forall (neutral call) l -> at_most_open n h -> at_most_open n (l ++ h).
Proof.
  intros Hl Hh later before E. apply app_eq_app in E as (m & [[-> ->]|[-> ->]]).
  - apply Forall_app in Hl as [_ Hm]. destruct (opened_neutral _ _ Hm) as [Eo Ec].
    rewrite iter_opened_app, iter_closed_app, Eo, Ec. by apply (Hh [] h).
  - by apply (Hh m).
Qed.

Lemma at_most_open_cons n ev h :
  at_most_open n h -> length (opened (ev :: h)) <= length (closed (ev :: h)) + n -> at_most_open n (ev :: h).
Proof.
  intros Hh Hev later before E. destruct later as [|x later]; [by cbn in E; subst|].
  injection E as _ E. by eapply Hh.
Qed.

Lemma continues_fail P s s' : continues P s s' -> continues P s (fail s').
Proof. intros H. by eapply continues_hist. Qed.

Lemma continues_add_error P p s s' : continues P s s' -> continues P s (add_error p s').
Proof. intros H. by eapply continues_hist. Qed.

Ltac quiet :=
  repeat first [by apply continues_refl
               | lazymatch goal with
                 | |- continues _ _ (fail _) => apply continues_fail
                 | |- continues _ _ (add_error _ _) => apply continues_add_error
                 | |- continues _ _ (emit _ _) => apply continues_emit; [by split|]
                 end].

Section WalkSafety.
Context (call : callContext) (opts : walkOptions).
Hypothesis Hmax : (opt_maxDepth opts <= maxTraversalDepth)%Z.

(** Each iterator is one level below the next. *)
Fixpoint levels_ok (stack : list dirIterator) : Prop :=
  match stack with
  | [] => True
  | it :: rest => itDepth it = Z.of_nat (length stack) /\ (itDepth it <= opt_maxDepth opts)%Z /\ levels_ok rest
  end.

(** The open directories are those of the stack. *)
Record walk_inv (stack : list dirIterator) (s : est) : Prop := {
  wi_balance : opened (hist s) ≡ₚ closed (hist s) ++ map dir stack;
  wi_levels : levels_ok stack;
  wi_moments : at_most_open (Z.to_nat maxTraversalDepth) (hist s);
  wi_safe : Forall (safe_event call) (hist s) }.

Lemma walk_neutral stack s s' : continues (neutral call) s s' -> walk_inv stack s -> walk_inv stack s'.
Proof.
  intros (l & E & Hl) [Hb Hlv Hm Hs]. destruct (opened_neutral _ _ Hl) as [Eo Ec]. split; [|done|..]; rewrite E.
  - by rewrite iter_opened_app, iter_closed_app, Eo, Ec.
  - by eapply at_most_open_neutral.
  - apply Forall_app. split; [|done]. eapply Forall_impl; [exact Hl|]. by intros ev [? _].
Qed.

Lemma inv_open stack s p h it :
  walk_inv stack s -> dir it = h -> itDepth it = (Z.of_nat (length stack) + 1)%Z ->
  (itDepth it <= opt_maxDepth opts)%Z -> walk_inv (it :: stack) (emit (EvOpenDir p (Some h)) s).
Proof.
  intros [Hb Hlv Hm Hs] <- Hd Hle. split; cbn [hist emit].
  - cbn. rewrite Hb. apply Permutation_middle.
  - cbn [levels_ok length]. split_and!; [lia|done..].
  - apply at_most_open_cons; [done|]. destruct (handles_open p (dir it) (hist s)) as [-> ->]. cbn [length].
    rewrite Hb, length_app, length_map. pose proof Hmax. unfold maxTraversalDepth in *. lia.
  - by constructor.
Qed.

Lemma inv_close stack s it :
  walk_inv (it :: stack) s -> walk_inv stack (emit (EvCloseDir (dir it)) s).
Proof.
  intros [Hb Hlv Hm Hs]. split; cbn [hist emit].
  - cbn. rewrite Hb. cbn. by rewrite Permutation_middle.
  - by destruct Hlv as (_ & _ & ?).
  - apply at_most_open_cons; [done|]. destruct (handles_close (dir it) (hist s)) as [-> ->]. cbn [length].
    rewrite Hb, length_app, length_map. destruct Hlv as (Hd & Hle & _).
    cbn [length] in *. pose proof Hmax. unfold maxTraversalDepth in *. lia.
  - by constructor.
Qed.

Lemma inv_done stack s it : walk_inv (it :: stack) s -> walk_inv (set_done it :: stack) s.
Proof. by intros [Hb Hlv Hm Hs]. Qed.

(** *** The parts of a turn are neutral *)

Lemma entryInfo_neutral p s : continues (neutral call) s (snd (entryInfo call opts p s)).
Proof. unfold entryInfo, stat. repeat case_match; simplify_eq; cbn [snd]; quiet. Qed.

Lemma checkLoop_neutral p i anc s : continues (neutral call) s (snd (checkLoop call opts p i anc s)).
Proof.
  unfold checkLoop. repeat case_match; cbn [snd]; quiet.
Qed.

Lemma ok_event_neutral ec e ev : ok_event call ec e ev -> neutral call ev.
Proof. destruct ev; try done. intros (H1 & H2 & H3 & _). by split. Qed.

Lemma processEntry_neutral p i depth s : continues (neutral call) s (snd (processEntry call opts p i depth s)).
Proof.
  unfold processEntry. destruct (_ <=? depth)%Z; [|by apply continues_refl].
  assert (continues (neutral call) s (snd (evaluateOpt call (contextFor opts p i) (expression opts) s))) as H.
  { unfold evaluateOpt. destruct (expression opts) as [e|]; [|by apply continues_refl].
    eapply continues_weaken; [|apply evaluate_continues]. intros ev. apply ok_event_neutral. }
  destruct (evaluateOpt _ _ _ s) as [r s1]. cbn [snd] in H.
  assert (continues (neutral call) s (if bool_decide (newerErrors s1 = ∅) then s1 else fail s1)) as H2.
  { case_bool_decide; [done|]. by eapply continues_hist. }
  destruct (quit r); [done|]. destruct (_ && _); [|done]. cbn [snd]. by apply continues_emit.
Qed.

Definition turn_inv (t : turn) : Prop :=
  match t with Continue stack s | Break _ stack s => walk_inv stack s end.

Lemma openDir_inv stack s p ids paths :
  walk_inv stack s -> (Z.of_nat (length stack) + 1 <= opt_maxDepth opts)%Z ->
  match openDir call p s with
  | (None, s') => walk_inv stack s'
  | (Some h, s') => walk_inv (mkIter h p (Z.of_nat (length stack) + 1) ids paths false :: stack) s'
  end.
Proof.
  intros Hi Hd. unfold openDir. destruct (OpenDir call (hist s) p) as [e|h].
  - eapply walk_neutral; [|exact Hi]. quiet.
  - by apply inv_open.
Qed.

Lemma visitChild_inv top rest p i s :
  walk_inv (top :: rest) s -> turn_inv (visitChild call opts top rest p i s).
Proof.
  intros Hi. unfold visitChild.
  pose proof (checkLoop_neutral p i (ancestorIDs top, ancestorPaths top) s) as Hc.
  destruct (checkLoop _ _ _ _ _ _) as [[[ids paths]|] s1]; cbn [snd] in Hc;
    apply (walk_neutral _ _ _ Hc) in Hi; [|done].
  pose proof (processEntry_neutral p i (itDepth top) s1) as Hp.
  destruct (processEntry _ _ _ _ _ _) as [[pruned q] s2]; cbn [snd] in Hp. apply (walk_neutral _ _ _ Hp) in Hi.
  destruct q; [done|]. destruct (IsDir (Mode i) && negb pruned && _) eqn:Eb; [|done].
  apply andb_true_iff in Eb as [_ Eb%Z.ltb_lt]. pose proof Hi as [_ (Hd & _) _ _]. rewrite Hd in Eb |- *.
  pose proof (openDir_inv _ _ p ids paths Hi ltac:(lia)) as Ho. destruct (openDir call p s2) as [[h|] s3]; exact Ho.
Qed.

Lemma walkTurn_inv stack s : walk_inv stack s -> turn_inv (walkTurn call opts stack s).
Proof.
  intros Hi. unfold walkTurn, ctxDone. cbn [next_phase hist phase].
  assert (forall s', hist s' = hist s -> walk_inv stack s') as Hsame.
  { intros s' E. eapply walk_neutral; [|exact Hi]. by apply continues_refl. }
  destruct (ctxErr call (phase s) 0). { cbn. by destruct (ctxErr call _ _); apply Hsame. }
  destruct stack as [|top rest]; [by apply Hsame|].
  destruct (done_ top); [apply (inv_close rest (next_phase s) top); by apply Hsame|]. cbv zeta.
  assert (walk_inv (top :: rest) (emit (EvReadDir (dir top)) (next_phase s))) as Hi1.
  { eapply walk_neutral; [|by apply (Hsame (next_phase s))]. quiet. }
  destruct (ReadDir _ _ _) as [|e| |name]; cbn [turn_inv].
  - by apply inv_done.
  - apply inv_done. eapply walk_neutral; [|exact Hi1]. quiet.
  - by apply inv_done.
  - pose proof (entryInfo_neutral (joinPath (parentPath top) name) (emit (EvReadDir (dir top)) (next_phase s))) as He.
    destruct (entryInfo _ _ _ _) as [[e|i] s2]; cbn [snd] in He; apply (walk_neutral _ _ _ He) in Hi1.
    + cbn. eapply walk_neutral; [|exact Hi1]. quiet.
    + by apply visitChild_inv.
Qed.

(** The final closing, from the bottom of the stack. *)
Lemma closeAll stack s :
  opened (hist s) ≡ₚ closed (hist s) ++ map dir stack -> length stack <= Z.to_nat maxTraversalDepth ->
  at_most_open (Z.to_nat maxTraversalDepth) (hist s) -> Forall (safe_event call) (hist s) ->
  walk_inv [] (fold_right (fun it s => emit (EvCloseDir (dir it)) s) s stack).
Proof.
  revert s. induction stack as [|it stack IH] using rev_ind; intros s Hb Hlen Hm Hs; [by split|].
  rewrite fold_right_app. cbn [fold_right]. rewrite length_app in Hlen. cbn [length] in Hlen.
  apply IH; [|lia|..]; cbn [hist emit].
  - destruct (handles_close (dir it) (hist s)) as [-> ->]. rewrite Hb, map_app, app_assoc.
    by rewrite (Permutation_app_comm _ (map dir [it])).
  - apply at_most_open_cons; [done|]. destruct (handles_close (dir it) (hist s)) as [-> ->].
    rewrite Hb, length_app, length_map, length_app. cbn [length]. lia.
  - by constructor.
Qed.

Lemma levels_length stack : levels_ok stack -> length stack <= Z.to_nat maxTraversalDepth.
Proof.
  destruct stack as [|it rest]; [cbn; lia|]. intros (Hd & Hle & _). pose proof Hmax. unfold maxTraversalDepth in *. lia.
Qed.

Lemma walkLoop_inv fuel stack s q s' :
  walk_inv stack s -> walkLoop call opts fuel stack s = Some (q, s') -> walk_inv [] s'.
Proof.
  revert stack s. induction fuel as [|fuel IH]; intros stack s Hi E; cbn [walkLoop] in E.
  { destruct stack; [by injection E as <- <-|done]. }
  destruct stack as [|it stack]; [by injection E as <- <-|].
  pose proof (walkTurn_inv _ _ Hi) as Ht. destruct (walkTurn _ _ _ _) as [st s1|q1 st s1]; cbn [turn_inv] in Ht.
  - by eapply IH.
  - injection E as <- <-. destruct Ht as [Hb Hlv Hm Hs]. by apply closeAll; [|apply levels_length|..].
Qed.

Lemma walkPath_inv fuel p s q s' :
  walk_inv [] s -> walkPath call opts fuel p s = Some (q, s') -> walk_inv [] s'.
Proof.
  intros Hi. unfold walkPath.
  pose proof (entryInfo_neutral p s) as He. destruct (entryInfo _ _ _ _) as [[e|i] s1]; cbn [snd] in He;
    apply (walk_neutral _ _ _ He) in Hi.
  { intros [= <- <-]. eapply walk_neutral; [|exact Hi]. quiet. }
  pose proof (checkLoop_neutral p i (∅, ∅) s1) as Hc.
  destruct (checkLoop _ _ _ _ _ _) as [[[ids paths]|] s2]; cbn [snd] in Hc; apply (walk_neutral _ _ _ Hc) in Hi.
  2:{ intros E. by eapply walkLoop_inv. }
  pose proof (processEntry_neutral p i 0 s2) as Hp.
  destruct (processEntry _ _ _ _ _ _) as [[pruned q'] s3]; cbn [snd] in Hp. apply (walk_neutral _ _ _ Hp) in Hi.
  destruct q'; [by intros [= <- <-]|].
  destruct (negb pruned && IsDir (Mode i) && _) eqn:Eb; [|intros E; by eapply walkLoop_inv].
  apply andb_true_iff in Eb as [_ Eb%Z.ltb_lt].
  pose proof (openDir_inv [] s3 p ids paths Hi ltac:(cbn; lia)) as Ho. destruct (openDir call p s3) as [[h|] s4].
  - intros E. by eapply walkLoop_inv.
  - by intros [= <- <-].
Qed.

End WalkSafety.

(** ** The whole command *)

Section RunSafety.
Context (call : callContext).

Lemma checkRefs_neutral follow seen refs s : continues (neutral call) s (checkRefs call follow seen refs s).
Proof.
  revert seen s. induction refs as [|r refs IH]; intros seen s; cbn [checkRefs]; [quiet|].
  destruct (bool_decide (r ∈ seen)); [apply IH|]. cbv zeta. destruct r as [|c r].
  { eapply continues_trans; [|apply IH]. quiet. }
  unfold stat. destruct (if follow then _ else _) as [e|i].
  2:{ eapply continues_trans; [|apply IH]. quiet. }
  destruct (follow && isNotExist e); [destruct (LstatFile _ _ _)|]; (eapply continues_trans; [|apply IH]); quiet.
Qed.

Lemma walkPaths_inv fuel opts eager paths s s' :
  (opt_maxDepth opts <= maxTraversalDepth)%Z ->
  walk_inv call opts [] s -> walkPaths call fuel opts eager paths s = Some s' -> walk_inv call opts [] s'.
Proof.
  intros Hmax. revert s. induction paths as [|p paths IH]; intros s Hi; cbn [walkPaths]; [by intros [= <-]|].
  unfold ctxDone. assert (forall s', hist s' = hist s -> walk_inv call opts [] s') as Hsame.
  { intros s1 E. eapply walk_neutral; [|exact Hi]. by apply continues_refl. }
  destruct (ctxErr call (phase s) 0); [intros [= <-]; by apply Hsame|]. destruct p as [|c p].
  { apply IH. apply (walk_neutral _ _ _ (next_phase s)); [quiet|by apply Hsame]. }
  destruct (walkPath _ _ _ _ _) as [[q s1]|] eqn:E; [|done].
  apply walkPath_inv in E; [|done|by apply Hsame]. destruct q; [by intros [= <-]|by apply IH].
Qed.

Lemma initial_inv opts s : continues (neutral call) initState s -> walk_inv call opts [] s.
Proof.
  intros Hc. eapply walk_neutral; [exact Hc|]. split; cbn; try done.
  intros later before E. symmetry in E. apply app_nil in E as [-> ->]. cbn. lia.
Qed.

Lemma run_inv fuel argv code s :
  run call fuel argv = Some (code, s) ->
  (code = 0 \/ code = 1)%Z /\ exists opts, walk_inv call opts [] s.
Proof.
  unfold run. destruct (scanOptions false argv) as [| |follow rest].
  1,2: intros [= <- <-]; split; [auto|]; exists (mkOptions None false false 0 0 0 []); apply initial_inv; quiet.
  destruct (splitPaths rest) as [paths exprArgs]. cbv zeta.
  destruct (parseExpression exprArgs) as [pr p0|e| |]; try done.
  2:{ destruct e; intros [= <- <-]; (split; [auto|]); exists (mkOptions None false false 0 0 0 []); apply initial_inv; quiet. }
  set (m := if (pr_maxDepth pr <? 0)%Z then _ else _).
  set (s0 := if (maxTraversalDepth <? m)%Z then emit _ initState else initState).
  set (md := if (maxTraversalDepth <? m)%Z then maxTraversalDepth else m).
  assert (md <= maxTraversalDepth)%Z as Hmd by (unfold md; destruct (Z.ltb_spec maxTraversalDepth m); lia).
  assert (continues (neutral call) initState s0) as H0 by (unfold s0; case_match; quiet).
  destruct (commandsAllowed _ _) as [c|].
  { intros [= <- <-]. split; [auto|]. exists (mkOptions None false false 0 0 0 []). apply initial_inv.
    by apply continues_emit. }
  set (s1 := checkRefs _ _ _ _ _). set (opts := mkOptions _ _ _ _ _ _ _).
  assert (walk_inv call opts [] s1) as Hi.
  { apply initial_inv. eapply continues_trans; [exact H0|apply checkRefs_neutral]. }
  destruct (if failed s1 then Some s1 else walkPaths call fuel opts (newerErrors s1) _ s1) as [s2|] eqn:E; [|done].
  intros [= <- <-]. split; [destruct (failed s2); auto|]. exists opts.
  destruct (failed s1); [by injection E as <-|]. eapply walkPaths_inv; [exact Hmd|exact Hi|exact E].
Qed.

End RunSafety.

(** C3. Whatever the filesystem and the shell answer, a run of find closes every
    directory it opened, at no moment has more than [maxTraversalDepth] open, runs
    only commands that passed the allow list and the size limit, and exits with 0
    or 1. *)
Theorem find_run_safe call fuel argv code s :
  run call fuel argv = Some (code, s) ->
  opened (hist s) ≡ₚ closed (hist s) /\
  at_most_open (Z.to_nat maxTraversalDepth) (hist s) /\
  Forall (safe_event call) (hist s) /\
  (code = 0 \/ code = 1)%Z.
Proof.
  intros H. apply run_inv in H as (Hc & opts & [Hb _ Hm Hs]).
  cbn in Hb. rewrite app_nil_r in Hb. by split_and!.
Qed.

(** ** Termination *)

Section Termination.
Context (call : callContext) (B : nat).

Definition reads (d : nat) (h : history) : nat :=
  length (List.filter (fun ev => match ev with EvReadDir d' => d' =? d | _ => false end) h).

(** Every handle yields at most [B] entries. *)
Hypothesis finite_dirs : forall h d name, ReadDir call h d = REntry name -> reads d h < B.

(** The turns that a whole directory takes, with [k] levels below it allowed. *)
Fixpoint full (k : nat) : nat :=
  match k with 0 => 0 | S k => B * (1 + full k) + 2 end.

Definition below (opts : walkOptions) (it : dirIterator) : nat := Z.to_nat (opt_maxDepth opts - itDepth it).

Definition cost (opts : walkOptions) (h : history) (it : dirIterator) : nat :=
  (B - reads (dir it) h) * (1 + full (below opts it)) + (if done_ it then 1 else 2).

Definition total (opts : walkOptions) (h : history) (stack : list dirIterator) : nat :=
  foldr (fun it n => cost opts h it + n) 0 stack.

Lemma reads_app d l h : reads d (l ++ h) = reads d l + reads d h.
Proof. unfold reads. by rewrite List.filter_app, length_app. Qed.

Lemma cost_mono opts l h it : cost opts (l ++ h) it <= cost opts h it.
Proof. unfold cost. rewrite reads_app. nia. Qed.

Lemma cost_pos opts h it : 1 <= cost opts h it.
Proof. unfold cost. destruct (done_ it); apply Nat.le_trans with (2 := Nat.le_add_l _ _); lia. Qed.

Lemma total_mono opts l h stack : total opts (l ++ h) stack <= total opts h stack.
Proof.
  unfold total. induction stack as [|it stack IH]; cbn [foldr]; [lia|]. pose proof (cost_mono opts l h it). lia.
Qed.

Lemma continues_total opts P s s' stack :
  continues P s s' -> total opts (hist s') stack <= total opts (hist s) stack.
Proof. intros (l & -> & _). apply total_mono. Qed.

Lemma new_cost opts h d p ids paths depth :
  (depth < opt_maxDepth opts)%Z ->
  cost opts h (mkIter d p (depth + 1) ids paths false) <= full (Z.to_nat (opt_maxDepth opts - depth)).
Proof.
  intros Hd. unfold cost, below. cbn [dir itDepth done_].
  replace (Z.to_nat (opt_maxDepth opts - depth)) with (S (Z.to_nat (opt_maxDepth opts - (depth + 1)))) by lia.
  cbn [full]. nia.
Qed.

Lemma total_cons opts h it stack : total opts h (it :: stack) = cost opts h it + total opts h stack.
Proof. done. Qed.

(** After an entry was read, a child costs at most what the entry is worth. *)
Lemma visitChild_total opts top rest p i s :
  match visitChild call opts top rest p i s with
  | Continue stack s' => total opts (hist s') stack <= full (below opts top) + total opts (hist s) (top :: rest)
  | Break _ _ _ => True
  end.
Proof.
  unfold visitChild.
  pose proof (checkLoop_neutral call opts p i (ancestorIDs top, ancestorPaths top) s) as Hc.
  destruct (checkLoop _ _ _ _ _ _) as [[[ids paths]|] s1]; cbn [snd] in Hc;
    apply (continues_total opts _ _ _ (top :: rest)) in Hc; [|lia].
  pose proof (processEntry_neutral call opts p i (itDepth top) s1) as Hp.
  destruct (processEntry _ _ _ _ _ _) as [[pruned q] s2]; cbn [snd] in Hp.
  apply (continues_total opts _ _ _ (top :: rest)) in Hp.
  destruct q; [done|]. destruct (IsDir (Mode i) && negb pruned && _) eqn:Eb; [|lia].
  apply andb_true_iff in Eb as [_ Eb%Z.ltb_lt]. unfold openDir. destruct (OpenDir _ _ _) as [e|h]; cbn [hist emit fail].
  - pose proof (total_mono opts [EvErrf (MPathError p e); EvOpenDir p None] (hist s2) (top :: rest)). cbn [app] in H. lia.
  - rewrite total_cons. pose proof (total_mono opts [EvOpenDir p (Some h)] (hist s2) (top :: rest)). cbn [app] in H.
    pose proof (new_cost opts (EvOpenDir p (Some h) :: hist s2) h p ids paths (itDepth top) Eb). unfold below. lia.
Qed.

Lemma reads_cons d h : reads d (EvReadDir d :: h) = S (reads d h).
Proof. unfold reads. cbn [List.filter]. by rewrite Nat.eqb_refl. Qed.

Lemma walkTurn_total opts stack s :
  stack <> [] ->
  match walkTurn call opts stack s with
  | Continue stack' s' => total opts (hist s') stack' < total opts (hist s) stack
  | Break _ _ _ => True
  end.
Proof.
  intros Hne. unfold walkTurn, ctxDone. destruct (ctxErr call (phase s) 0); [done|].
  destruct stack as [|top rest]; [done|]. rewrite (total_cons opts (hist s)).
  destruct (done_ top) eqn:Ed.
  { cbn [hist emit next_phase]. pose proof (total_mono opts [EvCloseDir (dir top)] (hist s) rest). cbn [app] in H.
    pose proof (cost_pos opts (hist s) top). lia. }
  cbv zeta. cbn [hist next_phase].
  set (h1 := EvReadDir (dir top) :: hist s).
  pose proof (total_mono opts [EvReadDir (dir top)] (hist s) rest) as Hrest. cbn [app] in Hrest. fold h1 in Hrest.
  assert (cost opts h1 (set_done top) < cost opts (hist s) top) as Hdone.
  { unfold cost, h1, below. cbn [set_done dir done_ itDepth]. rewrite reads_cons, Ed. nia. }
  destruct (ReadDir _ _ _) as [|e| |name] eqn:Er.
  - cbn [hist emit next_phase]. rewrite total_cons. fold h1. lia.
  - cbn [hist emit next_phase fail]. fold h1.
    pose proof (total_mono opts [EvErrf (MPathError (parentPath top) e)] h1 (set_done top :: rest)) as H. cbn [app] in H.
    rewrite (total_cons opts h1) in H. lia.
  - cbn [hist emit next_phase]. rewrite total_cons. fold h1. lia.
  - apply finite_dirs in Er.
    assert (full (below opts top) + cost opts h1 top < cost opts (hist s) top) as Hentry.
    { unfold cost, h1. rewrite reads_cons, Ed. nia. }
    pose proof (entryInfo_neutral call opts (joinPath (parentPath top) name) (emit (EvReadDir (dir top)) (next_phase s))) as He.
    destruct (entryInfo _ _ _ _) as [[e|i] s2]; cbn [snd] in He;
      apply (continues_total opts _ _ _ (top :: rest)) in He; cbn [hist emit next_phase] in He; fold h1 in He;
      rewrite (total_cons opts h1) in He.
    + cbn [hist emit fail].
      pose proof (total_mono opts [EvErrf (MPathError (joinPath (parentPath top) name) e)] (hist s2) (top :: rest)) as H.
      cbn [app] in H. lia.
    + pose proof (visitChild_total opts top rest (joinPath (parentPath top) name) i s2) as Hv.
      destruct (visitChild _ _ _ _ _ _ _); [|done]. lia.
Qed.

Lemma walkLoop_terminates opts fuel stack s :
  total opts (hist s) stack < fuel -> walkLoop call opts fuel stack s <> None.
Proof.
  revert stack s. induction fuel as [|fuel IH]; intros stack s Hf; [lia|]. cbn [walkLoop].
  destruct stack as [|it stack]; [done|]. pose proof (walkTurn_total opts (it :: stack) s ltac:(done)) as Ht.
  destruct (walkTurn _ _ _ _) as [st s1|]; [|done]. apply IH. lia.
Qed.

Lemma full_mono k k' : k <= k' -> full k <= full k'.
Proof.
  revert k'. induction k as [|k IH]; intros k' Hk; [cbn; lia|]. destruct k' as [|k']; [lia|].
  cbn [full]. specialize (IH k' ltac:(lia)). nia.
Qed.

(** Fuel for any walk: the turns of a full tree of the greatest depth. *)
Definition walkFuel : nat := S (full (Z.to_nat maxTraversalDepth)).

Lemma walkPath_terminates opts p s :
  (opt_maxDepth opts <= maxTraversalDepth)%Z -> walkPath call opts walkFuel p s <> None.
Proof.
  intros Hmax. unfold walkPath. destruct (entryInfo _ _ _ _) as [[e|i] s1]; [done|].
  destruct (checkLoop _ _ _ _ _ _) as [[[ids paths]|] s2]; [|done].
  destruct (processEntry _ _ _ _ _ _) as [[pruned q] s3]. destruct q; [done|].
  destruct (negb pruned && IsDir (Mode i) && _) eqn:Eb; [|done].
  apply andb_true_iff in Eb as [_ Eb%Z.ltb_lt]. destruct (openDir _ _ _) as [[h|] s4]; [|done].
  apply walkLoop_terminates. unfold total, walkFuel. cbn [foldr].
  pose proof (new_cost opts (hist s4) h p ids paths 0 Eb) as Hc. cbn [Z.add] in Hc.
  assert (Z.to_nat (opt_maxDepth opts - 0) <= Z.to_nat maxTraversalDepth) as Hle by (apply Z2Nat.inj_le; lia).
  apply full_mono in Hle. apply Nat.lt_succ_r. rewrite Nat.add_0_r. by etransitivity.
Qed.

Lemma walkPaths_terminates opts eager paths s :
  (opt_maxDepth opts <= maxTraversalDepth)%Z -> walkPaths call walkFuel opts eager paths s <> None.
Proof.
  intros Hmax. revert s. induction paths as [|p paths IH]; intros s; cbn [walkPaths]; [done|].
  destruct (ctxDone call s) as [[] s1]; [done|]. destruct p as [|c p]; [apply IH|].
  pose proof (walkPath_terminates opts (c :: p) (mkEst (hist s1) ∅ eager (failed s1) (phase s1)) Hmax) as H.
  destruct (walkPath _ _ _ _ _) as [[q s2]|]; [|done]. destruct q; [done|apply IH].
Qed.

End Termination.

(** C6. find terminates: when no directory yields more than [B] entries, the turns
    of a full tree of the depth limit are fuel enough for every argument list,
    whatever else the filesystem answers (loops of links included). *)
Theorem find_terminates call B argv :
  (forall h d name, ReadDir call h d = REntry name -> reads d h < B) ->
  run call (walkFuel B) argv <> None.
Proof.
  intros HB. unfold run. destruct (scanOptions false argv) as [| |follow rest]; [done..|].
  destruct (splitPaths rest) as [paths exprArgs]. cbv zeta.
  pose proof (parseExpression_total exprArgs) as Hp.
  destruct (parseExpression exprArgs) as [pr p0|e| |]; try done; [|by destruct e].
  destruct (commandsAllowed _ _); [done|].
  set (s1 := checkRefs _ _ _ _ _). set (opts := mkOptions _ _ _ _ _ _ _). destruct (failed s1); [done|].
  pose proof (walkPaths_terminates call B HB opts (newerErrors s1) (match paths with [] => [lit "."] | _ => paths end) s1) as H.
  destruct (walkPaths _ _ _ _ _ _); [done|]. intros _. apply H; [|done].
  unfold opts. cbn [opt_maxDepth]. destruct (Z.ltb_spec maxTraversalDepth (if (pr_maxDepth pr <? 0)%Z then maxTraversalDepth else pr_maxDepth pr)); lia.
Qed.

(** ** A small filesystem: [.] holds [a.go], a file, and [d], a directory with
    [b.go]; links are absent and every command fails. *)
Definition demoDir (p : bytes) : bool := (p =s ".") || (p =s "./d").
Definition demoLstat (_ : history) (p : bytes) : gerror + fileInfo :=
  if demoDir p then inr (mkInfo (Z.lor ModeDir 493) 0 0) else inr (mkInfo 420 10 0).
Definition demoEntries (d : nat) : list bytes :=
  match d with 0 => map lit ["a.go"; "d"]%string | _ => [lit "b.go"] end.

Definition demo : callContext :=
  mkCall demoLstat demoLstat (fun _ _ => inr false) None None None
    (fun _ p => inr (if p =s "." then 0 else 1))
    (fun h d => match demoEntries d !! (reads d h) with Some n => REntry n | None => REof end)
    (Some (lit "/")) 0 (fun _ _ => false) id.

Lemma demo_finite h d name : ReadDir demo h d = REntry name -> reads d h < 2.
Proof.
  unfold demo. cbn [ReadDir]. destruct (demoEntries d !! reads d h) eqn:E; [|done]. intros _.
  apply lookup_lt_Some in E. unfold demoEntries in E. destruct d; cbn in E; lia.
Qed.

Lemma find_terminates_witness : run demo (walkFuel 2) (map lit ["-name"; "*.go"]%string) <> None.
Proof. exact (find_terminates demo 2 _ demo_finite). Defined.

(** What the run prints, oldest first. *)
Definition printed (h : history) : bytes :=
  mjoin (rev (omap (fun ev => match ev with EvOut s => Some s | _ => None end) h)).

Lemma find_run_safe_witness :
  exists s, run demo 20 (map lit ["-name"; "*.go"]%string) = Some (0%Z, s) /\
    printed (hist s) = lit "./a.go" ++ [ch_nl] ++ lit "./d/b.go" ++ [ch_nl] /\
    opened (hist s) ≡ₚ closed (hist s).
Proof.
  eexists. split; [vm_compute; reflexivity|]. split; [vm_compute; reflexivity|].
  eapply (find_run_safe demo 20 (map lit ["-name"; "*.go"]%string)). vm_compute. reflexivity.
Defined.

End FindWalk.
