(* ===== verification/Bufio.v ===== *)
(** Bytes read one at a time: the interface the tokenizers are written against,
    its laws, and the standard library's [bufio.Reader] as an instance over an
    arbitrary sequence of answers of the underlying [Read]. *)

From S2P Require Import Prelude.
From stdpp Require Import base list strings.
From Stdlib Require Import Lia Ascii.

Module Bufio.

Inductive ioerr := EOF | ErrNoProgress | ErrRead (message : bytes).

#[export] Instance ioerr_eq_dec : EqDecision ioerr.
Proof. solve_decision. Defined.

(** [UnreadByte b] is only called right after [ReadByte] returned [b], where it
    cannot fail. *)
Class ByteSource (R : Type) := {
  ReadByte : R -> (ioerr + ascii) * R;
  UnreadByte : ascii -> R -> R }.

(** [delivers r bs e]: the source yields the bytes [bs] and then [e] for ever. *)
Class ByteSourceLaws (R : Type) `{ByteSource R} := {
  delivers : R -> bytes -> ioerr -> Prop;
  delivers_cons r b bs e : delivers r (b :: bs) e ->
    exists r', ReadByte r = (inr b, r') /\ delivers r' bs e;
  delivers_nil r e : delivers r [] e ->
    exists r', ReadByte r = (inl e, r') /\ delivers r' [] e;
  delivers_unread r b bs e : delivers r bs e -> delivers (UnreadByte b r) (b :: bs) e }.

(** ** bufio.Reader *)

Record Reader := mkReader { pending : bytes; err : option ioerr; reads : nat }.

Definition NewReader : Reader := mkReader [] None 0.

Definition maxConsecutiveEmptyReads : nat := 100.

Section Reader.
(** The answer of the [n]th [Read]: what was read, and an error. *)
Context (answers : nat -> bytes * option ioerr).

Fixpoint fill (attempts : nat) (r : Reader) : Reader :=
  match attempts with
  | 0 => mkReader (pending r) (Some ErrNoProgress) (reads r)
  | S attempts =>
      let '(chunk, e) := answers (reads r) in
      let r := mkReader (pending r ++ chunk) e (S (reads r)) in
      match e, chunk with
      | None, [] => fill attempts r
      | _, _ => r
      end
  end.

(** A byte of the buffer, or the pending error, which is cleared. *)
Definition take_byte (r : Reader) : option ((ioerr + ascii) * Reader) :=
  match pending r with
  | b :: bs => Some (inr b, mkReader bs (err r) (reads r))
  | [] =>
      match err r with
      | Some e => Some (inl e, mkReader [] None (reads r))
      | None => None
      end
  end.

Definition readByte (r : Reader) : (ioerr + ascii) * Reader :=
  match take_byte r with
  | Some a => a
  | None =>
      let r := fill maxConsecutiveEmptyReads r in
      match take_byte r with
      | Some a => a
      | None => (inl ErrNoProgress, r)
      end
  end.

Definition Reader_source : ByteSource Reader := {|
  ReadByte := readByte;
  UnreadByte b r := mkReader (b :: pending r) (err r) (reads r) |}.
#[local] Existing Instance Reader_source.

(** One fill answers: the last branch of [readByte] is not reached. *)
Lemma fill_take attempts r : take_byte (fill attempts r) <> None.
Proof.
  revert r. induction attempts as [|k IH]; intros r; cbn [fill].
  { unfold take_byte. cbn. by destruct (pending r). }
  destruct (answers (reads r)) as [chunk [e|]].
  - unfold take_byte. cbn. by destruct (pending r ++ chunk).
  - destruct chunk as [|c chunk]; [apply IH|]. unfold take_byte. cbn. by destruct (pending r ++ c :: chunk) eqn:E; [destruct (pending r)|].
Qed.

(** The [k] reads from [n] on are empty, fewer than [bufio] bears. *)
Definition empties (n k : nat) : Prop :=
  k < maxConsecutiveEmptyReads /\ forall m, n <= m < n + k -> answers m = ([], None).

(** From read [n] on, the reader yields [bs] and then [e] on every read. *)
Inductive yields (e : ioerr) : nat -> bytes -> Prop :=
| yields_end n k : empties n k -> (forall m, n + k <= m -> answers m = ([], Some e)) -> yields e n []
| yields_last n k c chunk : empties n k -> answers (n + k) = (c :: chunk, Some e) ->
    (forall m, n + k < m -> answers m = ([], Some e)) -> yields e n (c :: chunk)
| yields_more n k c chunk bs : empties n k -> answers (n + k) = (c :: chunk, None) ->
    yields e (S (n + k)) bs -> yields e n ((c :: chunk) ++ bs).

Definition reader_delivers (r : Reader) (bs : bytes) (e : ioerr) : Prop :=
  (err r = None /\ exists bs', bs = pending r ++ bs' /\ yields e (reads r) bs') \/
  (err r = Some e /\ bs = pending r /\ forall m, reads r <= m -> answers m = ([], Some e)).

Lemma fill_S attempts r :
  fill (S attempts) r =
  let '(chunk, e) := answers (reads r) in
  let r := mkReader (pending r ++ chunk) e (S (reads r)) in
  match e, chunk with None, [] => fill attempts r | _, _ => r end.
Proof. done. Qed.

Lemma fill_empty k attempts n p :
  (forall m, n <= m < n + k -> answers m = ([], None)) ->
  fill (k + attempts) (mkReader p None n) = fill attempts (mkReader p None (n + k)).
Proof.
  revert n p. induction k as [|k IH]; intros n p Hk; [by rewrite Nat.add_0_r|].
  cbn [Nat.add]. rewrite fill_S. cbn [reads pending]. rewrite (Hk n) by lia. rewrite app_nil_r, IH; [f_equal; f_equal; lia|].
  intros m Hm. apply Hk. lia.
Qed.

Lemma fill_yields e n bs r :
  yields e n bs -> pending r = [] -> err r = None -> reads r = n ->
  reader_delivers (fill maxConsecutiveEmptyReads r) bs e /\
  (bs <> [] -> pending (fill maxConsecutiveEmptyReads r) <> []) /\
  (bs = [] -> err (fill maxConsecutiveEmptyReads r) = Some e).
Proof.
  destruct r as [p er n']. cbn [pending err reads]. intros Hy -> -> ->.
  assert (forall k, empties n k -> fill maxConsecutiveEmptyReads (mkReader [] None n) =
    fill (S (maxConsecutiveEmptyReads - k - 1)) (mkReader [] None (n + k))) as Hskip.
  { intros k [Hk Hm]. replace maxConsecutiveEmptyReads with (k + S (maxConsecutiveEmptyReads - k - 1)) at 1 by lia.
    by apply fill_empty. }
  destruct Hy as [n k Hk Hn|n k c chunk Hk Hc Hn|n k c chunk bs Hk Hc Hy];
    rewrite (Hskip k Hk), fill_S; cbn [reads pending].
  - rewrite (Hn (n + k)) by lia. split; [right|by split]. cbn. split_and!; [done..|]. intros m Hm. apply Hn. lia.
  - rewrite Hc. split; [right|by split]. cbn. split_and!; [done..|]. intros m Hm. apply Hn. lia.
  - rewrite Hc. split; [left|by split]. cbn. split; [done|]. by exists bs.
Qed.

Lemma take_byte_delivers r bs e :
  reader_delivers r bs e -> pending r <> [] \/ err r <> None ->
  match bs with
  | [] => exists r', take_byte r = Some (inl e, r') /\ reader_delivers r' [] e
  | b :: bs => exists r', take_byte r = Some (inr b, r') /\ reader_delivers r' bs e
  end.
Proof.
  destruct r as [p er n]. unfold reader_delivers, take_byte. cbn. intros [[-> (bs' & -> & Hy)]|(-> & -> & Hn)] Hne.
  - destruct p as [|b p]; [by destruct Hne|]. cbn. eexists. split; [done|]. left. split; [done|]. by exists bs'.
  - destruct p as [|b p].
    + eexists. split; [done|]. left. cbn. split; [done|]. exists []. split; [done|].
      apply (yields_end _ _ 0); [split; [unfold maxConsecutiveEmptyReads; lia|lia]|]. intros m Hm. apply Hn. lia.
    + eexists. split; [done|]. by right.
Qed.

Lemma readByte_delivers r bs e :
  reader_delivers r bs e ->
  match bs with
  | [] => exists r', readByte r = (inl e, r') /\ reader_delivers r' [] e
  | b :: bs => exists r', readByte r = (inr b, r') /\ reader_delivers r' bs e
  end.
Proof.
  intros Hr. unfold readByte.
  destruct (decide (pending r <> [] \/ err r <> None)) as [Hd|Hd].
  { pose proof (take_byte_delivers r bs e Hr Hd) as H. destruct bs; destruct H as (r' & -> & Hr'); by exists r'. }
  assert (pending r = [] /\ err r = None) as [Ep Ee] by (destruct (pending r), (err r); naive_solver).
  assert (take_byte r = None) as -> by (unfold take_byte; by rewrite Ep, Ee).
  destruct Hr as [[_ (bs' & -> & Hy)]|(E & _)]; [|congruence]. rewrite Ep. cbn [app].
  destruct (fill_yields e _ bs' r Hy Ep Ee eq_refl) as (Hd' & Hne & Hnil).
  assert (pending (fill maxConsecutiveEmptyReads r) <> [] \/ err (fill maxConsecutiveEmptyReads r) <> None) as Hd2.
  { destruct bs'; [right; by rewrite Hnil|left; by apply Hne]. }
  pose proof (take_byte_delivers _ bs' e Hd' Hd2) as H.
  destruct bs'; destruct H as (r' & -> & Hr'); by exists r'.
Qed.

Definition Reader_laws : ByteSourceLaws Reader.
Proof.
  refine {| delivers := reader_delivers |}.
  - intros r b bs e H. by apply (readByte_delivers r (b :: bs) e).
  - intros r e H. by apply (readByte_delivers r [] e).
  - intros [p er n] b bs e [[? (bs' & -> & Hy)]|(? & -> & ?)]; cbn in *.
    + left. split; [done|]. by exists bs'.
    + by right.
Defined.

End Reader.

End Bufio.
