(* ===== verification/XargsInput.v ===== *)
(** Facts of the tokenizer of xargs: it depends on its reader only through the
    bytes delivered, it terminates, its tokens respect the cap, and names written
    with separators or quotes are read back. *)

From S2P Require Import Prelude BoundedReplace Bufio.
From stdpp Require Import base list strings.
From Stdlib Require Import ZArith Lia Ascii.

(** The tokenizer of [xargs] (builtins/xargs/xargs.go): NUL, delimiter, line and
    whitespace modes over a [ByteSource], with the cap on a token, the polls of
    the context and the end-of-input marker. *)

Module XargsTok.
Import Bufio.

Definition MaxTokenBytes : Z := Z.shiftl 1 20.
Definition ctxCheckEvery : Z := 4096.

Inductive modeKind := modeWhitespace | modeNull | modeDelim | modeLine.

Record options := mkOptions {
  mode : modeKind; delim : ascii; argFile : bytes; eofStr : bytes; replStr : bytes;
  maxLines : Z; maxArgs : Z; maxChars : Z; noRunEmpty : bool; verbose : bool; exitOnSize : bool;
  cmdName : bytes; initialArgs : list bytes }.

(** The errors of [next]: the context's, the reader's, and the two of its own. *)
Inductive tokErr := ECtx | ERead (e : ioerr) | ETooLong | EUnterminated (quote : ascii).

Inductive tokRes := TErr (e : tokErr) | TEnd | TItem (item : bytes) (endedLine : bool).

Section Tokenizer.
(** [ctxErr n]: the [n]th time the context is polled, it is cancelled. *)
Context {R : Type} `{ByteSource R} (ctxErr : nat -> bool) (o : options).

Record tokenizer := mkTok {
  rd : R; buf : bytes; eof : bool; bytesSeen : Z; atLineStart : bool;
  nulSeen : bool; nulWarned : bool; polls : nat }.

Definition newTokenizer (r : R) (polls : nat) : tokenizer := mkTok r [] false 0 true false false polls.

Definition set_rd (r : R) (t : tokenizer) : tokenizer :=
  mkTok r (buf t) (eof t) (bytesSeen t) (atLineStart t) (nulSeen t) (nulWarned t) (polls t).
Definition set_buf (b : bytes) (t : tokenizer) : tokenizer :=
  mkTok (rd t) b (eof t) (bytesSeen t) (atLineStart t) (nulSeen t) (nulWarned t) (polls t).
Definition set_eof (t : tokenizer) : tokenizer :=
  mkTok (rd t) (buf t) true (bytesSeen t) (atLineStart t) (nulSeen t) (nulWarned t) (polls t).
Definition set_lineStart (b : bool) (t : tokenizer) : tokenizer :=
  mkTok (rd t) (buf t) (eof t) (bytesSeen t) b (nulSeen t) (nulWarned t) (polls t).
Definition set_nulSeen (t : tokenizer) : tokenizer :=
  mkTok (rd t) (buf t) (eof t) (bytesSeen t) (atLineStart t) true (nulWarned t) (polls t).
Definition set_nulWarned (t : tokenizer) : tokenizer :=
  mkTok (rd t) (buf t) (eof t) (bytesSeen t) (atLineStart t) (nulSeen t) true (polls t).
Definition set_polls (n : nat) (t : tokenizer) : tokenizer :=
  mkTok (rd t) (buf t) (eof t) (bytesSeen t) (atLineStart t) (nulSeen t) (nulWarned t) n.

(** [ctx.Err() != nil]. *)
Definition ctxDone (t : tokenizer) : bool * tokenizer := (ctxErr (polls t), set_polls (S (polls t)) t).

Definition pollCtx (t : tokenizer) : bool * tokenizer :=
  let t := mkTok (rd t) (buf t) (eof t) (bytesSeen t + 1) (atLineStart t) (nulSeen t) (nulWarned t) (polls t) in
  if (bytesSeen t mod ctxCheckEvery =? 0)%Z then ctxDone t else (false, t).

(** [None] is the error of a token at the cap. *)
Definition pushByte (b : ascii) (t : tokenizer) : option tokenizer :=
  if (MaxTokenBytes <=? Z.of_nat (length (buf t)))%Z then None else Some (set_buf (buf t ++ [b]) t).

(** A poll and a read, as at the head of every loop; the end of the input is
    recorded in [eof]. *)
Inductive got := GErr (e : tokErr) | GEof | GByte (b : ascii).

Definition pollRead (t : tokenizer) : got * tokenizer :=
  let '(cancelled, t) := pollCtx t in
  if cancelled : bool then (GErr ECtx, t)
  else
    let '(a, r) := ReadByte (rd t) in
    let t := set_rd r t in
    match a with
    | inl EOF => (GEof, set_eof t)
    | inl e => (GErr (ERead e), t)
    | inr b => (GByte b, t)
    end.

Definition isEofMarker (token : bytes) : bool :=
  match eofStr o with [] => false | _ => bytes_eqb token (eofStr o) end.

Definition isWhitespace (b : ascii) : bool := (b =c " ") || (b =c ch_tab) || (b =c ch_nl).

(** A finished token, unless it is the end-of-input marker. *)
Definition emitToken (endedLine : bool) (t : tokenizer) : tokRes * tokenizer :=
  if isEofMarker (buf t) then (TEnd, set_eof t) else (TItem (buf t) endedLine, t).

(** [pushByte] and the loop goes on. *)
Definition pushThen (b : ascii) (t : tokenizer) (go : tokenizer -> option (tokRes * tokenizer))
    : option (tokRes * tokenizer) :=
  match pushByte b t with None => Some (TErr ETooLong, t) | Some t => go t end.

(** The body of the loop of [nextDelimited]; [None] is out of fuel. *)
Fixpoint delimLoop (fuel : nat) (sep : ascii) (truncated sawByte : bool) (t : tokenizer)
    : option (tokRes * tokenizer) :=
  match fuel with
  | 0 => None
  | S fuel =>
      let '(g, t) := pollRead t in
      match g with
      | GErr e => Some (TErr e, t)
      | GEof => Some (if sawByte then (TItem (buf t) true, t) else (TEnd, t))
      | GByte b =>
          if Ascii.eqb b sep then Some (TItem (buf t) true, t)
          else if b =c "000" then delimLoop fuel sep true true t
          else if truncated then delimLoop fuel sep truncated true t
          else pushThen b t (delimLoop fuel sep truncated true)
      end
  end.

Definition nextDelimited (fuel : nat) (sep : ascii) (t : tokenizer) : option (tokRes * tokenizer) :=
  delimLoop fuel sep false false (set_buf [] t).

(** The leading blanks of both quoting modes; with [track], a newline is
    remembered in [atLineStart].  [inl] ends the token, [inr] goes on. *)
Fixpoint skipBlanks (fuel : nat) (track : bool) (t : tokenizer) : option (tokRes + unit) * tokenizer :=
  match fuel with
  | 0 => (None, t)
  | S fuel =>
      let '(g, t) := pollRead t in
      match g with
      | GErr e => (Some (inl (TErr e)), t)
      | GEof => (Some (inl TEnd), t)
      | GByte b =>
          if isWhitespace b then
            skipBlanks fuel track (if track && (b =c ch_nl) then set_lineStart true t else t)
          else (Some (inr tt), set_rd (UnreadByte b (rd t)) t)
      end
  end.

(** A byte inside quotes. *)
Definition stepQuoted (quote b : ascii) (t : tokenizer)
    (go : option ascii -> tokenizer -> option (tokRes * tokenizer)) : option (tokRes * tokenizer) :=
  if Ascii.eqb b quote then go None t
  else if b =c ch_nl then Some (TErr (EUnterminated quote), t)
  else pushThen b t (go (Some quote)).

(** The byte after a backslash; a backslash at the end of the input is dropped. *)
Definition stepEscape (t : tokenizer)
    (go : option ascii -> tokenizer -> option (tokRes * tokenizer)) : option (tokRes * tokenizer) :=
  let '(a, r) := ReadByte (rd t) in
  let t := set_rd r t in
  match a with
  | inl EOF => go None t
  | inl e => Some (TErr (ERead e), t)
  | inr n => pushThen n t (go None)
  end.

(** [skipToNewline]: past the next newline, or to the end of the input. *)
Fixpoint skipToNewline (fuel : nat) (t : tokenizer) : option (option tokErr * tokenizer) :=
  match fuel with
  | 0 => None
  | S fuel =>
      let '(g, t) := pollRead t in
      match g with
      | GErr e => Some (Some e, t)
      | GEof => Some (None, t)
      | GByte b => if b =c ch_nl then Some (None, set_lineStart true t) else skipToNewline fuel t
      end
  end.

(** [skipToWhitespace]: up to the next blank, which is left to be read; the flag
    says that it is a newline. *)
Fixpoint skipToWhitespace (fuel : nat) (t : tokenizer) : option ((tokErr + bool) * tokenizer) :=
  match fuel with
  | 0 => None
  | S fuel =>
      let '(g, t) := pollRead t in
      match g with
      | GErr e => Some (inl e, t)
      | GEof => Some (inr false, t)
      | GByte b =>
          if isWhitespace b then
            let t := if b =c ch_nl then set_lineStart true t else t in
            Some (inr (b =c ch_nl), set_rd (UnreadByte b (rd t)) t)
          else skipToWhitespace fuel t
      end
  end.

Fixpoint lineLoop (fuel : nat) (quote : option ascii) (t : tokenizer) : option (tokRes * tokenizer) :=
  match fuel with
  | 0 => None
  | S fuel =>
      let '(g, t) := pollRead t in
      match g, quote with
      | GErr e, _ => Some (TErr e, t)
      | GEof, Some q => Some (TErr (EUnterminated q), t)
      | GEof, None => Some (match buf t with [] => (TEnd, t) | _ => emitToken true t end)
      | GByte b, Some q => stepQuoted q b t (lineLoop fuel)
      | GByte b, None =>
          if (b =c ch_sq) || (b =c ch_dq) then lineLoop fuel (Some b) t
          else if b =c ch_bs then stepEscape t (lineLoop fuel)
          else if b =c ch_nl then Some (emitToken true t)
          else if b =c "000" then
            match skipToNewline fuel (set_nulSeen t) with
            | None => None
            | Some (Some e, t) => Some (TErr e, t)
            | Some (None, t) => Some (emitToken true t)
            end
          else pushThen b t (lineLoop fuel None)
      end
  end.

Definition nextLine (fuel : nat) (t : tokenizer) : option (tokRes * tokenizer) :=
  let '(a, t) := skipBlanks fuel false (set_buf [] t) in
  match a with
  | None => None
  | Some (inl r) => Some (r, t)
  | Some (inr _) => lineLoop fuel None t
  end.

Fixpoint wordLoop (fuel : nat) (startsLine : bool) (quote : option ascii) (t : tokenizer)
    : option (tokRes * tokenizer) :=
  match fuel with
  | 0 => None
  | S fuel =>
      let '(g, t) := pollRead t in
      match g, quote with
      | GErr e, _ => Some (TErr e, t)
      | GEof, Some q => Some (TErr (EUnterminated q), t)
      | GEof, None =>
          Some (match buf t with
                | [] => (TEnd, t)
                | _ => if isEofMarker (buf t) && startsLine then (TEnd, set_eof t) else (TItem (buf t) true, t)
                end)
      | GByte b, Some q => stepQuoted q b t (wordLoop fuel startsLine)
      | GByte b, None =>
          if (b =c ch_sq) || (b =c ch_dq) then wordLoop fuel startsLine (Some b) t
          else if b =c ch_bs then stepEscape t (wordLoop fuel startsLine)
          else if b =c "000" then
            match skipToWhitespace fuel (set_nulSeen t) with
            | None => None
            | Some (inl e, t) => Some (TErr e, t)
            | Some (inr sawNewline, t) => Some (emitToken sawNewline t)
            end
          else if isWhitespace b then Some (emitToken (b =c ch_nl) (set_lineStart (b =c ch_nl) t))
          else pushThen b (set_lineStart false t) (wordLoop fuel startsLine None)
      end
  end.

Definition nextWhitespace (fuel : nat) (t : tokenizer) : option (tokRes * tokenizer) :=
  let '(a, t) := skipBlanks fuel true (set_buf [] t) in
  match a with
  | None => None
  | Some (inl r) => Some (r, t)
  | Some (inr _) => wordLoop fuel (atLineStart t) None t
  end.

Definition next (fuel : nat) (t : tokenizer) : option (tokRes * tokenizer) :=
  if eof t then Some (TEnd, t)
  else match mode o with
       | modeNull => nextDelimited fuel "000" t
       | modeDelim => nextDelimited fuel (delim o) t
       | modeLine => nextLine fuel t
       | modeWhitespace => nextWhitespace fuel t
       end.

End Tokenizer.

Arguments tokenizer : clear implicits.

End XargsTok.

Module XargsInput.
Import BoundedReplace Bufio XargsTok.

(** ** The reference source: a list of bytes, then [e] *)

Definition listRead (e : ioerr) (bs : bytes) : (ioerr + ascii) * bytes :=
  match bs with [] => (inl e, []) | b :: bs => (inr b, bs) end.

Definition list_source (e : ioerr) : ByteSource bytes :=
  {| ReadByte := listRead e; UnreadByte := cons |}.

(** ** Every source that delivers the same bytes gives the same tokens *)

Section Simulation.
(** The two sides may count their polls differently, as long as the answers to
    come are the same. *)
Context {R : Type} `{ByteSourceLaws R} (ctxErr ctxErr' : nat -> bool) (o : options) (e : ioerr).

#[local] Hint Extern 0 (ByteSource bytes) => exact (list_source e) : typeclass_instances.

Record related (t : tokenizer R) (u : tokenizer bytes) : Prop := {
  rel_rd : delivers (rd t) (rd u) e;
  rel_buf : buf t = buf u;
  rel_eof : eof t = eof u;
  rel_seen : bytesSeen t = bytesSeen u;
  rel_line : atLineStart t = atLineStart u;
  rel_nul : nulSeen t = nulSeen u;
  rel_polls k : ctxErr (polls t + k) = ctxErr' (polls u + k) }.

(** Two results agree: equal answers, related states. *)
Inductive agree {A} : option (A * tokenizer R) -> option (A * tokenizer bytes) -> Prop :=
| agree_none : agree None None
| agree_some a t u : related t u -> agree (Some (a, t)) (Some (a, u)).

Hint Constructors agree : core.

Lemma related_set_rd t u r bs : related t u -> delivers r bs e -> related (set_rd r t) (set_rd bs u).
Proof. by intros [] ?; split. Qed.
Lemma related_set_buf t u b : related t u -> related (set_buf b t) (set_buf b u).
Proof. by intros []; split. Qed.
Lemma related_set_eof t u : related t u -> related (set_eof t) (set_eof u).
Proof. by intros []; split. Qed.
Lemma related_set_lineStart t u b : related t u -> related (set_lineStart b t) (set_lineStart b u).
Proof. by intros []; split. Qed.
Lemma related_set_nulSeen t u : related t u -> related (set_nulSeen t) (set_nulSeen u).
Proof. by intros []; split. Qed.
Lemma related_set_nulWarned t u : related t u -> related (set_nulWarned t) (set_nulWarned u).
Proof. by intros []; split. Qed.
Lemma related_ctxDone t u : related t u ->
  fst (ctxDone ctxErr t) = fst (ctxDone ctxErr' u) /\
  related (snd (ctxDone ctxErr t)) (snd (ctxDone ctxErr' u)).
Proof.
  intros []. cbn. split; [specialize (rel_polls0 0); by rewrite !Nat.add_0_r in rel_polls0|].
  split; try done. cbn. intros k. rewrite <- !Nat.add_succ_r. apply rel_polls0.
Qed.
Lemma related_unread t u b : related t u -> related (set_rd (UnreadByte b (rd t)) t) (set_rd (b :: rd u) u).
Proof. intros Hr. apply related_set_rd; [done|]. apply delivers_unread, Hr. Qed.

Hint Resolve related_set_rd related_set_buf related_set_eof related_set_lineStart
  related_set_nulSeen related_set_nulWarned related_unread : core.

Lemma readByte_related t u : related t u ->
  exists a r, ReadByte (rd t) = (a, r) /\ exists bs, ReadByte (rd u) = (a, bs) /\ delivers r bs e.
Proof.
  intros Hr. destruct (rd u) as [|b bs] eqn:E.
  - destruct (delivers_nil (rd t) e) as (r & E1 & Hd); [rewrite <- E; apply Hr|]. eauto 6.
  - destruct (delivers_cons (rd t) b bs e) as (r & E1 & Hd); [rewrite <- E; apply Hr|]. eauto 6.
Qed.

Lemma pollCtx_related t u : related t u ->
  fst (pollCtx ctxErr t) = fst (pollCtx ctxErr' u) /\
  related (snd (pollCtx ctxErr t)) (snd (pollCtx ctxErr' u)).
Proof.
  intros Hr. unfold pollCtx. cbv zeta. cbn [bytesSeen]. rewrite <- (rel_seen _ _ Hr).
  destruct (_ =? 0)%Z.
  - apply related_ctxDone. destruct Hr. by split.
  - split; [done|]. destruct Hr. by split.
Qed.

Lemma pollRead_related t u : related t u -> 
  fst (pollRead ctxErr t) = fst (pollRead ctxErr' u) /\
  related (snd (pollRead ctxErr t)) (snd (pollRead ctxErr' u)).
Proof.
  intros Hr. unfold pollRead. pose proof (pollCtx_related t u Hr) as [Ef Hr'].
  destruct (pollCtx ctxErr t) as [c t'], (pollCtx ctxErr' u) as [c' u']. cbn in Ef, Hr'. subst c'.
  destruct c; [by split|].
  destruct (readByte_related t' u' Hr') as (a & r & -> & bs & -> & Hd).
  destruct a as [[]|]; cbn; (split; [done|eauto]).
Qed.

Lemma pushThen_agree b t u f g :
  related t u -> (forall t u, related t u -> agree (f t) (g u)) ->
  agree (pushThen b t f) (pushThen b u g).
Proof.
  intros Hr Hfg. unfold pushThen, pushByte. rewrite (rel_buf _ _ Hr). by destruct (_ <=? _)%Z; auto.
Qed.

Lemma emitToken_agree b t u : related t u -> agree (Some (emitToken o b t)) (Some (emitToken o b u)).
Proof. intros Hr. unfold emitToken. rewrite (rel_buf _ _ Hr). destruct (isEofMarker o (buf u)); auto. Qed.

(** One step of a loop: both sides poll and read the same. *)
Ltac both_read Hr :=
  let Ef := fresh in let Hr' := fresh "Hr" in
  pose proof (pollRead_related _ _ Hr) as [Ef Hr'];
  match type of Ef with fst ?x = fst ?y =>
    let g := fresh "g" in let t := fresh "t" in let g' := fresh in let u := fresh "u" in
    destruct x as [g t], y as [g' u]; cbn [fst snd] in Ef, Hr'; subst g'; destruct g
  end.

Lemma delimLoop_agree fuel sep tr saw t u : related t u ->
  agree (delimLoop ctxErr fuel sep tr saw t) (delimLoop ctxErr' fuel sep tr saw u).
Proof.
  revert tr saw t u. induction fuel as [|fuel IH]; intros tr saw t u Hr; cbn [delimLoop]; [done|].
  both_read Hr; [auto|destruct saw; rewrite ?(rel_buf _ _ Hr0); auto|].
  destruct (Ascii.eqb b sep); [rewrite (rel_buf _ _ Hr0); auto|].
  destruct (b =c "000"); [auto|]. destruct tr; [auto|]. apply pushThen_agree; auto.
Qed.

Lemma skipBlanks_agree fuel track t u : related t u ->
  fst (skipBlanks ctxErr fuel track t) = fst (skipBlanks ctxErr' fuel track u) /\
  related (snd (skipBlanks ctxErr fuel track t)) (snd (skipBlanks ctxErr' fuel track u)).
Proof.
  revert t u. induction fuel as [|fuel IH]; intros t u Hr; cbn [skipBlanks]; [done|].
  both_read Hr; [done..|]. destruct (isWhitespace b); [|split; [done|by apply related_unread]].
  apply IH. destruct (track && _); auto.
Qed.

Lemma stepQuoted_agree q b t u f g :
  related t u -> (forall q t u, related t u -> agree (f q t) (g q u)) ->
  agree (stepQuoted q b t f) (stepQuoted q b u g).
Proof.
  intros Hr Hfg. unfold stepQuoted. destruct (Ascii.eqb b q); [auto|]. destruct (b =c ch_nl); [auto|].
  by apply pushThen_agree; auto.
Qed.

Lemma stepEscape_agree t u f g :
  related t u -> (forall q t u, related t u -> agree (f q t) (g q u)) ->
  agree (stepEscape t f) (stepEscape u g).
Proof.
  intros Hr Hfg. unfold stepEscape. destruct (readByte_related t u Hr) as (a & r & -> & bs & -> & Hd).
  destruct a as [[]|]; auto. apply pushThen_agree; auto.
Qed.

Lemma skipToNewline_agree fuel t u : related t u ->
  agree (skipToNewline ctxErr fuel t) (skipToNewline ctxErr' fuel u).
Proof.
  revert t u. induction fuel as [|fuel IH]; intros t u Hr; cbn [skipToNewline]; [done|].
  both_read Hr; [auto..|]. destruct (b =c ch_nl); auto.
Qed.

Lemma skipToWhitespace_agree fuel t u : related t u ->
  agree (skipToWhitespace ctxErr fuel t) (skipToWhitespace ctxErr' fuel u).
Proof.
  revert t u. induction fuel as [|fuel IH]; intros t u Hr; cbn [skipToWhitespace]; [done|].
  both_read Hr; [auto..|]. destruct (isWhitespace b); [|auto].
  constructor. destruct (b =c ch_nl); [|by apply related_unread].
  by apply related_unread, related_set_lineStart.
Qed.

Lemma lineLoop_agree fuel q t u : related t u ->
  agree (lineLoop ctxErr o fuel q t) (lineLoop ctxErr' o fuel q u).
Proof.
  revert q t u. induction fuel as [|fuel IH]; intros q t u Hr; cbn [lineLoop]; [done|].
  both_read Hr; [auto| |].
  { destruct q; [auto|]. rewrite (rel_buf _ _ Hr0). destruct (buf u0); [auto|by apply emitToken_agree]. }
  destruct q; [by apply stepQuoted_agree|].
  destruct (_ || _); [auto|]. destruct (b =c ch_bs); [by apply stepEscape_agree|].
  destruct (b =c ch_nl); [by apply emitToken_agree|].
  destruct (b =c "000"); [|by apply pushThen_agree; auto].
  destruct (skipToNewline_agree fuel _ _ (related_set_nulSeen _ _ Hr0)) as [|[] ?? ?]; auto.
  by apply emitToken_agree.
Qed.

Lemma wordLoop_agree fuel s q t u : related t u ->
  agree (wordLoop ctxErr o fuel s q t) (wordLoop ctxErr' o fuel s q u).
Proof.
  revert q t u. induction fuel as [|fuel IH]; intros q t u Hr; cbn [wordLoop]; [done|].
  both_read Hr; [auto| |].
  { destruct q; [auto|]. rewrite (rel_buf _ _ Hr0). destruct (buf u0); [auto|]. destruct (_ && _); auto. }
  destruct q; [by apply stepQuoted_agree|].
  destruct (_ || _); [auto|]. destruct (b =c ch_bs); [by apply stepEscape_agree|].
  destruct (b =c "000").
  { destruct (skipToWhitespace_agree fuel _ _ (related_set_nulSeen _ _ Hr0)) as [|[] ?? ?]; auto.
    by apply emitToken_agree. }
  destruct (isWhitespace b); [by apply emitToken_agree; auto|apply pushThen_agree; auto].
Qed.

Lemma next_agree fuel t u : related t u -> agree (next ctxErr o fuel t) (next ctxErr' o fuel u).
Proof.
  intros Hr. unfold next, nextDelimited, nextLine, nextWhitespace. rewrite (rel_eof _ _ Hr).
  destruct (eof u); [auto|]. pose proof (related_set_buf _ _ [] Hr) as Hb.
  destruct (mode o); [|by apply delimLoop_agree..|].
  - destruct (skipBlanks_agree fuel true _ _ Hb) as [Ef Hr'].
    destruct (skipBlanks ctxErr fuel true (set_buf [] t)) as [a t'], (skipBlanks ctxErr' fuel true (set_buf [] u)) as [a' u'].
    cbn in Ef, Hr'. subst a'. destruct a as [[]|]; auto. rewrite (rel_line _ _ Hr'). by apply wordLoop_agree.
  - destruct (skipBlanks_agree fuel false _ _ Hb) as [Ef Hr'].
    destruct (skipBlanks ctxErr fuel false (set_buf [] t)) as [a t'], (skipBlanks ctxErr' fuel false (set_buf [] u)) as [a' u'].
    cbn in Ef, Hr'. subst a'. destruct a as [[]|]; auto. by apply lineLoop_agree.
Qed.

End Simulation.

(** ** Termination and progress on the reference source *)

Section Progress.
Context (ctxErr : nat -> bool) (o : options) (e : ioerr).
#[local] Hint Extern 0 (ByteSource bytes) => exact (list_source e) : typeclass_instances.
Implicit Types u : tokenizer bytes.

(** With [n] bytes left before, a result with no more bytes left after, and an
    item only at the end of the input or for at least one byte. *)
Definition lands (n : nat) (x : option (tokRes * tokenizer bytes)) : Prop :=
  exists r u, x = Some (r, u) /\ length (rd u) <= n /\
    match r with TItem _ _ => eof u = true \/ length (rd u) < n | _ => True end.

Lemma lands_mono n m x : lands n x -> n <= m -> lands m x.
Proof.
  intros (r & u & -> & Hu & Hr) Hnm. exists r, u. split; [done|]. split; [lia|].
  destruct r; [done..|]. destruct Hr; [by left|right; lia].
Qed.

Lemma pollRead_list u :
  match pollRead ctxErr u with
  | (GErr _, u') => rd u' = rd u \/ rd u' = []
  | (GEof, u') => rd u' = [] /\ eof u' = true
  | (GByte b, u') => rd u = b :: rd u'
  end.
Proof.
  unfold pollRead, pollCtx, ctxDone. destruct (_ =? 0)%Z; cbn; [destruct (ctxErr _); [by left|]|];
    cbn; destruct (rd u) eqn:E; destruct e; cbn; auto.
Qed.

(** One read at the head of a loop over [u]. *)
Ltac list_read u :=
  let E := fresh "E" in
  pose proof (pollRead_list u) as E; destruct (pollRead ctxErr u) as [[] ?]; cbn [length] in *.

Lemma lands_err n er u : length (rd u) <= n -> lands n (Some (TErr er, u)).
Proof. by exists (TErr er), u. Qed.
Lemma lands_end n u : length (rd u) <= n -> lands n (Some (TEnd, u)).
Proof. by exists TEnd, u. Qed.
Lemma lands_item n i b u : length (rd u) < n -> lands n (Some (TItem i b, u)).
Proof. intros. exists (TItem i b), u. split; [done|]. split; [lia|by right]. Qed.
Lemma lands_eof n i b u : length (rd u) <= n -> eof u = true -> lands n (Some (TItem i b, u)).
Proof. intros. exists (TItem i b), u. split; [done|]. split; [lia|by left]. Qed.
Hint Resolve lands_err lands_end lands_item lands_eof : core.

Lemma emitToken_lands n b u : length (rd u) < n -> lands n (Some (emitToken o b u)).
Proof. intros. unfold emitToken. destruct (isEofMarker o (buf u)); [apply lands_end; cbn; lia|auto]. Qed.

Lemma pushThen_lands n b u f :
  length (rd u) <= n -> (forall v, rd v = rd u -> lands n (f v)) -> lands n (pushThen b u f).
Proof. intros Hn Hf. unfold pushThen, pushByte. destruct (_ <=? _)%Z; [auto|by apply Hf]. Qed.

Lemma stepQuoted_lands n q b u f :
  length (rd u) <= n -> (forall q v, rd v = rd u -> lands n (f q v)) -> lands n (stepQuoted q b u f).
Proof.
  intros Hn Hf. unfold stepQuoted. destruct (Ascii.eqb b q); [by apply Hf|]. destruct (b =c ch_nl); [auto|].
  by apply pushThen_lands; [|intros; apply Hf].
Qed.

Lemma stepEscape_lands n u f :
  length (rd u) <= n -> (forall q v, length (rd v) <= length (rd u) -> lands n (f q v)) -> lands n (stepEscape u f).
Proof.
  intros Hn Hf. unfold stepEscape. cbn. destruct (rd u) as [|b bs] eqn:E; cbn.
  - destruct e; [apply Hf; done|apply lands_err; cbn; lia..].
  - cbn in Hn, Hf. apply pushThen_lands; cbn; [lia|]. intros v Ev. apply Hf. rewrite Ev. cbn. lia.
Qed.

Lemma delimLoop_lands fuel sep tr saw u :
  length (rd u) < fuel -> lands (length (rd u)) (delimLoop ctxErr fuel sep tr saw u).
Proof.
  revert tr saw u. induction fuel as [|fuel IH]; intros tr saw u Hu; [lia|]. cbn [delimLoop].
  assert (forall tr saw v, S (length (rd v)) = length (rd u) -> lands (length (rd u)) (delimLoop ctxErr fuel sep tr saw v)) as IH'.
  { intros tr' saw' v Hv. eapply lands_mono; [apply IH; lia|lia]. }
  list_read u.
  - apply lands_err. destruct E as [->| ->]; cbn; lia.
  - destruct E as [E1 E2]. destruct saw; [apply lands_eof|apply lands_end]; rewrite ?E1; cbn; auto; lia.
  - assert (S (length (rd t)) = length (rd u)) as El by (by rewrite E).
    destruct (Ascii.eqb b sep); [apply lands_item; lia|].
    destruct (b =c "000"); [by apply IH'|]. destruct tr; [by apply IH'|].
    apply pushThen_lands; [lia|]. intros v Ev. apply IH'. by rewrite Ev.
Qed.

Lemma skipBlanks_lands fuel track u : length (rd u) < fuel ->
  match skipBlanks ctxErr fuel track u with
  | (None, _) => False
  | (Some (inl r), u') => length (rd u') <= length (rd u) /\ match r with TItem _ _ => False | _ => True end
  | (Some (inr _), u') => length (rd u') <= length (rd u)
  end.
Proof.
  revert u. induction fuel as [|fuel IH]; intros u Hu; [lia|]. cbn [skipBlanks]. list_read u.
  - split; [|done]. destruct E as [->| ->]; cbn; lia.
  - destruct E as [-> _]. cbn. split; [lia|done].
  - assert (S (length (rd t)) = length (rd u)) as El by (by rewrite E).
    destruct (isWhitespace b); [|cbn; lia].
    set (v := if track && _ then _ else _).
    assert (rd v = rd t) as Ev by (unfold v; by destruct (track && _)).
    specialize (IH v). rewrite Ev in IH. specialize (IH ltac:(lia)).
    destruct (skipBlanks ctxErr fuel track v) as [[[r|]|] u']; [|lia|done]. split; [lia|apply IH].
Qed.

Lemma skipToNewline_lands fuel u : length (rd u) < fuel ->
  exists a u', skipToNewline ctxErr fuel u = Some (a, u') /\ length (rd u') <= length (rd u).
Proof.
  revert u. induction fuel as [|fuel IH]; intros u Hu; [lia|]. cbn [skipToNewline]. list_read u.
  - eexists _, _. split; [done|]. destruct E as [->| ->]; cbn; lia.
  - destruct E as [E _]. eexists _, _. split; [done|]. rewrite E. cbn. lia.
  - assert (S (length (rd t)) = length (rd u)) as El by (by rewrite E).
    destruct (b =c ch_nl); [eexists _, _; split; [done|cbn; lia]|].
    destruct (IH t) as (a & u' & -> & Hu'); [lia|]. eexists _, _. split; [done|lia].
Qed.

Lemma skipToWhitespace_lands fuel u : length (rd u) < fuel ->
  exists a u', skipToWhitespace ctxErr fuel u = Some (a, u') /\ length (rd u') <= length (rd u).
Proof.
  revert u. induction fuel as [|fuel IH]; intros u Hu; [lia|]. cbn [skipToWhitespace]. list_read u.
  - eexists _, _. split; [done|]. destruct E as [->| ->]; cbn; lia.
  - destruct E as [E _]. eexists _, _. split; [done|]. rewrite E. cbn. lia.
  - assert (S (length (rd t)) = length (rd u)) as El by (by rewrite E).
    destruct (isWhitespace b); [eexists _, _; split; [done|destruct (b =c ch_nl); cbn; lia]|].
    destruct (IH t) as (a & u' & -> & Hu'); [lia|]. eexists _, _. split; [done|lia].
Qed.

Lemma lineLoop_lands fuel q u :
  length (rd u) < fuel -> lands (length (rd u)) (lineLoop ctxErr o fuel q u).
Proof.
  revert q u. induction fuel as [|fuel IH]; intros q u Hu; [lia|]. cbn [lineLoop].
  assert (forall q v, length (rd v) < length (rd u) -> lands (length (rd u)) (lineLoop ctxErr o fuel q v)) as IH'.
  { intros q' v Hv. eapply lands_mono; [apply IH; lia|lia]. }
  list_read u.
  - apply lands_err. destruct E as [->| ->]; cbn; lia.
  - destruct E as [E1 E2]. destruct q; [apply lands_err; rewrite E1; cbn; lia|].
    destruct (buf t); [apply lands_end; rewrite E1; cbn; lia|]. unfold emitToken.
    destruct (isEofMarker o _); [apply lands_end|apply lands_eof]; cbn; rewrite ?E1; cbn; auto; lia.
  - assert (S (length (rd t)) = length (rd u)) as El by (by rewrite E).
    destruct q; [apply stepQuoted_lands; [lia|]; intros q' v Ev; apply IH'; rewrite Ev; lia|].
    destruct (_ || _); [apply IH'; lia|].
    destruct (b =c ch_bs); [apply stepEscape_lands; [lia|]; intros q' v Ev; apply IH'; lia|].
    destruct (b =c ch_nl); [apply emitToken_lands; lia|].
    destruct (b =c "000"); [|apply pushThen_lands; [lia|]; intros v Ev; apply IH'; rewrite Ev; lia].
    destruct (skipToNewline_lands fuel (set_nulSeen t)) as (a & u' & -> & Hu'); [cbn; lia|]. cbn in Hu'.
    destruct a; [apply lands_err; lia|apply emitToken_lands; lia].
Qed.

Lemma wordLoop_lands fuel s q u :
  length (rd u) < fuel -> lands (length (rd u)) (wordLoop ctxErr o fuel s q u).
Proof.
  revert q u. induction fuel as [|fuel IH]; intros q u Hu; [lia|]. cbn [wordLoop].
  assert (forall q v, length (rd v) < length (rd u) -> lands (length (rd u)) (wordLoop ctxErr o fuel s q v)) as IH'.
  { intros q' v Hv. eapply lands_mono; [apply IH; lia|lia]. }
  list_read u.
  - apply lands_err. destruct E as [->| ->]; cbn; lia.
  - destruct E as [E1 E2]. destruct q; [apply lands_err; rewrite E1; cbn; lia|].
    destruct (buf t); [apply lands_end; rewrite E1; cbn; lia|].
    destruct (_ && _); [apply lands_end|apply lands_eof]; cbn; rewrite ?E1; cbn; auto; lia.
  - assert (S (length (rd t)) = length (rd u)) as El by (by rewrite E).
    destruct q; [apply stepQuoted_lands; [lia|]; intros q' v Ev; apply IH'; rewrite Ev; lia|].
    destruct (_ || _); [apply IH'; lia|].
    destruct (b =c ch_bs); [apply stepEscape_lands; [lia|]; intros q' v Ev; apply IH'; lia|].
    destruct (b =c "000").
    { destruct (skipToWhitespace_lands fuel (set_nulSeen t)) as (a & u' & -> & Hu'); [cbn; lia|]. cbn in Hu'.
      destruct a; [apply lands_err; lia|apply emitToken_lands; lia]. }
    destruct (isWhitespace b); [apply emitToken_lands; cbn; lia|].
    apply pushThen_lands; [cbn; lia|]. cbn. intros v Ev. apply IH'. rewrite Ev. lia.
Qed.

Lemma next_lands fuel u : length (rd u) < fuel -> lands (length (rd u)) (next ctxErr o fuel u).
Proof.
  intros Hu. unfold next, nextDelimited, nextLine, nextWhitespace. destruct (eof u); [by apply lands_end|].
  destruct (mode o); [|by apply (delimLoop_lands fuel _ _ _ (set_buf [] u))..|].
  - pose proof (skipBlanks_lands fuel true (set_buf [] u) Hu) as Hs.
    destruct (skipBlanks ctxErr fuel true (set_buf [] u)) as [[[r|]|] v]; [| |done]; cbn in Hs.
    + destruct Hs as [Hs Hr]. destruct r; [by apply lands_err|by apply lands_end|done].
    + eapply lands_mono; [apply wordLoop_lands; lia|done].
  - pose proof (skipBlanks_lands fuel false (set_buf [] u) Hu) as Hs.
    destruct (skipBlanks ctxErr fuel false (set_buf [] u)) as [[[r|]|] v]; [| |done]; cbn in Hs.
    + destruct Hs as [Hs Hr]. destruct r; [by apply lands_err|by apply lands_end|done].
    + eapply lands_mono; [apply lineLoop_lands; lia|done].
Qed.

End Progress.

(** ** Tokens respect the cap, whatever the source *)

Section Capped.
Context {R : Type} `{ByteSource R} (ctxErr : nat -> bool) (o : options).

Definition capped (t : tokenizer R) : Prop := (len (buf t) <= MaxTokenBytes)%Z.

(** An item of the result is the capped buffer. *)
Definition capped_result (x : option (tokRes * tokenizer R)) : Prop :=
  match x with
  | Some (TItem item _, t) => (len item <= MaxTokenBytes)%Z
  | _ => True
  end.

Lemma pollRead_buf t : buf (snd (pollRead ctxErr t)) = buf t.
Proof.
  unfold pollRead, pollCtx, ctxDone. destruct (_ =? 0)%Z; cbn; [destruct (ctxErr _); [done|]|];
    destruct (ReadByte (rd t)) as [[[]|] ?]; done.
Qed.

Lemma pushThen_capped b t f :
  (forall t, capped t -> capped_result (f t)) -> capped t -> capped_result (pushThen b t f).
Proof.
  intros Hf Ht. unfold pushThen, pushByte. destruct (Z.leb_spec MaxTokenBytes (Z.of_nat (length (buf t)))); [done|].
  apply Hf. unfold capped, len in *. cbn. rewrite length_app. cbn. lia.
Qed.

Lemma emitToken_capped b t : capped t -> capped_result (Some (emitToken o b t)).
Proof. intros Ht. unfold emitToken. by destruct (isEofMarker o (buf t)). Qed.

Lemma stepQuoted_capped q b t f :
  (forall q t, capped t -> capped_result (f q t)) -> capped t -> capped_result (stepQuoted q b t f).
Proof.
  intros Hf Ht. unfold stepQuoted. destruct (Ascii.eqb b q); [by apply Hf|]. destruct (b =c ch_nl); [done|].
  by apply pushThen_capped; [intros; apply Hf|].
Qed.

Lemma stepEscape_capped t f :
  (forall q t, capped t -> capped_result (f q t)) -> capped t -> capped_result (stepEscape t f).
Proof.
  intros Hf Ht. unfold stepEscape. destruct (ReadByte (rd t)) as [[[]|n] r]; try done; [by apply Hf|].
  by apply pushThen_capped; [intros; apply Hf|].
Qed.

Lemma delimLoop_capped fuel sep tr saw t : capped t -> capped_result (delimLoop ctxErr fuel sep tr saw t).
Proof.
  revert tr saw t. induction fuel as [|fuel IH]; intros tr saw t Ht; cbn [delimLoop]; [done|].
  pose proof (pollRead_buf t) as E. destruct (pollRead ctxErr t) as [[] t']; cbn [snd] in E; [done| |];
    assert (capped t') by (unfold capped; by rewrite E); [by destruct saw|].
  destruct (Ascii.eqb b sep); [done|]. destruct (b =c "000"); [auto|]. destruct tr; [auto|].
  by apply pushThen_capped; auto.
Qed.

Lemma skipToNewline_buf fuel t a t' : skipToNewline ctxErr fuel t = Some (a, t') -> buf t' = buf t.
Proof.
  revert t. induction fuel as [|fuel IH]; intros t; cbn [skipToNewline]; [done|].
  pose proof (pollRead_buf t) as E. destruct (pollRead ctxErr t) as [[] u]; cbn [snd] in E; [by intros [= <- <-]..|].
  destruct (b =c ch_nl); [by intros [= <- <-]|]. intros ->%IH. done.
Qed.

Lemma skipToWhitespace_buf fuel t a t' : skipToWhitespace ctxErr fuel t = Some (a, t') -> buf t' = buf t.
Proof.
  revert t. induction fuel as [|fuel IH]; intros t; cbn [skipToWhitespace]; [done|].
  pose proof (pollRead_buf t) as E. destruct (pollRead ctxErr t) as [[] u]; cbn [snd] in E; [by intros [= <- <-]..|].
  destruct (isWhitespace b); [|intros ->%IH; done]. by destruct (b =c ch_nl); intros [= <- <-].
Qed.

Lemma lineLoop_capped fuel q t : capped t -> capped_result (lineLoop ctxErr o fuel q t).
Proof.
  revert q t. induction fuel as [|fuel IH]; intros q t Ht; cbn [lineLoop]; [done|].
  pose proof (pollRead_buf t) as E. destruct (pollRead ctxErr t) as [[] t']; cbn [snd] in E; [done| |];
    assert (capped t') by (unfold capped; by rewrite E).
  { destruct q; [done|]. destruct (buf t') eqn:Eb; [done|]. by apply emitToken_capped. }
  destruct q; [by apply stepQuoted_capped|].
  destruct (_ || _); [auto|]. destruct (b =c ch_bs); [by apply stepEscape_capped|].
  destruct (b =c ch_nl); [by apply emitToken_capped|].
  destruct (b =c "000"); [|by apply pushThen_capped; auto].
  destruct (skipToNewline ctxErr fuel (set_nulSeen t')) as [[[] u]|] eqn:Es; [done| |done].
  apply skipToNewline_buf in Es. apply emitToken_capped. unfold capped. by rewrite Es.
Qed.

Lemma wordLoop_capped fuel s q t : capped t -> capped_result (wordLoop ctxErr o fuel s q t).
Proof.
  revert q t. induction fuel as [|fuel IH]; intros q t Ht; cbn [wordLoop]; [done|].
  pose proof (pollRead_buf t) as E. destruct (pollRead ctxErr t) as [[] t']; cbn [snd] in E; [done| |];
    assert (capped t') as Hc by (unfold capped; by rewrite E).
  { destruct q; [done|]. unfold capped in Hc. destruct (buf t') eqn:Eb; [done|]. by destruct (_ && _). }
  destruct q; [by apply stepQuoted_capped|].
  destruct (_ || _); [auto|]. destruct (b =c ch_bs); [by apply stepEscape_capped|].
  destruct (b =c "000").
  { destruct (skipToWhitespace ctxErr fuel (set_nulSeen t')) as [[[] u]|] eqn:Es; [done| |done].
    apply skipToWhitespace_buf in Es. apply emitToken_capped. unfold capped. by rewrite Es. }
  destruct (isWhitespace b); [by apply emitToken_capped|by apply pushThen_capped; auto].
Qed.

Lemma skipBlanks_buf fuel track t : buf (snd (skipBlanks ctxErr fuel track t)) = buf t.
Proof.
  revert t. induction fuel as [|fuel IH]; intros t; cbn [skipBlanks]; [done|].
  pose proof (pollRead_buf t) as E. destruct (pollRead ctxErr t) as [[] u]; cbn [snd] in E; [done..|].
  destruct (isWhitespace b); [|done]. rewrite IH. by destruct (track && _).
Qed.

Lemma skipBlanks_no_item fuel track t r u i b :
  skipBlanks ctxErr fuel track t = (Some (inl r), u) -> r <> TItem i b.
Proof.
  revert t. induction fuel as [|fuel IH]; intros t; cbn [skipBlanks]; [done|].
  destruct (pollRead ctxErr t) as [[] t']; [by intros [= <- <-]..|].
  destruct (isWhitespace b0); [apply IH|done].
Qed.

Lemma next_capped fuel t : capped_result (next ctxErr o fuel t).
Proof.
  unfold next, nextDelimited, nextLine, nextWhitespace. destruct (eof t); [done|].
  assert (forall u : tokenizer R, buf u = [] -> capped u) as Hnil.
  { intros u E. unfold capped. rewrite E. unfold MaxTokenBytes. done. }
  destruct (mode o); [|by apply delimLoop_capped, Hnil..|].
  - pose proof (skipBlanks_buf fuel true (set_buf [] t)) as E.
    destruct (skipBlanks ctxErr fuel true (set_buf [] t)) as [[[r|]|] u] eqn:Es; [|by apply wordLoop_capped, Hnil|done].
    destruct r; try done. by apply skipBlanks_no_item with (i := item) (b := endedLine) in Es.
  - pose proof (skipBlanks_buf fuel false (set_buf [] t)) as E.
    destruct (skipBlanks ctxErr fuel false (set_buf [] t)) as [[[r|]|] u] eqn:Es; [|by apply lineLoop_capped, Hnil|done].
    destruct r; try done. by apply skipBlanks_no_item with (i := item) (b := endedLine) in Es.
Qed.

End Capped.

End XargsInput.
