(* ===== verification/Xargs.v ===== *)
(** The [xargs] builtin (builtins/xargs/xargs.go): the flags and their order, the
    validation of the options, the batches, the commands run, the exit status. *)

From S2P Require Import Prelude GoStd BoundedReplace Bufio XargsInput.
From stdpp Require Import base list strings.
From Stdlib Require Import ZArith Lia Ascii.

Module Xargs.
Import GoStd BoundedReplace Bufio XargsTok.

Definition DefaultMaxChars : Z := 128 * 1024.
Definition HardMaxChars : Z := MaxCommandLineBytes.
Definition HardMaxArgs : Z := Z.shiftl 1 20.
Definition subCmdFatalCode : Z := 255.

(** ** The options *)

Inductive batchKey := batchNone | batchN | batchL | batchI.
Inductive sepKey := sepNone | sepNull | sepDelim.

#[export] Instance batchKey_eq_dec : EqDecision batchKey.
Proof. solve_decision. Defined.
#[export] Instance sepKey_eq_dec : EqDecision sepKey.
Proof. solve_decision. Defined.

(** The flags with a side effect on the trackers; a value is [Some] once the
    flag was set ([fs.Changed]). *)
Record flagState := mkFlags {
  lastBatch : batchKey; maxArgsFlag : option Z; maxLinesFlag : option Z; replFlag : option bytes;
  lastSep : sepKey; nullFlag : option bool; delimFlag : option bytes }.

Definition noFlags : flagState := mkFlags batchNone None None None sepNone None None.

Definition ParseBool (s : bytes) : option bool :=
  if str_in s ["1"; "t"; "T"; "TRUE"; "true"; "True"]%string then Some true
  else if str_in s ["0"; "f"; "F"; "FALSE"; "false"; "False"]%string then Some false
  else None.

Inductive trackedFlag := FlagN | FlagL | FlagI | FlagNull | FlagDelim.

(** [Set] of the tracked values; [None] is its error. *)
Definition setFlag (f : trackedFlag) (s : bytes) (st : flagState) : option flagState :=
  let '(mkFlags lb n l i ls z d) := st in
  match f with
  | FlagN => match ParseInt s with inr v => Some (mkFlags batchN (Some v) l i ls z d) | inl _ => None end
  | FlagL => match ParseInt s with inr v => Some (mkFlags batchL n (Some v) i ls z d) | inl _ => None end
  | FlagI => Some (mkFlags batchI n l (Some s) ls z d)
  | FlagNull =>
      match ParseBool s with
      | Some v => Some (mkFlags lb n l i (if v then sepNull else ls) (Some v) d)
      | None => None
      end
  | FlagDelim => Some (mkFlags lb n l i sepDelim z (Some s))
  end.

(** The flags kept by the flag package itself, and the operands. *)
Record parsedFlags := mkParsed {
  helpFlag : bool; argFileFlag : option bytes; eofFlag : bytes; noRunFlag : bool;
  maxCharsFlag : option Z; verboseFlag : bool; exitFlag : bool; operands : list bytes }.

Inductive usage :=
| UDelimiter (e : option bytes)     (* [None]: empty *)
| UEmptyArgFile
| UEmptyReplace
| UInvalid (flag : ascii) (v : Z).

Definition validatePositive (name : ascii) (v max : Z) : option usage :=
  if (v <=? 0)%Z || (max <? v)%Z then Some (UInvalid name v) else None.

Definition simpleEscapes : list (bytes * N) :=
  [(lit "\a", 7%N); (lit "\b", 8%N); (lit "\f", 12%N); (lit "\n", 10%N); (lit "\r", 13%N);
   (lit "\t", 9%N); (lit "\v", 11%N); (lit "\\", 92%N); (lit "\0", 0%N)].

Definition decodeDelim (s : bytes) : usage + ascii :=
  match s with
  | [] => inl (UDelimiter None)
  | _ =>
      match list_find (fun p => bytes_eqb (fst p) s = true) simpleEscapes with
      | Some (_, (_, v)) => inr (byte v)
      | None =>
          match s with
          | [c] => inr c
          | _ =>
              let hex :=
                match s with
                | b :: x :: _ :: _ =>
                    if (b =c ch_bs) && ((x =c "x") || (x =c "X")) then
                      match ParseUint 16 8 (drop 2 s) with inr v => Some v | inl _ => None end
                    else None
                | _ => None
                end in
              let oct :=
                match s with
                | b :: d :: _ =>
                    if (b =c ch_bs) && ((code "0" <=? code d)%Z && (code d <=? code "7")%Z) then
                      match ParseUint 8 8 (drop 1 s) with inr v => Some v | inl _ => None end
                    else None
                | _ => None
                end in
              match hex, oct with
              | Some v, _ => inr (byte (Z.to_N v))
              | None, Some v => inr (byte (Z.to_N v))
              | None, None => inl (UDelimiter (Some s))
              end
          end
      end
  end.

Definition useReplace (o : options) : bool := match replStr o with [] => false | _ => true end.
Definition useMaxLines (o : options) : bool := (0 <? maxLines o)%Z.
Definition useMaxArgs (o : options) : bool := (0 <? maxArgs o)%Z.

(** The winner of each group of exclusive flags, as the handler resolves it. *)
Definition winner {A} (k : batchKey) (st : flagState) (v : option A) : option A :=
  if decide (lastBatch st = k) then v else None.

Definition orElse {A} (e : option usage) (k : usage + A) : usage + A :=
  match e with Some u => inl u | None => k end.

Definition buildOptions (p : parsedFlags) (st : flagState) : usage + options :=
  let nSet := winner batchN st (maxArgsFlag st) in
  let lSet := winner batchL st (maxLinesFlag st) in
  let iSet := winner batchI st (replFlag st) in
  let null := match nullFlag st with Some v => bool_decide (lastSep st = sepNull) && v | None => false end in
  let delimSet := if decide (lastSep st = sepDelim) then delimFlag st else None in
  let sep :=
    if null then inr (modeNull, "000"%char)
    else match delimSet with
         | Some d => match decodeDelim d with inl u => inl u | inr b => inr (modeDelim, b) end
         | None => inr (modeWhitespace, "000"%char)
         end in
  match sep with
  | inl u => inl u
  | inr (mode0, b) =>
      orElse (match argFileFlag p with Some [] => Some UEmptyArgFile | _ => None end)
      (orElse (match iSet with Some [] => Some UEmptyReplace | _ => None end)
      (orElse (match lSet with Some v => validatePositive "L" v HardMaxArgs | None => None end)
      (orElse (match nSet with Some v => validatePositive "n" v HardMaxArgs | None => None end)
      (orElse (match maxCharsFlag p with
               | Some v => if (v <=? 0)%Z then Some (UInvalid "s" v) else None
               | None => None
               end)
        (let repl := default [] iSet in
         let replace := match repl with [] => false | _ => true end in
         let mode1 :=
           if replace && negb null && match delimSet with Some _ => false | None => true end
           then modeLine else mode0 in
         inr {| mode := mode1; delim := b; argFile := default [] (argFileFlag p);
                eofStr := match mode1 with modeNull | modeDelim => [] | _ => eofFlag p end;
                replStr := repl;
                maxLines := if replace then 1 else default 0 lSet;
                maxArgs := if replace then 1 else default 0 nSet;
                maxChars := match maxCharsFlag p with Some v => Z.min v HardMaxChars | None => DefaultMaxChars end;
                noRunEmpty := noRunFlag p; verbose := verboseFlag p; exitOnSize := exitFlag p;
                cmdName := match operands p with [] => lit "echo" | c :: _ => c end;
                initialArgs := match operands p with [] => [] | _ :: args => args end |})))))
  end%Z.

(** ** The commands *)

Inductive message :=
| MOpen (e : bytes)
| MTok (e : tokErr)
| MNul
| MListTooLong
| MLineTooLong
| MNotAvailable
| MNotAllowed (cmd : bytes)
| MRun (cmd e : bytes)
| MFatal (cmd : bytes)
| MVerbose (line : bytes)
| MUsage (u : usage)
| MMutex (loser win : batchKey).

Inductive event :=
| EvHelp
| EvErrf (m : message)
| EvOpen (path : bytes)
| EvClose
| EvRun (emptyStdin : bool) (dir cmd : bytes) (args : list bytes).

Abbreviation history := (list event).   (* newest first *)

Definition runner := history -> bytes -> bytes -> list bytes -> Z * option bytes.

Section World.
Context {R : Type} `{ByteSource R}.

(** The callbacks of the call context; a command may fail with an error next to
    its exit code. *)
Record callContext := mkCall {
  RunCommand : option runner;
  RunCommandWithStdin : option runner;
  CommandAllowed : option (bytes -> bool);
  WorkDir : option bytes;
  Stdin : option R;
  OpenFile : bytes -> bytes + R;
  ctxErr : nat -> bool }.

Context (call : callContext) (o : options).

Definition commandLineLen (batch : list bytes) : Z :=
  (len (cmdName o) + 1 + lineLength (initialArgs o) + lineLength batch)%Z.

Definition replaceItem (batch : list bytes) : bytes := match batch with [] => [] | i :: _ => i end.

Definition replaceFits (batch : list bytes) : bool :=
  negb (Exceeded (chargeTemplates (cmdName o :: initialArgs o) (replStr o) (replaceItem batch) (NewBudget (maxChars o)))).

Definition resolveCmd (batch : list bytes) : bytes * list bytes :=
  if useReplace o then
    let item := replaceItem batch in
    (ReplaceAll (cmdName o) (replStr o) item, map (fun a => ReplaceAll a (replStr o) item) (initialArgs o))
  else (cmdName o, initialArgs o ++ batch).

Definition shellMeta : bytes :=
  [byte 32; byte 9; byte 10; byte 13; byte 11; byte 12; ch_sq; ch_dq; ch_bs]
    ++ lit "$`|&;<>(){}[]*?~#!".

Definition containsShellMeta (s : bytes) : bool := existsb (fun c => existsb (Ascii.eqb c) shellMeta) s.

Definition quoteByte (c : ascii) : bytes := if c =c ch_sq then [ch_sq; ch_bs; ch_sq; ch_sq] else [c].

Definition shellQuote (s : bytes) : bytes :=
  match s with
  | [] => [ch_sq; ch_sq]
  | _ => if containsShellMeta s then ch_sq :: mjoin (map quoteByte s) ++ [ch_sq] else s
  end.

Definition printVerbose (name : bytes) (args : list bytes) : bytes :=
  shellQuote name ++ mjoin (map (fun a => " "%char :: shellQuote a) args) ++ [ch_nl].

(** [invokeCommand], with the number of the poll it makes; the exit code to
    report and whether to stop. *)
Definition invokeCommand (batch : list bytes) (poll : nat) (h : history) : (Z * bool) * history :=
  if ctxErr call poll then ((1, true), h)%Z
  else if useReplace o && negb (replaceFits batch) then ((1, true), EvErrf MLineTooLong :: h)%Z
  else
    let '(finalCmd, finalArgs) := resolveCmd batch in
    let h := if verbose o then EvErrf (MVerbose (printVerbose finalCmd finalArgs)) :: h else h in
    match RunCommand call with
    | None => ((125, true), EvErrf MNotAvailable :: h)%Z
    | Some run =>
        if match CommandAllowed call with Some allowed => negb (allowed finalCmd) | None => false end
        then ((125, true), EvErrf (MNotAllowed finalCmd) :: h)%Z
        else
          let dir := default [] (WorkDir call) in
          let readsStdin := match argFile o with [] => true | f => f =s "-" end in
          let '(emptyStdin, run) :=
            match RunCommandWithStdin call with
            | Some run' => if readsStdin then (true, run') else (false, run)
            | None => (false, run)
            end in
          let '(exitCode, err) := run h dir finalCmd finalArgs in
          let h := EvRun emptyStdin dir finalCmd finalArgs :: h in
          match err with
          | Some e => ((if (exitCode =? 127)%Z then 127 else 125, true), EvErrf (MRun finalCmd e) :: h)%Z
          | None =>
              if (exitCode =? 0)%Z then ((0, false), h)%Z
              else if (exitCode =? subCmdFatalCode)%Z then ((124, true), EvErrf (MFatal finalCmd) :: h)%Z
              else ((123, false), h)%Z
          end
    end.

Definition finishEmpty (prior : Z) (poll : nat) (h : history) : Z * history :=
  if noRunEmpty o then (prior, h)
  else if useReplace o then (prior, h)
  else if (maxChars o <? commandLineLen [])%Z then (Z.max 1 prior, EvErrf MLineTooLong :: h)
  else
    let '((c, _), h) := invokeCommand [] poll h in (Z.max c prior, h).

(** ** The loop of [runXargs] *)

Record loop := mkLoop {
  tok : tokenizer R; hist : history; batch : list bytes; batchLines : Z; usedChars : Z;
  finalCode : Z; totalItems : Z; tokErred : bool }.

Definition flush (l : loop) : bool * loop :=
  let '((c, stop), h) := invokeCommand (batch l) (polls (tok l)) (hist l) in
  (stop, mkLoop (set_polls (S (polls (tok l))) (tok l)) h [] 0 (commandLineLen [])
           (Z.max (finalCode l) c) (totalItems l) (tokErred l)).

Definition say (m : message) (l : loop) : loop :=
  mkLoop (tok l) (EvErrf m :: hist l) (batch l) (batchLines l) (usedChars l) (finalCode l) (totalItems l) (tokErred l).
Definition set_tok (t : tokenizer R) (l : loop) : loop :=
  mkLoop t (hist l) (batch l) (batchLines l) (usedChars l) (finalCode l) (totalItems l) (tokErred l).

(** One item: [Some c] is an early return with code [c]. *)
Definition makeRoom (add : Z) (l : loop) : option Z * loop :=
  if negb (useReplace o) && (maxChars o <? usedChars l + add)%Z then
    let nonempty := match batch l with [] => false | _ => true end in
    if (useMaxLines o || (exitOnSize o && useMaxArgs o)) && nonempty then (Some 1%Z, say MListTooLong l)
    else
      let '(stop, l) := if nonempty then flush l else (false, l) in
      if stop then (Some (finalCode l), l)
      else if (maxChars o <? usedChars l + add)%Z then (Some 1%Z, say MLineTooLong l)
      else (None, l)
  else (None, l).

Definition addItem (item : bytes) (endedLine : bool) (l : loop) : loop :=
  mkLoop (tok l) (hist l) (batch l ++ [item]) (if endedLine then batchLines l + 1 else batchLines l)%Z
    (usedChars l + (len item + 1))%Z (finalCode l) (totalItems l + 1)%Z (tokErred l).

Definition shouldFlush (l : loop) : bool :=
  (useMaxArgs o && (maxArgs o <=? Z.of_nat (length (batch l)))%Z) ||
  (useMaxLines o && (maxLines o <=? batchLines l)%Z).

Definition takeItem (item : bytes) (endedLine : bool) (l : loop) : option Z * loop :=
  let '(r, l) := makeRoom (len item + 1) l in
  match r with
  | Some c => (Some c, l)
  | None =>
      let l := addItem item endedLine l in
      if shouldFlush l then
        let '(stop, l) := flush l in
        (if stop then Some (finalCode l) else None, l)
      else (None, l)
  end.

Definition tokenError (e : tokErr) (l : loop) : loop :=
  let l := say (MTok e) l in
  mkLoop (tok l) (hist l) (batch l) (batchLines l) (usedChars l) (Z.max (finalCode l) 1) (totalItems l) true.

Definition warnNul (l : loop) : loop :=
  if nulSeen (tok l) && negb (nulWarned (tok l)) then say MNul (set_tok (set_nulWarned (tok l)) l) else l.

(** [None] is out of fuel, in the loop or in [next]; otherwise the early return
    or the end of the loop. *)
Fixpoint mainLoop (fuel inner : nat) (l : loop) : option (option Z * loop) :=
  match fuel with
  | 0 => None
  | S fuel =>
      let '(cancelled, t) := ctxDone (ctxErr call) (tok l) in
      let l := set_tok t l in
      if cancelled : bool then Some (Some 1%Z, l)
      else
        match next (ctxErr call) o inner t with
        | None => None
        | Some (r, t) =>
            let l := set_tok t l in
            match r with
            | TErr e => Some (None, tokenError e l)
            | TEnd => Some (None, warnNul l)
            | TItem item endedLine =>
                let '(c, l) := takeItem item endedLine (warnNul l) in
                match c with
                | Some c => Some (Some c, l)
                | None => mainLoop fuel inner l
                end
            end
        end
  end.

(** After the loop: the last batch, or the case of no items. *)
Definition afterLoop (l : loop) : Z * history :=
  let '(stop, l) := match batch l with [] => (false, l) | _ => flush l end in
  if stop then (finalCode l, hist l)
  else if (totalItems l =? 0)%Z && negb (tokErred l) then finishEmpty (finalCode l) (polls (tok l)) (hist l)
  else (finalCode l, hist l).

Definition startLoop (r : R) (h : history) : loop :=
  mkLoop (newTokenizer r 0) h [] 0 (commandLineLen []) 0 0 false.

Definition readItems (fuel inner : nat) (r : R) (h : history) : option (Z * history) :=
  match mainLoop fuel inner (startLoop r h) with
  | None => None
  | Some (Some c, l) => Some (c, hist l)
  | Some (None, l) => Some (afterLoop l)
  end.

(** [openInput] and [runXargs]; the exit code and what happened. *)
Definition runXargs (fuel inner : nat) (h : history) : option (Z * history) :=
  match argFile o with
  | (_ :: _) as f =>
      if f =s "-" then
        match Stdin call with
        | None => Some (finishEmpty 0 0 h)
        | Some r => readItems fuel inner r h
        end
      else
        let h := EvOpen f :: h in
        match OpenFile call f with
        | inl e => Some (1%Z, EvErrf (MOpen e) :: h)
        | inr r =>
            match readItems fuel inner r h with
            | None => None
            | Some (c, h) => Some (c, EvClose :: h)
            end
        end
  | [] =>
      match Stdin call with
      | None => Some (finishEmpty 0 0 h)
      | Some r => readItems fuel inner r h
      end
  end.

End World.

Arguments callContext : clear implicits.
Arguments loop : clear implicits.

(** [warnMutex]: a warning for each flag of the group that lost. *)
Definition warnMutex (st : flagState) : history :=
  let changed k :=
    match k with
    | batchN => match maxArgsFlag st with Some _ => true | None => false end
    | batchL => match maxLinesFlag st with Some _ => true | None => false end
    | batchI => match replFlag st with Some _ => true | None => false end
    | batchNone => false
    end in
  match lastBatch st with
  | batchNone => []
  | w => rev (map (fun k => EvErrf (MMutex k w)) (filter (fun k => changed k = true /\ k <> w) [batchN; batchL; batchI]))
  end.

(** The handler [registerFlags] returns. *)
Definition handler {R} `{ByteSource R} (call : callContext R) (fuel inner : nat) (p : parsedFlags) (st : flagState)
    : option (Z * history) :=
  if helpFlag p then Some (0%Z, [EvHelp])
  else
    let h := warnMutex st in
    match buildOptions p st with
    | inl u => Some (1%Z, EvErrf (MUsage u) :: h)
    | inr o => runXargs call o fuel inner h
    end.

End Xargs.
