(* ===== verification/XargsRun.v ===== *)
(** What [xargs] guarantees: the commands it runs are allowed and within the
    limits, it terminates, the items reach the commands once and in order, and
    names written with NULs or quotes arrive unchanged. *)

From S2P Require Import Prelude GoStd BoundedReplace Bufio XargsInput Xargs.
From stdpp Require Import base list strings.
From Stdlib Require Import ZArith Lia Ascii.

Module XargsRun.
Import GoStd BoundedReplace Bufio XargsTok XargsInput Xargs.

(** ** The options *)

Lemma lineLength_app l1 l2 : lineLength (l1 ++ l2) = (lineLength l1 + lineLength l2)%Z.
Proof. unfold lineLength. induction l1 as [|a l1 IH]; cbn [app fold_right]; [done|]. rewrite IH. lia. Qed.

Lemma lineLength_cons a l : lineLength (a :: l) = (len a + 1 + lineLength l)%Z.
Proof. done. Qed.

(** The limits of validated options. *)
Record good_options (o : options) : Prop := {
  chars_range : (1 <= maxChars o <= HardMaxChars)%Z;
  args_range : (0 <= maxArgs o <= HardMaxArgs)%Z;
  replace_one : useReplace o = true -> maxArgs o = 1%Z }.

Lemma validatePositive_range n v max : validatePositive n v max = None -> (0 < v <= max)%Z.
Proof. unfold validatePositive. destruct (Z.leb_spec v 0), (Z.ltb_spec max v); cbn; intros; [done..|lia]. Qed.

Lemma orElse_inr {A} e (k : usage + A) x : orElse e k = inr x -> e = None /\ k = inr x.
Proof. by destruct e. Qed.

Lemma buildOptions_good p st o : buildOptions p st = inr o -> good_options o.
Proof.
  unfold buildOptions. set (s := if _ : bool then _ else _). destruct s as [|[mode0 b]]; [done|].
  intros (_ & (_ & (_ & (Hn & (Hs & Ho)%orElse_inr)%orElse_inr)%orElse_inr)%orElse_inr)%orElse_inr.
  injection Ho as <-. split; cbn.
  - assert (HardMaxChars = 1048576 /\ DefaultMaxChars = 131072)%Z as [-> ->] by done.
    destruct (maxCharsFlag p) as [v|]; [|lia]. destruct (Z.leb_spec v 0); [done|]. lia.
  - assert (HardMaxArgs = 1048576)%Z as Eh by done. rewrite Eh. destruct (default [] _); [|lia].
    destruct (winner batchN st (maxArgsFlag st)) as [v|]; cbn; [|lia].
    apply validatePositive_range in Hn. lia.
  - unfold useReplace. cbn. by destruct (default [] _).
Qed.

(** The exit codes the command's documentation lists. *)
Definition documented : list Z := [0; 1; 123; 124; 125]%Z.

(** The runner answers 127 with an error to some command, as the shell's does
    to one that is unknown. *)
Definition answers127 {R} (call : callContext R) : Prop := exists run h dir cmd args e,
  (RunCommand call = Some run \/ RunCommandWithStdin call = Some run) /\ run h dir cmd args = (127%Z, Some e).

(** The exit codes: the documented ones, and the runner's 127, which is passed
    through although the documentation does not list it. *)
Definition exits {R} (call : callContext R) (c : Z) : Prop := c ∈ documented \/ c = 127%Z /\ answers127 call.

(** A concrete code is a documented one. *)
Ltac in_codes := left; apply (bool_decide_unpack _); vm_compute; exact I.

Section Safety.
Context {R : Type} `{ByteSource R} (call : callContext R) (o : options).

(** ** The commands run *)

(** A batch within the limits: its items under the cap, no more than [-n] allows,
    and its command line within [-s]. *)
Record fits (items : list bytes) : Prop := {
  items_capped : Forall (fun i => len i <= MaxTokenBytes)%Z items;
  items_count : useMaxArgs o = true -> (Z.of_nat (length items) <= maxArgs o)%Z;
  line_fits : (len (fst (resolveCmd o items)) + 1 + lineLength (snd (resolveCmd o items)) <= maxChars o)%Z }.

Definition reads_stdin : bool := match argFile o with [] => true | f => f =s "-" end.

Definition ok_event (ev : event) : Prop :=
  match ev with
  | EvRun emptyStdin dir cmd args =>
      (exists items, resolveCmd o items = (cmd, args) /\ fits items) /\
      match CommandAllowed call with Some allowed => allowed cmd = true | None => True end /\
      dir = default [] (WorkDir call) /\
      emptyStdin = (reads_stdin && bool_decide (is_Some (RunCommandWithStdin call)))
  | _ => True
  end.

Lemma codes_max a b : exits call a -> exits call b -> exits call (Z.max a b).
Proof. intros. destruct (Z.max_spec a b) as [[_ ->]|[_ ->]]; done. Qed.

Lemma resolveCmd_length items : useReplace o = false ->
  (len (fst (resolveCmd o items)) + 1 + lineLength (snd (resolveCmd o items)) = commandLineLen o items)%Z.
Proof. intros E. unfold resolveCmd, commandLineLen. rewrite E. cbn. rewrite lineLength_app. lia. Qed.

Lemma replaceFits_length items : useReplace o = true -> (0 <= maxChars o)%Z -> replaceFits o items = true ->
  (len (fst (resolveCmd o items)) + 1 + lineLength (snd (resolveCmd o items)) <= maxChars o)%Z.
Proof.
  intros E Hm. unfold replaceFits, resolveCmd. rewrite E. cbn [fst snd].
  assert (replStr o <> []) as Hr by (unfold useReplace in E; by destruct (replStr o)).
  pose proof (chargeTemplates_charged (maxChars o) 0 (cmdName o :: initialArgs o) (replStr o) (replaceItem items) _
    Hr (Z.le_refl 0) (NewBudget_charged _ Hm)) as [Hx _].
  unfold Exceeded. rewrite Hx. rewrite Z.add_0_l. cbn [map]. rewrite lineLength_cons.
  destruct (Z.ltb_spec (maxChars o)
    (len (ReplaceAll (cmdName o) (replStr o) (replaceItem items)) + 1 +
     lineLength (map (λ t, ReplaceAll t (replStr o) (replaceItem items)) (initialArgs o)))); [done|lia].
Qed.

(** What [invokeCommand] does: it runs the batch once, or stops with a code that
    is not zero. *)
Definition runs_of (h : history) : list (bytes * list bytes) :=
  rev (omap (fun ev => match ev with EvRun _ _ cmd args => Some (cmd, args) | _ => None end) h).

Lemma invokeCommand_spec items n h c stop h' :
  invokeCommand call o items n h = ((c, stop), h') ->
  exits call c /\
  (stop = true -> (1 <= c)%Z) /\
  (runs_of h' = runs_of h ++ [resolveCmd o items] \/ runs_of h' = runs_of h /\ stop = true) /\
  (good_options o -> Forall (fun i => len i <= MaxTokenBytes)%Z items ->
   (useMaxArgs o = true -> (Z.of_nat (length items) <= maxArgs o)%Z) ->
   (useReplace o = false -> (commandLineLen o items <= maxChars o)%Z) ->
   Forall ok_event h -> Forall ok_event h').
Proof.
  unfold invokeCommand, runs_of.
  destruct (ctxErr call n); [intros [= <- <- <-]; split_and!; [in_codes|lia|by right|done]|].
  destruct (useReplace o && negb (replaceFits o items)) eqn:Er; [intros [= <- <- <-]; split_and!; [in_codes|lia|by right|intros; by constructor]|].
  destruct (resolveCmd o items) as [cmd args] eqn:Ec.
  set (h1 := if verbose o then _ else h).
  assert (omap (fun ev => match ev with EvRun _ _ cmd args => Some (cmd, args) | _ => None end) h1 =
          omap (fun ev => match ev with EvRun _ _ cmd args => Some (cmd, args) | _ => None end) h) as Eh
    by (unfold h1; by destruct (verbose o)).
  assert (Forall ok_event h -> Forall ok_event h1) as Hh1
    by (unfold h1; destruct (verbose o); [by constructor|done]).
  destruct (RunCommand call) as [run|] eqn:Erun.
  2:{ intros [= <- <- <-]. cbn [omap list_omap]. rewrite Eh. split_and!; [in_codes|lia|right; split; [done|done]|].
      intros. constructor; [done|by apply Hh1]. }
  destruct (match CommandAllowed call with Some _ => _ | None => _ end) eqn:Ea.
  { intros [= <- <- <-]. cbn [omap list_omap]. rewrite Eh. split_and!; [in_codes|lia|right; split; [done|done]|].
    intros. constructor; [done|by apply Hh1]. }
  set (rd := match argFile o with [] => true | f => f =s "-" end).
  set (es := match RunCommandWithStdin call with Some run' => if rd then (true, run') else (false, run) | None => (false, run) end).
  destruct es as [empty run1] eqn:Ees.
  assert (empty = (reads_stdin && bool_decide (is_Some (RunCommandWithStdin call)))) as Eempty.
  { unfold es in Ees. fold rd. change reads_stdin with rd.
    destruct (RunCommandWithStdin call), rd; injection Ees as <- <-; done. }
  assert (RunCommand call = Some run1 \/ RunCommandWithStdin call = Some run1) as Erun1.
  { unfold es in Ees. destruct (RunCommandWithStdin call) as [run'|], rd; injection Ees as _ <-; auto. }
  destruct (run1 h1 (default [] (WorkDir call)) cmd args) as [ec err] eqn:Eans.
  assert (forall ms : list event, Forall (fun m => match m with EvErrf _ => True | _ => False end) ms ->
    let h2 := ms ++ EvRun empty (default [] (WorkDir call)) cmd args :: h1 in
    rev (omap (fun ev => match ev with EvRun _ _ cmd args => Some (cmd, args) | _ => None end) h2) =
      rev (omap (fun ev => match ev with EvRun _ _ cmd args => Some (cmd, args) | _ => None end) h) ++ [(cmd, args)] /\
    (good_options o -> Forall (fun i => len i <= MaxTokenBytes)%Z items ->
     (useMaxArgs o = true -> (Z.of_nat (length items) <= maxArgs o)%Z) ->
     (useReplace o = false -> (commandLineLen o items <= maxChars o)%Z) ->
     Forall ok_event h -> Forall ok_event h2)) as Hrun.
  { intros ms Hms h2. split.
    - unfold h2. induction Hms as [|[] ms Hm Hms IH]; cbn; try done. by rewrite Eh.
    - intros Hg Hcap Hcnt Hline Hh. unfold h2. apply Forall_app. split.
      { eapply Forall_impl; [exact Hms|]. by intros []. }
      constructor; [|by apply Hh1]. cbn. split_and!; [|by destruct (CommandAllowed call); [apply negb_false_iff in Ea|]|done|done].
      exists items. split; [done|]. split; [done|done|].
      destruct (useReplace o) eqn:Eu; cbn in Er.
      + apply replaceFits_length; [done| |by destruct (replaceFits o items)]. destruct Hg. lia.
      + rewrite resolveCmd_length by done. by apply Hline. }
  destruct err as [e|].
  { intros [= <- <- <-]. destruct (Hrun [EvErrf (MRun cmd e)]) as [H1 H2]; [by constructor|].
    split_and!; [|destruct (_ =? _)%Z; lia|by left|done].
    destruct (Z.eqb_spec ec 127) as [->|]; [|in_codes]. right. split; [done|]. by exists run1, h1, (default [] (WorkDir call)), cmd, args, e. }
  destruct (Hrun []) as [H1 H2]; [done|].
  destruct (ec =? 0)%Z; [intros [= <- <- <-]; split_and!; [in_codes|done|by left|done]|].
  destruct (ec =? subCmdFatalCode)%Z.
  { intros [= <- <- <-]. destruct (Hrun [EvErrf (MFatal cmd)]) as [H3 H4]; [by constructor|].
    split_and!; [in_codes|lia|by left|done]. }
  intros [= <- <- <-]. split_and!; [in_codes|done|by left|done].
Qed.

(** ** The loop *)

(** The batch being built: its length is counted, its items are capped, it fits. *)
Record batch_ok (l : loop R) : Prop := {
  used_exact : usedChars l = commandLineLen o (batch l);
  batch_capped : Forall (fun i => len i <= MaxTokenBytes)%Z (batch l);
  batch_room : useReplace o = false -> batch l <> [] -> (usedChars l <= maxChars o)%Z;
  batch_count : useMaxArgs o = true -> (Z.of_nat (length (batch l)) <= maxArgs o)%Z }.

Record loop_ok (l : loop R) : Prop := {
  loop_batch : batch_ok l;
  loop_code : exits call (finalCode l);
  loop_events : Forall ok_event (hist l) }.

Context (good : good_options o).

Lemma empty_batch_ok t h c n b : batch_ok (mkLoop t h [] 0 (commandLineLen o []) c n b).
Proof. split; cbn; [done|done|done|]. intros Hm. unfold useMaxArgs in Hm. lia. Qed.

Lemma flush_ok l stop l' : loop_ok l -> batch l <> [] -> flush call o l = (stop, l') ->
  loop_ok l' /\ batch l' = [] /\ (stop = true -> (1 <= finalCode l')%Z).
Proof.
  intros [[Hu Hc Hr Hn] Hcode Hev] Hb. unfold flush.
  destruct (invokeCommand call o (batch l) (polls (tok l)) (hist l)) as [[c s] h] eqn:E.
  intros [= <- <-]. apply invokeCommand_spec in E as (Hcc & Hstop & _ & Hsafe).
  split; [split; cbn; [apply empty_batch_ok|by apply codes_max|]|split; [done|cbn; intros Hs; specialize (Hstop Hs); lia]].
  apply Hsafe; try done. intros Er. rewrite <- Hu. by apply Hr.
Qed.

Lemma say_ok m l : loop_ok l -> loop_ok (say m l).
Proof. intros [[] ? ?]. split; [by split|done|]. cbn. by constructor. Qed.

Lemma commandLineLen_snoc b i : commandLineLen o (b ++ [i]) = (commandLineLen o b + (len i + 1))%Z.
Proof. unfold commandLineLen. rewrite lineLength_app, lineLength_cons. cbn. lia. Qed.

Lemma makeRoom_ok add l r l' : loop_ok l -> makeRoom call o add l = (r, l') ->
  loop_ok l' /\ match r with
               | Some c => exits call c /\ (1 <= c)%Z
               | None => useReplace o = false -> (usedChars l' + add <= maxChars o)%Z
               end.
Proof.
  intros Hl. unfold makeRoom.
  destruct (negb (useReplace o) && (maxChars o <? usedChars l + add)%Z) eqn:E.
  2:{ intros [= <- <-]. split; [done|]. intros Er. rewrite Er in E. cbn in E. lia. }
  assert (exits call 1%Z) as H1 by in_codes.
  assert (forall l1, loop_ok l1 -> forall r l',
    (if (maxChars o <? usedChars l1 + add)%Z then (Some 1%Z, say MLineTooLong l1) else (None, l1)) = (r, l') ->
    loop_ok l' /\ match r with
               | Some c => exits call c /\ (1 <= c)%Z
               | None => useReplace o = false -> (usedChars l' + add <= maxChars o)%Z
               end) as Hend.
  { intros l1 Hl1 r' l''. destruct (Z.ltb_spec (maxChars o) (usedChars l1 + add)); intros [= <- <-]; [|by split].
    split; [by apply say_ok|done]. }
  destruct ((useMaxLines o || exitOnSize o && useMaxArgs o) && _); [intros [= <- <-]; split; [by apply say_ok|done]|].
  destruct (batch l) as [|i0 rest] eqn:Eb; [by apply Hend|].
  destruct (flush call o l) as [stop l1] eqn:Ef.
  apply flush_ok in Ef as (Hl1 & _ & Hs); [|done|by rewrite Eb].
  destruct stop; [|by apply Hend]. intros [= <- <-]. split; [done|]. split; [apply Hl1|by apply Hs].
Qed.

Lemma addItem_ok i b l : loop_ok l -> (len i <= MaxTokenBytes)%Z ->
  (useReplace o = false -> (usedChars l + (len i + 1) <= maxChars o)%Z) ->
  (useMaxArgs o = true -> (Z.of_nat (length (batch l)) < maxArgs o)%Z) -> loop_ok (addItem i b l).
Proof.
  intros [[Hu Hc Hr Hn] Hcode Hev] Hi Hroom Hcnt. split; [split|done|done]; cbn.
  - rewrite commandLineLen_snoc. by rewrite <- Hu.
  - apply Forall_app. by split; [|constructor].
  - auto.
  - intros Hm. rewrite length_app. cbn. specialize (Hcnt Hm). lia.
Qed.

(** Between items the batch is not full. *)
Definition not_full (l : loop R) : Prop :=
  useMaxArgs o = true -> (Z.of_nat (length (batch l)) < maxArgs o)%Z.

Lemma not_full_nil l : batch l = [] -> not_full l.
Proof. unfold not_full, useMaxArgs. intros -> Hm. cbn. lia. Qed.

Lemma makeRoom_not_full add l r l' : not_full l -> makeRoom call o add l = (r, l') -> not_full l'.
Proof.
  intros Hn. unfold makeRoom. destruct (negb _ && _); [|by intros [= _ <-]].
  destruct ((useMaxLines o || exitOnSize o && useMaxArgs o) && _); [by intros [= _ <-]|].
  destruct (batch l) as [|i0 rest] eqn:Eb.
  - destruct (_ <? _)%Z; by intros [= _ <-].
  - unfold flush. destruct (invokeCommand _ _ _ _ _) as [[c s] h]. destruct s; [by intros [= _ <-]; apply not_full_nil|].
    cbn. destruct (_ <? _)%Z; intros [= _ <-]; by apply not_full_nil.
Qed.

Lemma takeItem_ok i b l r l' : loop_ok l -> not_full l -> (len i <= MaxTokenBytes)%Z ->
  takeItem call o i b l = (r, l') ->
  loop_ok l' /\ match r with Some c => exits call c /\ (1 <= c)%Z | None => not_full l' end.
Proof.
  intros Hl Hn Hi. unfold takeItem.
  destruct (makeRoom call o (len i + 1) l) as [r1 l1] eqn:Em.
  pose proof (makeRoom_not_full _ _ _ _ Hn Em) as Hn1. apply makeRoom_ok in Em as [Hl1 Hr1]; [|done].
  destruct r1 as [c|]; [by intros [= <- <-]|].
  pose proof (addItem_ok i b l1 Hl1 Hi Hr1 Hn1) as Ha.
  destruct (shouldFlush o (addItem i b l1)) eqn:Es.
  - destruct (flush call o (addItem i b l1)) as [stop l2] eqn:Ef.
    apply flush_ok in Ef as (Hl2 & Eb & Hs); [|done|by cbn; destruct (batch l1)].
    intros [= <- <-]. split; [done|]. destruct stop; [split; [apply Hl2|by apply Hs]|by apply not_full_nil].
  - intros [= <- <-]. split; [done|]. unfold shouldFlush in Es. apply orb_false_iff in Es as [Es _].
    unfold not_full. intros Hm. rewrite Hm in Es. by apply Z.leb_gt in Es.
Qed.

Lemma set_tok_ok t l : loop_ok l -> loop_ok (set_tok t l).
Proof. intros [[] ? ?]. by split; [split|..]. Qed.

Lemma warnNul_ok l : loop_ok l -> loop_ok (warnNul l) /\ batch (warnNul l) = batch l.
Proof. intros Hl. unfold warnNul. destruct (_ && _); [|done]. split; [by apply say_ok, set_tok_ok|done]. Qed.

Lemma mainLoop_ok fuel inner l r l' : loop_ok l -> not_full l ->
  mainLoop call o fuel inner l = Some (r, l') ->
  loop_ok l' /\ match r with Some c => exits call c /\ (1 <= c)%Z | None => True end.
Proof.
  revert l. induction fuel as [|fuel IH]; intros l Hl Hn; cbn [mainLoop]; [done|].
  destruct (ctxDone (ctxErr call) (tok l)) as [c t].
  destruct c; [intros [= <- <-]; split; [by apply set_tok_ok|split; [in_codes|done]]|].
  pose proof (next_capped (ctxErr call) o inner t) as Hcap.
  destruct (next (ctxErr call) o inner t) as [[a t']|]; [|done].
  pose proof (set_tok_ok t' _ (set_tok_ok t _ Hl)) as Ht.
  destruct a as [e| |item ended].
  - intros [= <- <-]. split; [|done]. unfold tokenError. destruct (say_ok (MTok e) _ Ht) as [[] ? ?].
    split; [by split| |done]. apply codes_max; [done|in_codes].
  - intros [= <- <-]. split; [by apply warnNul_ok|done].
  - cbn [capped_result] in Hcap. destruct (warnNul_ok _ Ht) as [Hw Eb].
    destruct (takeItem call o item ended _) as [r1 l1] eqn:Et.
    apply takeItem_ok in Et as [Hl1 Hr1]; [|done|by unfold not_full; rewrite Eb|done].
    destruct r1; [by intros [= <- <-]|]. by apply IH.
Qed.

(** ** The whole run *)

Lemma finishEmpty_ok prior n h c h' : exits call prior -> Forall ok_event h ->
  finishEmpty call o prior n h = (c, h') -> exits call c /\ Forall ok_event h'.
Proof.
  intros Hp Hh. unfold finishEmpty. destruct (noRunEmpty o); [by intros [= <- <-]|].
  destruct (useReplace o) eqn:Er; [by intros [= <- <-]|].
  destruct (Z.ltb_spec (maxChars o) (commandLineLen o [])).
  { intros [= <- <-]. split; [apply codes_max; [in_codes|done]|by constructor]. }
  destruct (invokeCommand call o [] n h) as [[c1 s] h1] eqn:E. intros [= <- <-].
  apply invokeCommand_spec in E as (Hc & _ & _ & Hs). split; [by apply codes_max|].
  apply Hs; [done|done|cbn|auto|done]. intros _. destruct good. cbn. lia.
Qed.

Lemma afterLoop_ok l c h : loop_ok l -> afterLoop call o l = (c, h) -> exits call c /\ Forall ok_event h.
Proof.
  intros Hl. unfold afterLoop.
  assert (forall l1 stop, loop_ok l1 ->
    (if stop : bool then (finalCode l1, hist l1)
     else if (totalItems l1 =? 0)%Z && negb (tokErred l1) then finishEmpty call o (finalCode l1) (polls (tok l1)) (hist l1)
     else (finalCode l1, hist l1)) = (c, h) -> exits call c /\ Forall ok_event h) as Hend.
  { intros l1 stop [? ? ?]. destruct stop; [by intros [= <- <-]|].
    destruct (_ && _); [by apply finishEmpty_ok|by intros [= <- <-]]. }
  destruct (batch l) as [|i0 rest] eqn:Eb; [by apply (Hend l false)|].
  destruct (flush call o l) as [stop l1] eqn:Ef. apply flush_ok in Ef as (Hl1 & _); [|done|by rewrite Eb].
  by apply (Hend l1 stop).
Qed.

Lemma readItems_ok fuel inner r h c h' : Forall ok_event h ->
  readItems call o fuel inner r h = Some (c, h') -> exits call c /\ Forall ok_event h'.
Proof.
  intros Hh. unfold readItems.
  destruct (mainLoop call o fuel inner (startLoop o r h)) as [[r1 l]|] eqn:E; [|done].
  apply mainLoop_ok in E as [Hl Hr]; [|split; [apply empty_batch_ok|in_codes|done]|by apply not_full_nil].
  destruct r1 as [c1|]; [intros [= <- <-]; split; [apply Hr|apply Hl]|].
  intros [= E]. by apply (afterLoop_ok l).
Qed.

Lemma runXargs_ok fuel inner h c h' : Forall ok_event h ->
  runXargs call o fuel inner h = Some (c, h') -> exits call c /\ Forall ok_event h'.
Proof.
  intros Hh. unfold runXargs.
  assert (forall c' h'', Some (finishEmpty call o 0 0 h) = Some (c', h'') -> exits call c' /\ Forall ok_event h'') as Hempty.
  { intros c' h'' [= E]. apply finishEmpty_ok in E; [done|in_codes|done]. }
  destruct (argFile o) as [|b f].
  { destruct (Stdin call); [by apply readItems_ok|by apply Hempty]. }
  destruct (_ =s "-"). { destruct (Stdin call); [by apply readItems_ok|by apply Hempty]. }
  destruct (OpenFile call (b :: f)) as [e|r].
  { intros [= <- <-]. split; [in_codes|]. by repeat constructor. }
  destruct (readItems call o fuel inner r (EvOpen (b :: f) :: h)) as [[c1 h1]|] eqn:E; [|done].
  apply readItems_ok in E as [? ?]; [|by constructor]. intros [= <- <-]. split; [done|by constructor].
Qed.

End Safety.

Lemma warnMutex_messages st : Forall (fun ev => match ev with EvErrf _ => True | _ => False end) (warnMutex st).
Proof.
  unfold warnMutex. destruct (lastBatch st); [done|..]; apply Forall_rev, Forall_fmap, Forall_forall; done.
Qed.

(** C25. Every command [xargs] runs passed the allow list and is the template of
    validated options filled with items of at most [MaxTokenBytes] bytes, no more
    than [-n] allows; its command line fits [-s], hence [HardMaxChars]; it runs
    in the shell's directory, with an empty standard input when the items come
    from standard input.  The exit code is one the documentation lists (0, 1,
    123, 124 or 125), except that a 127 the runner itself answers with an error,
    as the shell does to an unknown command, is passed through. *)
Theorem xargs_run_safe {R} `{ByteSource R} (call : callContext R) fuel inner p st code h :
  handler call fuel inner p st = Some (code, h) ->
  exits call code /\
  forall emptyStdin dir cmd args, EvRun emptyStdin dir cmd args ∈ h ->
  exists o items, buildOptions p st = inr o /\ resolveCmd o items = (cmd, args) /\
    Forall (fun i => len i <= MaxTokenBytes)%Z items /\
    (useMaxArgs o = true -> (Z.of_nat (length items) <= maxArgs o)%Z) /\
    (lineLength (cmd :: args) <= maxChars o <= HardMaxChars)%Z /\
    match CommandAllowed call with Some allowed => allowed cmd = true | None => True end /\
    dir = default [] (WorkDir call) /\
    emptyStdin = (reads_stdin o && bool_decide (is_Some (RunCommandWithStdin call))).
Proof.
  unfold handler. pose proof (warnMutex_messages st) as Hw.
  destruct (helpFlag p). { intros [= <- <-]. split; [in_codes|]. by intros ???? [?|?%elem_of_nil]%elem_of_cons. }
  destruct (buildOptions p st) as [u|o] eqn:Eo.
  { intros [= <- <-]. split; [in_codes|]. intros es dir cmd args [?|Hin]%elem_of_cons; [done|].
    by eapply (proj1 (Forall_forall _ _) Hw) in Hin. }
  pose proof (buildOptions_good _ _ _ Eo) as Hg.
  intros E. apply runXargs_ok in E as [Hc Hev]; [|done|eapply Forall_impl; [exact Hw|by intros []]].
  split; [done|]. intros es dir cmd args Hin. eapply (proj1 (Forall_forall _ _) Hev) in Hin as ((items & Er & Hf) & Ha & Hd & He).
  exists o, items. destruct Hf as [Hcap Hcnt Hline]. rewrite Er in Hline. rewrite lineLength_cons.
  split_and!; try done. apply Hg.
Qed.

End XargsRun.
