(* ===== verification/XargsItems.v ===== *)
(** Termination of [xargs] and the path of the items: from the input, through the
    tokenizer and the batches, to the commands run. *)

From S2P Require Import Prelude GoStd BoundedReplace Bufio XargsInput Xargs XargsRun.
From stdpp Require Import base list strings.
From Stdlib Require Import ZArith Lia Ascii.

Module XargsItems.
Import GoStd BoundedReplace Bufio XargsTok XargsInput Xargs XargsRun.

(** Where the items come from. *)
Definition source {R} `{ByteSource R} (call : callContext R) (o : options) : option R :=
  if reads_stdin o then Stdin call
  else match OpenFile call (argFile o) with inr r => Some r | inl _ => None end.

(** The items of the input [bs], read without cancellation, and the error that
    ends them, if any. *)
#[local] Hint Extern 1 (ByteSource bytes) => exact (list_source EOF) : typeclass_instances.
Definition live : nat -> bool := fun _ => false.

Fixpoint tokens (o : options) (fuel inner : nat) (u : tokenizer bytes) : list bytes * option tokErr :=
  match fuel with
  | 0 => ([], None)
  | S fuel =>
      match next live o inner u with
      | Some (TItem i _, u) => let '(l, e) := tokens o fuel inner u in (i :: l, e)
      | Some (TErr e, _) => ([], Some e)
      | _ => ([], None)
      end
  end.

(** Fuel for the loop and for [next] on an input of [n] bytes. *)
Definition loopFuel (n : nat) : nat := n + 2.
Definition tokenFuel (n : nat) : nat := n + 1.

Definition itemsOf (o : options) (bs : bytes) : list bytes * option tokErr :=
  tokens o (loopFuel (length bs)) (tokenFuel (length bs)) (newTokenizer bs 0).

Section Run.
Context {R : Type} `{ByteSourceLaws R} (call : callContext R) (o : options).

(** ** The loop only counts polls on its tokenizer *)

Lemma flush_tok l : tok (snd (flush call o l)) = set_polls (S (polls (tok l))) (tok l).
Proof. unfold flush. by destruct (invokeCommand _ _ _ _ _) as [[??]?]. Qed.

Definition polled (t t' : tokenizer R) : Prop := exists k, t' = set_polls (polls t + k) t.

Lemma polled_refl t : polled t t.
Proof. exists 0. destruct t. unfold set_polls. cbn. by rewrite Nat.add_0_r. Qed.

Lemma polled_flush t l : polled t (tok l) -> polled t (tok (snd (flush call o l))).
Proof.
  intros [k E]. rewrite flush_tok, E. exists (S k). unfold set_polls. cbn. f_equal. lia.
Qed.

Lemma makeRoom_tok add l : polled (tok l) (tok (snd (makeRoom call o add l))).
Proof.
  unfold makeRoom. destruct (negb _ && _); [|apply polled_refl].
  destruct ((useMaxLines o || exitOnSize o && useMaxArgs o) && _); [apply polled_refl|].
  destruct (batch l) as [|i0 rest]; [destruct (_ <? _)%Z; apply polled_refl|].
  pose proof (polled_flush (tok l) l (polled_refl _)) as Hf. destruct (flush call o l) as [[] l1]; [done|].
  by destruct (_ <? _)%Z.
Qed.

Lemma takeItem_tok i b l : polled (tok l) (tok (snd (takeItem call o i b l))).
Proof.
  unfold takeItem. pose proof (makeRoom_tok (len i + 1) l) as Hm.
  destruct (makeRoom call o (len i + 1) l) as [[c|] l1]; [done|].
  destruct (shouldFlush o (addItem i b l1)); [|done].
  pose proof (polled_flush (tok l) (addItem i b l1) Hm) as Hf. by destruct (flush call o (addItem i b l1)).
Qed.

Section Related.
Context (c' : nat -> bool) (e : ioerr).
#[local] Hint Extern 0 (ByteSource bytes) => exact (list_source e) : typeclass_instances.
Abbreviation rel := (related (ctxErr call) c' e).

Lemma related_polled t t' u : rel t u -> polled t t' -> exists k, rel t' (set_polls (polls u + k) u).
Proof.
  intros [] [k ->]. exists k. split; try done. cbn. intros k'. rewrite <- !Nat.add_assoc. apply rel_polls0.
Qed.

Lemma related_warn l u : rel (tok l) u -> rel (tok (warnNul l)) u.
Proof. intros []. unfold warnNul. destruct (_ && _); by split. Qed.

End Related.

(** ** Termination *)

Lemma mainLoop_terminates e fuel inner l (u : tokenizer bytes) :
  related (ctxErr call) (ctxErr call) e (tok l) u -> length (rd u) < inner ->
  length (rd u) + (if eof u then 0 else 1) < fuel -> is_Some (mainLoop call o fuel inner l).
Proof.
  revert l u. induction fuel as [|fuel IH]; intros l u Hr Hi Hf; [lia|]. cbn [mainLoop].
  pose proof (related_ctxDone _ _ _ _ _ Hr) as [_ Hd].
  destruct (ctxDone (ctxErr call) (tok l)) as [stop t] eqn:Et. cbn [snd] in Hd.
  destruct stop; [by eexists|].
  set (u1 := snd (ctxDone (ctxErr call) u)) in *.
  assert (rd u1 = rd u /\ eof u1 = eof u) as [E1 E2] by done.
  pose proof (next_agree _ _ o e inner _ _ Hd) as Ha.
  pose proof (next_lands (ctxErr call) o e inner u1) as Hl. rewrite E1 in Hl. specialize (Hl Hi).
  destruct Hl as (r & u2 & En & Hlen & Hitem). inversion Ha as [Hn Hn'|a t2 u2' Hr2 Hn Hn'].
  { rewrite En in Hn'. done. }
  rewrite En in Hn'. injection Hn' as -> ->.
  destruct r as [er| |item b]; [by eexists..|].
  pose proof (takeItem_tok item b (warnNul (set_tok t2 (set_tok t l)))) as Hp.
  destruct (takeItem call o item b _) as [[c|] l1]; [by eexists|]. cbn [snd] in Hp.
  apply (related_polled (ctxErr call) e _ _ u2) in Hp as [k Hk]; [|by apply related_warn].
  eapply IH; [exact Hk|cbn; lia|]. cbn.
  assert (eof u = false) as Ee.
  { destruct (eof u) eqn:Ee; [|done]. unfold next in En. rewrite E2 in En. done. }
  rewrite Ee in Hf. destruct Hitem as [->|]; [lia|]. destruct (eof u2); lia.
Qed.

Lemma related_start ctx bs e r : delivers r bs e -> related ctx ctx e (newTokenizer r 0) (newTokenizer bs 0).
Proof. by split. Qed.

Lemma readItems_terminates e bs r h : delivers r bs e ->
  is_Some (readItems call o (loopFuel (length bs)) (tokenFuel (length bs)) r h).
Proof.
  intros Hd. unfold readItems, loopFuel, tokenFuel.
  destruct (mainLoop_terminates e (length bs + 2) (length bs + 1) (startLoop o r h) (newTokenizer bs 0)) as [[r1 l] ->].
  - by apply related_start.
  - cbn. lia.
  - cbn. lia.
  - by destruct r1; eexists.
Qed.

Lemma runXargs_terminates e bs h : (forall r, source call o = Some r -> delivers r bs e) ->
  is_Some (runXargs call o (loopFuel (length bs)) (tokenFuel (length bs)) h).
Proof.
  unfold source, runXargs, reads_stdin. intros Hs.
  destruct (argFile o) as [|b f].
  { destruct (Stdin call); [|by eexists]. by eapply readItems_terminates, Hs. }
  destruct (_ =s "-"). { destruct (Stdin call); [|by eexists]. by eapply readItems_terminates, Hs. }
  destruct (OpenFile call (b :: f)) as [er|r]; [by eexists|].
  destruct (readItems_terminates e bs r (EvOpen (b :: f) :: h)) as [[c h'] ->]; [by apply Hs|by eexists].
Qed.

(** ** The items reach the commands in order *)

(** From [h] to [h'] the batches [bss] were run, one command each. *)
Definition ran (bss : list (list bytes)) (h h' : history) : Prop :=
  runs_of h' = runs_of h ++ map (resolveCmd o) bss.

Lemma ran_nil h : ran [] h h.
Proof. unfold ran. by rewrite app_nil_r. Qed.

Lemma ran_trans b1 b2 h1 h2 h3 : ran b1 h1 h2 -> ran b2 h2 h3 -> ran (b1 ++ b2) h1 h3.
Proof. unfold ran. intros E1 ->. by rewrite E1, map_app, app_assoc. Qed.

Lemma ran_quiet h m : ran [] h (EvErrf m :: h).
Proof. unfold ran, runs_of. cbn. by rewrite app_nil_r. Qed.

Lemma invokeCommand_ran items n h c stop h' :
  invokeCommand call o items n h = ((c, stop), h') ->
  (0 <= c)%Z /\ (stop = true -> (1 <= c)%Z) /\ (ran [items] h h' \/ ran [] h h' /\ stop = true).
Proof.
  intros E. apply invokeCommand_spec in E as (Hc & Hs & Hr & _). split; [|split; [done|]].
  - destruct Hc as [Hc|[-> _]]; [|lia]. unfold documented in Hc.
    repeat (apply elem_of_cons in Hc as [->|Hc]; [lia|]). by apply elem_of_nil in Hc.
  - destruct Hr as [Hr|[Hr ?]]; [by left|right]. split; [|done]. unfold ran. by rewrite app_nil_r.
Qed.

(** The batches run and the batch kept are the items had before. *)
Lemma flush_ran l stop l' : flush call o l = (stop, l') -> (0 <= finalCode l)%Z ->
  batch l' = [] /\ (finalCode l <= finalCode l')%Z /\ (stop = true -> (1 <= finalCode l')%Z) /\
  exists bss, ran bss (hist l) (hist l') /\ (mjoin bss = batch l \/ bss = [] /\ stop = true).
Proof.
  unfold flush. destruct (invokeCommand _ _ _ _ _) as [[c s] h] eqn:E. intros [= <- <-] H0'. cbn.
  apply invokeCommand_ran in E as (Hc & Hs & Hr). split_and!; [done|lia|intros Hst; specialize (Hs Hst); lia|].
  destruct Hr as [Hr|[Hr ->]]; [exists [batch l]|exists []]; (split; [done|]); [left|by right].
  cbn. apply app_nil_r.
Qed.

(** From [l] to [l'] with the items [more] added, ended early by [r]: every item
    went to a command or is kept; on an early end a prefix did, and the code is
    not zero. *)
Definition moved (more : list bytes) (l : loop R) (r : option Z) (l' : loop R) : Prop :=
  (finalCode l <= finalCode l')%Z /\
  exists bss, ran bss (hist l) (hist l') /\
    match r with
    | None => mjoin bss ++ batch l' = batch l ++ more
    | Some c => mjoin bss `prefix_of` batch l ++ more /\ (1 <= c)%Z
    end.

Lemma items_moved_refl l : moved [] l None l.
Proof. split; [done|]. exists []. split; [apply ran_nil|]. cbn. by rewrite app_nil_r. Qed.

Lemma moved_prefix more more' l c l' : moved more l (Some c) l' -> moved (more ++ more') l (Some c) l'.
Proof.
  intros (Hf & bss & Hr & Hp & Hc). split; [done|]. exists bss. split; [done|]. split; [|done].
  rewrite app_assoc. by apply prefix_app_r.
Qed.

Lemma mjoin_app {A} (b1 b2 : list (list A)) : mjoin (b1 ++ b2) = mjoin b1 ++ mjoin b2.
Proof. induction b1 as [|b b1 IH]; [done|]. cbn. rewrite <- app_assoc. f_equal. apply IH. Qed.

Lemma items_moved_trans m1 m2 l1 l2 r l3 : moved m1 l1 None l2 -> moved m2 l2 r l3 -> moved (m1 ++ m2) l1 r l3.
Proof.
  intros (Hf1 & b1 & Hr1 & E1) (Hf2 & b2 & Hr2 & E2). split; [lia|]. exists (b1 ++ b2).
  split; [by eapply ran_trans|]. rewrite mjoin_app. rewrite (app_assoc (batch l1)), <- E1, <- !app_assoc.
  destruct r as [c|]; [|by rewrite E2]. destruct E2 as [Hp Hc]. split; [|done]. by apply prefix_app.
Qed.

(** Changes that leave the history and the batch alone. *)
Lemma moved_same l l' :
  ran [] (hist l) (hist l') -> batch l' = batch l -> (finalCode l <= finalCode l')%Z -> moved [] l None l'.
Proof. intros Hh Eb Hc. split; [done|]. exists []. split; [done|]. cbn. by rewrite Eb, app_nil_r. Qed.

Lemma flush_moved l stop l' : flush call o l = (stop, l') -> (0 <= finalCode l)%Z ->
  moved [] l (if stop then Some (finalCode l') else None) l'.
Proof.
  intros E Hz. apply flush_ran in E as (Eb & Hf & Hs & bss & Hr & Hb); [|done]. split; [done|].
  exists bss. split; [done|]. destruct stop.
  - split; [|by apply Hs]. rewrite app_nil_r. destruct Hb as [->|[-> _]]; [done|apply prefix_nil].
  - destruct Hb as [->|[_ ?]]; [|done]. by rewrite Eb.
Qed.

Lemma makeRoom_moved add l r l' : makeRoom call o add l = (r, l') -> (0 <= finalCode l)%Z -> moved [] l r l'.
Proof.
  intros E Hz. revert E. unfold makeRoom. destruct (negb _ && _); [|intros [= <- <-]; apply items_moved_refl].
  assert (forall l m, moved [] l (Some 1%Z) (say m l)) as Hsay.
  { intros l0 m. split; [done|]. exists []. split; [apply ran_quiet|]. split; [apply prefix_nil|done]. }
  destruct ((useMaxLines o || exitOnSize o && useMaxArgs o) && _); [intros [= <- <-]; apply Hsay|].
  destruct (batch l) as [|i0 rest].
  { destruct (_ <? _)%Z; intros [= <- <-]; [apply Hsay|apply items_moved_refl]. }
  destruct (flush call o l) as [stop l1] eqn:Ef. apply flush_moved in Ef; [|done].
  destruct stop; [by intros [= <- <-]|].
  destruct (_ <? _)%Z; intros [= <- <-]; [|done]. apply (items_moved_trans [] [] _ _ _ _ Ef), Hsay.
Qed.

Lemma takeItem_moved i b l r l' : takeItem call o i b l = (r, l') -> (0 <= finalCode l)%Z -> moved [i] l r l'.
Proof.
  intros E Hz. revert E. unfold takeItem. destruct (makeRoom call o (len i + 1) l) as [r1 l1] eqn:Em.
  apply makeRoom_moved in Em; [|done]. destruct r1 as [c|]; [intros [= <- <-]; by apply (moved_prefix [] [i])|].
  assert (moved [i] l None (addItem i b l1)) as Ha.
  { apply (items_moved_trans [] [i] _ _ _ _ Em). split; [done|]. exists []. split; [apply ran_nil|done]. }
  destruct (shouldFlush o (addItem i b l1)); [|by intros [= <- <-]].
  destruct (flush call o (addItem i b l1)) as [stop l2] eqn:Ef. intros [= <- <-].
  apply (items_moved_trans [i] [] _ _ _ _ Ha). apply flush_moved; [done|]. destruct Ha. lia.
Qed.

Lemma warnNul_moved l : moved [] l None (warnNul l).
Proof. unfold warnNul. destruct (_ && _); [|apply items_moved_refl]. apply moved_same; [apply ran_quiet|done|done]. Qed.

(** Against a context that is not cancelled, polls do not matter. *)
Lemma related_live t t' u :
  related (ctxErr call) live EOF t u -> polled t t' -> related (ctxErr call) live EOF t' u.
Proof.
  intros [] [k ->]. split; try done. cbn. intros k'. rewrite <- Nat.add_assoc. by rewrite rel_polls0.
Qed.

Lemma polled_ctxDone t : polled t (snd (ctxDone (ctxErr call) t)).
Proof. exists 1. cbn. by rewrite Nat.add_comm. Qed.

(** The loop against the items of the same input. *)
Lemma mainLoop_moved fuel inner l u r l' :
  related (ctxErr call) live EOF (tok l) u -> (0 <= finalCode l)%Z ->
  mainLoop call o fuel inner l = Some (r, l') ->
  exists more rest, fst (tokens o fuel inner u) = more ++ rest /\ moved more l r l' /\
    (r = None -> rest = [] /\ (snd (tokens o fuel inner u) <> None -> (1 <= finalCode l')%Z)).
Proof.
  revert l u. induction fuel as [|fuel IH]; intros l u Hr Hz; cbn [mainLoop tokens]; [done|].
  pose proof (related_live _ _ _ Hr (polled_ctxDone _)) as Hd.
  assert (fst (ctxDone (ctxErr call) (tok l)) = false) as Ec.
  { cbn. rewrite <- (Nat.add_0_r (polls (tok l))). apply (rel_polls _ _ _ _ _ Hr 0). }
  destruct (ctxDone (ctxErr call) (tok l)) as [stop t] eqn:Et. cbn [fst snd] in Ec, Hd. subst stop.
  destruct (next_agree _ _ o EOF inner _ _ Hd) as [|a t2 u2 H2]; [done|].
  destruct a as [er| |item b].
  - intros [= <- <-]. exists [], []. split_and!; [done| |intros _; split; [done|cbn; lia]].
    apply moved_same; [apply ran_quiet|done|cbn; lia].
  - intros [= <- <-]. exists [], []. split_and!; [done|apply (warnNul_moved (set_tok t2 (set_tok t l)))|done].
  - set (l1 := warnNul (set_tok t2 (set_tok t l))).
    pose proof (warnNul_moved (set_tok t2 (set_tok t l))) as Hw. fold l1 in Hw.
    assert (related (ctxErr call) live EOF (tok l1) u2) as Hr1 by by apply related_warn.
    pose proof (takeItem_tok item b l1) as Hp.
    destruct (takeItem call o item b l1) as [r1 l2] eqn:Etk. cbn [snd] in Hp.
    apply takeItem_moved in Etk; [|destruct Hw; cbn in *; lia].
    apply (items_moved_trans [] [item] _ _ _ _ Hw) in Etk. cbn [app] in Etk.
    destruct (tokens o fuel inner u2) as [items er] eqn:Eit. cbn [fst snd].
    destruct r1 as [c|]. { intros [= <- <-]. exists [item], items. by split_and!. }
    intros Em. apply (IH l2 u2) in Em as (more & rest & E & Hm & Hrest).
    + rewrite Eit in E, Hrest. cbn [fst snd] in E, Hrest. subst items. exists (item :: more), rest.
      split_and!; [done| |done]. by apply (items_moved_trans [item] more _ _ _ _ Etk).
    + by eapply related_live.
    + destruct Etk. cbn in *. lia.
Qed.

Lemma finishEmpty_ran prior n h c h' : finishEmpty call o prior n h = (c, h') ->
  (prior <= c)%Z /\ exists bss, ran bss h h' /\ mjoin bss = [].
Proof.
  unfold finishEmpty.
  assert (exists bss, ran bss h h /\ mjoin bss = @nil bytes) as Hnone by (exists []; split; [apply ran_nil|done]).
  destruct (noRunEmpty o); [by intros [= <- <-]|].
  destruct (useReplace o); [by intros [= <- <-]|].
  destruct (_ <? _)%Z. { intros [= <- <-]. split; [lia|]. exists []. split; [apply ran_quiet|done]. }
  destruct (invokeCommand call o [] n h) as [[c1 s] h1] eqn:E. intros [= <- <-]. split; [lia|].
  apply invokeCommand_ran in E as (_ & _ & [Hr|[Hr _]]); [exists [[]]|exists []]; done.
Qed.

Lemma afterLoop_moved l c h : afterLoop call o l = (c, h) -> (0 <= finalCode l)%Z ->
  (finalCode l <= c)%Z /\
  exists bss, ran bss (hist l) h /\ mjoin bss `prefix_of` batch l /\ (c = 0%Z -> mjoin bss = batch l).
Proof.
  intros E Hz. revert E. unfold afterLoop.
  assert (forall l1 : loop R, (if (totalItems l1 =? 0)%Z && negb (tokErred l1)
     then finishEmpty call o (finalCode l1) (polls (tok l1)) (hist l1)
     else (finalCode l1, hist l1)) = (c, h) ->
     (finalCode l1 <= c)%Z /\ exists bss, ran bss (hist l1) h /\ mjoin bss = []) as Hend.
  { intros l1. destruct (_ && _); [apply finishEmpty_ran|]. intros [= <- <-]. split; [done|].
    exists []. split; [apply ran_nil|done]. }
  destruct (batch l) as [|i0 rest] eqn:Eb.
  { intros E. apply (Hend l) in E as (Hc & bss & Hr & Hj). split; [done|]. exists bss. by rewrite Hj. }
  rewrite <- Eb. clear i0 rest Eb.
  destruct (flush call o l) as [stop l1] eqn:Ef. apply flush_ran in Ef as (_ & Hf & Hs & bss & Hr & Hb); [|done].
  destruct stop.
  - intros [= <- <-]. split; [done|]. exists bss. split; [done|]. specialize (Hs eq_refl).
    split; [|lia]. destruct Hb as [->|[-> _]]; [done|apply prefix_nil].
  - intros E. apply (Hend l1) in E as (Hc & b2 & Hr2 & Hj2). split; [lia|]. exists (bss ++ b2).
    split; [by eapply ran_trans|]. rewrite mjoin_app, Hj2, app_nil_r. by destruct Hb as [->|[_ ?]].
Qed.

Lemma readItems_moved bs r h c h' :
  delivers r bs EOF -> (forall n, ctxErr call n = false) ->
  readItems call o (loopFuel (length bs)) (tokenFuel (length bs)) r h = Some (c, h') ->
  exists bss, ran bss h h' /\ mjoin bss `prefix_of` fst (itemsOf o bs) /\
    (c = 0%Z -> mjoin bss = fst (itemsOf o bs) /\ snd (itemsOf o bs) = None).
Proof.
  intros Hd Hlive. unfold readItems, itemsOf.
  destruct (mainLoop call o _ _ (startLoop o r h)) as [[r1 l]|] eqn:E; [|done].
  apply (mainLoop_moved _ _ _ (newTokenizer bs 0)) in E as (more & rest & -> & (Hf & bss & Hr & Hm) & Hrest);
    [|split; try done; intros k; apply Hlive|done].
  destruct r1 as [c1|].
  { intros [= <- <-]. exists bss. destruct Hm as [Hp Hc]. split_and!; [done|by apply prefix_app_r|lia]. }
  destruct (Hrest eq_refl) as [-> Herr]. intros [= E]. cbn [batch startLoop app] in Hm.
  apply afterLoop_moved in E as (Hc & b2 & Hr2 & Hp2 & H02); [|cbn in Hf; lia].
  exists (bss ++ b2). rewrite app_nil_r, mjoin_app, <- Hm. split_and!; [by eapply ran_trans|by apply prefix_app|].
  intros ->. rewrite H02 by done. split; [done|]. destruct (snd _); [|done].
  specialize (Herr ltac:(done)). lia.
Qed.

Lemma runXargs_moved bs c h h' :
  (forall r, source call o = Some r -> delivers r bs EOF) -> is_Some (source call o) ->
  (forall n, ctxErr call n = false) ->
  runXargs call o (loopFuel (length bs)) (tokenFuel (length bs)) h = Some (c, h') ->
  exists bss, ran bss h h' /\ mjoin bss `prefix_of` fst (itemsOf o bs) /\
    (c = 0%Z -> mjoin bss = fst (itemsOf o bs) /\ snd (itemsOf o bs) = None).
Proof.
  unfold source, runXargs, reads_stdin. intros Hs [r0 Hsrc] Hlive.
  destruct (argFile o) as [|b f].
  { destruct (Stdin call); [|done]. by apply readItems_moved; [apply Hs|]. }
  destruct (_ =s "-"). { destruct (Stdin call); [|done]. by apply readItems_moved; [apply Hs|]. }
  destruct (OpenFile call (b :: f)) as [er|r]; [done|].
  destruct (readItems call o _ _ r (EvOpen (b :: f) :: h)) as [[c1 h1]|] eqn:E; [|done].
  intros [= <- <-]. apply readItems_moved in E as (bss & Hr & Hrest); [|by apply Hs|done]. exists bss.
  split; [|done]. unfold ran, runs_of in *. cbn in *. done.
Qed.


End Run.

(** [xargs] terminates on every finite input, whatever the commands answer and
    whenever the context is cancelled: [loopFuel] and [tokenFuel] of the number
    of bytes are enough. *)
Theorem xargs_terminates {R} `{ByteSourceLaws R} (call : callContext R) p st bs e :
  (forall o r, buildOptions p st = inr o -> source call o = Some r -> delivers r bs e) ->
  exists code h, handler call (loopFuel (length bs)) (tokenFuel (length bs)) p st = Some (code, h).
Proof.
  intros Hs. unfold handler. destruct (helpFlag p); [by eexists _, _|].
  destruct (buildOptions p st) as [u|o] eqn:Eo; [by eexists _, _|].
  destruct (runXargs_terminates call o e bs (warnMutex st)) as [[c h] ->]; [|by eexists _, _].
  intros r. by apply Hs.
Qed.

Lemma warnMutex_runs st : runs_of (warnMutex st) = [].
Proof.
  unfold runs_of. induction (warnMutex_messages st) as [|[] ms Hm Hms IH]; done || exact IH.
Qed.

(** C26. On an input read to its end, the items reach the commands once, whole and
    in order: the batches run are consecutive pieces of the items of the input,
    and on exit code 0 they are all of them and the input had no error.  The
    result is the same for every reader that delivers these bytes. *)
Theorem xargs_delivers_items {R} `{ByteSourceLaws R} (call : callContext R) p st o r bs code h :
  helpFlag p = false -> buildOptions p st = inr o ->
  source call o = Some r -> delivers r bs EOF -> (forall n, ctxErr call n = false) ->
  handler call (loopFuel (length bs)) (tokenFuel (length bs)) p st = Some (code, h) ->
  exists bss, runs_of h = map (resolveCmd o) bss /\
    mjoin bss `prefix_of` fst (itemsOf o bs) /\
    (code = 0%Z -> mjoin bss = fst (itemsOf o bs) /\ snd (itemsOf o bs) = None).
Proof.
  intros Hp Ho Hsrc Hd Hlive. unfold handler. rewrite Hp, Ho.
  intros E. apply runXargs_moved in E as (bss & Hr & Hrest); [|by rewrite Hsrc; intros ? [= <-]|by eexists|done].
  exists bss. split; [|done]. unfold ran in Hr. rewrite Hr.
  by rewrite warnMutex_runs.
Qed.

(** ** Names written as input are read back *)

Section Names.
Context (o : options).
Implicit Types u v : tokenizer bytes.

Lemma pollRead_byte u b bs : rd u = b :: bs ->
  exists v, pollRead live u = (GByte b, v) /\ rd v = bs /\ buf v = buf u /\ eof v = eof u.
Proof.
  intros E. unfold pollRead, pollCtx, ctxDone, live. destruct (_ =? 0)%Z; cbn; rewrite E; eexists; by split_and!.
Qed.

Lemma pollRead_end u : rd u = [] ->
  exists v, pollRead live u = (GEof, v) /\ rd v = [] /\ buf v = buf u /\ eof v = true.
Proof.
  intros E. unfold pollRead, pollCtx, ctxDone, live. destruct (_ =? 0)%Z; cbn; rewrite E; eexists; by split_and!.
Qed.

Definition room (u : tokenizer bytes) (n : nat) : Prop := (Z.of_nat (length (buf u) + n) <= MaxTokenBytes)%Z.

Lemma pushByte_room b u n : room u (S n) ->
  pushByte b u = Some (set_buf (buf u ++ [b]) u) /\ room (set_buf (buf u ++ [b]) u) n.
Proof.
  unfold room, pushByte. intros Hr. destruct (Z.leb_spec MaxTokenBytes (Z.of_nat (length (buf u)))); [lia|].
  split; [done|]. cbn. rewrite length_app. cbn. lia.
Qed.

(** A record of [-0] or [-d] without the separator and without NUL. *)
Lemma delimLoop_record s : forall sep saw rest fuel u,
  Forall (fun c => (c =c "000") = false /\ Ascii.eqb c sep = false) s ->
  rd u = s ++ sep :: rest -> room u (length s) -> length s < fuel ->
  exists v, delimLoop live fuel sep false saw u = Some (TItem (buf u ++ s) true, v) /\ rd v = rest /\ eof v = eof u.
Proof.
  induction s as [|c s IH]; intros sep saw rest fuel u Hs Hu Hroom Hf; destruct fuel as [|fuel]; try (cbn in Hf; lia);
    cbn [delimLoop app] in *.
  - destruct (pollRead_byte u sep rest Hu) as (v & -> & Hv & Hb & He). rewrite Ascii.eqb_refl.
    exists v. by rewrite Hb, app_nil_r.
  - destruct (pollRead_byte u c (s ++ sep :: rest) Hu) as (v & -> & Hv & Hb & He).
    apply Forall_cons in Hs as [[-> ->] Hs].
    destruct (pushByte_room c v (length s)) as [Hp Hroom']; [unfold room in *; by rewrite Hb|].
    unfold pushThen. rewrite Hp.
    destruct (IH sep true rest fuel (set_buf (buf v ++ [c]) v) Hs Hv Hroom') as (w & -> & Hw & Hew); [cbn in Hf; lia|].
    exists w. cbn [buf set_buf eof] in *. rewrite Hew, Hb, <- app_assoc. by split_and!.
Qed.

(** Reading the records one after the other. *)
Lemma tokens_step fuel inner u i b v :
  next live o inner u = Some (TItem i b, v) ->
  tokens o (S fuel) inner u = (i :: fst (tokens o fuel inner v), snd (tokens o fuel inner v)).
Proof. intros E. cbn [tokens]. rewrite E. by destruct (tokens o fuel inner v). Qed.

(** A way to write an item, [next] reading it back. *)
Definition reads_back (write : bytes -> bytes) (ok : bytes -> Prop) : Prop :=
  forall i rest inner u, ok i -> eof u = false -> rd u = write i ++ rest -> length (rd u) < inner ->
  exists b v, next live o inner u = Some (TItem i b, v) /\ rd v = rest /\ eof v = false.

Lemma tokens_written write ok items : 
  reads_back write ok -> Forall ok items -> (forall i, ok i -> write i <> []) ->
  (forall inner u, 0 < inner -> eof u = false -> rd u = [] -> exists v, next live o inner u = Some (TEnd, v)) ->
  forall fuel inner u, eof u = false -> rd u = mjoin (map write items) -> length (rd u) < inner ->
  length items < fuel -> tokens o fuel inner u = (items, None).
Proof.
  intros Hw Hok Hne Hend. induction Hok as [|i items Hi Hok IH]; intros fuel inner u He Hu Hin Hf; cbn in Hu.
  - destruct fuel; [cbn in Hf; lia|]. cbn [tokens]. destruct (Hend inner u) as [v ->]; [lia|done..].
  - destruct fuel as [|fuel]; [cbn in Hf; lia|].
    destruct (Hw i (mjoin (map write items)) inner u Hi He Hu Hin) as (b & v & En & Hv & Hev).
    rewrite (tokens_step _ _ _ _ _ _ En).
    rewrite (IH fuel inner v); [done|done|done| |cbn in Hf; lia].
    rewrite Hv. rewrite Hu in Hin. rewrite length_app in Hin. lia.
Qed.

(** *** Records with a separator *)

Definition record_ok (sep : ascii) (i : bytes) : Prop :=
  Forall (fun c => (c =c "000") = false /\ Ascii.eqb c sep = false) i /\ (len i <= MaxTokenBytes)%Z.

Lemma record_reads_back sep :
  (forall inner u, eof u = false -> next live o inner u = nextDelimited live inner sep u) ->
  reads_back (fun i => i ++ [sep]) (record_ok sep).
Proof.
  intros Hn i rest inner u [Hi Hl] He Hu Hin. rewrite Hn by done. unfold nextDelimited.
  destruct (delimLoop_record i sep false rest inner (set_buf [] u)) as (v & E & Hv & Hev).
  - done.
  - cbn. by rewrite Hu, <- app_assoc.
  - unfold room. cbn. exact Hl.
  - rewrite Hu in Hin. rewrite !length_app in Hin. cbn in Hin. lia.
  - exists true, v. cbn in E, Hev. by rewrite E, Hev.
Qed.

(** *** Quoted words *)

Definition word_ok (i : bytes) : Prop :=
  Forall (fun c => (c =c "000") = false /\ (c =c ch_nl) = false) i /\ (len i <= MaxTokenBytes)%Z.

(** A byte neither loop gives a meaning. *)
Definition plain (c : ascii) : Prop := (c =c "000") = false /\ existsb (Ascii.eqb c) shellMeta = false.

Section Loop.
(** The two quoting loops, [wordLoop] and [lineLoop], through the steps they share. *)
Context (L : nat -> option ascii -> tokenizer bytes -> option (tokRes * tokenizer bytes)).

(** After a step that reads [u] up to [bs] and adds [more] to the token. *)
Definition after (u : tokenizer bytes) (bs more : bytes) (v : tokenizer bytes) : Prop :=
  rd v = bs /\ buf v = buf u ++ more /\ eof v = eof u.

Record quoting_loop : Prop := {
  on_plain f u c bs : rd u = c :: bs -> plain c -> room u 1 ->
    exists v, L (S f) None u = L f None v /\ after u bs [c] v;
  on_open f u bs : rd u = ch_sq :: bs -> exists v, L (S f) None u = L f (Some ch_sq) v /\ after u bs [] v;
  on_escape f u c bs : rd u = ch_bs :: c :: bs -> room u 1 ->
    exists v, L (S f) None u = L f None v /\ after u bs [c] v;
  on_quoted f u c bs : rd u = c :: bs -> (c =c ch_sq) = false -> (c =c ch_nl) = false -> room u 1 ->
    exists v, L (S f) (Some ch_sq) u = L f (Some ch_sq) v /\ after u bs [c] v;
  on_close f u bs : rd u = ch_sq :: bs -> exists v, L (S f) (Some ch_sq) u = L f None v /\ after u bs [] v;
  on_newline f u bs : rd u = ch_nl :: bs ->
    exists v, L (S f) None u = Some (TItem (buf u) true, v) /\ rd v = bs /\ eof v = eof u }.

Context (HL : quoting_loop).

Lemma after_trans u v w bs cs m1 m2 : after u bs m1 v -> after v cs m2 w -> after u cs (m1 ++ m2) w.
Proof. intros (E1 & E2 & E3) (F1 & F2 & F3). unfold after. by rewrite F1, F2, F3, E2, <- app_assoc. Qed.

Lemma buf_room_after u v bs more n : after u bs more v -> room u (length more + n) -> room v n.
Proof. intros (_ & E & _). unfold room. rewrite E, length_app. by rewrite Nat.add_assoc. Qed.

Lemma room_le u n m : room u m -> n <= m -> room u n.
Proof. unfold room. lia. Qed.

Lemma plain_word s : forall rest f u, Forall plain s -> rd u = s ++ rest -> room u (length s) ->
  exists v, L (length s + f) None u = L f None v /\ after u rest s v.
Proof.
  induction s as [|c s IH]; intros rest f u Hs Hu Hr.
  { exists u. split; [done|]. split; [done|]. by rewrite app_nil_r. }
  apply Forall_cons in Hs as [Hc Hs]. cbn [length Nat.add app] in *.
  destruct (on_plain HL (length s + f) u c (s ++ rest) Hu Hc) as (v & -> & Hv); [eapply room_le; [exact Hr|cbn; lia]|].
  destruct (IH rest f v Hs (proj1 Hv)) as (w & -> & Hw); [by eapply buf_room_after|].
  exists w. split; [done|]. by eapply (after_trans u v w _ _ [c] s Hv).
Qed.

(** The turns a single-quoted byte takes: the quote is closed, escaped, opened. *)
Definition turns (c : ascii) : nat := if c =c ch_sq then 3 else 1.

Lemma quoted_byte c rest f u : (c =c ch_nl) = false -> rd u = quoteByte c ++ rest -> room u 1 ->
  exists v, L (turns c + f) (Some ch_sq) u = L f (Some ch_sq) v /\ after u rest [c] v.
Proof.
  intros Hnl Hu Hr. unfold quoteByte, turns in *. destruct (Ascii.eqb_spec c ch_sq) as [->|Hne]; cbn [app] in Hu.
  - destruct (on_close HL (2 + f) u _ Hu) as (v1 & E1 & A1).
    destruct (on_escape HL (1 + f) v1 _ _ (proj1 A1)) as (v2 & E2 & A2); [by eapply buf_room_after|].
    destruct (on_open HL f v2 _ (proj1 A2)) as (v3 & E3 & A3).
    exists v3. cbn [Nat.add] in *. rewrite E1, E2, E3. split; [done|].
    eapply (after_trans u v2 v3 _ _ [ch_sq] []); [|done]. by eapply (after_trans u v1 v2 _ _ [] [ch_sq]).
  - destruct (on_quoted HL f u c rest Hu) as (v & E & A); [by apply Ascii.eqb_neq|done|done|].
    by exists v.
Qed.

Definition allTurns (s : bytes) : nat := sum_list_with turns s.

Lemma quoted_word s : forall rest f u, Forall (fun c => (c =c ch_nl) = false) s ->
  rd u = mjoin (map quoteByte s) ++ rest -> room u (length s) ->
  exists v, L (allTurns s + f) (Some ch_sq) u = L f (Some ch_sq) v /\ after u rest s v.
Proof.
  induction s as [|c s IH]; intros rest f u Hs Hu Hr.
  { exists u. split; [done|]. split; [done|]. by rewrite app_nil_r. }
  apply Forall_cons in Hs as [Hc Hs]. cbn [length map mjoin list_join] in *.
  rewrite <- app_assoc in Hu. change (allTurns (c :: s)) with (turns c + allTurns s). rewrite <- Nat.add_assoc.
  destruct (quoted_byte c _ (allTurns s + f) u Hc Hu) as (v & -> & Hv); [eapply room_le; [exact Hr|cbn; lia]|].
  destruct (IH rest f v Hs (proj1 Hv)) as (w & -> & Hw); [by eapply buf_room_after|].
  exists w. split; [done|]. by eapply (after_trans u v w _ _ [c] s Hv).
Qed.

Lemma allTurns_le s : allTurns s <= length (mjoin (map quoteByte s)).
Proof.
  induction s as [|c s IH]; [done|]. cbn [map mjoin list_join]. change (allTurns (c :: s)) with (turns c + allTurns s).
  rewrite length_app. apply Nat.add_le_mono; [|exact IH].
  unfold turns, quoteByte. destruct (c =c ch_sq); cbn; lia.
Qed.

(** The loop on a word as [shellQuote] writes it and a newline. *)
Lemma written_word i rest fuel u : word_ok i -> buf u = [] ->
  rd u = shellQuote i ++ ch_nl :: rest -> length (rd u) < fuel ->
  exists v, L fuel None u = Some (TItem i true, v) /\ rd v = rest /\ eof v = eof u.
Proof.
  intros [Hi Hl] Hb Hu Hf.
  assert (room u (length i)) as Hr by (unfold room, len in *; rewrite Hb; cbn; lia).
  assert (forall f v, after u (ch_nl :: rest) i v ->
    exists w, L (S f) None v = Some (TItem i true, w) /\ rd w = rest /\ eof w = eof u) as Hend.
  { intros f v (E1 & E2 & E3). destruct (on_newline HL f v rest E1) as (w & E & Ew & Ee).
    exists w. rewrite E, E2, Hb, Ee, E3. done. }
  assert (Forall (fun c => (c =c ch_nl) = false) i) as Hnl by (eapply Forall_impl; [exact Hi|by intros c []]).
  assert (forall f v, rd u = ch_sq :: mjoin (map quoteByte i) ++ ch_sq :: ch_nl :: rest ->
    allTurns i + 3 <= f -> exists w, L f None u = Some (TItem i true, w) /\ rd w = rest /\ eof w = eof u) as Hquoted.
  { intros f _ Eu Hlen. replace f with (S (allTurns i + S (S (f - allTurns i - 3)))) by lia.
    destruct (on_open HL (allTurns i + S (S (f - allTurns i - 3))) u _ Eu) as (v1 & -> & A1).
    destruct (quoted_word i (ch_sq :: ch_nl :: rest) (S (S (f - allTurns i - 3))) v1 Hnl (proj1 A1)) as (v2 & -> & A2);
      [by eapply buf_room_after|].
    destruct (on_close HL (S (f - allTurns i - 3)) v2 _ (proj1 A2)) as (v3 & -> & A3).
    apply Hend. pose proof (after_trans _ _ _ _ _ _ _ (after_trans _ _ _ _ _ _ _ A1 A2) A3) as A.
    by rewrite app_nil_r in A. }
  pose proof (allTurns_le i) as Ht. rewrite Hu in Hf. rewrite length_app in Hf. cbn [length] in Hf.
  unfold shellQuote in *. destruct i as [|c i].
  { apply Hquoted; [by exact u|by rewrite Hu|cbn in *; lia]. }
  destruct (containsShellMeta (c :: i)) eqn:Em.
  - apply Hquoted; [by exact u|rewrite Hu; cbn [app]; by rewrite <- app_assoc|].
    cbn [length] in Hf. rewrite length_app in Hf. cbn [length] in Hf. lia.
  - assert (Forall plain (c :: i)) as Hp.
    { apply Forall_forall. intros x Hx. split; [by eapply (proj1 (Forall_forall _ _) Hi) in Hx as []|].
      unfold containsShellMeta in Em. destruct (existsb (Ascii.eqb x) shellMeta) eqn:Ex; [|done].
      assert (existsb (fun c => existsb (Ascii.eqb c) shellMeta) (c :: i) = true) by
        (apply existsb_exists; exists x; split; [by apply list_elem_of_In|done]). congruence. }
    replace fuel with (length (c :: i) + S (fuel - length (c :: i) - 1)) by (cbn in *; lia).
    destruct (plain_word (c :: i) (ch_nl :: rest) (S (fuel - length (c :: i) - 1)) u Hp Hu Hr) as (v & -> & A).
    by apply Hend.
Qed.

End Loop.

Lemma plain_facts c : plain c ->
  (c =c "000") = false /\ (c =c ch_sq) = false /\ (c =c ch_dq) = false /\ (c =c ch_bs) = false /\
  (c =c ch_nl) = false /\ isWhitespace c = false.
Proof. intros [H0 H1]. destruct c as [[] [] [] [] [] [] [] []]; vm_compute in H1; by try discriminate H1. Qed.

Lemma pushThen_room c u (f : tokenizer bytes -> option (tokRes * tokenizer bytes)) :
  room u 1 -> pushThen c u f = f (set_buf (buf u ++ [c]) u).
Proof. intros Hr. unfold pushThen. by destruct (pushByte_room c u 0 Hr) as [-> _]. Qed.

Lemma isEofMarker_off i : eofStr o = [] -> isEofMarker o i = false.
Proof. unfold isEofMarker. by intros ->. Qed.

(** A byte read, then the case the loop takes. *)
Ltac read_byte Hu v :=
  let Hv := fresh "Hv" in let Hb := fresh "Hb" in let He := fresh "He" in let E := fresh "E" in
  destruct (pollRead_byte _ _ _ Hu) as (v & E & Hv & Hb & He); rewrite E; clear E.

Lemma wordLoop_quoting startsLine : eofStr o = [] -> quoting_loop (fun f => wordLoop live o f startsLine).
Proof.
  intros Ho. split; intros f u.
  - intros c bs Hu Hc Hr. cbn [wordLoop]. read_byte Hu v. destruct (plain_facts c Hc) as (-> & -> & -> & -> & _ & ->).
    cbn [orb]. rewrite pushThen_room by (unfold room in *; cbn; by rewrite Hb).
    eexists. split; [done|]. split; [done|]. cbn. by rewrite Hb.
  - intros bs Hu. cbn [wordLoop]. read_byte Hu v. exists v. split; [done|]. split; [done|]. by rewrite app_nil_r.
  - intros c bs Hu Hr. cbn [wordLoop]. read_byte Hu v. cbn [Ascii.eqb Bool.eqb orb]. unfold stepEscape. cbn. rewrite Hv. cbn.
    rewrite pushThen_room by (unfold room in *; cbn; by rewrite Hb).
    eexists. split; [done|]. split; [done|]. cbn. by rewrite Hb.
  - intros c bs Hu Hsq Hnl Hr. cbn [wordLoop]. read_byte Hu v. unfold stepQuoted. rewrite Hsq, Hnl.
    rewrite pushThen_room by (unfold room in *; cbn; by rewrite Hb).
    eexists. split; [done|]. split; [done|]. cbn. by rewrite Hb.
  - intros bs Hu. cbn [wordLoop]. read_byte Hu v. exists v. split; [done|]. split; [done|]. by rewrite app_nil_r.
  - intros bs Hu. cbn [wordLoop]. read_byte Hu v. cbn. unfold emitToken. rewrite isEofMarker_off by done.
    eexists. split; [cbn; by rewrite Hb|done].
Qed.

Lemma lineLoop_quoting : eofStr o = [] -> quoting_loop (lineLoop live o).
Proof.
  intros Ho. split; intros f u.
  - intros c bs Hu Hc Hr. cbn [lineLoop]. read_byte Hu v. destruct (plain_facts c Hc) as (-> & -> & -> & -> & -> & _).
    cbn [orb]. rewrite pushThen_room by (unfold room in *; by rewrite Hb).
    eexists. split; [done|]. split; [done|]. cbn. by rewrite Hb.
  - intros bs Hu. cbn [lineLoop]. read_byte Hu v. exists v. split; [done|]. split; [done|]. by rewrite app_nil_r.
  - intros c bs Hu Hr. cbn [lineLoop]. read_byte Hu v. cbn [Ascii.eqb Bool.eqb orb]. unfold stepEscape. cbn. rewrite Hv. cbn.
    rewrite pushThen_room by (unfold room in *; cbn; by rewrite Hb).
    eexists. split; [done|]. split; [done|]. cbn. by rewrite Hb.
  - intros c bs Hu Hsq Hnl Hr. cbn [lineLoop]. read_byte Hu v. unfold stepQuoted. rewrite Hsq, Hnl.
    rewrite pushThen_room by (unfold room in *; cbn; by rewrite Hb).
    eexists. split; [done|]. split; [done|]. cbn. by rewrite Hb.
  - intros bs Hu. cbn [lineLoop]. read_byte Hu v. exists v. split; [done|]. split; [done|]. by rewrite app_nil_r.
  - intros bs Hu. cbn [lineLoop]. read_byte Hu v. cbn. unfold emitToken. rewrite isEofMarker_off by done.
    eexists. split; [cbn; by rewrite Hb|done].
Qed.

(** A written word starts with no blank. *)
Lemma shellQuote_head i : word_ok i -> exists c cs, shellQuote i = c :: cs /\ isWhitespace c = false.
Proof.
  intros [Hi _]. unfold shellQuote. destruct i as [|c i]; [by eexists _, _|].
  destruct (containsShellMeta (c :: i)) eqn:Em; [by eexists _, _|]. eexists _, _. split; [done|].
  apply Forall_cons in Hi as [[H0 _] _]. unfold containsShellMeta in Em. cbn [existsb] in Em.
  apply orb_false_iff in Em as [Em _]. by apply (plain_facts c).
Qed.

Lemma skipBlanks_stay track fuel u c cs : rd u = c :: cs -> isWhitespace c = false -> 0 < fuel ->
  exists v, skipBlanks live fuel track u = (Some (inr tt), v) /\ rd v = rd u /\ buf v = buf u /\ eof v = eof u.
Proof.
  intros Hu Hc Hf. destruct fuel as [|fuel]; [lia|]. cbn [skipBlanks]. read_byte Hu v. rewrite Hc.
  eexists. split; [done|]. cbn. by rewrite Hv, Hu.
Qed.

Definition reads_words : Prop := (mode o = modeWhitespace \/ mode o = modeLine) /\ eofStr o = [].

Lemma word_reads_back : reads_words -> reads_back (fun i => shellQuote i ++ [ch_nl]) word_ok.
Proof.
  intros [Hm Ho] i rest inner u Hi He Hu Hin.
  assert (rd u = shellQuote i ++ ch_nl :: rest) as Hu' by by rewrite Hu, <- app_assoc. clear Hu.
  destruct (shellQuote_head i Hi) as (c & cs & Eq & Hc).
  assert (forall track, exists v, skipBlanks live inner track (set_buf [] u) = (Some (inr tt), v) /\
    rd v = rd u /\ buf v = [] /\ eof v = false) as Hskip.
  { intros track. destruct (skipBlanks_stay track inner (set_buf [] u) c (cs ++ ch_nl :: rest)) as (v & E & E1 & E2 & E3).
    - cbn. by rewrite Hu', Eq.
    - done.
    - lia.
    - exists v. by rewrite E, E1, E2, E3. }
  unfold next. rewrite He. exists true. unfold nextLine, nextWhitespace. destruct Hm as [-> | ->].
  - destruct (Hskip true) as (v & -> & E1 & E2 & E3).
    destruct (written_word _ (wordLoop_quoting (atLineStart v) Ho) i rest inner v Hi E2) as (w & E & Ew & Ee);
      [by rewrite E1|by rewrite E1|]. exists w. by rewrite E, Ew, Ee, E3.
  - destruct (Hskip false) as (v & -> & E1 & E2 & E3).
    destruct (written_word _ (lineLoop_quoting Ho) i rest inner v Hi E2) as (w & E & Ew & Ee);
      [by rewrite E1|by rewrite E1|]. exists w. by rewrite E, Ew, Ee, E3.
Qed.

Lemma next_at_end inner u : 0 < inner -> eof u = false -> rd u = [] -> exists v, next live o inner u = Some (TEnd, v).
Proof.
  intros Hi He Hu. destruct inner as [|inner]; [lia|]. unfold next. rewrite He.
  destruct (pollRead_end (set_buf [] u) Hu) as (v & E & _).
  unfold nextDelimited, nextLine, nextWhitespace.
  destruct (mode o); cbn [skipBlanks delimLoop]; rewrite E; by eexists.
Qed.

Lemma itemsOf_written write ok items : reads_back write ok -> Forall ok items ->
  (forall i, ok i -> write i <> []) -> itemsOf o (mjoin (map write items)) = (items, None).
Proof.
  intros Hw Hok Hne. unfold itemsOf, loopFuel, tokenFuel.
  apply (tokens_written write ok); try done; [apply next_at_end|cbn; lia|].
  assert (length items <= length (mjoin (map write items))); [|lia].
  clear Hw. induction Hok as [|i items Hi Hok IH]; [done|].
  change (mjoin (map write (i :: items))) with (write i ++ mjoin (map write items)). rewrite length_app.
  specialize (Hne i Hi). destruct (write i); [done|]. cbn [length]. lia.
Qed.

End Names.

(** Round trip: names written with a final NUL each are read back by [-0]
    (and with the delimiter by [-d]), and names quoted as [-t] prints them, one
    on a line, are read back by the default mode and by [-I]; any bytes may
    occur in them but the separators. *)
Theorem xargs_names_roundtrip (o : options) (names : list bytes) :
  (mode o = modeNull -> Forall (record_ok "000") names ->
   itemsOf o (mjoin (map (fun i => i ++ ["000"%char]) names)) = (names, None)) /\
  (mode o = modeDelim -> Forall (record_ok (delim o)) names ->
   itemsOf o (mjoin (map (fun i => i ++ [delim o]) names)) = (names, None)) /\
  (reads_words o -> Forall word_ok names ->
   itemsOf o (mjoin (map (fun i => shellQuote i ++ [ch_nl]) names)) = (names, None)).
Proof.
  split_and!.
  - intros Hm Hok. apply itemsOf_written with (ok := record_ok "000"); [apply record_reads_back|done|by intros []].
    intros inner u He. unfold next. by rewrite He, Hm.
  - intros Hm Hok. apply itemsOf_written with (ok := record_ok (delim o)); [apply record_reads_back|done|by intros []].
    intros inner u He. unfold next. by rewrite He, Hm.
  - intros Hm Hok. apply itemsOf_written with (ok := word_ok); [by apply word_reads_back|done|].
    intros i _ E. by destruct (shellQuote i).
Qed.

(** ** A run: [xargs -n 2 echo x] on two reads of standard input *)

Definition demoAnswers (n : nat) : bytes * option ioerr :=
  match n with
  | 0 => (lit "one 'two ", None)
  | 1 => ([], None)
  | 2 => (lit "three' four" ++ [ch_nl], Some EOF)
  | _ => ([], Some EOF)
  end.

Definition demoInput : bytes := lit "one 'two three' four" ++ [ch_nl].

#[local] Hint Extern 0 (ByteSource Reader) => exact (Reader_source demoAnswers) : typeclass_instances.
#[local] Hint Extern 0 (ByteSourceLaws Reader) => exact (Reader_laws demoAnswers) : typeclass_instances.

Definition demoCall : callContext Reader := {|
  RunCommand := Some (fun _ _ _ _ => (0%Z, None));
  RunCommandWithStdin := Some (fun _ _ _ _ => (0%Z, None));
  CommandAllowed := Some (fun c => c =s "echo");
  WorkDir := Some (lit "/w"); Stdin := Some NewReader; OpenFile := fun _ => inl [];
  ctxErr := fun _ => false |}.

Definition demoFlags : flagState := default noFlags (setFlag FlagN (lit "2") noFlags).
Definition demoParsed : parsedFlags := mkParsed false None [] false None false false [lit "echo"; lit "x"].

Lemma demo_delivers : delivers NewReader demoInput EOF.
Proof.
  left. split; [done|]. exists demoInput. split; [done|].
  assert (100 = maxConsecutiveEmptyReads) as E100 by done.
  apply (yields_more demoAnswers EOF 0 0 "o" (lit "ne 'two ") (lit "three' four" ++ [ch_nl]));
    [split; lia|done|].
  apply (yields_last demoAnswers EOF 1 1 "t" (lit "hree' four" ++ [ch_nl])); [split; [lia|]|done|].
  - intros m Hm. by assert (m = 1) as -> by lia.
  - intros m Hm. by destruct m as [|[|[|m]]]; try lia.
Qed.

(** Two commands: the quoted item is one argument. *)
Lemma xargs_run_safe_witness :
  exists h, handler demoCall 40 40 demoParsed demoFlags = Some (0%Z, h) /\ exits demoCall 0%Z /\
    EvRun true (lit "/w") (lit "echo") [lit "x"; lit "one"; lit "two three"] ∈ h /\
    exists o items, buildOptions demoParsed demoFlags = inr o /\
      resolveCmd o items = (lit "echo", [lit "x"; lit "one"; lit "two three"]).
Proof.
  eexists. split; [vm_compute; reflexivity|].
  assert (EvRun true (lit "/w") (lit "echo") [lit "x"; lit "one"; lit "two three"] ∈
    [EvRun true (lit "/w") (lit "echo") [lit "x"; lit "four"];
     EvRun true (lit "/w") (lit "echo") [lit "x"; lit "one"; lit "two three"]]) as Hin by (right; left).
  destruct (xargs_run_safe demoCall 40 40 demoParsed demoFlags 0
    [EvRun true (lit "/w") (lit "echo") [lit "x"; lit "four"];
     EvRun true (lit "/w") (lit "echo") [lit "x"; lit "one"; lit "two three"]]) as [Hc Hs].
  { vm_compute. reflexivity. }
  split; [exact Hc|]. split; [exact Hin|].
  destruct (Hs _ _ _ _ Hin) as (o & items & Ho & Hr & _). by exists o, items.
Defined.

(** A command outside the allow list: 125, where the documentation says 1. *)
Lemma refused_command_125 :
  option_map fst (handler demoCall 40 40 (mkParsed false None [] false None false false [lit "rm"]) noFlags) = Some 125%Z.
Proof. vm_compute. reflexivity. Qed.

(** A runner that does not know the command: 127, which is not documented. *)
Lemma unknown_command_127 :
  option_map fst (handler (mkCall (Some (fun _ _ _ _ => (127%Z, Some (lit "unknown command")))) None None None (Some NewReader)
    (fun _ => inl []) (fun _ => false)) 40 40 demoParsed noFlags) = Some 127%Z.
Proof. vm_compute. reflexivity. Qed.

Lemma xargs_terminates_witness :
  exists code h, handler demoCall (loopFuel (length demoInput)) (tokenFuel (length demoInput)) demoParsed demoFlags = Some (code, h).
Proof.
  apply (xargs_terminates demoCall demoParsed demoFlags demoInput EOF).
  intros o r [= <-] [= <-]. apply demo_delivers.
Defined.

Lemma xargs_delivers_items_witness :
  exists bss, mjoin bss = map lit ["one"; "two three"; "four"]%string /\
    map (resolveCmd (match buildOptions demoParsed demoFlags with inr o => o | inl _ => mkOptions modeNull "000" [] [] [] 0 0 0 false false false [] [] end)) bss =
    [(lit "echo", [lit "x"; lit "one"; lit "two three"]); (lit "echo", [lit "x"; lit "four"])].
Proof.
  destruct (buildOptions demoParsed demoFlags) as [|o] eqn:Eo; [by vm_compute in Eo|].
  destruct (xargs_delivers_items demoCall demoParsed demoFlags o NewReader demoInput 0
    [EvRun true (lit "/w") (lit "echo") [lit "x"; lit "four"];
     EvRun true (lit "/w") (lit "echo") [lit "x"; lit "one"; lit "two three"]]) as (bss & Hr & Hp & H0).
  - reflexivity.
  - done.
  - injection Eo as <-. reflexivity.
  - apply demo_delivers.
  - done.
  - vm_compute. reflexivity.
  - exists bss. split; [|by rewrite <- Hr]. destruct (H0 eq_refl) as [-> _]. injection Eo as <-. vm_compute. reflexivity.
Defined.

(** Names with a quote, a blank and nothing at all. *)
Lemma xargs_names_roundtrip_witness :
  let o := mkOptions modeWhitespace "000" [] [] [] 0 0 1000 false false false (lit "echo") [] in
  let names := map lit ["it's"; "a b"; ""; "plain"]%string in
  Forall word_ok names /\
  itemsOf o (mjoin (map (fun i => shellQuote i ++ [ch_nl]) names)) = (names, None).
Proof.
  intros o names. assert (Forall word_ok names) as Hok.
  { repeat constructor; vm_compute; done. }
  split; [done|]. apply (xargs_names_roundtrip o names); [by split; [left|]|done].
Defined.

End XargsItems.
