(* ===== verification/GoRegexp.v ===== *)
(** Go's regular expressions as an interface: the matches of an expression are
    its answers, and the replacement functions of package [regexp] are defined
    from them, with the template language of [Expand]. *)

From S2P Require Import Prelude GoStd.
From stdpp Require Import base list strings.
From Stdlib Require Import ZArith Lia Ascii.

Module GoRegexp.
Import GoStd.

(** A match: the spans of the whole and of each group, [None] for a group that
    took no part. *)
Abbreviation span := (nat * nat)%type.
Abbreviation submatch := (list (option span)).

(** What the programs use of a compiled expression; [FindAll] is
    [FindAllStringSubmatchIndex(s, -1)]. *)
Class Regexp (RE : Type) := {
  Compile : bytes -> bytes + RE;
  Longest : RE -> RE;
  NumSubexp : RE -> nat;
  Source : RE -> bytes;
  FindAll : RE -> bytes -> list submatch }.

Definition slice (a b : nat) (s : bytes) : bytes := take (b - a) (drop a s).

Definition whole (m : submatch) : span := match m with Some p :: _ => p | _ => (0, 0) end.
Definition matchText (s : bytes) (m : submatch) : bytes := slice (fst (whole m)) (snd (whole m)) s.

(** The text of group [n]; empty when it took no part or does not exist. *)
Definition group (s : bytes) (m : submatch) (n : nat) : bytes :=
  match m !! n with Some (Some (a, b)) => slice a b s | _ => [] end.

(** A match within [s] with its groups inside it. *)
Definition match_in (s : bytes) (m : submatch) : Prop :=
  exists a b, m !! 0 = Some (Some (a, b)) /\ a <= b <= length s /\
    forall n c d, m !! n = Some (Some (c, d)) -> a <= c /\ c <= d /\ d <= b.

(** Matches in order from [p]; after the first, each ends further right. *)
Fixpoint in_order (p : nat) (again : bool) (ms : list submatch) : Prop :=
  match ms with
  | [] => True
  | m :: ms =>
      p <= fst (whole m) /\ (again = true -> p < snd (whole m)) /\ in_order (snd (whole m)) true ms
  end.

(** The documented behaviour: successive non-overlapping matches, an empty match
    next to the one before it ignored, one span per group. *)
Class RegexpLaws (RE : Type) `{Regexp RE} := {
  matches_in r s : Forall (match_in s) (FindAll r s);
  matches_ordered r s : in_order 0 false (FindAll r s);
  matches_groups r s : Forall (fun m => length m = S (NumSubexp r)) (FindAll r s) }.

Section Replace.
Context {RE : Type} `{Regexp RE}.

Definition MatchString (r : RE) (s : bytes) : bool := match FindAll r s with [] => false | _ => true end.
Definition FindStringSubmatchIndex (r : RE) (s : bytes) : option submatch := head (FindAll r s).
Definition FindStringIndex (r : RE) (s : bytes) : option span := whole <$> FindStringSubmatchIndex r s.

(** [s] from [p] on with each match [m], the [i]th, replaced by [f i m]. *)
Fixpoint replaceFrom (f : nat -> submatch -> bytes) (s : bytes) (i p : nat) (ms : list submatch) : bytes :=
  match ms with
  | [] => drop p s
  | m :: ms => slice p (fst (whole m)) s ++ f i m ++ replaceFrom f s (S i) (snd (whole m)) ms
  end.

(** The callback also gets the number of the match, which the closures of the
    programs count. *)
Definition ReplaceAllStringFunc (r : RE) (s : bytes) (f : nat -> bytes -> bytes) : bytes :=
  replaceFrom (fun i m => f i (matchText s m)) s 0 0 (FindAll r s).

(** ** Templates *)

Definition isWordByte (c : ascii) : bool :=
  let z := code c in
  ((48 <=? z) && (z <=? 57) || (65 <=? z) && (z <=? 90) || (97 <=? z) && (z <=? 122) || (z =? 95))%Z.

(** The number a name stands for, [None] for a name that is not one. *)
Fixpoint nameNumber (n : nat) (name : bytes) : option nat :=
  match name with
  | [] => Some n
  | c :: cs =>
      if ((48 <=? code c) && (code c <=? 57))%Z && (Z.of_nat n <? 10 ^ 8)%Z
      then nameNumber (n * 10 + Z.to_nat (code c - 48)) cs else None
  end.

Definition groupNumber (name : bytes) : option nat :=
  match name with
  | c :: _ :: _ => if c =c "0" then None else nameNumber 0 name
  | _ => nameNumber 0 name
  end.

(** [extract]: the name after a dollar and what follows it.  Names are of ASCII
    letters, digits and underscores, as all templates of the programs. *)
Definition extract (t : bytes) : option (bytes * bytes) :=
  let '(brace, t) := match t with c :: t' => if c =c "{" then (true, t') else (false, t) | [] => (false, t) end in
  let n := run_length isWordByte t in
  match n with
  | 0 => None
  | _ =>
      if brace then
        match drop n t with
        | c :: rest => if c =c "}" then Some (take n t, rest) else None
        | [] => None
        end
      else Some (take n t, drop n t)
  end.

(** [Expand]; a name that is no number names no group here. *)
Fixpoint expandFuel (fuel : nat) (t s : bytes) (m : submatch) : bytes :=
  match fuel with
  | 0 => []
  | S fuel =>
      match t with
      | [] => []
      | c :: t =>
          if c =c "$" then
            match t with
            | d :: t' => if d =c "$" then d :: expandFuel fuel t' s m
                         else match extract t with
                              | Some (name, rest) =>
                                  match groupNumber name with Some n => group s m n | None => [] end
                                    ++ expandFuel fuel rest s m
                              | None => c :: expandFuel fuel t s m
                              end
            | [] => [c]
            end
          else c :: expandFuel fuel t s m
      end
  end.

Definition Expand (t s : bytes) (m : submatch) : bytes := expandFuel (length t) t s m.

Definition ReplaceAllString (r : RE) (s template : bytes) : bytes :=
  replaceFrom (fun _ m => Expand template s m) s 0 0 (FindAll r s).

(** ** The length of a replacement *)

Definition spanLength (m : submatch) : nat := snd (whole m) - fst (whole m).

Lemma slice_length a b s : a <= b -> b <= length s -> length (slice a b s) = b - a.
Proof. intros. unfold slice. rewrite length_take, length_drop. lia. Qed.

Lemma slice_drop a b s : a <= b -> slice a b s ++ drop b s = drop a s.
Proof.
  intros. unfold slice. rewrite <- (take_drop (b - a) (drop a s)) at 2. f_equal. rewrite drop_drop. f_equal. lia.
Qed.

Lemma match_in_whole s m : match_in s m -> fst (whole m) <= snd (whole m) <= length s.
Proof. intros (a & b & E & Hab & _). destruct m as [|[[c d]|] m]; try done. cbn in *. by injection E as -> ->. Qed.

Lemma matchText_length s m : match_in s m -> length (matchText s m) = spanLength m.
Proof. intros Hm%match_in_whole. apply slice_length; lia. Qed.

Lemma group_length_le s m n : match_in s m -> length (group s m n) <= spanLength m.
Proof.
  intros Hm. pose proof (match_in_whole s m Hm) as Hw. destruct Hm as (a & b & E & Hab & Hg).
  assert (whole m = (a, b)) as Ew by (destruct m as [|[[c d]|] m]; try done; cbn in *; by injection E as -> ->).
  unfold group, spanLength. rewrite Ew. cbn [fst snd].
  destruct (m !! n) as [[[c d]|]|] eqn:En; cbn; try lia. destruct (Hg n c d En) as (? & ? & ?).
  rewrite slice_length by lia. lia.
Qed.

(** Bytes replaced, and bytes put in their place. *)
Definition covered (ms : list submatch) : nat := sum_list_with spanLength ms.
Fixpoint inserted (f : nat -> submatch -> bytes) (i : nat) (ms : list submatch) : nat :=
  match ms with [] => 0 | m :: ms => length (f i m) + inserted f (S i) ms end.

Lemma replaceFrom_length f s : forall ms i p again,
  Forall (match_in s) ms -> in_order p again ms -> p <= length s ->
  covered ms <= length s - p /\
  length (replaceFrom f s i p ms) + covered ms = (length s - p) + inserted f i ms.
Proof.
  induction ms as [|m ms IH]; intros i p again Hin Ho Hp; cbn [replaceFrom covered inserted sum_list_with].
  { rewrite length_drop. cbn. lia. }
  apply Forall_cons in Hin as [Hm Hin]. destruct Ho as (Hpa & _ & Ho).
  pose proof (match_in_whole s m Hm). destruct (IH (S i) (snd (whole m)) true Hin Ho ltac:(lia)) as [Hc Hl].
  change (sum_list_with spanLength ms) with (covered ms). unfold spanLength at 1 2.
  rewrite !length_app, slice_length by lia. lia.
Qed.

Lemma matches_count : forall ms s p again, Forall (match_in s) ms -> in_order p again ms -> p <= length s ->
  length ms <= (length s - p) + (if again then 0 else 1).
Proof.
  induction ms as [|m ms IH]; intros s p again Hin Ho Hp; cbn; [lia|].
  apply Forall_cons in Hin as [Hm Hin]. destruct Ho as (Hpa & Hag & Ho). pose proof (match_in_whole s m Hm).
  specialize (IH s (snd (whole m)) true Hin Ho ltac:(lia)). cbn in IH.
  destruct again; [specialize (Hag eq_refl); lia|lia].
Qed.

End Replace.

Section Laws.
Context {RE : Type} `{RegexpLaws RE}.

Lemma ReplaceAllString_length r s t :
  covered (FindAll r s) <= length s /\
  length (ReplaceAllString r s t) + covered (FindAll r s) =
  length s + inserted (fun _ m => Expand t s m) 0 (FindAll r s).
Proof.
  destruct (replaceFrom_length (fun _ m => Expand t s m) s (FindAll r s) 0 0 false) as [Hc Hl];
    [apply matches_in|apply matches_ordered|lia|]. unfold ReplaceAllString. lia.
Qed.

Lemma FindAll_count r s : length (FindAll r s) <= length s + 1.
Proof. pose proof (matches_count (FindAll r s) s 0 false (matches_in r s) (matches_ordered r s) ltac:(lia)) as Hc. cbn in Hc. lia. Qed.

End Laws.

End GoRegexp.
