(* ===== verification/Utf8.v ===== *)
(** UTF-8 encoding of code points, the inverse of GoStd's decoder. *)

From S2P Require Import Prelude GoStd.
From stdpp Require Import base list.
From Stdlib Require Import ZArith Lia Ascii.

Module Utf8.
Import GoStd.

Definition byteOf (z : Z) : ascii := ascii_of_N (Z.to_N z).

(** A code point that has an encoding. *)
Definition validRune (r : Z) : bool :=
  ((0 <=? r) && (r <? 55296) || (57344 <=? r) && (r <=? 1114111))%Z.

Definition encodeValid (r : Z) : bytes :=
  (if r <? 128 then [byteOf r]
   else if r <? 2048 then [byteOf (192 + r / 64); byteOf (128 + r mod 64)]
   else if r <? 65536 then [byteOf (224 + r / 4096); byteOf (128 + (r / 64) mod 64); byteOf (128 + r mod 64)]
   else [byteOf (240 + r / 262144); byteOf (128 + (r / 4096) mod 64); byteOf (128 + (r / 64) mod 64); byteOf (128 + r mod 64)])%Z.

(** As by conversion to a string: what is no code point becomes U+FFFD. *)
Definition EncodeRune (r : Z) : bytes := encodeValid (if validRune r then r else RuneError).

Definition EncodeRunes (rs : list Z) : bytes := mjoin (map EncodeRune rs).

Lemma code_byteOf z : (0 <= z < 256)%Z -> code (byteOf z) = z.
Proof. intros Hz. unfold code, byteOf. rewrite N_ascii_embedding by lia. lia. Qed.

(** ** Decoding what was encoded *)

Lemma land_low k hi q : (0 <= k)%Z -> (0 <= q < 2 ^ k)%Z -> Z.land (hi * 2 ^ k + q) (Z.ones k) = q.
Proof. intros Hk Hq. rewrite Z.land_ones by done. rewrite Z.add_comm, Z.mod_add by lia. by apply Z.mod_small. Qed.

Lemma cont_byte (s : bytes) n lo hi x : s !! n = Some (byteOf (128 + x)) -> (0 <= x < 64)%Z ->
  (lo <= 128 + x <= hi)%Z -> cont s n lo hi = Some x.
Proof.
  intros E Hx Hl. unfold cont. rewrite E, code_byteOf by lia.
  rewrite (proj2 (Z.leb_le _ _)), (proj2 (Z.leb_le _ _)) by lia. cbn [andb]. f_equal.
  replace 63%Z with (Z.ones 6) by done. replace (128 + x)%Z with (2 * 2 ^ 6 + x)%Z by lia. apply land_low; lia.
Qed.

Ltac decide_tests :=
  repeat match goal with
  | |- context [(?a <? ?b)%Z] => destruct (Z.ltb_spec a b); try lia
  | |- context [(?a <=? ?b)%Z] => destruct (Z.leb_spec a b); try lia
  | |- context [(?a =? ?b)%Z] => destruct (Z.eqb_spec a b); try lia
  end; cbn [andb].

Lemma split64 r : (0 <= r)%Z -> (r = 64 * (r / 64) + r mod 64 /\ 0 <= r mod 64 < 64 /\ 0 <= r / 64)%Z.
Proof. intros Hr. pose proof (Z.div_mod r 64). pose proof (Z.mod_pos_bound r 64). pose proof (Z.div_pos r 64). lia. Qed.

Lemma decode_encode2 r t : (128 <= r < 2048)%Z -> DecodeRune (encodeValid r ++ t) = (r, 2).
Proof.
  intros Hr. destruct (split64 r) as (E & Hm & Hd); [lia|]. set (q := (r / 64)%Z) in *. set (m := (r mod 64)%Z) in *.
  assert (encodeValid r = [byteOf (192 + q); byteOf (128 + m)]) as ->.
  { unfold encodeValid. decide_tests. done. }
  cbn [app]. unfold DecodeRune. rewrite (cont_byte _ 1 128 191 m) by (done || lia). rewrite code_byteOf by lia.
  decide_tests. f_equal.
  replace 31%Z with (Z.ones 5) by done. replace (192 + q)%Z with (6 * 2 ^ 5 + q)%Z by lia. rewrite land_low by lia. lia.
Qed.

Lemma decode_encode3 r t : (2048 <= r < 65536)%Z -> validRune r = true -> DecodeRune (encodeValid r ++ t) = (r, 3).
Proof.
  intros Hr Hv. destruct (split64 r) as (E & Hm & Hd); [lia|]. destruct (split64 (r / 64)) as (E' & Hm' & Hd'); [lia|].
  assert (encodeValid r = [byteOf (224 + r / 64 / 64); byteOf (128 + (r / 64) mod 64); byteOf (128 + r mod 64)]) as ->.
  { unfold encodeValid. rewrite Z.div_div by lia. decide_tests. done. }
  set (q := (r / 64)%Z) in *. set (m := (r mod 64)%Z) in *. set (h := (q / 64)%Z) in *. set (n := (q mod 64)%Z) in *.
  assert (r < 55296 \/ 57344 <= r)%Z as Hs.
  { unfold validRune in Hv. destruct (Z.ltb_spec r 55296); [by left|]. rewrite andb_false_r in Hv. cbn [orb] in Hv.
    apply andb_true_iff in Hv as [?%Z.leb_le _]. by right. }
  clear Hv. cbn [app]. unfold DecodeRune. rewrite code_byteOf by lia.
  rewrite (cont_byte _ 2 128 191 m) by (done || lia). decide_tests;
  (first [rewrite (cont_byte _ 1 160 191 n) by (done || lia) | rewrite (cont_byte _ 1 128 159 n) by (done || lia)
         | rewrite (cont_byte _ 1 128 191 n) by (done || lia)]); f_equal;
  replace 15%Z with (Z.ones 4) by done; replace (224 + h)%Z with (14 * 2 ^ 4 + h)%Z by lia; rewrite land_low by lia; lia.
Qed.

Lemma decode_encode4 r t : (65536 <= r <= 1114111)%Z -> DecodeRune (encodeValid r ++ t) = (r, 4).
Proof.
  intros Hr. destruct (split64 r) as (E & Hm & Hd); [lia|]. destruct (split64 (r / 64)) as (E' & Hm' & Hd'); [lia|].
  destruct (split64 (r / 64 / 64)) as (E'' & Hm'' & Hd''); [lia|].
  assert (encodeValid r = [byteOf (240 + r / 64 / 64 / 64); byteOf (128 + (r / 64 / 64) mod 64);
    byteOf (128 + (r / 64) mod 64); byteOf (128 + r mod 64)]) as ->.
  { unfold encodeValid. rewrite !Z.div_div by lia. decide_tests. done. }
  set (q := (r / 64)%Z) in *. set (m := (r mod 64)%Z) in *. set (h := (q / 64)%Z) in *. set (n := (q mod 64)%Z) in *.
  set (u := (h / 64)%Z) in *. set (v := (h mod 64)%Z) in *.
  cbn [app]. unfold DecodeRune. rewrite code_byteOf by lia.
  rewrite (cont_byte _ 2 128 191 n), (cont_byte _ 3 128 191 m) by (done || lia). decide_tests;
  (first [rewrite (cont_byte _ 1 144 191 v) by (done || lia) | rewrite (cont_byte _ 1 128 143 v) by (done || lia)
         | rewrite (cont_byte _ 1 128 191 v) by (done || lia)]); f_equal;
  replace 7%Z with (Z.ones 3) by done; replace (240 + u)%Z with (30 * 2 ^ 3 + u)%Z by lia; rewrite land_low by lia; lia.
Qed.

Lemma validRune_range r : validRune r = true -> (0 <= r <= 1114111)%Z.
Proof. unfold validRune. rewrite orb_true_iff, !andb_true_iff, !Z.leb_le, Z.ltb_lt. lia. Qed.

Lemma decode_encode r t : validRune r = true -> DecodeRune (encodeValid r ++ t) = (r, length (encodeValid r)).
Proof.
  intros Hv. pose proof (validRune_range r Hv) as Hr.
  destruct (Z_lt_ge_dec r 128); [|destruct (Z_lt_ge_dec r 2048); [|destruct (Z_lt_ge_dec r 65536)]].
  - unfold encodeValid. rewrite (proj2 (Z.ltb_lt _ _)) by done. cbn [app length].
    rewrite DecodeRune_ascii, code_byteOf by (rewrite ?code_byteOf; lia). done.
  - rewrite decode_encode2 by lia. unfold encodeValid. by decide_tests.
  - rewrite decode_encode3 by (done || lia). unfold encodeValid. by decide_tests.
  - rewrite decode_encode4 by lia. unfold encodeValid. by decide_tests.
Qed.

(** ** Runes of a string *)

Definition runeOr (r : Z) : Z := if validRune r then r else RuneError.

Lemma runeOr_valid r : validRune (runeOr r) = true.
Proof. unfold runeOr. by destruct (validRune r) eqn:E. Qed.

Lemma EncodeRune_length r : 1 <= length (EncodeRune r) <= 4.
Proof. unfold EncodeRune. generalize (if validRune r then r else RuneError). intros x. unfold encodeValid. repeat destruct (_ <? _)%Z; cbn; lia. Qed.

Lemma runesFuel_enough : forall n m s, length s <= n -> length s <= m -> runesFuel n s = runesFuel m s.
Proof.
  induction n as [|n IH]; intros [|m] [|c s] Hn Hm; cbn [length] in *; try lia; try done.
  cbn [runesFuel]. pose proof (DecodeRune_width (c :: s) ltac:(done)). f_equal.
  apply IH; rewrite length_drop; cbn [length]; lia.
Qed.

Lemma runes_cons s : s <> [] -> runes s = take (snd (DecodeRune s)) s :: runes (drop (snd (DecodeRune s)) s).
Proof.
  intros Hs. unfold runes. destruct s as [|c s]; [done|]. cbn [length]. 
  pose proof (DecodeRune_width (c :: s) Hs) as Hw. set (w := snd (DecodeRune (c :: s))) in *.
  change (runesFuel (S (length s)) (c :: s)) with (take w (c :: s) :: runesFuel (length s) (drop w (c :: s))).
  f_equal. apply runesFuel_enough; rewrite !length_drop; cbn [length]; lia.
Qed.

Lemma runes_EncodeRunes rs : runes (EncodeRunes rs) = map EncodeRune rs.
Proof.
  induction rs as [|r rs IH]; [done|]. unfold EncodeRunes in *.
  change (mjoin (map EncodeRune (r :: rs))) with (EncodeRune r ++ mjoin (map EncodeRune rs)).
  pose proof (decode_encode (runeOr r) (mjoin (map EncodeRune rs)) (runeOr_valid r)) as Hd.
  change (encodeValid (runeOr r)) with (EncodeRune r) in Hd.
  rewrite runes_cons.
  - rewrite Hd. cbn [snd]. rewrite take_app_length, drop_app_length. by rewrite IH.
  - pose proof (EncodeRune_length r). destruct (EncodeRune r); [cbn in *; lia|done].
Qed.

Lemma cont_within s n lo hi x : cont s n lo hi = Some x -> n < length s.
Proof. unfold cont. destruct (s !! n) eqn:E; [|done]. intros _. by apply lookup_lt_Some in E. Qed.

Lemma DecodeRune_within c s : snd (DecodeRune (c :: s)) <= length (c :: s).
Proof.
  unfold DecodeRune. cbv zeta.
  repeat match goal with
  | |- context [if ?b then _ else _] => destruct b
  | |- context [match cont ?s ?n ?lo ?hi with _ => _ end] => destruct (cont s n lo hi) eqn:?
  end; cbn [snd];
  repeat match goal with H : cont _ _ _ _ = Some _ |- _ => apply cont_within in H end; cbn [length] in *; lia.
Qed.

Lemma runes_length s : length (runes s) <= length s <= 4 * length (runes s).
Proof.
  remember (length s) as n eqn:En. assert (length s <= n) as Hn by lia. rewrite En. clear En. revert s Hn.
  induction n as [|n IH]; intros s Hn; [destruct s; [done|cbn in Hn; lia]|].
  destruct s as [|c s]; [done|]. rewrite runes_cons by done. pose proof (DecodeRune_width (c :: s) ltac:(done)) as Hw.
  set (w := snd (DecodeRune (c :: s))) in *. specialize (IH (drop w (c :: s))).
  assert (w <= length (c :: s)) as Hle.
  { apply DecodeRune_within. }
  rewrite length_drop in IH. cbn [length] in *. lia.
Qed.

(** ** Cutting at an ASCII byte *)

Lemma cont_ascii (s : bytes) n lo hi c : s !! n = Some c -> (code c < 128)%Z -> (128 <= lo)%Z -> cont s n lo hi = None.
Proof. intros E Hc Hl. unfold cont. rewrite E. by rewrite (proj2 (Z.leb_gt _ _)) by lia. Qed.

Lemma cont_app (s t : bytes) n lo hi : n < length s -> cont (s ++ t) n lo hi = cont s n lo hi.
Proof. intros Hn. unfold cont. by rewrite lookup_app_l. Qed.

Lemma DecodeRune_before_ascii x s c t : (code c < 128)%Z -> DecodeRune ((x :: s) ++ c :: t) = DecodeRune (x :: s).
Proof.
  intros Hc. destruct s as [|y [|z [|u s]]]; cbn [app]; unfold DecodeRune; cbv zeta.
  - rewrite !(cont_ascii (x :: c :: t) 1 _ _ c) by (done || lia). done.
  - rewrite !(cont_ascii (x :: y :: c :: t) 2 _ _ c) by (done || lia).
    change (cont [x; y] 2) with (fun lo hi : Z => @None Z). cbn beta.
    by rewrite !(cont_app [x; y] (c :: t) 1) by (cbn; lia).
  - rewrite !(cont_ascii (x :: y :: z :: c :: t) 3 _ _ c) by (done || lia).
    change (cont [x; y; z] 3) with (fun lo hi : Z => @None Z). cbn beta.
    by rewrite !(cont_app [x; y; z] (c :: t) 1), !(cont_app [x; y; z] (c :: t) 2) by (cbn; lia).
  - by rewrite !(cont_app (x :: y :: z :: u :: s) (c :: t) 1), !(cont_app (x :: y :: z :: u :: s) (c :: t) 2),
      !(cont_app (x :: y :: z :: u :: s) (c :: t) 3) by (cbn; lia).
Qed.

(** An ASCII byte is a boundary between runes. *)
Lemma runes_cut s c t : (code c < 128)%Z -> runes (s ++ c :: t) = runes s ++ [c] :: runes t.
Proof.
  intros Hc. remember (length s) as n eqn:En. assert (length s <= n) as Hn by lia. clear En. revert s Hn.
  induction n as [|n IH]; intros [|x s] Hn; cbn [length] in Hn; try lia.
  - cbn [app]. rewrite runes_cons, DecodeRune_ascii by done. done.
  - cbn [app]. rewrite runes_cons, DecodeRune_ascii by done. done.
  - change ((x :: s) ++ c :: t) with ((x :: s) ++ (c :: t)).
    rewrite (runes_cons ((x :: s) ++ c :: t)), (runes_cons (x :: s)) by done.
    rewrite DecodeRune_before_ascii by done. pose proof (DecodeRune_width (x :: s) ltac:(done)) as Hw.
    pose proof (DecodeRune_within x s) as Hle. set (w := snd (DecodeRune (x :: s))) in *. cbn [length] in Hle.
    rewrite take_app_le, drop_app_le by (cbn; lia). cbn [app]. f_equal. apply IH. rewrite length_drop. cbn. lia.
Qed.

End Utf8.
