(* ===== verification/SedParse.v ===== *)
(** The sed script parser (builtins/sed/parser.go, types.go): addresses, commands,
    groups, labels, the escapes of [s] and [y], basic to extended expressions. *)

From S2P Require Import Prelude GoStd GoRegexp.
From stdpp Require Import base list strings gmap.
From Stdlib Require Import ZArith Lia Ascii.

Module SedParse.
Import GoStd GoRegexp.

(** ** The commands *)

Inductive address (RE : Type) :=
| addrLine (line : Z)
| addrLast
| addrRegexp (re : option RE)     (* [None]: reuse the last one *)
| addrStep (first step : Z).
Arguments addrLine {RE}.
Arguments addrLast {RE}.
Arguments addrRegexp {RE}.
Arguments addrStep {RE}.

Record substitution (RE : Type) := mkSub {
  subRe : option RE; subReplacement : bytes; subGlobal : bool; subPrint : bool; subNth : Z }.
Arguments mkSub {RE}.
Arguments subRe {RE}.
Arguments subReplacement {RE}.
Arguments subGlobal {RE}.
Arguments subPrint {RE}.
Arguments subNth {RE}.

Inductive cmdType (RE : Type) :=
| cmdSubstitute (s : substitution RE)
| cmdPrint | cmdDelete
| cmdQuit (quitCode : Z) | cmdQuitNoprint (quitCode : Z)
| cmdTransliterate (transMap : gmap Z Z)
| cmdAppend (text : bytes) | cmdInsert (text : bytes) | cmdChange (text : bytes)
| cmdLineNum | cmdPrintUnambig | cmdNext | cmdNextAppend
| cmdHoldCopy | cmdHoldAppend | cmdGetCopy | cmdGetAppend | cmdExchange
| cmdBranch (label : bytes) | cmdLabel (label : bytes)
| cmdBranchIfSub (label : bytes) | cmdBranchIfNoSub (label : bytes)
| cmdPrintFirstLine | cmdDeleteFirstLine.
Arguments cmdSubstitute {RE}.
Arguments cmdPrint {RE}.
Arguments cmdDelete {RE}.
Arguments cmdQuit {RE}.
Arguments cmdQuitNoprint {RE}.
Arguments cmdTransliterate {RE}.
Arguments cmdAppend {RE}.
Arguments cmdInsert {RE}.
Arguments cmdChange {RE}.
Arguments cmdLineNum {RE}.
Arguments cmdPrintUnambig {RE}.
Arguments cmdNext {RE}.
Arguments cmdNextAppend {RE}.
Arguments cmdHoldCopy {RE}.
Arguments cmdHoldAppend {RE}.
Arguments cmdGetCopy {RE}.
Arguments cmdGetAppend {RE}.
Arguments cmdExchange {RE}.
Arguments cmdBranch {RE}.
Arguments cmdLabel {RE}.
Arguments cmdBranchIfSub {RE}.
Arguments cmdBranchIfNoSub {RE}.
Arguments cmdPrintFirstLine {RE}.
Arguments cmdDeleteFirstLine {RE}.

(** The addresses of a command.  [cid] stands for its identity: the field
    [inRange] is state of the engine, kept by identity. *)
Record header (RE : Type) := mkHeader {
  cid : nat; addr1 : option (address RE); addr2 : option (address RE); negated : bool }.
Arguments mkHeader {RE}.
Arguments cid {RE}.
Arguments addr1 {RE}.
Arguments addr2 {RE}.
Arguments negated {RE}.

Inductive sedCmd (RE : Type) :=
| Cmd (h : header RE) (k : cmdType RE)
| Group (h : header RE) (children : list (sedCmd RE)).
Arguments Cmd {RE}.
Arguments Group {RE}.

Inductive parseErr :=
| EUnexpectedClose | EUnterminatedGroup | EGroupDepth
| EUndefinedLabel (label : bytes) | EMissingLabel
| EExtraCharacters | EMissingCommand | EUnknownCommand (c : ascii) | EBlocked (c : ascii) | EBlockedFlag (c : ascii)
| EExpectedAddress | ELineZero | EInvalidAddress (digits : bytes) | EInvalidStep | EInvalidLine (digits : bytes)
| EExpectedDelimiter | EUnterminatedAddress
| EExitCode
| EMissingDelimiter (c : ascii) | EInvalidDelimiter (c : ascii) | EUnterminatedPart (c : ascii)
| EZeroNumber | EMultipleNumbers | EInvalidNumber | EUnknownOption
| EModifiersOnEmpty | EInvalidRegex (e : bytes) | EInvalidReference (n : ascii)
| ELengths.

(** A parser's result: the value and the input left. *)
Inductive outcome (A : Type) := Ret (a : A) (rest : bytes) | Err (e : parseErr) | NoFuel.
Arguments Ret {A}.
Arguments Err {A}.
Arguments NoFuel {A}.

Definition obind {A B} (x : outcome A) (f : A -> bytes -> outcome B) : outcome B :=
  match x with Ret a rest => f a rest | Err e => Err e | NoFuel => NoFuel end.

Notation "'let!' ( x , r ) := e 'in' k" := (obind e (fun x r => k))
  (at level 10, x name, r name, e at level 100, k at level 200) : go_scope.

Definition maxGroupDepth : nat := 256.

(** ** Spaces, digits, labels, text *)

Definition isDigit (c : ascii) : bool := ((48 <=? code c) && (code c <=? 57))%Z.
Definition isSpace (c : ascii) : bool := (c =c " ") || (c =c ch_tab).
Definition isSeparator (c : ascii) : bool := isSpace c || (c =c ch_nl) || (c =c ch_cr) || (c =c ";").
Definition notNewline (c : ascii) : bool := negb (c =c ch_nl).

Definition skipWhile (f : ascii -> bool) (s : bytes) : bytes := drop (run_length f s) s.
Definition takeWhile (f : ascii -> bool) (s : bytes) : bytes := take (run_length f s) s.

Definition skipWhitespaceAndSemicolons : bytes -> bytes := skipWhile isSeparator.
Definition skipSpaces : bytes -> bytes := skipWhile isSpace.

(** What may follow a command without arguments. *)
Definition endsCommand (c : ascii) : bool :=
  (c =c ";") || (c =c ch_nl) || (c =c ch_cr) || (c =c "}") || (c =c "#").

Definition requireSeparator (s : bytes) : outcome unit :=
  let s := skipSpaces s in
  match s with
  | [] => Ret tt s
  | c :: _ => if endsCommand c then Ret tt s else Err EExtraCharacters
  end.

Definition exitCodeEnd (s : bytes) : bool :=
  match s with [] => true | c :: _ => endsCommand c || isSpace c end.

Definition parseOptionalExitCode (s : bytes) : outcome Z :=
  let s := skipSpaces s in
  let n := run_length isDigit s in
  if 20 <? n then Err EExitCode
  else
    match n with
    | 0 => if exitCodeEnd s then Ret 0%Z s else Err EExtraCharacters
    | _ =>
        match ParseInt (take n s) with
        | inl _ => Err EExitCode
        | inr v => if exitCodeEnd (drop n s) then Ret (v mod 256)%Z (drop n s) else Err EExtraCharacters
        end
    end.

(** The lines of [a], [i] and [c]: a backslash at the end of a line joins the
    next one. *)
Fixpoint textLines (fuel : nat) (s : bytes) : bytes * bytes :=
  match fuel with
  | 0 => ([], s)
  | S fuel =>
      let line := takeWhile notNewline s in
      match skipWhile notNewline s with
      | c :: rest =>
          if HasSuffix line [ch_bs]
          then let '(more, rest) := textLines fuel rest in (removelast line ++ ch_nl :: more, rest)
          else (line, c :: rest)
      | [] => (line, [])
      end
  end.

Definition parseTextArg (s : bytes) : bytes * bytes :=
  let s :=
    match s with
    | c :: s' => if c =c ch_bs then match s' with d :: s'' => if d =c ch_nl then s'' else s' | [] => s' end
                 else skipSpaces s
    | [] => []
    end in
  textLines (S (length s)) s.

Definition isLabelByte (c : ascii) : bool := negb (isSpace c || (c =c ch_nl) || (c =c ";") || (c =c "}")).

Definition parseLabelArg (s : bytes) : bytes * bytes :=
  let s := skipSpaces s in (takeWhile isLabelByte s, skipWhile isLabelByte s).

(** ** Delimited parts *)

Fixpoint readUntilDelimiter (delim : ascii) (s : bytes) : option (bytes * bytes) :=
  match s with
  | [] => None
  | ch :: s' =>
      match s' with
      | next :: s'' =>
          if ch =c ch_bs then
            match readUntilDelimiter delim s'' with
            | Some (p, rest) => Some ((if Ascii.eqb next delim then [delim] else [ch_bs; next]) ++ p, rest)
            | None => None
            end
          else if Ascii.eqb ch delim then Some ([], s')
          else match readUntilDelimiter delim s' with Some (p, rest) => Some (ch :: p, rest) | None => None end
      | [] => if Ascii.eqb ch delim then Some ([], []) else None
      end
  end.

Definition isSpecialPatternEscape (c : ascii) : bool :=
  ((49 <=? code c) && (code c <=? 57))%Z ||
  byte_in c "\.^$*[](){}+?|" || byte_in c "<>BAZz" || byte_in c "wWsSdD".

(** What [\next] stands for in one part of [s] or [y]. *)
Definition substEscape (delim : ascii) (isPattern : bool) (next : ascii) : bytes :=
  if Ascii.eqb next delim then [delim]
  else if next =c "n" then [ch_nl]
  else if next =c "t" then [ch_tab]
  else if next =c "a" then [byte 7]
  else if next =c "b" then (if isPattern then lit "\b" else [byte 8])
  else if next =c "f" then [byte 12]
  else if next =c "r" then [ch_cr]
  else if isPattern && negb (isSpecialPatternEscape next) then [next]
  else [ch_bs; next].

Fixpoint readSubstPart (delim : ascii) (isPattern : bool) (s : bytes) : option (bytes * bytes) :=
  match s with
  | [] => None
  | ch :: s' =>
      match s' with
      | next :: s'' =>
          if ch =c ch_bs then
            match readSubstPart delim isPattern s'' with
            | Some (p, rest) => Some (substEscape delim isPattern next ++ p, rest)
            | None => None
            end
          else if Ascii.eqb ch delim then Some ([], s')
          else match readSubstPart delim isPattern s' with Some (p, rest) => Some (ch :: p, rest) | None => None end
      | [] => if Ascii.eqb ch delim then Some ([], []) else None
      end
  end.

(** ** Basic to extended expressions *)

Definition breSpecial (c : ascii) : bool := byte_in c "(){}+?|".

Fixpoint breToERE (p : bytes) : bytes :=
  match p with
  | [] => []
  | c :: p' =>
      match p' with
      | next :: p'' =>
          if c =c ch_bs then (if breSpecial next then [next] else [ch_bs; next]) ++ breToERE p''
          else (if breSpecial c then [ch_bs; c] else [c]) ++ breToERE p'
      | [] => if breSpecial c then [ch_bs; c] else [c]
      end
  end.

(** The first reference of the replacement to a group that does not exist. *)
Fixpoint validateBackrefs (repl : bytes) (numGroups : nat) : option ascii :=
  match repl with
  | [] => None
  | c :: repl' =>
      match repl' with
      | next :: repl'' =>
          if c =c ch_bs then
            if ((49 <=? code next) && (code next <=? 57))%Z && (Z.of_nat numGroups <? code next - 48)%Z
            then Some next
            else validateBackrefs repl'' numGroups
          else validateBackrefs repl' numGroups
      | [] => None
      end
  end.

(** The code points of a string, as by conversion to a slice of runes. *)
Definition runeValues (s : bytes) : list Z := map (fun r => fst (DecodeRune r)) (runes s).

Fixpoint buildTransMap (src dst : list Z) (m : gmap Z Z) : gmap Z Z :=
  match src, dst with
  | f :: src, t :: dst => buildTransMap src dst (match m !! f with Some _ => m | None => <[f := t]> m end)
  | _, _ => m
  end.

Section Parser.
Context {RE : Type} `{Regexp RE} (useERE : bool).

Definition compileRegex (pattern : bytes) : parseErr + RE :=
  match Compile (if useERE then pattern else breToERE pattern) with
  | inl e => inl (EInvalidRegex e)
  | inr re => inr (Longest re)
  end.

(** ** Addresses *)

Definition parseNumberAddress (s : bytes) : outcome (option (address RE)) :=
  let digits := takeWhile isDigit s in
  let rest := skipWhile isDigit s in
  match rest with
  | c :: rest' =>
      if c =c "~" then
        match ParseInt digits with
        | inl _ => Err (EInvalidAddress digits)
        | inr first =>
            match ParseInt (takeWhile isDigit rest') with
            | inl _ => Err EInvalidStep
            | inr step =>
                if (step <=? 0)%Z then Err EInvalidStep
                else Ret (Some (addrStep first step)) (skipWhile isDigit rest')
            end
        end
      else
        match ParseInt digits with
        | inl _ => Err (EInvalidLine digits)
        | inr n => Ret (Some (addrLine n)) rest
        end
  | [] =>
      match ParseInt digits with
      | inl _ => Err (EInvalidLine digits)
      | inr n => Ret (Some (addrLine n)) rest
      end
  end.

Definition parseRegexAddress (delim : ascii) (s : bytes) : outcome (option (address RE)) :=
  match readUntilDelimiter delim s with
  | None => Err EUnterminatedAddress
  | Some ([], rest) => Ret (Some (addrRegexp None)) rest
  | Some (pattern, rest) =>
      match compileRegex pattern with
      | inl e => Err e
      | inr re => Ret (Some (addrRegexp (Some re))) rest
      end
  end.

Definition parseAddress (s : bytes) : outcome (option (address RE)) :=
  match s with
  | [] => Ret None []
  | ch :: s' =>
      if isDigit ch then parseNumberAddress s
      else if ch =c "$" then Ret (Some addrLast) s'
      else if ch =c "/" then parseRegexAddress "/" s'
      else if ch =c ch_bs then
        match s' with
        | [] => Err EExpectedDelimiter
        | delim :: s'' => parseRegexAddress delim s''
        end
      else Ret None s
  end.

(** The addresses and the negation of [parseOneCommand]. *)
Definition parseHeader (s : bytes) : outcome (header RE) :=
  let id := length s in
  let! (a1, s) := parseAddress s in
  let! (a2, s) :=
    match a1, s with
    | Some _, c :: s' =>
        if c =c "," then
          let! (a2, s) := parseAddress (skipSpaces s') in
          match a2 with Some _ => Ret a2 s | None => Err EExpectedAddress end
        else Ret None s
    | _, _ => Ret None s
    end in
  match a1, a2 with
  | Some (addrLine 0), None => Err ELineZero
  | _, _ =>
      let s := skipSpaces s in
      match s with
      | c :: s' => if c =c "!" then Ret (mkHeader id a1 a2 true) (skipSpaces s') else Ret (mkHeader id a1 a2 false) s
      | [] => Ret (mkHeader id a1 a2 false) s
      end
  end.

(** ** s and y *)

Record subFlags := mkSubFlags { fGlobal : bool; fPrint : bool; fFold : bool; fNth : Z }.

Fixpoint parseSubFlags (fuel : nat) (f : subFlags) (s : bytes) : outcome subFlags :=
  match fuel with
  | 0 => NoFuel
  | S fuel =>
      match s with
      | [] => Ret f []
      | ch :: s' =>
          if ch =c "g" then parseSubFlags fuel (mkSubFlags true (fPrint f) (fFold f) (fNth f)) s'
          else if ch =c "p" then parseSubFlags fuel (mkSubFlags (fGlobal f) true (fFold f) (fNth f)) s'
          else if (ch =c "i") || (ch =c "I") then parseSubFlags fuel (mkSubFlags (fGlobal f) (fPrint f) true (fNth f)) s'
          else if (ch =c "w") || (ch =c "e") then Err (EBlockedFlag ch)
          else if ch =c "0" then Err EZeroNumber
          else if isDigit ch then
            if (0 <? fNth f)%Z then Err EMultipleNumbers
            else match ParseInt (takeWhile isDigit s) with
                 | inl _ => Err EInvalidNumber
                 | inr n =>
                     if (n <=? 0)%Z then Err EInvalidNumber
                     else parseSubFlags fuel (mkSubFlags (fGlobal f) (fPrint f) (fFold f) n) (skipWhile isDigit s)
                 end
          else if (ch =c "}") || isSeparator ch then Ret f s
          else if ch =c "#" then Ret f (skipWhile notNewline s)
          else Err EUnknownOption
      end
  end.

Definition compileFold (re : RE) : parseErr + RE :=
  match Compile (lit "(?i)" ++ Source re) with
  | inl e => inl (EInvalidRegex e)
  | inr re => inr (Longest re)
  end.

Definition parseSubstitute (s : bytes) : outcome (cmdType RE) :=
  match s with
  | [] => Err (EMissingDelimiter "s")
  | delim :: s =>
      if (delim =c ch_bs) || (delim =c ch_nl) then Err (EInvalidDelimiter delim)
      else
        match readSubstPart delim true s with
        | None => Err (EUnterminatedPart "s")
        | Some (pattern, s) =>
            match readSubstPart delim false s with
            | None => Err (EUnterminatedPart "s")
            | Some (replacement, s) =>
                let! (f, s) := parseSubFlags (S (length s)) (mkSubFlags false false false 0) s in
                match pattern with
                | [] =>
                    if fFold f then Err EModifiersOnEmpty
                    else Ret (cmdSubstitute (mkSub None replacement (fGlobal f) (fPrint f) (fNth f))) s
                | _ =>
                    match compileRegex pattern with
                    | inl e => Err e
                    | inr re =>
                        match (if fFold f then compileFold re else inr re) with
                        | inl e => Err e
                        | inr re =>
                            match validateBackrefs replacement (NumSubexp re) with
                            | Some c => Err (EInvalidReference c)
                            | None => Ret (cmdSubstitute (mkSub (Some re) replacement (fGlobal f) (fPrint f) (fNth f))) s
                            end
                        end
                    end
                end
            end
        end
  end.

Definition parseTransliterate (s : bytes) : outcome (cmdType RE) :=
  match s with
  | [] => Err (EMissingDelimiter "y")
  | delim :: s =>
      match readSubstPart delim false s with
      | None => Err (EUnterminatedPart "y")
      | Some (srcStr, s) =>
          match readSubstPart delim false s with
          | None => Err (EUnterminatedPart "y")
          | Some (dstStr, s) =>
              let src := runeValues srcStr in
              let dst := runeValues dstStr in
              if length src =? length dst then Ret (cmdTransliterate (buildTransMap src dst ∅)) s else Err ELengths
          end
      end
  end.

(** ** Commands *)

Definition withSeparator (k : cmdType RE) (s : bytes) : outcome (cmdType RE) :=
  let! (u, s) := requireSeparator s in Ret k s.

Definition withText (k : bytes -> cmdType RE) (s : bytes) : outcome (cmdType RE) :=
  let '(text, s) := parseTextArg s in Ret (k text) s.

Definition withLabel (k : bytes -> cmdType RE) (s : bytes) : outcome (cmdType RE) :=
  let '(label, s) := parseLabelArg s in Ret (k label) s.

Definition withCode (k : Z -> cmdType RE) (s : bytes) : outcome (cmdType RE) :=
  let! (code, s) := parseOptionalExitCode s in Ret (k code) s.

(** The command letters of [parseOneCommand] but the group. *)
Definition parseCommandBody (ch : ascii) (s : bytes) : outcome (cmdType RE) :=
  if ch =c "s" then parseSubstitute s
  else if ch =c "y" then parseTransliterate s
  else if ch =c "p" then withSeparator cmdPrint s
  else if ch =c "P" then withSeparator cmdPrintFirstLine s
  else if ch =c "d" then withSeparator cmdDelete s
  else if ch =c "D" then withSeparator cmdDeleteFirstLine s
  else if ch =c "q" then withCode cmdQuit s
  else if ch =c "Q" then withCode cmdQuitNoprint s
  else if ch =c "a" then withText cmdAppend s
  else if ch =c "i" then withText cmdInsert s
  else if ch =c "c" then withText cmdChange s
  else if ch =c "=" then withSeparator cmdLineNum s
  else if ch =c "l" then withSeparator cmdPrintUnambig s
  else if ch =c "n" then withSeparator cmdNext s
  else if ch =c "N" then withSeparator cmdNextAppend s
  else if ch =c "h" then withSeparator cmdHoldCopy s
  else if ch =c "H" then withSeparator cmdHoldAppend s
  else if ch =c "g" then withSeparator cmdGetCopy s
  else if ch =c "G" then withSeparator cmdGetAppend s
  else if ch =c "x" then withSeparator cmdExchange s
  else if ch =c "b" then withLabel cmdBranch s
  else if ch =c "t" then withLabel cmdBranchIfSub s
  else if ch =c "T" then withLabel cmdBranchIfNoSub s
  else if ch =c ":" then
    let '(label, s) := parseLabelArg s in
    match label with [] => Err EMissingLabel | _ => Ret (cmdLabel label) s end
  else if byte_in ch "ewWrR" then Err (EBlocked ch)
  else Err (EUnknownCommand ch).

(** [parseCommands] and [parseOneCommand]; [depth] is [groupDepth]. *)
Fixpoint parseCommands (fuel : nat) (inGroup : bool) (depth : nat) (s : bytes) : outcome (list (sedCmd RE)) :=
  match fuel with
  | 0 => NoFuel
  | S fuel =>
      match skipWhitespaceAndSemicolons s with
      | [] => if inGroup then Err EUnterminatedGroup else Ret [] []
      | (ch :: s') as s =>
          if ch =c "}" then if inGroup then Ret [] s' else Err EUnexpectedClose
          else if ch =c "#" then parseCommands fuel inGroup depth (skipWhile notNewline s)
          else
            let! (cmd, s) := parseOneCommand fuel depth s in
            let! (cmds, s) := parseCommands fuel inGroup depth s in
            Ret (cmd :: cmds) s
      end
  end
with parseOneCommand (fuel : nat) (depth : nat) (s : bytes) : outcome (sedCmd RE) :=
  match fuel with
  | 0 => NoFuel
  | S fuel =>
      let! (h, s) := parseHeader s in
      match s with
      | [] => Err EMissingCommand
      | ch :: s =>
          if ch =c "{" then
            if maxGroupDepth <=? depth then Err EGroupDepth
            else let! (children, s) := parseCommands fuel true (S depth) s in Ret (Group h children) s
          else let! (k, s) := parseCommandBody ch s in Ret (Cmd h k) s
      end
  end.

(** ** Labels *)

Fixpoint collectLabels (c : sedCmd RE) : list bytes :=
  match c with
  | Cmd _ (cmdLabel l) => [l]
  | Cmd _ _ => []
  | Group _ children => mjoin (map collectLabels children)
  end.

Definition branchLabel (k : cmdType RE) : option bytes :=
  match k with
  | cmdBranch l | cmdBranchIfSub l | cmdBranchIfNoSub l => match l with [] => None | _ => Some l end
  | _ => None
  end.

(** The first branch to a label that is not defined. *)
Fixpoint checkBranches (labels : list bytes) (c : sedCmd RE) : option bytes :=
  match c with
  | Cmd _ k =>
      match branchLabel k with
      | Some l => if existsb (bytes_eqb l) labels then None else Some l
      | None => None
      end
  | Group _ children =>
      (fix check (cs : list (sedCmd RE)) : option bytes :=
         match cs with
         | [] => None
         | c :: cs => match checkBranches labels c with Some l => Some l | None => check cs end
         end) children
  end.

Definition validateLabels (cmds : list (sedCmd RE)) : option bytes :=
  let labels := mjoin (map collectLabels cmds) in
  (fix check (cs : list (sedCmd RE)) : option bytes :=
     match cs with
     | [] => None
     | c :: cs => match checkBranches labels c with Some l => Some l | None => check cs end
     end) cmds.

Definition scriptFuel (script : bytes) : nat := 3 * length script + 3.

Definition parseScript (script : bytes) : outcome (list (sedCmd RE)) :=
  let! (cmds, s) := parseCommands (scriptFuel script) false 0 script in
  match validateLabels cmds with
  | Some l => Err (EUndefinedLabel l)
  | None => Ret cmds s
  end.

End Parser.

End SedParse.
