(* ===== verification/SedSubst.v ===== *)
(** Substitution in sed (builtins/sed/engine.go): the replacement and its size.
    [substituteFits] decides before anything is built whether the result of [s]
    stays within the limit. *)

From S2P Require Import Prelude GoStd BoundedReplace GoRegexp SedParse.
From stdpp Require Import base list strings.
From Stdlib Require Import ZArith Lia Ascii.

Module SedSubst.
Import GoStd BoundedReplace GoRegexp SedParse.

Definition MaxSpaceBytes : Z := Z.shiftl 1 20.
Definition maxExactIndexBytes : Z := MaxSpaceBytes.

(** ** Replacements *)

(** From sed's syntax to Go's templates. *)
Fixpoint expandReplacement (repl : bytes) : bytes :=
  match repl with
  | [] => []
  | ch :: repl' =>
      if ch =c "&" then lit "${0}" ++ expandReplacement repl'
      else if ch =c "$" then lit "$$" ++ expandReplacement repl'
      else
        match repl' with
        | next :: repl'' =>
            if ch =c ch_bs then
              (if next =c "0" then lit "${0}"
               else if ((49 <=? code next) && (code next <=? 57))%Z then lit "${" ++ next :: lit "}"
               else if next =c "$" then lit "$$"
               else [next]) ++ expandReplacement repl''
            else ch :: expandReplacement repl'
        | [] => [ch]
        end
  end.

(** The literal bytes of a replacement and its references to each group. *)
Definition bump (n : nat) (refs : list Z) : list Z := alter (Z.add 1) n refs.

Fixpoint replacementShape (repl : bytes) : Z * list Z :=
  match repl with
  | [] => (0%Z, replicate 10 0%Z)
  | ch :: repl' =>
      if ch =c "&" then let '(l, refs) := replacementShape repl' in (l, bump 0 refs)
      else
        match repl' with
        | next :: repl'' =>
            if ch =c ch_bs then
              let '(l, refs) := replacementShape repl'' in
              if isDigit next then (l, bump (Z.to_nat (code next - 48)) refs) else (l + 1, refs)%Z
            else let '(l, refs) := replacementShape repl' in (l + 1, refs)%Z
        | [] => (1%Z, replicate 10 0%Z)
        end
  end.

Definition contains (s sub : bytes) : bool := match Count s sub with 0 => false | _ => true end.

Definition mayHaveAssertion (src : bytes) : bool :=
  existsb (fun c => (c =c "^") || (c =c "$")) src ||
  contains src (lit "\A") || contains src (lit "\z") || contains src (lit "\b") || contains src (lit "\B").

Section Subst.
Context {RE : Type} `{Regexp RE}.

(** ** The substitution *)

(** The [count]th match, from 1, is replaced. *)
Definition selected (c : substitution RE) (count : Z) : bool :=
  if subGlobal c && (0 <? subNth c)%Z then (subNth c <=? count)%Z
  else if subGlobal c then true
  else if (0 <? subNth c)%Z then (count =? subNth c)%Z
  else (count =? 1)%Z.

(** Without a flag only the first match is looked for, by [FindStringIndex]. *)
Definition substituteFirst (re : RE) (ps expanded : bytes) : option bytes :=
  match FindStringIndex re ps with
  | Some (a, b) => Some (take a ps ++ ReplaceAllString re (slice a b ps) expanded ++ drop b ps)
  | None => None
  end.

(** The result of [execSubstitute], [None] when nothing matched. *)
Definition substitute (re : RE) (ps : bytes) (c : substitution RE) : option bytes :=
  let expanded := expandReplacement (subReplacement c) in
  if (0 <? subNth c)%Z then
    let result := ReplaceAllStringFunc re ps (fun i m =>
      if selected c (Z.of_nat i + 1) then ReplaceAllString re m expanded else m) in
    if existsb (fun i => selected c (Z.of_nat i + 1)) (seq 0 (length (FindAll re ps))) then Some result else None
  else if subGlobal c then
    if MatchString re ps then Some (ReplaceAllString re ps expanded) else None
  else substituteFirst re ps expanded.

(** ** Its size *)

Definition refCount (refs : list Z) : Z := foldr Z.add 0%Z refs.

(** [charge] of one replacement of the text [m]; without the groups of the match
    each is taken to be as long as [m]. *)
Fixpoint chargeGroups (n : nat) (refs : list Z) (m : bytes) (sub : option submatch) (b : Budget) : Budget :=
  match refs with
  | [] => b
  | r :: refs =>
      let b :=
        if (r =? 0)%Z then b
        else fst (AddMul r (match sub with None => len m | Some g => len (group m g n) end) b) in
      chargeGroups (S n) refs m sub b
  end.

Definition charge (lit : Z) (refs : list Z) (m : bytes) (sub : option submatch) (b : Budget) : Budget :=
  let b := fst (Add lit b) in
  match refs with
  | r0 :: refs => chargeGroups 1 refs m sub (fst (AddMul r0 (len m) b))
  | [] => b
  end.

(** The walk over the inner matches of an isolated re-match: what it charges and
    the bytes it replaces. *)
Fixpoint chargeInner (lit : Z) (refs : list Z) (m : bytes) (inner : list submatch) (b : Budget) : Budget :=
  match inner with
  | [] => b
  | g :: inner => chargeInner lit refs m inner (charge lit refs (matchText m g) None b)
  end.

Definition coveredZ (ms : list submatch) : Z := Z.of_nat (covered ms).

(** One selected match of the walk. *)
Definition chargeMatch (re : RE) (ps : bytes) (lit : Z) (refs : list Z) (assertions inContext : bool)
    (g : submatch) (b : Budget) : Budget :=
  let m := matchText ps g in
  if negb assertions then
    charge lit refs m (if (0 <? refCount (drop 1 refs))%Z then FindStringSubmatchIndex re m else None) b
  else if inContext then charge lit refs m None b
  else
    let inner := FindAll re m in
    fst (Add (len m - coveredZ inner) (chargeInner lit refs m inner b)).

(** The walk of [substituteFits]: the budget and the bytes of [ps] replaced. *)
Fixpoint walkMatches (re : RE) (ps : bytes) (c : substitution RE) (lit : Z) (refs : list Z)
    (assertions inContext : bool) (count : Z) (ms : list submatch) (b : Budget) (replaced : Z) : Budget * Z :=
  match ms with
  | [] => (b, replaced)
  | g :: ms =>
      if Exceeded b then walkMatches re ps c lit refs assertions inContext count ms b replaced
      else if selected c (count + 1) then
        walkMatches re ps c lit refs assertions inContext (count + 1) ms
          (chargeMatch re ps lit refs assertions inContext g b) (replaced + len (matchText ps g))
      else walkMatches re ps c lit refs assertions inContext (count + 1) ms b replaced
  end.

(** The exact charge of [ReplaceAllString(text, ...)]: [None] when its spans would
    cost too much to collect. *)
Fixpoint chargeExact (lit : Z) (refs : list Z) (text : bytes) (ms : list submatch) (b : Budget) : Budget :=
  match ms with
  | [] => b
  | g :: ms =>
      let b := fst (Add lit b) in
      chargeExact lit refs text ms
        (fst (fold_left (fun acc r =>
                let '(b, n) := acc in
                (if (0 <? r)%Z then fst (AddMul r (len (group text g n)) b) else b, S n)) refs (b, 0)))
  end.

Definition addReplaceAll (re : RE) (lit : Z) (refs : list Z) (text : bytes) (b : Budget) : Budget * bool :=
  let ms := FindAll re text in
  let perMatch := (24 + 16 * (Z.of_nat (NumSubexp re) + 1))%Z in
  if (maxExactIndexBytes / perMatch <? Z.of_nat (length ms))%Z then (b, false)
  else (fst (Add (len text - coveredZ ms) (chargeExact lit refs text ms b)), true).

(** [selected] in [substituteFitsExact]: with [g], from the [subNth]th on. *)
Definition selectedExact (c : substitution RE) (count : Z) : bool :=
  if subGlobal c then (subNth c <=? count)%Z
  else if (0 <? subNth c)%Z then (count =? subNth c)%Z
  else (count =? 1)%Z.

Fixpoint walkExact (re : RE) (ps : bytes) (c : substitution RE) (lit : Z) (refs : list Z)
    (count : Z) (ms : list submatch) (b : Budget) (ok : bool) (replaced : Z) : Budget * bool * Z :=
  match ms with
  | [] => (b, ok, replaced)
  | g :: ms =>
      if negb ok || Exceeded b then walkExact re ps c lit refs count ms b ok replaced
      else if selectedExact c (count + 1) then
        let m := matchText ps g in
        let '(b, ok) := addReplaceAll re lit refs m b in
        walkExact re ps c lit refs (count + 1) ms b ok (replaced + len m)
      else walkExact re ps c lit refs (count + 1) ms b ok replaced
  end.

Definition substituteFitsExact (re : RE) (ps : bytes) (c : substitution RE) (limit lit : Z) (refs : list Z)
    (inContext : bool) : bool :=
  let b := NewBudget limit in
  if inContext then
    let '(b, ok) := addReplaceAll re lit refs ps b in ok && negb (Exceeded b)
  else
    let '(b, ok, replaced) := walkExact re ps c lit refs 0 (FindAll re ps) b true 0 in
    let b := fst (Add (len ps - replaced) b) in
    ok && negb (Exceeded b).

Definition staticFits (ps : bytes) (c : substitution RE) (limit lit : Z) (refs : list Z) : bool :=
  let maxMatches := if subGlobal c then (len ps + 1)%Z else 1%Z in
  negb (Exceeded (fst (AddMul (refCount refs) (len ps) (fst (AddMul maxMatches lit (fst (Add (len ps) (NewBudget limit)))))))).

Definition substituteFits (re : RE) (ps : bytes) (c : substitution RE) (limit : Z) : bool :=
  let '(lit, refs) := replacementShape (subReplacement c) in
  let groupRefs := refCount (drop 1 refs) in
  let inContext := subGlobal c && (subNth c =? 0)%Z in
  let assertions := mayHaveAssertion (Source re) in
  let isolated := assertions && negb inContext in
  if negb isolated && staticFits ps c limit lit refs then true
  else
    let '(b, replaced) := walkMatches re ps c lit refs assertions inContext 0 (FindAll re ps) (NewBudget limit) 0 in
    let b := fst (Add (len ps - replaced) b) in
    if negb (Exceeded b) then true
    else if negb assertions || (groupRefs =? 0)%Z then false
    else substituteFitsExact re ps c limit lit refs inContext.

End Subst.

End SedSubst.
