(* ===== verification/SedSize.v ===== *)
(** Replacements in sed: what a replacement expands to, how long it is, and that
    [substituteFits] decides the size of the result before it is built. *)

From S2P Require Import Prelude GoStd BoundedReplace GoRegexp SedParse SedSubst.
From stdpp Require Import base list strings.
From Stdlib Require Import ZArith Lia Ascii.

Module SedSize.
Import GoStd BoundedReplace GoRegexp SedParse SedSubst.

(** ** The meaning of a replacement *)

Definition digitOf (c : ascii) : nat := Z.to_nat (code c - 48).

(** sed's own reading: [&] and [\0] are the match, [\1] to [\9] its groups, any
    other escaped byte is itself. *)
Fixpoint sedExpand (repl s : bytes) (m : submatch) : bytes :=
  match repl with
  | [] => []
  | ch :: repl' =>
      if ch =c "&" then group s m 0 ++ sedExpand repl' s m
      else
        match repl' with
        | next :: repl'' =>
            if ch =c ch_bs then
              (if isDigit next then group s m (digitOf next) else [next]) ++ sedExpand repl'' s m
            else ch :: sedExpand repl' s m
        | [] => [ch]
        end
  end.

(** Induction on a replacement, escapes taken in one step. *)
Lemma repl_ind (P : bytes -> Prop) :
  P [] ->
  (forall repl, P repl -> P ("&"%char :: repl)) ->
  (forall next repl, P repl -> P (ch_bs :: next :: repl)) ->
  (forall ch repl, (ch =c "&") = false -> (ch =c ch_bs) = false \/ repl = [] -> P repl -> P (ch :: repl)) ->
  forall repl, P repl.
Proof.
  intros Hnil Hamp Hesc Hlit repl. remember (length repl) as n eqn:En.
  assert (length repl <= n) as Hn by lia. clear En. revert repl Hn.
  induction n as [|n IH]; intros [|c repl] Hn; cbn in Hn; try lia; try exact Hnil.
  destruct (Ascii.eqb_spec c "&") as [->|Ha]; [apply Hamp, IH; lia|].
  apply Ascii.eqb_neq in Ha. destruct (Ascii.eqb_spec c ch_bs) as [->|Hb].
  - destruct repl as [|next repl]; [apply Hlit; [done|by right|apply Hnil]|].
    cbn in Hn. apply Hesc, IH. lia.
  - apply Hlit; [done|left; by apply Ascii.eqb_neq|apply IH; lia].
Qed.

Lemma byte_cases (P : ascii -> Prop) :
  Forall P (map (fun n => ascii_of_N (N.of_nat n)) (seq 0 256)) -> forall c, P c.
Proof.
  intros H c. rewrite Forall_forall in H. apply H. rewrite <- (ascii_N_embedding c).
  apply list_elem_of_In, in_map_iff. exists (N.to_nat (N_of_ascii c)). rewrite N2Nat.id. split; [done|].
  apply in_seq. pose proof (N_ascii_bounded c). lia.
Qed.

Lemma digit_template c t s m fuel : isDigit c = true -> 4 + length t <= fuel ->
  exists f, fuel = S f /\ expandFuel fuel (lit "${" ++ c :: lit "}" ++ t) s m = group s m (digitOf c) ++ expandFuel f t s m.
Proof.
  intros Hc Hf. destruct fuel as [|f]; [lia|]. exists f. split; [done|].
  destruct c as [[] [] [] [] [] [] [] []]; vm_compute in Hc; try discriminate Hc; done.
Qed.

(** A byte that stands for itself. *)
Lemma sedExpand_literal ch repl s m : (ch =c "&") = false -> (ch =c ch_bs) = false \/ repl = [] ->
  sedExpand (ch :: repl) s m = ch :: sedExpand repl s m.
Proof. intros Ha Hb. cbn [sedExpand]. rewrite Ha. destruct repl; [done|]. by destruct Hb as [->|?]. Qed.

Lemma expandReplacement_literal ch repl : (ch =c "&") = false -> (ch =c ch_bs) = false \/ repl = [] ->
  expandReplacement (ch :: repl) = (if ch =c "$" then lit "$$" else [ch]) ++ expandReplacement repl.
Proof.
  intros Ha Hb. cbn [expandReplacement]. rewrite Ha. destruct (ch =c "$"); [done|].
  destruct repl; [done|]. by destruct Hb as [->|?].
Qed.

Lemma replacementShape_literal ch repl : (ch =c "&") = false -> (ch =c ch_bs) = false \/ repl = [] ->
  replacementShape (ch :: repl) = ((fst (replacementShape repl) + 1)%Z, snd (replacementShape repl)).
Proof.
  intros Ha Hb. cbn [replacementShape]. rewrite Ha. destruct repl as [|x repl]; [done|].
  destruct Hb as [->|?]; [|done]. by destruct (replacementShape (x :: repl)).
Qed.

Lemma expandFuel_enough repl s m : forall fuel, length (expandReplacement repl) <= fuel ->
  expandFuel fuel (expandReplacement repl) s m = sedExpand repl s m.
Proof.
  induction repl as [|repl IH|next repl IH|ch repl Ha Hb IH] using repl_ind; intros fuel Hf.
  - by destruct fuel.
  - cbn [expandReplacement sedExpand Ascii.eqb Bool.eqb] in *.
    change (length (lit "${0}" ++ expandReplacement repl)) with (4 + length (expandReplacement repl)) in Hf.
    destruct (digit_template "0" (expandReplacement repl) s m fuel) as (f & -> & E); [done|lia|].
    cbn [app] in E. change (lit "${0}" ++ expandReplacement repl) with (lit "${" ++ "0"%char :: lit "}" ++ expandReplacement repl).
    rewrite E, IH by lia. done.
  - cbn [expandReplacement sedExpand Ascii.eqb Bool.eqb] in *.
    destruct (isDigit next) eqn:Ed.
    + assert ((if next =c "0" then lit "${0}"
               else if ((49 <=? code next) && (code next <=? 57))%Z then lit "${" ++ next :: lit "}"
               else if next =c "$" then lit "$$" else [next]) = lit "${" ++ next :: lit "}") as E1.
      { clear -Ed. destruct next as [[] [] [] [] [] [] [] []]; vm_compute in Ed; try discriminate Ed; done. }
      rewrite E1 in *. clear E1. rewrite <- !app_assoc in *. cbn [app] in *.
      change (length (lit "${" ++ next :: lit "}" ++ expandReplacement repl)) with (4 + length (expandReplacement repl)) in Hf.
      destruct (digit_template next (expandReplacement repl) s m fuel) as (f & -> & E); [done|lia|].
      rewrite E, IH; [done|]. lia.
    + assert ((if next =c "0" then lit "${0}"
               else if ((49 <=? code next) && (code next <=? 57))%Z then lit "${" ++ next :: lit "}"
               else if next =c "$" then lit "$$" else [next]) = if next =c "$" then lit "$$" else [next]) as E1.
      { clear -Ed. destruct next as [[] [] [] [] [] [] [] []]; vm_compute in Ed; try discriminate Ed; done. }
      rewrite E1 in *. clear E1. destruct (Ascii.eqb_spec next "$") as [->|Hne].
      * cbn [app lit String.list_ascii_of_string] in *. change (lit "$$") with ["$"%char; "$"%char] in *. cbn [app length] in *.
        destruct fuel as [|fuel]; [lia|]. cbn [expandFuel Ascii.eqb Bool.eqb]. rewrite IH by lia. done.
      * cbn [app length] in *. destruct fuel as [|fuel]; [lia|]. cbn [expandFuel].
        rewrite (proj2 (Ascii.eqb_neq _ _) Hne), IH by lia. done.
  - rewrite (sedExpand_literal ch repl s m Ha Hb). rewrite (expandReplacement_literal ch repl Ha Hb) in *.
    destruct (Ascii.eqb_spec ch "$") as [->|Hne].
    + change (lit "$$") with ["$"%char; "$"%char] in *. cbn [app length] in *.
      destruct fuel as [|fuel]; [lia|]. cbn [expandFuel Ascii.eqb Bool.eqb]. rewrite IH by lia. done.
    + cbn [app length] in *. destruct fuel as [|fuel]; [lia|]. cbn [expandFuel].
      rewrite (proj2 (Ascii.eqb_neq _ _) Hne), IH by lia. done.
Qed.

(** Expanding the translated template is sed's own replacement. *)
Lemma Expand_expandReplacement repl s m : Expand (expandReplacement repl) s m = sedExpand repl s m.
Proof. by apply expandFuel_enough. Qed.

(** ** The length of a replacement *)

(** [refs] weighted by the lengths of the groups from [n] on. *)
Fixpoint dot (n : nat) (refs : list Z) (glen : nat -> Z) : Z :=
  match refs with [] => 0 | r :: refs => r * glen n + dot (S n) refs glen end%Z.

Definition weight (lit : Z) (refs : list Z) (glen : nat -> Z) : Z := (lit + dot 0 refs glen)%Z.

Definition shape_ok (lit : Z) (refs : list Z) : Prop :=
  (0 <= lit)%Z /\ Forall (fun r => 0 <= r)%Z refs /\ length refs = 10.

Lemma dot_bump k : forall n refs glen, k < length refs ->
  dot n (bump k refs) glen = (dot n refs glen + glen (n + k)%nat)%Z.
Proof.
  unfold bump. induction k as [|k IH]; intros n [|r refs] glen Hk; cbn in Hk; try lia; cbn [alter list_alter dot].
  - rewrite Nat.add_0_r. lia.
  - change (list_alter (Z.add 1) k refs) with (alter (Z.add 1) k refs). rewrite IH by lia.
    rewrite Nat.add_succ_r. cbn [Nat.add]. lia.
Qed.

Lemma dot_replicate k n glen : dot n (replicate k 0%Z) glen = 0%Z.
Proof. revert n. induction k as [|k IH]; intros n; [done|]. cbn [replicate dot]. rewrite IH. lia. Qed.

Lemma bump_ok k refs : Forall (fun r => 0 <= r)%Z refs -> length refs = 10 ->
  Forall (fun r => 0 <= r)%Z (bump k refs) /\ length (bump k refs) = 10.
Proof.
  intros Hr Hl. split; [|unfold bump; by rewrite length_alter].
  apply Forall_alter; [done|]. intros x Hx Hx0. lia.
Qed.

Lemma replacementShape_ok repl : shape_ok (fst (replacementShape repl)) (snd (replacementShape repl)).
Proof.
  induction repl as [|repl IH|next repl IH|ch repl Ha Hb IH] using repl_ind.
  - by split_and!; [|repeat constructor|].
  - cbn [replacementShape Ascii.eqb Bool.eqb]. destruct (replacementShape repl) as [l refs]. destruct IH as (? & Hr & Hl).
    cbn [fst snd] in *. destruct (bump_ok 0 refs Hr Hl). by split_and!.
  - cbn [replacementShape Ascii.eqb Bool.eqb]. destruct (replacementShape repl) as [l refs]. destruct IH as (? & Hr & Hl).
    cbn [fst snd] in *. destruct (bump_ok (Z.to_nat (code next - 48)) refs Hr Hl).
    destruct (isDigit next); split_and!; cbn [fst snd]; try done; lia.
  - rewrite replacementShape_literal by done. destruct IH as (? & ? & ?). cbn. split_and!; [lia|done..].
Qed.

Lemma digitOf_small c : isDigit c = true -> digitOf c < 10.
Proof. unfold isDigit, digitOf. rewrite andb_true_iff, !Z.leb_le. lia. Qed.

Lemma sedExpand_length repl s m :
  len (sedExpand repl s m) =
  weight (fst (replacementShape repl)) (snd (replacementShape repl)) (fun n => len (group s m n)).
Proof.
  induction repl as [|repl IH|next repl IH|ch repl Ha Hb IH] using repl_ind.
  - unfold weight. change (snd (replacementShape [])) with (replicate 10 0%Z). by rewrite dot_replicate.
  - pose proof (replacementShape_ok repl) as (_ & _ & Hl). cbn [replacementShape sedExpand Ascii.eqb Bool.eqb].
    destruct (replacementShape repl) as [l refs]. cbn [fst snd] in *. unfold weight in *.
    rewrite dot_bump by lia. unfold len in *. rewrite length_app. cbn [Nat.add]. lia.
  - pose proof (replacementShape_ok repl) as (_ & _ & Hl). cbn [replacementShape sedExpand Ascii.eqb Bool.eqb].
    destruct (replacementShape repl) as [l refs]. cbn [fst snd] in *. unfold weight in *. unfold len in *. rewrite length_app.
    destruct (isDigit next) eqn:Ed; cbn [fst snd].
    + fold (digitOf next). rewrite dot_bump by (rewrite Hl; by apply digitOf_small). cbn [Nat.add]. lia.
    + cbn [length]. lia.
  - rewrite replacementShape_literal, sedExpand_literal by done. unfold weight, len in *. cbn [fst snd length]. lia.
Qed.

Lemma dot_mono n refs (g1 g2 : nat -> Z) : Forall (fun r => 0 <= r)%Z refs -> (forall k, n <= k -> (g1 k <= g2 k)%Z) ->
  (dot n refs g1 <= dot n refs g2)%Z.
Proof.
  intros Hr. revert n. induction Hr as [|r refs H0 Hr IH]; intros n Hg; cbn [dot]; [lia|].
  specialize (IH (S n) ltac:(intros; apply Hg; lia)). specialize (Hg n ltac:(lia)). nia.
Qed.

Lemma dot_ext n refs (f1 f2 : nat -> Z) : (forall k, n <= k -> f1 k = f2 k) -> dot n refs f1 = dot n refs f2.
Proof.
  revert n. induction refs as [|r refs IH]; intros n Hf; [done|]. cbn [dot].
  rewrite (Hf n), (IH (S n)) by (intros; lia || (apply Hf; lia)). done.
Qed.

Lemma dot_const n refs x : dot n refs (fun _ => x) = (refCount refs * x)%Z.
Proof. revert n. induction refs as [|r refs IH]; intros n; cbn [dot refCount foldr]; [done|]. rewrite IH. unfold refCount. lia. Qed.

Lemma dot_nonneg n refs (g : nat -> Z) : Forall (fun r => 0 <= r)%Z refs -> (forall k, (0 <= g k)%Z) -> (0 <= dot n refs g)%Z.
Proof. intros Hr Hg. revert n. induction Hr as [|r refs H0 Hr IH]; intros n; cbn [dot]; [lia|]. specialize (IH (S n)). specialize (Hg n). nia. Qed.

(** ** What the charges add up to *)

Lemma len_nonneg s : (0 <= len s)%Z.
Proof. unfold len. lia. Qed.

Lemma AddMul_charges limit total count n b :
  (0 <= count)%Z -> (0 <= n)%Z -> (0 <= total)%Z -> charged limit total b ->
  charged limit (total + count * n) (fst (AddMul count n b)).
Proof.
  intros Hc Hn Ht Hb. destruct (Z.eq_dec n 0) as [->|]; [|apply AddMul_charged; lia || done].
  unfold AddMul. rewrite Z.mul_0_r, Z.add_0_r. by destruct (exceeded b), (count <=? 0)%Z.
Qed.

(** A budget over its limit stays over it. *)
Lemma charged_over limit total total' b : charged limit total b -> exceeded b = true -> (total <= total')%Z ->
  charged limit total' b.
Proof.
  intros [He _] Ex Hle. rewrite Ex in He. symmetry in He. apply Z.ltb_lt in He.
  split; [rewrite Ex; symmetry; apply Z.ltb_lt; lia|lia].
Qed.

(** The length [charge] takes for group [n]. *)
Definition chargedGroup (m : bytes) (sub : option submatch) (n : nat) : Z :=
  match n with
  | 0 => len m
  | _ => match sub with None => len m | Some g => len (group m g n) end
  end.

Lemma chargedGroup_nonneg m sub n : (0 <= chargedGroup m sub n)%Z.
Proof. unfold chargedGroup. destruct n; [|destruct sub]; apply len_nonneg. Qed.

Lemma chargeGroups_charged limit refs m sub : Forall (fun r => 0 <= r)%Z refs -> forall n total b,
  (0 <= total)%Z -> charged limit total b ->
  charged limit (total + dot (S n) refs (chargedGroup m sub)) (chargeGroups (S n) refs m sub b).
Proof.
  induction 1 as [|r refs Hr Hrs IH]; intros n total b Ht Hb; cbn [dot chargeGroups]; [by rewrite Z.add_0_r|].
  rewrite Z.add_assoc. pose proof (chargedGroup_nonneg m sub (S n)).
  apply IH; [nia|]. destruct (Z.eqb_spec r 0) as [->|]; [by rewrite Z.mul_0_l, Z.add_0_r|].
  by apply AddMul_charges.
Qed.

Lemma charge_charged limit lit refs m sub total b : shape_ok lit refs -> (0 <= total)%Z -> charged limit total b ->
  charged limit (total + weight lit refs (chargedGroup m sub)) (charge lit refs m sub b).
Proof.
  intros (Hl & Hr & Hlen) Ht Hb. unfold charge, weight. destruct (Add_charged limit total lit b Hl Hb) as [H1 _].
  destruct refs as [|r0 refs]; [done|]. apply Forall_cons in Hr as [Hr0 Hr]. cbn [dot].
  rewrite !Z.add_assoc. pose proof (len_nonneg m).
  apply chargeGroups_charged; [done|cbn; nia|]. cbn [chargedGroup]. by apply AddMul_charges; [..|lia|].
Qed.

(** ** The size of the result *)

Section Sizes.
Context {RE : Type} `{RegexpLaws RE}.
Variables (ps : bytes) (c : substitution RE).

(** What the selected matches add to the length, each replaced by [cost] bytes;
    [count] matches came before. *)
Fixpoint gain (cost : submatch -> Z) (count : Z) (ms : list submatch) : Z :=
  match ms with
  | [] => 0
  | g :: ms => (if selected c (count + 1) then cost g - Z.of_nat (spanLength g) else 0) + gain cost (count + 1) ms
  end%Z.

Lemma gain_lower cost count ms : (forall g, (0 <= cost g)%Z) -> (- coveredZ ms <= gain cost count ms)%Z.
Proof.
  intros Hc. revert count. induction ms as [|g ms IH]; intros count; cbn [gain]; [done|].
  specialize (IH (count + 1)%Z). unfold coveredZ in *. change (covered (g :: ms)) with (spanLength g + covered ms).
  specialize (Hc g). destruct (selected c (count + 1)); lia.
Qed.

Lemma gain_mono f1 f2 count ms : Forall (fun g => f1 g <= f2 g)%Z ms -> (gain f1 count ms <= gain f2 count ms)%Z.
Proof.
  intros Hf. revert count. induction Hf as [|g ms Hg Hf IH]; intros count; cbn [gain]; [done|].
  specialize (IH (count + 1)%Z). destruct (selected c (count + 1)); lia.
Qed.

Lemma gain_eq f1 f2 count ms : Forall (fun g => f1 g = f2 g) ms -> gain f1 count ms = gain f2 count ms.
Proof.
  intros Hf. revert count. induction Hf as [|g ms Hg Hf IH]; intros count; cbn [gain]; [done|].
  by rewrite IH, Hg.
Qed.

Lemma covered_rest ms p again : Forall (match_in ps) ms -> in_order p again ms -> p <= length ps ->
  (coveredZ ms <= len ps - Z.of_nat p)%Z.
Proof.
  intros Hm Ho Hp. destruct (replaceFrom_length (fun _ _ => []) ps ms 0 p again Hm Ho Hp) as [Hc _].
  unfold coveredZ, len. lia.
Qed.

Lemma matchText_len g : match_in ps g -> len (matchText ps g) = Z.of_nat (spanLength g).
Proof. intros Hg. unfold len. by rewrite matchText_length. Qed.

(** The walk charges exactly the length it predicts. *)
Lemma walkMatches_exceeded re lit refs assertions inContext ms : forall count b replaced, exceeded b = true ->
  walkMatches re ps c lit refs assertions inContext count ms b replaced = (b, replaced).
Proof. induction ms as [|g ms IH]; intros count b replaced Hb; cbn [walkMatches]; [done|]. unfold Exceeded. rewrite Hb. by apply IH. Qed.

Lemma walkMatches_charged re lit refs assertions inContext limit cost :
  (forall g, (0 <= cost g)%Z) ->
  (forall g total b, (0 <= total)%Z -> charged limit total b -> match_in ps g -> 
     charged limit (total + cost g) (chargeMatch re ps lit refs assertions inContext g b)) ->
  forall ms count p again total b replaced,
  Forall (match_in ps) ms -> in_order p again ms -> p <= length ps ->
  (0 <= total)%Z -> charged limit total b -> (0 <= replaced <= Z.of_nat p)%Z ->
  let '(b', replaced') := walkMatches re ps c lit refs assertions inContext count ms b replaced in
  exceeded (fst (Add (len ps - replaced') b')) = (limit <? total + (len ps - replaced) + gain cost count ms)%Z.
Proof.
  intros Hcost Hstep. induction ms as [|g ms IH]; intros count p again total b replaced Hm Ho Hp Ht Hb Hr; cbn [walkMatches gain].
  { rewrite Z.add_0_r. destruct (Add_charged limit total (len ps - replaced) b) as [[He _] _]; [unfold len; lia|done|done]. }
  pose proof (covered_rest _ _ _ Hm Ho Hp) as Hcov.
  pose proof (gain_lower cost count (g :: ms) Hcost) as Hlow. cbn [gain] in Hlow.
  destruct (Exceeded b) eqn:Eb.
  { rewrite walkMatches_exceeded by done. unfold Add, Exceeded in *. rewrite Eb. cbn. rewrite Eb.
    destruct Hb as [He _]. rewrite Eb in He. symmetry in He. apply Z.ltb_lt in He. symmetry. apply Z.ltb_lt. lia. }
  apply Forall_cons in Hm as [Hg Hm]. destruct Ho as (Hpa & _ & Ho). pose proof (match_in_whole _ _ Hg) as Hw.
  destruct (selected c (count + 1)) eqn:Es.
  - pose proof (Hstep g total b Ht Hb Hg) as Hb'. specialize (Hcost g).
    specialize (IH (count + 1)%Z (snd (whole g)) true (total + cost g)%Z _ (replaced + len (matchText ps g))%Z Hm Ho
      ltac:(lia) ltac:(lia) Hb').
    rewrite matchText_len in * by done. unfold spanLength in *. specialize (IH ltac:(lia)).
    destruct (walkMatches _ _ _ _ _ _ _ _ _ _ _) as [b' r']. rewrite IH. f_equal. lia.
  - specialize (IH (count + 1)%Z (snd (whole g)) true total b replaced Hm Ho ltac:(lia) Ht Hb ltac:(lia)).
    destruct (walkMatches _ _ _ _ _ _ _ _ _ _ _) as [b' r']. rewrite IH. f_equal.
Qed.

(** ** The length of what [substitute] builds *)

Definition replacedBy (re : RE) (expanded : bytes) (g : submatch) : Z :=
  if subGlobal c && (subNth c =? 0)%Z then len (Expand expanded ps g)
  else len (ReplaceAllString re (matchText ps g) expanded).

Lemma inserted_gain (f : nat -> submatch -> bytes) cost ms : forall i,
  Forall (match_in ps) ms ->
  (forall i g, match_in ps g -> 
     len (f i g) = if selected c (Z.of_nat i + 1) then cost g else Z.of_nat (spanLength g)) ->
  (Z.of_nat (inserted f i ms) = coveredZ ms + gain cost (Z.of_nat i) ms)%Z.
Proof.
  induction ms as [|g ms IH]; intros i Hm Hf; cbn [inserted gain]; [done|].
  apply Forall_cons in Hm as [Hg Hm]. specialize (IH (S i) Hm Hf).
  pose proof (Hf i g Hg) as Hlen. unfold coveredZ in *. change (covered (g :: ms)) with (spanLength g + covered ms).
  replace (Z.of_nat (S i)) with (Z.of_nat i + 1)%Z in IH by lia. unfold len in Hlen.
  destruct (selected c (Z.of_nat i + 1)); lia.
Qed.

Lemma replaceFrom_gain re f cost :
  (forall i g, match_in ps g -> 
     len (f i g) = if selected c (Z.of_nat i + 1) then cost g else Z.of_nat (spanLength g)) ->
  len (replaceFrom f ps 0 0 (FindAll re ps)) = (len ps + gain cost 0 (FindAll re ps))%Z.
Proof.
  intros Hf. pose proof (inserted_gain f cost (FindAll re ps) 0 (matches_in re ps) Hf) as Hi.
  destruct (replaceFrom_length f ps (FindAll re ps) 0 0 false (matches_in re ps) (matches_ordered re ps)) as [Hc Hl]; [lia|].
  change (Z.of_nat 0) with 0%Z in Hi. unfold len, coveredZ in *. lia.
Qed.

(** Only the first match counts without [g] and a number. *)
Lemma gain_first cost count ms : subGlobal c = false -> (subNth c <= 0)%Z -> (1 <= count)%Z -> gain cost count ms = 0%Z.
Proof.
  intros Hg Hn. revert count. induction ms as [|g ms IH]; intros count Hc; cbn [gain]; [done|].
  unfold selected. rewrite Hg. cbn [andb]. rewrite (proj2 (Z.ltb_ge 0 _)) by done.
  rewrite (proj2 (Z.eqb_neq (count + 1) 1)) by lia. rewrite IH by lia. done.
Qed.

Lemma substitute_length re result : (0 <= subNth c)%Z -> substitute re ps c = Some result ->
  len result = (len ps + gain (replacedBy re (expandReplacement (subReplacement c))) 0 (FindAll re ps))%Z.
Proof.
  intros Hn. unfold substitute. set (expanded := expandReplacement (subReplacement c)).
  destruct (Z.ltb_spec 0 (subNth c)) as [Hlt|Hge].
  - destruct (existsb _ _); [|done]. intros [= <-]. apply replaceFrom_gain. intros i g Hg.
    unfold replacedBy. rewrite (proj2 (Z.eqb_neq (subNth c) 0)) by lia. rewrite andb_false_r.
    destruct (selected c (Z.of_nat i + 1)); [done|by apply matchText_len].
  - assert (subNth c = 0%Z) as En by lia. destruct (subGlobal c) eqn:Eg.
    + destruct (MatchString re ps); [|done]. intros [= <-]. apply replaceFrom_gain. intros i g Hg.
      unfold replacedBy, selected. rewrite Eg, En. done.
    + unfold substituteFirst, FindStringIndex, FindStringSubmatchIndex.
      destruct (FindAll re ps) as [|g ms] eqn:Ef; [done|]. cbn [head fmap option_fmap option_map].
      destruct (whole g) as [a b] eqn:Ew. intros [= <-].
      assert (match_in ps g) as Hg by (pose proof (matches_in re ps) as Hm; rewrite Ef in Hm; by inversion Hm).
      pose proof (match_in_whole _ _ Hg) as Hw. rewrite Ew in Hw. cbn [fst snd] in Hw.
      cbn [gain]. rewrite gain_first by (done || lia). rewrite Z.add_0_r.
      unfold selected, replacedBy, matchText, spanLength. rewrite Eg, En, Ew. cbn [andb fst snd Z.ltb Z.compare Z.eqb].
      unfold len. rewrite !length_app, length_take, length_drop. change (0 + 1 =? 1)%Z with true. cbn match. lia.
Qed.

End Sizes.

(** ** What one match costs *)

(** A match without empty-width assertions, searched again in isolation, is found
    whole and once, with groups of the same lengths. *)
Class RegexpIsolated (RE : Type) `{RegexpLaws RE} :=
  isolated_match (r : RE) s g : mayHaveAssertion (Source r) = false -> g ∈ FindAll r s ->
    exists g', FindAll r (matchText s g) = [g'] /\ whole g' = (0, spanLength g) /\
      forall n, length (group (matchText s g) g' n) = length (group s g n).

Section Costs.
Context {RE : Type} `{RegexpIsolated RE}.
Variables (ps : bytes) (c : substitution RE) (re : RE).

Abbreviation lit0 := (fst (replacementShape (subReplacement c))).
Abbreviation refs0 := (snd (replacementShape (subReplacement c))).
Abbreviation expanded0 := (expandReplacement (subReplacement c)).
Abbreviation inContext0 := (subGlobal c && (subNth c =? 0)%Z).

Lemma Expand_length s m : len (Expand expanded0 s m) = weight lit0 refs0 (fun n => len (group s m n)).
Proof. rewrite Expand_expandReplacement. apply sedExpand_length. Qed.

(** Every group as long as its match: the bound. *)
Definition bound (n : nat) : Z := (lit0 + refCount refs0 * Z.of_nat n)%Z.

Lemma refs0_ok : shape_ok lit0 refs0.
Proof. apply replacementShape_ok. Qed.

Lemma bound_nonneg n : (0 <= bound n)%Z.
Proof.
  destruct refs0_ok as (Hl & Hr & _). unfold bound. pose proof (dot_nonneg 0 refs0 (fun _ => 1%Z) Hr ltac:(lia)) as Hd.
  rewrite dot_const in Hd. nia.
Qed.

Lemma Expand_bound s m : match_in s m -> (0 <= len (Expand expanded0 s m) <= bound (spanLength m))%Z.
Proof.
  intros Hm. split; [apply len_nonneg|]. destruct refs0_ok as (_ & Hr & _). rewrite Expand_length. unfold weight, bound.
  rewrite <- (dot_const 0). apply Z.add_le_mono_l, dot_mono; [done|]. intros k _. unfold len.
  pose proof (group_length_le s m k Hm). lia.
Qed.

(** Without references to groups proper the bound is exact. *)
Lemma groupless_dot n refs (f1 f2 : nat -> Z) : Forall (fun r => 0 <= r)%Z refs -> refCount refs = 0%Z -> dot n refs f1 = dot n refs f2.
Proof.
  intros Hr. revert n. induction Hr as [|r refs Hr0 Hr IH]; intros n He; [done|]. cbn [dot].
  change (refCount (r :: refs)) with (r + refCount refs)%Z in He.
  pose proof (dot_nonneg 0 refs (fun _ => 1%Z) Hr ltac:(lia)) as Hd. rewrite dot_const in Hd.
  assert (r = 0%Z) as -> by lia. rewrite (IH (S n)); lia.
Qed.

Lemma group_whole s m : match_in s m -> len (group s m 0) = Z.of_nat (spanLength m).
Proof.
  intros Hm. rewrite <- (matchText_length s m Hm). destruct Hm as (a & b & E & Hab & _).
  unfold group, matchText, whole, len. destruct m as [|[[a' b']|] m]; cbn in E; try done.
Qed.

Lemma refs0_cons : exists r0 refs, refs0 = r0 :: refs /\ (0 <= r0)%Z /\ Forall (fun r => 0 <= r)%Z refs.
Proof.
  destruct refs0_ok as (_ & Hr & Hl). destruct refs0 as [|r0 refs]; [done|].
  apply Forall_cons in Hr as [? ?]. by exists r0, refs.
Qed.

Lemma weight_groupless (f1 f2 : nat -> Z) : refCount (drop 1 refs0) = 0%Z -> f1 0 = f2 0 -> weight lit0 refs0 f1 = weight lit0 refs0 f2.
Proof.
  intros Hg He. unfold weight. destruct refs0_cons as (r0 & refs & E & _ & Hr). rewrite E in Hg |- *. cbn [drop dot] in *.
  rewrite He, (groupless_dot 1 refs f1 f2) by done. done.
Qed.

Lemma Expand_groupless s m : match_in s m -> refCount (drop 1 refs0) = 0%Z ->
  len (Expand expanded0 s m) = bound (spanLength m).
Proof.
  intros Hm Hg. rewrite Expand_length. unfold bound. rewrite <- (dot_const 0).
  apply (weight_groupless _ (fun _ => Z.of_nat (spanLength m)) Hg). by apply group_whole.
Qed.

(** The bound of an isolated re-match, each inner match at its bound. *)
Definition innerBound (g : submatch) : Z :=
  let m := matchText ps g in
  let inner := FindAll re m in
  (len m - coveredZ inner + foldr Z.add 0 (map (fun g => bound (spanLength g)) inner))%Z.

Lemma ReplaceAll_inserted (m : bytes) :
  len (ReplaceAllString re m expanded0) =
  (len m - coveredZ (FindAll re m) + foldr Z.add 0 (map (fun g => len (Expand expanded0 m g)) (FindAll re m)))%Z /\
  (coveredZ (FindAll re m) <= len m)%Z.
Proof.
  destruct (ReplaceAllString_length re m expanded0) as [Hc Hl]. unfold coveredZ.
  assert (forall ms i, Z.of_nat (inserted (fun _ g => Expand expanded0 m g) i ms) =
    foldr Z.add 0%Z (map (fun g => len (Expand expanded0 m g)) ms)) as Hi.
  { induction ms as [|g ms IH]; intros i; [done|]. cbn [inserted map foldr]. rewrite <- (IH (S i)). unfold len. lia. }
  rewrite <- (Hi _ 0). unfold len. lia.
Qed.

Lemma sum_mono (f1 f2 : submatch -> Z) ms : Forall (fun g => f1 g <= f2 g)%Z ms ->
  (foldr Z.add 0 (map f1 ms) <= foldr Z.add 0 (map f2 ms))%Z.
Proof. induction 1 as [|g ms Hg Hms IH]; cbn; lia. Qed.

Lemma ReplaceAll_bound g : (len (ReplaceAllString re (matchText ps g) expanded0) <= innerBound g)%Z.
Proof.
  destruct (ReplaceAll_inserted (matchText ps g)) as [-> _]. unfold innerBound. apply Z.add_le_mono_l, sum_mono.
  eapply Forall_impl; [apply matches_in|]. intros g' Hg'. by apply Expand_bound.
Qed.

Lemma ReplaceAll_groupless g : refCount (drop 1 refs0) = 0%Z -> 
  len (ReplaceAllString re (matchText ps g) expanded0) = innerBound g.
Proof.
  intros Hr. destruct (ReplaceAll_inserted (matchText ps g)) as [-> _]. unfold innerBound. f_equal. f_equal.
  apply map_ext_in. intros g' Hg'. apply Expand_groupless; [|done].
  pose proof (matches_in re (matchText ps g)) as Hf. rewrite Forall_forall in Hf. apply Hf. by apply list_elem_of_In.
Qed.

(** ** What the walk charges for one match *)

Definition assertions0 : bool := mayHaveAssertion (Source re).

Definition isolatedGroups (g : submatch) : option submatch :=
  if (0 <? refCount (drop 1 refs0))%Z then FindStringSubmatchIndex re (matchText ps g) else None.

Definition cost (g : submatch) : Z :=
  let m := matchText ps g in
  if negb assertions0 then weight lit0 refs0 (chargedGroup m (isolatedGroups g))
  else if inContext0 then weight lit0 refs0 (chargedGroup m None)
  else innerBound g.

Lemma weight_nonneg (f : nat -> Z) : (forall n, (0 <= f n)%Z) -> (0 <= weight lit0 refs0 f)%Z.
Proof. intros Hf. destruct refs0_ok as (? & Hr & _). unfold weight. pose proof (dot_nonneg 0 refs0 f Hr Hf). lia. Qed.

Lemma innerBound_nonneg g : (0 <= innerBound g)%Z.
Proof. pose proof (ReplaceAll_bound g). pose proof (len_nonneg (ReplaceAllString re (matchText ps g) expanded0)). lia. Qed.

Lemma cost_nonneg g : (0 <= cost g)%Z.
Proof.
  unfold cost. destruct (negb assertions0); [|destruct inContext0].
  - apply weight_nonneg. intros n. apply chargedGroup_nonneg.
  - apply weight_nonneg. intros n. apply chargedGroup_nonneg.
  - apply innerBound_nonneg.
Qed.

Lemma weight_whole s g : match_in s g -> weight lit0 refs0 (chargedGroup (matchText s g) None) = bound (spanLength g).
Proof.
  intros Hg. unfold bound, weight. rewrite <- (dot_const 0). f_equal. rewrite <- (matchText_length s g Hg).
  apply dot_ext. by intros [|k] _.
Qed.

Lemma chargeInner_charged limit m ms : Forall (match_in m) ms -> forall total b, (0 <= total)%Z -> charged limit total b ->
  charged limit (total + foldr Z.add 0%Z (map (fun g => bound (spanLength g)) ms)) (chargeInner lit0 refs0 m ms b).
Proof.
  induction 1 as [|g ms Hg Hms IH]; intros total b Ht Hb; cbn [chargeInner map foldr]; [by rewrite Z.add_0_r|].
  rewrite Z.add_assoc. pose proof (bound_nonneg (spanLength g)). apply IH; [lia|].
  replace (bound (spanLength g)) with (weight lit0 refs0 (chargedGroup (matchText m g) None)).
  - apply charge_charged; [apply refs0_ok|done..].
  - by apply weight_whole.
Qed.

Lemma chargeMatch_charged limit g total b : (0 <= total)%Z -> charged limit total b ->
  charged limit (total + cost g) (chargeMatch re ps lit0 refs0 assertions0 inContext0 g b).
Proof.
  intros Ht Hb. unfold chargeMatch, cost. destruct (negb assertions0); [|destruct inContext0].
  - by apply charge_charged; [apply refs0_ok|..].
  - by apply charge_charged; [apply refs0_ok|..].
  - unfold innerBound. set (m := matchText ps g).
    pose proof (chargeInner_charged limit m _ (matches_in re m) total b Ht Hb) as Hc.
    destruct (ReplaceAll_inserted m) as [_ Hcov].
    assert (0 <= len m - coveredZ (FindAll re m))%Z as Hge by lia.
    destruct (Add_charged _ _ _ _ Hge Hc) as [Hd _].
    replace (total + (len m - coveredZ (FindAll re m) + foldr Z.add 0%Z (map (fun g => bound (spanLength g)) (FindAll re m))))%Z
      with (total + foldr Z.add 0%Z (map (fun g => bound (spanLength g)) (FindAll re m)) + (len m - coveredZ (FindAll re m)))%Z by lia.
    exact Hd.
Qed.

(** Without assertions, what is charged is what is written. *)
Lemma cost_isolated g : g ∈ FindAll re ps -> assertions0 = false ->
  replacedBy ps c re expanded0 g = cost g.
Proof.
  intros Hin Ha. unfold cost. rewrite Ha. cbn [negb].
  pose proof (matches_in re ps) as Hall. rewrite Forall_forall in Hall. specialize (Hall g Hin).
  destruct (isolated_match re ps g Ha Hin) as (g' & Ef & Ew & Eg).
  assert (weight lit0 refs0 (chargedGroup (matchText ps g) (isolatedGroups g)) =
    weight lit0 refs0 (fun n => len (group ps g n))) as ->.
  { unfold isolatedGroups, FindStringSubmatchIndex. rewrite Ef. cbn [head].
    assert (chargedGroup (matchText ps g) None 0 = len (group ps g 0)) as E0.
    { cbn [chargedGroup]. unfold len. rewrite matchText_length by done. symmetry. by apply group_whole. }
    destruct (Z.ltb_spec 0 (refCount (drop 1 refs0))) as [Hpos|Hle].
    - unfold weight. f_equal. destruct refs0_cons as (r0 & refs & -> & _ & _). cbn [dot]. f_equal; [by f_equal|].
      apply dot_ext. intros [|k] Hk; [lia|]. cbn [chargedGroup]. unfold len. by rewrite Eg.
    - apply weight_groupless; [|exact E0]. destruct refs0_cons as (r0 & refs & E & _ & Hr). rewrite E in Hle |- *. change (drop 1 (r0 :: refs)) with refs in *.
      pose proof (dot_nonneg 0 refs (fun _ => 1%Z) Hr ltac:(lia)) as Hd. rewrite dot_const in Hd. lia. }
  unfold replacedBy. destruct inContext0; [apply Expand_length|].
  destruct (ReplaceAll_inserted (matchText ps g)) as [-> _]. rewrite Ef. cbn [map foldr].
  unfold coveredZ, covered. cbn [sum_list_with]. unfold spanLength at 1. rewrite Ew. cbn [fst snd].
  rewrite Expand_length.
  assert (weight lit0 refs0 (fun n => len (group (matchText ps g) g' n)) = weight lit0 refs0 (fun n => len (group ps g n))) as ->.
  { unfold weight. f_equal. apply dot_ext. intros k _. unfold len. by rewrite Eg. }
  unfold len. rewrite matchText_length by done. lia.
Qed.

Lemma cost_bounds g : g ∈ FindAll re ps ->
  (replacedBy ps c re expanded0 g <= cost g)%Z /\
  (assertions0 = false \/ refCount (drop 1 refs0) = 0%Z -> replacedBy ps c re expanded0 g = cost g).
Proof.
  intros Hin. destruct assertions0 eqn:Ea.
  - pose proof (matches_in re ps) as Hall. rewrite Forall_forall in Hall. specialize (Hall g Hin).
    unfold cost, replacedBy. rewrite Ea. cbn [negb].
    assert (weight lit0 refs0 (chargedGroup (matchText ps g) None) = bound (spanLength g)) as ->.
    { by apply weight_whole. }
    destruct inContext0.
    + split; [apply Expand_bound, Hall|]. intros [?|Hr]; [done|]. by apply Expand_groupless.
    + split; [apply ReplaceAll_bound|]. intros [?|Hr]; [done|]. by apply ReplaceAll_groupless.
  - rewrite (cost_isolated g Hin Ea). done.
Qed.

(** ** The static bound *)

Lemma replacedBy_bound g : g ∈ FindAll re ps -> assertions0 = false \/ inContext0 = true ->
  (replacedBy ps c re expanded0 g <= bound (spanLength g))%Z.
Proof.
  intros Hin Ha. pose proof (matches_in re ps) as Hall. rewrite Forall_forall in Hall. specialize (Hall g Hin).
  unfold replacedBy. destruct inContext0 eqn:Ei; [apply Expand_bound, Hall|]. destruct Ha as [Ha|?]; [|done].
  destruct (isolated_match re ps g Ha Hin) as (g' & Ef & Ew & _).
  etransitivity; [apply ReplaceAll_bound|]. unfold innerBound. rewrite Ef. unfold coveredZ, covered, len.
  rewrite matchText_length by done. cbn [sum_list_with map foldr]. unfold spanLength at 2 3. rewrite Ew. cbn [fst snd].
  rewrite Nat.sub_0_r, Nat.add_0_r. lia.
Qed.

(** How many of the matches are selected. *)
Fixpoint selections (count : Z) (ms : list submatch) : Z :=
  match ms with [] => 0 | _ :: ms => (if selected c (count + 1) then 1 else 0) + selections (count + 1) ms end%Z.

Lemma selections_all ms : forall count, (0 <= selections count ms <= Z.of_nat (length ms))%Z.
Proof. induction ms as [|g ms IH]; intros count; cbn [selections length]; [lia|]. specialize (IH (count + 1)%Z). destruct (selected _ _); lia. Qed.

Lemma selected_single : subGlobal c = false -> exists k, forall count, selected c count = (count =? k)%Z.
Proof.
  intros Hg. unfold selected. rewrite Hg. cbn [andb]. destruct (0 <? subNth c)%Z; [by exists (subNth c)|by exists 1%Z].
Qed.

Lemma selections_single ms : subGlobal c = false -> forall count, (selections count ms <= 1)%Z.
Proof.
  intros Hg. destruct (selected_single Hg) as [k Hk].
  assert (forall ms count, (k <= count)%Z -> selections count ms = 0%Z) as Hlate.
  { induction ms0 as [|g ms0 IH]; intros count Hc; cbn [selections]; [done|]. rewrite Hk, IH by lia.
    by rewrite (proj2 (Z.eqb_neq _ _)) by lia. }
  induction ms as [|g ms IH]; intros count; cbn [selections]; [lia|]. rewrite Hk.
  destruct (Z.eqb_spec (count + 1) k) as [<-|Hne]; [rewrite Hlate by lia; lia|]. specialize (IH (count + 1)%Z). lia.
Qed.

Lemma gain_bound ms : forall count,
  (gain c (fun g => bound (spanLength g)) count ms <= selections count ms * lit0 + refCount refs0 * coveredZ ms)%Z.
Proof.
  destruct refs0_ok as (Hl & Hr & _). pose proof (dot_nonneg 0 refs0 (fun _ => 1%Z) Hr ltac:(lia)) as Hd. rewrite dot_const in Hd.
  induction ms as [|g ms IH]; intros count; cbn [gain selections]; [unfold coveredZ; cbn; lia|].
  specialize (IH (count + 1)%Z). unfold coveredZ in *. change (covered (g :: ms)) with (spanLength g + covered ms).
  unfold bound in *. destruct (selected c (count + 1)); nia.
Qed.

Lemma static_sound limit : (0 <= limit)%Z -> staticFits ps c limit lit0 refs0 = true ->
  assertions0 = false \/ inContext0 = true ->
  (len ps + gain c (replacedBy ps c re expanded0) 0 (FindAll re ps) <= limit)%Z.
Proof.
  intros Hlim Hs Ha. unfold staticFits in Hs. set (maxMatches := if subGlobal c then (len ps + 1)%Z else 1%Z) in Hs.
  pose proof (len_nonneg ps) as Hlen. destruct refs0_ok as (Hl & Hr & _).
  pose proof (dot_nonneg 0 refs0 (fun _ => 1%Z) Hr ltac:(lia)) as Hd. rewrite dot_const in Hd.
  assert (0 <= maxMatches)%Z as Hmm by (subst maxMatches; destruct (subGlobal c); lia).
  pose proof (NewBudget_charged limit Hlim) as H0c.
  destruct (Add_charged _ _ (len ps) _ Hlen H0c) as [H1c _].
  pose proof (AddMul_charges limit (0 + len ps) maxMatches lit0 _ Hmm Hl ltac:(lia) H1c) as H2c.
  assert (0 <= refCount refs0)%Z as Hrc by lia.
  pose proof (AddMul_charges limit (0 + len ps + maxMatches * lit0) (refCount refs0) (len ps) _ Hrc Hlen ltac:(nia) H2c) as [H3c _].
  unfold Exceeded in Hs. rewrite H3c in Hs. apply negb_true_iff, Z.ltb_ge in Hs.
  assert (gain c (replacedBy ps c re expanded0) 0 (FindAll re ps) <= gain c (fun g => bound (spanLength g)) 0 (FindAll re ps))%Z as Hg1.
  { apply gain_mono. rewrite Forall_forall. intros g Hg. by apply replacedBy_bound. }
  pose proof (gain_bound (FindAll re ps) 0) as Hg2.
  assert (selections 0 (FindAll re ps) <= maxMatches)%Z as Hsel.
  { subst maxMatches. destruct (subGlobal c) eqn:Eg.
    - pose proof (selections_all (FindAll re ps) 0). pose proof (FindAll_count re ps). unfold len. lia.
    - by apply selections_single. }
  pose proof (covered_rest ps (FindAll re ps) 0 false (matches_in re ps) (matches_ordered re ps) ltac:(lia)) as Hcov.
  pose proof (selections_all (FindAll re ps) 0). nia.
Qed.

(** ** The exact pass *)

Abbreviation tooMany text := (maxExactIndexBytes / (24 + 16 * (Z.of_nat (NumSubexp re) + 1)) <? Z.of_nat (length (FindAll re text)))%Z.

Lemma chargeRefs_charged limit text g : forall refs n total b, Forall (fun r => 0 <= r)%Z refs -> (0 <= total)%Z -> charged limit total b ->
  charged limit (total + dot n refs (fun k => len (group text g k)))
    (fst (fold_left (fun acc r => let '(b, n) := acc in
            (if (0 <? r)%Z then fst (AddMul r (len (group text g n)) b) else b, S n)) refs (b, n))).
Proof.
  induction refs as [|r refs IH]; intros n total b Hr Ht Hb; cbn [dot fold_left]; [by rewrite Z.add_0_r|].
  apply Forall_cons in Hr as [Hr0 Hr]. pose proof (len_nonneg (group text g n)). rewrite Z.add_assoc.
  apply IH; [done|nia|]. destruct (Z.ltb_spec 0 r); [by apply AddMul_charges|].
  assert (r = 0%Z) as -> by lia. by rewrite Z.add_0_r.
Qed.

Lemma chargeExact_charged limit text ms : forall total b, (0 <= total)%Z -> charged limit total b ->
  charged limit (total + foldr Z.add 0%Z (map (fun g => len (Expand expanded0 text g)) ms))
    (chargeExact lit0 refs0 text ms b).
Proof.
  destruct refs0_ok as (Hl & Hr & _).
  induction ms as [|g ms IH]; intros total b Ht Hb; cbn [map foldr chargeExact]; [by rewrite Z.add_0_r|].
  rewrite Z.add_assoc. pose proof (len_nonneg (Expand expanded0 text g)). apply IH; [lia|].
  rewrite Expand_length. unfold weight. rewrite Z.add_assoc.
  destruct (Add_charged _ _ _ _ Hl Hb) as [Hc _]. apply chargeRefs_charged; [done|lia|done].
Qed.

Lemma addReplaceAll_charged limit text total b : (0 <= total)%Z -> charged limit total b ->
  snd (addReplaceAll re lit0 refs0 text b) = negb (tooMany text) /\
  (tooMany text = false -> charged limit (total + len (ReplaceAllString re text expanded0)) (fst (addReplaceAll re lit0 refs0 text b))).
Proof.
  intros Ht Hb. unfold addReplaceAll. destruct (tooMany text); cbn [fst snd]; split; try done. intros _.
  destruct (ReplaceAll_inserted text) as [-> Hcov].
  pose proof (chargeExact_charged limit text (FindAll re text) total b Ht Hb) as Hc.
  assert (0 <= len text - coveredZ (FindAll re text))%Z as Hge by lia.
  destruct (Add_charged _ _ _ _ Hge Hc) as [Hd _].
  by rewrite (Z.add_comm (len text - _)), Z.add_assoc.
Qed.

Lemma walkExact_exceeded ms : forall count b ok replaced, exceeded b = true ->
  walkExact re ps c lit0 refs0 count ms b ok replaced = (b, ok, replaced).
Proof.
  induction ms as [|g ms IH]; intros count b ok replaced Hb; cbn [walkExact]; [done|].
  unfold Exceeded. rewrite Hb, orb_true_r. by apply IH.
Qed.

Lemma walkExact_stopped ms : forall count b replaced,
  walkExact re ps c lit0 refs0 count ms b false replaced = (b, false, replaced).
Proof. induction ms as [|g ms IH]; intros count b replaced; cbn [walkExact]; [done|]. apply IH. Qed.

Lemma selectedExact_selected count : (0 <= subNth c)%Z -> inContext0 = false -> selectedExact c count = selected c count.
Proof.
  intros Hn Hi. unfold selectedExact, selected. destruct (subGlobal c); cbn [andb] in *; [|done].
  apply Z.eqb_neq in Hi. by rewrite (proj2 (Z.ltb_lt 0 _)) by lia.
Qed.

Abbreviation exactCost := (fun g => len (ReplaceAllString re (matchText ps g) expanded0)).

Lemma walkExact_charged limit ms : (0 <= subNth c)%Z -> inContext0 = false -> forall count p again total b replaced,
  Forall (match_in ps) ms -> in_order p again ms -> p <= length ps ->
  (0 <= total)%Z -> charged limit total b -> (0 <= replaced <= Z.of_nat p)%Z ->
  let '(b', ok, replaced') := walkExact re ps c lit0 refs0 count ms b true replaced in
  if ok then exceeded (fst (Add (len ps - replaced') b')) = (limit <? total + (len ps - replaced) + gain c exactCost count ms)%Z
  else exists g, g ∈ ms /\ tooMany (matchText ps g) = true.
Proof.
  intros Hn Hi. induction ms as [|g ms IH]; intros count p again total b replaced Hm Ho Hp Ht Hb Hr; cbn [walkExact gain].
  { rewrite Z.add_0_r. destruct (Add_charged limit total (len ps - replaced) b) as [[He _] _]; [unfold len; lia|done|done]. }
  pose proof (covered_rest ps _ _ _ Hm Ho Hp) as Hcov.
  pose proof (gain_lower c exactCost count (g :: ms) ltac:(intros; apply len_nonneg)) as Hlow. cbn [gain] in Hlow.
  destruct (Exceeded b) eqn:Eb.
  { rewrite orb_true_r, walkExact_exceeded by done. unfold Add, Exceeded in *. rewrite Eb. cbn. rewrite Eb.
    destruct Hb as [He _]. rewrite Eb in He. symmetry in He. apply Z.ltb_lt in He. symmetry. apply Z.ltb_lt. lia. }
  cbn [negb orb]. rewrite selectedExact_selected by done.
  apply Forall_cons in Hm as [Hg Hm]. destruct Ho as (Hpa & _ & Ho). pose proof (match_in_whole _ _ Hg) as Hw.
  destruct (selected c (count + 1)) eqn:Es.
  - destruct (addReplaceAll_charged limit (matchText ps g) total b Ht Hb) as [Eok Hc].
    destruct (addReplaceAll re lit0 refs0 (matchText ps g) b) as [b1 ok]. cbn [fst snd] in *. subst ok.
    destruct (tooMany (matchText ps g)) eqn:Et; cbn [negb].
    { rewrite walkExact_stopped. exists g. split; [by left|done]. }
    specialize (Hc eq_refl). pose proof (len_nonneg (ReplaceAllString re (matchText ps g) expanded0)) as Hpos.
    rewrite (matchText_len ps g Hg). unfold spanLength in *.
    specialize (IH (count + 1)%Z (snd (whole g)) true (total + len (ReplaceAllString re (matchText ps g) expanded0))%Z b1 (replaced + Z.of_nat (snd (whole g) - fst (whole g)))%Z Hm Ho
      ltac:(lia) ltac:(lia) Hc ltac:(lia)).
    destruct (walkExact _ _ _ _ _ _ _ _ _ _) as [[b' ok] r']. destruct ok; [rewrite IH; f_equal; lia|].
    destruct IH as (g1 & Hg1 & E1). exists g1. split; [by right|done].
  - specialize (IH (count + 1)%Z (snd (whole g)) true total b replaced Hm Ho ltac:(lia) Ht Hb ltac:(lia)).
    destruct (walkExact _ _ _ _ _ _ _ _ _ _) as [[b' ok] r']. destruct ok; [rewrite IH; f_equal|].
    destruct IH as (g1 & Hg1 & E1). exists g1. split; [by right|done].
Qed.

(** ** The decision *)

Lemma exceeded_walk limit : (0 <= limit)%Z ->
  let '(b, replaced) := walkMatches re ps c lit0 refs0 assertions0 inContext0 0 (FindAll re ps) (NewBudget limit) 0 in
  exceeded (fst (Add (len ps - replaced) b)) = (limit <? len ps + gain c cost 0 (FindAll re ps))%Z.
Proof.
  intros Hl.
  pose proof (walkMatches_charged ps c re lit0 refs0 assertions0 inContext0 limit cost cost_nonneg
    (fun g total b Ht Hb _ => chargeMatch_charged limit g total b Ht Hb) (FindAll re ps) 0 0 false 0 (NewBudget limit) 0
    (matches_in re ps) (matches_ordered re ps) ltac:(lia) ltac:(lia) (NewBudget_charged limit Hl) ltac:(lia)) as H2.
  destruct (walkMatches _ _ _ _ _ _ _ _ _ _ _) as [b r]. rewrite H2. f_equal. lia.
Qed.

Lemma walk_bounds :
  (gain c (replacedBy ps c re expanded0) 0 (FindAll re ps) <= gain c cost 0 (FindAll re ps))%Z /\
  (assertions0 = false \/ refCount (drop 1 refs0) = 0%Z ->
   gain c (replacedBy ps c re expanded0) 0 (FindAll re ps) = gain c cost 0 (FindAll re ps)).
Proof.
  split.
  - apply gain_mono. rewrite Forall_forall. intros g Hg. by apply cost_bounds.
  - intros Ha. apply gain_eq. rewrite Forall_forall. intros g Hg. by apply cost_bounds.
Qed.

(** The size of the result as the two passes see it. *)
Abbreviation resultSize := (len ps + gain c (replacedBy ps c re expanded0) 0 (FindAll re ps))%Z.

Lemma exact_decides limit : (0 <= limit)%Z -> (0 <= subNth c)%Z ->
  if substituteFitsExact re ps c limit lit0 refs0 inContext0 then (resultSize <= limit)%Z
  else (limit < resultSize)%Z \/ exists text, (text = ps \/ exists g, g ∈ FindAll re ps /\ text = matchText ps g) /\ tooMany text = true.
Proof.
  intros Hl Hn. unfold substituteFitsExact. destruct inContext0 eqn:Ei.
  - pose proof (addReplaceAll_charged limit ps 0 _ (Z.le_refl 0) (NewBudget_charged limit Hl)) as [Eok Hc].
    destruct (addReplaceAll re lit0 refs0 ps (NewBudget limit)) as [b ok]. cbn [fst snd] in *. subst ok.
    destruct (tooMany ps) eqn:Et; cbn [negb andb]; [right; exists ps; split; [by left|done]|].
    destruct (Hc eq_refl) as [He _]. unfold Exceeded. rewrite He. rewrite Z.add_0_l.
    assert (len (ReplaceAllString re ps expanded0) = resultSize) as ->.
    { unfold ReplaceAllString. apply (replaceFrom_gain ps c). intros i g Hg. unfold replacedBy, selected. rewrite Ei.
      apply andb_true_iff in Ei as [Eg En%Z.eqb_eq]. rewrite Eg, En. done. }
    destruct (Z.ltb_spec limit resultSize) as [Hlt|Hge]; cbn [negb]; [left; lia|lia].
  - pose proof (walkExact_charged limit (FindAll re ps) Hn Ei 0 0 false 0 (NewBudget limit) 0
      (matches_in re ps) (matches_ordered re ps) ltac:(lia) ltac:(lia) (NewBudget_charged limit Hl) ltac:(lia)) as Hw.
    destruct (walkExact _ _ _ _ _ _ _ _ _ _) as [[b ok] r]. destruct ok; cbn [andb].
    + unfold Exceeded. rewrite Hw.
      assert (gain c exactCost 0 (FindAll re ps) = gain c (replacedBy ps c re expanded0) 0 (FindAll re ps)) as ->.
      { apply gain_eq. rewrite Forall_forall. intros g _. unfold replacedBy. by rewrite Ei. }
      destruct (Z.ltb_spec limit (0 + (len ps - 0) + gain c (replacedBy ps c re expanded0) 0 (FindAll re ps))); cbn [negb]; [left; lia|lia].
    + destruct Hw as (g & Hg & Et). right. exists (matchText ps g). split; [right; by exists g|done].
Qed.

(** [substituteFits] decides the size of a substitution before any of it is
    built: it never accepts a result over the limit, and never refuses one that
    fits, unless an assertion meets a reference to a group in a text with more
    matches than the exact pass may index. *)
Theorem substitute_fits limit result :
  (0 <= limit)%Z -> (0 <= subNth c)%Z -> substitute re ps c = Some result ->
  if substituteFits re ps c limit then (len result <= limit)%Z
  else (limit < len result)%Z \/
    mayHaveAssertion (Source re) = true /\ (0 < refCount (drop 1 refs0))%Z /\
    exists text, (text = ps \/ exists g, g ∈ FindAll re ps /\ text = matchText ps g) /\ tooMany text = true.
Proof.
  intros Hl Hn Hs. rewrite (substitute_length ps c re result Hn Hs). unfold substituteFits.
  pose proof static_sound as Hst. pose proof (exceeded_walk limit Hl) as Hw. pose proof walk_bounds as [Hle Heq].
  pose proof (exact_decides limit Hl Hn) as Hex.
  assert (0 <= refCount (drop 1 refs0))%Z as Hpos.
  { destruct refs0_cons as (r0 & refs & E & _ & Hr). rewrite E. change (drop 1 (r0 :: refs)) with refs.
    pose proof (dot_nonneg 0 refs (fun _ => 1%Z) Hr ltac:(lia)) as Hd. rewrite dot_const in Hd. lia. }
  specialize (Hst limit Hl). unfold assertions0 in *.
  destruct (replacementShape (subReplacement c)) as [l refs]. cbn [fst snd] in *.
  destruct (negb (mayHaveAssertion (Source re) && negb inContext0) && staticFits ps c limit l refs) eqn:Es.
  { apply andb_true_iff in Es as [Ei Es]. apply Hst; [done|].
    apply negb_true_iff, andb_false_iff in Ei as [?|Ei]; [by left|right; by apply negb_false_iff in Ei]. }
  destruct (walkMatches _ _ _ _ _ _ _ _ _ _ _) as [b r]. unfold Exceeded. rewrite Hw.
  destruct (Z.ltb_spec limit (len ps + gain c cost 0 (FindAll re ps))) as [Hlt|Hge]; cbn [negb]; [|lia].
  destruct (negb (mayHaveAssertion (Source re)) || (refCount (drop 1 refs) =? 0)%Z) eqn:Ea.
  { left. rewrite Heq; [done|]. apply orb_true_iff in Ea as [?%negb_true_iff|?%Z.eqb_eq]; [by left|by right]. }
  apply orb_false_iff in Ea as [Ea%negb_false_iff Er%Z.eqb_neq].
  destruct (substituteFitsExact _ _ _ _ _ _ _); [exact Hex|].
  destruct Hex as [?|?]; [by left|]. right. split_and!; [done|lia|done].
Qed.

End Costs.

(** ** A concrete expression *)

(** [(c)] for a byte [c] that is no operator: every occurrence, and itself as the
    only group. *)
Definition byteMatches (r : ascii) (s : bytes) : list submatch :=
  map (fun i => [Some (i, S i); Some (i, S i)]) (filter (fun i => s !! i = Some r) (seq 0 (length s))).

#[local] Instance byte_regexp : Regexp ascii := {|
  Compile p := match p with [c] => inr c | _ => inl (lit "not a byte") end;
  Longest r := r; NumSubexp _ := 1; Source r := ["("%char; r; ")"%char]; FindAll := byteMatches |}.

Lemma byteMatches_in (r : ascii) (s : bytes) g : g ∈ byteMatches r s -> exists i, g = [Some (i, S i); Some (i, S i)] /\ s !! i = Some r /\ S i <= length s.
Proof.
  unfold byteMatches. rewrite list_elem_of_fmap. intros (i & -> & Hi). apply list_elem_of_filter in Hi as [Hi _].
  exists i. split_and!; [done..|]. by apply lookup_lt_Some in Hi.
Qed.

Lemma byte_ordered (r : ascii) (s : bytes) n p : forall k, p <= k ->
  in_order p (negb (p =? 0)) (map (fun i => [Some (i, S i); Some (i, S i)]) (filter (fun i => s !! i = Some r) (seq k n))).
Proof.
  revert p. induction n as [|n IH]; intros p k Hp; cbn [seq]; [done|]. rewrite filter_cons.
  destruct (decide _); [|apply IH; lia]. cbn [map in_order whole fst snd]. split_and!; [done|lia|].
  apply (IH (S k) (S k)). lia.
Qed.

#[local] Instance byte_laws : RegexpLaws ascii.
Proof.
  split; intros r s.
  - rewrite Forall_forall. intros g (i & -> & Hi & Hl)%byteMatches_in. exists i, (S i). split_and!; [done|lia|done|].
    intros [|[|n]] c d [= <- <-]; lia.
  - apply (byte_ordered r s (length s) 0 0). done.
  - rewrite Forall_forall. intros g (i & -> & _)%byteMatches_in. done.
Qed.

#[local] Instance byte_isolated : RegexpIsolated ascii.
Proof.
  intros r s g _ (i & -> & Hi & Hl)%byteMatches_in. exists [Some (0, 1); Some (0, 1)].
  assert (slice i (S i) s = [r]) as E.
  { unfold slice. replace (S i - i) with 1 by lia. rewrite (drop_S s r i Hi). done. }
  unfold matchText. cbn [whole fst snd]. rewrite E. split_and!.
  - change (FindAll r [r]) with (byteMatches r [r]). unfold byteMatches. cbn [length seq].
    rewrite filter_cons_True by done. done.
  - unfold spanLength. cbn. f_equal. lia.
  - intros [|[|n]]; unfold group; cbn [lookup list_lookup]; rewrite ?E; done.
Qed.

(** [s/(a)/\1\1\1/g] triples the three letters of [banana]: twelve bytes. *)
Lemma substitute_fits_witness :
  let c := mkSub (RE := ascii) None (lit "\1\1\1") true false 0 in
  (12 <= 12)%Z /\ (11 < 12)%Z.
Proof.
  intros c. assert (substitute (RE := ascii) "a"%char (lit "banana") c = Some (lit "baaanaaanaaa")) as Hs by (vm_compute; reflexivity).
  split.
  - pose proof (substitute_fits (lit "banana") c "a"%char 12 _ ltac:(lia) ltac:(subst c; cbn; lia) Hs) as Hf.
    replace (substituteFits _ _ _ _) with true in Hf by (vm_compute; reflexivity). exact Hf.
  - pose proof (substitute_fits (lit "banana") c "a"%char 11 _ ltac:(lia) ltac:(subst c; cbn; lia) Hs) as Hf.
    replace (substituteFits _ _ _ _) with false in Hf by (vm_compute; reflexivity).
    destruct Hf as [?|[E _]]; [done|]. vm_compute in E. discriminate E.
Defined.

End SedSize.
