(* ===== verification/SedEngine.v ===== *)
(** The engine of sed (builtins/sed/engine.go): the line reader with its
    look-ahead, addresses and ranges, the commands, branches, the cycle. *)

From S2P Require Import Prelude GoStd Utf8 BoundedReplace GoRegexp SedParse SedSubst.
From stdpp Require Import base list strings gmap.
From Stdlib Require Import ZArith Lia Ascii.

Module SedEngine.
Import GoStd Utf8 BoundedReplace GoRegexp SedParse SedSubst.

Definition MaxLineBytes : Z := Z.shiftl 1 20.
Definition MaxBranchIterations : nat := 100 * 100.
Definition MaxTotalReadBytes : Z := Z.shiftl 256 20.
Definition MaxAppendQueueBytes : Z := Z.shiftl 1 20.

Inductive sedErr :=
| EQuit (quitCode : Z)
| ECtx (e : bytes)
| EReadLimit | ETooLong | ERead (e : bytes)
| EBranchLimit | EUndefined (label : bytes)
| ENoPrevious | EBadReference (n : ascii)
| EPatternSpace | EHoldSpace | EAppendQueue
| EPanic.   (* an index out of range *)

(** ** Lines *)

(** [bufio.Scanner] over a source that yields [data] and then ends, with an error
    or not; [scErr] is what [Err] returns. *)
Record Scanner := mkScanner { data : bytes; readErr : option sedErr; scErr : option sedErr }.

(** [Scan] and [Text], split by [scanLinesPreserveCR]: the buffer of
    [MaxLineBytes] must hold a line with its newline, or with the end. *)
Definition Scan (sc : Scanner) : option bytes * Scanner :=
  match data sc with
  | [] => (None, mkScanner [] (readErr sc) (readErr sc))
  | _ =>
      let n := run_length notNewline (data sc) in
      if (MaxLineBytes <=? Z.of_nat n)%Z then (None, mkScanner (data sc) (readErr sc) (Some ETooLong))
      else (Some (take n (data sc)), mkScanner (drop (S n) (data sc)) (readErr sc) (scErr sc))
  end.

(** [hasNext] and [nextLine] in one. *)
Record lineReader := mkReader { sc : Scanner; nextLine : option bytes; totalRead : Z }.

Definition advance (lr : lineReader) : lineReader :=
  match Scan (sc lr) with
  | (Some line, sc') => mkReader sc' (Some line) (totalRead lr + (len line + 1))
  | (None, sc') => mkReader sc' None (totalRead lr)
  end.

Definition newLineReader (sc : Scanner) : lineReader := advance (mkReader sc None 0).

Definition readLine (lr : lineReader) : option bytes * lineReader :=
  match nextLine lr with
  | None => (None, lr)
  | Some line => (Some line, advance lr)
  end.

Definition isLast (lr : lineReader) : bool := match nextLine lr with None => true | Some _ => false end.

(** ** The state *)

(** What is fixed while one file is processed. *)
Record fileMode := mkMode {
  isRegularFile : bool; isLastFile : bool; trackMissingNewline : bool; finalRecordUnterminated : bool }.

Definition checkLimit (fm : fileMode) (lr : lineReader) : bool :=
  negb (negb (isRegularFile fm) && (MaxTotalReadBytes <? totalRead lr)%Z).

Record spaces := mkSpaces {
  patternSpace : bytes; patternSpaceChomped : bool; holdSpace : bytes; holdSpaceChomped : bool }.

Record addressing (RE : Type) := mkAddressing {
  lineNum : Z; lastLine : bool; lastRe : option RE; emptyReErr : bool;
  inRange : gset nat }.
Arguments mkAddressing {RE}.
Arguments lineNum {RE}.
Arguments lastLine {RE}.
Arguments lastRe {RE}.
Arguments emptyReErr {RE}.
Arguments inRange {RE}.

(** The writes to the standard output of the call, in order. *)
Record output := mkOutput { written : list bytes; pendingMissingNewline : bool }.

Record engine (RE : Type) := mkEngine {
  sp : spaces; ad : addressing RE; io : output;
  appendQueue : list bytes; appendQueueBytes : Z; subMade : bool;
  lr : lineReader; polls : nat }.
Arguments mkEngine {RE}.
Arguments sp {RE}.
Arguments ad {RE}.
Arguments io {RE}.
Arguments appendQueue {RE}.
Arguments appendQueueBytes {RE}.
Arguments subMade {RE}.
Arguments lr {RE}.
Arguments polls {RE}.

Inductive action := actionContinue | actionDelete | actionRestart | actionBranch.

(** ** Output *)

Definition Out (s : bytes) (o : output) : output := mkOutput (written o ++ [s]) (pendingMissingNewline o).

Definition flushPendingMissingNewline (o : output) : output :=
  if pendingMissingNewline o then mkOutput (written o ++ [[ch_nl]]) false else o.

Definition writeLine (fm : fileMode) (s : bytes) (chomped : bool) (o : output) : output :=
  let o := Out s (flushPendingMissingNewline o) in
  if negb (trackMissingNewline fm) || chomped then Out [ch_nl] o
  else mkOutput (written o) true.

Definition writeLines (fm : fileMode) (ts : list bytes) (o : output) : output :=
  fold_left (fun o t => writeLine fm t true o) ts o.

(** ** y and l *)

Definition transliterate (s : bytes) (mapping : gmap Z Z) : bytes :=
  EncodeRunes (map (fun r => match mapping !! r with Some r' => r' | None => r end) (runeValues s)).

(** [%03o] of a byte. *)
Definition octal3 (n : Z) : bytes := [digitChar (n / 64); digitChar (n / 8 mod 8); digitChar (n mod 8)].

Definition octalEscape (n : Z) : bytes := ch_bs :: octal3 n.

Definition unambiguousRune (r : Z) : bytes :=
  if (r =? 92)%Z then lit "\\"
  else if (r =? 7)%Z then lit "\a"
  else if (r =? 8)%Z then lit "\b"
  else if (r =? 12)%Z then lit "\f"
  else if (r =? 13)%Z then lit "\r"
  else if (r =? 9)%Z then lit "\t"
  else if (r =? 10)%Z then lit "\n"
  else if ((r <? 32) || (r =? 127))%Z then octalEscape r
  else if (127 <? r)%Z then mjoin (map (fun b => octalEscape (code b)) (EncodeRune r))
  else [byteOf r].

(** The text of [l], broken with a backslash before column 70. *)
Fixpoint unambiguous (col : nat) (rs : list Z) : bytes :=
  match rs with
  | [] => ["$"%char]
  | r :: rs =>
      let s := unambiguousRune r in
      if 70 <=? col + length s then ch_bs :: ch_nl :: s ++ unambiguous (length s) rs
      else s ++ unambiguous (col + length s) rs
  end.

Definition printUnambiguous (ps : bytes) (o : output) : output :=
  Out [ch_nl] (Out (unambiguous 0 (runeValues ps)) (flushPendingMissingNewline o)).

Section Engine.
Context {RE : Type} `{Regexp RE}.
Context (prog : list (sedCmd RE)) (suppressPrint : bool).
(** What [ctx.Err] answers the [n]th time it is asked. *)
Context (ctxErr : nat -> option bytes).

Abbreviation engine := (engine RE).

Definition setPattern (ps : bytes) (chomped : bool) (e : engine) : engine :=
  mkEngine (mkSpaces ps chomped (holdSpace (sp e)) (holdSpaceChomped (sp e))) (ad e) (io e)
    (appendQueue e) (appendQueueBytes e) (subMade e) (lr e) (polls e).
Definition setSpaces (s : spaces) (e : engine) : engine :=
  mkEngine s (ad e) (io e) (appendQueue e) (appendQueueBytes e) (subMade e) (lr e) (polls e).
Definition setAddressing (a : addressing RE) (e : engine) : engine :=
  mkEngine (sp e) a (io e) (appendQueue e) (appendQueueBytes e) (subMade e) (lr e) (polls e).
Definition setIo (o : output) (e : engine) : engine :=
  mkEngine (sp e) (ad e) o (appendQueue e) (appendQueueBytes e) (subMade e) (lr e) (polls e).
Definition setQueue (q : list bytes) (n : Z) (e : engine) : engine :=
  mkEngine (sp e) (ad e) (io e) q n (subMade e) (lr e) (polls e).
Definition setSubMade (b : bool) (e : engine) : engine :=
  mkEngine (sp e) (ad e) (io e) (appendQueue e) (appendQueueBytes e) b (lr e) (polls e).
Definition setReader (r : lineReader) (e : engine) : engine :=
  mkEngine (sp e) (ad e) (io e) (appendQueue e) (appendQueueBytes e) (subMade e) r (polls e).
Definition tick (e : engine) : engine :=
  mkEngine (sp e) (ad e) (io e) (appendQueue e) (appendQueueBytes e) (subMade e) (lr e) (S (polls e)).

Definition clearQueue : engine -> engine := setQueue [] 0.

(** ** Addresses *)

Definition setLastRe (re : RE) (a : addressing RE) : addressing RE :=
  mkAddressing (lineNum a) (lastLine a) (Some re) (emptyReErr a) (inRange a).
Definition setEmptyReErr (b : bool) (a : addressing RE) : addressing RE :=
  mkAddressing (lineNum a) (lastLine a) (lastRe a) b (inRange a).
Definition setInRange (r : gset nat) (a : addressing RE) : addressing RE :=
  mkAddressing (lineNum a) (lastLine a) (lastRe a) (emptyReErr a) r.

Definition matchAddr (x : address RE) (ps : bytes) (a : addressing RE) : bool * addressing RE :=
  match x with
  | addrLine n => ((if n =? 0 then lineNum a =? 1 else lineNum a =? n)%Z, a)
  | addrLast => (lastLine a, a)
  | addrRegexp None =>
      match lastRe a with
      | None => (false, setEmptyReErr true a)
      | Some re => (MatchString re ps, a)
      end
  | addrRegexp (Some re) => (MatchString re ps, setLastRe re a)
  | addrStep first step =>
      ((if first =? 0 then Z.rem (lineNum a) step =? 0
        else (first <=? lineNum a) && (Z.rem (lineNum a - first) step =? 0))%Z, a)
  end.

Definition isRegexpAddr (x : address RE) : bool := match x with addrRegexp _ => true | _ => false end.
Definition isLineZero (x : address RE) : bool := match x with addrLine n => (n =? 0)%Z | _ => false end.
Definition isPast (x : address RE) (n : Z) : bool := match x with addrLine l => (l <? n)%Z | _ => false end.

Definition matchRange (id : nat) (a1 a2 : address RE) (ps : bytes) (a : addressing RE) : bool * addressing RE :=
  if decide (id ∈ inRange a) then
    let '(m, a) := matchAddr a2 ps a in
    (true, if m then setInRange (inRange a ∖ {[id]}) a else a)
  else
    let '(m, a) := matchAddr a1 ps a in
    if m then
      let enter a := (true, setInRange ({[id]} ∪ inRange a) a) in
      if negb (isRegexpAddr a2) || isLineZero a1 then
        if isPast a2 (lineNum a) then (true, a)
        else
          let '(m2, a) := matchAddr a2 ps a in
          if m2 then (true, a) else enter a
      else enter a
    else (false, a).

Definition rawAddressMatch (h : header RE) (ps : bytes) (a : addressing RE) : bool * addressing RE :=
  match addr1 h with
  | None => (true, a)
  | Some a1 =>
      match addr2 h with
      | None => matchAddr a1 ps a
      | Some a2 => matchRange (cid h) a1 a2 ps a
      end
  end.

Definition addressMatch (h : header RE) (ps : bytes) (a : addressing RE) : bool * addressing RE :=
  let '(m, a) := rawAddressMatch h ps a in (if negated h then negb m else m, a).

Abbreviation result := ((sedErr + action) * engine)%type.

(** The address of a command and what a failed one does. *)
Definition guarded (h : header RE) (body : engine -> result) (e : engine) : result :=
  let '(m, a) := addressMatch h (patternSpace (sp e)) (ad e) in
  if emptyReErr a then (inl ENoPrevious, setAddressing (setEmptyReErr false a) e)
  else let e := setAddressing a e in if m then body e else (inr actionContinue, e).

(** ** Commands *)

Section Commands.
Context (fm : fileMode).

Definition computeChomped (r : lineReader) : bool :=
  if trackMissingNewline fm then negb (isLast r && isLastFile fm && finalRecordUnterminated fm) else true.

Definition printPattern (e : engine) : engine :=
  setIo (writeLine fm (patternSpace (sp e)) (patternSpaceChomped (sp e)) (io e)) e.

Definition autoPrint (e : engine) : engine := if suppressPrint then e else printPattern e.
Definition printText (t : bytes) (e : engine) : engine := setIo (writeLine fm t true (io e)) e.
Definition flushQueue (e : engine) : engine := setIo (writeLines fm (appendQueue e) (io e)) e.

Definition execSubstitute (c : substitution RE) (e : engine) : result :=
  let ps := patternSpace (sp e) in
  match (match subRe c with Some re => Some re | None => lastRe (ad e) end) with
  | None => (inl ENoPrevious, e)
  | Some re =>
      let e := setAddressing (setLastRe re (ad e)) e in
      match (match subRe c with None => validateBackrefs (subReplacement c) (NumSubexp re) | Some _ => None end) with
      | Some n => (inl (EBadReference n), e)
      | None =>
          if negb (substituteFits re ps c MaxSpaceBytes) then (inl EPatternSpace, e)
          else
            match substitute re ps c with
            | None => (inr actionContinue, e)
            | Some res =>
                if (MaxSpaceBytes <? len res)%Z then (inl EPatternSpace, e)
                else
                  let e := setSubMade true (setPattern res (patternSpaceChomped (sp e)) e) in
                  (inr actionContinue, if subPrint c then printPattern e else e)
            end
      end
  end.

(** The bookkeeping of a line that [n] or [N] read. *)
Definition countLine (r : lineReader) (e : engine) : engine :=
  let a := ad e in
  setReader r (setAddressing (mkAddressing (lineNum a + 1) (isLast r && isLastFile fm) (lastRe a) (emptyReErr a) (inRange a)) e).

Definition execNext (e : engine) : result :=
  let e := clearQueue (flushQueue (autoPrint e)) in
  match readLine (lr e) with
  | (None, _) =>
      let a := ad e in
      (inr actionDelete, setAddressing (mkAddressing (lineNum a) (isLastFile fm) (lastRe a) (emptyReErr a) (inRange a)) e)
  | (Some line, r) =>
      if negb (checkLimit fm r) then (inl EReadLimit, setReader r e)
      else (inr actionContinue, setSubMade false (setPattern line (computeChomped r) (countLine r e)))
  end.

Definition execNextAppend (e : engine) : result :=
  let e := clearQueue (flushQueue e) in
  match readLine (lr e) with
  | (None, _) => (inr actionDelete, autoPrint e)
  | (Some line, r) =>
      if negb (checkLimit fm r) then (inl EReadLimit, setReader r e)
      else
        let ps := patternSpace (sp e) in
        if (MaxSpaceBytes <? len ps + 1 + len line)%Z then
          let a := ad e in
          (inl EPatternSpace, setReader r (setAddressing (mkAddressing (lineNum a + 1) (lastLine a) (lastRe a) (emptyReErr a) (inRange a)) e))
        else (inr actionContinue, setPattern (ps ++ ch_nl :: line) (computeChomped r) (countLine r e))
  end.

(** One command whose address matched; [branch] is [branchTo]. *)
Definition execOne (branch : bytes -> engine -> result) (h : header RE) (k : cmdType RE) (e : engine) : result :=
  let s := sp e in
  let ps := patternSpace s in
  let go e := (inr actionContinue, e) : result in
  match k with
  | cmdSubstitute c => execSubstitute c e
  | cmdPrint => go (printPattern e)
  | cmdDelete => (inr actionDelete, e)
  | cmdPrintFirstLine =>
      match IndexByte ps ch_nl with
      | Some i => go (printText (take i ps) e)
      | None => go (printPattern e)
      end
  | cmdDeleteFirstLine =>
      match IndexByte ps ch_nl with
      | Some i => (inr actionRestart, clearQueue (setPattern (drop (S i) ps) (patternSpaceChomped s) e))
      | None => (inr actionDelete, e)
      end
  | cmdQuit n =>
      let e := if suppressPrint then setIo (flushPendingMissingNewline (io e)) e else printText ps e in
      (inl (EQuit n), flushQueue e)
  | cmdQuitNoprint n => (inl (EQuit n), e)
  | cmdTransliterate m => go (setPattern (transliterate ps m) (patternSpaceChomped s) e)
  | cmdAppend text =>
      let n := (appendQueueBytes e + len text)%Z in
      if (MaxAppendQueueBytes <? n)%Z then (inl EAppendQueue, setQueue (appendQueue e) n e)
      else go (setQueue (appendQueue e ++ [text]) n e)
  | cmdInsert text => go (printText text e)
  | cmdChange text =>
      match addr2 h with
      | Some _ => if decide (cid h ∈ inRange (ad e)) then (inr actionDelete, e) else (inr actionDelete, printText text e)
      | None => (inr actionDelete, printText text e)
      end
  | cmdLineNum => go (printText (FormatInt (lineNum (ad e))) e)
  | cmdPrintUnambig => go (setIo (printUnambiguous ps (io e)) e)
  | cmdNext => execNext e
  | cmdNextAppend => execNextAppend e
  | cmdHoldCopy => go (setSpaces (mkSpaces ps (patternSpaceChomped s) ps (patternSpaceChomped s)) e)
  | cmdHoldAppend =>
      if (MaxSpaceBytes <? len (holdSpace s) + 1 + len ps)%Z then (inl EHoldSpace, e)
      else go (setSpaces (mkSpaces ps (patternSpaceChomped s) (holdSpace s ++ ch_nl :: ps) (patternSpaceChomped s)) e)
  | cmdGetCopy => go (setPattern (holdSpace s) (holdSpaceChomped s) e)
  | cmdGetAppend =>
      if (MaxSpaceBytes <? len ps + 1 + len (holdSpace s))%Z then (inl EPatternSpace, e)
      else go (setPattern (ps ++ ch_nl :: holdSpace s) (holdSpaceChomped s) e)
  | cmdExchange => go (setSpaces (mkSpaces (holdSpace s) (holdSpaceChomped s) ps (patternSpaceChomped s)) e)
  | cmdBranch l => branch l e
  | cmdBranchIfSub l => if subMade e then branch l (setSubMade false e) else go e
  | cmdBranchIfNoSub l => if subMade e then go (setSubMade false e) else branch l e
  | cmdLabel _ => go e
  end.

(** A list of commands run by [f]: on to the next after [actionContinue]. *)
Definition execSeq (f : sedCmd RE -> engine -> result) : list (sedCmd RE) -> engine -> result :=
  fix run cmds e :=
    match cmds with
    | [] => (inr actionContinue, e)
    | c :: cmds => match f c e with (inr actionContinue, e) => run cmds e | r => r end
    end.

Fixpoint execCmd (branch : bytes -> engine -> result) (c : sedCmd RE) (e : engine) : result :=
  match ctxErr (polls e) with
  | Some err => (inl (ECtx err), tick e)
  | None =>
      let e := tick e in
      match c with
      | Cmd _ (cmdLabel _) => (inr actionContinue, e)
      | Cmd h k => guarded h (execOne branch h k) e
      | Group h children => guarded h (execSeq (execCmd branch) children) e
      end
  end.

(** ** Branches *)

Fixpoint buildLabelMap (prefix : list nat) (i : nat) (c : sedCmd RE) (m : gmap bytes (list nat)) : gmap bytes (list nat) :=
  match c with
  | Cmd _ (cmdLabel l) => match l with [] => m | _ => <[l := prefix ++ [i]]> m end
  | Cmd _ _ => m
  | Group _ children =>
      (fix go (j : nat) (cs : list (sedCmd RE)) (m : gmap bytes (list nat)) :=
         match cs with [] => m | c :: cs => go (S j) cs (buildLabelMap (prefix ++ [i]) j c m) end) 0 children m
  end.

Fixpoint buildLabels (prefix : list nat) (i : nat) (cs : list (sedCmd RE)) (m : gmap bytes (list nat)) : gmap bytes (list nat) :=
  match cs with [] => m | c :: cs => buildLabels prefix (S i) cs (buildLabelMap prefix i c m) end.

Definition labelMap : gmap bytes (list nat) := buildLabels [] 0 prog ∅.

Definition childrenOf (c : sedCmd RE) : list (sedCmd RE) := match c with Group _ children => children | Cmd _ _ => [] end.

(** [run] is [execCmds] one level deeper. *)
Fixpoint branchToPath (run : list (sedCmd RE) -> engine -> result) (cmds : list (sedCmd RE)) (path : list nat) (e : engine) : result :=
  match path with
  | [] => (inl EPanic, e)
  | i :: path =>
      match path with
      | [] => run (drop (S i) cmds) e
      | _ =>
          match cmds !! i with
          | None => (inl EPanic, e)
          | Some c =>
              match branchToPath run (childrenOf c) path e with
              | (inr actionContinue, e) => run (drop (S i) cmds) e
              | r => r
              end
          end
      end
  end.

Definition branchTo (run : list (sedCmd RE) -> engine -> result) (label : bytes) (e : engine) : result :=
  match label with
  | [] => (inr actionBranch, e)
  | _ =>
      match labelMap !! label with
      | None => (inl (EUndefined label), e)
      | Some path =>
          match branchToPath run prog path e with
          | (inr actionContinue, e) => (inr actionBranch, e)
          | r => r
          end
      end
  end.

(** [budget]: the branches left before the limit. *)
Fixpoint execCmds (budget : nat) (cmds : list (sedCmd RE)) (e : engine) : result :=
  match budget with
  | 0 => (inl EBranchLimit, e)
  | S budget => execSeq (execCmd (branchTo (execCmds budget))) cmds e
  end.

(** ** The cycle *)

Definition endCycle (a : action) (e : engine) : engine :=
  flushQueue (match a with actionDelete => e | _ => autoPrint e end).

(** [None]: the fuel ran out.  A restart by D goes round again. *)
Fixpoint cycleLoop (fuel : nat) (e : engine) : option (option sedErr * engine) :=
  match fuel with
  | 0 => None
  | S fuel =>
      match execCmds (S MaxBranchIterations) prog e with
      | (inl err, e) => Some (Some err, e)
      | (inr actionRestart, e) => cycleLoop fuel (clearQueue e)
      | (inr a, e) => Some (None, endCycle a e)
      end
  end.

Definition runCycle (fuel : nat) (e : engine) : option (option sedErr * engine) :=
  cycleLoop fuel (clearQueue (setSubMade false e)).

(** The loop of [processReader]; [turns] bounds the lines. *)
Fixpoint lineLoop (fuel turns : nat) (e : engine) : option (option sedErr * engine) :=
  match turns with
  | 0 => None
  | S turns =>
      match ctxErr (polls e) with
      | Some err => Some (Some (ECtx err), tick e)
      | None =>
          let e := tick e in
          match readLine (lr e) with
          | (None, r) => Some (scErr (sc r), e)
          | (Some line, r) =>
              if negb (checkLimit fm r) then Some (Some EReadLimit, setReader r e)
              else
                match runCycle fuel (setPattern line (computeChomped r) (countLine r e)) with
                | Some (None, e) => lineLoop fuel turns e
                | res => res
                end
          end
      end
  end.

Definition processReader (fuel turns : nat) (source : Scanner) (e : engine) : option (option sedErr * engine) :=
  lineLoop fuel turns (setReader (newLineReader source) e).

End Commands.

(** [resetForNewFile] *)
Definition resetForNewFile (e : engine) : engine :=
  mkEngine (mkSpaces [] true [] true)
    (mkAddressing 0 false (lastRe (ad e)) (emptyReErr (ad e)) ∅)
    (mkOutput (written (io e)) false) [] 0 false (lr e) (polls e).

End Engine.

(** The engine before the first file. *)
Definition newEngine {RE : Type} : engine RE :=
  mkEngine (mkSpaces [] false [] false) (mkAddressing 0 false None false ∅) (mkOutput [] false) [] 0 false
    (mkReader (mkScanner [] None None) None 0) 0.

End SedEngine.
