(* ===== verification/SedRun.v ===== *)
(** Reasoning about the engine of sed: one principle lifts a relation kept by the
    single commands to lists of commands, groups, branches and cycles. *)

From S2P Require Import Prelude GoStd Utf8 BoundedReplace GoRegexp SedParse SedSubst SedEngine.
From stdpp Require Import base list strings gmap.
From Stdlib Require Import ZArith Lia Ascii.

Module SedRun.
Import GoStd Utf8 BoundedReplace GoRegexp SedParse SedSubst SedEngine.

(** ** Programs *)

Section Programs.
Context {RE : Type}.

Lemma sedCmd_nested_ind (P : sedCmd RE -> Prop) :
  (forall h k, P (Cmd h k)) ->
  (forall h children, Forall P children -> P (Group h children)) -> forall c, P c.
Proof.
  intros Hc Hg. fix IH 1. intros [h k|h children]; [apply Hc|]. apply Hg.
  induction children as [|c cs IHcs]; constructor; [apply IH|exact IHcs].
Qed.

(** Every command of a tree with its header, groups without one of their own. *)
Fixpoint flatten (c : sedCmd RE) : list (header RE * option (cmdType RE)) :=
  match c with
  | Cmd h k => [(h, Some k)]
  | Group h children => (h, None) :: mjoin (map flatten children)
  end.

Definition commands (cs : list (sedCmd RE)) : list (header RE * option (cmdType RE)) := mjoin (map flatten cs).

Lemma commands_cons c cs : commands (c :: cs) = flatten c ++ commands cs.
Proof. done. Qed.

Lemma commands_drop n cs x : x ∈ commands (drop n cs) -> x ∈ commands cs.
Proof.
  revert n. induction cs as [|c cs IH]; intros [|n] Hx; try done. cbn [drop] in Hx. rewrite commands_cons, elem_of_app.
  right. by apply (IH n).
Qed.

Lemma commands_lookup i cs c x : cs !! i = Some c -> x ∈ flatten c -> x ∈ commands cs.
Proof.
  revert i. induction cs as [|c' cs IH]; intros [|i] Hi Hx; try done; rewrite commands_cons, elem_of_app.
  - injection Hi as ->. by left.
  - right. by apply (IH i).
Qed.

(** Paths of [branchTo]. *)
Fixpoint valid_path (cmds : list (sedCmd RE)) (path : list nat) : Prop :=
  match path with
  | [] => False
  | i :: path =>
      match path with
      | [] => i < length cmds
      | _ => exists c, cmds !! i = Some c /\ valid_path (childrenOf c) path
      end
  end.

Lemma commands_children i cs c x : cs !! i = Some c -> x ∈ commands (childrenOf c) -> x ∈ commands cs.
Proof.
  intros Hi Hx. destruct c as [h k|h children]; [by apply elem_of_nil in Hx|].
  apply (commands_lookup i cs _ x Hi). cbn [flatten]. right. exact Hx.
Qed.

End Programs.

(** Every branch to a label has a place to go. *)
Definition branches_ok {RE : Type} (prog : list (sedCmd RE)) : Prop :=
  forall h k l, (h, Some k) ∈ commands prog -> branchLabel k = Some l ->
    exists path, labelMap prog !! l = Some path /\ valid_path prog path.

(** ** The principle *)

Section Principle.
Context {RE : Type} `{Regexp RE}.
Variables (prog : list (sedCmd RE)) (suppressPrint : bool) (ctxErr : nat -> option bytes) (fm : fileMode).
Hypothesis labels : branches_ok prog.

Variable R : engine RE -> (sedErr + action) * engine RE -> Prop.

Definition isBranch (k : cmdType RE) : bool :=
  match k with cmdBranch _ | cmdBranchIfSub _ | cmdBranchIfNoSub _ => true | _ => false end.

(** What the single steps must keep; [R e (r, e')] relates the state before to the
    outcome. *)
Record steps_kept : Prop := {
  kept_refl e : R e (inr actionContinue, e);
  kept_trans e e1 r : R e (inr actionContinue, e1) -> R e1 r -> R e r;
  kept_branch e e1 : R e (inr actionContinue, e1) -> R e (inr actionBranch, e1);
  kept_tick e : R e (inr actionContinue, tick e);
  kept_ctx e err : R e (inl (ECtx err), tick e);
  kept_limit e : R e (inl EBranchLimit, e);
  kept_address h k e : (h, k) ∈ commands prog ->
    let '(m, a) := addressMatch h (patternSpace (sp e)) (ad e) in
    R e (inr actionContinue, setAddressing a e) /\ R e (inl ENoPrevious, setAddressing (setEmptyReErr false a) e);
  kept_submade e b : R e (inr actionContinue, setSubMade b e);
  kept_one branch h k e : (h, Some k) ∈ commands prog -> isBranch k = false ->
    R e (execOne suppressPrint fm branch h k e) }.

Hypothesis kept : steps_kept.

Lemma execSeq_kept (Q : sedCmd RE -> Prop) f cmds : 
  (forall c e, Q c -> R e (f c e)) -> Forall Q cmds -> forall e, R e (execSeq f cmds e).
Proof.
  intros Hf. induction 1 as [|c cs Hc Hcs IH]; intros e; cbn [execSeq]; [apply kept|].
  specialize (Hf c e Hc). destruct (f c e) as [[err|[]] e1]; try exact Hf.
  eapply (kept_trans kept); [exact Hf|apply IH].
Qed.

Lemma guarded_kept h k body e : (h, k) ∈ commands prog -> (forall e, R e (body e)) -> R e (guarded h body e).
Proof.
  intros Hin Hbody. unfold guarded. pose proof (kept_address kept h k e Hin) as Ha.
  destruct (addressMatch h (patternSpace (sp e)) (ad e)) as [m a]. destruct Ha as [Hgo Herr].
  destruct (emptyReErr a); [exact Herr|]. destruct m; [|exact Hgo].
  eapply (kept_trans kept); [exact Hgo|apply Hbody].
Qed.

Definition branch_kept (branch : bytes -> engine RE -> (sedErr + action) * engine RE) : Prop :=
  forall h k l e, (h, Some k) ∈ commands prog -> branchLabel k = Some l -> R e (branch l e).

Lemma execOne_kept branch h k e : branch_kept branch -> (forall e, R e (branch [] e)) -> (h, Some k) ∈ commands prog ->
  R e (execOne suppressPrint fm branch h k e).
Proof.
  intros Hb Hnil Hin. destruct (isBranch k) eqn:Ek; [|by apply kept].
  assert (forall l e, branchLabel k = Some l \/ l = [] -> R e (branch l e)) as Hgo.
  { intros l e' [Hl| ->]; [by apply (Hb h k)|apply Hnil]. }
  destruct k; try discriminate Ek; cbn [execOne].
  - apply Hgo. cbn. destruct label; [by right|by left].
  - destruct (subMade e); [|apply kept].
    eapply (kept_trans kept); [apply (kept_submade kept)|]. apply Hgo. cbn. destruct label; [by right|by left].
  - destruct (subMade e); [apply (kept_submade kept)|]. apply Hgo. cbn. destruct label; [by right|by left].
Qed.

Lemma execCmd_kept branch : branch_kept branch -> (forall e, R e (branch [] e)) ->
  forall c, (forall x, x ∈ flatten c -> x ∈ commands prog) -> forall e, R e (execCmd suppressPrint ctxErr fm branch c e).
Proof.
  intros Hb Hnil c. induction c as [h k|h children IH] using sedCmd_nested_ind; intros Hsub e; cbn [execCmd].
  - destruct (ctxErr (polls e)); [apply kept|]. eapply (kept_trans kept); [apply (kept_tick kept)|].
    assert (R (tick e) (guarded h (execOne suppressPrint fm branch h k) (tick e))) as Hg.
    { apply (guarded_kept h (Some k)); [apply Hsub; by left|]. intros e'. apply execOne_kept; [done..|]. apply Hsub. by left. }
    destruct k; try exact Hg. apply kept.
  - destruct (ctxErr (polls e)); [apply kept|]. eapply (kept_trans kept); [apply (kept_tick kept)|].
    apply (guarded_kept h None); [apply Hsub; by left|]. intros e'.
    apply (execSeq_kept (fun c => forall e, R e (execCmd suppressPrint ctxErr fm branch c e))); [by intros c e''|].
    rewrite Forall_forall in IH |- *. intros c Hc. apply IH; [done|]. intros x Hx. apply Hsub.
    cbn [flatten]. right. apply list_elem_of_lookup in Hc as [i Hi]. by apply (commands_lookup i children c x Hi).
Qed.

Lemma branchToPath_kept run cmds path : (forall cmds e, (forall x, x ∈ commands cmds -> x ∈ commands prog) -> R e (run cmds e)) ->
  (forall x, x ∈ commands cmds -> x ∈ commands prog) -> valid_path cmds path -> forall e, R e (branchToPath run cmds path e).
Proof.
  intros Hrun. revert cmds. induction path as [|i path IH]; intros cmds Hsub Hv e; [done|]. cbn [branchToPath].
  assert (forall e, R e (run (drop (S i) cmds) e)) as Htail.
  { intros e'. apply Hrun. intros x Hx. by apply Hsub, (commands_drop (S i)). }
  destruct path as [|j path]; [apply Htail|]. destruct Hv as (c & Hc & Hv). rewrite Hc.
  assert (R e (branchToPath run (childrenOf c) (j :: path) e)) as Hin.
  { apply IH; [|done]. intros x Hx. by apply Hsub, (commands_children i cmds c). }
  destruct (branchToPath run (childrenOf c) (j :: path) e) as [[err|[]] e1]; try exact Hin.
  eapply (kept_trans kept); [exact Hin|apply Htail].
Qed.

Lemma branchTo_kept run : (forall cmds e, (forall x, x ∈ commands cmds -> x ∈ commands prog) -> R e (run cmds e)) ->
  branch_kept (branchTo prog run) /\ forall e, R e (branchTo prog run [] e).
Proof.
  intros Hrun. split; [|intros e; apply (kept_branch kept), kept].
  intros h k l e Hin Hl. unfold branchTo. destruct (labels h k l Hin Hl) as (path & Hm & Hv).
  destruct l as [|c l]; [apply (kept_branch kept), kept|]. rewrite Hm.
  pose proof (branchToPath_kept run prog path Hrun (fun x Hx => Hx) Hv e) as Hb.
  destruct (branchToPath run prog path e) as [[err|[]] e1]; try exact Hb. by apply (kept_branch kept).
Qed.

Lemma execCmds_kept n cmds e : (forall x, x ∈ commands cmds -> x ∈ commands prog) ->
  R e (execCmds prog suppressPrint ctxErr fm n cmds e).
Proof.
  revert cmds e. induction n as [|n IH]; intros cmds e Hsub; cbn [execCmds]; [apply kept|].
  destruct (branchTo_kept (execCmds prog suppressPrint ctxErr fm n) IH) as [Hb Hnil].
  apply (execSeq_kept (fun c => forall x, x ∈ flatten c -> x ∈ commands prog)).
  - intros c e' Hc. by apply execCmd_kept.
  - rewrite Forall_forall. intros c Hc x Hx. apply Hsub. apply list_elem_of_lookup in Hc as [i Hi].
    by apply (commands_lookup i cmds c x Hi).
Qed.

End Principle.

End SedRun.
