(* ===== verification/SedScript.v ===== *)
(** What the sed parser promises: it terminates on every script, and a program it
    returns is well formed, with every branch going to a label of the program. *)

From S2P Require Import Prelude GoStd GoRegexp SedParse SedSubst SedEngine SedRun.
From stdpp Require Import base list strings gmap sorting.
From Stdlib Require Import ZArith Lia Ascii.

Module SedScript.
Import GoStd GoRegexp SedParse SedSubst SedEngine SedRun.

(** ** Well-formed programs *)

Section WellFormed.
Context {RE : Type} `{Regexp RE}.

Definition wf_address (a : address RE) : Prop :=
  match a with
  | addrLine n => (0 <= n <= maxInt64)%Z
  | addrStep first step => (0 <= first <= maxInt64 /\ 0 < step <= maxInt64)%Z
  | addrLast | addrRegexp _ => True
  end.

(** A second address needs a first one, and line 0 needs a second one. *)
Definition wf_header (h : header RE) : Prop :=
  (forall a, addr1 h = Some a -> wf_address a) /\
  (forall a, addr2 h = Some a -> wf_address a) /\
  (addr1 h = None -> addr2 h = None) /\
  (addr1 h = Some (addrLine 0) -> addr2 h <> None).

Definition wf_command (k : cmdType RE) : Prop :=
  match k with
  | cmdSubstitute c =>
      (0 <= subNth c <= maxInt64)%Z /\
      (forall re, subRe c = Some re -> validateBackrefs (subReplacement c) (NumSubexp re) = None)
  | cmdQuit n | cmdQuitNoprint n => (0 <= n < 256)%Z
  | cmdLabel l => l <> []
  | _ => True
  end.

Definition wf_entry (x : header RE * option (cmdType RE)) : Prop :=
  wf_header (fst x) /\ forall k, snd x = Some k -> wf_command k.

Fixpoint depth (c : sedCmd RE) : nat :=
  match c with Cmd _ _ => 0 | Group _ children => S (foldr max 0 (map depth children)) end.

Definition ids (cs : list (sedCmd RE)) : list nat := map (fun x => cid (fst x)) (commands cs).

(** Decreasing identities between two positions of the script. *)
Definition chain (hi lo : nat) (l : list nat) : Prop :=
  StronglySorted gt l /\ Forall (fun x => lo < x <= hi) l.

Lemma chain_nil hi lo : chain hi lo [].
Proof. by split; constructor. Qed.

Lemma chain_app hi mid lo l1 l2 : lo <= mid <= hi -> chain hi mid l1 -> chain mid lo l2 -> chain hi lo (l1 ++ l2).
Proof.
  intros Hm [Hs1 Hf1] [Hs2 Hf2]. split.
  - induction Hs1 as [|x l1 Hs1 IH Hx]; [done|]. apply Forall_cons in Hf1 as [Hx1 Hf1]. cbn [app].
    constructor; [by apply IH|]. apply Forall_app. split; [done|]. eapply Forall_impl; [exact Hf2|]. cbn. lia.
  - apply Forall_app. split; (eapply Forall_impl; [eassumption|]); cbn; lia.
Qed.

Lemma chain_cons hi lo x l : lo < x <= hi -> chain (x - 1) lo l -> chain hi lo (x :: l).
Proof.
  intros Hx [Hs Hf]. split; constructor; [done| |lia|]; (eapply Forall_impl; [exact Hf|]); cbn; lia.
Qed.

Lemma chain_weaken hi hi' lo lo' l : hi <= hi' -> lo' <= lo -> chain hi lo l -> chain hi' lo' l.
Proof. intros ? ? [Hs Hf]. split; [done|]. eapply Forall_impl; [exact Hf|]. cbn. lia. Qed.

Lemma chain_NoDup hi lo l : chain hi lo l -> NoDup l.
Proof.
  intros [Hs _]. induction Hs as [|x l Hs IH Hx]; constructor; [|done].
  intros Hin. rewrite Forall_forall in Hx. specialize (Hx x Hin). lia.
Qed.

(** The outcome of a parser: fuel never runs out, and a result satisfies [Q]. *)
Definition fits {A} (Q : A -> bytes -> Prop) (o : outcome A) : Prop :=
  match o with Ret a rest => Q a rest | Err _ => True | NoFuel => False end.

Lemma fits_bind {A B} (Q : A -> bytes -> Prop) (Q' : B -> bytes -> Prop) o f :
  fits Q o -> (forall a rest, Q a rest -> fits Q' (f a rest)) -> fits Q' (obind o f).
Proof. intros Ho Hf. destruct o as [a rest|e|]; [by apply Hf|done|done]. Qed.

Lemma fits_impl {A} (Q Q' : A -> bytes -> Prop) o : fits Q o -> (forall a rest, Q a rest -> Q' a rest) -> fits Q' o.
Proof. intros Ho Hq. destruct o; [by apply Hq|done|done]. Qed.

(** ** The scanners shorten the input *)

Lemma skipWhile_le f s : length (skipWhile f s) <= length s.
Proof. unfold skipWhile. rewrite length_drop. lia. Qed.

Lemma skipSpaces_le s : length (skipSpaces s) <= length s.
Proof. apply skipWhile_le. Qed.

(** Induction on the escapes of a delimited part. *)
Lemma escape_ind (P : bytes -> Prop) :
  P [] -> (forall c, P [c]) -> (forall a b s, P s -> P (b :: s) -> P (a :: b :: s)) -> forall s, P s.
Proof.
  intros H0 H1 H2 s. enough (P s /\ forall c, P (c :: s)) by tauto.
  induction s as [|c s [IH1 IH2]]; [by split|]. split; [apply IH2|]. intros a. by apply H2.
Qed.

Lemma readSubstPart_shorter delim p s : forall x rest, readSubstPart delim p s = Some (x, rest) -> length rest < length s.
Proof.
  induction s as [|c|a b s IH1 IH2] using escape_ind; intros x rest; cbn [readSubstPart]; [done| |].
  - destruct (Ascii.eqb c delim); [|done]. intros [= <- <-]. cbn. lia.
  - change (match s with [] => _ | next :: s'' => _ end) with (readSubstPart delim p (b :: s)).
    destruct (a =c ch_bs).
    + destruct (readSubstPart delim p s) as [[y r]|]; [|done]. intros [= <- <-]. specialize (IH1 y r eq_refl). cbn. lia.
    + destruct (Ascii.eqb a delim); [intros [= <- <-]; cbn; lia|].
      destruct (readSubstPart delim p (b :: s)) as [[y r]|]; [|done]. intros [= <- <-]. specialize (IH2 y r eq_refl). cbn in *. lia.
Qed.

Lemma readUntilDelimiter_shorter delim s : forall x rest, readUntilDelimiter delim s = Some (x, rest) -> length rest < length s.
Proof.
  induction s as [|c|a b s IH1 IH2] using escape_ind; intros x rest; cbn [readUntilDelimiter]; [done| |].
  - destruct (Ascii.eqb c delim); [|done]. intros [= <- <-]. cbn. lia.
  - change (match s with [] => _ | next :: s'' => _ end) with (readUntilDelimiter delim (b :: s)).
    destruct (a =c ch_bs).
    + destruct (readUntilDelimiter delim s) as [[y r]|]; [|done]. intros [= <- <-]. specialize (IH1 y r eq_refl). cbn. lia.
    + destruct (Ascii.eqb a delim); [intros [= <- <-]; cbn; lia|].
      destruct (readUntilDelimiter delim (b :: s)) as [[y r]|]; [|done]. intros [= <- <-]. specialize (IH2 y r eq_refl). cbn in *. lia.
Qed.

Lemma textLines_le fuel s : length (snd (textLines fuel s)) <= length s.
Proof.
  revert s. induction fuel as [|fuel IH]; intros s; cbn [textLines]; [done|].
  pose proof (skipWhile_le notNewline s). destruct (skipWhile notNewline s) as [|c rest]; [cbn; lia|].
  destruct (HasSuffix _ _); [|done]. specialize (IH rest). destruct (textLines fuel rest). cbn [snd length] in *. lia.
Qed.

(** The fuel of [parseTextArg] is never the reason to stop. *)
Lemma textLines_enough n m s : length s < n -> length s < m -> textLines n s = textLines m s.
Proof.
  revert m s. induction n as [|n IH]; intros [|m] s Hn Hm; try lia. cbn [textLines].
  pose proof (skipWhile_le notNewline s) as Hle. destruct (skipWhile notNewline s) as [|c rest]; [done|]. cbn in Hle.
  by rewrite (IH m rest) by lia.
Qed.

Lemma parseTextArg_le s : length (snd (parseTextArg s)) <= length s.
Proof.
  unfold parseTextArg. destruct s as [|c s]; [apply textLines_le|]. etransitivity; [apply textLines_le|].
  destruct (c =c ch_bs); [|apply skipSpaces_le]. destruct s as [|d s]; [cbn; lia|]. destruct (d =c ch_nl); cbn; lia.
Qed.

Lemma digits_nonneg s v : ParseInt (takeWhile isDigit s) = inr v -> (0 <= v <= maxInt64)%Z.
Proof.
  intros Hv. pose proof (ParseInt_range _ _ Hv) as Hr. split; [|lia]. revert Hv. unfold takeWhile, ParseInt.
  destruct s as [|c s]; [done|]. cbn [run_length]. destruct (isDigit c) eqn:Ed; [|done]. cbn [take].
  assert ((c =c "+") = false) as ->.
  { unfold isDigit in Ed. destruct (Ascii.eqb_spec c "+") as [->|]; [discriminate Ed|done]. }
  assert ((c =c "-") = false) as ->.
  { unfold isDigit in Ed. destruct (Ascii.eqb_spec c "-") as [->|]; [discriminate Ed|done]. }
  destruct (ParseUint _ _ _) as [|un] eqn:Eu; [done|].
  unfold ParseUint in Eu. apply parseDigits_bound in Eu; [|lia..]. destruct (_ && _); [done|]. cbn [andb].
  intros [= <-]. lia.
Qed.

(** ** Addresses and command bodies *)

Variable useERE : bool.

Definition wf_optional (o : option (address RE)) : Prop := forall a, o = Some a -> wf_address a.

Lemma parseNumberAddress_fits s :
  fits (fun a rest => length rest <= length s /\ a <> None /\ wf_optional a) (parseNumberAddress s).
Proof.
  unfold parseNumberAddress. pose proof (skipWhile_le isDigit s) as Hl. pose proof (digits_nonneg s) as Hd.
  destruct (skipWhile isDigit s) as [|c rest]; [|destruct (c =c "~")].
  - destruct (ParseInt (takeWhile isDigit s)); [done|]. split_and!; [done..|]. intros a [= <-]. by apply Hd.
  - destruct (ParseInt (takeWhile isDigit s)) as [|f]; [done|]. pose proof (digits_nonneg rest) as Hd2.
    destruct (ParseInt (takeWhile isDigit rest)) as [|st]; [done|]. destruct (Z.leb_spec st 0); [done|].
    pose proof (skipWhile_le isDigit rest). cbn [fits length] in *. split_and!; [lia|done|]. intros a [= <-].
    specialize (Hd f eq_refl). specialize (Hd2 st eq_refl). cbn. lia.
  - destruct (ParseInt (takeWhile isDigit s)); [done|]. split_and!; [done..|]. intros a [= <-]. by apply Hd.
Qed.

Lemma parseRegexAddress_fits delim s :
  fits (fun a rest => length rest <= length s /\ a <> None /\ wf_optional a) (parseRegexAddress useERE delim s).
Proof.
  unfold parseRegexAddress. pose proof (readUntilDelimiter_shorter delim s) as Hl.
  destruct (readUntilDelimiter delim s) as [[[|c pat] rest]|]; [|..|done]; specialize (Hl _ _ eq_refl).
  - split_and!; [lia|done|]. by intros a [= <-].
  - destruct (compileRegex useERE (c :: pat)); [done|]. split_and!; [lia|done|]. by intros a [= <-].
Qed.

Lemma parseAddress_fits s :
  fits (fun a rest => length rest <= length s /\ (a = None -> rest = s) /\ wf_optional a) (parseAddress useERE s).
Proof.
  assert (forall o, fits (fun a rest => length rest <= length s /\ a <> None /\ wf_optional a) o ->
    fits (fun a rest => length rest <= length s /\ (a = None -> rest = s) /\ wf_optional a) o) as Hweak.
  { intros o Ho. eapply fits_impl; [exact Ho|]. by intros a rest (? & ? & ?). }
  unfold parseAddress. destruct s as [|ch s]; [by split_and!|].
  destruct (isDigit ch); [apply Hweak, parseNumberAddress_fits|].
  destruct (ch =c "$"). { split_and!; [cbn; lia|done|]. by intros a [= <-]. }
  destruct (ch =c "/").
  { apply Hweak. eapply fits_impl; [apply parseRegexAddress_fits|]. intros a rest (? & ? & ?). split_and!; [cbn; lia|done..]. }
  destruct (ch =c ch_bs); [|by split_and!]. destruct s as [|delim s]; [done|].
  apply Hweak. eapply fits_impl; [apply parseRegexAddress_fits|]. intros a rest (? & ? & ?). split_and!; [cbn; lia|done..].
Qed.

Lemma parseHeader_fits s :
  fits (fun h rest => length rest <= length s /\ wf_header h /\ cid h = length s) (parseHeader useERE s).
Proof.
  unfold parseHeader. eapply fits_bind; [apply parseAddress_fits|]. intros a1 s1 (Hl1 & _ & Hw1).
  eapply (fits_bind (fun a2 rest => length rest <= length s1 /\ (a1 = None -> a2 = None) /\ wf_optional a2)).
  { assert (fits (fun a2 rest => length rest <= length s1 /\ (a1 = None -> a2 = None) /\ wf_optional a2) (Ret None s1)) as Hnone.
    { split_and!; [done..|]. by intros a [=]. }
    destruct a1 as [a1|]; [|exact Hnone]. destruct s1 as [|c s']; [exact Hnone|]. destruct (c =c ","); [|exact Hnone].
    eapply fits_bind; [apply parseAddress_fits|]. intros [a2|] s2 (Hl2 & _ & Hw2); [|done].
    pose proof (skipSpaces_le s'). split_and!; [cbn in *; lia|done..]. }
  intros a2 s2 (Hl2 & Hn2 & Hw2).
  assert (forall neg s', length s' <= length s2 -> (a1 = Some (addrLine 0) -> a2 <> None) ->
    fits (fun h rest => length rest <= length s /\ wf_header h /\ cid h = length s) (Ret (mkHeader (length s) a1 a2 neg) s')) as Hok.
  { intros neg s' Hs Hz. split_and!; [lia| |done]. by split_and!. }
  set (body := match skipSpaces s2 with [] => _ | _ => _ end).
  assert ((a1 = Some (addrLine 0) -> a2 <> None) ->
    fits (fun h rest => length rest <= length s /\ wf_header h /\ cid h = length s) body) as Hbody.
  { intros Hz. subst body. pose proof (skipSpaces_le s2) as Hs. destruct (skipSpaces s2) as [|c s']; [by apply Hok|].
    destruct (c =c "!"); [|by apply Hok]. apply Hok; [|done]. pose proof (skipSpaces_le s'). cbn in Hs. lia. }
  clearbody body. destruct a2 as [a2|]; destruct a1 as [[[|p|p]| | |]|]; try (by apply Hbody). done.
Qed.

Lemma requireSeparator_fits s : fits (fun _ rest => length rest <= length s) (requireSeparator s).
Proof.
  unfold requireSeparator. pose proof (skipSpaces_le s). destruct (skipSpaces s) as [|c s']; [done|].
  by destruct (endsCommand c).
Qed.

Lemma parseOptionalExitCode_fits s :
  fits (fun n rest => length rest <= length s /\ (0 <= n < 256)%Z) (parseOptionalExitCode s).
Proof.
  unfold parseOptionalExitCode. pose proof (skipSpaces_le s). set (s' := skipSpaces s) in *.
  destruct (20 <? _); [done|]. destruct (run_length isDigit s') as [|n]; [by destruct (exitCodeEnd s')|].
  destruct (ParseInt _) as [|v]; [done|]. destruct (exitCodeEnd _); [|done]. split.
  - rewrite length_drop. lia.
  - apply Z.mod_pos_bound. lia.
Qed.

Lemma parseSubFlags_fits fuel f s : length s < fuel -> (0 <= fNth f <= maxInt64)%Z ->
  fits (fun f rest => length rest <= length s /\ (0 <= fNth f <= maxInt64)%Z) (parseSubFlags fuel f s).
Proof.
  revert f s. induction fuel as [|fuel IH]; intros f s Hs Hf; [lia|]. cbn [parseSubFlags].
  destruct s as [|ch s]; [done|]. cbn [length] in Hs.
  assert (forall f', (0 <= fNth f' <= maxInt64)%Z -> fits (fun f rest => length rest <= length (ch :: s) /\ (0 <= fNth f <= maxInt64)%Z)
    (parseSubFlags fuel f' s)) as Hnext.
  { intros f' Hf'. eapply fits_impl; [apply IH; [lia|done]|]. intros f1 rest [? ?]. cbn [length]. split; [lia|done]. }
  destruct (ch =c "g"); [by apply Hnext|]. destruct (ch =c "p"); [by apply Hnext|].
  destruct ((ch =c "i") || (ch =c "I")); [by apply Hnext|]. destruct ((ch =c "w") || (ch =c "e")); [done|].
  destruct (ch =c "0"); [done|]. destruct (isDigit ch) eqn:Ed.
  { destruct (0 <? fNth f)%Z; [done|]. pose proof (digits_nonneg (ch :: s)) as Hd.
    destruct (ParseInt _) as [|n]; [done|]. specialize (Hd n eq_refl). destruct (n <=? 0)%Z; [done|].
    assert (length (skipWhile isDigit (ch :: s)) <= length s) as Hl.
    { unfold skipWhile. cbn [run_length]. rewrite Ed. cbn [drop]. rewrite length_drop. lia. }
    eapply fits_impl; [apply IH; [lia|done]|]. intros f1 rest [? ?]. cbn [length]. split; [lia|done]. }
  destruct ((ch =c "}") || isSeparator ch); [done|].
  destruct (ch =c "#"); [|done]. split; [apply skipWhile_le|done].
Qed.

Lemma parseSubstitute_fits s :
  fits (fun k rest => length rest <= length s /\ wf_command k) (parseSubstitute useERE s).
Proof.
  unfold parseSubstitute. destruct s as [|delim s]; [done|]. destruct (_ || _); [done|].
  pose proof (readSubstPart_shorter delim true s) as H1. destruct (readSubstPart delim true s) as [[pat s1]|]; [|done].
  pose proof (readSubstPart_shorter delim false s1) as H2. destruct (readSubstPart delim false s1) as [[repl s2]|]; [|done].
  specialize (H1 _ _ eq_refl). specialize (H2 _ _ eq_refl).
  eapply fits_bind; [apply parseSubFlags_fits; [lia|cbn; unfold maxInt64; lia]|]. intros f s3 [Hs3 Hf].
  destruct pat as [|c pat].
  - destruct (fFold f); [done|]. cbn [fits length]. split; [lia|]. by split.
  - destruct (compileRegex useERE (c :: pat)) as [|re]; [done|].
    destruct (if fFold f then compileFold re else inr re) as [|re']; [done|].
    destruct (validateBackrefs repl (NumSubexp re')) eqn:Ev; [done|]. cbn [fits length]. split; [lia|].
    split; [done|]. by intros re1 [= <-].
Qed.

Lemma parseTransliterate_fits s :
  fits (fun k rest => length rest <= length s /\ wf_command k) (parseTransliterate s).
Proof.
  unfold parseTransliterate. destruct s as [|delim s]; [done|].
  pose proof (readSubstPart_shorter delim false s) as H1. destruct (readSubstPart delim false s) as [[src s1]|]; [|done].
  pose proof (readSubstPart_shorter delim false s1) as H2. destruct (readSubstPart delim false s1) as [[dst s2]|]; [|done].
  specialize (H1 _ _ eq_refl). specialize (H2 _ _ eq_refl). destruct (_ =? _); [|done]. cbn. split; [lia|done].
Qed.

Lemma withSeparator_fits k s : wf_command k -> fits (fun k rest => length rest <= length s /\ wf_command k) (withSeparator k s).
Proof. intros Hk. eapply fits_bind; [apply requireSeparator_fits|]. intros u rest Hr. by split. Qed.

Lemma withText_fits k s : (forall t, wf_command (k t)) -> fits (fun k rest => length rest <= length s /\ wf_command k) (withText k s).
Proof. intros Hk. unfold withText. pose proof (parseTextArg_le s). destruct (parseTextArg s). by split. Qed.

Lemma withLabel_fits k s : (forall t, wf_command (k t)) -> fits (fun k rest => length rest <= length s /\ wf_command k) (withLabel k s).
Proof.
  intros Hk. unfold withLabel, parseLabelArg. split; [|done].
  pose proof (skipSpaces_le s). pose proof (skipWhile_le isLabelByte (skipSpaces s)). lia.
Qed.

Lemma withCode_fits k s : (forall n, (0 <= n < 256)%Z -> wf_command (k n)) -> fits (fun k rest => length rest <= length s /\ wf_command k) (withCode k s).
Proof. intros Hk. eapply fits_bind; [apply parseOptionalExitCode_fits|]. intros n rest [? ?]. split; [done|by apply Hk]. Qed.

Lemma parseCommandBody_fits ch s :
  fits (fun k rest => length rest <= length s /\ wf_command k) (parseCommandBody useERE ch s).
Proof.
  unfold parseCommandBody.
  repeat match goal with
  | |- fits _ (if ?b then _ else _) => destruct b
  end; try done;
  first [apply parseSubstitute_fits | apply parseTransliterate_fits | by apply withSeparator_fits
        | by apply withText_fits | by apply withLabel_fits | by apply withCode_fits | idtac].
  destruct (parseLabelArg s) as [l rest] eqn:El. destruct l as [|c l]; [done|]. split; [|done].
  pose proof (withLabel_fits cmdBranch s (fun _ => I)) as Hl. unfold withLabel in Hl. rewrite El in Hl. apply Hl.
Qed.

(** ** Commands and groups *)

(** A parsed tree at group depth [d] read between positions [hi] and [lo]. *)
Definition good_tree (d hi lo : nat) (c : sedCmd RE) : Prop :=
  Forall wf_entry (flatten c) /\ d + depth c <= maxGroupDepth /\ chain hi lo (map (fun x => cid (fst x)) (flatten c)).

Definition good_trees (d hi lo : nat) (cs : list (sedCmd RE)) : Prop :=
  Forall wf_entry (commands cs) /\ d + foldr max 0 (map depth cs) <= maxGroupDepth /\ chain hi lo (ids cs).

Lemma good_trees_nil d hi lo : d <= maxGroupDepth -> good_trees d hi lo [].
Proof. intros Hd. split_and!; [constructor|cbn [map foldr]; lia|apply chain_nil]. Qed.

Lemma good_trees_cons d hi mid lo c cs : lo <= mid <= hi -> good_tree d hi mid c -> good_trees d mid lo cs -> good_trees d hi lo (c :: cs).
Proof.
  intros Hm (Hw1 & Hd1 & Hc1) (Hw2 & Hd2 & Hc2). split_and!.
  - rewrite commands_cons, Forall_app. done.
  - cbn [map foldr]. lia.
  - unfold ids. rewrite commands_cons, map_app. by eapply chain_app.
Qed.

Lemma good_group d hi lo h children : wf_header h -> cid h = hi -> lo < hi -> S d + foldr max 0 (map depth children) <= maxGroupDepth ->
  good_trees (S d) (hi - 1) lo children -> good_tree d hi lo (Group h children).
Proof.
  intros Hh Hid Hlt Hd (Hw & _ & Hc). split_and!.
  - cbn [flatten]. constructor; [|exact Hw]. split; [done|]. by intros k [=].
  - cbn [depth]. lia.
  - cbn [flatten map fst]. rewrite Hid. apply chain_cons; [lia|exact Hc].
Qed.

Lemma good_trees_weaken d hi hi' lo cs : hi <= hi' -> good_trees d hi lo cs -> good_trees d hi' lo cs.
Proof. intros Hh (? & ? & Hc). split_and!; [done..|]. by apply (chain_weaken hi hi' lo lo). Qed.

Lemma good_tree_weaken d hi hi' lo c : hi <= hi' -> good_tree d hi lo c -> good_tree d hi' lo c.
Proof. intros Hh (? & ? & Hc). split_and!; [done..|]. by apply (chain_weaken hi hi' lo lo). Qed.

Lemma parse_fits fuel :
  (forall g d s, 2 * length s < fuel -> d <= maxGroupDepth ->
    fits (fun cs rest => length rest <= length s /\ (g = false -> rest = []) /\ good_trees d (length s) (length rest) cs)
      (parseCommands useERE fuel g d s)) /\
  (forall d s, 2 * length s <= fuel -> s <> [] -> d <= maxGroupDepth ->
    fits (fun c rest => length rest < length s /\ good_tree d (length s) (length rest) c)
      (parseOneCommand useERE fuel d s)).
Proof.
  induction fuel as [|fuel [IHcs IHc]].
  { split; intros; [lia|]. destruct s; [done|cbn in *; lia]. }
  split.
  - intros g d s Hf Hd. cbn [parseCommands]. pose proof (skipWhile_le isSeparator s) as Hsk.
    change (skipWhile isSeparator s) with (skipWhitespaceAndSemicolons s) in Hsk.
    destruct (skipWhitespaceAndSemicolons s) as [|ch s'].
    { destruct g; [done|]. split_and!; [cbn; lia|done|]. by apply good_trees_nil. }
    cbn [length] in Hsk. destruct (ch =c "}").
    { destruct g; [|done]. split_and!; [lia|done|]. by apply good_trees_nil. }
    destruct (ch =c "#") eqn:Ec.
    { assert (length (skipWhile notNewline (ch :: s')) <= length s') as Hl.
      { apply Ascii.eqb_eq in Ec as ->. unfold skipWhile. cbn [run_length notNewline Ascii.eqb Bool.eqb negb drop].
        rewrite length_drop. lia. }
      eapply fits_impl; [apply (IHcs g d); [lia|done]|]. intros cs rest (Hr & Hg & Hgood).
      split; [lia|]. split; [done|]. eapply good_trees_weaken; [|exact Hgood]. lia. }
    eapply fits_bind; [apply IHc; [cbn [length]; lia|done|done]|]. intros c s1 [Hs1 Hc]. cbn [length] in Hs1, Hc.
    eapply fits_bind; [apply (IHcs g d s1); [lia|done]|]. intros cs s2 (Hs2 & Hg & Hcs).
    split; [lia|]. split; [done|]. apply (good_trees_cons d (length s) (length s1)); [lia| |done].
    eapply good_tree_weaken; [|exact Hc]. lia.
  - intros d s Hf Hs Hd. cbn [parseOneCommand].
    eapply fits_bind; [apply parseHeader_fits|]. intros h s1 (Hl1 & Hh & Hid).
    destruct s1 as [|ch s1]; [done|]. cbn [length] in Hl1. destruct (ch =c "{").
    + destruct (Nat.leb_spec maxGroupDepth d); [done|].
      eapply fits_bind; [apply (IHcs true (S d) s1); [lia|lia]|]. intros cs s2 (Hs2 & _ & Hcs).
      cbn [fits]. split; [lia|]. apply good_group; [done..|lia| |].
      * by destruct Hcs as (_ & ? & _).
      * eapply good_trees_weaken; [|exact Hcs]. lia.
    + eapply fits_bind; [apply parseCommandBody_fits|]. intros k s2 [Hs2 Hk]. cbn [fits]. split; [lia|].
      split_and!; [|cbn [depth]; lia|].
      * cbn [flatten]. constructor; [|constructor]. split; [done|]. by intros k' [= <-].
      * cbn [flatten map fst]. rewrite Hid. apply chain_cons; [lia|apply chain_nil].
Qed.

(** ** Labels *)

Lemma checkBranches_none labels (c : sedCmd RE) : checkBranches labels c = None ->
  forall h k l, (h, Some k) ∈ flatten c -> branchLabel k = Some l -> existsb (bytes_eqb l) labels = true.
Proof.
  induction c as [h k|h children IH] using sedCmd_nested_ind; cbn [checkBranches flatten]; intros Hn h' k' l Hin Hl.
  - apply list_elem_of_singleton in Hin as [= -> ->]. rewrite Hl in Hn. by destruct (existsb _ _).
  - apply elem_of_cons in Hin as [[=]|Hin]. 
    induction IH as [|c cs Hc Hcs IHcs]; [by apply elem_of_nil in Hin|].
    change (mjoin (map flatten (c :: cs))) with (flatten c ++ mjoin (map flatten cs)) in Hin.
    destruct (checkBranches labels c) eqn:Ec; [done|].
    apply elem_of_app in Hin as [Hin|Hin]; [by apply (Hc eq_refl h' k')|by apply IHcs].
Qed.

Lemma validateLabels_none (prog : list (sedCmd RE)) : validateLabels prog = None ->
  forall h k l, (h, Some k) ∈ commands prog -> branchLabel k = Some l -> l ∈ mjoin (map collectLabels prog).
Proof.
  intros Hv h k l Hin Hl.
  assert (existsb (bytes_eqb l) (mjoin (map collectLabels prog)) = true) as Hex.
  { revert Hv. unfold validateLabels. generalize (mjoin (map collectLabels prog)) as labels. intros labels Hv.
    induction prog as [|c cs IH]; [by apply elem_of_nil in Hin|]. rewrite commands_cons in Hin.
    destruct (checkBranches labels c) eqn:Ec; [done|].
    apply elem_of_app in Hin as [Hin|Hin]; [by apply (checkBranches_none labels c Ec h k)|by apply IH]. }
  apply existsb_exists in Hex as (l' & Hl' & ->%bytes_eqb_true). by apply list_elem_of_In.
Qed.

Lemma buildLabelMap_group prefix i (h : header RE) children m :
  buildLabelMap prefix i (Group h children) m = buildLabels (prefix ++ [i]) 0 children m.
Proof.
  cbn [buildLabelMap]. generalize 0 as j. revert m.
  induction children as [|c cs IH]; intros m j; [done|]. cbn [buildLabels]. by rewrite IH.
Qed.

(** Where a label of the map is: before, or at a valid place of these commands. *)
Definition placed (prefix : list nat) (i : nat) (cs : list (sedCmd RE)) (m m' : gmap bytes (list nat)) : Prop :=
  forall l p, m' !! l = Some p -> m !! l = Some p \/ exists j rest, p = prefix ++ (i + j) :: rest /\ valid_path cs (j :: rest).

Definition placedCmd (c : sedCmd RE) : Prop := forall prefix i m l p, buildLabelMap prefix i c m !! l = Some p ->
  m !! l = Some p \/ exists rest, p = prefix ++ i :: rest /\ (rest = [] \/ valid_path (childrenOf c) rest).

Lemma buildLabels_placed cs : Forall placedCmd cs -> forall prefix i m, placed prefix i cs m (buildLabels prefix i cs m).
Proof.
  induction 1 as [|c cs Hc Hcs IH]; intros prefix i m l p Hp; cbn [buildLabels] in Hp; [by left|].
  destruct (IH _ _ _ l p Hp) as [Hp'|(j & rest & -> & Hv)].
  - destruct (Hc _ _ _ _ _ Hp') as [?|(rest & -> & Hr)]; [by left|]. right. exists 0, rest. rewrite Nat.add_0_r. split; [done|].
    destruct Hr as [->|Hr]; [cbn; lia|]. destruct rest as [|j rest]; [done|]. cbn [valid_path]. by exists c.
  - right. exists (S j), rest. split; [f_equal; f_equal; lia|]. destruct rest as [|k rest]; cbn [valid_path] in *; [cbn; lia|].
    destruct Hv as (c' & Hc' & Hv). by exists c'.
Qed.

Lemma every_placed c : placedCmd c.
Proof.
  induction c as [h k|h children IH] using sedCmd_nested_ind; intros prefix i m l p.
  - cbn [buildLabelMap]. destruct k; try (by left). destruct label as [|b label]; [by left|].
    rewrite lookup_insert_Some. intros [[<- <-]|[_ ?]]; [right; exists []; split; [done|by left]|by left].
  - rewrite buildLabelMap_group. intros Hp. destruct (buildLabels_placed children IH _ _ _ l p Hp) as [?|(j & rest & -> & Hv)]; [by left|].
    right. exists (j :: rest). rewrite <- app_assoc. split; [done|by right].
Qed.

Lemma buildLabels_grows (cs : list (sedCmd RE)) l : Forall (fun c => forall prefix i m, is_Some (m !! l) -> is_Some (buildLabelMap prefix i c m !! l)) cs ->
  forall prefix i m, is_Some (m !! l) -> is_Some (buildLabels prefix i cs m !! l).
Proof. induction 1 as [|c cs Hc Hcs IH]; intros prefix i m Hm; cbn [buildLabels]; [done|]. by apply IH, Hc. Qed.

Lemma buildLabelMap_grows l (c : sedCmd RE) : forall prefix i m, is_Some (m !! l) -> is_Some (buildLabelMap prefix i c m !! l).
Proof.
  induction c as [h k|h children IH] using sedCmd_nested_ind; intros prefix i m Hm.
  - cbn [buildLabelMap]. destruct k; try done. destruct label as [|b label]; [done|]. rewrite lookup_insert_is_Some'. by right.
  - rewrite buildLabelMap_group. by apply buildLabels_grows.
Qed.

Lemma buildLabels_present (cs : list (sedCmd RE)) l : l <> [] ->
  Forall (fun c => forall prefix i m, l ∈ collectLabels c -> is_Some (buildLabelMap prefix i c m !! l)) cs ->
  forall prefix i m, l ∈ mjoin (map collectLabels cs) -> is_Some (buildLabels prefix i cs m !! l).
Proof.
  intros Hl. induction 1 as [|c cs Hc Hcs IH]; intros prefix i m Hin; [by apply elem_of_nil in Hin|].
  change (mjoin (map collectLabels (c :: cs))) with (collectLabels c ++ mjoin (map collectLabels cs)) in Hin. cbn [buildLabels].
  apply elem_of_app in Hin as [Hin|Hin]; [|by apply IH].
  apply buildLabels_grows; [|by apply Hc]. rewrite Forall_forall. intros c' _. apply buildLabelMap_grows.
Qed.

Lemma buildLabelMap_present l (c : sedCmd RE) : l <> [] -> forall prefix i m, l ∈ collectLabels c -> is_Some (buildLabelMap prefix i c m !! l).
Proof.
  intros Hl. induction c as [h k|h children IH] using sedCmd_nested_ind; intros prefix i m Hin.
  - cbn [collectLabels] in Hin. destruct k; try (by apply elem_of_nil in Hin). apply list_elem_of_singleton in Hin as ->.
    cbn [buildLabelMap]. destruct label; [done|]. rewrite lookup_insert_is_Some'. by left.
  - rewrite buildLabelMap_group. by apply buildLabels_present.
Qed.

Lemma valid_branches (prog : list (sedCmd RE)) : validateLabels prog = None -> branches_ok prog.
Proof.
  intros Hv h k l Hin Hl. pose proof (validateLabels_none prog Hv h k l Hin Hl) as Hc.
  assert (l <> []) as Hne by (destruct k; cbn in Hl; try done; by destruct label; [|injection Hl as <-]).
  destruct (buildLabels_present prog l Hne (Forall_true _ _ (fun c => buildLabelMap_present l c Hne)) [] 0 ∅ Hc) as [path Hp].
  exists path. split; [exact Hp|].
  destruct (buildLabels_placed prog (Forall_true _ _ every_placed) [] 0 ∅ l path Hp) as [Hm|(j & rest & -> & Hvp)]; [|done].
  by rewrite lookup_empty in Hm.
Qed.

(** ** What the parser promises *)

(** The parser terminates on every script, and what it returns is a well-formed
    program: the whole script was read, addresses, numbers, exit codes and group
    references are in range, line 0 only starts a range, groups nest at most 256
    deep, no two commands share an identity, every branch goes to a label. *)
Theorem sed_script_valid script :
  match parseScript useERE script with
  | Ret prog rest =>
      rest = [] /\ Forall wf_entry (commands prog) /\ Forall (fun c => depth c <= maxGroupDepth) prog /\
      NoDup (ids prog) /\ branches_ok prog
  | Err _ => True
  | NoFuel => False
  end.
Proof.
  unfold parseScript. pose proof (proj1 (parse_fits (scriptFuel script)) false 0 script) as Hp. cbn [fits] in Hp.
  unfold scriptFuel in *. specialize (Hp ltac:(lia) ltac:(lia)).
  destruct (parseCommands _ _ _ _ _) as [prog rest|e|]; [|done|done]. destruct Hp as (_ & Hr & Hw & Hd & Hc).
  cbn [obind]. destruct (validateLabels prog) eqn:Ev; [done|]. split_and!; [by apply Hr|done| | |by apply valid_branches].
  - clear -Hd. cbn [Nat.add] in Hd. induction prog as [|c cs IH]; constructor; cbn [map foldr] in Hd; [lia|apply IH; lia].
  - by eapply chain_NoDup.
Qed.

(** The same for use in later proofs. *)
Definition valid_program (prog : list (sedCmd RE)) : Prop := branches_ok prog /\ Forall wf_entry (commands prog).

Lemma parsed_valid script prog rest : parseScript useERE script = Ret prog rest -> valid_program prog.
Proof.
  unfold parseScript. pose proof (proj1 (parse_fits (scriptFuel script)) false 0 script) as Hp. cbn [fits] in Hp.
  unfold scriptFuel in *. specialize (Hp ltac:(lia) ltac:(lia)).
  destruct (parseCommands _ _ _ _ _) as [p r|e|]; [|done|done]. cbn [obind]. destruct Hp as (_ & _ & Hw & _).
  destruct (validateLabels p) eqn:Ev; [done|]. intros [= <- <-]. by split; [apply valid_branches|].
Qed.

End WellFormed.

End SedScript.
