(* ===== verification/SedSafe.v ===== *)
(** Running a parsed sed program: it never indexes out of range or misses a label,
    its spaces and queue stay bounded, and it terminates on every input. *)

From S2P Require Import Prelude GoStd Utf8 BoundedReplace GoRegexp SedParse SedSubst SedEngine SedRun SedScript.
From stdpp Require Import base list strings gmap.
From Stdlib Require Import ZArith Lia Ascii.

Module SedSafe.
Import GoStd Utf8 BoundedReplace GoRegexp SedParse SedSubst SedEngine SedRun SedScript.

(** ** Invariants *)

Section Invariant.
Context {RE : Type} `{Regexp RE}.
Variables (prog : list (sedCmd RE)) (suppressPrint : bool) (ctxErr : nat -> option bytes) (fm : fileMode).
Hypothesis labels : branches_ok prog.
Variables (Inv : engine RE -> Prop) (fine : sedErr -> Prop).

Definition fine_result (r : (sedErr + action) * engine RE) : Prop :=
  Inv (snd r) /\ match fst r with inl err => fine err | inr _ => True end.

(** What an invariant must satisfy for the whole engine to keep it. *)
Record inv_steps : Prop := {
  inv_tick e : Inv e -> Inv (tick e);
  inv_ctx err : fine (ECtx err);
  inv_limit : fine EBranchLimit;
  inv_previous : fine ENoPrevious;
  inv_read : fine EReadLimit;
  inv_address a e : Inv e -> Inv (setAddressing a e);
  inv_submade b e : Inv e -> Inv (setSubMade b e);
  inv_clear e : Inv e -> Inv (clearQueue e);
  inv_io o e : Inv e -> Inv (setIo o e);
  inv_reader line r e : Inv e -> readLine (lr e) = (Some line, r) -> Inv (setReader r e) /\ forall ch, Inv (setPattern line ch (setReader r e));
  inv_one branch h k e : (h, Some k) ∈ commands prog -> isBranch k = false -> Inv e ->
    fine_result (execOne suppressPrint fm branch h k e) }.

Hypothesis steps : inv_steps.

Lemma execCmds_inv n cmds e : (forall x, x ∈ commands cmds -> x ∈ commands prog) -> Inv e ->
  fine_result (execCmds prog suppressPrint ctxErr fm n cmds e).
Proof.
  intros Hsub. apply (execCmds_kept prog suppressPrint ctxErr fm labels (fun e r => Inv e -> fine_result r)); [|exact Hsub].
  split.
  - intros e0 He. by split.
  - intros e0 e1 r H1 H2 He. by apply H2, H1.
  - intros e0 e1 H1 He. by apply H1.
  - intros e0 He. split; [by apply steps|done].
  - intros e0 err He. split; [by apply steps|apply steps].
  - intros e0 He. split; [done|apply steps].
  - intros h k e0 _. destruct (addressMatch _ _ _) as [m a]. split; intros He; (split; [by apply steps|]); [done|apply steps].
  - intros e0 b He. split; [by apply steps|done].
  - intros branch h k e0 Hin Hb He. by apply steps.
Qed.

Lemma autoPrint_inv e : Inv e -> Inv (autoPrint suppressPrint fm e).
Proof. intros He. unfold autoPrint. destruct suppressPrint; [done|by apply steps]. Qed.

Lemma endCycle_inv a e : Inv e -> Inv (endCycle suppressPrint fm a e).
Proof. intros He. unfold endCycle. apply (inv_io steps). destruct a; [by apply autoPrint_inv|done|by apply autoPrint_inv..]. Qed.

Lemma cycleLoop_inv fuel e err e' : Inv e -> cycleLoop prog suppressPrint ctxErr fm fuel e = Some (err, e') ->
  Inv e' /\ forall x, err = Some x -> fine x.
Proof.
  revert e. induction fuel as [|fuel IH]; intros e He; cbn [cycleLoop]; [done|].
  pose proof (execCmds_inv (S MaxBranchIterations) prog e (fun x Hx => Hx) He) as [Hi Hf].
  destruct (execCmds _ _ _ _ _ _ _) as [[x|a] e1]; cbn [fst snd] in *; [intros [= <- <-]; split; [done|by intros ? [= <-]]|].
  pose proof (endCycle_inv a e1 Hi) as Hend.
  destruct a; try (intros [= <- <-]; by split). apply IH. by apply steps.
Qed.

Lemma lineLoop_inv fuel turns e err e' : Inv e -> lineLoop prog suppressPrint ctxErr fm fuel turns e = Some (err, e') ->
  Inv e' /\ forall x, err = Some x -> fine x \/ scErr (sc (lr e')) = Some x.
Proof.
  revert e. induction turns as [|turns IH]; intros e He; cbn [lineLoop]; [done|].
  destruct (ctxErr (polls e)) as [x|]; [intros [= <- <-]; split; [by apply steps|]; intros ? [= <-]; left; apply steps|].
  assert (Inv (tick e)) as Ht by (by apply steps).
  destruct (readLine (lr (tick e))) as [[line|] r] eqn:Er.
  - destruct (inv_reader steps line r (tick e) Ht Er) as [Hr Hp].
    destruct (checkLimit fm r); cbn [negb]; [|intros [= <- <-]; split; [done|]; intros ? [= <-]; left; apply steps].
    assert (Inv (setPattern line (computeChomped fm r) (countLine fm r (tick e)))) as Hl.
    { apply (inv_address steps _ (setPattern line _ (setReader r (tick e)))). apply Hp. }
    destruct (runCycle _ _ _ _ _ _) as [[x e1]|] eqn:Ec; [|done]. unfold runCycle in Ec.
    destruct (cycleLoop_inv fuel _ x e1 (inv_clear steps _ (inv_submade steps false _ Hl)) Ec) as [He1 Hx].
    destruct x as [x|]; [|by apply IH]. intros [= <- <-]. split; [done|]. intros ? [= <-]. left. by apply Hx.
  - intros [= <- <-]. split; [done|]. intros x Hx. right. unfold readLine in Er. destruct (nextLine (lr (tick e))); [done|].
    injection Er as <-. exact Hx.
Qed.

End Invariant.

(** ** Bounded spaces *)

Section Bounded.
Context {RE : Type} `{Regexp RE}.
Variables (prog : list (sedCmd RE)) (suppressPrint : bool) (ctxErr : nat -> option bytes) (fm : fileMode).
Hypothesis valid : valid_program prog.

Definition no_transliterate : Prop := forall h m, (h, Some (cmdTransliterate m)) ∉ commands prog.

(** At most [MaxSpaceBytes] code points; without [y], which may replace a
    character by a longer one, at most as many bytes. *)
Definition space_ok (s : bytes) : Prop :=
  (Z.of_nat (length (runes s)) <= MaxSpaceBytes)%Z /\ (no_transliterate -> (len s <= MaxSpaceBytes)%Z).

Definition queued (q : list bytes) : Z := foldr (fun t n => len t + n)%Z 0%Z q.

(** No index out of range, no missing label, an exit code that is a byte. *)
Definition harmless (x : sedErr) : Prop :=
  match x with EPanic | EUndefined _ => False | EQuit n => (0 <= n < 256)%Z | _ => True end.

Definition reader_ok (r : lineReader) : Prop :=
  (forall line, nextLine r = Some line -> (len line < MaxLineBytes)%Z) /\
  (forall x, scErr (sc r) = Some x \/ readErr (sc r) = Some x -> harmless x).

Definition engine_ok (e : engine RE) : Prop :=
  space_ok (patternSpace (sp e)) /\ space_ok (holdSpace (sp e)) /\
  (queued (appendQueue e) <= appendQueueBytes e)%Z /\ (queued (appendQueue e) <= MaxAppendQueueBytes)%Z /\
  reader_ok (lr e).

Lemma space_short s : (len s <= MaxSpaceBytes)%Z -> space_ok s.
Proof. intros Hs. split; [|done]. pose proof (runes_length s). unfold len in Hs. lia. Qed.

Lemma queued_app q t : queued (q ++ [t]) = (queued q + len t)%Z.
Proof. induction q as [|x q IH]; cbn [queued app foldr] in *; [lia|]. unfold queued in *. lia. Qed.

Lemma len_app_sep s t : len (s ++ ch_nl :: t) = (len s + 1 + len t)%Z.
Proof. unfold len. rewrite length_app. cbn [length]. lia. Qed.

Lemma IndexByte_split s c i : IndexByte s c = Some i -> s = take i s ++ c :: drop (S i) s.
Proof.
  revert i. induction s as [|x s IH]; intros i; cbn [IndexByte]; [done|]. destruct (Ascii.eqb_spec x c) as [->|].
  - by intros [= <-].
  - destruct (IndexByte s c) as [j|]; [|done]. intros [= <-]. cbn [take drop app]. f_equal. by apply IH.
Qed.

Lemma space_suffix s i : IndexByte s ch_nl = Some i -> space_ok s -> space_ok (drop (S i) s).
Proof.
  intros Hi [Hr Hb]. rewrite (IndexByte_split s ch_nl i Hi), runes_cut in Hr by done. rewrite length_app in Hr. cbn [length] in Hr.
  split; [lia|]. intros Hn. specialize (Hb Hn). unfold len in *. rewrite length_drop. lia.
Qed.

Lemma advance_ok r : reader_ok r -> reader_ok (advance r).
Proof.
  intros [Hl Hx]. unfold advance, Scan. destruct (data (sc r)) as [|c d].
  - split; cbn; [done|]. intros x [?|?]; apply Hx; by right.
  - destruct (Z.leb_spec MaxLineBytes (Z.of_nat (run_length notNewline (c :: d)))) as [Hlong|Hshort].
    + split; cbn; [done|]. intros x [[= <-]|?]; [by split|apply Hx; by right].
    + split; cbn [nextLine sc scErr readErr]; [|exact Hx]. intros line [= <-].
      change (if notNewline c then S (run_length notNewline d) else 0) with (run_length notNewline (c :: d)) in *.
      unfold len. rewrite length_take. lia.
Qed.

Lemma readLine_ok r line r' : reader_ok r -> readLine r = (Some line, r') -> (len line < MaxLineBytes)%Z /\ reader_ok r'.
Proof.
  intros Hr. unfold readLine. destruct (nextLine r) as [l|] eqn:El; [|done]. intros [= <- <-].
  split; [by apply Hr|by apply advance_ok].
Qed.

Lemma transliterate_ok s m h : (h, Some (cmdTransliterate m)) ∈ commands prog -> space_ok s -> space_ok (transliterate s m).
Proof.
  intros Hin [Hr _]. split; [|intros Hn; by apply Hn in Hin]. unfold transliterate. rewrite runes_EncodeRunes, !length_map.
  unfold runeValues. by rewrite length_map.
Qed.

Lemma queued_nil n : (0 <= n)%Z -> (queued [] <= n)%Z /\ (queued [] <= MaxAppendQueueBytes)%Z.
Proof. intros Hn. split; [exact Hn|]. vm_compute. discriminate. Qed.

Lemma execSubstitute_ok c e : engine_ok e -> fine_result engine_ok harmless (execSubstitute fm c e).
Proof.
  intros He. unfold execSubstitute. destruct (match subRe c with Some re => Some re | None => _ end) as [re|]; [|by split].
  destruct (match subRe c with None => _ | Some _ => None end); [by split|].
  destruct (substituteFits _ _ _ _); cbn [negb]; [|by split].
  destruct (substitute _ _ _) as [res|]; [|by split].
  destruct (Z.ltb_spec MaxSpaceBytes (len res)) as [|Hle]; [by split|].
  destruct He as (_ & Hh & Hq). destruct (subPrint c); (split; [split_and!; [by apply space_short|exact Hh|apply Hq..]|done]).
Qed.

Lemma execNext_ok e : engine_ok e -> fine_result engine_ok harmless (execNext suppressPrint fm e).
Proof.
  intros (Hp & Hh & Hq & Hm & Hr). unfold execNext.
  set (e1 := clearQueue (flushQueue fm (autoPrint suppressPrint fm e))).
  assert (lr e1 = lr e /\ holdSpace (sp e1) = holdSpace (sp e) /\ patternSpace (sp e1) = patternSpace (sp e) /\
    appendQueue e1 = [] /\ appendQueueBytes e1 = 0%Z) as (El & Eh & Ep & Eq & En).
  { subst e1. unfold autoPrint. by destruct suppressPrint. }
  clearbody e1.
  destruct (queued_nil 0 (Z.le_refl 0)) as [H1 H2].
  destruct (readLine (lr e1)) as [[line|] r] eqn:Er; rewrite El in Er.
  - destruct (readLine_ok _ _ _ Hr Er) as [Hl Hr'].
    destruct (checkLimit fm r); cbn [negb]; (split; [|done]); cbn; unfold engine_ok; cbn.
    + rewrite Eh, Eq, En. split_and!; [|done..]. apply space_short. unfold MaxLineBytes, MaxSpaceBytes in *. lia.
    + by rewrite Eh, Ep, Eq, En.
  - split; [|done]. cbn. unfold engine_ok. cbn. by rewrite El, Eh, Ep, Eq, En.
Qed.

Lemma execNextAppend_ok e : engine_ok e -> fine_result engine_ok harmless (execNextAppend suppressPrint fm e).
Proof.
  intros (Hp & Hh & Hq & Hm & Hr). unfold execNextAppend.
  destruct (queued_nil 0 (Z.le_refl 0)) as [H1 H2]. cbn.
  destruct (readLine (lr e)) as [[line|] r] eqn:Er.
  - destruct (readLine_ok _ _ _ Hr Er) as [Hl Hr']. destruct (checkLimit fm r); cbn [negb]; [|split; [by split_and!|done]].
    destruct (Z.ltb_spec MaxSpaceBytes (len (patternSpace (sp e)) + 1 + len line)); (split; [|done]); cbn; split_and!; try done.
    apply space_short. cbn. rewrite len_app_sep. done.
  - split; [|done]. cbn. unfold autoPrint. destruct suppressPrint; by split_and!.
Qed.

Lemma bounded_steps : inv_steps prog suppressPrint fm engine_ok harmless.
Proof.
  split; try done.
  - intros e (Hp & Hh & Hq & Hm & Hr). split_and!; try done; by apply (queued_nil 0).
  - intros line r e (Hp & Hh & Hq & Hm & Hr) Er. destruct (readLine_ok _ _ _ Hr Er) as [Hl Hr'].
    split; [by split_and!|]. intros ch. split_and!; try done. apply space_short. cbn. unfold MaxLineBytes, MaxSpaceBytes in *. lia.
  - intros branch h k e Hin Hb He. pose proof He as (Hp & Hh & Hq & Hm & Hr).
    assert (forall n, k = cmdQuit n \/ k = cmdQuitNoprint n -> (0 <= n < 256)%Z) as Hcode.
    { destruct valid as [_ Hw]. rewrite Forall_forall in Hw. destruct (Hw _ Hin) as [_ Hk]. specialize (Hk k eq_refl).
      by intros n [-> | ->]. }
    destruct k; try discriminate Hb; cbn [execOne]; try (by split); try (split; [done|by apply Hcode; right]).
    + by apply execSubstitute_ok.
    + split; [destruct suppressPrint; by split_and!|apply Hcode; by left].
    + split; [|done]. split_and!; try done. cbn. by apply (transliterate_ok _ _ h).
    + destruct (Z.ltb_spec MaxAppendQueueBytes (appendQueueBytes e + len text)) as [Hbig|Hfit].
      * split; [|done]. split_and!; try done. cbn [snd appendQueue appendQueueBytes setQueue]. pose proof (Nat2Z.is_nonneg (length text)). unfold len at 1. lia.
      * split; [|done]. split_and!; try done; cbn [snd appendQueue appendQueueBytes setQueue]; rewrite queued_app; lia.
    + destruct (addr2 h); [|by split]. destruct (decide _); by split.
    + by apply execNext_ok.
    + by apply execNextAppend_ok.
    + destruct (Z.ltb_spec MaxSpaceBytes (len (holdSpace (sp e)) + 1 + len (patternSpace (sp e)))) as [|Hfit]; (split; [|done]); [done|].
      split_and!; try done. cbn. apply space_short. rewrite len_app_sep. done.
    + destruct (Z.ltb_spec MaxSpaceBytes (len (patternSpace (sp e)) + 1 + len (holdSpace (sp e)))) as [|Hfit]; (split; [|done]); [done|].
      split_and!; try done. cbn. apply space_short. rewrite len_app_sep. done.
    + destruct (IndexByte (patternSpace (sp e)) ch_nl); by split.
    + destruct (IndexByte (patternSpace (sp e)) ch_nl) as [i|] eqn:Ei; [|by split]. split; [|done].
      destruct (queued_nil 0 (Z.le_refl 0)) as [Hq1 Hq2]. split_and!; [exact (space_suffix _ i Ei Hp)|done|exact Hq1|exact Hq2|done..].
Qed.

Lemma bounded_run fuel turns source e err e' :
  engine_ok e -> (forall x, scErr source = Some x \/ readErr source = Some x -> harmless x) ->
  processReader prog suppressPrint ctxErr fm fuel turns source e = Some (err, e') ->
  engine_ok e' /\ forall x, err = Some x -> harmless x.
Proof.
  intros (Hp & Hh & Hq & Hm & _) Hs Hrun. unfold processReader in Hrun.
  assert (engine_ok (setReader (newLineReader source) e)) as He.
  { split_and!; try done; apply advance_ok; by split. }
  destruct (lineLoop_inv prog suppressPrint ctxErr fm (proj1 valid) engine_ok harmless bounded_steps _ _ _ _ _ He Hrun) as [He' Hx].
  split; [done|]. intros x Ex. destruct (Hx x Ex) as [?|Hsc]; [done|]. destruct He' as (_ & _ & _ & _ & _ & Hr). apply Hr. by left.
Qed.

Lemma newEngine_ok : engine_ok newEngine.
Proof.
  pose proof (space_short [] ltac:(vm_compute; discriminate)) as Hs. destruct (queued_nil 0 (Z.le_refl 0)).
  split; [exact Hs|]. split; [exact Hs|]. split; [done|]. split; [done|]. split; cbn; [done|]. by intros x [?|?].
Qed.

Lemma resetForNewFile_ok e : engine_ok e -> engine_ok (resetForNewFile e).
Proof.
  intros (_ & _ & _ & _ & Hr). pose proof (space_short [] ltac:(vm_compute; discriminate)) as Hs. destruct (queued_nil 0 (Z.le_refl 0)).
  split; [exact Hs|]. split; [exact Hs|]. split; [done|]. split; [done|exact Hr].
Qed.

End Bounded.

(** ** Termination *)

Section Termination.
Context {RE : Type} `{Regexp RE}.
Variables (prog : list (sedCmd RE)) (suppressPrint : bool) (ctxErr : nat -> option bytes) (fm : fileMode).
Hypothesis labels : branches_ok prog.

Definition isRestart (k : cmdType RE) : bool := match k with cmdDeleteFirstLine => true | _ => false end.

(** The commands that can lengthen the pattern space without reading input. *)
Definition isGrowing (k : cmdType RE) : bool :=
  match k with
  | cmdSubstitute _ | cmdTransliterate _ | cmdGetCopy | cmdGetAppend | cmdExchange => true
  | _ => false
  end.

Definition without (f : cmdType RE -> bool) : Prop := forall h k, (h, Some k) ∈ commands prog -> f k = false.

Definition cost (d : bytes) : nat := match d with [] => 0 | _ => S (length d) end.

(** What is left to read. *)
Definition unread (r : lineReader) : nat :=
  cost (data (sc r)) + match nextLine r with Some l => S (length l) | None => 0 end.

Definition weight (e : engine RE) : nat := length (patternSpace (sp e)) + unread (lr e).

Lemma cost_le d : cost d <= S (length d).
Proof. destruct d; cbn; lia. Qed.

Lemma Scan_cost s : match Scan s with
  | (Some l, s') => S (length l) + cost (data s') <= cost (data s)
  | (None, s') => cost (data s') <= cost (data s)
  end.
Proof.
  unfold Scan. destruct (data s) as [|c d] eqn:Ed; [done|]. set (n := run_length notNewline (c :: d)).
  destruct (_ <=? _)%Z; [by cbn [data]|]. cbn [data]. rewrite length_take.
  pose proof (run_length_le notNewline (c :: d)) as Hn. fold n in Hn. unfold cost at 2.
  destruct (drop (S n) (c :: d)) as [|x t] eqn:Et; unfold cost; [cbn [length] in *; lia|].
  rewrite <- Et, length_drop. assert (length (drop (S n) (c :: d)) <> 0) as Hne by (rewrite Et; done).
  rewrite length_drop in Hne. lia.
Qed.

Lemma advance_unread r : unread (advance r) <= cost (data (sc r)).
Proof. unfold advance, unread. pose proof (Scan_cost (sc r)) as Hs. destruct (Scan (sc r)) as [[l|] s']; cbn [sc nextLine]; lia. Qed.

Lemma readLine_unread r line r' : readLine r = (Some line, r') -> S (length line) + unread r' <= unread r.
Proof.
  unfold readLine. destruct (nextLine r) as [l|] eqn:El; [|done]. intros [= <- <-]. pose proof (advance_unread r) as Ha.
  unfold unread at 2. rewrite El. lia.
Qed.

(** No command reads backwards; without growth the pattern space and the input
    together only shrink, and D takes at least a byte. *)
Definition progress (e : engine RE) (res : (sedErr + action) * engine RE) : Prop :=
  unread (lr (snd res)) <= unread (lr e) /\
  (without isGrowing -> weight (snd res) <= weight e /\ (fst res = inr actionRestart -> weight (snd res) < weight e)) /\
  (without isRestart -> fst res <> inr actionRestart).

Lemma progress_same e r e' : lr e' = lr e -> patternSpace (sp e') = patternSpace (sp e) -> r <> inr actionRestart -> progress e (r, e').
Proof. intros El Ep Hr. unfold progress, weight. cbn [fst snd]. rewrite El, Ep. split_and!; [done|intros _; split; [done|by intros ->]|done]. Qed.

Lemma execNext_progress e : progress e (execNext suppressPrint fm e).
Proof.
  unfold execNext. set (e1 := clearQueue (flushQueue fm (autoPrint suppressPrint fm e))).
  assert (lr e1 = lr e /\ patternSpace (sp e1) = patternSpace (sp e)) as (El & Ep).
  { subst e1. unfold autoPrint. by destruct suppressPrint. }
  clearbody e1. destruct (readLine (lr e1)) as [[line|] r] eqn:Er; [|by apply progress_same].
  apply readLine_unread in Er. rewrite El in Er.
  destruct (checkLimit fm r); cbn [negb]; unfold progress, weight; cbn [fst snd lr sp patternSpace setReader setSubMade setPattern countLine setAddressing];
    rewrite ?Ep; (split_and!; [lia|intros _; split; [lia|done]|done]).
Qed.

Lemma execNextAppend_progress e : progress e (execNextAppend suppressPrint fm e).
Proof.
  unfold execNextAppend. cbn [lr clearQueue flushQueue setQueue setIo].
  destruct (readLine (lr e)) as [[line|] r] eqn:Er.
  - apply readLine_unread in Er.
    destruct (checkLimit fm r); cbn [negb]; [destruct (_ <? _)%Z|]; unfold progress, weight; cbn; rewrite ?length_app; cbn [length];
      (split_and!; [lia|intros _; split; [lia|done]|done]).
  - apply progress_same; [| |done]; unfold autoPrint; by destruct suppressPrint.
Qed.

Lemma growing_progress h k e r e' : (h, Some k) ∈ commands prog -> isGrowing k = true -> lr e' = lr e -> r <> inr actionRestart -> progress e (r, e').
Proof.
  intros Hin Hk El Hr. unfold progress, weight. cbn [fst snd]. rewrite El.
  split_and!; [done|intros Hw; by rewrite (Hw h k Hin) in Hk|done].
Qed.

Lemma progress_steps : steps_kept prog suppressPrint fm progress.
Proof.
  split.
  - intros e. by apply progress_same.
  - intros e e1 r (Hu1 & Hg1 & Hd1) (Hu2 & Hg2 & Hd2). cbn [fst snd] in *. split_and!; [lia| |done].
    intros Hg. destruct (Hg1 Hg) as [? _]. destruct (Hg2 Hg) as [? Hs]. split; [lia|]. intros Hr. specialize (Hs Hr). lia.
  - intros e e1 (Hu1 & Hg1 & Hd1). cbn [fst snd] in *. split_and!; [done| |done]. intros Hg. by split; [apply Hg1|].
  - intros e. by apply progress_same.
  - intros e err. by apply progress_same.
  - intros e. by apply progress_same.
  - intros h k e _. destruct (addressMatch _ _ _) as [m a]. split; by apply progress_same.
  - intros e b. by apply progress_same.
  - intros branch h k e Hin Hb. destruct k; try discriminate Hb; cbn [execOne]; try (by apply progress_same).
    + unfold execSubstitute. destruct (match subRe _ with Some re => Some re | None => _ end) as [re|]; [|by apply progress_same].
      destruct (match subRe _ with None => _ | Some _ => None end); [by apply progress_same|].
      destruct (negb _); [by apply progress_same|]. destruct (substitute _ _ _); [|by apply progress_same].
      destruct (_ <? _)%Z; [by apply progress_same|]. apply (growing_progress h (cmdSubstitute s)); try done. by destruct (subPrint s).
    + apply progress_same; [| |done]; by destruct suppressPrint.
    + by apply (growing_progress h (cmdTransliterate transMap)).
    + destruct (_ <? _)%Z; by apply progress_same.
    + destruct (addr2 h); [destruct (decide _)|]; by apply progress_same.
    + apply execNext_progress.
    + apply execNextAppend_progress.
    + destruct (_ <? _)%Z; by apply progress_same.
    + by apply (growing_progress h cmdGetCopy).
    + destruct (_ <? _)%Z; [by apply progress_same|]. by apply (growing_progress h cmdGetAppend).
    + by apply (growing_progress h cmdExchange).
    + destruct (IndexByte _ _); by apply progress_same.
    + destruct (IndexByte (patternSpace (sp e)) ch_nl) as [i|] eqn:Ei; [|by apply progress_same].
      pose proof (IndexByte_split _ _ _ Ei) as Es. apply (f_equal (@length ascii)) in Es. rewrite length_app in Es. cbn [length] in Es.
      unfold progress, weight. cbn [fst snd lr sp patternSpace clearQueue setQueue setPattern].
      split_and!; [done|intros _; split; [lia|intros _; lia]|]. intros Hw. by specialize (Hw h cmdDeleteFirstLine Hin).
Qed.

Hypothesis terminating : without isRestart \/ without isGrowing.

Lemma cycleLoop_returns fuel e : (without isRestart -> 0 < fuel) -> (without isGrowing -> weight e < fuel) ->
  exists err e', cycleLoop prog suppressPrint ctxErr fm fuel e = Some (err, e') /\ unread (lr e') <= unread (lr e).
Proof.
  revert e. induction fuel as [|fuel IH]; intros e Hd Hg.
  { destruct terminating as [Ht|Ht]; [specialize (Hd Ht)|specialize (Hg Ht)]; lia. }
  cbn [cycleLoop].
  pose proof (execCmds_kept prog suppressPrint ctxErr fm labels progress progress_steps (S MaxBranchIterations) prog e (fun x Hx => Hx)) as (Hu & Hw & Hr).
  destruct (execCmds _ _ _ _ _ _ _) as [[x|a] e1]; cbn [fst snd] in *; [by eexists _, _|].
  destruct a; try (eexists _, _; split; [done|]; cbn; unfold autoPrint; destruct suppressPrint; exact Hu).
  destruct (IH (clearQueue e1)) as (err & e' & -> & Hu').
  - intros Ht. by specialize (Hr Ht).
  - intros Ht. destruct (Hw Ht) as [_ Hs]. specialize (Hs eq_refl). specialize (Hg Ht). unfold weight in *. cbn in *. lia.
  - exists err, e'. split; [done|]. cbn in Hu'. lia.
Qed.

Lemma lineLoop_returns fuel turns e : unread (lr e) < turns -> unread (lr e) < fuel ->
  exists res, lineLoop prog suppressPrint ctxErr fm fuel turns e = Some res.
Proof.
  revert e. induction turns as [|turns IH]; intros e Ht Hf; [lia|]. cbn [lineLoop].
  destruct (ctxErr (polls e)); [by eexists|]. cbn [lr tick].
  destruct (readLine (lr e)) as [[line|] r] eqn:Er; [|by eexists]. apply readLine_unread in Er.
  destruct (negb _); [by eexists|]. unfold runCycle.
  destruct (cycleLoop_returns fuel (clearQueue (setSubMade false (setPattern line (computeChomped fm r) (countLine fm r (tick e))))))
    as (err & e' & -> & Hu).
  - intros _. lia.
  - intros _. unfold weight. cbn. lia.
  - cbn in Hu. destruct err; [by eexists|]. apply IH; lia.
Qed.

End Termination.

(** ** The theorems *)

Lemma space_bytes {RE : Type} (prog : list (sedCmd RE)) s : space_ok prog s -> (len s <= 4 * MaxSpaceBytes)%Z.
Proof. intros [Hr _]. pose proof (runes_length s). unfold len. lia. Qed.

(** C29. A program the parser returned runs without an index out of range and
    without missing a label, and quits with a byte, on every input and context.
    The append queue stays within its limit of bytes.  So do the pattern space
    and the hold space in a program without [y]; [y] is not checked, so with it
    each holds at most [MaxSpaceBytes] characters, hence four times the limit
    in bytes. *)
Theorem sed_run_safe {RE : Type} `{Regexp RE} useERE script prog rest suppressPrint ctxErr fm fuel turns source e err e' :
  parseScript useERE script = Ret prog rest -> engine_ok prog e ->
  (forall x, scErr source = Some x \/ readErr source = Some x -> harmless x) ->
  processReader prog suppressPrint ctxErr fm fuel turns source e = Some (err, e') ->
  engine_ok prog e' /\
  (no_transliterate prog -> (len (patternSpace (sp e')) <= MaxSpaceBytes /\ len (holdSpace (sp e')) <= MaxSpaceBytes)%Z) /\
  (len (patternSpace (sp e')) <= 4 * MaxSpaceBytes /\ len (holdSpace (sp e')) <= 4 * MaxSpaceBytes)%Z /\
  forall x, err = Some x -> harmless x.
Proof.
  intros Hp He Hs E. destruct (bounded_run prog suppressPrint ctxErr fm (parsed_valid _ _ _ _ Hp) fuel turns source e err e' He Hs E)
    as [Hok Hx].
  pose proof Hok as (Hpat & Hhold & _). split; [exact Hok|]. split; [intros Hn; split; [by apply Hpat|by apply Hhold]|].
  split; [|exact Hx]. split; by eapply space_bytes.
Qed.

(** C30. A parsed program that has no D, or no command that lengthens the pattern
    space, terminates on every finite input: as many turns as there are bytes. *)
Theorem sed_terminates {RE : Type} `{Regexp RE} useERE script prog rest suppressPrint ctxErr fm source e :
  parseScript useERE script = Ret prog rest -> without prog isRestart \/ without prog isGrowing ->
  exists res, processReader prog suppressPrint ctxErr fm (length (data source) + 2) (length (data source) + 2) source e = Some res.
Proof.
  intros Hp Ht. apply parsed_valid, proj1 in Hp. unfold processReader.
  assert (unread (newLineReader source) <= S (length (data source))) as Hu.
  { etransitivity; [apply advance_unread|]. apply cost_le. }
  apply (lineLoop_returns prog suppressPrint ctxErr fm Hp Ht); cbn; lia.
Qed.

End SedSafe.
