(* ===== verification/SedCmd.v ===== *)
(** The sed command (builtins/sed/sed.go) and in-place editing (engine.go): the
    bounded buffers, the identity pin raced against the context, the write back
    with its restore, the loop over the operands. *)

From S2P Require Import Prelude GoStd Utf8 BoundedReplace GoRegexp SedParse SedSubst SedEngine.
From stdpp Require Import base list strings gmap.
From Stdlib Require Import ZArith Lia Ascii.

Module SedCmd.
Import GoStd Utf8 BoundedReplace GoRegexp SedParse SedSubst SedEngine.

Definition MaxInPlaceOutputBytes : Z := Z.shiftl 256 20.
Definition readChunkBytes : Z := 32 * 1024.
Definition maxOutstandingPinOpens : nat := 64.

(** ** Bounded buffers *)

Record boundedBuffer := mkBuffer { buf : bytes; overflow : bool }.

Definition Write (maxBytes : Z) (p : bytes) (b : boundedBuffer) : boundedBuffer :=
  if overflow b then b
  else if (maxBytes - len (buf b) <? len p)%Z then mkBuffer (buf b) true
  else mkBuffer (buf b ++ p) false.

(** ** The host *)

(** The identity of a file, what [os.SameFile] compares. *)
Abbreviation identity := nat.

(** An error of a write: whether it wraps [ErrWriteOutcomeUnknown]. *)
Record writeErr := mkWriteErr { outcomeUnknown : bool; writeMessage : bytes }.

Inductive readEnd := ReadEOF | ReadErr (e : bytes).

(** An open handle: what [Stat] answers, [None] when it has no such method, and
    the [n]th [Read] of at most so many bytes, [None] when it is no reader. *)
Record pin := mkPin {
  pinStat : option (bytes + (Z * identity));
  pinRead : option (nat -> Z -> bytes * option readEnd) }.

(** A goroutine raced against the context and a timer.  When the context or the
    timer wins, the result may be ready all the same. *)
Inductive race (A : Type) :=
| Finished (a : A)
| ContextDone (e : bytes) (ready : option A)
| TimedOut (ready : option A).
Arguments Finished {A}.
Arguments ContextDone {A}.
Arguments TimedOut {A}.

Inductive event :=
| EvOpen (file : bytes)
| EvClose
| EvAbandon                (* a goroutine left behind, which closes what it opened *)
| EvWrite (file data : bytes) (id : identity)
| EvErrf (s : bytes)
| EvUsage.

Inductive fileErr :=
| FRun (e : sedErr)
| FOpen (e : bytes) | FContext (e : bytes) | FSlots | FTimeout
| FNoIdentity | FStat (e : bytes) | FTooLarge | FNotReadable | FRead (e : bytes)
| FOverflow
| FWrite (w : writeErr) | FUnknown (w : writeErr) | FRestored (w : writeErr) | FRestoreFailed (w r : writeErr).

(** [errors.Is(err, ErrWriteOutcomeUnknown)] *)
Definition isUnknown (e : fileErr) : bool :=
  match e with
  | FWrite w | FUnknown w | FRestored w => outcomeUnknown w
  | FRestoreFailed w r => outcomeUnknown w || outcomeUnknown r
  | _ => false
  end.

(** What a reader delivers: its bytes, the error after them, whether it is a
    regular file. *)
Record source := mkSource { content : bytes; failure : option bytes; regular : bool }.

Definition scannerOf (s : source) : Scanner := mkScanner (content s) (ERead <$> failure s) None.

(** What the host answers, as functions of the events so far. *)
Record host := mkHost {
  ctxErr : nat -> option bytes;
  reaped : list event -> nat;    (* slots of abandoned goroutines that came back *)
  openPin : list event -> bytes -> race (bytes + pin);
  statReadRace : list event -> race unit;
  WriteRegularFile : list event -> bytes -> bytes -> identity -> bool * option writeErr;
  OpenFile : list event -> bytes -> bytes + source;
  Stdin : option source;
  PortableErr : fileErr -> bytes }.

(** The events, and the slots of [pinOpenSlots] taken. *)
Record world := mkWorld { events : list event; slots : nat }.

Definition emit (ev : event) (w : world) : world := mkWorld (events w ++ [ev]) (slots w).

(** The non-blocking send on [pinOpenSlots]. *)
Definition acquire (h : host) (w : world) : option world :=
  let taken := slots w - reaped h (events w) in
  if taken <? maxOutstandingPinOpens then Some (mkWorld (events w) (S taken)) else None.

Definition release (w : world) : world := mkWorld (events w) (pred (slots w)).

Section Command.
Context {RE : Type} `{Regexp RE}.
Variable h : host.

Abbreviation engine := (engine RE).

(** ** Reading the original *)

(** [openPinBounded]: an abandoned open keeps its slot. *)
Definition openPinBounded (file : bytes) (w : world) : (fileErr + pin) * world :=
  match acquire h w with
  | None => (inl FSlots, w)
  | Some w =>
      let w := emit (EvOpen file) w in
      let finish r := (match r with inl e => inl (FOpen e) | inr f => inr f end, release w) in
      match openPin h (events w) file with
      | Finished r | ContextDone _ (Some r) | TimedOut (Some r) => finish r
      | ContextDone e None => (inl (FContext e), emit EvAbandon w)
      | TimedOut None => (inl FTimeout, emit EvAbandon w)
      end
  end.

(** [readAllChunkedCancellable]; [n] reads were made, [polls] counts the answers of
    [ctx.Err].  [None]: the fuel ran out. *)
Fixpoint readAll (fuel : nat) (maxBytes : Z) (read : nat -> Z -> bytes * option readEnd) (n : nat) (b : boundedBuffer) (polls : nat)
    : option ((fileErr + bytes) * nat) :=
  match fuel with
  | 0 => None
  | S fuel =>
      if (len (buf b) <? maxBytes + 1)%Z then
        match ctxErr h polls with
        | Some e => Some (inl (FContext e), S polls)
        | None =>
            let want := Z.min readChunkBytes (maxBytes + 1 - len (buf b)) in
            let '(chunk, e) := read n want in
            let b := match chunk with [] => b | _ => Write maxBytes chunk b end in
            if match chunk with [] => false | _ => overflow b end then Some (inl FTooLarge, S polls)
            else
              match e with
              | Some ReadEOF => Some (inr (buf b), S polls)
              | Some (ReadErr e) => Some (inl (FRead e), S polls)
              | None => readAll fuel maxBytes read (S n) b (S polls)
              end
        end
      else Some (inr (buf b), polls)
  end.

(** [statAndReadSync]: the handle stays open on success only. *)
Definition statAndReadSync (fuel : nat) (maxBytes : Z) (f : pin) (st : bytes + (Z * identity)) (polls : nat)
    : option ((fileErr + (bytes * identity)) * nat) :=
  match st with
  | inl e => Some (inl (FStat e), polls)
  | inr (size, id) =>
      if (maxBytes <? size)%Z then Some (inl FTooLarge, polls)
      else
        match pinRead f with
        | None => Some (inl FNotReadable, polls)
        | Some read =>
            match readAll fuel maxBytes read 0 (mkBuffer [] false) polls with
            | None => None
            | Some (inl e, polls) => Some (inl e, polls)
            | Some (inr data, polls) => Some (inr (data, id), polls)
            end
        end
  end.

(** [statAndReadBounded] *)
Definition statAndReadBounded (fuel : nat) (maxBytes : Z) (f : pin) (st : bytes + (Z * identity)) (polls : nat) (w : world)
    : option ((fileErr + (bytes * identity)) * nat * world) :=
  match acquire h w with
  | None => Some (inl FSlots, polls, emit EvClose w)
  | Some w =>
      match statAndReadSync fuel maxBytes f st polls with
      | None => None
      | Some (r, polls) =>
          let finish := Some (r, polls, (match r with inl _ => emit EvClose | inr _ => id end) (release w)) in
          match statReadRace h (events w) with
          | Finished _ | ContextDone _ (Some _) | TimedOut _ => finish
          | ContextDone e None => Some (inl (FContext e), polls, emit EvAbandon w)
          end
      end
  end.

Definition readAllBounded (fuel : nat) (maxBytes : Z) (file : bytes) (polls : nat) (w : world)
    : option ((fileErr + (bytes * identity)) * nat * world) :=
  match openPinBounded file w with
  | (inl e, w) => Some (inl e, polls, w)
  | (inr f, w) =>
      match pinStat f with
      | None => Some (inl FNoIdentity, polls, emit EvClose w)
      | Some st => statAndReadBounded fuel maxBytes f st polls w
      end
  end.

(** ** Writing back *)

Definition write (file data : bytes) (id : identity) (w : world) : (bool * option writeErr) * world :=
  (WriteRegularFile h (events w) file data id, emit (EvWrite file data id) w).

Definition writeBack (file new original : bytes) (id : identity) (polls : nat) (w : world) : option fileErr * nat * world :=
  match ctxErr h polls with
  | Some e => (Some (FContext e), S polls, w)
  | None =>
      let polls := S polls in
      match write file new id w with
      | ((_, None), w) => (None, polls, w)
      | ((mutated, Some werr), w) =>
          if negb mutated then (Some (FWrite werr), polls, w)
          else if outcomeUnknown werr then (Some (FUnknown werr), polls, w)
          else
            match write file original id w with
            | ((_, Some rerr), w) => (Some (FRestoreFailed werr rerr), polls, w)
            | ((_, None), w) => (Some (FRestored werr), polls, w)
            end
      end
  end.

(** ** One file *)

Section Files.
Context (prog : list (sedCmd RE)) (suppressPrint : bool).
(** Bounds on the turns of the loops. *)
Context (fuel turns : nat).

Definition setPolls (n : nat) (e : engine) : engine :=
  mkEngine (sp e) (ad e) (io e) (appendQueue e) (appendQueueBytes e) (subMade e) (lr e) n.

Definition endsUnterminated (original : bytes) : bool :=
  match original with [] => false | _ => negb (HasSuffix original [ch_nl]) end.

(** What the script makes of the bytes of a file: the error or quit, the output,
    the engine afterwards. *)
Definition rewrite_bytes (original : bytes) (e : engine) : option (option sedErr * boundedBuffer * engine) :=
  match processReader prog suppressPrint (ctxErr h) (mkMode true true true (endsUnterminated original)) fuel turns
          (mkScanner original None None) (setIo (mkOutput [] false) e) with
  | None => None
  | Some (err, e) => Some (err, fold_left (fun b p => Write MaxInPlaceOutputBytes p b) (written (io e)) (mkBuffer [] false), e)
  end.

(** An error that is no quit. *)
Definition hardError (err : option sedErr) : option sedErr :=
  match err with Some (EQuit _) => None | _ => err end.

(** The end of [processFileInPlace]: the output is complete, a quit commits it. *)
Definition commit (file original : bytes) (id : identity) (err : option sedErr) (b : boundedBuffer) (e : engine) (w : world)
    : option fileErr * engine * world :=
  if overflow b then (Some FOverflow, e, emit EvClose w)
  else
    match writeBack file (buf b) original id (polls e) w with
    | (Some werr, p, w) => (Some werr, setPolls p e, emit EvClose w)
    | (None, p, w) => (FRun <$> err, setPolls p e, emit EvClose w)
    end.

(** [processFileInPlace]; the standard output of the call is untouched. *)
Definition processFileInPlace (file : bytes) (e : engine) (w : world) : option (option fileErr * engine * world) :=
  let e := resetForNewFile e in
  match readAllBounded turns MaxInPlaceOutputBytes file (polls e) w with
  | None => None
  | Some (inl err, p, w) => Some (Some err, setPolls p e, w)
  | Some (inr (original, id), p, w) =>
      let out := io e in
      match rewrite_bytes original (setPolls p e) with
      | None => None
      | Some (err, b, e) =>
          let e := setIo out e in
          match hardError err with
          | Some x => Some (Some (FRun x), e, emit EvClose w)
          | None => Some (commit file original id err b e w)
          end
      end
  end.

(** [processFile] *)
Definition processFile (file : bytes) (isLastFile : bool) (e : engine) (w : world) : option (option fileErr * engine * world) :=
  let run (src : source) :=
    match processReader prog suppressPrint (ctxErr h) (mkMode (regular src) isLastFile false false) fuel turns (scannerOf src) e with
    | None => None
    | Some (err, e) => Some (FRun <$> err, e)
    end in
  if file =s "-" then
    match Stdin h with
    | None => Some (None, e, w)
    | Some src => match run src with None => None | Some (err, e) => Some (err, e, w) end
    end
  else
    let w := emit (EvOpen file) w in
    match OpenFile h (events w) file with
    | inl err => Some (Some (FOpen err), e, w)
    | inr src => match run src with None => None | Some (err, e) => Some (err, e, emit EvClose w) end
    end.

(** ** The operands *)

Definition Errf (s : bytes) : world -> world := emit (EvErrf s).

Definition reportFile (name : bytes) (err : fileErr) (w : world) : world :=
  Errf (lit "sed: " ++ name ++ lit ": " ++ PortableErr h err ++ [ch_nl]) w.

Fixpoint inPlaceLoop (files : list bytes) (failed : bool) (e : engine) (w : world) : option (Z * engine * world) :=
  match files with
  | [] => Some (if failed then 1%Z else 0%Z, e, w)
  | file :: files =>
      match ctxErr h (polls e) with
      | Some _ => Some (if failed then 1%Z else 0%Z, tick e, w)
      | None =>
          let e := tick e in
          if file =s "-" then inPlaceLoop files true e (Errf (lit "sed: -i: cannot edit standard input in place" ++ [ch_nl]) w)
          else
            match processFileInPlace file e w with
            | None => None
            | Some (None, e, w) => inPlaceLoop files failed e w
            | Some (Some (FRun (EQuit n)), e, w) => Some (if failed then 1%Z else n, e, w)
            | Some (Some err, e, w) =>
                let w := reportFile file err w in
                if isUnknown err then Some (1%Z, e, w) else inPlaceLoop files true e w
            end
      end
  end.

Fixpoint streamLoop (files : list bytes) (failed : bool) (e : engine) (w : world) : option (Z * engine * world) :=
  match files with
  | [] => Some (if failed then 1%Z else 0%Z, e, w)
  | file :: files =>
      match ctxErr h (polls e) with
      | Some _ => Some (if failed then 1%Z else 0%Z, tick e, w)
      | None =>
          let e := tick e in
          match processFile file (match files with [] => true | _ => false end) e w with
          | None => None
          | Some (None, e, w) => streamLoop files failed e w
          | Some (Some (FRun (EQuit n)), e, w) => Some (n, e, w)
          | Some (Some err, e, w) =>
              streamLoop files true e (reportFile (if file =s "-" then lit "standard input" else file) err w)
          end
      end
  end.

End Files.

(** ** The handler *)

Inductive access := ReadOnly | ReadWrite.

Record flags := mkFlags {
  inPlace : bool; help : bool; quiet : bool; silent : bool; expressions : list bytes; extendedE : bool; extendedR : bool }.

(** The call: the mode, whether there is a writer, the configured roots. *)
Record call := mkCall { RemediationMode : bool; hasWriter : bool; AllowedPathsList : option (list access) }.

Definition hasWritableRoot (c : call) : bool :=
  match AllowedPathsList c with
  | None => false
  | Some l => existsb (fun a => match a with ReadWrite => true | ReadOnly => false end) l
  end.

Definition readOnlyMessage : bytes := lit "sed: -i: in-place editing requires remediation mode" ++ [ch_nl].
Definition noWritableRootHint : bytes :=
  lit "sed: -i: no writable path is configured (remediation mode requires an AllowedPaths entry with :rw)" ++ [ch_nl].

Context (parseMessage : parseErr -> bytes) (fuel turns : nat).

Definition handler (f : flags) (c : call) (args : list bytes) (w : world) : option (Z * engine * world) :=
  let fail msg := Some (1%Z, newEngine, Errf msg w) in
  if inPlace f && negb (RemediationMode c) then fail readOnlyMessage
  else if inPlace f && (negb (hasWriter c) || negb (hasWritableRoot c)) then fail noWritableRootHint
  else if help f then Some (0%Z, newEngine, emit EvUsage w)
  else
    let run script files :=
      match parseScript (extendedE f || extendedR f) script with
      | NoFuel => None
      | Err e => fail (lit "sed: " ++ parseMessage e ++ [ch_nl])
      | Ret prog _ =>
          let suppressPrint := quiet f || silent f in
          if inPlace f then
            match files with
            | [] => fail (lit "sed: no input files" ++ [ch_nl])
            | _ => inPlaceLoop prog suppressPrint fuel turns files false newEngine w
            end
          else streamLoop prog suppressPrint fuel turns (match files with [] => [lit "-"] | _ => files end) false newEngine w
      end in
    match expressions f, args with
    | [], [] => fail (lit "sed: no script command has been specified" ++ [ch_nl])
    | [], script :: files => run script files
    | scripts, files => run (Join_sep ch_nl scripts) files
    end.

End Command.

End SedCmd.
