(* ===== verification/SedLines.v ===== *)
(** What sed does to a file, line by line: a program of unaddressed s and y
    commands maps a function over the lines and keeps every line ending. *)

From S2P Require Import Prelude GoStd Utf8 BoundedReplace GoRegexp SedParse SedSubst SedEngine SedRun SedScript SedSafe SedCmd.
From stdpp Require Import base list strings gmap.
From Stdlib Require Import ZArith Lia Ascii.

Module SedLines.
Import GoStd Utf8 BoundedReplace GoRegexp SedParse SedSubst SedEngine SedRun SedScript SedSafe SedCmd.

(** ** The abstract specification *)

(** [f] on every line of [data], after the bytes [cur] of the first one; a line
    keeps its newline, or the lack of one at the end. *)
Fixpoint onLines (f : bytes -> bytes) (cur data : bytes) : bytes :=
  match data with
  | [] => match cur with [] => [] | _ => f cur end
  | c :: data => if c =c ch_nl then f cur ++ ch_nl :: onLines f [] data else onLines f (cur ++ [c]) data
  end.

(** [P] of every line. *)
Fixpoint everyLine (P : bytes -> Prop) (cur data : bytes) : Prop :=
  match data with
  | [] => match cur with [] => True | _ => P cur end
  | c :: data => if c =c ch_nl then P cur /\ everyLine P [] data else everyLine P (cur ++ [c]) data
  end.

Section Lines.
Context {RE : Type} `{Regexp RE}.

(** The effect of a command on one line, [None] when it fails. *)
Definition lineCommand (k : cmdType RE) (s : bytes) : option bytes :=
  match k with
  | cmdSubstitute c =>
      match subRe c with
      | None => None
      | Some re =>
          if negb (substituteFits re s c MaxSpaceBytes) then None
          else match substitute re s c with
               | None => Some s
               | Some r => if (MaxSpaceBytes <? len r)%Z then None else Some r
               end
      end
  | cmdTransliterate m => Some (transliterate s m)
  | _ => None
  end.

(** Programs of s, without p, and y, without addresses. *)
Definition lineLocal (c : sedCmd RE) : Prop :=
  match c with
  | Cmd h (cmdSubstitute s) => addr1 h = None /\ negated h = false /\ subPrint s = false
  | Cmd h (cmdTransliterate _) => addr1 h = None /\ negated h = false
  | _ => False
  end.

Fixpoint lineMap (prog : list (sedCmd RE)) (s : bytes) : option bytes :=
  match prog with
  | [] => Some s
  | Cmd _ k :: prog => match lineCommand k s with Some r => lineMap prog r | None => None end
  | Group _ _ :: _ => None
  end.

Definition mapped (prog : list (sedCmd RE)) (s : bytes) : bytes := match lineMap prog s with Some r => r | None => s end.

(** A line the scanner delivers and the program accepts. *)
Definition lineFine (prog : list (sedCmd RE)) (s : bytes) : Prop :=
  (len s < MaxLineBytes)%Z /\ is_Some (lineMap prog s).

(** ** One line *)

Variables (fm : fileMode) (ctx : nat -> option bytes).
Hypothesis live : forall n, ctx n = None.

(** The parts of the state that a line-local program leaves alone. *)
Definition keeps (e e' : engine RE) : Prop :=
  io e' = io e /\ lr e' = lr e /\ appendQueue e' = appendQueue e /\ patternSpaceChomped (sp e') = patternSpaceChomped (sp e).

Lemma address_none (h : header RE) ps a : addr1 h = None -> negated h = false -> addressMatch h ps a = (true, a).
Proof. intros Ha Hn. unfold addressMatch, rawAddressMatch. by rewrite Ha, Hn. Qed.

Lemma lineCommand_exec branch h k e r : lineLocal (Cmd h k) -> emptyReErr (ad e) = false -> lineCommand k (patternSpace (sp e)) = Some r ->
  exists e', guarded h (execOne false fm branch h k) e = (inr actionContinue, e') /\
    patternSpace (sp e') = r /\ keeps e e' /\ emptyReErr (ad e') = false.
Proof.
  intros Hl He Hr. unfold guarded. destruct k; try done.
  - destruct Hl as (Ha & Hn & Hp). rewrite address_none by done. rewrite He. cbn [execOne].
    unfold execSubstitute. cbn [lineCommand] in Hr. destruct (subRe s) as [re|]; [|done]. cbn in Hr |- *.
    destruct (substituteFits re (patternSpace (sp e)) s MaxSpaceBytes); cbn [negb] in *; [|done].
    destruct (substitute re (patternSpace (sp e)) s) as [res|].
    + destruct (_ <? _)%Z; [done|]. injection Hr as <-. rewrite Hp. eexists. split; [done|]. by split_and!.
    + injection Hr as <-. eexists. split; [done|]. by split_and!.
  - destruct Hl as (Ha & Hn). rewrite address_none by done. rewrite He. cbn [execOne].
    injection Hr as <-. eexists. split; [done|]. by split_and!.
Qed.

Lemma execSeq_lines branch prog : Forall lineLocal prog -> forall e r, emptyReErr (ad e) = false ->
  lineMap prog (patternSpace (sp e)) = Some r ->
  exists e', execSeq (execCmd false ctx fm branch) prog e = (inr actionContinue, e') /\
    patternSpace (sp e') = r /\ keeps e e' /\ emptyReErr (ad e') = false.
Proof.
  induction 1 as [|c prog Hc Hp IH]; intros e r He Hr; cbn [execSeq lineMap] in *.
  { injection Hr as <-. by exists e. }
  destruct c as [h k|h children]; [|done].
  destruct (lineCommand k (patternSpace (sp e))) as [r1|] eqn:Ek; [|done].
  destruct (lineCommand_exec branch h k (tick e) r1 Hc He Ek) as (e1 & E1 & Eps & (K1 & K2 & K3 & K4) & Hre).
  destruct (IH e1 r Hre) as (e' & E' & Er & (K1' & K2' & K3' & K4') & Hre'); [by rewrite Eps|].
  exists e'. split_and!; [|done| |done].
  - cbn [execCmd]. rewrite live. destruct k; try done; rewrite E1; exact E'.
  - cbn in *. split_and!; congruence.
Qed.

(** ** One cycle *)

Lemma cycle_lines prog fuel e r : Forall lineLocal prog -> emptyReErr (ad e) = false ->
  lineMap prog (patternSpace (sp e)) = Some r ->
  exists e', runCycle prog false ctx fm (S fuel) e = Some (None, e') /\
    io e' = writeLine fm r (patternSpaceChomped (sp e)) (io e) /\ lr e' = lr e /\ emptyReErr (ad e') = false.
Proof.
  intros Hp He Hr. unfold runCycle. cbn [cycleLoop execCmds].
  destruct (execSeq_lines (branchTo prog (execCmds prog false ctx fm MaxBranchIterations)) prog Hp (clearQueue (setSubMade false e)) r He Hr)
    as (e1 & -> & Eps & (K1 & K2 & K3 & K4) & Hre).
  eexists. split; [done|]. cbn in *. rewrite Eps, K1, K2, K3, K4. by split_and!.
Qed.

(** ** The reader *)

Definition readerAt (r : lineReader) (d : bytes) : Prop :=
  sc r = snd (Scan (mkScanner d None None)) /\ nextLine r = fst (Scan (mkScanner d None None)).

Lemma newLineReader_at d : readerAt (newLineReader (mkScanner d None None)) d.
Proof. unfold newLineReader, readerAt, advance. cbn [sc]. destruct (Scan _) as [[l|] s']; by split. Qed.

Abbreviation firstLine d := (take (run_length notNewline d) d).
Abbreviation restLines d := (drop (S (run_length notNewline d)) d).

Lemma readerAt_next r d : readerAt r d -> d <> [] -> (len (firstLine d) < MaxLineBytes)%Z ->
  exists r', readLine r = (Some (firstLine d), r') /\ readerAt r' (restLines d).
Proof.
  intros [Es En] Hd Hl. unfold Scan in *. cbn [data readErr scErr] in *. destruct d as [|c d]; [done|].
  unfold len in Hl. rewrite length_take_le in Hl by apply run_length_le.
  rewrite (proj2 (Z.leb_gt _ _) Hl) in Es, En. cbn [fst snd] in *. unfold readLine. rewrite En.
  eexists. split; [done|]. unfold advance, readerAt. rewrite Es. destruct (Scan _) as [[l|] s']; by split.
Qed.

Lemma readerAt_end r : readerAt r [] -> readLine r = (None, r) /\ scErr (sc r) = None.
Proof. intros [Es En]. cbn in *. unfold readLine. rewrite En, Es. done. Qed.

Lemma readerAt_last r d : readerAt r d -> (d <> [] -> (len (firstLine d) < MaxLineBytes)%Z) -> isLast r = match d with [] => true | _ => false end.
Proof.
  intros [Es En] Hl. unfold isLast. rewrite En. unfold Scan. cbn [data]. destruct d as [|c d]; [done|].
  specialize (Hl ltac:(done)). unfold len in Hl. rewrite length_take_le in Hl by apply run_length_le.
  by rewrite (proj2 (Z.leb_gt _ _) Hl).
Qed.

(** ** Lines of a text *)

Lemma run_cons c d : run_length notNewline (c :: d) = if c =c ch_nl then 0 else S (run_length notNewline d).
Proof. cbn [run_length]. unfold notNewline at 1. by destruct (c =c ch_nl). Qed.

Lemma split_line d : d <> [] ->
  (d = firstLine d /\ restLines d = [] /\ forall P cur, everyLine P cur d <-> P (cur ++ firstLine d)) \/
  (d = firstLine d ++ ch_nl :: restLines d /\ forall P cur, everyLine P cur d <-> P (cur ++ firstLine d) /\ everyLine P [] (restLines d)).
Proof.
  induction d as [|c d IH]; [done|]. intros _. rewrite run_cons. cbn [everyLine].
  destruct (Ascii.eqb_spec c ch_nl) as [->|Hc].
  - right. cbn [take drop app]. split; [done|]. intros P cur. by rewrite app_nil_r.
  - cbn [take]. change (drop (S (S (run_length notNewline d))) (c :: d)) with (restLines d).
    destruct d as [|c' d].
    + left. cbn. split_and!; [done..|]. intros P cur. by destruct (cur ++ [c]) eqn:E; [destruct cur|].
    + destruct (IH ltac:(done)) as [(E1 & E2 & E3)|(E1 & E3)].
      * left. split_and!; [by f_equal|done|]. intros P cur. rewrite E3. by rewrite <- app_assoc.
      * right. split; [cbn [app]; by f_equal|]. intros P cur. rewrite E3. by rewrite <- app_assoc.
Qed.

Lemma onLines_split f d : d <> [] -> forall cur,
  onLines f cur d = f (cur ++ firstLine d) ++ (if decide (d = firstLine d) then [] else ch_nl :: onLines f [] (restLines d)).
Proof.
  induction d as [|c d IH]; [done|]. intros _ cur. rewrite run_cons. cbn [onLines].
  destruct (Ascii.eqb_spec c ch_nl) as [->|Hc].
  - cbn [take drop]. rewrite decide_False by done. by rewrite app_nil_r.
  - cbn [take]. change (drop (S (S (run_length notNewline d))) (c :: d)) with (restLines d). destruct d as [|c' d].
    + cbn [run_length take onLines]. rewrite decide_True, app_nil_r by done. by destruct (cur ++ [c]) eqn:E; [destruct cur|].
    + rewrite IH by done. rewrite <- app_assoc. f_equal.
      destruct (decide (c' :: d = firstLine (c' :: d))) as [E|E].
      * rewrite decide_True by (by f_equal). done.
      * rewrite decide_False; [done|]. intros [= E']. by apply E.
Qed.

Lemma firstLine_clean d : Forall (fun c => c <> ch_nl) (firstLine d).
Proof.
  induction d as [|c d IH]; [constructor|]. rewrite run_cons. destruct (Ascii.eqb_spec c ch_nl) as [->|Hc]; constructor; done.
Qed.

Lemma ends_clean d : d <> [] -> d = firstLine d -> endsUnterminated d = true.
Proof.
  intros Hd E. unfold endsUnterminated. assert (HasSuffix d [ch_nl] = false) as Hs.
  { apply not_true_iff_false. rewrite HasSuffix_true. intros [t Et]. pose proof (firstLine_clean d) as Hc.
    rewrite <- E, Et, Forall_app in Hc. destruct Hc as [_ Hc]. by apply Forall_cons in Hc as [? _]. }
  rewrite Hs. by destruct d.
Qed.

Lemma ends_rest s t : endsUnterminated (s ++ ch_nl :: t) = match t with [] => false | _ => endsUnterminated t end.
Proof.
  unfold endsUnterminated. destruct (s ++ ch_nl :: t) eqn:Es; [by destruct s|]. rewrite <- Es. clear Es.
  destruct t as [|c t].
  - rewrite (proj2 (HasSuffix_true _ _)); [done|]. by exists s.
  - f_equal. destruct (HasSuffix (c :: t) [ch_nl]) eqn:Et.
    + apply HasSuffix_true in Et as [u ->]. apply HasSuffix_true. exists (s ++ ch_nl :: u). by rewrite <- app_assoc.
    + apply not_true_iff_false. rewrite HasSuffix_true. intros [u Hu]. apply not_true_iff_false in Et. apply Et, HasSuffix_true.
      destruct (exists_last (l := c :: t) ltac:(done)) as (v & x & Ev). rewrite Ev in *.
      change (s ++ ch_nl :: v ++ [x]) with (s ++ (ch_nl :: v) ++ [x]) in Hu. rewrite app_assoc in Hu.
      apply app_inj_tail in Hu as [_ ->]. by exists v.
Qed.

(** ** The whole text *)

Lemma writeLine_closed s o : pendingMissingNewline o = false -> 
  writeLine fm s true o = mkOutput (written o ++ [s; [ch_nl]]) false.
Proof.
  intros Hp. unfold writeLine, flushPendingMissingNewline, Out. rewrite Hp. cbn. rewrite orb_true_r, Hp, <- app_assoc. done.
Qed.

Lemma writeLine_open s o : trackMissingNewline fm = true -> pendingMissingNewline o = false ->
  writeLine fm s false o = mkOutput (written o ++ [s]) true.
Proof. intros Ht Hp. unfold writeLine, flushPendingMissingNewline, Out. rewrite Hp, Ht. done. Qed.

Lemma mjoin_snoc2 (l : list bytes) a b : mjoin (l ++ [a; b]) = mjoin l ++ a ++ b.
Proof. induction l as [|x l IH]; [cbn; by rewrite app_nil_r|]. cbn [app]. change (mjoin (x :: l ++ [a; b])) with (x ++ mjoin (l ++ [a; b])). by rewrite IH, app_assoc. Qed.

Lemma mjoin_snoc (l : list bytes) a : mjoin (l ++ [a]) = mjoin l ++ a.
Proof. induction l as [|x l IH]; [cbn; by rewrite app_nil_r|]. cbn [app]. change (mjoin (x :: l ++ [a])) with (x ++ mjoin (l ++ [a])). by rewrite IH, app_assoc. Qed.

Hypothesis editing : isRegularFile fm = true /\ isLastFile fm = true /\ trackMissingNewline fm = true.

Lemma lineLoop_lines prog fuel : Forall lineLocal prog -> forall turns d e, length d < turns ->
  readerAt (lr e) d -> everyLine (lineFine prog) [] d -> emptyReErr (ad e) = false -> pendingMissingNewline (io e) = false ->
  (d <> [] -> finalRecordUnterminated fm = endsUnterminated d) ->
  exists e', lineLoop prog false ctx fm (S fuel) turns e = Some (None, e') /\
    mjoin (written (io e')) = mjoin (written (io e)) ++ onLines (mapped prog) [] d.
Proof.
  intros Hprog. destruct editing as (Ereg & Elast & Etrack).
  induction turns as [|turns IH]; intros d e Ht Hr Hd He Hp Hu; [lia|]. cbn [lineLoop]. rewrite live. cbn [lr tick].
  destruct (decide (d = [])) as [->|Hne].
  { destruct (readerAt_end (lr e) Hr) as [-> ->]. eexists. split; [done|]. cbn. by rewrite app_nil_r. }
  assert (lineFine prog (firstLine d) /\ everyLine (lineFine prog) [] (restLines d)) as [[Hlen [r Hmap]] Hrest].
  { destruct (split_line d Hne) as [(_ & -> & E)|(_ & E)]; by apply E in Hd. }
  destruct (readerAt_next (lr e) d Hr Hne Hlen) as (r' & -> & Hr').
  assert (restLines d <> [] -> (len (firstLine (restLines d)) < MaxLineBytes)%Z) as Hnext.
  { intros Hn. destruct (split_line _ Hn) as [(_ & _ & E)|(_ & E)]; apply E in Hrest; apply Hrest. }
  pose proof (readerAt_last r' _ Hr' Hnext) as Hlast.
  unfold checkLimit. rewrite Ereg. cbn [negb andb].
  destruct (cycle_lines prog fuel (setPattern (firstLine d) (computeChomped fm r') (countLine fm r' (tick e))) r) as (e1 & -> & Eio & Elr & Ere); [done..|].
  cbn in Eio, Elr.
  assert (computeChomped fm r' = negb (if decide (d = firstLine d) then true else false)) as Ech.
  { unfold computeChomped. rewrite Etrack, Elast, Hlast, andb_true_r. f_equal. rewrite Hu by done.
    destruct (decide (d = firstLine d)) as [E|E].
    - rewrite ends_clean by done. destruct (split_line d Hne) as [(_ & -> & _)|(E' & _)]; [done|].
      exfalso. pose proof (firstLine_clean d) as Hc. rewrite <- E in Hc. rewrite E', Forall_app in Hc. destruct Hc as [_ Hc].
      by apply Forall_cons in Hc as [? _].
    - destruct (split_line d Hne) as [(E' & _)|(E' & _)]; [done|]. rewrite (f_equal endsUnterminated E'), ends_rest.
      destruct (restLines d); done. }
  rewrite onLines_split by done. cbn [app]. unfold mapped at 1. rewrite Hmap.
  assert (length (restLines d) < turns) as Htr.
  { rewrite length_drop. destruct d; [done|]. cbn [length] in *. lia. }
  rewrite Ech in Eio. destruct (decide (d = firstLine d)) as [E|E]; cbn [negb] in Eio.
  - rewrite writeLine_open in Eio by done.
    assert (restLines d = []) as Erest.
    { destruct (split_line d Hne) as [(_ & ? & _)|(E' & _)]; [done|]. exfalso. pose proof (firstLine_clean d) as Hc.
      rewrite <- E in Hc. rewrite E', Forall_app in Hc. destruct Hc as [_ Hc]. by apply Forall_cons in Hc as [? _]. }
    rewrite Erest in *. destruct turns as [|turns]; [lia|]. cbn [lineLoop]. rewrite live. cbn [lr tick]. rewrite Elr.
    destruct (readerAt_end r' Hr') as [-> ->]. eexists. split; [done|]. cbn. rewrite Eio. cbn [written].
    by rewrite mjoin_snoc, app_nil_r.
  - rewrite writeLine_closed in Eio by done.
    destruct (IH (restLines d) e1) as (e' & -> & Ew); [done|by rewrite Elr|done|done|by rewrite Eio| |].
    + intros Hn. rewrite Hu by done. destruct (split_line d Hne) as [(_ & ? & _)|(E' & _)]; [done|].
      rewrite (f_equal endsUnterminated E'), ends_rest. by destruct (restLines d).
    + eexists. split; [done|]. rewrite Ew, Eio. cbn [written]. rewrite mjoin_snoc2, <- !app_assoc. done.
Qed.

End Lines.

End SedLines.
