(* ===== verification/SedInPlace.v ===== *)
(** In-place editing: what reaches a file is the whole output of the script on the
    whole original, or the original again, or nothing. *)

From S2P Require Import Prelude GoStd Utf8 BoundedReplace GoRegexp SedParse SedSubst SedEngine SedRun SedScript SedSafe SedCmd SedLines.
From stdpp Require Import base list strings gmap.
From Stdlib Require Import ZArith Lia Ascii.

Module SedInPlace.
Import GoStd Utf8 BoundedReplace GoRegexp SedParse SedSubst SedEngine SedRun SedScript SedSafe SedCmd SedLines.

(** ** Buffers *)

Lemma Write_full maxBytes chunks x : fold_left (fun b p => Write maxBytes p b) chunks (mkBuffer x true) = mkBuffer x true.
Proof. induction chunks as [|q chunks IH]; [done|]. exact IH. Qed.

Lemma Write_step maxBytes p b : overflow b = false ->
  Write maxBytes p b = if (maxBytes - len (buf b) <? len p)%Z then mkBuffer (buf b) true else mkBuffer (buf b ++ p) false.
Proof. intros Ho. unfold Write. by rewrite Ho. Qed.

(** The buffer holds everything, or knows that it does not. *)
Lemma Write_fold maxBytes chunks : forall b, overflow b = false -> (len (buf b) <= maxBytes)%Z ->
  let b' := fold_left (fun b p => Write maxBytes p b) chunks b in
  if (len (buf b ++ mjoin chunks) <=? maxBytes)%Z then b' = mkBuffer (buf b ++ mjoin chunks) false else overflow b' = true.
Proof.
  induction chunks as [|p chunks IH]; intros b Ho Hb; cbn [fold_left].
  { change (mjoin []) with (@nil ascii). rewrite app_nil_r, (proj2 (Z.leb_le _ _)) by done. destruct b as [x o]. cbn in *. by subst o. }
  change (mjoin (p :: chunks)) with (p ++ mjoin chunks). rewrite (Write_step maxBytes p b Ho).
  destruct (Z.ltb_spec (maxBytes - len (buf b)) (len p)) as [Hbig|Hfit].
  - rewrite (proj2 (Z.leb_gt _ _)) by (unfold len in *; rewrite !length_app; lia). by rewrite Write_full.
  - specialize (IH (mkBuffer (buf b ++ p) false) eq_refl). cbn [buf] in IH. rewrite <- app_assoc in IH. apply IH.
    unfold len in *. rewrite length_app. lia.
Qed.

(** ** Specification of one edit *)

Section Edit.
Context {RE : Type} `{Regexp RE}.
Variables (h : host) (prog : list (sedCmd RE)) (suppressPrint : bool) (fuel turns : nat).

(** Everything the handle delivers from its [n]th read on. *)
Inductive reads (read : nat -> Z -> bytes * option readEnd) : nat -> bytes -> Prop :=
| reads_end n want chunk : read n want = (chunk, Some ReadEOF) -> reads read n chunk
| reads_more n want chunk rest : read n want = (chunk, None) -> reads read (S n) rest -> reads read n (chunk ++ rest).

(** The open delivered a handle, in time or just too late. *)
Definition opened (evs : list event) (file : bytes) (f : pin) : Prop :=
  match openPin h evs file with
  | Finished (inr f') | ContextDone _ (Some (inr f')) | TimedOut (Some (inr f')) => f' = f
  | _ => False
  end.

Record edit := mkEdit { original : bytes; new : bytes; target : identity; verdict : option sedErr }.

(** [new] is the whole output of the script on the whole content of the opened
    file, within the limit. *)
Definition is_edit (evs : list event) (file : bytes) (e : engine RE) (d : edit) : Prop :=
  exists f size read n e', opened evs file f /\ pinStat f = Some (inr (size, target d)) /\ pinRead f = Some read /\
    reads read 0 (original d) /\ (len (original d) <= MaxInPlaceOutputBytes)%Z /\
    rewrite_bytes h prog suppressPrint fuel turns (original d) (setPolls n (resetForNewFile e)) = Some (verdict d, mkBuffer (new d) false, e') /\
    hardError (verdict d) = None.

(** Errors that mean that nothing was written. *)
Definition untouched (err : fileErr) : bool :=
  match err with
  | FRun (EQuit _) | FWrite _ | FUnknown _ | FRestored _ | FRestoreFailed _ _ => false
  | _ => true
  end.

(** The events of one file: no write, or one of the whole result, or that and one
    of the whole original; always to the file that was read, which stays open. *)
Inductive transcript (evs : list event) (file : bytes) (e : engine RE) : option fileErr -> list event -> Prop :=
| tr_untouched err tail : untouched err = true ->
    tail = [] \/ tail = [EvOpen file] \/ tail = [EvOpen file; EvAbandon] \/ tail = [EvOpen file; EvClose] ->
    transcript evs file e (Some err) tail
| tr_committed d m : is_edit (evs ++ [EvOpen file]) file e d ->
    WriteRegularFile h (evs ++ [EvOpen file]) file (new d) (target d) = (m, None) ->
    transcript evs file e (FRun <$> verdict d) [EvOpen file; EvWrite file (new d) (target d); EvClose]
| tr_failed d w : is_edit (evs ++ [EvOpen file]) file e d ->
    WriteRegularFile h (evs ++ [EvOpen file]) file (new d) (target d) = (false, Some w) ->
    transcript evs file e (Some (FWrite w)) [EvOpen file; EvWrite file (new d) (target d); EvClose]
| tr_unknown d w : is_edit (evs ++ [EvOpen file]) file e d ->
    WriteRegularFile h (evs ++ [EvOpen file]) file (new d) (target d) = (true, Some w) -> outcomeUnknown w = true ->
    transcript evs file e (Some (FUnknown w)) [EvOpen file; EvWrite file (new d) (target d); EvClose]
| tr_restored d w m r : is_edit (evs ++ [EvOpen file]) file e d ->
    WriteRegularFile h (evs ++ [EvOpen file]) file (new d) (target d) = (true, Some w) -> outcomeUnknown w = false ->
    WriteRegularFile h (evs ++ [EvOpen file; EvWrite file (new d) (target d)]) file (original d) (target d) = (m, r) ->
    transcript evs file e (Some (match r with None => FRestored w | Some r => FRestoreFailed w r end))
      [EvOpen file; EvWrite file (new d) (target d); EvWrite file (original d) (target d); EvClose].

(** ** The read *)

Lemma readAll_reads k maxBytes read : forall n b polls dat p, (len (buf b) <= maxBytes)%Z -> overflow b = false ->
  readAll h k maxBytes read n b polls = Some (inr dat, p) -> 
  (exists rest, dat = buf b ++ rest /\ reads read n rest) /\ (len dat <= maxBytes)%Z.
Proof.
  induction k as [|k IH]; intros n b polls dat p Hb Ho; cbn [readAll]; [done|].
  rewrite (proj2 (Z.ltb_lt _ _)) by lia. destruct (ctxErr h polls); [done|].
  set (want := Z.min readChunkBytes (maxBytes + 1 - len (buf b))). destruct (read n want) as [chunk e] eqn:Er.
  assert (forall b', b' = match chunk with [] => b | _ => Write maxBytes chunk b end ->
    (match chunk with [] => false | _ => overflow b' end) = false ->
    overflow b' = false /\ buf b' = buf b ++ chunk /\ (len (buf b') <= maxBytes)%Z) as Hw.
  { intros b' -> Hf. destruct chunk as [|c chunk]; [by rewrite app_nil_r|]. unfold Write in *. rewrite Ho in *.
    destruct (Z.ltb_spec (maxBytes - len (buf b)) (len (c :: chunk))); cbn [buf overflow] in *; [done|].
    split_and!; [done|done|]. unfold len in *. rewrite length_app. lia. }
  set (b' := match chunk with [] => b | _ => Write maxBytes chunk b end) in *. specialize (Hw b' eq_refl).
  destruct (match chunk with [] => false | _ => overflow b' end); [done|]. destruct (Hw eq_refl) as (Ho' & Eb & Hl).
  destruct e as [[|e]|].
  - intros [= <- <-]. rewrite Eb in *. split; [|done]. exists chunk. split; [done|]. by eapply reads_end.
  - done.
  - intros Hrec. destruct (IH (S n) b' _ dat p Hl Ho' Hrec) as [(rest & -> & Hr) Hlen]. split; [|done].
    exists (chunk ++ rest). rewrite Eb, app_assoc. split; [done|]. by eapply reads_more.
Qed.

Lemma acquire_some w w' : acquire h w = Some w' -> events w' = events w /\ slots w' <= maxOutstandingPinOpens.
Proof. unfold acquire. destruct (Nat.ltb_spec (slots w - reaped h (events w)) maxOutstandingPinOpens); [|done]. intros [= <-]. cbn [events slots]. split; [done|lia]. Qed.

(** What the read leaves behind. *)
Definition read_outcome (evs : list event) (file : bytes) (r : fileErr + (bytes * identity)) (tail : list event) : Prop :=
  match r with
  | inl err => untouched err = true /\
      (tail = [] \/ tail = [EvOpen file] \/ tail = [EvOpen file; EvAbandon] \/ tail = [EvOpen file; EvClose])
  | inr (dat, id) => tail = [EvOpen file] /\
      exists f size read, opened (evs ++ [EvOpen file]) file f /\ pinStat f = Some (inr (size, id)) /\ pinRead f = Some read /\
        reads read 0 dat /\ (len dat <= MaxInPlaceOutputBytes)%Z
  end.

Lemma openPin_spec file w r w' : openPinBounded h file w = (r, w') -> slots w <= maxOutstandingPinOpens ->
  slots w' <= maxOutstandingPinOpens /\ exists tail, events w' = events w ++ tail /\
  match r with
  | inl err => untouched err = true /\ (tail = [] \/ tail = [EvOpen file] \/ tail = [EvOpen file; EvAbandon])
  | inr f => tail = [EvOpen file] /\ opened (events w ++ [EvOpen file]) file f
  end.
Proof.
  unfold openPinBounded. destruct (acquire h w) as [w1|] eqn:Ea; intros Hr Hs.
  2: { injection Hr as <- <-. split; [done|]. exists []. rewrite app_nil_r. split; [done|]. split; [done|by left]. }
  destruct (acquire_some w w1 Ea) as [Ee Hs1].
  assert (events (emit (EvOpen file) w1) = events w ++ [EvOpen file]) as Eev by (cbn; by rewrite Ee).
  rewrite Eev in Hr. 
  assert (forall a : bytes + pin, (match a with inl e => inl (FOpen e) | inr f => inr f end, release (emit (EvOpen file) w1)) = (r, w') ->
    (forall f, a = inr f -> opened (events w ++ [EvOpen file]) file f) ->
    slots w' <= maxOutstandingPinOpens /\ exists tail, events w' = events w ++ tail /\
    match r with
    | inl err => untouched err = true /\ (tail = [] \/ tail = [EvOpen file] \/ tail = [EvOpen file; EvAbandon])
    | inr f => tail = [EvOpen file] /\ opened (events w ++ [EvOpen file]) file f
    end) as Hfin.
  { intros a [= <- <-] Hf. cbn [release slots emit events]. split; [lia|]. exists [EvOpen file]. rewrite Ee. split; [done|].
    destruct a as [err|f]; [split; [done|by right; left]|split; [done|by apply Hf]]. }
  destruct (openPin h _ file) as [a|x [a|]|[a|]] eqn:Ep.
  - apply (Hfin a Hr). intros f ->. unfold opened. by rewrite Ep.
  - apply (Hfin a Hr). intros f ->. unfold opened. by rewrite Ep.
  - injection Hr as <- <-. cbn. split; [done|]. exists [EvOpen file; EvAbandon]. rewrite Ee, <- app_assoc. split; [done|]. split; [done|by right; right].
  - apply (Hfin a Hr). intros f ->. unfold opened. by rewrite Ep.
  - injection Hr as <- <-. cbn. split; [done|]. exists [EvOpen file; EvAbandon]. rewrite Ee, <- app_assoc. split; [done|]. split; [done|by right; right].
Qed.

Lemma readAllBounded_spec file polls w r p w' : readAllBounded h turns MaxInPlaceOutputBytes file polls w = Some (r, p, w') ->
  slots w <= maxOutstandingPinOpens ->
  slots w' <= maxOutstandingPinOpens /\ exists tail, events w' = events w ++ tail /\ read_outcome (events w) file r tail.
Proof.
  unfold readAllBounded. destruct (openPinBounded h file w) as [[err|f] w1] eqn:Eo; intros Hr Hs;
    destruct (openPin_spec file w _ w1 Eo Hs) as (Hs1 & tail & Ee & Ht).
  { injection Hr as <- <- <-. split; [done|]. exists tail. split; [done|]. destruct Ht as [? Ht]. split; [done|].
    destruct Ht as [?|[?|?]]; tauto. }
  destruct Ht as [-> Hop].
  assert (forall err, untouched err = true -> Some (inl err, polls, emit EvClose w1) = Some (r, p, w') -> 
    slots w' <= maxOutstandingPinOpens /\ exists tail, events w' = events w ++ tail /\ read_outcome (events w) file r tail) as Hclose.
  { intros err He [= <- <- <-]. cbn. split; [done|]. exists [EvOpen file; EvClose]. rewrite Ee, <- app_assoc. split; [done|].
    split; [done|]. by right; right; right. }
  destruct (pinStat f) as [st|] eqn:Est; [|by apply (Hclose FNoIdentity)].
  unfold statAndReadBounded in Hr. destruct (acquire h w1) as [w2|] eqn:Ea; [|by apply (Hclose FSlots)].
  destruct (acquire_some w1 w2 Ea) as [Ee2 Hs2].
  destruct (statAndReadSync h turns MaxInPlaceOutputBytes f st polls) as [[r1 p1]|] eqn:Esync; [|done].
  assert (match r1 with
    | inl err => untouched err = true
    | inr (dat, id) => exists size read, st = inr (size, id) /\ pinRead f = Some read /\ reads read 0 dat /\ (len dat <= MaxInPlaceOutputBytes)%Z
    end) as Hsync.
  { unfold statAndReadSync in Esync. destruct st as [err|[size id]]; [by injection Esync as <- <-|].
    destruct (_ <? size)%Z; [by injection Esync as <- <-|]. destruct (pinRead f) as [read|]; [|by injection Esync as <- <-].
    destruct (readAll _ _ _ _ _ _ _) as [[[err|dat] p2]|] eqn:Era; [..|done]; injection Esync as <- <-.
    - clear -Era. revert Era. generalize (mkBuffer [] false) 0 polls.
      induction turns as [|k IH]; intros b n q; cbn [readAll]; [done|]. destruct (_ <? _)%Z; [|done].
      destruct (ctxErr h q); [by intros [= <- <-]|]. destruct (read n _) as [chunk e].
      destruct (match chunk with [] => false | _ => _ end); [by intros [= <- <-]|].
      destruct e as [[|e]|]; [done|by intros [= <- <-]|apply IH].
    - destruct (readAll_reads turns MaxInPlaceOutputBytes read 0 (mkBuffer [] false) polls dat p2 ltac:(done) eq_refl Era) as [(rest & -> & Hrd) Hl].
      by exists size, read. }
  assert (Some (r1, p1, (match r1 with inl _ => emit EvClose | inr _ => id end) (release w2)) = Some (r, p, w') ->
    slots w' <= maxOutstandingPinOpens /\ exists tail, events w' = events w ++ tail /\ read_outcome (events w) file r tail) as Hfin.
  { intros [= <- <- <-]. destruct r1 as [err|[dat id]]; cbn; (split; [lia|]).
    - exists [EvOpen file; EvClose]. rewrite Ee2, Ee, <- app_assoc. split; [done|]. split; [done|by right; right; right].
    - exists [EvOpen file]. rewrite Ee2, Ee. split; [done|]. split; [done|]. destruct Hsync as (size & read & -> & Hrest).
      exists f, size, read. split; [done|]. by split. }
  destruct (statReadRace h (events w2)) as [u|x [u|]|[u|]]; try (by apply Hfin).
  injection Hr as <- <- <-. cbn. split; [done|]. exists [EvOpen file; EvAbandon]. rewrite Ee2, Ee, <- app_assoc. split; [done|].
  split; [done|by right; right; left].
Qed.

(** ** The write *)

Lemma rewrite_buffer orig e err b e' : rewrite_bytes h prog suppressPrint fuel turns orig e = Some (err, b, e') -> overflow b = false ->
  b = mkBuffer (buf b) false.
Proof. intros _ Ho. destruct b as [x o]. cbn in *. by subst o. Qed.

Lemma writeBack_spec file nw orig ident polls w r p w' : writeBack h file nw orig ident polls w = (r, p, w') ->
  slots w' = slots w /\
  ((untouched (default FSlots r) = true /\ r <> None /\ events w' = events w) \/
   (exists m, WriteRegularFile h (events w) file nw ident = (m, None) /\ r = None /\ events w' = events w ++ [EvWrite file nw ident]) \/
   (exists x, WriteRegularFile h (events w) file nw ident = (false, Some x) /\ r = Some (FWrite x) /\ events w' = events w ++ [EvWrite file nw ident]) \/
   (exists x, WriteRegularFile h (events w) file nw ident = (true, Some x) /\ outcomeUnknown x = true /\
      r = Some (FUnknown x) /\ events w' = events w ++ [EvWrite file nw ident]) \/
   (exists x m y, WriteRegularFile h (events w) file nw ident = (true, Some x) /\ outcomeUnknown x = false /\
      WriteRegularFile h (events w ++ [EvWrite file nw ident]) file orig ident = (m, y) /\
      r = Some (match y with None => FRestored x | Some y => FRestoreFailed x y end) /\
      events w' = events w ++ [EvWrite file nw ident; EvWrite file orig ident])).
Proof.
  unfold writeBack, write. destruct (ctxErr h polls); [intros [= <- <- <-]; split; [done|by left]|].
  destruct (WriteRegularFile h (events w) file nw ident) as [m [x|]] eqn:E1.
  2: { intros [= <- <- <-]. split; [done|]. right; left. by exists m. }
  destruct m; cbn [negb].
  2: { intros [= <- <- <-]. split; [done|]. right; right; left. by exists x. }
  destruct (outcomeUnknown x) eqn:Eu.
  { intros [= <- <- <-]. split; [done|]. right; right; right; left. by exists x. }
  cbn [events emit]. destruct (WriteRegularFile h (events w ++ _) file orig ident) as [m2 [y|]] eqn:E2; intros [= <- <- <-];
    (split; [done|]); right; right; right; right.
  - exists x, m2, (Some y). cbn. by rewrite <- app_assoc.
  - exists x, m2, None. cbn. by rewrite <- app_assoc.
Qed.

Lemma inplace_commit_run file e w res e' w' :
  slots w <= maxOutstandingPinOpens ->
  processFileInPlace h prog suppressPrint fuel turns file e w = Some (res, e', w') ->
  slots w' <= maxOutstandingPinOpens /\ written (io e') = written (io e) /\
  exists tail, events w' = events w ++ tail /\ transcript (events w) file e res tail.
Proof.
  intros Hs. unfold processFileInPlace.
  destruct (readAllBounded h turns MaxInPlaceOutputBytes file _ w) as [[[r p] w1]|] eqn:Er; [|done].
  destruct (readAllBounded_spec _ _ _ _ _ _ Er Hs) as (Hs1 & tail & Ee & Ht).
  destruct r as [err|[orig ident]].
  { intros [= <- <- <-]. split; [done|]. split; [done|]. exists tail. split; [done|]. by apply tr_untouched; destruct Ht. }
  destruct Ht as (-> & f & size & read & Hop & Hst & Hpr & Hrd & Hlen).
  destruct (rewrite_bytes h prog suppressPrint fuel turns orig _) as [[[err b] e1]|] eqn:Ew; [|done].
  assert (forall x q, untouched x = true -> Some (Some x, setPolls q (setIo (io (resetForNewFile e)) e1), emit EvClose w1) = Some (res, e', w') ->
    slots w' <= maxOutstandingPinOpens /\ written (io e') = written (io e) /\
    exists tail, events w' = events w ++ tail /\ transcript (events w) file e res tail) as Hclose.
  { intros x q Hx [= <- <- <-]. split; [done|]. split; [done|]. exists [EvOpen file; EvClose]. cbn. rewrite Ee, <- app_assoc.
    split; [done|]. apply tr_untouched; [done|by right; right; right]. }
  destruct (hardError err) as [x|] eqn:Eq; [apply (Hclose (FRun x) (polls e1)); destruct err as [[]|]; try discriminate Eq; by injection Eq as <-|].
  unfold commit. destruct (overflow b) eqn:Eo; [by apply (Hclose FOverflow (polls e1))|].
  rewrite (rewrite_buffer _ _ _ _ _ Ew Eo) in Ew.
  destruct (writeBack h file (buf b) orig ident _ w1) as [[r q] w2] eqn:Ewb.
  destruct (writeBack_spec _ _ _ _ _ _ _ _ _ Ewb) as [Hs2 Hcases]. rewrite Ee in Hcases.
  set (d := mkEdit orig (buf b) ident err).
  assert (is_edit (events w ++ [EvOpen file]) file e d) as Hd.
  { exists f, size, read, p, e1. by split_and!. }
  intros Hres.
  assert (slots w' <= maxOutstandingPinOpens /\ written (io e') = written (io e)) as [Hs' Hw'].
  { destruct r; injection Hres as <- <- <-; cbn; by rewrite Hs2. }
  split; [done|]. split; [done|].
  assert (events w' = events w2 ++ [EvClose]) as Eev by (by destruct r; injection Hres as <- <- <-).
  destruct Hcases as [(Hun & Hnn & Ev)|[(m & E1 & -> & Ev)|[(x & E1 & -> & Ev)|[(x & E1 & Eu & -> & Ev)|(x & m & y & E1 & Eu & E2 & -> & Ev)]]]];
    rewrite Eev, Ev, <- ?app_assoc; cbn [app].
  - destruct r as [x|]; [|done]. injection Hres as <- <- <-. exists [EvOpen file; EvClose]. split; [done|].
    apply tr_untouched; [done|by right; right; right].
  - injection Hres as <- <- <-. eexists. split; [done|]. by apply (tr_committed _ _ _ d m).
  - injection Hres as <- <- <-. eexists. split; [done|]. by apply (tr_failed _ _ _ d).
  - injection Hres as <- <- <-. eexists. split; [done|]. by apply (tr_unknown _ _ _ d).
  - injection Hres as <- <- <-. eexists. split; [done|]. rewrite <- app_assoc in E2. by apply (tr_restored _ _ _ d x m y).
Qed.

(** C27. In-place editing writes to a file nothing, or the whole output of the
    script on the whole original, or after a known failure the whole original
    again; a success or a quit means the new content was written.  The writes are
    pinned to the file that was read, whose handle is open until after them and
    closed at the end; no other output is produced, and at most 64 opens are
    outstanding. *)
Theorem sed_inplace_commit file e w res e' w' :
  slots w <= maxOutstandingPinOpens ->
  processFileInPlace h prog suppressPrint fuel turns file e w = Some (res, e', w') ->
  slots w' <= maxOutstandingPinOpens /\ written (io e') = written (io e) /\
  exists tail, events w' = events w ++ tail /\ transcript (events w) file e res tail.
Proof. apply inplace_commit_run. Qed.

End Edit.

End SedInPlace.
