(* ===== verification/SedTop.v ===== *)
(** The sed command as a whole: line-wise meaning in place, identity, safety of
    the handler; and concrete runs of sed, the witnesses of its theorems and the
    behaviours that differ from what its comments say. *)

From S2P Require Import Prelude GoStd BoundedReplace GoRegexp Utf8 SedParse SedSubst SedSize SedEngine SedRun SedScript SedSafe SedCmd SedLines SedInPlace.
From stdpp Require Import base list strings gmap.
From Stdlib Require Import ZArith Lia Ascii.

Module SedTop.
Import GoStd Utf8 BoundedReplace GoRegexp SedParse SedSubst SedSize SedEngine SedRun SedScript SedSafe SedCmd SedLines SedInPlace.

(** ** Line by line *)

Section LineMap.
Context {RE : Type} `{Regexp RE}.
Variables (h : host) (prog : list (sedCmd RE)) (fuel turns : nat).
Hypothesis live : forall n, ctxErr h n = None.

Lemma rewrite_lines orig e :
  Forall lineLocal prog -> everyLine (lineFine prog) [] orig -> (len (onLines (mapped prog) [] orig) <= MaxInPlaceOutputBytes)%Z ->
  length orig < turns -> emptyReErr (ad e) = false ->
  exists e', rewrite_bytes h prog false (S fuel) turns orig e = Some (None, mkBuffer (onLines (mapped prog) [] orig) false, e').
Proof.
  intros Hp Hl Hsize Ht He. unfold rewrite_bytes, processReader. set (fm := mkMode true true true (endsUnterminated orig)).
  destruct (lineLoop_lines fm (ctxErr h) live (conj eq_refl (conj eq_refl eq_refl)) prog fuel Hp turns orig
    (setReader (newLineReader (mkScanner orig None None)) (setIo (mkOutput [] false) e))) as (e' & -> & Ew);
    [done|apply newLineReader_at|done|done|done|done|].
  cbn in Ew. exists e'. f_equal. f_equal. f_equal.
  pose proof (Write_fold MaxInPlaceOutputBytes (written (io e')) (mkBuffer [] false) eq_refl ltac:(done)) as Hf. cbn [buf app] in Hf.
  rewrite Ew in Hf. by rewrite (proj2 (Z.leb_le _ _) Hsize) in Hf.
Qed.

Lemma inplace_lines file e w orig id p w1 m :
  Forall lineLocal prog -> emptyReErr (ad e) = false ->
  readAllBounded h turns MaxInPlaceOutputBytes file (polls e) w = Some (inr (orig, id), p, w1) ->
  length orig < turns -> everyLine (lineFine prog) [] orig -> (len (onLines (mapped prog) [] orig) <= MaxInPlaceOutputBytes)%Z ->
  WriteRegularFile h (events w1) file (onLines (mapped prog) [] orig) id = (m, None) ->
  exists e', processFileInPlace h prog false (S fuel) turns file e w =
    Some (None, e', emit EvClose (emit (EvWrite file (onLines (mapped prog) [] orig) id) w1)).
Proof.
  intros Hp He Hr Ht Hl Hsize Hw. unfold processFileInPlace. cbn [polls resetForNewFile]. rewrite Hr.
  destruct (rewrite_lines orig (setPolls p (resetForNewFile e)) Hp Hl Hsize Ht He) as (e1 & ->).
  cbn [hardError]. unfold commit. cbn [overflow buf]. unfold writeBack, write. rewrite live, Hw. by eexists.
Qed.

(** A program of unaddressed s (with an expression, without p) and y commands,
    run in place, writes exactly the original with each line replaced by what the
    commands make of it one after the other; every line keeps its newline, and a
    missing last newline stays missing. *)
Theorem sed_line_map file e w orig id p w1 m :
  Forall lineLocal prog -> emptyReErr (ad e) = false ->
  readAllBounded h turns MaxInPlaceOutputBytes file (polls e) w = Some (inr (orig, id), p, w1) ->
  length orig < turns -> everyLine (lineFine prog) [] orig -> (len (onLines (mapped prog) [] orig) <= MaxInPlaceOutputBytes)%Z ->
  WriteRegularFile h (events w1) file (onLines (mapped prog) [] orig) id = (m, None) ->
  exists e', processFileInPlace h prog false (S fuel) turns file e w =
    Some (None, e', emit EvClose (emit (EvWrite file (onLines (mapped prog) [] orig) id) w1)).
Proof. apply inplace_lines. Qed.

End LineMap.

(** The identity on every line is the identity. *)
Lemma onLines_id f : (forall s, f s = s) -> forall d cur, onLines f cur d = cur ++ d.
Proof.
  intros Hf d. induction d as [|c d IH]; intros cur; cbn [onLines]; [rewrite app_nil_r; destruct cur; [done|apply Hf]|].
  destruct (Ascii.eqb_spec c ch_nl) as [->|Hc]; [by rewrite Hf, IH|]. by rewrite IH, <- app_assoc.
Qed.

Lemma everyLine_impl (P Q : bytes -> Prop) : (forall s, P s -> Q s) -> forall d cur, everyLine P cur d -> everyLine Q cur d.
Proof.
  intros Hpq d. induction d as [|c d IH]; intros cur; cbn [everyLine]; [destruct cur; [done|apply Hpq]|].
  destruct (c =c ch_nl); [|apply IH]. intros [? ?]. split; [by apply Hpq|by apply IH].
Qed.

(** The empty program in place writes back the very bytes it read, whatever
    they are and however the last line ends, if lines are shorter than 1 MiB. *)
Theorem sed_identity {RE : Type} `{Regexp RE} h fuel turns file (e : engine RE) w orig id p w1 m :
  (forall n, ctxErr h n = None) -> emptyReErr (ad e) = false ->
  readAllBounded h turns MaxInPlaceOutputBytes file (polls e) w = Some (inr (orig, id), p, w1) ->
  length orig < turns -> (len orig <= MaxInPlaceOutputBytes)%Z -> everyLine (fun s => len s < MaxLineBytes)%Z [] orig ->
  WriteRegularFile h (events w1) file orig id = (m, None) ->
  exists e', processFileInPlace h [] false (S fuel) turns file e w =
    Some (None, e', emit EvClose (emit (EvWrite file orig id) w1)).
Proof.
  intros Hlive He Hr Ht Hsize Hl Hw.
  assert (onLines (mapped (RE := RE) []) [] orig = orig) as Eid by (by apply onLines_id).
  pose proof (inplace_lines h [] fuel turns Hlive file e w orig id p w1 m) as Hi. rewrite Eid in Hi.
  apply Hi; try done. eapply everyLine_impl; [|exact Hl]. intros s Hs. split; [exact Hs|by exists s].
Qed.

(** ** The handler *)

Section Handler.
Context {RE : Type} `{Regexp RE}.
Variables (h : host) (fuel turns : nat).

(** Only the operands are written. *)
Definition writes_only (files : list bytes) (tail : list event) : Prop :=
  forall file dat id, EvWrite file dat id ∈ tail -> file ∈ files.

Definition grown (files : list bytes) (w w' : world) : Prop := exists tail, events w' = events w ++ tail /\ writes_only files tail.

Lemma grown_refl files w : grown files w w.
Proof. exists []. rewrite app_nil_r. split; [done|]. by intros ? ? ? ?%elem_of_nil. Qed.

Lemma grown_trans files w1 w2 w3 : grown files w1 w2 -> grown files w2 w3 -> grown files w1 w3.
Proof.
  intros (t1 & E1 & H1) (t2 & E2 & H2). exists (t1 ++ t2). rewrite E2, E1, app_assoc. split; [done|].
  intros file dat id [?|?]%elem_of_app; [by eapply H1|by eapply H2].
Qed.

Lemma grown_emit files ev w : (forall file dat id, ev <> EvWrite file dat id) -> grown files w (emit ev w).
Proof. intros Hev. exists [ev]. split; [done|]. intros file dat id Hin%list_elem_of_singleton. by destruct (Hev file dat id). Qed.

Lemma transcript_writes prog sp evs file (e : engine RE) res tail :
  transcript h prog sp fuel turns evs file e res tail -> writes_only [file] tail.
Proof.
  intros Ht f dat id Hin.
  destruct Ht as [err tail _ Htail| | | |]; [destruct Htail as [->|[->|[->| ->]]]|..];
  repeat (apply elem_of_cons in Hin as [Hin|Hin]; [first [discriminate Hin | injection Hin as -> -> ->; by left]|]);
  by apply elem_of_nil in Hin.
Qed.

Section Program.
Variables (prog : list (sedCmd RE)) (suppressPrint : bool).
Hypothesis valid : valid_program prog.

(** Exit codes that fit a byte. *)
Definition good_error (err : option fileErr) : Prop := forall n, err = Some (FRun (EQuit n)) -> (0 <= n < 256)%Z.

Lemma harmless_good err : (forall x, err = Some x -> harmless x) -> good_error (FRun <$> err).
Proof. intros Hx n Hn. destruct err as [x|]; [|done]. injection Hn as ->. by apply (Hx (EQuit n)). Qed.

Lemma processFileInPlace_safe file e w res e' w' : slots w <= maxOutstandingPinOpens -> engine_ok prog e ->
  processFileInPlace h prog suppressPrint fuel turns file e w = Some (res, e', w') ->
  slots w' <= maxOutstandingPinOpens /\ engine_ok prog e' /\ good_error res.
Proof.
  intros Hs He. apply resetForNewFile_ok in He. unfold processFileInPlace.
  destruct (readAllBounded h turns _ file _ w) as [[[r p] w1]|] eqn:Er; [|done].
  destruct (readAllBounded_spec _ _ _ _ _ _ _ _ Er Hs) as (Hs1 & tail & _ & Ht).
  destruct r as [err|[orig id]].
  { intros [= <- <- <-]. split; [done|]. split; [done|]. intros n [= ->]. by destruct Ht. }
  unfold rewrite_bytes. destruct (processReader _ _ _ _ _ _ _ _) as [[err e1]|] eqn:Ep; [|done].
  assert (forall x, scErr (mkScanner orig None None) = Some x \/ readErr (mkScanner orig None None) = Some x -> harmless x) as Hsrc.
  { by intros x [?|?]. }
  destruct (bounded_run prog suppressPrint (ctxErr h) _ valid _ _ _ (setIo (mkOutput [] false) (setPolls p (resetForNewFile e))) _ _ He Hsrc Ep) as [He1 Hx].
  destruct (hardError err) as [x|] eqn:Eh.
  { intros [= <- <- <-]. split; [done|]. split; [done|]. apply (harmless_good (Some x)). intros y [= <-]. apply Hx.
    destruct err as [[]|]; try discriminate Eh; exact Eh. }
  unfold commit. destruct (overflow _); [intros [= <- <- <-]; by split|].
  destruct (writeBack _ _ _ _ _ _ _) as [[r q] w2] eqn:Ew. destruct (writeBack_spec _ _ _ _ _ _ _ _ _ _ Ew) as [Hs2 Hcases].
  destruct r as [x|]; intros [= <- <- <-]; cbn; rewrite Hs2; (split; [done|]); (split; [done|]).
  - intros n [= ->]. destruct Hcases as [(? & _)|[(m & _ & [=] & _)|[(x & _ & [=] & _)|[(x & _ & _ & [=] & _)|(x & m & y & _ & _ & _ & Hy & _)]]]]; [done|].
    by destruct y.
  - by apply harmless_good.
Qed.

Lemma processFile_safe file isLast e w res e' w' : slots w <= maxOutstandingPinOpens -> engine_ok prog e ->
  processFile h prog suppressPrint fuel turns file isLast e w = Some (res, e', w') ->
  slots w' <= maxOutstandingPinOpens /\ engine_ok prog e' /\ good_error res /\ grown [] w w'.
Proof.
  intros Hs He. unfold processFile.
  assert (forall src err e1, processReader prog suppressPrint (ctxErr h) (mkMode (regular src) isLast false false) fuel turns (scannerOf src) e = Some (err, e1) ->
    engine_ok prog e1 /\ good_error (FRun <$> err)) as Hrun.
  { intros src err e1 Ep.
    assert (forall x, scErr (scannerOf src) = Some x \/ readErr (scannerOf src) = Some x -> harmless x) as Hsrc.
    { intros x [?|Hx]; [done|]. cbn in Hx. destruct (failure src); [by injection Hx as <-|done]. }
    destruct (bounded_run prog suppressPrint (ctxErr h) _ valid _ _ _ _ _ _ He Hsrc Ep) as [He1 Hx].
    split; [done|]. by apply harmless_good. }
  destruct (file =s "-").
  - destruct (Stdin h) as [src|]; [|intros [= <- <- <-]; split_and!; [done..|apply grown_refl]].
    destruct (processReader _ _ _ _ _ _ _ _) as [[err e1]|] eqn:Ep; [|done]. intros [= <- <- <-].
    destruct (Hrun _ _ _ Ep). split_and!; [done..|apply grown_refl].
  - destruct (OpenFile h _ file) as [x|src]; [intros [= <- <- <-]; split_and!; [done..|by apply grown_emit]|].
    destruct (processReader _ _ _ _ _ _ _ _) as [[err e1]|] eqn:Ep; [|done]. intros [= <- <- <-].
    destruct (Hrun _ _ _ Ep). split_and!; [done..|]. eapply grown_trans; by apply grown_emit.
Qed.

Lemma inPlaceLoop_safe all files : (forall x, x ∈ files -> x ∈ all) -> forall failed e w code e' w',
  slots w <= maxOutstandingPinOpens -> engine_ok prog e ->
  inPlaceLoop h prog suppressPrint fuel turns files failed e w = Some (code, e', w') ->
  (0 <= code < 256)%Z /\ grown all w w'.
Proof.
  induction files as [|file files IH]; intros Hsub failed e w code e' w' Hs He; cbn [inPlaceLoop].
  { intros [= <- <- <-]. split; [by destruct failed|apply grown_refl]. }
  destruct (ctxErr h (polls e)); [intros [= <- <- <-]; split; [by destruct failed|apply grown_refl]|].
  assert (forall x, x ∈ files -> x ∈ all) as Hsub' by (intros x Hx; apply Hsub; by right).
  assert (engine_ok prog (tick e)) as Het by exact He.
  destruct (file =s "-").
  { intros Hrec. edestruct (IH Hsub') as [? Hg]; [|exact Het|exact Hrec|]; [exact Hs|]. split; [done|].
    eapply grown_trans; [|exact Hg]. by apply grown_emit. }
  destruct (processFileInPlace h prog suppressPrint fuel turns file (tick e) w) as [[[res e1] w1]|] eqn:Ep; [|done].
  destruct (processFileInPlace_safe _ _ _ _ _ _ Hs Het Ep) as (Hs1 & He1 & Hgood).
  destruct (inplace_commit_run h prog suppressPrint fuel turns file (tick e) w res e1 w1 Hs Ep) as (_ & _ & tail & Ee & Htr).
  assert (grown all w w1) as Hg1.
  { exists tail. split; [done|]. intros f dat id Hin. pose proof (transcript_writes _ _ _ _ _ _ _ Htr f dat id Hin) as Hf.
    apply list_elem_of_singleton in Hf as ->. apply Hsub. by left. }
  assert (forall err, slots (reportFile h file err w1) <= maxOutstandingPinOpens /\ grown all w (reportFile h file err w1)) as Hrep.
  { intros err. split; [exact Hs1|]. eapply grown_trans; [exact Hg1|by apply grown_emit]. }
  assert (forall err, (if isUnknown err then Some (1%Z, e1, reportFile h file err w1) else inPlaceLoop h prog suppressPrint fuel turns files true e1 (reportFile h file err w1)) = Some (code, e', w') ->
    (0 <= code < 256)%Z /\ grown all w w') as Herr.
  { intros err. destruct (Hrep err) as [Hs2 Hg2]. destruct (isUnknown err); [by intros [= <- <- <-]|]. intros Hrec.
    destruct (IH Hsub' _ _ _ _ _ _ Hs2 He1 Hrec) as [? Hg]. split; [done|]. by eapply grown_trans. }
  destruct res as [err|].
  - destruct err as [x| | | | | | | | | | | | | |]; try (by apply Herr). destruct x; try (by apply Herr).
    intros [= <- <- <-]. split; [|done]. destruct failed; [done|]. by apply Hgood.
  - intros Hrec. destruct (IH Hsub' _ _ _ _ _ _ Hs1 He1 Hrec) as [? Hg]. split; [done|]. by eapply grown_trans.
Qed.

Lemma streamLoop_safe files : forall failed e w code e' w',
  slots w <= maxOutstandingPinOpens -> engine_ok prog e ->
  streamLoop h prog suppressPrint fuel turns files failed e w = Some (code, e', w') ->
  (0 <= code < 256)%Z /\ grown [] w w'.
Proof.
  induction files as [|file files IH]; intros failed e w code e' w' Hs He; cbn [streamLoop].
  { intros [= <- <- <-]. split; [by destruct failed|apply grown_refl]. }
  destruct (ctxErr h (polls e)); [intros [= <- <- <-]; split; [by destruct failed|apply grown_refl]|].
  assert (engine_ok prog (tick e)) as Het by exact He.
  destruct (processFile h prog suppressPrint fuel turns file _ (tick e) w) as [[[res e1] w1]|] eqn:Ep; [|done].
  destruct (processFile_safe _ _ _ _ _ _ _ Hs Het Ep) as (Hs1 & He1 & Hgood & Hg1).
  assert (forall err, streamLoop h prog suppressPrint fuel turns files true e1 (reportFile h (if file =s "-" then lit "standard input" else file) err w1) = Some (code, e', w') ->
    (0 <= code < 256)%Z /\ grown [] w w') as Herr.
  { intros err Hrec. edestruct IH as [? Hg]; [|exact He1|exact Hrec|]; [exact Hs1|]. split; [done|].
    eapply grown_trans; [exact Hg1|]. eapply grown_trans; [|exact Hg]. by apply grown_emit. }
  destruct res as [err|].
  - destruct err as [x| | | | | | | | | | | | | |]; try (by apply Herr). destruct x; try (by apply Herr).
    intros [= <- <- <-]. split; [by apply Hgood|done].
  - intros Hrec. destruct (IH _ _ _ _ _ _ Hs1 He1 Hrec) as [? Hg]. split; [done|]. by eapply grown_trans.
Qed.

End Program.

(** C28. The command writes to a file only with -i in remediation mode, with a
    writer and a writable root, and only to its operands; its exit code fits a
    byte. *)
Theorem sed_handler_safe parseMessage f c args w code e w' :
  slots w <= maxOutstandingPinOpens ->
  handler h parseMessage fuel turns f c args w = Some (code, e, w') ->
  (0 <= code < 256)%Z /\ exists tail, events w' = events w ++ tail /\
    forall file dat id, EvWrite file dat id ∈ tail ->
      inPlace f = true /\ RemediationMode c = true /\ hasWriter c = true /\ hasWritableRoot c = true /\ file ∈ args.
Proof.
  intros Hs. unfold handler.
  assert (forall w', grown [] w w' -> exists tail, events w' = events w ++ tail /\
    forall file dat id, EvWrite file dat id ∈ tail ->
      inPlace f = true /\ RemediationMode c = true /\ hasWriter c = true /\ hasWritableRoot c = true /\ file ∈ args) as Hnone.
  { intros w1 (tail & Ee & Hw). exists tail. split; [done|]. intros file dat id Hin. by apply Hw, elem_of_nil in Hin. }
  assert (forall msg, Some (1%Z, newEngine, Errf msg w) = Some (code, e, w') -> (0 <= code < 256)%Z /\ exists tail, events w' = events w ++ tail /\
    forall file dat id, EvWrite file dat id ∈ tail ->
      inPlace f = true /\ RemediationMode c = true /\ hasWriter c = true /\ hasWritableRoot c = true /\ file ∈ args) as Hfail.
  { intros msg [= <- <- <-]. split; [done|]. apply Hnone. by apply grown_emit. }
  destruct (inPlace f && negb (RemediationMode c)) eqn:E1; [apply Hfail|].
  destruct (inPlace f && (negb (hasWriter c) || negb (hasWritableRoot c))) eqn:E2; [apply Hfail|].
  destruct (help f); [intros [= <- <- <-]; split; [done|]; apply Hnone; by apply grown_emit|].
  assert (forall script files, (forall x, x ∈ files -> x ∈ args) ->
    match parseScript (extendedE f || extendedR f) script with
    | NoFuel => None
    | Err e => Some (1%Z, newEngine, Errf (lit "sed: " ++ parseMessage e ++ [ch_nl]) w)
    | Ret prog _ =>
        if inPlace f then
          match files with
          | [] => Some (1%Z, newEngine, Errf (lit "sed: no input files" ++ [ch_nl]) w)
          | _ => inPlaceLoop h prog (quiet f || silent f) fuel turns files false newEngine w
          end
        else streamLoop h prog (quiet f || silent f) fuel turns (match files with [] => [lit "-"] | _ => files end) false newEngine w
    end = Some (code, e, w') ->
    (0 <= code < 256)%Z /\ exists tail, events w' = events w ++ tail /\
    forall file dat id, EvWrite file dat id ∈ tail ->
      inPlace f = true /\ RemediationMode c = true /\ hasWriter c = true /\ hasWritableRoot c = true /\ file ∈ args) as Hrun.
  { intros script files Hsub. destruct (parseScript _ script) as [prog rest|x|] eqn:Ep; [|apply Hfail|done].
    apply parsed_valid in Ep. destruct (inPlace f) eqn:Ei.
    - destruct files as [|file files]; [apply Hfail|]. intros Hloop.
      destruct (inPlaceLoop_safe prog (quiet f || silent f) Ep args (file :: files) Hsub _ _ _ _ _ _ Hs (newEngine_ok prog) Hloop) as [Hc (tail & Ee & Hw)].
      split; [done|]. exists tail. split; [done|]. intros fl dat id Hin. split; [done|].
      cbn in E1, E2. apply negb_false_iff in E1. apply orb_false_iff in E2 as [E2%negb_false_iff E3%negb_false_iff].
      split_and!; try done. by eapply Hw.
    - intros Hloop.
      destruct (streamLoop_safe prog (quiet f || silent f) Ep _ _ _ _ _ _ _ Hs (newEngine_ok prog) Hloop) as [Hc Hg]. split; [done|by apply Hnone]. }
  destruct (expressions f) as [|x scripts] eqn:Ex.
  - destruct args as [|script files]; [apply Hfail|]. apply Hrun. intros y Hy. by right.
  - destruct args as [|a args]; [by apply (Hrun _ [])|by apply (Hrun _ (a :: args))].
Qed.

End Handler.

End SedTop.

(** ** Concrete runs *)

Module SedWitness.
Import GoStd Utf8 BoundedReplace GoRegexp SedParse SedSubst SedSize SedEngine SedRun SedScript SedSafe SedCmd SedLines SedInPlace SedTop.

#[local] Existing Instance byte_regexp.

(** The program of a script, over single-byte expressions. *)
Definition program (script : bytes) : list (sedCmd ascii) :=
  match parseScript true script with Ret p _ => p | _ => [] end.

Definition nl : string := String ch_nl EmptyString.

Definition streaming : fileMode := mkMode true true false false.

(** Standard output of a script over an input. *)
Definition output_of (script input : bytes) (quiet : bool) (fuel turns : nat) : option (option sedErr * bytes) :=
  match processReader (program script) quiet (fun _ => None) streaming fuel turns (mkScanner input None None) newEngine with
  | Some (err, e) => Some (err, mjoin (written (io e)))
  | None => None
  end.

(** ** Runs *)

Definition loopScript : bytes := lit ":a;s/a/x/;ta".

Lemma loop_parsed : parseScript (RE := ascii) true loopScript = Ret (program loopScript) [].
Proof. vm_compute. reflexivity. Qed.

(** [:a;s/a/x/;ta] replaces the letters of [banana] one by one, then stops. *)
Lemma sed_run_safe_witness : exists e,
  processReader (program loopScript) false (fun _ => None) streaming 2 3 (mkScanner (lit "banana") None None) newEngine = Some (None, e) /\
  written (io e) = [lit "bxnxnx"; [ch_nl]] /\ engine_ok (program loopScript) e.
Proof.
  destruct (processReader (program loopScript) false (fun _ => None) streaming 2 3 (mkScanner (lit "banana") None None) newEngine) as [[err e]|] eqn:E;
    [|vm_compute in E; discriminate E].
  assert (forall x, scErr (mkScanner (lit "banana") None None) = Some x \/ readErr (mkScanner (lit "banana") None None) = Some x -> harmless x) as Hsrc.
  { intros x [Hx|Hx]; discriminate Hx. }
  pose proof (sed_run_safe true loopScript (program loopScript) [] false (fun _ => None) streaming 2 3 _ _ err e
    loop_parsed (newEngine_ok _) Hsrc E) as [Hok _].
  exists e. vm_compute in E. injection E as <- <-. split; [reflexivity|]. split; [reflexivity|exact Hok].
Defined.

Lemma sed_terminates_witness : exists res,
  processReader (program loopScript) false (fun _ => None) streaming 8 8 (mkScanner (lit "banana") None None) newEngine = Some res.
Proof.
  apply (sed_terminates true loopScript (program loopScript) [] false (fun _ => None) streaming (mkScanner (lit "banana") None None) newEngine loop_parsed).
  left. intros h k Hin. cbn in Hin.
  repeat (apply elem_of_cons in Hin as [Hin|Hin]; [by injection Hin as -> ->|]). by apply elem_of_nil in Hin.
Defined.

(** ** Editing a file *)

(** A host with one file: two reads, and writes that answer as given. *)
Definition oneFile (content : bytes) (write1 write2 : bool * option writeErr) : host := {|
  ctxErr _ := None; reaped _ := 0;
  openPin _ _ := Finished (inr (mkPin (Some (inr (len content, 7)))
    (Some (fun n _ => match n with 0 => (content, None) | _ => ([], Some ReadEOF) end))));
  statReadRace _ := Finished tt;
  WriteRegularFile evs _ _ _ := match evs with [_] => write1 | _ => write2 end;
  OpenFile _ _ := inl []; Stdin := None; PortableErr _ := lit "error" |}.

Definition start : world := mkWorld [] 0.
Definition name : bytes := lit "f".
Definition ok : bool * option writeErr := (true, None).
Definition broken : bool * option writeErr := (true, Some (mkWriteErr false (lit "disk full"))).

Definition upper : list (sedCmd ascii) := program (lit "s/a/A/g;y/n/N/").

Definition twoLines : bytes := lit "banana" ++ ch_nl :: lit "ant".
Definition twoLinesEdited : bytes := lit "bANANA" ++ ch_nl :: lit "ANt".

Lemma sed_line_map_witness : exists e,
  processFileInPlace (oneFile twoLines ok ok) upper false 1 20 name newEngine start =
  Some (None, e, mkWorld [EvOpen name; EvWrite name twoLinesEdited 7; EvClose] 0).
Proof.
  apply (sed_line_map (oneFile twoLines ok ok) upper 0 20 ltac:(reflexivity) name newEngine start twoLines 7 2 (mkWorld [EvOpen name] 0) true).
  - vm_compute. repeat constructor.
  - reflexivity.
  - vm_compute. reflexivity.
  - vm_compute. lia.
  - cbn [everyLine]. vm_compute. repeat split; eexists; reflexivity.
  - vm_compute. discriminate.
  - vm_compute. reflexivity.
Defined.

Lemma sed_identity_witness : exists e,
  processFileInPlace (oneFile twoLines ok ok) ([] : list (sedCmd ascii)) false 1 20 name newEngine start =
  Some (None, e, mkWorld [EvOpen name; EvWrite name twoLines 7; EvClose] 0).
Proof.
  apply (sed_identity (oneFile twoLines ok ok) 0 20 name newEngine start twoLines 7 2 (mkWorld [EvOpen name] 0) true).
  - reflexivity.
  - reflexivity.
  - vm_compute. reflexivity.
  - vm_compute. lia.
  - vm_compute. discriminate.
  - vm_compute. by split.
  - vm_compute. reflexivity.
Defined.

(** A full disk: the original is written again. *)
Lemma sed_inplace_commit_witness : exists e tail,
  processFileInPlace (oneFile twoLines broken ok) upper false 1 20 name newEngine start =
    Some (Some (FRestored (mkWriteErr false (lit "disk full"))), e, mkWorld tail 0) /\
  tail = [EvOpen name; EvWrite name twoLinesEdited 7; EvWrite name twoLines 7; EvClose] /\
  transcript (oneFile twoLines broken ok) upper false 1 20 [] name (newEngine (RE := ascii)) (Some (FRestored (mkWriteErr false (lit "disk full")))) tail.
Proof.
  destruct (processFileInPlace (oneFile twoLines broken ok) upper false 1 20 name newEngine start) as [[[res e] w]|] eqn:E;
    [|vm_compute in E; discriminate E].
  pose proof (sed_inplace_commit (oneFile twoLines broken ok) upper false 1 20 name newEngine start res e w ltac:(vm_compute; lia) E) as (_ & _ & tail & Ee & Htr).
  vm_compute in E. injection E as <- <- <-. cbn in Ee. subst tail.
  eexists _, _. split; [reflexivity|]. split; [reflexivity|exact Htr].
Defined.

Lemma sed_handler_safe_witness :
  (exists e w, handler (RE := ascii) (oneFile twoLines ok ok) (fun _ => []) 1 20 (mkFlags true false false false [] true false)
     (mkCall true true (Some [ReadWrite])) [lit "s/a/A/g;y/n/N/"; name] start = Some (0%Z, e, w) /\
   events w = [EvOpen name; EvWrite name twoLinesEdited 7; EvClose]) /\
  (0 <= 0 < 256)%Z.
Proof.
  destruct (handler (RE := ascii) (oneFile twoLines ok ok) (fun _ => []) 1 20 (mkFlags true false false false [] true false)
     (mkCall true true (Some [ReadWrite])) [lit "s/a/A/g;y/n/N/"; name] start) as [[[code e] w]|] eqn:E; [|vm_compute in E; discriminate E].
  assert (slots start <= maxOutstandingPinOpens) as Hs by (vm_compute; lia).
  pose proof (sed_handler_safe _ _ _ _ _ _ _ _ _ _ _ Hs E) as [Hcode _].
  vm_compute in E. injection E as <- <- <-. split; [|exact Hcode]. eexists _, _. by split.
Defined.

(** ** Divergences *)

(** A range that ends at a line number stays open when [N] skips that line: line
    5 is printed although the range is 1,3. *)
Lemma range_stays_open : output_of (lit "1,3p;N;N;N") (lit ("1" ++ nl ++ "2" ++ nl ++ "3" ++ nl ++ "4" ++ nl ++ "5" ++ nl ++ "6" ++ nl)) true 5 20 =
  Some (None, lit ("1" ++ nl ++ "5" ++ nl)).
Proof. vm_compute. reflexivity. Qed.

(** [y] replaces bytes that are no UTF-8 by U+FFFD, three bytes. *)
Lemma transliterate_corrupts : transliterate [byte 255; "a"%char] {[97%Z := 98%Z]} = [byte 239; byte 191; byte 189; "b"%char].
Proof. vm_compute. reflexivity. Qed.

(** A pattern space within the limit leaves it by [y] with a character of four
    bytes for [a]. *)
Lemma transliterate_exceeds (m : gmap Z Z := {[97%Z := 128512%Z]}) : exists s,
  (len s <= MaxSpaceBytes)%Z /\ (MaxSpaceBytes < len (transliterate s m))%Z.
Proof.
  assert (forall n, length (transliterate (replicate n "a"%char) m) = 4 * n) as Hlen.
  { intros n. unfold transliterate, EncodeRunes, runeValues. induction n as [|n IH]; [reflexivity|].
    cbn [replicate]. pose proof (runes_cut [] "a"%char (replicate n "a"%char) eq_refl) as Hc.
    change (runes []) with (@nil bytes) in Hc. cbn [app] in Hc. rewrite Hc. cbn [map].
    change (mjoin (?x :: ?l)) with (x ++ mjoin l). rewrite length_app, IH.
    replace (length (EncodeRune _)) with 4 by (vm_compute; reflexivity). lia. }
  exists (replicate (Z.to_nat 300000) "a"%char). unfold len. rewrite Hlen, length_replicate.
  change MaxSpaceBytes with 1048576%Z. lia.
Qed.

(** [l] prints the escapes of U+FFFD for such a byte. *)
Lemma unambiguous_corrupts : unambiguous 0 (runeValues [byte 255]) = lit "\357\277\275$".
Proof. vm_compute. reflexivity. Qed.

(** [y] does not read an escaped backslash as one character. *)
Lemma y_backslash_rejected : parseScript (RE := ascii) true (lit "y/\\/x/") = Err ELengths.
Proof. vm_compute. reflexivity. Qed.

(** [G;D] restarts for ever: the limit on branches does not count restarts. *)
Lemma restart_diverges fuel e : holdSpace (sp e) = [] -> patternSpace (sp e) = [] -> emptyReErr (ad e) = false ->
  cycleLoop (program (lit "G;D")) false (fun _ => None) streaming fuel e = None.
Proof.
  replace (program (lit "G;D")) with
    ([Cmd (mkHeader 3 None None false) cmdGetAppend; Cmd (mkHeader 1 None None false) cmdDeleteFirstLine] : list (sedCmd ascii))
    by (vm_compute; reflexivity).
  revert e. induction fuel as [|fuel IH]; intros e Hh Hp He; [done|]. cbn [cycleLoop execCmds execSeq execCmd].
  unfold guarded at 1. cbn [addressMatch rawAddressMatch addr1 negated sp ad tick]. rewrite He.
  cbn [execOne]. cbn [sp setAddressing tick]. rewrite Hh, Hp.
  change (MaxSpaceBytes <? len [] + 1 + len [])%Z with false. cbn [ad setPattern setAddressing tick polls].
  unfold guarded at 1. cbn [addressMatch rawAddressMatch addr1 negated sp ad tick]. cbn [ad setPattern setAddressing tick]. rewrite He. cbn [execOne].
  cbn [app sp setPattern setAddressing tick patternSpace IndexByte Ascii.eqb Bool.eqb].
  apply IH; cbn; done.
Qed.

End SedWitness.
