(* ===== verification/InterpSyntax.v ===== *)
(** * The shell syntax tree, as the interpreter reads it

    The tree is built by the third-party parser [mvdan.cc/sh/v3/syntax], so its
    nodes are a parameter: a type [Node] of node pointers with the view that
    the type switches of [interp/] take of one.  [nodeView] has a constructor
    per [case] of those switches, with the fields the code reads; every other
    node is [VOther] (or [VOtherCommand] when it is a [syntax.Command]).
    [Walk], [SplitBraces] and [Word.Lit] are functions of that library. *)

From S2P Require Import Prelude.
From stdpp Require Import base list strings.
From Stdlib Require Import ZArith Lia Ascii.

Module InterpSyntax.

Inductive redirOp :=
| RdrOut | AppOut | RdrIn | RdrInOut | DplIn | DplOut | ClbOut
| Hdoc | DashHdoc | WordHdoc | RdrAll | AppAll | OtherRedir.

Inductive binOp := AndStmt | OrStmt | Pipe | PipeAll.

#[export] Instance redirOp_eq_dec : EqDecision redirOp.
Proof. solve_decision. Defined.
#[export] Instance binOp_eq_dec : EqDecision binOp.
Proof. solve_decision. Defined.

(** The fields of [syntax.ParamExp] the validator and the expansion bounds
    read; a pointer that is only compared with nil is a boolean. *)
Record paramExp := mkParamExp {
  pe_Short : bool; pe_Length : bool; pe_Slice : bool; pe_Repl : bool; pe_Excl : bool;
  pe_Index : bool; pe_Names : bool; pe_Exp : bool; pe_Param : option bytes }.

Inductive loopView (N : Type) :=
| WordIter (Name : bytes) (InPosValid : bool) (Items : list N)
| OtherLoop.
Arguments WordIter {N} Name InPosValid Items.
Arguments OtherLoop {N}.

Inductive nodeView (N : Type) :=
| VFile (Stmts : list N)
| VStmt (Cmd : option N) (Redirs : list N) (Negated Background Coprocess Disown : bool)
| VCallExpr (Assigns Args : list N)
| VBinaryCmd (Op : binOp) (X Y : N)
| VIfClause (ThenPosValid : bool) (Cond Then : list N) (Else : option N)
| VWhileClause (Until : bool) (Cond Do : list N)
| VForClause (Select : bool) (Loop : loopView N) (Do : list N)
| VBlock (Stmts : list N)
| VSubshell (Stmts : list N)
| VCaseClause | VFuncDecl | VArithmCmd | VTestClause | VDeclClause (Variant : bytes)
| VLetClause | VTimeClause | VCoprocClause | VTestDecl
| VOtherCommand (T : bytes)
| VWord (Parts : list N)
| VLit (Value : bytes)
| VSglQuoted (Value : bytes)
| VDblQuoted (Parts : list N)
| VParamExp (pe : paramExp)
| VCmdSubst (Stmts : list N)
| VArithmExp | VProcSubst | VExtGlob
| VBraceExp (Sequence : bool) (Elems : list N)
| VRedirect (Op : redirOp) (Fd : option bytes) (Word HdocWord : option N)
| VAssign (Append : bool) (Name : bytes) (Value : option N) (Array Index : bool)
| VOther.
Arguments VFile {N}. Arguments VStmt {N}. Arguments VCallExpr {N}. Arguments VBinaryCmd {N}.
Arguments VIfClause {N}. Arguments VWhileClause {N}. Arguments VForClause {N}. Arguments VBlock {N}.
Arguments VSubshell {N}. Arguments VCaseClause {N}. Arguments VFuncDecl {N}. Arguments VArithmCmd {N}.
Arguments VTestClause {N}. Arguments VDeclClause {N}. Arguments VLetClause {N}. Arguments VTimeClause {N}.
Arguments VCoprocClause {N}. Arguments VTestDecl {N}. Arguments VOtherCommand {N}. Arguments VWord {N}.
Arguments VLit {N}. Arguments VSglQuoted {N}. Arguments VDblQuoted {N}. Arguments VParamExp {N}.
Arguments VCmdSubst {N}. Arguments VArithmExp {N}. Arguments VProcSubst {N}. Arguments VExtGlob {N}.
Arguments VBraceExp {N}. Arguments VRedirect {N}. Arguments VAssign {N}. Arguments VOther {N}.

(** The nodes a view exposes. *)
Definition exposes {N} (v : nodeView N) : list N :=
  match v with
  | VFile ss | VBlock ss | VSubshell ss | VCmdSubst ss => ss
  | VStmt c rs _ _ _ _ => option_list c ++ rs
  | VCallExpr az args => az ++ args
  | VBinaryCmd _ x y => [x; y]
  | VIfClause _ c t e => c ++ t ++ option_list e
  | VWhileClause _ c d => c ++ d
  | VForClause _ (WordIter _ _ items) d => items ++ d
  | VForClause _ OtherLoop d => d
  | VWord ps | VDblQuoted ps | VBraceExp _ ps => ps
  | VRedirect _ _ w h => option_list w ++ option_list h
  | VAssign _ _ v _ _ => option_list v
  | _ => []
  end.

(** What the interpreter relies on of the syntax library.  [Walk] is
    documented to call [f] on a node and, when [f] returns true, to walk its
    non-nil children in order; the state is what the closure [f] mutates.  A
    parsed tree is finite ([size]) and a node's children include every node
    its fields hold. *)
Class Syntax := {
  Node : Type;
  Node_eq_dec :: EqDecision Node;
  view : Node -> nodeView Node;
  children : Node -> list Node;
  Walk : forall S : Type, (Node -> S -> bool * S) -> Node -> S -> S;
  SplitBraces : Node -> bool * list Node;
  WordLit : Node -> bytes;
  size : Node -> nat;
  exposed_child : forall n c, c ∈ exposes (view n) -> c ∈ children n;
  children_size : forall n, sum_list_with size (children n) < size n;
  Walk_spec : forall (S : Type) (f : Node -> S -> bool * S) n s,
    Walk S f n s =
      (let (go, s') := f n s in
       if go then foldl (fun s c => Walk S f c s) s' (children n) else s') }.
Arguments Walk {_} S f n s.

Section Tree.
Context {SX : Syntax}.

Lemma sum_list_with_in {A} (f : A -> nat) l x : x ∈ l -> f x <= sum_list_with f l.
Proof. induction 1; cbn; lia. Qed.

Lemma list_max_map_in {A} (f : A -> nat) l x : x ∈ l -> f x <= list_max (map f l).
Proof. unfold list_max. induction 1; cbn; lia. Qed.

Lemma child_smaller n c : c ∈ children n -> size c < size n.
Proof. intros Hc. pose proof (sum_list_with_in size _ _ Hc). pose proof (children_size n). lia. Qed.

Definition Parts (w : Node) : list Node := match view w with VWord ps => ps | _ => [] end.

Definition litValue (n : Node) : option bytes := match view n with VLit v => Some v | _ => None end.

(** [m] is [n] or below it. *)
Inductive below (n : Node) : Node -> Prop :=
| below_here : below n n
| below_child c m : c ∈ children n -> below c m -> below n m.

Lemma below_trans n m k : below n m -> below m k -> below n k.
Proof. induction 1; [done|]. intros. econstructor; eauto. Qed.

(** Induction over a finite tree. *)
Lemma node_ind (P : Node -> Prop) :
  (forall n, (forall c, c ∈ children n -> P c) -> P n) -> forall n, P n.
Proof.
  intros Hstep n. remember (size n) as k eqn:Hk. revert n Hk.
  induction k as [k IH] using lt_wf_ind. intros n ->. apply Hstep. intros c Hc.
  apply (IH (size c)); [by apply child_smaller|done].
Qed.

End Tree.

(** ** A concrete tree

    Nodes are indices into a table of views; a view may only hold larger
    indices, so the table is a finite tree. *)
Section Table.
Context (table : list (nodeView nat)) (split : nat -> bool * list nat).

Definition tableView (i : nat) : nodeView nat :=
  match table !! i with
  | Some v => if forallb (fun c => (i <? c) && (c <? length table)) (exposes v) then v else VOther
  | None => VOther
  end.

Definition tableRank (i : nat) : nat := length table - i.

Definition tableChildren (i : nat) : list nat := exposes (tableView i).

Fixpoint tableSizeFuel (fuel i : nat) : nat :=
  match fuel with
  | 0 => 1
  | S fuel => S (sum_list_with (tableSizeFuel fuel) (tableChildren i))
  end.

Definition tableSize (i : nat) : nat := tableSizeFuel (tableRank i) i.

Fixpoint tableWalk (fuel : nat) (S : Type) (f : nat -> S -> bool * S) (n : nat) (s : S) : S :=
  let (go, s') := f n s in
  match fuel with
  | 0 => s'
  | Datatypes.S fuel =>
      if go then foldl (fun s c => tableWalk fuel S f c s) s' (tableChildren n) else s'
  end.

Lemma tableChildren_bound i c : c ∈ tableChildren i -> i < c < length table.
Proof.
  unfold tableChildren, tableView. destruct (table !! i) as [v|]; [|by intros ?%elem_of_nil].
  destruct (forallb _ _) eqn:E; [|by intros ?%elem_of_nil].
  rewrite forallb_forall in E. intros Hc%list_elem_of_In. specialize (E c Hc).
  apply andb_true_iff in E as [?%Nat.ltb_lt ?%Nat.ltb_lt]. lia.
Qed.

Lemma rank_leaf i : tableRank i = 0 -> tableChildren i = [].
Proof.
  intros Hi. destruct (tableChildren i) as [|c cs] eqn:E; [done|].
  assert (Hc : c ∈ tableChildren i) by (rewrite E; left).
  apply tableChildren_bound in Hc. unfold tableRank in Hi. lia.
Qed.

Lemma sum_list_with_ext_in {A} (f g : A -> nat) l :
  (forall x, x ∈ l -> f x = g x) -> sum_list_with f l = sum_list_with g l.
Proof.
  induction l as [|x l IH]; intros H; cbn; [done|]. rewrite H by left.
  rewrite IH; [done|]. intros. apply H. by right.
Qed.

Lemma tableSize_enough fuel : forall fuel' i,
  tableRank i <= fuel -> tableRank i <= fuel' -> tableSizeFuel fuel i = tableSizeFuel fuel' i.
Proof.
  assert (forall k i, tableRank i = 0 -> tableSizeFuel k i = 1) as Hleaf.
  { intros [|k] i Hi; cbn; [done|]. by rewrite rank_leaf. }
  induction fuel as [|fuel IH]; intros fuel' i H1 H2; [by rewrite !Hleaf by lia|].
  destruct fuel' as [|fuel']; [by rewrite !Hleaf by lia|]. cbn. f_equal.
  apply sum_list_with_ext_in. intros c Hc%tableChildren_bound. apply IH; unfold tableRank in *; lia.
Qed.

Lemma tableSize_children i : sum_list_with tableSize (tableChildren i) < tableSize i.
Proof.
  unfold tableSize at 2. rewrite (tableSize_enough _ (S (tableRank i))) by lia. cbn.
  apply Nat.lt_succ_r, Nat.eq_le_incl, sum_list_with_ext_in.
  intros c Hc%tableChildren_bound. apply tableSize_enough; unfold tableRank; lia.
Qed.

Lemma foldl_ext_in {A B} (f g : A -> B -> A) l a :
  (forall a x, x ∈ l -> f a x = g a x) -> foldl f a l = foldl g a l.
Proof.
  revert a. induction l as [|x l IH]; intros a H; cbn; [done|].
  rewrite H by left. apply IH. intros. apply H. by right.
Qed.

Lemma tableWalk_enough fuel : forall fuel' S f n s,
  tableRank n <= fuel -> tableRank n <= fuel' -> tableWalk fuel S f n s = tableWalk fuel' S f n s.
Proof.
  assert (Hleaf : forall S f n s k, tableRank n = 0 ->
    tableWalk k S f n s = snd (f n s)).
  { intros S f n s k Hn. destruct k; cbn; destruct (f n s) as [go s']; cbn; [done|].
    destruct go; [|done].
    assert (tableChildren n = []) as ->; [|done].
    destruct (tableChildren n) as [|c cs] eqn:E; [done|].
    assert (Hc : c ∈ tableChildren n) by (rewrite E; left).
    apply tableChildren_bound in Hc. unfold tableRank in Hn. lia. }
  induction fuel as [|fuel IH]; intros fuel' S f n s H1 H2.
  - by rewrite !Hleaf by lia.
  - destruct fuel' as [|fuel']; [by rewrite !Hleaf by lia|].
    cbn. destruct (f n s) as [[] s']; [|done].
    apply foldl_ext_in. intros a x Hx%tableChildren_bound.
    apply IH; unfold tableRank in *; lia.
Qed.

#[refine] Definition tableSyntax : Syntax := {|
  Node := nat;
  view := tableView;
  children := tableChildren;
  Walk := fun S f n s => tableWalk (tableRank n) S f n s;
  SplitBraces := split;
  WordLit := fun w => match tableView w with
                      | VWord [p] => match tableView p with VLit v => v | _ => [] end
                      | _ => [] end;
  size := tableSize |}.
Proof.
  - by intros n c Hc.
  - apply tableSize_children.
  - intros S f n s.
    transitivity (tableWalk (Datatypes.S (tableRank n)) S f n s); [apply tableWalk_enough; lia|].
    cbn. destruct (f n s) as [[] s']; [|done].
    apply foldl_ext_in. intros a x Hx%tableChildren_bound.
    apply tableWalk_enough; unfold tableRank; lia.
Defined.

End Table.

End InterpSyntax.
