(* ===== verification/InterpValidate.v ===== *)
(** * The static validator of [interp/validate.go]

    [validateNode] walks the parsed script once before anything runs and
    rejects every construct the restricted shell does not support.  The tree
    and [Walk] are those of [InterpSyntax]; cancellation of the context is a
    function of the number of earlier polls. *)

From S2P Require Import Prelude PathPolicy Nesting InterpSyntax.
From stdpp Require Import base list strings.
From Stdlib Require Import ZArith Lia Ascii.

Module InterpValidate.
Import InterpSyntax.

Inductive vErr :=
| Unsupported (msg : bytes)   (* fmt.Errorf *)
| errTildeNotSupported
| CtxDone                     (* ctx.Err() *)
| NestingTooDeep.

Section Validate.
Context {SX : Syntax}.
Context (ctxErr : nat -> bool).

Definition unsupported (s : string) : option vErr := Some (Unsupported (lit s)).

(** ** Parameter expansions and assignments *)

Definition blockedSpecialParams (name : bytes) : bool :=
  str_in name ["#"; "!"; "0"; "1"; "2"; "3"; "4"; "5"; "6"; "7"; "8"; "9"; "@"; "*"]%string.

Definition validateParamExp (pe : paramExp) : option vErr :=
  if pe_Length pe then unsupported "${#var} is not supported"
  else if pe_Slice pe then unsupported "${var:offset} is not supported"
  else if pe_Repl pe then unsupported "${var/pattern/replacement} is not supported"
  else if pe_Excl pe then unsupported "${!var} is not supported"
  else if pe_Index pe then unsupported "array indexing is not supported"
  else if pe_Names pe then unsupported "${!prefix*} is not supported"
  else if pe_Exp pe then unsupported "${var} operations (defaults, pattern removal, case conversion) are not supported"
  else match pe_Param pe with
       | Some name =>
           if blockedSpecialParams name then Some (Unsupported (lit "$" ++ name ++ lit " is not supported"))
           else if name =s "LINENO" then unsupported "$LINENO is not supported"
           else None
       | None => None
       end.

Definition validateAssign (append array index : bool) : option vErr :=
  if append then unsupported "+= is not supported"
  else if array then unsupported "array assignment is not supported"
  else if index then unsupported "array index assignment is not supported"
  else None.

(** ** Redirections *)

Definition isDevNull (path : bytes) : bool := PathPolicy.IsDevNull path.

Definition outFd (fd : option bytes) : bool :=
  match fd with None => true | Some n => (n =s "1") || (n =s "2") end.

(** The single literal part of a redirect word. *)
Definition soleLit (w : option Node) : option bytes :=
  match w with
  | Some w => match Parts w with [p] => litValue p | _ => None end
  | None => None
  end.

Definition redirectTargetIsDevNull (fd : option bytes) (w : option Node) : bool :=
  outFd fd && match soleLit w with Some v => isDevNull v | None => false end.

Definition redirectTargetIsStaticLiteral (w : option Node) : bool :=
  match soleLit w with Some _ => true | None => false end.

Definition runsCommand (n : Node) : bool :=
  match view n with VCmdSubst _ | VProcSubst => true | _ => false end.

Definition redirectTargetRunsCommands (w : option Node) : bool :=
  match w with
  | None => false
  | Some w =>
      Walk bool (fun n found => let found := if runsCommand n then true else found in (negb found, found)) w false
  end.

Definition redirectAllowed (fd : option bytes) (w : option Node) (remediationMode : bool) : bool :=
  if redirectTargetIsDevNull fd w || remediationMode then true
  else negb (redirectTargetIsStaticLiteral w) && negb (redirectTargetRunsCommands w).

Definition redirectTargetIsFD (fd : option bytes) (w : option Node) : bool :=
  outFd fd && match soleLit w with Some v => (v =s "1") || (v =s "2") | None => false end.

Definition fdText (fd : option bytes) : bytes := match fd with Some n => n | None => [] end.

Definition validateRedirect (op : redirOp) (fd : option bytes) (w : option Node) (remediationMode : bool) : option vErr :=
  match op with
  | WordHdoc => unsupported "<<< (herestring) is not supported"
  | RdrIn =>
      match fd with
      | Some n => if n =s "0" then None
                  else Some (Unsupported (n ++ lit "< input fd redirection is not supported"))
      | None => None
      end
  | RdrOut | ClbOut =>
      if negb (outFd fd) then Some (Unsupported (fdText fd ++ lit "> fd redirection is not supported"))
      else if redirectAllowed fd w remediationMode then None
      else unsupported "> file redirection is not supported"
  | AppOut =>
      if negb (outFd fd) then Some (Unsupported (fdText fd ++ lit ">> fd redirection is not supported"))
      else if redirectAllowed fd w remediationMode then None
      else unsupported ">> file redirection is not supported"
  | RdrAll =>
      if redirectAllowed fd w remediationMode then None
      else unsupported "&> file redirection is not supported"
  | AppAll =>
      if redirectAllowed fd w remediationMode then None
      else unsupported "&>> file redirection is not supported"
  | RdrInOut => unsupported "<> file redirection is not supported"
  | DplOut =>
      if redirectTargetIsFD fd w then None else unsupported ">&N fd duplication is not supported"
  | DplIn => unsupported "<&N fd duplication is not supported"
  | Hdoc | DashHdoc | OtherRedir => None
  end.

(** ** Tilde prefixes *)

Definition maxBraceTildeDepth : Z := 64.

(** One literal of the pre-scan: a backslash skips the byte after it. *)
Fixpoint scanLit (s : bytes) (hasTilde : bool) (depth maxDepth : Z) : bool * Z * Z :=
  match s with
  | [] => (hasTilde, depth, maxDepth)
  | c :: s' =>
      if c =c "\" then
        match s' with [] => (hasTilde, depth, maxDepth) | _ :: s'' => scanLit s'' hasTilde depth maxDepth end
      else if c =c "~" then scanLit s' true depth maxDepth
      else if c =c "{" then scanLit s' hasTilde (depth + 1) (Z.max maxDepth (depth + 1))
      else if c =c "}" then scanLit s' hasTilde (Z.max (depth - 1) 0) maxDepth
      else scanLit s' hasTilde depth maxDepth
  end.

Fixpoint scanParts (ps : list Node) (hasTilde : bool) (depth maxDepth : Z) : bool * Z * Z :=
  match ps with
  | [] => (hasTilde, depth, maxDepth)
  | p :: ps =>
      match litValue p with
      | Some v => let '(t, d, m) := scanLit v hasTilde depth maxDepth in scanParts ps t d m
      | None => scanParts ps hasTilde depth maxDepth
      end
  end.

Definition charSequenceMayYieldTilde (elems : list Node) : bool :=
  match elems with
  | from :: to :: _ =>
      match WordLit from, WordLit to with
      | f :: _, t :: _ =>
          let lo := Z.min (code f) (code t) in
          let hi := Z.max (code f) (code t) in
          ((lo <=? code "~"%char) && (code "~"%char <=? hi))%Z
      | _, _ => false
      end
  | _ => false
  end.

(** [braceTildeAnalyzer]: the steps taken, the polls made and the error. *)
Record analyzer := mkAnalyzer { a_steps : Z; a_polls : nat; a_err : bool }.

Definition tick (a : analyzer) : analyzer :=
  let steps := (a_steps a + 1)%Z in
  if (steps mod 1024 =? 0)%Z then mkAnalyzer steps (S (a_polls a)) (ctxErr (a_polls a))
  else mkAnalyzer steps (a_polls a) (a_err a).

(** The method [parts] of [braceTildeAnalyzer], with the loop over the elements of a brace
    expansion as [elems].  The recursion goes down the tree, so the height of
    the tree is enough fuel. *)
Section Analyzer.
Context (parts : list Node -> analyzer -> bool * bool * analyzer).

Fixpoint elems (es : list Node) (elemMayBeEmpty : bool) (a : analyzer) : option bool * bool * analyzer :=
  match es with
  | [] => (None, elemMayBeEmpty, a)
  | e :: es =>
      let '(tilde, empty, a) := parts (Parts e) a in
      if tilde || a_err a then (Some tilde, false, a)
      else elems es (elemMayBeEmpty || empty) a
  end.

Fixpoint partsLoop (ps : list Node) (a : analyzer) : bool * bool * analyzer :=
  match ps with
  | [] => (false, true, a)
  | p :: ps =>
      let a := tick a in
      if a_err a then (false, false, a)
      else
        match view p with
        | VLit v => match v with [] => partsLoop ps a | _ => (HasPrefix v (lit "~"), false, a) end
        | VBraceExp sequence es =>
            if sequence then (charSequenceMayYieldTilde es, false, a)
            else
              match elems es false a with
              | (Some tilde, _, a) => (tilde, false, a)
              | (None, elemMayBeEmpty, a) => if elemMayBeEmpty then partsLoop ps a else (false, false, a)
              end
        | _ => (false, false, a)
        end
  end.
End Analyzer.

Fixpoint partsFuel (fuel : nat) : list Node -> analyzer -> bool * bool * analyzer :=
  match fuel with
  | 0 => fun _ a => (true, false, a)
  | S fuel => partsLoop (partsFuel fuel)
  end.

Definition heightFuel (ps : list Node) : nat := S (list_max (map size ps)).

Definition parts (ps : list Node) (a : analyzer) : bool * bool * analyzer :=
  partsFuel (heightFuel ps) ps a.

Definition validateWordTilde (w : Node) (literal : bool) (polls : nat) : option vErr * nat :=
  match Parts w with
  | [] => (None, polls)
  | p :: _ =>
      if match litValue p with Some v => HasPrefix v (lit "~") | None => false end
      then (Some errTildeNotSupported, polls)
      else if literal then (None, polls)
      else
        let '(hasTilde, _, maxDepth) := scanParts (Parts w) false 0 0 in
        if negb hasTilde then (None, polls)
        else if (maxBraceTildeDepth <? maxDepth)%Z
             then (unsupported "tilde expansion is not supported (brace nesting exceeds 64)", polls)
        else
          let '(found, split) := SplitBraces w in
          if negb found then (None, polls)
          else
            let '(mayStartWithTilde, _, a) := parts split (mkAnalyzer 0 polls false) in
            if a_err a then (Some CtxDone, a_polls a)
            else if mayStartWithTilde then (Some errTildeNotSupported, a_polls a)
            else (None, a_polls a)
  end.

(** ** The walk *)

Record walkState := mkWalk {
  w_err : option vErr;
  hdocWords : list Node;
  literalWords : list Node;
  w_polls : nat }.

Definition fails (e : option vErr) (s : walkState) : bool * walkState :=
  match e with
  | Some _ => (false, mkWalk e (hdocWords s) (literalWords s) (w_polls s))
  | None => (true, s)
  end.

Definition blocked (msg : string) (s : walkState) : bool * walkState := fails (unsupported msg) s.

Definition addHdoc (w : option Node) (s : walkState) : walkState :=
  match w with
  | Some w => mkWalk (w_err s) (w :: hdocWords s) (literalWords s) (w_polls s)
  | None => s
  end.

Definition addLiteral (w : option Node) (s : walkState) : walkState :=
  match w with
  | Some w => mkWalk (w_err s) (hdocWords s) (w :: literalWords s) (w_polls s)
  | None => s
  end.

(** The closure [validateNode] passes to [syntax.Walk]. *)
Definition visit (remediationMode : bool) (n : Node) (s : walkState) : bool * walkState :=
  match w_err s with
  | Some _ => (false, s)
  | None =>
    match view n with
    | VArithmExp => blocked "arithmetic expansion is not supported" s
    | VProcSubst => blocked "process substitution is not supported" s
    | VParamExp pe => fails (validateParamExp pe) s
    | VAssign append _ value array index =>
        match validateAssign append array index with
        | Some e => fails (Some e) s
        | None => (true, addLiteral value s)
        end
    | VCaseClause => blocked "case statements are not supported" s
    | VFuncDecl => blocked "function declarations are not supported" s
    | VArithmCmd => blocked "arithmetic commands are not supported" s
    | VTestClause => blocked "test expressions are not supported" s
    | VDeclClause variant => fails (Some (Unsupported (variant ++ lit " is not supported"))) s
    | VLetClause => blocked "let is not supported" s
    | VTimeClause => blocked "time is not supported" s
    | VCoprocClause => blocked "coprocesses are not supported" s
    | VTestDecl => blocked "test declarations are not supported" s
    | VForClause select loop _ =>
        if select then blocked "select statements are not supported" s
        else match loop with
             | WordIter _ _ _ => (true, s)
             | OtherLoop => blocked "c-style for loops are not supported" s
             end
    | VExtGlob => blocked "extended globbing is not supported" s
    | VStmt _ _ _ background _ _ =>
        if background then blocked "background execution (&) is not supported" s else (true, s)
    | VBinaryCmd op _ _ =>
        if decide (op = PipeAll) then blocked "|& is not supported" s else (true, s)
    | VRedirect op fd w hdoc =>
        match validateRedirect op fd w remediationMode with
        | Some e => fails (Some e) s
        | None =>
            let s := addHdoc hdoc s in
            (true, if decide (op = Hdoc \/ op = DashHdoc) then addLiteral w s else s)
        end
    | VWord _ =>
        if bool_decide (n ∈ hdocWords s) then (true, s)
        else
          let '(e, polls) := validateWordTilde n (bool_decide (n ∈ literalWords s)) (w_polls s) in
          fails e (mkWalk (w_err s) (hdocWords s) (literalWords s) polls)
    | VOtherCommand t => fails (Some (Unsupported (lit "unsupported command type: " ++ t))) s
    | _ => (true, s)
    end
  end.

(** [directChildren] of [nesting.go]: the visitor descends into [parent] only. *)
Definition directChildren (parent : Node) : list Node :=
  Walk (list Node) (fun n cs => if decide (n = parent) then (true, cs) else (false, cs ++ [n])) parent [].

Definition validateNode (n : Node) (remediationMode : bool) (polls : nat) : option vErr :=
  match Nesting.checkNestingDepth directChildren (S (size n)) (Some n) with
  | Some (Nesting.Ret _) =>
      w_err (Walk walkState (visit remediationMode) n (mkWalk None [] [] polls))
  | _ => Some NestingTooDeep
  end.

End Validate.
End InterpValidate.
