(* ===== verification/InterpValidateSpec.v ===== *)
(** * What the static validator guarantees

    [permitted] says, node by node and without the walk, which trees the shell
    supports; [validateNode] decides it.  A word's [role] (command word,
    assignment value or heredoc delimiter, heredoc body) is a function of its
    parent here, where the validator keeps sets of word pointers. *)

From S2P Require Import Prelude PathPolicy Nesting InterpSyntax InterpValidate.
From stdpp Require Import base list sets strings.
From Stdlib Require Import ZArith Lia Ascii.

Module InterpValidateSpec.
Import InterpSyntax InterpValidate.

Section Spec.
Context {SX : Syntax}.

(** ** The specification *)

Inductive role := RPlain | RLiteral | RHdoc.

#[export] Instance role_eq_dec : EqDecision role.
Proof. solve_decision. Defined.

Definition roleOf (p c : Node) : role :=
  match view p with
  | VRedirect op _ w h =>
      if decide (h = Some c) then RHdoc
      else if decide ((op = Hdoc \/ op = DashHdoc) /\ w = Some c) then RLiteral else RPlain
  | VAssign _ _ v _ _ => if decide (v = Some c) then RLiteral else RPlain
  | _ => RPlain
  end.

(** A plain [$name] or [${name}] of a variable. *)
Definition simpleParam (pe : paramExp) : Prop :=
  pe_Length pe = false /\ pe_Slice pe = false /\ pe_Repl pe = false /\ pe_Excl pe = false /\
  pe_Index pe = false /\ pe_Names pe = false /\ pe_Exp pe = false /\
  forall name, pe_Param pe = Some name ->
    blockedSpecialParams name = false /\ name <> lit "LINENO".

(** The target of a write redirection is the literal null device, or is known
    only after expansion and expands without running a command. *)
Definition harmlessTarget (w : option Node) : Prop :=
  (exists v, soleLit w = Some v /\ isDevNull v = true) \/
  (soleLit w = None /\ forall t m, w = Some t -> below t m -> runsCommand m = false).

Definition writeOp (op : redirOp) : bool :=
  match op with RdrOut | ClbOut | AppOut | RdrAll | AppAll => true | _ => false end.

Definition supportedRedirect (rm : bool) (op : redirOp) (fd : option bytes) (w : option Node) : Prop :=
  match op with
  | RdrOut | ClbOut | AppOut => outFd fd = true /\ (rm = true \/ harmlessTarget w)
  | RdrAll | AppAll => rm = true \/ (outFd fd = true /\ harmlessTarget w) \/ (soleLit w = None /\ harmlessTarget w)
  | DplOut => outFd fd = true /\ (soleLit w = Some (lit "1") \/ soleLit w = Some (lit "2"))
  | RdrIn => fd = None \/ fd = Some (lit "0")
  | Hdoc | DashHdoc | OtherRedir => True
  | WordHdoc | RdrInOut | DplIn => False
  end.

(** The verdict on a word while the context is live. *)
Definition tildeFree (literal : bool) (w : Node) : Prop :=
  fst (validateWordTilde (fun _ => false) w literal 0) = None.

Definition supported (rm : bool) (r : role) (n : Node) : Prop :=
  match view n with
  | VArithmExp | VProcSubst | VCaseClause | VFuncDecl | VArithmCmd | VTestClause | VDeclClause _
  | VLetClause | VTimeClause | VCoprocClause | VTestDecl | VExtGlob | VOtherCommand _ => False
  | VStmt _ _ _ background _ _ => background = false
  | VBinaryCmd op _ _ => op <> PipeAll
  | VForClause select loop _ => select = false /\ loop <> OtherLoop
  | VParamExp pe => simpleParam pe
  | VAssign append _ _ array index => append = false /\ array = false /\ index = false
  | VRedirect op fd w _ => supportedRedirect rm op fd w
  | VWord _ => r = RHdoc \/ tildeFree (bool_decide (r = RLiteral)) n
  | _ => True
  end.

Inductive permitted (rm : bool) : role -> Node -> Prop :=
| permit r n :
    supported rm r n ->
    (forall c, c ∈ children n -> permitted rm (roleOf n c) c) ->
    permitted rm r n.

Lemma permitted_below rm r n m : permitted rm r n -> below n m -> exists r', supported rm r' m.
Proof.
  intros Hp Hb. revert r Hp. induction Hb as [n|n c m Hc Hb IH]; intros r Hp; inversion Hp; subst; eauto.
Qed.

(** Each node has one parent: the parsed tree shares no node. *)
Definition unshared (root : Node) : Prop :=
  forall p q c, below root p -> below root q -> c ∈ children p -> c ∈ children q -> p = q.

(** ** Walks that look for a node *)

Lemma foldl_stable {A B} (f : A -> B -> A) (l : list B) a :
  (forall x, x ∈ l -> f a x = a) -> foldl f a l = a.
Proof.
  induction l as [|x l IH]; intros H; cbn; [done|]. rewrite H by left. apply IH.
  intros. apply H. by right.
Qed.

Section Find.
Context (test : Node -> bool).

Definition findVisit (n : Node) (found : bool) : bool * bool :=
  let found := if test n then true else found in (negb found, found).

Lemma walk_found n : Walk bool findVisit n true = true.
Proof.
  rewrite Walk_spec. cbn. by destruct (test n).
Qed.

Lemma walk_find n : Walk bool findVisit n false = false <-> forall m, below n m -> test m = false.
Proof.
  induction n as [n IH] using node_ind. rewrite Walk_spec. unfold findVisit at 1.
  destruct (test n) eqn:E; cbn.
  { split; [done|]. intros H. rewrite <- E. apply H. constructor. }
  transitivity (forall c, c ∈ children n -> Walk bool findVisit c false = false).
  - clear IH. induction (children n) as [|c cs IHl]; cbn; [split; [intros _ x Hx%elem_of_nil; done|done]|].
    destruct (Walk bool findVisit c false) eqn:Ec.
    + split.
      * rewrite foldl_stable by (intros; apply walk_found). done.
      * intros H. rewrite <- Ec. exfalso. specialize (H c ltac:(left)). congruence.
    + rewrite IHl. split.
      * intros H x [->|Hx]%elem_of_cons; auto.
      * intros H x Hx. apply H. by right.
  - split.
    + intros H m Hm. inversion Hm as [|c ? Hc Hb]; subst; [done|]. by apply (IH c Hc); [apply H|].
    + intros H c Hc. apply IH; [done|]. intros m Hm. apply H. by econstructor.
Qed.
End Find.

Lemma redirectTargetRunsCommands_false w :
  redirectTargetRunsCommands w = false <-> forall t m, w = Some t -> below t m -> runsCommand m = false.
Proof.
  destruct w as [w|]; cbn; [|split; [by intros _ ?? ?|done]].
  change (fun n found => _) with (findVisit runsCommand).
  rewrite walk_find. split; [by intros H t m [= <-]; apply H|eauto].
Qed.

(** The visitor of [directChildren] collects exactly the children. *)
Lemma directChildren_spec n : directChildren n = children n.
Proof.
  unfold directChildren. rewrite Walk_spec, decide_True by done.
  assert (forall l acc, n ∉ l ->
    foldl (fun s c => Walk (list Node) (fun n0 cs => if decide (n0 = n) then (true, cs) else (false, cs ++ [n0])) c s) acc l
    = acc ++ l) as H.
  { induction l as [|c l IH]; intros acc Hn; cbn; [by rewrite app_nil_r|].
    apply not_elem_of_cons in Hn as [Hne Hn].
    rewrite Walk_spec, decide_False by congruence. rewrite IH by done. by rewrite <- app_assoc. }
  apply H. intros Hn%child_smaller. lia.
Qed.

(** ** Each check against its specification *)

Lemma validateParamExp_spec pe : validateParamExp pe = None <-> simpleParam pe.
Proof.
  unfold validateParamExp, simpleParam, unsupported.
  destruct pe as [? [] [] [] [] [] [] [] p]; cbn -[blockedSpecialParams]; try (split; [done|by intros (?&?&?&?&?&?&?&?)]).
  destruct p as [name|]; [|naive_solver].
  destruct (blockedSpecialParams name) eqn:E.
  - split; [done|]. intros (_&_&_&_&_&_&_&H). destruct (H name eq_refl). congruence.
  - destruct (bytes_eqb_spec name (lit "LINENO")); naive_solver.
Qed.

Lemma validateAssign_spec append array index :
  validateAssign append array index = None <-> append = false /\ array = false /\ index = false.
Proof. destruct append, array, index; cbn; naive_solver. Qed.

Lemma redirectAllowed_spec rm fd w :
  redirectAllowed fd w rm = true <->
  rm = true \/ (outFd fd = true /\ harmlessTarget w) \/ (soleLit w = None /\ harmlessTarget w).
Proof.
  unfold redirectAllowed, redirectTargetIsDevNull, redirectTargetIsStaticLiteral, harmlessTarget.
  destruct rm; [rewrite orb_true_r; naive_solver|]. rewrite orb_false_r.
  destruct (soleLit w) as [v|].
  - destruct (outFd fd), (isDevNull v) eqn:E; cbn; naive_solver.
  - rewrite andb_false_r. cbn. rewrite negb_true_iff, redirectTargetRunsCommands_false. naive_solver.
Qed.

Lemma validateRedirect_spec op fd w rm :
  validateRedirect op fd w rm = None <-> supportedRedirect rm op fd w.
Proof.
  assert (forall msg (b : bool), outFd fd = b -> (if redirectAllowed fd w rm then @None vErr else unsupported msg) = None <->
     rm = true \/ (b = true /\ harmlessTarget w) \/ (soleLit w = None /\ harmlessTarget w)) as Hall.
  { intros msg b <-. rewrite <- redirectAllowed_spec. by destruct (redirectAllowed fd w rm). }
  assert (forall e msg, (if negb (outFd fd) then Some e else if redirectAllowed fd w rm then @None vErr else unsupported msg) = None <->
     outFd fd = true /\ (rm = true \/ harmlessTarget w)) as Hout.
  { intros e msg. destruct (outFd fd) eqn:E; cbn; [|naive_solver]. rewrite (Hall msg true) by done. naive_solver. }
  unfold validateRedirect, supportedRedirect.
  destruct op; try (by split); try exact (Hout _ _); try exact (Hall _ _ eq_refl).
  - destruct fd as [n|]; [|split; auto].
    destruct (bytes_eqb_spec n (lit "0")) as [->|Hn]; [split; auto|].
    split; [done|]. intros [?|?]; congruence.
  - unfold redirectTargetIsFD. destruct (outFd fd); cbn; [|split; [done|by intros [? _]]].
    destruct (soleLit w) as [v|]; cbn; [|split; [done|by intros [_ [?|?]]]].
    destruct (bytes_eqb_spec v (lit "1")) as [->|]; [split; auto|].
    destruct (bytes_eqb_spec v (lit "2")) as [->|]; [split; auto|].
    split; [done|]. intros [_ [?|?]]; congruence.
Qed.

(** ** Cancellation only adds errors

    With a live context ([ctx0]) the analysis ends without an error, and any
    context that lets it end gives the same verdict. *)
Section Live.
Context (ctx ctx0 : nat -> bool) (Hlive : forall k, ctx0 k = false).

Abbreviation analysis := (list Node -> analyzer -> bool * bool * analyzer).

Definition keepsLive (f : analysis) : Prop :=
  forall ps a, a_err a = false -> a_err (snd (f ps a)) = false.

Definition simulates (f f0 : analysis) : Prop :=
  forall ps a a0, a_err a = false -> a_err a0 = false ->
    a_err (snd (f ps a)) = false -> fst (f ps a) = fst (f0 ps a0).

Lemma elems_keeps f es : keepsLive f -> forall empty a, a_err a = false ->
  a_err (snd (elems f es empty a)) = false.
Proof.
  intros Hf. induction es as [|e es IH]; intros empty a H0; cbn; [done|].
  pose proof (Hf (Parts e) a H0) as Ha. destruct (f (Parts e) a) as [[t em] a']; cbn in *.
  destruct (t || a_err a'); [done|]. by apply IH.
Qed.

Lemma elems_None f es : forall empty a, a_err a = false ->
  fst (fst (elems f es empty a)) = None -> a_err (snd (elems f es empty a)) = false.
Proof.
  induction es as [|e es IH]; intros empty a H0; cbn; [done|].
  destruct (f (Parts e) a) as [[t em] a']. destruct (t || a_err a') eqn:E; [done|].
  apply orb_false_iff in E as [_ E]. by apply IH.
Qed.

Lemma elems_simulates f f0 es : simulates f f0 -> keepsLive f0 -> forall empty a a0,
  a_err a = false -> a_err a0 = false -> a_err (snd (elems f es empty a)) = false ->
  fst (elems f es empty a) = fst (elems f0 es empty a0).
Proof.
  intros Hf Hk. induction es as [|e es IH]; intros empty a a0 H H0; cbn; [done|].
  pose proof (Hf (Parts e) a a0 H H0) as Hag. pose proof (Hk (Parts e) a0 H0) as Ha0.
  destruct (f (Parts e) a) as [[t em] a'], (f0 (Parts e) a0) as [[t0 em0] a0']; cbn in *.
  rewrite Ha0, orb_false_r. destruct (a_err a') eqn:Ha'.
  - rewrite orb_true_r. cbn. congruence.
  - specialize (Hag eq_refl). injection Hag as -> ->. rewrite orb_false_r.
    destruct t0; [done|]. by apply IH.
Qed.

Lemma tick_live a : a_err a = false -> a_err (tick ctx0 a) = false.
Proof. intros H. unfold tick. destruct (_ =? _)%Z; cbn; auto. Qed.

Lemma partsLoop_keeps f : keepsLive f -> keepsLive (partsLoop ctx0 f).
Proof.
  intros Hf ps. induction ps as [|p ps IH]; intros a H0; cbn; [done|].
  pose proof (tick_live a H0) as H1. rewrite H1.
  destruct (view p) as [ | | | | | | | | | | | | | | | | | | | |v| | | | | | | |sq es| | | ] eqn:Ev; cbn; try done.
  - destruct v; [by apply IH|done].
  - destruct sq; [done|]. pose proof (elems_keeps f es Hf false _ H1) as He.
    destruct (elems f es false (tick ctx0 a)) as [[[t|] em] a']; cbn in *; [done|].
    destruct em; [by apply IH|done].
Qed.

Lemma partsLoop_simulates f f0 :
  simulates f f0 -> keepsLive f0 -> simulates (partsLoop ctx f) (partsLoop ctx0 f0).
Proof.
  intros Hf Hk ps. induction ps as [|p ps IH]; intros a a0 H H0; cbn; [done|].
  pose proof (tick_live a0 H0) as H1. rewrite H1.
  destruct (a_err (tick ctx a)) eqn:Ha; [cbn; congruence|].
  destruct (view p) as [ | | | | | | | | | | | | | | | | | | | |v| | | | | | | |sq es| | | ] eqn:Ev; cbn; try done.
  - destruct v; [by apply IH|done].
  - destruct sq; [done|].
    pose proof (elems_simulates f f0 es Hf Hk false _ _ Ha H1) as Hag.
    pose proof (elems_keeps f0 es Hk false _ H1) as He.
    pose proof (elems_None f es false _ Ha) as Hn.
    destruct (elems f es false (tick ctx a)) as [[r em] a'],
      (elems f0 es false (tick ctx0 a0)) as [[r0 em0] a0']; cbn in *.
    destruct r as [t|].
    + cbn. intros Ha'. specialize (Hag Ha'). by injection Hag as <- <-.
    + specialize (Hn eq_refl). specialize (Hag Hn). injection Hag as <- <-.
      destruct em; [by apply IH|done].
Qed.

Lemma partsFuel_live fuel :
  keepsLive (partsFuel ctx0 fuel) /\ simulates (partsFuel ctx fuel) (partsFuel ctx0 fuel).
Proof.
  induction fuel as [|fuel [IHk IHs]]; [split; [by intros ps a H|done]|]. split.
  - by apply partsLoop_keeps.
  - by apply partsLoop_simulates.
Qed.

Lemma validateWordTilde_live w literal polls polls0 :
  (fst (validateWordTilde ctx w literal polls) = None -> fst (validateWordTilde ctx0 w literal polls0) = None).
Proof.
  unfold validateWordTilde. destruct (Parts w) as [|p ps] eqn:E; [done|]. rewrite <- E.
  destruct (match litValue p with Some v => _ | None => _ end); [done|].
  destruct literal; [done|]. destruct (scanParts _ _ _ _) as [[h d] m]. destruct (negb h); [done|].
  destruct (_ <? m)%Z; [done|]. destruct (SplitBraces w) as [found split]. destruct (negb found); [done|].
  destruct (partsFuel_live (heightFuel split)) as [Hk Hs].
  specialize (Hk split (mkAnalyzer 0 polls0 false) eq_refl).
  specialize (Hs split (mkAnalyzer 0 polls false) (mkAnalyzer 0 polls0 false) eq_refl eq_refl).
  unfold parts. destruct (partsFuel ctx _ _ _) as [[t e] a], (partsFuel ctx0 _ _ _) as [[t0 e0] a0]; cbn in *.
  rewrite Hk. destruct (a_err a); [done|]. specialize (Hs eq_refl). injection Hs as <- <-. by destruct t.
Qed.

End Live.

(** ** The walk *)
Section WalkSpec.
Context (ctx : nat -> bool) (rm : bool) (root : Node) (Hone : unshared root).

Definition marksSound (s : walkState) : Prop :=
  forall p c, below root p -> c ∈ children p ->
    (c ∈ hdocWords s -> roleOf p c = RHdoc) /\ (c ∈ literalWords s -> roleOf p c <> RPlain).

Definition marked (r : role) (n : Node) (s : walkState) : Prop :=
  (n ∈ hdocWords s <-> r = RHdoc) /\ (r <> RHdoc -> (n ∈ literalWords s <-> r = RLiteral)).

Definition childrenMarked (n : Node) (s : walkState) : Prop :=
  forall c, c ∈ children n ->
    (roleOf n c = RHdoc -> c ∈ hdocWords s) /\ (roleOf n c = RLiteral -> c ∈ literalWords s).

Definition grows (s s' : walkState) : Prop :=
  hdocWords s ⊆ hdocWords s' /\ literalWords s ⊆ literalWords s'.

Lemma grows_refl s : grows s s.
Proof. by split. Qed.

Lemma grows_trans s1 s2 s3 : grows s1 s2 -> grows s2 s3 -> grows s1 s3.
Proof. intros [] []. split; by etrans. Qed.

Lemma marked_child n c s : below root n -> c ∈ children n -> marksSound s -> childrenMarked n s ->
  marked (roleOf n c) c s.
Proof.
  intros Hb Hc Hs Hm. destruct (Hs n c Hb Hc) as [H1 H2], (Hm c Hc) as [H3 H4].
  split; [by split|]. intros Hr. split; [|done]. intros H. specialize (H2 H).
  by destruct (roleOf n c).
Qed.

(** What a visit that lets the walk go on has established. *)
Definition visited (r : role) (n : Node) (s s' : walkState) : Prop :=
  w_err s' = None /\ supported rm r n /\ grows s s' /\ marksSound s' /\ childrenMarked n s'.

Lemma unmarked_children n s :
  (forall c, c ∈ children n -> roleOf n c = RPlain) -> childrenMarked n s.
Proof. intros H c Hc. rewrite (H c Hc). by split. Qed.

Lemma addLiteral_sound n w s : below root n -> marksSound s ->
  (forall c, w = Some c -> c ∈ children n /\ roleOf n c <> RPlain) -> marksSound (addLiteral w s).
Proof.
  intros Hb Hs Hw p c Hp Hc. destruct w as [w|]; [|by apply Hs]. cbn.
  destruct (Hs p c Hp Hc) as [H1 H2]. split; [done|]. intros [->|?]%elem_of_cons; [|auto].
  destruct (Hw w eq_refl) as [Hn Hr]. by rewrite (Hone p n w).
Qed.

Lemma addHdoc_sound n w s : below root n -> marksSound s ->
  (forall c, w = Some c -> c ∈ children n /\ roleOf n c = RHdoc) -> marksSound (addHdoc w s).
Proof.
  intros Hb Hs Hw p c Hp Hc. destruct w as [w|]; [|by apply Hs]. cbn.
  destruct (Hs p c Hp Hc) as [H1 H2]. split; [|done]. intros [->|?]%elem_of_cons; [|auto].
  destruct (Hw w eq_refl) as [Hn Hr]. by rewrite (Hone p n w).
Qed.

Lemma addLiteral_in w s c : w = Some c -> c ∈ literalWords (addLiteral w s).
Proof. intros ->. left. Qed.

Lemma addHdoc_in w s c : w = Some c -> c ∈ hdocWords (addHdoc w s).
Proof. intros ->. left. Qed.

Lemma addLiteral_grows w s : grows s (addLiteral w s).
Proof. destruct w; split; cbn; set_solver. Qed.

Lemma addHdoc_grows w s : grows s (addHdoc w s).
Proof. destruct w; split; cbn; set_solver. Qed.

Lemma addLiteral_err w s : w_err (addLiteral w s) = w_err s.
Proof. by destruct w. Qed.

Lemma addHdoc_err w s : w_err (addHdoc w s) = w_err s.
Proof. by destruct w. Qed.

(** A visit that marks nothing: it goes on exactly when [e] is no error. *)
Lemma fails_spec r n e s s1 :
  w_err s1 = None -> grows s s1 -> marksSound s1 ->
  (forall c, c ∈ children n -> roleOf n c = RPlain) ->
  (e = None -> supported rm r n) ->
  (fst (fails e s1) = true -> visited r n s (snd (fails e s1))) /\
  (fst (fails e s1) = false -> w_err (snd (fails e s1)) <> None) /\
  (fst (fails e s1) = true <-> e = None).
Proof.
  intros H1 Hg Hs Hr He. destruct e; cbn; [by split_and!|].
  split; [|by split]. intros _. split; [done|]. split; [auto|]. split; [done|]. split; [done|].
  by apply unmarked_children.
Qed.

Lemma redirect_marks n op fd w h s :
  view n = VRedirect op fd w h -> below root n -> w_err s = None -> marksSound s ->
  let s1 := addHdoc h s in
  let s2 := if decide (op = Hdoc \/ op = DashHdoc) then addLiteral w s1 else s1 in
  w_err s2 = None /\ grows s s2 /\ marksSound s2 /\ childrenMarked n s2.
Proof.
  intros Ev Hb He Hs.
  assert (Hch : forall c, w = Some c \/ h = Some c -> c ∈ children n).
  { intros c Hc. apply exposed_child. rewrite Ev. cbn. destruct Hc as [->| ->]; set_solver. }
  assert (Hs1 : marksSound (addHdoc h s)).
  { apply (addHdoc_sound n); [done..|]. intros c ->. split; [auto|]. unfold roleOf. rewrite Ev. by rewrite decide_True. }
  assert (Hin : forall c s', grows (addHdoc h s) s' -> roleOf n c = RHdoc -> c ∈ hdocWords s').
  { intros c s' [Hg _]. unfold roleOf. rewrite Ev. destruct (decide (h = Some c)) as [->|]; [|by destruct (decide _)].
    intros _. apply Hg. by apply addHdoc_in. }
  destruct (decide _) as [Hop|Hop]; cbn -[addLiteral addHdoc].
  - split; [by rewrite addLiteral_err, addHdoc_err|].
    split; [eapply grows_trans; [apply addHdoc_grows|apply addLiteral_grows]|]. split.
    + apply (addLiteral_sound n); [done..|]. intros c ->. split; [auto|]. unfold roleOf. rewrite Ev.
      destruct (decide (h = Some c)); [done|]. by rewrite decide_True.
    + intros c Hc. split; [apply Hin, addLiteral_grows|]. unfold roleOf. rewrite Ev.
      destruct (decide (h = Some c)); [done|]. destruct (decide _) as [[_ Hw]|]; [|done].
      intros _. by apply addLiteral_in.
  - split; [by rewrite addHdoc_err|]. split; [apply addHdoc_grows|]. split; [done|].
    intros c Hc. split; [apply Hin, grows_refl|]. unfold roleOf. rewrite Ev.
    destruct (decide (h = Some c)); [done|]. destruct (decide _) as [[? _]|]; [|done]. done.
Qed.

Lemma assign_marks n append name v array index s :
  view n = VAssign append name v array index -> below root n -> marksSound s ->
  marksSound (addLiteral v s) /\ childrenMarked n (addLiteral v s).
Proof.
  intros Ev Hb Hs. split.
  - apply (addLiteral_sound n); [done..|]. intros c ->. split.
    + apply exposed_child. rewrite Ev. left.
    + unfold roleOf. rewrite Ev. by rewrite decide_True.
  - intros c Hc. unfold roleOf. rewrite Ev. destruct (decide (v = Some c)); [|done].
    split; [done|]. intros _. by apply addLiteral_in.
Qed.

Lemma visit_word r n ps s :
  view n = VWord ps -> w_err s = None -> marksSound s -> marked r n s ->
  let res := if bool_decide (n ∈ hdocWords s) then fails None s
    else let '(e, polls) := validateWordTilde ctx n (bool_decide (n ∈ literalWords s)) (w_polls s) in
         fails e (mkWalk None (hdocWords s) (literalWords s) polls) in
  (fst res = true -> visited r n s (snd res)) /\
  (fst res = false -> w_err (snd res) <> None) /\
  ((forall k, ctx k = false) -> supported rm r n -> fst res = true).
Proof.
  intros Ev He Hs [Hmh Hml].
  assert (Hr : forall c, c ∈ children n -> roleOf n c = RPlain) by (intros c _; unfold roleOf; by rewrite Ev).
  destruct (bool_decide_reflect (n ∈ hdocWords s)) as [Hin|Hin].
  - apply Hmh in Hin. cbn. split; [|by split]. intros _. split; [done|].
    split; [unfold supported; rewrite Ev; by left|]. split; [apply grows_refl|]. split; [done|].
    by apply unmarked_children.
  - assert (Hne : r <> RHdoc) by (by intros ?%Hmh). specialize (Hml Hne).
    replace (bool_decide (n ∈ literalWords s)) with (bool_decide (r = RLiteral)) by (by apply bool_decide_ext).
    pose proof (validateWordTilde_live ctx (fun _ => false) (fun _ => eq_refl) n (bool_decide (r = RLiteral)) (w_polls s) 0) as Hl.
    pose proof (fun H => validateWordTilde_live (fun _ => false) ctx H n (bool_decide (r = RLiteral)) 0 (w_polls s)) as Hl'.
    destruct (validateWordTilde ctx n _ (w_polls s)) as [e polls]. cbn in Hl, Hl'.
    destruct (fails_spec r n e s (mkWalk None (hdocWords s) (literalWords s) polls)) as (H1 & H2 & H3); try done.
    + intros ->. unfold supported. rewrite Ev. right. by apply Hl.
    + split; [done|]. split; [done|]. intros Hlive Hsup. apply H3. apply Hl'; [done|].
      unfold supported in Hsup. rewrite Ev in Hsup. by destruct Hsup.
Qed.

(** One visit: it goes on only past a supported node, whose words it marks. *)
Lemma visit_spec r n s :
  below root n -> w_err s = None -> marksSound s -> marked r n s ->
  let res := visit ctx rm n s in
  (fst res = true -> visited r n s (snd res)) /\
  (fst res = false -> w_err (snd res) <> None) /\
  ((forall k, ctx k = false) -> supported rm r n -> fst res = true).
Proof.
  intros Hb He Hs [Hmh Hml]. unfold visit. rewrite He.
  assert (Hplain : forall e, (forall c, c ∈ children n -> roleOf n c = RPlain) ->
    (e = None <-> supported rm r n) ->
    (fst (fails e s) = true -> visited r n s (snd (fails e s))) /\
    (fst (fails e s) = false -> w_err (snd (fails e s)) <> None) /\
    ((forall k, ctx k = false) -> supported rm r n -> fst (fails e s) = true)).
  { intros e Hr Hiff. destruct (fails_spec r n e s s He (grows_refl s) Hs Hr) as (H1 & H2 & H3); [by apply Hiff|].
    split; [done|]. split; [done|]. intros _ Hsup. apply H3. by apply Hiff. }
  change (true, s) with (fails None s).
  destruct (view n) eqn:Ev;
    try (apply Hplain; [intros c _; unfold roleOf; by rewrite Ev|unfold supported; rewrite Ev; by split]).
  - destruct Background; apply Hplain; (try by intros c _; unfold roleOf; rewrite Ev);
      unfold supported; rewrite Ev; by split.
  - destruct (decide (Op = PipeAll)); apply Hplain; (try by intros c _; unfold roleOf; rewrite Ev);
      unfold supported; rewrite Ev; by split.
  - destruct Select, Loop; apply Hplain; (try by intros c _; unfold roleOf; rewrite Ev);
      unfold supported; rewrite Ev; (by split) || (split; [done|by intros []]).
  - match goal with H : view n = VWord ?ps |- _ => apply (visit_word r n ps) end; [done..|by split].
  - apply Hplain; [by intros c _; unfold roleOf; rewrite Ev|].
    unfold supported. rewrite Ev. apply validateParamExp_spec.
  - pose proof (validateRedirect_spec Op Fd Word rm) as Hr.
    pose proof (redirect_marks n Op Fd Word HdocWord s Ev Hb He Hs) as (H1 & H2 & H3 & H4).
    unfold visited, supported. rewrite Ev.
    destruct (validateRedirect Op Fd Word rm); cbn -[addLiteral addHdoc]; [|naive_solver].
    split; [done|]. split; [done|]. intros _ Hsup. by apply Hr in Hsup.
  - pose proof (validateAssign_spec Append Array Index) as Hr.
    unfold visited, supported. rewrite Ev.
    destruct (validateAssign Append Array Index); cbn -[addLiteral];
      [split; [done|]; split; [done|]; intros _ Hsup; by apply Hr in Hsup|].
    split; [|by split]. intros _. rewrite addLiteral_err. split; [done|]. split; [by apply Hr|].
    split; [apply addLiteral_grows|]. apply (assign_marks n Append Name Value Array Index); done.
Qed.

Lemma walk_failed n s : w_err s <> None -> Walk walkState (visit ctx rm) n s = s.
Proof. intros H. rewrite Walk_spec. unfold visit. by destruct (w_err s). Qed.

(** The whole walk below [n]. *)
Definition walked (r : role) (n : Node) (s s' : walkState) : Prop :=
  (w_err s' = None -> permitted rm r n /\ grows s s' /\ marksSound s') /\
  ((forall k, ctx k = false) -> permitted rm r n -> w_err s' = None).

Lemma walk_children n cs :
  below root n -> (forall c, c ∈ cs -> c ∈ children n) ->
  (forall c, c ∈ cs -> forall s, w_err s = None -> marksSound s -> marked (roleOf n c) c s ->
     walked (roleOf n c) c s (Walk walkState (visit ctx rm) c s)) ->
  forall s, w_err s = None -> marksSound s -> childrenMarked n s ->
  let s' := foldl (fun s c => Walk walkState (visit ctx rm) c s) s cs in
  (w_err s' = None -> (forall c, c ∈ cs -> permitted rm (roleOf n c) c) /\ grows s s' /\ marksSound s') /\
  ((forall k, ctx k = false) -> (forall c, c ∈ cs -> permitted rm (roleOf n c) c) -> w_err s' = None).
Proof.
  intros Hb. induction cs as [|c cs IH]; intros Hin Hw s He Hs Hm; cbn.
  { split; [|done]. intros _. split; [by intros c ?%elem_of_nil|]. by split; [apply grows_refl|]. }
  assert (Hc : marked (roleOf n c) c s) by (apply marked_child; [done|apply Hin; left|done..]).
  destruct (Hw c ltac:(left) s He Hs Hc) as [H1 H2].
  set (s1 := Walk walkState (visit ctx rm) c s) in *.
  destruct (w_err s1) eqn:E1.
  - rewrite foldl_stable by (intros; apply walk_failed; congruence). rewrite E1. split; [done|].
    intros Hlive Hall. apply H2; [done|]. apply Hall. left.
  - destruct (H1 eq_refl) as (Hp & Hg & Hs1).
    destruct (IH (fun x Hx => Hin x ltac:(by right)) (fun x Hx => Hw x ltac:(by right)) s1 E1 Hs1) as [H3 H4].
    { intros x Hx. destruct (Hm x Hx), Hg as [Hg1 Hg2]. split; eauto. }
    split.
    + intros Hend. destruct (H3 Hend) as (Hps & Hg' & Hs'). split; [|split; [by eapply grows_trans|done]].
      intros x [->|Hx]%elem_of_cons; auto.
    + intros Hlive Hall. apply H4; [done|]. intros x Hx. apply Hall. by right.
Qed.

Lemma walk_spec n : forall r s, below root n -> w_err s = None -> marksSound s -> marked r n s ->
  walked r n s (Walk walkState (visit ctx rm) n s).
Proof.
  induction n as [n IH] using node_ind. intros r s Hb He Hs Hm. rewrite Walk_spec.
  destruct (visit_spec r n s Hb He Hs Hm) as (H1 & H2 & H3).
  destruct (visit ctx rm n s) as [[] s1]; cbn in *.
  - destruct (H1 eq_refl) as (He1 & Hsup & Hg & Hs1 & Hc1).
    assert (Hkids : forall c, c ∈ children n -> forall s, w_err s = None -> marksSound s ->
      marked (roleOf n c) c s -> walked (roleOf n c) c s (Walk walkState (visit ctx rm) c s)).
    { intros c Hc s0. apply IH; [exact Hc|]. eapply below_trans; [exact Hb|].
      eapply below_child; [exact Hc|constructor]. }
    destruct (walk_children n (children n) Hb (fun _ H => H) Hkids s1 He1 Hs1 Hc1) as [H4 H5].
    split.
    + intros Hend. destruct (H4 Hend) as (Hps & Hg' & Hs'). split; [by constructor|].
      split; [by eapply grows_trans|done].
    + intros Hlive Hp. inversion Hp; subst. by apply H5.
  - split; [intros Hend; by specialize (H2 eq_refl)|].
    intros Hlive Hp. inversion Hp; subst. by specialize (H3 Hlive ltac:(done)).
Qed.

End WalkSpec.

(** ** The validator *)

(** No node is nested deeper than the guard of [nesting.go] allows. *)
Definition shallow (root : Node) : Prop :=
  forall m e, Nesting.at_depth children root m e -> (e <= Nesting.MaxNestingDepth)%Z.

Lemma at_depth_ext (f g : Node -> list Node) root m e :
  (forall n, f n = g n) -> Nesting.at_depth f root m e -> Nesting.at_depth g root m e.
Proof. intros H. induction 1 as [|n c d Hn IH Hc]; [constructor|]. econstructor; [done|]. by rewrite <- H. Qed.

Lemma checkNestingDepth_shallow root :
  (Nesting.checkNestingDepth directChildren (S (size root)) (Some root) = Some (Nesting.Ret tt) <-> shallow root).
Proof.
  assert (Hsz : forall n, sum_list_with size (directChildren n) < size n).
  { intros n. rewrite directChildren_spec. apply children_size. }
  destruct (Nesting.checkNestingDepth_exact directChildren size Hsz root (S (size root))) as [-> _]; [lia|].
  split; intros H m e Hm; apply (H m e).
  - by apply (at_depth_ext children directChildren); [intros n; rewrite directChildren_spec|].
  - by apply (at_depth_ext directChildren children); [intros n; apply directChildren_spec|].
Qed.

Lemma validateNode_walk ctx n rm polls :
  validateNode ctx n rm polls = None <->
  shallow n /\ w_err (Walk walkState (visit ctx rm) n (mkWalk None [] [] polls)) = None.
Proof.
  unfold validateNode. rewrite <- checkNestingDepth_shallow.
  destruct (Nesting.checkNestingDepth directChildren (S (size n)) (Some n)) as [[[]| |]|]; naive_solver.
Qed.

Lemma validateNode_spec ctx n rm polls : unshared n ->
  (validateNode ctx n rm polls = None -> shallow n /\ permitted rm RPlain n) /\
  ((forall k, ctx k = false) -> shallow n -> permitted rm RPlain n -> validateNode ctx n rm polls = None).
Proof.
  intros Hone. rewrite validateNode_walk.
  assert (Hs0 : marksSound n (mkWalk None [] [] polls)).
  { intros p c _ _. cbn. by split; intros ?%elem_of_nil. }
  assert (Hm0 : marked RPlain n (mkWalk None [] [] polls)).
  { split; [|intros _]; (split; [|done]); cbn; by intros ?%elem_of_nil. }
  destruct (walk_spec ctx rm n Hone n RPlain (mkWalk None [] [] polls) (below_here n) eq_refl Hs0 Hm0) as [H1 H2].
  split; [intros [Hs He]; split; [exact Hs|]; apply (H1 He)|].
  intros Hlive Hs Hp. split; [exact Hs|]. apply (H2 Hlive Hp).
Qed.

(** C14. The validator decides the supported language: whatever the context
    does, a script it accepts has no construct outside [permitted] at any
    depth, in any command substitution, redirection or assignment; and with a
    live context it accepts every such script within the nesting limit. *)
Theorem validate_exact ctx n rm polls : unshared n ->
  (validateNode ctx n rm polls = None -> shallow n /\ permitted rm RPlain n) /\
  ((forall k, ctx k = false) -> shallow n -> permitted rm RPlain n -> validateNode ctx n rm polls = None).
Proof. apply validateNode_spec. Qed.

(** In read-only mode an accepted script cannot write a file through a
    redirection it spells out: every output redirection anywhere in it targets
    the literal null device, or a word whose value only expansion knows and
    whose expansion runs no command before the runtime gate judges it. *)
Theorem static_write_gate ctx n polls m op fd w h :
  unshared n -> validateNode ctx n false polls = None ->
  below n m -> view m = VRedirect op fd w h -> writeOp op = true ->
  harmlessTarget w.
Proof.
  intros Hone Hv Hb Ev Hop.
  destruct (proj1 (validateNode_spec ctx n false polls Hone) Hv) as [_ Hp].
  destruct (permitted_below _ _ _ _ Hp Hb) as [r Hsup]. unfold supported in Hsup. rewrite Ev in Hsup.
  destruct op; cbn in *; naive_solver.
Qed.

End Spec.
End InterpValidateSpec.
