(* ===== verification/InterpTilde.v ===== *)
(** * The tilde analysis against brace expansion

    [braceFields] is the reference: the words a brace-split word expands to,
    in order.  [braceTildeAnalyzer] visits each part once and never builds
    them; the theorem says it finds a leading tilde exactly when one of the
    fields starts with one. *)

From S2P Require Import Prelude InterpSyntax InterpValidate InterpValidateSpec.
From stdpp Require Import base list sets strings.
From Stdlib Require Import ZArith Lia Ascii.

Module InterpTilde.
Import InterpSyntax InterpValidate InterpValidateSpec.

(** A part of a field: literal text, or a quoted part or expansion. *)
Inductive piece := PLit (v : bytes) | POther.

Fixpoint startsTilde (f : list piece) : bool :=
  match f with
  | [] => false
  | PLit [] :: f => startsTilde f
  | PLit v :: _ => HasPrefix v (lit "~")
  | POther :: _ => false
  end.

Fixpoint allEmpty (f : list piece) : bool :=
  match f with
  | [] => true
  | PLit [] :: f => allEmpty f
  | _ => false
  end.

Lemma startsTilde_app f g : startsTilde (f ++ g) = if allEmpty f then startsTilde g else startsTilde f.
Proof. induction f as [|[[|c v]|] f IH]; cbn; auto. Qed.

Lemma allEmpty_app f g : allEmpty (f ++ g) = allEmpty f && allEmpty g.
Proof. induction f as [|[[|c v]|] f IH]; cbn; auto. Qed.

Definition product (F G : list (list piece)) : list (list piece) :=
  f ← F; g ← G; [f ++ g].

Lemma elem_of_product h F G : h ∈ product F G <-> exists f g, f ∈ F /\ g ∈ G /\ h = f ++ g.
Proof.
  unfold product. rewrite list_elem_of_bind. split.
  - intros (f & Hh & Hf). apply list_elem_of_bind in Hh as (g & Hh & Hg).
    apply list_elem_of_singleton in Hh. eauto.
  - intros (f & g & Hf & Hg & ->). exists f. split; [|done]. apply list_elem_of_bind.
    exists g. split; [left|done].
Qed.

Section Fields.
Context {SX : Syntax}.

(** The items of a sequence expression, by the expander: integers, or the
    characters between the two ends. *)
Context (seqItems : list Node -> list bytes).

Definition sequenceItem (es : list Node) (v : bytes) : Prop :=
  (exists c cs, v = c :: cs /\ (Nesting.Nesting.isASCIIDigit c = true \/ c = "-"%char)) \/
  (exists from to rest f fs t ts c, es = from :: to :: rest /\ WordLit from = f :: fs /\
     WordLit to = t :: ts /\ v = [c] /\
     (Z.min (code f) (code t) <= code c <= Z.max (code f) (code t))%Z).

Hypothesis seqItems_doc : forall es v, v ∈ seqItems es -> sequenceItem es v.

Section Level.
Context (fields : list Node -> list (list piece)).

Definition partFields (p : Node) : list (list piece) :=
  match view p with
  | VLit v => [[PLit v]]
  | VBraceExp true es => (fun v => [PLit v]) <$> seqItems es
  | VBraceExp false es => e ← es; fields (Parts e)
  | _ => [[POther]]
  end.

Fixpoint levelFields (ps : list Node) : list (list piece) :=
  match ps with
  | [] => [[]]
  | p :: ps => product (partFields p) (levelFields ps)
  end.
End Level.

Fixpoint fieldsFuel (fuel : nat) : list Node -> list (list piece) :=
  match fuel with
  | 0 => fun _ => []
  | S fuel => levelFields (fieldsFuel fuel)
  end.

Definition braceFields (ps : list Node) : list (list piece) := fieldsFuel (heightFuel ps) ps.

(** Brace expressions of alternatives only, each with one at least. *)
Definition alternatives (n : Node) : Prop :=
  forall sequence es, view n = VBraceExp sequence es -> sequence = false /\ es <> [].

Definition plainBraces (ps : list Node) : Prop := forall p m, p ∈ ps -> below p m -> alternatives m.

(** [t] and [e] are the analyzer's verdict on the fields [F]. *)
Definition sound (F : list (list piece)) (t e : bool) : Prop :=
  t = false -> forall f, f ∈ F -> startsTilde f = false /\ (e = false -> allEmpty f = false).

Definition complete (F : list (list piece)) (t e : bool) : Prop :=
  F <> [] /\ (t = true -> exists f, f ∈ F /\ startsTilde f = true) /\
  (t = false -> e = true -> exists f, f ∈ F /\ allEmpty f = true).

Definition verdict (exact : Prop) (F : list (list piece)) (t e : bool) : Prop :=
  sound F t e /\ (exact -> complete F t e).

Lemma tilde_item es v : sequenceItem es v ->
  v <> [] /\ (HasPrefix v (lit "~") = true -> charSequenceMayYieldTilde es = true).
Proof.
  intros [(c & cs & -> & Hc)|(from & to & rest & f & fs & t & ts & c & -> & Hf & Ht & -> & Hc)].
  - split; [done|]. intros [u Hu]%HasPrefix_true. injection Hu as -> _.
    by destruct Hc as [Hc|Hc].
  - split; [done|]. intros [u Hu]%HasPrefix_true. injection Hu as -> _.
    cbn [charSequenceMayYieldTilde]. rewrite Hf, Ht. apply andb_true_iff. rewrite !Z.leb_le. lia.
Qed.

Lemma below_parts e p m : p ∈ Parts e -> below p m -> below e m.
Proof.
  intros Hp. unfold Parts in Hp. destruct (view e) eqn:E; try (by apply elem_of_nil in Hp).
  intros Hm. apply (below_child e p); [|done]. apply exposed_child. by rewrite E.
Qed.

Section LevelSpec.
Context (ctx0 : nat -> bool) (Hlive : forall k, ctx0 k = false).
Context (P : list Node -> analyzer -> bool * bool * analyzer) (fields : list Node -> list (list piece)).
Context (HP : keepsLive P).

Definition goodAt (ps : list Node) : Prop :=
  forall a, a_err a = false ->
    verdict (plainBraces ps) (fields ps) (fst (fst (P ps a))) (snd (fst (P ps a))).

Lemma elems_verdict es : (forall e, e ∈ es -> goodAt (Parts e)) -> forall acc a, a_err a = false ->
  let F := e ← es; fields (Parts e) in
  let exact := forall e, e ∈ es -> plainBraces (Parts e) in
  match elems P es acc a with
  | (Some t, _, _) => t = true /\ (exact -> exists f, f ∈ F /\ startsTilde f = true)
  | (None, em, _) =>
      (forall f, f ∈ F -> startsTilde f = false /\ (em = false -> allEmpty f = false)) /\
      (em = false -> acc = false) /\
      (exact -> em = true -> acc = true \/ exists f, f ∈ F /\ allEmpty f = true)
  end.
Proof.
  induction es as [|e es IH]; intros Hgood acc a Ha; cbn.
  { split; [by intros f ?%elem_of_nil|]. by split; [|left]. }
  destruct (Hgood e ltac:(left) a Ha) as [Hs Hc]. pose proof (HP (Parts e) a Ha) as Ha'.
  destruct (P (Parts e) a) as [[t em] a']. cbn in Hs, Hc, Ha'. rewrite Ha', orb_false_r.
  destruct t; cbn.
  { split; [done|]. intros Hex. destruct (Hc (Hex e ltac:(left))) as (_ & Hf & _).
    destruct (Hf eq_refl) as (f & Hf1 & Hf2). exists f. split; [apply elem_of_app; by left|done]. }
  specialize (IH (fun x Hx => Hgood x ltac:(by right)) (acc || em) a' Ha'). cbn in IH.
  destruct (elems P es (acc || em) a') as [[[t'|] em'] a''].
  - destruct IH as [-> IH]. split; [done|]. intros Hex.
    destruct IH as (f & Hf1 & Hf2); [intros x Hx; apply Hex; by right|].
    exists f. split; [apply elem_of_app; by right|done].
  - destruct IH as (H1 & H2 & H3). split; [|split].
    + intros f [Hf|Hf]%elem_of_app; [|by apply H1]. destruct (Hs eq_refl f Hf) as [Ht He].
      split; [done|]. intros E. specialize (H2 E). apply orb_false_iff in H2 as [_ ->]. auto.
    + intros E. specialize (H2 E). by apply orb_false_iff in H2 as [-> _].
    + intros Hex E. destruct (H3 (fun x Hx => Hex x ltac:(by right)) E) as [Hor|(f & Hf1 & Hf2)].
      * apply orb_true_iff in Hor as [->| ->]; [by left|]. right.
        destruct (Hc (Hex e ltac:(left))) as (_ & _ & Hf). destruct (Hf eq_refl eq_refl) as (f & Hf1 & Hf2).
        exists f. split; [apply elem_of_app; by left|done].
      * right. exists f. split; [apply elem_of_app; by right|done].
Qed.

(** A part that decides the start of the field, or leaves it to the rest. *)
Lemma product_verdict exact F G t1 (e1 : bool) t2 e2 :
  verdict exact F t1 e1 -> (exact -> G <> []) ->
  (e1 = true -> t1 = false -> verdict exact G t2 e2) ->
  verdict exact (product F G) (if t1 then true else if e1 then t2 else false)
                              (if t1 then false else if e1 then e2 else false).
Proof.
  intros [Hs1 Hc1] HG H2. split.
  - intros Ht h (f & g & Hf & Hg & ->)%elem_of_product. rewrite startsTilde_app, allEmpty_app.
    destruct t1; [done|]. destruct (Hs1 eq_refl f Hf) as [Hsf Hef].
    destruct e1.
    + destruct (H2 eq_refl eq_refl) as [Hs2 _]. destruct (Hs2 Ht g Hg) as [Hsg Heg].
      destruct (allEmpty f); cbn; auto.
    + rewrite (Hef eq_refl). cbn. auto.
  - intros Hex. destruct (Hc1 Hex) as (Hn & Ht1 & He1). specialize (HG Hex).
    destruct F as [|f0 F]; [done|]. destruct G as [|g0 G]; [done|].
    split; [intros E; assert (f0 ++ g0 ∈ ([] : list (list piece))) as Hx;
            [rewrite <- E; apply elem_of_product; exists f0, g0; split_and!; by try left|by apply elem_of_nil in Hx]|].
    destruct t1.
    + split; [|done]. intros _. destruct (Ht1 eq_refl) as (f & Hf & Hsf). exists (f ++ g0).
      split; [apply elem_of_product; exists f, g0; split_and!; by try left|]. rewrite startsTilde_app.
      destruct (allEmpty f) eqn:Ef; [|done].
      exfalso. clear -Hsf Ef. induction f as [|[[|c v]|] f IH]; cbn in *; auto; done.
    + destruct e1; [|by split].
      destruct (He1 eq_refl eq_refl) as (f & Hf & Hef). destruct (H2 eq_refl eq_refl) as [_ Hc2].
      destruct (Hc2 Hex) as (_ & Ht2 & He2).
      split; [intros ->; destruct (Ht2 eq_refl) as (g & Hg & Hsg)|intros -> ->; destruct (He2 eq_refl eq_refl) as (g & Hg & Hsg)];
        exists (f ++ g); (split; [apply elem_of_product; by exists f, g|]);
        rewrite ?startsTilde_app, ?allEmpty_app, Hef; cbn; done.
Qed.

Lemma verdict_single exact f t e : startsTilde f = t -> (t = false -> allEmpty f = e) -> verdict exact [f] t e.
Proof.
  intros Ht He. split.
  - intros -> g ->%list_elem_of_singleton. split; [done|]. by intros ->; apply He.
  - intros _. split; [done|]. split; [intros ->|intros -> ->]; exists f; (split; [left|auto]).
Qed.

Lemma braces_verdict p es a : view p = VBraceExp false es -> (forall e, e ∈ es -> goodAt (Parts e)) ->
  (plainBraces [p] -> forall e, e ∈ es -> fields (Parts e) <> []) ->
  a_err a = false ->
  exists t e a', (match elems P es false a with
     | (Some tilde, _, a') => (tilde, false, a')
     | (None, em, a') => (false, em, a') end) = (t, e, a') /\ a_err a' = false /\
  verdict (plainBraces [p] /\ forall e, e ∈ es -> plainBraces (Parts e)) (partFields fields p) t e.
Proof.
  intros Ev Hgood Hne Ha. pose proof (elems_verdict es Hgood false a Ha) as Hv.
  pose proof (elems_keeps P es HP false a Ha) as Hk. cbn in Hv.
  unfold partFields. rewrite Ev.
  assert (Hnon : plainBraces [p] -> (e ← es; fields (Parts e)) <> []).
  { intros Hpl. assert (Halt : alternatives p) by (apply (Hpl p); [left|constructor]).
    destruct (Halt _ _ Ev) as [_ Hes]. specialize (Hne Hpl).
    destruct es as [|e es]; [done|]. cbn. specialize (Hne e ltac:(left)).
    destruct (fields (Parts e)); [done|]. done. }
  destruct (elems P es false a) as [[[t|] em] a']; cbn in Hk.
  - destruct Hv as [-> Hv]. exists true, false, a'. split; [done|]. split; [done|]. split; [done|].
    intros [Hp Hex]. split; [auto|]. split; [auto|done].
  - destruct Hv as (H1 & H2 & H3). exists false, em, a'. split; [done|]. split; [done|]. split; [intros _; exact H1|].
    intros [Hp Hex]. split; [auto|]. split; [done|]. intros _ E. by destruct (H3 Hex E).
Qed.
Lemma verdict_mono (ex ex' : Prop) F t e : (ex' -> ex) -> verdict ex F t e -> verdict ex' F t e.
Proof. intros H [Hs Hc]. split; [exact Hs|auto]. Qed.

Lemma sequence_verdict (exact : Prop) p es : view p = VBraceExp true es -> (exact -> alternatives p) ->
  verdict exact (partFields fields p) (charSequenceMayYieldTilde es) false.
Proof.
  intros Ev Hex. unfold partFields. rewrite Ev. split.
  - intros Ht f (v & -> & Hv)%list_elem_of_fmap. apply seqItems_doc, tilde_item in Hv as [Hne Hp].
    destruct v as [|c v]; [done|]. split; [|done].
    change (HasPrefix (c :: v) (lit "~") = false).
    destruct (HasPrefix (c :: v) (lit "~")); [|done]. rewrite <- Ht. symmetry. auto.
  - intros E. by destruct (Hex E _ _ Ev).
Qed.

Lemma brace_part_below p es e m : view p = VBraceExp false es -> e ∈ es ->
  (exists q, q ∈ Parts e /\ below q m) -> below p m.
Proof.
  intros Ev He (q & Hq & Hm). apply (below_child p e); [apply exposed_child; by rewrite Ev|].
  by apply (below_parts e q).
Qed.

(** The loop over the parts, one level of the tree. *)
Lemma partsLoop_verdict ps :
  (forall p e es, p ∈ ps -> view p = VBraceExp false es -> e ∈ es ->
     goodAt (Parts e) /\ (plainBraces (Parts e) -> fields (Parts e) <> [])) ->
  (forall qs, (forall q, q ∈ qs -> q ∈ ps) -> plainBraces qs -> levelFields fields qs <> []) ->
  forall a, a_err a = false ->
  verdict (plainBraces ps) (levelFields fields ps)
    (fst (fst (partsLoop ctx0 P ps a))) (snd (fst (partsLoop ctx0 P ps a))).
Proof.
  induction ps as [|p ps IH]; intros Hgood Hlvl a Ha.
  { cbn. by apply verdict_single. }
  assert (Hsub : plainBraces (p :: ps) -> plainBraces ps) by (intros H q m Hq; apply H; by right).
  assert (Hhd : plainBraces (p :: ps) -> plainBraces [p])
    by (intros H q m ->%list_elem_of_singleton; apply H; left).
  assert (HG : plainBraces (p :: ps) -> levelFields fields ps <> [])
    by (intros H; apply (Hlvl ps); [by right|auto]).
  assert (HIH : forall a, a_err a = false -> verdict (plainBraces (p :: ps)) (levelFields fields ps)
    (fst (fst (partsLoop ctx0 P ps a))) (snd (fst (partsLoop ctx0 P ps a)))).
  { intros a1 Ha1. eapply verdict_mono; [exact Hsub|]. apply IH; [..|exact Ha1].
    - intros q e es Hq. apply (Hgood q e es). by right.
    - intros qs Hqs. apply Hlvl. intros q Hq. right. auto. }
  pose proof (tick_live ctx0 Hlive a Ha) as Ha1. cbn [partsLoop levelFields].
  rewrite Ha1. set (a1 := tick ctx0 a) in *.
  assert (Hother : view p <> VOther -> True) by done. clear Hother.
  assert (Hplain : partFields fields p = [[POther]] ->
    verdict (plainBraces (p :: ps)) (product (partFields fields p) (levelFields fields ps)) false false).
  { intros ->. apply (product_verdict _ _ _ false false false false); [by apply verdict_single|exact HG|done]. }
  destruct (view p) as [ | | | | | | | | | | | | | | | | | | | |v| | | | | | | |sq es| | | ] eqn:Ev;
    try (apply Hplain; unfold partFields; by rewrite Ev).
  - destruct v as [|c v].
    + specialize (HIH a1 Ha1).
      apply (product_verdict _ _ _ false true (fst (fst (partsLoop ctx0 P ps a1))) (snd (fst (partsLoop ctx0 P ps a1)))).
      * unfold partFields. rewrite Ev. by apply verdict_single.
      * exact HG.
      * done.
    + pose proof (product_verdict (plainBraces (p :: ps)) (partFields fields p) (levelFields fields ps)
        (HasPrefix (c :: v) (lit "~")) false false false) as Hpv.
      cbn -[HasPrefix lit]. destruct (HasPrefix (c :: v) (lit "~")) eqn:Et;
        (apply Hpv; [unfold partFields; rewrite Ev; by apply verdict_single|exact HG|done]).
  - destruct sq.
    + pose proof (product_verdict (plainBraces (p :: ps)) (partFields fields p) (levelFields fields ps)
        (charSequenceMayYieldTilde es) false false false) as Hpv.
      cbn -[charSequenceMayYieldTilde].
      assert (Hs : verdict (plainBraces (p :: ps)) (partFields fields p) (charSequenceMayYieldTilde es) false).
      { apply sequence_verdict; [exact Ev|]. intros H. apply (H p); [left|constructor]. }
      destruct (charSequenceMayYieldTilde es); (apply Hpv; [exact Hs|exact HG|done]).
    + assert (Hes : plainBraces [p] -> forall e, e ∈ es -> plainBraces (Parts e)).
      { intros H e He q m Hq Hm. apply (H p); [left|]. apply (brace_part_below p es e m Ev He). by exists q. }
      destruct (braces_verdict p es a1 Ev) as (t & e & a' & Heq & Ha' & Hv); [|..|exact Ha1|].
      { intros e He. apply (Hgood p e es); [left|done..]. }
      { intros H e He. apply (Hgood p e es); [left|done..|]. by apply Hes. }
      specialize (HIH a' Ha').
      pose proof (product_verdict (plainBraces (p :: ps)) (partFields fields p) (levelFields fields ps) t e
        (fst (fst (partsLoop ctx0 P ps a'))) (snd (fst (partsLoop ctx0 P ps a')))
        (verdict_mono _ _ _ _ _ (fun H => conj (Hhd H) (Hes (Hhd H))) Hv) HG (fun _ _ => HIH)) as Hpv.
      cbn. destruct (elems P es false a1) as [[[tilde|] em] a2]; injection Heq as <- <- <-.
      * by destruct tilde.
      * by destruct em.
Qed.

End LevelSpec.

(** ** The whole analysis *)

(** The word's first part is a literal that starts with a tilde: rejected
    before any brace is looked at. *)
Definition firstLitTilde (w : Node) : bool :=
  match Parts w with
  | p :: _ => match litValue p with Some v => HasPrefix v (lit "~") | None => false end
  | [] => false
  end.

Lemma fieldsFuel_nonempty fuel : forall ps,
  (forall p, p ∈ ps -> size p < fuel) -> plainBraces ps -> fuel <> 0 -> fieldsFuel fuel ps <> [].
Proof.
  induction fuel as [|fuel IH]; [done|]. intros ps Hsz Hpl _. cbn [fieldsFuel].
  induction ps as [|p ps IHps]; cbn; [done|].
  assert (Hp : partFields (fieldsFuel fuel) p <> []).
  { unfold partFields. destruct (view p) as [ | | | | | | | | | | | | | | | | | | | |v| | | | | | | |sq es| | | ] eqn:Ev; try done.
    destruct (Hpl p p ltac:(left) (below_here p) _ _ Ev) as [-> Hes]. destruct es as [|e es]; [done|].
    assert (He : e ∈ children p) by (apply exposed_child; rewrite Ev; left).
    pose proof (child_smaller _ _ He) as Hep. pose proof (Hsz p ltac:(left)) as Hpf. cbn.
    destruct (fieldsFuel fuel (Parts e)) eqn:E; [|done]. exfalso. apply (IH (Parts e)); [|..|done].
    - intros q Hq. assert (Hq' : q ∈ children e).
      { unfold Parts in Hq. destruct (view e) eqn:Ee; try by apply elem_of_nil in Hq.
        apply exposed_child. by rewrite Ee. }
      apply child_smaller in Hq'. lia.
    - intros q m Hq Hm. apply (Hpl p); [left|]. apply (below_child p e); [done|]. by apply (below_parts e q).
    - lia. }
  assert (Hps : levelFields (fieldsFuel fuel) ps <> []).
  { apply IHps; [intros q Hq; apply Hsz; by right|intros q m Hq; apply Hpl; by right]. }
  destruct (partFields _ p) as [|f F]; [done|]. destruct (levelFields _ ps) as [|g G]; [done|]. done.
Qed.

Lemma parts_smaller e q : q ∈ Parts e -> size q < size e.
Proof.
  unfold Parts. destruct (view e) eqn:Ee; try by intros ?%elem_of_nil.
  intros Hq. apply child_smaller, exposed_child. by rewrite Ee.
Qed.

Lemma partsFuel_verdict ctx0 (Hlive : forall k, ctx0 k = false) fuel : forall ps a,
  (forall p, p ∈ ps -> size p < fuel) -> fuel <> 0 -> a_err a = false ->
  verdict (plainBraces ps) (fieldsFuel fuel ps)
    (fst (fst (partsFuel ctx0 fuel ps a))) (snd (fst (partsFuel ctx0 fuel ps a))).
Proof.
  induction fuel as [|fuel IH]; [done|]. intros ps a Hsz _ Ha. cbn [partsFuel fieldsFuel].
  apply partsLoop_verdict; [exact Hlive|apply (partsFuel_live ctx0 ctx0 Hlive)|..|exact Ha].
  - intros p e es Hp Ev He.
    assert (Hep : size e < size p) by (apply child_smaller, exposed_child; by rewrite Ev).
    specialize (Hsz p Hp).
    assert (Hq : forall q, q ∈ Parts e -> size q < fuel) by (intros q Hq%parts_smaller; lia).
    split.
    + intros a1 Ha1. apply IH; [exact Hq|lia|exact Ha1].
    + intros Hpl. apply fieldsFuel_nonempty; [exact Hq|exact Hpl|lia].
  - intros qs Hqs Hpl. apply (fieldsFuel_nonempty (S fuel) qs); [|exact Hpl|done]. auto.
Qed.

Lemma heightFuel_enough ps p : p ∈ ps -> size p < heightFuel ps.
Proof. intros Hp. by apply Nat.lt_succ_r, list_max_map_in. Qed.

Lemma parts_verdict ctx0 ps a : (forall k, ctx0 k = false) -> a_err a = false ->
  verdict (plainBraces ps) (braceFields ps) (fst (fst (parts ctx0 ps a))) (snd (fst (parts ctx0 ps a))).
Proof.
  intros Hlive Ha. apply partsFuel_verdict; [exact Hlive|apply heightFuel_enough|done|exact Ha].
Qed.

(** The tilde check is right about brace expansion.  A word with a tilde
    that passes it expands to no field that starts with an unquoted tilde,
    sequences and any cancellation included; and when the braces hold only
    alternatives, a word it rejects for its tilde after the pre-scan has a
    field that does start with one. *)
Theorem tilde_fields_exact ctx w polls split :
  fst (fst (scanParts (Parts w) false 0 0)) = true -> SplitBraces w = (true, split) ->
  (fst (validateWordTilde ctx w false polls) = None ->
     forall f, f ∈ braceFields split -> startsTilde f = false) /\
  (plainBraces split -> firstLitTilde w = false ->
     fst (validateWordTilde ctx w false polls) = Some errTildeNotSupported ->
     exists f, f ∈ braceFields split /\ startsTilde f = true).
Proof.
  intros Hscan Hsplit. unfold validateWordTilde, firstLitTilde.
  destruct (Parts w) as [|p ps]; [done|].
  destruct (match litValue p with Some v => _ | None => _ end); [by split|].
  destruct (scanParts (p :: ps) false 0 0) as [[h d] m]. cbn in Hscan. subst h. cbn [negb].
  rewrite Hsplit. cbn [negb].
  destruct (partsFuel_live ctx (fun _ => false) (fun _ => eq_refl) (heightFuel split)) as [Hk Hs].
  specialize (Hs split (mkAnalyzer 0 polls false) (mkAnalyzer 0 polls false) eq_refl eq_refl).
  pose proof (parts_verdict (fun _ => false) split (mkAnalyzer 0 polls false) (fun _ => eq_refl) eq_refl) as [Hsnd Hcmp].
  unfold parts in *. destruct (partsFuel ctx (heightFuel split) split _) as [[t e] a]. cbn [fst snd a_err] in Hs.
  destruct (_ <? m)%Z; [by split|]. destruct (a_err a); [by split|].
  specialize (Hs eq_refl). rewrite <- Hs in Hsnd, Hcmp. cbn in Hsnd, Hcmp.
  destruct t; cbn; (split; [|intros Hpl _]); try done.
  - intros _. destruct (Hcmp Hpl) as (_ & H & _). by apply H.
  - intros _ f Hf. by apply (Hsnd eq_refl).
Qed.

End Fields.
End InterpTilde.
