(* ===== verification/InterpVars.v ===== *)
(** * Shell variables: overlays and the run-wide storage budget

    [overlayEnviron] of [interp/vars.go].  Overlays are shared by pointer, and
    so are budgets, so both live in a [heap]; an operation is a function on the
    heap.  Every overlay is used by one goroutine at a time and the budget is
    only touched under its lock, so the concurrent executions are the sequences
    of these operations. *)

From S2P Require Import Prelude.
From stdpp Require Import base list gmap sets strings.
From Stdlib Require Import ZArith Lia Ascii.

Module InterpVars.

(** ** Variables

    [expand.Variable] is third-party; these are its fields. *)
Inductive varKind := KUnknown | KString | KNameRef | KIndexed | KAssociative | KeepValue.

#[export] Instance varKind_eq_dec : EqDecision varKind.
Proof. solve_decision. Defined.

Record Var := mkVar {
  v_Set : bool; v_Local : bool; v_Exported : bool; v_ReadOnly : bool;
  v_Kind : varKind; v_Str : bytes; v_List : list bytes; v_Map : list (bytes * bytes) }.

Definition zeroVar : Var := mkVar false false false false KUnknown [] [] [].

Definition withLocal (l : bool) (v : Var) : Var :=
  mkVar (v_Set v) l (v_Exported v) (v_ReadOnly v) (v_Kind v) (v_Str v) (v_List v) (v_Map v).
Definition withExported (e : bool) (v : Var) : Var :=
  mkVar (v_Set v) (v_Local v) e (v_ReadOnly v) (v_Kind v) (v_Str v) (v_List v) (v_Map v).
Definition withValueOf (w v : Var) : Var :=
  mkVar (v_Set v) (v_Local v) (v_Exported v) (v_ReadOnly v) (v_Kind w) (v_Str w) (v_List w) (v_Map w).

Definition MaxVarBytes : Z := 2 ^ 20.
Definition MaxTotalVarsBytes : Z := 2 ^ 20.
Definition MaxTotalVarEntryBytes : Z := 2 ^ 20.
Definition varEntryOverheadBytes : Z := 64.

(** ** Storage *)

Record varStorage := mkStorage { st_values : Z; st_entries : Z }.

#[export] Instance varStorage_eq_dec : EqDecision varStorage.
Proof. solve_decision. Defined.

Definition noStorage : varStorage := mkStorage 0 0.

Definition add (a b : varStorage) : varStorage :=
  mkStorage (st_values a + st_values b) (st_entries a + st_entries b).
Definition sub (a b : varStorage) : varStorage :=
  mkStorage (st_values a - st_values b) (st_entries a - st_entries b).
Definition grows (a from : varStorage) : bool :=
  ((st_values from <? st_values a) || (st_entries from <? st_entries a))%Z.
Definition exceedsCaps (a : varStorage) : bool :=
  ((MaxTotalVarsBytes <? st_values a) || (MaxTotalVarEntryBytes <? st_entries a))%Z.

(** ** The heap *)

(** The parent of an overlay: another overlay, or an environment the embedding
    program provides, of which only [Get] and [Each] are known. *)
Inductive environ := EnvOverlay (o : nat) | EnvBase.

Record overlayEnviron := mkOverlay {
  o_parent : option environ;
  o_values : gmap bytes Var;
  o_budget : option nat;
  o_owned : gmap bytes varStorage;
  o_charged : varStorage }.

Record heap := mkHeap {
  overlays : gmap nat overlayEnviron;
  budgets : gmap nat varStorage;  (* varStorageBudget.live *)
  next : nat }.

Inductive setError :=
| ErrReadOnly
| ErrTotalVarStorageExceeded (total : varStorage).

Section Vars.

(** The third-party methods, and the base environment. *)
Context (IsSet Declared : Var -> bool).
Context (baseGet : bytes -> Var) (baseEach : list (bytes * Var)).

Definition varStorageCost (name : bytes) (vr : Var) : varStorage :=
  if negb (Declared vr) then noStorage
  else mkStorage (Z.of_nat (length (v_Str vr))) (Z.of_nat (length name) + varEntryOverheadBytes).

Definition overlay (h : heap) (o : nat) : overlayEnviron :=
  default (mkOverlay None ∅ None ∅ noStorage) (overlays h !! o).

Definition setOverlay (o : nat) (x : overlayEnviron) (h : heap) : heap :=
  mkHeap (<[o := x]> (overlays h)) (budgets h) (next h).

Definition live (h : heap) (b : nat) : varStorage := default noStorage (budgets h !! b).

Definition setLive (b : nat) (s : varStorage) (h : heap) : heap :=
  mkHeap (overlays h) (<[b := s]> (budgets h)) (next h).

Definition setBudget (b : option nat) (x : overlayEnviron) : overlayEnviron :=
  mkOverlay (o_parent x) (o_values x) b (o_owned x) (o_charged x).
Definition setValues (vs : gmap bytes Var) (x : overlayEnviron) : overlayEnviron :=
  mkOverlay (o_parent x) vs (o_budget x) (o_owned x) (o_charged x).
Definition setOwned (ow : gmap bytes varStorage) (ch : varStorage) (x : overlayEnviron) : overlayEnviron :=
  mkOverlay (o_parent x) (o_values x) (o_budget x) ow ch.

Definition newBudget (s : varStorage) (h : heap) : nat * heap :=
  (next h, mkHeap (overlays h) (<[next h := s]> (budgets h)) (S (next h))).

Definition sharedBudget (o : nat) (h : heap) : nat * heap :=
  match o_budget (overlay h o) with
  | Some b => (b, h)
  | None =>
      let '(b, h) := newBudget (o_charged (overlay h o)) h in
      (b, setOverlay o (setBudget (Some b) (overlay h o)) h)
  end.

(** An absent key of the Go map reads as the zero storage. *)
Definition ownedOf (x : overlayEnviron) (name : bytes) : varStorage := default noStorage (o_owned x !! name).

Definition putOwned (name : bytes) (c : varStorage) (m : gmap bytes varStorage) : gmap bytes varStorage :=
  if decide (c = noStorage) then delete name m else <[name := c]> m.

Definition own (o : nat) (name : bytes) (vr : Var) (enforce : bool) (h : heap) : option setError * heap :=
  let newCost := varStorageCost name vr in
  let oldCost := ownedOf (overlay h o) name in
  let delta := sub newCost oldCost in
  let '(b, h) := sharedBudget o h in
  let after := add (live h b) delta in
  if enforce && grows newCost oldCost && exceedsCaps after then (Some (ErrTotalVarStorageExceeded after), h)
  else
    let h := setLive b after h in
    let x := overlay h o in
    (None, setOverlay o (setOwned (putOwned name newCost (o_owned x)) (add (o_charged x) delta) x) h).

Definition release (o : nat) (h : heap) : heap :=
  let x := overlay h o in
  let h := match o_budget x with
           | Some b => setLive b (sub (live h b) (o_charged x)) h
           | None => h
           end in
  setOverlay o (setOwned ∅ noStorage x) h.

Definition resetAccounting (o : nat) (h : heap) : heap :=
  let '(b, h) := newBudget noStorage h in
  setOverlay o (setOwned ∅ noStorage (setBudget (Some b) (overlay h o))) h.

(** [Get]; an overlay is younger than its parent, so the overlay's number is
    enough fuel for the chain. *)
Fixpoint Get_fuel (fuel : nat) (h : heap) (o : nat) (name : bytes) : Var :=
  match o_values (overlay h o) !! name with
  | Some vr => vr
  | None =>
      match fuel, o_parent (overlay h o) with
      | S fuel, Some (EnvOverlay p) => Get_fuel fuel h p name
      | _, Some EnvBase => baseGet name
      | _, _ => zeroVar
      end
  end.

Definition Get (h : heap) (o : nat) (name : bytes) : Var := Get_fuel o h o name.

Definition envGet (h : heap) (e : environ) (name : bytes) : Var :=
  match e with EnvOverlay o => Get h o name | EnvBase => baseGet name end.

(** The binding an assignment replaces: the overlay's own, or the parent's. *)
Definition previous (h : heap) (o : nat) (name : bytes) : Var :=
  match o_values (overlay h o) !! name with
  | Some vr => vr
  | None => match o_parent (overlay h o) with
            | Some p => envGet h p name
            | None => zeroVar
            end
  end.

Definition putValue (o : nat) (name : bytes) (vr : Var) (h : heap) : heap :=
  setOverlay o (setValues (<[name := vr]> (o_values (overlay h o))) (overlay h o)) h.

Definition delValue (o : nat) (name : bytes) (h : heap) : heap :=
  setOverlay o (setValues (delete name (o_values (overlay h o))) (overlay h o)) h.

Definition SetVar (o : nat) (name : bytes) (vr : Var) (h : heap) : option setError * heap :=
  let prev := previous h o name in
  if v_ReadOnly prev && negb (bool_decide (v_Kind vr = KeepValue)) then (Some ErrReadOnly, h)
  else if bool_decide (v_Kind vr = KeepValue) && v_ReadOnly prev then (Some ErrReadOnly, h)
  else
    let vr := if bool_decide (v_Kind vr = KeepValue) then withValueOf prev vr else vr in
    if negb (IsSet vr) then
      if v_Local prev then
        let vr := withLocal true vr in
        let '(_, h) := own o name vr false h in
        (None, putValue o name vr h)
      else
        let '(_, h) := own o name zeroVar false h in
        (None, delValue o name h)
    else
      let vr := withLocal (v_Local prev || v_Local vr) vr in
      match own o name vr true h with
      | (Some e, h) => (Some e, h)
      | (None, h) => (None, putValue o name vr h)
      end.

Definition setUncapped (o : nat) (name : bytes) (vr : Var) (h : heap) : heap :=
  let prev := previous h o name in
  let vr := withLocal (v_Local prev || v_Local vr) vr in
  let '(_, h) := own o name vr false h in
  putValue o name vr h.

Record bindingSnapshot := mkSnapshot {
  sn_name : bytes; sn_vr : Var; sn_inOverlay : bool; sn_owned : varStorage }.

Definition snapshotBinding (o : nat) (name : bytes) (h : heap) : bindingSnapshot :=
  let x := overlay h o in
  mkSnapshot name (default zeroVar (o_values x !! name))
    (match o_values x !! name with Some _ => true | None => false end) (ownedOf x name).

Definition restoreBinding (o : nat) (snap : bindingSnapshot) (h : heap) : heap :=
  let '(b, h) := sharedBudget o h in
  let delta := sub (sn_owned snap) (ownedOf (overlay h o) (sn_name snap)) in
  let h := setLive b (add (live h b) delta) h in
  let x := overlay h o in
  let h := setOverlay o (setOwned (putOwned (sn_name snap) (sn_owned snap) (o_owned x)) (add (o_charged x) delta) x) h in
  if sn_inOverlay snap then putValue o (sn_name snap) (sn_vr snap) h
  else delValue o (sn_name snap) h.

(** [Each]: the bindings in effect.  Go visits a map in no particular order;
    the own bindings come first, then the parent's that are not overridden. *)
Fixpoint Each_fuel (fuel : nat) (h : heap) (o : nat) : list (bytes * Var) :=
  let x := overlay h o in
  map_to_list (o_values x) ++
  filter (fun nv => o_values x !! fst nv = None)
    (match fuel, o_parent x with
     | S fuel, Some (EnvOverlay p) => Each_fuel fuel h p
     | _, Some EnvBase => baseEach
     | _, _ => []
     end).

Definition envEach (h : heap) (e : environ) : list (bytes * Var) :=
  match e with EnvOverlay o => Each_fuel o h o | EnvBase => baseEach end.

Definition inheritedStorage (es : list (bytes * Var)) : varStorage :=
  foldr (fun nv s => add s (varStorageCost (fst nv) (snd nv))) noStorage es.

(** [maps.Insert]. *)
Definition insertAll (es : list (bytes * Var)) : gmap bytes Var :=
  foldl (fun m nv => <[fst nv := snd nv]> m) ∅ es.

Definition newOverlayEnviron (parent : environ) (background : bool) (h : heap) : nat * heap :=
  let x := if background
           then mkOverlay None (insertAll (envEach h parent)) None ∅ noStorage
           else mkOverlay (Some parent) ∅ None ∅ noStorage in
  let '(b, h) := match parent with
                 | EnvOverlay p => sharedBudget p h
                 | EnvBase => newBudget (inheritedStorage baseEach) h
                 end in
  let o := next h in
  (o, mkHeap (<[o := setBudget (Some b) x]> (overlays h)) (budgets h) (S o)).

End Vars.
End InterpVars.
