(* ===== verification/InterpStore.v ===== *)
(** * The variable storage budget is exact

    From the root overlay that [Reset] installs, every sequence of operations
    by any number of subshells and pipeline stages keeps the shared budget
    equal to the storage of the bindings the live overlays assigned. *)

From S2P Require Import Prelude InterpVars.
From stdpp Require Import base list gmap sets strings.
From Stdlib Require Import ZArith Lia Ascii.

Module InterpStore.
Import InterpVars.

(** ** Sums of storage *)

Ltac storage :=
  repeat match goal with s : varStorage |- _ => destruct s end;
  unfold add, sub, noStorage in *; cbn in *; f_equal; lia.

Section Sum.
Context `{Countable K}.

Definition total (m : gmap K varStorage) : varStorage := map_fold (fun _ s acc => add s acc) noStorage m.

Lemma total_empty : total ∅ = noStorage.
Proof. apply map_fold_empty. Qed.

Lemma total_insert_new m k s : m !! k = None -> total (<[k := s]> m) = add s (total m).
Proof.
  intros Hk. unfold total. rewrite map_fold_insert_L; [done| |done].
  intros. storage.
Qed.

Lemma total_delete m k : total (delete k m) = sub (total m) (default noStorage (m !! k)).
Proof.
  destruct (m !! k) as [s|] eqn:E; cbn.
  - rewrite <- (insert_delete_id m k s) at 2 by done.
    rewrite total_insert_new by apply lookup_delete_eq. generalize (total (delete k m)). intros. storage.
  - rewrite delete_id by done. generalize (total m). intros. storage.
Qed.

Lemma total_insert m k s : total (<[k := s]> m) = add (total m) (sub s (default noStorage (m !! k))).
Proof.
  rewrite <- insert_delete_eq, total_insert_new by apply lookup_delete_eq. rewrite total_delete.
  generalize (total m), (default noStorage (m !! k)). intros. storage.
Qed.
End Sum.

Lemma total_put (name : bytes) (c : varStorage) (m : gmap bytes varStorage) :
  total (putOwned name c m) = add (total m) (sub c (default noStorage (m !! name))).
Proof.
  unfold putOwned. destruct (decide (c = noStorage)) as [->|]; [|apply total_insert].
  rewrite total_delete. generalize (total m), (default noStorage (m !! name)). intros. storage.
Qed.

Section Spec.
Context (IsSet Declared : Var -> bool) (baseGet : bytes -> Var) (baseEach : list (bytes * Var)).

(** The zero variable is undeclared (documentation of package [expand]). *)
Hypothesis zero_undeclared : Declared zeroVar = false.

(** The environment the embedding program provides holds no function locals:
    the shell has no functions. *)
Hypothesis base_global : forall name, v_Local (baseGet name) = false.
Hypothesis base_each_global : forall nv, nv ∈ baseEach -> v_Local (snd nv) = false.

Abbreviation cost := (varStorageCost Declared).
Abbreviation SetVar := (SetVar IsSet Declared baseGet).

Definition nonneg (s : varStorage) : Prop := (0 <= st_values s /\ 0 <= st_entries s)%Z.

Lemma varCost_nonneg name vr : nonneg (cost name vr).
Proof. unfold varStorageCost, nonneg. destruct (negb _); cbn; unfold varEntryOverheadBytes; lia. Qed.

(** ** The invariant

    [b] is the run's budget. *)
Definition ownedExact (x : overlayEnviron) : Prop :=
  o_charged x = total (o_owned x) /\
  forall name c, o_owned x !! name = Some c ->
    c <> noStorage /\ exists vr, o_values x !! name = Some vr /\ c = cost name vr.

Definition global (vs : gmap bytes Var) : Prop := forall name vr, vs !! name = Some vr -> v_Local vr = false.

Definition Inv (b : nat) (h : heap) : Prop :=
  budgets h !! b = Some (total (o_charged <$> overlays h)) /\
  (forall o x, overlays h !! o = Some x ->
     o < next h /\ o_budget x = Some b /\ ownedExact x /\ global (o_values x)).

(** Every assignment, unset and restore has this effect. *)
Definition update (b o : nat) (x : overlayEnviron) (name : bytes) (v : option Var) (c : varStorage) (h : heap) : heap :=
  mkHeap
    (<[o := mkOverlay (o_parent x) (match v with Some vr => <[name := vr]> (o_values x) | None => delete name (o_values x) end)
              (Some b) (putOwned name c (o_owned x)) (add (o_charged x) (sub c (ownedOf x name)))]> (overlays h))
    (<[b := add (live h b) (sub c (ownedOf x name))]> (budgets h))
    (next h).

Definition coherent (name : bytes) (v : option Var) (c : varStorage) : Prop :=
  (c = noStorage \/ exists vr, v = Some vr /\ c = cost name vr) /\ (forall vr, v = Some vr -> v_Local vr = false).

Lemma update_Inv b o x name v c h :
  Inv b h -> overlays h !! o = Some x -> coherent name v c -> Inv b (update b o x name v c h).
Proof.
  intros [Hb Ho] Hx [Hc Hvl]. destruct (Ho o x Hx) as (Hlt & Hbud & (Hch & Hown) & Hloc). split.
  - cbn. rewrite lookup_insert_eq, fmap_insert, total_insert, lookup_fmap, Hx. cbn. f_equal.
    unfold live. rewrite Hb. cbn. generalize (total (o_charged <$> overlays h)), (ownedOf x name). intros. storage.
  - intros o' x' Hx'. cbn in Hx'. destruct (decide (o' = o)) as [->|Hne].
    + rewrite lookup_insert_eq in Hx'. injection Hx' as <-. split; [done|]. split; [done|]. split; [split|]; cbn.
      * by rewrite total_put, Hch.
      * intros n c' Hc'. unfold putOwned in Hc'.
        destruct (decide (n = name)) as [->|Hn].
        -- destruct (decide (c = noStorage)); [by rewrite lookup_delete_eq in Hc'|].
           rewrite lookup_insert_eq in Hc'. injection Hc' as <-. split; [done|].
           destruct Hc as [?|(vr & -> & ->)]; [done|]. exists vr. by rewrite lookup_insert_eq.
        -- assert (Hc2 : o_owned x !! n = Some c').
           { destruct (decide (c = noStorage)); [by rewrite lookup_delete_ne in Hc'|by rewrite lookup_insert_ne in Hc']. }
           destruct (Hown n c' Hc2) as (Hnz & vr & Hvr & ->). split; [done|]. exists vr.
           destruct v; [by rewrite lookup_insert_ne|by rewrite lookup_delete_ne].
      * intros n vr Hn. destruct v as [w|].
        -- destruct (decide (n = name)) as [->|]; [|rewrite lookup_insert_ne in Hn by done; eauto].
           rewrite lookup_insert_eq in Hn. injection Hn as <-. auto.
        -- apply lookup_delete_Some in Hn as [_ Hn]. eauto.
    + rewrite lookup_insert_ne in Hx' by done. by apply Ho.
Qed.

(** ** The operations as updates *)

Lemma overlay_at h o x : overlays h !! o = Some x -> overlay h o = x.
Proof. intros H. unfold overlay. by rewrite H. Qed.

Lemma sharedBudget_at b h o x : Inv b h -> overlays h !! o = Some x -> sharedBudget o h = (b, h).
Proof.
  intros [_ Ho] Hx. unfold sharedBudget. rewrite (overlay_at h o x Hx).
  by destruct (Ho o x Hx) as (_ & -> & _).
Qed.

Lemma own_at b o x name vr enforce h : Inv b h -> overlays h !! o = Some x ->
  own Declared o name vr enforce h =
  (let c := cost name vr in
   let after := add (live h b) (sub c (ownedOf x name)) in
   if enforce && grows c (ownedOf x name) && exceedsCaps after then (Some (ErrTotalVarStorageExceeded after), h)
   else (None, setOverlay o (setOwned (putOwned name c (o_owned x)) (add (o_charged x) (sub c (ownedOf x name))) x)
                 (setLive b after h))).
Proof.
  intros HI Hx. unfold own. rewrite (sharedBudget_at b h o x HI Hx), (overlay_at h o x Hx).
  by rewrite (overlay_at (setLive b _ h) o x Hx).
Qed.

Lemma put_update b o x name v c h : o_budget x = Some b ->
  match v with
  | Some vr => putValue o name vr
  | None => delValue o name
  end (setOverlay o (setOwned (putOwned name c (o_owned x)) (add (o_charged x) (sub c (ownedOf x name))) x)
         (setLive b (add (live h b) (sub c (ownedOf x name))) h)) =
  update b o x name v c h.
Proof.
  intros Hb. destruct v; unfold putValue, delValue, update, setOverlay, setLive, overlay; cbn;
    rewrite lookup_insert_eq; cbn; rewrite insert_insert_eq; unfold setValues; cbn; by rewrite Hb.
Qed.

Lemma owned_nonneg b o x name h : Inv b h -> overlays h !! o = Some x -> nonneg (ownedOf x name).
Proof.
  intros HI Hx. destruct (proj2 HI o x Hx) as (_ & _ & [_ Hown] & _). unfold ownedOf.
  destruct (o_owned x !! name) as [c|] eqn:E; [|by cbn].
  destruct (Hown name c E) as (_ & vr & _ & ->). apply varCost_nonneg.
Qed.

Lemma no_growth c : nonneg c -> grows noStorage c = false.
Proof. unfold nonneg, grows. intros [??]. apply orb_false_iff. rewrite !Z.ltb_ge. cbn. lia. Qed.

Lemma Get_global b h name fuel : Inv b h -> forall o, v_Local (Get_fuel baseGet fuel h o name) = false.
Proof.
  intros HI. assert (Hval : forall o vr, o_values (overlay h o) !! name = Some vr -> v_Local vr = false).
  { intros o vr. unfold overlay. destruct (overlays h !! o) as [x|] eqn:E; cbn; [|by rewrite lookup_empty].
    destruct (proj2 HI o x E) as (_ & _ & _ & Hg). apply Hg. }
  induction fuel as [|fuel IH]; intros o; cbn; destruct (o_values (overlay h o) !! name) eqn:E; eauto;
    destruct (o_parent (overlay h o)) as [[]|]; auto.
Qed.

Lemma previous_global b h o name : Inv b h -> v_Local (previous baseGet h o name) = false.
Proof.
  intros HI. unfold previous. destruct (o_values (overlay h o) !! name) as [vr|] eqn:E.
  - pose proof (Get_global b h name 0 HI o) as H. cbn in H. by rewrite E in H.
  - destruct (o_parent (overlay h o)) as [[p|]|]; [by eapply Get_global|apply base_global|done].
Qed.

(** What an assignment does, on every path: it is refused and changes nothing,
    or it stores the variable and charges it, within the caps if it grows. *)
Lemma SetVar_spec b o x name vr h : Inv b h -> overlays h !! o = Some x -> v_Local vr = false ->
  (exists e, SetVar o name vr h = (Some e, h) /\
     forall s, e = ErrTotalVarStorageExceeded s -> exceedsCaps s = true) \/
  (exists v c, SetVar o name vr h = (None, update b o x name v c h) /\ coherent name v c /\
     (grows c (ownedOf x name) = true -> exceedsCaps (add (live h b) (sub c (ownedOf x name))) = false)).
Proof.
  intros HI Hx Hloc. unfold InterpVars.SetVar.
  assert (Hbud : o_budget x = Some b) by apply (proj2 HI o x Hx).
  destruct (_ && negb _); [left; eexists; split; [done|done]|].
  destruct (_ && v_ReadOnly _); [left; eexists; split; [done|done]|].
  rewrite (previous_global b h o name HI). set (prev := previous baseGet h o name).
  set (vr1 := if bool_decide _ then _ else vr).
  assert (Hloc1 : v_Local vr1 = false) by (unfold vr1; by destruct (bool_decide _)).
  destruct (IsSet vr1); cbn [negb].
  - cbn [orb]. set (vr2 := withLocal (v_Local vr1) vr1). rewrite (own_at b o x) by done. cbv zeta.
    destruct (true && grows _ _ && exceedsCaps _) eqn:E.
    + left. eexists. split; [done|]. intros s [= <-]. by apply andb_true_iff in E as [_ E].
    + right. exists (Some vr2), (cost name vr2).
      split; [by rewrite <- (put_update b o x name (Some vr2) (cost name vr2) h Hbud)|].
      split; [split; [right; eauto|by intros ? [= <-]]|]. intros Hg. rewrite Hg in E. by cbn in E.
  - rewrite (own_at b o x) by done. cbn.
    right. exists None, (cost name zeroVar).
    split; [by rewrite <- (put_update b o x name None (cost name zeroVar) h Hbud)|].
    unfold varStorageCost. rewrite zero_undeclared. cbn. split; [split; [by left|done]|].
    rewrite no_growth by (by eapply owned_nonneg). done.
Qed.

Lemma setUncapped_spec b o x name vr h : Inv b h -> overlays h !! o = Some x -> v_Local vr = false ->
  exists v c, setUncapped Declared baseGet o name vr h = update b o x name v c h /\ coherent name v c.
Proof.
  intros HI Hx Hloc. unfold setUncapped. rewrite (previous_global b h o name HI).
  assert (Hbud : o_budget x = Some b) by apply (proj2 HI o x Hx).
  rewrite (own_at b o x) by done. cbn [orb andb]. set (vr2 := withLocal (v_Local vr) vr).
  exists (Some vr2), (cost name vr2).
  split; [by rewrite <- (put_update b o x name (Some vr2) (cost name vr2) h Hbud)|].
  split; [right; eauto|by intros ? [= <-]].
Qed.

(** A snapshot of a binding that some state of the run held. *)
Definition snapshotOK (sn : bindingSnapshot) : Prop :=
  (sn_owned sn = noStorage \/ sn_inOverlay sn = true /\ sn_owned sn = cost (sn_name sn) (sn_vr sn)) /\
  v_Local (sn_vr sn) = false.

Lemma snapshotBinding_OK b o name h : Inv b h -> snapshotOK (snapshotBinding o name h).
Proof.
  intros HI. unfold snapshotBinding, snapshotOK, overlay.
  destruct (overlays h !! o) as [x|] eqn:E; cbn; [|rewrite !lookup_empty; split; [by left|done]].
  destruct (proj2 HI o x E) as (_ & _ & [_ Hown] & Hg). unfold ownedOf. split.
  - destruct (o_owned x !! name) as [c|] eqn:Ec; [right|by left].
    destruct (Hown name c Ec) as (_ & vr & -> & ->). done.
  - destruct (o_values x !! name) as [vr|] eqn:Ev; [|done]. cbn. eauto.
Qed.

Lemma restoreBinding_spec b o x sn h : Inv b h -> overlays h !! o = Some x -> snapshotOK sn ->
  exists v, restoreBinding o sn h = update b o x (sn_name sn) v (sn_owned sn) h /\
    coherent (sn_name sn) v (sn_owned sn) /\ v = if sn_inOverlay sn then Some (sn_vr sn) else None.
Proof.
  intros HI Hx [Hown Hloc]. unfold restoreBinding.
  assert (Hbud : o_budget x = Some b) by apply (proj2 HI o x Hx).
  rewrite (sharedBudget_at b h o x HI Hx), (overlay_at h o x Hx), (overlay_at (setLive b _ h) o x Hx).
  eexists. split; [|split; [|done]].
  - destruct (sn_inOverlay sn).
    + apply (put_update b o x (sn_name sn) (Some (sn_vr sn)) (sn_owned sn) h Hbud).
    + apply (put_update b o x (sn_name sn) None (sn_owned sn) h Hbud).
  - split.
    + destruct Hown as [?|[-> ->]]; [by left|]. right. eauto.
    + destruct (sn_inOverlay sn); [|done]. by intros ? [= <-].
Qed.

(** ** Runs *)

Lemma Each_global b h fuel : Inv b h -> forall o nv, nv ∈ Each_fuel baseEach fuel h o -> v_Local (snd nv) = false.
Proof.
  intros HI. assert (Hown : forall o nv, nv ∈ map_to_list (o_values (overlay h o)) -> v_Local (snd nv) = false).
  { intros o [n vr] Hn%elem_of_map_to_list. unfold overlay in Hn.
    destruct (overlays h !! o) as [x|] eqn:E; cbn in Hn; [|by rewrite lookup_empty in Hn].
    destruct (proj2 HI o x E) as (_ & _ & _ & Hg). by eapply Hg. }
  induction fuel as [|fuel IH]; intros o nv; cbn; intros [Hn|Hn]%elem_of_app; eauto;
    apply list_elem_of_filter in Hn as [_ Hn];
    destruct (o_parent (overlay h o)) as [[]|]; eauto; by apply elem_of_nil in Hn.
Qed.

Lemma insertAll_global es : (forall nv, nv ∈ es -> v_Local (snd nv) = false) -> global (insertAll es).
Proof.
  intros Hes. unfold insertAll.
  assert (forall m, global m -> global (foldl (fun m nv => <[fst nv := snd nv]> m) m es)) as H.
  { revert Hes. induction es as [|nv es IH]; intros Hes m Hm; cbn; [done|].
    apply IH; [intros; apply Hes; by right|]. intros n vr [[<- <-]|[_ Hn]]%lookup_insert_Some; [|eauto].
    apply Hes. left. }
  apply H. intros n vr Hn. by rewrite lookup_empty in Hn.
Qed.

Lemma new_Inv b h p bg x : Inv b h -> overlays h !! p = Some x ->
  let '(o, h') := newOverlayEnviron Declared baseEach (EnvOverlay p) bg h in
  Inv b h' /\ live h' b = live h b /\ overlays h !! o = None.
Proof.
  intros HI Hp. unfold newOverlayEnviron. rewrite (sharedBudget_at b h p x HI Hp). cbn.
  assert (Hfresh : overlays h !! next h = None).
  { destruct (overlays h !! next h) eqn:E; [|done]. destruct (proj2 HI _ _ E) as [Hlt _]. lia. }
  split; [|done]. destruct HI as [Hb Ho]. split; cbn.
  - rewrite Hb. apply (f_equal Some). rewrite fmap_insert, total_insert_new by (by rewrite lookup_fmap, Hfresh).
    destruct bg; cbn; generalize (total (o_charged <$> overlays h)); intros; storage.
  - intros o y [[<- <-]|[_ Hy]]%lookup_insert_Some.
    + split; [lia|]. split; [by destruct bg|]. split.
      * destruct bg; (split; cbn; [symmetry; apply total_empty|]); intros n c Hc; by rewrite lookup_empty in Hc.
      * destruct bg; cbn; [|intros n vr Hn; by rewrite lookup_empty in Hn].
        apply insertAll_global. intros nv. by apply (Each_global b h p).
    + destruct (Ho o y Hy) as (Hlt & Hrest). split; [cbn; lia|done].
Qed.

Lemma release_Inv b h o x : Inv b h -> overlays h !! o = Some x ->
  Inv b (release o h) /\ live (release o h) b = sub (live h b) (o_charged x).
Proof.
  intros HI Hx. destruct (proj2 HI o x Hx) as (Hlt & Hbud & _ & Hg). unfold release.
  rewrite (overlay_at h o x Hx), Hbud. destruct HI as [Hb Ho]. split; [|unfold live; cbn; by rewrite lookup_insert_eq].
  split; cbn.
  - rewrite lookup_insert_eq, fmap_insert, total_insert, lookup_fmap, Hx. cbn. f_equal. unfold live. rewrite Hb. cbn.
    generalize (total (o_charged <$> overlays h)), (o_charged x). intros. storage.
  - intros o' y [[<- <-]|[_ Hy]]%lookup_insert_Some; [|by apply Ho].
    split; [done|]. split; [done|]. split; [|done].
    split; cbn; [symmetry; apply total_empty|]. intros n c Hc. by rewrite lookup_empty in Hc.
Qed.

(** The operations of a run: an enforced one respects the caps, the other two
    undo a temporary change of a binding. *)
Inductive step (h : heap) : bool -> heap -> Prop :=
| step_new p bg x : overlays h !! p = Some x ->
    step h true (snd (newOverlayEnviron Declared baseEach (EnvOverlay p) bg h))
| step_set o name vr x : overlays h !! o = Some x -> v_Local vr = false ->
    step h true (snd (SetVar o name vr h))
| step_release o x : overlays h !! o = Some x -> step h true (release o h)
| step_uncapped o name vr x : overlays h !! o = Some x -> v_Local vr = false ->
    step h false (setUncapped Declared baseGet o name vr h)
| step_restore o sn x : overlays h !! o = Some x -> snapshotOK sn ->
    step h false (restoreBinding o sn h).

Inductive run (h : heap) : bool -> heap -> Prop :=
| run_refl : run h true h
| run_step e e' h1 h2 : run h e h1 -> step h1 e' h2 -> run h (e && e') h2.

(** The heap [Reset] leaves: the root overlay holds the initial variables and
    owns nothing. *)
Definition started (vs : gmap bytes Var) : heap :=
  resetAccounting 0 (mkHeap {[0 := mkOverlay (Some EnvBase) vs None ∅ noStorage]} ∅ 1).

Lemma started_Inv vs : global vs -> Inv 1 (started vs) /\ live (started vs) 1 = noStorage.
Proof.
  intros Hg. unfold started, resetAccounting, newBudget, overlay, setOverlay. cbn. rewrite lookup_singleton_eq. cbn.
  split; [|unfold live; cbn; by rewrite lookup_insert_eq].
  split; cbn.
  - by rewrite lookup_insert_eq.
  - intros o x [[<- <-]|[Hne Hx]]%lookup_insert_Some.
    + split; [cbn; lia|]. split; [done|]. split; [|done]. split; cbn; [symmetry; apply total_empty|].
      intros n c Hc. by rewrite lookup_empty in Hc.
    + by rewrite lookup_singleton_ne in Hx.
Qed.

Lemma step_Inv b h e h' : Inv b h -> step h e h' -> Inv b h'.
Proof.
  intros HI Hs. destruct Hs as [p bg x Hx|o name vr x Hx Hl|o x Hx|o name vr x Hx Hl|o sn x Hx Hok].
  - pose proof (new_Inv b h p bg x HI Hx) as H. destruct (newOverlayEnviron _ _ _ _ _). apply H.
  - destruct (SetVar_spec b o x name vr h HI Hx Hl) as [(er & -> & _)|(v & c & -> & Hc & _)]; [done|].
    by apply update_Inv.
  - by eapply release_Inv.
  - destruct (setUncapped_spec b o x name vr h HI Hx Hl) as (v & c & -> & Hc). by apply update_Inv.
  - destruct (restoreBinding_spec b o x sn h HI Hx Hok) as (v & -> & Hc & _). by apply update_Inv.
Qed.

Lemma run_Inv b h e h' : Inv b h -> run h e h' -> Inv b h'.
Proof. intros HI. induction 1; [done|]. eauto using step_Inv. Qed.

Lemma total_nonneg `{Countable K} (m : gmap K varStorage) :
  (forall k c, m !! k = Some c -> nonneg c) -> nonneg (total m).
Proof.
  induction m as [|k c m Hk IH] using map_ind; intros Hm; [rewrite total_empty; done|].
  rewrite total_insert_new by done.
  pose proof (Hm k c ltac:(by rewrite lookup_insert_eq)) as Hc.
  assert (Hr : nonneg (total m)).
  { apply IH. intros k' c' Hk'. apply (Hm k'). rewrite lookup_insert_ne; [done|]. intros ->. congruence. }
  unfold nonneg in *. cbn. lia.
Qed.

Lemma charged_nonneg b h o x : Inv b h -> overlays h !! o = Some x -> nonneg (o_charged x).
Proof.
  intros HI Hx. destruct (proj2 HI o x Hx) as (_ & _ & [-> Hown] & _). apply total_nonneg.
  intros n c Hc. destruct (Hown n c Hc) as (_ & vr & _ & ->). apply varCost_nonneg.
Qed.

Lemma caps_down a s : nonneg s -> exceedsCaps a = false -> exceedsCaps (sub a s) = false.
Proof.
  unfold nonneg, exceedsCaps. rewrite !orb_false_iff, !Z.ltb_ge. destruct a, s; cbn. lia.
Qed.

Lemma caps_no_growth a c d : grows c d = false -> exceedsCaps a = false -> exceedsCaps (add a (sub c d)) = false.
Proof.
  unfold grows, exceedsCaps. rewrite !orb_false_iff, !Z.ltb_ge. destruct a, c, d; cbn. lia.
Qed.

Lemma update_live b o x name v c h : live (update b o x name v c h) b = add (live h b) (sub c (ownedOf x name)).
Proof. unfold live at 1. cbn. by rewrite lookup_insert_eq. Qed.

Lemma step_capped b h h' : Inv b h -> step h true h' ->
  exceedsCaps (live h b) = false -> exceedsCaps (live h' b) = false.
Proof.
  intros HI Hs Hcap. remember true as e eqn:He. destruct Hs as [p bg x Hx|o name vr x Hx Hl|o x Hx| |]; [..|done|done].
  - pose proof (new_Inv b h p bg x HI Hx) as H. destruct (newOverlayEnviron _ _ _ _ _).
    destruct H as (_ & Hl & _). cbn. by rewrite Hl.
  - destruct (SetVar_spec b o x name vr h HI Hx Hl) as [(er & -> & _)|(v & c & -> & Hc & Hg)]; [done|].
    cbn. rewrite update_live. destruct (grows c (ownedOf x name)) eqn:E; [auto|]. by apply caps_no_growth.
  - destruct (release_Inv b h o x HI Hx) as [_ ->]. apply caps_down; [by eapply charged_nonneg|done].
Qed.

(** C13. The budget is exact.  Whatever a run's subshells, pipeline stages and
    temporary assignments do, in any order, the live total of the shared
    budget is the storage of the variables the overlays assigned and still
    hold: their value bytes, and their name bytes with the fixed overhead. *)
Theorem storage_exact vs e h : global vs -> run (started vs) e h ->
  live h 1 = total (o_charged <$> overlays h) /\
  forall o x, overlays h !! o = Some x ->
    o_charged x = total (o_owned x) /\
    forall name c, o_owned x !! name = Some c ->
      exists vr, o_values x !! name = Some vr /\ c = varStorageCost Declared name vr.
Proof.
  intros Hg Hr. destruct (started_Inv vs Hg) as [HI _]. destruct (run_Inv 1 _ _ _ HI Hr) as [Hb Ho].
  split; [unfold live; by rewrite Hb|]. intros o x Hx. destruct (Ho o x Hx) as (_ & _ & [Hc Hown] & _).
  split; [done|]. intros name c Hn. by destruct (Hown name c Hn) as (_ & H).
Qed.

(** The caps hold.  As long as no temporary change is undone, the live
    total stays within both caps, however many overlays are alive; and an
    assignment to a writable variable is refused exactly when it makes the
    binding larger and the total would pass a cap, in which case it changes
    nothing. *)
Theorem storage_capped vs h : global vs -> run (started vs) true h ->
  exceedsCaps (live h 1) = false /\
  forall o x name vr, overlays h !! o = Some x ->
    v_Local vr = false -> v_Kind vr <> KeepValue -> IsSet vr = true ->
    v_ReadOnly (previous baseGet h o name) = false ->
    let c := varStorageCost Declared name vr in
    let after := add (live h 1) (sub c (ownedOf x name)) in
    if grows c (ownedOf x name) && exceedsCaps after
    then SetVar o name vr h = (Some (ErrTotalVarStorageExceeded after), h)
    else SetVar o name vr h = (None, update 1 o x name (Some vr) c h).
Proof.
  intros Hg Hr. destruct (started_Inv vs Hg) as [HI0 Hl0]. split.
  - assert (forall e h, run (started vs) e h -> Inv 1 h /\ (e = true -> exceedsCaps (live h 1) = false)) as H.
    { induction 1 as [|e e' h1 h2 Hr1 [HI1 Hc1] Hs]; [by rewrite Hl0|].
      split; [by eapply step_Inv|]. intros [-> ->]%andb_true_iff. eapply step_capped; eauto. }
    by apply (H true h Hr).
  - intros o x name vr Hx Hloc Hk Hset Hro. pose proof (run_Inv 1 _ _ _ HI0 Hr) as HI. cbv zeta.
    assert (Hbud : o_budget x = Some 1) by apply (proj2 HI o x Hx).
    unfold InterpVars.SetVar. rewrite Hro, andb_false_r, (previous_global 1 h o name HI).
    rewrite (bool_decide_eq_false_2 _ Hk). cbn [andb negb orb]. rewrite Hset. cbn [negb].
    assert (Hvr : withLocal (v_Local vr) vr = vr) by (by destruct vr). rewrite Hvr.
    rewrite (own_at 1 o x) by done. cbv zeta. cbn [andb].
    destruct (grows _ _ && exceedsCaps _); [done|].
    by rewrite <- (put_update 1 o x name (Some vr) _ h Hbud).
Qed.

(** ** Temporary bindings *)

(** Assignments to one name of one overlay, as a command run with
    [name=value cmd] makes them. *)
Inductive rebinds (o : nat) (name : bytes) (h : heap) : heap -> Prop :=
| rebinds_refl : rebinds o name h h
| rebinds_set h1 vr : rebinds o name h h1 -> v_Local vr = false -> rebinds o name h (snd (SetVar o name vr h1))
| rebinds_uncapped h1 vr : rebinds o name h h1 -> v_Local vr = false ->
    rebinds o name h (setUncapped Declared baseGet o name vr h1).

(** [h1] differs from [h] at most in [o]'s binding for [name] and its charge. *)
Definition sameBut (b o : nat) (x : overlayEnviron) (name : bytes) (h h1 : heap) : Prop :=
  exists x1 L1,
    overlays h1 = <[o := x1]> (overlays h) /\ budgets h1 = <[b := L1]> (budgets h) /\ next h1 = next h /\
    o_parent x1 = o_parent x /\ o_budget x1 = Some b /\
    delete name (o_values x1) = delete name (o_values x) /\
    delete name (o_owned x1) = delete name (o_owned x) /\
    sub (o_charged x1) (ownedOf x1 name) = sub (o_charged x) (ownedOf x name) /\
    sub L1 (ownedOf x1 name) = sub (live h b) (ownedOf x name).

Lemma sameBut_refl b o x name h : Inv b h -> overlays h !! o = Some x -> sameBut b o x name h h.
Proof.
  intros HI Hx. exists x, (live h b). rewrite insert_id by done.
  destruct (proj2 HI o x Hx) as (_ & Hbud & _). unfold live. rewrite (proj1 HI). cbn. rewrite insert_id by apply HI.
  done.
Qed.

Lemma putOwned_same name c m : default noStorage (putOwned name c m !! name) = c.
Proof.
  unfold putOwned. destruct (decide (c = noStorage)) as [->|]; [by rewrite lookup_delete_eq|by rewrite lookup_insert_eq].
Qed.

Lemma delete_putOwned name c m : delete name (putOwned name c m) = delete name m.
Proof. unfold putOwned. destruct (decide _); [by rewrite delete_delete_eq|by rewrite delete_insert_eq]. Qed.

Lemma shift_eq a b c d e : sub a b = sub c d -> sub (add a (sub e b)) e = sub c d.
Proof. intros H. rewrite <- H. storage. Qed.

Lemma sameBut_update b o x name v c h h1 x1 : sameBut b o x name h h1 -> overlays h1 !! o = Some x1 ->
  sameBut b o x name h (update b o x1 name v c h1).
Proof.
  intros (y & L & Ho & Hb & Hn & Hp & Hbud & Hv & Hown & Hch & HL) Hx1.
  rewrite Ho, lookup_insert_eq in Hx1. injection Hx1 as <-.
  assert (Hlive : live h1 b = L) by (unfold live; rewrite Hb; by rewrite lookup_insert_eq).
  eexists _, _. split; [cbn; by rewrite Ho, insert_insert_eq|]. split; [cbn; by rewrite Hb, insert_insert_eq|].
  split; [done|]. cbn. split; [done|]. split; [done|].
  split; [rewrite <- Hv; destruct v; [by rewrite delete_insert_eq|by rewrite delete_delete_eq]|].
  split; [by rewrite delete_putOwned|]. 
  assert (Hc : forall p vs bu ch, ownedOf (mkOverlay p vs bu (putOwned name c (o_owned y)) ch) name = c)
    by (intros; apply putOwned_same).
  rewrite !Hc, Hlive.
  split; by apply shift_eq.
Qed.

Lemma rebinds_sameBut b o x name h h1 : Inv b h -> overlays h !! o = Some x -> rebinds o name h h1 ->
  sameBut b o x name h h1 /\ Inv b h1.
Proof.
  intros HI Hx. induction 1 as [|h1 vr Hr [IH HI1] Hl|h1 vr Hr [IH HI1] Hl].
  - split; [by apply sameBut_refl|done].
  - assert (Hx1 : exists x1, overlays h1 !! o = Some x1).
    { destruct IH as (x1 & ? & -> & _). rewrite lookup_insert_eq. eauto. }
    destruct Hx1 as [x1 Hx1].
    destruct (SetVar_spec b o x1 name vr h1 HI1 Hx1 Hl) as [(er & -> & _)|(v & c & -> & Hc & _)]; [done|].
    split; [by apply sameBut_update|by apply update_Inv].
  - assert (Hx1 : exists x1, overlays h1 !! o = Some x1).
    { destruct IH as (x1 & ? & -> & _). rewrite lookup_insert_eq. eauto. }
    destruct Hx1 as [x1 Hx1].
    destruct (setUncapped_spec b o x1 name vr h1 HI1 Hx1 Hl) as (v & c & -> & Hc).
    split; [by apply sameBut_update|by apply update_Inv].
Qed.

Lemma put_back {A} `{Countable K} (m m1 : gmap K A) k :
  delete k m1 = delete k m ->
  match m !! k with Some v => <[k := v]> m1 | None => delete k m1 end = m.
Proof.
  intros Hd. destruct (m !! k) eqn:E.
  - by rewrite <- insert_delete_eq, Hd, insert_delete_eq, insert_id.
  - by rewrite Hd, delete_id.
Qed.

Lemma back_eq a b c d : sub a b = sub c d -> add a (sub d b) = c.
Proof. destruct a, b, c, d. unfold add, sub. cbn. intros [= ??]. f_equal; lia. Qed.

(** A temporary binding leaves no trace.  After [name=value cmd], whatever
    the command assigned to the name, restoring the snapshot gives back the
    very heap of before: the value or its absence, so that an inherited value
    shows through again, the ownership, the overlay's charge and the budget. *)
Theorem temporary_binding_restored vs e h o x name h1 :
  global vs -> run (started vs) e h -> overlays h !! o = Some x -> rebinds o name h h1 ->
  restoreBinding o (snapshotBinding o name h) h1 = h.
Proof.
  intros Hg Hr Hx Hre. pose proof (run_Inv 1 _ _ _ (proj1 (started_Inv vs Hg)) Hr) as HI.
  destruct (rebinds_sameBut 1 o x name h h1 HI Hx Hre) as [(x1 & L & Ho & Hb & Hn & Hp & Hbud & Hv & Hown & Hch & HL) HI1].
  assert (Hx1 : overlays h1 !! o = Some x1) by (rewrite Ho; apply lookup_insert_eq).
  destruct (restoreBinding_spec 1 o x1 _ h1 HI1 Hx1 (snapshotBinding_OK 1 o name h HI)) as (v & -> & _ & Ev).
  cbn [sn_name snapshotBinding] in *.
  unfold snapshotBinding in *. rewrite (overlay_at h o x Hx) in *. cbn in *.
  assert (Hlive : live h1 1 = L) by (unfold live; rewrite Hb; by rewrite lookup_insert_eq).
  destruct h as [ov bu nx]. unfold update. cbn in *. rewrite Ho, insert_insert_eq, Hb, insert_insert_eq, Hn, Hlive.
  rewrite (back_eq _ _ _ _ HL), (back_eq _ _ _ _ Hch).
  destruct (proj2 HI o x Hx) as (_ & Hbx & [_ Hownx] & _). cbn in *.
  assert (Hvals : match v with Some vr => <[name := vr]> (o_values x1) | None => delete name (o_values x1) end = o_values x).
  { rewrite <- (put_back (o_values x) (o_values x1) name Hv), Ev. by destruct (o_values x !! name). }
  assert (Howned : putOwned name (ownedOf x name) (o_owned x1) = o_owned x).
  { rewrite <- (put_back (o_owned x) (o_owned x1) name Hown). unfold ownedOf, putOwned.
    destruct (o_owned x !! name) as [c|] eqn:Ec; cbn; [|by rewrite decide_True].
    destruct (Hownx name c Ec) as [Hne _]. by rewrite decide_False. }
  rewrite Hvals, Howned, Hp, <- Hbx. f_equal.
  - apply insert_id. rewrite Hx. f_equal. by destruct x.
  - unfold live. cbn. rewrite insert_id; [done|]. destruct HI as [HB _]. cbn in HB. by rewrite HB.
Qed.

End Spec.
End InterpStore.
