(* ===== verification/InterpState.v ===== *)
(** * The runner: state, effects and the run's shared world

    [runnerState] of [interp/api.go] and the small methods of [runner.go].  A
    [Runner] is one shell or subshell; the [world] is what all the runners of
    one [Run] share.  Everything outside the repository, and every answer of
    the operating system, is an oracle: a function of the history of events,
    so a theorem about all oracles is a theorem about all answers. *)

From S2P Require Import Prelude GoStd InterpSyntax InterpVars.
From stdpp Require Import base list gmap sets strings.
From Stdlib Require Import ZArith Lia Ascii.

Module InterpState.
Import InterpSyntax InterpVars.

(** ** Errors and exit states *)

(** The Go error types the interpreter tells apart with [errors.As]. *)
Inductive errKind :=
| KPlain | KPathError | KLimit | KStorage | KUnsetParameter | KUnexpectedCommand | KExitStatus (code : Z).

Record goErr := mkErr { errText : bytes; errKindOf : errKind }.

Definition plainErr (s : bytes) : goErr := mkErr s KPlain.

Record exitStatus := mkExit {
  x_code : Z; exiting : bool; fatalExit : bool; limitExit : bool; x_err : option goErr }.

Definition exit0 : exitStatus := mkExit 0 false false false None.

Definition ok (e : exitStatus) : bool := (x_code e =? 0)%Z.

Definition setCode (c : Z) (e : exitStatus) : exitStatus :=
  mkExit c (exiting e) (fatalExit e) (limitExit e) (x_err e).
Definition setExiting (b : bool) (e : exitStatus) : exitStatus :=
  mkExit (x_code e) b (fatalExit e) (limitExit e) (x_err e).
Definition setLimitExit (e : exitStatus) : exitStatus :=
  mkExit (x_code e) (exiting e) (fatalExit e) true (x_err e).

Definition oneIf (b : bool) (e : exitStatus) : exitStatus := setCode (if b then 1 else 0) e.

Definition fatal (err : goErr) (e : exitStatus) : exitStatus :=
  if fatalExit e then e
  else mkExit (if (x_code e =? 0)%Z then 1 else x_code e) true true (limitExit e) (Some err).

Definition fromHandlerError (err : option goErr) (e : exitStatus) : exitStatus :=
  match err with
  | Some er =>
      match errKindOf er with
      | KExitStatus c => mkExit c (exiting e) (fatalExit e) (limitExit e) (Some er)
      | _ => fatal er e
      end
  | None => setCode 0 e
  end.

(** ** Streams *)

Inductive inHandle := InNil | InHost | InFile (id : Z) | InPipe (id : Z) | InGiven.

Inductive outHandle := Discard | OutHost (errStream : bool) | OutFile (id : Z) | OutPipe (id : Z) | OutLimit (id : Z).

(** What a [limitWriter] wraps: the buffer of a command substitution, or the
    writer the embedding program gave the run. *)
Inductive sink := SBuf (b : bytes) | SHost (errStream : bool).

Record limitWriter := mkLimit { lw_w : sink; lw_limit : Z; lw_n : Z; lw_exceeded : bool }.

(** ** Events *)

(** The flags of an open: [O_RDONLY], or [O_WRONLY|O_CREATE] with [O_TRUNC] or
    [O_APPEND]. *)
Inductive openMode := ReadOnly | WriteTrunc | WriteAppend.

Definition writes (m : openMode) : bool := match m with ReadOnly => false | _ => true end.

(** How [New] leaves the sandbox: without allowed paths there is none (its
    methods refuse everything on a nil receiver); a new one is read-only, and
    [SetWritable] is called in remediation mode only. *)
Inductive openPolicy := NoSandbox | ReadOnlySandbox | WritableSandbox.

Definition sandboxOf (remediationMode hasSandbox : bool) : openPolicy :=
  if negb hasSandbox then NoSandbox else if remediationMode then WritableSandbox else ReadOnlySandbox.

(** The opens [Sandbox.Open] refuses before it looks at the path. *)
Definition refusesOpen (box : openPolicy) (m : openMode) : bool :=
  match box with
  | NoSandbox => true
  | ReadOnlySandbox => writes m
  | WritableSandbox => false
  end.

(** What the run does to the host; [EOpen] is an open the sandbox's mode lets
    through to its roots. *)
Inductive event :=
| EDispatch (name : bytes) (args : list bytes) (elevated inStage child : bool)
| EExec (args : list bytes)
| EOpen (path : bytes) (mode : openMode) (redirect : bool)
| EOpenDir (path : bytes)
| EMutate (path : bytes)
| EElevate (name : bytes)
| EWrite (h : outHandle) (data : bytes)
| EClose (id : Z)
| EPipe
| EStat (path : bytes)
| ERead (id : Z)
| EAsk (n : Z).

(** ** The field collector of [runner_expand.go] *)

Record splitSubst := mkSplitSubst {
  inBrace : bool; openBefore : bool; prev : Z; deferredNext : bool; ran : bool; openAfter : bool }.

Section State.
Context {SX : Syntax}.

Record fieldCollector := mkCollector {
  maxFields : Z; fields : list bytes; c_bytes : Z;
  wordSources : Z; splitSubsts : list (Node * splitSubst); substSources : Z }.

Record Runner := mkRunner {
  Dir : bytes;
  r_stdin : inHandle;
  r_stdout : outHandle;
  r_stderr : outHandle;
  inPipelineStage : bool;
  totalCount : Z;
  dispatchedCount : Z;
  unallowedCount : Z;
  unknownCount : Z;
  breakEnclosing : Z;
  contnEnclosing : Z;
  inLoop : bool;
  exit : exitStatus;
  lastExit : exitStatus;
  lastExpandExit : exitStatus;
  activeFields : option fieldCollector;
  writeEnv : nat;
  Params : list bytes;
  closers : list Z;                          (* of the statement *)
  restores : list (nat * bindingSnapshot) }. (* of the simple command *)

Definition set_Dir (x : bytes) (r : Runner) : Runner :=
  mkRunner x (r_stdin r) (r_stdout r) (r_stderr r) (inPipelineStage r) (totalCount r) (dispatchedCount r) (unallowedCount r) (unknownCount r) (breakEnclosing r) (contnEnclosing r) (inLoop r) (exit r) (lastExit r) (lastExpandExit r) (activeFields r) (writeEnv r) (Params r) (closers r) (restores r).
Definition set_r_stdin (x : inHandle) (r : Runner) : Runner :=
  mkRunner (Dir r) x (r_stdout r) (r_stderr r) (inPipelineStage r) (totalCount r) (dispatchedCount r) (unallowedCount r) (unknownCount r) (breakEnclosing r) (contnEnclosing r) (inLoop r) (exit r) (lastExit r) (lastExpandExit r) (activeFields r) (writeEnv r) (Params r) (closers r) (restores r).
Definition set_r_stdout (x : outHandle) (r : Runner) : Runner :=
  mkRunner (Dir r) (r_stdin r) x (r_stderr r) (inPipelineStage r) (totalCount r) (dispatchedCount r) (unallowedCount r) (unknownCount r) (breakEnclosing r) (contnEnclosing r) (inLoop r) (exit r) (lastExit r) (lastExpandExit r) (activeFields r) (writeEnv r) (Params r) (closers r) (restores r).
Definition set_r_stderr (x : outHandle) (r : Runner) : Runner :=
  mkRunner (Dir r) (r_stdin r) (r_stdout r) x (inPipelineStage r) (totalCount r) (dispatchedCount r) (unallowedCount r) (unknownCount r) (breakEnclosing r) (contnEnclosing r) (inLoop r) (exit r) (lastExit r) (lastExpandExit r) (activeFields r) (writeEnv r) (Params r) (closers r) (restores r).
Definition set_inPipelineStage (x : bool) (r : Runner) : Runner :=
  mkRunner (Dir r) (r_stdin r) (r_stdout r) (r_stderr r) x (totalCount r) (dispatchedCount r) (unallowedCount r) (unknownCount r) (breakEnclosing r) (contnEnclosing r) (inLoop r) (exit r) (lastExit r) (lastExpandExit r) (activeFields r) (writeEnv r) (Params r) (closers r) (restores r).
Definition set_totalCount (x : Z) (r : Runner) : Runner :=
  mkRunner (Dir r) (r_stdin r) (r_stdout r) (r_stderr r) (inPipelineStage r) x (dispatchedCount r) (unallowedCount r) (unknownCount r) (breakEnclosing r) (contnEnclosing r) (inLoop r) (exit r) (lastExit r) (lastExpandExit r) (activeFields r) (writeEnv r) (Params r) (closers r) (restores r).
Definition set_dispatchedCount (x : Z) (r : Runner) : Runner :=
  mkRunner (Dir r) (r_stdin r) (r_stdout r) (r_stderr r) (inPipelineStage r) (totalCount r) x (unallowedCount r) (unknownCount r) (breakEnclosing r) (contnEnclosing r) (inLoop r) (exit r) (lastExit r) (lastExpandExit r) (activeFields r) (writeEnv r) (Params r) (closers r) (restores r).
Definition set_unallowedCount (x : Z) (r : Runner) : Runner :=
  mkRunner (Dir r) (r_stdin r) (r_stdout r) (r_stderr r) (inPipelineStage r) (totalCount r) (dispatchedCount r) x (unknownCount r) (breakEnclosing r) (contnEnclosing r) (inLoop r) (exit r) (lastExit r) (lastExpandExit r) (activeFields r) (writeEnv r) (Params r) (closers r) (restores r).
Definition set_unknownCount (x : Z) (r : Runner) : Runner :=
  mkRunner (Dir r) (r_stdin r) (r_stdout r) (r_stderr r) (inPipelineStage r) (totalCount r) (dispatchedCount r) (unallowedCount r) x (breakEnclosing r) (contnEnclosing r) (inLoop r) (exit r) (lastExit r) (lastExpandExit r) (activeFields r) (writeEnv r) (Params r) (closers r) (restores r).
Definition set_breakEnclosing (x : Z) (r : Runner) : Runner :=
  mkRunner (Dir r) (r_stdin r) (r_stdout r) (r_stderr r) (inPipelineStage r) (totalCount r) (dispatchedCount r) (unallowedCount r) (unknownCount r) x (contnEnclosing r) (inLoop r) (exit r) (lastExit r) (lastExpandExit r) (activeFields r) (writeEnv r) (Params r) (closers r) (restores r).
Definition set_contnEnclosing (x : Z) (r : Runner) : Runner :=
  mkRunner (Dir r) (r_stdin r) (r_stdout r) (r_stderr r) (inPipelineStage r) (totalCount r) (dispatchedCount r) (unallowedCount r) (unknownCount r) (breakEnclosing r) x (inLoop r) (exit r) (lastExit r) (lastExpandExit r) (activeFields r) (writeEnv r) (Params r) (closers r) (restores r).
Definition set_inLoop (x : bool) (r : Runner) : Runner :=
  mkRunner (Dir r) (r_stdin r) (r_stdout r) (r_stderr r) (inPipelineStage r) (totalCount r) (dispatchedCount r) (unallowedCount r) (unknownCount r) (breakEnclosing r) (contnEnclosing r) x (exit r) (lastExit r) (lastExpandExit r) (activeFields r) (writeEnv r) (Params r) (closers r) (restores r).
Definition set_exit (x : exitStatus) (r : Runner) : Runner :=
  mkRunner (Dir r) (r_stdin r) (r_stdout r) (r_stderr r) (inPipelineStage r) (totalCount r) (dispatchedCount r) (unallowedCount r) (unknownCount r) (breakEnclosing r) (contnEnclosing r) (inLoop r) x (lastExit r) (lastExpandExit r) (activeFields r) (writeEnv r) (Params r) (closers r) (restores r).
Definition set_lastExit (x : exitStatus) (r : Runner) : Runner :=
  mkRunner (Dir r) (r_stdin r) (r_stdout r) (r_stderr r) (inPipelineStage r) (totalCount r) (dispatchedCount r) (unallowedCount r) (unknownCount r) (breakEnclosing r) (contnEnclosing r) (inLoop r) (exit r) x (lastExpandExit r) (activeFields r) (writeEnv r) (Params r) (closers r) (restores r).
Definition set_lastExpandExit (x : exitStatus) (r : Runner) : Runner :=
  mkRunner (Dir r) (r_stdin r) (r_stdout r) (r_stderr r) (inPipelineStage r) (totalCount r) (dispatchedCount r) (unallowedCount r) (unknownCount r) (breakEnclosing r) (contnEnclosing r) (inLoop r) (exit r) (lastExit r) x (activeFields r) (writeEnv r) (Params r) (closers r) (restores r).
Definition set_activeFields (x : option fieldCollector) (r : Runner) : Runner :=
  mkRunner (Dir r) (r_stdin r) (r_stdout r) (r_stderr r) (inPipelineStage r) (totalCount r) (dispatchedCount r) (unallowedCount r) (unknownCount r) (breakEnclosing r) (contnEnclosing r) (inLoop r) (exit r) (lastExit r) (lastExpandExit r) x (writeEnv r) (Params r) (closers r) (restores r).
Definition set_writeEnv (x : nat) (r : Runner) : Runner :=
  mkRunner (Dir r) (r_stdin r) (r_stdout r) (r_stderr r) (inPipelineStage r) (totalCount r) (dispatchedCount r) (unallowedCount r) (unknownCount r) (breakEnclosing r) (contnEnclosing r) (inLoop r) (exit r) (lastExit r) (lastExpandExit r) (activeFields r) x (Params r) (closers r) (restores r).
Definition set_Params (x : list bytes) (r : Runner) : Runner :=
  mkRunner (Dir r) (r_stdin r) (r_stdout r) (r_stderr r) (inPipelineStage r) (totalCount r) (dispatchedCount r) (unallowedCount r) (unknownCount r) (breakEnclosing r) (contnEnclosing r) (inLoop r) (exit r) (lastExit r) (lastExpandExit r) (activeFields r) (writeEnv r) x (closers r) (restores r).
Definition set_closers (x : list Z) (r : Runner) : Runner :=
  mkRunner (Dir r) (r_stdin r) (r_stdout r) (r_stderr r) (inPipelineStage r) (totalCount r) (dispatchedCount r) (unallowedCount r) (unknownCount r) (breakEnclosing r) (contnEnclosing r) (inLoop r) (exit r) (lastExit r) (lastExpandExit r) (activeFields r) (writeEnv r) (Params r) x (restores r).
Definition set_restores (x : list (nat * bindingSnapshot)) (r : Runner) : Runner :=
  mkRunner (Dir r) (r_stdin r) (r_stdout r) (r_stderr r) (inPipelineStage r) (totalCount r) (dispatchedCount r) (unallowedCount r) (unknownCount r) (breakEnclosing r) (contnEnclosing r) (inLoop r) (exit r) (lastExit r) (lastExpandExit r) (activeFields r) (writeEnv r) (Params r) (closers r) x.

(** What the runners of one run share: the history, the polls of the context,
    the bounded writers, the variables and the counters of the run. *)
Record world := mkWorld {
  hist : list event;
  polls : nat;
  writers : gmap nat limitWriter;
  vars : heap;
  expansionByteCount : Z;
  globReadDirCount : Z;
  fileRemovalCount : Z;
  nextWriter : Z }.

Definition set_hist (x : list event) (r : world) : world :=
  mkWorld x (polls r) (writers r) (vars r) (expansionByteCount r) (globReadDirCount r) (fileRemovalCount r) (nextWriter r).
Definition set_polls (x : nat) (r : world) : world :=
  mkWorld (hist r) x (writers r) (vars r) (expansionByteCount r) (globReadDirCount r) (fileRemovalCount r) (nextWriter r).
Definition set_writers (x : gmap nat limitWriter) (r : world) : world :=
  mkWorld (hist r) (polls r) x (vars r) (expansionByteCount r) (globReadDirCount r) (fileRemovalCount r) (nextWriter r).
Definition set_vars (x : heap) (r : world) : world :=
  mkWorld (hist r) (polls r) (writers r) x (expansionByteCount r) (globReadDirCount r) (fileRemovalCount r) (nextWriter r).
Definition set_expansionByteCount (x : Z) (r : world) : world :=
  mkWorld (hist r) (polls r) (writers r) (vars r) x (globReadDirCount r) (fileRemovalCount r) (nextWriter r).
Definition set_globReadDirCount (x : Z) (r : world) : world :=
  mkWorld (hist r) (polls r) (writers r) (vars r) (expansionByteCount r) x (fileRemovalCount r) (nextWriter r).
Definition set_fileRemovalCount (x : Z) (r : world) : world :=
  mkWorld (hist r) (polls r) (writers r) (vars r) (expansionByteCount r) (globReadDirCount r) x (nextWriter r).
Definition set_nextWriter (x : Z) (r : world) : world :=
  mkWorld (hist r) (polls r) (writers r) (vars r) (expansionByteCount r) (globReadDirCount r) (fileRemovalCount r) x.


(** ** The monad of the interpreter

    A computation on a runner and the world; it ends, panics as Go does, or
    runs out of the fuel that bounds the recursion. *)
Inductive outcome (A : Type) :=
| Done (a : A) (r : Runner) (w : world)
| Panicked (msg : bytes) (r : Runner) (w : world)
| NoFuel.
Arguments Done {A} a r w.
Arguments Panicked {A} msg r w.
Arguments NoFuel {A}.

Definition M (A : Type) : Type := Runner -> world -> outcome A.

#[export] Instance M_ret : MRet M := fun _ a r w => Done a r w.
#[export] Instance M_bind : MBind M := fun _ _ f m r w =>
  match m r w with
  | Done a r w => f a r w
  | Panicked msg r w => Panicked msg r w
  | NoFuel => NoFuel
  end.

Definition getR : M Runner := fun r w => Done r r w.
Definition getW : M world := fun r w => Done w r w.
Definition modR (f : Runner -> Runner) : M unit := fun r w => Done tt (f r) w.
Definition modW (f : world -> world) : M unit := fun r w => Done tt r (f w).
Definition panic {A} (msg : bytes) : M A := fun r w => Panicked msg r w.
Definition outOfFuel {A} : M A := fun _ _ => NoFuel.

Definition emit (e : event) : M unit := modW (fun w => set_hist (hist w ++ [e]) w).

Definition modExit (f : exitStatus -> exitStatus) : M unit := modR (fun r => set_exit (f (exit r)) r).

(** Run a computation on another runner; the own one is kept aside. *)
Definition onRunner {A} (r2 : Runner) (m : M A) : M (A * Runner) := fun r w =>
  match m r2 w with
  | Done a r2 w => Done (a, r2) r w
  | Panicked msg _ w => Panicked msg r w
  | NoFuel => NoFuel
  end.

(** The same with a deferred [recover]: what runs after a panic. *)
Definition recoverOn (r2 : Runner) (m : M unit) (recovered : M unit) : M Runner := fun r w =>
  match m r2 w with
  | Done _ r2 w => Done r2 r w
  | Panicked _ r2 w =>
      match recovered r2 w with
      | Done _ r2 w => Done r2 r w
      | Panicked msg _ w => Panicked msg r w
      | NoFuel => NoFuel
      end
  | NoFuel => NoFuel
  end.

(** [defer f()]: [f] runs after the end and after a panic. *)
Definition finally {A} (m : M A) (f : M unit) : M A := fun r w =>
  match m r w with
  | Done a r w => match f r w with
                  | Done _ r w => Done a r w
                  | Panicked msg r w => Panicked msg r w
                  | NoFuel => NoFuel
                  end
  | Panicked msg r w => match f r w with
                        | Done _ r w => Panicked msg r w
                        | Panicked msg r w => Panicked msg r w
                        | NoFuel => NoFuel
                        end
  | NoFuel => NoFuel
  end.

(** A [recover] of the panics [p] selects. *)
Definition catch {A} (p : bytes -> bool) (m handler : M A) : M A := fun r w =>
  match m r w with
  | Panicked msg r w => if p msg then handler r w else Panicked msg r w
  | o => o
  end.

Definition when (b : bool) (m : M unit) : M unit := if b then m else mret tt.

(** ** The oracles *)
Record oracles := mkOracles {
  ctxErr : nat -> option goErr;                        (* the n-th ctx.Err() *)
  answerOpen : list event -> Z + goErr;                (* the open handler *)
  answerRead : list event -> bool * bytes * option goErr;  (* directory?, contents *)
  answerStat : list event -> option Z;                 (* the mode of a file *)
  answerPipe : list event -> option goErr;             (* os.Pipe *)
  answerDir : list event -> list bytes * option goErr; (* a directory for globbing *)
  answerWrite : list event -> nat * option goErr;      (* bytes a host writer took *)
  answerSibling : list event -> Z;                     (* bytes concurrent stages have charged *)
  answerElevate : list event -> bool * option goErr;   (* did it run the command; its error *)
  answerMutate : list event -> option goErr;
  answerAsk : list event -> bytes * option goErr }.

Context (O : oracles).

Definition poll : M (option goErr) := fun r w =>
  Done (ctxErr O (polls w)) r (set_polls (S (polls w)) w).

(** [(r *Runner) stop]. *)
Definition stop : M bool :=
  r ← getR;
  if exiting (exit r) then mret true
  else
    e ← poll;
    match e with
    | Some err => modExit (fatal err);; mret true
    | None => mret false
    end.

(** ** Writing *)

Definition hostWrite (h : outHandle) (p : bytes) : M (Z * option goErr) :=
  w ← getW;
  emit (EWrite h p);;
  mret (let '(n, e) := answerWrite O (hist w) in (Z.of_nat (n `min` length p), e)).

Definition putWriter (id : Z) (lw : limitWriter) : M unit :=
  modW (fun w => set_writers (<[Z.to_nat id := lw]> (writers w)) w).

(** [(lw *limitWriter) Write] of the part of [p] that fits, to what is wrapped. *)
Definition sinkWrite (id : Z) (lw : limitWriter) (p : bytes) : M (limitWriter * Z * option goErr) :=
  match lw_w lw with
  | SBuf b => mret (mkLimit (SBuf (b ++ p)) (lw_limit lw) (lw_n lw) (lw_exceeded lw), Z.of_nat (length p), None)
  | SHost errStream =>
      '(n, e) ← hostWrite (OutHost errStream) p;
      mret (lw, n, e)
  end.

Definition limitWrite (id : Z) (p : bytes) : M (Z * option goErr) :=
  w ← getW;
  match writers w !! Z.to_nat id with
  | None => panic (lit "nil writer")
  | Some lw =>
      if (lw_limit lw <=? lw_n lw)%Z then
        putWriter id (mkLimit (lw_w lw) (lw_limit lw) (lw_n lw) true);;
        mret (Z.of_nat (length p), None)
      else
        let remaining := (lw_limit lw - lw_n lw)%Z in
        if (remaining <? Z.of_nat (length p))%Z then
          '(lw', n, e) ← sinkWrite id lw (take (Z.to_nat remaining) p);
          match e with
          | Some err => putWriter id lw';; mret (remaining, Some err)
          | None =>
              putWriter id (mkLimit (lw_w lw') (lw_limit lw) (lw_limit lw) true);;
              mret (Z.of_nat (length p), None)
          end
        else
          '(lw', n, e) ← sinkWrite id lw p;
          putWriter id (mkLimit (lw_w lw') (lw_limit lw) (lw_n lw + n) (lw_exceeded lw));;
          mret (n, e)
  end.

Definition write (h : outHandle) (p : bytes) : M (Z * option goErr) :=
  match h with
  | Discard => mret (Z.of_nat (length p), None)
  | OutLimit id => limitWrite id p
  | _ => hostWrite h p
  end.

(** [(r *Runner) errf], with its arguments formatted. *)
Definition errf (msg : bytes) : M unit :=
  r ← getR; write (r_stderr r) msg;; mret tt.

(** A new bounded writer. *)
Definition newLimitWriter (s : sink) (limit : Z) : M outHandle :=
  w ← getW;
  let id := nextWriter w in
  modW (set_nextWriter (id + 1));;
  putWriter id (mkLimit s limit 0 false);;
  mret (OutLimit id).

(** The bytes a substitution's buffer holds. *)
Definition captured (h : outHandle) : M bytes :=
  w ← getW;
  mret (match h with
        | OutLimit id => match writers w !! Z.to_nat id with
                         | Some (mkLimit (SBuf b) _ _ _) => b
                         | _ => []
                         end
        | _ => []
        end).

(** [(s *Sandbox) Open]: [os.ErrPermission] for a mode it refuses; the rest,
    which resolves the path and opens it, is the host's answer. *)
Definition sandboxOpen (box : openPolicy) (path : bytes) (mode : openMode) (redirect : bool) : M (Z + goErr) :=
  if refusesOpen box mode then mret (inr (mkErr (lit "open " ++ path ++ lit ": permission denied") KPathError))
  else
    w ← getW;
    emit (EOpen path mode redirect);;
    mret (answerOpen O (hist w)).

(** [(r *Runner) open], whose handler is the sandbox's [Open]: the error of an
    ordinary failure is printed when asked for; any other error is fatal. *)
Definition open (box : openPolicy) (path : bytes) (mode : openMode) (redirect print : bool) : M (Z + goErr) :=
  f ← sandboxOpen box path mode redirect;
  match f with
  | inl id => mret (inl id)
  | inr err =>
      (match errKindOf err with
       | KPathError => when print (errf (errText err ++ [ch_nl]))
       | _ => modExit (fatal err)
       end);;
      mret (inr err)
  end.

End State.
Arguments Done {SX A} a r w.
Arguments Panicked {SX A} msg r w.
Arguments NoFuel {SX A}.
End InterpState.
