(* ===== verification/InterpExpand.v ===== *)
(** * Word expansion under the resource limits

    [interp/runner_expand.go].  The expansion itself is the third-party package
    [expand]; it is an interaction tree that calls back into the runner for
    variables, directories and command substitutions ([expProg]).  The bounds
    the runner computes around it, the collector of the fields and the command
    substitution are here.  [stmtRec] runs one statement of a substitution. *)

From S2P Require Import Prelude GoStd InterpSyntax InterpValidate InterpVars InterpState.
From stdpp Require Import base list gmap sets strings.
From Stdlib Require Import ZArith Lia Ascii.

Module InterpExpand.
Import GoStd InterpSyntax InterpVars InterpState.

Definition maxCmdSubstOutput : Z := 2 ^ 20.
Definition MaxExpandedArgumentsPerCommand : Z := 16 * 2 ^ 10.
Definition MaxExpandedBytesPerCommand : Z := 10 * 2 ^ 20.
Definition MaxExpandedBytesPerRun : Z := 64 * 2 ^ 20.
Definition MaxGlobReadDirCalls : Z := 10000.
Definition MaxHeredocBytes : Z := 10 * 2 ^ 20.

(** A number in an error message. *)
Definition itoa (n : Z) : bytes := FormatInt n.

Definition limitErr (s : bytes) : goErr := mkErr s KLimit.

Definition braceExpansionLimitErrorPrefix : bytes := lit "brace expansion would exceed ".

(** ** Sizes *)

(** [known] bounds the parts whose values are available, [maximum] reserves
    the output cap of every command substitution as well. *)
Record wordExpansionSize := mkSize { known : Z; maximum : Z }.

Definition addExpansionSize (a b : Z) : Z :=
  let saturated := (MaxExpandedBytesPerCommand + 1)%Z in
  if ((saturated <=? a) || (saturated <=? b) || (saturated - a <? b))%Z then saturated else (a + b)%Z.

(** ** Fields of a split value *)

Definition runeValues (s : bytes) : list Z := map (fun ch => fst (DecodeRune ch)) (runes s).

Definition ContainsRune (s : bytes) (c : Z) : bool := existsb (Z.eqb c) (runeValues s).

(** The loop of [splitFieldSources] over the runes of the value. *)
Fixpoint splitLoop (ifs : bytes) (cs : list Z) (sources : Z) (inField : bool) : Z * bool :=
  match cs with
  | [] => (sources, inField)
  | c :: cs =>
      let isIFS := ContainsRune ifs c in
      splitLoop ifs cs (if negb isIFS && negb inField then sources + 1 else sources)%Z (negb isIFS)
  end.

Definition splitFieldSources (s ifs : bytes) : Z * bool * bool :=
  match ifs with
  | [] => (Z.min (Z.of_nat (length s)) 1, false, negb (bytes_eqb s []))
  | _ =>
      let cs := runeValues s in
      let closes := match cs with [] => false | c :: _ => ContainsRune ifs c end in
      let '(sources, inField) := splitLoop ifs cs 0 false in
      (sources, closes, inField)
  end.

Definition trimmable (c : ascii) : bool := (c =c "010") || (c =c "000").

Definition normalizeSubstOutput (out : bytes) : bytes :=
  let kept := reverse (drop (run_length trimmable (reverse out)) (reverse out)) in
  filter (fun c => (c =c "000") = false) kept.

(** [isGlobPatternPanic] on the text of the panic. *)
Definition isGlobPatternPanic (msg : bytes) : bool := HasPrefix msg (lit "regexp: Compile(").

Section Expand.
Context {SX : Syntax} (O : oracles).

(** ** Third-party code *)

(** A part of a word the runner builds itself for a heredoc line. *)
Inductive part := Old (n : Node) | NewLit (v : bytes).

Definition pview (p : part) : nodeView Node := match p with Old n => view n | NewLit v => VLit v end.
Definition psize (p : part) : nat := match p with Old n => size n | NewLit _ => 0 end.

(** An expansion: what it asks of the runner, and what it yields. *)
Inductive expProg :=
| XDone
| XYield (field : bytes) (err : option goErr) (k : expProg)
| XRet (s : bytes) (err : option goErr)
| XPanic (msg : bytes)
| XGet (name : bytes) (k : Var -> expProg)
| XSet (name : bytes) (vr : Var) (k : option goErr -> expProg)
| XEach (k : list (bytes * Var) -> expProg)
| XReadDir (path : bytes) (k : list bytes -> option goErr -> expProg)
| XCmdSubst (cs : Node) (k : bytes -> option goErr -> expProg).

Record expander := mkExpander {
  FieldsSeq : Node -> expProg;
  Literal : Node -> expProg;
  Document : list part -> expProg;
  IsSet : Var -> bool;
  Declared : Var -> bool;
  VarString : Var -> bytes;
  Resolve : Var -> (bytes -> Var) -> bytes * Var;
  baseGet : bytes -> Var;
  baseEach : list (bytes * Var) }.

Context (X : expander).

(** The configuration of the runner the expansion depends on. *)
Context (allowed : bytes -> bool).  (* allowAllCommands || allowedCommands[name] *)
Context (box : openPolicy).         (* the sandbox *)

Context (stmtRec : Node -> M unit).

(** ** Variables of the runner *)

Definition internalErrorf (msg : bytes) : M unit := modExit (fatal (plainErr (lit "internal error: " ++ msg))).

(** [lookupVar], on a platform with case-sensitive variables. *)
Definition lookupVar (name : bytes) : M Var :=
  if bytes_eqb name [] then internalErrorf (lit "variable name must not be empty");; mret zeroVar
  else
    r ← getR; w ← getW;
    if name =s "?" then mret (mkVar true false false false KString (itoa (x_code (lastExit r))) [] [])
    else
      let vr := Get (baseGet X) (vars w) (writeEnv r) name in
      mret (if Declared X vr then vr else zeroVar).

Definition setErrText (e : setError) : goErr :=
  match e with
  | ErrReadOnly => plainErr (lit "readonly variable")
  | ErrTotalVarStorageExceeded s =>
      mkErr (if (MaxTotalVarsBytes <? st_values s)%Z
             then lit "variable storage limit exceeded (" ++ itoa (st_values s) ++ lit " bytes total)"
             else lit "variable storage limit exceeded (" ++ itoa (st_entries s) ++ lit " bytes of names and entries total)")
            KStorage
  end.

Definition setVarErr (name : bytes) (vr : Var) : M (option goErr) :=
  r ← getR; w ← getW;
  let '(e, h) := SetVar (IsSet X) (Declared X) (baseGet X) (writeEnv r) name vr (vars w) in
  modW (set_vars h);;
  mret (setErrText <$> e).

Definition setVar (name : bytes) (vr : Var) : M unit :=
  if IsSet X vr && (MaxVarBytes <? Z.of_nat (length (v_Str vr)))%Z then
    errf O (name ++ lit ": value too large (limit " ++ itoa MaxVarBytes ++ lit " bytes)" ++ [ch_nl]);;
    modExit (setCode 1)
  else
    e ← setVarErr name vr;
    match e with
    | None => mret tt
    | Some err =>
        errf O (name ++ lit ": " ++ errText err ++ [ch_nl]);;
        modExit (setCode 1);;
        match errKindOf err with KStorage => modExit (setExiting true) | _ => mret tt end
    end.

Definition stringVar (value : bytes) : Var := mkVar true false false false KString value [] [].

Definition setVarString (name value : bytes) : M unit := setVar name (stringVar value).

Definition setVarRestore (name : bytes) (vr : Var) : M unit :=
  r ← getR; modW (fun w => set_vars (setUncapped (Declared X) (baseGet X) (writeEnv r) name vr (vars w)) w).

(** ** Errors of an expansion *)

Definition expandErr (err : option goErr) : M unit :=
  match err with
  | None => mret tt
  | Some e =>
      r ← getR;
      write O (r_stderr r) (errText e ++ [ch_nl]);;
      match errKindOf e with
      | KLimit => modExit setLimitExit;; modExit (setCode 1);; modExit (setExiting true)
      | KUnsetParameter | KUnexpectedCommand | KStorage => modExit (setCode 1);; modExit (setExiting true)
      | _ =>
          if (errText e =s "invalid indirect expansion") || HasSuffix (errText e) (lit "not supported")
          then modExit (setCode 1);; modExit (setExiting true)
          else modExit (setCode 1)
      end
  end.

Definition chargeExpansionBytes (n : Z) : M (option goErr) :=
  if (n <=? 0)%Z then mret None
  else
    modW (fun w => set_expansionByteCount (expansionByteCount w + n) w);;
    w ← getW;
    mret (if (MaxExpandedBytesPerRun <? expansionByteCount w + answerSibling O (hist w))%Z
          then Some (limitErr (lit "expansion exceeds maximum cumulative size (" ++ itoa MaxExpandedBytesPerRun ++ lit " bytes)"))
          else None).

(** ** Size of a word before it is expanded *)

Section SizeLevel.
Context (rec : list Node -> M (goErr + wordExpansionSize)).

Fixpoint elemSizes (es : list Node) (size : wordExpansionSize) : M (goErr + wordExpansionSize) :=
  match es with
  | [] => mret (inr size)
  | e :: es =>
      s ← rec (Parts e);
      match s with
      | inl err => mret (inl err)
      | inr elem => elemSizes es (mkSize (Z.max (known size) (known elem)) (Z.max (maximum size) (maximum elem)))
      end
  end.

Definition partSize (p : part) : M (goErr + wordExpansionSize) :=
  let exactly (v : bytes) := mret (inr (mkSize (Z.of_nat (length v)) (Z.of_nat (length v)))) in
  match pview p with
  | VLit v => exactly v
  | VSglQuoted v => exactly v
  | VDblQuoted ps => rec ps
  | VParamExp pe =>
      match pe_Param pe with
      | None => mret (inl (plainErr (lit "unsupported parameter expansion")))
      | Some name => vr ← lookupVar name; exactly (VarString X vr)
      end
  | VCmdSubst _ => mret (inr (mkSize 0 maxCmdSubstOutput))
  | VBraceExp _ es => elemSizes es (mkSize 0 0)
  | _ => mret (inl (plainErr (lit "unsupported expansion part")))
  end.

Fixpoint partSizes (ps : list part) (total : wordExpansionSize) : M (goErr + wordExpansionSize) :=
  match ps with
  | [] => mret (inr total)
  | p :: ps =>
      s ← partSize p;
      match s with
      | inl err => mret (inl err)
      | inr size =>
          partSizes ps (mkSize (addExpansionSize (known total) (known size))
                               (addExpansionSize (maximum total) (maximum size)))
      end
  end.
End SizeLevel.

(** The recursion goes down the tree: its height is enough fuel. *)
Fixpoint sizeFuel (fuel : nat) (ps : list part) : M (goErr + wordExpansionSize) :=
  match fuel with
  | 0 => outOfFuel
  | S fuel => partSizes (fun ns => sizeFuel fuel (Old <$> ns)) ps (mkSize 0 0)
  end.

Definition partsFuel (ps : list part) : nat := S (list_max (map psize ps)).

Definition wordPartsExpansionSize (ps : list part) : M (goErr + wordExpansionSize) := sizeFuel (partsFuel ps) ps.

Definition checkWordExpansionSize (ps : list part) (limit : Z) (message : bytes) : M (option goErr) :=
  s ← wordPartsExpansionSize ps;
  mret (match s with
        | inl err => Some err
        | inr size =>
            if (limit <? known size)%Z then Some (limitErr message)
            else if (MaxExpandedBytesPerCommand <? maximum size)%Z
            then Some (limitErr (lit "expansion exceeds maximum intermediate size (" ++ itoa MaxExpandedBytesPerCommand ++ lit " bytes)"))
            else None
        end).

(** ** Fields of a word before it is expanded *)

Definition fieldSplitIFS : M bytes :=
  vr ← lookupVar (lit "IFS");
  mret (if IsSet X vr then VarString X vr else lit " " ++ [ch_tab; ch_nl]).

Abbreviation substs := (list (Node * splitSubst)).

Definition deferNext (i : nat) (ss : substs) : substs :=
  match ss !! i with
  | Some (cs, s) => <[i := (cs, mkSplitSubst (inBrace s) (openBefore s) (prev s) true (ran s) (openAfter s))]> ss
  | None => ss
  end.

Section SourcesLevel.
Context (rec : list Node -> bool -> substs -> M (Z * bool * substs)).

Fixpoint elemSources (es : list Node) (open : bool) (largest : Z) (allOpen : bool) (ss : substs) : M (Z * bool * substs) :=
  match es with
  | [] => mret (largest, allOpen, ss)
  | e :: es =>
      '(n, elemOpen, ss) ← rec (Parts e) open ss;
      elemSources es open (Z.max largest n) (allOpen && elemOpen) ss
  end.

(** One turn of the loop: the sources of the part, whether a field is open
    after it, whether it counted as starting one. *)
Definition partSources (ifs : bytes) (p : Node) (open : bool) (ss : substs) : M (Z * bool * bool * substs) :=
  match view p with
  | VParamExp pe =>
      match pe_Param pe with
      | None => mret (0%Z, open, false, ss)
      | Some name =>
          vr ← lookupVar name;
          let value := VarString X vr in
          let '(n, closes, opens) := splitFieldSources value ifs in
          let n := if (0 <? n)%Z && open && negb closes then (n - 1)%Z else n in
          mret (n, (if bytes_eqb value [] then open else opens), (0 <? n)%Z && negb closes, ss)
      end
  | VBraceExp _ es =>
      '(largest, allOpen, ss) ← elemSources es open 0 true ss;
      mret (largest, allOpen, false, ss)
  | _ => mret ((if open then 0 else 1)%Z, true, negb open, ss)
  end.

Fixpoint sourcesLoop (ifs : bytes) (braced : bool) (ps : list Node) (sources : Z) (open : bool) (afterSubst : option nat)
    (ss : substs) : M (Z * bool * substs) :=
  match ps with
  | [] => mret (sources, open, ss)
  | p :: ps =>
      match view p with
      | VCmdSubst _ =>
          let s := mkSplitSubst braced open (match afterSubst with Some i => Z.of_nat i | None => -1 end) false false false in
          sourcesLoop ifs braced ps sources false (Some (length ss)) (ss ++ [(p, s)])
      | _ =>
          '(n, open, counted, ss) ← partSources ifs p open ss;
          match afterSubst with
          | Some i =>
              if negb braced && counted
              then sourcesLoop ifs braced ps (sources + n - 1) open None (deferNext i ss)
              else sourcesLoop ifs braced ps (sources + n) open None ss
          | None => sourcesLoop ifs braced ps (sources + n) open None ss
          end
      end
  end.
End SourcesLevel.

Fixpoint sourcesFuel (ifs : bytes) (fuel : nat) (braced : bool) (ps : list Node) (open : bool) (ss : substs) : M (Z * bool * substs) :=
  match fuel with
  | 0 => outOfFuel
  | S fuel => sourcesLoop (sourcesFuel ifs fuel true) ifs braced ps 0 open None ss
  end.

Definition wordFieldSources (ps : list Node) (ifs : bytes) : M (Z * substs) :=
  '(sources, _, ss) ← sourcesFuel ifs (InterpValidate.heightFuel ps) false ps false [];
  mret (sources, ss).

(** ** The output of an unquoted command substitution *)

(** The index of the last substitution of the word that is [cs]. *)
Fixpoint findSubst (cs : Node) (ss : substs) (i : nat) : option nat :=
  match ss with
  | [] => None
  | (n, _) :: ss =>
      match findSubst cs ss (S i) with
      | Some j => Some j
      | None => if decide (n = cs) then Some i else None
      end
  end.

(** [substFieldSources]: the sources it adds, and the list with its output
    recorded. *)
Definition substFieldSources (ss : substs) (idx : nat) (s : Node * splitSubst) (out ifs : bytes) : Z * substs :=
  let '(n, closes, opens) := splitFieldSources out ifs in
  let '(cs, s) := s in
  if inBrace s then (n, ss)
  else
    let before := match ss !! Z.to_nat (prev s) with
                  | Some (_, p) => if (0 <=? prev s)%Z && ran p then openAfter p else openBefore s
                  | None => openBefore s
                  end in
    let n := if (0 <? n)%Z && before && negb closes then (n - 1)%Z else n in
    let after := if bytes_eqb out [] then before else opens in
    let ss := <[idx := (cs, mkSplitSubst (inBrace s) (openBefore s) (prev s) (deferredNext s) true after)]> ss in
    ((if deferredNext s && negb after then n + 1 else n)%Z, ss).

Definition fieldLimitError (c : fieldCollector) : goErr :=
  limitErr (lit "expansion exceeds maximum field count (" ++ itoa (maxFields c) ++ lit ")").

Definition chargeSplitSubstOutput (cs : Node) (out : bytes) : M (option goErr) :=
  r ← getR;
  match activeFields r with
  | None => mret None
  | Some c =>
      match findSubst cs (splitSubsts c) 0 with
      | None => mret None
      | Some idx =>
          ifs ← fieldSplitIFS;
          match splitSubsts c !! idx with
          | None => mret None
          | Some s =>
              let '(n, ss) := substFieldSources (splitSubsts c) idx s (normalizeSubstOutput out) ifs in
              let c := mkCollector (maxFields c) (fields c) (c_bytes c) (wordSources c) ss (substSources c + n) in
              modR (set_activeFields (Some c));;
              mret (if (maxFields c - Z.of_nat (length (fields c)) <? wordSources c + substSources c)%Z
                    then Some (fieldLimitError c) else None)
          end
      end
  end.

(** ** Subshells and command substitution *)

(** [(r *Runner) subshell]. *)
Definition subshell (background : bool) : M Runner :=
  r ← getR; w ← getW;
  let '(o, h) := newOverlayEnviron (Declared X) (baseEach X) (EnvOverlay (writeEnv r)) background (vars w) in
  modW (set_vars h);;
  mret (mkRunner (Dir r) (r_stdin r) (r_stdout r) (r_stderr r) (inPipelineStage r) 0 0 0 0 0 0 false
          (exit r) (lastExit r) exit0 None o (Params r) [] []).

(** [releaseVarStorage] of a runner with this environment. *)
Definition releaseVarStorage (o : nat) : M unit := modW (fun w => set_vars (release o (vars w)) w).

(** [stmts]: stop at an exit or while a loop is being left. *)
Fixpoint stmts (ss : list Node) : M unit :=
  match ss with
  | [] => mret tt
  | s :: ss =>
      stmtRec s;;
      r ← getR;
      if exiting (exit r) || (0 <? breakEnclosing r)%Z || (0 <? contnEnclosing r)%Z then mret tt
      else stmts ss
  end.

Definition catShortcutArg (stmt : Node) : option Node :=
  match view stmt with
  | VStmt None [rd] false false false false =>
      match view rd with
      | VRedirect RdrIn _ word _ => word
      | _ => None
      end
  | _ => None
  end.

Definition newFieldCollector (max : Z) : fieldCollector := mkCollector max [] 0 0 [] 0.

Definition setSubstExit (e : exitStatus) : M unit :=
  modR (set_lastExpandExit e);; modR (set_lastExit e).

Section Callbacks.
Context (redirectWord : Node -> M (goErr + bytes)).

(** [$(<file)]: read the file as [cat] would. *)
Definition catShortcut (cs word : Node) : M (bytes * option goErr) :=
  if negb (allowed (lit "cat")) then
    errf O (lit "$(<file): file read not permitted (cat not in allowed commands)" ++ [ch_nl]);;
    setSubstExit (mkExit 1 false false false None);;
    mret ([], None)
  else
    p ← redirectWord word;
    match p with
    | inl _ => setSubstExit (mkExit 1 false false false None);; mret ([], None)
    | inr path =>
        f ← open O box path ReadOnly true true;
        match f with
        | inr _ => setSubstExit (mkExit 1 false false false None);; mret ([], None)
        | inl id =>
            w ← getW;
            emit (ERead id);;
            let '(isDir, data, err) := answerRead O (hist w) in
            emit (EClose id);;
            if isDir : bool then setSubstExit exit0;; mret ([], None)
            else
              setSubstExit (mkExit (match err with Some _ => 1 | None => 0 end) false false false None);;
              match err with
              | Some e => mret ([], Some e)
              | None =>
                  let data := take (Z.to_nat maxCmdSubstOutput) data in
                  e ← chargeSplitSubstOutput cs data;
                  mret (match e with Some e => ([], Some e) | None => (data, None) end)
              end
        end
    end.

(** [cmdSubst]: the bytes it writes and its error. *)
Definition cmdSubst (cs : Node) : M (bytes * option goErr) :=
  match view cs with
  | VCmdSubst [] => mret ([], None)
  | VCmdSubst ss =>
      match match ss with [s] => catShortcutArg s | _ => None end with
      | Some word => catShortcut cs word
      | None =>
          r ← getR;
          r2 ← subshell false;
          out ← newLimitWriter (SBuf []) maxCmdSubstOutput;
          '(_, r2) ← onRunner (set_inLoop (inLoop r) (set_r_stdout out r2)) (stmts ss);
          releaseVarStorage (writeEnv r2);;
          let e := setExiting false (exit r2) in
          setSubstExit e;;
          if fatalExit e then
            match x_err e with Some err => modExit (fatal err) | None => mret tt end;;
            mret ([], x_err e)
          else if limitExit e then
            modExit (setCode 1);; modExit (setExiting true);; modExit setLimitExit;;
            mret ([], None)
          else
            data ← captured out;
            e ← chargeSplitSubstOutput cs data;
            mret (match e with Some e => ([], Some e) | None => (data, None) end)
      end
  | _ => mret ([], None)
  end.

(** [ReadDir2] of the expansion's configuration. *)
Definition readDir2 (path : bytes) : M (list bytes * option goErr) :=
  modW (fun w => set_globReadDirCount (globReadDirCount w + 1) w);;
  w ← getW;
  if (MaxGlobReadDirCalls <? globReadDirCount w)%Z
  then mret ([], Some (plainErr (lit "glob expansion exceeded maximum number of directory reads (" ++ itoa MaxGlobReadDirCalls ++ lit ")")))
  else emit (EOpenDir path);; mret (answerDir O (hist w)).

Inductive expResult :=
| Finished                                   (* the sequence ended *)
| Stopped                                    (* the consumer broke off *)
| Returned (s : bytes) (err : option goErr)
| PanickedWith (msg : bytes).

(** Runs an expansion; [onYield] consumes a field and says whether to go on. *)
Fixpoint runExp (onYield : bytes -> option goErr -> M bool) (p : expProg) : M expResult :=
  match p with
  | XDone => mret Finished
  | XYield f err k => go ← onYield f err; if go : bool then runExp onYield k else mret Stopped
  | XRet s err => mret (Returned s err)
  | XPanic msg => mret (PanickedWith msg)
  | XGet name k => vr ← lookupVar name; runExp onYield (k vr)
  | XSet name vr k =>
      e ← setVarErr name vr;
      runExp onYield (k ((fun e => mkErr (name ++ lit ": " ++ errText e) (errKindOf e)) <$> e))
  | XEach k => r ← getR; w ← getW; runExp onYield (k (envEach (baseEach X) (vars w) (EnvOverlay (writeEnv r))))
  | XReadDir path k => '(es, err) ← readDir2 path; runExp onYield (k es err)
  | XCmdSubst cs k => '(out, err) ← cmdSubst cs; runExp onYield (k out err)
  end.

(** ** Collecting fields *)

Definition modC (f : fieldCollector -> fieldCollector) : M unit :=
  modR (fun r => set_activeFields (f <$> activeFields r) r).

(** The collector at work; [add] has put it there. *)
Definition theC : M fieldCollector :=
  r ← getR; mret (default (newFieldCollector 0) (activeFields r)).

Definition tooLarge : goErr :=
  limitErr (lit "expansion exceeds maximum command size (" ++ itoa MaxExpandedBytesPerCommand ++ lit " bytes)").

Definition refuse (e : goErr) : M bool := expandErr (Some e);; mret false.

(** The body of the loop over the fields of one word. *)
Definition collect (field : bytes) (err : option goErr) : M bool :=
  match err with
  | Some e =>
      refuse (if HasPrefix (errText e) braceExpansionLimitErrorPrefix then limitErr (errText e) else e)
  | None =>
      s ← stop O;
      if s : bool then mret false
      else
        modC (fun c => mkCollector (maxFields c) (fields c) (c_bytes c) (wordSources c) (splitSubsts c) 0);;
        c ← theC;
        if (maxFields c <=? Z.of_nat (length (fields c)))%Z then refuse (fieldLimitError c)
        else
          let fieldBytes := Z.of_nat (length field) in
          if (MaxExpandedBytesPerCommand - c_bytes c <? fieldBytes)%Z then refuse tooLarge
          else
            e ← chargeExpansionBytes fieldBytes;
            match e with
            | Some e => refuse e
            | None =>
                modC (fun c => mkCollector (maxFields c) (fields c ++ [field]) (c_bytes c + fieldBytes)
                                           (wordSources c) (splitSubsts c) (substSources c));;
                mret true
            end
  end.

Definition addWord (ifs : bytes) (word : Node) : M bool :=
  s ← stop O;
  if s : bool then mret false
  else
    c ← theC;
    let '(found, split) := SplitBraces word in
    let ps := if found : bool then split else Parts word in
    e ← checkWordExpansionSize (Old <$> ps) (MaxExpandedBytesPerCommand - c_bytes c) (errText tooLarge);
    match e with
    | Some e => refuse e
    | None =>
        '(sources, ss) ← wordFieldSources ps ifs;
        modC (fun c => mkCollector (maxFields c) (fields c) (c_bytes c) sources ss 0);;
        c ← theC;
        if (maxFields c - Z.of_nat (length (fields c)) <? sources)%Z then refuse (fieldLimitError c)
        else
          res ← runExp collect (FieldsSeq X word);
          match res with
          | Finished => mret true
          | PanickedWith msg => panic msg
          | _ => mret false
          end
    end.

Fixpoint addWords (ifs : bytes) (words : list Node) : M bool :=
  match words with
  | [] => mret true
  | w :: ws => b ← addWord ifs w; if b : bool then addWords ifs ws else mret false
  end.

(** [add]: the collector is the runner's active one while it works. *)
Definition addTo (c : fieldCollector) (words : list Node) : M (bool * fieldCollector) :=
  r ← getR;
  let previous := activeFields r in
  finally
    (modR (set_activeFields (Some c));;
     ifs ← fieldSplitIFS;
     b ← catch isGlobPatternPanic (addWords ifs words)
           (refuse (plainErr (lit "invalid glob pattern in expansion")));
     c ← theC;
     mret (b, c))
    (modR (set_activeFields previous)).
End Callbacks.

(** A word's expansion may contain [$(<word)], which expands a word in turn:
    the recursion goes down the tree. *)
Definition redirectWordWith (rec : Node -> M (goErr + bytes)) (word : Node) : M (goErr + bytes) :=
  '(b, c) ← addTo rec (newFieldCollector MaxExpandedArgumentsPerCommand) [word];
  if negb b then mret (inl (plainErr (lit "redirect expansion failed")))
  else match fields c with
       | [f] => mret (inr f)
       | _ =>
           errf O (lit "ambiguous redirect" ++ [ch_nl]);;
           mret (inl (plainErr (lit "ambiguous redirect")))
       end.

Fixpoint redirectWordFuel (fuel : nat) (word : Node) : M (goErr + bytes) :=
  match fuel with
  | 0 => outOfFuel
  | S fuel => redirectWordWith (redirectWordFuel fuel) word
  end.

Definition redirectWord (word : Node) : M (goErr + bytes) := redirectWordFuel (S (size word)) word.

(** The callbacks of a word that is not itself inside [$(<word)]. *)
Definition add (c : fieldCollector) (words : list Node) : M (bool * fieldCollector) := addTo redirectWord c words.

(** [(r *Runner) fields]. *)
Definition fieldsOf (words : list Node) : M (list bytes) :=
  '(_, c) ← add (newFieldCollector MaxExpandedArgumentsPerCommand) words;
  mret (fields c).

(** [setCommandPrefixFields]. *)
Definition setCommandPrefixFields (n : Z) (c : fieldCollector) : M (bool * fieldCollector) :=
  let c := mkCollector (n + MaxExpandedArgumentsPerCommand) (fields c) (c_bytes c) (wordSources c) (splitSubsts c) (substSources c) in
  if (maxFields c <? Z.of_nat (length (fields c)))%Z then
    expandErr (Some (limitErr (lit "expansion exceeds maximum argument count (" ++ itoa MaxExpandedArgumentsPerCommand ++ lit ")")));;
    mret (false, c)
  else
    let bytes := foldr (fun f n => Z.of_nat (length f) + n)%Z 0%Z (drop (Z.to_nat n) (fields c)) in
    mret (true, mkCollector (maxFields c) (fields c) bytes (wordSources c) (splitSubsts c) (substSources c)).

(** ** Single strings *)

Definition noYield (f : bytes) (err : option goErr) : M bool := mret true.

Definition runString (p : expProg) : M (bytes * option goErr) :=
  res ← runExp redirectWord noYield p;
  match res with
  | Returned s err => mret (s, err)
  | PanickedWith msg => panic msg
  | _ => mret ([], None)
  end.

Definition literalBounded (word : Node) (limit : Z) (message : bytes) : M bytes :=
  e ← checkWordExpansionSize (Old <$> Parts word) limit message;
  match e with
  | Some e => expandErr (Some e);; mret []
  | None =>
      '(str, err) ← runString (Literal X word);
      let err := match err with
                 | Some e => Some e
                 | None => if (limit <? Z.of_nat (length str))%Z then Some (limitErr message) else None
                 end in
      err ← match err with
            | Some e => mret (Some e)
            | None => chargeExpansionBytes (Z.of_nat (length str))
            end;
      expandErr err;;
      mret (match err with Some _ => [] | None => str end)
  end.

Definition assignmentLiteral (name : bytes) (word : Node) : M bytes :=
  literalBounded word MaxVarBytes (name ++ lit ": value too large (limit " ++ itoa MaxVarBytes ++ lit " bytes)").

Definition heredocTooLarge : bytes :=
  lit "heredoc: content exceeds maximum size (" ++ itoa MaxHeredocBytes ++ lit " bytes)".

Definition document (ps : list part) : M (goErr + bytes) :=
  e ← checkWordExpansionSize ps MaxHeredocBytes heredocTooLarge;
  match e with
  | Some e => mret (inl e)
  | None =>
      '(str, err) ← runString (Document X ps);
      mret (match err with
            | Some e => inl e
            | None => if (MaxHeredocBytes <? Z.of_nat (length str))%Z then inl (limitErr heredocTooLarge) else inr str
            end)
  end.

End Expand.
End InterpExpand.
