(* ===== verification/InterpRedir.v ===== *)
(** * Redirections at run time

    [interp/runner_redir.go] and [runner_redir_remediation.go]: heredocs, the
    gate on written files, and the opening of the targets. *)

From S2P Require Import Prelude GoStd InterpSyntax InterpValidate InterpVars InterpState InterpExpand.
From stdpp Require Import base list gmap sets strings.
From Stdlib Require Import ZArith Lia Ascii.

Module InterpRedir.
Import GoStd InterpSyntax InterpVars InterpState InterpExpand.

Section Redir.
Context {SX : Syntax} (O : oracles) (X : expander) (allowed : bytes -> bool).
Context (remediationMode hasSandbox : bool).
Context (stmtRec : Node -> M unit).

Abbreviation box := (sandboxOf remediationMode hasSandbox).

(** ** Heredocs *)

Definition isQuotedHdoc (word : option Node) : bool :=
  match word with
  | None => false
  | Some w =>
      existsb (fun p => match view p with
                        | VSglQuoted _ | VDblQuoted _ => true
                        | VLit v => existsb (Ascii.eqb ch_bs) v
                        | _ => false
                        end) (Parts w)
  end.

Definition hdocWordRawSize (ps : list part) : Z :=
  foldr (fun p n => match pview p with VLit v => Z.of_nat (length v) + n | _ => n end)%Z 0%Z ps.

Fixpoint hdocLiteralFuel (fuel : nat) (p : part) : bytes :=
  match pview p with
  | VLit v => v
  | VParamExp pe =>
      let name := default [] (pe_Param pe) in
      lit "$" ++ (if pe_Short pe then name else lit "{" ++ name ++ lit "}")
  | VSglQuoted v => v
  | VDblQuoted ps =>
      match fuel with
      | 0 => []
      | S fuel => mjoin (map (fun n => hdocLiteralFuel fuel (Old n)) ps)
      end
  | _ => []
  end.

Definition hdocLiteral (ps : list part) : bytes := mjoin (map (fun p => hdocLiteralFuel (psize p) p) ps).

Definition expandHdoc (quoted : bool) (ps : list part) : M (goErr + bytes) :=
  if quoted then mret (inr (hdocLiteral ps)) else document O X allowed box stmtRec ps.

Definition hdocTooLarge : goErr := limitErr heredocTooLarge.

(** Both ends of the pipe are closed when the text cannot be built. *)
Definition hdocFails (id : Z) (e : goErr) : M (goErr + bytes) :=
  emit (EClose id);; emit (EClose id);; expandErr O (Some e);; mret (inl e).

(** The body of [<<]. *)
Definition plainBody (id : Z) (quoted : bool) (ps : list part) : M (goErr + bytes) :=
  if (MaxHeredocBytes <? hdocWordRawSize ps)%Z then hdocFails id hdocTooLarge
  else
    b ← expandHdoc quoted ps;
    match b with
    | inl e => hdocFails id e
    | inr hdoc =>
        if (MaxHeredocBytes <? Z.of_nat (length hdoc))%Z then hdocFails id hdocTooLarge
        else
          e ← chargeExpansionBytes O (Z.of_nat (length hdoc));
          match e with Some e => hdocFails id e | None => mret (inr hdoc) end
    end.

(** [flushLine] of [<<-]: the separator is written only after some text. *)
Definition flushLine (quoted : bool) (cur : list part) (buf : bytes) (hdocErr : option goErr) : M (bytes * option goErr) :=
  match hdocErr with
  | Some e => mret (buf, Some e)
  | None =>
      b ← expandHdoc quoted cur;
      mret (match b with
            | inl e => (buf, Some e)
            | inr expanded =>
                let newLen := (Z.of_nat (length buf) + Z.of_nat (length expanded)
                               + (if (0 <? Z.of_nat (length buf)) then 1 else 0))%Z in
                if (MaxHeredocBytes <? newLen)%Z then (buf, Some hdocTooLarge)
                else ((if (0 <? Z.of_nat (length buf))%Z then buf ++ [ch_nl] else buf) ++ expanded, None)
            end)
  end.

Definition TrimLeftTabs (s : bytes) : bytes := drop (run_length (Ascii.eqb ch_tab) s) s.

(** The segments of one literal: each but the first ends the line before. *)
Fixpoint dashSegments (quoted : bool) (segs : list bytes) (first : bool) (cur : list part) (buf : bytes) (hdocErr : option goErr)
    : M (list part * bytes * option goErr) :=
  match segs with
  | [] => mret (cur, buf, hdocErr)
  | seg :: segs =>
      '(cur, buf, hdocErr) ←
        (if first then mret (cur, buf, hdocErr)
         else '(buf, hdocErr) ← flushLine quoted cur buf hdocErr; mret ([], buf, hdocErr));
      dashSegments quoted segs false (cur ++ [NewLit (TrimLeftTabs seg)]) buf hdocErr
  end.

Fixpoint dashParts (quoted : bool) (ps : list part) (cur : list part) (buf : bytes) (hdocErr : option goErr)
    : M (list part * bytes * option goErr) :=
  match ps with
  | [] => mret (cur, buf, hdocErr)
  | p :: ps =>
      match pview p with
      | VLit v =>
          '(cur, buf, hdocErr) ← dashSegments quoted (Split ch_nl v) true cur buf hdocErr;
          dashParts quoted ps cur buf hdocErr
      | _ => dashParts quoted ps (cur ++ [p]) buf hdocErr
      end
  end.

(** The body of [<<-]. *)
Definition dashBody (id : Z) (quoted : bool) (ps : list part) : M (goErr + bytes) :=
  '(cur, buf, hdocErr) ← dashParts quoted ps [] [] None;
  '(buf, hdocErr) ← flushLine quoted cur buf hdocErr;
  match hdocErr with
  | Some e => hdocFails id e
  | None =>
      e ← chargeExpansionBytes O (Z.of_nat (length buf));
      match e with Some e => hdocFails id e | None => mret (inr buf) end
  end.

(** A pipe: its number, or the error of [os.Pipe]. *)
Definition newPipe : M (Z + goErr) :=
  w ← getW;
  emit EPipe;;
  mret (match answerPipe O (hist w) with
        | Some e => inr e
        | None => inl (Z.of_nat (length (hist w)))
        end).

(** [hdocReader]; a goroutine then feeds the text to the pipe. *)
Definition hdocReader (op : redirOp) (word : option Node) (hdoc : Node) : M (goErr + Z) :=
  p ← newPipe;
  match p with
  | inr e => mret (inl e)
  | inl id =>
      let quoted := isQuotedHdoc word in
      let ps := Old <$> Parts hdoc in
      b ← (if decide (op = DashHdoc) then dashBody id quoted ps else plainBody id quoted ps);
      match b with
      | inl e => mret (inl e)
      | inr text => emit (EWrite (OutPipe id) text);; emit (EClose id);; mret (inr id)
      end
  end.

(** ** Files that are written *)

(** [rejectNonRegularRedirectTarget]: nil for a regular file and for a path
    whose mode is unknown. *)
Definition rejectNonRegularRedirectTarget (path : bytes) : M (option goErr) :=
  if negb hasSandbox then mret None
  else
    w ← getW;
    emit (EStat path);;
    match answerStat O (hist w) with
    | None => mret None
    | Some mode =>
        if (Z.land mode ModeType =? 0)%Z then mret None
        else
          let msg := lit "open " ++ path ++ lit ": not a regular file" in
          errf O (msg ++ [ch_nl]);; mret (Some (plainErr msg))
    end.

(** Which of the runner's streams a redirection replaces. *)
Inductive target := ToStdout | ToStderr | ToBoth.

Definition redirectOut (t : target) (h : outHandle) : M unit :=
  match t with
  | ToStdout => modR (set_r_stdout h)
  | ToStderr => modR (set_r_stderr h)
  | ToBoth => modR (set_r_stdout h);; modR (set_r_stderr h)
  end.

(** [openWriteRedirect] and [openWriteAllRedirect], which differ in the
    streams they replace. *)
Definition openWriteRedirect (op : redirOp) (arg : bytes) (t : target) : M (goErr + option Z) :=
  e ← rejectNonRegularRedirectTarget arg;
  match e with
  | Some e => mret (inl e)
  | None =>
      f ← open O box arg (match op with AppOut | AppAll => WriteAppend | _ => WriteTrunc end) true true;
      match f with
      | inr e => mret (inl e)
      | inl id => redirectOut t (OutFile id);; mret (inr (Some id))
      end
  end.

(** ** One redirection *)

Definition isDevNull (path : bytes) : bool := InterpValidate.isDevNull path.

Definition unsupportedFd (text : bytes) : M (goErr + option Z) :=
  let msg := text ++ lit ": unsupported fd" in
  errf O (msg ++ [ch_nl]);; mret (inl (plainErr msg)).

Definition devNullOnly (what arg : bytes) : M (goErr + option Z) :=
  let msg := what ++ arg ++ lit ": file redirection is only supported for /dev/null" in
  errf O (msg ++ [ch_nl]);; mret (inl (plainErr msg)).

(** [stdinFile] of an opened file: the file itself, or a pipe fed from it. *)
Definition openInput (arg : bytes) : M (goErr + option Z) :=
  f ← open O box arg ReadOnly true true;
  match f with
  | inr e => mret (inl e)
  | inl id => modR (set_r_stdin (InFile id));; mret (inr (Some id))
  end.

(** The rest of [redir], once the word is expanded and the descriptor known. *)
Definition redirTo (op : redirOp) (orig : target) (arg : bytes) : M (goErr + option Z) :=
  match op with
  | RdrIn => openInput arg
  | RdrOut | ClbOut | AppOut =>
      if isDevNull arg then redirectOut orig Discard;; mret (inr None)
      else if negb remediationMode then devNullOnly (lit "> ") arg
      else openWriteRedirect op arg orig
  | RdrAll | AppAll =>
      if isDevNull arg then redirectOut ToBoth Discard;; mret (inr None)
      else if negb remediationMode then devNullOnly (lit "&> ") arg
      else openWriteRedirect op arg ToBoth
  | DplOut =>
      r ← getR;
      if arg =s "1" then redirectOut orig (r_stdout r);; mret (inr None)
      else if arg =s "2" then redirectOut orig (r_stderr r);; mret (inr None)
      else unsupportedFd (lit ">&" ++ arg)
  | _ => mret (inl (plainErr (lit "unhandled redirect op")))
  end.

(** The descriptor before the operator. *)
Definition origOf (op : redirOp) (fd : option bytes) : option target :=
  match fd with
  | None => Some ToStdout
  | Some n =>
      if n =s "0" then (if decide (op = RdrIn) then Some ToStdout else None)
      else if n =s "1" then Some ToStdout
      else if n =s "2" then Some ToStderr
      else None
  end.

(** [redir]: the descriptor to close afterwards, if any. *)
Definition redir (rd : Node) : M (goErr + option Z) :=
  match view rd with
  | VRedirect op fd word hdoc =>
      match hdoc with
      | Some h =>
          p ← hdocReader op word h;
          match p with
          | inl e => mret (inl e)
          | inr id => modR (set_r_stdin (InPipe id));; mret (inr (Some id))
          end
      | None =>
          if decide (op = Hdoc \/ op = DashHdoc) then
            p ← newPipe;
            match p with
            | inr e => mret (inl e)
            | inl id => emit (EClose id);; modR (set_r_stdin (InPipe id));; mret (inr (Some id))
            end
          else
            match word with
            | None => panic (lit "nil word")
            | Some w =>
                a ← redirectWord O X allowed box stmtRec w;
                match a with
                | inl e => mret (inl e)
                | inr arg =>
                    match origOf op fd with
                    | None => unsupportedFd (default [] fd)
                    | Some orig => redirTo op orig arg
                    end
                end
            end
      end
  | _ => mret (inr None)
  end.

(** [applyRedirects] of [runner_exec.go]: in order, up to the first failure. *)
Fixpoint applyRedirects (redirs : list Node) : M unit :=
  match redirs with
  | [] => mret tt
  | rd :: redirs =>
      c ← redir rd;
      match c with
      | inl _ => modExit (setCode 1)
      | inr cls =>
          match cls with
          | Some id => modR (fun r => set_closers (closers r ++ [id]) r)
          | None => mret tt
          end;;
          applyRedirects redirs
      end
  end.

End Redir.
End InterpRedir.
