(* ===== verification/InterpCall.v ===== *)
(** * Dispatching a command

    [call] of [interp/runner_exec.go] with its gates, the capabilities it hands
    to a builtin, and the children a builtin spawns.  A builtin is any handler
    of the registry: an interaction tree of the capabilities it uses. *)

From S2P Require Import Prelude GoStd Filepath InterpSyntax InterpVars InterpState InterpExpand.
From stdpp Require Import base list gmap sets strings.
From Stdlib Require Import ZArith Lia Ascii.

Module InterpCall.
Import GoStd Filepath InterpSyntax InterpVars InterpState InterpExpand.

(** ** Builtins *)

(** [builtins.Result]. *)
Record Result := mkResult { res_Code : Z; res_Exiting : bool; res_BreakN : Z; res_ContinueN : Z }.

(** The part of [builtins.CallContext] a handler can look at.  A capability
    that is nil in the context is absent here. *)
Record CallContext := mkCall {
  cc_InLoop : bool; cc_LastExitCode : Z; cc_RemediationMode : bool;
  cc_mutators : bool;       (* Truncate, Remove, WriteRegularFile, ... *)
  cc_shellState : bool;     (* SetVar, GetVar, ChangeDir *)
  cc_Stdin : inHandle;
  cc_WorkDir : bytes }.

(** The capabilities that act on the runner or the host; [CCtxErr]
    is the handler's own check of its context, [ctx.Err()]; [CAsk] stands for
    those that only read ([ReadDir], [StatFile], [Proc], ...). *)
Inductive capability :=
| COut (p : bytes)
| CErr (p : bytes)
| COpen (path : bytes) (mode : openMode)
| CRunCommand (dir name : bytes) (args : list bytes) (stdin : option inHandle)
| CSetVar (name value : bytes)
| CGetVar (name : bytes)
| CLookupEnvVar (name : bytes)
| CChangeDir (dir : bytes)
| CRemove (path : bytes)
| CMutate (path : bytes)
| CCtxErr
| CAsk (n : Z).

Record answer := mkAnswer { ans_data : bytes; ans_num : Z; ans_ok : bool; ans_err : option goErr }.

Inductive prog :=
| PRet (res : Result)
| PDo (c : capability) (k : answer -> prog).

Record command := mkCommand {
  cmd_run : CallContext -> list bytes -> prog;
  cmd_RemediationOnly : bool;
  cmd_RemediationDeniedMessage : bytes }.

(** The immutable configuration of a runner. *)
Record runnerConfig := mkConfig {
  allowAllCommands : bool;
  allowedCommands : bytes -> bool;
  cf_remediationMode : bool;
  cf_sandbox : bool;              (* a sandbox is configured *)
  cf_elevate : bool;              (* SelectiveElevation was given *)
  elevatableCommands : bytes -> bool;
  registry : bytes -> option command }.  (* builtins.Lookup and builtins.Meta *)

(** The mode [New] leaves the sandbox in. *)
Abbreviation cf_box cfg := (sandboxOf (cf_remediationMode cfg) (cf_sandbox cfg)).

Definition MaxFileRemovalsPerRun : Z := 100.

Definition DefaultRemediationDeniedMessage (name : bytes) : bytes :=
  name ++ lit ": remediation mode required" ++ [ch_nl].

Section Call.
Context {SX : Syntax} (O : oracles) (X : expander) (cfg : runnerConfig).

Definition isAllowed (name : bytes) : bool := allowAllCommands cfg || allowedCommands cfg name.

Definition remediationOnlyRefusal (name : bytes) (remediationMode : bool) : option bytes :=
  if remediationMode then None
  else
    match registry cfg name with
    | None => None
    | Some c =>
        if negb (cmd_RemediationOnly c) then None
        else
          let msg := cmd_RemediationDeniedMessage c in
          Some (if bytes_eqb msg [] then DefaultRemediationDeniedMessage name else msg)
    end.

(** ** Capabilities of the runner *)

Definition done : answer := mkAnswer [] 0 true None.
Definition failed (e : goErr) : answer := mkAnswer [] 0 false (Some e).
Definition answerErr (e : option goErr) : answer := match e with Some e => failed e | None => done end.

(** Reserve, remove, and refund a failure. *)
Definition removeWithBudget (path : bytes) : M answer :=
  modW (fun w => set_fileRemovalCount (fileRemovalCount w + 1) w);;
  w ← getW;
  if (MaxFileRemovalsPerRun <? fileRemovalCount w)%Z then
    modW (fun w => set_fileRemovalCount (fileRemovalCount w - 1) w);;
    mret (failed (plainErr (lit "run-wide file removal budget exceeded")))
  else
    emit (EMutate path);;
    match answerMutate O (hist w) with
    | Some e => modW (fun w => set_fileRemovalCount (fileRemovalCount w - 1) w);; mret (failed e)
    | None => mret done
    end.

Definition pathErr (path : bytes) (msg : string) : goErr :=
  mkErr (lit "chdir " ++ path ++ lit ": " ++ lit msg) KPathError.

(** [changeDir] of [cd_support.go]; the sandbox's [Stat] and [Access] answer
    through the oracles. *)
Definition changeDir (absDir : bytes) : M answer :=
  if negb (IsAbs absDir) then mret (failed (pathErr absDir "path must be absolute"))
  else if negb (cf_sandbox cfg) then mret (failed (pathErr absDir "no allowed paths configured"))
  else
    let cleaned := Clean absDir in
    w ← getW;
    emit (EStat cleaned);;
    match answerStat O (hist w) with
    | None => mret (failed (plainErr (lit "stat failed")))
    | Some mode =>
        if negb (IsDir mode) then mret (failed (pathErr absDir "not a directory"))
        else
          w ← getW;
          emit (EAsk 0);;
          match snd (answerAsk O (hist w)) with
          | Some e => mret (failed e)
          | None =>
              r ← getR; w ← getW;
              let v := Get (baseGet X) (vars w) (writeEnv r) (lit "PWD") in
              let oldDir := if IsSet X v && negb (bytes_eqb (v_Str v) []) then v_Str v else Dir r in
              let prevOLDPWD := Get (baseGet X) (vars w) (writeEnv r) (lit "OLDPWD") in
              e ← setVarErr X (lit "OLDPWD") (stringVar oldDir);
              match e with
              | Some e => mret (failed e)
              | None =>
                  e ← setVarErr X (lit "PWD") (stringVar cleaned);
                  match e with
                  | Some e => setVarRestore X (lit "OLDPWD") prevOLDPWD;; mret (failed e)
                  | None => modR (set_Dir cleaned);; mret done
                  end
              end
          end
    end.

(** [SetVar] of the call context. *)
Definition contextSetVar (name value : bytes) : M answer :=
  if (MaxVarBytes <? Z.of_nat (length value))%Z then
    mret (failed (plainErr (name ++ lit ": value too large (limit " ++ itoa MaxVarBytes ++ lit " bytes)")))
  else
    e ← setVarErr X name (stringVar value);
    mret (answerErr e).

Definition contextGetVar (name : bytes) : M answer :=
  r ← getR; w ← getW;
  let vr := Get (baseGet X) (vars w) (writeEnv r) name in
  mret (mkAnswer (v_Str vr) 0 (IsSet X vr) None).

(** [LookupEnvVar] gives no value for an unset variable. *)
Definition lookupEnvVar (name : bytes) : M answer :=
  r ← getR; w ← getW;
  let vr := Get (baseGet X) (vars w) (writeEnv r) name in
  mret (if IsSet X vr then mkAnswer (v_Str vr) 0 true None else mkAnswer [] 0 false None).

Definition nilCapability {A} : M A := panic (lit "invalid memory address or nil pointer dereference").

Section Prog.
(** [runCmdWithStdin]: elevated, directory, name, arguments, stdin. *)
Context (spawn : bool -> bytes -> bytes -> list bytes -> option inHandle -> M (Z * option goErr)).

(** One capability, for the command of the shell or for a child of it. *)
Definition runCap (elevated child : bool) (cc : CallContext) (c : capability) : M answer :=
  match c with
  | COut p => r ← getR; '(n, e) ← write O (r_stdout r) p; mret (mkAnswer [] n true e)
  | CErr p => r ← getR; '(n, e) ← write O (r_stderr r) p; mret (mkAnswer [] n true e)
  | COpen path mode =>
      f ← (if child then sandboxOpen O (cf_box cfg) path mode false else open O (cf_box cfg) path mode false false);
      mret (match f with inl id => mkAnswer [] id true None | inr e => failed e end)
  | CRunCommand dir name args stdin =>
      let stdin := if child then match stdin with Some h => Some h | None => Some (cc_Stdin cc) end else stdin in
      '(code, e) ← spawn elevated dir name args stdin; mret (mkAnswer [] code true e)
  | CSetVar name value => if cc_shellState cc then contextSetVar name value else nilCapability
  | CGetVar name => if cc_shellState cc then contextGetVar name else nilCapability
  | CLookupEnvVar name => lookupEnvVar name
  | CChangeDir dir => if cc_shellState cc then changeDir dir else nilCapability
  | CRemove path => if cc_mutators cc then removeWithBudget path else nilCapability
  | CMutate path =>
      if cc_mutators cc then
        w ← getW; emit (EMutate path);; mret (answerErr (answerMutate O (hist w)))
      else nilCapability
  | CCtxErr => e ← poll O; mret (answerErr e)
  | CAsk n =>
      w ← getW; emit (EAsk n);;
      mret (let '(d, e) := answerAsk O (hist w) in mkAnswer d 0 true e)
  end.

Fixpoint runProg (elevated child : bool) (cc : CallContext) (p : prog) : M Result :=
  match p with
  | PRet res => mret res
  | PDo c k => a ← runCap elevated child cc c; runProg elevated child cc (k a)
  end.

(** The body of [runCmdWithStdin]. *)
Definition spawnBody (elevated : bool) (dir cmdName : bytes) (cmdArgs : list bytes) (childStdin : option inHandle)
    : M (Z * option goErr) :=
  if negb (isAllowed cmdName) then
    mret (127%Z, Some (plainErr (lit "rshell: " ++ cmdName ++ lit ": command not allowed")))
  else
    match registry cfg cmdName with
    | None => mret (127%Z, Some (plainErr (lit "rshell: " ++ cmdName ++ lit ": unknown command")))
    | Some c =>
        if elevated && negb (elevatableCommands cfg cmdName) then
          mret (126%Z, Some (plainErr (lit "rshell: sudo: " ++ cmdName ++ lit ": elevation not allowed")))
        else
          match remediationOnlyRefusal cmdName (cf_remediationMode cfg) with
          | Some msg => errf O msg;; mret (1%Z, None)
          | None =>
              r ← getR;
              emit (EDispatch cmdName cmdArgs elevated (inPipelineStage r) true);;
              let cc := mkCall false 0 (cf_remediationMode cfg)
                          (cf_remediationMode cfg && cf_sandbox cfg) false
                          (match childStdin with Some h => h | None => r_stdin r end) dir in
              res ← runProg elevated true cc (cmd_run c cc cmdArgs);
              mret (res_Code res, None)
          end
    end.
End Prog.

(** Children of children ...: the fuel bounds how deep commands spawn. *)
Fixpoint spawnFuel (fuel : nat) : bool -> bytes -> bytes -> list bytes -> option inHandle -> M (Z * option goErr) :=
  match fuel with
  | 0 => fun _ _ _ _ _ => outOfFuel
  | S fuel => spawnBody (spawnFuel fuel)
  end.

(** ** The handler of unknown commands *)

(** [noExecHandler], the only exec handler the package installs. *)
Definition execHandler (args : list bytes) : M (option goErr) :=
  match args with
  | [] => mret (Some (plainErr (lit "exec handler called with no arguments")))
  | name :: _ =>
      emit (EExec args);;
      errf O (lit "rshell: " ++ name ++ lit ": unknown command" ++ [ch_nl]);;
      when (isAllowed (lit "help")) (errf O (lit "Run 'help' to see available commands." ++ [ch_nl]));;
      mret (Some (mkErr (lit "exit status 127") (KExitStatus 127)))
  end.

(** ** The call *)

Definition takeResult (res : Result) : M unit :=
  modExit (setCode (res_Code res));;
  modExit (setExiting (res_Exiting res));;
  modR (set_breakEnclosing (res_BreakN res));;
  modR (set_contnEnclosing (res_ContinueN res));;
  e ← poll O;
  match e with Some err => modExit (fatal err) | None => mret tt end.

(** The handler of a known command, inside the elevation window if asked. *)
Definition runBuiltin (spawnDepth : bytes -> list bytes -> nat) (elevated : bool) (name : bytes) (c : command) (args : list bytes) : M unit :=
  r ← getR;
  let cc := mkCall (inLoop r) (x_code (lastExit r)) (cf_remediationMode cfg)
              (cf_remediationMode cfg && cf_sandbox cfg) true (r_stdin r) (Dir r) in
  let body := emit (EDispatch name args elevated (inPipelineStage r) false);;
              runProg (spawnFuel (spawnDepth name args)) elevated false cc (cmd_run c cc args) in
  if elevated then
    w ← getW;
    emit (EElevate name);;
    let '(ran, err) := answerElevate O (hist w) in
    res ← (if ran : bool then body else mret (mkResult 0 false 0 0));
    match err with
    | Some e => modExit (fatal (plainErr (lit "elevating " ++ name ++ lit ": " ++ errText e)))
    | None => takeResult res
    end
  else
    res ← body;
    takeResult res.

Definition deny (msg : bytes) (code : Z) : M unit := errf O msg;; modExit (setCode code).

(** The counters of refused and unknown names. *)
Definition countCall (name : bytes) : M unit :=
  when (negb (isAllowed name)) (modR (fun r => set_unallowedCount (unallowedCount r + 1) r));;
  when (match registry cfg name with None => true | Some _ => false end)
    (modR (fun r => set_unknownCount (unknownCount r + 1) r)).

(** Past the gates: [setup] expands the arguments, the assignments and the
    redirections; then the handler. *)
Definition dispatch (spawnDepth : bytes -> list bytes -> nat) (elevated : bool) (name : bytes) (setup : M (option (list bytes))) : M unit :=
  prepared ← setup;
  match prepared with
  | None => mret tt
  | Some args =>
      let args := if elevated then tail args else args in
      match registry cfg name with
      | Some c =>
          modR (fun r => set_dispatchedCount (dispatchedCount r + 1) r);;
          runBuiltin spawnDepth elevated name c (tail args)
      | None =>
          e ← execHandler args;
          modExit (fromHandlerError e)
      end
  end.

Definition gatedCall (spawnDepth : bytes -> list bytes -> nat) (elevated : bool) (name : bytes) (setup : M (option (list bytes))) : M unit :=
  if negb (isAllowed name) then
    errf O (lit "rshell: " ++ name ++ lit ": command not allowed" ++ [ch_nl]);;
    when (allowedCommands cfg (lit "help")) (errf O (lit "Run 'help' to see allowed commands." ++ [ch_nl]));;
    modExit (setCode 127)
  else if elevated && (negb (cf_elevate cfg) || negb (elevatableCommands cfg name)) then
    deny (lit "rshell: sudo: " ++ name ++ lit ": elevation not allowed" ++ [ch_nl]) 126
  else
    r ← getR;
    if elevated && inPipelineStage r then
      deny (lit "rshell: sudo: elevated commands are not allowed in pipelines" ++ [ch_nl]) 126
    else
      match remediationOnlyRefusal name (cf_remediationMode cfg) with
      | Some msg => deny msg 1
      | None => dispatch spawnDepth elevated name setup
      end.

Definition isSudo (args : list bytes) : bool := match args with a :: _ => a =s "sudo" | [] => false end.

Definition call (spawnDepth : bytes -> list bytes -> nat) (args : list bytes) (setup : M (option (list bytes))) : M unit :=
  let elevated := isSudo args in
  match (if elevated then tail args else args) with
  | [] =>
      if elevated then deny (lit "rshell: sudo: command is required" ++ [ch_nl]) 2
      else panic (lit "index out of range")
  | name :: _ =>
      modR (fun r => set_totalCount (totalCount r + 1) r);;
      s ← stop O;
      if s : bool then mret tt
      else
        countCall name;;
        gatedCall spawnDepth elevated name setup
  end.

End Call.
End InterpCall.
