(* ===== verification/InterpExec.v ===== *)
(** * Running statements

    [interp/runner_exec.go] from [stmt] down, and [Run] of [api.go].  The
    functions call each other through [stmtRec], which runs one statement; it
    is tied by recursion on fuel at the end.  Telemetry is left out.  The two
    sides of a pipe are run one after the other, the left one first. *)

From S2P Require Import Prelude Nesting InterpSyntax InterpValidate InterpVars InterpState InterpExpand InterpRedir InterpCall.
From stdpp Require Import base list gmap sets strings.
From Stdlib Require Import ZArith Lia Ascii.

Module InterpExec.
Import InterpSyntax InterpValidate InterpVars InterpState InterpExpand InterpRedir InterpCall.

Definition maxStdoutBytes : Z := 10 * 2 ^ 20.
Definition maxStderrBytes : Z := 10 * 2 ^ 20.

Section Exec.
Context {SX : Syntax} (O : oracles) (X : expander) (cfg : runnerConfig).
(** How many turns a [while] loop may take, and how deep commands may spawn. *)
Context (turns : nat) (spawnDepth : bytes -> list bytes -> nat).

Section Level.
Context (stmtRec : Node -> M unit).

Abbreviation allowed := (isAllowed cfg).
Abbreviation theApplyRedirects := (applyRedirects O X allowed (cf_remediationMode cfg) (cf_sandbox cfg) stmtRec).
Abbreviation theAdd := (add O X allowed (cf_box cfg) stmtRec).

(** ** Assignments *)

Definition assignVal (prev : Var) (as_ : Node) : M Var :=
  let str v := mkVar true (v_Local prev) (v_Exported prev) (v_ReadOnly prev) KString v (v_List prev) (v_Map prev) in
  match view as_ with
  | VAssign append name value array _ =>
      if append then internalErrorf (lit "assignVal: append should have been rejected by AST validation");; mret zeroVar
      else if array then internalErrorf (lit "assignVal: array assignment should have been rejected by AST validation");; mret zeroVar
      else
        match value with
        | Some w => v ← assignmentLiteral O X allowed (cf_box cfg) stmtRec name w; mret (str v)
        | None => mret (str [])
        end
  | _ => mret (str [])
  end.

Definition assignName (as_ : Node) : bytes :=
  match view as_ with VAssign _ name _ _ _ => name | _ => [] end.
Definition assignIndexed (as_ : Node) : bool :=
  match view as_ with VAssign _ _ _ _ index => index | _ => false end.

Definition withSet (vr : Var) : Var :=
  mkVar true (v_Local vr) (v_Exported vr) (v_ReadOnly vr) (v_Kind vr) (v_Str vr) (v_List vr) (v_Map vr).

Definition setVarWithIndex (prev : Var) (name : bytes) (index : bool) (vr : Var) : M unit :=
  if index then internalErrorf (lit "setVarWithIndex: index should have been rejected by AST validation")
  else
    r ← getR; w ← getW;
    let '(name2, _) := Resolve X (withSet prev) (Get (baseGet X) (vars w) (writeEnv r)) in
    setVar O X (if bytes_eqb name2 [] then name else name2) vr.

Fixpoint assignAll (az : list Node) : M unit :=
  match az with
  | [] => mret tt
  | a :: az =>
      prev ← lookupVar X (assignName a);
      let prev := withLocal false prev in
      vr ← assignVal prev a;
      r ← getR;
      if negb (ok (exit r)) then mret tt
      else setVarWithIndex prev (assignName a) (assignIndexed a) vr;; assignAll az
  end.

(** The assignments before a command, each visible to the next. *)
Fixpoint inlineAssignments (az : list Node) (done : list (bytes * Var)) : M (list (bytes * Var)) :=
  match az with
  | [] => mret done
  | a :: az =>
      let name := assignName a in
      prev ← lookupVar X name;
      vr ← assignVal prev a;
      r ← getR;
      if negb (ok (exit r)) then mret done
      else
        let vr := withExported true vr in
        setVar O X name vr;;
        inlineAssignments az (done ++ [(name, vr)])
  end.

Definition inTempEnv {A} (m : M A) : M A :=
  r ← getR; w ← getW;
  let previousEnv := writeEnv r in
  let '(tempEnv, h) := newOverlayEnviron (Declared X) (baseEach X) (EnvOverlay previousEnv) false (vars w) in
  modW (set_vars h);;
  modR (set_writeEnv tempEnv);;
  finally m (releaseVarStorage tempEnv;; modR (set_writeEnv previousEnv)).

(** Install the assignments, remembering what each name was bound to. *)
Fixpoint installAssignments (az : list (bytes * Var)) (seen : list bytes) : M unit :=
  match az with
  | [] => mret tt
  | (name, vr) :: az =>
      (if decide (name ∈ seen) then mret tt
       else
         r ← getR; w ← getW;
         modR (set_restores (restores r ++ [(writeEnv r, snapshotBinding (writeEnv r) name (vars w))])));;
      setVar O X name vr;;
      installAssignments az (name :: seen)
  end.

Fixpoint restoreAll (isCd : bool) (rs : list (nat * bindingSnapshot)) : M unit :=
  match rs with
  | [] => mret tt
  | (o, snap) :: rs =>
      (if isCd && ((sn_name snap =s "PWD") || (sn_name snap =s "OLDPWD")) then mret tt
       else modW (fun w => set_vars (restoreBinding o snap (vars w)) w));;
      restoreAll isCd rs
  end.

(** ** Simple commands *)

(** Expand words until there is a field: the fields' collector and the words
    left. *)
Fixpoint takeName (args : list Node) (c : fieldCollector) : M (list Node * fieldCollector) :=
  match args with
  | a :: args' =>
      match fields c with
      | [] => '(_, c) ← theAdd c [a]; takeName args' c
      | _ => mret (args, c)
      end
  | [] => mret (args, c)
  end.

(** After a lone [sudo], until there is a second field. *)
Fixpoint takeSudo (args : list Node) (c : fieldCollector) : M (list Node * fieldCollector) :=
  match args with
  | a :: args' =>
      match fields c with
      | [f] => if f =s "sudo" then '(_, c) ← theAdd c [a]; takeSudo args' c else mret (args, c)
      | _ => mret (args, c)
      end
  | [] => mret (args, c)
  end.

Definition prefixFields (fs : list bytes) : Z :=
  match fs with
  | f :: _ :: _ => if f =s "sudo" then 2 else 1
  | _ => 1
  end.

(** The closure [callExpr] passes to [call]. *)
Definition setupCall (rest : list Node) (c : fieldCollector) (assigns redirs : list Node) : M (option (list bytes)) :=
  '(more, c) ← theAdd c rest;
  if negb more then mret None
  else
    assignments ← inTempEnv (inlineAssignments assigns []);
    r ← getR;
    if negb (ok (exit r)) then mret None
    else
      theApplyRedirects redirs;;
      r ← getR;
      if negb (ok (exit r)) then mret None
      else
        installAssignments assignments [];;
        r ← getR;
        mret (if ok (exit r) then Some (fields c) else None).

(** The defer of [callExpr]. *)
Definition restoreAssignments (cmdName : bytes) : M unit :=
  r ← getR; restoreAll ((cmdName =s "cd") && ok (exit r)) (restores r).

Definition callExpr (assigns args redirs : list Node) : M unit :=
  modR (set_lastExpandExit exit0);;
  '(args, c) ← takeName args (newFieldCollector (MaxExpandedArgumentsPerCommand + 2));
  '(args, c) ← takeSudo args c;
  let fs := fields c in
  r ← getR;
  if negb (ok (exit r)) then mret tt
  else
    match fs with
    | [] =>
        theApplyRedirects redirs;;
        r ← getR;
        when (ok (exit r)) (assignAll assigns);;
        r ← getR;
        when (ok (exit r)) (modR (set_exit (lastExpandExit r)))
    | cmdName :: _ =>
        '(good, c) ← setCommandPrefixFields O (prefixFields fs) c;
        if negb good then mret tt
        else
          r ← getR;
          let outer := restores r in
          modR (set_restores []);;
          finally (call O X cfg spawnDepth fs (setupCall args c assigns redirs))
                  (restoreAssignments cmdName;; modR (set_restores outer))
    end.

(** ** Statement lists and loops *)

Abbreviation theStmts := (stmts stmtRec).

Definition leaving (r : Runner) : bool := ((0 <? breakEnclosing r) || (0 <? contnEnclosing r))%Z.

Definition inLoopScope {A} (m : M A) : M A :=
  r ← getR;
  modR (set_inLoop true);;
  finally m (modR (set_inLoop (inLoop r))).

Fixpoint loopStmts (ss : list Node) : M bool :=
  match ss with
  | [] => mret false
  | s :: ss =>
      stmtRec s;;
      r ← getR;
      if (0 <? contnEnclosing r)%Z then
        modR (set_contnEnclosing (contnEnclosing r - 1));;
        mret (0 <? contnEnclosing r - 1)%Z
      else if (0 <? breakEnclosing r)%Z then
        modR (set_breakEnclosing (breakEnclosing r - 1));;
        mret true
      else loopStmts ss
  end.

Definition loopStmtsBroken (ss : list Node) : M bool := inLoopScope (loopStmts ss).

Definition clampLevels (inLoop : bool) : M unit :=
  when (negb inLoop) (modR (set_breakEnclosing 0);; modR (set_contnEnclosing 0)).

(** The range of a [for]. *)
Fixpoint forItems (name : bytes) (body : list Node) (items : list bytes) : M unit :=
  match items with
  | [] => mret tt
  | field :: items =>
      e ← poll O;
      match e with
      | Some err => modExit (fatal err)
      | None =>
          setVarString O X name field;;
          broken ← loopStmtsBroken body;
          if broken : bool then
            r ← getR;
            if (0 <? contnEnclosing r)%Z && negb (inLoop r)
            then modR (set_contnEnclosing 0);; forItems name body items
            else mret tt
          else forItems name body items
      end
  end.

Definition execFor (loop : loopView Node) (body : list Node) : M unit :=
  match loop with
  | WordIter name inToken words =>
      r ← getR;
      items ← (if inToken then fieldsOf O X allowed (cf_box cfg) stmtRec words else mret (Params r));
      forItems name body items;;
      r ← getR;
      clampLevels (inLoop r)
  | OtherLoop => modExit (fatal (plainErr (lit "unsupported loop type: *syntax.CStyleLoop")))
  end.

(** How a [while] ended: the status of the last body, how often it ran, and
    whether the condition itself left the loop. *)
Record whileEnd := mkWhileEnd { lastBody : exitStatus; iterationCount : Z; condBroke : bool }.

Inductive step := Again | Leave (brokeInCond : bool).

(** One turn, after the poll: the condition, then the body. *)
Definition whileTurn (until oldInLoop : bool) (cond body : list Node) (st : whileEnd) : M (whileEnd * step) :=
  theStmts cond;;
  r ← getR;
  if exiting (exit r) || fatalExit (exit r) then mret (st, Leave false)
  else if (0 <? breakEnclosing r)%Z then
    modR (set_breakEnclosing (breakEnclosing r - 1));;
    mret (st, Leave true)
  else if (0 <? contnEnclosing r)%Z then
    let n := (contnEnclosing r - 1)%Z in
    modR (set_contnEnclosing (if (0 <? n)%Z && negb oldInLoop then 0 else n));;
    if (0 <? n)%Z && oldInLoop then mret (st, Leave false)
    else if Bool.eqb (ok (exit r)) until then mret (st, Leave true)
    else mret (st, Again)
  else if Bool.eqb (ok (exit r)) until then mret (st, Leave false)
  else
    modR (set_exit exit0);;
    broken ← loopStmtsBroken body;
    r ← getR;
    let st := mkWhileEnd (exit r) (iterationCount st + 1) (condBroke st) in
    if broken : bool then
      if (0 <? contnEnclosing r)%Z && negb oldInLoop
      then modR (set_contnEnclosing 0);; mret (st, Again)
      else mret (st, Leave false)
    else mret (st, Again).

Fixpoint whileLoop (n : nat) (until oldInLoop : bool) (cond body : list Node) (st : whileEnd) : M whileEnd :=
  match n with
  | 0 => outOfFuel
  | S n =>
      e ← poll O;
      match e with
      | Some err => modExit (fatal err);; mret st
      | None =>
          '(st, next) ← whileTurn until oldInLoop cond body st;
          match next with
          | Leave b => mret (mkWhileEnd (lastBody st) (iterationCount st) b)
          | Again => whileLoop n until oldInLoop cond body st
          end
      end
  end.

Definition execWhileClause (until : bool) (cond body : list Node) : M unit :=
  r ← getR;
  let oldInLoop := inLoop r in
  inLoopScope (
    st ← whileLoop turns until oldInLoop cond body (mkWhileEnd exit0 0 false);
    clampLevels oldInLoop;;
    r ← getR;
    if exiting (exit r) || fatalExit (exit r) then mret tt
    else if condBroke st then mret tt
    else modR (set_exit (if (0 <? iterationCount st)%Z then lastBody st else exit0))).

(** ** Conditionals *)

(** The chain of [elif]s; a chain is shorter than its first node is big. *)
Fixpoint execIfChain (fuel : nat) (cur : Node) : M unit :=
  match fuel, view cur with
  | S fuel, VIfClause thenPosValid cond thn els =>
      if negb thenPosValid then theStmts thn
      else
        theStmts cond;;
        r ← getR;
        if exiting (exit r) || leaving r then mret tt
        else if ok (exit r) then theStmts thn
        else
          modR (set_exit exit0);;
          match els with
          | Some e => execIfChain fuel e
          | None => mret tt
          end
  | _, _ => mret tt
  end.

(** ** Pipes *)

Definition pipelineStageInheritsInLoop (st : Node) : bool :=
  match view st with
  | VStmt (Some c) _ _ _ _ _ =>
      match view c with
      | VCallExpr _ _ => true
      | VBinaryCmd op _ _ => bool_decide (op = Pipe)
      | _ => false
      end
  | _ => false
  end.

Definition addCounts (r2 : Runner) (r : Runner) : Runner :=
  set_unknownCount (unknownCount r + unknownCount r2)
    (set_unallowedCount (unallowedCount r + unallowedCount r2)
      (set_dispatchedCount (dispatchedCount r + dispatchedCount r2)
        (set_totalCount (totalCount r + totalCount r2) r))).

(** The deferred recover of the left stage. *)
Definition stageRecovered : M unit :=
  r ← getR;
  write O (r_stderr r) (lit "rshell: internal panic" ++ [ch_nl]);;
  modExit (fatal (plainErr (lit "internal error"))).

(** What a finished subshell or pipeline passes on. *)
Definition takeExit (e : exitStatus) : M unit :=
  modR (set_exit (if limitExit e then e else setExiting false e)).

Definition stage (r : Runner) (st : Node) (r2 : Runner) : Runner :=
  set_inLoop (pipelineStageInheritsInLoop st && inLoop r) (set_inPipelineStage true r2).

Definition execPipe (x y : Node) : M unit :=
  p ← newPipe O;
  match p with
  | inr err => modExit (fatal err)
  | inl id =>
      r ← getR;
      rLeft ← subshell X true;
      let rLeft := stage r x (set_r_stdout (OutPipe id) rLeft) in
      rRight ← subshell X true;
      let rRight := stage r y (set_r_stdin (InPipe id) rRight) in
      rLeft ← recoverOn rLeft (stmtRec x;; modExit (setExiting false)) stageRecovered;
      releaseVarStorage (writeEnv rLeft);;
      emit (EClose id);;
      '(_, rRight) ← onRunner rRight (stmtRec y);
      releaseVarStorage (writeEnv rRight);;
      takeExit (exit rRight);;
      emit (EClose id);;
      modR (addCounts rLeft);;
      modR (addCounts rRight);;
      when (fatalExit (exit rLeft))
        (match x_err (exit rLeft) with Some e => modExit (fatal e) | None => mret tt end);;
      when (limitExit (exit rLeft))
        (modExit (setCode 1);; modExit (setExiting true);; modExit setLimitExit)
  end.

(** ** Commands *)

Definition typeName (v : nodeView Node) : bytes :=
  match v with
  | VCaseClause => lit "*syntax.CaseClause"
  | VFuncDecl => lit "*syntax.FuncDecl"
  | VArithmCmd => lit "*syntax.ArithmCmd"
  | VTestClause => lit "*syntax.TestClause"
  | VDeclClause _ => lit "*syntax.DeclClause"
  | VLetClause => lit "*syntax.LetClause"
  | VTimeClause => lit "*syntax.TimeClause"
  | VCoprocClause => lit "*syntax.CoprocClause"
  | VTestDecl => lit "*syntax.TestDecl"
  | VOtherCommand t => t
  | _ => []
  end.

Definition execSubshell (ss : list Node) : M unit :=
  r2 ← subshell X false;
  '(_, r2) ← onRunner r2 (theStmts ss);
  releaseVarStorage (writeEnv r2);;
  takeExit (exit r2);;
  modR (addCounts r2).

Definition execAndOr (op : binOp) (x y : Node) : M unit :=
  stmtRec x;;
  r ← getR;
  if leaving r || exiting (exit r) then mret tt
  else if Bool.eqb (ok (exit r)) (bool_decide (op = AndStmt)) then stmtRec y
  else mret tt.

Definition cmd (cm : Node) : M unit :=
  s ← stop O;
  if s : bool then mret tt
  else
    match view cm with
    | VSubshell ss => execSubshell ss
    | VBlock ss => theStmts ss
    | VCallExpr assigns args => callExpr assigns args []
    | VBinaryCmd op x y =>
        match op with
        | AndStmt | OrStmt => execAndOr op x y
        | Pipe => execPipe x y
        | PipeAll => mret tt
        end
    | VIfClause _ _ _ _ => execIfChain (size cm) cm
    | VForClause _ loop body => execFor loop body
    | VWhileClause until cond body => execWhileClause until cond body
    | v => modExit (fatal (plainErr (lit "unsupported command node: " ++ typeName v)))
    end.

(** ** Statements *)

Fixpoint closeAll (ids : list Z) : M unit :=
  match ids with
  | [] => mret tt
  | id :: ids => closeAll ids;; emit (EClose id)
  end.

Definition negateExit : M unit := modR (fun r => set_exit (oneIf (ok (exit r)) exit0) r).

Definition stmtBody (c : option Node) (redirs : list Node) : M unit :=
  match c with
  | Some cm =>
      match view cm with
      | VCallExpr assigns args => callExpr assigns args redirs
      | _ =>
          theApplyRedirects redirs;;
          r ← getR;
          when (ok (exit r)) (cmd cm)
      end
  | None => theApplyRedirects redirs
  end.

Definition stmtSync (st : Node) : M unit :=
  match view st with
  | VStmt c redirs negated _ _ _ =>
      r0 ← getR;
      modR (set_closers []);;
      finally
        (stmtBody c redirs;;
         r ← getR;
         when (negated && negb (exiting (exit r))) negateExit)
        (r ← getR;
         modR (fun r => set_r_stdin (r_stdin r0) (set_r_stdout (r_stdout r0) (set_r_stderr (r_stderr r0) r)));;
         closeAll (closers r);;
         modR (set_closers (closers r0)))
  | _ => mret tt
  end.

Definition stmt (st : Node) : M unit :=
  s ← stop O;
  if s : bool then mret tt
  else
    modR (set_exit exit0);;
    stmtSync st;;
    modR (fun r => set_lastExit (exit r) r).

End Level.

(** A statement only runs the statements below it. *)
Fixpoint stmtFuel (fuel : nat) (st : Node) : M unit :=
  match fuel with
  | 0 => outOfFuel
  | S fuel => stmt (stmtFuel fuel) st
  end.

(** ** Run *)

Definition MaxScriptBytes : Z := 5 * 2 ^ 20.

(** [ParseScript], over the third-party parser. *)
Definition ParseScript (parse : bytes -> goErr + Node) (script : bytes) : goErr + Node :=
  if (MaxScriptBytes <? Z.of_nat (length script))%Z then
    inl (plainErr (lit "script size " ++ itoa (Z.of_nat (length script)) ++ lit " bytes exceeds maximum of "
      ++ itoa MaxScriptBytes ++ lit " bytes (5 MiB); split the script into smaller pieces"))
  else
    match Nesting.checkScriptNestingDepth script with
    | Some (Nesting.Ret _) => parse script
    | _ => inl (plainErr (lit "script nesting exceeds maximum depth of " ++ itoa Nesting.MaxNestingDepth
        ++ lit "; simplify deeply nested constructs"))
    end.

Inductive runError :=
| ROk | RError (e : goErr) | RExitStatus (code : Z)
| ErrOutputLimitExceeded | ErrStderrLimitExceeded | BothLimitsExceeded
| RInternalError | RBadNode.

Definition validationText (e : vErr) : bytes :=
  match e with
  | Unsupported msg => msg
  | errTildeNotSupported => lit "tilde expansion is not supported"
  | CtxDone => lit "context canceled"
  | NestingTooDeep =>
      lit "script nesting exceeds maximum depth of " ++ itoa Nesting.MaxNestingDepth
      ++ lit "; simplify deeply nested constructs"
  end.

Definition pollFails (n : nat) : bool := match ctxErr O n with Some _ => true | None => false end.

(** [validateNode] and the number of the next poll. *)
Definition validated (node : Node) : M (option vErr) :=
  w ← getW;
  let e := validateNode pollFails node (cf_remediationMode cfg) (polls w) in
  let n := match e with
           | Some NestingTooDeep => polls w
           | _ => w_polls (Walk walkState (visit pollFails (cf_remediationMode cfg)) node (mkWalk None [] [] (polls w)))
           end in
  modW (set_polls n);;
  mret e.

Definition isExceeded (h : outHandle) : M bool :=
  w ← getW;
  mret (match h with
        | OutLimit id => match writers w !! Z.to_nat id with Some lw => lw_exceeded lw | None => false end
        | _ => false
        end).

Definition isCommand (v : nodeView Node) : bool :=
  match v with
  | VCallExpr _ _ | VBinaryCmd _ _ _ | VIfClause _ _ _ _ | VWhileClause _ _ _ | VForClause _ _ _
  | VBlock _ | VSubshell _ | VCaseClause | VFuncDecl | VArithmCmd | VTestClause | VDeclClause _
  | VLetClause | VTimeClause | VCoprocClause | VTestDecl | VOtherCommand _ => true
  | _ => false
  end.

(** The dispatch on the kind of node; false for a node [Run] refuses. *)
Definition runNode (node : Node) : M bool :=
  let rec := stmtFuel (size node) in
  match view node with
  | VFile ss => stmts rec ss;; mret true
  | VStmt _ _ _ _ _ _ => stmtFuel (S (size node)) node;; mret true
  | v => if isCommand v then cmd rec node;; mret true else mret false
  end.

Definition runResult (stdoutCap stderrCap : outHandle) : M runError :=
  r ← getR;
  match x_err (exit r) with
  | Some e => mret (RError e)
  | None =>
      stdoutEx ← isExceeded stdoutCap;
      stderrEx ← isExceeded stderrCap;
      mret (if stdoutEx && stderrEx then BothLimitsExceeded
            else if stdoutEx : bool then ErrOutputLimitExceeded
            else if stderrEx : bool then ErrStderrLimitExceeded
            else if (x_code (exit r) =? 0)%Z then ROk else RExitStatus (x_code (exit r)))
  end.

(** [Run] after the streams have been wrapped. *)
Definition runWrapped (node : Node) (stdoutCap stderrCap : outHandle) : M runError :=
  modW (set_globReadDirCount 0);;
  modW (set_fileRemovalCount 0);;
  modW (set_expansionByteCount 0);;
  e ← validated node;
  match e with
  | Some verr =>
      c ← poll O;
      match c, verr with
      | Some err, CtxDone => mret (RError err)
      | _, _ => errf O (validationText verr ++ [ch_nl]);; mret (RExitStatus 2)
      end
  | None =>
      modR (set_exit exit0);;
      known ← runNode node;
      if negb known then mret RBadNode else runResult stdoutCap stderrCap
  end.

(** [Run] on a runner that has been reset. *)
Definition Run (node : Node) : M runError :=
  catch (fun _ => true)
    (r ← getR;
     stdoutCap ← newLimitWriter (SHost false) maxStdoutBytes;
     stderrCap ← newLimitWriter (SHost true) maxStderrBytes;
     modR (set_r_stdout stdoutCap);;
     modR (set_r_stderr stderrCap);;
     finally (runWrapped node stdoutCap stderrCap)
             (modR (set_r_stdout (r_stdout r));; modR (set_r_stderr (r_stderr r))))
    (r ← getR;
     write O (r_stderr r) (lit "rshell: internal panic" ++ [ch_nl]);;
     mret RInternalError).

End Exec.
End InterpExec.
