(* ===== verification/InterpLogic.v ===== *)
(** * A program logic for the interpreter

    A computation may leave its fuel, panic or end; what it does to the world
    is described by a preorder [W] that each theorem chooses, and what it does
    to the runner by a fixed frame.  [quietOn] is the judgement on the code
    that never touches the loop state: streams, expansion, redirections and the
    capabilities of a builtin.  The lemmas of the file are the rules of the
    judgement and one lemma per operation, collected in the database [quiet]. *)

From S2P Require Import Prelude GoStd Filepath InterpSyntax InterpVars InterpState InterpExpand InterpRedir InterpCall.
From stdpp Require Import base list gmap sets strings.
From Stdlib Require Import ZArith Lia Ascii.

Module InterpLogic.
Import InterpSyntax InterpVars InterpState InterpExpand InterpRedir InterpCall.

Create HintDb quiet discriminated.

(** A stream that is not one of the embedding program's own. *)
Definition cleanHandle (h : outHandle) : Prop := match h with OutHost _ => False | _ => True end.

(** ** What the configuration lets happen *)

Section Policy.
Context (cfg : runnerConfig).

(** A command that may be run, with the marker [sudo] if [elevated]. *)
Record mayRun (name : bytes) (elevated inStage : bool) : Prop := {
  run_allowed : isAllowed cfg name = true;
  run_known : exists c, registry cfg name = Some c /\
                (cmd_RemediationOnly c = true -> cf_remediationMode cfg = true);
  run_elevated : elevated = true ->
    cf_elevate cfg = true /\ elevatableCommands cfg name = true /\ inStage = false }.

(** The events the configuration allows. *)
Definition policy (e : event) : Prop :=
  match e with
  | EDispatch name _ elevated inStage _ => mayRun name elevated inStage
  | EElevate name => mayRun name true false
  | EOpen _ mode _ => cf_sandbox cfg = true /\ (writes mode = true -> cf_remediationMode cfg = true)
  | EMutate _ => cf_remediationMode cfg = true /\ cf_sandbox cfg = true
  | _ => True
  end.

Definition okEvent (e : event) : Prop :=
  policy e /\ match e with EWrite h _ => cleanHandle h | _ => True end.
End Policy.

Section Logic.
Context {SX : Syntax} {O : oracles} {cfg : runnerConfig}.
Context {W : world -> world -> Prop}.

Definition clean (r : Runner) : Prop := cleanHandle (r_stdout r) /\ cleanHandle (r_stderr r).

Record frame (r r' : Runner) : Prop := {
  fr_inLoop : inLoop r' = inLoop r;
  fr_stage : inPipelineStage r' = inPipelineStage r;
  fr_break : breakEnclosing r' = breakEnclosing r;
  fr_contn : contnEnclosing r' = contnEnclosing r;
  fr_clean : clean r' }.

Lemma frame_refl r : clean r -> frame r r.
Proof. by constructor. Qed.

Lemma frame_trans r1 r2 r3 : frame r1 r2 -> frame r2 r3 -> frame r1 r3.
Proof. intros [] []. constructor; congruence || done. Qed.

(** ** The preorder on worlds *)

(** The steps every [W] must allow: anything the history, the writers and the
    polls do not show, an event within the policy, a write to a bounded writer
    and a new buffer. *)
Class WorldOrder : Prop := {
  W_preorder :: PreOrder W;
  W_silent : forall w w', hist w' = hist w -> writers w' = writers w -> nextWriter w' = nextWriter w ->
    polls w <= polls w' -> W w w';
  W_emit : forall e w, okEvent cfg e -> W w (set_hist (hist w ++ [e]) w);
  W_limit : forall id p r w, match limitWrite O id p r w with
    | Done _ r' w' | Panicked _ r' w' => W w w' /\ r' = r
    | NoFuel => False end;
  W_buffer : forall r w, match newLimitWriter (SBuf []) maxCmdSubstOutput r w with
    | Done h r' w' => W w w' /\ r' = r /\ cleanHandle h
    | _ => False end }.
Context `{HW : WorldOrder}.

(** ** The judgements *)

Definition quietOn (P : bool -> Prop) {A} (m : M A) : Prop := forall r w,
  clean r -> P (inPipelineStage r) ->
  match m r w with
  | Done _ r' w' | Panicked _ r' w' => W w w' /\ frame r r'
  | NoFuel => True
  end.

Definition anyStage (b : bool) : Prop := True.
Abbreviation quiet := (quietOn anyStage).

(** Only the world matters: for a computation on another runner. *)
Definition keepsWorld {A} (m : M A) : Prop := forall r w, clean r ->
  match m r w with
  | Done _ r' w' | Panicked _ r' w' => W w w' /\ clean r'
  | NoFuel => True
  end.

Lemma quiet_world {A} (m : M A) : quiet m -> keepsWorld m.
Proof.
  intros H r w Hc. specialize (H r w Hc I). destruct (m r w) as [?? w'|?? w'|]; [| |done];
    destruct H as [? [? ? ? ? ?]]; done.
Qed.

(** ** Rules *)

Lemma q_weaken (P Q : bool -> Prop) {A} (m : M A) : (forall b, Q b -> P b) -> quietOn P m -> quietOn Q m.
Proof. intros HPQ H r w Hc HQ. apply (H r w Hc (HPQ _ HQ)). Qed.

Lemma q_ret P {A} (a : A) : quietOn P (mret a).
Proof. intros r w Hc _. split; [reflexivity|by apply frame_refl]. Qed.

Lemma q_panic P {A} msg : quietOn P (A:=A) (panic msg).
Proof. intros r w Hc _. split; [reflexivity|by apply frame_refl]. Qed.

Lemma q_outOfFuel P {A} : quietOn P (A:=A) outOfFuel.
Proof. intros r w Hc _. exact I. Qed.

Lemma q_bind P {A B} (m : M A) (f : A -> M B) :
  quietOn P m -> (forall a, quietOn P (f a)) -> quietOn P (m ≫= f).
Proof.
  intros Hm Hf r w Hc HP. unfold mbind, M_bind. specialize (Hm r w Hc HP).
  destruct (m r w) as [a r1 w1|msg r1 w1|]; [|done|done]. destruct Hm as [HW1 F1].
  specialize (Hf a r1 w1 (fr_clean _ _ F1)). rewrite (fr_stage _ _ F1) in Hf. specialize (Hf HP).
  destruct (f a r1 w1) as [? r2 w2|? r2 w2|]; [| |done]; destruct Hf as [HW2 F2];
    (split; [by etransitivity|by eapply frame_trans]).
Qed.

(** Reading the runner: the rest runs in its stage, with its streams. *)
Lemma q_getR P {B} (f : Runner -> M B) :
  (forall r, clean r -> P (inPipelineStage r) -> quietOn (fun b => P b /\ b = inPipelineStage r) (f r)) ->
  quietOn P (getR ≫= f).
Proof. intros Hf r w Hc HP. by apply (Hf r Hc HP r w Hc). Qed.

Lemma q_getW P : quietOn P getW.
Proof. intros r w Hc _. split; [reflexivity|by apply frame_refl]. Qed.

Lemma q_modR P f : (forall r, clean r -> frame r (f r)) -> quietOn P (modR f).
Proof. intros Hf r w Hc _. split; [reflexivity|by apply Hf]. Qed.

Lemma q_modW P f : (forall w, W w (f w)) -> quietOn P (modW f).
Proof. intros Hf r w Hc _. split; [apply Hf|by apply frame_refl]. Qed.

Lemma q_modExit P f : quietOn P (modExit f).
Proof. apply q_modR. intros r Hc. by constructor. Qed.

Lemma q_emit P e : okEvent cfg e -> quietOn P (emit e).
Proof. intros He. apply q_modW. intros w. by apply W_emit. Qed.

Lemma q_poll P : quietOn P (poll O).
Proof.
  intros r w Hc _. split; [apply W_silent; try done; cbn; lia|by apply frame_refl].
Qed.

Lemma q_when P b m : quietOn P m -> quietOn P (when b m).
Proof. intros Hm. destruct b; [done|apply q_ret]. Qed.

Lemma q_finally P {A} (m : M A) f : quietOn P m -> quietOn P f -> quietOn P (finally m f).
Proof.
  intros Hm Hf r w Hc HP. unfold finally. specialize (Hm r w Hc HP).
  destruct (m r w) as [a r1 w1|msg r1 w1|]; [| |done]; destruct Hm as [HW1 F1];
    specialize (Hf r1 w1 (fr_clean _ _ F1)); rewrite (fr_stage _ _ F1) in Hf; specialize (Hf HP);
    (destruct (f r1 w1) as [? r2 w2|? r2 w2|]; [| |done]); destruct Hf as [HW2 F2];
    (split; [by etransitivity|by eapply frame_trans]).
Qed.

Lemma q_catch P {A} p (m h : M A) : quietOn P m -> quietOn P h -> quietOn P (catch p m h).
Proof.
  intros Hm Hh r w Hc HP. unfold catch. specialize (Hm r w Hc HP).
  destruct (m r w) as [a r1 w1|msg r1 w1|]; [done| |done].
  destruct (p msg); [|done]. destruct Hm as [HW1 F1].
  specialize (Hh r1 w1 (fr_clean _ _ F1)). rewrite (fr_stage _ _ F1) in Hh. specialize (Hh HP).
  destruct (h r1 w1) as [? r2 w2|? r2 w2|]; [| |done]; destruct Hh as [HW2 F2];
    (split; [by etransitivity|by eapply frame_trans]).
Qed.

Lemma q_onRunner P {A} r2 (m : M A) : clean r2 -> keepsWorld m -> quietOn P (onRunner r2 m).
Proof.
  intros H2 Hm r w Hc _. unfold onRunner. specialize (Hm r2 w H2).
  destruct (m r2 w) as [a r1 w1|msg r1 w1|]; [| |done]; destruct Hm; (split; [done|by apply frame_refl]).
Qed.

Lemma q_recoverOn P r2 m h : clean r2 -> keepsWorld m -> keepsWorld h -> quietOn P (recoverOn r2 m h).
Proof.
  intros H2 Hm Hh r w Hc _. unfold recoverOn. specialize (Hm r2 w H2).
  destruct (m r2 w) as [a r1 w1|msg r1 w1|]; [| |done]; destruct Hm as [HW1 C1].
  - split; [done|by apply frame_refl].
  - specialize (Hh r1 w1 C1).
    destruct (h r1 w1) as [? r3 w3|? r3 w3|]; [| |done]; destruct Hh as [HW3 C3];
      (split; [by etransitivity|by apply frame_refl]).
Qed.

End Logic.

Arguments quietOn {SX} W P {A} m.
Arguments keepsWorld {SX} W {A} m.
Arguments WorldOrder {SX} O cfg W.
Arguments W_limit {SX} O cfg W {_} id p r w.
Arguments W_buffer {SX} O cfg W {_} r w.

#[export] Hint Resolve q_ret q_panic q_outOfFuel q_getW q_modExit q_poll : quiet.

(** The steps of a proof of [quietOn]: the rules, then a case analysis of what
    the code analyses, then the lemmas on the operations. *)
Ltac frame_tac := let Hc := fresh "Hc" in intros ? Hc; constructor; try reflexivity; apply Hc || (split; first [exact I|apply Hc]).
Ltac silent_tac := intros ?; apply W_silent; try reflexivity; cbn; lia.

Ltac quiet_step :=
  lazymatch goal with
  | |- forall _, _ => intros ?
  | |- quietOn _ _ (getR ≫= _) => apply q_getR; intros ? ? ?
  | |- quietOn _ _ (_ ≫= _) => apply q_bind; [|intros ?]
  | |- quietOn _ _ (finally _ _) => apply q_finally
  | |- quietOn _ _ (catch _ _ _) => apply q_catch
  | |- quietOn _ _ (when _ _) => apply q_when
  | |- quietOn _ _ (modR _) => apply q_modR; frame_tac
  | |- quietOn _ _ (modW _) => apply q_modW; silent_tac
  | |- quietOn _ _ (emit _) => apply q_emit; split; [exact I|exact I]
  | |- quietOn _ _ (if ?b then _ else _) => destruct b
  | |- quietOn _ _ (match ?x with _ => _ end) => destruct x
  | |- quietOn _ _ (let (_, _) := ?x in _) => destruct x
  end.

Ltac quiet := repeat first [solve [eauto 3 with quiet nocore] | quiet_step].

End InterpLogic.
