(* ===== verification/InterpQuiet.v ===== *)
(** * The operations that do not touch the loop state

    One lemma of the judgement [quietOn] per operation of [InterpState],
    [InterpExpand], [InterpRedir] and [InterpCall]. *)

From S2P Require Import Prelude GoStd Filepath InterpSyntax InterpVars InterpState InterpExpand InterpRedir InterpCall InterpLogic.
From stdpp Require Import base list gmap sets strings.
From Stdlib Require Import ZArith Lia Ascii.

Module InterpQuiet.
Import InterpSyntax InterpVars InterpState InterpExpand InterpRedir InterpCall InterpLogic.

Section Quiet.
Context {SX : Syntax} {O : oracles} {X : expander} {cfg : runnerConfig}.
Context {W : world -> world -> Prop} {HW : WorldOrder O cfg W}.
Context (P : bool -> Prop).

(** ** Streams *)

Lemma q_hostWrite h p Q : cleanHandle h -> quietOn W Q (hostWrite O h p).
Proof. intros Hh. unfold hostWrite. quiet. apply q_emit. by split. Qed.

Lemma q_write h p Q : cleanHandle h -> quietOn W Q (write O h p).
Proof.
  intros Hh. destruct h; try (by apply q_hostWrite); [apply q_ret|].
  intros r w Hc _. cbn [write]. pose proof (W_limit O cfg W id p r w) as HL.
  destruct (limitWrite O id p r w); [| |done]; destruct HL as [? ->]; (split; [done|by apply frame_refl]).
Qed.

Lemma q_errf msg Q : quietOn W Q (errf O msg).
Proof. apply q_getR. intros r [_ Hr] _. apply q_bind; [by apply q_write|]. intros _. apply q_ret. Qed.
#[local] Hint Resolve q_errf : quiet.

Lemma q_stop Q : quietOn W Q (stop O).
Proof. unfold stop. quiet. Qed.
#[local] Hint Resolve q_stop : quiet.

Lemma q_newBuffer Q : quietOn W Q (newLimitWriter (SBuf []) maxCmdSubstOutput).
Proof.
  intros r w Hc _. pose proof (W_buffer O cfg W r w) as HB.
  destruct (newLimitWriter (SBuf []) maxCmdSubstOutput r w); [|done|done].
  destruct HB as [? [-> _]]. split; [done|by apply frame_refl].
Qed.

Lemma q_captured h Q : quietOn W Q (captured h).
Proof. unfold captured. quiet. Qed.

(** What the sandbox's mode lets through is within the policy. *)
Lemma q_sandboxOpen path mode redirect Q : quietOn W Q (sandboxOpen O (cf_box cfg) path mode redirect).
Proof.
  unfold sandboxOpen, sandboxOf. destruct (cf_sandbox cfg) eqn:Es; cbn [negb refusesOpen]; [|apply q_ret].
  assert (H : (writes mode = true -> cf_remediationMode cfg = true) -> quietOn W Q (emit (EOpen path mode redirect))).
  { intros Hm. by apply q_emit. }
  destruct (cf_remediationMode cfg), mode; cbn [refusesOpen writes]; try solve [quiet];
    (apply q_bind; [quiet|intros w]; apply q_bind; [by apply H|quiet]).
Qed.

Lemma q_open path mode redirect print Q : quietOn W Q (open O (cf_box cfg) path mode redirect print).
Proof. unfold open. apply q_bind; [apply q_sandboxOpen|quiet]. Qed.

End Quiet.

#[export] Hint Resolve q_errf q_stop q_newBuffer q_captured q_sandboxOpen q_open : quiet.

(** ** Expansion *)

Section Expand.
Context {SX : Syntax} {O : oracles} {X : expander} {cfg : runnerConfig}.
Context {W : world -> world -> Prop} {HW : WorldOrder O cfg W}.
Context {allowed : bytes -> bool} {stmtRec : Node -> M unit}.
Context (Hrec : forall n, keepsWorld W (stmtRec n)).
Context (P : bool -> Prop).

Lemma q_lookupVar name Q : quietOn W Q (lookupVar X name).
Proof. unfold lookupVar, internalErrorf. quiet. Qed.
#[local] Hint Resolve q_lookupVar : quiet.

Lemma q_setVarErr name vr Q : quietOn W Q (setVarErr X name vr).
Proof. unfold setVarErr. quiet. Qed.
#[local] Hint Resolve q_setVarErr : quiet.

Lemma q_setVar name vr Q : quietOn W Q (setVar O X name vr).
Proof. unfold setVar. quiet. Qed.

Lemma q_setVarRestore name vr Q : quietOn W Q (setVarRestore X name vr).
Proof. unfold setVarRestore. quiet. Qed.

Lemma q_expandErr e Q : quietOn W Q (expandErr O e).
Proof.
  destruct e as [e|]; [|apply q_ret]. apply q_getR. intros r [_ Hr] _.
  apply q_bind; [by eapply q_write|]. intros _. quiet.
Qed.

Lemma q_charge n Q : quietOn W Q (chargeExpansionBytes O n).
Proof. unfold chargeExpansionBytes. quiet. Qed.
#[local] Hint Resolve q_setVar q_setVarRestore q_expandErr q_charge : quiet.

Lemma q_elemSizes rec es size Q : (forall ns, quietOn W Q (rec ns)) -> quietOn W Q (elemSizes rec es size).
Proof. intros Hr. revert size. induction es; intros size; cbn; quiet. Qed.

Lemma q_partSizes rec ps total Q : (forall ns, quietOn W Q (rec ns)) -> quietOn W Q (partSizes X rec ps total).
Proof.
  intros Hr. revert total. induction ps as [|p ps IH]; intros total; cbn; [quiet|].
  apply q_bind; [|intros ?; quiet]. unfold partSize. pose proof (q_elemSizes rec).
  destruct (pview p); quiet.
Qed.

Lemma q_sizeFuel fuel ps Q : quietOn W Q (sizeFuel X fuel ps).
Proof. revert ps. induction fuel as [|fuel IH]; intros ps; cbn; [quiet|by apply q_partSizes]. Qed.

Lemma q_checkSize ps limit msg Q : quietOn W Q (checkWordExpansionSize X ps limit msg).
Proof. unfold checkWordExpansionSize, wordPartsExpansionSize. pose proof q_sizeFuel. quiet. Qed.
#[local] Hint Resolve q_checkSize : quiet.

Lemma q_fieldSplitIFS Q : quietOn W Q (fieldSplitIFS X).
Proof. unfold fieldSplitIFS. quiet. Qed.
#[local] Hint Resolve q_fieldSplitIFS : quiet.

Lemma q_elemSources rec es opn largest allOpen ss Q :
  (forall ns b ss, quietOn W Q (rec ns b ss)) -> quietOn W Q (elemSources rec es opn largest allOpen ss).
Proof. intros Hr. revert largest allOpen ss. induction es; intros; cbn; quiet. Qed.

Lemma q_sourcesLoop rec ifs braced ps n opn after ss Q :
  (forall ns b ss, quietOn W Q (rec ns b ss)) -> quietOn W Q (sourcesLoop X rec ifs braced ps n opn after ss).
Proof.
  intros Hr. revert n opn after ss. induction ps as [|p ps IH]; intros n opn after ss; cbn; [quiet|].
  assert (quietOn W Q (partSources X rec ifs p opn ss)).
  { unfold partSources. pose proof (q_elemSources rec). quiet. }
  destruct (view p); quiet.
Qed.

Lemma q_sourcesFuel ifs fuel braced ps opn ss Q : quietOn W Q (sourcesFuel X ifs fuel braced ps opn ss).
Proof. revert braced ps opn ss. induction fuel as [|fuel IH]; intros; cbn; [quiet|by apply q_sourcesLoop]. Qed.

Lemma q_wordFieldSources ps ifs Q : quietOn W Q (wordFieldSources X ps ifs).
Proof. unfold wordFieldSources. pose proof q_sourcesFuel. quiet. Qed.
#[local] Hint Resolve q_wordFieldSources : quiet.

Lemma q_chargeSplit cs out Q : quietOn W Q (chargeSplitSubstOutput X cs out).
Proof. unfold chargeSplitSubstOutput. quiet. Qed.
#[local] Hint Resolve q_chargeSplit : quiet.

Lemma q_releaseVarStorage o Q : quietOn W Q (releaseVarStorage o).
Proof. unfold releaseVarStorage. quiet. Qed.
#[local] Hint Resolve q_releaseVarStorage : quiet.

Lemma w_stmts ss : keepsWorld W (stmts stmtRec ss).
Proof.
  induction ss as [|s ss IH]; intros r w Hc; cbn; [by split|].
  unfold mbind, M_bind. pose proof (Hrec s r w Hc) as H1.
  destruct (stmtRec s r w) as [? r1 w1|? r1 w1|]; [|done|done]. destruct H1 as [HW1 C1]. cbn.
  destruct (_ || _); [done|]. specialize (IH r1 w1 C1).
  destruct (stmts stmtRec ss r1 w1); [| |done]; (split; [|apply IH]); by etransitivity; [exact HW1|apply IH].
Qed.

Lemma q_subshell background Q : quietOn W Q (subshell X background).
Proof. unfold subshell. quiet. Qed.

(** A subshell writes where its parent does. *)
Lemma subshell_clean background r w : clean r ->
  match subshell X background r w with
  | Done r2 r' w' => clean r2 /\ r' = r /\ inPipelineStage r2 = inPipelineStage r /\ inLoop r2 = false
                     /\ breakEnclosing r2 = 0%Z /\ contnEnclosing r2 = 0%Z
  | _ => False
  end.
Proof.
  intros Hc. unfold subshell, mbind, M_bind, getR, getW, modW, mret, M_ret.
  by destruct (newOverlayEnviron _ (baseEach X) (EnvOverlay (writeEnv r)) background (vars w)).
Qed.

Lemma q_subshell_bind {B} background (f : Runner -> M B) Q :
  (forall r2, clean r2 -> inLoop r2 = false -> breakEnclosing r2 = 0%Z -> contnEnclosing r2 = 0%Z ->
     quietOn W Q (f r2)) ->
  quietOn W Q (subshell X background ≫= f).
Proof.
  intros Hf r w Hc HQ. pose proof (q_subshell background Q r w Hc HQ) as Hs.
  pose proof (subshell_clean background r w Hc) as Hr. unfold mbind, M_bind.
  destruct (subshell X background r w) as [r2 r1 w1|? ? ?|]; [|done|done].
  destruct Hr as [C2 [-> [_ [? [? ?]]]]]. destruct Hs as [HW1 _].
  specialize (Hf r2 C2 ltac:(done) ltac:(done) ltac:(done) r w1 Hc HQ).
  destruct (f r2 r w1); [| |done]; (split; [|apply Hf]); by etransitivity; [exact HW1|apply Hf].
Qed.

Lemma q_buffer_bind {B} (f : outHandle -> M B) Q :
  (forall h, cleanHandle h -> quietOn W Q (f h)) ->
  quietOn W Q (newLimitWriter (SBuf []) maxCmdSubstOutput ≫= f).
Proof.
  intros Hf r w Hc HQ. pose proof (W_buffer O cfg W r w) as HB. unfold mbind, M_bind.
  destruct (newLimitWriter (SBuf []) maxCmdSubstOutput r w) as [h r1 w1|? ? ?|]; [|done|done].
  destruct HB as [HW1 [-> Hh]]. specialize (Hf h Hh r w1 Hc HQ).
  destruct (f h r w1); [| |done]; (split; [|apply Hf]); by etransitivity; [exact HW1|apply Hf].
Qed.

Lemma q_setSubstExit e Q : quietOn W Q (setSubstExit e).
Proof. unfold setSubstExit. quiet. Qed.
#[local] Hint Resolve q_setSubstExit : quiet.

Section Word.
Context (redirectWord : Node -> M (goErr + bytes)).
Context (Hword : forall n Q, quietOn W Q (redirectWord n)).

Lemma q_catShortcut cs word Q : quietOn W Q (catShortcut O X allowed (cf_box cfg) redirectWord cs word).
Proof. unfold catShortcut. quiet. Qed.
#[local] Hint Resolve q_catShortcut : quiet.

Lemma q_cmdSubst cs Q : quietOn W Q (cmdSubst O X allowed (cf_box cfg) stmtRec redirectWord cs).
Proof.
  unfold cmdSubst. destruct (view cs) as [| | | | | | | | | | | | | | | | | | | | | | | |ss| | | | | | |]; try apply q_ret.
  destruct ss as [|s ss]; [apply q_ret|].
  destruct (match ss with [] => catShortcutArg s | _ => None end); [quiet|].
  apply q_getR; intros r Hr _. apply q_subshell_bind; intros r2 C2 _ _ _. apply q_buffer_bind; intros h Hh.
  apply q_bind; [|intros [_ r3]; quiet].
  apply q_onRunner; [split; [done|apply C2]|apply w_stmts].
Qed.
#[local] Hint Resolve q_cmdSubst : quiet.

Lemma q_readDir2 path Q : quietOn W Q (readDir2 O path).
Proof. unfold readDir2. quiet. Qed.
#[local] Hint Resolve q_readDir2 : quiet.

Lemma q_runExp onYield p Q : (forall f e Q, quietOn W Q (onYield f e)) ->
  quietOn W Q (runExp O X allowed (cf_box cfg) stmtRec redirectWord onYield p).
Proof. intros Hy. revert Q. induction p; intros Q; cbn; quiet. Qed.

Lemma q_collect f e Q : quietOn W Q (collect O f e).
Proof. unfold collect, refuse, modC, theC. quiet. Qed.
#[local] Hint Resolve q_collect q_runExp : quiet.

Lemma q_addWords ifs ws Q : quietOn W Q (addWords O X allowed (cf_box cfg) stmtRec redirectWord ifs ws).
Proof.
  induction ws as [|w ws IH]; cbn; [quiet|]. apply q_bind; [|intros []; quiet].
  unfold addWord, theC, modC, refuse. quiet.
Qed.
#[local] Hint Resolve q_addWords : quiet.

Lemma q_addTo c ws Q : quietOn W Q (addTo O X allowed (cf_box cfg) stmtRec redirectWord c ws).
Proof. unfold addTo, theC, refuse. quiet. Qed.
End Word.

Lemma q_redirectWord word Q : quietOn W Q (redirectWord O X allowed (cf_box cfg) stmtRec word).
Proof.
  unfold redirectWord. generalize (S (size word)) as fuel. intros fuel. revert word Q.
  induction fuel as [|fuel IH]; intros word Q; cbn; [quiet|].
  unfold redirectWordWith. pose proof (q_addTo _ IH). quiet.
Qed.
#[local] Hint Resolve q_redirectWord : quiet.

Lemma q_add c ws Q : quietOn W Q (add O X allowed (cf_box cfg) stmtRec c ws).
Proof. by apply q_addTo; intros; apply q_redirectWord. Qed.
#[local] Hint Resolve q_add : quiet.

Lemma q_fieldsOf ws Q : quietOn W Q (fieldsOf O X allowed (cf_box cfg) stmtRec ws).
Proof. unfold fieldsOf. quiet. Qed.

Lemma q_setCommandPrefixFields n c Q : quietOn W Q (setCommandPrefixFields O n c).
Proof. unfold setCommandPrefixFields. quiet. Qed.

Lemma q_runString p Q : quietOn W Q (runString O X allowed (cf_box cfg) stmtRec p).
Proof.
  unfold runString. apply q_bind; [|intros []; quiet].
  apply q_runExp; [by intros; apply q_redirectWord|]. intros; apply q_ret.
Qed.
#[local] Hint Resolve q_runString : quiet.

Lemma q_assignmentLiteral name word Q : quietOn W Q (assignmentLiteral O X allowed (cf_box cfg) stmtRec name word).
Proof. unfold assignmentLiteral, literalBounded. quiet. Qed.

Lemma q_document ps Q : quietOn W Q (document O X allowed (cf_box cfg) stmtRec ps).
Proof. unfold document. quiet. Qed.

End Expand.

#[export] Hint Resolve q_lookupVar q_setVarErr q_setVar q_setVarRestore q_expandErr q_charge q_releaseVarStorage
  q_redirectWord q_add q_fieldsOf q_setCommandPrefixFields q_assignmentLiteral q_document : quiet.

(** ** Redirections *)

Section Redir.
Context {SX : Syntax} {O : oracles} {X : expander} {cfg : runnerConfig}.
Context {W : world -> world -> Prop} {HW : WorldOrder O cfg W}.
Context {allowed : bytes -> bool} {stmtRec : Node -> M unit}.
Context (Hrec : forall n, keepsWorld W (stmtRec n)).

Abbreviation mode := (cf_remediationMode cfg).
Abbreviation sandbox := (cf_sandbox cfg).

Lemma q_hdocFails id e Q : quietOn W Q (hdocFails O id e).
Proof. unfold hdocFails. quiet. Qed.
#[local] Hint Resolve q_hdocFails : quiet.

Lemma q_expandHdoc quoted ps Q : quietOn W Q (expandHdoc O X allowed mode sandbox stmtRec quoted ps).
Proof. unfold expandHdoc. quiet. Qed.
#[local] Hint Resolve q_expandHdoc : quiet.

Lemma q_plainBody id quoted ps Q : quietOn W Q (plainBody O X allowed mode sandbox stmtRec id quoted ps).
Proof. unfold plainBody. quiet. Qed.

Lemma q_flushLine quoted cur buf e Q : quietOn W Q (flushLine O X allowed mode sandbox stmtRec quoted cur buf e).
Proof. unfold flushLine. quiet. Qed.
#[local] Hint Resolve q_flushLine : quiet.

Lemma q_dashSegments quoted segs first cur buf e Q :
  quietOn W Q (dashSegments O X allowed mode sandbox stmtRec quoted segs first cur buf e).
Proof. revert first cur buf e. induction segs; intros; cbn; quiet. Qed.
#[local] Hint Resolve q_dashSegments : quiet.

Lemma q_dashParts quoted ps cur buf e Q : quietOn W Q (dashParts O X allowed mode sandbox stmtRec quoted ps cur buf e).
Proof. revert cur buf e. induction ps as [|p ps IH]; intros; cbn; [quiet|]. destruct (pview p); quiet. Qed.
#[local] Hint Resolve q_dashParts q_plainBody : quiet.

Lemma q_dashBody id quoted ps Q : quietOn W Q (dashBody O X allowed mode sandbox stmtRec id quoted ps).
Proof. unfold dashBody. quiet. Qed.
#[local] Hint Resolve q_dashBody : quiet.

Lemma q_newPipe Q : quietOn W Q (newPipe O).
Proof. unfold newPipe. quiet. Qed.
#[local] Hint Resolve q_newPipe : quiet.

Lemma q_hdocReader op word hdoc Q : quietOn W Q (hdocReader O X allowed mode sandbox stmtRec op word hdoc).
Proof. unfold hdocReader. quiet. Qed.
#[local] Hint Resolve q_hdocReader : quiet.

Lemma q_rejectNonRegular path Q : quietOn W Q (rejectNonRegularRedirectTarget O sandbox path).
Proof. unfold rejectNonRegularRedirectTarget. quiet. Qed.
#[local] Hint Resolve q_rejectNonRegular : quiet.

Lemma q_redirectOut t h Q : cleanHandle h -> quietOn W Q (redirectOut t h).
Proof. intros Hh. destruct t; unfold redirectOut; quiet; apply q_modR; intros r [??]; by constructor. Qed.

Lemma q_openWriteRedirect op arg t Q : quietOn W Q (openWriteRedirect O mode sandbox op arg t).
Proof.
  unfold openWriteRedirect. apply q_bind; [quiet|]. intros [e|]; [quiet|].
  apply q_bind; [by apply q_open|]. intros [id|e]; [|quiet].
  apply q_bind; [by apply q_redirectOut|]. quiet.
Qed.

Lemma q_redirTo op orig arg Q : quietOn W Q (redirTo O mode sandbox op orig arg).
Proof.
  unfold redirTo, openInput, devNullOnly, unsupportedFd.
  pose proof (fun t Q => q_redirectOut t Discard Q I).
  destruct op; try solve [quiet].
  1,2,4,5,6: (destruct (isDevNull arg); [quiet|]; destruct (negb mode); [quiet|by apply q_openWriteRedirect]).
  apply q_getR; intros r [Ho He] _. destruct (arg =s "1"); [|destruct (arg =s "2"); [|quiet]];
    (apply q_bind; [by apply q_redirectOut|quiet]).
Qed.
#[local] Hint Resolve q_redirTo : quiet.

Lemma q_redir rd Q : quietOn W Q (redir O X allowed mode sandbox stmtRec rd).
Proof. unfold redir, unsupportedFd. destruct (view rd); quiet. Qed.
#[local] Hint Resolve q_redir : quiet.

Lemma q_applyRedirects rds Q : quietOn W Q (applyRedirects O X allowed mode sandbox stmtRec rds).
Proof. induction rds; cbn; quiet. Qed.
End Redir.

#[export] Hint Resolve q_applyRedirects q_newPipe : quiet.

(** ** Capabilities *)

(** What a handler may answer: the given property of every result. *)
Fixpoint allResults (R : Result -> Prop) (p : prog) : Prop :=
  match p with
  | PRet res => R res
  | PDo _ k => forall a, allResults R (k a)
  end.

Section Call.
Context {SX : Syntax} {O : oracles} {X : expander} {cfg : runnerConfig}.
Context {W : world -> world -> Prop} {HW : WorldOrder O cfg W}.

(** An elevated command only runs with elevation and outside pipelines. *)
Definition stageOK (elevated b : bool) : Prop := elevated = true -> cf_elevate cfg = true /\ b = false.

Definition mutatorsOK (cc : CallContext) : Prop :=
  cc_mutators cc = true -> cf_remediationMode cfg = true /\ cf_sandbox cfg = true.

Lemma q_mutate path Q : cf_remediationMode cfg = true /\ cf_sandbox cfg = true ->
  quietOn W Q (emit (EMutate path)).
Proof. intros H. by apply q_emit. Qed.

Lemma q_removeWithBudget path Q : cf_remediationMode cfg = true /\ cf_sandbox cfg = true ->
  quietOn W Q (removeWithBudget O path).
Proof. intros H. unfold removeWithBudget. pose proof (fun Q => q_mutate path Q H). quiet. Qed.

Lemma q_changeDir d Q : quietOn W Q (changeDir O X cfg d).
Proof. unfold changeDir. quiet. Qed.

Lemma q_contextSetVar name value Q : quietOn W Q (contextSetVar X name value).
Proof. unfold contextSetVar. quiet. Qed.
#[local] Hint Resolve q_changeDir q_contextSetVar : quiet.

Section Prog.
Context (spawn : bool -> bytes -> bytes -> list bytes -> option inHandle -> M (Z * option goErr)).
Context (Hspawn : forall elevated dir name args i Q, (forall b, Q b -> stageOK elevated b) ->
  quietOn W Q (spawn elevated dir name args i)).

Lemma q_runCap elevated child cc c Q : mutatorsOK cc -> (forall b, Q b -> stageOK elevated b) ->
  quietOn W Q (runCap O X cfg spawn elevated child cc c).
Proof.
  intros Hm HQ. unfold runCap, contextGetVar, lookupEnvVar, nilCapability.
  destruct c; try solve [quiet].
  - apply q_getR; intros r [Ho _] _. apply q_bind; [by eapply q_write|]. quiet.
  - apply q_getR; intros r [_ He] _. apply q_bind; [by eapply q_write|]. quiet.
  - unfold mutatorsOK in Hm. destruct (cc_mutators cc); [|quiet]. by apply q_removeWithBudget, Hm.
  - unfold mutatorsOK in Hm. destruct (cc_mutators cc); [|quiet].
    pose proof (fun Q => q_mutate path Q (Hm eq_refl)). quiet.
Qed.

Lemma q_runProg elevated child cc p Q : mutatorsOK cc -> (forall b, Q b -> stageOK elevated b) ->
  quietOn W Q (runProg O X cfg spawn elevated child cc p).
Proof. intros Hm HQ. induction p as [res|c k IH]; cbn; [quiet|]. apply q_bind; [by apply q_runCap|done]. Qed.

(** A handler's answer is one of its results. *)
Lemma runProg_result R elevated child cc p : allResults R p -> forall r w,
  match runProg O X cfg spawn elevated child cc p r w with Done res _ _ => R res | _ => True end.
Proof.
  induction p as [res|c k IH]; cbn; intros HR r w; [done|]. unfold mbind, M_bind.
  destruct (runCap O X cfg spawn elevated child cc c r w) as [a r1 w1|? ? ?|]; [|done|done].
  by apply IH.
Qed.

Lemma mutatorsOK_context i l m s x d :
  mutatorsOK (mkCall i l m (cf_remediationMode cfg && cf_sandbox cfg) s x d).
Proof. by intros [? ?]%andb_true_iff. Qed.

Lemma remediation_gate name c : remediationOnlyRefusal cfg name (cf_remediationMode cfg) = None ->
  registry cfg name = Some c -> cmd_RemediationOnly c = true -> cf_remediationMode cfg = true.
Proof.
  unfold remediationOnlyRefusal. intros H Hr Hc. destruct (cf_remediationMode cfg); [done|].
  by rewrite Hr, Hc in H.
Qed.

Lemma q_spawnBody elevated dir name args i Q : (forall b, Q b -> stageOK elevated b) ->
  quietOn W Q (spawnBody O X cfg spawn elevated dir name args i).
Proof.
  intros HQ. unfold spawnBody. destruct (isAllowed cfg name) eqn:Ea; cbn [negb]; [|quiet].
  destruct (registry cfg name) as [c|] eqn:Er; [|quiet].
  destruct (elevated && negb (elevatableCommands cfg name)) eqn:Ee; [quiet|].
  destruct (remediationOnlyRefusal cfg name (cf_remediationMode cfg)) eqn:Em; [quiet|].
  apply q_getR; intros r Hr HP. apply q_bind.
  - apply q_emit. split; [|done]. constructor; [done|exists c; eauto using remediation_gate|].
    intros ->. destruct (HQ _ HP eq_refl). cbn in Ee. by destruct (elevatableCommands cfg name).
  - intros _. apply q_bind; [|quiet]. apply q_runProg; [apply mutatorsOK_context|by intros b [? _]; apply HQ].
Qed.
End Prog.

Lemma q_spawnFuel fuel elevated dir name args i Q : (forall b, Q b -> stageOK elevated b) ->
  quietOn W Q (spawnFuel O X cfg fuel elevated dir name args i).
Proof.
  revert elevated dir name args i Q. induction fuel as [|fuel IH]; intros; cbn; [quiet|].
  by apply q_spawnBody.
Qed.
End Call.
End InterpQuiet.
