(* ===== verification/InterpExecLogic.v ===== *)
(** * The statements of the interpreter keep the frame and the loop state

    [execsOn] extends the judgement of [InterpLogic] to the code that changes
    the loop state: a condition on the runner before and one after, under the
    hypothesis that handlers only leave loops when they are in one
    ([handlersOK]).  The result is [x_stmtFuel]: every statement keeps the
    world order, the frame and [loopInv]. *)

From S2P Require Import Prelude InterpSyntax InterpVars InterpState InterpExpand InterpRedir InterpCall InterpExec InterpLogic InterpQuiet.
From stdpp Require Import base list gmap sets strings.
From Stdlib Require Import ZArith Lia Ascii.

Module InterpExecLogic.
Import InterpSyntax InterpVars InterpState InterpExpand InterpRedir InterpCall InterpExec InterpLogic InterpQuiet.

(** What a handler may answer about the loops around it. *)
Definition loopResult (inLoop : bool) (res : Result) : Prop :=
  (0 <= res_BreakN res /\ 0 <= res_ContinueN res /\
   (inLoop = false -> res_BreakN res = 0 /\ res_ContinueN res = 0))%Z.

Definition handlersOK (cfg : runnerConfig) : Prop := forall name c cc args,
  registry cfg name = Some c -> allResults (loopResult (cc_InLoop cc)) (cmd_run c cc args).

Section Inv.
Context {SX : Syntax}.

Definition nonneg (r : Runner) : Prop := (0 <= breakEnclosing r /\ 0 <= contnEnclosing r)%Z.

(** Outside loops nothing is pending. *)
Definition loopInv (r : Runner) : Prop :=
  nonneg r /\ (inLoop r = false -> breakEnclosing r = 0 /\ contnEnclosing r = 0)%Z.

Definition inBody (r : Runner) : Prop := nonneg r /\ inLoop r = true.

(** A condition that only depends on what the frame keeps. *)
Class Framed (I : Runner -> Prop) : Prop := framed : forall r r', frame r r' -> I r -> I r'.

#[export] Instance nonneg_framed : Framed nonneg.
Proof. intros r r' [? ? E1 E2 ?]. unfold nonneg. by rewrite E1, E2. Qed.
#[export] Instance loopInv_framed : Framed loopInv.
Proof. intros r r' [E0 ? E1 E2 ?]. unfold loopInv, nonneg. by rewrite E0, E1, E2. Qed.
#[export] Instance inBody_framed : Framed inBody.
Proof. intros r r' [E0 ? E1 E2 ?]. unfold inBody, nonneg. by rewrite E0, E1, E2. Qed.
#[export] Instance and_framed I b : Framed I -> Framed (fun r => I r /\ inLoop r = b).
Proof. intros HI r r' Hf [? ?]. split; [by eapply HI|]. by rewrite (fr_inLoop _ _ Hf). Qed.
End Inv.

Section Logic.
Context {SX : Syntax} {O : oracles} {X : expander} {cfg : runnerConfig}.
Context {W : world -> world -> Prop} {HW : WorldOrder O cfg W}.

(** ** The judgement *)

Definition execsOn (P : bool -> Prop) (pre post : Runner -> Prop) {A} (m : M A) : Prop := forall r w,
  clean r -> P (inPipelineStage r) ->
  match m r w with
  | Done _ r' w' =>
      W w w' /\ clean r' /\ inPipelineStage r' = inPipelineStage r /\ inLoop r' = inLoop r
      /\ (handlersOK cfg -> pre r -> post r')
  | Panicked _ r' w' =>
      W w w' /\ clean r' /\ inPipelineStage r' = inPipelineStage r /\ inLoop r' = inLoop r
  | NoFuel => True
  end.

Lemma x_world {A} pre post (m : M A) : execsOn anyStage pre post m -> keepsWorld W m.
Proof.
  intros H r w Hc. specialize (H r w Hc I). destruct (m r w); [| |done]; split; apply H.
Qed.

Lemma x_quiet P I {A} (m : M A) `{!Framed I} : quietOn W P m -> execsOn P I I m.
Proof.
  intros H r w Hc HP. specialize (H r w Hc HP).
  destruct (m r w) as [a r' w'|s r' w'|]; [| |done]; destruct H as [HW1 F]; pose proof F as [? ? ? ? ?];
    split_and!; try done. intros _ Hi. by eapply framed.
Qed.

Lemma x_conseq P (pre post pre' post' : Runner -> Prop) {A} (m : M A) :
  execsOn P pre' post' m -> (forall r, pre r -> pre' r) ->
  (forall r r', pre r -> post' r' -> inLoop r' = inLoop r -> post r') -> execsOn P pre post m.
Proof.
  intros H Hpre Hpost r w Hc HP. specialize (H r w Hc HP). destruct (m r w); [|done|done].
  destruct H as [? [? [? [E Hi]]]]. split_and!; try done. intros Hh Hr.
  apply (Hpost r); [done| |done]. by apply Hi, Hpre.
Qed.

Lemma x_weaken P (pre pre' post : Runner -> Prop) {A} (m : M A) :
  execsOn P pre' post m -> (forall r, pre r -> pre' r) -> execsOn P pre post m.
Proof. intros H Hp. eapply x_conseq; [exact H|done|done]. Qed.

Lemma x_stage (P Q : bool -> Prop) pre post {A} (m : M A) :
  execsOn P pre post m -> (forall b, Q b -> P b) -> execsOn Q pre post m.
Proof. intros H HPQ r w Hc HQ. apply (H r w Hc (HPQ _ HQ)). Qed.

Lemma x_any P pre post {A} (m : M A) : execsOn anyStage pre post m -> execsOn P pre post m.
Proof. intros H. by eapply x_stage. Qed.

Lemma x_ret P I {A} (a : A) : execsOn P I I (mret a).
Proof. intros r w Hc _. by split_and!. Qed.

(** A bind that remembers something of the value. *)
Lemma x_bind_val P pre mid post {A B} (V : A -> Prop) (m : M A) (f : A -> M B) :
  execsOn P pre mid m ->
  (handlersOK cfg -> forall r w, match m r w with Done a _ _ => V a | _ => True end) ->
  (forall a, execsOn P (fun r => mid r /\ V a) post (f a)) -> execsOn P pre post (m ≫= f).
Proof.
  intros Hm HV Hf r w Hc HP. unfold mbind, M_bind. specialize (Hm r w Hc HP).
  destruct (m r w) as [a r1 w1|msg r1 w1|] eqn:Em; [|done|done].
  destruct Hm as [HW1 [C1 [S1 [L1 I1]]]]. specialize (Hf a r1 w1 C1). rewrite S1 in Hf. specialize (Hf HP).
  destruct (f a r1 w1) as [b r2 w2|msg r2 w2|]; [| |done].
  - destruct Hf as [HW2 [C2 [S2 [L2 I2]]]]. split_and!; [by etransitivity|done|congruence|congruence|].
    intros Hh Hr. apply I2; [done|]. split; [by apply I1|]. specialize (HV Hh r w). by rewrite Em in HV.
  - destruct Hf as [HW2 [C2 [S2 L2]]]. split_and!; [by etransitivity|done|congruence|congruence].
Qed.

Lemma x_bind P pre mid post {A B} (m : M A) (f : A -> M B) :
  execsOn P pre mid m -> (forall a, execsOn P mid post (f a)) -> execsOn P pre post (m ≫= f).
Proof.
  intros Hm Hf. apply (x_bind_val P pre mid post (fun _ => True)); [done| |].
  - intros _ r w. by destruct (m r w).
  - intros a. eapply x_weaken; [apply Hf|tauto].
Qed.

Lemma x_getR P pre post {B} (f : Runner -> M B) :
  (forall r, clean r -> P (inPipelineStage r) ->
     execsOn (fun b => P b /\ b = inPipelineStage r) (fun r' => pre r' /\ r' = r) post (f r)) ->
  execsOn P pre post (getR ≫= f).
Proof.
  intros Hf r w Hc HP. pose proof (Hf r Hc HP r w Hc ltac:(done)) as H. unfold mbind, M_bind. cbn.
  destruct (f r r w); [|done|done]. destruct H as [? [? [? [? Hi]]]]. split_and!; try done.
  intros Hh Hr. by apply Hi.
Qed.

Lemma x_modR P (pre post : Runner -> Prop) f :
  (forall r, clean r -> clean (f r) /\ inPipelineStage (f r) = inPipelineStage r /\ inLoop (f r) = inLoop r) ->
  (forall r, pre r -> post (f r)) -> execsOn P pre post (modR f).
Proof.
  intros Hf Hp r w Hc _. cbn. destruct (Hf r Hc) as [? [? ?]]. split_and!; try done.
  intros _. apply Hp.
Qed.

Lemma x_finally P pre (mid : Runner -> Prop) {A} (m : M A) f `{!Framed mid} :
  execsOn P pre mid m -> quietOn W P f -> execsOn P pre mid (finally m f).
Proof.
  intros Hm Hf r w Hc HP. unfold finally. specialize (Hm r w Hc HP).
  destruct (m r w) as [a r1 w1|msg r1 w1|]; [| |done].
  - destruct Hm as [HW1 [C1 [S1 [L1 I1]]]]. specialize (Hf r1 w1 C1). rewrite S1 in Hf. specialize (Hf HP).
    destruct (f r1 w1) as [b r2 w2|s r2 w2|]; [| |done]; destruct Hf as [HW2 F]; pose proof F as [? ? ? ? ?].
    + split_and!; try (congruence || done); [by etransitivity|]. intros Hh Hr. eapply framed; [exact F|]. by apply I1.
    + split_and!; try (congruence || done). by etransitivity.
  - destruct Hm as [HW1 [C1 [S1 L1]]]. specialize (Hf r1 w1 C1). rewrite S1 in Hf. specialize (Hf HP).
    destruct (f r1 w1) as [b r2 w2|s r2 w2|]; [| |done]; destruct Hf as [HW2 F]; pose proof F as [? ? ? ? ?];
      split_and!; try (congruence || done); by etransitivity.
Qed.

(** The body of a loop: the flag is raised and put back. *)
Lemma x_scope P (K : Z -> Z -> Prop) {A} (m : M A) :
  execsOn P inBody (fun r => K (breakEnclosing r) (contnEnclosing r)) m ->
  execsOn P nonneg (fun r => K (breakEnclosing r) (contnEnclosing r)) (inLoopScope m).
Proof.
  intros Hm r w Hc HP. unfold inLoopScope, finally, mbind, M_bind, getR, modR.
  specialize (Hm (set_inLoop true r) w Hc HP).
  destruct (m (set_inLoop true r) w) as [a r1 w1|msg r1 w1|]; [| |done].
  - destruct Hm as [HW1 [C1 [S1 [L1 I1]]]]. split_and!; try done. intros Hh Hr. by apply I1.
  - by destruct Hm as [HW1 [C1 [S1 L1]]].
Qed.

End Logic.
Arguments execsOn {SX} cfg W P pre post {A} m.

(** A quiet step keeps the condition; a branch that no longer needs the
    runner it read forgets it. *)
Ltac forget := eapply x_weaken; [|intros ? [? _]; eassumption].
Ltac xquiet := first [apply x_ret | apply x_quiet; [typeclasses eauto|solve [quiet]]].


(** ** The operations of [InterpCall] and [InterpExec] *)

Section Exec.
Context {SX : Syntax} {O : oracles} {X : expander} {cfg : runnerConfig}.
Context {W : world -> world -> Prop} {HW : WorldOrder O cfg W}.
Context {turns : nat} {spawnDepth : bytes -> list bytes -> nat}.

Abbreviation execs := (execsOn cfg W anyStage loopInv loopInv).

Lemma x_takeResult P i res :
  execsOn cfg W P (fun r => inLoop r = i /\ loopResult i res) loopInv (takeResult O res).
Proof.
  unfold takeResult. do 2 (apply x_bind with (mid := fun r => inLoop r = i /\ loopResult i res);
    [apply x_modR; done|intros _]).
  apply x_bind with (mid := fun r => inLoop r = i /\ loopResult i res /\ breakEnclosing r = res_BreakN res);
    [by apply x_modR; [|intros r [? ?]]|intros _].
  apply x_bind with (mid := loopInv).
  { apply x_modR; [done|]. intros r [Hi [[? [? Hz]] Hb]]. unfold loopInv, nonneg. cbn.
    rewrite Hi, Hb. done. }
  intros _. xquiet.
Qed.

(** The gates [call] has passed when it runs the handler. *)
Record gates (name : bytes) (c : command) (elevated : bool) : Prop := {
  g_allowed : isAllowed cfg name = true;
  g_known : registry cfg name = Some c;
  g_remediation : remediationOnlyRefusal cfg name (cf_remediationMode cfg) = None;
  g_elevated : elevated = true -> cf_elevate cfg = true /\ elevatableCommands cfg name = true }.

Lemma gates_mayRun name c elevated b : gates name c elevated -> (elevated = true -> b = false) ->
  mayRun cfg name elevated b.
Proof.
  intros [Ha Hk Hr He] Hb. constructor; [done|exists c; eauto using remediation_gate|].
  intros E. destruct (He E). auto.
Qed.

Lemma x_runBuiltin P name c elevated args :
  gates name c elevated -> (forall b, P b -> elevated = true -> b = false) ->
  execsOn cfg W P loopInv loopInv (runBuiltin O X cfg spawnDepth elevated name c args).
Proof.
  intros Hg Hst. pose proof Hg as [_ Hk _ He]. apply x_getR; intros r Hc HP.
  apply (x_weaken _ _ (fun r' => loopInv r' /\ inLoop r' = inLoop r)); [|by intros ? [? ->]].
  set (cc := mkCall _ _ _ _ _ _ _). set (Q := fun b => P b /\ b = inPipelineStage r).
  set (body := emit (EDispatch name args elevated (inPipelineStage r) false);;
               runProg O X cfg (spawnFuel O X cfg (spawnDepth name args)) elevated false cc (cmd_run c cc args)).
  assert (Hbody : quietOn W Q body).
  { apply q_bind; [apply q_emit; split; [|done]|intros _].
    - eapply gates_mayRun; [done|]. by apply Hst.
    - apply q_runProg; [intros; by apply q_spawnFuel|apply mutatorsOK_context|].
      intros b [Hb _] E. destruct (He E). eauto. }
  assert (Hres : handlersOK cfg -> forall r w, match body r w with
    | Done res _ _ => loopResult (cc_InLoop cc) res | _ => True end).
  { intros Hh r1 w. unfold body, mbind, M_bind, emit, modW.
    pose proof (runProg_result (O := O) (X := X) (cfg := cfg) (spawnFuel O X cfg (spawnDepth name args)) (loopResult (cc_InLoop cc)) elevated false cc
      (cmd_run c cc args) ltac:(by eapply Hh) r1 (set_hist (hist w ++ [EDispatch name args elevated (inPipelineStage r) false]) w)) as Hp.
    destruct (runProg _ _ _ _ _ _ _ _ _ _); done. }
  assert (Htake : forall res, execsOn cfg W Q
    (fun r' => (loopInv r' /\ inLoop r' = inLoop r) /\ loopResult (cc_InLoop cc) res) loopInv (takeResult O res)).
  { intros res. eapply x_weaken; [apply (x_takeResult Q (inLoop r))|]. by intros r' [[_ ?] ?]. }
  fold body. destruct elevated.
  - apply x_bind with (mid := fun r' => loopInv r' /\ inLoop r' = inLoop r); [xquiet|intros w].
    apply x_bind with (mid := fun r' => loopInv r' /\ inLoop r' = inLoop r).
    { apply x_quiet; [typeclasses eauto|]. apply q_emit. split; [|done].
      eapply gates_mayRun; [done|done]. }
    intros _. destruct (answerElevate O (hist w)) as [ran err].
    eapply (x_bind_val _ _ (fun r' => loopInv r' /\ inLoop r' = inLoop r)).
    { apply x_quiet; [typeclasses eauto|]. destruct ran; [exact Hbody|apply q_ret]. }
    { intros Hh. destruct ran; [by apply Hres|]. intros r1 w1. cbn. by split_and!. }
    intros res. destruct err; [|apply Htake]. eapply x_weaken; [apply x_quiet; [apply loopInv_framed|quiet]|].
    by intros ? [[? _] _].
  - eapply (x_bind_val _ _ (fun r' => loopInv r' /\ inLoop r' = inLoop r)); [|exact Hres|exact Htake].
    apply x_quiet; [typeclasses eauto|exact Hbody].
Qed.

Lemma x_call P args setup :
  (forall Q, quietOn W Q setup) -> execsOn cfg W P loopInv loopInv (call O X cfg spawnDepth args setup).
Proof.
  intros Hsetup. unfold call. set (elevated := isSudo args).
  destruct (if elevated then tail args else args) as [|name rest]; [unfold deny; xquiet|].
  apply x_bind with (mid := loopInv); [apply x_quiet; [typeclasses eauto|quiet]|intros _].
  apply x_bind with (mid := loopInv); [apply x_quiet; [typeclasses eauto|apply q_stop]|intros []; [xquiet|]].
  apply x_bind with (mid := loopInv); [unfold countCall; apply x_quiet; [typeclasses eauto|quiet]|intros _].
  unfold gatedCall. destruct (isAllowed cfg name) eqn:Ea; cbn [negb]; [|xquiet].
  destruct (elevated && _) eqn:Ee; [unfold deny; xquiet|].
  apply x_getR; intros r Hc HP. forget.
  destruct (elevated && inPipelineStage r) eqn:Es; [unfold deny; xquiet|].
  destruct (remediationOnlyRefusal cfg name _) eqn:Em; [unfold deny; xquiet|].
  apply x_bind with (mid := loopInv); [apply x_quiet; [typeclasses eauto|apply Hsetup]|intros [args'|]; [|xquiet]].
  destruct (registry cfg name) as [c|] eqn:Ek; [|unfold execHandler; xquiet].
  apply x_bind with (mid := loopInv); [apply x_quiet; [typeclasses eauto|quiet]|intros _].
  apply x_runBuiltin.
  - constructor; try done. intros Hel. rewrite Hel in Ee.
    by apply orb_false_iff in Ee as [?%negb_false_iff ?%negb_false_iff].
  - intros b [_ ->] Hel. by rewrite Hel in Es.
Qed.

(** ** One level of statements *)

Section Level.
Context {stmtRec : Node -> M unit}.
Context (Hrec : forall n, execs (stmtRec n)).

Abbreviation allowed := (isAllowed cfg).

Let Hworld : forall n, keepsWorld W (stmtRec n) := fun n => x_world _ _ _ (Hrec n).

Lemma q_assignVal prev a Q : quietOn W Q (assignVal O X cfg stmtRec prev a).
Proof. unfold assignVal, internalErrorf. destruct (view a); quiet. Qed.
#[local] Hint Resolve q_assignVal : quiet.

Lemma q_setVarWithIndex prev name i vr Q : quietOn W Q (setVarWithIndex O X prev name i vr).
Proof. unfold setVarWithIndex, internalErrorf. quiet. Qed.
#[local] Hint Resolve q_setVarWithIndex : quiet.

Lemma q_assignAll az Q : quietOn W Q (assignAll O X cfg stmtRec az).
Proof. revert Q. induction az; intros Q; cbn; quiet. Qed.

Lemma q_inlineAssignments az acc Q : quietOn W Q (inlineAssignments O X cfg stmtRec az acc).
Proof. revert acc Q. induction az; intros; cbn; quiet. Qed.
#[local] Hint Resolve q_assignAll q_inlineAssignments : quiet.

Lemma q_inTempEnv {A} (m : M A) Q : (forall Q, quietOn W Q m) -> quietOn W Q (inTempEnv X m).
Proof. intros Hm. unfold inTempEnv. quiet. Qed.

Lemma q_installAssignments az seen Q : quietOn W Q (installAssignments O X az seen).
Proof. revert seen Q. induction az as [|[name vr] az IH]; intros; cbn; quiet. Qed.

Lemma q_restoreAll b rs Q : quietOn W Q (restoreAll b rs).
Proof. induction rs as [|[o sn] rs IH]; cbn; quiet. Qed.
#[local] Hint Resolve q_installAssignments q_restoreAll : quiet.

Lemma q_takeName args c Q : quietOn W Q (takeName O X cfg stmtRec args c).
Proof. revert c. induction args; intros; cbn; quiet. Qed.

Lemma q_takeSudo args c Q : quietOn W Q (takeSudo O X cfg stmtRec args c).
Proof. revert c. induction args; intros; cbn; quiet. Qed.
#[local] Hint Resolve q_takeName q_takeSudo : quiet.

Lemma q_setupCall rest c az redirs Q : quietOn W Q (setupCall O X cfg stmtRec rest c az redirs).
Proof.
  unfold setupCall. pose proof (fun az Q => q_inTempEnv _ Q (fun Q => q_inlineAssignments az [] Q)). quiet.
Qed.

Lemma x_callExpr az args redirs : execs (callExpr O X cfg spawnDepth stmtRec az args redirs).
Proof.
  unfold callExpr.
  apply x_bind with (mid := loopInv); [apply x_quiet; [typeclasses eauto|quiet]|intros _].
  apply x_bind with (mid := loopInv); [apply x_quiet; [typeclasses eauto|quiet]|intros [args1 c1]].
  apply x_bind with (mid := loopInv); [apply x_quiet; [typeclasses eauto|quiet]|intros [args2 c2]].
  apply x_getR; intros r Hc HP. forget. destruct (negb _); [xquiet|].
  destruct (fields c2) as [|cmdName fs]; [xquiet|].
  apply x_bind with (mid := loopInv); [apply x_quiet; [typeclasses eauto|quiet]|intros [[] c3]; [|xquiet]].
  apply x_getR; intros r1 Hc1 HP1. forget.
  apply x_bind with (mid := loopInv); [apply x_quiet; [typeclasses eauto|quiet]|intros _].
  apply x_finally; [typeclasses eauto| |unfold restoreAssignments; quiet].
  apply x_call. intros. apply q_setupCall.
Qed.

(** *** Lists and loops *)

Lemma x_inBody_rec n : execsOn cfg W anyStage inBody inBody (stmtRec n).
Proof.
  eapply x_conseq; [apply Hrec|by intros r [? Hi]; split; [|rewrite Hi]|].
  intros r r' [_ Hi] [? _] E. split; [done|congruence].
Qed.

Lemma x_stmts I ss : (forall n, execsOn cfg W anyStage I I (stmtRec n)) ->
  execsOn cfg W anyStage I I (stmts stmtRec ss).
Proof.
  intros HI. induction ss as [|s ss IH]; cbn; [apply x_ret|].
  apply x_bind with (mid := I); [apply HI|intros _]. apply x_getR; intros r Hc HP. forget.
  destruct (_ || _); [apply x_ret|by apply x_any].
Qed.

Lemma x_loopStmts ss : execsOn cfg W anyStage inBody inBody (loopStmts stmtRec ss).
Proof.
  induction ss as [|s ss IH]; cbn; [apply x_ret|].
  apply x_bind with (mid := inBody); [apply x_inBody_rec|intros _]. apply x_getR; intros r Hc HP.
  destruct (Z.ltb_spec 0 (contnEnclosing r)); [|destruct (Z.ltb_spec 0 (breakEnclosing r))].
  - apply x_bind with (mid := inBody); [|intros; apply x_ret]. apply x_modR; [done|].
    intros r' [[[? ?] ?] ->]. split; [|done]. split; cbn; lia.
  - apply x_bind with (mid := inBody); [|intros; apply x_ret]. apply x_modR; [done|].
    intros r' [[[? ?] ?] ->]. split; [|done]. split; cbn; lia.
  - forget. by apply x_any.
Qed.

Lemma x_loopStmtsBroken ss : execsOn cfg W anyStage nonneg nonneg (loopStmtsBroken stmtRec ss).
Proof.
  apply (x_scope _ (fun b c => 0 <= b /\ 0 <= c)%Z). eapply x_conseq; [apply x_loopStmts|done|].
  by intros r r' _ [? _] _.
Qed.

Lemma x_forItems name body items : execsOn cfg W anyStage nonneg nonneg (forItems O X stmtRec name body items).
Proof.
  induction items as [|f items IH]; cbn; [apply x_ret|].
  apply x_bind with (mid := nonneg); [apply x_quiet; [typeclasses eauto|quiet]|intros [e|]; [xquiet|]].
  apply x_bind with (mid := nonneg); [apply x_quiet; [typeclasses eauto|unfold setVarString; quiet]|intros _].
  apply x_bind with (mid := nonneg); [apply x_loopStmtsBroken|intros []; [|done]].
  apply x_getR; intros r Hc HP. forget. destruct (_ && _); [|apply x_ret].
  apply x_bind with (mid := nonneg); [|intros _; by apply x_any].
  apply x_modR; [done|]. intros r' [? ?]. by split.
Qed.

(** The clamp at the outermost loop. *)
Definition clamped (old : bool) (b c : Z) : Prop := (0 <= b /\ 0 <= c /\ (old = false -> b = 0 /\ c = 0))%Z.

Lemma x_clampLevels P old (pre : Runner -> Prop) : (forall r, pre r -> nonneg r) ->
  execsOn cfg W P pre (fun r => clamped old (breakEnclosing r) (contnEnclosing r)) (clampLevels old).
Proof.
  intros Hpre. destruct old; cbn [clampLevels when negb].
  - eapply x_conseq; [apply (x_ret _ nonneg)|done|]. intros r r' _ [? ?] _. split_and!; done.
  - apply x_bind with (mid := fun r => breakEnclosing r = 0%Z); [by apply x_modR|intros _].
    apply x_modR; [done|]. intros r Hb. unfold clamped. cbn. by rewrite Hb.
Qed.

Lemma loopInv_clamped r : loopInv r <-> clamped (inLoop r) (breakEnclosing r) (contnEnclosing r).
Proof. unfold loopInv, nonneg, clamped. tauto. Qed.

Lemma x_execFor loop body : execs (execFor O X cfg stmtRec loop body).
Proof.
  destruct loop as [name inToken words|]; cbn; [|xquiet].
  apply x_getR; intros r Hc HP. forget.
  apply x_bind with (mid := loopInv); [apply x_quiet; [typeclasses eauto|quiet]|intros items].
  apply x_bind with (mid := nonneg); [eapply x_weaken; [apply x_any, x_forItems|by intros ? [? _]]|intros _].
  apply x_getR; intros r1 Hc1 HP1. eapply x_conseq; [apply (x_clampLevels _ _ (fun r => nonneg r))|by intros ? [? _]|]; [done|].
  intros r2 r3 [_ ->] H E. apply loopInv_clamped. by rewrite E.
Qed.

Lemma x_whileTurn until old cond body st :
  execsOn cfg W anyStage inBody inBody (whileTurn stmtRec until old cond body st).
Proof.
  unfold whileTurn. apply x_bind with (mid := inBody); [apply x_stmts, x_inBody_rec|intros _].
  apply x_getR; intros r Hc HP. destruct (_ || _); [forget; apply x_ret|].
  destruct (Z.ltb_spec 0 (breakEnclosing r)); [|destruct (Z.ltb_spec 0 (contnEnclosing r))].
  - apply x_bind with (mid := inBody); [|intros; apply x_ret]. apply x_modR; [done|].
    intros r' [[[? ?] ?] ->]. split; [|done]. split; cbn; lia.
  - apply x_bind with (mid := inBody).
    + apply x_modR; [done|]. intros r' [[[? ?] ?] ->]. split; [|done]. split; cbn; [lia|].
      destruct (_ && _); lia.
    + intros _. destruct (_ && _); [apply x_ret|]. destruct (Bool.eqb _ _); apply x_ret.
  - forget. destruct (Bool.eqb _ _); [apply x_ret|].
    apply x_bind with (mid := inBody); [apply x_quiet; [typeclasses eauto|quiet]|intros _].
    apply x_bind with (mid := inBody).
    { eapply x_conseq; [apply x_any, x_loopStmtsBroken|by intros ? [? _]|].
      intros r1 r2 [_ ?] ? E. split; [done|congruence]. }
    intros []; apply x_getR; intros r1 Hc1 HP1; forget; [|apply x_ret]. destruct (_ && _); [|apply x_ret].
    apply x_bind with (mid := inBody); [|intros; apply x_ret].
    apply x_modR; [done|]. intros r2 [[? ?] ?]. by split.
Qed.

Lemma x_whileLoop n until old cond body st :
  execsOn cfg W anyStage inBody inBody (whileLoop O stmtRec n until old cond body st).
Proof.
  revert st. induction n as [|n IH]; intros st; cbn; [by intros ? ? ? ?|].
  apply x_bind with (mid := inBody); [apply x_quiet; [typeclasses eauto|quiet]|intros [e|]; [xquiet|]].
  apply x_bind with (mid := inBody); [apply x_whileTurn|intros [st' []]; [apply IH|apply x_ret]].
Qed.

Lemma x_execWhileClause until cond body : execs (execWhileClause O turns stmtRec until cond body).
Proof.
  unfold execWhileClause. apply x_getR; intros r Hc HP.
  eapply x_conseq; [apply (x_scope _ (clamped (inLoop r)))| |].
  - apply x_bind with (mid := inBody); [apply x_any, x_whileLoop|intros st].
    apply x_bind with (mid := fun r' => clamped (inLoop r) (breakEnclosing r') (contnEnclosing r'));
      [by apply x_clampLevels; intros ? [? _]|intros _].
    assert (Framed (fun r' => clamped (inLoop r) (breakEnclosing r') (contnEnclosing r'))).
    { intros r1 r2 [? ? E1 E2 ?]. by rewrite E1, E2. }
    apply x_getR; intros r1 Hc1 HP1.
    apply (x_weaken _ _ (fun r' => clamped (inLoop r) (breakEnclosing r') (contnEnclosing r'))); [xquiet|].
    by intros r' [? _].
  - by intros r' [[? _] _].
  - intros r1 r2 [_ ->] H E. apply loopInv_clamped. by rewrite E.
Qed.

Lemma x_execIfChain fuel cur : execs (execIfChain stmtRec fuel cur).
Proof.
  revert cur. induction fuel as [|fuel IH]; intros cur; cbn; [apply x_ret|].
  destruct (view cur); try apply x_ret. destruct (negb _); [apply x_stmts, Hrec|].
  apply x_bind with (mid := loopInv); [apply x_stmts, Hrec|intros _].
  apply x_getR; intros r Hc HP. forget. destruct (_ || _); [apply x_ret|].
  destruct (ok _); [apply x_any, x_stmts, Hrec|].
  apply x_bind with (mid := loopInv); [apply x_quiet; [typeclasses eauto|quiet]|intros _].
  destruct Else; [by apply x_any|apply x_ret].
Qed.

(** *** Subshells and pipes *)

Lemma q_addCounts r2 Q : quietOn W Q (modR (addCounts r2)).
Proof. apply q_modR. intros r Hc. by constructor. Qed.
#[local] Hint Resolve q_addCounts : quiet.

Lemma q_takeExit e Q : quietOn W Q (takeExit e).
Proof. unfold takeExit. quiet. Qed.
#[local] Hint Resolve q_takeExit : quiet.

Lemma q_execSubshell ss Q : quietOn W Q (execSubshell X stmtRec ss).
Proof.
  unfold execSubshell. apply q_subshell_bind; intros r2 C2 _ _ _.
  apply q_bind; [|intros [_ r3]; quiet]. apply q_onRunner; [done|]. by apply w_stmts.
Qed.

Lemma stageRecovered_world : keepsWorld W (stageRecovered O).
Proof.
  apply quiet_world. apply q_getR; intros r [_ He] _. apply q_bind; [by eapply q_write|]. quiet.
Qed.

Lemma q_execPipe x y Q : quietOn W Q (execPipe O X stmtRec x y).
Proof.
  unfold execPipe. apply q_bind; [quiet|]. intros [id|e]; [|quiet].
  apply q_getR; intros r Hc HP.
  apply q_subshell_bind; intros rLeft CL _ _ _. apply q_subshell_bind; intros rRight CR _ _ _.
  assert (keepsWorld W (stmtRec x;; modExit (setExiting false))) as Hleft.
  { apply (x_world (cfg := cfg) loopInv loopInv). apply x_bind with (mid := loopInv); [apply Hrec|intros _]. xquiet. }
  apply q_bind; [apply q_recoverOn; [split; [done|apply CL]|done|apply stageRecovered_world]|intros rLeft'].
  do 2 (apply q_bind; [quiet|intros _]).
  apply q_bind; [apply q_onRunner; [split; apply CR|apply Hworld]|intros [_ rRight']]. quiet.
Qed.
#[local] Hint Resolve q_execSubshell q_execPipe : quiet.

Lemma x_execAndOr op x y : execs (execAndOr stmtRec op x y).
Proof.
  unfold execAndOr. apply x_bind with (mid := loopInv); [apply Hrec|intros _].
  apply x_getR; intros r Hc HP. forget. destruct (_ || _); [apply x_ret|].
  destruct (Bool.eqb _ _); [apply x_any, Hrec|apply x_ret].
Qed.

(** *** Commands and statements *)

Lemma x_cmd cm : execs (cmd O X cfg turns spawnDepth stmtRec cm).
Proof.
  unfold cmd. apply x_bind with (mid := loopInv); [xquiet|intros []; [apply x_ret|]].
  destruct (view cm) as [| | | op x y| | | | | | | | | | | | | | | | | | | | | | | | | | | |]; try xquiet.
  - apply x_callExpr.
  - destruct op; try apply x_execAndOr; xquiet.
  - apply x_execIfChain.
  - apply x_execWhileClause.
  - apply x_execFor.
  - apply x_stmts, Hrec.
Qed.

Lemma x_stmtBody c redirs : execs (stmtBody O X cfg turns spawnDepth stmtRec c redirs).
Proof.
  unfold stmtBody. destruct c as [cm|]; [|xquiet].
  assert (execs (applyRedirects O X allowed (cf_remediationMode cfg) (cf_sandbox cfg) stmtRec redirs;;
    r ← getR; when (ok (exit r)) (cmd O X cfg turns spawnDepth stmtRec cm))).
  { apply x_bind with (mid := loopInv); [xquiet|intros _]. apply x_getR; intros r Hc HP. forget.
    destruct (ok _); [apply x_any, x_cmd|apply x_ret]. }
  destruct (view cm); try done. apply x_callExpr.
Qed.

Lemma q_closeAll ids Q : quietOn W Q (closeAll ids).
Proof. induction ids; cbn; quiet. Qed.
#[local] Hint Resolve q_closeAll : quiet.

Lemma x_stmtSync st : execs (stmtSync O X cfg turns spawnDepth stmtRec st).
Proof.
  unfold stmtSync. destruct (view st); try apply x_ret.
  apply x_getR; intros r0 Hc0 HP0. forget.
  apply x_bind with (mid := loopInv); [xquiet|intros _].
  apply x_finally; [typeclasses eauto| |].
  - apply x_bind with (mid := loopInv); [apply x_any, x_stmtBody|intros _]. unfold negateExit. xquiet.
  - apply q_getR; intros r Hc HP. apply q_bind; [|quiet].
    apply q_modR. intros r' Hr'. by constructor.
Qed.

Lemma x_stmt st : execs (stmt O X cfg turns spawnDepth stmtRec st).
Proof.
  unfold stmt. apply x_bind with (mid := loopInv); [xquiet|intros []; [apply x_ret|]].
  apply x_bind with (mid := loopInv); [xquiet|intros _].
  apply x_bind with (mid := loopInv); [apply x_stmtSync|intros _]. xquiet.
Qed.
End Level.

(** Every statement. *)
Theorem x_stmtFuel fuel st : execs (stmtFuel O X cfg turns spawnDepth fuel st).
Proof.
  revert st. induction fuel as [|fuel IH]; intros st; cbn; [intros ? ? ? ?; exact I|by apply x_stmt].
Qed.

Lemma w_runNode node : keepsWorld W (runNode O X cfg turns spawnDepth node).
Proof.
  apply (x_world (cfg := cfg) loopInv loopInv). unfold runNode. set (rec := stmtFuel _ _ _ _ _ (size node)).
  assert (Hrec : forall n, execs (rec n)) by (intros; apply x_stmtFuel).
  assert (execs (cmd O X cfg turns spawnDepth rec node;; mret true)).
  { apply x_bind with (mid := loopInv); [by apply x_cmd|intros; apply x_ret]. }
  destruct (view node); try done; try apply x_ret.
  - apply x_bind with (mid := loopInv); [by apply x_stmts|intros; apply x_ret].
  - apply x_bind with (mid := loopInv); [apply x_stmtFuel|intros; apply x_ret].
Qed.

End Exec.
End InterpExecLogic.
