(* ===== verification/InterpExecSpec.v ===== *)
(** * What a run may do

    The theorems on [Run]: the commands it dispatches, what it may change on
    the host, the loop levels of a finished statement, the bytes it writes. *)

From S2P Require Import Prelude InterpSyntax InterpValidate InterpVars InterpState InterpExpand InterpRedir InterpCall InterpExec InterpLogic InterpQuiet InterpExecLogic.
From stdpp Require Import base list gmap sets strings.
From Stdlib Require Import ZArith Lia Ascii.

Module InterpExecSpec.
Import InterpSyntax InterpValidate InterpVars InterpState InterpExpand InterpRedir InterpCall InterpExec
  InterpLogic InterpQuiet InterpExecLogic.

(** ** From a node to a run *)

Section Lift.
Context {SX : Syntax} {O : oracles} {X : expander} {cfg : runnerConfig}.
Context {W : world -> world -> Prop} {HW : WorldOrder O cfg W}.
Context {turns : nat} {spawnDepth : bytes -> list bytes -> nat}.

Lemma w_bind {A B} (m : M A) (f : A -> M B) :
  keepsWorld W m -> (forall a, keepsWorld W (f a)) -> keepsWorld W (m ≫= f).
Proof.
  intros Hm Hf r w Hc. unfold mbind, M_bind. specialize (Hm r w Hc).
  destruct (m r w) as [a r1 w1|msg r1 w1|]; [|done|done]. destruct Hm as [HW1 C1].
  specialize (Hf a r1 w1 C1). destruct (f a r1 w1); [| |done]; (split; [|apply Hf]);
    by etransitivity; [exact HW1|apply Hf].
Qed.

Lemma w_quiet {A} (m : M A) : quietOn W anyStage m -> keepsWorld W m.
Proof. apply quiet_world. Qed.

Lemma w_runWrapped node h1 h2 : (forall n w, W w (set_polls n w)) ->
  keepsWorld W (runWrapped O X cfg turns spawnDepth node h1 h2).
Proof.
  intros Hpolls. unfold runWrapped.
  do 3 (apply w_bind; [apply w_quiet, q_modW; silent_tac|intros _]).
  apply w_bind.
  { apply w_quiet. unfold validated. apply q_bind; [apply q_getW|intros w].
    apply q_bind; [by apply q_modW; intros|intros _; apply q_ret]. }
  intros [verr|]; [apply w_quiet; destruct verr; quiet|].
  apply w_bind; [apply w_quiet; quiet|intros _]. apply w_bind; [apply w_runNode|intros known].
  apply w_quiet. unfold runResult, isExceeded. quiet.
Qed.

(** A run starts by wrapping stdout; from there the world order reaches its
    end. *)
Lemma w_Run_tail node r w :
  (forall n w, W w (set_polls n w)) ->
  (forall r w, match newLimitWriter (SHost true) maxStderrBytes r w with
     | Done h r' w' => W w w' /\ r' = r /\ cleanHandle h
     | _ => False end) ->
  (forall p r' w', match write O (r_stderr r) p r' w' with
     | Done _ _ w'' | Panicked _ _ w'' => W w' w'' | NoFuel => True end) ->
  match newLimitWriter (SHost false) maxStdoutBytes r w with
  | Done _ _ w1 =>
      match Run O X cfg turns spawnDepth node r w with
      | Done _ _ w' | Panicked _ _ w' => W w1 w'
      | NoFuel => True
      end
  | _ => False
  end.
Proof.
  intros Hpolls Hhost Hpanic. unfold Run, catch, finally, mbind, M_bind, getR, modR.
  destruct (newLimitWriter (SHost false) maxStdoutBytes r w) as [h1 r1 w1|? ? ?|] eqn:E1; [|done|done].
  assert (r1 = r /\ cleanHandle h1) as [-> C1] by (by injection E1 as <- <- _).
  pose proof (Hhost r w1) as H2.
  destruct (newLimitWriter (SHost true) maxStderrBytes r w1) as [h2 r2 w2|? ? ?|]; [|done|done].
  destruct H2 as [HW2 [-> C2]].
  pose proof (w_runWrapped node h1 h2 Hpolls (set_r_stderr h2 (set_r_stdout h1 r)) w2 ltac:(done)) as H3.
  destruct (runWrapped _ _ _ _ _ _ _ _ _ _) as [res r3 w3|msg r3 w3|]; [| |done]; cbn.
  - by transitivity w2; [|apply H3].
  - assert (HW3 : W w1 w3) by (by transitivity w2; [|apply H3]).
    specialize (Hpanic (lit "rshell: internal panic" ++ [ch_nl])
      (set_r_stderr (r_stderr r) (set_r_stdout (r_stdout r) r3)) w3).
    cbn in Hpanic |- *. destruct (write _ _ _ _ _); [| |done]; cbn; by transitivity w3.
Qed.
End Lift.

(** ** The policy *)

Section Policy.
Context {SX : Syntax} (O : oracles) (X : expander) (cfg : runnerConfig) (turns : nat) (spawnDepth : bytes -> list bytes -> nat).

(** The history grows by events with [P]. *)
Definition grows (P : event -> Prop) (w w' : world) : Prop :=
  exists es, hist w' = hist w ++ es /\ Forall P es.

#[export] Instance grows_preorder P : PreOrder (grows P).
Proof.
  split.
  - intros w. exists []. split; [symmetry; apply app_nil_r|constructor].
  - intros w1 w2 w3 [es [E1 H1]] [es' [E2 H2]]. exists (es ++ es').
    split; [rewrite E2, E1; symmetry; apply app_assoc|by apply Forall_app].
Qed.

Lemma grows_same P (w w' : world) : hist w' = hist w -> grows P w w'.
Proof. intros E. exists []. split; [by rewrite E, app_nil_r|constructor]. Qed.

Lemma grows_emit (P : event -> Prop) e (w : world) : P e -> grows P w (set_hist (hist w ++ [e]) w).
Proof. intros He. exists [e]. split; [done|by constructor]. Qed.

(** Writing only adds writes to the history. *)
Lemma grows_hostWrite (P : event -> Prop) h p (r : Runner) w : (forall h p, P (EWrite h p)) ->
  match hostWrite O h p r w with
  | Done _ r' w' => grows P w w' /\ r' = r /\ writers w' = writers w
  | _ => False end.
Proof. intros HP. cbn. split; [by apply grows_emit|done]. Qed.

Lemma grows_limitWrite (P : event -> Prop) id p (r : Runner) w : (forall h p, P (EWrite h p)) ->
  match limitWrite O id p r w with
  | Done _ r' w' | Panicked _ r' w' => grows P w w' /\ r' = r
  | NoFuel => False end.
Proof.
  intros HP. unfold limitWrite, sinkWrite, putWriter, hostWrite, emit, modW, getW, mbind, M_bind, mret, M_ret, panic.
  destruct (writers w !! Z.to_nat id) as [[k lim n ex]|]; cbn; [|by split].
  repeat match goal with
  | |- context [if ?b then _ else _] => destruct b
  | |- context [match k with _ => _ end] => destruct k; cbn
  | |- context [let (_, _) := ?x in _] => destruct x; cbn
  | |- context [match ?x with Some _ => _ | None => _ end] => destruct x; cbn
  end; (split; [|done]); first [by apply grows_same|by apply grows_emit].
Qed.

#[export] Instance policy_order : WorldOrder O cfg (grows (policy cfg)).
Proof.
  split; [apply _|by intros; apply grows_same|intros e w [? _]; by apply grows_emit| |].
  - intros. by apply grows_limitWrite.
  - intros r w. cbn. split_and!; try done. by apply grows_same.
Qed.

Lemma run_policy node r w :
  match Run O X cfg turns spawnDepth node r w with
  | Done _ _ w' | Panicked _ _ w' => grows (policy cfg) w w'
  | NoFuel => True
  end.
Proof.
  pose proof (w_Run_tail (W := grows (policy cfg)) (O := O) (X := X) (cfg := cfg)
    (turns := turns) (spawnDepth := spawnDepth) node r w) as H.
  assert (Hhost : forall r1 w1, match newLimitWriter (SHost true) maxStderrBytes r1 w1 with
    | Done h r' w' => grows (policy cfg) w1 w' /\ r' = r1 /\ cleanHandle h | _ => False end).
  { intros r1 w1. cbn. split_and!; try done. by apply grows_same. }
  assert (Hpanic : forall p r1 w1, match write O (r_stderr r) p r1 w1 with
     | Done _ _ w' | Panicked _ _ w' => grows (policy cfg) w1 w' | NoFuel => True end).
  { intros p r1 w1. destruct (r_stderr r); cbn; try (by apply grows_same); try (by apply grows_emit).
    pose proof (grows_limitWrite (policy cfg) id p r1 w1 ltac:(done)) as HL.
    destruct (limitWrite _ _ _ _ _); [apply HL|apply HL|done]. }
  specialize (H ltac:(by intros; apply grows_same) Hhost Hpanic). cbn in H.
  destruct (Run _ _ _ _ _ _ _ _); [| |done]; (etransitivity; [|exact H]); by apply grows_same.
Qed.

(** C8. Whatever the script, the builtins and the host do, every command a run
    dispatches - by the shell or by another command, as [find -exec] and
    [xargs] do - is allowed and known, is refused in read-only mode if it is
    for remediation only, and is elevated only if elevation is configured, the
    command is elevatable and no pipeline is running; an elevation window is
    opened for such a command only. *)
Theorem run_dispatches_allowed node r w :
  match Run O X cfg turns spawnDepth node r w with
  | Done _ _ w' | Panicked _ _ w' => grows (fun e => match e with
      | EDispatch name _ elevated inStage _ => mayRun cfg name elevated inStage
      | EElevate name => mayRun cfg name true false
      | _ => True end) w w'
  | NoFuel => True
  end.
Proof.
  pose proof (run_policy node r w) as H.
  destruct (Run _ _ _ _ _ _ _ _); [| |done]; destruct H as [es [E H]]; exists es;
    (split; [done|]); eapply Forall_impl; try exact H; by intros [].
Qed.


(** When a statement ends, the loop flag is what it was, and outside loops
    no [break] or [continue] is pending, so the statements after it run: the
    levels a builtin asked for have been used up or clamped at the outermost
    loop.  Handlers only ask for levels inside a loop. *)
Theorem loop_levels_clamped fuel st r w r' w' :
  handlersOK cfg -> clean r -> loopInv r ->
  stmtFuel O X cfg turns spawnDepth fuel st r w = Done tt r' w' ->
  inLoop r' = inLoop r /\ loopInv r'.
Proof.
  intros Hh Hc Hi E. pose proof (x_stmtFuel (W := grows (policy cfg)) (O := O) (X := X)
    (turns := turns) (spawnDepth := spawnDepth) fuel st r w Hc I) as H.
  rewrite E in H. split; [apply H|]. by apply H.
Qed.

(** ** Refusals *)

(** The gates of [call] in their order, with the status each gives. *)
Definition refusal (inStage : bool) (args : list bytes) : option Z :=
  let elevated := isSudo args in
  match (if elevated then tail args else args) with
  | [] => Some 2%Z
  | name :: _ =>
      if negb (isAllowed cfg name) then Some 127%Z
      else if elevated && negb (cf_elevate cfg && elevatableCommands cfg name) then Some 126%Z
      else if elevated && inStage then Some 126%Z
      else match remediationOnlyRefusal cfg name (cf_remediationMode cfg) with
           | Some _ => Some 1%Z
           | None => None
           end
  end.

(** The stream exists. *)
Definition writable (w : world) (h : outHandle) : Prop :=
  match h with OutLimit id => is_Some (writers w !! Z.to_nat id) | _ => True end.

Definition isWrite (e : event) : Prop := match e with EWrite _ _ => True | _ => False end.

(** Only the streams and the history differ. *)
Record onlyWrites (w w' : world) : Prop := {
  ow_hist : grows isWrite w w';
  ow_vars : vars w' = vars w;
  ow_polls : polls w' = polls w;
  ow_writable : forall h, writable w h -> writable w' h }.

Lemma onlyWrites_emit h p w : onlyWrites w (set_hist (hist w ++ [EWrite h p]) w).
Proof. split; try done. by apply grows_emit. Qed.

Lemma writable_insert i lw (w w' : world) h : writers w' = <[i := lw]> (writers w) -> writable w h -> writable w' h.
Proof.
  intros E. destruct h; cbn; try done. rewrite E. destruct (decide (i = Z.to_nat id)) as [->|].
  - by rewrite lookup_insert_eq.
  - by rewrite lookup_insert_ne.
Qed.

Lemma errf_done msg (r : Runner) w : writable w (r_stderr r) ->
  exists w', errf O msg r w = Done tt r w' /\ onlyWrites w w'.
Proof.
  unfold errf, mbind, M_bind, getR. intros Hw.
  enough (exists n e w', write O (r_stderr r) msg r w = Done (n, e) r w' /\ onlyWrites w w') as [n [e [w' [E Ho]]]].
  { exists w'. by rewrite E. }
  destruct (r_stderr r); cbn in Hw; [by eexists _, _, _| | | |].
  1-3: cbn [write]; unfold hostWrite, emit, modW, getW, mbind, M_bind, mret, M_ret;
    destruct (answerWrite O (hist w)); by eexists _, _, _; split; [reflexivity|apply onlyWrites_emit].
  - cbn [write]. unfold limitWrite, sinkWrite, putWriter, hostWrite, emit, modW, getW, mbind, M_bind, mret, M_ret.
    destruct Hw as [[k lim n ex] Hw]. rewrite Hw. cbn.
    repeat match goal with
    | |- context [if ?b then _ else _] => destruct b
    | |- context [match k with _ => _ end] => destruct k; cbn
    | |- context [let (_, _) := ?x in _] => destruct x; cbn
    | |- context [match ?x with Some _ => _ | None => _ end] => destruct x; cbn
    end; eexists _, _, _; (split; [reflexivity|]); (split; [first [by apply grows_same|by apply grows_emit]|done|done|]);
      intros h; eapply writable_insert; reflexivity.
Qed.

Lemma onlyWrites_trans w1 w2 w3 : onlyWrites w1 w2 -> onlyWrites w2 w3 -> onlyWrites w1 w3.
Proof.
  intros [H1 V1 P1 W1] [H2 V2 P2 W2]. split; [by etransitivity|congruence|congruence|auto].
Qed.

Lemma onlyWrites_refl w : onlyWrites w w.
Proof. split; try done. Qed.

Lemma deny_done msg code (r : Runner) w : writable w (r_stderr r) ->
  exists r' w', deny O msg code r w = Done tt r' w' /\ x_code (exit r') = code
    /\ dispatchedCount r' = dispatchedCount r /\ onlyWrites w w'.
Proof.
  intros Hw. destruct (errf_done msg r w Hw) as [w' [E Ho]]. eexists _, w'.
  unfold deny, mbind, M_bind. by rewrite E.
Qed.

Lemma gatedCall_refused args name rest setup r w code :
  (if isSudo args then tail args else args) = name :: rest ->
  refusal (inPipelineStage r) args = Some code -> writable w (r_stderr r) ->
  exists r' w', gatedCall O X cfg spawnDepth (isSudo args) name setup r w = Done tt r' w'
    /\ x_code (exit r') = code /\ dispatchedCount r' = dispatchedCount r /\ onlyWrites w w'.
Proof.
  intros Ea Hr Hw. unfold refusal in Hr.  rewrite Ea in Hr. unfold gatedCall.
  destruct (isAllowed cfg name); cbn [negb] in Hr |- *.
  - rewrite negb_andb in Hr. destruct (isSudo args && (_ || _)); [injection Hr as <-; by apply deny_done|].
    unfold mbind, M_bind, getR. destruct (isSudo args && _); [injection Hr as <-; by apply deny_done|].
    destruct (remediationOnlyRefusal _ _ _) as [m|]; [injection Hr as <-; by apply deny_done|done].
  - injection Hr as <-.
    destruct (errf_done (lit "rshell: " ++ name ++ lit ": command not allowed" ++ [ch_nl]) r w Hw) as [w2 [E2 H2]].
    unfold mbind, M_bind. rewrite E2. destruct (allowedCommands cfg (lit "help")); cbn [when].
    + destruct (errf_done (lit "Run 'help' to see allowed commands." ++ [ch_nl]) r w2) as [w3 [E3 H3]];
        [by apply H2|].
      rewrite E3. eexists _, w3. split_and!; try reflexivity. by eapply onlyWrites_trans.
    + eexists _, w2. by split_and!.
Qed.

(** The runner once the call is counted. *)
Definition counted (name : bytes) (r : Runner) : Runner :=
  let r := if negb (isAllowed cfg name) then set_unallowedCount (unallowedCount r + 1) r else r in
  match registry cfg name with None => set_unknownCount (unknownCount r + 1) r | Some _ => r end.

Lemma call_counted args name rest setup r w :
  (if isSudo args then tail args else args) = name :: rest -> exiting (exit r) = false -> ctxErr O (polls w) = None ->
  call O X cfg spawnDepth args setup r w =
  gatedCall O X cfg spawnDepth (isSudo args) name setup
    (counted name (set_totalCount (totalCount r + 1) r)) (set_polls (S (polls w)) w).
Proof.
  intros Ea Hx Hctx. unfold call. rewrite Ea. unfold stop, poll, mbind, M_bind, getR, modR, mret, M_ret.
  cbn [exit set_totalCount]. rewrite Hx, Hctx. unfold countCall, counted.
  by destruct (isAllowed cfg name), (registry cfg name).
Qed.

(** C10. A refused command: whatever its arguments, assignments and
    redirections are ([setup]), none of them is expanded or opened and no
    handler runs; the status is that of the first gate that refuses (2, 127,
    126 or 1), nothing is dispatched, the only events are writes of the
    diagnostics, and no variable changes. *)
Theorem refused_call args setup r w code :
  refusal (inPipelineStage r) args = Some code -> args <> [] ->
  exiting (exit r) = false -> ctxErr O (polls w) = None -> writable w (r_stderr r) ->
  exists r' w', call O X cfg spawnDepth args setup r w = Done tt r' w'
    /\ x_code (exit r') = code /\ dispatchedCount r' = dispatchedCount r
    /\ grows isWrite w w' /\ vars w' = vars w.
Proof.
  intros Hr Hargs Hx Hctx Hw. destruct (if isSudo args then tail args else args) as [|name rest] eqn:Ea.
  - unfold refusal in Hr.  rewrite Ea in Hr. injection Hr as <-.
    unfold call. rewrite Ea. destruct (isSudo args); [|done].
    destruct (deny_done (lit "rshell: sudo: command is required" ++ [ch_nl]) 2 r w Hw) as [r' [w' [? [? [? []]]]]].
    by exists r', w'.
  - rewrite (call_counted _ _ _ _ _ _ Ea Hx Hctx).
    set (r1 := counted name _).
    assert (r_stderr r1 = r_stderr r /\ dispatchedCount r1 = dispatchedCount r
            /\ inPipelineStage r1 = inPipelineStage r) as [Es [Ed Ep]].
    { unfold r1, counted. by destruct (isAllowed cfg name), (registry cfg name). }
    destruct (gatedCall_refused args name rest setup r1 (set_polls (S (polls w)) w) code)
      as [r' [w' [E [? [? []]]]]]; [done|by rewrite Ep|by rewrite Es|].
    exists r', w'. split_and!; try done. by rewrite <- Ed.
Qed.

End Policy.
End InterpExecSpec.
