(* ===== verification/InterpOutput.v ===== *)
(** * How much a run writes and captures

    The bounded writers of a run as an invariant of the world: what the
    writer of stdout has passed on, and how long the buffers of the command
    substitutions are. *)

From S2P Require Import Prelude InterpSyntax InterpVars InterpState InterpExpand InterpCall InterpExec InterpLogic InterpQuiet InterpExecLogic InterpExecSpec.
From stdpp Require Import base list gmap sets strings.
From Stdlib Require Import ZArith Lia Ascii.

Module InterpOutput.
Import InterpSyntax InterpVars InterpState InterpExpand InterpCall InterpExec
  InterpLogic InterpQuiet InterpExecLogic InterpExecSpec.

(** ** What the writer of stdout is given and takes *)

Section Taken.
Context (O : oracles).

(** The bytes a write to the stdout of the embedding program offers it. *)
Definition offered (e : event) : Z :=
  match e with EWrite (OutHost false) p => Z.of_nat (length p) | _ => 0 end.

(** Those it takes, in a write it reports no error of: the answer to a write
    depends on the history before it. *)
Definition taken (past : list event) (e : event) : Z :=
  match e with
  | EWrite (OutHost false) p =>
      match answerWrite O past with (n, None) => Z.of_nat (n `min` length p) | (_, Some _) => 0 end
  | _ => 0
  end.

Fixpoint takenAll (past es : list event) : Z :=
  match es with
  | [] => 0
  | e :: es => taken past e + takenAll (past ++ [e]) es
  end.

Definition stdoutBytes (es : list event) : Z := foldr (fun e n => offered e + n)%Z 0%Z es.

(** Every write to stdout fits in what the bytes taken before it leave of the
    limit. *)
Definition offersWithin (limit : Z) (past es : list event) : Prop := forall es1 e es2,
  es = es1 ++ e :: es2 -> (offered e <> 0 -> takenAll past es1 + offered e <= limit)%Z.

(** No write to stdout failed or was cut short. *)
Definition stdoutNeverFails (past es : list event) : Prop := forall es1 e es2,
  es = es1 ++ e :: es2 -> taken (past ++ es1) e = offered e.

Lemma taken_bounds past e : (0 <= taken past e <= offered e)%Z.
Proof.
  destruct e; cbn; try lia. destruct h as [|[]| | |]; try lia.
  destruct (answerWrite O past) as [n []]; lia.
Qed.

Lemma takenAll_app past es es' :
  takenAll past (es ++ es') = (takenAll past es + takenAll (past ++ es) es')%Z.
Proof.
  revert past. induction es as [|e es IH]; intros past; [by rewrite app_nil_r|].
  cbn [takenAll app]. rewrite IH, <- app_assoc. cbn [app]. apply Z.add_assoc.
Qed.

Lemma takenAll_one past e : takenAll past [e] = taken past e.
Proof. cbn [takenAll]. apply Z.add_0_r. Qed.

Lemma takenAll_complete past es : stdoutNeverFails past es -> takenAll past es = stdoutBytes es.
Proof.
  revert past. induction es as [|e es IH]; intros past H; [done|].
  cbn [takenAll]. change (stdoutBytes (e :: es)) with (offered e + stdoutBytes es)%Z. f_equal.
  - rewrite <- (app_nil_r past) at 1. by apply (H [] e es).
  - apply IH. intros es1 e' es2 ->. rewrite <- app_assoc. by apply (H (e :: es1) e' es2).
Qed.

Lemma offersWithin_snoc limit past es e : offersWithin limit past es ->
  (offered e <> 0 -> takenAll past es + offered e <= limit)%Z -> offersWithin limit past (es ++ [e]).
Proof.
  intros H He es1 e' es2 E. destruct es2 as [|x es2 _] using rev_ind.
  - by apply app_inj_tail in E as [-> ->].
  - rewrite app_comm_cons, app_assoc in E. apply app_inj_tail in E as [-> _]. by apply (H es1 e' es2).
Qed.
End Taken.

Section Output.
Context {SX : Syntax} (O : oracles) (X : expander) (cfg : runnerConfig) (turns : nat) (spawnDepth : bytes -> list bytes -> nat).

(** The state of a bounded writer: within its limit, a buffer no longer than
    what was let through. *)
Definition writerOK (lw : limitWriter) : Prop :=
  (0 <= lw_n lw <= lw_limit lw)%Z /\
  match lw_w lw with SBuf b => Z.of_nat (length b) = lw_n lw | SHost _ => True end.

(** The writer [id] is the only one over stdout, and has counted at least what
    stdout has taken since the history was [h0]. *)
Record outputInv (id : Z) (h0 : list event) (w : world) : Prop := {
  oi_id : (0 <= id < nextWriter w)%Z;
  oi_ok : forall i lw, writers w !! i = Some lw -> writerOK lw /\ (Z.of_nat i < nextWriter w)%Z;
  oi_only : forall i lw, writers w !! i = Some lw -> lw_w lw = SHost false -> i = Z.to_nat id;
  oi_count : exists lw es, writers w !! Z.to_nat id = Some lw /\ lw_w lw = SHost false /\
    lw_limit lw = maxStdoutBytes /\ hist w = h0 ++ es /\
    (takenAll O h0 es <= lw_n lw)%Z /\ offersWithin O maxStdoutBytes h0 es }.

Definition keepsOutput (id : Z) (h0 : list event) (w w' : world) : Prop := outputInv id h0 w -> outputInv id h0 w'.

#[export] Instance keepsOutput_preorder id h0 : PreOrder (keepsOutput id h0).
Proof. split; [by intros ??|intros w1 w2 w3 H1 H2 H; by apply H2, H1]. Qed.

Lemma output_same id h0 w w' :
  hist w' = hist w -> writers w' = writers w -> nextWriter w' = nextWriter w -> keepsOutput id h0 w w'.
Proof. intros E1 E2 E3 [H1 H2 H3 H4]. split; rewrite ?E1, ?E2, ?E3; auto. Qed.

(** Another event adds nothing to stdout. *)
Lemma output_emit id h0 e w : match e with EWrite h _ => h <> OutHost false | _ => True end ->
  keepsOutput id h0 w (set_hist (hist w ++ [e]) w).
Proof.
  intros He [H1 H2 H3 [lw [es [E [K [L [Eh [Ht Ho]]]]]]]].
  assert (E0 : offered e = 0%Z) by (destruct e as [| | | | | |[|[]| | |] ?| | | | |]; done).
  split; [done|done|done|]. exists lw, (es ++ [e]). split_and!; try done.
  - cbn [hist set_hist]. rewrite Eh. symmetry. apply app_assoc.
  - rewrite takenAll_app, takenAll_one. pose proof (taken_bounds O (h0 ++ es) e). lia.
  - by apply offersWithin_snoc.
Qed.

(** Replacing a buffer by a buffer. *)
Lemma output_putBuf id h0 i lw lw' b b' w w' :
  writers w' = <[i := lw']> (writers w) -> hist w' = hist w -> nextWriter w' = nextWriter w ->
  writers w !! i = Some lw -> writerOK lw' -> lw_w lw = SBuf b -> lw_w lw' = SBuf b' -> keepsOutput id h0 w w'.
Proof.
  intros Ew Eh En Hi Hok Hk Hk' [H1 H2 H3 [lw0 [es [E [K R]]]]].
  split; rewrite ?Ew, ?Eh, ?En; [done| | |].
  - intros j lwj [[<- <-]|[_ ?]]%lookup_insert_Some; [split; [done|by eapply H2]|by apply H2].
  - intros j lwj [[<- <-]|[_ ?]]%lookup_insert_Some; [congruence|by apply H3].
  - exists lw0, es. rewrite lookup_insert_ne; [done|]. intros ->. congruence.
Qed.

(** Replacing a writer over the host by one over the same stream, after at most
    one write of what was left: what was taken has been counted. *)
Lemma output_putHost id h0 i lw lw' s w w' es' :
  writers w' = <[i := lw']> (writers w) -> hist w' = hist w ++ es' -> nextWriter w' = nextWriter w ->
  writers w !! i = Some lw -> lw_w lw = SHost s -> lw_w lw' = SHost s -> lw_limit lw' = lw_limit lw ->
  (lw_n lw + takenAll O (hist w) es' <= lw_n lw' <= lw_limit lw)%Z ->
  es' = [] \/ (exists p, es' = [EWrite (OutHost s) p] /\ lw_n lw + Z.of_nat (length p) <= lw_limit lw)%Z ->
  keepsOutput id h0 w w'.
Proof.
  intros Ew Eh En Hi Hk Hk' Hl Hn Hes [H1 H2 H3 [lw0 [es [E [K [L [E0 [Ht Ho]]]]]]]].
  assert (Hpos : (0 <= takenAll O (hist w) es')%Z).
  { destruct Hes as [->|[p [-> _]]]; [done|]. rewrite takenAll_one. apply taken_bounds. }
  assert (Hstep : offersWithin O maxStdoutBytes h0 (es ++ es')).
  { destruct Hes as [->|[p [-> Hp]]]; [by rewrite app_nil_r|]. apply offersWithin_snoc; [done|].
    destruct s; [done|]. cbn [offered]. intros _.
    pose proof (H3 _ _ Hi Hk) as ->. rewrite E in Hi. injection Hi as ->. lia. }
  split; rewrite ?Ew, ?Eh, ?En; [done| | |].
  - destruct (H2 _ _ Hi) as [[? _] ?]. intros j lwj [[<- <-]|[_ ?]]%lookup_insert_Some; [|by apply H2].
    unfold writerOK. rewrite Hk', Hl. split_and!; [lia|lia|done|done].
  - intros j lwj [[<- <-]|[_ ?]]%lookup_insert_Some; [intros ?; apply (H3 _ _ Hi); congruence|by apply H3].
  - destruct (decide (i = Z.to_nat id)) as [->|Hne].
    + rewrite E in Hi. injection Hi as ->. exists lw', (es ++ es'). rewrite lookup_insert_eq, E0, takenAll_app.
      rewrite E0 in Hn. split_and!; try congruence; [by rewrite app_assoc|lia|done].
    + exists lw0, (es ++ es'). rewrite lookup_insert_ne, E0, takenAll_app by done.
      split_and!; try done; [by rewrite app_assoc|].
      enough (takenAll O (h0 ++ es) es' = 0)%Z by lia.
      destruct Hes as [->|[p [-> _]]]; [done|]. rewrite takenAll_one.
      destruct s; [done|]. destruct Hne. by eapply H3.
Qed.

(** A write to what a writer wraps. *)
Lemma sinkWrite_done id lw p (r : Runner) w :
  sinkWrite O id lw p r w =
  match lw_w lw with
  | SBuf b => Done (mkLimit (SBuf (b ++ p)) (lw_limit lw) (lw_n lw) (lw_exceeded lw), Z.of_nat (length p), None) r w
  | SHost s => Done (lw, Z.of_nat (fst (answerWrite O (hist w)) `min` length p), snd (answerWrite O (hist w))) r
                 (set_hist (hist w ++ [EWrite (OutHost s) p]) w)
  end.
Proof.
  unfold sinkWrite. destruct (lw_w lw); [done|].
  unfold hostWrite, emit, modW, getW, mbind, M_bind, mret, M_ret. by destruct (answerWrite O (hist w)).
Qed.

Lemma taken_stdout past s p : (takenAll O past [EWrite (OutHost s) p] <=
  match answerWrite O past with (n, None) => Z.of_nat (n `min` length p) | (_, Some _) => 0 end)%Z.
Proof. rewrite takenAll_one. destruct s; cbn; [|done]. destruct (answerWrite O past) as [n []]; lia. Qed.

Lemma output_limitWrite id h0 i p (r : Runner) w :
  match limitWrite O i p r w with
  | Done _ r' w' | Panicked _ r' w' => keepsOutput id h0 w w' /\ r' = r
  | NoFuel => False
  end.
Proof.
  pose proof (grows_limitWrite O (fun _ => True) i p r w ltac:(done)) as Hr.
  enough (outputInv id h0 w -> match limitWrite O i p r w with
    | Done _ _ w' | Panicked _ _ w' => outputInv id h0 w' | NoFuel => False end) as H.
  { destruct (limitWrite O i p r w); [| |done]; by destruct Hr. }
  clear Hr. intros Hinv. unfold limitWrite, putWriter, modW, getW, mbind, M_bind, mret, M_ret, panic.
  destruct (writers w !! Z.to_nat i) as [lw|] eqn:Ei; [|done].
  destruct (oi_ok _ _ _ Hinv _ _ Ei) as [[Hn Hk] _].
  destruct (Z.leb_spec (lw_limit lw) (lw_n lw)) as [Hfull|Hroom].
  { destruct (lw_w lw) as [b|s] eqn:Ek.
    - eapply (output_putBuf _ _ _ lw (mkLimit (SBuf b) (lw_limit lw) (lw_n lw) true) b b w); try done.
    - eapply (output_putHost _ _ _ lw (mkLimit (SHost s) (lw_limit lw) (lw_n lw) true) s w _ []); try done;
        [symmetry; apply app_nil_r|cbn; lia|by left]. }
  destruct (Z.ltb_spec (lw_limit lw - lw_n lw) (Z.of_nat (length p))) as [Hcross|Hfits].
  - rewrite sinkWrite_done. set (q := take (Z.to_nat (lw_limit lw - lw_n lw)) p).
    assert (Hlen : Z.of_nat (length q) = (lw_limit lw - lw_n lw)%Z) by (unfold q; rewrite length_take; lia).
    destruct (lw_w lw) as [b|s] eqn:Ek; cbn [lw_w].
    + eapply (output_putBuf _ _ _ lw _ b _ w); try reflexivity; try done. split; cbn; [lia|]. rewrite length_app. lia.
    + pose proof (taken_stdout (hist w) s q) as Ht. destruct (answerWrite O (hist w)) as [n [err|]] eqn:Ea; cbn [fst snd].
      * eapply (output_putHost _ _ _ lw lw s w _ [_]); try reflexivity; try done; [lia|].
        right. exists q. split; [done|lia].
      * eapply (output_putHost _ _ _ lw _ s w _ [_]); try reflexivity; try done; [cbn [lw_n]; lia|].
        right. exists q. split; [done|lia].
  - rewrite sinkWrite_done. destruct (lw_w lw) as [b|s] eqn:Ek; cbn [lw_w].
    + eapply (output_putBuf _ _ _ lw _ b _ w); try reflexivity; try done. split; cbn; [lia|]. rewrite length_app. lia.
    + pose proof (taken_stdout (hist w) s p) as Ht.
      destruct (answerWrite O (hist w)) as [n err] eqn:Ea; cbn [fst snd].
      eapply (output_putHost _ _ _ lw _ s w _ [_]); try reflexivity; try done; [cbn [lw_n]; destruct err; lia|].
      right. exists p. split; [done|lia].
Qed.

Lemma output_newWriter id h0 k limit w :
  writerOK (mkLimit k limit 0 false) -> k <> SHost false ->
  keepsOutput id h0 w
    (set_writers (<[Z.to_nat (nextWriter w) := mkLimit k limit 0 false]> (writers w)) (set_nextWriter (nextWriter w + 1) w)).
Proof.
  intros Hok Hk [H1 H2 H3 [lw0 [es [E0 R0]]]]. split; cbn; [lia| | |].
  - intros i lw [[<- <-]|[_ ?]]%lookup_insert_Some; [split; [done|lia]|].
    destruct (H2 i lw); [done|]. split; [done|lia].
  - by intros i lw [[<- <-]|[_ ?]]%lookup_insert_Some; [intros ?|apply H3].
  - exists lw0, es. rewrite lookup_insert_ne by lia. done.
Qed.

#[export] Instance output_order id h0 : WorldOrder O cfg (keepsOutput id h0).
Proof.
  split; [apply _| | | |].
  - intros w w' Eh Ew En _. by apply output_same.
  - intros e w [_ He]. apply output_emit. destruct e; try done. by destruct h.
  - intros i p r w. apply output_limitWrite.
  - intros r w. cbn. split_and!; try done. by apply (output_newWriter id h0 (SBuf []) maxCmdSubstOutput w).
Qed.

(** A world nothing has been run in yet. *)
Definition freshWorld (w : world) : Prop := writers w = ∅ /\ nextWriter w = 0%Z.

Lemma first_writer w : freshWorld w ->
  outputInv 0 (hist w)
    (set_writers (<[0 := mkLimit (SHost false) maxStdoutBytes 0 false]> (writers w)) (set_nextWriter 1 w)).
Proof.
  intros [E1 E2]. split; cbn; rewrite ?E1; [lia| | |].
  - intros i lw [[<- <-]|[_ ?]]%lookup_insert_Some; [|done]. by split_and!.
  - by intros i lw [[<- <-]|[_ ?]]%lookup_insert_Some ?.
  - eexists _, []. split; [apply lookup_insert_eq|]. split_and!; try done; [by rewrite app_nil_r|].
    intros [|? ?]; intros; discriminate.
Qed.

(** What has been given to stdout since the history was [h0]. *)
Definition stdoutBounded (h0 h : list event) : Prop := exists es, h = h0 ++ es /\
  offersWithin O maxStdoutBytes h0 es /\ (takenAll O h0 es <= maxStdoutBytes)%Z /\
  (stdoutNeverFails O h0 es -> stdoutBytes es <= maxStdoutBytes)%Z.

Lemma output_end id h0 w : outputInv id h0 w -> stdoutBounded h0 (hist w).
Proof.
  intros [H1 H2 H3 [lw [es [E [K [L [Eh [Ht Ho]]]]]]]]. destruct (H2 _ _ E) as [[[_ ?] _] _].
  exists es. split_and!; try done; [lia|]. intros Hf. rewrite <- (takenAll_complete O h0 es Hf). lia.
Qed.

(** C11. However much a script prints, and whatever the writer of its stdout
    answers, one run keeps that writer within [maxStdoutBytes] (10 MiB): each
    chunk it is given fits in what the bytes taken by its earlier successful
    writes leave of the limit, so these are at most the limit, and a writer
    that never fails is given at most the limit in all.  This is over all the
    commands, subshells, pipelines, substitutions and redirections of the
    script, and also when it panics.  The run starts fresh, and its stderr is
    not its stdout.  (Bytes a writer took in a write it reports as failed are
    not all counted.) *)
Theorem run_stdout_bounded node r w :
  freshWorld w -> r_stderr r <> OutHost false -> (forall id, r_stderr r <> OutLimit id) ->
  match Run O X cfg turns spawnDepth node r w with
  | Done _ _ w' | Panicked _ _ w' => stdoutBounded (hist w) (hist w')
  | NoFuel => True
  end.
Proof.
  intros Hw Herr Hlim.
  pose proof (w_Run_tail (W := keepsOutput 0 (hist w)) (O := O) (X := X) (cfg := cfg)
    (turns := turns) (spawnDepth := spawnDepth) node r w) as H.
  pose proof (first_writer w Hw) as H1.
  assert (Hpanic : forall p r' w', match write O (r_stderr r) p r' w' with
     | Done _ _ w'' | Panicked _ _ w'' => keepsOutput 0 (hist w) w' w'' | NoFuel => True end).
  { intros p r' w'. destruct (r_stderr r) as [|[]| | |] eqn:E; try done.
    - by intros H'.
    - by apply output_emit.
    - by apply output_emit.
    - by apply output_emit.
    - by destruct (Hlim id). }
  destruct Hw as [Hw1 Hw2].
  assert (Hhost : forall r1 w1, match newLimitWriter (SHost true) maxStderrBytes r1 w1 with
    | Done h r' w' => keepsOutput 0 (hist w) w1 w' /\ r' = r1 /\ cleanHandle h | _ => False end).
  { intros r1 w1. cbn. split_and!; try done. by apply (output_newWriter 0 (hist w) (SHost true) maxStderrBytes w1). }
  specialize (H ltac:(by intros; apply output_same) Hhost Hpanic).
  unfold newLimitWriter, putWriter, modW, getW, mbind, M_bind, mret, M_ret in H. rewrite Hw2 in H.
  destruct (Run _ _ _ _ _ _ _ _); [| |done]; exact (output_end _ _ _ (H H1)).
Qed.

(** A chunk that crosses the limit and whose write fails is not counted at all,
    whatever part of it the writer took: the next write is let through again. *)
Lemma failed_crossing_uncounted id p lw s err (r : Runner) w :
  writers w !! Z.to_nat id = Some lw -> lw_w lw = SHost s -> (lw_n lw < lw_limit lw)%Z ->
  (lw_limit lw - lw_n lw < Z.of_nat (length p))%Z -> snd (answerWrite O (hist w)) = Some err ->
  exists w', limitWrite O id p r w = Done ((lw_limit lw - lw_n lw)%Z, Some err) r w'
    /\ writers w' !! Z.to_nat id = Some lw
    /\ hist w' = hist w ++ [EWrite (OutHost s) (take (Z.to_nat (lw_limit lw - lw_n lw)) p)].
Proof.
  intros Ei Ek Hn Hp Ea. unfold limitWrite, putWriter, modW, getW, mbind, M_bind, mret, M_ret. rewrite Ei.
  destruct (Z.leb_spec (lw_limit lw) (lw_n lw)); [lia|].
  destruct (Z.ltb_spec (lw_limit lw - lw_n lw) (Z.of_nat (length p))); [|lia].
  rewrite sinkWrite_done, Ek, Ea. eexists. split; [reflexivity|]. by split; [apply lookup_insert_eq|].
Qed.

End Output.
End InterpOutput.
