(* ===== verification/InterpReturns.v ===== *)
(** * Runs return

    [returns] says that a computation ends or panics, never running out of
    fuel, and that no poll of the context is taken back.  One lemma per
    operation of the interpreter, collected in the database [returns]; then the
    loops, whose turns are bounded by the polls left before the context is
    cancelled, and the statements, whose fuel is the size of the tree. *)

From S2P Require Import Prelude GoStd Filepath InterpSyntax InterpValidate InterpVars InterpState InterpExpand InterpRedir InterpCall InterpExec.
From stdpp Require Import base list gmap sets strings.
From Stdlib Require Import ZArith Lia Ascii.

Module InterpReturns.
Import InterpSyntax InterpValidate InterpVars InterpState InterpExpand InterpRedir InterpCall InterpExec.

Create HintDb returns discriminated.

(** ** The judgement and its rules *)

Section Rules.
Context {SX : Syntax} {O : oracles}.

Definition returns {A} (m : M A) : Prop := forall r w,
  match m r w with
  | Done _ _ w' | Panicked _ _ w' => polls w <= polls w'
  | NoFuel => False
  end.

Lemma rt_ret {A} (a : A) : returns (mret a).
Proof. intros r w. exact (le_n _). Qed.

Lemma rt_panic {A} msg : returns (A := A) (panic msg).
Proof. intros r w. exact (le_n _). Qed.

(** A bind that remembers something of the value. *)
Lemma rt_bind_val {A B} (Q : A -> Prop) (m : M A) (f : A -> M B) : returns m ->
  (forall r w, match m r w with Done a _ _ => Q a | _ => True end) ->
  (forall a, Q a -> returns (f a)) -> returns (m ≫= f).
Proof.
  intros Hm HQ Hf r w. unfold mbind, M_bind. specialize (Hm r w). specialize (HQ r w).
  destruct (m r w) as [a r1 w1|msg r1 w1|]; [|done|done].
  specialize (Hf a HQ r1 w1). destruct (f a r1 w1); [lia|lia|done].
Qed.

Lemma rt_bind {A B} (m : M A) (f : A -> M B) : returns m -> (forall a, returns (f a)) -> returns (m ≫= f).
Proof.
  intros Hm Hf. apply (rt_bind_val (fun _ => True)); [done| |auto].
  intros r w. by destruct (m r w).
Qed.

Lemma rt_getR : returns getR.
Proof. intros r w. exact (le_n _). Qed.

Lemma rt_getW : returns getW.
Proof. intros r w. exact (le_n _). Qed.

Lemma rt_modR f : returns (modR f).
Proof. intros r w. exact (le_n _). Qed.

Lemma rt_modW f : (forall w, polls w <= polls (f w)) -> returns (modW f).
Proof. intros Hf r w. apply Hf. Qed.

Lemma rt_emit e : returns (emit e).
Proof. by apply rt_modW. Qed.

Lemma rt_modExit f : returns (modExit f).
Proof. apply rt_modR. Qed.

Lemma rt_poll : returns (poll O).
Proof. intros r w. cbn. lia. Qed.

Lemma rt_finally {A} (m : M A) f : returns m -> returns f -> returns (finally m f).
Proof.
  intros Hm Hf r w. unfold finally. specialize (Hm r w).
  destruct (m r w) as [a r1 w1|msg r1 w1|]; [| |done];
    (specialize (Hf r1 w1); destruct (f r1 w1); [lia|lia|done]).
Qed.

Lemma rt_catch {A} p (m h : M A) : returns m -> returns h -> returns (catch p m h).
Proof.
  intros Hm Hh r w. unfold catch. specialize (Hm r w).
  destruct (m r w) as [a r1 w1|msg r1 w1|]; [done| |done]. destruct (p msg); [|done].
  specialize (Hh r1 w1). destruct (h r1 w1); [lia|lia|done].
Qed.

Lemma rt_onRunner {A} r2 (m : M A) : returns m -> returns (onRunner r2 m).
Proof. intros Hm r w. unfold onRunner. specialize (Hm r2 w). by destruct (m r2 w). Qed.

Lemma rt_recoverOn r2 m h : returns m -> returns h -> returns (recoverOn r2 m h).
Proof.
  intros Hm Hh r w. unfold recoverOn. specialize (Hm r2 w).
  destruct (m r2 w) as [a r1 w1|msg r1 w1|]; [done| |done].
  specialize (Hh r1 w1). destruct (h r1 w1); [lia|lia|done].
Qed.

Lemma rt_when b m : returns m -> returns (when b m).
Proof. intros Hm. destruct b; [done|apply rt_ret]. Qed.
End Rules.

#[export] Hint Resolve rt_ret rt_panic rt_getR rt_getW rt_modR rt_emit rt_modExit rt_poll : returns.

(** The steps of a proof of [returns]: the rules, then a case analysis of what
    the code analyses. *)
Ltac returns_step :=
  lazymatch goal with
  | |- forall _, _ => intros ?
  | |- returns (_ ≫= _) => apply rt_bind
  | |- returns (finally _ _) => apply rt_finally
  | |- returns (catch _ _ _) => apply rt_catch
  | |- returns (onRunner _ _) => apply rt_onRunner
  | |- returns (recoverOn _ _ _) => apply rt_recoverOn
  | |- returns (when _ _) => apply rt_when
  | |- returns (modW _) => apply rt_modW; intros ?; reflexivity
  | |- returns (if ?b then _ else _) => destruct b
  | |- returns (match ?x with _ => _ end) => destruct x eqn:?
  | |- returns (let (_, _) := ?x in _) => destruct x
  end.

Ltac returning := repeat first [solve [eauto 3 with returns nocore] | returns_step].

(** ** Small nodes *)

Section Small.
Context {SX : Syntax}.

Lemma size_pos n : 0 < size n.
Proof. pose proof (children_size n). lia. Qed.

(** What a view exposes is smaller. *)
Lemma exposed_smaller n v : view n = v -> Forall (fun c => size c < size n) (exposes v).
Proof. intros <-. apply Forall_forall. intros c Hc. by apply child_smaller, exposed_child. Qed.

Lemma Parts_smaller w : Forall (fun c => size c < size w) (Parts w).
Proof.
  unfold Parts. destruct (view w) eqn:E; try constructor. exact (exposed_smaller _ _ E).
Qed.

Lemma below_size n m : below n m -> size m <= size n.
Proof. induction 1 as [|? ? ? Hc%child_smaller]; lia. Qed.

Definition small (B : nat) (ns : list Node) : Prop := Forall (fun n => size n < B) ns.

Lemma small_exposes B n v : view n = v -> size n <= B -> small B (exposes v).
Proof. intros E Hn. eapply Forall_impl; [by apply exposed_smaller|]. cbn. lia. Qed.

Lemma small_Parts B w : size w <= B -> small B (Parts w).
Proof. intros Hw. eapply Forall_impl; [apply Parts_smaller|]. cbn. lia. Qed.

Lemma small_app B l k : small B (l ++ k) <-> small B l /\ small B k.
Proof. unfold small. by rewrite Forall_app. Qed.

Lemma small_cons B n l : small B (n :: l) <-> size n < B /\ small B l.
Proof. unfold small. by rewrite Forall_cons. Qed.

Definition smallParts (B : nat) (ps : list part) : Prop := Forall (fun p => psize p < B) ps.

Lemma small_Old B ns : small B ns -> smallParts B (Old <$> ns).
Proof. intros H. by apply Forall_fmap. Qed.
End Small.

(** What a view of a node bounded by [B] exposes. *)
Ltac exposed E Hn :=
  let H := fresh "Hx" in
  pose proof (small_exposes _ _ _ E Hn) as H; cbn in H;
  rewrite ?small_app, ?small_cons in H; destruct_and? H.

(** ** Streams and variables *)

Section Base.
Context {SX : Syntax} {O : oracles} {X : expander}.

Lemma rt_hostWrite h p : returns (hostWrite O h p).
Proof. unfold hostWrite. returning. Qed.
#[local] Hint Resolve rt_hostWrite : returns.

Lemma rt_limitWrite id p : returns (limitWrite O id p).
Proof. unfold limitWrite, sinkWrite, putWriter. returning. Qed.
#[local] Hint Resolve rt_limitWrite : returns.

Lemma rt_write h p : returns (write O h p).
Proof. destruct h; unfold write; returning. Qed.
#[local] Hint Resolve rt_write : returns.

Lemma rt_errf msg : returns (errf O msg).
Proof. unfold errf. returning. Qed.
#[local] Hint Resolve rt_errf : returns.

Lemma rt_stop : returns (stop O).
Proof. unfold stop. returning. Qed.

Lemma rt_newLimitWriter s n : returns (newLimitWriter s n).
Proof. unfold newLimitWriter, putWriter. returning. Qed.

Lemma rt_captured h : returns (captured h).
Proof. unfold captured. returning. Qed.

Lemma rt_sandboxOpen box path mode redirect : returns (sandboxOpen O box path mode redirect).
Proof. unfold sandboxOpen. returning. Qed.
#[local] Hint Resolve rt_sandboxOpen : returns.

Lemma rt_open box path mode redirect print : returns (open O box path mode redirect print).
Proof. unfold open. returning. Qed.

Lemma rt_internalErrorf msg : returns (internalErrorf msg).
Proof. unfold internalErrorf. returning. Qed.
#[local] Hint Resolve rt_internalErrorf : returns.

Lemma rt_lookupVar name : returns (lookupVar X name).
Proof. unfold lookupVar. returning. Qed.

Lemma rt_setVarErr name vr : returns (setVarErr X name vr).
Proof. unfold setVarErr. returning. Qed.
#[local] Hint Resolve rt_setVarErr : returns.

Lemma rt_setVar name vr : returns (setVar O X name vr).
Proof. unfold setVar. returning. Qed.

Lemma rt_setVarRestore name vr : returns (setVarRestore X name vr).
Proof. unfold setVarRestore. returning. Qed.

Lemma rt_expandErr e : returns (expandErr O e).
Proof. unfold expandErr. returning. Qed.

Lemma rt_charge n : returns (chargeExpansionBytes O n).
Proof. unfold chargeExpansionBytes. returning. Qed.

Lemma rt_releaseVarStorage o : returns (releaseVarStorage o).
Proof. unfold releaseVarStorage. returning. Qed.

Lemma rt_subshell background : returns (subshell X background).
Proof. unfold subshell. returning. Qed.

Lemma rt_setSubstExit e : returns (setSubstExit e).
Proof. unfold setSubstExit. returning. Qed.

Lemma rt_newPipe : returns (newPipe O).
Proof. unfold newPipe. returning. Qed.
End Base.

#[export] Hint Resolve rt_write rt_errf rt_stop rt_newLimitWriter rt_captured rt_sandboxOpen rt_open rt_internalErrorf rt_lookupVar
  rt_setVarErr rt_setVar rt_setVarRestore rt_expandErr rt_charge rt_releaseVarStorage rt_subshell rt_setSubstExit
  rt_newPipe : returns.

(** ** The bounds on a word *)

Section Sizes.
Context {SX : Syntax} {O : oracles} {X : expander}.

Lemma rt_elemSizes B rec es size : (forall ns, small B ns -> returns (rec ns)) -> small B es ->
  returns (elemSizes rec es size).
Proof.
  intros Hr. revert size. induction es as [|e es IH]; intros sz Hes; cbn; [returning|].
  apply small_cons in Hes as [He Hes].
  apply rt_bind; [apply Hr, small_Parts; lia|]. intros [err|elem]; [returning|by apply IH].
Qed.

Lemma rt_partSize B rec p : (0 < B -> forall ns, small B ns -> returns (rec ns)) -> psize p <= B ->
  returns (partSize X rec p).
Proof.
  intros Hr Hp. unfold partSize.
  destruct p as [n|v]; [|unfold pview; returning]. cbn [pview psize] in *.
  pose proof (size_pos n). specialize (Hr ltac:(lia)).
  destruct (view n) eqn:E; try returning; exposed E Hp; [by apply Hr|by eapply rt_elemSizes].
Qed.

Lemma rt_partSizes B rec ps total : (0 < B -> forall ns, small B ns -> returns (rec ns)) ->
  smallParts (S B) ps -> returns (partSizes X rec ps total).
Proof.
  intros Hr Hps. revert total. induction Hps as [|p ps Hp Hps IH]; intros total; cbn; [returning|].
  apply rt_bind; [apply (rt_partSize B); [exact Hr|]; by apply Nat.lt_succ_r|].
  intros [err|size]; [returning|apply IH].
Qed.

Lemma rt_sizeFuel fuel ps : smallParts (S fuel) ps -> returns (sizeFuel X (S fuel) ps).
Proof.
  revert ps. induction fuel as [|fuel IH]; intros ps Hps; (eapply rt_partSizes; [|exact Hps]); intros HB ns Hns.
  - lia.
  - by apply IH, small_Old.
Qed.

Lemma partsFuel_small ps : smallParts (partsFuel ps) ps.
Proof.
  apply Forall_forall. intros p Hp. by apply Nat.lt_succ_r, list_max_map_in.
Qed.

Lemma rt_checkSize ps limit msg : returns (checkWordExpansionSize X ps limit msg).
Proof.
  unfold checkWordExpansionSize, wordPartsExpansionSize.
  apply rt_bind; [apply rt_sizeFuel, partsFuel_small|returning].
Qed.

Lemma rt_fieldSplitIFS : returns (fieldSplitIFS X).
Proof. unfold fieldSplitIFS. returning. Qed.

Lemma rt_elemSources B rec es opn largest allOpen ss :
  (forall ns b ss, small B ns -> returns (rec ns b ss)) -> small B es ->
  returns (elemSources rec es opn largest allOpen ss).
Proof.
  intros Hr. revert largest allOpen ss. induction es as [|e es IH]; intros * Hes; cbn; [returning|].
  apply small_cons in Hes as [He Hes].
  apply rt_bind; [apply Hr, small_Parts; lia|]. intros [[n elemOpen] ss']. by apply IH.
Qed.

Lemma rt_partSources B rec ifs p opn ss :
  (0 < B -> forall ns b ss, small B ns -> returns (rec ns b ss)) -> size p <= B ->
  returns (partSources X rec ifs p opn ss).
Proof.
  intros Hr Hp. pose proof (size_pos p). specialize (Hr ltac:(lia)). unfold partSources.
  destruct (view p) eqn:E; returning. exposed E Hp. by eapply rt_elemSources.
Qed.

Lemma rt_sourcesLoop B rec ifs braced ps n opn after ss :
  (0 < B -> forall ns b ss, small B ns -> returns (rec ns b ss)) -> small (S B) ps ->
  returns (sourcesLoop X rec ifs braced ps n opn after ss).
Proof.
  intros Hr Hps. revert n opn after ss. induction Hps as [|p ps Hp Hps IH]; intros; cbn; [returning|].
  apply (proj1 (Nat.lt_succ_r _ _)) in Hp. pose proof (fun opn ss => rt_partSources B rec ifs p opn ss Hr Hp).
  destruct (view p); first [apply IH | apply rt_bind; [done|]; intros [[[? ?] ?] ?]; returning].
Qed.

Lemma rt_sourcesFuel ifs fuel braced ps opn ss : small (S fuel) ps ->
  returns (sourcesFuel X ifs (S fuel) braced ps opn ss).
Proof.
  revert braced ps opn ss. induction fuel as [|fuel IH]; intros * Hps; (eapply rt_sourcesLoop; [|exact Hps]); intros HB ns * Hns.
  - lia.
  - by apply IH.
Qed.

Lemma heightFuel_small ps : small (heightFuel ps) ps.
Proof.
  apply Forall_forall. intros p Hp. by apply Nat.lt_succ_r, list_max_map_in.
Qed.

Lemma rt_wordFieldSources ps ifs : returns (wordFieldSources X ps ifs).
Proof.
  unfold wordFieldSources. apply rt_bind; [apply rt_sourcesFuel, heightFuel_small|returning].
Qed.

Lemma rt_chargeSplit cs out : returns (chargeSplitSubstOutput X cs out).
Proof. unfold chargeSplitSubstOutput. pose proof rt_fieldSplitIFS. returning. Qed.
End Sizes.

#[export] Hint Resolve rt_checkSize rt_fieldSplitIFS rt_wordFieldSources rt_chargeSplit : returns.

(** ** Expansion *)

(** The substitutions an expansion asks the runner to run. *)
Fixpoint asksWithin {SX : Syntax} (Q : Node -> Prop) (p : expProg) : Prop :=
  match p with
  | XYield _ _ k => asksWithin Q k
  | XGet _ k => forall v, asksWithin Q (k v)
  | XSet _ _ k => forall e, asksWithin Q (k e)
  | XEach k => forall vs, asksWithin Q (k vs)
  | XReadDir _ k => forall es e, asksWithin Q (k es e)
  | XCmdSubst cs k => Q cs /\ forall out e, asksWithin Q (k out e)
  | _ => True
  end.

Lemma asksWithin_mono {SX : Syntax} (P Q : Node -> Prop) p :
  (forall n, P n -> Q n) -> asksWithin P p -> asksWithin Q p.
Proof. intros HPQ. induction p; cbn; naive_solver. Qed.

(** An expansion only runs substitutions of the word it expands. *)
Record asksBelow {SX : Syntax} (X : expander) : Prop := {
  fields_below : forall w, asksWithin (below w) (FieldsSeq X w);
  literal_below : forall w, asksWithin (below w) (Literal X w);
  document_below : forall ps, asksWithin (fun cs => exists n, Old n ∈ ps /\ below n cs) (Document X ps) }.

Section Expand.
Context {SX : Syntax} {O : oracles} {X : expander} (HX : asksBelow X).
Context {allowed : bytes -> bool} {box : openPolicy} {stmtRec : Node -> M unit} {B : nat}.
Context (Hrec : forall n, size n < B -> returns (stmtRec n)).

Lemma rt_stmts ss : small B ss -> returns (stmts stmtRec ss).
Proof. intros Hss. induction Hss as [|s ss Hs Hss IH]; cbn; [returning|]. pose proof (Hrec s Hs). returning. Qed.

Lemma catShortcutArg_smaller s word : catShortcutArg s = Some word -> size word < size s.
Proof.
  unfold catShortcutArg. destruct (view s) eqn:E; try done.
  destruct Cmd, Redirs as [|rd [|? ?]], Negated, Background, Coprocess, Disown; try done.
  exposed E (le_n (size s)). destruct (view rd) eqn:E2; try done. destruct Op; try done. intros ->.
  exposed E2 (le_n (size rd)). lia.
Qed.

Section Word.
Context {C : nat} (HC : C <= B) {redirectWord : Node -> M (goErr + bytes)}.
Context (Hword : forall n, size n < C -> returns (redirectWord n)).

Lemma rt_catShortcut cs word : size word < C -> returns (catShortcut O X allowed box redirectWord cs word).
Proof. intros Hw. unfold catShortcut. pose proof (Hword word Hw). returning. Qed.

Lemma rt_cmdSubst cs : size cs <= C -> returns (cmdSubst O X allowed box stmtRec redirectWord cs).
Proof.
  intros Hcs. unfold cmdSubst. destruct (view cs) eqn:E; try apply rt_ret.
  exposed E Hcs. destruct Stmts as [|s ss]; [apply rt_ret|].
  assert (returns (stmts stmtRec (s :: ss))).
  { apply rt_stmts. eapply Forall_impl; [exact Hx|]. cbn. lia. }
  destruct (match ss with [] => catShortcutArg s | _ => None end) as [word|] eqn:Ea; [|returning].
  apply rt_catShortcut. destruct ss; [|done]. apply catShortcutArg_smaller in Ea.
  apply small_cons in Hx as [? _]. lia.
Qed.

Lemma rt_readDir2 path : returns (readDir2 O path).
Proof. unfold readDir2. returning. Qed.
#[local] Hint Resolve rt_readDir2 : returns.

Lemma rt_runExp onYield p : (forall f e, returns (onYield f e)) -> asksWithin (fun cs => size cs <= C) p ->
  returns (runExp O X allowed box stmtRec redirectWord onYield p).
Proof.
  intros Hy. induction p; cbn; intros Hp; try (returning; auto; fail).
  destruct Hp as [Hcs Hp]. apply rt_bind; [by apply rt_cmdSubst|returning; auto].
Qed.

Lemma rt_collect f e : returns (collect O f e).
Proof. unfold collect, refuse, modC, theC. returning. Qed.

Lemma rt_addWord ifs w : size w <= C -> returns (addWord O X allowed box stmtRec redirectWord ifs w).
Proof.
  intros Hw. assert (returns (runExp O X allowed box stmtRec redirectWord (collect O) (FieldsSeq X w))).
  { apply rt_runExp; [apply rt_collect|]. eapply asksWithin_mono; [|apply (fields_below X HX)].
    cbn. intros n Hn%below_size. lia. }
  unfold addWord, theC, modC, refuse. returning.
Qed.

Lemma rt_addTo c ws : small (S C) ws -> returns (addTo O X allowed box stmtRec redirectWord c ws).
Proof.
  intros Hws. unfold addTo, theC, refuse.
  assert (forall ifs, returns (addWords O X allowed box stmtRec redirectWord ifs ws)); [|returning].
  intros ifs. induction Hws as [|w ws Hw Hws IH]; cbn; [returning|].
  pose proof (rt_addWord ifs w (proj1 (Nat.lt_succ_r _ _) Hw)). returning.
Qed.
End Word.

Lemma rt_redirectWordFuel fuel word : size word < fuel -> size word <= B ->
  returns (redirectWordFuel O X allowed box stmtRec fuel word).
Proof.
  revert word. induction fuel as [|fuel IH]; intros word Hf HB; [lia|]. cbn [redirectWordFuel].
  unfold redirectWordWith. apply rt_bind; [|returning]. apply (rt_addTo (C := size word)); [done| |].
  - intros n Hn. apply IH; lia.
  - constructor; [lia|constructor].
Qed.

Lemma rt_redirectWord word : size word <= B -> returns (redirectWord O X allowed box stmtRec word).
Proof. intros Hw. apply rt_redirectWordFuel; lia. Qed.

Lemma rt_add c ws : small (S B) ws -> returns (add O X allowed box stmtRec c ws).
Proof. apply rt_addTo; [done|]. intros n Hn. apply rt_redirectWord. lia. Qed.

Lemma rt_fieldsOf ws : small (S B) ws -> returns (fieldsOf O X allowed box stmtRec ws).
Proof. intros Hws. unfold fieldsOf. apply rt_bind; [by apply rt_add|returning]. Qed.

Lemma rt_setCommandPrefixFields n c : returns (setCommandPrefixFields O n c).
Proof. unfold setCommandPrefixFields. returning. Qed.

Lemma rt_runString p : asksWithin (fun cs => size cs <= B) p -> returns (runString O X allowed box stmtRec p).
Proof.
  intros Hp. unfold runString. apply rt_bind; [|returning].
  apply (rt_runExp (C := B)); [done| |intros; apply rt_ret|done]. intros n Hn. apply rt_redirectWord. lia.
Qed.

Lemma rt_assignmentLiteral name word : size word <= B ->
  returns (assignmentLiteral O X allowed box stmtRec name word).
Proof.
  intros Hw. unfold assignmentLiteral, literalBounded.
  assert (returns (runString O X allowed box stmtRec (Literal X word))); [|returning].
  apply rt_runString. eapply asksWithin_mono; [|apply (literal_below X HX)].
  cbn. intros n Hn%below_size. lia.
Qed.

Lemma rt_document ps : smallParts (S B) ps -> returns (document O X allowed box stmtRec ps).
Proof.
  intros Hps. unfold document.
  assert (returns (runString O X allowed box stmtRec (Document X ps))); [|returning].
  apply rt_runString. eapply asksWithin_mono; [|apply (document_below X HX)].
  cbn. intros n [m [Hm Hn%below_size]]. apply (proj1 (Forall_forall _ _) Hps) in Hm. cbn in Hm. lia.
Qed.
End Expand.

#[export] Hint Resolve rt_setCommandPrefixFields : returns.

(** ** Redirections *)

Section Redir.
Context {SX : Syntax} {O : oracles} {X : expander} (HX : asksBelow X).
Context {allowed : bytes -> bool} {stmtRec : Node -> M unit} {B : nat} {mode sandbox : bool}.
Context (Hrec : forall n, size n < B -> returns (stmtRec n)).

Lemma rt_expandHdoc quoted ps : smallParts (S B) ps -> returns (expandHdoc O X allowed mode sandbox stmtRec quoted ps).
Proof. intros Hps. unfold expandHdoc. pose proof (rt_document HX (O := O) (allowed := allowed) (box := sandboxOf mode sandbox) Hrec ps Hps). returning. Qed.

Lemma rt_hdocFails id e : returns (hdocFails O id e).
Proof. unfold hdocFails. returning. Qed.
#[local] Hint Resolve rt_hdocFails : returns.

Lemma rt_plainBody id quoted ps : smallParts (S B) ps -> returns (plainBody O X allowed mode sandbox stmtRec id quoted ps).
Proof. intros Hps. unfold plainBody. pose proof (rt_expandHdoc quoted ps Hps). returning. Qed.

Lemma rt_flushLine quoted cur buf e : smallParts (S B) cur -> returns (flushLine O X allowed mode sandbox stmtRec quoted cur buf e).
Proof. intros Hc. unfold flushLine. pose proof (rt_expandHdoc quoted cur Hc). returning. Qed.

(** A line under construction is made of parts of the document. *)
Definition collects (m : M (list part * bytes * option goErr)) : Prop :=
  returns m /\ forall r w, match m r w with Done (cur, _, _) _ _ => smallParts (S B) cur | _ => True end.

Lemma collects_ret cur buf e : smallParts (S B) cur -> collects (mret (cur, buf, e)).
Proof. intros Hc. split; [apply rt_ret|by intros r w]. Qed.

Lemma collects_bind {A} (Q : A -> Prop) (m : M A) f : returns m ->
  (forall r w, match m r w with Done a _ _ => Q a | _ => True end) ->
  (forall a, Q a -> collects (f a)) -> collects (m ≫= f).
Proof.
  intros Hm HQ Hf. split; [by eapply rt_bind_val; [..|intros a Ha; apply (Hf a Ha)]|].
  intros r w. unfold mbind, M_bind. specialize (HQ r w).
  destruct (m r w) as [a r1 w1|msg r1 w1|]; [|done|done]. apply (Hf a HQ).
Qed.

Lemma collects_dashSegments quoted segs first cur buf e : smallParts (S B) cur ->
  collects (dashSegments O X allowed mode sandbox stmtRec quoted segs first cur buf e).
Proof.
  revert first cur buf e. induction segs as [|seg segs IH]; intros * Hc; cbn; [by apply collects_ret|].
  apply (collects_bind (fun '(cur, _, _) => smallParts (S B) cur)).
  - pose proof (rt_flushLine quoted cur buf e Hc). returning.
  - intros r w. destruct first; [exact Hc|]. unfold mbind, M_bind.
    destruct (flushLine _ _ _ _ _ _ _ _ _ _ r w) as [[? ?] ? ?|? ? ?|]; try done. constructor.
  - intros [[cur' buf'] e'] Hc'. apply IH, Forall_app; split; [done|]. constructor; [cbn; lia|constructor].
Qed.

Lemma collects_dashParts quoted ps cur buf e : smallParts (S B) ps -> smallParts (S B) cur ->
  collects (dashParts O X allowed mode sandbox stmtRec quoted ps cur buf e).
Proof.
  intros Hps. revert cur buf e. induction Hps as [|p ps Hp Hps IH]; intros * Hc; cbn; [by apply collects_ret|].
  assert (Hgo : forall buf e, collects (dashParts O X allowed mode sandbox stmtRec quoted ps (cur ++ [p]) buf e)).
  { intros. apply IH, Forall_app; split; [done|]. by constructor. }
  destruct (pview p) as [| | | | | | | | | | | | | | | | | | | |v| | | | | | | | | | |]; try apply Hgo.
  pose proof (collects_dashSegments quoted (Split ch_nl v) true cur buf e Hc) as [Hr Hs].
  eapply collects_bind; [exact Hr| |].
  - intros r w. specialize (Hs r w). destruct (dashSegments _ _ _ _ _ _ _ _ _ _ _ _ r w); [exact Hs|done|done].
  - intros [[cur' buf'] e'] Hc'. by apply IH.
Qed.

Lemma rt_dashBody id quoted ps : smallParts (S B) ps -> returns (dashBody O X allowed mode sandbox stmtRec id quoted ps).
Proof.
  intros Hps. unfold dashBody.
  destruct (collects_dashParts quoted ps [] [] None Hps) as [Hr Hc]; [constructor|].
  apply (rt_bind_val (fun '(cur, _, _) => smallParts (S B) cur)); [exact Hr| |].
  - intros r w. specialize (Hc r w). destruct (dashParts _ _ _ _ _ _ _ _ _ _ _ r w); done.
  - intros [[cur buf] e] Hcur. pose proof (rt_flushLine quoted cur buf e Hcur). returning.
Qed.

Lemma rt_hdocReader op word hdoc : size hdoc <= B -> returns (hdocReader O X allowed mode sandbox stmtRec op word hdoc).
Proof.
  intros Hh. unfold hdocReader.
  assert (Hps : smallParts (S B) (Old <$> Parts hdoc)) by (apply small_Old, small_Parts; lia).
  pose proof (fun id q => rt_dashBody id q _ Hps). pose proof (fun id q => rt_plainBody id q _ Hps). returning.
Qed.

Lemma rt_rejectNonRegular path : returns (rejectNonRegularRedirectTarget O sandbox path).
Proof. unfold rejectNonRegularRedirectTarget. returning. Qed.
#[local] Hint Resolve rt_rejectNonRegular : returns.

Lemma rt_redirectOut t h : returns (redirectOut t h).
Proof. unfold redirectOut. returning. Qed.
#[local] Hint Resolve rt_redirectOut : returns.

Lemma rt_redirTo op orig arg : returns (redirTo O mode sandbox op orig arg).
Proof. unfold redirTo, openInput, devNullOnly, unsupportedFd, openWriteRedirect. returning. Qed.
#[local] Hint Resolve rt_redirTo : returns.

Lemma rt_redir rd : size rd <= B -> returns (redir O X allowed mode sandbox stmtRec rd).
Proof.
  intros Hrd. unfold redir, unsupportedFd. destruct (view rd) eqn:E; try apply rt_ret.
  destruct HdocWord as [h|]; [|destruct (decide _); [returning|destruct Word as [w|]; [|returning]]]; exposed E Hrd.
  - assert (returns (hdocReader O X allowed mode sandbox stmtRec Op Word h)) by (apply rt_hdocReader; lia). returning.
  - assert (returns (redirectWord O X allowed (sandboxOf mode sandbox) stmtRec w)) by (eapply rt_redirectWord; eauto; lia). returning.
Qed.

Lemma rt_applyRedirects rds : small (S B) rds -> returns (applyRedirects O X allowed mode sandbox stmtRec rds).
Proof.
  intros Hrds. induction Hrds as [|rd rds Hrd Hrds IH]; cbn; [returning|].
  pose proof (rt_redir rd (proj1 (Nat.lt_succ_r _ _) Hrd)). returning.
Qed.
End Redir.

End InterpReturns.
