(* ===== verification/InterpLiveness.v ===== *)
(** * A run whose context is cancelled returns

    The judgement [returns] of [InterpReturns] on handlers, loops and
    statements: a handler returns when it checks its context before it spawns
    and the context is cancelled before the fuel of its spawns is used up, a
    [while] when the context is cancelled before its turns
    are used up, a statement by the size of the tree, and [Run] under these. *)

From S2P Require Import Prelude Nesting GoStd Filepath InterpSyntax InterpValidate InterpVars InterpState InterpExpand InterpRedir InterpCall InterpExec InterpReturns.
From stdpp Require Import base list gmap sets strings.
From Stdlib Require Import ZArith Lia Ascii.

Module InterpLiveness.
Import InterpSyntax InterpValidate InterpVars InterpState InterpExpand InterpRedir InterpCall InterpExec InterpReturns.

(** ** Handlers *)

(** A handler that spawns a command only after a check of its context that
    reported no error, as [find] makes before each starting point and [xargs]
    before each command line; [checked] says such a check has been made. *)
Fixpoint checksFirst (checked : bool) (p : prog) : Prop :=
  match p with
  | PRet _ => True
  | PDo (CRunCommand _ _ _ _) k => checked = true /\ forall a, checksFirst checked (k a)
  | PDo CCtxErr k => forall a, checksFirst (match ans_err a with None => true | Some _ => checked end) (k a)
  | PDo _ k => forall a, checksFirst checked (k a)
  end.

Section Call.
Context {SX : Syntax} {O : oracles} {X : expander} {cfg : runnerConfig}.

Lemma rt_removeWithBudget path : returns (removeWithBudget O path).
Proof. unfold removeWithBudget. returning. Qed.

Lemma rt_changeDir d : returns (changeDir O X cfg d).
Proof. unfold changeDir. returning. Qed.

Lemma rt_contextSetVar name value : returns (contextSetVar X name value).
Proof. unfold contextSetVar. returning. Qed.
#[local] Hint Resolve rt_removeWithBudget rt_changeDir rt_contextSetVar : returns.

Lemma rt_runCap spawn elevated child cc c :
  (forall dir name args i j, c = CRunCommand dir name args i -> returns (spawn elevated dir name args j)) ->
  returns (runCap O X cfg spawn elevated child cc c).
Proof.
  intros Hs. unfold runCap, contextGetVar, lookupEnvVar, nilCapability.
  destruct c; try solve [returning]. apply rt_bind; [by eapply Hs|returning].
Qed.

(** Every command of the registry spawns in this way. *)
Definition spawnsChecked : Prop := forall name cmd cc args,
  registry cfg name = Some cmd -> checksFirst false (cmd_run cmd cc args).

Context {k : nat} (Hctx : forall n, k <= n -> ctxErr O n <> None).

(** A handler started when the context has been polled [m] times, before the
    cancellation if it has [checked], in which spawning returns: its spawns
    happen after a poll of its own that preceded the cancellation. *)
Lemma returns_runProg m spawn elevated child cc p : forall checked r w,
  (forall dir name args i r w, m < k -> m < polls w ->
     match spawn elevated dir name args i r w with
     | Done _ _ w' | Panicked _ _ w' => polls w <= polls w' | NoFuel => False end) ->
  checksFirst checked p -> m <= polls w -> (checked = true -> m < k /\ m < polls w) ->
  match runProg O X cfg spawn elevated child cc p r w with
  | Done _ _ w' | Panicked _ _ w' => polls w <= polls w' | NoFuel => False end.
Proof.
  intros checked r w Hs. revert checked r w.
  induction p as [res|c f IH]; intros checked r w Hp Hm Hc; cbn [runProg]; [exact (le_n _)|].
  unfold mbind, M_bind.
  enough (H : match runCap O X cfg spawn elevated child cc c r w with
    | Done a _ w1 => polls w <= polls w1 /\ exists b, checksFirst b (f a) /\ (b = true -> m < k /\ m < polls w1)
    | Panicked _ _ w1 => polls w <= polls w1 | NoFuel => False end).
  { destruct (runCap O X cfg spawn elevated child cc c r w) as [a r1 w1|? r1 w1|]; [|done|done].
    destruct H as [Hw [b [Hb Hb']]]. pose proof (IH a b r1 w1 Hb ltac:(lia) Hb') as H1.
    destruct (runProg _ _ _ _ _ _ _ (f a) r1 w1); [lia|lia|done]. }
  assert (Hplain : (forall a, checksFirst checked (f a)) -> returns (runCap O X cfg spawn elevated child cc c) ->
    match runCap O X cfg spawn elevated child cc c r w with
    | Done a _ w1 => polls w <= polls w1 /\ exists b, checksFirst b (f a) /\ (b = true -> m < k /\ m < polls w1)
    | Panicked _ _ w1 => polls w <= polls w1 | NoFuel => False end).
  { intros Hf Hr. specialize (Hr r w). destruct (runCap O X cfg spawn elevated child cc c r w) as [a r1 w1|? r1 w1|]; [|done|done].
    split; [exact Hr|]. exists checked. split; [apply Hf|]. intros Eb. destruct (Hc Eb). lia. }
  destruct c; try (apply Hplain; [exact Hp|apply rt_runCap; intros; discriminate]).
  - destruct Hp as [Ec Hf]. destruct (Hc Ec) as [Hk Hw]. cbn [runCap]. unfold mbind, M_bind.
    specialize (Hs dir name args (if child then match stdin with Some h => Some h | None => Some (cc_Stdin cc) end else stdin)
      r w Hk Hw).
    destruct (spawn _ _ _ _ _ r w) as [[code e] r1 w1|? r1 w1|]; [|done|done].
    split; [exact Hs|]. exists checked. split; [apply Hf|]. intros _. lia.
  - cbn [runCap]. unfold poll, mbind, M_bind, mret, M_ret. cbn [polls set_polls]. split; [lia|].
    eexists. split; [apply Hp|]. destruct (ctxErr O (polls w)) eqn:E; cbn [answerErr failed done ans_err].
    + intros Eb. destruct (Hc Eb). lia.
    + intros _. destruct (decide (k <= polls w)); [by destruct (Hctx (polls w))|lia].
Qed.

Lemma returns_spawnFuel fuel : spawnsChecked -> forall elevated dir name args i r w,
  0 < fuel -> k < polls w + fuel ->
  match spawnFuel O X cfg fuel elevated dir name args i r w with
  | Done _ _ w' | Panicked _ _ w' => polls w <= polls w' | NoFuel => False end.
Proof.
  intros Hspawn. induction fuel as [|fuel IH]; intros * Hf Hk; [lia|]. cbn [spawnFuel]. unfold spawnBody.
  destruct (negb _); [exact (le_n _)|]. destruct (registry cfg name) as [c|] eqn:Er; [|exact (le_n _)].
  destruct (_ && _); [exact (le_n _)|]. destruct (remediationOnlyRefusal _ _ _) as [msg|].
  { exact (rt_bind (errf O msg) _ (rt_errf msg) (fun _ => rt_ret _) r w). }
  unfold getR, emit, modW, mbind, M_bind, mret, M_ret.
  match goal with |- context [runProg O X cfg ?s ?e true ?cc ?p r ?w'] =>
    pose proof (returns_runProg (polls w) s e true cc p false r w') as H end.
  specialize (H ltac:(intros; apply IH; lia) ltac:(by apply (Hspawn name)) (le_n _) ltac:(discriminate)).
  by destruct (runProg _ _ _ _ _ _ _ _ _ _).
Qed.

Context {spawnDepth : bytes -> list bytes -> nat}.
Context (Hspawn : spawnsChecked) (Hdepth : forall name args, k <= spawnDepth name args).

Lemma rt_runBuiltin elevated name c args : registry cfg name = Some c ->
  returns (runBuiltin O X cfg spawnDepth elevated name c args).
Proof.
  intros Hk. unfold runBuiltin, takeResult.
  assert (forall cc, returns (runProg O X cfg (spawnFuel O X cfg (spawnDepth name args)) elevated false cc
            (cmd_run c cc args))); [|returning].
  intros cc r w. apply (returns_runProg (polls w) _ _ _ _ _ false); [|by apply (Hspawn name)|lia|discriminate].
  intros * H1 H2. pose proof (Hdepth name args). apply returns_spawnFuel; [done|lia|lia].
Qed.

Lemma rt_call args setup : returns setup -> returns (call O X cfg spawnDepth args setup).
Proof.
  intros Hs. unfold call, gatedCall, deny, dispatch, execHandler, countCall.
  pose proof rt_runBuiltin. returning; eauto.
Qed.
End Call.

(** ** One level of statements *)

Section Level.
Context {SX : Syntax} {O : oracles} {X : expander} {cfg : runnerConfig} (HX : asksBelow X).
Context {turns : nat} {spawnDepth : bytes -> list bytes -> nat} (Hspawn : spawnsChecked (cfg := cfg)).
Context {k : nat} (Hctx : forall n, k <= n -> ctxErr O n <> None) (Hturns : k < turns).
Context (Hdepth : forall name args, k <= spawnDepth name args).
Context {stmtRec : Node -> M unit} {B : nat} (Hrec : forall n, size n < B -> returns (stmtRec n)).

Abbreviation allowed := (isAllowed cfg).
Abbreviation theRedirects := (applyRedirects O X allowed (cf_remediationMode cfg) (cf_sandbox cfg) stmtRec).

(** *** Assignments and simple commands *)

Lemma rt_assignVal prev a : size a < B -> returns (assignVal O X cfg stmtRec prev a).
Proof.
  intros Ha. unfold assignVal. destruct (view a) eqn:E; try apply rt_ret.
  destruct Append, Array, Value as [w|]; try returning. exposed E (Nat.lt_le_incl _ _ Ha).
  assert (returns (assignmentLiteral O X allowed (cf_box cfg) stmtRec Name w)) by (eapply rt_assignmentLiteral; eauto; lia).
  returning.
Qed.

Lemma rt_setVarWithIndex prev name i vr : returns (setVarWithIndex O X prev name i vr).
Proof. unfold setVarWithIndex. returning. Qed.
#[local] Hint Resolve rt_setVarWithIndex : returns.

Lemma rt_assignAll az : small B az -> returns (assignAll O X cfg stmtRec az).
Proof.
  intros Haz. induction Haz as [|a az Ha Haz IH]; cbn; [returning|].
  pose proof (fun prev => rt_assignVal prev a Ha). returning.
Qed.

Lemma rt_inlineAssignments az acc : small B az -> returns (inlineAssignments O X cfg stmtRec az acc).
Proof.
  intros Haz. revert acc. induction Haz as [|a az Ha Haz IH]; intros acc; cbn; [returning|].
  pose proof (fun prev => rt_assignVal prev a Ha). returning.
Qed.

Lemma rt_inTempEnv {A} (m : M A) : returns m -> returns (inTempEnv X m).
Proof. intros Hm. unfold inTempEnv. returning. Qed.

Lemma rt_installAssignments az seen : returns (installAssignments O X az seen).
Proof. revert seen. induction az as [|[name vr] az IH]; intros seen; cbn; returning. Qed.

Lemma rt_restoreAll b rs : returns (restoreAll b rs).
Proof. induction rs as [|[o sn] rs IH]; cbn; returning. Qed.
#[local] Hint Resolve rt_installAssignments rt_restoreAll : returns.

(** What is left of the arguments is some of them. *)
Lemma rt_take (P : fieldCollector -> bool) take args c : small B args ->
  (forall c, take [] c = mret ([], c)) ->
  (forall a args c, take (a :: args) c =
     if P c then '(_, c) ← add O X allowed (cf_box cfg) stmtRec c [a]; take args c else mret (a :: args, c)) ->
  returns (take args c) /\ forall r w, match take args c r w with Done (rest, _) _ _ => small B rest | _ => True end.
Proof.
  intros Hargs Hnil Hcons. revert c. induction Hargs as [|a args Ha Hargs IH]; intros c.
  - rewrite Hnil. split; [apply rt_ret|intros r w; constructor].
  - rewrite Hcons. assert (Hadd : returns (add O X allowed (cf_box cfg) stmtRec c [a])).
    { apply (rt_add HX Hrec). constructor; [lia|constructor]. }
    destruct (P c); [|split; [apply rt_ret|intros r w; by constructor]].
    split; [apply rt_bind; [exact Hadd|]; intros [? c']; apply IH|].
    intros r w. unfold mbind, M_bind. destruct (add _ _ _ _ _ _ _ r w) as [[? c'] r1 w1|? ? ?|]; try done. apply IH.
Qed.

Lemma rt_takeName args c : small B args -> returns (takeName O X cfg stmtRec args c) /\
  forall r w, match takeName O X cfg stmtRec args c r w with Done (rest, _) _ _ => small B rest | _ => True end.
Proof.
  intros Hargs. apply (rt_take (fun c => match fields c with [] => true | _ => false end)); [done|done|].
  intros a az c'. cbn. by destruct (fields c').
Qed.

Lemma rt_takeSudo args c : small B args -> returns (takeSudo O X cfg stmtRec args c) /\
  forall r w, match takeSudo O X cfg stmtRec args c r w with Done (rest, _) _ _ => small B rest | _ => True end.
Proof.
  intros Hargs. apply (rt_take (fun c => match fields c with [f] => f =s "sudo" | _ => false end)); [done|done|].
  intros a az c'. cbn. by destruct (fields c') as [|f [|? ?]].
Qed.

Lemma small_weaken (C D : nat) ns : C <= D -> small C ns -> small D ns.
Proof. intros HCD H. eapply Forall_impl; [exact H|]. cbn. lia. Qed.

Lemma rt_redirects rds : small B rds -> returns (theRedirects rds).
Proof. intros Hrds. apply (rt_applyRedirects HX Hrec). by apply (small_weaken B); [lia|]. Qed.

Lemma rt_setupCall rest c az redirs : small B rest -> small B az -> small B redirs ->
  returns (setupCall O X cfg stmtRec rest c az redirs).
Proof.
  intros Hrest Haz Hrds. unfold setupCall.
  assert (returns (add O X allowed (cf_box cfg) stmtRec c rest)) by (by apply (rt_add HX Hrec), (small_weaken B); [lia|]).
  pose proof (rt_inTempEnv _ (rt_inlineAssignments az [] Haz)). pose proof (rt_redirects redirs Hrds). returning.
Qed.

Lemma rt_callExpr az args redirs : small B az -> small B args -> small B redirs ->
  returns (callExpr O X cfg spawnDepth stmtRec az args redirs).
Proof.
  intros Haz Hargs Hrds. unfold callExpr. apply rt_bind; [returning|intros _].
  destruct (rt_takeName args (newFieldCollector (MaxExpandedArgumentsPerCommand + 2)) Hargs) as [Hn Hn'].
  apply (rt_bind_val (fun '(rest, _) => small B rest)); [exact Hn|exact Hn'|]. intros [args1 c1] H1.
  destruct (rt_takeSudo args1 c1 H1) as [Hs Hs'].
  apply (rt_bind_val (fun '(rest, _) => small B rest)); [exact Hs|exact Hs'|]. intros [args2 c2] H2.
  pose proof (rt_redirects redirs Hrds). pose proof (rt_assignAll az Haz).
  assert (forall c fs, returns (call O X cfg spawnDepth fs (setupCall O X cfg stmtRec args2 c az redirs))).
  { intros. by apply (rt_call Hctx Hspawn Hdepth), rt_setupCall. }
  unfold restoreAssignments. returning.
Qed.

(** *** Loops *)

Lemma rt_level_stmts ss : small B ss -> returns (stmts stmtRec ss).
Proof. apply (rt_stmts Hrec). Qed.

Lemma rt_loopStmtsBroken ss : small B ss -> returns (loopStmtsBroken stmtRec ss).
Proof.
  intros Hss. unfold loopStmtsBroken, inLoopScope. assert (returns (loopStmts stmtRec ss)); [|returning].
  induction Hss as [|s ss Hs Hss IH]; cbn; [returning|]. pose proof (Hrec s Hs). returning.
Qed.

Lemma rt_clampLevels b : returns (clampLevels b).
Proof. unfold clampLevels. returning. Qed.
#[local] Hint Resolve rt_clampLevels : returns.

Lemma rt_forItems name body items : small B body -> returns (forItems O X stmtRec name body items).
Proof.
  intros Hb. pose proof (rt_loopStmtsBroken body Hb).
  induction items as [|f items IH]; cbn; unfold setVarString; returning.
Qed.

Lemma rt_execFor loop body : small B (exposes (VForClause false loop body)) ->
  returns (execFor O X cfg stmtRec loop body).
Proof.
  destruct loop as [name inToken words|]; cbn; [|returning].
  intros [Hw Hb]%small_app. pose proof (fun items => rt_forItems name body items Hb).
  assert (returns (fieldsOf O X allowed (cf_box cfg) stmtRec words)) by (by apply (rt_fieldsOf HX Hrec), (small_weaken B); [lia|]).
  returning.
Qed.

Lemma rt_whileTurn until old cond body st : small B cond -> small B body ->
  returns (whileTurn stmtRec until old cond body st).
Proof.
  intros Hc Hb. unfold whileTurn. pose proof (rt_level_stmts cond Hc). pose proof (rt_loopStmtsBroken body Hb).
  returning.
Qed.

Lemma whileLoop_turn n until old cond body st : whileLoop O stmtRec (S n) until old cond body st =
  (e ← poll O;
   match e with
   | Some err => modExit (fatal err);; mret st
   | None =>
       '(st, next) ← whileTurn stmtRec until old cond body st;
       match next with
       | Leave b => mret (mkWhileEnd (lastBody st) (iterationCount st) b)
       | Again => whileLoop O stmtRec n until old cond body st
       end
   end).
Proof. reflexivity. Qed.

(** Every turn polls the context: a loop with more turns left than polls
    before the cancellation ends. *)
Lemma whileLoop_returns n until old cond body st r w : small B cond -> small B body -> k <= polls w + n ->
  match whileLoop O stmtRec (S n) until old cond body st r w with
  | Done _ _ w' | Panicked _ _ w' => polls w <= polls w'
  | NoFuel => False
  end.
Proof.
  intros Hc Hb. revert st r w. induction n as [|n IH]; intros st r w Hk; rewrite whileLoop_turn;
    unfold mbind at 1, M_bind at 1, poll; (destruct (ctxErr O (polls w)) eqn:E; [apply Nat.le_succ_diag_r|]).
  - exfalso. apply (Hctx (polls w)); [lia|done].
  - pose proof (rt_whileTurn until old cond body st Hc Hb r (set_polls (S (polls w)) w)) as Ht.
    unfold mbind at 1, M_bind at 1.
    destruct (whileTurn _ _ _ _ _ _ r _) as [[st' next] r1 w1|? r1 w1|]; [|cbn in Ht; lia|done].
    cbn in Ht. destruct next; [|cbn; unfold mret, M_ret; lia]. specialize (IH st' r1 w1 ltac:(lia)).
    destruct (whileLoop O stmtRec (S n) _ _ _ _ _ _ _); [lia|lia|done].
Qed.

Lemma rt_execWhileClause until cond body : small B cond -> small B body ->
  returns (execWhileClause O turns stmtRec until cond body).
Proof.
  intros Hc Hb. unfold execWhileClause, inLoopScope.
  assert (forall old st, returns (whileLoop O stmtRec turns until old cond body st)); [|returning].
  intros old st r w. replace turns with (S (pred turns)) by lia.
  apply whileLoop_returns; [done|done|lia].
Qed.

Lemma rt_execIfChain fuel cur : size cur <= B -> returns (execIfChain stmtRec fuel cur).
Proof.
  revert cur. induction fuel as [|fuel IH]; intros cur Hcur; cbn; [apply rt_ret|].
  destruct (view cur) eqn:E; try apply rt_ret. destruct Else as [e|]; exposed E Hcur;
    pose proof (rt_level_stmts Cond ltac:(done)); pose proof (rt_level_stmts Then ltac:(done)).
  - assert (returns (execIfChain stmtRec fuel e)) by (apply IH; lia). returning.
  - returning.
Qed.

(** *** Commands and statements *)

Lemma rt_execPipe x y : size x < B -> size y < B -> returns (execPipe O X stmtRec x y).
Proof.
  intros Hx%Hrec Hy%Hrec. unfold execPipe, stageRecovered, takeExit. returning.
Qed.

Lemma rt_cmd cm : size cm <= B -> returns (cmd O X cfg turns spawnDepth stmtRec cm).
Proof.
  intros Hcm. unfold cmd. apply rt_bind; [returning|intros []; [returning|]].
  destruct (view cm) eqn:E; try apply rt_modExit.
  - exposed E Hcm. by apply rt_callExpr; [..|constructor].
  - exposed E Hcm. destruct Op; [| |by apply rt_execPipe|returning];
      (unfold execAndOr; pose proof (Hrec X0 ltac:(done)); pose proof (Hrec Y ltac:(done)); returning).
  - by apply rt_execIfChain.
  - exposed E Hcm. by apply rt_execWhileClause.
  - apply rt_execFor. exact (small_exposes _ _ _ E Hcm).
  - exposed E Hcm. by apply rt_level_stmts.
  - exposed E Hcm. unfold execSubshell, takeExit. pose proof (rt_level_stmts Stmts ltac:(done)). returning.
Qed.

Lemma rt_stmt st : size st <= B -> returns (stmt O X cfg turns spawnDepth stmtRec st).
Proof.
  intros Hst. unfold stmt, stmtSync, negateExit. assert (Hclose : forall ids, returns (closeAll ids)).
  { induction ids; cbn; returning. }
  destruct (view st) eqn:E; try returning.
  assert (returns (stmtBody O X cfg turns spawnDepth stmtRec Cmd Redirs)); [|returning].
  destruct Cmd as [cm|]; exposed E Hst; pose proof (rt_redirects Redirs ltac:(done)); [|done].
  assert (returns (cmd O X cfg turns spawnDepth stmtRec cm)) by (apply rt_cmd; lia).
  unfold stmtBody. destruct (view cm) eqn:E2; try returning.
  exposed E2 (Nat.lt_le_incl _ _ H). by apply rt_callExpr.
Qed.
End Level.

(** ** Statements and runs *)

(** Without the count of the polls, which the validation sets. *)
Section Ends.
Context {SX : Syntax}.

Definition ends {A} (m : M A) : Prop := forall r w, m r w <> NoFuel.

Lemma returns_ends {A} (m : M A) : returns m -> ends m.
Proof. intros Hm r w E. specialize (Hm r w). by rewrite E in Hm. Qed.

Lemma ends_bind {A B} (m : M A) (f : A -> M B) : ends m -> (forall a, ends (f a)) -> ends (m ≫= f).
Proof.
  intros Hm Hf r w. unfold mbind, M_bind. specialize (Hm r w). destruct (m r w); [apply Hf|done|done].
Qed.

Lemma ends_finally {A} (m : M A) f : ends m -> ends f -> ends (finally m f).
Proof.
  intros Hm Hf r w. unfold finally. specialize (Hm r w).
  destruct (m r w) as [a r1 w1|msg r1 w1|]; [| |done]; specialize (Hf r1 w1); by destruct (f r1 w1).
Qed.

Lemma ends_catch {A} p (m h : M A) : ends m -> ends h -> ends (catch p m h).
Proof.
  intros Hm Hh r w. unfold catch. specialize (Hm r w).
  destruct (m r w) as [a r1 w1|msg r1 w1|]; [done| |done]. destruct (p msg); [apply Hh|done].
Qed.
End Ends.

Section Run.
Context {SX : Syntax} (O : oracles) (X : expander) (cfg : runnerConfig).
Context (turns : nat) (spawnDepth : bytes -> list bytes -> nat).

Lemma rt_stmtFuel k fuel st : asksBelow X -> spawnsChecked (cfg := cfg) ->
  (forall n, k <= n -> ctxErr O n <> None) -> k < turns -> (forall name args, k <= spawnDepth name args) ->
  size st < fuel -> returns (stmtFuel O X cfg turns spawnDepth fuel st).
Proof.
  intros HX Hspawn Hctx Hk Hdepth. revert st. induction fuel as [|fuel IH]; intros st Hst; [lia|].
  cbn [stmtFuel]. apply (rt_stmt HX Hspawn Hctx Hk Hdepth (B := fuel)); [exact IH|lia].
Qed.

Lemma rt_runNode k node : asksBelow X -> spawnsChecked (cfg := cfg) ->
  (forall n, k <= n -> ctxErr O n <> None) -> k < turns -> (forall name args, k <= spawnDepth name args) ->
  returns (runNode O X cfg turns spawnDepth node).
Proof.
  intros HX Hspawn Hctx Hk Hdepth. unfold runNode. set (rec := stmtFuel _ _ _ _ _ (size node)).
  assert (Hrec : forall n, size n < size node -> returns (rec n)) by (intros; by apply (rt_stmtFuel k)).
  assert (Hcmd : returns (cmd O X cfg turns spawnDepth rec node;; mret true)).
  { apply rt_bind; [by apply (rt_cmd HX Hspawn Hctx Hk Hdepth Hrec)|returning]. }
  destruct (view node) eqn:E; try exact Hcmd; try apply rt_ret.
  - exposed E (le_n (size node)). apply rt_bind; [by apply (rt_stmts Hrec)|returning].
  - apply rt_bind; [by apply (rt_stmtFuel k); [..|lia]|returning].
Qed.

(** C12. A run returns (it ends or panics; it does not go on for ever) once its
    context is cancelled: if every check of the context from the [k]-th on
    fails, no [while] takes more than [k] further turns and no chain of
    commands that spawn commands is deeper than [k], and every statement,
    substitution, redirection, pipe and builtin call under it ends, whatever
    the script and the host.  The context is polled before every turn, and by a
    builtin before it spawns, so a command may spawn itself without end, as
    [xargs xargs ...] does, until the cancellation.  What the run relies on: an
    expansion only runs the substitutions of its word, and a builtin asks the
    shell finitely many things and checks its context before it spawns. *)
Theorem cancelled_run_returns k node r w :
  asksBelow X -> spawnsChecked (cfg := cfg) ->
  (forall n, k <= n -> ctxErr O n <> None) -> k < turns -> (forall name args, k <= spawnDepth name args) ->
  match Run O X cfg turns spawnDepth node r w with
  | Done _ _ _ | Panicked _ _ _ => True
  | NoFuel => False
  end.
Proof.
  intros HX Hspawn Hctx Hk Hdepth. enough (ends (Run O X cfg turns spawnDepth node)) as H.
  { specialize (H r w). by destruct (Run _ _ _ _ _ _ _ _). }
  assert (Hwrap : forall h1 h2, ends (runWrapped O X cfg turns spawnDepth node h1 h2)).
  { intros h1 h2. unfold runWrapped. do 3 (apply ends_bind; [done|intros _]).
    apply ends_bind; [done|intros [verr|]]; [apply returns_ends; returning|].
    apply ends_bind; [done|intros _].
    apply ends_bind; [by apply returns_ends, (rt_runNode k)|]. intros known. apply returns_ends.
    unfold runResult, isExceeded. returning. }
  unfold Run. apply ends_catch; [|apply returns_ends; returning].
  apply ends_bind; [done|intros r0]. do 2 (apply ends_bind; [apply returns_ends; returning|intros ?]).
  do 2 (apply ends_bind; [done|intros _]). by apply ends_finally.
Qed.
End Run.

End InterpLiveness.
