(* ===== verification/InterpBuiltins.v ===== *)
(** * The builtins that control the shell, and [echo]

    [builtins/break], [continue], [exit], [true], [false] and [echo] as
    handlers of [InterpCall]: trees of the capabilities they use.  They
    declare no flags, so the framework gives them the raw arguments. *)

From S2P Require Import Prelude GoStd Utf8 InterpVars InterpState InterpExpand InterpCall InterpQuiet InterpExecLogic InterpReturns InterpLiveness.
From stdpp Require Import base list gmap sets strings.
From Stdlib Require Import ZArith Lia Ascii.

Module InterpBuiltins.
Import GoStd Utf8 InterpVars InterpState InterpExpand InterpCall InterpQuiet InterpExecLogic InterpReturns InterpLiveness.

(** ** Building handlers *)

Definition Out (s : bytes) (p : prog) : prog := PDo (COut s) (fun _ => p).
Definition Errf (s : bytes) (p : prog) : prog := PDo (CErr s) (fun _ => p).

(** [Result{Code: code}]. *)
Definition ret (code : Z) : prog := PRet (mkResult code false 0 0).
Definition retExit (code : Z) : prog := PRet (mkResult code true 0 0).

Definition nl : bytes := [ch_nl].

(** [strconv.Atoi] on a 64-bit platform. *)
Definition Atoi (s : bytes) : option Z := match ParseInt s with inr n => Some n | inl _ => None end.

(** ** break and continue *)

Definition unwindAllLoops : Z := 2 ^ 30.

Definition LoopControl (cc : CallContext) (name : bytes) (args : list bytes) : prog :=
  if negb (cc_InLoop cc) then Errf (name ++ lit " is only useful in a loop" ++ nl) (ret 0)
  else
    let leave (n : Z) := PRet (if name =s "break" then mkResult 0 false n 0 else mkResult 0 false 0 n) in
    match args with
    | [] => leave 1%Z
    | [a] =>
        match Atoi a with
        | None => Errf (name ++ lit ": " ++ a ++ lit ": numeric argument required" ++ nl) (retExit 128)
        | Some n =>
            if (n <? 1)%Z
            then Errf (name ++ lit ": " ++ a ++ lit ": loop count out of range" ++ nl)
                   (PRet (mkResult 1 false unwindAllLoops 0))
            else leave n
        end
    | _ => Errf (name ++ lit ": too many arguments" ++ nl) (retExit 1)
    end.

Definition isHelp (args : list bytes) : bool := match args with a :: _ => a =s "--help" | [] => false end.

Definition breakHelp : bytes :=
  lit "break: break [n]" ++ nl ++ lit "    Exit for, while, or until loops." ++ nl ++ lit "    " ++ nl
  ++ lit "    Exit a FOR, WHILE or UNTIL loop.  If N is specified, break N enclosing" ++ nl
  ++ lit "    loops." ++ nl ++ lit "    " ++ nl ++ lit "    Exit Status:" ++ nl
  ++ lit "    The exit status is 0 unless N is not greater than or equal to 1.".

Definition runBreak (cc : CallContext) (args : list bytes) : prog :=
  if isHelp args then Out (breakHelp ++ nl) (ret 2) else LoopControl cc (lit "break") args.

Definition continueHelp : bytes :=
  lit "continue: continue [n]" ++ nl ++ lit "    Resume for, while, or until loops." ++ nl ++ lit "    " ++ nl
  ++ lit "    Resumes the next iteration of the enclosing FOR, WHILE or UNTIL loop." ++ nl
  ++ lit "    If N is specified, resumes the Nth enclosing loop." ++ nl ++ lit "    " ++ nl ++ lit "    Exit Status:" ++ nl
  ++ lit "    The exit status is 0 unless N is not greater than or equal to 1.".

Definition runContinue (cc : CallContext) (args : list bytes) : prog :=
  if isHelp args then Out (continueHelp ++ nl) (ret 2) else LoopControl cc (lit "continue") args.

(** ** exit, true and false *)

Definition exitHelp : bytes :=
  lit "exit: exit [n]" ++ nl ++ lit "    Exit the shell." ++ nl ++ lit "    " ++ nl
  ++ lit "    Exits the shell with a status of N.  If N is omitted, the exit status" ++ nl
  ++ lit "    is that of the last command executed.".

Definition runExit (cc : CallContext) (args : list bytes) : prog :=
  if isHelp args then Out (exitHelp ++ nl) (ret 2)
  else
    let args := match args with a :: rest => if a =s "--" then rest else args | [] => [] end in
    match args with
    | [] => retExit (cc_LastExitCode cc)
    | [a] =>
        match Atoi a with
        | None => Errf (a ++ lit ": numeric argument required" ++ nl) (retExit 2)
        | Some n => retExit (Z.land n 255)
        end
    | _ => Errf (lit "too many arguments" ++ nl) (retExit 1)
    end.

Definition runTrue (cc : CallContext) (args : list bytes) : prog := ret 0.
Definition runFalse (cc : CallContext) (args : list bytes) : prog := ret 1.

(** ** echo *)

Definition isFlagChar (c : ascii) : bool := (c =c "n") || (c =c "e") || (c =c "E").

Definition isEchoFlag (arg : bytes) : bool :=
  match arg with
  | d :: c :: rest => (d =c "-") && forallb isFlagChar (c :: rest)
  | _ => false
  end.

Record echoFlags := mkEcho { noNewline : bool; escapes : bool }.

Definition flagChar (f : echoFlags) (c : ascii) : echoFlags :=
  if c =c "n" then mkEcho true (escapes f)
  else if c =c "e" then mkEcho (noNewline f) true
  else if c =c "E" then mkEcho (noNewline f) false
  else f.

(** The leading flags, and the arguments from the first that is not one. *)
Fixpoint parseFlags (f : echoFlags) (args : list bytes) : echoFlags * list bytes :=
  match args with
  | a :: rest => if isEchoFlag a then parseFlags (foldl flagChar f (tail a)) rest else (f, args)
  | [] => (f, [])
  end.

Definition octVal (c : ascii) : option Z :=
  let z := code c in if ((48 <=? z) && (z <=? 55))%Z then Some (z - 48)%Z else None.

Definition hexVal (c : ascii) : option Z :=
  let z := code c in
  if ((48 <=? z) && (z <=? 57))%Z then Some (z - 48)%Z
  else if ((97 <=? z) && (z <=? 102))%Z then Some (z - 87)%Z
  else if ((65 <=? z) && (z <=? 70))%Z then Some (z - 55)%Z
  else None.

(** [parseOctal] and [parseHex]: the value, and the digits consumed. *)
Fixpoint parseDigitsUpTo (digit : ascii -> option Z) (base : Z) (max : nat) (s : bytes) (val : Z) : Z * nat :=
  match max, s with
  | S max, c :: s =>
      match digit c with
      | Some d => let '(v, n) := parseDigitsUpTo digit base max s (val * base + d) in (v, S n)
      | None => (val, 0)
      end
  | _, _ => (val, 0)
  end.

Definition parseOctal (s : bytes) (maxDigits : nat) : Z * nat := parseDigitsUpTo octVal 8 maxDigits s 0.
Definition parseHex (s : bytes) (maxDigits : nat) : Z * nat := parseDigitsUpTo hexVal 16 maxDigits s 0.

Definition writeUnicodeCodepoint (val : Z) : bytes := if (1114111 <? val)%Z then [] else EncodeRune val.

Definition simpleEscape (c : ascii) : option ascii :=
  if Ascii.eqb c ch_bs then Some ch_bs
  else if c =c "a" then Some (byteOf 7)
  else if c =c "b" then Some (byteOf 8)
  else if (c =c "e") || (c =c "E") then Some (byteOf 27)
  else if c =c "f" then Some (byteOf 12)
  else if c =c "n" then Some (byteOf 10)
  else if c =c "r" then Some (byteOf 13)
  else if c =c "t" then Some (byteOf 9)
  else if c =c "v" then Some (byteOf 11)
  else None.

(** A numeric escape: what it writes and what is left; without a digit, [x],
    [u] and [U] stand for themselves. *)
Definition numericEscape (c : ascii) (s : bytes) : option (bytes * bytes) :=
  let hex (max : nat) (out : Z -> bytes) :=
    let '(v, n) := parseHex s max in
    Some (match n with 0 => [ch_bs; c] | _ => out v end, drop n s) in
  if c =c "0" then let '(v, n) := parseOctal s 3 in Some ([byteOf (v mod 256)], drop n s)
  else if c =c "x" then hex 2 (fun v => [byteOf (v mod 256)])
  else if c =c "u" then hex 4 writeUnicodeCodepoint
  else if c =c "U" then hex 8 writeUnicodeCodepoint
  else None.

(** The loop; every turn consumes a byte. *)
Fixpoint escapeLoop (fuel : nat) (s : bytes) : bytes * bool :=
  let emit out rest := let '(o, stop) := match fuel with 0 => ([], false) | S fuel => escapeLoop fuel rest end in
                       (out ++ o, stop) in
  match s with
  | [] => ([], false)
  | [c] => ([c], false)
  | b :: c :: s' =>
      if negb (Ascii.eqb b ch_bs) then emit [b] (c :: s')
      else if c =c "c" then ([], true)
      else match simpleEscape c with
           | Some e => emit [e] s'
           | None =>
               match numericEscape c s' with
               | Some (out, rest) => emit out rest
               | None => emit [ch_bs; c] s'
               end
           end
  end.

Definition processEscapes (s : bytes) : bytes * bool := escapeLoop (length s) s.

Fixpoint echoArgs (f : echoFlags) (first : bool) (args : list bytes) : prog :=
  match args with
  | [] => if noNewline f then ret 0 else Out nl (ret 0)
  | a :: args =>
      let text := if escapes f then
                    let '(s, stop) := processEscapes a in
                    Out s (if stop then ret 0 else echoArgs f false args)
                  else Out a (echoArgs f false args) in
      if first then text else Out (lit " ") text
  end.

Definition runEcho (cc : CallContext) (args : list bytes) : prog :=
  let '(f, text) := parseFlags (mkEcho false false) args in echoArgs f true text.

(** The registry with these builtins. *)
Definition plainCommand (run : CallContext -> list bytes -> prog) : command := mkCommand run false [].

Definition controlRegistry (name : bytes) : option command :=
  if name =s "break" then Some (plainCommand runBreak)
  else if name =s "continue" then Some (plainCommand runContinue)
  else if name =s "exit" then Some (plainCommand runExit)
  else if name =s "true" then Some (plainCommand runTrue)
  else if name =s "false" then Some (plainCommand runFalse)
  else if name =s "echo" then Some (plainCommand runEcho)
  else None.

(** ** What they promise *)

Lemma echoArgs_result (R : Result -> Prop) f first args : R (mkResult 0 false 0 0) -> allResults R (echoArgs f first args).
Proof.
  intros HR. revert first. induction args as [|a args IH]; intros first; cbn; [by destruct (noNewline f); cbn|].
  destruct (escapes f); [destruct (processEscapes a) as [s []]|]; destruct first; cbn; intros; auto.
Qed.

Lemma LoopControl_result cc name args : allResults (loopResult (cc_InLoop cc)) (LoopControl cc name args).
Proof.
  unfold LoopControl. destruct (cc_InLoop cc); cbn [negb]; [|by cbn; intros _].
  destruct args as [|a [|]]; cbn; [|destruct (Atoi a) as [n|]|]; try (cbn; intros; by split_and!).
  - by destruct (name =s "break").
  - destruct (Z.ltb_spec n 1); cbn; [intros; by split_and!|]. destruct (name =s "break"); unfold loopResult; cbn [res_BreakN res_ContinueN];
      (split_and!; [lia|lia|done]).
Qed.

(** A handler of this registry asks for loop levels only inside a loop. *)
Lemma controlRegistry_result name c cc args : controlRegistry name = Some c ->
  allResults (loopResult (cc_InLoop cc)) (cmd_run c cc args).
Proof.
  unfold controlRegistry. intros H.
  repeat (destruct (name =s _); [injection H as <-|]); [..|done]; cbn [cmd_run plainCommand].
  - unfold runBreak. destruct (isHelp args); [by cbn|apply LoopControl_result].
  - unfold runContinue. destruct (isHelp args); [by cbn|apply LoopControl_result].
  - unfold runExit. destruct (isHelp args); [by cbn|]. cbn zeta.
    destruct (match args with [] => [] | _ => _ end) as [|a [|]]; [by cbn|destruct (Atoi a); by cbn|by cbn].
  - by cbn.
  - by cbn.
  - unfold runEcho. destruct (parseFlags _ _). by apply echoArgs_result.
Qed.

(** None of them spawns a command. *)
Fixpoint spawnless (p : prog) : Prop :=
  match p with
  | PRet _ => True
  | PDo c k => match c with CRunCommand _ _ _ _ => False | _ => True end /\ forall a, spawnless (k a)
  end.

Lemma spawnless_checks checked p : spawnless p -> checksFirst checked p.
Proof.
  revert checked. induction p as [res|c k IH]; [done|]. intros checked [Hc Hk].
  destruct c; first [done|intros a; exact (IH a _ (Hk a))].
Qed.

Lemma echoArgs_spawnless f first args : spawnless (echoArgs f first args).
Proof.
  revert first. induction args as [|a args IH]; intros first; cbn; [by destruct (noNewline f)|].
  destruct (escapes f); [destruct (processEscapes a) as [s []]|]; destruct first; cbn; auto.
Qed.

Lemma LoopControl_spawnless cc name args : spawnless (LoopControl cc name args).
Proof.
  unfold LoopControl. destruct (negb (cc_InLoop cc)); [by cbn|].
  destruct args as [|a [|]]; cbn; [|destruct (Atoi a) as [n|]|]; try by cbn.
  destruct (n <? 1)%Z; by cbn.
Qed.

Lemma controlRegistry_spawnless name c cc args : controlRegistry name = Some c -> spawnless (cmd_run c cc args).
Proof.
  unfold controlRegistry. intros H.
  repeat (destruct (name =s _); [injection H as <-|]); [..|done]; cbn [cmd_run plainCommand].
  - unfold runBreak. destruct (isHelp args); [by cbn|apply LoopControl_spawnless].
  - unfold runContinue. destruct (isHelp args); [by cbn|apply LoopControl_spawnless].
  - unfold runExit. destruct (isHelp args); [by cbn|]. cbn zeta.
    destruct (match args with [] => [] | _ => _ end) as [|a [|]]; [by cbn|destruct (Atoi a); by cbn|by cbn].
  - by cbn.
  - by cbn.
  - unfold runEcho. destruct (parseFlags _ _). by apply echoArgs_spawnless.
Qed.

(** *** The text echo prints *)

(** What a handler writes to stdout, whatever it is answered. *)
Fixpoint printed (p : prog) : bytes :=
  match p with
  | PRet _ => []
  | PDo (COut s) k => s ++ printed (k (mkAnswer [] 0 true None))
  | PDo _ k => printed (k (mkAnswer [] 0 true None))
  end.

(** Doubling the backslashes. *)
Fixpoint quoteBackslashes (s : bytes) : bytes :=
  match s with
  | [] => []
  | c :: s => (if Ascii.eqb c ch_bs then [ch_bs; ch_bs] else [c]) ++ quoteBackslashes s
  end.

Lemma escapeLoop_quoted s : forall fuel, length (quoteBackslashes s) <= fuel ->
  escapeLoop fuel (quoteBackslashes s) = (s, false).
Proof.
  induction s as [|c s IH]; intros fuel Hf; [by destruct fuel|]. cbn [quoteBackslashes] in Hf |- *.
  destruct fuel as [|fuel]; [destruct (Ascii.eqb c ch_bs); cbn in Hf; lia|].
  destruct (Ascii.eqb_spec c ch_bs) as [->|Hne]; cbn [app length] in Hf |- *.
  - change (escapeLoop (S fuel) (ch_bs :: ch_bs :: quoteBackslashes s)) with
      (let '(o, stop) := escapeLoop fuel (quoteBackslashes s) in ([ch_bs] ++ o, stop)).
    rewrite IH by lia. done.
  - specialize (IH fuel ltac:(lia)). destruct (quoteBackslashes s) as [|d q] eqn:Eq.
    + destruct s as [|d s]; [done|]. cbn in Eq. by destruct (Ascii.eqb d ch_bs).
    + cbn [escapeLoop]. rewrite (proj2 (Ascii.eqb_neq c ch_bs) Hne). cbn [negb]. by rewrite IH.
Qed.

Lemma processEscapes_quoted s : processEscapes (quoteBackslashes s) = (s, false).
Proof. by apply escapeLoop_quoted. Qed.

(** The arguments after the first, each after a space. *)
Definition joined (args : list bytes) : bytes := mjoin (map (fun a => lit " " ++ a) args).

Lemma printed_quoted args : forall first,
  printed (echoArgs (mkEcho false true) first (map quoteBackslashes args)) =
  match args with
  | a :: rest => (if first then a else lit " " ++ a) ++ joined rest ++ nl
  | [] => nl
  end.
Proof.
  induction args as [|a args IH]; intros first; cbn [map echoArgs escapes]; [done|].
  rewrite processEscapes_quoted. cbn [fst snd].
  assert (Htail : printed (echoArgs (mkEcho false true) false (map quoteBackslashes args)) = joined args ++ nl).
  { rewrite IH. destruct args as [|b args]; [done|]. unfold joined. cbn [map mjoin list_join]. by rewrite <- !app_assoc. }
  destruct first; cbn [Out printed]; by rewrite Htail, ?app_assoc.
Qed.

(** [echo -e] prints any words back once their backslashes are doubled:
    one space between them, a newline at the end, whatever the bytes are. *)
Theorem echo_prints_quoted cc args :
  printed (runEcho cc (lit "-e" :: lit "-E" :: lit "-e" :: lit "x" :: map quoteBackslashes args)) =
  lit "x" ++ joined args ++ nl.
Proof.
  change (printed (echoArgs (mkEcho false true) true (map quoteBackslashes (lit "x" :: args))) = lit "x" ++ joined args ++ nl).
  by rewrite printed_quoted.
Qed.
End InterpBuiltins.
