(* ===== verification/InterpOptions.v ===== *)
(** * Options of a runner that name commands

    [AllowedCommands] and [SelectiveElevation] of [interp/api.go]: namespaced
    names, turned into the sets the gates of [InterpCall] look in. *)

From S2P Require Import Prelude.
From stdpp Require Import base list gmap sets strings.
From Stdlib Require Import ZArith Lia Ascii.

Module InterpOptions.

Definition colon : ascii := ":"%char.

Definition hasColon (s : bytes) : bool := existsb (Ascii.eqb colon) s.

(** [strings.Index(s, ":")] and the slices before and after it. *)
Fixpoint cutColon (s : bytes) : option (bytes * bytes) :=
  match s with
  | [] => None
  | c :: s =>
      if Ascii.eqb colon c then Some ([], s)
      else match cutColon s with Some (a, b) => Some (c :: a, b) | None => None end
  end.

Inductive optionError :=
| EmptyName
| MissingNamespace (n : bytes)
| MultipleColons (n : bytes)
| UnknownNamespace (n ns : bytes)
| EmptyCommand (n : bytes)
| ElevateRequired
| InvalidCommand (n : bytes).

Definition rshell : bytes := lit "rshell".

Definition parseName (n : bytes) : optionError + bytes :=
  match n with
  | [] => inl EmptyName
  | _ =>
      match cutColon n with
      | None => inl (MissingNamespace n)
      | Some (ns, cmd) =>
          if hasColon cmd then inl (MultipleColons n)
          else if negb (bytes_eqb ns rshell) then inl (UnknownNamespace n ns)
          else if bytes_eqb cmd [] then inl (EmptyCommand n)
          else inr cmd
      end
  end.

Fixpoint parseAllowedCommands (names : list bytes) : optionError + gset bytes :=
  match names with
  | [] => inr ∅
  | n :: names =>
      match parseName n with
      | inl e => inl e
      | inr cmd => match parseAllowedCommands names with inl e => inl e | inr m => inr ({[cmd]} ∪ m) end
      end
  end.

(** [SelectiveElevation]; [elevate] says whether the callback was given. *)
Definition elevationName (n : bytes) : optionError + bytes :=
  match cutColon n with
  | Some (ns, cmd) =>
      if negb (length ns =? length rshell) || hasColon cmd || (length n =? length (lit "rshell:"))
      then inl (InvalidCommand n) else inr cmd
  | None => inl (InvalidCommand n)
  end.

Fixpoint elevationNames (names : list bytes) : optionError + gset bytes :=
  match names with
  | [] => inr ∅
  | n :: names =>
      match elevationName n with
      | inl e => inl e
      | inr cmd => match elevationNames names with inl e => inl e | inr m => inr ({[cmd]} ∪ m) end
      end
  end.

Definition SelectiveElevation (names : list bytes) (elevate : bool) : optionError + gset bytes :=
  if negb elevate then inl ElevateRequired else elevationNames names.

(** ** What is accepted *)

(** A command name, as it may follow the namespace. *)
Definition commandName (c : bytes) : Prop := c <> [] /\ hasColon c = false.

Definition namespaced (c : bytes) : bytes := rshell ++ [colon] ++ c.

Lemma cutColon_spec s : match cutColon s with
  | Some (a, b) => s = a ++ [colon] ++ b /\ hasColon a = false
  | None => hasColon s = false end.
Proof.
  induction s as [|c s IH]; [done|]. unfold hasColon in *. cbn [cutColon existsb].
  destruct (Ascii.eqb_spec colon c) as [<-|Hc]; [done|].
  destruct (cutColon s) as [[a b]|]; [|done]. destruct IH as [-> Ha]. split; [done|].
  cbn [existsb]. by rewrite (proj2 (Ascii.eqb_neq _ _) Hc).
Qed.

Lemma cutColon_namespaced c : cutColon (namespaced c) = Some (rshell, c).
Proof. done. Qed.

Lemma parseName_spec n c : parseName n = inr c <-> n = namespaced c /\ commandName c.
Proof.
  split.
  - unfold parseName. destruct n as [|d n]; [done|]. pose proof (cutColon_spec (d :: n)) as Hcut.
    destruct (cutColon (d :: n)) as [[ns cmd]|]; [|done]. destruct Hcut as [-> _].
    destruct (hasColon cmd) eqn:Ec; [done|]. destruct (bytes_eqb ns rshell) eqn:En; [|done].
    destruct (bytes_eqb cmd []) eqn:Ee; [done|]. intros [= <-].
    apply bytes_eqb_true in En as ->. split; [done|]. split; [|done]. intros ->. done.
  - intros [-> [Hne Hc]]. unfold parseName. change (namespaced c) with ("r"%char :: tail (namespaced c)) at 1.
    rewrite cutColon_namespaced, Hc. cbn [negb bytes_eqb]. destruct c; [done|]. done.
Qed.

(** [AllowedCommands] accepts a list exactly when every entry is
    [rshell:<command>] with a non-empty command that holds no colon, and then
    allows exactly these commands. *)
Theorem allowed_commands_exact names m :
  parseAllowedCommands names = inr m <->
  exists cmds, names = map namespaced cmds /\ Forall commandName cmds /\ m = list_to_set cmds.
Proof.
  revert m. induction names as [|n names IH]; intros m; cbn [parseAllowedCommands].
  - split; [intros [= <-]; by exists []|]. intros [[|c cmds] [E [_ ->]]]; [done|discriminate E].
  - split.
    + destruct (parseName n) as [e|c] eqn:En; [done|]. apply parseName_spec in En as [-> Hc].
      destruct (parseAllowedCommands names) as [e|m'] eqn:Em; [done|]. intros [= <-].
      destruct (proj1 (IH m') eq_refl) as [cmds [-> [Hf ->]]]. exists (c :: cmds). by split_and!; [|constructor|].
    + intros [[|c cmds] [E [Hf ->]]]; [done|]. cbn [map] in E. injection E as -> ->.
      inversion_clear Hf. rewrite (proj2 (parseName_spec _ c)) by done.
      by rewrite (proj2 (IH (list_to_set cmds))) by (by exists cmds).
Qed.

(** The elevation list checks where the colon is, not the namespace. *)
Lemma elevation_accepts_any_namespace :
  elevationNames [lit "foobar:cat"] = inr {[lit "cat"]} /\
  parseAllowedCommands [lit "foobar:cat"] = inl (UnknownNamespace (lit "foobar:cat") (lit "foobar")).
Proof. split; [|done]. vm_compute. reflexivity. Qed.

End InterpOptions.
