(* ===== verification/InterpRunWitness.v ===== *)
(** * Runs on concrete scripts

    A concrete syntax tree, expander and registry at which the theorems on
    runs apply, with what the runs evaluate to. *)

From S2P Require Import Prelude Nesting InterpSyntax InterpValidate InterpValidateSpec InterpTilde InterpVars InterpStore InterpState InterpExpand InterpRedir InterpCall InterpExec InterpLogic InterpExecLogic InterpExecSpec InterpOutput InterpReturns InterpLiveness InterpBuiltins.
From stdpp Require Import base list gmap sets strings.
From Stdlib Require Import ZArith Lia Ascii.

(** * Concrete scripts for the theorems on the interpreter

    Small syntax trees, written as tables of views, at which the hypotheses of
    the theorems on the validator hold. *)

Module InterpWitness.
Import InterpSyntax InterpValidate InterpValidateSpec InterpTilde.

Definition noSplit (i : nat) : bool * list nat := (false, []).

(** Every node of the table is a child of one node at most. *)
Definition tableTree (table : list (nodeView nat)) : bool :=
  forallb (fun p => forallb (fun q => (p =? q) ||
    forallb (fun c => negb (bool_decide (c ∈ tableChildren table q))) (tableChildren table p))
    (seq 0 (length table))) (seq 0 (length table)).

Lemma table_unshared table split root :
  tableTree table = true -> unshared (SX := tableSyntax table split) root.
Proof.
  intros Ht p q c _ _ Hp Hq. cbn in p, q, c. change (c ∈ tableChildren table p) in Hp.
  change (c ∈ tableChildren table q) in Hq.
  pose proof (tableChildren_bound table p c Hp). pose proof (tableChildren_bound table q c Hq).
  unfold tableTree in Ht. rewrite forallb_forall in Ht.
  specialize (Ht p ltac:(apply in_seq; lia)). rewrite forallb_forall in Ht.
  specialize (Ht q ltac:(apply in_seq; lia)). apply orb_true_iff in Ht as [Ht%Nat.eqb_eq|Ht]; [done|].
  rewrite forallb_forall in Ht. specialize (Ht c ltac:(by apply list_elem_of_In)).
  apply negb_true_iff, bool_decide_eq_false in Ht. done.
Qed.

Definition plainParam (name : string) : paramExp :=
  mkParamExp true false false false false false false false (Some (lit name)).

Definition stmt (cmd : nat) (redirs : list nat) : nodeView nat := VStmt (Some cmd) redirs false false false false.

(** [echo >$F] *)
Definition echoTable : list (nodeView nat) :=
  [VFile [1]; stmt 2 [5]; VCallExpr [] [3]; VWord [4]; VLit (lit "echo");
   VRedirect RdrOut None (Some 6) None; VWord [7]; VParamExp (plainParam "F")].

#[local] Instance echoSyntax : Syntax := tableSyntax echoTable noSplit.

Lemma validate_exact_witness :
  unshared (SX := echoSyntax) 0 /\ shallow (SX := echoSyntax) 0 /\ permitted (SX := echoSyntax) false RPlain 0.
Proof.
  assert (Hone : unshared (SX := echoSyntax) 0) by (apply table_unshared; vm_compute; reflexivity).
  split; [exact Hone|].
  apply (validate_exact (SX := echoSyntax) (fun _ => false) 0 false 0 Hone). vm_compute. reflexivity.
Defined.

Lemma static_write_gate_witness : harmlessTarget (SX := echoSyntax) (Some 6).
Proof.
  refine (static_write_gate (SX := echoSyntax) (fun _ => false) 0 0 5 RdrOut None (Some 6) None _ _ _ _ _).
  - apply table_unshared. vm_compute. reflexivity.
  - vm_compute. reflexivity.
  - apply (below_child (SX := echoSyntax) 0 1 5); [left|].
    apply (below_child (SX := echoSyntax) 1 5 5); [right; left|]. constructor.
  - reflexivity.
  - reflexivity.
Defined.

(** The words [{~x,y}] and [{x~,y}], with their brace expansions. *)
Definition braceTable : list (nodeView nat) :=
  [VWord [2]; VWord [3]; VLit (lit "{~x,y}"); VLit (lit "{x~,y}");
   VBraceExp false [5; 6]; VWord [7]; VWord [8]; VLit (lit "~x"); VLit (lit "y");
   VBraceExp false [10; 11]; VWord [12]; VWord [13]; VLit (lit "x~"); VLit (lit "y")].

Definition braceSplit (i : nat) : bool * list nat := (true, [if i =? 0 then 4 else 9]).

#[local] Instance braceSyntax : Syntax := tableSyntax braceTable braceSplit.

(** A concrete expander of sequences, for the hypothesis on it. *)
Definition oneTwo (es : list nat) : list bytes := [lit "1"; lit "2"].

Lemma oneTwo_items es v : v ∈ oneTwo es -> sequenceItem (SX := braceSyntax) es v.
Proof.
  intros Hv. left. unfold oneTwo in Hv.
  apply elem_of_cons in Hv as [->|Hv]; [exists "1"%char, []; split; [reflexivity|by left]|].
  apply elem_of_cons in Hv as [->|Hv]; [exists "2"%char, []; split; [reflexivity|by left]|].
  by apply elem_of_nil in Hv.
Qed.

Lemma braceTable_plain : plainBraces (SX := braceSyntax) [4].
Proof.
  intros p m ->%list_elem_of_singleton _ sequence es Hm. cbn in m.
  do 15 (destruct m as [|m]; [vm_compute in Hm; try discriminate; injection Hm as <- <-; by split|]).
  discriminate.
Qed.

Lemma tilde_fields_exact_witness :
  (exists f, f ∈ braceFields (SX := braceSyntax) oneTwo [4] /\ startsTilde f = true) /\
  (forall f, f ∈ braceFields (SX := braceSyntax) oneTwo [9] -> startsTilde f = false).
Proof.
  split.
  - apply (proj2 (tilde_fields_exact (SX := braceSyntax) oneTwo oneTwo_items (fun _ => false) 0 0 [4] eq_refl eq_refl)).
    + exact braceTable_plain.
    + reflexivity.
    + vm_compute. reflexivity.
  - apply (proj1 (tilde_fields_exact (SX := braceSyntax) oneTwo oneTwo_items (fun _ => false) 1 0 [9] eq_refl eq_refl)).
    vm_compute. reflexivity.
Defined.

(** ** Variable storage

    The methods of the third-party variable type, as documented. *)
Module Storage.
Import InterpVars InterpStore.

Definition isSet (v : Var) : bool := v_Set v.
Definition declared (v : Var) : bool := v_Set v || v_Local v || v_Exported v || v_ReadOnly v.
Definition noBase (name : bytes) : Var := zeroVar.

Definition strVar (s : bytes) : Var := mkVar true false false false KString s [] [].

Lemma noBase_each (nv : bytes * Var) : nv ∈ ([] : list (bytes * Var)) -> v_Local (snd nv) = false.
Proof. by intros ?%elem_of_nil. Qed.

Lemma global_empty : global ∅.
Proof. intros n vr H. by rewrite lookup_empty in H. Qed.

Definition setIn (o : nat) (name : string) (v : bytes) (h : heap) : heap :=
  snd (SetVar isSet declared noBase o (lit name) (strVar v) h).

(** [A=one; (B=two)], before the subshell ends. *)
Definition h0 : heap := started ∅.
Definition h1 : heap := setIn 0 "A" (lit "one") h0.
Definition h2 : heap := snd (newOverlayEnviron declared [] (EnvOverlay 0) false h1).
Definition h3 : heap := setIn 2 "B" (lit "two") h2.

Definition ov (h : heap) (o : nat) : overlayEnviron := overlay h o.

Lemma h3_run : run isSet declared noBase [] (started ∅) true h3.
Proof.
  apply (run_step _ _ _ _ _ true true h2 h3).
  - apply (run_step _ _ _ _ _ true true h1 h2).
    + apply (run_step _ _ _ _ _ true true h0 h1); [constructor|].
      apply (step_set _ _ _ _ h0 0 (lit "A") (strVar (lit "one")) (ov h0 0)); [vm_compute; reflexivity|reflexivity].
    + apply (step_new _ _ _ _ h1 0 false (ov h1 0)). vm_compute. reflexivity.
  - apply (step_set _ _ _ _ h2 2 (lit "B") (strVar (lit "two")) (ov h2 2)); [vm_compute; reflexivity|reflexivity].
Qed.

Lemma storage_exact_witness :
  live h3 1 = total (o_charged <$> overlays h3) /\ live h3 1 = mkStorage 6 130.
Proof.
  split; [|vm_compute; reflexivity].
  apply (storage_exact isSet declared noBase [] eq_refl (fun _ => eq_refl) noBase_each ∅ true h3 global_empty h3_run).
Defined.

Lemma storage_capped_witness :
  exceedsCaps (live h3 1) = false /\
  (exists h, SetVar isSet declared noBase 2 (lit "B") (strVar (lit "four")) h3 = (None, h)).
Proof.
  destruct (storage_capped isSet declared noBase [] eq_refl (fun _ => eq_refl) noBase_each ∅ h3 global_empty h3_run)
    as [H1 H2].
  split; [exact H1|].
  specialize (H2 2 (ov h3 2) (lit "B") (strVar (lit "four")) ltac:(vm_compute; reflexivity) eq_refl
    ltac:(discriminate) eq_refl ltac:(vm_compute; reflexivity)).
  cbv zeta in H2. destruct (grows _ _ && exceedsCaps _) eqn:E; [vm_compute in E; discriminate|].
  eexists. exact H2.
Defined.

(** [A=temp cmd] in the subshell, where [A] is inherited, and [cmd] sets it. *)
Lemma temporary_binding_restored_witness :
  restoreBinding 2 (snapshotBinding 2 (lit "A") h3) (setIn 2 "A" (lit "again") (setIn 2 "A" (lit "temp") h3)) = h3.
Proof.
  apply (temporary_binding_restored isSet declared noBase [] eq_refl (fun _ => eq_refl) noBase_each ∅ true h3 2 (ov h3 2)
    (lit "A") _ global_empty h3_run); [vm_compute; reflexivity|].
  apply rebinds_set; [|reflexivity]. apply rebinds_set; [|reflexivity]. constructor.
Defined.

(** Undoing a temporary assignment can leave more in store than the cap: a
    large value is set aside by [A= cmd], the command fills the budget again,
    and the restore is not checked. *)
Definition large : bytes := replicate (Z.to_nat 600000) "x"%char.

Definition full : heap :=
  let h := setIn 0 "A" large (started ∅) in
  let sn := snapshotBinding 0 (lit "A") h in
  restoreBinding 0 sn (setIn 0 "B" large (setIn 0 "A" [] h)).

Lemma restore_exceeds_cap : exceedsCaps (live full 1) = true.
Proof. vm_compute. reflexivity. Qed.
End Storage.

End InterpWitness.

Module InterpRunWitness.
Import InterpSyntax InterpVars InterpState InterpExpand InterpRedir InterpCall InterpExec
  InterpLogic InterpExecLogic InterpExecSpec InterpOutput InterpBuiltins InterpReturns InterpLiveness.

(** An expander of plain words: each is one field, its text. *)
Section Plain.
Context {SX : Syntax}.

Definition isSet (v : Var) : bool := v_Set v.
Definition declared (v : Var) : bool := v_Set v || negb (bool_decide (v_Kind v = KUnknown)).

Definition partText (p : part) : bytes := match pview p with VLit v => v | VSglQuoted v => v | _ => [] end.

Definition plainExpander : expander := mkExpander
  (fun w => XYield (mjoin (map (fun p => partText (Old p)) (Parts w))) None XDone)
  (fun w => XRet (mjoin (map (fun p => partText (Old p)) (Parts w))) None)
  (fun ps => XRet (mjoin (map partText ps)) None)
  isSet declared v_Str (fun v _ => ([], v)) (fun _ => zeroVar) [].

(** The runner and the world of [Reset]: one overlay, nothing written yet. *)
Definition startHeap : heap := snd (newOverlayEnviron declared [] EnvBase false (mkHeap ∅ ∅ 0)).

Definition startRunner : Runner :=
  mkRunner (lit "/") InNil (OutHost false) (OutHost true) false 0 0 0 0 0 0 false exit0 exit0 exit0 None 1 [] [] [].

Definition startWorld : world := mkWorld [] 0 ∅ startHeap 0 0 0 0.
End Plain.

(** A host whose context never ends and whose writers take everything. *)
Definition quietHost : oracles := mkOracles (fun _ => None) (fun _ => inl 7%Z) (fun _ => (false, [], None))
  (fun _ => None) (fun _ => None) (fun _ => ([], None)) (fun _ => (Z.to_nat maxStdoutBytes, None))
  (fun _ => 0%Z) (fun _ => (true, None)) (fun _ => None) (fun _ => ([], None)).

(** Every builtin of the control registry, nothing else. *)
Definition controlConfig : runnerConfig :=
  mkConfig false (fun n => str_in n ["echo"; "break"; "continue"; "true"]%string) false false false (fun _ => false) controlRegistry.

Lemma controlConfig_handlers : handlersOK controlConfig.
Proof. intros name c cc args H. by apply (controlRegistry_result name). Qed.

(** ** [while true; do break 5; done; echo hi] *)

Definition word (text : string) (i : nat) : list (nodeView nat) := [VWord [S i]; VLit (lit text)].
Definition stmtOf (c : nat) : nodeView nat := VStmt (Some c) [] false false false false.

Definition loopTable : list (nodeView nat) :=
  [VFile [1; 3]; stmtOf 2; VWhileClause false [5] [8]; stmtOf 4; VCallExpr [] [17; 19];
   stmtOf 6; VCallExpr [] [11]; VOther; stmtOf 9; VCallExpr [] [13; 15]; VOther]
  ++ word "true" 11 ++ word "break" 13 ++ word "5" 15 ++ word "echo" 17 ++ word "hi" 19.

#[local] Instance loopSyntax : Syntax := tableSyntax loopTable (fun _ => (false, [])).

Definition loopRun := Run (SX := loopSyntax) quietHost plainExpander controlConfig 10 (fun _ _ => 1) 0 startRunner startWorld.

Definition stdoutOf {A} (o : outcome A) : option (list bytes) :=
  match o with
  | Done _ _ w => Some (mjoin (map (fun e => match e with EWrite (OutHost false) p => [p] | _ => [] end) (hist w)))
  | _ => None
  end.

Lemma loop_run_prints : stdoutOf loopRun = Some [lit "hi"; [ch_nl]].
Proof. vm_compute. reflexivity. Qed.

Lemma loopRun_ends : match loopRun with Done _ _ _ => true | _ => false end = true.
Proof. vm_compute. reflexivity. Qed.

Lemma run_stdout_bounded_witness :
  exists res r' w', loopRun = Done res r' w' /\ stdoutBounded quietHost (hist startWorld) (hist w').
Proof.
  assert (H : match loopRun with
    | Done _ _ w' | Panicked _ _ w' => stdoutBounded quietHost (hist startWorld) (hist w')
    | NoFuel => True end).
  { exact (run_stdout_bounded (SX := loopSyntax) quietHost plainExpander controlConfig 10 (fun _ _ => 1)
      0 startRunner startWorld ltac:(split; reflexivity) ltac:(discriminate) ltac:(discriminate)). }
  pose proof loopRun_ends as E.
  destruct loopRun as [res r' w'| |]; [|discriminate E|discriminate E].
  exists res, r', w'. split; [reflexivity|exact H].
Defined.

(** A writer that takes what it is given and then reports a failure: the chunk
    that crosses the limit of 3 is offered twice, and 6 bytes are taken. *)
Definition failingHost : oracles := mkOracles (ctxErr quietHost)
  (answerOpen quietHost) (answerRead quietHost) (answerStat quietHost) (answerPipe quietHost) (answerDir quietHost)
  (fun _ => (3, Some (plainErr (lit "broken pipe"))))
  (answerSibling quietHost) (answerElevate quietHost) (answerMutate quietHost) (answerAsk quietHost).

Lemma failing_writer_exceeds :
  stdoutOf ((limitWrite (SX := loopSyntax) failingHost 0 (lit "abcd");; limitWrite failingHost 0 (lit "efgh")) startRunner
    (set_writers (<[0 := mkLimit (SHost false) 3 0 false]> ∅) startWorld)) = Some [lit "abc"; lit "efg"].
Proof. vm_compute. reflexivity. Qed.

(** ** [while true; do true; done]

    Nothing in the script ends this loop; the context does, from its 40th poll
    on. *)

Definition endlessTable : list (nodeView nat) :=
  [VFile [1]; stmtOf 2; VWhileClause false [3] [5]; stmtOf 4; VCallExpr [] [7]; stmtOf 6; VCallExpr [] [9]]
  ++ word "true" 7 ++ word "true" 9.

Definition cancelledHost : oracles := mkOracles
  (fun n => if n <? 40 then None else Some (plainErr (lit "context canceled")))
  (answerOpen quietHost) (answerRead quietHost) (answerStat quietHost) (answerPipe quietHost) (answerDir quietHost)
  (answerWrite quietHost) (answerSibling quietHost) (answerElevate quietHost) (answerMutate quietHost) (answerAsk quietHost).

Lemma cancelledHost_cancels n : 40 <= n -> ctxErr cancelledHost n <> None.
Proof. cbn [ctxErr cancelledHost]. by destruct (Nat.ltb_spec n 40); [lia|]. Qed.

Lemma plainExpander_below {SX : Syntax} : asksBelow plainExpander.
Proof. by constructor. Qed.

(** A command that checks its context and then runs itself, in the registry
    beside those of the control registry. *)
Definition runAgain (cc : CallContext) (args : list bytes) : prog :=
  PDo CCtxErr (fun a =>
    match ans_err a with
    | Some _ => ret 1
    | None => PDo (CRunCommand (lit "/") (lit "again") args None) (fun _ => ret 0)
    end).

Definition againConfig : runnerConfig :=
  mkConfig false (fun n => str_in n ["true"; "again"]%string) false false false (fun _ => false)
    (fun n => if n =s "again" then Some (mkCommand runAgain false []) else controlRegistry n).

Lemma againConfig_checked : spawnsChecked (cfg := againConfig).
Proof.
  intros name c cc args H. cbn [registry againConfig] in H. destruct (name =s "again").
  - injection H as <-. cbn. intros a. destruct (ans_err a); cbn; done.
  - by eapply spawnless_checks, controlRegistry_spawnless.
Qed.

(** The same run with [again] in the body: it is nested until the
    cancellation, and the loop does not go on after it. *)
Definition againTable : list (nodeView nat) :=
  [VFile [1]; stmtOf 2; VWhileClause false [3] [5]; stmtOf 4; VCallExpr [] [7]; stmtOf 6; VCallExpr [] [9]]
  ++ word "true" 7 ++ word "again" 9.

Definition endlessRun (table : list (nodeView nat)) :=
  Run (SX := tableSyntax table (fun _ => (false, []))) cancelledHost plainExpander againConfig 41 (fun _ _ => 40)
    0 startRunner startWorld.

Definition errorOf {SX : Syntax} (o : outcome runError) : option bytes :=
  match o with Done (RError e) _ _ => Some (errText e) | _ => None end.

Definition spawnedOf {SX : Syntax} {A} (o : outcome A) : nat :=
  match o with
  | Done _ _ w => foldr (fun e n => match e with EDispatch _ _ _ _ true => S n | _ => n end) 0 (hist w)
  | _ => 0
  end.

Lemma cancelled_run_returns_witness :
  match endlessRun endlessTable with Done _ _ _ | Panicked _ _ _ => True | NoFuel => False end
  /\ match endlessRun againTable with Done _ _ _ | Panicked _ _ _ => True | NoFuel => False end
  /\ errorOf (endlessRun endlessTable) = Some (lit "context canceled")
  /\ 20 < spawnedOf (endlessRun againTable).
Proof.
  assert (H : forall table, match endlessRun table with Done _ _ _ | Panicked _ _ _ => True | NoFuel => False end).
  { intros table. exact (cancelled_run_returns (SX := tableSyntax table (fun _ => (false, []))) cancelledHost plainExpander
      againConfig 41 (fun _ _ => 40) 40 0 startRunner startWorld
      plainExpander_below againConfig_checked cancelledHost_cancels (le_n _) (fun _ _ => le_n _)). }
  split; [exact (H endlessTable)|split; [exact (H againTable)|split; [vm_compute; reflexivity|]]].
  apply Nat.ltb_lt. vm_compute. reflexivity.
Defined.

(** The [while] as a statement of its own, with [break 5] clamped. *)
Definition boundedRunner : Runner (SX := loopSyntax) := set_r_stdout Discard (set_r_stderr Discard startRunner).

Abbreviation boundedStmt := (stmtFuel (SX := loopSyntax) quietHost plainExpander controlConfig 10 (fun _ _ => 1) 20 1 boundedRunner startWorld).

Lemma boundedStmt_ends : match boundedStmt with Done _ _ _ => true | _ => false end = true.
Proof. vm_compute. reflexivity. Qed.

Lemma loop_levels_clamped_witness :
  handlersOK controlConfig /\ exists r' w', boundedStmt = Done tt r' w' /\ inLoop r' = false /\ loopInv r'.
Proof.
  split; [exact controlConfig_handlers|]. pose proof boundedStmt_ends as E0.
  destruct boundedStmt as [[] r' w'| |] eqn:E; [|discriminate E0|discriminate E0].
  exists r', w'. split; [reflexivity|].
  refine (loop_levels_clamped (SX := loopSyntax) quietHost plainExpander controlConfig 10 (fun _ _ => 1) 20 1 boundedRunner startWorld r' w'
    controlConfig_handlers _ _ E); by repeat split.
Defined.

(** A command outside the allow list, whose words would have run a handler. *)
Lemma refused_call_witness (m := fun r w => Done (Some [lit "rm"]) r (set_hist (hist w ++ [EMutate (lit "/x")]) w)) :
  exists r' w', call (SX := loopSyntax) quietHost plainExpander controlConfig (fun _ _ => 1) [lit "rm"] m startRunner startWorld = Done tt r' w'
    /\ x_code (exit r') = 127%Z /\ dispatchedCount r' = 0%Z /\ grows isWrite startWorld w' /\ vars w' = startHeap.
Proof.
  refine (refused_call (SX := loopSyntax) quietHost plainExpander controlConfig (fun _ _ => 1) [lit "rm"] m startRunner startWorld 127 _ _ _ _ _);
    first [reflexivity | discriminate | exact I].
Defined.

(** ** Heredocs with [<<-] *)

Section Dash.
Context {SX : Syntax} (O : oracles) (X : expander) (rec : Node -> M unit).

(** The separator of a line is only written once some text precedes it, so
    the empty first lines of the document are lost. *)
Lemma dash_drops_leading_newlines :
  match dashBody quietHost X (fun _ => true) false false rec 0 true [NewLit (ch_nl :: ch_nl :: lit "x" ++ [ch_nl])] startRunner startWorld with
  | Done (inr text) _ _ => Some text
  | _ => None
  end = Some (lit "x" ++ [ch_nl]).
Proof. vm_compute. reflexivity. Qed.

(** The tabs at the start of every literal part go, also when the part does
    not start a line: [$x<tab>y] loses its tab. *)
Lemma dash_strips_inner_tab p r w : (forall v, pview p <> VLit v) ->
  dashParts O X (fun _ => true) false false rec false [p; NewLit (ch_tab :: lit "y")] [] [] None r w =
  Done ([p; NewLit (lit "y")], [], None) r w.
Proof.
  intros Hp. unfold dashParts. destruct (pview p) eqn:E; try reflexivity. by destruct (Hp Value).
Qed.
End Dash.

End InterpRunWitness.
