(* ===== verification/JqValue.v ===== *)
(** * Values of jq (builtins/jq/value.go)

    JSON values with their cached sizes, the limits on them, numbers as integers
    of at most 256 bits or IEEE doubles, and the encoder.  The object index of
    the source, a map from a key to the position of its member, is the lookup
    of the first member with the key. *)

From S2P Require Import Prelude GoStd Utf8.
From stdpp Require Import base list strings.
From Stdlib Require Import ZArith Lia Ascii SpecFloat QArith.
#[local] Open Scope Z_scope.

Module JqValue.
Import GoStd Utf8.

(** ** Limits *)

Definition MaxFilterBytes : Z := 64 * 2 ^ 10.
Definition MaxTotalInputBytes : Z := 8 * 2 ^ 20.
Definition MaxNestingDepth : Z := 64.
Definition MaxFilterNodes : Z := 4096.
Definition MaxValueNodes : Z := 65536.
Definition MaxValueBytes : Z := 4 * 2 ^ 20.
Definition MaxIntegerBits : Z := 256.
Definition MaxEvalSteps : Z := 100000.
Definition MaxResults : Z := 10000.
Definition MaxResultNodes : Z := 2 * MaxValueNodes.
Definition MaxResultBytes : Z := 8 * 2 ^ 20.
Definition MaxOutputBytes : Z := 2 ^ 20.
Definition maxNumberBytes : Z := 256.
Definition maxNormalizedJSONBytes : Z := 3 * MaxValueBytes.

(** ** Doubles *)

Abbreviation float64 := spec_float.

Definition ofInt (z : Z) : float64 := binary_normalize 53 1024 z 0 false.
Definition fadd : float64 -> float64 -> float64 := SFadd 53 1024.
Definition fsub : float64 -> float64 -> float64 := SFsub 53 1024.
Definition fmul : float64 -> float64 -> float64 := SFmul 53 1024.
Definition fdiv : float64 -> float64 -> float64 := SFdiv 53 1024.

Definition MaxFloat64 (neg : bool) : float64 := S754_finite neg (2 ^ 53 - 1) 971.

Definition finite (f : float64) : bool :=
  match f with S754_finite _ _ _ | S754_zero _ => true | _ => false end.

Definition signed (neg : bool) (z : Z) : Z := if neg then - z else z.

(** A non-negative integer times a power of two that a double can hold. *)
Definition exactly (neg : bool) (m e : Z) : float64 :=
  match m with
  | Zpos p => binary_round 53 1024 neg p e
  | _ => S754_zero neg
  end.

(** The integer part. *)
Definition truncZ (f : float64) : Z :=
  match f with
  | S754_finite neg m e => signed neg (if 0 <=? e then Zpos m * 2 ^ e else Zpos m / 2 ^ (- e))
  | _ => 0
  end.

Definition Trunc (f : float64) : float64 :=
  match f with
  | S754_finite neg m e => exactly neg (Z.abs (truncZ f)) 0
  | _ => f
  end.

(** [math.Mod]: the exact remainder, with the sign of the dividend. *)
Definition Mod (x y : float64) : float64 :=
  match x, y with
  | S754_nan, _ | _, S754_nan | S754_infinity _, _ | _, S754_zero _ => S754_nan
  | S754_zero _, _ | _, S754_infinity _ => x
  | S754_finite neg mx ex, S754_finite _ my ey =>
      let e := Z.min ex ey in
      exactly neg ((Zpos mx * 2 ^ (ex - e)) mod (Zpos my * 2 ^ (ey - e))) e
  end.

(** The double nearest to a decimal. *)
Definition ofDecimal (neg : bool) (m e10 : Z) : float64 :=
  match m with
  | Zpos p =>
      if 0 <=? e10 then exactly neg (Zpos p * 10 ^ e10) 0
      else let '(q, e, l) := SFdiv_core_binary 53 1024 (Zpos p) 0 (10 ^ (- e10)) 0 in
           binary_round_aux 53 1024 neg q e l
  | _ => S754_zero neg
  end.

Definition isDigit (c : ascii) : bool := (48 <=? code c) && (code c <=? 57).

Definition digitsValue (s : bytes) : Z := foldl (fun n c => 10 * n + (code c - 48)) 0 s.

(** An optional sign. *)
Definition takeSign (s : bytes) : bool * bytes :=
  match s with
  | c :: t => if (c =c "-")%go then (true, t) else if (c =c "+")%go then (false, t) else (false, s)
  | [] => (false, [])
  end.

(** The exponent of a literal: None when it is malformed. *)
Definition parseExponent (s : bytes) : option Z :=
  match s with
  | [] => Some 0
  | c :: t =>
      if (c =c "e")%go || (c =c "E")%go then
        let '(neg, ds) := takeSign t in
        if negb (bytes_eqb ds []) && forallb isDigit ds then Some (signed neg (digitsValue ds)) else None
      else None
  end.

(** [strconv.ParseFloat(text, 64)] on decimal literals; a value out of range is
    an infinity. *)
Definition ParseFloat (text : bytes) : option float64 :=
  let '(neg, s) := takeSign text in
  let n := run_length isDigit s in
  let '(frac, rest) :=
    match drop n s with
    | c :: t => if (c =c ".")%go then (take (run_length isDigit t) t, drop (run_length isDigit t) t) else ([], c :: t)
    | [] => ([], [])
    end in
  if (n + length frac =? 0)%nat then None
  else
    match parseExponent rest with
    | Some e => Some (ofDecimal neg (digitsValue (take n s ++ frac)) (e - Z.of_nat (length frac)))
    | None => None
    end.

(** [strconv.FormatFloat(f, 'g', -1, 64)], the shortest decimal that parses back
    to the double.  Nothing here depends on which one it is. *)
Class FloatText := FormatFloat : float64 -> bytes.

(** ** Numbers *)

Inductive number := Int (i : Z) | Flt (f : float64).

Definition isInteger (n : number) : bool := match n with Int _ => true | Flt _ => false end.

(** [big.Int.String]. *)
Definition bigString (n : Z) : bytes :=
  let digits m := formatDigits 10 (S (Z.to_nat (Z.log2 m))) m in
  if n <? 0 then "-"%char :: digits (- n) else digits n.

(** [big.Int.BitLen]. *)
Definition BitLen (n : Z) : Z := if n =? 0 then 0 else Z.log2 (Z.abs n) + 1.

Definition IsInt64 (n : Z) : bool := (- 2 ^ 63 <=? n) && (n <? 2 ^ 63).

Definition indexInt64 (n : number) : option Z :=
  match n with
  | Int i => if IsInt64 i then Some i else None
  | Flt (S754_infinity _) | Flt S754_nan => None
  | Flt f => if IsInt64 (truncZ f) then Some (truncZ f) else None
  end.

Definition numberFloat (n : number) : float64 := match n with Int i => ofInt i | Flt f => f end.

(** The exact rational of a number. *)
Definition numberQ (n : number) : Q :=
  match n with
  | Int i => inject_Z i
  | Flt (S754_finite neg m e) =>
      if 0 <=? e then inject_Z (signed neg (Zpos m) * 2 ^ e)
      else signed neg (Zpos m) # Z.to_pos (2 ^ (- e))
  | Flt _ => 0%Q
  end.

(** ** Errors *)

(** The messages of [runtimeErrorf], with what they report. *)
Inductive runtimeMsg :=
| UndefinedVariable (name : bytes) | CannotIterate (type : bytes) | CannotIndexString (type key : bytes)
| CannotIndex (type index : bytes) | CannotIndexValue (type : bytes) | NoLength | NoKeys (type : bytes)
| KeysMustBeStrings | IndicesMustBeNumbers | CannotCheckKey (type : bytes) | CannotNegate (type : bytes)
| CannotAdd (left right : bytes) | NotArithmetic (left right : bytes) | DivideByZero | RemainderByZero
| RepetitionRange | KeyNotString (type : bytes) | UnknownFunction (name : bytes).

Inductive jqErr :=
| RuntimeError (m : runtimeMsg)
| errEvaluationLimit | errResultLimit | errRetentionLimit
| errValueNodes | errValueBytes | errValueDepth | errIntegerRange
| errNotFinite | errNumberTooLong | errInvalidNumber (text : bytes)
| errContext | errImbalance | errInvalidNode | errUnsupportedOperator.

Definition runtimeErr (e : jqErr) : bool := match e with RuntimeError _ => true | _ => false end.

(** ** Values *)

#[local] Unset Elimination Schemes.

Inductive value :=
| JNull
| JBool (b : bool)
| JNumber (n : number)
| JString (s : bytes)
| JArray (items : list value) (nodes size depth : Z)
| JObject (members : list (bytes * value)) (nodes size depth : Z).

#[local] Set Elimination Schemes.

Lemma value_ind (P : value -> Prop) :
  P JNull -> (forall b, P (JBool b)) -> (forall n, P (JNumber n)) -> (forall s, P (JString s)) ->
  (forall items n s d, Forall P items -> P (JArray items n s d)) ->
  (forall ms n s d, Forall (fun kv => P (snd kv)) ms -> P (JObject ms n s d)) -> forall v, P v.
Proof.
  intros Hnull Hbool Hnum Hstr Harr Hobj. fix IH 1. intros [| | | |items n s d|ms n s d].
  - exact Hnull.
  - apply Hbool.
  - apply Hnum.
  - apply Hstr.
  - apply Harr. induction items as [|v items IHl]; constructor; [apply IH|exact IHl].
  - apply Hobj. induction ms as [|[k v] ms IHl]; constructor; [apply IH|exact IHl].
Qed.

Definition MaxString : Z := MaxValueBytes - 2.

Section Values.
Context `{FloatText}.

Definition numText (n : number) : bytes := match n with Int i => bigString i | Flt f => FormatFloat f end.

Definition nodesOf (v : value) : Z := match v with JArray _ n _ _ | JObject _ n _ _ => n | _ => 1 end.

Definition bytesOf (v : value) : Z :=
  match v with
  | JNull => 4
  | JBool b => if b then 4 else 5
  | JNumber n => Z.of_nat (length (numText n))
  | JString s => Z.of_nat (length s) + 2
  | JArray _ _ s _ | JObject _ _ s _ => s
  end.

Definition depthOf (v : value) : Z := match v with JArray _ _ _ d | JObject _ _ _ d => d | _ => 0 end.

(** *** Strings *)

(** The chunk is an invalid byte. *)
Definition badChunk (ch : bytes) : bool :=
  let '(r, w) := DecodeRune ch in (r =? RuneError) && (w =? 1)%nat.

Definition ValidString (s : bytes) : bool := forallb (fun ch => negb (badChunk ch)) (runes s).

(** [s[i]&0xc0 != 0x80] for some [i] below [expected]: the first such [i]. *)
Fixpoint badContinuation (s : bytes) (i expected : nat) : nat :=
  match s with
  | [] => expected
  | c :: s => if (i <? expected)%nat then (if Z.land (code c) 192 =? 128 then badContinuation s (S i) expected else i)
              else expected
  end.

(** How many bytes an ill-formed sequence takes. *)
Definition invalidUTF8UnitSize (s : bytes) : nat :=
  match s with
  | [] => 1
  | c :: t =>
      let b := code c in
      let expected :=
        if (194 <=? b) && (b <=? 223) then 2%nat
        else if (224 <=? b) && (b <=? 239) then 3%nat
        else if (240 <=? b) && (b <=? 244) then 4%nat else 1%nat in
      if (expected =? 1)%nat then 1%nat
      else if (length s <? expected)%nat then length s
      else badContinuation t 1 expected
  end.

Fixpoint normalizeFuel (fuel : nat) (s : bytes) : bytes :=
  match fuel, s with
  | S fuel, _ :: _ =>
      let '(r, w) := DecodeRune s in
      if (r =? RuneError) && (w =? 1)%nat
      then EncodeRune RuneError ++ normalizeFuel fuel (drop (invalidUTF8UnitSize s) s)
      else take w s ++ normalizeFuel fuel (drop w s)
  | _, _ => []
  end.

Definition normalizeUTF8 (s : bytes) : bytes := if ValidString s then s else normalizeFuel (length s) s.

Definition stringValue (s : bytes) : jqErr + value :=
  let s := normalizeUTF8 s in
  if MaxValueBytes <? Z.of_nat (length s) + 2 then inl errValueBytes else inr (JString s).

(** *** Numbers as values *)

Definition integerValue (i : Z) : jqErr + value :=
  if MaxIntegerBits <? BitLen i then inl errIntegerRange else inr (JNumber (Int i)).

Definition int64Value (i : Z) : value := JNumber (Int i).

Definition floatValue (f : float64) : jqErr + value :=
  match f with
  | S754_nan => inl errNotFinite
  | S754_infinity neg => inr (JNumber (Flt (MaxFloat64 neg)))
  | _ => inr (JNumber (Flt f))
  end.

(** [big.Int.SetString(text, 10)]. *)
Definition setString (text : bytes) : option Z :=
  let '(neg, ds) := takeSign text in
  if negb (bytes_eqb ds []) && forallb isDigit ds then Some (signed neg (digitsValue ds)) else None.

Definition parseNumber (text : bytes) : jqErr + value :=
  if bytes_eqb text [] || (maxNumberBytes <? Z.of_nat (length text)) then inl errNumberTooLong
  else if existsb (fun c => byte_in c ".eE") text then
    match ParseFloat text with
    | Some f => floatValue f
    | None => inl (errInvalidNumber text)
    end
  else
    match setString text with
    | None => inl (errInvalidNumber text)
    | Some i => if (i =? 0) && HasPrefix text (lit "-") then floatValue (S754_zero true) else integerValue i
    end.

(** *** Aggregates *)

(** The counts of nodes and bytes with the item added. *)
Definition addAggregate (ns : Z * Z) (item : value) (extra maxNodes maxBytes : Z) : jqErr + Z * Z :=
  let '(nodes, size) := ns in
  if maxNodes - nodes <? nodesOf item then inl errValueNodes
  else if (maxBytes <? extra) || (maxBytes - extra <? bytesOf item) || (maxBytes - extra - bytesOf item <? size)
  then inl errValueBytes
  else inr (nodes + nodesOf item, size + (extra + bytesOf item)).

(** The loop over the items: the totals, with one byte between items. *)
Fixpoint totals (items : list (Z * value)) (first : bool) (ns : Z * Z) : jqErr + Z * Z :=
  match items with
  | [] => inr ns
  | (extra, v) :: items =>
      match addAggregate ns v (extra + if first then 0 else 1) MaxValueNodes MaxValueBytes with
      | inl e => inl e
      | inr ns => totals items false ns
      end
  end.

Definition maxDepth (vs : list value) : Z := foldl (fun d v => Z.max d (depthOf v + 1)) 1 vs.

Definition arrayValue (items : list value) : jqErr + value :=
  match totals (map (fun v => (0, v)) items) true (1, 2) with
  | inl e => inl e
  | inr (nodes, size) =>
      let depth := maxDepth items in
      if MaxNestingDepth <? depth then inl errValueDepth else inr (JArray items nodes size depth)
  end.

Abbreviation member := (bytes * value)%type.

Fixpoint getMember {X} (key : bytes) (ms : list (bytes * X)) : option X :=
  match ms with
  | [] => None
  | (k, v) :: ms => if bytes_eqb k key then Some v else getMember key ms
  end.

(** Replace the value of the member with the key. *)
Fixpoint setMember {X} (key : bytes) (v : X) (ms : list (bytes * X)) : list (bytes * X) :=
  match ms with
  | [] => []
  | (k, w) :: ms => if bytes_eqb k key then (k, v) :: ms else (k, w) :: setMember key v ms
  end.

(** A member added: a later value of a key takes the place of the first. *)
Definition putMember (ms : list member) (item : member) : list member :=
  match getMember (fst item) ms with
  | Some _ => setMember (fst item) (snd item) ms
  | None => ms ++ [item]
  end.

Definition dedupe (items : list member) : list member := foldl putMember [] items.

Definition object (items : list member) : jqErr + value :=
  let members := dedupe items in
  match totals (map (fun kv => (Z.of_nat (length (fst kv)) + 3, snd kv)) members) true (1, 2) with
  | inl e => inl e
  | inr (nodes, size) =>
      let depth := maxDepth (map snd members) in
      if MaxNestingDepth <? depth then inl errValueDepth else inr (JObject members nodes size depth)
  end.

(** ** The encoder *)

(** A builder with a limit: None is [errOutputLimit]. *)
Definition writeString (limit : Z) (b s : bytes) : option bytes :=
  if limit - Z.of_nat (length b) <? Z.of_nat (length s) then None else Some (b ++ s).

Definition writeByte (limit : Z) (b : bytes) (c : ascii) : option bytes :=
  if limit <=? Z.of_nat (length b) then None else Some (b ++ [c]).

Definition hexChar (n : Z) : ascii := if n <? 10 then digitChar n else ascii_of_N (Z.to_N (87 + n)).

(** [fmt.Sprintf("\\u%04x", r)] of a byte. *)
Definition unicodeEscape (r : Z) : bytes := lit "\u00" ++ [hexChar (r / 16); hexChar (r mod 16)].

(** What a rune is written as inside quotes. *)
Definition escapeRune (r : Z) : bytes :=
  if r =? 34 then lit "\" ++ [ch_dq]
  else if r =? 92 then lit "\\"
  else if r =? 8 then lit "\b"
  else if r =? 12 then lit "\f"
  else if r =? 10 then lit "\n"
  else if r =? 13 then lit "\r"
  else if r =? 9 then lit "\t"
  else if (r <? 32) || (r =? 127) then unicodeEscape r
  else EncodeRune r.

Fixpoint appendRunes (limit : Z) (b : bytes) (chunks : list bytes) : option bytes :=
  match chunks with
  | [] => Some b
  | ch :: chunks => b ← writeString limit b (escapeRune (fst (DecodeRune ch))); appendRunes limit b chunks
  end.

Definition appendJSONString (limit : Z) (b s : bytes) : option bytes :=
  b ← writeByte limit b ch_dq;
  b ← appendRunes limit b (runes s);
  writeByte limit b ch_dq.

Fixpoint appendIndent (limit : Z) (b : bytes) (n : nat) : option bytes :=
  match n with
  | O => Some b
  | S n => b ← writeByte limit b " "%char; appendIndent limit b n
  end.

(** A new line and its indentation, when the output is pretty. *)
Definition appendBreak (limit : Z) (pretty : bool) (b : bytes) (depth : nat) : option bytes :=
  if pretty then b ← writeByte limit b ch_nl; appendIndent limit b (depth * 2) else Some b.

Section Append.
Context (limit : Z) (pretty : bool).

Fixpoint appendValue (b : bytes) (v : value) (depth : nat) {struct v} : option bytes :=
  match v with
  | JNull => writeString limit b (lit "null")
  | JBool true => writeString limit b (lit "true")
  | JBool false => writeString limit b (lit "false")
  | JNumber n => writeString limit b (numText n)
  | JString s => appendJSONString limit b s
  | JArray items _ _ _ =>
      b ← writeByte limit b "["%char;
      b ← (fix go (first : bool) (b : bytes) (items : list value) {struct items} : option bytes :=
             match items with
             | [] => Some b
             | v :: items =>
                 b ← (if first then Some b else writeByte limit b ","%char);
                 b ← appendBreak limit pretty b (S depth);
                 b ← appendValue b v (S depth);
                 go false b items
             end) true b items;
      b ← (match items with [] => Some b | _ => appendBreak limit pretty b depth end);
      writeByte limit b "]"%char
  | JObject members _ _ _ =>
      b ← writeByte limit b "{"%char;
      b ← (fix go (first : bool) (b : bytes) (members : list member) {struct members} : option bytes :=
             match members with
             | [] => Some b
             | (k, v) :: members =>
                 b ← (if first then Some b else writeByte limit b ","%char);
                 b ← appendBreak limit pretty b (S depth);
                 b ← appendJSONString limit b k;
                 b ← (if pretty then writeString limit b (lit ": ") else writeByte limit b ":"%char);
                 b ← appendValue b v (S depth);
                 go false b members
             end) true b members;
      b ← (match members with [] => Some b | _ => appendBreak limit pretty b depth end);
      writeByte limit b "}"%char
  end.
End Append.

Definition encodeValue (v : value) (pretty : bool) (limit : Z) : option bytes := appendValue limit pretty [] v 0.

End Values.
End JqValue.
