(* ===== verification/JqString.v ===== *)
(** * String literals of jq (builtins/jq/surrogate.go, value.go)

    The byte-wise check of surrogate escapes, the decoder of JSON strings, the
    encoder that normalised input is reparsed from, and the decoding of the
    standard library that the lexer of filters uses. *)

From S2P Require Import Prelude GoStd Utf8 JqValue.
From stdpp Require Import base list strings.
From Stdlib Require Import ZArith Lia Ascii.
#[local] Open Scope Z_scope.

Module JqString.
Import GoStd Utf8 JqValue.

Definition hexDigit (c : ascii) : option Z :=
  let n := code c in
  if (48 <=? n) && (n <=? 57) then Some (n - 48)
  else if (97 <=? n) && (n <=? 102) then Some (n - 97 + 10)
  else if (65 <=? n) && (n <=? 70) then Some (n - 65 + 10)
  else None.

Definition isHigh (u : Z) : bool := (55296 <=? u) && (u <=? 56319).   (* d800..dbff *)
Definition isLow (u : Z) : bool := (56320 <=? u) && (u <=? 57343).    (* dc00..dfff *)

(** ** [surrogateValidator] *)

Record surrogateValidator := mkValidator {
  inString : bool; escaped : bool; digitsLeft : nat; codeUnit : Z;
  lowUnit : bool; pendingHigh : bool; needLowU : bool; invalid : bool }.

Definition newValidator : surrogateValidator := mkValidator false false 0 0 false false false false.

Definition set_inString (b : bool) (v : surrogateValidator) : surrogateValidator :=
  mkValidator b (escaped v) (digitsLeft v) (codeUnit v) (lowUnit v) (pendingHigh v) (needLowU v) (invalid v).
Definition set_escaped (b : bool) (v : surrogateValidator) : surrogateValidator :=
  mkValidator (inString v) b (digitsLeft v) (codeUnit v) (lowUnit v) (pendingHigh v) (needLowU v) (invalid v).
Definition set_digits (n : nat) (u : Z) (v : surrogateValidator) : surrogateValidator :=
  mkValidator (inString v) (escaped v) n u (lowUnit v) (pendingHigh v) (needLowU v) (invalid v).
Definition set_lowUnit (b : bool) (v : surrogateValidator) : surrogateValidator :=
  mkValidator (inString v) (escaped v) (digitsLeft v) (codeUnit v) b (pendingHigh v) (needLowU v) (invalid v).
Definition set_pendingHigh (b : bool) (v : surrogateValidator) : surrogateValidator :=
  mkValidator (inString v) (escaped v) (digitsLeft v) (codeUnit v) (lowUnit v) b (needLowU v) (invalid v).
Definition set_needLowU (b : bool) (v : surrogateValidator) : surrogateValidator :=
  mkValidator (inString v) (escaped v) (digitsLeft v) (codeUnit v) (lowUnit v) (pendingHigh v) b (invalid v).
Definition set_invalid (b : bool) (v : surrogateValidator) : surrogateValidator :=
  mkValidator (inString v) (escaped v) (digitsLeft v) (codeUnit v) (lowUnit v) (pendingHigh v) (needLowU v) b.

Definition resetString (v : surrogateValidator) : surrogateValidator :=
  mkValidator (inString v) false 0 0 false false false false.

(** [v.codeUnit<<4 | digit] in 16 bits. *)
Definition shiftIn (u d : Z) : Z := Z.lor (Z.shiftl u 4) d mod 2 ^ 16.

Definition invalidSurrogateByte (v : surrogateValidator) (c : ascii) : bool * surrogateValidator :=
  match digitsLeft v with
  | S more =>
      match hexDigit c with
      | None => (false, set_lowUnit false (set_digits 0 (codeUnit v) v))
      | Some d =>
          let u := shiftIn (codeUnit v) d in
          let v := set_digits more u v in
          match more with
          | O =>
              if lowUnit v then
                if negb (isLow u) then (true, v) else (false, set_lowUnit false v)
              else if isHigh u then (false, set_pendingHigh true v)
              else (false, v)
          | _ => (false, v)
          end
      end
  | O =>
      if needLowU v then
        if negb (c =c "u")%go then (true, v)
        else (false, set_digits 4 0 (set_lowUnit true (set_needLowU false v)))
      else if pendingHigh v then
        if negb (Ascii.eqb c ch_bs) then (true, v)
        else (false, set_needLowU true (set_pendingHigh false v))
      else if escaped v then
        (false, if (c =c "u")%go then set_digits 4 0 v else v)
      else (false, v)
  end.

(** One byte: the error [errInvalidSurrogate] or not. *)
Definition scanByte (v : surrogateValidator) (c : ascii) : bool * surrogateValidator :=
  if negb (inString v) then
    (false, if Ascii.eqb c ch_dq then set_inString true (resetString v) else v)
  else
    let closes := Ascii.eqb c ch_dq && negb (escaped v) in
    let v :=
      if invalid v then v
      else let '(bad, v) := invalidSurrogateByte v c in if bad then set_invalid true v else v in
    let v :=
      if escaped v then set_escaped false v
      else if Ascii.eqb c ch_bs then set_escaped true v
      else if Ascii.eqb c ch_dq then set_inString false v
      else v in
    if negb closes then (false, v)
    else if invalid v then (true, v)
    else (false, resetString v).

(** [scan]: how many bytes were consumed, and whether the last one was refused. *)
Fixpoint scan (v : surrogateValidator) (data : bytes) : nat * bool * surrogateValidator :=
  match data with
  | [] => (0%nat, false, v)
  | c :: data =>
      let '(bad, v) := scanByte v c in
      if bad then (1%nat, true, v)
      else let '(n, bad, v) := scan v data in (S n, bad, v)
  end.

Definition finish (v : surrogateValidator) : bool :=
  negb (invalid v || pendingHigh v || needLowU v || lowUnit v).

Definition validateSurrogates (text : bytes) : bool :=
  let '(_, bad, v) := scan newValidator text in negb bad && finish v.

(** ** Decoding *)

Definition jsonHexCodeUnit (raw : bytes) : option Z :=
  if (length raw <? 4)%nat then None
  else foldl (fun u c => u ← u; d ← hexDigit c; Some (shiftIn u d)) (Some 0) (take 4 raw).

Inductive decodeErr := errNotString | errControl | errTooLong | errIncomplete | errUnicode | errSurrogate | errEscape.

Definition maxBytes : Z := MaxValueBytes - 2.

(** The letter after a backslash. *)
Definition simpleEscape (c : ascii) : option ascii :=
  if Ascii.eqb c ch_dq || Ascii.eqb c ch_bs || (c =c "/")%go then Some c
  else if (c =c "b")%go then Some "008"%char
  else if (c =c "f")%go then Some "012"%char
  else if (c =c "n")%go then Some ch_nl
  else if (c =c "r")%go then Some ch_cr
  else if (c =c "t")%go then Some ch_tab
  else None.

Definition pairRune (high low : Z) : Z := 65536 + Z.shiftl (high - 55296) 10 + (low - 56320).

(** The escape [\u] at the start of the text: the rune and the bytes after it. *)
Definition unicodeAt (s : bytes) : decodeErr + Z * bytes :=
  match jsonHexCodeUnit s with
  | None => inl errUnicode
  | Some u =>
      let s := drop 4 s in
      if isHigh u then
        match s with
        | a :: b :: s' =>
            if (6 <=? length s)%nat && Ascii.eqb a ch_bs && (b =c "u")%go then
              match jsonHexCodeUnit s' with
              | Some low => if isLow low then inr (pairRune u low, drop 4 s') else inl errSurrogate
              | None => inl errSurrogate
              end
            else inl errSurrogate
        | _ => inl errSurrogate
        end
      else inr (if isLow u then RuneError else u, s)
  end.

(** The loop of [decodeJSONString] over what is between the quotes. *)
Fixpoint decodeLoop (fuel : nat) (s decoded : bytes) : decodeErr + bytes :=
  match fuel, s with
  | S fuel, c :: s =>
      if negb (Ascii.eqb c ch_bs) then
        if code c <? 32 then inl errControl
        else if maxBytes <=? Z.of_nat (length decoded) then inl errTooLong
        else decodeLoop fuel s (decoded ++ [c])
      else
        match s with
        | [] => inl errIncomplete
        | e :: s =>
            let more (b s : bytes) :=
              if maxBytes <? Z.of_nat (length (decoded ++ b)) then inl errTooLong
              else decodeLoop fuel s (decoded ++ b) in
            match simpleEscape e with
            | Some b => more [b] s
            | None =>
                if (e =c "u")%go then
                  match unicodeAt s with
                  | inl err => inl err
                  | inr (r, s) => more (EncodeRune r) s
                  end
                else inl errEscape
            end
        end
  | _, _ => inr decoded
  end.

(** What is between the first and the last byte. *)
Definition between (raw : bytes) : bytes := take (length raw - 2) (drop 1 raw).

Definition quoted (raw : bytes) : bool :=
  match raw with
  | c :: _ :: _ => Ascii.eqb c ch_dq && bool_decide (last raw = Some ch_dq)
  | _ => false
  end.

Definition decodeJSONString (raw : bytes) : decodeErr + bytes :=
  if negb (quoted raw) then inl errNotString
  else decodeLoop (length (between raw)) (between raw) [].

(** [json.Unmarshal] of a literal into a string: control characters and
    unknown escapes are refused, an unpaired surrogate and an ill-formed byte
    become [RuneError]. *)
Fixpoint unquoteFuel (fuel : nat) (s : bytes) : option bytes :=
  match fuel, s with
  | S fuel, c :: t =>
      if Ascii.eqb c ch_bs then
        match t with
        | [] => None
        | e :: t =>
            match simpleEscape e with
            | Some b => app [b] <$> unquoteFuel fuel t
            | None =>
                if (e =c "u")%go then
                  u ← jsonHexCodeUnit t;
                  let t := drop 4 t in
                  if isHigh u || isLow u then
                    match t with
                    | a :: b :: t' =>
                        match (if Ascii.eqb a ch_bs && (b =c "u")%go then jsonHexCodeUnit t' else None) with
                        | Some low =>
                            if isHigh u && isLow low
                            then app (EncodeRune (pairRune u low)) <$> unquoteFuel fuel (drop 4 t')
                            else app (EncodeRune RuneError) <$> unquoteFuel fuel t
                        | None => app (EncodeRune RuneError) <$> unquoteFuel fuel t
                        end
                    | _ => app (EncodeRune RuneError) <$> unquoteFuel fuel t
                    end
                  else app (EncodeRune u) <$> unquoteFuel fuel t
                else None
            end
        end
      else if Ascii.eqb c ch_dq || (code c <? 32) then None
      else let '(r, w) := DecodeRune s in app (EncodeRune r) <$> unquoteFuel fuel (drop w s)
  | _, _ => Some []
  end.

Definition Unmarshal (raw : bytes) : option bytes :=
  if quoted raw then unquoteFuel (length raw) (between raw) else None.

(** ** Encoding for reparsing *)

(** [appendNormalizedJSONString]: what one byte is written as. *)
Definition escapeByte (c : ascii) : bytes :=
  let n := code c in
  if n =? 34 then lit "\" ++ [ch_dq]
  else if n =? 92 then lit "\\"
  else if n =? 8 then lit "\b"
  else if n =? 12 then lit "\f"
  else if n =? 10 then lit "\n"
  else if n =? 13 then lit "\r"
  else if n =? 9 then lit "\t"
  else if n <? 32 then unicodeEscape n
  else [c].

Fixpoint appendEscaped (limit : Z) (dst s : bytes) : option bytes :=
  match s with
  | [] => Some dst
  | c :: s => if limit <? Z.of_nat (length dst) + 6 then None else appendEscaped limit (dst ++ escapeByte c) s
  end.

Definition appendNormalizedJSONString (dst s : bytes) (limit : Z) : option bytes :=
  if limit <=? Z.of_nat (length dst) then None
  else
    dst ← appendEscaped limit (dst ++ [ch_dq]) s;
    if limit <=? Z.of_nat (length dst) then None else Some (dst ++ [ch_dq]).

End JqString.
