(* ===== verification/JqParse.v ===== *)
(** * The parser of jq filters (builtins/jq/parser.go)

    A recursive-descent parser over the tokens, with its limits on nodes and on
    nesting.  Every recursive call follows a token that was consumed, so the
    number of tokens is enough fuel. *)

From S2P Require Import Prelude GoStd JqValue JqString.
From stdpp Require Import base list strings.
From Stdlib Require Import ZArith Lia Ascii.

(** * The lexer of jq filters (builtins/jq/lexer.go)

    A position is the number of bytes before the rest of the input. *)

Module JqLex.
Import GoStd JqValue JqString.

Inductive tokenKind :=
| tokenEOF | tokenDot | tokenIdentifier | tokenVariable | tokenNumber | tokenString
| tokenLeftParen | tokenRightParen | tokenLeftBracket | tokenRightBracket | tokenLeftBrace | tokenRightBrace
| tokenColon | tokenComma | tokenPipe | tokenOptional | tokenAlternative
| tokenPlus | tokenMinus | tokenMultiply | tokenDivide | tokenModulo
| tokenEqual | tokenNotEqual | tokenLess | tokenLessEqual | tokenGreater | tokenGreaterEqual.

#[export] Instance tokenKind_eq_dec : EqDecision tokenKind.
Proof. solve_decision. Defined.

Record token := mkToken { tk_kind : tokenKind; tk_text : bytes; tk_pos : nat }.

#[export] Instance token_eq_dec : EqDecision token.
Proof. solve_decision. Defined.

(** The errors, at the byte they report. *)
Inductive lexErr :=
| FilterTooLong | Assignments (pos : nat) | Recursion (pos : nat) | OptionalAlternative (pos : nat)
| UseNot (pos : nat) | InvalidVariable (pos : nat) | InvalidString (pos : nat) (surrogate : bool)
| UnterminatedString (pos : nat) | UnexpectedCharacter (c : ascii) (pos : nat) | InvalidNumber (pos : nat).

Definition isFilterSpace (c : ascii) : bool :=
  (c =c " ") || Ascii.eqb c ch_tab || Ascii.eqb c ch_cr || Ascii.eqb c ch_nl.

Definition isIdentifierStart (c : ascii) : bool :=
  let n := code c in
  ((n =? 95) || ((97 <=? n) && (n <=? 122)) || ((65 <=? n) && (n <=? 90)))%Z.

Definition isIdentifierContinue (c : ascii) : bool := isIdentifierStart c || isDigit c.

(** The rest of the input starts with the byte. *)
Definition at_ (s : bytes) (c : ascii) : bool := match s with x :: _ => Ascii.eqb x c | [] => false end.
Definition atDigit (s : bytes) : bool := match s with x :: _ => isDigit x | [] => false end.

(** A token and the rest of the input. *)
Abbreviation lexed := (lexErr + token * bytes * nat)%type.

Definition digits (s : bytes) : nat := run_length isDigit s.

(** [number]: how many bytes the literal takes. *)
Definition numberLength (s : bytes) : option nat :=
  let leadingDot := at_ s "." in
  let n := if leadingDot then 1 else 0 in
  let n := n + digits (drop n s) in
  let n := if negb leadingDot && at_ (drop n s) "." then S n + digits (drop (S n) s) else n in
  if at_ (drop n s) "e" || at_ (drop n s) "E" then
    let n := S n in
    let n := if at_ (drop n s) "+" || at_ (drop n s) "-" then S n else n in
    if atDigit (drop n s) then Some (n + digits (drop n s)) else None
  else Some n.

Definition number (s : bytes) (pos : nat) : lexed :=
  match numberLength s with
  | None => inl (InvalidNumber pos)
  | Some n => inr (mkToken tokenNumber (take n s) pos, drop n s, pos + n)
  end.

(** The bytes of a string literal after its opening quote, the closing quote
    included: None when it is not terminated. *)
Fixpoint stringLength (s : bytes) : option nat :=
  match s with
  | [] => None
  | c :: s =>
      if Ascii.eqb c ch_bs then
        match s with
        | _ :: s => (fun n => S (S n)) <$> stringLength s
        | [] => None
        end
      else if Ascii.eqb c ch_dq then Some 1
      else S <$> stringLength s
  end.

(** [s] is the input after the opening quote. *)
Definition stringToken (s : bytes) (pos : nat) : lexed :=
  match stringLength s with
  | None => inl (UnterminatedString pos)
  | Some n =>
      let raw := ch_dq :: take n s in
      if negb (validateSurrogates raw) then inl (InvalidString pos true)
      else
        match Unmarshal raw with
        | None => inl (InvalidString pos false)
        | Some decoded => inr (mkToken tokenString decoded pos, drop n s, pos + S n)
        end
  end.

Definition single (k : tokenKind) (c : ascii) (s : bytes) (pos : nat) : lexed := inr (mkToken k [c] pos, s, S pos).
Definition double (k : tokenKind) (text : string) (s : bytes) (pos : nat) : lexed :=
  inr (mkToken k (lit text) pos, drop 1 s, pos + 2).

(** The switch on the first byte [c]; [s] is what follows it. *)
Definition nextAt (c : ascii) (s : bytes) (pos : nat) : lexed :=
  if at_ s "=" && byte_in c "|+-*%" then inl (Assignments pos)
  else if c =c "." then
    if atDigit s then number (c :: s) pos
    else if at_ s "." then inl (Recursion pos)
    else single tokenDot c s pos
  else if c =c "(" then single tokenLeftParen c s pos
  else if c =c ")" then single tokenRightParen c s pos
  else if c =c "[" then single tokenLeftBracket c s pos
  else if c =c "]" then single tokenRightBracket c s pos
  else if c =c "{" then single tokenLeftBrace c s pos
  else if c =c "}" then single tokenRightBrace c s pos
  else if c =c ":" then single tokenColon c s pos
  else if c =c "," then single tokenComma c s pos
  else if c =c "|" then single tokenPipe c s pos
  else if c =c "?" then
    if HasPrefix s (lit "//") then inl (OptionalAlternative pos) else single tokenOptional c s pos
  else if c =c "/" then
    if at_ s "/" then double tokenAlternative "//" s pos else single tokenDivide c s pos
  else if c =c "+" then single tokenPlus c s pos
  else if c =c "-" then single tokenMinus c s pos
  else if c =c "*" then single tokenMultiply c s pos
  else if c =c "%" then single tokenModulo c s pos
  else if c =c "=" then
    if at_ s "=" then double tokenEqual "==" s pos else inl (Assignments pos)
  else if c =c "!" then
    if at_ s "=" then double tokenNotEqual "!=" s pos else inl (UseNot pos)
  else if c =c "<" then
    if at_ s "=" then double tokenLessEqual "<=" s pos else single tokenLess c s pos
  else if c =c ">" then
    if at_ s "=" then double tokenGreaterEqual ">=" s pos else single tokenGreater c s pos
  else if c =c "$" then
    match s with
    | x :: _ =>
        if isIdentifierStart x then
          let n := run_length isIdentifierContinue s in
          inr (mkToken tokenVariable (take n s) pos, drop n s, pos + S n)
        else inl (InvalidVariable pos)
    | [] => inl (InvalidVariable pos)
    end
  else if Ascii.eqb c ch_dq then stringToken s pos
  else if isDigit c then number (c :: s) pos
  else if isIdentifierStart c then
    let n := run_length isIdentifierContinue s in
    inr (mkToken tokenIdentifier (c :: take n s) pos, drop n s, pos + S n)
  else inl (UnexpectedCharacter c pos).

Definition next (s : bytes) (pos : nat) : lexed :=
  let k := run_length isFilterSpace s in
  match drop k s with
  | [] => inr (mkToken tokenEOF [] (pos + k), [], pos + k)
  | c :: s => nextAt c s (pos + k)
  end.

(** Every token but the last takes a byte. *)
Fixpoint lexFuel (fuel : nat) (s : bytes) (pos : nat) : option (lexErr + list token) :=
  match fuel with
  | 0 => None
  | S fuel =>
      match next s pos with
      | inl e => Some (inl e)
      | inr (tok, s, pos) =>
          if decide (tk_kind tok = tokenEOF) then Some (inr [tok])
          else
            match lexFuel fuel s pos with
            | Some (inr toks) => Some (inr (tok :: toks))
            | o => o
            end
      end
  end.

Definition lexFilter (input : bytes) : option (lexErr + list token) :=
  if (MaxFilterBytes <? Z.of_nat (length input))%Z then Some (inl FilterTooLong)
  else lexFuel (S (length input)) input 0.

End JqLex.

Module JqParse.
Import JqValue JqLex.

(** ** Filters *)

Record objectNodeMember (N : Type) := mkMember { literalKey : bytes; dynamicKey : option N; memberValue : N }.
Arguments mkMember {N} literalKey dynamicKey memberValue.
Arguments literalKey {N} o.
Arguments dynamicKey {N} o.
Arguments memberValue {N} o.

#[local] Unset Elimination Schemes.

Inductive node :=
| NIdentity
| NLiteral (v : value)
| NVariable (name : bytes)
| NField (left : node) (name : bytes)
| NIndex (left right : node)
| NIterator (left : node)
| NGroup (child : node)
| NOptional (child : node)
| NPipe (left right : node)
| NComma (left right : node)
| NAlternative (left right : node)
| NBinary (name : bytes) (op : tokenKind) (left right : node)
| NNegate (child : node)
| NArray (child : option node)
| NObject (members : list (objectNodeMember node))
| NCall (name : bytes) (child : option node).

#[local] Set Elimination Schemes.

Abbreviation objectMember := (objectNodeMember node).

(** A property of an optional node, and of the nodes of a member. *)
Definition onOption (P : node -> Prop) (o : option node) : Prop := match o with Some n => P n | None => True end.

Definition onMember (P : node -> Prop) (m : objectMember) : Prop :=
  onOption P (dynamicKey m) /\ P (memberValue m).

Section Induction.
Context (P : node -> Prop).
Context (HIdentity : P NIdentity) (HLiteral : forall v, P (NLiteral v)) (HVariable : forall x, P (NVariable x)).
Context (HField : forall l x, P l -> P (NField l x)) (HIndex : forall l r, P l -> P r -> P (NIndex l r)).
Context (HIterator : forall l, P l -> P (NIterator l)) (HGroup : forall c, P c -> P (NGroup c)).
Context (HOptional : forall c, P c -> P (NOptional c)) (HPipe : forall l r, P l -> P r -> P (NPipe l r)).
Context (HComma : forall l r, P l -> P r -> P (NComma l r)).
Context (HAlternative : forall l r, P l -> P r -> P (NAlternative l r)).
Context (HBinary : forall x op l r, P l -> P r -> P (NBinary x op l r)).
Context (HNegate : forall c, P c -> P (NNegate c)) (HArray : forall c, onOption P c -> P (NArray c)).
Context (HObject : forall ms, Forall (onMember P) ms -> P (NObject ms)).
Context (HCall : forall x c, onOption P c -> P (NCall x c)).

Fixpoint node_ind (n : node) : P n.
Proof.
  destruct n as [| | | | | | | | | | | | |c|ms|x c].
  - exact HIdentity.
  - apply HLiteral.
  - apply HVariable.
  - apply HField, node_ind.
  - apply HIndex; apply node_ind.
  - apply HIterator, node_ind.
  - apply HGroup, node_ind.
  - apply HOptional, node_ind.
  - apply HPipe; apply node_ind.
  - apply HComma; apply node_ind.
  - apply HAlternative; apply node_ind.
  - apply HBinary; apply node_ind.
  - apply HNegate, node_ind.
  - apply HArray. destruct c as [c|]; [apply node_ind|exact I].
  - apply HObject. induction ms as [|[k d v] ms IH]; constructor; [|exact IH].
    split; [|apply node_ind]. cbn. destruct d as [d|]; [apply node_ind|exact I].
  - apply HCall. destruct c as [c|]; [apply node_ind|exact I].
Defined.
End Induction.

(** A property of the nodes that [evalOptional] reaches through a node. *)
Definition below (P : node -> Prop) (n : node) : Prop :=
  match n with
  | NField l _ | NIterator l => P l
  | NIndex l r => P l /\ P r
  | _ => True
  end.

(** ** The parser's state and results *)

Inductive parseErr :=
| LexError (e : lexErr)
| Expected (what : string) (got : token)
| NodeLimit | NestingLimit
| Chained (pos : nat)
| Unsupported (name : bytes) (pos : nat)
| BadLiteral (e : jqErr).

Record filterParser := mkParser { tokens : list token; nodes : Z; depth : Z }.

Inductive parsed (A : Type) :=
| POk (a : A) (p : filterParser)
| PErr (e : parseErr)
| PPanic                       (* an index out of range *)
| PNoFuel.
Arguments POk {A} a p.
Arguments PErr {A} e.
Arguments PPanic {A}.
Arguments PNoFuel {A}.

Definition P (A : Type) : Type := filterParser -> parsed A.

#[export] Instance P_ret : MRet P := fun _ a p => POk a p.
#[export] Instance P_bind : MBind P := fun _ _ f m p =>
  match m p with
  | POk a p => f a p
  | PErr e => PErr e
  | PPanic => PPanic
  | PNoFuel => PNoFuel
  end.

Definition noFuel {A} : P A := fun _ => PNoFuel.
Definition fail {A} (e : parseErr) : P A := fun _ => PErr e.

Definition peek : P token := fun p =>
  match tokens p with
  | tok :: _ => POk tok p
  | [] => PPanic
  end.

Definition advance : P token := fun p =>
  match tokens p with
  | tok :: rest =>
      if decide (tk_kind tok = tokenEOF) then POk tok p
      else POk tok (mkParser rest (nodes p) (depth p))
  | [] => PPanic
  end.

Definition accept (k : tokenKind) : P bool :=
  tok ← peek;
  if decide (tk_kind tok = k) then advance;; mret true else mret false.

Definition unexpected {A} (what : string) : P A := tok ← peek; fail (Expected what tok).

Definition expect (k : tokenKind) (what : string) : P unit :=
  ok ← accept k;
  if ok : bool then mret tt else unexpected what.

Definition makeNode (n : node) : P node := fun p =>
  if (MaxFilterNodes <? nodes p + 1)%Z then PErr NodeLimit
  else POk n (mkParser (tokens p) (nodes p + 1) (depth p)).

Definition enter : P unit := fun p =>
  if (MaxNestingDepth <? depth p + 1)%Z then PErr NestingLimit
  else POk tt (mkParser (tokens p) (nodes p) (depth p + 1)).

Definition leave : P unit := fun p => POk tt (mkParser (tokens p) (nodes p) (depth p - 1)).

(** ** Loops over operators *)

(** The loops consume a token in every turn. *)
Definition withTokens {A} (f : nat -> P A) : P A := fun p => f (length (tokens p)) p.

(** Operators of one level that associate to the left. *)
Fixpoint leftLoop (fuel : nat) (op : token -> option (node -> node -> node)) (operand : P node) (left : node) : P node :=
  tok ← peek;
  match op tok with
  | None => mret left
  | Some mk =>
      match fuel with
      | 0 => noFuel
      | S fuel =>
          advance;;
          right ← operand;
          left ← makeNode (mk left right);
          leftLoop fuel op operand left
      end
  end.

Definition leftAssoc (op : token -> option (node -> node -> node)) (operand : P node) : P node :=
  left ← operand; withTokens (fun fuel => leftLoop fuel op operand left).

(** The operands separated by a token. *)
Fixpoint operandsLoop (fuel : nat) (k : tokenKind) (operand : P node) : P (list node) :=
  more ← accept k;
  if more : bool then
    match fuel with
    | 0 => noFuel
    | S fuel => n ← operand; ns ← operandsLoop fuel k operand; mret (n :: ns)
    end
  else mret [].

(** The nodes are made from the last operand to the first. *)
Fixpoint rightNodes (mk : node -> node -> node) (first : node) (rest : list node) : P node :=
  match rest with
  | [] => mret first
  | n :: rest => right ← rightNodes mk n rest; makeNode (mk first right)
  end.

Definition rightAssoc (k : tokenKind) (mk : node -> node -> node) (operand : P node) : P node :=
  first ← operand;
  rest ← withTokens (fun fuel => operandsLoop fuel k operand);
  rightNodes mk first rest.

Definition isComparison (k : tokenKind) : bool :=
  match k with
  | tokenEqual | tokenNotEqual | tokenLess | tokenLessEqual | tokenGreater | tokenGreaterEqual => true
  | _ => false
  end.

Definition isFieldAfterDot (dot field : token) : bool :=
  bool_decide (tk_kind field = tokenString) ||
  (bool_decide (tk_kind field = tokenIdentifier) && (tk_pos field =? tk_pos dot + 1)).

Definition word (w : string) (tok : token) : bool := bool_decide (tk_kind tok = tokenIdentifier) && (tk_text tok =s w).

(** What the recursive calls parse. *)
Inductive goal := GPipe | GUnary | GValue.

Section Level.
Context (rec : goal -> P node).

(** *** Primaries *)

(** A pipe between brackets that are one level of nesting. *)
Definition nested : P node := enter;; child ← rec GPipe; leave;; mret child.

Definition literal (v : jqErr + value) : P node :=
  match v with
  | inl e => fail (BadLiteral e)
  | inr v => makeNode (NLiteral v)
  end.

Definition parseIdentifier (tok : token) : P node :=
  let name := tk_text tok in
  if name =s "null" then makeNode (NLiteral JNull)
  else if name =s "true" then makeNode (NLiteral (JBool true))
  else if name =s "false" then makeNode (NLiteral (JBool false))
  else if str_in name ["length"; "keys"; "type"; "empty"; "not"]%string then makeNode (NCall name None)
  else if str_in name ["select"; "map"; "has"]%string then
    expect tokenLeftParen "'('";;
    arg ← nested;
    expect tokenRightParen "')'";;
    makeNode (NCall name (Some arg))
  else fail (Unsupported name (tk_pos tok)).

Definition parseArray : P node :=
  empty ← accept tokenRightBracket;
  if empty : bool then makeNode (NArray None)
  else
    child ← nested;
    expect tokenRightBracket "']'";;
    makeNode (NArray (Some child)).

Definition parseObjectMember : P objectMember :=
  tok ← advance;
  match tk_kind tok with
  | tokenString | tokenIdentifier =>
      colon ← accept tokenColon;
      if colon : bool then
        v ← rec GValue;
        mret (mkMember (tk_text tok) None v)
      else
        identity ← makeNode NIdentity;
        field ← makeNode (NField identity (tk_text tok));
        mret (mkMember (tk_text tok) None field)
  | tokenVariable =>
      variable ← makeNode (NVariable (tk_text tok));
      colon ← accept tokenColon;
      if colon : bool then
        v ← rec GValue;
        mret (mkMember [] (Some variable) v)
      else mret (mkMember (tk_text tok) None variable)
  | tokenLeftParen =>
      key ← rec GPipe;
      expect tokenRightParen "')'";;
      expect tokenColon "':'";;
      v ← rec GValue;
      mret (mkMember [] (Some key) v)
  | _ => fail (Expected "an object key" tok)
  end.

Fixpoint membersLoop (fuel : nat) (ms : list objectMember) : P (list objectMember) :=
  m ← parseObjectMember;
  let ms := ms ++ [m] in
  close ← accept tokenRightBrace;
  if close : bool then mret ms
  else
    expect tokenComma "',' or '}'";;
    close ← accept tokenRightBrace;
    if close : bool then mret ms
    else
      match fuel with
      | 0 => noFuel
      | S fuel => membersLoop fuel ms
      end.

Definition parseObject : P node :=
  empty ← accept tokenRightBrace;
  if empty : bool then makeNode (NObject [])
  else
    enter;;
    ms ← withTokens (fun fuel => membersLoop fuel []);
    n ← makeNode (NObject ms);
    leave;;
    mret n.

Context `{FloatText}.

Definition parsePrimary : P node :=
  tok ← advance;
  match tk_kind tok with
  | tokenDot =>
      base ← makeNode NIdentity;
      field ← peek;
      if isFieldAfterDot tok field then
        field ← advance;
        makeNode (NField base (tk_text field))
      else mret base
  | tokenVariable => makeNode (NVariable (tk_text tok))
  | tokenNumber => literal (parseNumber (tk_text tok))
  | tokenString => literal (stringValue (tk_text tok))
  | tokenIdentifier => parseIdentifier tok
  | tokenLeftParen =>
      child ← nested;
      expect tokenRightParen "')'";;
      makeNode (NGroup child)
  | tokenLeftBracket => parseArray
  | tokenLeftBrace => parseObject
  | _ => fail (Expected "a filter expression" tok)
  end.

(** *** Suffixes *)

(** One suffix: the new base, or None when there is none. *)
Definition suffix (base : node) : P (option node) :=
  tok ← peek;
  match tk_kind tok with
  | tokenDot =>
      dot ← advance;
      field ← peek;
      if decide (tk_kind field = tokenLeftBracket) then mret (Some base)
      else if negb (isFieldAfterDot dot field) then unexpected "field name"
      else
        advance;;
        n ← makeNode (NField base (tk_text field));
        mret (Some n)
  | tokenLeftBracket =>
      advance;;
      empty ← accept tokenRightBracket;
      if empty : bool then n ← makeNode (NIterator base); mret (Some n)
      else
        index ← nested;
        expect tokenRightBracket "']'";;
        n ← makeNode (NIndex base index);
        mret (Some n)
  | tokenOptional =>
      advance;;
      n ← makeNode (NOptional base);
      mret (Some n)
  | _ => mret None
  end.

Fixpoint postfixLoop (fuel : nat) (base : node) : P node :=
  s ← suffix base;
  match s with
  | None => mret base
  | Some base =>
      match fuel with
      | 0 => noFuel
      | S fuel => postfixLoop fuel base
      end
  end.

Definition parsePostfix : P node :=
  base ← parsePrimary;
  withTokens (fun fuel => postfixLoop fuel base).

(** *** The levels of precedence *)

Definition parseUnary : P node :=
  minus ← accept tokenMinus;
  if minus : bool then
    enter;;
    child ← rec GUnary;
    n ← makeNode (NNegate child);
    leave;;
    mret n
  else parsePostfix.

Definition binaryOf (ks : list tokenKind) (tok : token) : option (node -> node -> node) :=
  if bool_decide (tk_kind tok ∈ ks) then Some (NBinary [] (tk_kind tok)) else None.

Definition wordOf (w : string) (tok : token) : option (node -> node -> node) :=
  if word w tok then Some (NBinary (lit w) tokenEOF) else None.

Definition parseMultiplicative : P node := leftAssoc (binaryOf [tokenMultiply; tokenDivide; tokenModulo]) parseUnary.
Definition parseAdditive : P node := leftAssoc (binaryOf [tokenPlus; tokenMinus]) parseMultiplicative.

Definition parseComparison : P node :=
  left ← parseAdditive;
  tok ← peek;
  if negb (isComparison (tk_kind tok)) then mret left
  else
    op ← advance;
    right ← parseAdditive;
    tok ← peek;
    if isComparison (tk_kind tok) then fail (Chained (tk_pos tok))
    else makeNode (NBinary [] (tk_kind op) left right).

Definition parseAnd : P node := leftAssoc (wordOf "and") parseComparison.
Definition parseOr : P node := leftAssoc (wordOf "or") parseAnd.
Definition parseAlternative : P node := rightAssoc tokenAlternative NAlternative parseOr.

Definition parseComma : P node :=
  leftAssoc (fun tok => if bool_decide (tk_kind tok = tokenComma) then Some NComma else None) parseAlternative.

Definition parsePipe : P node := rightAssoc tokenPipe NPipe parseComma.

(** The value of a member: a pipe whose commas belong to the object. *)
Definition parseObjectValue : P node :=
  left ← parseAlternative;
  pipe ← accept tokenPipe;
  if pipe : bool then
    right ← rec GValue;
    makeNode (NPipe left right)
  else mret left.

Definition level (g : goal) : P node :=
  match g with
  | GPipe => parsePipe
  | GUnary => parseUnary
  | GValue => parseObjectValue
  end.
End Level.

Section Parse.
Context `{FloatText}.

Fixpoint parseFuel (fuel : nat) (g : goal) : P node :=
  match fuel with
  | 0 => noFuel
  | S fuel => level (parseFuel fuel) g
  end.

Definition parseTokens (toks : list token) : parsed node :=
  (root ← parseFuel (S (length toks)) GPipe;
   tok ← peek;
   if decide (tk_kind tok = tokenEOF) then mret root else unexpected "end of filter")
  (mkParser toks 0 0).

Definition parseFilter (input : bytes) : parsed node :=
  match lexFilter input with
  | None => PNoFuel
  | Some (inl e) => PErr (LexError e)
  | Some (inr toks) => parseTokens toks
  end.
End Parse.

(** ** Walking a filter *)

(** The nodes of a filter, in the order [walk] visits them. *)
Fixpoint walkNodes (n : node) : list node :=
  n :: match n with
       | NIdentity | NLiteral _ | NVariable _ => []
       | NField l _ | NIterator l => walkNodes l
       | NIndex l r | NPipe l r | NComma l r | NAlternative l r | NBinary _ _ l r => walkNodes l ++ walkNodes r
       | NGroup c | NOptional c | NNegate c => walkNodes c
       | NArray c | NCall _ c => match c with Some c => walkNodes c | None => [] end
       | NObject ms =>
           (fix go (ms : list objectMember) : list node :=
              match ms with
              | [] => []
              | m :: ms =>
                  match dynamicKey m with Some k => walkNodes k | None => [] end
                  ++ walkNodes (memberValue m) ++ go ms
              end) ms
       end.

Definition filterVariables (root : node) : list bytes :=
  omap (fun n => match n with NVariable name => Some name | _ => None end) (walkNodes root).

(** The first variable that is not bound. *)
Fixpoint undefinedVariable (bound : bytes -> bool) (names : list bytes) : option bytes :=
  match names with
  | [] => None
  | x :: names => if bound x then undefinedVariable bound names else Some x
  end.

Definition validateFilterVariables (root : node) (bound : bytes -> bool) : option bytes :=
  undefinedVariable bound (filterVariables root).

End JqParse.
