(* ===== verification/JqEval.v ===== *)
(** * The evaluator of jq (builtins/jq/eval.go)

    Filters are generators: a filter gives a list of results and possibly an
    error after them.  The evaluator counts its steps, polls the context, bounds
    its results, and accounts for the values it keeps while a generator runs.
    A Go [defer] that releases values is a release at every return. *)

From S2P Require Import Prelude GoStd Utf8 JqValue JqString JqParse.
From stdpp Require Import base list strings sorting.
From Stdlib Require Import ZArith Lia Ascii SpecFloat QArith.
#[local] Open Scope Z_scope.

Module JqEval.
Import GoStd Utf8 JqValue JqLex JqParse.

(** ** Functions of values *)

Definition truthy (v : value) : bool :=
  match v with JNull => false | JBool b => b | _ => true end.

Definition typeName (v : value) : bytes :=
  match v with
  | JNull => lit "null"
  | JBool _ => lit "boolean"
  | JNumber _ => lit "number"
  | JString _ => lit "string"
  | JArray _ _ _ _ => lit "array"
  | JObject _ _ _ _ => lit "object"
  end.

Definition runtime {A} (m : runtimeMsg) : jqErr + A := inl (RuntimeError m).

Definition fieldValue (input : value) (field : bytes) : jqErr + value :=
  match input with
  | JNull => inr JNull
  | JObject ms _ _ _ => inr (default JNull (getMember field ms))
  | _ => runtime (CannotIndexString (typeName input) field)
  end.

Definition indexValue (input index : value) : jqErr + value :=
  match input with
  | JNull =>
      match index with
      | JString _ | JNumber _ | JObject _ _ _ _ => inr JNull
      | _ => runtime (CannotIndex (typeName input) (typeName index))
      end
  | JObject ms _ _ _ =>
      match index with
      | JString s => inr (default JNull (getMember s ms))
      | _ => runtime (CannotIndex (typeName input) (typeName index))
      end
  | JArray items _ _ _ =>
      match index with
      | JNumber n =>
          match indexInt64 n with
          | None => inr JNull
          | Some i =>
              let i := if i <? 0 then i + Z.of_nat (length items) else i in
              if (i <? 0) || (Z.of_nat (length items) <=? i) then inr JNull
              else inr (default JNull (items !! Z.to_nat i))
          end
      | _ => runtime (CannotIndex (typeName input) (typeName index))
      end
  | _ => runtime (CannotIndexValue (typeName input))
  end.

(** [strings.Compare]. *)
Fixpoint Compare (a b : bytes) : comparison :=
  match a, b with
  | [], [] => Eq
  | [], _ :: _ => Lt
  | _ :: _, [] => Gt
  | x :: a, y :: b => match code x ?= code y with Eq => Compare a b | c => c end
  end.

Definition keyLe (a b : bytes) : Prop := Compare a b <> Gt.
#[export] Instance keyLe_dec a b : Decision (keyLe a b).
Proof. unfold keyLe. destruct (Compare a b); [left|left|right]; congruence. Defined.

(** [sort.Strings]. *)
Definition sortKeys (ks : list bytes) : list bytes := merge_sort keyLe ks.

Definition compareNumbers (a b : JqValue.number) : comparison := (numberQ a ?= numberQ b)%Q.

(** The rank of a type in the order of values. *)
Definition valueRank (v : value) : Z :=
  match v with
  | JNull => 0
  | JBool b => if b then 2 else 1
  | JNumber _ => 3
  | JString _ => 4
  | JArray _ _ _ _ => 5
  | JObject _ _ _ _ => 6
  end.

Definition boolInt (b : bool) : Z := if b then 1 else 0.

(** [strings.Split] at a separator that is not empty. *)
Fixpoint splitAt (fuel : nat) (s sep cur : bytes) : list bytes :=
  match fuel, s with
  | S fuel, c :: t =>
      if HasPrefix s sep then cur :: splitAt fuel (drop (length sep) s) sep []
      else splitAt fuel t sep (cur ++ [c])
  | _, _ => [cur]
  end.

Definition SplitString (s sep : bytes) : list bytes :=
  match sep with
  | [] => runes s
  | _ => splitAt (S (length s)) s sep []
  end.

(** [strings.Count] of a separator that is not empty. *)
Definition CountString (s sep : bytes) : nat := countFuel (length s) s sep.

Fixpoint Repeat (s : bytes) (n : nat) : bytes := match n with O => [] | S n => s ++ Repeat s n end.

(** Apply a conversion to every item, up to the first error. *)
Fixpoint mapErr {A B} (f : A -> jqErr + B) (l : list A) : jqErr + list B :=
  match l with
  | [] => inr []
  | a :: l =>
      match f a with
      | inl e => inl e
      | inr b => match mapErr f l with inl e => inl e | inr bs => inr (b :: bs) end
      end
  end.

Section Pure.
Context `{FloatText}.

Definition lengthValue (input : value) : jqErr + value :=
  match input with
  | JNull => inr (int64Value 0)
  | JNumber (Int i) => integerValue (Z.abs i)
  | JNumber (Flt f) => floatValue (SFabs f)
  | JString s => inr (int64Value (Z.of_nat (length (runes s))))
  | JArray items _ _ _ => inr (int64Value (Z.of_nat (length items)))
  | JObject ms _ _ _ => inr (int64Value (Z.of_nat (length ms)))
  | JBool _ => runtime NoLength
  end.

Definition keysValue (input : value) : jqErr + value :=
  match input with
  | JArray items _ _ _ => arrayValue (map (fun i => int64Value (Z.of_nat i)) (seq 0 (length items)))
  | JObject ms _ _ _ =>
      (* the error of stringValue is dropped: a key is within the limits *)
      arrayValue (map (fun k => match stringValue k with inr v => v | inl _ => JNull end) (sortKeys (map fst ms)))
  | _ => runtime (NoKeys (typeName input))
  end.

Definition hasValue (input key : value) : jqErr + bool :=
  match input with
  | JNull => inr false
  | JObject ms _ _ _ =>
      match key with
      | JString s => inr (match getMember s ms with Some _ => true | None => false end)
      | _ => runtime KeysMustBeStrings
      end
  | JArray items _ _ _ =>
      match key with
      | JNumber n =>
          match indexInt64 n with
          | None => inr false
          | Some i => inr ((0 <=? i) && (i <? Z.of_nat (length items)))
          end
      | _ => runtime IndicesMustBeNumbers
      end
  | _ => runtime (CannotCheckKey (typeName input))
  end.

Definition negateNumber (input : value) : jqErr + value :=
  match input with
  | JNumber (Int i) => integerValue (- i)
  | JNumber (Flt f) => floatValue (SFopp f)
  | _ => runtime (CannotNegate (typeName input))
  end.

Definition isZero (f : float64) : bool := match f with S754_zero _ => true | _ => false end.

Definition floatBinary (op : tokenKind) (a b : float64) : jqErr + value :=
  match op with
  | tokenPlus => floatValue (fadd a b)
  | tokenMinus => floatValue (fsub a b)
  | tokenMultiply => floatValue (fmul a b)
  | tokenDivide => if isZero b then runtime DivideByZero else floatValue (fdiv a b)
  | tokenModulo =>
      let a := Trunc a in let b := Trunc b in
      if isZero b then runtime RemainderByZero else floatValue (Mod a b)
  | _ => inl errUnsupportedOperator
  end.

Definition numericBinary (op : tokenKind) (l r : value) : jqErr + value :=
  match l, r with
  | JNumber x, JNumber y =>
      match x, y, op with
      | Int a, Int b, tokenPlus => integerValue (a + b)
      | Int a, Int b, tokenMinus => integerValue (a - b)
      | Int a, Int b, tokenMultiply => integerValue (a * b)
      | Int a, Int b, tokenDivide =>
          if b =? 0 then runtime DivideByZero
          else if Z.rem a b =? 0 then integerValue (Z.quot a b)
          else floatValue (fdiv (ofInt a) (ofInt b))
      | Int a, Int b, tokenModulo => if b =? 0 then runtime RemainderByZero else integerValue (Z.rem a b)
      | _, _, _ => floatBinary op (numberFloat x) (numberFloat y)
      end
  | _, _ => runtime (NotArithmetic (typeName l) (typeName r))
  end.

Definition addValues (l r : value) : jqErr + value :=
  match l, r with
  | JNull, _ => inr r
  | _, JNull => inr l
  | JNumber _, JNumber _ => numericBinary tokenPlus l r
  | JString a, JString b =>
      if MaxValueBytes - Z.of_nat (length b) <? Z.of_nat (length a) then inl errValueBytes else stringValue (a ++ b)
  | JArray a _ _ _, JArray b _ _ _ => arrayValue (a ++ b)
  | JObject a _ _ _, JObject b _ _ _ => object (a ++ b)
  | _, _ => runtime (CannotAdd (typeName l) (typeName r))
  end.

Definition negative (n : JqValue.number) : bool :=
  match n with Int i => i <? 0 | Flt f => SFltb f (S754_zero false) end.

(** The count of a repetition; a double above [MaxInt64] that is not refused
    is [2^63], which wraps around. *)
Definition repeatCount (n : JqValue.number) : option Z :=
  match n with
  | Int i => if IsInt64 i then Some i else None
  | Flt (S754_infinity _) => None
  | Flt f => let t := truncZ f in
             if (2 ^ 63 <? t) || (t <? - 2 ^ 63) then None else Some (if t =? 2 ^ 63 then - 2 ^ 63 else t)
  end.

Definition repeatString (s : bytes) (n : JqValue.number) : jqErr + value :=
  if negative n then inr JNull
  else if bytes_eqb s [] then stringValue []
  else
    match repeatCount n with
    | None => runtime RepetitionRange
    | Some n =>
        if n =? 0 then stringValue []
        else if (MaxValueBytes <? n) || (Z.quot MaxValueBytes n <? Z.of_nat (length s)) then inl errValueBytes
        else stringValue (Repeat s (Z.to_nat n))
    end.

Definition divideStrings (a b : bytes) : jqErr + value :=
  if bytes_eqb a [] then arrayValue []
  else
    let partCount := match b with [] => length (runes a) | _ => (1 + CountString a b)%nat end in
    if MaxValueNodes - 1 <? Z.of_nat partCount then inl errValueNodes
    else match mapErr stringValue (SplitString a b) with
         | inl e => inl e
         | inr items => arrayValue items
         end.

(** The result of a comparison operator. *)
Definition compared (op : tokenKind) (c : comparison) : value :=
  JBool (match op, c with
         | tokenEqual, Eq | tokenNotEqual, (Lt | Gt) | tokenLess, Lt | tokenLessEqual, (Lt | Eq)
         | tokenGreater, Gt | tokenGreaterEqual, (Gt | Eq) => true
         | _, _ => false
         end).
End Pure.

(** ** The state of an evaluation *)

Record est := mkEst { steps : Z; polls : nat; retNodes : Z; retBytes : Z; topResults : Z }.

Definition E (A : Type) : Type := est -> A * est.

#[export] Instance E_ret : MRet E := fun _ a s => (a, s).
#[export] Instance E_bind : MBind E := fun _ _ f m s => let '(a, s) := m s in f a s.

Abbreviation outcome := (list value * option jqErr)%type.

Section Eval.
Context `{FloatText}.
(** Whether the n-th check of the context fails, and the variables. *)
Context (ctxErr : nat -> bool) (variables : bytes -> option value).

Definition tick : E (option jqErr) := fun s =>
  let s' := mkEst (steps s) (S (polls s)) (retNodes s) (retBytes s) (topResults s) in
  if ctxErr (polls s) then (Some errContext, s')
  else
    let s' := mkEst (steps s + 1) (S (polls s)) (retNodes s) (retBytes s) (topResults s) in
    (if MaxEvalSteps <? steps s + 1 then Some errEvaluationLimit else None, s').

(** *** Retained values *)

Definition setRet (n b : Z) (s : est) : est := mkEst (steps s) (polls s) n b (topResults s).

Definition retainSize (n b : Z) : E (option jqErr) := fun s =>
  if (MaxResultNodes - retNodes s <? n) || (MaxResultBytes - retBytes s <? b) then (Some errRetentionLimit, s)
  else (None, setRet (retNodes s + n) (retBytes s + b) s).

Definition releaseSize (n b : Z) : E unit := fun s => (tt, setRet (retNodes s - n) (retBytes s - b) s).

(** The totals with the values added: None when they do not fit. *)
Fixpoint retainTotals (vs : list value) (n b : Z) : option (Z * Z) :=
  match vs with
  | [] => Some (n, b)
  | v :: vs =>
      if (MaxResultNodes - n <? nodesOf v) || (MaxResultBytes - b <? bytesOf v) then None
      else retainTotals vs (n + nodesOf v) (b + bytesOf v)
  end.

Definition retain (vs : list value) : E (option jqErr) := fun s =>
  match retainTotals vs (retNodes s) (retBytes s) with
  | Some (n, b) => (None, setRet n b s)
  | None => (Some errRetentionLimit, s)
  end.

Fixpoint release (vs : list value) : E unit :=
  match vs with
  | [] => mret tt
  | v :: vs => releaseSize (nodesOf v) (bytesOf v);; release vs
  end.

(** *** Accumulated results *)

Record acc := mkAcc { a_values : list value; a_retained : bool; a_nodes : Z; a_bytes : Z }.

Definition newAcc (retained : bool) : acc := mkAcc [] retained 0 0.

Definition add (a : acc) (v : value) : E (acc * option jqErr) :=
  if (MaxResults <=? Z.of_nat (length (a_values a))) || (MaxResultNodes - a_nodes a <? nodesOf v)
     || (MaxResultBytes - a_bytes a <? bytesOf v)
  then mret (a, Some errResultLimit)
  else
    e ← (if a_retained a then retain [v] else mret None);
    mret (match e with
          | Some e => (a, Some e)
          | None => (mkAcc (a_values a ++ [v]) (a_retained a) (a_nodes a + nodesOf v) (a_bytes a + bytesOf v), None)
          end).

Definition releaseAcc (a : acc) : E unit := if a_retained a then release (a_values a) else mret tt.

(** *** Loops *)

Abbreviation step := (E (acc * option jqErr)).

(** A loop that stops at the first error. *)
Fixpoint forEach {X} (body : X -> acc -> step) (xs : list X) (a : acc) : step :=
  match xs with
  | [] => mret (a, None)
  | x :: xs =>
      '(a, e) ← body x a;
      match e with
      | Some e => mret (a, Some e)
      | None => forEach body xs a
      end
  end.

Definition addAll (a : acc) (vs : list value) : step := forEach (fun v a => add a v) vs a.

(** A loop over retained values that releases each after its turn; an error
    of the turn comes before the release or after it. *)
Fixpoint consume (body : value -> acc -> E (acc * option jqErr * option jqErr)) (xs : list value) (a : acc) : step :=
  match xs with
  | [] => mret (a, None)
  | x :: rest =>
      '(a, early, late) ← body x a;
      match early with
      | Some e => release xs;; mret (a, Some e)
      | None =>
          release [x];;
          match late with
          | Some e => release rest;; mret (a, Some e)
          | None => consume body rest a
          end
      end
  end.

(** A loop over retained values that releases each before its turn. *)
Fixpoint consumeFirst (body : value -> acc -> step) (xs : list value) (a : acc) : step :=
  match xs with
  | [] => mret (a, None)
  | x :: rest =>
      t ← tick;
      match t with
      | Some e => release xs;; mret (a, Some e)
      | None =>
          release [x];;
          '(a, e) ← body x a;
          match e with
          | Some e => release rest;; mret (a, Some e)
          | None => consumeFirst body rest a
          end
      end
  end.

(** The results, with the error of the loop or else that of its input. *)
Definition finish (a : acc) (e last : option jqErr) : outcome :=
  (a_values a, match e with Some e => Some e | None => last end).

(** A tick, then a result of a computation added. *)
Definition tickAdd (r : jqErr + value) (a : acc) : step :=
  t ← tick;
  match t with
  | Some e => mret (a, Some e)
  | None => match r with inl e => mret (a, Some e) | inr v => add a v end
  end.

(** The same when errors of the computation are skipped. *)
Definition tickAddOptional (optional : bool) (r : jqErr + value) (a : acc) : step :=
  t ← tick;
  match t with
  | Some e => mret (a, Some e)
  | None =>
      match r with
      | inl e => mret (a, if optional then None else Some e)
      | inr v => add a v
      end
  end.

(** *** Comparisons *)

Abbreviation tested := (jqErr + comparison)%type.

(** The keys in order, a step per member. *)
Fixpoint collectKeys {X} (ms : list (bytes * X)) : E (option jqErr) :=
  match ms with
  | [] => mret None
  | _ :: ms => t ← tick; match t with Some e => mret (Some e) | None => collectKeys ms end
  end.

Fixpoint compareKeys (ks ls : list bytes) : comparison :=
  match ks, ls with
  | k :: ks, l :: ls => match Compare k l with Eq => compareKeys ks ls | c => c end
  | _, _ => Eq
  end.

(** The values of the members in the order of the keys. *)
Fixpoint compareMembers (subs : list (bytes * (value -> E tested))) (ms : list (bytes * value)) (ks ls : list bytes)
    : E tested :=
  match ks, ls with
  | k :: ks, l :: ls =>
      let sub := match getMember k subs with
                 | Some sub => sub
                 | None => fun _ => mret (inr Eq)
                 end in
      c ← sub (default JNull (getMember l ms));
      match c with
      | inr Eq => compareMembers subs ms ks ls
      | _ => mret c
      end
  | _, _ => mret (inr Eq)
  end.

Fixpoint compareValues (l r : value) {struct l} : E tested :=
  t ← tick;
  match t with
  | Some e => mret (inl e)
  | None =>
      match l, r with
      | JNull, JNull => mret (inr Eq)
      | JBool a, JBool b => mret (inr (boolInt a ?= boolInt b))
      | JNumber a, JNumber b => mret (inr (compareNumbers a b))
      | JString a, JString b => mret (inr (Compare a b))
      | JArray xs _ _ _, JArray ys _ _ _ =>
          (fix go (xs ys : list value) {struct xs} : E tested :=
             match xs, ys with
             | x :: xs, y :: ys =>
                 c ← compareValues x y;
                 match c with
                 | inr Eq => go xs ys
                 | _ => mret c
                 end
             | [], [] => mret (inr Eq)
             | [], _ :: _ => mret (inr Lt)
             | _ :: _, [] => mret (inr Gt)
             end) xs ys
      | JObject ms _ _ _, JObject ns _ _ _ =>
          e ← collectKeys ms;
          match e with
          | Some e => mret (inl e)
          | None =>
              e ← collectKeys ns;
              match e with
              | Some e => mret (inl e)
              | None =>
                  let ks := sortKeys (map fst ms) in
                  let ls := sortKeys (map fst ns) in
                  match compareKeys ks ls with
                  | Eq =>
                      match (length ks ?= length ls)%nat with
                      | Eq => compareMembers (map (fun kv => match kv with (k, v) => (k, compareValues v) end) ms) ns ks ls
                      | c => mret (inr c)
                      end
                  | c => mret (inr c)
                  end
              end
          end
      | _, _ => mret (inr (valueRank l ?= valueRank r))
      end
  end.

Fixpoint valuesEqual (l r : value) {struct l} : E (jqErr + bool) :=
  t ← tick;
  match t with
  | Some e => mret (inl e)
  | None =>
      match l, r with
      | JNumber a, JNumber b => mret (inr (match compareNumbers a b with Eq => true | _ => false end))
      | JNull, JNull => mret (inr true)
      | JBool a, JBool b => mret (inr (Bool.eqb a b))
      | JString a, JString b => mret (inr (bytes_eqb a b))
      | JArray xs _ _ _, JArray ys _ _ _ =>
          if negb (length xs =? length ys)%nat then mret (inr false)
          else
            (fix go (xs ys : list value) {struct xs} : E (jqErr + bool) :=
               match xs, ys with
               | x :: xs, y :: ys =>
                   c ← valuesEqual x y;
                   match c with
                   | inr true => go xs ys
                   | _ => mret c
                   end
               | _, _ => mret (inr true)
               end) xs ys
      | JObject ms _ _ _, JObject ns _ _ _ =>
          if negb (length ms =? length ns)%nat then mret (inr false)
          else
            (fix go (ms : list (bytes * value)) {struct ms} : E (jqErr + bool) :=
               match ms with
               | (k, v) :: ms =>
                   match getMember k ns with
                   | None => mret (inr false)
                   | Some w =>
                       c ← valuesEqual v w;
                       match c with
                       | inr true => go ms
                       | _ => mret c
                       end
                   end
               | [] => mret (inr true)
               end) ms
      | _, _ => mret (inr false)
      end
  end.

(** *** Operators *)

(** Is the candidate one of the excluded values? *)
Fixpoint excluded (candidate : value) (ys : list value) : E (jqErr + bool) :=
  match ys with
  | [] => mret (inr false)
  | y :: ys =>
      t ← tick;
      match t with
      | Some e => mret (inl e)
      | None =>
          c ← valuesEqual candidate y;
          match c with
          | inr false => excluded candidate ys
          | _ => mret c
          end
      end
  end.

Fixpoint subtractLoop (xs ys items : list value) : E (jqErr + list value) :=
  match xs with
  | [] => mret (inr items)
  | x :: xs =>
      c ← excluded x ys;
      match c with
      | inl e => mret (inl e)
      | inr remove => subtractLoop xs ys (if remove : bool then items else items ++ [x])
      end
  end.

Definition subtractArrays (xs ys : list value) : E (jqErr + value) :=
  r ← subtractLoop xs ys [];
  mret (match r with inl e => inl e | inr items => arrayValue items end).

(** [left * right] of objects; [left] is the members of an object. *)
Fixpoint mergeObjectsRecursive (left : list (bytes * value)) (right : value) {struct right} : E (jqErr + value) :=
  match right with
  | JObject rs _ _ _ =>
      items ← (fix go (rs items : list (bytes * value)) {struct rs} : E (jqErr + list (bytes * value)) :=
                 match rs with
                 | [] => mret (inr items)
                 | (k, v) :: rs =>
                     t ← tick;
                     match t with
                     | Some e => mret (inl e)
                     | None =>
                         merged ← match getMember k left with
                                  | Some (JObject ls _ _ _) =>
                                      match v with
                                      | JObject _ _ _ _ => mergeObjectsRecursive ls v
                                      | _ => mret (inr v)
                                      end
                                  | _ => mret (inr v)
                                  end;
                         match merged with
                         | inl e => mret (inl e)
                         | inr v => go rs (items ++ [(k, v)])
                         end
                     end
                 end) rs left;
      mret (match items with inl e => inl e | inr items => object items end)
  | _ => mret (inr right)
  end.

Definition applyBinary (op : tokenKind) (l r : value) : E (jqErr + value) :=
  if isComparison op then
    c ← compareValues l r;
    mret (match c with inl e => inl e | inr c => inr (compared op c) end)
  else
    match op with
    | tokenPlus => mret (addValues l r)
    | tokenMinus =>
        match l, r with
        | JArray xs _ _ _, JArray ys _ _ _ => subtractArrays xs ys
        | _, _ => mret (numericBinary op l r)
        end
    | tokenMultiply =>
        match l, r with
        | JString s, JNumber n | JNumber n, JString s => mret (repeatString s n)
        | JObject ls _ _ _, JObject _ _ _ _ => mergeObjectsRecursive ls r
        | _, _ => mret (numericBinary op l r)
        end
    | tokenDivide =>
        match l, r with
        | JString a, JString b => mret (divideStrings a b)
        | _, _ => mret (numericBinary op l r)
        end
    | tokenModulo => mret (numericBinary op l r)
    | _ => mret (inl errUnsupportedOperator)
    end.

Definition applyBinaryBatch (op : tokenKind) (ls : list value) (r : value) (a : acc) : step :=
  e ← retain ls;
  match e with
  | Some e => mret (a, Some e)
  | None =>
      res ← forEach (fun l a =>
                       t ← tick;
                       match t with
                       | Some e => mret (a, Some e)
                       | None =>
                           v ← applyBinary op l r;
                           match v with inl e => mret (a, Some e) | inr v => add a v end
                       end) ls a;
      release ls;;
      mret res
  end.

(** *** Objects *)

Fixpoint ungroup (n : node) : node := match n with NGroup c => ungroup c | _ => n end.

Definition staticObjectKey (m : objectMember) : option bytes :=
  match dynamicKey m with
  | None => Some (literalKey m)
  | Some k => match ungroup k with NLiteral (JString s) => Some s | _ => None end
  end.

Section Object.
Context (ev : node -> value -> E outcome) (input : value).

(** The closure [processValue]: the object with one member more; [cont] makes
    the rest of it. *)
Definition processValue (cont : list (bytes * value) -> Z * Z -> acc -> step) (path : list (bytes * value)) (ns : Z * Z)
    (key : bytes) (stored : value) (a : acc) : step :=
  match getMember key path with
  | Some previous =>
      match addAggregate (fst ns - nodesOf previous, snd ns - bytesOf previous) stored 0 MaxValueNodes MaxValueBytes with
      | inl e => mret (a, Some e)
      | inr ns =>
          e ← retain [stored];
          match e with
          | Some e => mret (a, Some e)
          | None =>
              r ← cont (setMember key stored path) ns a;
              release [stored];;
              mret r
          end
      end
  | None =>
      let extra := Z.of_nat (length key) + 3 + match path with [] => 0 | _ => 1 end in
      match addAggregate ns stored extra MaxValueNodes MaxValueBytes with
      | inl e => mret (a, Some e)
      | inr ns =>
          e ← retainSize (nodesOf stored) (bytesOf stored + extra);
          match e with
          | Some e => mret (a, Some e)
          | None =>
              r ← cont (path ++ [(key, stored)]) ns a;
              releaseSize (nodesOf stored) (bytesOf stored + extra);;
              mret r
          end
      end
  end.

(** The error of a loop, or else that of the values it runs over. *)
Definition lastly (r : acc * option jqErr) (err : option jqErr) : acc * option jqErr :=
  match snd r with None => (fst r, err) | _ => r end.

(** The closure [processKey]: a member for every value of [m].  The values of a
    key that a later member will replace are not kept. *)
Definition processKey (process : bytes -> value -> acc -> step) (m : objectMember) (remaining : list bytes)
    (resolved : jqErr + bytes) (a : acc) : step :=
  '(values, valueErr) ← ev (memberValue m) input;
  match values with
  | [] => mret (a, valueErr)
  | _ =>
      match resolved with
      | inl e => mret (a, Some e)
      | inr key =>
          if existsb (bytes_eqb key) remaining then
            r ← forEach (fun _ a =>
                           t ← tick;
                           match t with
                           | Some e => mret (a, Some e)
                           | None => process key JNull a
                           end) (replicate (length values) tt) a;
            mret (lastly r valueErr)
          else
            e ← retain values;
            match e with
            | Some e => mret (a, Some e)
            | None => r ← consumeFirst (process key) values a; mret (lastly r valueErr)
            end
      end
  end.

Definition resolveKey (kv : value) : jqErr + bytes :=
  match kv with
  | JString s => inr s
  | _ => runtime (KeyNotString (typeName kv))
  end.

(** One member after the other, for every combination of their values.  [path]
    is the object so far, of size [ns]; [remaining] the static keys of the
    members that are left, which will replace what is stored under them now. *)
Fixpoint evalObjectMembers (members : list objectMember) (path : list (bytes * value)) (remaining : list bytes)
    (ns : Z * Z) (a : acc) {struct members} : step :=
  match members with
  | [] =>
      match object path with
      | inl e => mret (a, Some e)
      | inr item => add a item
      end
  | m :: rest =>
      let remaining := match staticObjectKey m with Some _ => tail remaining | None => remaining end in
      let key := processKey (processValue (fun path => evalObjectMembers rest path remaining) path ns) m remaining in
      match dynamicKey m with
      | None => key (inr (literalKey m)) a
      | Some k =>
          '(keyValues, keyErr) ← ev k input;
          e ← retain keyValues;
          match e with
          | Some e => mret (a, Some e)
          | None =>
              r ← consume (fun kv a => '(a, e) ← key (resolveKey kv) a; mret (a, None, e)) keyValues a;
              mret (lastly r keyErr)
          end
      end
  end.

Definition evalObject (members : list objectMember) : E outcome :=
  e ← retainSize 1 2;
  match e with
  | Some e => mret ([], Some e)
  | None =>
      '(a, e) ← evalObjectMembers members [] (omap staticObjectKey members) (1, 2) (newAcc true);
      releaseSize 1 2;;
      releaseAcc a;;
      mret (a_values a, e)
  end.
End Object.

(** *** map *)

(** The items of an array or the values of an object. *)
Definition itemsOf (input : value) : option (list value) :=
  match input with
  | JArray items _ _ _ => Some items
  | JObject ms _ _ _ => Some (map snd ms)
  | _ => None
  end.

(** What [map] has collected, its size as an array, and what it has retained. *)
Record mapping := mkMapping { mapped : list value; m_size : Z * Z; m_retNodes : Z; m_retBytes : Z }.

Definition mapOutput (m : mapping) (output : value) : E (mapping * option jqErr) :=
  let separator := match mapped m with [] => 0 | _ => 1 end in
  match addAggregate (m_size m) output separator MaxValueNodes MaxValueBytes with
  | inl e => mret (m, Some e)
  | inr ns =>
      e ← retainSize (nodesOf output) (bytesOf output + separator);
      match e with
      | Some e => mret (m, Some e)
      | None => mret (mkMapping (mapped m ++ [output]) ns (m_retNodes m + nodesOf output)
                                (m_retBytes m + (bytesOf output + separator)), None)
      end
  end.

Fixpoint mapOutputs (m : mapping) (outputs : list value) : E (mapping * option jqErr) :=
  match outputs with
  | [] => mret (m, None)
  | o :: outputs =>
      '(m, e) ← mapOutput m o;
      match e with
      | Some e => mret (m, Some e)
      | None => mapOutputs m outputs
      end
  end.

Fixpoint mapItems (f : value -> E outcome) (items : list value) (m : mapping) : E (mapping * option jqErr) :=
  match items with
  | [] => mret (m, None)
  | item :: items =>
      t ← tick;
      match t with
      | Some e => mret (m, Some e)
      | None =>
          '(outputs, err) ← f item;
          match err with
          | Some e => mret (m, Some e)
          | None =>
              '(m, e) ← mapOutputs m outputs;
              match e with
              | Some e => mret (m, Some e)
              | None => mapItems f items m
              end
          end
      end
  end.

Definition evalMap (f : value -> E outcome) (input : value) : E outcome :=
  match itemsOf input with
  | None => mret ([], Some (RuntimeError (CannotIterate (typeName input))))
  | Some items =>
      e ← retainSize 1 2;
      match e with
      | Some e => mret ([], Some e)
      | None =>
          '(m, e) ← mapItems f items (mkMapping [] (1, 2) 1 2);
          releaseSize (m_retNodes m) (m_retBytes m);;
          mret (match e with
                | Some e => ([], Some e)
                | None => match arrayValue (mapped m) with inl e => ([], Some e) | inr v => ([v], None) end
                end)
      end
  end.

(** *** The cases of [eval] *)

Definition one (r : jqErr + value) : outcome := match r with inl e => ([], Some e) | inr v => ([v], None) end.

(** [bounded]. *)
Definition bounded (vs : list value) : E outcome :=
  '(a, e) ← addAll (newAcc false) vs;
  mret (a_values a, e).

(** Evaluate, then a loop over the results with an accumulator of its own. *)
Definition mapResults (m : E outcome) (body : value -> acc -> step) : E outcome :=
  '(vs, err) ← m;
  '(a, e) ← forEach body vs (newAcc false);
  mret (finish a e err).

(** Evaluate, retain the results and consume them. *)
Definition consumeResults (m : E outcome) (body : value -> acc -> E (acc * option jqErr * option jqErr)) : E outcome :=
  '(vs, err) ← m;
  e ← retain vs;
  match e with
  | Some e => mret ([], Some e)
  | None =>
      '(a, e) ← consume body vs (newAcc true);
      releaseAcc a;;
      mret (finish a e err)
  end.

Definition evalField (left : value -> E outcome) (name : bytes) (input : value) (optional : bool) : E outcome :=
  mapResults (left input) (fun base => tickAddOptional optional (fieldValue base name)).

Definition evalIndex (left right : value -> E outcome) (input : value) (optional : bool) : E outcome :=
  consumeResults (right input) (fun index a =>
    '(bases, baseErr) ← left input;
    '(a, e) ← forEach (fun base => tickAddOptional optional (indexValue base index)) bases a;
    mret (a, e, baseErr)).

Definition evalIterator (left : value -> E outcome) (input : value) (optional : bool) : E outcome :=
  mapResults (left input) (fun base a =>
    t ← tick;
    match t with
    | Some e => mret (a, Some e)
    | None =>
        match base with
        | JArray items _ _ _ => addAll a items
        | JObject ms _ _ _ => addAll a (map snd ms)
        | _ => mret (a, if optional then None else Some (RuntimeError (CannotIterate (typeName base))))
        end
    end).

Definition evalPipe (left right : value -> E outcome) (input : value) : E outcome :=
  consumeResults (left input) (fun item a =>
    '(rs, err) ← right item;
    '(a, e) ← addAll a rs;
    mret (a, e, err)).

Definition evalComma (left right : value -> E outcome) (input : value) : E outcome :=
  '(ls, err) ← left input;
  match err with
  | Some e => mret (ls, Some e)
  | None =>
      e ← retain ls;
      match e with
      | Some e => mret (ls, Some e)
      | None =>
          '(rs, err) ← right input;
          release ls;;
          '(a, e) ← addAll (newAcc false) (ls ++ rs);
          mret (finish a e err)
      end
  end.

Definition evalAlternative (left right : value -> E outcome) (input : value) : E outcome :=
  '(vs, err) ← mapResults (left input) (fun item a => if truthy item then add a item else mret (a, None));
  match err, vs with
  | Some e, _ => mret (vs, Some e)
  | None, _ :: _ => mret (vs, None)
  | None, [] => right input
  end.

(** The boolean operators: [short] is the truth that decides without the right
    side. *)
Definition evalLogic (short : bool) (left right : value -> E outcome) (input : value) : E outcome :=
  consumeResults (left input) (fun l a =>
    if Bool.eqb (truthy l) short then
      '(a, e) ← add a (JBool short);
      mret (a, e, None)
    else
      '(rs, err) ← right input;
      '(a, e) ← forEach (fun r => tickAdd (inr (JBool (truthy r)))) rs a;
      mret (a, e, err)).

Definition evalOrdinaryBinary (op : tokenKind) (left right : value -> E outcome) (input : value) : E outcome :=
  consumeResults (right input) (fun r a =>
    '(ls, err) ← left input;
    '(a, e) ← applyBinaryBatch op ls r a;
    mret (a, e, err)).

Definition evalNegate (child : value -> E outcome) (input : value) : E outcome :=
  mapResults (child input) (fun item a =>
    match negateNumber item with
    | inl e => mret (a, Some e)
    | inr v => add a v
    end).

Definition evalArray (items : outcome) : outcome :=
  match snd items with
  | Some e => ([], Some e)
  | None => one (arrayValue (fst items))
  end.

(** The functions with an argument. *)
Definition evalHas (child : value -> E outcome) (input : value) : E outcome :=
  mapResults (child input) (fun key a =>
    match hasValue input key with
    | inl e => mret (a, Some e)
    | inr b => add a (JBool b)
    end).

Definition evalSelect (child : value -> E outcome) (input : value) : E outcome :=
  mapResults (child input) (fun p a => if truthy p then add a input else mret (a, None)).

Definition evalCall (name : bytes) (child : option (value -> E outcome)) (input : value) : E outcome :=
  if name =s "empty" then mret ([], None)
  else if name =s "not" then mret ([JBool (negb (truthy input))], None)
  else if name =s "type" then mret (one (inr (JString (typeName input))))
  else if name =s "length" then mret (one (lengthValue input))
  else if name =s "keys" then mret (one (keysValue input))
  else
    match child with
    | Some f =>
        if name =s "has" then evalHas f input
        else if name =s "select" then evalSelect f input
        else if name =s "map" then evalMap f input
        else mret ([], Some (RuntimeError (UnknownFunction name)))
    | None => mret ([], Some (RuntimeError (UnknownFunction name)))
    end.

(** [evalOptional] of anything but a field, an index or an iterator. *)
Definition suppress (m : E outcome) : E outcome :=
  '(vs, err) ← m;
  match err with
  | Some e => if runtimeErr e then bounded vs else mret (vs, err)
  | None => mret (vs, None)
  end.

Fixpoint eval (n : node) (input : value) {struct n} : E outcome :=
  t ← tick;
  match t with
  | Some e => mret ([], Some e)
  | None =>
      match n with
      | NIdentity => mret ([input], None)
      | NLiteral v => mret ([v], None)
      | NVariable name =>
          mret (match variables name with
                | Some v => ([v], None)
                | None => ([], Some (RuntimeError (UndefinedVariable name)))
                end)
      | NField l name => evalField (eval l) name input false
      | NIndex l r => evalIndex (eval l) (eval r) input false
      | NIterator l => evalIterator (eval l) input false
      | NGroup c => eval c input
      | NOptional c =>
          match c with
          | NField l name => evalField (eval l) name input true
          | NIndex l r => evalIndex (eval l) (eval r) input true
          | NIterator l => evalIterator (eval l) input true
          | _ => suppress (eval c input)
          end
      | NPipe l r => evalPipe (eval l) (eval r) input
      | NComma l r => evalComma (eval l) (eval r) input
      | NAlternative l r => evalAlternative (eval l) (eval r) input
      | NBinary name op l r =>
          if name =s "and" then evalLogic false (eval l) (eval r) input
          else if name =s "or" then evalLogic true (eval l) (eval r) input
          else evalOrdinaryBinary op (eval l) (eval r) input
      | NNegate c => evalNegate (eval c) input
      | NArray None => mret (evalArray ([], None))
      | NArray (Some c) => items ← eval c input; mret (evalArray items)
      | NObject ms => evalObject eval input ms
      | NCall name c => evalCall name (match c with Some c => Some (eval c) | None => None end) input
      end
  end.

(** The results within those left for the run. *)
Definition takeTop (vs : list value) (err : option jqErr) : E outcome := fun s =>
  let remaining := MaxResults - topResults s in
  let more n := mkEst (steps s) (polls s) (retNodes s) (retBytes s) (topResults s + n) in
  if remaining <? Z.of_nat (length vs)
  then ((take (Z.to_nat remaining) vs, Some errResultLimit), more remaining)
  else ((vs, err), more (Z.of_nat (length vs))).

(** Are the retained totals back to nothing? *)
Definition balanced : E bool := fun s => ((retNodes s =? 0) && (retBytes s =? 0), s).

(** [evaluate]: the results of one input. *)
Definition evaluate (root : node) (input : value) : E outcome :=
  '(results, err) ← eval root input;
  b ← balanced;
  if b : bool then
    '(vs, e) ← bounded results;
    match e with
    | Some e => mret (vs, Some e)
    | None => takeTop vs err
    end
  else mret ([], Some errImbalance).

End Eval.
End JqEval.
