(* ===== verification/JqRetain.v ===== *)
(** * The accounts of the jq evaluator (builtins/jq/eval.go)

    Every path of the evaluator gives back what it has retained, and the
    evaluation stops soon after its last step: each node of the filter makes at
    most one more poll. *)

From S2P Require Import Prelude GoStd Utf8 JqValue JqString JqParse JqEval.
From stdpp Require Import base list strings sorting.
From Stdlib Require Import ZArith Lia Ascii SpecFloat QArith.

(** * A logic of evaluations (builtins/jq/eval.go)

    The weakest precondition of a computation over the evaluator's state, and
    what one turn of a loop does to the state: how much it retains, and how
    often it looks at the context once there is no step left. *)

#[local] Open Scope Z_scope.

Module JqLogic.
Import GoStd Utf8 JqValue JqLex JqParse JqEval.

(** ** Weakest preconditions *)

Definition wp {A} (m : E A) (Q : A -> est -> Prop) (s : est) : Prop := Q (fst (m s)) (snd (m s)).

Lemma wp_ret {A} (a : A) Q s : Q a s -> wp (mret a) Q s.
Proof. exact id. Qed.

Lemma wpE_bind {A B} (m : E A) (f : A -> E B) Q s : wp m (fun a => wp (f a) Q) s -> wp (mbind f m) Q s.
Proof. unfold wp, mbind, E_bind. destruct (m s); exact id. Qed.

Lemma wpE_mono {A} (m : E A) (Q R : A -> est -> Prop) s :
  wp m Q s -> (forall a s', Q a s' -> R a s') -> wp m R s.
Proof. unfold wp; auto. Qed.

Lemma wp_run {A} (m : E A) Q s a s' : wp m Q s -> m s = (a, s') -> Q a s'.
Proof. unfold wp. intros H E. rewrite E in H. exact H. Qed.

(** One step of a proof: a return, or a bind whose first part has a lemma. *)
Ltac wpb H := apply wpE_bind; eapply wpE_mono; [apply H|].

Section Turns.
Context `{FloatText}.

(** ** Sizes *)

Definition nodesIn (vs : list value) : Z := foldr (fun v n => nodesOf v + n) 0 vs.
Definition bytesIn (vs : list value) : Z := foldr (fun v n => bytesOf v + n) 0 vs.

Lemma nodesIn_app vs ws : nodesIn (vs ++ ws) = nodesIn vs + nodesIn ws.
Proof. unfold nodesIn. induction vs as [|v vs IH]; cbn [app foldr]; lia. Qed.

Lemma bytesIn_app vs ws : bytesIn (vs ++ ws) = bytesIn vs + bytesIn ws.
Proof. unfold bytesIn. induction vs as [|v vs IH]; cbn [app foldr]; lia. Qed.

(** What an accumulator has retained. *)
Definition keptNodes (a : acc) : Z := if a_retained a then nodesIn (a_values a) else 0.
Definition keptBytes (a : acc) : Z := if a_retained a then bytesIn (a_values a) else 0.

(** ** When the evaluation has to stop *)

Context (ctxErr : nat -> bool).

(** The context is cancelled at its poll number [cutoff] and stays so; None
    when it never is. *)
Definition cancelledFrom (cutoff : option nat) : Prop :=
  forall p, ctxErr p = match cutoff with Some c => (c <=? p)%nat | None => false end.

Definition fatal (e : option jqErr) : Prop := match e with Some e => runtimeErr e = false | None => False end.

(** The first of two errors. *)
Definition either (e f : option jqErr) : option jqErr := match e with Some e => Some e | None => f end.

Definition errorOf {A} (r : jqErr + A) : option jqErr := match r with inl e => Some e | inr _ => None end.

Section Cutoff.
Context (cutoff : option nat).

(** How many more steps may succeed. *)
Definition remaining (s : est) : Z :=
  match cutoff with
  | Some c => Z.min (MaxEvalSteps - steps s) (Z.of_nat c - Z.of_nat (polls s))
  | None => MaxEvalSteps - steps s
  end.

(** The polls of the context by the time no step is left. *)
Definition until (s : est) : Z := Z.of_nat (polls s) + Z.max 0 (remaining s).

(** What no computation can do when no step is left: more than one poll, and
    that one is an error. *)
Definition stuck (e : option jqErr) (s s' : est) : Prop :=
  remaining s <= 0 -> polls s' = polls s \/ (polls s' = S (polls s) /\ fatal e).

(** At most [k] polls are made when no step is left any more. *)
Definition costs (k : Z) (e : option jqErr) (s s' : est) : Prop :=
  remaining s' <= remaining s /\
  (0 < remaining s' -> until s' <= until s) /\
  (0 < remaining s -> until s' <= until s + k) /\ stuck e s s'.

(** The cost of a computation that stops at the first step that fails. *)
Definition failing (e : option jqErr) : Z := match e with Some _ => 1 | None => 0 end.

(** The retained totals grow by [n] nodes and [b] bytes. *)
Definition grows (n b : Z) (s s' : est) : Prop :=
  retNodes s' = retNodes s + n /\ retBytes s' = retBytes s + b /\ topResults s' = topResults s.

Definition moves (k : Z) (e : option jqErr) (n b : Z) (s s' : est) : Prop := costs k e s s' /\ grows n b s s'.

(** ** Composition *)

Lemma costs_silent e s s' : steps s' = steps s -> polls s' = polls s -> costs 0 e s s'.
Proof.
  intros Hs Hp. assert (remaining s' = remaining s /\ until s' = until s) as [Hr Hu].
  { unfold until, remaining. rewrite Hs, Hp. auto. }
  unfold costs, stuck. rewrite Hr, Hu, Hp. repeat split; auto; lia.
Qed.

Lemma costs_weaken k k' e s s' : costs k e s s' -> k <= k' -> costs k' e s s'.
Proof. unfold costs. intros (A1 & A2 & A3 & A4) Hk. repeat split; auto. intros; specialize (A3 ltac:(assumption)); lia. Qed.

Lemma costs_trans k1 k2 k e s s1 s2 :
  costs k1 None s s1 -> costs k2 e s1 s2 -> k1 + failing e <= k -> k2 <= k -> costs k e s s2.
Proof.
  unfold costs, stuck, failing, until. intros (A1 & A2 & A3 & A4) (B1 & B2 & B3 & B4) Hk1 Hk2.
  assert (remaining s <= 0 -> polls s1 = polls s) as A5 by (intros Hs; destruct (A4 Hs) as [?|[_ []]]; assumption).
  assert (remaining s1 <= 0 -> polls s2 = polls s1 \/ (polls s2 = S (polls s1) /\ match e with Some _ => True | None => False end))
    as B5 by (intros Hs; destruct (B4 Hs) as [?|[? Hf]]; [left; assumption|right; split; [assumption|]];
              destruct e; [exact I|destruct Hf]).
  split; [lia|]. split; [|split].
  - lia.
  - intros Hs. destruct (Z_lt_le_dec 0 (remaining s1)) as [Hl|Hl]; [lia|].
    destruct (B5 Hl) as [Hp|[Hp He]]; [destruct e; lia|]. destruct e; [lia|destruct He].
  - intros Hs. specialize (A5 Hs). rewrite <- A5. apply B4. lia.
Qed.

(** The same after an error that is returned at the end. *)
Lemma costs_pending k1 k2 k e1 e2 s s1 s2 :
  0 < remaining s -> costs k1 e1 s s1 -> costs k2 e2 s1 s2 -> k1 + 1 <= k -> k2 <= k ->
  costs k (either e2 e1) s s2.
Proof.
  unfold costs, stuck, until. intros Hs (A1 & A2 & A3 & A4) (B1 & B2 & B3 & B4) Hk1 Hk2.
  specialize (A3 Hs).
  assert (remaining s1 <= 0 -> (polls s2 <= S (polls s1))%nat) as B5 by (intros Hl; destruct (B4 Hl) as [?|[? _]]; lia).
  split; [lia|]. split; [lia|]. split; [|lia]. intros _. destruct (Z_lt_le_dec 0 (remaining s1)); lia.
Qed.

Lemma stepsGrow_refl s s' : retNodes s' = retNodes s -> retBytes s' = retBytes s -> topResults s' = topResults s -> grows 0 0 s s'.
Proof. unfold grows; lia. Qed.

Lemma stepsGrow_trans n1 b1 n2 b2 n b s s1 s2 :
  grows n1 b1 s s1 -> grows n2 b2 s1 s2 -> n = n1 + n2 -> b = b1 + b2 -> grows n b s s2.
Proof. unfold grows; lia. Qed.

Lemma moves_trans k1 k2 k e n1 b1 n2 b2 n b s s1 s2 :
  moves k1 None n1 b1 s s1 -> moves k2 e n2 b2 s1 s2 -> k1 + failing e <= k -> k2 <= k -> n = n1 + n2 -> b = b1 + b2 ->
  moves k e n b s s2.
Proof. intros [A1 A2] [B1 B2] ????. split; [eapply costs_trans; eauto|eapply stepsGrow_trans; eauto]. Qed.

(** Nothing but the retained totals changes. *)
Definition quiet (n b : Z) (s s' : est) : Prop := steps s' = steps s /\ polls s' = polls s /\ grows n b s s'.

Lemma quiet_remaining n b s s' : quiet n b s s' -> remaining s' = remaining s /\ until s' = until s.
Proof. unfold until, remaining. intros (-> & -> & _). auto. Qed.

Lemma quiet_moves e n b s s' : quiet n b s s' -> moves 0 e n b s s'.
Proof. intros (A & B & C). split; [apply costs_silent; assumption|exact C]. Qed.

Lemma moves_quiet k e n1 b1 n2 b2 n b s s1 s2 :
  moves k e n1 b1 s s1 -> quiet n2 b2 s1 s2 -> n = n1 + n2 -> b = b1 + b2 -> moves k e n b s s2.
Proof.
  intros [A B] Q ??. destruct (quiet_remaining _ _ _ _ Q) as [Hr Hu]. destruct Q as (_ & Hp & G).
  split; [|eapply stepsGrow_trans; eauto]. unfold costs, stuck in *. rewrite Hr, Hu, Hp. exact A.
Qed.

Lemma quiet_trans n1 b1 n2 b2 s s1 s2 : quiet n1 b1 s s1 -> quiet n2 b2 s1 s2 -> quiet (n1 + n2) (b1 + b2) s s2.
Proof. unfold quiet, grows; lia. Qed.

Lemma quiet_refl s : quiet 0 0 s s.
Proof. unfold quiet, grows; lia. Qed.

(** ** The primitive operations *)

Context (Hcutoff : cancelledFrom cutoff).

Lemma tick_wp s :
  wp (tick ctxErr) (fun t s' => moves (failing t) t 0 0 s s' /\ match t with Some e => runtimeErr e = false | None => 0 < remaining s end) s.
Proof.
  unfold wp, tick, moves, costs, stuck, until, remaining, grows. rewrite Hcutoff.
  destruct cutoff as [c|]; [destruct (Nat.leb_spec c (polls s))|]; cbn [fst snd steps polls retNodes retBytes topResults].
  - cbn [failing fatal runtimeErr]. repeat split; try lia.
  - destruct (Z.ltb_spec MaxEvalSteps (steps s + 1)); cbn [fst failing fatal runtimeErr]; repeat split; lia.
  - destruct (Z.ltb_spec MaxEvalSteps (steps s + 1)); cbn [fst failing fatal runtimeErr]; repeat split; lia.
Qed.

Lemma retainSize_wp n b s :
  wp (retainSize n b) (fun e s' => match e with Some e => runtimeErr e = false /\ s' = s | None => quiet n b s s' end) s.
Proof.
  unfold wp, retainSize. destruct (_ || _); cbn [fst snd]; [split; reflexivity|]. unfold quiet, grows, setRet; cbn; lia.
Qed.

Lemma releaseSize_wp n b s : wp (releaseSize n b) (fun _ s' => quiet (- n) (- b) s s') s.
Proof. unfold wp, releaseSize, quiet, grows, setRet; cbn; lia. Qed.

Lemma retainTotals_spec vs n b n' b' :
  retainTotals vs n b = Some (n', b') -> n' = n + nodesIn vs /\ b' = b + bytesIn vs.
Proof.
  revert n b. induction vs as [|v vs IH]; intros n b; cbn [retainTotals nodesIn bytesIn foldr].
  - intros [= <- <-]; lia.
  - destruct (_ || _); [discriminate|]. intros E. apply IH in E. unfold nodesIn, bytesIn in *. lia.
Qed.

Lemma retain_wp vs s :
  wp (retain vs) (fun e s' => match e with Some e => runtimeErr e = false /\ s' = s | None => quiet (nodesIn vs) (bytesIn vs) s s' end) s.
Proof.
  unfold wp, retain. destruct (retainTotals _ _ _) as [[n b]|] eqn:E; cbn [fst snd]; [|split; reflexivity].
  apply retainTotals_spec in E. unfold quiet, grows, setRet; cbn; lia.
Qed.

Lemma release_wp vs s : wp (release vs) (fun _ s' => quiet (- nodesIn vs) (- bytesIn vs) s s') s.
Proof.
  revert s. induction vs as [|v vs IH]; intros s; cbn [release].
  - apply wp_ret, quiet_refl.
  - wpb releaseSize_wp. intros [] s1 H1. eapply wpE_mono; [apply IH|]. intros [] s2 H2. cbn [nodesIn bytesIn foldr].
    pose proof (quiet_trans _ _ _ _ _ _ _ H1 H2) as Q. unfold quiet, grows, nodesIn, bytesIn in *. lia.
Qed.

Lemma releaseAcc_wp a s : wp (releaseAcc a) (fun _ s' => quiet (- keptNodes a) (- keptBytes a) s s') s.
Proof.
  unfold releaseAcc, keptNodes, keptBytes. destruct (a_retained a); [apply release_wp|apply wp_ret, quiet_refl].
Qed.

(** ** Turns of the loops *)

(** From the accumulator [a] to [a'], which has retained what the state shows. *)
Definition turn (k : Z) (a : acc) (s : est) (r : acc * option jqErr) (s' : est) : Prop :=
  let '(a', e) := r in
  a_retained a' = a_retained a /\ moves k e (keptNodes a' - keptNodes a) (keptBytes a' - keptBytes a) s s'.

(** A turn that stops at the first step that fails. *)
Definition short (a : acc) (s : est) (r : acc * option jqErr) (s' : est) : Prop := turn (failing (snd r)) a s r s'.

Lemma turn_same a e s : short a s (a, e) s.
Proof.
  split; [reflexivity|]. rewrite !Z.sub_diag. destruct (quiet_moves e 0 0 s s (quiet_refl s)) as [A B]. split; [|exact B].
  eapply costs_weaken; [exact A|]. cbn. destruct e; cbn; lia.
Qed.

Lemma add_wp a v s : wp (add a v) (short a s) s.
Proof.
  unfold add. destruct (_ || _); [apply wp_ret, turn_same|]. apply wpE_bind.
  assert (forall n b s', quiet n b s s' -> n = (if a_retained a then nodesOf v else 0) -> b = (if a_retained a then bytesOf v else 0) ->
          short a s (mkAcc (a_values a ++ [v]) (a_retained a) (a_nodes a + nodesOf v) (a_bytes a + bytesOf v), None) s') as Hadd.
  { intros n b s' Hq -> ->. split; [reflexivity|]. unfold keptNodes, keptBytes; cbn [a_retained a_values].
    apply quiet_moves. destruct (a_retained a); rewrite ?nodesIn_app, ?bytesIn_app; cbn [nodesIn bytesIn foldr];
      unfold quiet, grows in *; lia. }
  destruct (a_retained a) eqn:Hr.
  - eapply wpE_mono; [apply retain_wp|]. intros [e|] s' Hq; apply wp_ret.
    + destruct Hq as [_ ->]. apply turn_same.
    + refine (Hadd _ _ _ Hq _ _); cbn [nodesIn bytesIn foldr]; lia.
  - apply wp_ret, wp_ret. refine (Hadd _ _ _ (quiet_refl s) _ _); reflexivity.
Qed.

Lemma turn_weaken k k' a s r s' : turn k a s r s' -> k <= k' -> turn k' a s r s'.
Proof. destruct r as [a' e]. intros (A & B & C) Hk. split; [exact A|split; [eapply costs_weaken; eauto|exact C]]. Qed.

Lemma turn_trans k1 k2 k a a1 r s s1 s2 :
  turn k1 a s (a1, None) s1 -> turn k2 a1 s1 r s2 -> k1 + failing (snd r) <= k -> k2 <= k -> turn k a s r s2.
Proof.
  destruct r as [a2 e]. intros (A1 & A2) (B1 & B2) Hk1 Hk2. split; [congruence|].
  eapply moves_trans; [exact A2|exact B2|exact Hk1|exact Hk2|lia|lia].
Qed.

Lemma short_trans a a1 r s s1 s2 : short a s (a1, None) s1 -> short a1 s1 r s2 -> short a s r s2.
Proof.
  intros A B. eapply turn_trans; [exact A|exact B| |]; cbn [snd failing]; lia.
Qed.

End Cutoff.
End Turns.
End JqLogic.

#[local] Open Scope Z_scope.

Module JqRetain.
Import GoStd Utf8 JqValue JqLex JqParse JqEval JqLogic.

Section Retain.
Context `{FloatText} (ctxErr : nat -> bool) (cutoff : option nat) (Hcutoff : cancelledFrom ctxErr cutoff).

Abbreviation moves := (moves cutoff).
Abbreviation turn := (turn cutoff).
Abbreviation short := (short cutoff).
Abbreviation remaining := (remaining cutoff).
Abbreviation tick := (tick ctxErr).

(** ** Computations of a value *)

(** A computation that keeps nothing and stops at the first step that fails. *)
Definition calm {A} (s : est) (r : jqErr + A) (s' : est) : Prop := moves (failing (errorOf r)) (errorOf r) 0 0 s s'.

Definition calmly {A} (m : E (jqErr + A)) : Prop := forall s, wp m (calm s) s.

Lemma calm_ret {A} (r : jqErr + A) s : calm s r s.
Proof.
  destruct (quiet_moves cutoff (errorOf r) 0 0 s s (quiet_refl s)) as [B C]. split; [|exact C].
  eapply costs_weaken; [exact B|]. destruct r; cbn; lia.
Qed.

Lemma calmly_ret {A} (r : jqErr + A) : calmly (mret r).
Proof. intros s. apply wp_ret, calm_ret. Qed.

Lemma calm_trans {A B} (a : A) (r : jqErr + B) s s1 s2 : calm s (inr a : jqErr + A) s1 -> calm s1 r s2 -> calm s r s2.
Proof. intros A1 A2. eapply moves_trans; [exact A1|exact A2| | | |]; cbn [errorOf failing]; lia. Qed.

Lemma calmly_tick {A} (m : E (jqErr + A)) :
  calmly m -> calmly (t ← tick; match t with Some e => mret (inl e) | None => m end).
Proof.
  intros Hm s. wpb (tick_wp ctxErr cutoff Hcutoff). intros [e|] s1 [H1 _].
  - apply wp_ret. exact H1.
  - eapply wpE_mono; [apply Hm|]. intros r s2 H2. refine (calm_trans tt r s s1 s2 _ H2). exact H1.
Qed.

(** After a computation, one that depends on its value; an error may be passed
    on in any way. *)
Lemma calmly_bind {A B} (m : E (jqErr + A)) (f : jqErr + A -> E (jqErr + B)) :
  calmly m -> (forall a, calmly (f (inr a))) -> (forall e, f (inl e) = mret (inl e)) -> calmly (mbind f m).
Proof.
  intros Hm Hf He s. wpb Hm. intros [e|a] s1 H1.
  - rewrite He. apply wp_ret. exact H1.
  - eapply wpE_mono; [apply Hf|]. intros r s2 H2. exact (calm_trans _ _ _ _ _ H1 H2).
Qed.

Lemma collectKeys_wp {X} (ms : list (bytes * X)) s :
  wp (collectKeys ctxErr ms) (fun e s' => moves (failing e) e 0 0 s s') s.
Proof.
  revert s. induction ms as [|m ms IH]; intros s; cbn [collectKeys].
  - apply wp_ret, quiet_moves, quiet_refl.
  - wpb (tick_wp ctxErr cutoff Hcutoff). intros [e|] s1 [H1 _]; [apply wp_ret; exact H1|].
    eapply wpE_mono; [apply IH|]. intros e s2 H2. eapply moves_trans; [exact H1|exact H2| | | |]; cbn [failing]; lia.
Qed.

Lemma calmly_keys {X A} (ms : list (bytes * X)) (m : E (jqErr + A)) :
  calmly m -> calmly (e ← collectKeys ctxErr ms; match e with Some e => mret (inl e) | None => m end).
Proof.
  intros Hm s. wpb (collectKeys_wp ms). intros [e|] s1 H1; [apply wp_ret; exact H1|].
  eapply wpE_mono; [apply Hm|]. intros r s2 H2. refine (calm_trans tt r s s1 s2 _ H2). exact H1.
Qed.

Lemma compareMembers_calm subs ms ks ls :
  Forall (fun kv => forall r, calmly (snd kv r)) subs -> calmly (compareMembers subs ms ks ls).
Proof.
  intros Hsubs. revert ls. induction ks as [|k ks IH]; intros [|l ls]; try (apply calmly_ret); cbn [compareMembers].
  apply calmly_bind; [|intros []; auto using calmly_ret|reflexivity].
  clear IH. induction Hsubs as [|[k' f] subs Hf _ IH]; [apply calmly_ret|]. cbn [getMember].
  destruct (bytes_eqb k' k); [apply Hf|exact IH].
Qed.

Lemma compareValues_calm l r : calmly (compareValues ctxErr l r).
Proof.
  revert r. induction l as [| | | |items n s d IH|ms n s d IH] using value_ind; intros r; cbn [compareValues];
    apply calmly_tick; try solve [destruct r; apply calmly_ret].
  - destruct r as [| | | |ys ? ? ?|]; try apply calmly_ret. revert ys.
    induction IH as [|x xs Hx _ IHl]; intros [|y ys]; try apply calmly_ret.
    apply calmly_bind; [apply Hx|intros []; auto using calmly_ret|reflexivity].
  - destruct r as [| | | | |ns ? ? ?]; try apply calmly_ret. apply calmly_keys, calmly_keys.
    destruct (compareKeys _ _); try apply calmly_ret. destruct (_ ?= _)%nat; try apply calmly_ret.
    apply compareMembers_calm. apply Forall_map. eapply Forall_impl; [exact IH|]. intros [k v] Hv. exact Hv.
Qed.

Lemma valuesEqual_calm l r : calmly (valuesEqual ctxErr l r).
Proof.
  revert r. induction l as [| | | |items n s d IH|ms n s d IH] using value_ind; intros r; cbn [valuesEqual];
    apply calmly_tick; try solve [destruct r; apply calmly_ret].
  - destruct r as [| | | |ys ? ? ?|]; try apply calmly_ret. destruct (negb _); [apply calmly_ret|]. revert ys.
    induction IH as [|x xs Hx _ IHl]; intros [|y ys]; try apply calmly_ret.
    apply calmly_bind; [apply Hx|intros []; auto using calmly_ret|reflexivity].
  - destruct r as [| | | | |ns ? ? ?]; try apply calmly_ret. destruct (negb _); [apply calmly_ret|].
    induction IH as [|[k v] ms Hv _ IHl]; [apply calmly_ret|].
    destruct (getMember k ns); [|apply calmly_ret].
    apply calmly_bind; [apply Hv|intros []; auto using calmly_ret|reflexivity].
Qed.

Lemma excluded_calm x ys : calmly (excluded ctxErr x ys).
Proof.
  induction ys as [|y ys IH]; [apply calmly_ret|]. cbn [excluded]. apply calmly_tick.
  apply calmly_bind; [apply valuesEqual_calm|intros []; auto using calmly_ret|reflexivity].
Qed.

Lemma subtractLoop_calm xs ys items : calmly (subtractLoop ctxErr xs ys items).
Proof.
  revert items. induction xs as [|x xs IH]; intros items; [apply calmly_ret|]. cbn [subtractLoop].
  apply calmly_bind; [apply excluded_calm|intros a; apply IH|reflexivity].
Qed.

Lemma subtractArrays_calm xs ys : calmly (subtractArrays ctxErr xs ys).
Proof. apply calmly_bind; [apply subtractLoop_calm|intros a; apply calmly_ret|reflexivity]. Qed.

Lemma mergeObjectsRecursive_calm ls r : calmly (mergeObjectsRecursive ctxErr ls r).
Proof.
  revert ls. induction r as [| | | | |rs n s d IH] using value_ind; intros ls; try apply calmly_ret.
  cbn [mergeObjectsRecursive]. apply calmly_bind; [|intros a; apply calmly_ret|reflexivity].
  match goal with |- calmly (?go rs ls) => cut (forall items, calmly (go rs items)); [auto|] end.
  induction IH as [|[k v] rs Hv _ IHl]; intros items; [apply calmly_ret|]. apply calmly_tick.
  apply calmly_bind; [|intros a; apply IHl|reflexivity].
  destruct (getMember k ls) as [[]|]; try apply calmly_ret. destruct v; try apply calmly_ret. apply Hv.
Qed.

Lemma applyBinary_calm op l r : calmly (applyBinary ctxErr op l r).
Proof.
  unfold applyBinary. destruct (isComparison op).
  - apply calmly_bind; [apply compareValues_calm|intros a; apply calmly_ret|reflexivity].
  - destruct op; try apply calmly_ret; destruct l; try apply calmly_ret; destruct r; try apply calmly_ret;
      auto using subtractArrays_calm, mergeObjectsRecursive_calm.
Qed.

(** ** Loops *)

(** What a computation with an accumulator does from any state. *)
Definition turns (k : Z) (a : acc) (m : E (acc * option jqErr)) : Prop := forall s, wp m (turn k a s) s.
Definition shortly (a : acc) (m : E (acc * option jqErr)) : Prop := forall s, wp m (short a s) s.

Lemma shortly_ret a e : shortly a (mret (a, e)).
Proof. intros s. apply wp_ret, turn_same. Qed.

Lemma shortly_add a v : shortly a (add a v).
Proof. intros s. apply add_wp. Qed.

Lemma short_calm {A} a (b : A) r s s1 s2 : calm s (inr b : jqErr + A) s1 -> short a s1 r s2 -> short a s r s2.
Proof.
  destruct r as [a' e]. intros H1 [A1 A2]. split; [exact A1|].
  eapply moves_trans; [exact H1|exact A2| | | |]; cbn [errorOf failing snd]; lia.
Qed.

Lemma short_error a e s s' : moves (failing (Some e)) (Some e) 0 0 s s' -> short a s (a, Some e) s'.
Proof. intros M. split; [reflexivity|]. rewrite !Z.sub_diag. exact M. Qed.

Lemma shortly_calm {A} a (m : E (jqErr + A)) (f : jqErr + A -> E (acc * option jqErr)) :
  calmly m -> (forall b, shortly a (f (inr b))) -> (forall e, f (inl e) = mret (a, Some e)) -> shortly a (mbind f m).
Proof.
  intros Hm Hf He s. wpb Hm. intros [e|b] s1 H1.
  - rewrite He. apply wp_ret, short_error. exact H1.
  - eapply wpE_mono; [apply Hf|]. intros r s2 H2. eapply short_calm; eauto.
Qed.

Lemma shortly_tick a m : shortly a m -> shortly a (t ← tick; match t with Some e => mret (a, Some e) | None => m end).
Proof.
  intros Hm s. wpb (tick_wp ctxErr cutoff Hcutoff). intros [e|] s1 [H1 _].
  - apply wp_ret, short_error. exact H1.
  - eapply wpE_mono; [apply Hm|]. intros r s2 H2. refine (short_calm a tt r s s1 s2 _ H2). exact H1.
Qed.

Lemma forEach_short {X} (body : X -> acc -> E (acc * option jqErr)) xs a :
  (forall x a, shortly a (body x a)) -> shortly a (forEach body xs a).
Proof.
  intros Hb. revert a. induction xs as [|x xs IH]; intros a s; cbn [forEach]; [apply shortly_ret|].
  wpb Hb. intros [a1 [e|]] s1 H1; [apply wp_ret; exact H1|].
  eapply wpE_mono; [apply IH|]. intros r s2 H2. eapply short_trans; eauto.
Qed.

Lemma forEach_turn {X} k (body : X -> acc -> E (acc * option jqErr)) xs a :
  0 <= k -> (forall x a, turns k a (body x a)) -> turns (k + 1) a (forEach body xs a).
Proof.
  intros Hk Hb. revert a. induction xs as [|x xs IH]; intros a s; cbn [forEach].
  - apply wp_ret. eapply turn_weaken; [apply turn_same|cbn; lia].
  - wpb Hb. intros [a1 [e|]] s1 H1; [apply wp_ret; eapply turn_weaken; [exact H1|lia]|].
    eapply wpE_mono; [apply IH|]. intros [a2 e] s2 H2. eapply turn_trans; [exact H1|exact H2| |lia].
    destruct e; cbn; lia.
Qed.

Lemma addAll_short vs a : shortly a (addAll a vs).
Proof. apply forEach_short. intros v a'. apply shortly_add. Qed.

Lemma tickAdd_short r a : shortly a (tickAdd ctxErr r a).
Proof. apply shortly_tick. destruct r; auto using shortly_ret, shortly_add. Qed.

Lemma tickAddOptional_short o r a : shortly a (tickAddOptional ctxErr o r a).
Proof. apply shortly_tick. destruct r; auto using shortly_ret, shortly_add. Qed.

(** What a loop that also gives back the values [xs] does. *)
Definition consumed (k : Z) (xs : list value) (a : acc) (s : est) (r : acc * option jqErr) (s' : est) : Prop :=
  let '(a', e) := r in
  a_retained a' = a_retained a /\
  moves k e (keptNodes a' - keptNodes a - nodesIn xs) (keptBytes a' - keptBytes a - bytesIn xs) s s'.

(** A turn, then values given back. *)
Lemma consumed_release k xs a a' e s s1 s2 :
  turn k a s (a', e) s1 -> quiet (- nodesIn xs) (- bytesIn xs) s1 s2 -> consumed k xs a s (a', e) s2.
Proof. intros [A1 A2] Q. split; [exact A1|]. eapply moves_quiet; [exact A2|exact Q|lia|lia]. Qed.

Lemma consumed_cons k1 k2 k x xs a a1 r s s1 s2 :
  consumed k1 [x] a s (a1, None) s1 -> consumed k2 xs a1 s1 r s2 -> k1 + failing (snd r) <= k -> k2 <= k ->
  consumed k (x :: xs) a s r s2.
Proof.
  destruct r as [a2 e]. intros [A1 A2] [B1 B2] ??. split; [congruence|].
  eapply moves_trans; [exact A2|exact B2|assumption|assumption| |]; cbn [nodesIn bytesIn foldr];
    unfold nodesIn, bytesIn; lia.
Qed.

Lemma consumed_weaken k k' xs a s r s' : consumed k xs a s r s' -> k <= k' -> consumed k' xs a s r s'.
Proof. destruct r as [a' e]. intros (A & B & C) Hk. split; [exact A|split; [eapply costs_weaken; eauto|exact C]]. Qed.

Lemma consumed_rest k x xs a a1 e s s2 s3 :
  consumed k [x] a s (a1, e) s2 -> quiet (- nodesIn xs) (- bytesIn xs) s2 s3 -> consumed (k + 1) (x :: xs) a s (a1, e) s3.
Proof.
  intros [A1 A2] H3. eapply (consumed_weaken k); [|lia]. split; [exact A1|].
  eapply moves_quiet; [exact A2|exact H3| |]; cbn [nodesIn bytesIn foldr]; unfold nodesIn, bytesIn; lia.
Qed.

(** A turn whose error comes before the release or after it. *)
Definition turned (k : Z) (a : acc) (m : E (acc * option jqErr * option jqErr)) : Prop :=
  forall s, wp m (fun r s' => turn k a s (fst (fst r), either (snd (fst r)) (snd r)) s') s.

Lemma consume_wp k body xs a s :
  0 <= k -> (forall x a, turned k a (body x a)) -> wp (consume body xs a) (consumed (k + 1) xs a s) s.
Proof.
  intros Hk Hb. revert a s. induction xs as [|x xs IH]; intros a s; cbn [consume].
  - apply wp_ret. eapply consumed_weaken; [eapply consumed_release; [apply turn_same|apply quiet_refl]|cbn; lia].
  - wpb Hb. intros [[a1 [e|]] late] s1 H1; cbn [fst snd either] in H1.
    + wpb release_wp. intros [] s2 H2. apply wp_ret.
      eapply consumed_weaken; [eapply consumed_release; eauto|lia].
    + wpb release_wp. intros [] s2 H2. pose proof (consumed_release _ [x] _ _ _ _ _ _ H1 H2) as H12. destruct late as [e|].
      * wpb release_wp. intros [] s3 H3. apply wp_ret. eapply consumed_rest; eauto.
      * eapply wpE_mono; [apply IH|]. intros [a2 e] s3 H3. eapply consumed_cons; [exact H12|exact H3| |lia].
        destruct e; cbn; lia.
Qed.

Lemma consumeFirst_wp k body xs a s :
  1 <= k -> (forall x a, turns k a (body x a)) -> wp (consumeFirst ctxErr body xs a) (consumed (k + 1) xs a s) s.
Proof.
  intros Hk Hb. revert a s. induction xs as [|x xs IH]; intros a s; cbn [consumeFirst].
  - apply wp_ret. eapply consumed_weaken; [eapply consumed_release; [apply turn_same|apply quiet_refl]|cbn; lia].
  - wpb (tick_wp ctxErr cutoff Hcutoff). intros [e|] s1 [H1 _].
    + wpb release_wp. intros [] s2 H2. apply wp_ret.
      eapply consumed_weaken; [eapply consumed_release; [apply short_error; exact H1|exact H2]|cbn; lia].
    + wpb release_wp. intros [] s2 H2. wpb Hb. intros [a1 e] s3 H3.
      assert (consumed k [x] a s (a1, e) s3) as H13.
      { destruct H3 as [A1 A2]. split; [exact A1|].
        pose proof (moves_quiet _ _ _ _ _ _ _ _ _ _ _ _ H1 H2 eq_refl eq_refl) as M.
        eapply moves_trans; [exact M|exact A2| |lia|lia|lia]. destruct e; cbn; lia. }
      destruct e as [e|].
      * wpb release_wp. intros [] s4 H4. apply wp_ret. eapply consumed_rest; eauto.
      * eapply wpE_mono; [apply IH|]. intros [a2 e] s4 H4. eapply consumed_cons; [exact H13|exact H4| |lia].
        destruct e; cbn; lia.
Qed.

(** ** Outcomes *)

(** A computation of results that keeps nothing. *)
Definition ends (k : Z) (m : E outcome) : Prop := forall s, wp m (fun r s' => moves k (snd r) 0 0 s s') s.

(** One that has no results when no step is left. *)
Definition gave (k : Z) (s : est) (r : outcome) (s' : est) : Prop :=
  moves k (snd r) 0 0 s s' /\ (remaining s <= 0 -> fst r = [] /\ fatal (snd r)).

Definition gives (k : Z) (m : E outcome) : Prop := forall s, wp m (gave k s) s.

Lemma moves_weaken k k' e n b s s' : moves k e n b s s' -> k <= k' -> moves k' e n b s s'.
Proof. intros [A B] ?. split; [eapply costs_weaken; eauto|exact B]. Qed.

(** When a step was left, any error may take the place of another. *)
Lemma moves_error k e e' n b s s' : 0 < remaining s -> moves k e n b s s' -> moves k e' n b s s'.
Proof.
  intros Hs [(A1 & A2 & A3 & _) B]. split; [|exact B].
  split; [exact A1|split; [exact A2|split; [exact A3|intros Hd; exfalso; lia]]].
Qed.

Lemma moves_none k e n b s s' : moves k None n b s s' -> moves k e n b s s'.
Proof.
  intros [(A1 & A2 & A3 & A4) B]. split; [|exact B]. split; [exact A1|split; [exact A2|split; [exact A3|]]].
  intros Hs. destruct (A4 Hs) as [?|[_ []]]. left. assumption.
Qed.

Lemma gives_ends k m : gives k m -> ends k m.
Proof. intros Hm s. eapply wpE_mono; [apply Hm|]. intros r s' [A _]. exact A. Qed.

Lemma ends_ret r : ends 0 (mret r).
Proof. intros s. apply wp_ret, quiet_moves, quiet_refl. Qed.

Lemma ends_weaken k k' m : ends k m -> k <= k' -> ends k' m.
Proof. intros Hm Hk s. eapply wpE_mono; [apply Hm|]. intros r s' A. exact (moves_weaken _ _ _ _ _ _ _ A Hk). Qed.

Lemma gives_weaken k k' m : gives k m -> k <= k' -> gives k' m.
Proof.
  intros Hm Hk s. eapply wpE_mono; [apply Hm|]. intros r s' [A B]. split; [exact (moves_weaken _ _ _ _ _ _ _ A Hk)|exact B].
Qed.

Lemma gives_tick k m :
  ends k m -> 1 <= k -> gives k (t ← tick; match t with Some e => mret ([], Some e) | None => m end).
Proof.
  intros Hm Hk s. wpb (tick_wp ctxErr cutoff Hcutoff). intros [e|] s1 [H1 H2].
  - apply wp_ret. split; [eapply moves_weaken; [exact H1|cbn; lia]|]. intros _. split; [reflexivity|exact H2].
  - eapply wpE_mono; [apply Hm|]. intros r s2 H3. split; [|lia].
    eapply moves_trans; [exact H1|exact H3| | | |]; cbn [failing]; try lia. destruct (snd r); cbn; lia.
Qed.

(** A loop over the results [vs] with the pending error [err]. *)
Lemma finish_gave k1 k2 k e1 a e s s1 s2 (vs : list value) :
  gave k1 s (vs, e1) s1 -> moves k2 e 0 0 s1 s2 -> (vs = [] -> a_values a = [] /\ e = None /\ s2 = s1) ->
  k1 + 1 <= k -> k2 <= k -> gave k s (finish a e e1) s2.
Proof.
  intros [[A1 A2] A3] [B1 B2] Hnil Hk1 Hk2. cbn [fst snd] in *. destruct (Z_lt_le_dec 0 (remaining s)) as [Hs|Hs].
  - split; [split|lia].
    + unfold finish; cbn [snd]. exact (costs_pending _ _ _ _ _ _ _ _ _ Hs A1 B1 Hk1 Hk2).
    + eapply stepsGrow_trans; [exact A2|exact B2|lia|lia].
  - destruct (A3 Hs) as [Hvs Hf]. destruct (Hnil Hvs) as (Ha & -> & ->). unfold finish, gave; cbn [fst snd].
    split; [|auto]. split; [eapply costs_weaken; [exact A1|lia]|exact A2].
Qed.

Lemma kept_false a : a_retained a = false -> keptNodes a = 0 /\ keptBytes a = 0.
Proof. unfold keptNodes, keptBytes. intros ->. auto. Qed.

Lemma mapResults_gives k1 k m body :
  gives k1 m -> (forall x a, shortly a (body x a)) -> k1 + 1 <= k -> 1 <= k -> gives k (mapResults m body).
Proof.
  intros Hm Hb Hk1 Hk s. unfold mapResults. wpb Hm. intros [vs err] s1 H1. apply wpE_bind.
  destruct vs as [|v vs].
  - apply wp_ret, wp_ret. eapply finish_gave; [exact H1|apply quiet_moves, quiet_refl|auto|exact Hk1|lia].
  - eapply wpE_mono; [apply forEach_short; exact Hb|]. intros [a e] s2 [Hr H2]. apply wp_ret.
    destruct (kept_false a Hr) as [Hn Hby]. rewrite Hn, Hby in H2. cbn [snd] in H2.
    eapply finish_gave; [exact H1|exact H2|discriminate|exact Hk1|destruct e; cbn; lia].
Qed.

Lemma retain_nil s : retain [] s = (None, s).
Proof. destruct s; reflexivity. Qed.

(** The results are there only when a step was left. *)
Lemma gave_cons k s v vs err s' : gave k s (v :: vs, err) s' -> 0 < remaining s.
Proof.
  intros [_ B]. destruct (Z_lt_le_dec 0 (remaining s)) as [Hs|Hs]; [exact Hs|]. destruct (B Hs) as [[=] _].
Qed.

Lemma gave_live k s r s' : 0 < remaining s -> moves k (snd r) 0 0 s s' -> gave k s r s'.
Proof. intros Hs M. split; [exact M|lia]. Qed.

Lemma consumeResults_gives k1 k2 k m body :
  gives k1 m -> 0 <= k2 -> (forall x a, turned k2 a (body x a)) -> k1 + 1 <= k -> k2 + 1 <= k ->
  gives k (consumeResults m body).
Proof.
  intros Hm Hk0 Hb Hk1 Hk2 s. unfold consumeResults. wpb Hm. intros [[|v vs] err] s1 H1.
  - unfold wp, mbind, E_bind. rewrite retain_nil. cbn [consume fst snd mret E_ret releaseAcc release newAcc a_retained a_values].
    unfold mret, E_ret. cbn [fst snd]. eapply finish_gave; [exact H1|apply quiet_moves, quiet_refl|auto|exact Hk1|lia].
  - pose proof (gave_cons _ _ _ _ _ _ H1) as Hs. destruct H1 as [H1 _]. cbn [snd] in H1. wpb retain_wp.
    intros [e|] s2 H2.
    + destruct H2 as [_ ->]. apply wp_ret, gave_live; [exact Hs|]. eapply moves_error; [exact Hs|].
      eapply moves_weaken; [exact H1|lia].
    + apply wpE_bind. eapply wpE_mono; [apply consume_wp; [exact Hk0|exact Hb]|]. intros [a e] s3 [Hr H3].
      wpb releaseAcc_wp. intros [] s4 H4. apply wp_ret, gave_live; [exact Hs|]. cbn [finish snd].
      pose proof (moves_quiet _ _ _ _ _ _ _ _ _ _ _ _ H1 H2 eq_refl eq_refl) as M1.
      pose proof (moves_quiet _ _ _ _ _ _ _ _ _ _ _ _ H3 H4 eq_refl eq_refl) as M2.
      destruct M1 as [C1 G1], M2 as [C2 G2]. split.
      * eapply costs_pending; [exact Hs|exact C1|exact C2|lia|lia].
      * eapply stepsGrow_trans; [exact G1|exact G2| |]; unfold keptNodes, keptBytes; cbn [newAcc a_retained a_values nodesIn bytesIn foldr]; lia.
Qed.

(** A batch of results and a loop over it, as a turn. *)
Lemma batch_turned k k' m (loop : list value -> acc -> E (acc * option jqErr)) a :
  gives k m -> (forall vs a, shortly a (loop vs a)) -> (forall a s, loop [] a s = ((a, None), s)) -> k + 1 <= k' -> 1 <= k' ->
  turned k' a ('(vs, err) ← m; '(a, e) ← loop vs a; mret (a, e, err)).
Proof.
  intros Hm Hl Hnil Hk Hk' s. wpb Hm. intros [[|v vs] err] s1 H1; apply wpE_bind.
  - unfold wp. rewrite Hnil. cbn [fst snd mret E_ret either]. unfold mret, E_ret. cbn [fst snd either].
    destruct H1 as [H1 _]. split; [reflexivity|]. rewrite !Z.sub_diag. eapply moves_weaken; [exact H1|lia].
  - pose proof (gave_cons _ _ _ _ _ _ H1) as Hs. destruct H1 as [[H1 G1] _].
    eapply wpE_mono; [apply Hl|]. intros [a' e] s2 [Hr [H2 G2]]. apply wp_ret. split; [exact Hr|]. cbn [fst snd] in *. split.
    + eapply costs_pending; [exact Hs|exact H1|exact H2|lia|]. destruct e; cbn; lia.
    + eapply stepsGrow_trans; [exact G1|exact G2|lia|lia].
Qed.

End Retain.
End JqRetain.
