(* ===== verification/JqAccounts.v ===== *)
(** * The accounts of a filter (builtins/jq/eval.go)

    The cases of the evaluator, on the lemmas about its loops: what every filter
    has retained it gives back, and every node of it makes at most one more poll
    of the context when no step is left. *)

From S2P Require Import Prelude GoStd Utf8 JqValue JqString JqParse JqEval JqRetain.
From stdpp Require Import base list strings sorting.
From Stdlib Require Import ZArith Lia Ascii SpecFloat QArith.
#[local] Open Scope Z_scope.

Module JqAccounts.
Import GoStd Utf8 JqValue JqLex JqParse JqEval JqLogic JqRetain.

(** ** The size of a filter *)

Definition nodeCount (n : node) : Z := Z.of_nat (length (walkNodes n)).

(** Sizes of a filter and of its parts. *)
Ltac count := unfold nodeCount; cbn [walkNodes length]; rewrite ?length_app; lia.

Definition optionCount (o : option node) : Z := match o with Some n => nodeCount n | None => 0 end.

Definition memberCount (m : objectMember) : Z := optionCount (dynamicKey m) + nodeCount (memberValue m).

Definition membersCount (ms : list objectMember) : Z := foldr (fun m n => memberCount m + n) 0 ms.

Lemma nodeCount_pos n : 1 <= nodeCount n.
Proof. unfold nodeCount. destruct n; cbn [walkNodes length]; lia. Qed.

Lemma optionCount_nonneg o : 0 <= optionCount o.
Proof. destruct o as [n|]; cbn; [pose proof (nodeCount_pos n)|]; lia. Qed.

Lemma membersCount_nonneg ms : 0 <= membersCount ms.
Proof.
  induction ms as [|m ms IH]; [reflexivity|]. change (0 <= memberCount m + membersCount ms). unfold memberCount.
  pose proof (optionCount_nonneg (dynamicKey m)). pose proof (nodeCount_pos (memberValue m)). lia.
Qed.

Lemma nodeCount_object ms : nodeCount (NObject ms) = 1 + membersCount ms.
Proof.
  unfold nodeCount. cbn [walkNodes length]. rewrite Nat2Z.inj_succ, <- Z.add_1_l. f_equal.
  induction ms as [|m ms IH]; [reflexivity|]. change (membersCount (m :: ms)) with (memberCount m + membersCount ms).
  rewrite <- IH. unfold memberCount, optionCount, nodeCount. rewrite !length_app. destruct (dynamicKey m); cbn [length]; lia.
Qed.

(** ** The accounts of the cases *)

Section Accounts.
Context `{FloatText} (ctxErr : nat -> bool) (cutoff : option nat) (Hcutoff : cancelledFrom ctxErr cutoff).

Abbreviation gives := (gives cutoff).
Abbreviation ends := (ends cutoff).
Abbreviation turns := (turns cutoff).
Abbreviation shortly := (shortly cutoff).

#[local] Hint Resolve shortly_ret shortly_add addAll_short tickAddOptional_short tickAdd_short : short.

Ltac shorten := intros; repeat match goal with
  | |- shortly _ (match ?x with _ => _ end) => destruct x
  | |- shortly _ (t ← tick _; match t with _ => _ end) => apply shortly_tick; [assumption|]
  end; auto with short.

Lemma evalField_gives k l name input optional :
  gives k (l input) -> 1 <= k -> gives (k + 1) (evalField ctxErr l name input optional).
Proof. intros Hl Hk. eapply mapResults_gives; [exact Hl|shorten|lia|lia]. Qed.

Lemma evalIterator_gives k l input optional :
  gives k (l input) -> 1 <= k -> gives (k + 1) (evalIterator ctxErr l input optional).
Proof. intros Hl Hk. eapply mapResults_gives; [exact Hl|shorten|lia|lia]. Qed.

Lemma evalIndex_gives kl kr l r input optional :
  gives kl (l input) -> gives kr (r input) -> 1 <= kl -> 1 <= kr ->
  gives (kl + kr + 1) (evalIndex ctxErr l r input optional).
Proof.
  intros Hl Hr ??. eapply (consumeResults_gives _ kr (kl + 1)); [exact Hr|lia| |lia|lia]. intros index a.
  apply (batch_turned _ kl) with (loop := fun bases => forEach (fun base => tickAddOptional ctxErr optional (indexValue base index)) bases);
    [exact Hl| |reflexivity|lia|lia].
  intros vs a'. apply forEach_short. shorten.
Qed.

Lemma addAll_turned k (f : value -> E outcome) x a : gives k (f x) -> 0 <= k -> turned cutoff (k + 1) a ('(rs, err) ← f x; '(a, e) ← addAll a rs; mret (a, e, err)).
Proof.
  intros Hf Hk. apply (batch_turned _ k) with (loop := fun rs a => addAll a rs); [exact Hf| |reflexivity|lia|lia]. shorten.
Qed.

Lemma evalPipe_gives kl kr l r input :
  gives kl (l input) -> (forall v, gives kr (r v)) -> 1 <= kl -> 1 <= kr -> gives (kl + kr + 1) (evalPipe l r input).
Proof.
  intros Hl Hr ??. eapply (consumeResults_gives _ kl (kr + 1)); [exact Hl|lia| |lia|lia]. intros item a.
  apply addAll_turned; [apply Hr|lia].
Qed.

Lemma evalLogic_gives kl kr short l r input :
  gives kl (l input) -> gives kr (r input) -> 1 <= kl -> 1 <= kr -> gives (kl + kr + 1) (evalLogic ctxErr short l r input).
Proof.
  intros Hl Hr ??. eapply (consumeResults_gives _ kl (kr + 1)); [exact Hl|lia| |lia|lia]. intros item a.
  destruct (Bool.eqb _ _).
  - intros s. wpb add_wp. intros [a' e] s' H'. apply wp_ret. eapply turn_weaken; [|instantiate (1 := failing e); destruct e; cbn; lia].
    destruct e; exact H'.
  - apply (batch_turned _ kr) with (loop := fun rs => forEach (fun r => tickAdd ctxErr (inr (JBool (truthy r)))) rs);
      [exact Hr| |reflexivity|lia|lia]. intros vs a'. apply forEach_short. shorten.
Qed.

Lemma applyBinaryBatch_short op ls r a : shortly a (applyBinaryBatch ctxErr op ls r a).
Proof.
  intros s. wpb retain_wp. intros [e|] s1 H1; [destruct H1 as [_ ->]; apply wp_ret, turn_same|].
  apply wpE_bind. eapply wpE_mono.
  { apply forEach_short. intros l a'. apply shortly_tick; [exact Hcutoff|].
    apply shortly_calm; [apply applyBinary_calm; exact Hcutoff|shorten|reflexivity]. }
  intros [a' e] s2 [Hr H2]. wpb release_wp. intros [] s3 H3. apply wp_ret. split; [exact Hr|]. cbn [snd] in *.
  eapply moves_trans; [apply (quiet_moves _ None), H1|eapply moves_quiet; [exact H2|exact H3|reflexivity|reflexivity]| | | |];
    destruct e; cbn; lia.
Qed.

Lemma evalOrdinaryBinary_gives kl kr op l r input :
  gives kl (l input) -> gives kr (r input) -> 1 <= kl -> 1 <= kr ->
  gives (kl + kr + 1) (evalOrdinaryBinary ctxErr op l r input).
Proof.
  intros Hl Hr ??. eapply (consumeResults_gives _ kr (kl + 1)); [exact Hr|lia| |lia|lia]. intros v a.
  apply (batch_turned _ kl) with (loop := fun ls => applyBinaryBatch ctxErr op ls v); [exact Hl| | |lia|lia].
  - intros vs a'. apply applyBinaryBatch_short.
  - intros a' [st po rn rb tr]. reflexivity.
Qed.

Lemma evalNegate_gives k c input : gives k (c input) -> 1 <= k -> gives (k + 1) (evalNegate c input).
Proof. intros Hc Hk. eapply mapResults_gives; [exact Hc|shorten|lia|lia]. Qed.

Lemma evalHas_gives k c input : gives k (c input) -> 1 <= k -> gives (k + 1) (evalHas c input).
Proof. intros Hc Hk. eapply mapResults_gives; [exact Hc|shorten|lia|lia]. Qed.

Lemma evalSelect_gives k c input : gives k (c input) -> 1 <= k -> gives (k + 1) (evalSelect c input).
Proof. intros Hc Hk. eapply mapResults_gives; [exact Hc|shorten|lia|lia]. Qed.

Lemma collect_wp vs s :
  wp (addAll (newAcc false) vs) (fun r s' => moves cutoff (failing (snd r)) (snd r) 0 0 s s') s.
Proof.
  eapply wpE_mono; [apply addAll_short|]. intros [a e] s' [Hr M]. destruct (kept_false a Hr) as [Hn Hb].
  rewrite Hn, Hb in M. exact M.
Qed.

Lemma evalComma_gives kl kr l r input :
  gives kl (l input) -> gives kr (r input) -> 1 <= kl -> 1 <= kr -> gives (kl + kr + 1) (evalComma l r input).
Proof.
  intros Hl Hr Hkl Hkr s. wpb Hl. intros [ls [e|]] s1 H1.
  { apply wp_ret. destruct H1 as [M D]. split; [eapply moves_weaken; [exact M|lia]|].
    intros Hs. destruct (D Hs) as [-> Hf]. split; [reflexivity|exact Hf]. }
  assert (0 < remaining cutoff s) as Hs.
  { destruct (Z_lt_le_dec 0 (remaining cutoff s)) as [Hs|Hs]; [exact Hs|]. destruct H1 as [_ D]. destruct (D Hs) as [_ []]. }
  destruct H1 as [H1 _]. wpb retain_wp. intros [e|] s2 H2.
  { destruct H2 as [_ ->]. apply wp_ret, gave_live; [exact Hs|]. eapply moves_error; [exact Hs|]. eapply moves_weaken; [exact H1|lia]. }
  wpb Hr. intros [rs err] s3 [H3 _]. wpb release_wp. intros [] s4 H4. wpb collect_wp. intros [a e] s5 H5.
  apply wp_ret, gave_live; [exact Hs|]. cbn [snd finish] in *.
  pose proof (moves_quiet _ _ _ _ _ _ _ _ _ _ _ _ H1 H2 eq_refl eq_refl) as M2.
  assert (moves cutoff (kl + kr) err (nodesIn ls) (bytesIn ls) s s3) as M3.
  { eapply moves_trans; [exact M2|exact H3| |lia|lia|lia]. destruct err; cbn; lia. }
  destruct (moves_quiet _ _ _ _ _ _ _ 0 0 _ _ _ M3 H4) as [C4 G4]; [lia|lia|]. destruct H5 as [C5 G5]. split.
  - eapply costs_pending; [exact Hs|exact C4|exact C5|lia|destruct e; cbn; lia].
  - eapply stepsGrow_trans; [exact G4|exact G5|lia|lia].
Qed.

Lemma evalAlternative_gives kl kr l r input :
  gives kl (l input) -> gives kr (r input) -> 1 <= kl -> 1 <= kr -> gives (kl + kr + 1) (evalAlternative l r input).
Proof.
  intros Hl Hr Hkl Hkr s. apply wpE_bind. eapply wpE_mono.
  { eapply (mapResults_gives _ kl (kl + 1)); [exact Hl|shorten|lia|lia]. }
  intros [vs err] s1 [H1 D]. destruct err as [e|]; [|destruct vs as [|v vs]].
  - apply wp_ret. split; [eapply moves_weaken; [exact H1|lia]|exact D].
  - eapply wpE_mono; [apply Hr|]. intros r2 s2 [H2 _].
    assert (0 < remaining cutoff s) as Hs.
    { destruct (Z_lt_le_dec 0 (remaining cutoff s)) as [Hs|Hs]; [exact Hs|]. destruct (D Hs) as [_ []]. }
    apply gave_live; [exact Hs|]. eapply moves_trans; [exact H1|exact H2| |lia|lia|lia].
    destruct (snd r2); cbn; lia.
  - apply wp_ret. split; [eapply moves_weaken; [exact H1|lia]|exact D].
Qed.

Lemma suppress_gives k m : gives k m -> 1 <= k -> gives (k + 1) (suppress m).
Proof.
  intros Hm Hk s. wpb Hm. intros [vs [e|]] s1 [H1 D]; [|apply wp_ret; split; [eapply moves_weaken; [exact H1|lia]|exact D]].
  destruct (runtimeErr e) eqn:He; [|apply wp_ret; split; [eapply moves_weaken; [exact H1|lia]|exact D]].
  assert (0 < remaining cutoff s) as Hs.
  { destruct (Z_lt_le_dec 0 (remaining cutoff s)) as [Hs|Hs]; [exact Hs|].
    destruct (D Hs) as [_ Hf]. cbn in Hf. congruence. }
  wpb collect_wp. intros [a e'] s2 H2. apply wp_ret, gave_live; [exact Hs|]. cbn [snd] in *.
  destruct H1 as [C1 G1], H2 as [C2 G2]. eapply (moves_error _ _ (either e' (Some e))); [exact Hs|]. split.
  - eapply costs_pending; [exact Hs|exact C1|exact C2|lia|destruct e'; cbn; lia].
  - eapply stepsGrow_trans; [exact G1|exact G2|lia|lia].
Qed.

(** *** map *)

Definition mapTurn (k : Z) (m : mapping) (s : est) (r : mapping * option jqErr) (s' : est) : Prop :=
  moves cutoff k (snd r) (m_retNodes (fst r) - m_retNodes m) (m_retBytes (fst r) - m_retBytes m) s s'.

Lemma mapTurn_trans k1 k2 k m m1 r s s1 s2 :
  mapTurn k1 m s (m1, None) s1 -> mapTurn k2 m1 s1 r s2 -> k1 + failing (snd r) <= k -> k2 <= k -> mapTurn k m s r s2.
Proof. intros A B ??. eapply moves_trans; [exact A|exact B|assumption|assumption| |]; cbn [fst]; lia. Qed.

Lemma mapTurn_quiet m m' e n b s s' :
  quiet n b s s' -> m_retNodes m' = m_retNodes m + n -> m_retBytes m' = m_retBytes m + b -> mapTurn 0 m s (m', e) s'.
Proof.
  intros Q Hn Hb. unfold mapTurn. cbn [fst snd]. rewrite Hn, Hb.
  replace (m_retNodes m + n - m_retNodes m) with n by lia. replace (m_retBytes m + b - m_retBytes m) with b by lia.
  apply quiet_moves, Q.
Qed.

Lemma mapTurn_weaken k k' m s r s' : mapTurn k m s r s' -> k <= k' -> mapTurn k' m s r s'.
Proof. intros A ?. eapply moves_weaken; eauto. Qed.

Lemma mapTurn_same m e s : mapTurn 0 m s (m, e) s.
Proof. eapply mapTurn_quiet; [apply quiet_refl|lia|lia]. Qed.

Lemma mapOutput_wp m o s : wp (mapOutput m o) (mapTurn 0 m s) s.
Proof.
  unfold mapOutput. destruct (addAggregate _ _ _ _ _) as [e|ns]; [apply wp_ret, mapTurn_same|].
  wpb retainSize_wp. intros [e|] s1 H1; apply wp_ret.
  - destruct H1 as [_ ->]. apply mapTurn_same.
  - eapply mapTurn_quiet; [exact H1|reflexivity|reflexivity].
Qed.

Lemma mapOutputs_wp outputs m s : wp (mapOutputs m outputs) (mapTurn 1 m s) s.
Proof.
  revert m s. induction outputs as [|o outputs IH]; intros m s; cbn [mapOutputs].
  - apply wp_ret. eapply mapTurn_weaken; [apply mapTurn_same|lia].
  - wpb mapOutput_wp. intros [m1 [e|]] s1 H1; [apply wp_ret; eapply mapTurn_weaken; [exact H1|lia]|].
    eapply wpE_mono; [apply IH|]. intros [m2 e] s2 H2. eapply mapTurn_trans; [exact H1|exact H2| |lia].
    destruct e; cbn; lia.
Qed.

Lemma mapItems_wp k f items m s : 1 <= k -> (forall v, gives k (f v)) -> wp (mapItems ctxErr f items m) (mapTurn (k + 1) m s) s.
Proof.
  intros Hk Hf. revert m s. induction items as [|item items IH]; intros m s; cbn [mapItems].
  { apply wp_ret. eapply mapTurn_weaken; [apply mapTurn_same|lia]. }
  assert (forall e s s', moves cutoff 1 e 0 0 s s' -> mapTurn 1 m s (m, e) s') as Hsame.
  { intros e t t' M. unfold mapTurn. cbn [fst snd]. rewrite !Z.sub_diag. exact M. }
  wpb (tick_wp ctxErr cutoff Hcutoff). intros [e|] s1 [H1 _].
  { apply wp_ret. eapply mapTurn_weaken; [apply Hsame; exact H1|lia]. }
  wpb Hf. intros [outputs err] s2 [H2 _]. cbn [snd] in H2.
  assert (moves cutoff k err 0 0 s s2) as M2.
  { eapply moves_trans; [exact H1|exact H2| |lia|lia|lia]. destruct err; cbn; lia. }
  assert (mapTurn k m s (m, err) s2) as T2 by (unfold mapTurn; cbn [fst snd]; rewrite !Z.sub_diag; exact M2).
  destruct err as [e|]; [apply wp_ret; eapply mapTurn_weaken; [exact T2|lia]|].
  wpb mapOutputs_wp. intros [m1 [e|]] s3 H3.
  - apply wp_ret. eapply mapTurn_trans; [exact T2|exact H3|cbn; lia|lia].
  - eapply wpE_mono; [apply IH|]. intros [m2 e] s4 H4. eapply (mapTurn_trans k); [|exact H4|destruct e; cbn; lia|lia].
    eapply mapTurn_trans; [exact T2|exact H3|cbn; lia|lia].
Qed.

Lemma evalMap_ends k f input : 1 <= k -> (forall v, gives k (f v)) -> ends (k + 1) (evalMap ctxErr f input).
Proof.
  intros Hk Hf s. unfold evalMap. assert (forall (r : outcome) s, moves cutoff (k + 1) (snd r) 0 0 s s) as Hsame.
  { intros r t. eapply moves_weaken; [apply quiet_moves, quiet_refl|lia]. }
  destruct (itemsOf input) as [items|]; [|apply wp_ret, (Hsame ([], Some _))].
  wpb retainSize_wp. intros [e|] s1 H1; [destruct H1 as [_ ->]; apply wp_ret, (Hsame ([], Some _))|].
  apply wpE_bind. eapply wpE_mono; [apply mapItems_wp; [exact Hk|exact Hf]|]. intros [m e] s2 H2.
  wpb releaseSize_wp. intros [] s3 H3. apply wp_ret. unfold mapTurn in H2. cbn [fst snd m_retNodes m_retBytes] in H2.
  assert (moves cutoff (k + 1) e 0 0 s s3) as M.
  { eapply moves_trans; [apply (quiet_moves _ None), H1|eapply moves_quiet; [exact H2|exact H3|reflexivity|reflexivity]| | | |];
      try lia. destruct e; cbn; lia. }
  destruct e as [e|]; [exact M|]. destruct (arrayValue _); cbn [snd]; [|exact M]. apply moves_none, M.
Qed.

(** *** Objects *)

Section Object.
Context (ev : node -> value -> E outcome) (input : value).

(** A computation, then what gives back what was retained before it. *)
Lemma retained_turns k n b a (cont : E (acc * option jqErr)) s s1 release :
  turns k a cont -> (forall s, wp release (fun (_ : unit) s' => quiet (- n) (- b) s s') s) -> quiet n b s s1 ->
  wp (r ← cont; release;; mret r) (turn cutoff k a s) s1.
Proof.
  intros Hc Hrel H1. wpb Hc. intros [a' e] s2 [Hr H2]. wpb Hrel. intros [] s3 H3. apply wp_ret. split; [exact Hr|].
  destruct (quiet_remaining cutoff _ _ _ _ H1) as [Hre Hu]. destruct H1 as (Hst & Hp & G1).
  destruct (moves_quiet _ _ _ _ _ _ _ _ _ _ _ _ H2 H3 eq_refl eq_refl) as [C2 G2].
  split; [|eapply stepsGrow_trans; [exact G1|exact G2|lia|lia]].
  unfold costs, stuck in *. rewrite <- Hre, <- Hu, <- Hp. exact C2.
Qed.

Lemma turns_ret k a e : 1 <= k -> turns k a (mret (a, e)).
Proof. intros Hk s. apply wp_ret. eapply turn_weaken; [apply turn_same|]. cbn. destruct e; cbn; lia. Qed.

Lemma processValue_turns k cont path ns key stored a :
  1 <= k -> (forall path ns a, turns k a (cont path ns a)) -> turns k a (processValue cont path ns key stored a).
Proof.
  intros Hk Hc. unfold processValue. destruct (getMember key path).
  - destruct (addAggregate _ _ _ _ _); [apply turns_ret, Hk|]. intros s. wpb retain_wp. intros [e|] s1 H1.
    + destruct H1 as [_ ->]. apply turns_ret, Hk.
    + eapply retained_turns; [apply Hc|intros; apply release_wp|exact H1].
  - destruct (addAggregate _ _ _ _ _); [apply turns_ret, Hk|]. intros s. wpb retainSize_wp. intros [e|] s1 H1.
    + destruct H1 as [_ ->]. apply turns_ret, Hk.
    + eapply retained_turns; [apply Hc|intros; apply releaseSize_wp|exact H1].
Qed.

(** The results of an evaluation, then a loop over them with its error last. *)
Lemma lastly_turn k1 k2 k a a' e err s s1 s2 :
  0 < remaining cutoff s -> moves cutoff k1 err 0 0 s s1 -> turn cutoff k2 a s1 (a', e) s2 -> k1 + 1 <= k -> k2 <= k ->
  turn cutoff k a s (lastly (a', e) err) s2.
Proof.
  intros Hs [C1 G1] [Hr [C2 G2]] ??. assert (turn cutoff k a s (a', either e err) s2) as T.
  { split; [exact Hr|]. split; [eapply costs_pending; eauto|eapply stepsGrow_trans; [exact G1|exact G2|lia|lia]]. }
  destruct e; exact T.
Qed.

(** Values retained, then a loop that gives them back. *)
Lemma consumed_turn k xs a r s s1 s2 :
  quiet (nodesIn xs) (bytesIn xs) s s1 -> consumed cutoff k xs a s1 r s2 -> turn cutoff k a s r s2.
Proof.
  destruct r as [a' e]. intros H1 [Hr [C2 G2]]. split; [exact Hr|].
  destruct (quiet_remaining cutoff _ _ _ _ H1) as [Hre Hu]. destruct H1 as (Hst & Hp & G1).
  split; [|eapply stepsGrow_trans; [exact G1|exact G2|lia|lia]].
  unfold costs, stuck in *. rewrite <- Hre, <- Hu, <- Hp. exact C2.
Qed.

Lemma turn_error k a e s s1 : moves cutoff k e 0 0 s s1 -> turn cutoff k a s (a, e) s1.
Proof. intros M. split; [reflexivity|]. rewrite !Z.sub_diag. exact M. Qed.

Lemma processKey_turns kv kp k process m remaining resolved a :
  gives kv (ev (memberValue m) input) -> 1 <= kp -> (forall key stored a, turns kp a (process key stored a)) ->
  kv + 1 <= k -> kp + 1 <= k -> turns k a (processKey ctxErr ev input process m remaining resolved a).
Proof.
  intros Hv Hkp Hp Hk1 Hk2 s. unfold processKey. wpb Hv. intros [[|v vs] err] s1 H1.
  { destruct H1 as [M _]. apply wp_ret, turn_error. eapply moves_weaken; [exact M|lia]. }
  pose proof (gave_cons _ _ _ _ _ _ _ H1) as Hs. destruct H1 as [M1 _]. cbn [snd] in M1.
  assert (forall e, turn cutoff k a s (a, e) s1) as Herr.
  { intros e. apply turn_error. eapply moves_error; [exact Hs|]. eapply moves_weaken; [exact M1|lia]. }
  destruct resolved as [e|key]; [apply wp_ret, Herr|]. destruct (existsb _ _).
  - apply wpE_bind. eapply wpE_mono.
    { apply (forEach_turn cutoff kp); [lia|]. intros x a'' t. wpb (tick_wp ctxErr cutoff Hcutoff). intros [e|] t1 [T1 _].
      - apply wp_ret, turn_error. eapply moves_weaken; [exact T1|cbn; lia].
      - eapply wpE_mono; [apply Hp|]. intros r t2 T2. eapply turn_trans; [apply turn_error, T1|exact T2| |lia].
        destruct (snd r); cbn; lia. }
    intros [a' e] s2 H2. apply wp_ret. eapply lastly_turn; [exact Hs|exact M1|exact H2|lia|lia].
  - wpb retain_wp. intros [e|] s2 H2; [destruct H2 as [_ ->]; apply wp_ret, Herr|].
    apply wpE_bind. eapply wpE_mono; [apply (consumeFirst_wp ctxErr cutoff Hcutoff kp); [lia|apply Hp]|].
    intros [a' e] s3 H3. apply wp_ret. eapply lastly_turn; [exact Hs|exact M1| |exact Hk1|exact Hk2].
    eapply consumed_turn; [exact H2|exact H3].
Qed.

Lemma evalObjectMembers_turns ms path remaining ns a :
  Forall (onMember (fun n => forall v, gives (nodeCount n) (ev n v))) ms ->
  turns (1 + membersCount ms) a (evalObjectMembers ctxErr ev input ms path remaining ns a).
Proof.
  intros Hms. revert path remaining ns a.
  induction Hms as [|m ms [Hk Hv] _ IH]; intros path remaining ns a; cbn [evalObjectMembers].
  { destruct (object path); [apply turns_ret; cbn; lia|]. intros s. eapply wpE_mono; [apply add_wp|].
    intros r s' T. eapply turn_weaken; [exact T|]. destruct (snd r); cbn; lia. }
  change (membersCount (m :: ms)) with (memberCount m + membersCount ms). unfold memberCount.
  pose proof (nodeCount_pos (memberValue m)) as Hpv. pose proof (membersCount_nonneg ms) as Hpm.
  assert (forall resolved a k r, nodeCount (memberValue m) + membersCount ms + 1 <= k -> turns k a
            (processKey ctxErr ev input (processValue (fun path => evalObjectMembers ctxErr ev input ms path r) path ns) m r resolved a)) as Hkey.
  { intros resolved a' k r Hle. eapply (processKey_turns _ (1 + membersCount ms)); [apply Hv|lia| |lia|lia].
    intros. apply processValue_turns; [lia|]. intros. apply IH. }
  destruct (dynamicKey m) as [kn|]; cbn [optionCount]; [|apply Hkey; lia].
  cbn [onOption] in Hk. pose proof (nodeCount_pos kn) as Hpk. intros s. wpb Hk. intros [[|kv kvs] err] s1 H1.
  - unfold wp, mbind, E_bind. rewrite retain_nil. cbn [consume]. unfold mret, E_ret. cbn [fst snd lastly].
    destruct H1 as [M _]. apply turn_error. eapply moves_weaken; [exact M|lia].
  - pose proof (gave_cons _ _ _ _ _ _ _ H1) as Hs. destruct H1 as [M1 _]. cbn [snd] in M1. wpb retain_wp. intros [e|] s2 H2.
    { destruct H2 as [_ ->]. apply wp_ret, turn_error. eapply moves_error; [exact Hs|]. eapply moves_weaken; [exact M1|lia]. }
    apply wpE_bind. eapply wpE_mono.
    { apply (consume_wp cutoff (nodeCount (memberValue m) + membersCount ms + 1)); [lia|]. intros x a' t. apply wpE_bind.
      eapply wpE_mono; [apply (Hkey _ _ (nodeCount (memberValue m) + membersCount ms + 1)); lia|]. intros [a2 e] t2 T. apply wp_ret. exact T. }
    intros [a' e] s3 H3. apply wp_ret. eapply lastly_turn; [exact Hs|exact M1|eapply consumed_turn; [exact H2|exact H3]|lia|lia].
Qed.
End Object.

(** ** Filters *)

Context (variables : bytes -> option value).

Abbreviation eval := (eval ctxErr variables).

Lemma evalObject_ends ev input ms :
  Forall (onMember (fun n => forall v, gives (nodeCount n) (ev n v))) ms ->
  ends (1 + membersCount ms) (evalObject ctxErr ev input ms).
Proof.
  intros Hms s. pose proof (membersCount_nonneg ms) as Hpm. wpb retainSize_wp. intros [e|] s1 H1.
  { destruct H1 as [_ ->]. apply wp_ret. eapply moves_weaken; [apply quiet_moves, quiet_refl|lia]. }
  apply wpE_bind. eapply wpE_mono; [apply evalObjectMembers_turns, Hms|]. intros [a e] s2 [Hr H2].
  wpb releaseSize_wp. intros [] s3 H3. wpb releaseAcc_wp. intros [] s4 H4. apply wp_ret. cbn [snd].
  pose proof (moves_quiet _ _ _ _ _ _ _ _ _ _ _ _ H2 H3 eq_refl eq_refl) as M3.
  pose proof (moves_quiet _ _ _ _ _ _ _ _ _ _ _ _ M3 H4 eq_refl eq_refl) as M4.
  eapply moves_trans; [apply (quiet_moves _ None), H1|exact M4| |lia| |]; [destruct e; cbn; lia| |];
    unfold keptNodes, keptBytes; cbn [newAcc a_retained a_values nodesIn bytesIn foldr]; lia.
Qed.

Lemma evalCall_ends name (child : option (value -> E outcome)) k input :
  (forall f v, child = Some f -> gives k (f v)) -> (child <> None -> 1 <= k) -> 0 <= k -> ends (k + 1) (evalCall ctxErr name child input).
Proof.
  intros Hc Hk Hk0. assert (forall r, ends (k + 1) (mret r)) as Hret.
  { intros r. eapply ends_weaken; [apply ends_ret|lia]. }
  unfold evalCall. do 5 (destruct (_ =s _)%go; [apply Hret|]). destruct child as [f|]; [|apply Hret].
  assert (1 <= k) as Hk1 by (apply Hk; discriminate).
  destruct (_ =s _)%go; [apply gives_ends, evalHas_gives; auto|].
  destruct (_ =s _)%go; [apply gives_ends, evalSelect_gives; auto|].
  destruct (_ =s _)%go; [apply evalMap_ends; auto|apply Hret].
Qed.

(** The lemma of a case, with its cost weakened to the size of the filter. *)
Ltac counted lem := eapply ends_weaken; [apply gives_ends, lem; auto using nodeCount_pos|count].

Lemma eval_optional c input :
  (forall v, gives (nodeCount c) (eval c v)) -> below (fun n => forall v, gives (nodeCount n) (eval n v)) c ->
  ends (nodeCount c + 1)
    match c with
    | NField l name => evalField ctxErr (eval l) name input true
    | NIndex l r => evalIndex ctxErr (eval l) (eval r) input true
    | NIterator l => evalIterator ctxErr (eval l) input true
    | _ => suppress (eval c input)
    end.
Proof.
  intros Hc Hb. destruct c; try solve [apply gives_ends, suppress_gives; [apply Hc|apply nodeCount_pos]];
    cbn [below] in Hb; try destruct Hb as [Hl Hr].
  - counted evalField_gives.
  - counted evalIndex_gives.
  - counted evalIterator_gives.
Qed.

Lemma eval_gives n : (forall v, gives (nodeCount n) (eval n v)) /\ below (fun n => forall v, gives (nodeCount n) (eval n v)) n.
Proof.
  induction n using node_ind; (split; [|cbn [below]; tauto]); intros input; cbn [JqEval.eval];
    (apply gives_tick; [exact Hcutoff| |apply nodeCount_pos]);
    try solve [eapply ends_weaken; [apply ends_ret|discriminate]];
    repeat match goal with IH : _ /\ below _ _ |- _ => destruct IH as [? ?] end.
  - counted evalField_gives.
  - counted evalIndex_gives.
  - counted evalIterator_gives.
  - eapply ends_weaken; [apply gives_ends; auto|count].
  - eapply ends_weaken; [apply eval_optional; auto|count].
  - counted evalPipe_gives.
  - counted evalComma_gives.
  - counted evalAlternative_gives.
  - destruct (_ =s _)%go; [|destruct (_ =s _)%go].
    + counted evalLogic_gives.
    + counted evalLogic_gives.
    + counted evalOrdinaryBinary_gives.
  - counted evalNegate_gives.
  - destruct c as [c|]; cbn [onOption] in *; [|eapply ends_weaken; [apply ends_ret|discriminate]].
    intros s. wpb (proj1 H0). intros [vs err] s1 [M _]. apply wp_ret. eapply (moves_weaken _ (nodeCount c)); [|count].
    unfold evalArray. destruct err; cbn [fst snd] in *; [exact M|]. unfold one. destruct (arrayValue vs); [|exact M].
    apply moves_none, M.
  - eapply ends_weaken; [apply evalObject_ends|rewrite nodeCount_object; lia].
    eapply Forall_impl; [eassumption|]. intros m [Hk Hv]. split; [|exact (proj1 Hv)].
    destruct (dynamicKey m); [exact (proj1 Hk)|exact I].
  - eapply ends_weaken; [apply (evalCall_ends _ _ (optionCount c))|].
    + intros f v. destruct c as [c|]; [|discriminate]. intros [= <-]. apply H0.
    + destruct c as [c|]; [intros _; apply nodeCount_pos|congruence].
    + apply optionCount_nonneg.
    + unfold optionCount. destruct c; count.
Qed.

End Accounts.
End JqAccounts.
