(* ===== verification/JqRefine.v ===== *)
(** * The jq evaluator implements the meaning of filters (builtins/jq/eval.go)

    An outcome of the evaluator is the reference outcome, or it ends with the
    error of a limit after the first of the reference results. *)

From S2P Require Import Prelude GoStd Utf8 JqValue JqString JqParse JqEval JqRetain.
From stdpp Require Import base list strings sorting.
From Stdlib Require Import ZArith Lia Ascii SpecFloat QArith.

(** * What jq filters mean (builtins/jq/eval.go)

    The results of a filter without the evaluator's accounts: no steps, no
    retained values, no bound on results.  The evaluator is a refinement of it:
    an outcome without an error of a limit is the reference outcome, and with
    such an error its results are the first of the reference results. *)

#[local] Open Scope Z_scope.

Module JqSem.
Import GoStd Utf8 JqValue JqLex JqParse JqEval JqLogic.

(** ** Generators *)

(** The results of [f] for one element after the other, up to an error. *)
Fixpoint each {X} (f : X -> outcome) (xs : list X) : outcome :=
  match xs with
  | [] => ([], None)
  | x :: xs =>
      match f x with
      | (vs, Some e) => (vs, Some e)
      | (vs, None) => let '(ws, e) := each f xs in (vs ++ ws, e)
      end
  end.

(** The same for the results of a generator; its error comes last. *)
Definition thenEach (r : outcome) (f : value -> outcome) : outcome :=
  let '(vs, e) := each f (fst r) in (vs, either e (snd r)).

Definition append (r r' : outcome) : outcome :=
  match r with
  | (vs, Some e) => (vs, Some e)
  | (vs, None) => (vs ++ fst r', snd r')
  end.

Definition failed (e : jqErr) : outcome := ([], Some e).
Definition yield (v : value) : outcome := ([v], None).

(** ** Operators *)

(** The order of values. *)
Fixpoint valueOrder (l r : value) {struct l} : comparison :=
  match l, r with
  | JNull, JNull => Eq
  | JBool a, JBool b => boolInt a ?= boolInt b
  | JNumber a, JNumber b => compareNumbers a b
  | JString a, JString b => Compare a b
  | JArray xs _ _ _, JArray ys _ _ _ =>
      (fix go (xs ys : list value) {struct xs} : comparison :=
         match xs, ys with
         | x :: xs, y :: ys => match valueOrder x y with Eq => go xs ys | c => c end
         | [], [] => Eq
         | [], _ :: _ => Lt
         | _ :: _, [] => Gt
         end) xs ys
  | JObject ms _ _ _, JObject ns _ _ _ =>
      let ks := sortKeys (map fst ms) in
      let ls := sortKeys (map fst ns) in
      match compareKeys ks ls with
      | Eq =>
          match (length ks ?= length ls)%nat with
          | Eq =>
              (fix go (ks ls : list bytes) : comparison :=
                 match ks, ls with
                 | k :: ks, l :: ls =>
                     match (match getMember k (map (fun kv => match kv with (k, v) => (k, valueOrder v) end) ms) with
                            | Some order => order
                            | None => fun _ => Eq
                            end) (default JNull (getMember l ns)) with
                     | Eq => go ks ls
                     | c => c
                     end
                 | _, _ => Eq
                 end) ks ls
          | c => c
          end
      | c => c
      end
  | _, _ => valueRank l ?= valueRank r
  end.

(** Equality as the subtraction of arrays decides it. *)
Fixpoint sameValue (l r : value) {struct l} : bool :=
  match l, r with
  | JNumber a, JNumber b => match compareNumbers a b with Eq => true | _ => false end
  | JNull, JNull => true
  | JBool a, JBool b => Bool.eqb a b
  | JString a, JString b => bytes_eqb a b
  | JArray xs _ _ _, JArray ys _ _ _ =>
      (length xs =? length ys)%nat &&
      (fix go (xs ys : list value) {struct xs} : bool :=
         match xs, ys with
         | x :: xs, y :: ys => sameValue x y && go xs ys
         | _, _ => true
         end) xs ys
  | JObject ms _ _ _, JObject ns _ _ _ =>
      (length ms =? length ns)%nat &&
      (fix go (ms : list (bytes * value)) {struct ms} : bool :=
         match ms with
         | (k, v) :: ms => match getMember k ns with Some w => sameValue v w && go ms | None => false end
         | [] => true
         end) ms
  | _, _ => false
  end.

Section Sem.
Context `{FloatText}.

(** [left * right] of objects. *)
Fixpoint merged (left : list (bytes * value)) (right : value) {struct right} : jqErr + value :=
  match right with
  | JObject rs _ _ _ =>
      match (fix go (rs : list (bytes * value)) {struct rs} : jqErr + list (bytes * value) :=
               match rs with
               | [] => inr []
               | (k, v) :: rs =>
                   match (match getMember k left, v with
                          | Some (JObject ls _ _ _), JObject _ _ _ _ => merged ls v
                          | _, _ => inr v
                          end) with
                   | inl e => inl e
                   | inr v => match go rs with inl e => inl e | inr items => inr ((k, v) :: items) end
                   end
               end) rs with
      | inl e => inl e
      | inr items => object (left ++ items)
      end
  | _ => inr right
  end.

Definition binary (op : tokenKind) (l r : value) : jqErr + value :=
  if isComparison op then inr (compared op (valueOrder l r))
  else
    match op with
    | tokenPlus => addValues l r
    | tokenMinus =>
        match l, r with
        | JArray xs _ _ _, JArray ys _ _ _ => arrayValue (List.filter (fun x => negb (existsb (sameValue x) ys)) xs)
        | _, _ => numericBinary op l r
        end
    | tokenMultiply =>
        match l, r with
        | JString s, JNumber n | JNumber n, JString s => repeatString s n
        | JObject ls _ _ _, JObject _ _ _ _ => merged ls r
        | _, _ => numericBinary op l r
        end
    | tokenDivide =>
        match l, r with
        | JString a, JString b => divideStrings a b
        | _, _ => numericBinary op l r
        end
    | tokenModulo => numericBinary op l r
    | _ => inl errUnsupportedOperator
    end.

(** A result, or nothing when the error may be skipped. *)
Definition attempt (optional : bool) (r : jqErr + value) : outcome :=
  match r with
  | inl e => if optional then ([], None) else failed e
  | inr v => yield v
  end.

(** ** Objects *)

(** The values [vs] under a key, and [rest] for every one of them; the key
    counts only when there is a value. *)
Definition keyed (vs : outcome) (key : jqErr + bytes) (rest : bytes -> value -> outcome) : outcome :=
  match fst vs, key with
  | [], _ => vs
  | _, inl e => failed e
  | _, inr k => thenEach vs (rest k)
  end.

Section Members.
Context (sm : node -> value -> outcome) (input : value).

(** The objects of the members, after the items of those before them: one for
    every combination of keys and values, the first member varying slowest. *)
Fixpoint objects (ms : list objectMember) (items : list (bytes * value)) : outcome :=
  match ms with
  | [] => one (object items)
  | m :: ms =>
      let member key := keyed (sm (memberValue m) input) key (fun k v => objects ms (items ++ [(k, v)])) in
      match dynamicKey m with
      | None => member (inr (literalKey m))
      | Some kn => thenEach (sm kn input) (fun kv => member (resolveKey kv))
      end
  end.
End Members.

(** ** Filters *)

Definition semField (l : outcome) (name : bytes) (optional : bool) : outcome :=
  thenEach l (fun base => attempt optional (fieldValue base name)).

Definition semIndex (l r : outcome) (optional : bool) : outcome :=
  thenEach r (fun index => thenEach l (fun base => attempt optional (indexValue base index))).

Definition semIterator (l : outcome) (optional : bool) : outcome :=
  thenEach l (fun base =>
    match itemsOf base with
    | Some items => (items, None)
    | None => if optional then ([], None) else failed (RuntimeError (CannotIterate (typeName base)))
    end).

Definition semAlternative (l r : outcome) : outcome :=
  let vs := List.filter truthy (fst l) in
  match snd l, vs with
  | None, [] => r
  | e, _ => (vs, e)
  end.

Definition semLogic (short : bool) (l r : outcome) : outcome :=
  thenEach l (fun x => if Bool.eqb (truthy x) short then yield (JBool short)
                       else thenEach r (fun y => yield (JBool (truthy y)))).

Definition collected (r : outcome) : outcome :=
  match r with
  | (_, Some e) => failed e
  | (vs, None) => one (arrayValue vs)
  end.

Definition semSuppress (r : outcome) : outcome :=
  match r with
  | (vs, Some e) => if runtimeErr e then (vs, None) else (vs, Some e)
  | _ => r
  end.

Definition semCall (name : bytes) (child : option (value -> outcome)) (input : value) : outcome :=
  if name =s "empty" then ([], None)
  else if name =s "not" then yield (JBool (negb (truthy input)))
  else if name =s "type" then yield (JString (typeName input))
  else if name =s "length" then one (lengthValue input)
  else if name =s "keys" then one (keysValue input)
  else
    match child with
    | Some f =>
        if name =s "has" then
          thenEach (f input) (fun key => one (match hasValue input key with inl e => inl e | inr b => inr (JBool b) end))
        else if name =s "select" then thenEach (f input) (fun p => if truthy p then yield input else ([], None))
        else if name =s "map" then
          match itemsOf input with
          | None => failed (RuntimeError (CannotIterate (typeName input)))
          | Some items => collected (each f items)
          end
        else failed (RuntimeError (UnknownFunction name))
    | None => failed (RuntimeError (UnknownFunction name))
    end.

Context (variables : bytes -> option value).

Fixpoint sem (n : node) (input : value) {struct n} : outcome :=
  match n with
  | NIdentity => yield input
  | NLiteral v => yield v
  | NVariable name =>
      match variables name with
      | Some v => yield v
      | None => failed (RuntimeError (UndefinedVariable name))
      end
  | NField l name => semField (sem l input) name false
  | NIndex l r => semIndex (sem l input) (sem r input) false
  | NIterator l => semIterator (sem l input) false
  | NGroup c => sem c input
  | NOptional c =>
      match c with
      | NField l name => semField (sem l input) name true
      | NIndex l r => semIndex (sem l input) (sem r input) true
      | NIterator l => semIterator (sem l input) true
      | _ => semSuppress (sem c input)
      end
  | NPipe l r => thenEach (sem l input) (sem r)
  | NComma l r => append (sem l input) (sem r input)
  | NAlternative l r => semAlternative (sem l input) (sem r input)
  | NBinary name op l r =>
      if name =s "and" then semLogic false (sem l input) (sem r input)
      else if name =s "or" then semLogic true (sem l input) (sem r input)
      else thenEach (sem r input) (fun y => thenEach (sem l input) (fun x => one (binary op x y)))
  | NNegate c => thenEach (sem c input) (fun v => one (negateNumber v))
  | NArray None => collected ([], None)
  | NArray (Some c) => collected (sem c input)
  | NObject ms => objects sem input ms []
  | NCall name c => semCall name (match c with Some c => Some (sem c) | None => None end) input
  end.
End Sem.
End JqSem.

#[local] Open Scope Z_scope.

Module JqRefine.
Import GoStd Utf8 JqValue JqLex JqParse JqEval JqLogic JqSem.

(** ** Outcomes and their references *)

(** The errors of the limits on an evaluation and on the size of values. *)
Definition limited (e : jqErr) : Prop :=
  match e with
  | errEvaluationLimit | errResultLimit | errRetentionLimit | errContext | errValueNodes | errValueBytes => True
  | _ => False
  end.

Definition cut (r t : outcome) : Prop := exists e, snd r = Some e /\ limited e /\ fst r `prefix_of` fst t.

Definition refines (r t : outcome) : Prop := r = t \/ cut r t.

Lemma refines_refl r : refines r r.
Proof. left; reflexivity. Qed.

Lemma refines_limit vs e t : limited e -> vs `prefix_of` fst t -> refines (vs, Some e) t.
Proof. intros He Hp. right. exists e. auto. Qed.

Lemma refines_failed e t : limited e -> refines ([], Some e) t.
Proof. intros He. apply refines_limit; [exact He|apply prefix_nil]. Qed.

(** Without an error the outcome is the reference. *)
Lemma refines_done vs t : refines (vs, None) t -> t = (vs, None).
Proof. intros [->|(e & [=] & _)]. reflexivity. Qed.

Lemma refines_prefix r t : refines r t -> fst r `prefix_of` fst t.
Proof. intros [->|(e & _ & _ & Hp)]; [reflexivity|exact Hp]. Qed.

Lemma refines_error vs e t : refines (vs, Some e) t -> t = (vs, Some e) \/ (limited e /\ vs `prefix_of` fst t).
Proof. intros [->|(e' & [= <-] & He & Hp)]; auto. Qed.

(** *** Generators *)

Lemma append_prefix t t' : fst t `prefix_of` fst (append t t').
Proof. destruct t as [vs [e|]]; cbn; [reflexivity|apply prefix_app_r; reflexivity]. Qed.

Lemma each_cons {X} (f : X -> outcome) x xs : each f (x :: xs) = append (f x) (each f xs).
Proof. cbn [each]. destruct (f x) as [vs [e|]]; [reflexivity|]. destruct (each f xs); reflexivity. Qed.

Lemma each_app {X} (f : X -> outcome) xs ys : each f (xs ++ ys) = append (each f xs) (each f ys).
Proof.
  induction xs as [|x xs IH]; [cbn; destruct (each f ys); reflexivity|]. cbn [app]. rewrite !each_cons, IH.
  destruct (f x) as [vs [e|]], (each f xs) as [ws [e'|]], (each f ys); cbn; rewrite ?app_assoc; reflexivity.
Qed.

Lemma refines_append_error vs e t t' : refines (vs, Some e) t -> refines (vs, Some e) (append t t').
Proof.
  intros [->|[He Hp]]%refines_error; [left; reflexivity|]. apply refines_limit; [exact He|].
  etrans; [exact Hp|apply append_prefix].
Qed.

Lemma refines_append vs r t t' :
  refines (vs, None) t -> refines r t' -> refines (vs ++ fst r, snd r) (append t t').
Proof.
  intros ->%refines_done [->|(e & He & Hl & Hp)]; [left; reflexivity|]. right. exists e. cbn.
  split; [exact He|split; [exact Hl|apply prefix_app, Hp]].
Qed.

(** A loop over the results of an outcome, whose error comes last. *)
Lemma refines_then r t (f : value -> outcome) vs e :
  refines r t -> refines (vs, e) (each f (fst r)) -> refines (vs, either e (snd r)) (thenEach t f).
Proof.
  intros Hr He. unfold thenEach. destruct (each f (fst t)) as [ws e'] eqn:Et. destruct Hr as [<-|(x & Hx & Hl & [rest Hp])].
  - rewrite Et in He. destruct e as [e|]; cbn [either].
    + destruct (refines_error _ _ _ He) as [[= -> ->]|[Hl Hp]]; [left; reflexivity|apply refines_limit; assumption].
    + apply refines_done in He as [= -> ->]. left; reflexivity.
  - rewrite Hp, each_app in Et. destruct e as [e|]; cbn [either].
    + apply (refines_append_error _ _ _ (each f rest)) in He. rewrite Et in He.
      destruct (refines_error _ _ _ He) as [[= -> ->]|[Hl' Hp']]; [left; reflexivity|apply refines_limit; assumption].
    + rewrite Hx. apply refines_limit; [exact Hl|]. apply refines_done in He. rewrite He in Et.
      injection Et as <- _. cbn. apply prefix_app_r. reflexivity.
Qed.

Lemma refines_each_same (f g : value -> outcome) xs : (forall x, f x = g x) -> each f xs = each g xs.
Proof. intros Hfg. induction xs as [|x xs IH]; [reflexivity|]. rewrite !each_cons, Hfg, IH. reflexivity. Qed.

(** ** Computations *)

Section Refine.
Context `{FloatText} (ctxErr : nat -> bool).

Abbreviation tick := (tick ctxErr).

(** Every value of the computation satisfies [P]. *)
Definition yields {A} (m : E A) (P : A -> Prop) : Prop := forall s, wp m (fun a _ => P a) s.

Lemma yields_ret {A} (a : A) (P : A -> Prop) : P a -> yields (mret a) P.
Proof. intros Ha s. exact Ha. Qed.

Lemma yields_bind {A B} (m : E A) (f : A -> E B) (P : A -> Prop) Q :
  yields m P -> (forall a, P a -> yields (f a) Q) -> yields (mbind f m) Q.
Proof. intros Hm Hf s. apply wpE_bind. eapply wpE_mono; [apply Hm|]. intros a s' Ha. apply Hf, Ha. Qed.

Lemma yields_mono {A} (m : E A) (P Q : A -> Prop) : yields m P -> (forall a, P a -> Q a) -> yields m Q.
Proof. intros Hm HPQ s. eapply wpE_mono; [apply Hm|]. intros a s' Ha. apply HPQ, Ha. Qed.

Lemma yields_any {A} (m : E A) : yields m (fun _ => True).
Proof. intros s. exact I. Qed.

Definition limitedOpt (e : option jqErr) : Prop := match e with Some e => limited e | None => True end.

Lemma yields_tick : yields tick limitedOpt.
Proof.
  intros s. unfold wp, JqEval.tick. destruct (ctxErr _); [exact I|]. destruct (_ <? _); exact I.
Qed.

Lemma yields_retain vs : yields (retain vs) limitedOpt.
Proof. intros s. unfold wp, retain. destruct (retainTotals _ _ _) as [[]|]; exact I. Qed.

Lemma yields_retainSize n b : yields (retainSize n b) limitedOpt.
Proof. intros s. unfold wp, retainSize. destruct (_ || _); exact I. Qed.

(** The computation gives the result, or the error of a limit. *)
Definition computes {A} (m : E (jqErr + A)) (t : jqErr + A) : Prop :=
  yields m (fun r => r = t \/ exists e, r = inl e /\ limited e).

Lemma computes_ret {A} (t : jqErr + A) : computes (mret t) t.
Proof. apply yields_ret. left; reflexivity. Qed.

Lemma computes_tick {A} (m : E (jqErr + A)) t :
  computes m t -> computes (t ← tick; match t with Some e => mret (inl e) | None => m end) t.
Proof.
  intros Hm. eapply yields_bind; [apply yields_tick|]. intros [e|] He; [|exact Hm].
  apply yields_ret. right. exists e. auto.
Qed.

Lemma computes_bind {A B} (m : E (jqErr + A)) (f : jqErr + A -> E (jqErr + B)) t u :
  computes m t -> computes (f t) u -> (forall e, f (inl e) = mret (inl e)) -> computes (mbind f m) u.
Proof.
  intros Hm Hf He. eapply yields_bind; [exact Hm|]. intros r [->|(e & -> & Hl)]; [exact Hf|].
  rewrite He. apply yields_ret. right. exists e. auto.
Qed.

Lemma computes_keys {X A} (ms : list (bytes * X)) (m : E (jqErr + A)) t :
  computes m t -> computes (e ← collectKeys ctxErr ms; match e with Some e => mret (inl e) | None => m end) t.
Proof.
  intros Hm. apply yields_bind with (P := limitedOpt).
  - induction ms as [|x ms IH]; cbn [collectKeys]; [apply yields_ret; exact I|].
    eapply yields_bind; [apply yields_tick|]. intros [e|] He; [apply yields_ret; exact He|exact IH].
  - intros [e|] He; [|exact Hm]. apply yields_ret. right. exists e. auto.
Qed.

(** *** Comparisons *)

Lemma compareValues_computes l r : computes (compareValues ctxErr l r) (inr (valueOrder l r)).
Proof.
  revert r. induction l as [| | | |items n s d IH|ms n s d IH] using value_ind; intros r; cbn [compareValues];
    apply computes_tick; try solve [destruct r; apply computes_ret].
  - destruct r as [| | | |ys ? ? ?|]; try apply computes_ret. cbn [valueOrder]. revert ys.
    induction IH as [|x xs Hx _ IHl]; intros [|y ys]; try apply computes_ret.
    eapply computes_bind; [apply Hx| |reflexivity].
    destruct (valueOrder x y); [apply IHl|apply computes_ret..].
  - destruct r as [| | | | |ns ? ? ?]; try apply computes_ret. cbn [valueOrder]. apply computes_keys, computes_keys.
    destruct (compareKeys _ _); try apply computes_ret. destruct (_ ?= _)%nat; try apply computes_ret.
    generalize (sortKeys (map fst ns)) as ls. generalize (sortKeys (map fst ms)) as ks.
    induction ks as [|k ks IHk]; intros [|l ls]; try apply computes_ret. cbn [compareMembers].
    match goal with |- computes _ (inr (match ?c with Eq => _ | Lt => _ | Gt => _ end)) =>
      apply (computes_bind _ _ (inr c)); [|destruct c; [apply IHk|apply computes_ret..]|reflexivity] end.
    clear -IH. induction IH as [|[k' v] ms Hv _ IHm]; cbn [map getMember]; [apply computes_ret|].
    destruct (bytes_eqb k' k); [apply Hv|exact IHm].
Qed.

Lemma valuesEqual_computes l r : computes (valuesEqual ctxErr l r) (inr (sameValue l r)).
Proof.
  revert r. induction l as [| | | |items n s d IH|ms n s d IH] using value_ind; intros r; cbn [valuesEqual];
    apply computes_tick; try solve [destruct r; apply computes_ret].
  - destruct r as [| | | |ys ? ? ?|]; try apply computes_ret. cbn [sameValue].
    destruct (_ =? _)%nat; cbn [negb andb]; [|apply computes_ret]. revert ys.
    induction IH as [|x xs Hx _ IHl]; intros [|y ys]; try apply computes_ret.
    eapply computes_bind; [apply Hx| |reflexivity]. destruct (sameValue x y); [apply IHl|apply computes_ret].
  - destruct r as [| | | | |ns ? ? ?]; try apply computes_ret. cbn [sameValue].
    destruct (_ =? _)%nat; cbn [negb andb]; [|apply computes_ret].
    induction IH as [|[k v] ms Hv _ IHl]; [apply computes_ret|]. destruct (getMember k ns); [|apply computes_ret].
    eapply computes_bind; [apply Hv| |reflexivity]. cbn [snd]. destruct (sameValue v _); [apply IHl|apply computes_ret].
Qed.

(** *** Operators *)

Lemma excluded_computes x ys : computes (excluded ctxErr x ys) (inr (existsb (sameValue x) ys)).
Proof.
  induction ys as [|y ys IH]; [apply computes_ret|]. cbn [excluded existsb]. apply computes_tick.
  eapply computes_bind; [apply valuesEqual_computes| |reflexivity].
  destruct (sameValue x y); [apply computes_ret|exact IH].
Qed.

Lemma subtractArrays_computes xs ys :
  computes (subtractArrays ctxErr xs ys) (arrayValue (List.filter (fun x => negb (existsb (sameValue x) ys)) xs)).
Proof.
  assert (forall items, computes (subtractLoop ctxErr xs ys items)
            (inr (items ++ List.filter (fun x => negb (existsb (sameValue x) ys)) xs))) as Hloop.
  { induction xs as [|x xs IH]; intros items; cbn [subtractLoop List.filter]; [rewrite app_nil_r; apply computes_ret|].
    eapply computes_bind; [apply excluded_computes| |reflexivity]. cbv beta iota.
    destruct (existsb _ _); cbn [negb]; [apply IH|]. specialize (IH (items ++ [x])). rewrite <- app_assoc in IH. exact IH. }
  eapply computes_bind; [apply Hloop|apply computes_ret|reflexivity].
Qed.

Lemma mergeObjectsRecursive_computes ls r : computes (mergeObjectsRecursive ctxErr ls r) (merged ls r).
Proof.
  revert ls. induction r as [| | | | |rs n s d IH] using value_ind; intros ls; try apply computes_ret.
  cbn [mergeObjectsRecursive merged].
  match goal with |- computes (mbind _ (?go1 rs ls)) (match ?go2 rs with inl _ => _ | inr _ => _ end) =>
    assert (forall items, computes (go1 rs items) (match go2 rs with inl e => inl e | inr l => inr (items ++ l) end)) as Hgo
  end.
  { induction IH as [|[k v] rs Hv _ IHl]; intros items; [rewrite app_nil_r; apply computes_ret|]. apply computes_tick.
    eapply computes_bind; [| |reflexivity].
    - instantiate (1 := match getMember k ls with
                        | Some (JObject ls _ _ _) => match v with JObject _ _ _ _ => merged ls v | _ => inr v end
                        | _ => inr v
                        end).
      destruct (getMember k ls) as [[]|]; try apply computes_ret. destruct v; try apply computes_ret. apply Hv.
    - destruct (match getMember k ls with Some _ => _ | None => _ end) as [e|v']; [apply computes_ret|].
      specialize (IHl (items ++ [(k, v')])).
      match goal with |- computes _ (match match ?go rs with inl _ => _ | inr _ => _ end with inl _ => _ | inr _ => _ end) =>
        destruct (go rs) as [e|l] end; [exact IHl|]. rewrite <- app_assoc in IHl. exact IHl. }
  eapply computes_bind; [apply Hgo| |reflexivity].
  match goal with |- context [match ?go rs with inl _ => _ | inr _ => _ end] => destruct (go rs) end; apply computes_ret.
Qed.

Lemma applyBinary_computes op l r : computes (applyBinary ctxErr op l r) (binary op l r).
Proof.
  unfold applyBinary, binary. destruct (isComparison op).
  - eapply computes_bind; [apply compareValues_computes|apply computes_ret|reflexivity].
  - destruct op; try apply computes_ret; destruct l; try apply computes_ret; destruct r; try apply computes_ret;
      auto using subtractArrays_computes, mergeObjectsRecursive_computes.
Qed.

(** ** Loops *)

(** The accumulator grows by an outcome that refines [t]. *)
Definition grew (a : acc) (r : acc * option jqErr) (t : outcome) : Prop :=
  exists vs, a_values (fst r) = a_values a ++ vs /\ refines (vs, snd r) t.

Definition adds (a : acc) (m : E (acc * option jqErr)) (t : outcome) : Prop := yields m (fun r => grew a r t).

Lemma adds_ret a e t : refines ([], e) t -> adds a (mret (a, e)) t.
Proof. intros Hr. apply yields_ret. exists []. cbn. rewrite app_nil_r. auto. Qed.

Lemma adds_add a v : adds a (add a v) (yield v).
Proof.
  unfold add. destruct (_ || _); [apply adds_ret, refines_failed; exact I|].
  apply yields_bind with (P := limitedOpt); [destruct (a_retained a); [apply yields_retain|apply yields_ret; exact I]|].
  intros [e|] He; [apply adds_ret, refines_failed, He|]. apply yields_ret. exists [v]. split; [reflexivity|left; reflexivity].
Qed.

Lemma grew_error a a' e t t' : grew a (a', Some e) t -> grew a (a', Some e) (append t t').
Proof. intros (vs & Hv & Hr). exists vs. split; [exact Hv|apply refines_append_error, Hr]. Qed.

Lemma grew_trans a a1 r t t' : grew a (a1, None) t -> grew a1 r t' -> grew a r (append t t').
Proof.
  intros (vs & Hv & Hr) (ws & Hw & Hr'). exists (vs ++ ws). cbn in Hv. split; [rewrite Hw, Hv, app_assoc; reflexivity|].
  exact (refines_append _ _ _ _ Hr Hr').
Qed.

Lemma adds_tick a m t : adds a m t -> adds a (t ← tick; match t with Some e => mret (a, Some e) | None => m end) t.
Proof.
  intros Hm. eapply yields_bind; [apply yields_tick|]. intros [e|] He; [apply adds_ret, refines_failed, He|exact Hm].
Qed.

(** A loop whose turns correspond to the elements of another list. *)
Lemma forEach_adds {X Y} (body : X -> acc -> E (acc * option jqErr)) (f : Y -> outcome) xs ys a :
  Forall2 (fun x y => forall a, adds a (body x a) (f y)) xs ys -> adds a (forEach body xs a) (each f ys).
Proof.
  intros Hall. revert a. induction Hall as [|x y xs ys Hxy _ IH]; intros a; [apply adds_ret, refines_refl|].
  rewrite each_cons. cbn [forEach]. eapply yields_bind; [apply Hxy|]. intros [a1 [e|]] H1.
  - apply yields_ret, grew_error, H1.
  - eapply yields_mono; [apply IH|]. intros r H2. eapply grew_trans; eauto.
Qed.

Lemma forEach_adds_same {X} (body : X -> acc -> E (acc * option jqErr)) f xs a :
  (forall x a, adds a (body x a) (f x)) -> adds a (forEach body xs a) (each f xs).
Proof. intros Hb. apply forEach_adds. induction xs; constructor; auto. Qed.

Lemma each_yield vs : each yield vs = (vs, None).
Proof. induction vs as [|v vs IH]; [reflexivity|]. rewrite each_cons, IH. reflexivity. Qed.

Lemma addAll_adds vs a : adds a (addAll a vs) (vs, None).
Proof. rewrite <- each_yield. apply forEach_adds_same. intros v a'. apply adds_add. Qed.

Lemma yields_skip {A B} (m : E A) (k : E B) P : yields k P -> yields (m;; k) P.
Proof. intros Hk. eapply yields_bind; [apply yields_any|]. intros _ _. exact Hk. Qed.

(** A turn whose error comes before the release or after it. *)
Definition addsLate (a : acc) (m : E (acc * option jqErr * option jqErr)) (t : outcome) : Prop :=
  yields m (fun r => grew a (fst (fst r), either (snd (fst r)) (snd r)) t).

Lemma consume_adds body f xs a :
  (forall x a, x ∈ xs -> addsLate a (body x a) (f x)) -> adds a (consume body xs a) (each f xs).
Proof.
  revert a. induction xs as [|x xs IH]; intros a Hb; [apply adds_ret, refines_refl|].
  rewrite each_cons. cbn [consume]. eapply yields_bind; [apply Hb; left|]. intros [[a1 [e|]] late] H1; cbn [fst snd either] in H1.
  - apply yields_skip, yields_ret, grew_error, H1.
  - apply yields_skip. destruct late as [e|]; [apply yields_skip, yields_ret, grew_error, H1|].
    eapply yields_mono; [apply IH; intros; apply Hb; right; assumption|]. intros r H2. eapply grew_trans; eauto.
Qed.

Lemma consumeFirst_adds body f xs a :
  (forall x a, adds a (body x a) (f x)) -> adds a (consumeFirst ctxErr body xs a) (each f xs).
Proof.
  intros Hb. revert a. induction xs as [|x xs IH]; intros a; [apply adds_ret, refines_refl|].
  rewrite each_cons. cbn [consumeFirst]. eapply yields_bind; [apply yields_tick|]. intros [e|] He.
  { apply yields_skip, adds_ret, refines_failed, He. }
  apply yields_skip. eapply yields_bind; [apply Hb|]. intros [a1 [e|]] H1.
  - apply yields_skip, yields_ret, grew_error, H1.
  - eapply yields_mono; [apply IH|]. intros r H2. eapply grew_trans; eauto.
Qed.

(** ** Outcomes *)

Definition implements (m : E outcome) (t : outcome) : Prop := yields m (fun r => refines r t).

Lemma implements_ret r : implements (mret r) r.
Proof. apply yields_ret, refines_refl. Qed.

Lemma implements_failed e t : limited e -> implements (mret ([], Some e)) t.
Proof. intros He. apply yields_ret, refines_failed, He. Qed.

Lemma implements_tick m t :
  implements m t -> implements (t ← tick; match t with Some e => mret ([], Some e) | None => m end) t.
Proof. intros Hm. eapply yields_bind; [apply yields_tick|]. intros [e|] He; [apply implements_failed, He|exact Hm]. Qed.

(** The results of a new accumulator. *)
Lemma grew_new retained a e t : grew (newAcc retained) (a, e) t -> refines (a_values a, e) t.
Proof. intros (vs & Hv & Hr). cbn in Hv. rewrite Hv. exact Hr. Qed.

Lemma mapResults_implements m t body f :
  implements m t -> (forall x a, adds a (body x a) (f x)) -> implements (mapResults m body) (thenEach t f).
Proof.
  intros Hm Hb. eapply yields_bind; [exact Hm|]. intros [vs err] Hr.
  eapply yields_bind; [apply forEach_adds_same, Hb|]. intros [a e] Ha. apply yields_ret.
  apply (refines_then (vs, err)); [exact Hr|exact (grew_new _ _ _ _ Ha)].
Qed.

Lemma consumeResults_implements m t body f :
  implements m t -> (forall x a, addsLate a (body x a) (f x)) -> implements (consumeResults m body) (thenEach t f).
Proof.
  intros Hm Hb. eapply yields_bind; [exact Hm|]. intros [vs err] Hr.
  eapply yields_bind; [apply yields_retain|]. intros [e|] He; [apply implements_failed, He|].
  eapply yields_bind; [apply consume_adds; intros; apply Hb|]. intros [a e] Ha. apply yields_skip, yields_ret.
  apply (refines_then (vs, err)); [exact Hr|exact (grew_new _ _ _ _ Ha)].
Qed.

(** A batch of results and a loop over it. *)
Lemma batch_adds m t (loop : list value -> acc -> E (acc * option jqErr)) f a :
  implements m t -> (forall vs a, adds a (loop vs a) (each f vs)) ->
  addsLate a ('(vs, err) ← m; '(a, e) ← loop vs a; mret (a, e, err)) (thenEach t f).
Proof.
  intros Hm Hl. eapply yields_bind; [exact Hm|]. intros [vs err] Hr.
  eapply yields_bind; [apply Hl|]. intros [a' e] (ws & Hw & Hws). apply yields_ret. exists ws. split; [exact Hw|].
  apply (refines_then (vs, err)); assumption.
Qed.

Lemma attempt_adds optional r a : adds a (tickAddOptional ctxErr optional r a) (attempt optional r).
Proof.
  apply adds_tick. destruct r as [e|v]; [|apply adds_add]. cbn. destruct optional; apply adds_ret, refines_refl.
Qed.

Lemma evalField_implements l t name input optional :
  implements (l input) t -> implements (evalField ctxErr l name input optional) (semField t name optional).
Proof. intros Hl. apply mapResults_implements; [exact Hl|]. intros. apply attempt_adds. Qed.

Lemma evalIndex_implements l r tl tr input optional :
  implements (l input) tl -> implements (r input) tr -> implements (evalIndex ctxErr l r input optional) (semIndex tl tr optional).
Proof.
  intros Hl Hr. apply consumeResults_implements; [exact Hr|]. intros index a.
  apply batch_adds with (loop := fun bases => forEach (fun base => tickAddOptional ctxErr optional (indexValue base index)) bases); [exact Hl|].
  intros vs a'. apply forEach_adds_same. intros. apply attempt_adds.
Qed.

Lemma evalIterator_implements l t input optional :
  implements (l input) t -> implements (evalIterator ctxErr l input optional) (semIterator t optional).
Proof.
  intros Hl. apply mapResults_implements; [exact Hl|]. intros x a. apply adds_tick.
  destruct x; cbn [itemsOf]; try apply addAll_adds; destruct optional; apply adds_ret, refines_refl.
Qed.

Lemma thenEach_yield t : thenEach t yield = t.
Proof. unfold thenEach. rewrite each_yield. destruct t; reflexivity. Qed.

Lemma evalPipe_implements l r tl tr input :
  implements (l input) tl -> (forall v, implements (r v) (tr v)) -> implements (evalPipe l r input) (thenEach tl tr).
Proof.
  intros Hl Hr. apply consumeResults_implements; [exact Hl|]. intros item a. rewrite <- (thenEach_yield (tr item)).
  apply batch_adds with (loop := fun rs a => addAll a rs); [apply Hr|].
  intros vs a'. apply forEach_adds_same. intros. apply adds_add.
Qed.

Lemma evalComma_implements l r tl tr input :
  implements (l input) tl -> implements (r input) tr -> implements (evalComma l r input) (append tl tr).
Proof.
  intros Hl Hr. eapply yields_bind; [exact Hl|]. intros [ls [e|]] H1.
  { apply yields_ret, refines_append_error, H1. }
  eapply yields_bind; [apply yields_retain|]. intros [e|] He.
  { apply yields_ret, refines_limit; [exact He|]. apply refines_done in H1 as ->. apply (append_prefix (ls, None)). }
  eapply yields_bind; [exact Hr|]. intros [rs err] H2. apply yields_skip.
  eapply yields_bind; [apply addAll_adds|]. intros [a e] Ha%grew_new. apply yields_ret.
  pose proof (refines_append _ _ _ _ H1 H2) as H12. cbn [fst snd] in H12.
  pose proof (refines_then (ls ++ rs, err) _ yield (a_values a) e H12) as Ht. cbn [fst snd] in Ht.
  rewrite thenEach_yield, each_yield in Ht. exact (Ht Ha).
Qed.

Lemma each_filter vs : each (fun v => if truthy v then yield v else ([], None)) vs = (List.filter truthy vs, None).
Proof. induction vs as [|v vs IH]; [reflexivity|]. rewrite each_cons, IH. cbn. destruct (truthy v); reflexivity. Qed.

Lemma evalAlternative_implements l r tl tr input :
  implements (l input) tl -> implements (r input) tr -> implements (evalAlternative l r input) (semAlternative tl tr).
Proof.
  intros Hl Hr. unfold semAlternative. set (vs := List.filter truthy (fst tl)).
  assert (thenEach tl (fun v => if truthy v then yield v else ([], None)) = (vs, snd tl)) as Ht.
  { unfold thenEach. rewrite each_filter. reflexivity. }
  eapply yields_bind.
  { apply mapResults_implements with (f := fun v => if truthy v then yield v else ([], None)); [exact Hl|].
    intros x a. destruct (truthy x); [apply adds_add|apply adds_ret, refines_refl]. }
  rewrite Ht. intros [ws [e|]] H1.
  - apply yields_ret. destruct (refines_error _ _ _ H1) as [[= Hvs Hsnd]|[He Hp]].
    + rewrite Hsnd, Hvs. apply refines_refl.
    + destruct ws as [|w ws]; [apply refines_failed, He|]. apply refines_limit; [exact He|].
      destruct Hp as [rest Hp]. cbn [fst] in Hp. rewrite Hp. destruct (snd tl); exists rest; reflexivity.
  - apply refines_done in H1. injection H1 as -> ->. destruct ws; [exact Hr|apply implements_ret].
Qed.

Lemma evalLogic_implements short l r tl tr input :
  implements (l input) tl -> implements (r input) tr -> implements (evalLogic ctxErr short l r input) (semLogic short tl tr).
Proof.
  intros Hl Hr. apply consumeResults_implements; [exact Hl|]. intros x a. destruct (Bool.eqb _ _).
  - eapply yields_bind; [apply adds_add|]. intros [a' e] Ha. apply yields_ret. cbn [fst snd]. destruct e; exact Ha.
  - apply batch_adds with (loop := fun rs => forEach (fun r => tickAdd ctxErr (inr (JBool (truthy r)))) rs); [exact Hr|].
    intros vs a'. apply forEach_adds_same. intros. apply adds_tick, adds_add.
Qed.

Lemma evalOrdinaryBinary_implements op l r tl tr input :
  implements (l input) tl -> implements (r input) tr ->
  implements (evalOrdinaryBinary ctxErr op l r input) (thenEach tr (fun y => thenEach tl (fun x => one (binary op x y)))).
Proof.
  intros Hl Hr. apply consumeResults_implements; [exact Hr|]. intros y a.
  apply batch_adds with (loop := fun ls => applyBinaryBatch ctxErr op ls y); [exact Hl|]. intros vs a'.
  eapply yields_bind; [apply yields_retain|]. intros [e|] He; [apply adds_ret, refines_failed, He|].
  eapply yields_bind; [|intros r0 Hr0; apply yields_skip, yields_ret, Hr0].
  apply forEach_adds_same. intros x a''. apply adds_tick.
  eapply yields_bind; [apply applyBinary_computes|]. intros v [->|(e & -> & Hl')]; [|apply adds_ret, refines_failed, Hl'].
  destruct (binary op x y); [apply adds_ret, refines_refl|apply adds_add].
Qed.

Lemma one_adds r a : adds a (match r with inl e => mret (a, Some e) | inr v => add a v end) (one r).
Proof. destruct r; [apply adds_ret, refines_refl|apply adds_add]. Qed.

Lemma evalNegate_implements c t input :
  implements (c input) t -> implements (evalNegate c input) (thenEach t (fun v => one (negateNumber v))).
Proof. intros Hc. apply mapResults_implements; [exact Hc|]. intros. apply one_adds. Qed.

Lemma collected_refines r t : refines r t -> refines (evalArray r) (collected t).
Proof.
  intros [->|(e & He & Hl & _)]; [destruct t as [vs [e|]]; apply refines_refl|].
  unfold evalArray. rewrite He. apply refines_failed, Hl.
Qed.

Lemma suppress_implements m t : implements m t -> implements (suppress m) (semSuppress t).
Proof.
  intros Hm. eapply yields_bind; [exact Hm|]. intros [vs [e|]] Hr.
  - destruct (refines_error _ _ _ Hr) as [->|[He Hp]]; cbn [semSuppress].
    + destruct (runtimeErr e); [|apply implements_ret]. eapply yields_bind; [apply addAll_adds|].
      intros [a e'] Ha%grew_new. apply yields_ret, Ha.
    + replace (runtimeErr e) with false by (destruct e; try reflexivity; destruct He).
      apply yields_ret, refines_limit; [exact He|]. destruct t as [ws [e'|]]; cbn [semSuppress]; [|exact Hp].
      destruct (runtimeErr e'); exact Hp.
  - apply refines_done in Hr as ->. apply implements_ret.
Qed.

(** *** map *)

Lemma mapOutput_yields m o :
  yields (mapOutput m o) (fun r => limitedOpt (snd r) /\ (snd r = None -> mapped (fst r) = mapped m ++ [o])).
Proof.
  unfold mapOutput. destruct (addAggregate _ _ _ _ _) as [e|ns] eqn:Ea.
  - apply yields_ret. split; [|discriminate]. unfold addAggregate in Ea. destruct (m_size m).
    destruct (_ <? _); [injection Ea as <-; exact I|]. destruct (_ || _); [injection Ea as <-; exact I|discriminate].
  - eapply yields_bind; [apply yields_retainSize|]. intros [e|] He; apply yields_ret; (split; [exact He|easy]).
Qed.

Lemma mapOutputs_yields m outputs :
  yields (mapOutputs m outputs) (fun r => limitedOpt (snd r) /\ (snd r = None -> mapped (fst r) = mapped m ++ outputs)).
Proof.
  revert m. induction outputs as [|o outputs IH]; intros m; cbn [mapOutputs].
  - apply yields_ret. split; [exact I|]. rewrite app_nil_r. reflexivity.
  - eapply yields_bind; [apply mapOutput_yields|]. intros [m1 [e|]] [He Hm]; [apply yields_ret; split; [exact He|discriminate]|].
    eapply yields_mono; [apply IH|]. intros r [Hr Hr']. split; [exact Hr|]. intros Hn. cbn in Hm.
    rewrite (Hr' Hn), (Hm eq_refl), <- app_assoc. reflexivity.
Qed.

(** The items so far and the outcome of the rest. *)
Definition mapsTo (m : mapping) (r : mapping * option jqErr) (t : outcome) : Prop :=
  match snd r with
  | Some e => limited e \/ snd t = Some e
  | None => exists vs, t = (vs, None) /\ mapped (fst r) = mapped m ++ vs
  end.

Lemma mapItems_yields f g items m :
  (forall v, implements (f v) (g v)) -> yields (mapItems ctxErr f items m) (fun r => mapsTo m r (each g items)).
Proof.
  intros Hf. revert m. induction items as [|item items IH]; intros m.
  { apply yields_ret. exists []. cbn. rewrite app_nil_r. auto. }
  rewrite each_cons. cbn [mapItems]. eapply yields_bind; [apply yields_tick|]. intros [e|] He; [apply yields_ret; left; exact He|].
  eapply yields_bind; [apply Hf|]. intros [outputs [e|]] Hr.
  { apply yields_ret. destruct (refines_error _ _ _ Hr) as [->|[Hl _]]; [right; reflexivity|left; exact Hl]. }
  apply refines_done in Hr. eapply yields_bind; [apply mapOutputs_yields|].
  intros [m1 [e|]] [He1 Hm1]; [apply yields_ret; left; exact He1|]. cbn in Hm1. specialize (Hm1 eq_refl).
  eapply yields_mono; [apply IH|]. intros [m2 [e|]]; unfold mapsTo; cbn [fst snd]; rewrite Hr.
  - intros [Hl|Hs]; [left; exact Hl|right; exact Hs].
  - intros (vs & Hvs & Hm2). exists (outputs ++ vs). rewrite Hvs, Hm2, Hm1, app_assoc. auto.
Qed.

Lemma evalMap_implements f g input :
  (forall v, implements (f v) (g v)) ->
  implements (evalMap ctxErr f input)
    match itemsOf input with
    | None => failed (RuntimeError (CannotIterate (typeName input)))
    | Some items => collected (each g items)
    end.
Proof.
  intros Hf. unfold evalMap. destruct (itemsOf input) as [items|]; [|apply implements_ret].
  eapply yields_bind; [apply yields_retainSize|]. intros [e|] He; [apply implements_failed, He|].
  eapply yields_bind; [apply mapItems_yields, Hf|]. intros [m [e|]] Hm; apply yields_skip, yields_ret; unfold mapsTo in Hm; cbn [fst snd] in Hm.
  - destruct Hm as [Hl|Hs]; [apply refines_failed, Hl|]. destruct (each g items) as [vs e']. cbn in Hs. subst e'. apply refines_refl.
  - destruct Hm as (vs & -> & Hm). cbn in Hm. rewrite Hm. apply refines_refl.
Qed.

Lemma evalCall_implements name (f : option (value -> E outcome)) (g : option (value -> outcome)) input :
  match f, g with
  | Some f, Some g => forall v, implements (f v) (g v)
  | None, None => True
  | _, _ => False
  end -> implements (evalCall ctxErr name f input) (semCall name g input).
Proof.
  intros Hf. unfold evalCall, semCall. do 5 (destruct (_ =s _)%go; [apply implements_ret|]).
  destruct f as [f|], g as [g|]; try destruct Hf; [|apply implements_ret].
  destruct (_ =s _)%go.
  { apply mapResults_implements; [apply Hf|]. intros x a. destruct (hasValue input x); [apply adds_ret, refines_refl|apply adds_add]. }
  destruct (_ =s _)%go.
  { apply mapResults_implements; [apply Hf|]. intros x a. destruct (truthy x); [apply adds_add|apply adds_ret, refines_refl]. }
  destruct (_ =s _)%go; [apply evalMap_implements, Hf|apply implements_ret].
Qed.

End Refine.
End JqRefine.
