(* ===== verification/JqObject.v ===== *)
(** * Members of jq objects (builtins/jq/value.go, eval.go)

    Looking up, replacing and adding members; and the construction of objects,
    which does not keep the values of keys that a later member replaces, against
    its meaning, which puts all of them together. *)

From S2P Require Import Prelude GoStd Utf8 JqValue JqString JqParse JqEval JqRetain JqRefine.
From stdpp Require Import base list strings sorting.
From Stdlib Require Import ZArith Lia Ascii SpecFloat QArith.
#[local] Open Scope Z_scope.

Module JqObject.
Import GoStd Utf8 JqValue JqLex JqParse JqEval JqLogic JqSem JqRefine.

(** ** Members *)

Section Members.
Context {X : Type}.
Implicit Type ms : list (bytes * X).

Lemma getMember_None k ms : getMember k ms = None <-> k ∉ map fst ms.
Proof.
  induction ms as [|[k' v] ms IH]; cbn [getMember map fst]; [split; [intros _; apply not_elem_of_nil|reflexivity]|].
  rewrite not_elem_of_cons. destruct (bytes_eqb k' k) eqn:E.
  - apply bytes_eqb_true in E. split; [discriminate|intros [Hne _]; congruence].
  - rewrite IH. split; [|tauto]. intros Hk. split; [|exact Hk]. intros ->. rewrite bytes_eqb_refl in E. discriminate.
Qed.

Lemma setMember_keys k v ms : map fst (setMember k v ms) = map fst ms.
Proof.
  induction ms as [|[k' w] ms IH]; [reflexivity|]. cbn [setMember]. destruct (bytes_eqb k' k); cbn [map fst]; [reflexivity|].
  rewrite IH. reflexivity.
Qed.

Lemma getMember_set k k' v ms :
  getMember k' (setMember k v ms) = if bytes_eqb k k' then (match getMember k ms with Some _ => Some v | None => None end) else getMember k' ms.
Proof.
  induction ms as [|[k0 w] ms IH]; cbn [setMember getMember]; [destruct (bytes_eqb k k'); reflexivity|].
  destruct (bytes_eqb k0 k) eqn:E0; cbn [getMember].
  - apply bytes_eqb_true in E0 as ->. destruct (bytes_eqb k k'); reflexivity.
  - rewrite IH. destruct (bytes_eqb k k') eqn:E1; [|reflexivity]. apply bytes_eqb_true in E1 as <-. rewrite E0. reflexivity.
Qed.

Lemma getMember_app k ms ms' : getMember k (ms ++ ms') = match getMember k ms with Some v => Some v | None => getMember k ms' end.
Proof. induction ms as [|[k' v] ms IH]; [reflexivity|]. cbn [app getMember]. destruct (bytes_eqb k' k); [reflexivity|exact IH]. Qed.
End Members.

Lemma putMember_keys ms k v : map fst (putMember ms (k, v)) = match getMember k ms with Some _ => map fst ms | None => map fst ms ++ [k] end.
Proof.
  unfold putMember. cbn [fst snd]. destruct (getMember k ms); [apply setMember_keys|]. rewrite map_app. reflexivity.
Qed.

Lemma getMember_put ms k v k' : getMember k' (putMember ms (k, v)) = if bytes_eqb k k' then Some v else getMember k' ms.
Proof.
  unfold putMember. cbn [fst snd]. destruct (getMember k ms) eqn:E.
  - rewrite getMember_set, E. destruct (bytes_eqb k k'); reflexivity.
  - rewrite getMember_app. cbn [getMember]. destruct (bytes_eqb k k') eqn:Ek; [|destruct (getMember k' ms); reflexivity].
    apply bytes_eqb_true in Ek as <-. rewrite E. reflexivity.
Qed.

Lemma putMember_NoDup ms item : NoDup (map fst ms) -> NoDup (map fst (putMember ms item)).
Proof.
  destruct item as [k v]. intros Hms. rewrite putMember_keys. destruct (getMember k ms) eqn:E; [exact Hms|].
  apply NoDup_app. split; [exact Hms|]. split; [|apply NoDup_singleton]. intros x Hx ->%list_elem_of_singleton.
  exact (proj1 (getMember_None _ _) E Hx).
Qed.

Lemma dedupe_snoc items item : dedupe (items ++ [item]) = putMember (dedupe items) item.
Proof. unfold dedupe. rewrite foldl_app. reflexivity. Qed.

Lemma dedupe_NoDup items : NoDup (map fst (dedupe items)).
Proof.
  induction items as [|item items IH] using rev_ind; [apply NoDup_nil_2|]. rewrite dedupe_snoc. apply putMember_NoDup, IH.
Qed.

(** Objects with the same keys in the same order and the same lookups. *)
Lemma members_ext (ms ns : list (bytes * value)) :
  NoDup (map fst ms) -> map fst ms = map fst ns -> (forall k, getMember k ms = getMember k ns) -> ms = ns.
Proof.
  revert ns. induction ms as [|[k v] ms IH]; intros [|[k' w] ns] Hnd Hk Hg; try discriminate; [reflexivity|].
  cbn [map fst] in *. injection Hk as <- Hk. apply NoDup_cons in Hnd as [Hnk Hnd].
  pose proof (Hg k) as Hv. cbn [getMember] in Hv. rewrite bytes_eqb_refl in Hv. injection Hv as <-. f_equal.
  apply IH; [exact Hnd|exact Hk|]. intros x. specialize (Hg x). cbn [getMember] in Hg.
  destruct (bytes_eqb k x) eqn:E; [|exact Hg]. apply bytes_eqb_true in E as <-.
  rewrite (proj2 (getMember_None k ms) Hnk). symmetry. apply getMember_None. rewrite <- Hk. exact Hnk.
Qed.

Lemma dedupe_distinct ms : NoDup (map fst ms) -> dedupe ms = ms.
Proof.
  induction ms as [|[k v] ms IH] using rev_ind; [reflexivity|]. rewrite map_app, dedupe_snoc. cbn [map fst].
  intros (Hms & Hk & _)%NoDup_app. rewrite (IH Hms). unfold putMember. cbn [fst snd].
  rewrite (proj2 (getMember_None k ms)); [reflexivity|]. intros Hin. apply (Hk _ Hin). left.
Qed.

(** ** Construction *)

(** The object so far is that of the items, but for the keys that are left. *)
Definition tracks (left : list bytes) (path items : list (bytes * value)) : Prop :=
  map fst path = map fst (dedupe items) /\ forall k, k ∉ left -> getMember k path = getMember k (dedupe items).

Lemma tracks_nil left : tracks left [] [].
Proof. split; reflexivity. Qed.

Lemma tracks_done `{FloatText} path items : tracks [] path items -> object path = object items.
Proof.
  intros [Hk Hg]. assert (path = dedupe items) as ->.
  { apply members_ext; [rewrite Hk; apply dedupe_NoDup|exact Hk|]. intros k. apply Hg, not_elem_of_nil. }
  unfold object. rewrite dedupe_distinct by apply dedupe_NoDup. reflexivity.
Qed.

(** One member more: its value may be any when its key is left. *)
Lemma tracks_put left left' path items k x v :
  tracks left path items -> (forall k', k' ∈ left -> k' = k \/ k' ∈ left') -> (k ∉ left' -> x = v) ->
  tracks left' (putMember path (k, x)) (items ++ [(k, v)]).
Proof.
  intros [Hk Hg] Hleft Hx. unfold tracks. rewrite dedupe_snoc.
  assert (getMember k path = None <-> getMember k (dedupe items) = None) as Hnone by (rewrite !getMember_None, Hk; reflexivity).
  split.
  - rewrite !putMember_keys. destruct (getMember k path), (getMember k (dedupe items)); rewrite ?Hk; try reflexivity.
    + destruct Hnone as [_ Hn]. discriminate (Hn eq_refl).
    + destruct Hnone as [Hn _]. discriminate (Hn eq_refl).
  - intros k' Hk'. rewrite !getMember_put. destruct (bytes_eqb k k') eqn:E.
    + apply bytes_eqb_true in E as <-. f_equal. apply Hx, Hk'.
    + apply Hg. intros [->|Hin]%Hleft; [rewrite bytes_eqb_refl in E; discriminate|exact (Hk' Hin)].
Qed.

(** ** The construction implements its meaning *)

Section Construct.
Context `{FloatText} (ctxErr : nat -> bool).
Context (ev : node -> value -> E outcome) (sm : node -> value -> outcome) (input : value).

Lemma addAggregate_limited ns v extra mn mb e : addAggregate ns v extra mn mb = inl e -> limited e.
Proof.
  unfold addAggregate. destruct ns. destruct (_ <? _); [intros [= <-]; exact I|].
  destruct (_ || _); [intros [= <-]; exact I|discriminate].
Qed.

Lemma processValue_adds cont path ns key stored a t :
  (forall ns a, adds a (cont (putMember path (key, stored)) ns a) t) -> adds a (processValue cont path ns key stored a) t.
Proof.
  intros Hc. unfold processValue. unfold putMember in Hc. cbn [fst snd] in Hc.
  destruct (getMember key path); destruct (addAggregate _ _ _ _ _) eqn:Ea;
    try (apply adds_ret, refines_failed, (addAggregate_limited _ _ _ _ _ _ Ea)).
  - eapply yields_bind; [apply yields_retain|]. intros [e|] He; [apply adds_ret, refines_failed, He|].
    eapply yields_bind; [apply Hc|]. intros r Hr. apply yields_skip, yields_ret, Hr.
  - eapply yields_bind; [apply yields_retainSize|]. intros [e|] He; [apply adds_ret, refines_failed, He|].
    eapply yields_bind; [apply Hc|]. intros r Hr. apply yields_skip, yields_ret, Hr.
Qed.

Lemma grew_lastly a r vs err tv f :
  refines (vs, err) tv -> grew a r (each f vs) -> grew a (lastly r err) (thenEach tv f).
Proof.
  destruct r as [a' e]. intros Hv (ws & Hw & Hr). exists ws. pose proof (refines_then _ _ _ _ _ Hv Hr) as Ht.
  unfold lastly. destruct e; split; auto.
Qed.

Lemma existsb_elem (key : bytes) ks : existsb (bytes_eqb key) ks = true <-> key ∈ ks.
Proof.
  rewrite existsb_exists. setoid_rewrite bytes_eqb_true. setoid_rewrite <- list_elem_of_In.
  split; [intros (x & Hx & ->); exact Hx|eauto].
Qed.

Lemma processKey_adds process m left resolved a tv f :
  implements (ev (memberValue m) input) tv ->
  (forall key x stored a, resolved = inr key -> (key ∉ left -> stored = x) -> adds a (process key stored a) (f key x)) ->
  adds a (processKey ctxErr ev input process m left resolved a) (keyed tv resolved f).
Proof.
  intros Hv Hp. unfold processKey. eapply yields_bind; [exact Hv|]. intros [[|v vs] err] Hr.
  { apply adds_ret. destruct Hr as [<-|(e & He & Hl & _)]; [apply refines_refl|]. cbn in He. rewrite He. apply refines_failed, Hl. }
  pose proof (refines_prefix _ _ Hr) as [rest Hrest]. unfold keyed. rewrite Hrest.
  destruct resolved as [e|key]; [apply adds_ret, refines_refl|]. cbn [app fst].
  destruct (existsb (bytes_eqb key) left) eqn:El.
  - eapply yields_bind; [|intros r Hg; apply yields_ret; eapply grew_lastly; [exact Hr|exact Hg]].
    apply forEach_adds. rewrite existsb_elem in El. generalize (v :: vs) as l. induction l as [|x l IH]; constructor; [|exact IH].
    intros a'. apply adds_tick, Hp; [reflexivity|]. intros Hn. destruct (Hn El).
  - eapply yields_bind; [apply yields_retain|]. intros [e|] He; [apply adds_ret, refines_failed, He|].
    eapply yields_bind; [|intros r Hg; apply yields_ret; eapply grew_lastly; [exact Hr|exact Hg]].
    apply consumeFirst_adds. intros x a'. apply Hp; reflexivity.
Qed.

Context (Hstatic : forall kn s, ungroup kn = NLiteral (JString s) -> sm kn input = yield (JString s)).

Lemma evalObjectMembers_adds ms path items ns a :
  Forall (onMember (fun n => forall v, implements (ev n v) (sm n v))) ms -> tracks (omap staticObjectKey ms) path items ->
  adds a (evalObjectMembers ctxErr ev input ms path (omap staticObjectKey ms) ns a) (objects sm input ms items).
Proof.
  intros Hms. revert path items ns a.
  induction Hms as [|m ms [Hk Hv] _ IH]; intros path items ns a Ht; cbn [evalObjectMembers objects].
  { rewrite (tracks_done _ _ Ht). apply one_adds. }
  replace (match staticObjectKey m with Some _ => tail (omap staticObjectKey (m :: ms)) | None => omap staticObjectKey (m :: ms) end)
    with (omap staticObjectKey ms) by (cbn; destruct (staticObjectKey m); reflexivity).
  assert (forall resolved a, (forall s, staticObjectKey m = Some s -> resolved = inr s) ->
            adds a (processKey ctxErr ev input (processValue (fun path => evalObjectMembers ctxErr ev input ms path (omap staticObjectKey ms)) path ns)
                      m (omap staticObjectKey ms) resolved a)
              (keyed (sm (memberValue m) input) resolved (fun k v => objects sm input ms (items ++ [(k, v)])))) as Hkey.
  { intros resolved a' Hres. apply processKey_adds; [apply Hv|]. intros key x stored a'' -> Hst.
    apply processValue_adds. intros ns' a3. apply IH. eapply tracks_put; [exact Ht| |exact Hst].
    intros k'. cbn. destruct (staticObjectKey m) as [s|]; [|right; assumption].
    specialize (Hres s eq_refl). injection Hres as ->. intros [->|Hin]%elem_of_cons; auto. }
  unfold staticObjectKey in Hkey. destruct (dynamicKey m) as [kn|] eqn:Ek; [|apply Hkey; intros s [= <-]; reflexivity].
  eapply yields_bind; [apply Hk|]. intros [kvs err] Hr. eapply yields_bind; [apply yields_retain|].
  intros [e|] He; [apply adds_ret, refines_failed, He|].
  eapply yields_bind; [|intros r Hg; apply yields_ret; eapply grew_lastly; [exact Hr|exact Hg]].
  apply consume_adds. intros kv a' Hkv. eapply yields_bind; [apply Hkey|].
  - intros s Hs. assert (ungroup kn = NLiteral (JString s)) as Hu.
    { destruct (ungroup kn) as [|[]| | | | | | | | | | | | | |]; try discriminate Hs. injection Hs as ->. reflexivity. }
    apply Hstatic in Hu. apply refines_prefix in Hr as [rest Hr]. rewrite Hu in Hr. cbn [fst yield] in Hr.
    assert (kv ∈ [JString s]) as Hin by (rewrite Hr; apply elem_of_app; left; exact Hkv).
    apply list_elem_of_singleton in Hin as ->. reflexivity.
  - intros [a2 e] Hg. apply yields_ret. exact Hg.
Qed.

Lemma evalObject_implements ms :
  Forall (onMember (fun n => forall v, implements (ev n v) (sm n v))) ms ->
  implements (evalObject ctxErr ev input ms) (objects sm input ms []).
Proof.
  intros Hms. eapply yields_bind; [apply yields_retainSize|]. intros [e|] He; [apply implements_failed, He|].
  eapply yields_bind; [apply evalObjectMembers_adds; [exact Hms|apply tracks_nil]|]. intros [a e] Ha.
  apply yields_skip, yields_skip, yields_ret. exact (grew_new _ _ _ _ Ha).
Qed.
End Construct.

(** ** Every filter *)

Section Filters.
Context `{FloatText} (ctxErr : nat -> bool) (variables : bytes -> option value).

Abbreviation eval := (eval ctxErr variables).
Abbreviation sem := (sem variables).

Lemma sem_static kn s v : ungroup kn = NLiteral (JString s) -> sem kn v = yield (JString s).
Proof. induction kn; cbn [ungroup]; intros E; try discriminate; [injection E as ->; reflexivity|]. apply IHkn, E. Qed.

Definition meant (n : node) : Prop := forall v, implements (eval n v) (sem n v).

Lemma eval_implements n : meant n /\ below meant n.
Proof.
  induction n using node_ind; (split; [|cbn [below]; tauto]); intros input; cbn [JqEval.eval JqSem.sem];
    apply implements_tick; try apply implements_ret; repeat match goal with IH : _ /\ below _ _ |- _ => destruct IH end.
  - apply evalField_implements; auto.
  - apply evalIndex_implements; auto.
  - apply evalIterator_implements; auto.
  - auto.
  - destruct n; try (apply suppress_implements; auto); cbn [below] in *.
    + apply evalField_implements; auto.
    + match goal with Hb : meant _ /\ meant _ |- _ => destruct Hb as [Hl Hr] end.
      apply evalIndex_implements; [apply Hl|apply Hr].
    + apply evalIterator_implements; auto.
  - apply evalPipe_implements; auto.
  - apply evalComma_implements; auto.
  - apply evalAlternative_implements; auto.
  - destruct (_ =s _)%go; [|destruct (_ =s _)%go];
      auto using evalLogic_implements, evalOrdinaryBinary_implements.
  - apply evalNegate_implements; auto.
  - destruct c as [c|]; [|apply implements_ret]. destruct H0 as [Hc _].
    eapply yields_bind; [apply Hc|]. intros r Hr. apply yields_ret, collected_refines, Hr.
  - apply evalObject_implements; [intros; apply sem_static; assumption|].
    eapply Forall_impl; [eassumption|]. intros m [Hk Hv]. split; [|exact (proj1 Hv)].
    destruct (dynamicKey m); [exact (proj1 Hk)|exact I].
  - apply evalCall_implements. destruct c as [c|]; [exact (proj1 H0)|exact I].
Qed.
End Filters.

End JqObject.
