(* ===== verification/JqWf.v ===== *)
(** * Well-formed values of jq (builtins/jq/value.go)

    The sizes that a value caches are those of its parts and within the limits,
    an object has a key once, and a number is an integer of at most 256 bits or
    a finite double.  The constructors of the source make such values, and the
    results of a filter are such values when its input is. *)

From S2P Require Import Prelude GoStd Utf8 JqValue JqString JqParse JqEval JqRetain JqRefine JqObject.
From stdpp Require Import base list strings sorting.
From Stdlib Require Import ZArith Lia Ascii SpecFloat QArith.
#[local] Open Scope Z_scope.

Module JqWf.
Import GoStd Utf8 JqValue JqLex JqParse JqEval JqLogic JqSem JqRefine JqObject.

Section Wf.
Context `{FloatText}.

(** ** The measures that a value caches *)

(** The values in a value. *)
Fixpoint countValues (v : value) : Z :=
  match v with
  | JArray items _ _ _ => 1 + foldr (fun v n => countValues v + n) 0 items
  | JObject ms _ _ _ => 1 + foldr (fun kv n => match kv with (_, v) => countValues v + n end) 0 ms
  | _ => 1
  end.

(** The bytes of the compact text, were no byte of a string to be escaped. *)
Fixpoint textSize (v : value) : Z :=
  match v with
  | JArray items _ _ _ => 2 + Z.of_nat (pred (length items)) + foldr (fun v n => textSize v + n) 0 items
  | JObject ms _ _ _ =>
      2 + Z.of_nat (pred (length ms)) +
      foldr (fun kv n => match kv with (k, v) => Z.of_nat (length k) + 3 + textSize v + n end) 0 ms
  | _ => bytesOf v
  end.

Fixpoint height (v : value) : Z :=
  match v with
  | JArray items _ _ _ => 1 + foldr (fun v n => Z.max (height v) n) 0 items
  | JObject ms _ _ _ => 1 + foldr (fun kv n => match kv with (_, v) => Z.max (height v) n end) 0 ms
  | _ => 0
  end.

(** *** Well-formed values *)

Definition within (v : value) : Prop :=
  nodesOf v = countValues v /\ bytesOf v = textSize v /\ depthOf v = height v /\
  nodesOf v <= MaxValueNodes /\ bytesOf v <= MaxValueBytes /\ depthOf v <= MaxNestingDepth.

Fixpoint wf (v : value) : Prop :=
  match v with
  | JNull | JBool _ => True
  | JNumber (Int i) => BitLen i <= MaxIntegerBits
  | JNumber (Flt f) => finite f = true
  | JString s => Z.of_nat (length s) + 2 <= MaxValueBytes
  | JArray items _ _ _ => within v /\ foldr (fun v P => wf v /\ P) True items
  | JObject ms _ _ _ =>
      within v /\ NoDup (map fst ms) /\ foldr (fun kv P => match kv with (_, v) => wf v /\ P end) True ms
  end.

Lemma wf_array items n s d : wf (JArray items n s d) <-> within (JArray items n s d) /\ Forall wf items.
Proof.
  cbn [wf]. apply and_iff_compat_l. induction items as [|v items IH]; cbn [foldr]; [split; auto|].
  rewrite Forall_cons, IH. reflexivity.
Qed.

Lemma wf_object ms n s d :
  wf (JObject ms n s d) <-> within (JObject ms n s d) /\ NoDup (map fst ms) /\ Forall (fun kv => wf (snd kv)) ms.
Proof.
  cbn [wf]. apply and_iff_compat_l, and_iff_compat_l. induction ms as [|[k v] ms IH]; cbn [foldr]; [split; auto|].
  rewrite Forall_cons, IH. reflexivity.
Qed.

(** Numbers have a short text and no parts, so all but aggregates have exact
    sizes anyway. *)
Lemma wf_exact v : wf v -> nodesOf v = countValues v /\ bytesOf v = textSize v /\ depthOf v = height v.
Proof. destruct v; cbn; try (intros _; auto; fail); intros [(A & B & C & _) _]; auto. Qed.

(** ** The constructors *)

(** A computation of a value makes well-formed ones. *)
Definition makes (r : jqErr + value) : Prop := forall v, r = inr v -> wf v.

Lemma makes_error e : makes (inl e).
Proof. intros v [=]. Qed.

Lemma makes_runtime m : makes (runtime m).
Proof. apply makes_error. Qed.

Lemma makes_wf v : wf v -> makes (inr v).
Proof. intros Hv w [= <-]. exact Hv. Qed.

Lemma stringValue_makes s : makes (stringValue s).
Proof. unfold stringValue. destruct (Z.ltb_spec MaxValueBytes (Z.of_nat (length (normalizeUTF8 s)) + 2)); intros v [= <-]. exact H0. Qed.

Lemma integerValue_makes i : makes (integerValue i).
Proof. unfold integerValue. destruct (Z.ltb_spec MaxIntegerBits (BitLen i)); intros v [= <-]. exact H0. Qed.

Lemma floatValue_makes f : makes (floatValue f).
Proof. unfold floatValue. destruct f as [| [] | |]; intros v [= <-]; reflexivity. Qed.

Lemma parseNumber_makes text : makes (parseNumber text).
Proof.
  unfold parseNumber. destruct (_ || _); [apply makes_error|]. destruct (existsb _ _).
  - destruct (ParseFloat text); auto using makes_error, floatValue_makes.
  - destruct (setString text); [|apply makes_error]. destruct (_ && _); auto using floatValue_makes, integerValue_makes.
Qed.

Lemma addAggregate_spec ns v extra ns' :
  addAggregate ns v extra MaxValueNodes MaxValueBytes = inr ns' ->
  ns' = (fst ns + nodesOf v, snd ns + (extra + bytesOf v)) /\ fst ns' <= MaxValueNodes /\ snd ns' <= MaxValueBytes.
Proof.
  unfold addAggregate. destruct ns as [n b]. destruct (Z.ltb_spec (MaxValueNodes - n) (nodesOf v)); [discriminate|].
  destruct (Z.ltb_spec MaxValueBytes extra); [discriminate|].
  destruct (Z.ltb_spec (MaxValueBytes - extra) (bytesOf v)); [discriminate|].
  destruct (Z.ltb_spec (MaxValueBytes - extra - bytesOf v) b); [discriminate|].
  cbn [orb]. intros [= <-]. cbn [fst snd]. split; [reflexivity|lia].
Qed.

Definition sumNodes (items : list (Z * value)) : Z := foldr (fun xv n => nodesOf (snd xv) + n) 0 items.
Definition sumBytes (items : list (Z * value)) : Z := foldr (fun xv n => fst xv + bytesOf (snd xv) + n) 0 items.

Lemma totals_spec items (first : bool) n b n' b' :
  totals items first (n, b) = inr (n', b') -> n <= MaxValueNodes -> b <= MaxValueBytes ->
  n' = n + sumNodes items /\
  b' = b + sumBytes items + (if first then Z.of_nat (pred (length items)) else Z.of_nat (length items)) /\
  n' <= MaxValueNodes /\ b' <= MaxValueBytes.
Proof.
  revert first n b. induction items as [|[x v] items IH]; intros first n b; cbn [totals].
  - intros [= <- <-] Hn Hb. cbn. destruct first; lia.
  - destruct (addAggregate _ _ _ _ _) as [e|[n1 b1]] eqn:E; [discriminate|].
    apply addAggregate_spec in E as ([= -> ->] & Hn1 & Hb1). cbn [fst snd] in *. intros Ht _ _.
    apply IH in Ht as (-> & -> & Hn & Hb); [|assumption..]. unfold sumNodes, sumBytes in *. cbn [foldr length pred fst snd] in *.
    destruct first; lia.
Qed.

Lemma maxDepth_spec vs : maxDepth vs = Z.max 1 (foldr (fun v n => Z.max (depthOf v + 1) n) 1 vs).
Proof.
  unfold maxDepth. assert (forall d, foldl (fun d v => Z.max d (depthOf v + 1)) d vs = Z.max d (foldr (fun v n => Z.max (depthOf v + 1) n) d vs)) as Hd.
  { induction vs as [|v vs IH]; intros d; cbn [foldl foldr]; [lia|]. rewrite IH.
    assert (forall a b, a <= b -> foldr (fun v n => Z.max (depthOf v + 1) n) b vs = Z.max b (foldr (fun v n => Z.max (depthOf v + 1) n) a vs)) as Hm.
    { clear. intros a b Hab. induction vs as [|v vs IH]; cbn [foldr]; lia. }
    rewrite (Hm d (Z.max d (depthOf v + 1))) by lia. lia. }
  apply Hd.
Qed.

Lemma depth_nonneg v : 0 <= height v.
Proof.
  destruct v as [| | | |items|ms]; cbn [height]; try lia.
  - induction items as [|v items IH]; cbn [foldr]; lia.
  - induction ms as [|[k v] ms IH]; cbn [foldr]; lia.
Qed.

Lemma arrayValue_makes items : Forall wf items -> makes (arrayValue items).
Proof.
  intros Hi v. unfold arrayValue. destruct (totals _ _ _) as [e|[n b]] eqn:E; [discriminate|].
  apply totals_spec in E as (Hn & Hb & Hn' & Hb'); [|discriminate..]. rewrite length_map in Hb.
  destruct (Z.ltb_spec MaxNestingDepth (maxDepth items)) as [|Hd]; [discriminate|]. intros [= <-].
  apply wf_array. split; [|exact Hi]. rewrite maxDepth_spec in *. unfold within; cbn [nodesOf bytesOf depthOf countValues textSize height].
  assert (sumNodes (map (fun v => (0, v)) items) = foldr (fun v n => countValues v + n) 0 items /\
          sumBytes (map (fun v => (0, v)) items) = foldr (fun v n => textSize v + n) 0 items /\
          foldr (fun v n => Z.max (depthOf v + 1) n) 1 items = 1 + foldr (fun v n => Z.max (height v) n) 0 items) as (HN & HB & HD).
  { clear -Hi. unfold sumNodes, sumBytes. induction Hi as [|v items Hv _ IH]; cbn [map foldr fst snd]; [lia|].
    destruct (wf_exact v Hv) as (A & B & C). pose proof (depth_nonneg v). lia. }
  assert (0 <= foldr (fun v n => Z.max (height v) n) 0 items) by (clear; induction items; cbn [foldr]; lia).
  repeat split; lia.
Qed.

Lemma object_makes items : Forall (fun kv => wf (snd kv)) items -> makes (object items).
Proof.
  intros Hi v. unfold object. assert (Forall (fun kv => wf (snd kv)) (dedupe items)) as Hd.
  { clear -Hi. induction items as [|[k x] items IH] using rev_ind; [constructor|]. rewrite dedupe_snoc.
    apply Forall_app in Hi as [Hi [Hx _]%Forall_cons]. specialize (IH Hi). unfold putMember. cbn [fst snd] in *.
    destruct (getMember k (dedupe items)); [|apply Forall_app, conj, Forall_singleton; assumption].
    clear -IH Hx. induction IH as [|[k' w] ms Hw Hms IHms]; cbn [setMember]; [constructor|].
    destruct (bytes_eqb k' k); apply Forall_cons; auto. }
  pose proof (dedupe_NoDup items) as Hnd. revert Hd Hnd. generalize (dedupe items) as ms. clear items Hi. intros ms Hi Hnd.
  destruct (totals _ _ _) as [e|[n b]] eqn:E; [discriminate|].
  apply totals_spec in E as (Hn & Hb & Hn' & Hb'); [|discriminate..]. rewrite length_map in Hb.
  destruct (Z.ltb_spec MaxNestingDepth (maxDepth (map snd ms))) as [|Hd]; [discriminate|]. intros [= <-].
  apply wf_object. split; [|auto]. rewrite maxDepth_spec in *. unfold within; cbn [nodesOf bytesOf depthOf countValues textSize height].
  assert (sumNodes (map (fun kv => (Z.of_nat (length (fst kv)) + 3, snd kv)) ms) =
            foldr (fun kv n => match kv with (_, v) => countValues v + n end) 0 ms /\
          sumBytes (map (fun kv => (Z.of_nat (length (fst kv)) + 3, snd kv)) ms) =
            foldr (fun kv n => match kv with (k, v) => Z.of_nat (length k) + 3 + textSize v + n end) 0 ms /\
          foldr (fun v n => Z.max (depthOf v + 1) n) 1 (map snd ms) =
            1 + foldr (fun kv n => match kv with (_, v) => Z.max (height v) n end) 0 ms) as (HN & HB & HD).
  { clear -Hi. unfold sumNodes, sumBytes. induction Hi as [|[k v] ms Hv _ IH]; cbn [map foldr fst snd]; [lia|].
    destruct (wf_exact v Hv) as (A & B & C). pose proof (depth_nonneg v). lia. }
  assert (0 <= foldr (fun (kv : bytes * value) n => match kv with (_, v) => Z.max (height v) n end) 0 ms)
    by (clear; induction ms as [|[]]; cbn [foldr]; lia).
  repeat split; lia.
Qed.

(** ** Operations *)

Lemma getMember_wf k ms v : Forall (fun kv => wf (snd kv)) ms -> getMember k ms = Some v -> wf v.
Proof.
  induction 1 as [|[k' w] ms Hw _ IH]; [discriminate|]. cbn [getMember]. destruct (bytes_eqb k' k); [intros [= <-]; exact Hw|exact IH].
Qed.

Lemma member_wf ms n s d k : wf (JObject ms n s d) -> wf (default JNull (getMember k ms)).
Proof.
  intros (_ & _ & Hms)%wf_object. destruct (getMember k ms) eqn:E; [exact (getMember_wf _ _ _ Hms E)|exact I].
Qed.

Lemma fieldValue_makes v k : wf v -> makes (fieldValue v k).
Proof.
  intros Hv. destruct v; cbn [fieldValue]; try apply makes_error; apply makes_wf; [exact I|eapply member_wf; exact Hv].
Qed.

Lemma items_wf items n s d i : wf (JArray items n s d) -> wf (default JNull (items !! i)).
Proof.
  intros (_ & Hi)%wf_array. destruct (items !! i) eqn:E; [|exact I]. rewrite Forall_lookup in Hi. exact (Hi _ _ E).
Qed.

Lemma indexValue_makes v i : wf v -> makes (indexValue v i).
Proof.
  intros Hv. destruct v as [| | | |items|ms]; cbn [indexValue]; try apply makes_error.
  - destruct i; try apply makes_error; apply makes_wf; exact I.
  - destruct i as [| |n| | |]; try apply makes_error. destruct (indexInt64 n); [|apply makes_wf; exact I].
    destruct (_ || _); apply makes_wf; [exact I|eapply items_wf; exact Hv].
  - destruct i; try apply makes_error. apply makes_wf. eapply member_wf, Hv.
Qed.

(** A count is a small integer. *)
Lemma count_wf i : 0 <= i <= 2 ^ 64 -> wf (int64Value i).
Proof.
  intros Hi. cbn. unfold BitLen. destruct (Z.eqb_spec i 0); [discriminate|]. rewrite Z.abs_eq by lia.
  assert (Z.log2 i <= Z.log2 (2 ^ 64)) as Hl by (apply Z.log2_le_mono; lia).
  change (Z.log2 (2 ^ 64)) with 64 in Hl. unfold MaxIntegerBits. lia.
Qed.

Lemma textSize_nonneg v : 0 <= textSize v.
Proof.
  induction v as [|[]| | |l n s d IH|l n s d IH] using value_ind; cbn [textSize bytesOf]; try lia.
  - induction IH; cbn [foldr length]; lia.
  - induction IH as [|[k v] l Hv _ IHl]; cbn [foldr length snd] in *; lia.
Qed.

Lemma countValues_items items : Z.of_nat (length items) <= foldr (fun v n => countValues v + n) 0 items.
Proof.
  assert (forall v, 1 <= countValues v) as Hpos.
  { induction v as [| | | |l n s d IH|l n s d IH] using value_ind; cbn [countValues]; try lia.
    - induction IH; cbn [foldr]; lia.
    - induction IH as [|[k v] l Hv _ IHl]; cbn [foldr snd] in *; lia. }
  induction items as [|v items IH]; cbn [length foldr]; [lia|]. specialize (Hpos v). lia.
Qed.

Lemma items_count items n s d : wf (JArray items n s d) -> Z.of_nat (length items) <= MaxValueNodes.
Proof.
  intros ((Hn & _ & _ & Hmax & _) & _)%wf_array. cbn [nodesOf countValues] in *. pose proof (countValues_items items). lia.
Qed.

Lemma members_count ms n s d : wf (JObject ms n s d) -> Z.of_nat (length ms) <= MaxValueNodes.
Proof.
  intros ((Hn & _ & _ & Hmax & _) & _)%wf_object. cbn [nodesOf countValues] in *.
  pose proof (countValues_items (map snd ms)) as Hc. rewrite length_map in Hc.
  assert (foldr (fun v n => countValues v + n) 0 (map snd ms) =
          foldr (fun kv n => match kv with (_, v) => countValues v + n end) 0 ms) as E.
  { clear. induction ms as [|[k v] ms IH]; cbn [map foldr snd]; [reflexivity|]. rewrite IH. reflexivity. }
  lia.
Qed.

Lemma lengthValue_makes v : wf v -> makes (lengthValue v).
Proof.
  intros Hv. destruct v as [| |[]|s|items|ms]; cbn [lengthValue];
    auto using makes_runtime, makes_error, integerValue_makes, floatValue_makes; apply makes_wf, count_wf.
  - lia.
  - cbn in Hv. unfold MaxValueBytes in Hv. pose proof (runes_length s). lia.
  - apply items_count in Hv. unfold MaxValueNodes in Hv. lia.
  - apply members_count in Hv. unfold MaxValueNodes in Hv. lia.
Qed.

Lemma keysValue_makes v : wf v -> makes (keysValue v).
Proof.
  intros Hv. destruct v as [| | | |items|ms]; cbn [keysValue]; auto using makes_runtime, makes_error; apply arrayValue_makes, Forall_map.
  - apply items_count in Hv. unfold MaxValueNodes in Hv. apply Forall_forall. intros i Hi%elem_of_seq. apply count_wf. lia.
  - apply Forall_forall. intros k _. destruct (stringValue k) eqn:E; [exact I|exact (stringValue_makes _ _ E)].
Qed.

Lemma negateNumber_makes v : makes (negateNumber v).
Proof. destruct v as [| |[]| | |]; cbn [negateNumber]; auto using makes_runtime, makes_error, integerValue_makes, floatValue_makes. Qed.

Lemma floatBinary_makes op a b : makes (floatBinary op a b).
Proof. destruct op; cbn [floatBinary]; auto using makes_runtime, makes_error, floatValue_makes; destruct (isZero _); auto using makes_runtime, makes_error, floatValue_makes. Qed.

Lemma numericBinary_makes op l r : makes (numericBinary op l r).
Proof.
  destruct l as [| |x| | |], r as [| |y| | |]; cbn [numericBinary]; try apply makes_error.
  destruct x as [a|a], y as [b|b]; try apply floatBinary_makes.
  destruct op; try apply floatBinary_makes; try apply integerValue_makes; destruct (b =? 0); try apply makes_error.
  - destruct (_ =? 0); [apply integerValue_makes|apply floatValue_makes].
  - apply integerValue_makes.
Qed.

Lemma addValues_makes l r : wf l -> wf r -> makes (addValues l r).
Proof.
  intros Hl Hr. destruct l as [|p|x|a|xs|ms], r as [|q|y|b|ys|ns]; cbn [addValues];
    auto using makes_runtime, makes_error, makes_wf, numericBinary_makes.
  - destruct (_ <? _); auto using makes_runtime, makes_error, stringValue_makes.
  - apply arrayValue_makes, Forall_app. split; [apply (proj1 (wf_array _ _ _ _) Hl)|apply (proj1 (wf_array _ _ _ _) Hr)].
  - apply object_makes, Forall_app. apply wf_object in Hl as (_ & _ & ?), Hr as (_ & _ & ?). auto.
Qed.

Lemma repeatString_makes s n : makes (repeatString s n).
Proof.
  unfold repeatString. destruct (negative n); [apply makes_wf; exact I|]. destruct (bytes_eqb s []); [apply stringValue_makes|].
  destruct (repeatCount n) as [c|]; [|apply makes_error]. destruct (c =? 0); [apply stringValue_makes|].
  destruct (_ || _); auto using makes_runtime, makes_error, stringValue_makes.
Qed.

Lemma divideStrings_makes a b : makes (divideStrings a b).
Proof.
  unfold divideStrings. destruct (bytes_eqb a []); [apply arrayValue_makes; constructor|]. destruct (_ <? _); [apply makes_error|].
  destruct (mapErr stringValue (SplitString a b)) as [e|vs] eqn:E; [apply makes_error|]. apply arrayValue_makes.
  revert vs E. induction (SplitString a b) as [|s ss IH]; intros vs; cbn [mapErr]; [intros [= <-]; constructor|].
  destruct (stringValue s) as [e|v] eqn:Ev; [discriminate|]. destruct (mapErr stringValue ss) as [e|ws]; [discriminate|].
  intros [= <-]. constructor; [exact (stringValue_makes _ _ Ev)|apply IH; reflexivity].
Qed.

Lemma merged_makes ls r : Forall (fun kv => wf (snd kv)) ls -> wf r -> makes (merged ls r).
Proof.
  revert ls. induction r as [| | | | |rs n s d IH] using value_ind; intros ls Hl Hr; try (apply makes_wf; exact Hr).
  cbn [merged]. match goal with |- makes (match ?go rs with inl _ => _ | inr _ => _ end) =>
    assert (forall items, go rs = inr items -> Forall (fun kv => wf (snd kv)) items) as Hgo; [|destruct (go rs) as [e|items]] end.
  - apply wf_object in Hr as (_ & _ & Hr). clear n s d. induction IH as [|[k v] rs Hv _ IHl]; intros items; [intros [= <-]; constructor|].
    apply Forall_cons in Hr as [Hw Hr]. cbn [snd] in *.
    assert (makes (match getMember k ls with
                   | Some (JObject ls _ _ _) => match v with JObject _ _ _ _ => merged ls v | _ => inr v end
                   | _ => inr v
                   end)) as Hm.
    { destruct (getMember k ls) as [[| | | | |ls' ? ? ?]|] eqn:E; try (apply makes_wf; exact Hw).
      destruct v; try (apply makes_wf; exact Hw). apply Hv; [|exact Hw].
      apply (getMember_wf _ _ _ Hl) in E. apply wf_object in E as (_ & _ & E). exact E. }
    match goal with |- match ?m with inl _ => _ | inr _ => _ end = _ -> _ => destruct m as [e|v']; [discriminate|] end.
    match goal with |- match ?g with inl _ => _ | inr _ => _ end = _ -> _ => destruct g as [e|items']; [discriminate|] end.
    intros [= <-]. constructor; [exact (Hm _ eq_refl)|exact (IHl Hr _ eq_refl)].
  - apply makes_error.
  - apply object_makes, Forall_app. split; [exact Hl|apply Hgo; reflexivity].
Qed.

Lemma binary_makes op l r : wf l -> wf r -> makes (binary op l r).
Proof.
  intros Hl Hr. unfold binary. destruct (isComparison op); [apply makes_wf; destruct op, (valueOrder l r); exact I|].
  destruct op; auto using makes_runtime, makes_error, addValues_makes, numericBinary_makes.
  - destruct l; auto using numericBinary_makes. destruct r; auto using numericBinary_makes.
    apply arrayValue_makes. apply wf_array in Hl as [_ Hl]. clear -Hl. induction Hl as [|x xs Hx _ IH]; cbn [List.filter]; [constructor|].
    destruct (negb _); auto.
  - destruct l; auto using numericBinary_makes; destruct r; auto using numericBinary_makes, repeatString_makes.
    apply wf_object in Hl as (_ & _ & Hl). apply merged_makes; assumption.
  - destruct l; auto using numericBinary_makes; destruct r; auto using numericBinary_makes, divideStrings_makes.
Qed.

(** ** Filters *)

(** The literals of a filter are well-formed. *)
Fixpoint literals (n : node) : Prop :=
  match n with
  | NLiteral v => wf v
  | NIdentity | NVariable _ => True
  | NField l _ | NIterator l => literals l
  | NIndex l r | NPipe l r | NComma l r | NAlternative l r | NBinary _ _ l r => literals l /\ literals r
  | NGroup c | NOptional c | NNegate c => literals c
  | NArray c | NCall _ c => match c with Some c => literals c | None => True end
  | NObject ms =>
      foldr (fun m P => match dynamicKey m with Some k => literals k | None => True end /\ literals (memberValue m) /\ P) True ms
  end.

Lemma literals_object ms : literals (NObject ms) <-> Forall (onMember literals) ms.
Proof.
  cbn [literals]. induction ms as [|m ms IH]; cbn [foldr]; [split; auto|]. rewrite Forall_cons, IH.
  unfold onMember, onOption. tauto.
Qed.

Definition allWf (r : outcome) : Prop := Forall wf (fst r).

Lemma each_wf {X} (f : X -> outcome) xs : Forall (fun x => allWf (f x)) xs -> allWf (each f xs).
Proof.
  induction 1 as [|x xs Hx _ IH]; [constructor|]. rewrite each_cons. unfold allWf in *. destruct (f x) as [vs [e|]]; [exact Hx|].
  apply Forall_app. split; assumption.
Qed.

Lemma thenEach_wf r f : allWf r -> (forall v, wf v -> allWf (f v)) -> allWf (thenEach r f).
Proof.
  intros Hr Hf. unfold thenEach. pose proof (each_wf f (fst r)) as He. destruct (each f (fst r)). apply He.
  eapply Forall_impl; [exact Hr|exact Hf].
Qed.

Lemma yield_wf v : wf v -> allWf (yield v).
Proof. intros Hv. apply Forall_singleton, Hv. Qed.

Lemma nil_wf e : allWf ([], e).
Proof. constructor. Qed.

Lemma one_wf r : makes r -> allWf (one r).
Proof. intros Hr. destruct r; [apply nil_wf|apply Forall_singleton, Hr, eq_refl]. Qed.

Lemma attempt_wf optional r : makes r -> allWf (attempt optional r).
Proof. intros Hr. destruct r; [destruct optional; apply nil_wf|apply Forall_singleton, Hr, eq_refl]. Qed.

Lemma itemsOf_wf v items : wf v -> itemsOf v = Some items -> Forall wf items.
Proof.
  intros Hv. destruct v as [| | | |l|l]; try discriminate; intros [= <-]; [apply wf_array in Hv; tauto|].
  apply wf_object in Hv as (_ & _ & Hl). apply Forall_map, Hl.
Qed.

Lemma collected_wf r : allWf r -> allWf (collected r).
Proof. intros Hr. destruct r as [vs [e|]]; [apply nil_wf|]. apply one_wf, arrayValue_makes, Hr. Qed.

Lemma filter_wf vs : Forall wf vs -> Forall wf (List.filter truthy vs).
Proof. induction 1 as [|v vs Hv _ IH]; cbn [List.filter]; [constructor|]. destruct (truthy v); auto. Qed.

Lemma semIterator_wf r optional : allWf r -> allWf (semIterator r optional).
Proof.
  intros Hr. apply thenEach_wf; [exact Hr|]. intros v Hv. destruct (itemsOf v) eqn:E; [exact (itemsOf_wf _ _ Hv E)|].
  destruct optional; apply nil_wf.
Qed.

Lemma semAlternative_wf l r : allWf l -> allWf r -> allWf (semAlternative l r).
Proof.
  intros Hl Hr. unfold semAlternative. pose proof (filter_wf _ Hl) as Hf.
  destruct (snd l), (List.filter truthy (fst l)); assumption.
Qed.

Lemma semLogic_wf short l r : allWf l -> allWf r -> allWf (semLogic short l r).
Proof.
  intros Hl Hr. apply thenEach_wf; [exact Hl|]. intros x _. destruct (Bool.eqb _ _); [apply yield_wf; exact I|].
  apply thenEach_wf; [exact Hr|]. intros y _. apply yield_wf. exact I.
Qed.

Lemma semCall_wf name child input :
  wf input -> match child with Some f => forall v, wf v -> allWf (f v) | None => True end -> allWf (semCall name child input).
Proof.
  intros Hi Hf. unfold semCall. do 2 (destruct (_ =s _)%go; [apply nil_wf || (apply yield_wf; exact I)|]).
  destruct (_ =s _)%go; [apply yield_wf; destruct input; discriminate|].
  destruct (_ =s _)%go; [apply one_wf, lengthValue_makes, Hi|].
  destruct (_ =s _)%go; [apply one_wf, keysValue_makes, Hi|].
  destruct child as [f|]; [|apply nil_wf]. destruct (_ =s _)%go.
  { apply thenEach_wf; [apply Hf, Hi|]. intros k _. apply one_wf. destruct (hasValue input k); [apply makes_error|apply makes_wf; exact I]. }
  destruct (_ =s _)%go.
  { apply thenEach_wf; [apply Hf, Hi|]. intros p _. destruct (truthy p); [apply yield_wf, Hi|apply nil_wf]. }
  destruct (_ =s _)%go; [|apply nil_wf]. destruct (itemsOf input) eqn:E; [|apply nil_wf].
  apply collected_wf, each_wf. eapply Forall_impl; [exact (itemsOf_wf _ _ Hi E)|exact Hf].
Qed.

Lemma objects_wf (sm : node -> value -> outcome) input ms items :
  Forall (onMember (fun n => allWf (sm n input))) ms -> Forall (fun kv => wf (snd kv)) items -> allWf (objects sm input ms items).
Proof.
  intros Hms. revert items. induction Hms as [|m ms [Hk Hv] _ IH]; intros items Hi; cbn [objects].
  { apply one_wf, object_makes, Hi. }
  assert (forall key, allWf (keyed (sm (memberValue m) input) key (fun k v => objects sm input ms (items ++ [(k, v)])))) as Hkey.
  { intros key. unfold keyed. destruct (fst (sm (memberValue m) input)); [exact Hv|]. destruct key; [apply nil_wf|].
    apply thenEach_wf; [exact Hv|]. intros w Hw. apply IH, Forall_app, conj, Forall_singleton; assumption. }
  destruct (dynamicKey m) as [k|]; [|apply Hkey]. apply thenEach_wf; [exact Hk|]. intros w _. apply Hkey.
Qed.

Context (variables : bytes -> option value) (Hvars : forall x v, variables x = Some v -> wf v).

Definition preserves (n : node) : Prop := literals n -> forall v, wf v -> allWf (sem variables n v).

Lemma semIndex_wf l r optional : allWf l -> allWf r -> allWf (semIndex l r optional).
Proof.
  intros Hl Hr. apply thenEach_wf; [exact Hr|]. intros i _. apply thenEach_wf; [exact Hl|]. intros b Hb.
  apply attempt_wf, indexValue_makes, Hb.
Qed.

Lemma semField_wf l k optional : allWf l -> allWf (semField l k optional).
Proof. intros Hl. apply thenEach_wf; [exact Hl|]. intros b Hb. apply attempt_wf, fieldValue_makes, Hb. Qed.

Lemma semSuppress_wf r : allWf r -> allWf (semSuppress r).
Proof. intros Hr. destruct r as [vs [e|]]; [|exact Hr]. cbn. destruct (runtimeErr e); exact Hr. Qed.

Lemma sem_preserves n : preserves n /\ below preserves n.
Proof.
  induction n using node_ind; (split; [|cbn [below]; tauto]); intros Hlit input Hin; cbn [JqSem.sem literals] in *;
    repeat match goal with IH : _ /\ below _ _ |- _ => destruct IH end; try match goal with L : _ /\ _ |- _ => destruct L as [Hl Hr] end.
  - apply yield_wf, Hin.
  - apply yield_wf, Hlit.
  - destruct (variables x) eqn:E; [apply yield_wf, (Hvars _ _ E)|apply nil_wf].
  - apply semField_wf; auto.
  - apply semIndex_wf; auto.
  - apply semIterator_wf; auto.
  - auto.
  - destruct n; try (apply semSuppress_wf; auto); cbn [below literals] in *.
    + apply semField_wf; auto.
    + match goal with Hb : preserves _ /\ preserves _ |- _ => destruct Hb end. apply semIndex_wf; intuition.
    + apply semIterator_wf; auto.
  - apply thenEach_wf; auto.
  - assert (allWf (sem variables n1 input)) as A by auto. assert (allWf (sem variables n2 input)) as B by auto.
    unfold append, allWf in *. destruct (sem variables n1 input) as [vs [e|]]; [exact A|apply Forall_app; auto].
  - apply semAlternative_wf; auto.
  - destruct (_ =s _)%go; [|destruct (_ =s _)%go]; auto using semLogic_wf.
    apply thenEach_wf; [auto|]. intros y Hy. apply thenEach_wf; [auto|]. intros x' Hx. apply one_wf, binary_makes; assumption.
  - apply thenEach_wf; [auto|]. intros v _. apply one_wf, negateNumber_makes.
  - destruct c as [c|]; apply collected_wf; [|constructor]. apply (proj1 H0); assumption.
  - apply literals_object in Hlit. apply objects_wf; [|constructor]. rewrite Forall_forall in *. intros m Hm.
    destruct (H0 m Hm) as [Hk Hv], (Hlit m Hm) as [Lk Lv]. split; [|apply (proj1 Hv); assumption].
    destruct (dynamicKey m); [apply (proj1 Hk); assumption|exact I].
  - apply semCall_wf; [exact Hin|]. destruct c as [c|]; [|exact I]. intros v Hv. apply (proj1 H0); assumption.
Qed.

End Wf.
End JqWf.
