(* ===== verification/JqParseSpec.v ===== *)
(** * The parser of jq filters does what it promises (builtins/jq/parser.go)

    On tokens that end with the end of the filter the parser indexes no token
    that is not there, its fuel is enough, the nodes it counts are those of the
    filter it returns, and the nesting it counts is closed again. *)

From S2P Require Import Prelude GoStd Utf8 JqValue JqString JqParse JqEval JqRetain JqAccounts JqRefine JqObject JqWf.
From stdpp Require Import base list sets strings.
From Stdlib Require Import ZArith Lia Ascii.
#[local] Open Scope Z_scope.

Module JqParseSpec.
Import GoStd JqValue JqString JqLex JqParse JqAccounts JqWf.

(** ** Parser states *)

(** One token at the end of the filter, and it is the last. *)
Definition closed (toks : list token) : Prop :=
  exists ts e, toks = ts ++ [e] /\ tk_kind e = tokenEOF /\ Forall (fun t => tk_kind t <> tokenEOF) ts.

Definition good (p : filterParser) : Prop :=
  closed (tokens p) /\ nodes p <= MaxFilterNodes /\ depth p <= MaxNestingDepth.

(** How many tokens are left. *)
Definition ahead (p : filterParser) : Z := Z.of_nat (length (tokens p)).

(** [d] tokens consumed at least and [k] nodes made. *)
Definition made (d k : Z) (p p' : filterParser) : Prop :=
  good p' /\ ahead p' + d <= ahead p /\ nodes p' = nodes p + k /\ depth p' = depth p.

(** A parser that returns or reports an error. *)
Definition parses {A} (m : P A) (Q : A -> filterParser -> Prop) (p : filterParser) : Prop :=
  match m p with
  | POk a p' => Q a p'
  | PErr _ => True
  | PPanic | PNoFuel => False
  end.

Lemma yieldsP_bind {A B} (m : P A) (f : A -> P B) Q p :
  parses m (fun a p' => parses (f a) Q p') p -> parses (mbind f m) Q p.
Proof. unfold parses, mbind, P_bind. destruct (m p); auto. Qed.

Lemma yieldsP_ret {A} (a : A) (Q : A -> filterParser -> Prop) p : Q a p -> parses (mret a) Q p.
Proof. exact id. Qed.

Lemma yieldsP_mono {A} (m : P A) (Q R : A -> filterParser -> Prop) p :
  parses m Q p -> (forall a p', Q a p' -> R a p') -> parses m R p.
Proof. unfold parses. destruct (m p); auto. Qed.

Lemma parses_fail {A} e (Q : A -> filterParser -> Prop) p : parses (fail e) Q p.
Proof. exact I. Qed.

Ltac pb H := apply yieldsP_bind; eapply yieldsP_mono; [apply H|].

Lemma made_refl p : good p -> made 0 0 p p.
Proof. unfold made. intros Hp. repeat split; try apply Hp; lia. Qed.

Lemma made_trans d1 k1 d2 k2 d k p p1 p2 :
  made d1 k1 p p1 -> made d2 k2 p1 p2 -> d <= d1 + d2 -> k = k1 + k2 -> made d k p p2.
Proof. unfold made. intros (_ & A & B & C) (G & A' & B' & C') ??. repeat split; try apply G; lia. Qed.

(** ** Tokens *)

Lemma good_tokens p : good p -> exists tok rest, tokens p = tok :: rest /\ (tk_kind tok <> tokenEOF -> closed rest).
Proof.
  intros [(ts & e & E & He & Hts) _]. destruct ts as [|t ts]; cbn [app] in E.
  - exists e, []. split; [exact E|congruence].
  - exists t, (ts ++ [e]). split; [exact E|]. intros _. exists ts, e. apply Forall_cons in Hts as [_ Hts]. auto.
Qed.

Lemma peek_parses p : good p -> parses peek (fun tok p' => p' = p /\ head (tokens p) = Some tok) p.
Proof.
  intros Hp. destruct (good_tokens p Hp) as (tok & rest & E & _). unfold parses, peek. rewrite E. auto.
Qed.

Lemma advance_parses p :
  good p -> parses advance (fun tok p' => head (tokens p) = Some tok /\ made (if decide (tk_kind tok = tokenEOF) then 0 else 1) 0 p p') p.
Proof.
  intros Hp. destruct (good_tokens p Hp) as (tok & rest & E & Hr). unfold parses, advance. rewrite E.
  destruct (decide (tk_kind tok = tokenEOF)) as [He|He]; (split; [reflexivity|]).
  - rewrite decide_True by exact He. apply made_refl, Hp.
  - rewrite decide_False by exact He. destruct Hp as (_ & Hn & Hd). unfold made, good, ahead. cbn [tokens nodes depth].
    rewrite E. cbn [length]. repeat split; auto; lia.
Qed.

Lemma accept_parses k p :
  good p -> k <> tokenEOF -> parses (accept k) (fun b p' => if b : bool then made 1 0 p p' else p' = p) p.
Proof.
  intros Hp Hk. unfold accept. pb (peek_parses p Hp). intros tok p1 [-> Ht].
  destruct (decide (tk_kind tok = k)) as [E|]; [|apply yieldsP_ret; reflexivity].
  pb (advance_parses p Hp). intros tok' p2 [Ht' Hm]. apply yieldsP_ret. rewrite Ht in Ht'. injection Ht' as <-.
  rewrite decide_False in Hm by congruence. exact Hm.
Qed.

Lemma unexpected_parses {A} what (Q : A -> filterParser -> Prop) p : good p -> parses (unexpected what) Q p.
Proof. intros Hp. unfold unexpected. pb (peek_parses p Hp). intros tok p1 _. apply parses_fail. Qed.

Lemma expect_parses k what p : good p -> k <> tokenEOF -> parses (expect k what) (fun _ p' => made 1 0 p p') p.
Proof.
  intros Hp Hk. unfold expect. pb (accept_parses k p Hp Hk). intros [] p1 H1; [apply yieldsP_ret, H1|].
  rewrite H1. apply unexpected_parses, Hp.
Qed.

Lemma makeNode_parses n p : good p -> parses (makeNode n) (fun n' p' => n' = n /\ made 0 1 p p') p.
Proof.
  intros Hp. unfold parses, makeNode. destruct (Z.ltb_spec MaxFilterNodes (nodes p + 1)); [exact I|].
  split; [reflexivity|]. destruct Hp as (Hc & Hn & Hd). unfold made, good, ahead; cbn [tokens nodes depth]. repeat split; auto; lia.
Qed.

(** ** Loops *)

Section Loops.
Context `{FloatText}.

(** A node is made of the tokens consumed, and its literals are well-formed. *)
Definition built (p : filterParser) (n : node) (p' : filterParser) : Prop := made 1 (nodeCount n) p p' /\ literals n.

(** The parser of an operand, with at most [L] tokens left. *)
Definition operand (L : Z) (m : P node) : Prop := forall p, good p -> ahead p <= L -> parses m (built p) p.

(** A binary node of two operands. *)
Definition joins (mk : node -> node -> node) : Prop :=
  forall l r, nodeCount (mk l r) = 1 + nodeCount l + nodeCount r /\ (literals l -> literals r -> literals (mk l r)).

Definition operator (op : token -> option (node -> node -> node)) : Prop :=
  forall tok mk, op tok = Some mk -> tk_kind tok <> tokenEOF /\ joins mk.

Lemma leftLoop_parses L op m : operator op -> operand L m -> forall fuel left p,
  good p -> ahead p <= L -> ahead p <= Z.of_nat fuel -> literals left ->
  parses (leftLoop fuel op m left) (fun n p' => made 0 (nodeCount n - nodeCount left) p p' /\ literals n) p.
Proof.
  intros Hop Hm. induction fuel as [|fuel IH]; intros left p Hp HL Hf Hl; cbn [leftLoop];
    (pb (peek_parses p Hp); intros tok p1 [-> Ht]; destruct (op tok) as [mk|] eqn:Eo;
      [|apply yieldsP_ret; rewrite Z.sub_diag; split; [apply made_refl, Hp|exact Hl]]).
  { destruct (good_tokens p Hp) as (t & rest & E & _). unfold ahead in Hf. rewrite E in Hf. cbn [length] in Hf. lia. }
  destruct (Hop _ _ Eo) as [He Hj]. pb (advance_parses p Hp). intros tok' p2 [Ht' M2]. rewrite Ht in Ht'. injection Ht' as <-.
  rewrite decide_False in M2 by exact He. pb Hm; [apply M2|destruct M2; lia|]. intros r p3 [M3 Lr].
  pb makeNode_parses; [apply M3|]. intros n p4 [-> M4]. destruct (Hj left r) as [Hc Hlit].
  assert (made 2 (nodeCount (mk left r) - nodeCount left) p p4) as M.
  { eapply made_trans; [exact M2|eapply made_trans; [exact M3|exact M4| |reflexivity]| |]; [reflexivity|lia|lia]. }
  eapply yieldsP_mono; [apply IH|]; [apply M|destruct M; lia|destruct M; lia|auto|].
  intros n p5 [M5 Ln]. split; [|exact Ln]. eapply made_trans; [exact M|exact M5|lia|lia].
Qed.

Lemma leftAssoc_parses L op m : operator op -> operand L m -> operand L (leftAssoc op m).
Proof.
  intros Hop Hm p Hp HL. unfold leftAssoc. pb Hm; [exact Hp|exact HL|]. intros left p1 [M1 Ll].
  unfold parses, withTokens. change (parses (leftLoop (length (tokens p1)) op m left) (built p) p1).
  eapply yieldsP_mono; [apply (leftLoop_parses L); auto; [apply M1|destruct M1; lia|unfold ahead; lia]|].
  intros n p2 [M2 Ln]. split; [|exact Ln]. eapply made_trans; [exact M1|exact M2|lia|lia].
Qed.

Definition nodesCount (ns : list node) : Z := foldr (fun n k => nodeCount n + k) 0 ns.

Lemma operandsLoop_parses L k m : k <> tokenEOF -> operand L m -> forall fuel p,
  good p -> ahead p <= L -> ahead p <= Z.of_nat fuel ->
  parses (operandsLoop fuel k m) (fun ns p' => made 0 (nodesCount ns) p p' /\ Forall literals ns) p.
Proof.
  intros Hk Hm. induction fuel as [|fuel IH]; intros p Hp HL Hf; cbn [operandsLoop];
    (pb (accept_parses k p Hp Hk); intros [] p1 H1; [|apply yieldsP_ret; rewrite H1; split; [apply made_refl, Hp|constructor]]).
  { destruct H1 as (_ & H1 & _). unfold ahead in *. lia. }
  pb Hm; [apply H1|destruct H1; lia|]. intros n p2 [M2 Ln].
  assert (made 2 (nodeCount n) p p2) as M by (eapply made_trans; [exact H1|exact M2|lia|lia]).
  pb IH; [apply M|destruct M; lia|destruct M; lia|]. intros ns p3 [M3 Lns]. apply yieldsP_ret. split; [|constructor; assumption].
  eapply made_trans; [exact M|exact M3|lia|reflexivity].
Qed.

Lemma rightNodes_parses mk first rest p :
  joins mk -> good p -> literals first -> Forall literals rest ->
  parses (rightNodes mk first rest)
    (fun n p' => made 0 (nodeCount n - nodeCount first - nodesCount rest) p p' /\ literals n) p.
Proof.
  intros Hj. revert first p. induction rest as [|n rest IH]; intros first p Hp Hf Hr; cbn [rightNodes].
  - apply yieldsP_ret. cbn [nodesCount foldr]. replace (nodeCount first - nodeCount first - 0) with 0 by lia.
    split; [apply made_refl, Hp|exact Hf].
  - apply Forall_cons in Hr as [Hn Hr]. pb IH; [exact Hp|exact Hn|exact Hr|]. intros r p1 [M1 Lr].
    eapply yieldsP_mono; [apply makeNode_parses, M1|]. intros n' p2 [-> M2]. destruct (Hj first r) as [Hc Hl].
    split; [|auto]. eapply made_trans; [exact M1|exact M2|lia|]. cbn [nodesCount foldr]. unfold nodesCount. lia.
Qed.

Lemma rightAssoc_parses L k mk m : k <> tokenEOF -> joins mk -> operand L m -> operand L (rightAssoc k mk m).
Proof.
  intros Hk Hj Hm p Hp HL. unfold rightAssoc. pb Hm; [exact Hp|exact HL|]. intros first p1 [M1 Lf].
  apply yieldsP_bind. unfold parses at 1, withTokens.
  change (parses (operandsLoop (length (tokens p1)) k m) (fun rest p' => parses (rightNodes mk first rest) (built p) p') p1).
  eapply yieldsP_mono; [apply (operandsLoop_parses L); auto; [apply M1|destruct M1; lia|unfold ahead; lia]|].
  intros ns p2 [M2 Lns]. eapply yieldsP_mono; [apply rightNodes_parses; auto; apply M2|]. intros n p3 [M3 Ln].
  split; [|exact Ln]. pose proof (made_trans _ _ _ _ 1 _ _ _ _ M1 M2 ltac:(lia) eq_refl) as M12.
  eapply made_trans; [exact M12|exact M3|lia|lia].
Qed.

(** ** One level of precedence *)

Section Level.
Context (L : Z) (rec : goal -> P node) (Hrec : forall g, operand L (rec g)).

Lemma nested_parses p : good p -> ahead p <= L -> parses (nested rec) (built p) p.
Proof.
  intros Hp HL. unfold nested, parses, mbind, P_bind, enter, leave. destruct (Z.ltb_spec MaxNestingDepth (depth p + 1)); [exact I|].
  set (p1 := mkParser (tokens p) (nodes p) (depth p + 1)).
  assert (good p1) as G1 by (unfold good in *; cbn [tokens nodes depth p1]; intuition lia).
  pose proof (Hrec GPipe p1 G1 HL) as Hr. unfold parses in Hr. destruct (rec GPipe p1) as [n p2| | |]; try exact Hr.
  destruct Hr as [(G & A & B & C) Ln]. split; [|exact Ln]. unfold made, good, ahead in *. cbn [tokens nodes depth p1] in *. intuition lia.
Qed.

(** Chain what was consumed and made. *)
Ltac chain :=
  repeat match goal with
  | M : built _ _ _ |- _ => destruct M as [M ?]
  | M : made _ _ _ _ |- _ => let G := fresh in destruct M as (G & ? & ? & ?)
  end;
  unfold made; (split; [assumption|split; [lia|split; [|lia]]]);
  unfold memberCount, optionCount, nodeCount in *; cbn [walkNodes length dynamicKey memberValue] in *;
  rewrite ?length_app in *; lia.

Ltac built :=
  repeat match goal with M : built _ _ _ |- _ => destruct M as [M ?] end;
  split; [chain|cbn [literals foldr]; auto].

(** The state is good and few tokens are left. *)
Ltac ready := match goal with
  | M : made _ _ _ ?p |- good ?p => apply M
  | M : built _ _ ?p |- good ?p => apply M
  | _ => repeat match goal with
         | M : built _ _ _ |- _ => destruct M as [M _]
         | M : made _ _ _ _ |- _ => destruct M as (_ & ? & _)
         end; lia
  end.

Lemma leaf_parses n p :
  good p -> nodeCount n = 1 -> literals n -> parses (makeNode n) (fun n p' => made 0 (nodeCount n) p p' /\ literals n) p.
Proof.
  intros Hp Hn Hl. eapply yieldsP_mono; [apply makeNode_parses, Hp|]. intros n' p' [-> M]. split; [rewrite Hn; exact M|exact Hl].
Qed.

Lemma literal_parses v p : good p -> makes v -> parses (literal v) (fun n p' => made 0 (nodeCount n) p p' /\ literals n) p.
Proof. intros Hp Hv. destruct v as [e|v]; [exact I|]. apply leaf_parses; [exact Hp|reflexivity|exact (Hv _ eq_refl)]. Qed.

Lemma parseIdentifier_parses tok p :
  good p -> ahead p <= L -> parses (parseIdentifier rec tok) (fun n p' => made 0 (nodeCount n) p p' /\ literals n) p.
Proof.
  intros Hp HL. unfold parseIdentifier. do 4 (destruct (_ =s _)%go || destruct (str_in _ _); [apply leaf_parses; [exact Hp|reflexivity|exact I]|]).
  destruct (str_in _ _); [|exact I]. pb (expect_parses tokenLeftParen); [exact Hp|discriminate|]. intros [] p1 M1.
  pb nested_parses; [ready|ready|]. intros c p2 M2. pb (expect_parses tokenRightParen); [ready|discriminate|]. intros [] p3 M3.
  eapply yieldsP_mono; [apply makeNode_parses; ready|]. intros n p4 [-> M4]. built.
Qed.

Lemma parseArray_parses p :
  good p -> ahead p <= L -> parses (parseArray rec) (fun n p' => made 0 (nodeCount n) p p' /\ literals n) p.
Proof.
  intros Hp HL. unfold parseArray. pb (accept_parses tokenRightBracket); [exact Hp|discriminate|]. intros [] p1 M1.
  - eapply yieldsP_mono; [apply makeNode_parses; ready|]. intros n p2 [-> M2]. built.
  - subst p1. pb nested_parses; [exact Hp|exact HL|]. intros c p2 M2. pb (expect_parses tokenRightBracket); [ready|discriminate|].
    intros [] p3 M3. eapply yieldsP_mono; [apply makeNode_parses; ready|]. intros n p4 [-> M4]. built.
Qed.

(** A member of an object. *)
Definition builtMember (p : filterParser) (m : objectMember) (p' : filterParser) : Prop :=
  made 1 (memberCount m) p p' /\ onMember literals m.

Lemma parseObjectMember_parses p : good p -> ahead p <= L + 1 -> parses (parseObjectMember rec) (builtMember p) p.
Proof.
  intros Hp HL. unfold parseObjectMember. pb advance_parses; [exact Hp|]. intros tok p1 [_ M1].
  destruct (decide (tk_kind tok = tokenEOF)) as [E|E]; [rewrite E; exact I|].
  assert (parses (colon ← accept tokenColon;
                  if colon : bool then v ← rec GValue; mret (mkMember (tk_text tok) None v)
                  else identity ← makeNode NIdentity; field ← makeNode (NField identity (tk_text tok)); mret (mkMember (tk_text tok) None field))
            (builtMember p) p1) as Hname.
  { pb (accept_parses tokenColon); [ready|discriminate|]. intros [] p2 M2.
    - pb Hrec; [ready|ready|]. intros v p3 M3. apply yieldsP_ret. destruct M3 as [M3 Lv]. split; [chain|split; [exact I|exact Lv]].
    - subst p2. pb makeNode_parses; [ready|]. intros i p2 [-> M2]. pb makeNode_parses; [ready|]. intros f p3 [-> M3].
      apply yieldsP_ret. split; [chain|split; exact I]. }
  destruct (tk_kind tok); try exact I; try exact Hname; clear Hname E.
  - pb makeNode_parses; [ready|]. intros v p2 [-> M2]. pb (accept_parses tokenColon); [ready|discriminate|]. intros [] p3 M3.
    + pb Hrec; [ready|ready|]. intros w p4 M4. apply yieldsP_ret. destruct M4 as [M4 Lw]. split; [chain|split; [exact I|exact Lw]].
    + subst p3. apply yieldsP_ret. split; [chain|split; exact I].
  - pb Hrec; [ready|ready|]. intros k p2 [M2 Lk]. pb (expect_parses tokenRightParen); [ready|discriminate|]. intros [] p3 M3.
    pb (expect_parses tokenColon); [ready|discriminate|]. intros [] p4 M4. pb Hrec; [ready|ready|]. intros v p5 [M5 Lv].
    apply yieldsP_ret. split; [chain|split; [exact Lk|exact Lv]].
Qed.

Lemma membersCount_snoc ms m : membersCount (ms ++ [m]) = membersCount ms + memberCount m.
Proof. unfold membersCount. induction ms as [|x ms IH]; cbn [app foldr]; lia. Qed.

Lemma membersLoop_parses fuel ms p :
  good p -> ahead p <= L + 1 -> ahead p <= Z.of_nat fuel + 1 -> Forall (onMember literals) ms ->
  parses (membersLoop rec fuel ms) (fun ms' p' => made 1 (membersCount ms' - membersCount ms) p p' /\ Forall (onMember literals) ms') p.
Proof.
  revert ms p. induction fuel as [|fuel IH]; intros ms p Hp HL Hf Hms; cbn [membersLoop];
    (pb parseObjectMember_parses; [exact Hp|exact HL|]; intros m p1 [M1 Lm];
     assert (Forall (onMember literals) (ms ++ [m])) as Hms' by (apply Forall_app, conj, Forall_singleton; assumption);
     pose proof (membersCount_snoc ms m) as Hc;
     pb (accept_parses tokenRightBrace); [ready|discriminate|]; intros [] p2 M2;
     [apply yieldsP_ret; split; [eapply made_trans; [exact M1|exact M2|lia|lia]|exact Hms']|];
     subst p2; pb (expect_parses tokenComma); [ready|discriminate|]; intros [] p3 M3;
     pb (accept_parses tokenRightBrace); [ready|discriminate|]; intros [] p4 M4;
     [apply yieldsP_ret; split; [|exact Hms'];
      eapply made_trans; [exact M1|eapply (made_trans _ _ _ _ 0); [exact M3|exact M4|lia|reflexivity]|lia|lia]|];
     subst p4).
  - destruct M1 as (_ & A1 & _), M3 as ((Hcl & _) & A3 & _). destruct Hcl as (ts & e & E & _).
    unfold ahead in *. rewrite E, length_app in A3. cbn [length] in A3. lia.
  - eapply yieldsP_mono; [apply IH; [ready|ready|ready|exact Hms']|]. intros ms' p4 [M4 L4]. split; [|exact L4].
    eapply made_trans; [exact M1|eapply (made_trans _ _ _ _ 0); [exact M3|exact M4|lia|reflexivity]|lia|lia].
Qed.

(** A state within the brackets, and after them. *)
Lemma made_leave d k p p1 p2 :
  good p -> ahead p1 = ahead p -> nodes p1 = nodes p -> depth p1 = depth p + 1 -> made d k p1 p2 ->
  depth p2 = depth p + 1 /\ made d k p (mkParser (tokens p2) (nodes p2) (depth p)).
Proof.
  intros (_ & _ & Hd) Ha Hn Hd1 ((Hc & Hn2 & _) & A & B & C). unfold made, good, ahead in *. cbn [tokens nodes depth]. intuition lia.
Qed.

Lemma parseObject_parses p :
  good p -> ahead p <= L -> parses (parseObject rec) (fun n p' => made 0 (nodeCount n) p p' /\ literals n) p.
Proof.
  intros Hp HL. unfold parseObject. pb (accept_parses tokenRightBrace); [exact Hp|discriminate|]. intros [] p1 M1.
  - eapply yieldsP_mono; [apply makeNode_parses; ready|]. intros n p2 [-> M2]. built.
  - subst p1. apply yieldsP_bind. unfold enter at 1, parses at 1. destruct (Z.ltb_spec MaxNestingDepth (depth p + 1)); [exact I|].
    set (p1 := mkParser (tokens p) (nodes p) (depth p + 1)).
    assert (good p1) as G1 by (unfold good in *; cbn [tokens nodes depth p1]; intuition lia).
    apply yieldsP_bind. unfold parses at 1, withTokens.
    change (parses (membersLoop rec (length (tokens p1)) []) (fun ms p' => parses (n ← makeNode (NObject ms); leave;; mret n)
              (fun n p' => made 0 (nodeCount n) p p' /\ literals n) p') p1).
    eapply yieldsP_mono; [apply membersLoop_parses; [exact G1| | |constructor]; unfold ahead in *; cbn [tokens p1]; lia|].
    intros ms p2 [M2 Lms]. pb makeNode_parses; [apply M2|]. intros n p3 [-> M3].
    pose proof (made_trans _ _ _ _ 1 (1 + membersCount ms) _ _ _ M2 M3 ltac:(lia)) as M. cbn [membersCount foldr] in M.
    destruct (made_leave 1 (1 + membersCount ms) p p1 p3 Hp eq_refl eq_refl eq_refl) as [D M']; [apply M; unfold membersCount; lia|].
    apply yieldsP_bind. unfold leave, parses at 1. replace (depth p3 - 1) with (depth p) by lia. apply yieldsP_ret.
    rewrite nodeCount_object. split; [|apply literals_object, Lms]. eapply made_trans; [apply made_refl, Hp|exact M'|lia|lia].
Qed.

Lemma parsePrimary_gives : operand (L + 1) (parsePrimary rec).
Proof.
  intros p Hp HL. unfold parsePrimary. pb advance_parses; [exact Hp|]. intros tok p1 [_ M1].
  destruct (decide (tk_kind tok = tokenEOF)) as [E|E]; [rewrite E; exact I|].
  assert (forall m, parses m (fun n p' => made 0 (nodeCount n) p1 p' /\ literals n) p1 -> parses m (built p) p1) as Hmade.
  { intros m Hm. eapply yieldsP_mono; [exact Hm|]. intros n p2 [M2 Ln]. split; [|exact Ln]. eapply made_trans; [exact M1|exact M2|lia|lia]. }
  assert (good p1 /\ ahead p1 <= L) as [G1 HL1] by (split; ready).
  destruct (tk_kind tok); try exact I; try apply Hmade.
  - pb makeNode_parses; [exact G1|]. intros b p2 [-> M2]. pb peek_parses; [ready|]. intros f p3 [-> Hf].
    destruct (isFieldAfterDot tok f) eqn:Ef; [|apply yieldsP_ret; built].
    pb advance_parses; [ready|]. intros f' p3 [_ M3].
    eapply yieldsP_mono; [apply makeNode_parses; apply M3|]. intros n p4 [-> M4]. destruct (decide _); built.
  - apply parseIdentifier_parses; assumption.
  - apply leaf_parses; [exact G1|reflexivity|exact I].
  - apply literal_parses; [exact G1|apply parseNumber_makes].
  - apply literal_parses; [exact G1|apply stringValue_makes].
  - pb nested_parses; [exact G1|exact HL1|]. intros c p2 M2. pb (expect_parses tokenRightParen); [ready|discriminate|].
    intros [] p3 M3. eapply yieldsP_mono; [apply makeNode_parses; ready|]. intros n p4 [-> M4]. built.
  - apply parseArray_parses; assumption.
  - apply parseObject_parses; assumption.
Qed.

(** A suffix consumes a token. *)
Lemma suffix_parses base p :
  good p -> ahead p <= L + 1 -> literals base ->
  parses (suffix rec base) (fun o p' =>
    match o with
    | Some n => made 1 (nodeCount n - nodeCount base) p p' /\ literals n
    | None => p' = p
    end) p.
Proof.
  intros Hp HL Lb. unfold suffix. pb peek_parses; [exact Hp|]. intros tok p1 [-> Ht].
  assert (tk_kind tok <> tokenEOF -> forall (f : token -> P (option node)) Q,
            (forall p1, made 1 0 p p1 -> parses (f tok) Q p1) -> parses (t ← advance; f t) Q p) as Hadv.
  { intros He f Q Hf. pb advance_parses; [exact Hp|]. intros t p1 [Ht' M]. rewrite Ht in Ht'. injection Ht' as <-.
    rewrite decide_False in M by exact He. apply Hf, M. }
  destruct (tk_kind tok) eqn:Ek; try (apply yieldsP_ret; reflexivity); apply Hadv; try discriminate; clear Hadv; intros p1 M1.
  - pb peek_parses; [ready|]. intros f p2 [-> Hf]. destruct (decide (tk_kind f = tokenLeftBracket)) as [Hb|Hb].
    + apply yieldsP_ret. rewrite Z.sub_diag. split; [exact M1|exact Lb].
    + destruct (negb _); [apply unexpected_parses; ready|]. pb advance_parses; [ready|]. intros f' p2 [_ M2].
      pb makeNode_parses; [apply M2|]. intros n p3 [-> M3]. apply yieldsP_ret. destruct (decide _); built.
  - pb (accept_parses tokenRightBracket); [ready|discriminate|]. intros [] p2 M2.
    + pb makeNode_parses; [ready|]. intros n p3 [-> M3]. apply yieldsP_ret. built.
    + subst p2. pb nested_parses; [ready|ready|]. intros i p2 M2. pb (expect_parses tokenRightBracket); [ready|discriminate|].
      intros [] p3 M3. pb makeNode_parses; [ready|]. intros n p4 [-> M4]. apply yieldsP_ret. built.
  - pb makeNode_parses; [ready|]. intros n p2 [-> M2]. apply yieldsP_ret. built.
Qed.

Lemma postfixLoop_parses fuel base p :
  good p -> ahead p <= L + 1 -> ahead p <= Z.of_nat fuel -> literals base ->
  parses (postfixLoop rec fuel base) (fun n p' => made 0 (nodeCount n - nodeCount base) p p' /\ literals n) p.
Proof.
  revert base p. induction fuel as [|fuel IH]; intros base p Hp HL Hf Lb; cbn [postfixLoop];
    (pb suffix_parses; [exact Hp|exact HL|exact Lb|]; intros [n|] p1 M1;
     [|apply yieldsP_ret; subst p1; rewrite Z.sub_diag; split; [apply made_refl, Hp|exact Lb]]); destruct M1 as [M1 Ln].
  - destruct M1 as (_ & A & _). unfold ahead in *. lia.
  - eapply yieldsP_mono; [apply IH; [ready|ready|ready|exact Ln]|]. intros n' p2 [M2 Ln']. split; [|exact Ln'].
    eapply made_trans; [exact M1|exact M2|lia|lia].
Qed.

Lemma parsePostfix_parses : operand (L + 1) (parsePostfix rec).
Proof.
  intros p Hp HL. unfold parsePostfix. pb parsePrimary_gives; [exact Hp|exact HL|]. intros base p1 [M1 Lb].
  unfold parses, withTokens. change (parses (postfixLoop rec (length (tokens p1)) base) (built p) p1).
  eapply yieldsP_mono; [apply postfixLoop_parses; [ready|ready|unfold ahead; lia|exact Lb]|]. intros n p2 [M2 Ln]. split; [|exact Ln].
  eapply made_trans; [exact M1|exact M2|lia|lia].
Qed.

Lemma parseUnary_parses : operand (L + 1) (parseUnary rec).
Proof.
  intros p Hp HL. unfold parseUnary. pb (accept_parses tokenMinus); [exact Hp|discriminate|]. intros [] p1 M1.
  - apply yieldsP_bind. unfold enter at 1, parses at 1. destruct (Z.ltb_spec MaxNestingDepth (depth p1 + 1)); [exact I|].
    set (p2 := mkParser (tokens p1) (nodes p1) (depth p1 + 1)).
    assert (good p2) as G2 by (destruct M1 as (G1 & _); unfold good in *; cbn [tokens nodes depth p2]; intuition lia).
    pb Hrec; [exact G2|destruct M1 as (_ & A & _); unfold ahead in *; cbn [tokens p2]; lia|]. intros c p3 [M3 Lc].
    pb makeNode_parses; [apply M3|]. intros n p4 [-> M4].
    pose proof (made_trans _ _ _ _ 1 (nodeCount (NNegate c)) _ _ _ M3 M4 ltac:(lia)) as M.
    destruct (made_leave 1 (nodeCount (NNegate c)) p1 p2 p4) as [D M']; [apply M1|reflexivity..|apply M; count|].
    apply yieldsP_bind. unfold leave, parses at 1. replace (depth p4 - 1) with (depth p1) by lia. apply yieldsP_ret.
    split; [|exact Lc]. eapply made_trans; [exact M1|exact M'|lia|lia].
  - subst p1. apply parsePostfix_parses; assumption.
Qed.

(** *** The levels *)

Ltac joined := intros l r; split; [unfold nodeCount; cbn [walkNodes length]; rewrite length_app; lia|split; assumption].

Lemma binary_operator ks : tokenEOF ∉ ks -> operator (binaryOf ks).
Proof.
  intros Hks tok mk. unfold binaryOf. destruct (bool_decide_reflect (tk_kind tok ∈ ks)); [|discriminate].
  intros [= <-]. split; [congruence|joined].
Qed.

Lemma word_operator w : operator (wordOf w).
Proof.
  intros tok mk. unfold wordOf, word. destruct (bool_decide_reflect (tk_kind tok = tokenIdentifier)) as [E|]; [|discriminate].
  destruct (_ =s _)%go; [|discriminate]. intros [= <-]. split; [congruence|joined].
Qed.

Lemma parseAdditive_parses : operand (L + 1) (parseAdditive rec).
Proof.
  apply leftAssoc_parses; [apply binary_operator; set_solver|]. apply leftAssoc_parses; [apply binary_operator; set_solver|].
  exact parseUnary_parses.
Qed.

Lemma parseComparison_parses : operand (L + 1) (parseComparison rec).
Proof.
  intros p Hp HL. unfold parseComparison. pb parseAdditive_parses; [exact Hp|exact HL|]. intros l p1 M1.
  pb peek_parses; [ready|]. intros tok p2 [-> Ht]. destruct (isComparison (tk_kind tok)); cbn [negb]; [|apply yieldsP_ret, M1].
  pb advance_parses; [ready|]. intros op p2 [_ M2]. assert (ahead p2 <= ahead p1) as Ha by (destruct M2 as (_ & A & _); destruct (decide _); lia).
  pb parseAdditive_parses; [apply M2|destruct M1 as [(_ & A & _) _]; lia|]. intros r p3 M3. pb peek_parses; [ready|]. intros tok' p4 [-> _].
  destruct (isComparison _); [exact I|]. eapply yieldsP_mono; [apply makeNode_parses; ready|]. intros n p4 [-> M4].
  destruct (decide _); built.
Qed.

Lemma parseAlternative_parses : operand (L + 1) (parseAlternative rec).
Proof.
  apply rightAssoc_parses; [discriminate|joined|]. apply leftAssoc_parses; [apply word_operator|].
  apply leftAssoc_parses; [apply word_operator|exact parseComparison_parses].
Qed.

Lemma parsePipe_parses : operand (L + 1) (parsePipe rec).
Proof.
  apply rightAssoc_parses; [discriminate|joined|]. apply leftAssoc_parses; [|exact parseAlternative_parses].
  intros tok mk. destruct (bool_decide_reflect (tk_kind tok = tokenComma)) as [E|]; [|discriminate].
  intros [= <-]. split; [congruence|joined].
Qed.

Lemma parseObjectValue_parses : operand (L + 1) (parseObjectValue rec).
Proof.
  intros p Hp HL. unfold parseObjectValue. pb parseAlternative_parses; [exact Hp|exact HL|]. intros l p1 M1.
  pb (accept_parses tokenPipe); [ready|discriminate|]. intros [] p2 M2; [|subst p2; apply yieldsP_ret, M1].
  pb Hrec; [ready|ready|]. intros r p3 M3. eapply yieldsP_mono; [apply makeNode_parses; ready|]. intros n p4 [-> M4]. built.
Qed.

Lemma level_parses g : operand (L + 1) (level rec g).
Proof. destruct g; [exact parsePipe_parses|exact parseUnary_parses|exact parseObjectValue_parses]. Qed.
End Level.

Lemma parseFuel_parses fuel g : operand (Z.of_nat fuel) (parseFuel fuel g).
Proof.
  revert g. induction fuel as [|fuel IH]; intros g.
  - intros p Hp HL. destruct (good_tokens p Hp) as (t & rest & E & _). unfold ahead in HL. rewrite E in HL. cbn [length] in HL. lia.
  - cbn [parseFuel]. replace (Z.of_nat (S fuel)) with (Z.of_nat fuel + 1) by lia. apply level_parses, IH.
Qed.

Lemma parseTokens_parses toks :
  closed toks -> match parseTokens toks with
                 | POk n p => nodes p = nodeCount n /\ nodeCount n <= MaxFilterNodes /\ depth p = 0 /\ literals n
                 | PErr _ => True
                 | PPanic | PNoFuel => False
                 end.
Proof.
  intros Hc. unfold parseTokens.
  match goal with |- match ?m ?q with _ => _ end => change (parses m (fun n p => nodes p = nodeCount n /\ nodeCount n <= MaxFilterNodes /\ depth p = 0 /\ literals n) q) end.
  set (p0 := mkParser toks 0 0). assert (good p0) as G0 by (split; [exact Hc|split; discriminate]).
  pb parseFuel_parses; [exact G0|unfold ahead; cbn [tokens p0]; lia|]. intros n p1 [M1 Ln].
  pb peek_parses; [apply M1|]. intros tok p2 [-> _]. destruct (decide _); [|apply unexpected_parses, M1].
  apply yieldsP_ret. destruct M1 as ((_ & Hn & _) & _ & B & C). cbn [nodes depth p0] in *. split; [lia|split; [lia|split; [lia|exact Ln]]].
Qed.
End Loops.
(** ** The tokens of a filter *)

Local Open Scope nat_scope.

(** A token that takes [k] bytes, which it is not the end of. *)
Definition lexes (s : bytes) (pos : nat) (r : lexErr + token * bytes * nat) : Prop :=
  match r with
  | inl _ => True
  | inr (tok, rest, pos') => tk_kind tok <> tokenEOF /\ exists k, 0 < k /\ rest = drop k s /\ pos' = pos + k
  end.

Lemma single_lexes k c s pos : k <> tokenEOF -> lexes (c :: s) pos (single k c s pos).
Proof. intros Hk. split; [exact Hk|]. exists 1. split; [lia|split; [reflexivity|lia]]. Qed.

Lemma double_lexes k t c s pos : k <> tokenEOF -> lexes (c :: s) pos (double k t s pos).
Proof. intros Hk. split; [exact Hk|]. exists 2. split; [lia|split; [reflexivity|reflexivity]]. Qed.

Lemma number_lexes c s pos : (isDigit c = true \/ (Ascii.eqb c "."%char = true)) -> lexes (c :: s) pos (number (c :: s) pos).
Proof.
  intros Hc. unfold number. destruct (numberLength (c :: s)) as [n|] eqn:E; [|exact I]. split; [discriminate|].
  exists n. split; [|split; reflexivity]. unfold numberLength in E. cbn [at_] in E.
  assert (0 < (if Ascii.eqb c "."%char then 1 else 0) + digits (drop (if Ascii.eqb c "."%char then 1 else 0) (c :: s))) as Hpos.
  { destruct (Ascii.eqb c "."%char) eqn:Ed; [lia|]. destruct Hc as [Hc|]; [|discriminate]. cbn [drop]. unfold digits. cbn [run_length].
    rewrite Hc. lia. }
  revert E Hpos. generalize ((if Ascii.eqb c "."%char then 1 else 0) + digits (drop (if Ascii.eqb c "."%char then 1 else 0) (c :: s))) as m.
  intros m E Hpos.
  assert (0 < (if negb (Ascii.eqb c "."%char) && at_ (drop m (c :: s)) "." then S m + digits (drop (S m) (c :: s)) else m)) as Hpos'
    by (destruct (_ && _); lia).
  revert E Hpos'. generalize (if negb (Ascii.eqb c "."%char) && at_ (drop m (c :: s)) "." then S m + digits (drop (S m) (c :: s)) else m) as j.
  intros j E Hj. destruct (_ || _) in E; [|injection E as <-; exact Hj].
  destruct (atDigit _) in E; [|discriminate]. injection E as <-. destruct (_ || _); lia.
Qed.

Lemma stringToken_lexes c s pos : lexes (c :: s) pos (stringToken s pos).
Proof.
  unfold stringToken. destruct (stringLength s) as [n|]; [|exact I]. destruct (negb _); [exact I|].
  destruct (Unmarshal _); [|exact I]. split; [discriminate|]. exists (S n). split; [lia|split; [reflexivity|reflexivity]].
Qed.

Lemma word_lexes k c s n pos t : k <> tokenEOF -> lexes (c :: s) pos (inr (mkToken k t pos, drop n s, pos + S n)).
Proof. intros Hk. split; [exact Hk|]. exists (S n). split; [lia|split; [reflexivity|reflexivity]]. Qed.

Lemma nextAt_lexes c s pos : lexes (c :: s) pos (nextAt c s pos).
Proof.
  unfold nextAt.
  repeat match goal with
  | |- lexes _ _ (if Ascii.eqb c "."%char then _ else _) => destruct (Ascii.eqb c "."%char) eqn:Hdot
  | |- lexes _ _ (if isDigit c then _ else _) => destruct (isDigit c) eqn:Hdig
  | |- lexes _ _ (if ?b then _ else _) => destruct b
  end; first [exact I | apply single_lexes; discriminate | apply double_lexes; discriminate | apply number_lexes; auto
             | apply stringToken_lexes | apply word_lexes; discriminate | idtac].
  destruct s as [|x s]; [exact I|]. destruct (isIdentifierStart x); [apply word_lexes; discriminate|exact I].
Qed.

(** The next token, or the end of the input. *)
Lemma next_lexes s pos :
  match next s pos with
  | inl _ => True
  | inr (tok, rest, pos') =>
      (tk_kind tok = tokenEOF \/ (tk_kind tok <> tokenEOF /\ length rest < length s)) /\
      exists k, rest = drop k s /\ pos' = pos + k
  end.
Proof.
  unfold next. set (k := run_length isFilterSpace s). destruct (drop k s) as [|c t] eqn:E.
  - split; [left; reflexivity|]. exists k. auto.
  - pose proof (nextAt_lexes c t (pos + k)) as Hl. destruct (nextAt c t (pos + k)) as [e|[[tok rest] pos']]; [exact I|].
    destruct Hl as (Hk & n & Hn & -> & ->). rewrite <- E, drop_drop. split; [|exists (k + n); split; [reflexivity|lia]].
    right. split; [exact Hk|]. rewrite length_drop. assert (length (drop k s) <> 0) as Hs by (rewrite E; discriminate).
    rewrite length_drop in Hs. lia.
Qed.

(** The fuel is enough, and the end is the last token. *)
Lemma lexFuel_closed fuel s pos :
  length s < fuel -> exists r, lexFuel fuel s pos = Some r /\ match r with inr toks => closed toks | inl _ => True end.
Proof.
  revert s pos. induction fuel as [|fuel IH]; intros s pos Hf; [lia|]. cbn [lexFuel].
  pose proof (next_lexes s pos) as Hn. destruct (next s pos) as [e|[[tok rest] pos']]; [eexists; split; [reflexivity|exact I]|].
  destruct (decide (tk_kind tok = tokenEOF)) as [E|E].
  - eexists. split; [reflexivity|]. exists [], tok. auto.
  - destruct Hn as [[?|[_ Hl]] _]; [contradiction|]. destruct (IH rest pos') as (r & Hr & Hc); [lia|]. rewrite Hr.
    destruct r as [e|toks]; [eexists; split; [reflexivity|exact I]|]. eexists. split; [reflexivity|].
    destruct Hc as (ts & x & -> & Hx & Hts). exists (tok :: ts), x. auto.
Qed.

Lemma lexFilter_closed input :
  exists r, lexFilter input = Some r /\ match r with inr toks => closed toks | inl _ => True end.
Proof.
  unfold lexFilter. destruct (_ <? _)%Z; [eexists; split; [reflexivity|exact I]|]. apply lexFuel_closed. lia.
Qed.

End JqParseSpec.
