(* ===== verification/JqOrder.v ===== *)
(** * The order of jq values (builtins/jq/eval.go)

    The comparison of values is a total order up to equality: comparing the
    other way round gives the opposite answer, and it is transitive.  The
    equality by which arrays are subtracted is the equality of this order. *)

From S2P Require Import Prelude GoStd JqValue JqParse JqEval JqRefine JqObject JqWf.
From stdpp Require Import base list strings sorting.
From Stdlib Require Import ZArith Lia Ascii QArith.
#[local] Open Scope Z_scope.

Module JqOrder.
Import GoStd JqValue JqLex JqParse JqEval JqSem JqObject JqWf.

(** ** Comparisons *)

Section Comparisons.
Context {A : Type} (c : A -> A -> comparison).

(** The opposite answer the other way round. *)
Definition flips (x y : A) : Prop := c y x = CompOpp (c x y).

(** Transitivity. *)
Definition chains (x y z : A) : Prop :=
  (c x y = Eq -> c x z = c y z) /\ (c y z = Eq -> c x z = c x y) /\ (c x y = Lt -> c y z = Lt -> c x z = Lt).

(** The lexicographic order. *)
Fixpoint lex (xs ys : list A) : comparison :=
  match xs, ys with
  | x :: xs, y :: ys => match c x y with Eq => lex xs ys | r => r end
  | [], [] => Eq
  | [], _ :: _ => Lt
  | _ :: _, [] => Gt
  end.

Lemma lex_flips xs ys : Forall (fun x => forall y, flips x y) xs -> lex ys xs = CompOpp (lex xs ys).
Proof.
  intros Hx. revert ys. induction Hx as [|x xs Hx _ IH]; intros [|y ys]; try reflexivity. cbn [lex]. rewrite (Hx y).
  destruct (c x y); [apply IH|reflexivity..].
Qed.

Lemma lex_chains xs ys zs :
  Forall (fun x => forall y z, chains x y z) xs ->
  (lex xs ys = Eq -> lex xs zs = lex ys zs) /\ (lex ys zs = Eq -> lex xs zs = lex xs ys) /\
  (lex xs ys = Lt -> lex ys zs = Lt -> lex xs zs = Lt).
Proof.
  intros Hx. revert ys zs. induction Hx as [|x xs Hx _ IH]; intros [|y ys] [|z zs]; cbn [lex]; try (repeat split; congruence).
  destruct (Hx y z) as (H1 & H2 & H3), (IH ys zs) as (I1 & I2 & I3).
  destruct (c x y); destruct (c y z); destruct (c x z); repeat split; intros;
    try (specialize (H1 eq_refl)); try (specialize (H2 eq_refl)); try (specialize (H3 eq_refl eq_refl)); try congruence; auto.
Qed.
End Comparisons.

Lemma Z_flips x y : flips Z.compare x y.
Proof. apply Z.compare_antisym. Qed.

Lemma Z_chains x y z : chains Z.compare x y z.
Proof.
  unfold chains. rewrite !Z.compare_eq_iff, !Z.compare_lt_iff. split; [intros ->; reflexivity|]. split; [intros ->; reflexivity|lia].
Qed.

Lemma Q_flips x y : flips Qcompare x y.
Proof. symmetry. apply Qcompare_antisym. Qed.

Lemma Q_chains x y z : chains Qcompare x y z.
Proof.
  unfold chains. rewrite <- !Qeq_alt, <- !Qlt_alt. split; [intros ->; reflexivity|]. split; [intros ->; reflexivity|apply Qlt_trans].
Qed.

Lemma Compare_lex a b : Compare a b = lex (fun x y => code x ?= code y) a b.
Proof. reflexivity. Qed.

Lemma Compare_flips a b : flips Compare a b.
Proof.
  unfold flips. rewrite !Compare_lex. apply lex_flips. apply Forall_forall. intros x _ y. apply Z.compare_antisym.
Qed.

Lemma Compare_chains a b d : chains Compare a b d.
Proof.
  unfold chains. rewrite !Compare_lex. apply lex_chains. apply Forall_forall. intros x _ y z. apply Z_chains.
Qed.

Lemma Compare_eq a b : Compare a b = Eq <-> a = b.
Proof.
  revert b. induction a as [|x a IH]; intros [|y b]; try easy. cbn [Compare].
  destruct (code x ?= code y) eqn:E; [|split; [discriminate|]; intros [= -> _]; rewrite Z.compare_refl in E; discriminate..].
  apply Z.compare_eq_iff in E. apply code_inj in E as ->. rewrite IH. split; congruence.
Qed.

(** The lexicographic order of lists of keys. *)
Lemma compareKeys_lex ks ls :
  match compareKeys ks ls with Eq => (length ks ?= length ls)%nat | c => c end = lex Compare ks ls.
Proof.
  revert ls. induction ks as [|k ks IH]; intros [|l ls]; try reflexivity. cbn [compareKeys lex length Nat.compare].
  destruct (Compare k l); [apply IH|reflexivity..].
Qed.

Lemma lex_eq ks ls : lex Compare ks ls = Eq <-> ks = ls.
Proof.
  revert ls. induction ks as [|k ks IH]; intros [|l ls]; try easy. cbn [lex]. destruct (Compare k l) eqn:E.
  - apply Compare_eq in E as ->. rewrite IH. split; congruence.
  - split; [discriminate|]. intros [= -> _]. rewrite (proj2 (Compare_eq l l) eq_refl) in E. discriminate.
  - split; [discriminate|]. intros [= -> _]. rewrite (proj2 (Compare_eq l l) eq_refl) in E. discriminate.
Qed.

(** ** The order of values *)

Section Order.
Context `{FloatText}.

(** The order of values of one kind. *)
Definition memberOrder (ms ns : list (bytes * value)) (k : bytes) : comparison :=
  match getMember k ms with Some v => valueOrder v (default JNull (getMember k ns)) | None => Eq end.

(** The first answer that is not [Eq]. *)
Fixpoint firstOrder (f : bytes -> comparison) (ks : list bytes) : comparison :=
  match ks with
  | [] => Eq
  | k :: ks => match f k with Eq => firstOrder f ks | c => c end
  end.

Definition keysOf (ms : list (bytes * value)) : list bytes := sortKeys (map fst ms).

Definition sameKind (l r : value) : comparison :=
  match l, r with
  | JNumber a, JNumber b => compareNumbers a b
  | JString a, JString b => Compare a b
  | JArray xs _ _ _, JArray ys _ _ _ => lex valueOrder xs ys
  | JObject ms _ _ _, JObject ns _ _ _ =>
      match lex Compare (keysOf ms) (keysOf ns) with
      | Eq => firstOrder (memberOrder ms ns) (keysOf ms)
      | c => c
      end
  | _, _ => Eq
  end.

Lemma getMember_map {X Y} (f : X -> Y) k ms :
  getMember k (map (fun kv => match kv with (k, v) => (k, f v) end) ms) = f <$> getMember k ms.
Proof. induction ms as [|[k' v] ms IH]; [reflexivity|]. cbn [map getMember]. destruct (bytes_eqb k' k); [reflexivity|exact IH]. Qed.

(** First by the rank of the type, then within the type. *)
Lemma valueOrder_rank l r :
  valueOrder l r = match valueRank l ?= valueRank r with Eq => sameKind l r | c => c end.
Proof.
  destruct l as [|a|a|a|xs|ms], r as [|b|b|b|ys|ns]; try reflexivity; try (destruct a; reflexivity); try (destruct b; reflexivity).
  - destruct a, b; reflexivity.
  - cbn [valueOrder valueRank sameKind]. rewrite Z.compare_refl, <- compareKeys_lex. unfold keysOf.
    destruct (compareKeys _ _) eqn:Ek; try reflexivity. destruct (_ ?= _)%nat eqn:El; try reflexivity.
    pose proof (compareKeys_lex (sortKeys (map fst ms)) (sortKeys (map fst ns))) as Hlex. rewrite Ek, El in Hlex. symmetry in Hlex.
    apply lex_eq in Hlex. rewrite <- Hlex. clear. generalize (sortKeys (map fst ms)) as ks.
    induction ks as [|k ks IH]; [reflexivity|]. cbn [firstOrder]. rewrite <- IH. unfold memberOrder. rewrite getMember_map.
    destruct (getMember k ms); reflexivity.
Qed.

Lemma sortKeys_elem k ms : k ∈ keysOf ms <-> k ∈ map fst ms.
Proof. unfold keysOf, sortKeys. rewrite merge_sort_Permutation. reflexivity. Qed.

Lemma getMember_Some k (ms : list (bytes * value)) : k ∈ map fst ms -> exists v, getMember k ms = Some v /\ (k, v) ∈ ms.
Proof.
  induction ms as [|[k' v] ms IH]; cbn [map fst getMember]; [intros []%not_elem_of_nil|]. intros Hk.
  destruct (bytes_eqb k' k) eqn:E.
  - apply bytes_eqb_true in E as ->. exists v. split; [reflexivity|left].
  - apply elem_of_cons in Hk as [->|Hk]; [rewrite bytes_eqb_refl in E; discriminate|].
    destruct (IH Hk) as (w & Hw & Hin). exists w. split; [exact Hw|right; exact Hin].
Qed.

Lemma firstOrder_flips f g ks : (forall k, k ∈ ks -> g k = CompOpp (f k)) -> firstOrder g ks = CompOpp (firstOrder f ks).
Proof.
  induction ks as [|k ks IH]; intros Hfg; [reflexivity|]. cbn [firstOrder]. rewrite (Hfg k) by left.
  destruct (f k); [apply IH; intros; apply Hfg; right; assumption|reflexivity..].
Qed.

Lemma firstOrder_chains (f g h : bytes -> comparison) ks :
  (forall k, k ∈ ks -> (f k = Eq -> h k = g k) /\ (g k = Eq -> h k = f k) /\ (f k = Lt -> g k = Lt -> h k = Lt)) ->
  (firstOrder f ks = Eq -> firstOrder h ks = firstOrder g ks) /\ (firstOrder g ks = Eq -> firstOrder h ks = firstOrder f ks) /\
  (firstOrder f ks = Lt -> firstOrder g ks = Lt -> firstOrder h ks = Lt).
Proof.
  induction ks as [|k ks IH]; intros Hfgh; [auto|]. cbn [firstOrder].
  destruct (Hfgh k) as (H1 & H2 & H3); [left|]. destruct IH as (I1 & I2 & I3); [intros; apply Hfgh; right; assumption|].
  destruct (f k); destruct (g k); destruct (h k); repeat split; intros;
    try (specialize (H1 eq_refl)); try (specialize (H2 eq_refl)); try (specialize (H3 eq_refl eq_refl)); try congruence; auto.
Qed.

Lemma valueOrder_flips l r : flips valueOrder l r.
Proof.
  revert r. induction l as [| | | |xs n s d IH|ms n s d IH] using value_ind; intros r; unfold flips; rewrite !valueOrder_rank, Z.compare_antisym;
    destruct (_ ?= _) eqn:E; try reflexivity; destruct r as [| |y|y|ys|ns]; try reflexivity; try discriminate E; cbn [CompOpp sameKind].
  - apply Q_flips.
  - apply Compare_flips.
  - apply lex_flips, IH.
  - rewrite lex_flips by (apply Forall_forall; intros; apply Compare_flips).
    destruct (lex Compare (keysOf ms) (keysOf ns)) eqn:El; try reflexivity. cbn [CompOpp]. apply lex_eq in El. rewrite <- El.
    apply firstOrder_flips. intros k Hk. unfold memberOrder. pose proof Hk as Hk'. rewrite El in Hk'.
    apply sortKeys_elem, getMember_Some in Hk as (v & -> & Hin). apply sortKeys_elem, getMember_Some in Hk' as (w & -> & _).
    rewrite Forall_forall in IH. exact (IH _ Hin w).
Qed.

(** The first of two orders, then the second. *)
Lemma chains_rank (a b d : Z) (ab bd ad : comparison) :
  (a = b -> b = d -> (ab = Eq -> ad = bd) /\ (bd = Eq -> ad = ab) /\ (ab = Lt -> bd = Lt -> ad = Lt)) ->
  let by_rank x y c := match x ?= y with Eq => c | r => r end in
  (by_rank a b ab = Eq -> by_rank a d ad = by_rank b d bd) /\ (by_rank b d bd = Eq -> by_rank a d ad = by_rank a b ab) /\
  (by_rank a b ab = Lt -> by_rank b d bd = Lt -> by_rank a d ad = Lt).
Proof.
  intros Hsub by_rank. unfold by_rank.
  destruct (Z.compare_spec a b), (Z.compare_spec b d), (Z.compare_spec a d); try lia; try (apply Hsub; assumption);
    repeat split; congruence.
Qed.

Lemma valueOrder_chains x y z : chains valueOrder x y z.
Proof.
  revert y z. induction x as [|b| | |xs n s d IH|ms n s d IH] using value_ind; intros y z; unfold chains; rewrite !valueOrder_rank;
    apply chains_rank; intros Hxy Hyz; try destruct b; destruct y as [|[]| | |ys|ns]; try discriminate Hxy;
    destruct z as [|[]| | |zs|ps]; try discriminate Hyz; cbn [sameKind]; try (repeat split; congruence).
  - apply Q_chains.
  - apply Compare_chains.
  - apply lex_chains, IH.
  - pose proof (lex_chains Compare (keysOf ms) (keysOf ns) (keysOf ps)) as (L1 & L2 & L3).
    { apply Forall_forall. intros. apply Compare_chains. }
    destruct (lex Compare (keysOf ms) (keysOf ns)) eqn:E1, (lex Compare (keysOf ns) (keysOf ps)) eqn:E2,
      (lex Compare (keysOf ms) (keysOf ps)) eqn:E3;
      try (specialize (L1 eq_refl)); try (specialize (L2 eq_refl)); try (specialize (L3 eq_refl eq_refl)); try congruence;
      try (repeat split; congruence).
    apply lex_eq in E1, E2. rewrite <- E1. apply firstOrder_chains. intros k Hk. unfold memberOrder.
    pose proof Hk as Hkn. rewrite E1 in Hkn. pose proof Hkn as Hkp. rewrite E2 in Hkp.
    apply sortKeys_elem, getMember_Some in Hk as (v & -> & Hin), Hkn as (w & -> & _), Hkp as (u & -> & _).
    rewrite Forall_forall in IH. exact (IH _ Hin w u).
Qed.

(** A value equals itself. *)
Lemma valueOrder_refl v : valueOrder v v = Eq.
Proof. pose proof (valueOrder_flips v v) as Hf. unfold flips in Hf. destruct (valueOrder v v); [reflexivity|discriminate Hf..]. Qed.

(** ** Equality *)

#[local] Instance keyLe_total : Total keyLe.
Proof.
  intros a b. unfold keyLe. pose proof (Compare_flips a b) as Hf. unfold flips in Hf. rewrite Hf.
  destruct (Compare a b); [left|left|right]; discriminate.
Qed.

#[local] Instance keyLe_trans : Transitive keyLe.
Proof.
  intros a b d. unfold keyLe. destruct (Compare_chains a b d) as (C1 & C2 & C3).
  destruct (Compare a b), (Compare b d); try congruence; intros _ _; try (rewrite C1 by reflexivity; discriminate);
    try (rewrite C2 by reflexivity; discriminate). rewrite C3; [discriminate|reflexivity..].
Qed.

#[local] Instance keyLe_antisymm : AntiSymm (=) keyLe.
Proof.
  intros a b. unfold keyLe. pose proof (Compare_flips a b) as Hf. unfold flips in Hf. rewrite Hf.
  destruct (Compare a b) eqn:E; [intros _ _; apply Compare_eq, E| |]; intros A B; cbn in *; congruence.
Qed.

Lemma sortKeys_eq ms ns : NoDup (map fst ms) -> NoDup (map fst ns) ->
  keysOf ms = keysOf ns <-> length ms = length ns /\ forall k, k ∈ map fst ms -> k ∈ map fst ns.
Proof.
  intros Hm Hn. split.
  - intros E. assert (map fst ms ≡ₚ map fst ns) as Hp.
    { rewrite <- (merge_sort_Permutation keyLe (map fst ms)), <- (merge_sort_Permutation keyLe (map fst ns)).
      change (keysOf ms ≡ₚ keysOf ns). rewrite E. reflexivity. }
    split; [apply Permutation_length in Hp; rewrite !length_map in Hp; exact Hp|]. intros k. rewrite Hp. auto.
  - intros [Hl Hk]. apply (StronglySorted_unique keyLe); try (apply StronglySorted_merge_sort; exact _).
    unfold keysOf, sortKeys. rewrite !merge_sort_Permutation. apply submseteq_length_Permutation.
    + apply NoDup_submseteq; [exact Hm|exact Hk].
    + rewrite !length_map. lia.
Qed.

Lemma firstOrder_Eq f ks : firstOrder f ks = Eq <-> forall k, k ∈ ks -> f k = Eq.
Proof.
  induction ks as [|k ks IH]; cbn [firstOrder]; [split; [intros _ k []%not_elem_of_nil|reflexivity]|].
  split.
  - destruct (f k) eqn:E; try discriminate. rewrite IH. intros Hk k' [->|Hin]%elem_of_cons; auto.
  - intros Hk. rewrite (Hk k) by left. apply IH. intros k' Hin. apply Hk. right. exact Hin.
Qed.

Lemma getMember_in k v (ms : list (bytes * value)) : NoDup (map fst ms) -> (k, v) ∈ ms -> getMember k ms = Some v.
Proof.
  induction ms as [|[k' w] ms IH]; cbn [map fst getMember]; [intros _ []%not_elem_of_nil|].
  intros [Hk Hnd]%NoDup_cons [[= <- <-]|Hin]%elem_of_cons; [rewrite bytes_eqb_refl; reflexivity|].
  destruct (bytes_eqb k' k) eqn:E; [|exact (IH Hnd Hin)]. apply bytes_eqb_true in E as ->. destruct Hk.
  apply list_elem_of_fmap. exists (k, v). auto.
Qed.

Lemma sameValue_members ms ns n s d n' s' d' :
  sameValue (JObject ms n s d) (JObject ns n' s' d') = true <->
  length ms = length ns /\ forall k v, (k, v) ∈ ms -> exists w, getMember k ns = Some w /\ sameValue v w = true.
Proof.
  cbn [sameValue]. rewrite andb_true_iff, Nat.eqb_eq. apply and_iff_compat_l.
  induction ms as [|[k v] ms IH]; [split; [intros _ k v []%not_elem_of_nil|reflexivity]|]. split.
  - destruct (getMember k ns) as [w|] eqn:E; [|discriminate]. intros [Hs Hg]%andb_true_iff k' v' [[= -> ->]|Hin]%elem_of_cons; [eauto|].
    apply IH; assumption.
  - intros Hall. destruct (Hall k v) as (w & -> & Hs); [left|]. rewrite Hs. apply IH. intros k' v' Hin. apply Hall. right. exact Hin.
Qed.

Lemma sameValue_items xs ys n s d n' s' d' :
  sameValue (JArray xs n s d) (JArray ys n' s' d') = true <-> Forall2 (fun x y => sameValue x y = true) xs ys.
Proof.
  cbn [sameValue]. rewrite andb_true_iff, Nat.eqb_eq. revert ys.
  induction xs as [|x xs IH]; intros [|y ys]; cbn [length]; try solve [split; [intros [[=] _]|intros Hf; inversion Hf]].
  - split; [constructor|auto].
  - rewrite Forall2_cons, andb_true_iff, <- IH. split; intuition.
Qed.

Lemma lex_Eq xs ys : lex valueOrder xs ys = Eq <-> Forall2 (fun x y => valueOrder x y = Eq) xs ys.
Proof.
  revert ys. induction xs as [|x xs IH]; intros [|y ys]; cbn [lex]; try solve [split; [discriminate|intros Hf; inversion Hf]].
  - split; [constructor|reflexivity].
  - rewrite Forall2_cons, <- IH. destruct (valueOrder x y); split; intuition discriminate.
Qed.

Lemma sameValue_order l r : wf l -> wf r -> sameValue l r = true <-> valueOrder l r = Eq.
Proof.
  revert r. induction l as [|b|x|x|xs n s d IH|ms n s d IH] using value_ind; intros r Hl Hr.
  1-4: destruct r as [|b'|y|y|ys|ns]; try (split; discriminate); try (destruct b; split; discriminate);
    try (destruct b'; split; discriminate); try (split; reflexivity).
  - destruct b, b'; split; easy.
  - cbn [sameValue valueOrder]. destruct (compareNumbers x y); split; easy.
  - cbn [sameValue valueOrder]. rewrite Compare_eq. apply bytes_eqb_true.
  - destruct r as [|b'|y|y|ys n' s' d'|ns]; try (split; discriminate); try (destruct b'; split; discriminate).
    rewrite sameValue_items, valueOrder_rank. cbn [valueRank sameKind]. rewrite Z.compare_refl, lex_Eq.
    apply wf_array in Hl as [_ Hl], Hr as [_ Hr]. revert ys Hr. induction IH as [|x xs Hx _ IHxs]; intros [|y ys] Hr;
      try solve [split; intros Hf; inversion Hf]; try solve [split; constructor].
    apply Forall_cons in Hl as [Hlx Hl], Hr as [Hry Hr]. rewrite !Forall2_cons, (Hx y Hlx Hry), (IHxs Hl ys Hr). reflexivity.
  - destruct r as [|b'|y|y|ys|ns n' s' d']; try (split; discriminate); try (destruct b'; split; discriminate).
    rewrite sameValue_members, valueOrder_rank. cbn [valueRank sameKind]. rewrite Z.compare_refl.
    apply wf_object in Hl as (_ & Dm & Hl), Hr as (_ & Dn & Hr). rewrite Forall_forall in IH, Hl.
    assert (forall k w, getMember k ns = Some w -> wf w) as Hw by (intros k w; apply getMember_wf, Hr).
    assert (length ms = length ns -> (forall k v, (k, v) ∈ ms -> exists w, getMember k ns = Some w /\ sameValue v w = true) ->
            keysOf ms = keysOf ns) as Hkeys.
    { intros El Hall. apply sortKeys_eq; [assumption..|]. split; [exact El|]. intros k (v & -> & Hin)%list_elem_of_fmap.
      destruct v as [k v]. destruct (Hall k v Hin) as (w & Ew & _). apply dec_stable. intros Hn. apply getMember_None in Hn.
      cbn in Hn. congruence. }
    destruct (lex Compare (keysOf ms) (keysOf ns)) eqn:E.
    + apply lex_eq, sortKeys_eq in E as [El Ek]; [|assumption..]. rewrite firstOrder_Eq. split.
      * intros [_ Hall] k Hk. apply sortKeys_elem, getMember_Some in Hk as (v & Ev & Hin). unfold memberOrder. rewrite Ev.
        destruct (Hall k v Hin) as (w & Ew & Hs). rewrite Ew. apply (IH _ Hin); [exact (Hl _ Hin)|exact (Hw _ _ Ew)|exact Hs].
      * intros Hall. split; [exact El|]. intros k v Hin. assert (k ∈ map fst ms) as Hk by (apply list_elem_of_fmap; exists (k, v); auto).
        destruct (getMember_Some k ns (Ek k Hk)) as (w & Ew & _). exists w. split; [exact Ew|].
        apply (IH _ Hin); [exact (Hl _ Hin)|exact (Hw _ _ Ew)|]. specialize (Hall k). unfold memberOrder in Hall.
        rewrite (getMember_in _ _ _ Dm Hin), Ew in Hall. apply Hall, sortKeys_elem, Hk.
    + split; [|discriminate]. intros [El Hall]. rewrite (proj2 (lex_eq _ _) (Hkeys El Hall)) in E. discriminate.
    + split; [|discriminate]. intros [El Hall]. rewrite (proj2 (lex_eq _ _) (Hkeys El Hall)) in E. discriminate.
Qed.

End Order.
End JqOrder.
