(* ===== verification/JqTop.v ===== *)
(** * What the jq evaluator promises (builtins/jq/eval.go)

    The properties of the evaluation of a filter on one input: its results are
    those the filter means, cut where a limit is reached; it gives back what it
    retains; it stops soon after the last step or a cancellation; its results
    are few, small and well-formed. *)

From S2P Require Import Prelude GoStd Utf8 JqValue JqString JqParse JqEval JqRetain JqAccounts JqRefine JqObject JqWf JqParseSpec JqOrder.
From stdpp Require Import base list strings.
From Stdlib Require Import ZArith Lia Ascii SpecFloat.

(** * Strings of jq survive reparsing (builtins/jq/value.go)

    A string that is not valid UTF-8 is decoded, normalized and written again
    before its value is parsed: what is written decodes to the string. *)

#[local] Open Scope Z_scope.

Module JqText.
Import GoStd Utf8 JqValue JqString.

(** A byte is written as itself, as a letter after a backslash, or by its
    number. *)
Definition escapes (c : ascii) (b : bytes) : Prop :=
  (b = [c] /\ 32 <= code c /\ Ascii.eqb c ch_bs = false) \/
  (exists x, b = [ch_bs; x] /\ simpleEscape x = Some c) \/
  (exists p q r t, b = [ch_bs; "u"%char; p; q; r; t] /\ (forall s, unicodeAt (p :: q :: r :: t :: s) = inr (code c, s)) /\
     EncodeRune (code c) = [c]).

Lemma escapeByte_escapes c : escapes c (escapeByte c).
Proof.
  destruct c as [[] [] [] [] [] [] [] []]; first
    [ left; split; [reflexivity|split; [discriminate|reflexivity]]
    | right; left; eexists; split; reflexivity
    | right; right; eexists _, _, _, _; split; [reflexivity|split; [intros s|]; reflexivity] ].
Qed.

(** One byte decoded, with room for it. *)
Lemma decode_escaped fuel c s decoded :
  Z.of_nat (length decoded) < maxBytes ->
  decodeLoop (S fuel) (escapeByte c ++ s) decoded = decodeLoop fuel s (decoded ++ [c]).
Proof.
  intros Hd. assert (maxBytes <? Z.of_nat (length (decoded ++ [c])) = false) as Hmore.
  { apply Z.ltb_ge. rewrite length_app. cbn [length]. lia. }
  destruct (escapeByte_escapes c) as [(-> & Hc & Hb)|[(x & -> & Hx)|(p & q & r & t & -> & Hu & Hr)]]; cbn [app decodeLoop].
  - rewrite Hb, (proj2 (Z.ltb_ge _ _) Hc), (proj2 (Z.leb_gt _ _) Hd). reflexivity.
  - change (Ascii.eqb ch_bs ch_bs) with true. cbn [negb]. rewrite Hx, Hmore. reflexivity.
  - change (Ascii.eqb ch_bs ch_bs) with true. cbn [negb]. change (simpleEscape "u") with (@None ascii).
    change ("u" =c "u")%go with true. cbv iota. rewrite Hu, Hr, Hmore. reflexivity.
Qed.

Definition escaped (s : bytes) : bytes := mjoin (map escapeByte s).

Lemma escaped_length s : (length s <= length (escaped s))%nat.
Proof.
  induction s as [|c s IH]; [reflexivity|]. unfold escaped in *. cbn [map mjoin list_join foldr length]. rewrite length_app.
  assert (1 <= length (escapeByte c))%nat as Hc; [|exact (Nat.add_le_mono 1 _ _ _ Hc IH)].
  destruct (escapeByte_escapes c) as [(-> & _)|[(x & -> & _)|(p & q & r & t & -> & _)]]; cbn; lia.
Qed.

Lemma decodeLoop_escaped fuel s decoded :
  (length s <= fuel)%nat -> Z.of_nat (length (decoded ++ s)) <= maxBytes -> decodeLoop fuel (escaped s) decoded = inr (decoded ++ s).
Proof.
  revert fuel decoded. induction s as [|c s IH]; intros fuel decoded Hf Hl.
  - rewrite app_nil_r. destruct fuel; reflexivity.
  - destruct fuel as [|fuel]; [cbn in Hf; lia|]. rewrite length_app in Hl. cbn [length] in *.
    change (escaped (c :: s)) with (escapeByte c ++ escaped s). rewrite decode_escaped by lia.
    rewrite IH; [rewrite <- app_assoc; reflexivity|lia|]. rewrite !length_app. cbn [length]. lia.
Qed.

Lemma appendEscaped_spec limit dst s t : appendEscaped limit dst s = Some t -> t = dst ++ escaped s.
Proof.
  revert dst. induction s as [|c s IH]; intros dst; cbn [appendEscaped].
  - intros [= <-]. unfold escaped. cbn. rewrite app_nil_r. reflexivity.
  - destruct (_ <? _); [discriminate|]. intros E. rewrite (IH _ E), <- app_assoc. reflexivity.
Qed.

Lemma between_quotes s : between (ch_dq :: s ++ [ch_dq]) = s.
Proof.
  unfold between. cbn [length drop]. rewrite length_app. cbn [length].
  replace (S (length s + 1) - 2)%nat with (length s) by lia. apply take_app_length.
Qed.

Lemma quoted_quotes s : quoted (ch_dq :: s ++ [ch_dq]) = true.
Proof.
  unfold quoted. assert (last (ch_dq :: s ++ [ch_dq]) = Some ch_dq) as Hl by apply (last_snoc ch_dq (ch_dq :: s)).
  rewrite Hl. destruct (s ++ [ch_dq]) eqn:E; [destruct s; discriminate|]. reflexivity.
Qed.

Lemma quoted_decodes s : Z.of_nat (length s) <= maxBytes -> decodeJSONString (ch_dq :: escaped s ++ [ch_dq]) = inr s.
Proof.
  intros Hs. unfold decodeJSONString. rewrite quoted_quotes, between_quotes. cbn [negb].
  apply (decodeLoop_escaped _ s []); [apply escaped_length|exact Hs].
Qed.

(** C24. Appending a string for reparsing appends a literal, within the limit, that
    decodes to the string. *)
Theorem jq_string_roundtrip dst s limit t :
  Z.of_nat (length s) <= maxBytes -> appendNormalizedJSONString dst s limit = Some t ->
  exists literal, t = dst ++ literal /\ Z.of_nat (length t) <= limit /\ decodeJSONString literal = inr s.
Proof.
  intros Hs. unfold appendNormalizedJSONString. destruct (_ <=? _); [discriminate|].
  destruct (appendEscaped limit (dst ++ [ch_dq]) s) as [u|] eqn:E; [|discriminate]. cbn [mbind option_bind].
  apply appendEscaped_spec in E as ->. destruct (Z.leb_spec limit (Z.of_nat (length ((dst ++ [ch_dq]) ++ escaped s)))) as [|Hl]; [discriminate|].
  intros [= <-]. exists (ch_dq :: escaped s ++ [ch_dq]). split; [|split; [|apply quoted_decodes, Hs]].
  - rewrite <- !app_assoc. reflexivity.
  - rewrite length_app. cbn [length]. lia.
Qed.

Lemma jq_string_roundtrip_witness :
  exists literal, lit "ab" ++ literal = lit "ab" ++ literal /\ decodeJSONString literal = inr (ch_nl :: ch_dq :: lit "c").
Proof.
  destruct (jq_string_roundtrip (lit "ab") (ch_nl :: ch_dq :: lit "c") 100 (lit "ab" ++ ch_dq :: lit "\n\" ++ ch_dq :: lit "c" ++ [ch_dq]))
    as (l & _ & _ & Hl); [discriminate|reflexivity|]. exists l. split; [reflexivity|exact Hl].
Defined.

End JqText.

#[local] Open Scope Z_scope.

Module JqTop.
Import GoStd JqValue JqLex JqParse JqEval JqLogic JqRetain JqAccounts JqSem JqRefine JqObject JqWf JqParseSpec JqOrder.

Section Top.
Context `{FloatText}.

(** The checks of a context that is cancelled at check number [cutoff], and
    stays so; None for one that never is. *)
Definition cancelAt (cutoff : option nat) (poll : nat) : bool :=
  match cutoff with Some c => (c <=? poll)%nat | None => false end.

Lemma cancelAt_from cutoff : cancelledFrom (cancelAt cutoff) cutoff.
Proof. intros p. reflexivity. Qed.

(** ** The results within their bounds *)

Definition accOk (a : acc) : Prop :=
  a_nodes a = nodesIn (a_values a) /\ a_bytes a = bytesIn (a_values a) /\
  Z.of_nat (length (a_values a)) <= MaxResults /\ a_nodes a <= MaxResultNodes /\ a_bytes a <= MaxResultBytes.

Lemma add_ok a v : accOk a -> yields (add a v) (fun r => accOk (fst r)).
Proof.
  intros (A & B & C & D & F). unfold add.
  destruct (Z.leb_spec MaxResults (Z.of_nat (length (a_values a)))); [apply yields_ret; repeat split; assumption|].
  destruct (Z.ltb_spec (MaxResultNodes - a_nodes a) (nodesOf v)); [apply yields_ret; repeat split; assumption|].
  destruct (Z.ltb_spec (MaxResultBytes - a_bytes a) (bytesOf v)); [apply yields_ret; repeat split; assumption|]. cbn [orb].
  eapply yields_bind; [apply yields_any|]. intros [e|] _; apply yields_ret; [repeat split; assumption|].
  unfold accOk; cbn [fst a_values a_nodes a_bytes]. rewrite nodesIn_app, bytesIn_app, length_app. cbn [nodesIn bytesIn foldr length].
  repeat split; lia.
Qed.

Lemma addAll_ok a vs : accOk a -> yields (addAll a vs) (fun r => accOk (fst r)).
Proof.
  revert a. induction vs as [|v vs IH]; intros a Ha; [apply yields_ret, Ha|]. cbn [addAll forEach].
  eapply yields_bind; [apply add_ok, Ha|]. intros [a1 [e|]] H1; [apply yields_ret, H1|apply IH, H1].
Qed.

(** Few results of a bounded total size. *)
Definition fewResults (vs : list value) : Prop :=
  Z.of_nat (length vs) <= MaxResults /\ nodesIn vs <= MaxResultNodes /\ bytesIn vs <= MaxResultBytes.

Lemma bounded_ok vs : yields (bounded vs) (fun r => fewResults (fst r)).
Proof.
  unfold bounded. eapply yields_bind; [apply addAll_ok; repeat split; discriminate|].
  intros [a e] (A & B & C & D & F). apply yields_ret. unfold fewResults. cbn [fst] in *. repeat split; lia.
Qed.

Lemma bounded_implements vs : implements (bounded vs) (vs, None).
Proof. eapply yields_bind; [apply addAll_adds|]. intros [a e] Ha%grew_new. apply yields_ret, Ha. Qed.

(** The measures are not negative for well-formed values. *)
Lemma take_few n vs : Forall wf vs -> fewResults vs -> fewResults (take n vs).
Proof.
  intros Hwf (A & B & C). rewrite <- (take_drop n vs) in Hwf, B, C. apply Forall_app in Hwf as [_ Hd].
  rewrite nodesIn_app in B. rewrite bytesIn_app in C.
  assert (0 <= nodesIn (drop n vs) /\ 0 <= bytesIn (drop n vs)) as [Hn Hb].
  { clear -Hd. induction Hd as [|v l Hv _ IH]; cbn [nodesIn bytesIn foldr]; [lia|]. unfold nodesIn, bytesIn in *.
    assert (0 <= nodesOf v /\ 0 <= bytesOf v) as [? ?]; [|lia]. destruct (wf_exact v Hv) as (-> & -> & _).
    pose proof (countValues_items [v]) as Hc. cbn in Hc. split; [lia|]. apply textSize_nonneg. }
  unfold fewResults. rewrite length_take. repeat split; lia.
Qed.

(** ** One input *)

Section Evaluate.
Context (cutoff : option nat) (variables : bytes -> option value) (root : node) (input : value).

Abbreviation evaluate := (evaluate (cancelAt cutoff) variables root input).

(** A state of the evaluator between two inputs. *)
Definition idle (st : Z) (po : nat) (top : Z) : est := mkEst st po 0 0 top.

Lemma eval_idle st po top :
  wp (eval (cancelAt cutoff) variables root input)
    (fun r s' => moves cutoff (nodeCount root) (snd r) 0 0 (idle st po top) s' /\ refines r (sem variables root input)) (idle st po top).
Proof.
  split.
  - exact (proj1 (proj1 (eval_gives (cancelAt cutoff) cutoff (cancelAt_from cutoff) variables root) input (idle st po top))).
  - exact (proj1 (eval_implements (cancelAt cutoff) variables root) input (idle st po top)).
Qed.

(** An accumulator that retains nothing leaves the state alone. *)
Lemma addAll_state vs a s : a_retained a = false -> snd (addAll a vs s) = s.
Proof.
  revert a. induction vs as [|v vs IH]; intros a Ha; [reflexivity|]. cbn [addAll forEach]. unfold mbind, E_bind, add.
  destruct (_ || _); [reflexivity|]. rewrite Ha. apply IH. reflexivity.
Qed.

Lemma bounded_state vs s : snd (bounded vs s) = s.
Proof.
  unfold bounded, mbind, E_bind. pose proof (addAll_state vs (newAcc false) s eq_refl) as Hs.
  destruct (addAll (newAcc false) vs s) as [[a e] s']. exact Hs.
Qed.

(** The rest of an evaluation once the accounts are checked. *)
Definition settle (r : outcome) : E outcome :=
  '(vs, e) ← bounded (fst r);
  match e with
  | Some e => mret (vs, Some e)
  | None => takeTop vs (snd r)
  end.

Lemma settle_state r s : let s' := snd (settle r s) in
  steps s' = steps s /\ polls s' = polls s /\ retNodes s' = retNodes s /\ retBytes s' = retBytes s.
Proof.
  unfold settle, mbind, E_bind. pose proof (bounded_state (fst r) s) as Hs.
  destruct (bounded (fst r) s) as [[vs [e|]] s']; cbn in Hs; subst s'; [auto|]. unfold takeTop. destruct (_ <? _); auto.
Qed.

Lemma settle_refines r t : refines r t -> yields (settle r) (fun r' => refines r' t).
Proof.
  destruct r as [vs err]. intros Hr. eapply yields_bind; [apply bounded_implements|]. intros [ws [e|]] Hw.
  - apply yields_ret. destruct (refines_error _ _ _ Hw) as [[=]|[He Hp]]. apply refines_limit; [exact He|].
    etrans; [exact Hp|]. exact (refines_prefix _ _ Hr).
  - apply refines_done in Hw. injection Hw as ->. intros s. unfold wp, takeTop. destruct (_ <? _); [|exact Hr].
    apply refines_limit; [exact I|]. etrans; [|exact (refines_prefix _ _ Hr)]. exists (drop (Z.to_nat (MaxResults - topResults s)) ws).
    symmetry. apply take_drop.
Qed.

(** The results of an input count against those of the run. *)
Lemma settle_counts r s :
  topResults s <= MaxResults ->
  topResults (snd (settle r s)) <= MaxResults /\
  (snd (fst (settle r s)) = None -> topResults (snd (settle r s)) = topResults s + Z.of_nat (length (fst (fst (settle r s))))).
Proof.
  intros Ht. unfold settle, mbind, E_bind. pose proof (bounded_state (fst r) s) as Hs.
  destruct (bounded (fst r) s) as [[vs [e|]] s']; cbn in Hs; subst s'; [split; [exact Ht|discriminate]|].
  unfold takeTop. destruct (Z.ltb_spec (MaxResults - topResults s) (Z.of_nat (length vs))); cbn; (split; [lia|]); [discriminate|reflexivity].
Qed.

Lemma settle_few r s : Forall wf (fst r) -> fewResults (fst (fst (settle r s))).
Proof.
  intros Hr. unfold settle, mbind, E_bind. pose proof (bounded_ok (fst r) s) as Hf.
  pose proof (refines_prefix _ _ (bounded_implements (fst r) s)) as [rest Hp].
  destruct (bounded (fst r) s) as [[vs [e|]] s'] eqn:E; unfold wp in *; rewrite E in *; cbn [fst snd] in *; [exact Hf|].
  unfold takeTop. destruct (_ <? _); [|exact Hf]. apply take_few; [|exact Hf].
  rewrite Hp in Hr. apply Forall_app in Hr as [Hr _]. exact Hr.
Qed.

(** The accounts are always settled: the check of [evaluate] never fails. *)
Lemma evaluate_settles st po top :
  evaluate (idle st po top) = (r ← eval (cancelAt cutoff) variables root input; settle r) (idle st po top).
Proof.
  unfold JqEval.evaluate, mbind, E_bind. destruct (eval_idle st po top) as [[_ (Hn & Hb & _)] _].
  destruct (eval _ _ root input (idle st po top)) as [[vs err] s1]. cbn [fst snd] in *. unfold balanced. rewrite Hn, Hb. reflexivity.
Qed.
Lemma settled_refines : yields (r ← eval (cancelAt cutoff) variables root input; settle r) (fun r => refines r (sem variables root input)).
Proof.
  eapply yields_bind; [exact (proj1 (eval_implements (cancelAt cutoff) variables root) input)|].
  intros r Hr. apply settle_refines, Hr.
Qed.

(** C19. The outcome of a filter on an input is the outcome that the filter means,
    computed without steps, retained values or bounds on results; or it ends with
    the error of a limit, after the first of the results that the filter means. *)
Theorem jq_evaluate_refines st po top :
  refines (fst (evaluate (idle st po top))) (sem variables root input).
Proof.
  rewrite evaluate_settles. apply settled_refines.
Qed.

(** C20. Whatever a filter does, be it cut short by an error, a limit or a
    cancellation, every value it has retained is given back: the retained totals
    are those from before, so the accounting error of [evaluate] is never
    reported. *)
Theorem jq_retention_balanced s :
  let s' := snd (eval (cancelAt cutoff) variables root input s) in
  retNodes s' = retNodes s /\ retBytes s' = retBytes s /\ topResults s' = topResults s /\
  forall st po top,
    evaluate (idle st po top) = (r ← eval (cancelAt cutoff) variables root input; settle r) (idle st po top) /\
    retNodes (snd (evaluate (idle st po top))) = 0 /\ retBytes (snd (evaluate (idle st po top))) = 0.
Proof.
  destruct (proj1 (eval_gives _ cutoff (cancelAt_from cutoff) variables root) input s) as [[_ (A & B & C)] _].
  split; [lia|split; [lia|split; [exact C|]]]. intros st po top. split; [apply evaluate_settles|]. rewrite evaluate_settles.
  destruct (eval_idle st po top) as [[_ (Hn & Hb & _)] _]. unfold mbind, E_bind.
  destruct (eval _ _ root input (idle st po top)) as [r s1]. cbn [fst snd] in *.
  destruct (settle_state r s1) as (_ & _ & -> & ->). cbn in *. lia.
Qed.

(** An evaluation stops soon after its last step: the checks of the context it
    makes are at most the steps it has left, or those before the context is
    cancelled, and one more for every node of the filter. *)
Theorem jq_evaluation_stops st po top :
  Z.of_nat (polls (snd (evaluate (idle st po top)))) <=
  Z.of_nat po +
  Z.max 0 (match cutoff with
           | Some c => Z.min (MaxEvalSteps - st) (Z.of_nat c - Z.of_nat po)
           | None => MaxEvalSteps - st
           end) + nodeCount root.
Proof.
  rewrite evaluate_settles. destruct (eval_idle st po top) as [[(_ & _ & Hl & Hd) _] _]. unfold mbind, E_bind.
  destruct (eval _ _ root input (idle st po top)) as [r s1]. cbn [fst snd] in *.
  destruct (settle_state r s1) as (_ & -> & _ & _). pose proof (nodeCount_pos root) as Hpos.
  change (match cutoff with Some c => _ | None => _ end) with (remaining cutoff (idle st po top)).
  change (Z.of_nat po) with (Z.of_nat (polls (idle st po top))).
  destruct (Z_lt_le_dec 0 (remaining cutoff (idle st po top))) as [Hs|Hs].
  - specialize (Hl Hs). unfold until in Hl. lia.
  - destruct (Hd Hs) as [Hp|[Hp _]]; rewrite Hp; lia.
Qed.

(** C21. The results of well-formed inputs, variables and literals are well-formed:
    their cached sizes are exact and within the limits on values, objects have a
    key once, numbers are in range.  There are at most [MaxResults] of them,
    over all inputs of a run too, and their total size is bounded. *)
Theorem jq_results_well_formed st po top :
  literals root -> (forall x v, variables x = Some v -> wf v) -> wf input -> top <= MaxResults ->
  let '(r, s') := evaluate (idle st po top) in
  Forall wf (fst r) /\ fewResults (fst r) /\ topResults s' <= MaxResults /\
  (snd r = None -> topResults s' = top + Z.of_nat (length (fst r))).
Proof.
  intros Hlit Hvars Hin Htop. rewrite evaluate_settles. pose proof (settled_refines (idle st po top)) as Hp.
  apply refines_prefix in Hp as [rest Hp]. pose proof (proj1 (sem_preserves variables Hvars root) Hlit input Hin) as Hwf.
  assert (Forall wf (fst (fst ((r ← eval (cancelAt cutoff) variables root input; settle r) (idle st po top))))) as Hr.
  { unfold allWf in Hwf. rewrite Hp in Hwf. apply Forall_app in Hwf as [Hwf _]. exact Hwf. }
  clear Hp. unfold mbind, E_bind in *.
  pose proof (proj1 (eval_implements (cancelAt cutoff) variables root) input (idle st po top)) as He.
  pose proof (eval_idle st po top) as [[_ (_ & _ & Ht)] _]. unfold wp in He.
  destruct (eval _ _ root input (idle st po top)) as [r s1]. cbn [fst snd] in *.
  assert (Forall wf (fst r)) as Hf.
  { apply refines_prefix in He as [rest' He]. unfold allWf in Hwf. rewrite He in Hwf. apply Forall_app in Hwf as [Hwf _]. exact Hwf. }
  pose proof (settle_few r s1 Hf) as Hfew. pose proof (settle_counts r s1) as Hc. rewrite Ht in Hc. cbn [idle topResults] in Hc.
  destruct (settle r s1) as [r' s']. cbn [fst snd] in *. destruct (Hc Htop) as [Hc1 Hc2].
  split; [exact Hr|split; [exact Hfew|split; assumption]].
Qed.
End Evaluate.

(** ** Filters *)

(** C22. The text of a filter is parsed to a filter or refused: its lexer and its
    parser never run out of fuel or index a token that is not there.  A filter
    has at most [MaxFilterNodes] nodes, as many as were counted, its brackets are
    closed, and its literals are well-formed. *)
Theorem jq_parser_total text :
  match parseFilter text with
  | POk root p =>
      nodes p = nodeCount root /\ nodeCount root <= MaxFilterNodes /\ depth p = 0 /\ literals root
  | PErr _ => True
  | PPanic | PNoFuel => False
  end.
Proof.
  unfold parseFilter. destruct (lexFilter_closed text) as (r & -> & Hr). destruct r as [e|toks]; [exact I|].
  apply parseTokens_parses, Hr.
Qed.

(** C23. The comparison of values is a total order up to equality: the other way
    round it gives the opposite answer and it is transitive.  Its equality of
    well-formed values is the one by which arrays are subtracted. *)
Theorem jq_order_total x y z :
  valueOrder y x = CompOpp (valueOrder x y) /\
  (valueOrder x y <> Gt -> valueOrder y z <> Gt -> valueOrder x z <> Gt) /\
  (wf x -> wf y -> sameValue x y = true <-> valueOrder x y = Eq) /\
  forall ctxErr s, (fst (compareValues ctxErr x y s) = inr (valueOrder x y) \/
                    exists e, fst (compareValues ctxErr x y s) = inl e /\ limited e).
Proof.
  split; [apply valueOrder_flips|]. split; [|split; [apply sameValue_order|intros ctxErr s; exact (compareValues_computes ctxErr x y s)]].
  destruct (valueOrder_chains x y z) as (C1 & C2 & C3).
  destruct (valueOrder x y) eqn:E1, (valueOrder y z) eqn:E2; try congruence; intros _ _;
    first [rewrite C1 by reflexivity; discriminate | rewrite C2 by reflexivity; discriminate | rewrite C3 by reflexivity; discriminate].
Qed.

End Top.

(** ** At concrete inputs *)

(** A text for doubles; no double is met below. *)
#[local] Instance anyText : FloatText := fun _ => lit "0".

(** The input [[1,[2,3]]] and the filter [.[1] | map(. + 1)]. *)
Definition sample : value :=
  JArray [JNumber (Int 1); JArray [JNumber (Int 2); JNumber (Int 3)] 3 5 1] 5 9 2.

Definition sampleFilter : node :=
  NPipe (NIndex NIdentity (NLiteral (JNumber (Int 1))))
        (NCall (lit "map") (Some (NBinary [] tokenPlus NIdentity (NLiteral (JNumber (Int 1)))))).

Lemma jq_results_well_formed_witness :
  let '(r, s') := evaluate (cancelAt None) (fun _ => None) sampleFilter sample (idle 0 0 0) in
  Forall wf (fst r) /\ fewResults (fst r) /\ topResults s' <= MaxResults /\
  (snd r = None -> topResults s' = 0 + Z.of_nat (length (fst r))).
Proof.
  apply (jq_results_well_formed None (fun _ => None) sampleFilter sample 0 0 0).
  - repeat split; discriminate.
  - discriminate.
  - repeat split; discriminate.
  - discriminate.
Defined.

Lemma jq_order_total_witness :
  valueOrder (JNumber (Int 2)) (JNumber (Int 1)) = CompOpp (valueOrder (JNumber (Int 1)) (JNumber (Int 2))) /\
  valueOrder (JNumber (Int 1)) (JString []) <> Gt /\
  (sameValue (JNumber (Int 1)) (JNumber (Int 2)) = true <-> valueOrder (JNumber (Int 1)) (JNumber (Int 2)) = Eq).
Proof.
  destruct (jq_order_total (JNumber (Int 1)) (JNumber (Int 2)) (JString [])) as (A & B & C & _).
  split; [exact A|split; [apply B; discriminate|apply C; discriminate]].
Defined.

End JqTop.
