(* ===== verification/InterpServices.v ===== *)
(** * Grants of systemd units (interp/system_services.go)

    A grant gives actions on one exact unit.  [parseSystemServiceGrants] builds
    the map of the granted actions and skips what is invalid; [authorize] checks
    operations against it.  An action is its name. *)

From S2P Require Import Prelude GoStd Sandbox.
From stdpp Require Import base list gmap sets strings sorting.
From Stdlib Require Import ZArith Lia Ascii.

Module InterpServices.
Import GoStd.

#[local] Open Scope Z_scope.
#[local] Existing Instance Sandbox.bytes_le_dec.

Record SystemdOperation := mkOperation { op_Service : bytes; op_Action : bytes }.

Record SystemServiceControlGrant := mkGrant { gr_Service : bytes; gr_Actions : list bytes }.

Definition MaxSystemServiceNameBytes : Z := 255.

Definition SystemServiceAllActions : bytes := lit "*".
Definition SystemServiceRead : bytes := lit "read".
Definition SystemServiceClean : bytes := lit "clean".

Definition systemServiceActionOrder : list bytes :=
  [SystemServiceRead; SystemServiceClean; lit "start"; lit "stop"; lit "reload"; lit "restart"; lit "enable"; lit "disable"].

Abbreviation systemdGrants := (gmap bytes (gset bytes)).

Inductive serviceErr :=
| NameEmpty | NameTooLong | NameNotUTF8 | NameSeparator (service : bytes) | NameColon (service : bytes)
| NameGlob (service : bytes) | NameSpace (service : bytes)
| NoOperations | UnsupportedAction (action service : bytes) | NeedsRemediation (action : bytes)
| NotGranted (service action : bytes).

(** [utf8.ValidString]: no chunk is a byte that does not decode. *)
Definition validUTF8 (s : bytes) : bool :=
  forallb (fun ch => let '(r, w) := DecodeRune ch in negb ((r =? RuneError) && (w =? 1)%nat)) (runes s).

(** [unicode.IsSpace] and [unicode.IsControl]. *)
Definition isSpaceRune (r : Z) : bool :=
  ((9 <=? r) && (r <=? 13)) || (r =? 32) || (r =? 133) || (r =? 160) || (r =? 5760)
  || ((8192 <=? r) && (r <=? 8202)) || (r =? 8232) || (r =? 8233) || (r =? 8239) || (r =? 8287) || (r =? 12288).

Definition isControlRune (r : Z) : bool := ((0 <=? r) && (r <? 32)) || ((127 <=? r) && (r <? 160)).

(** The loop over the runes of a name: the first one that is refused. *)
Fixpoint refusedRune (service : bytes) (rs : list Z) : option serviceErr :=
  match rs with
  | [] => None
  | r :: rs =>
      if existsb (fun c => r =? code c) (lit "*?[]") then Some (NameGlob service)
      else if isSpaceRune r || isControlRune r then Some (NameSpace service)
      else refusedRune service rs
  end.

Definition validateSystemServiceName (service : bytes) : option serviceErr :=
  if bytes_eqb service [] then Some NameEmpty
  else if MaxSystemServiceNameBytes <? Z.of_nat (length service) then Some NameTooLong
  else if negb (validUTF8 service) then Some NameNotUTF8
  else if existsb (fun c => byte_in c "/\") service then Some (NameSeparator service)
  else if existsb (fun c => (c =c ":")%go) service then Some (NameColon service)
  else refusedRune service (map (fun ch => fst (DecodeRune ch)) (runes service)).

Definition validSystemServiceAction (action : bytes) : bool := bool_decide (action ∈ systemServiceActionOrder).

(** ** Parsing *)

(** A skipped grant, or a skipped action of a grant. *)
Inductive serviceWarning :=
| SkippedGrant (i : nat) (e : serviceErr)
| SkippedAction (action : bytes) (i : nat) (service : bytes).

Definition grantedActions (allowed : systemdGrants) (service : bytes) : gset bytes := default ∅ (allowed !! service).

(** Add actions to those of a unit. *)
Definition putActions (service : bytes) (new : list bytes) (allowed : systemdGrants) : systemdGrants :=
  <[service := list_to_set new ∪ grantedActions allowed service]> allowed.

(** The loop over the actions of grant [i]. *)
Fixpoint parseActions (i : nat) (service : bytes) (actions : list bytes) (allowed : systemdGrants) (ws : list serviceWarning)
    : systemdGrants * list serviceWarning :=
  match actions with
  | [] => (allowed, ws)
  | action :: actions =>
      if bytes_eqb action SystemServiceAllActions
      then parseActions i service actions (putActions service systemServiceActionOrder allowed) ws
      else if negb (validSystemServiceAction action)
      then parseActions i service actions allowed (ws ++ [SkippedAction action i service])
      else parseActions i service actions (putActions service [action] allowed) ws
  end.

Fixpoint parseGrants (i : nat) (grants : list SystemServiceControlGrant) (allowed : systemdGrants) (ws : list serviceWarning)
    : systemdGrants * list serviceWarning :=
  match grants with
  | [] => (allowed, ws)
  | grant :: grants =>
      match gr_Actions grant with
      | [] => parseGrants (S i) grants allowed ws
      | _ =>
          match validateSystemServiceName (gr_Service grant) with
          | Some e => parseGrants (S i) grants allowed (ws ++ [SkippedGrant i e])
          | None =>
              let '(allowed, ws) := parseActions i (gr_Service grant) (gr_Actions grant) allowed ws in
              parseGrants (S i) grants allowed ws
          end
      end
  end.

Definition parseSystemServiceGrants (grants : list SystemServiceControlGrant) : systemdGrants * list serviceWarning :=
  parseGrants 0 grants ∅ [].

(** ** Checking *)

(** One operation of [authorize]. *)
Definition authorizeOne (grants : systemdGrants) (remediation : bool) (op : SystemdOperation) : option serviceErr :=
  match validateSystemServiceName (op_Service op) with
  | Some e => Some e
  | None =>
      if negb (validSystemServiceAction (op_Action op)) then Some (UnsupportedAction (op_Action op) (op_Service op))
      else if negb (bytes_eqb (op_Action op) SystemServiceRead) && negb remediation
      then Some (NeedsRemediation (op_Action op))
      else if bool_decide (op_Action op ∈ grantedActions grants (op_Service op)) then None
      else Some (NotGranted (op_Service op) (op_Action op))
  end.

Fixpoint authorizeAll (grants : systemdGrants) (remediation : bool) (ops : list SystemdOperation) : option serviceErr :=
  match ops with
  | [] => None
  | op :: ops =>
      match authorizeOne grants remediation op with
      | Some e => Some e
      | None => authorizeAll grants remediation ops
      end
  end.

Definition authorize (grants : systemdGrants) (remediation : bool) (ops : list SystemdOperation) : option serviceErr :=
  match ops with
  | [] => Some NoOperations
  | _ => authorizeAll grants remediation ops
  end.

(** ** Listings *)

Definition sortedServices (grants : systemdGrants) : list bytes :=
  merge_sort Sandbox.bytes_le (map fst (map_to_list grants)).

Definition allowedSystemServicesList (grants : systemdGrants) : list SystemdOperation :=
  mjoin (map (fun service =>
    map (mkOperation service) (filter (fun a => a ∈ grantedActions grants service) systemServiceActionOrder))
    (sortedServices grants)).

Definition readableSystemServices (grants : systemdGrants) : list bytes :=
  merge_sort Sandbox.bytes_le
    (map fst (filter (fun sa => SystemServiceRead ∈ snd sa) (map_to_list grants))).

(** ** What is granted *)

(** Some grant of the list gives the action on the unit. *)
Definition granted (grants : list SystemServiceControlGrant) (service action : bytes) : Prop :=
  exists g, g ∈ grants /\ gr_Service g = service /\
    (action ∈ gr_Actions g \/ SystemServiceAllActions ∈ gr_Actions g).

Lemma grantedActions_put service new allowed s a :
  a ∈ grantedActions (putActions service new allowed) s <->
  a ∈ grantedActions allowed s \/ (s = service /\ a ∈ new).
Proof.
  unfold grantedActions at 1, putActions. destruct (decide (s = service)) as [->|Hne].
  - rewrite lookup_insert_eq. cbn. rewrite elem_of_union, elem_of_list_to_set. naive_solver.
  - rewrite lookup_insert_ne by congruence. unfold grantedActions. naive_solver.
Qed.

Lemma parseActions_granted i service actions allowed ws s a :
  a ∈ systemServiceActionOrder ->
  a ∈ grantedActions (fst (parseActions i service actions allowed ws)) s <->
  a ∈ grantedActions allowed s \/ (s = service /\ (a ∈ actions \/ SystemServiceAllActions ∈ actions)).
Proof.
  intros Ha. revert allowed ws. induction actions as [|x actions IH]; intros allowed ws; cbn [parseActions].
  - rewrite !elem_of_nil. tauto.
  - rewrite !elem_of_cons. destruct (bytes_eqb_spec x SystemServiceAllActions) as [->|Hx].
    + rewrite IH, grantedActions_put. intuition.
    + unfold validSystemServiceAction. case_bool_decide as Hv; cbn [negb].
      * rewrite IH, grantedActions_put, list_elem_of_singleton. intuition congruence.
      * rewrite IH. intuition congruence.
Qed.

Lemma granted_cons g grants service action :
  granted (g :: grants) service action <->
  (gr_Service g = service /\ (action ∈ gr_Actions g \/ SystemServiceAllActions ∈ gr_Actions g)) \/
  granted grants service action.
Proof.
  unfold granted. setoid_rewrite elem_of_cons. split.
  - intros (g' & [->|Hg] & ? & ?); [by left|right; eauto].
  - intros [[? ?]|(g' & ? & ? & ?)]; eauto.
Qed.

Lemma parseGrants_granted i grants allowed ws s a :
  a ∈ systemServiceActionOrder -> validateSystemServiceName s = None ->
  a ∈ grantedActions (fst (parseGrants i grants allowed ws)) s <->
  a ∈ grantedActions allowed s \/ granted grants s a.
Proof.
  intros Ha Hs. revert i allowed ws.
  induction grants as [|g grants IH]; intros i allowed ws; cbn [parseGrants].
  { split; [auto|]. intros [?|(g & []%elem_of_nil & _)]; done. }
  rewrite granted_cons. destruct (gr_Actions g) as [|x actions] eqn:Eg.
  { rewrite IH, !elem_of_nil. tauto. }
  rewrite <- Eg. clear Eg. destruct (validateSystemServiceName (gr_Service g)) eqn:Ev.
  { rewrite IH. assert (gr_Service g <> s) by congruence. tauto. }
  pose proof (parseActions_granted i (gr_Service g) (gr_Actions g) allowed ws s a Ha) as Hp.
  destruct (parseActions _ _ _ _ _) as [allowed' ws']. cbn [fst] in Hp. rewrite IH, Hp.
  assert (s = gr_Service g <-> gr_Service g = s) by (split; congruence). tauto.
Qed.

Lemma authorizeAll_spec grants remediation ops :
  authorizeAll grants remediation ops = None <-> forall op, op ∈ ops -> authorizeOne grants remediation op = None.
Proof.
  induction ops as [|op ops IH]; cbn [authorizeAll].
  - split; [intros _ op []%elem_of_nil|done].
  - setoid_rewrite elem_of_cons. destruct (authorizeOne _ _ op) eqn:E; [|rewrite IH; naive_solver].
    split; [done|]. intros H. rewrite H in E by auto. done.
Qed.

Lemma authorizeOne_spec grants remediation op :
  authorizeOne (fst (parseSystemServiceGrants grants)) remediation op = None <->
  validateSystemServiceName (op_Service op) = None /\ op_Action op ∈ systemServiceActionOrder /\
  (op_Action op = SystemServiceRead \/ remediation = true) /\ granted grants (op_Service op) (op_Action op).
Proof.
  unfold authorizeOne. destruct (validateSystemServiceName _) eqn:Ev; [split; [done|by intros [? _]]|].
  unfold validSystemServiceAction. case_bool_decide as Ha; cbn [negb]; [|split; [done|tauto]].
  pose proof (parseGrants_granted 0 grants ∅ [] _ _ Ha Ev) as Hg. fold (parseSystemServiceGrants grants) in Hg.
  unfold grantedActions at 2 in Hg. rewrite lookup_empty in Hg. cbn [default] in Hg. rewrite elem_of_empty in Hg.
  destruct (bytes_eqb_spec (op_Action op) SystemServiceRead) as [Hr|Hr], remediation; cbn [negb andb];
    try (split; [done|intuition congruence]); case_bool_decide as Hin; intuition congruence.
Qed.

(** C18. The operations a configuration of grants authorizes: at least one, and each
    on a valid unit, with a supported action that is read or in remediation mode,
    and that a grant for exactly this unit lists or covers with the star.  The
    order of the grants, duplicates and invalid grants change nothing. *)
Theorem system_services_exact grants remediation ops :
  authorize (fst (parseSystemServiceGrants grants)) remediation ops = None <->
  ops <> [] /\
  forall op, op ∈ ops ->
    validateSystemServiceName (op_Service op) = None /\ op_Action op ∈ systemServiceActionOrder /\
    (op_Action op = SystemServiceRead \/ remediation = true) /\ granted grants (op_Service op) (op_Action op).
Proof.
  destruct ops as [|op ops]; [cbn; naive_solver|]. cbn [authorize]. rewrite authorizeAll_spec.
  setoid_rewrite authorizeOne_spec. naive_solver.
Qed.

(** The listings show what is authorized. *)
Lemma allowedSystemServicesList_spec grants op :
  op ∈ allowedSystemServicesList grants <->
  op_Action op ∈ systemServiceActionOrder /\ op_Action op ∈ grantedActions grants (op_Service op).
Proof.
  unfold allowedSystemServicesList. rewrite list_elem_of_join. setoid_rewrite list_elem_of_fmap. split.
  - intros (l & Hop & service & -> & _). apply list_elem_of_fmap in Hop as (a & -> & [? ?]%list_elem_of_filter). done.
  - intros [Ho Hg]. exists (map (mkOperation (op_Service op))
      (filter (fun a => a ∈ grantedActions grants (op_Service op)) systemServiceActionOrder)).
    split; [apply list_elem_of_fmap; exists (op_Action op); destruct op; split; [done|by apply list_elem_of_filter]|].
    exists (op_Service op). split; [done|]. unfold sortedServices. rewrite merge_sort_Permutation.
    apply list_elem_of_fmap. unfold grantedActions in Hg. destruct (grants !! op_Service op) as [actions|] eqn:E; [|set_solver].
    exists (op_Service op, actions). by rewrite elem_of_map_to_list.
Qed.

Lemma readableSystemServices_spec grants service :
  service ∈ readableSystemServices grants <-> SystemServiceRead ∈ grantedActions grants service.
Proof.
  unfold readableSystemServices. rewrite merge_sort_Permutation, list_elem_of_fmap. unfold grantedActions. split.
  - intros ([s actions] & -> & [Hr Hin]%list_elem_of_filter). apply elem_of_map_to_list in Hin. cbn in *. by rewrite Hin.
  - destruct (grants !! service) as [actions|] eqn:E; [|set_solver]. intros Hr. exists (service, actions).
    split; [done|]. apply list_elem_of_filter. split; [done|by apply elem_of_map_to_list].
Qed.

End InterpServices.
