(* ===== verification/InterpCheck.v ===== *)
(** * The dry-run checker (interp/check.go)

    [Check] walks the parsed script and reports, for every command in it, what
    the policy would decide, without executing anything.  The checker is a state
    monad over the report and the shared budgets; the variables of a branch are a
    value that the functions take and return, since branches work on clones.
    The operands of the builtins are in the next file. *)

From S2P Require Import Prelude GoStd Filepath PathPolicy InterpSyntax InterpValidate InterpVars InterpState InterpExpand InterpCall InterpServices.
From stdpp Require Import base list gmap sets strings.
From Stdlib Require Import ZArith Lia Ascii.

Module InterpCheck.
Import GoStd Filepath InterpSyntax InterpVars InterpState InterpExpand InterpCall InterpServices.

#[local] Open Scope Z_scope.

(** ** Reports *)

Inductive CheckStatus := CheckAllowed | CheckDenied | CheckIndeterminate.

Inductive CheckIssueCode :=
| CheckParseError | CheckUnsupportedSyntax | CheckCommandNotAllowed | CheckUnknownCommand | CheckPathNotAllowed
| CheckRemediationRequired | CheckElevationNotAllowed | CheckSystemServiceNotAllowed | CheckInvalidArguments
| CheckReadonlyVariable | CheckRequiresExecution | CheckLimitExceeded.

#[export] Instance CheckStatus_eq_dec : EqDecision CheckStatus.
Proof. solve_decision. Defined.
#[export] Instance CheckIssueCode_eq_dec : EqDecision CheckIssueCode.
Proof. solve_decision. Defined.

Record CheckIssue := mkIssue { ci_Code : CheckIssueCode; ci_Message : bytes; ci_Path : bytes }.

Record CommandCheck := mkCheck {
  cm_Command : bytes; cm_Pos : Z * Z; cm_Status : CheckStatus; cm_Issues : list CheckIssue }.

(** A report; [Allowed] of an entry is that its status is [CheckAllowed]. *)
Record CheckResult := mkReport {
  cr_Allowed : bool; cr_Status : CheckStatus; cr_Commands : list CommandCheck; cr_Issues : list CheckIssue;
  cr_Warnings : list bytes }.

Definition MaxCheckCommands : Z := 16 * 2 ^ 10.
Definition maxCheckDepth : Z := 128.

Definition combineCheckStatus (a b : CheckStatus) : CheckStatus :=
  match a, b with
  | CheckDenied, _ | _, CheckDenied => CheckDenied
  | CheckIndeterminate, _ | _, CheckIndeterminate => CheckIndeterminate
  | _, _ => CheckAllowed
  end.

Definition issueStatus (code : CheckIssueCode) : CheckStatus :=
  match code with CheckRequiresExecution => CheckIndeterminate | _ => CheckDenied end.

(** [issue], with the path that the caller may set on the new issue. *)
Definition issueAt (path : bytes) (code : CheckIssueCode) (message : bytes) (c : CommandCheck) : CommandCheck :=
  mkCheck (cm_Command c) (cm_Pos c) (combineCheckStatus (cm_Status c) (issueStatus code))
          (cm_Issues c ++ [mkIssue code message path]).

Definition issue (code : CheckIssueCode) (message : bytes) (c : CommandCheck) : CommandCheck := issueAt [] code message c.

Definition setCommand (name : bytes) (c : CommandCheck) : CommandCheck :=
  mkCheck name (cm_Pos c) (cm_Status c) (cm_Issues c).

(** ** Policies *)

(** A query of the path policy: path, working directory, operation. *)
Record pathQuery := mkQuery { q_path : bytes; q_dir : bytes; q_op : bytes }.

(** The interface [checkPathPolicy]; an answer may depend on the queries before
    (the file system changes), and is the text of the refusal. *)
Record checkPathPolicy := mkPathPolicy {
  CheckPath : list pathQuery -> pathQuery -> option bytes;
  PathAccesses : list (bytes * bool) }.

Record checkPolicy := mkPolicy {
  cp_allowedCommands : bytes -> bool;
  cp_allowAllCommands : bool;
  cp_elevatableCommands : bytes -> bool;
  cp_elevationEnabled : bool;
  cp_remediationMode : bool;
  cp_systemServices : systemdGrants;
  cp_paths : checkPathPolicy;
  cp_pathsConfigured : bool;
  cp_remote : bool }.

Definition writable (policy : checkPolicy) : bool := existsb snd (PathAccesses (cp_paths policy)).

Definition isWrite (op : bytes) : bool := bytes_eqb op PathPolicy.PathWrite || bytes_eqb op PathPolicy.PathRemove.

(** ** The checker's state *)

Record checkValue := mkValue { cv_value : bytes; cv_known : bool }.

Record checkState := mkState {
  st_env : bytes -> Var;
  st_vars : gmap bytes checkValue;   (* values *)
  st_valueBytes : Z;
  st_envUnknown : bool;
  st_dir : bytes;
  st_dirKnown : bool;
  st_pipeline : bool }.

(** The checker: the report so far, the shared byte budget, how often the context
    was asked, and the queries made of the path policy. *)
Record checker := mkChecker {
  ck_Commands : list CommandCheck;
  ck_Issues : list CheckIssue;
  ck_Status : CheckStatus;
  ck_stopped : bool;
  ck_bytes : Z;
  ck_polls : nat;
  ck_queries : list pathQuery }.

Definition set_Commands (x : list CommandCheck) (k : checker) : checker :=
  mkChecker x (ck_Issues k) (ck_Status k) (ck_stopped k) (ck_bytes k) (ck_polls k) (ck_queries k).
Definition set_bytes (x : Z) (k : checker) : checker :=
  mkChecker (ck_Commands k) (ck_Issues k) (ck_Status k) (ck_stopped k) x (ck_polls k) (ck_queries k).
Definition set_ckpolls (x : nat) (k : checker) : checker :=
  mkChecker (ck_Commands k) (ck_Issues k) (ck_Status k) (ck_stopped k) (ck_bytes k) x (ck_queries k).
Definition set_queries (x : list pathQuery) (k : checker) : checker :=
  mkChecker (ck_Commands k) (ck_Issues k) (ck_Status k) (ck_stopped k) (ck_bytes k) (ck_polls k) x.

Inductive result (A : Type) :=
| Ok (a : A) (k : checker)
| Panic (msg : bytes)
| OutOfFuel.
Arguments Ok {A} a k.
Arguments Panic {A} msg.
Arguments OutOfFuel {A}.

Definition C (A : Type) : Type := checker -> result A.

#[export] Instance C_ret : MRet C := fun _ a k => Ok a k.
#[export] Instance C_bind : MBind C := fun _ _ f m k =>
  match m k with
  | Ok a k => f a k
  | Panic msg => Panic msg
  | OutOfFuel => OutOfFuel
  end.

Definition noFuel {A} : C A := fun _ => OutOfFuel.
Definition panicC {A} (msg : bytes) : C A := fun _ => Panic msg.

(** A loop over a list that stops when the body says so. *)
Fixpoint foldC {A S} (f : A -> S -> C S) (l : list A) (s : S) : C S :=
  match l with
  | [] => mret s
  | x :: l => s ← f x s; foldC f l s
  end.

Section Check.
Context {SX : Syntax} (X : expander) (registry : bytes -> option command).
Context (Pos : Node -> Z * Z).
Context (ctxErr : nat -> bool).
Context (policy : checkPolicy).

(** [ctx.Err() != nil]. *)
Definition cancelled : C bool := fun k => Ok (ctxErr (ck_polls k)) (set_ckpolls (S (ck_polls k)) k).

(** [syntax.Walk] with a closure of the monad. *)
Definition walkC {T} (f : Node -> T -> C (bool * T)) (n : Node) (t : T) : C T := fun k =>
  Walk (result T) (fun n r =>
    match r with
    | Ok t k =>
        match f n t k with
        | Ok (go, t) k => (go, Ok t k)
        | Panic msg => (false, Panic msg)
        | OutOfFuel => (false, OutOfFuel)
        end
    | _ => (false, r)
    end) n (Ok t k).

(** ** Variables *)

(** [clone]: copied one by one while the context lasts. *)
Definition clone (s : checkState) : C checkState :=
  '(vs, _) ← foldC (fun kv '(vs, go) =>
    if go : bool then
      done ← cancelled;
      mret (if done : bool then (vs, false) else (<[fst kv := snd kv]> vs, true))
    else mret (vs, false)) (map_to_list (st_vars s)) (∅, true);
  mret (mkState (st_env s) vs (st_valueBytes s) (st_envUnknown s) (st_dir s) (st_dirKnown s) (st_pipeline s)).

Definition valueLength (s : checkState) (name : bytes) : Z :=
  match st_vars s !! name with Some v => Z.of_nat (length (cv_value v)) | None => 0 end.

Definition setValue (name : bytes) (v : checkValue) (s : checkState) : checkState :=
  mkState (st_env s) (<[name := v]> (st_vars s))
    (st_valueBytes s + (Z.of_nat (length (cv_value v)) - valueLength s name))
    (st_envUnknown s) (st_dir s) (st_dirKnown s) (st_pipeline s).

Definition unknown : checkValue := mkValue [] false.

Definition value (s : checkState) (name : bytes) : checkValue :=
  if name =s "?" then unknown
  else match st_vars s !! name with
       | Some v => v
       | None => let vr := st_env s name in mkValue (v_Str vr) (negb (st_envUnknown s) || v_ReadOnly vr)
       end.

Definition setPipeline (s : checkState) : checkState :=
  mkState (st_env s) (st_vars s) (st_valueBytes s) (st_envUnknown s) (st_dir s) (st_dirKnown s) true.

(** ** Words *)

(** No unescaped glob or brace character. *)
Fixpoint plainLit (v : bytes) : bool :=
  match v with
  | [] => true
  | c :: v =>
      if (c =c "\")%go then match v with [] => true | _ :: v => plainLit v end
      else if byte_in c "*?[{" then false
      else plainLit v
  end.

Fixpoint expandableFuel (fuel : nat) (s : checkState) (parts : list Node) (quoted : bool) : bool :=
  match fuel with
  | O => false
  | S fuel =>
      forallb (fun p =>
        match view p with
        | VLit v => quoted || plainLit v
        | VSglQuoted _ => true
        | VDblQuoted ps => expandableFuel fuel s ps true
        | VParamExp pe =>
            match pe_Param pe with
            | Some name => cv_known (value s name) && (quoted || cv_known (value s (lit "IFS")))
            | None => false
            end
        | _ => false
        end) parts
  end.

(** The height of the parts bounds the nesting of quotes. *)
Definition expandable (s : checkState) (parts : list Node) (quoted : bool) : bool :=
  expandableFuel (S (list_max (map size parts))) s parts quoted.

(** The closure of [boundWord]; [expandable] has excluded a nil parameter. *)
Definition boundNode (s : checkState) (n : Node) (remaining : Z) : C (bool * Z) :=
  if remaining <? 0 then mret (false, remaining)
  else
    done ← cancelled;
    if done : bool then mret (false, remaining)
    else
      mret (match view n with
            | VLit v | VSglQuoted v => (true, remaining - Z.of_nat (length v))
            | VParamExp pe => (false, remaining - Z.of_nat (length (cv_value (value s (default [] (pe_Param pe))))))
            | _ => (true, remaining)
            end).

(** Charges what a word needs to the budget of the check. *)
Definition chargeWord (maxBytes remaining : Z) : C bool := fun k =>
  if (remaining <? 0) || (MaxExpandedBytesPerRun - ck_bytes k <? maxBytes - remaining) then Ok false k
  else Ok true (set_bytes (ck_bytes k + (maxBytes - remaining)) k).

Definition boundWord (s : checkState) (word : Node) (quoted : bool) (maxBytes : Z) : C bool :=
  done ← cancelled;
  if done || negb (expandable s (Parts word) quoted) then mret false
  else
    remaining ← walkC (boundNode s) word maxBytes;
    chargeWord maxBytes remaining.

(** How an expansion ends. *)
Inductive expansionEnd := ExpFinished | ExpStopped | ExpReturned (s : bytes) (err : option goErr) | ExpPanicked (msg : bytes).

(** Running the expander against [expansionConfig]: variables are those of the
    state, directories are refused, the environment cannot be written or listed,
    and there is no command substitution. *)
Fixpoint runCheckExp {T} (s : checkState) (yield : bytes -> option goErr -> T -> bool * T) (p : expProg) (t : T)
    : expansionEnd * T :=
  match p with
  | XDone => (ExpFinished, t)
  | XYield f err k => let '(go, t) := yield f err t in if go then runCheckExp s yield k t else (ExpStopped, t)
  | XRet r err => (ExpReturned r err, t)
  | XPanic msg => (ExpPanicked msg, t)
  | XGet name k => runCheckExp s yield (k (stringVar (cv_value (value s name)))) t
  | XSet name _ k => runCheckExp s yield (k (Some (plainErr (lit "environment is read-only")))) t
  | XEach k => runCheckExp s yield (k []) t
  | XReadDir _ k => runCheckExp s yield (k [] (Some (plainErr (lit "glob expansion requires execution")))) t
  | XCmdSubst _ k => runCheckExp s yield (k [] (Some (plainErr (lit "unexpected command substitution")))) t
  end.

(** [forEachCheckField]: false after a panic of the glob matcher. *)
Definition forEachCheckField {T} (s : checkState) (word : Node) (yield : bytes -> option goErr -> T -> bool * T) (t : T)
    : C (bool * T) :=
  match runCheckExp s yield (FieldsSeq X word) t with
  | (ExpPanicked msg, t) => if isGlobPatternPanic msg then mret (false, t) else panicC msg
  | (_, t) => mret (true, t)
  end.

Definition literal (s : checkState) (word : option Node) : C (bytes * bool) :=
  match word with
  | None => mret ([], true)
  | Some word =>
      fits ← boundWord s word true MaxVarBytes;
      if fits : bool then
        match fst (runCheckExp s (fun _ _ t => (true, t)) (Literal X word) tt) with
        | ExpReturned v err =>
            mret (v, match err with None => Z.of_nat (length v) <=? MaxVarBytes | Some _ => false end)
        | ExpPanicked msg => panicC msg
        | _ => mret ([], true)
        end
      else mret ([], false)
  end.

(** ** Limits and entries *)

Definition limit : C unit := fun k =>
  if ck_stopped k then Ok tt k
  else Ok tt (mkChecker (ck_Commands k)
    (ck_Issues k ++ [mkIssue CheckLimitExceeded (lit "static check exceeds command or nesting limit") []])
    CheckIndeterminate true (ck_bytes k) (ck_polls k) (ck_queries k)).

Definition add (n : Node) : C (option CommandCheck) := fun k =>
  if MaxCheckCommands <=? Z.of_nat (length (ck_Commands k)) then (limit;; mret None) k
  else Ok (Some (mkCheck [] (Pos n) CheckAllowed [])) k.

Definition record (entry : CommandCheck) : C unit := fun k => Ok tt (set_Commands (ck_Commands k ++ [entry]) k).

(** ** The gates on a command *)

(** The runner's configuration that the gates look at. *)
Definition policyConfig : runnerConfig :=
  mkConfig (cp_allowAllCommands policy) (cp_allowedCommands policy) (cp_remediationMode policy) (cp_pathsConfigured policy)
    (cp_elevationEnabled policy) (cp_elevatableCommands policy) registry.

Definition issueIf (b : bool) (code : CheckIssueCode) (message : bytes) (entry : CommandCheck) : CommandCheck :=
  if b then issue code message entry else entry.

Definition registered (name : bytes) : bool := match registry name with Some _ => true | None => false end.

Definition commandPolicy (elevated pipeline : bool) (entry : CommandCheck) : CommandCheck :=
  let name := cm_Command entry in
  let entry := issueIf (negb (cp_allowAllCommands policy) && negb (cp_allowedCommands policy name))
                 CheckCommandNotAllowed (name ++ lit ": command not allowed") entry in
  let entry := issueIf (negb (registered name)) CheckUnknownCommand (name ++ lit ": unknown command") entry in
  let entry := issueIf (elevated && (negb (cp_elevationEnabled policy) || negb (cp_elevatableCommands policy name)))
                 CheckElevationNotAllowed (name ++ lit ": elevation not allowed") entry in
  let entry := issueIf (elevated && pipeline)
                 CheckElevationNotAllowed (lit "elevated commands are not allowed in pipelines") entry in
  match remediationOnlyRefusal policyConfig name (cp_remediationMode policy) with
  | Some message => issue CheckRemediationRequired message entry
  | None => entry
  end.

(** ** Paths *)

(** The refusals of a remote policy that hold whatever the target's files are. *)
Definition remoteRefusal (path operation : bytes) : bytes :=
  let stats := bytes_eqb operation PathPolicy.PathStat || bytes_eqb operation PathPolicy.PathLstat in
  match PathAccesses (cp_paths policy) with
  | [] => if stats && PathPolicy.IsDevNull path then [] else lit "no path grants are configured"
  | _ => if isWrite operation && negb (writable policy) then lit "no writable path grants are configured" else []
  end.

Definition path (s : checkState) (p operation : bytes) (entry : CommandCheck) : C CommandCheck :=
  if isWrite operation && negb (cp_remediationMode policy)
  then mret (issue CheckRemediationRequired (lit "file writes require remediation mode") entry)
  else if cp_remote policy && negb (bytes_eqb (remoteRefusal p operation) [])
  then mret (issueAt p CheckPathNotAllowed (remoteRefusal p operation) entry)
  else if negb (st_dirKnown s) && negb (IsAbs p)
  then mret (issueAt p CheckRequiresExecution
         (if cp_remote policy
          then lit "relative path requires an explicit remote working directory or execution on the target"
          else lit "relative path depends on a runtime working directory") entry)
  else fun k =>
    let q := mkQuery p (st_dir s) operation in
    Ok (match CheckPath (cp_paths policy) (ck_queries k) q with
        | Some err => issueAt p CheckPathNotAllowed err entry
        | None =>
            if cp_remote policy
            then issueAt p CheckRequiresExecution (lit "remote filesystem must verify grant roots, symlink containment, file type, hard-link restrictions, and OS access") entry
            else entry
        end) (set_queries (ck_queries k ++ [q]) k).

(** ** Redirections *)

(** The consumer of the fields of a redirection's word. *)
Definition yieldPath (f : bytes) (err : option goErr) (t : bool * list bytes) : bool * (bool * list bytes) :=
  match err with
  | Some _ => (false, (false, snd t))
  | None =>
      if MaxExpandedBytesPerCommand <? Z.of_nat (length f) then (false, (false, snd t))
      else let paths := snd t ++ [f] in ((length paths <=? 1)%nat, (fst t, paths))
  end.

Definition redirectOperation (op : redirOp) : option bytes :=
  match op with
  | RdrIn => Some PathPolicy.PathRead
  | RdrOut | AppOut | ClbOut | RdrAll | AppAll => Some PathPolicy.PathWrite
  | _ => None
  end.

Definition redirect (s : checkState) (rd : Node) (entry : CommandCheck) : C CommandCheck :=
  match view rd with
  | VRedirect op _ (Some word) _ =>
      match redirectOperation op with
      | None => mret entry
      | Some operation =>
          fits ← boundWord s word false MaxExpandedBytesPerCommand;
          '(known, paths) ←
            (if fits : bool then
               '(ok, t) ← forEachCheckField s word yieldPath (true, []);
               mret (if ok : bool then t else (false, snd t))
             else mret (false, []));
          if negb known then mret (issue CheckRequiresExecution (lit "redirect target requires execution") entry)
          else
            match paths with
            | [p] =>
                if bytes_eqb operation PathPolicy.PathWrite && InterpValidate.isDevNull p then mret entry
                else path s p operation entry
            | _ => mret (issue CheckInvalidArguments (lit "ambiguous redirect") entry)
            end
      end
  | _ => mret entry
  end.

Definition redirects (s : checkState) (rds : list Node) (entry : CommandCheck) : C CommandCheck :=
  foldC (redirect s) rds entry.

(** ** Effects that depend on the execution *)

Definition setEnvUnknown (s : checkState) : checkState :=
  mkState (st_env s) (st_vars s) (st_valueBytes s) true (st_dir s) (st_dirKnown s) (st_pipeline s).

Definition setDirUnknown (s : checkState) : checkState :=
  mkState (st_env s) (st_vars s) (st_valueBytes s) (st_envUnknown s) (st_dir s) false (st_pipeline s).

(** Was the context cancelled while the variables were forgotten?  Then the
    working directory is left alone. *)
Definition forgetCommandEffects (name : bytes) (s : checkState) : C checkState :=
  '(s, go) ←
    (if (name =s "read") || bytes_eqb name [] then
       foldC (fun kv '(s, go) =>
         if go : bool then
           done ← cancelled;
           mret (if done : bool then (s, false) else (setValue (fst kv) unknown s, true))
         else mret (s, false)) (map_to_list (st_vars s)) (setEnvUnknown s, true)
     else mret (s, true));
  mret (if go && ((name =s "cd") || bytes_eqb name [])
        then setValue (lit "OLDPWD") unknown (setValue (lit "PWD") unknown (setDirUnknown s))
        else s).

(** The names that an assignment of [call] without arguments binds. *)
Definition forgetAssigns (assigns : list Node) (s : checkState) : C checkState :=
  '(s, _) ← foldC (fun a '(s, go) =>
    if go : bool then
      done ← cancelled;
      mret (if done : bool then (s, false)
            else (match view a with VAssign _ name _ _ _ => setValue name unknown s | _ => s end, true))
    else mret (s, false)) assigns (s, true);
  mret s.

(** The closure of [invalidate]. *)
Definition invalidateNode (n : Node) (s : checkState) : C (bool * checkState) :=
  done ← cancelled;
  if done : bool then mret (false, s)
  else
    match view n with
    | VCmdSubst _ | VSubshell _ => mret (false, s)
    | VBinaryCmd op _ _ => mret (negb (bool_decide (op = Pipe)), s)
    | VForClause _ (WordIter name _ _) _ => mret (true, setValue name unknown s)
    | VCallExpr assigns [] => s ← forgetAssigns assigns s; mret (false, s)
    | VCallExpr _ (arg :: _) =>
        '(name, known) ← literal s (Some arg);
        s ← forgetCommandEffects (if known && registered name then name else []) s;
        mret (false, s)
    | _ => mret (true, s)
    end.

Definition invalidate (n : Node) (s : checkState) : C checkState := walkC invalidateNode n s.

End Check.
End InterpCheck.
