(* ===== verification/InterpCheckArgs.v ===== *)
(** * The operands of checked commands (interp/check_commands.go)

    Which paths, units and nested commands a builtin's arguments name.  Nothing is
    called: the flag package hands over the parsed flags ([InspectArgs]). *)

From S2P Require Import Prelude GoStd Filepath PathPolicy InterpSyntax InterpVars InterpState InterpExpand InterpCall InterpServices InterpCheck.
From stdpp Require Import base list gmap sets strings.
From Stdlib Require Import ZArith Lia Ascii.

Module InterpCheckArgs.
Import GoStd Filepath InterpSyntax InterpVars InterpState InterpExpand InterpCall InterpServices InterpCheck.

(** What the checker reads of a parsed flag set: the text of a flag's value, was
    it given, and the values of a repeatable flag. *)
Record FlagSet := mkFlags {
  fl_Value : bytes -> option bytes;
  fl_Changed : bytes -> bool;
  fl_StringArray : bytes -> list bytes }.

Definition checkFlag (fs : FlagSet) (name : string) : bool :=
  match fl_Value fs (lit name) with Some v => v =s "true" | None => false end.

Definition changed (fs : FlagSet) (name : string) : bool := fl_Changed fs (lit name).

Definition flagText (fs : FlagSet) (name : string) : bytes := default [] (fl_Value fs (lit name)).

(** [strings.Index(s, sub) >= 0]. *)
Fixpoint Contains (s sub : bytes) : bool :=
  HasPrefix s sub || match s with [] => false | _ :: s => Contains s sub end.

Section Arguments.
Context {SX : Syntax} (registry : bytes -> option command) (ctxErr : nat -> bool) (policy : checkPolicy).
Context (serviceText : serviceErr -> bytes).

(** ** Units *)

(** The authorization of every unit, an issue for each refusal. *)
Definition authorizeUnits (action : bytes) (units : list bytes) (entry : CommandCheck) : CommandCheck :=
  foldl (fun entry unit =>
    match authorize (cp_systemServices policy) (cp_remediationMode policy) [mkOperation unit action] with
    | Some e => issue CheckSystemServiceNotAllowed (serviceText e) entry
    | None => entry
    end) entry units.

(** The action of a systemctl verb that takes units. *)
Definition verbAction (verb : bytes) : option bytes :=
  if verb =s "status" then Some SystemServiceRead
  else if negb (validSystemServiceAction verb) || bytes_eqb verb SystemServiceClean || bytes_eqb verb SystemServiceRead
  then None else Some verb.

Definition checkSystemctl (entry : CommandCheck) (args : list bytes) : CommandCheck :=
  let '(verb, args) := match args with [] => (lit "list-units", []) | v :: args => (v, args) end in
  if verb =s "list-units"
  then issueIf (match args with [] => false | _ => true end) CheckInvalidArguments
         (lit "systemctl list-units: operands are not supported") entry
  else
    match verbAction verb with
    | None => issue CheckInvalidArguments (lit "systemctl: unsupported command " ++ verb) entry
    | Some action =>
        match args with
        | [] => issue CheckInvalidArguments (lit "systemctl: at least one exact unit is required") entry
        | _ => authorizeUnits action args entry
        end
    end.

Definition SystemdJournaldService : bytes := lit "systemd-journald.service".

Definition checkJournalctl (entry : CommandCheck) (flags : FlagSet) (args : list bytes) : CommandCheck :=
  match args with
  | _ :: _ => issue CheckInvalidArguments (lit "journalctl: arbitrary journal matches are not supported") entry
  | [] =>
      let maintenance := checkFlag flags "rotate" || changed flags "vacuum-size" || changed flags "vacuum-time"
                         || checkFlag flags "dry-run" in
      if maintenance && negb (cp_remediationMode policy)
      then issue CheckRemediationRequired (lit "journal maintenance requires remediation mode") entry
      else
        let action := if maintenance then SystemServiceClean else SystemServiceRead in
        let units := if checkFlag flags "dmesg" || checkFlag flags "disk-usage" || maintenance
                     then [SystemdJournaldService] else fl_StringArray flags (lit "unit") in
        match units with
        | [] => issue CheckInvalidArguments (lit "journalctl: an exact --unit or --dmesg scope is required") entry
        | _ => authorizeUnits action units entry
        end
  end.

(** ** Operands *)

(** What is left of the operands: nothing more to check, or paths, the operation
    on them, and whether a dash is the standard input. *)
Inductive operandCheck :=
| Checked (entry : CommandCheck)
| CheckPaths (entry : CommandCheck) (paths : list bytes) (operation : bytes) (stdinDash : bool).

Definition requires (message : string) (entry : CommandCheck) : CommandCheck := issue CheckRequiresExecution (lit message) entry.
Definition invalid (message : string) (entry : CommandCheck) : CommandCheck := issue CheckInvalidArguments (lit message) entry.

Definition sortOperands (flags : FlagSet) (operands : list bytes) (entry : CommandCheck) : operandCheck :=
  CheckPaths
    (foldl (fun entry flag => issueIf (changed flags flag) CheckInvalidArguments
                                (lit "sort: --" ++ lit flag ++ lit " is not supported") entry)
       entry ["output"; "temporary-directory"; "compress-program"]%string)
    operands PathPolicy.PathRead true.

Definition listOperands (flags : FlagSet) (operands : list bytes) (entry : CommandCheck) : operandCheck :=
  let deref := (cm_Command entry =s "du") && checkFlag flags "dereference" in
  let both := deref && checkFlag flags "no-dereference" in
  CheckPaths (if both then requires "du symlink mode depends on ordered option evaluation" entry else entry)
    (match operands with [] => [lit "."] | _ => operands end)
    (if deref && negb both then PathPolicy.PathRead else PathPolicy.PathLstat) false.

Definition grepOperands (flags : FlagSet) (operands : list bytes) (entry : CommandCheck) : operandCheck :=
  if changed flags "regexp" then CheckPaths entry operands PathPolicy.PathRead true
  else match operands with
       | [] => Checked (invalid "grep: missing pattern" entry)
       | _ :: paths => CheckPaths entry paths PathPolicy.PathRead true
       end.

Definition sedOperands (flags : FlagSet) (operands : list bytes) (entry : CommandCheck) : operandCheck :=
  let entry := requires "embedded sed programs are not statically validated" entry in
  let '(op, dash) := if checkFlag flags "in-place" then (PathPolicy.PathWrite, false) else (PathPolicy.PathRead, true) in
  if changed flags "expression" then CheckPaths entry operands op dash
  else match operands with
       | [] => Checked (invalid "sed: missing script" entry)
       | _ :: paths => CheckPaths entry paths op dash
       end.

Definition awkOperands (flags : FlagSet) (operands : list bytes) (entry : CommandCheck) : operandCheck :=
  let entry := requires "embedded awk programs are not statically validated" entry in
  if changed flags "file" then Checked (requires "awk program-file operands require a runtime check" entry)
  else match operands with
       | [] => Checked (invalid "awk: missing program" entry)
       | _ :: paths =>
           if existsb (existsb (fun c => (c =c "=")%go)) paths
           then Checked (requires "awk assignment operands require a runtime check" entry)
           else CheckPaths entry paths PathPolicy.PathRead true
       end.

Definition cdOperands (s : checkState) (operands : list bytes) (entry : CommandCheck) : C operandCheck :=
  let fromVariable := match operands with [] => true | [p] => p =s "-" | _ => false end in
  let v := value s (match operands with [_] => lit "OLDPWD" | _ => lit "HOME" end) in
  if fromVariable && negb (cv_known v)
  then mret (Checked (requires "cd target depends on runtime environment" entry))
  else
    match (if fromVariable then [cv_value v] else operands) with
    | [p] =>
        if cp_remote policy && match PathAccesses (cp_paths policy) with [] => true | _ => false end
        then entry ← path policy s p PathPolicy.PathRead entry; mret (Checked entry)
        else if existsb (fun c => c =s "..") (Split "/"%char p)
        then mret (Checked (issueAt p CheckRequiresExecution
               (lit "cd parent traversal requires intermediate directory and symlink checks on the target") entry))
        else mret (CheckPaths entry [p] PathPolicy.PathRead false)
    | _ => mret (Checked (invalid "cd: too many arguments" entry))
    end.

(** The operation of a unary file test. *)
Definition testOperation (op : bytes) : option bytes :=
  if str_in op ["-r"; "-w"; "-x"]%string then Some PathPolicy.PathRead
  else if str_in op ["-L"; "-h"]%string then Some PathPolicy.PathLstat
  else if str_in op ["-e"; "-f"; "-d"; "-s"; "-b"; "-c"; "-p"; "-S"; "-u"; "-g"; "-k"; "-O"; "-G"; "-N"]%string
  then Some PathPolicy.PathStat
  else None.

Definition testOperands (s : checkState) (operands : list bytes) (entry : CommandCheck) : C operandCheck :=
  let operands :=
    if (cm_Command entry =s "[") && match last operands with Some a => a =s "]" | None => false end
    then take (length operands - 1) operands else operands in
  match operands with
  | [op; p] =>
      match testOperation op with
      | Some operation => entry ← path policy s p operation entry; mret (Checked entry)
      | None => mret (Checked (requires "test expression requires a runtime check" entry))
      end
  | _ => mret (Checked (requires "test expression requires a runtime check" entry))
  end.

Definition xargsOperands (s : checkState) (flags : FlagSet) (elevated : bool) (operands : list bytes) (entry : CommandCheck)
    : C operandCheck :=
  entry ← (if changed flags "arg-file" then path policy s (flagText flags "arg-file") PathPolicy.PathRead entry else mret entry);
  let name := match operands with n :: _ => n | [] => lit "echo" end in
  let entry :=
    if changed flags "replace" && Contains name (flagText flags "replace")
    then requires "xargs command name depends on input" entry
    else
      let child := commandPolicy registry policy elevated (st_pipeline s) (mkCheck name (0, 0)%Z CheckAllowed []) in
      mkCheck (cm_Command entry) (cm_Pos entry) (combineCheckStatus (cm_Status entry) (cm_Status child))
              (cm_Issues entry ++ cm_Issues child) in
  mret (Checked (requires "xargs builds command arguments from runtime input" entry)).

(** The options of find before its paths. *)
Fixpoint findOptions (paths : list bytes) (operation : bytes) (entry : CommandCheck) : CommandCheck + (list bytes * bytes) :=
  match paths with
  | [] => inr ([], operation)
  | p :: rest =>
      if p =s "--help" then inl entry
      else if p =s "-H" then inl (invalid "find: -H is not supported" entry)
      else if p =s "-L" then findOptions rest PathPolicy.PathRead entry
      else if p =s "-P" then findOptions rest PathPolicy.PathLstat entry
      else if p =s "--" then inr (rest, operation)
      else inr (paths, operation)
  end.

(** The operand is a start path and not the begin of the expression. *)
Definition startPath (p : bytes) : bool :=
  negb (HasPrefix p (lit "-") && (1 <? length p)) && negb (p =s "!") && negb (p =s "(").

Fixpoint startPaths (paths : list bytes) : list bytes :=
  match paths with
  | [] => []
  | p :: rest => if startPath p then p :: startPaths rest else []
  end.

Definition findOperands (operands : list bytes) (entry : CommandCheck) : operandCheck :=
  match findOptions operands PathPolicy.PathLstat entry with
  | inl entry => Checked entry
  | inr (paths, operation) =>
      let starts := startPaths paths in
      let entry := issueIf (length starts <? length paths) CheckRequiresExecution
                     (lit "find predicates and nested commands require a runtime check") entry in
      CheckPaths entry (match starts with [] => [lit "."] | _ => starts end) operation false
  end.

(** The switch over the commands. *)
Definition operandsOf (s : checkState) (flags : FlagSet) (elevated : bool) (operands : list bytes) (entry : CommandCheck)
    : C operandCheck :=
  let name := cm_Command entry in
  if str_in name ["echo"; "printf"; "true"; "false"; "exit"; "break"; "continue"; "read"; "tr"; "uname"; "help";
                  "df"; "free"; "ip"; "lsof"; "pmap"; "ps"; "ss"; "uptime"; "vmstat"; "ping"; "ntfs-du"; "pwd"]%string
  then mret (Checked entry)
  else if str_in name ["cat"; "head"; "tail"; "cut"; "wc"; "strings"]%string
  then mret (CheckPaths entry operands PathPolicy.PathRead true)
  else if name =s "sort" then mret (sortOperands flags operands entry)
  else if name =s "uniq" then
    mret (if 1 <? length operands then Checked (invalid "uniq: only one input operand is supported" entry)
          else CheckPaths entry operands PathPolicy.PathRead true)
  else if str_in name ["ls"; "du"]%string then mret (listOperands flags operands entry)
  else if name =s "stat" then mret (CheckPaths entry operands PathPolicy.PathRead false)
  else if name =s "grep" then mret (grepOperands flags operands entry)
  else if name =s "sed" then mret (sedOperands flags operands entry)
  else if name =s "awk" then mret (awkOperands flags operands entry)
  else if name =s "jq" then mret (Checked (requires "jq filter and file operands require a runtime check" entry))
  else if name =s "sha256sum" then
    mret (CheckPaths (issueIf (checkFlag flags "check") CheckRequiresExecution
                        (lit "checksum manifests select additional files at runtime") entry) operands PathPolicy.PathRead true)
  else if str_in name ["tee"; "truncate"; "logrotate"]%string then mret (CheckPaths entry operands PathPolicy.PathWrite false)
  else if name =s "rm" then mret (CheckPaths entry operands PathPolicy.PathRemove false)
  else if name =s "cd" then cdOperands s operands entry
  else if str_in name ["test"; "["]%string then testOperands s operands entry
  else if name =s "xargs" then xargsOperands s flags elevated operands entry
  else if name =s "find" then mret (findOperands operands entry)
  else if name =s "systemctl" then mret (Checked (checkSystemctl entry operands))
  else if name =s "journalctl" then mret (Checked (checkJournalctl entry flags operands))
  else mret (Checked (requires "builtin operand policies are not statically modeled" entry)).

(** The loop over the paths. *)
Fixpoint checkPaths (s : checkState) (paths : list bytes) (operation : bytes) (stdinDash : bool) (entry : CommandCheck)
    : C CommandCheck :=
  match paths with
  | [] => mret entry
  | p :: paths =>
      done ← cancelled ctxErr;
      if done : bool then mret entry
      else
        entry ← (if stdinDash && (p =s "-") then mret entry else path policy s p operation entry);
        checkPaths s paths operation stdinDash entry
  end.

Definition needsWritableRoot (name : bytes) (flags : FlagSet) : bool :=
  str_in name ["rm"; "tee"; "truncate"]%string || ((name =s "sed") && checkFlag flags "in-place").

Definition arguments (InspectArgs : bytes -> list bytes -> goErr + (FlagSet * list bytes))
    (s : checkState) (args : list bytes) (elevated : bool) (entry : CommandCheck) : C CommandCheck :=
  let name := cm_Command entry in
  match InspectArgs name args with
  | inl e => mret (issue CheckInvalidArguments (errText e) entry)
  | inr (flags, operands) =>
      if (name =s "sed") && checkFlag flags "in-place" && negb (cp_remediationMode policy)
      then mret (issue CheckRemediationRequired (lit "sed: in-place editing requires remediation mode") entry)
      else if needsWritableRoot name flags && negb (writable policy)
      then mret (issue CheckPathNotAllowed
             (name ++ lit ": no writable path is configured (an AllowedPaths entry with :rw is required)") entry)
      else
        let entry := issueIf (needsWritableRoot name flags && cp_remote policy) CheckRequiresExecution
                       (lit "remote filesystem must confirm a writable grant root is available") entry in
        if (name =s "logrotate") && negb (cp_pathsConfigured policy)
        then mret (issue CheckPathNotAllowed (lit "logrotate: no writable path is configured") entry)
        else if checkFlag flags "help" then mret entry
        else
          o ← operandsOf s flags elevated operands entry;
          match o with
          | Checked entry => mret entry
          | CheckPaths entry paths operation stdinDash => checkPaths s paths operation stdinDash entry
          end
  end.

End Arguments.
End InterpCheckArgs.
