(* ===== verification/InterpCheckRun.v ===== *)
(** * The walk of the dry-run checker (interp/check.go, check_remote.go)

    Statements, branches and command substitutions.  Statements nest at most
    [maxCheckDepth] deep: every call goes one level deeper, or from a statement to
    the substitutions of its words, or from an [if] to its statements, so three
    units of fuel for a level are enough. *)

From S2P Require Import Prelude GoStd Filepath PathPolicy InterpSyntax InterpValidate InterpVars InterpState InterpExpand InterpCall InterpExec InterpOptions InterpServices InterpCheck InterpCheckArgs.
From stdpp Require Import base list gmap sets strings.
From Stdlib Require Import ZArith Lia Ascii.

Module InterpCheckRun.
Import GoStd Filepath InterpSyntax InterpVars InterpState InterpExpand InterpCall InterpServices InterpCheck InterpCheckArgs.

Section Run.
Context {SX : Syntax} (X : expander) (registry : bytes -> option command).
Context (Pos : Node -> Z * Z) (ctxErr : nat -> bool) (policy : checkPolicy).
Context (serviceText : serviceErr -> bytes) (InspectArgs : bytes -> list bytes -> goErr + (FlagSet * list bytes)).

(** ** The words of a command *)

(** The fields so far, their length, are they all, and the entry. *)
Record argv := mkArgv { av_fields : list bytes; av_bytes : Z; av_complete : bool; av_entry : CommandCheck }.

Definition yieldField (f : bytes) (err : option goErr) (t : argv) : bool * argv :=
  match err with
  | Some _ => (false, mkArgv (av_fields t) (av_bytes t) false (av_entry t))
  | None =>
      let n := (av_bytes t + Z.of_nat (length f))%Z in
      if ((MaxExpandedArgumentsPerCommand + 1 <=? Z.of_nat (length (av_fields t))) || (MaxExpandedBytesPerCommand <? n))%Z
      then (false, mkArgv (av_fields t) n false
              (issue CheckLimitExceeded (lit "command expansion exceeds argument or byte limit") (av_entry t)))
      else (true, mkArgv (av_fields t ++ [f]) n true (av_entry t))
  end.

Definition incomplete (t : argv) : argv := mkArgv (av_fields t) (av_bytes t) false (av_entry t).

Fixpoint collectWords (s : checkState) (words : list Node) (t : argv) : C argv :=
  match words with
  | [] => mret t
  | word :: words =>
      fits ← boundWord ctxErr s word false MaxExpandedBytesPerCommand;
      if negb fits then mret (incomplete t)
      else
        '(ok, t) ← forEachCheckField X s word yieldField t;
        if negb ok then mret (incomplete t)
        else if negb (av_complete t) then mret t
        else collectWords s words t
  end.

(** ** Assignments *)

Definition assignOne (s : checkState) (a : Node) (entry : CommandCheck) (assignmentState : checkState)
    : C (CommandCheck * checkState) :=
  match view a with
  | VAssign _ name word _ _ =>
      if v_ReadOnly (st_env s name)
      then mret (issue CheckReadonlyVariable (name ++ lit ": readonly variable") entry, assignmentState)
      else
        '(v, known) ← literal X ctxErr assignmentState word;
        let total := (st_valueBytes assignmentState - valueLength assignmentState name + Z.of_nat (length v))%Z in
        let over := (MaxTotalVarsBytes <? total)%Z in
        let entry := issueIf over CheckLimitExceeded (lit "assignments exceed variable storage limit") entry in
        let v := if over then [] else v in
        let known := known && negb over in
        mret (issueIf (negb known) CheckRequiresExecution (lit "assignment value requires execution") entry,
              setValue name (mkValue v known) assignmentState)
  | _ => mret (entry, assignmentState)
  end.

(** [None] when the context is cancelled on the way. *)
Fixpoint assignments (s : checkState) (assigns : list Node) (entry : CommandCheck) (assignmentState : checkState)
    : C (option (CommandCheck * checkState)) :=
  match assigns with
  | [] => mret (Some (entry, assignmentState))
  | a :: assigns =>
      done ← cancelled ctxErr;
      if done : bool then mret None
      else
        '(entry, assignmentState) ← assignOne s a entry assignmentState;
        assignments s assigns entry assignmentState
  end.

(** ** Levels *)

Inductive task := TStmt (n : Node) | TIf (n : Node) | TSubst (n : Node).

Section Level.
Context (rec : task -> checkState -> Z -> C checkState).

Definition stmtsOf (ss : list Node) (s : checkState) (depth : Z) : C checkState :=
  foldC (fun n s => rec (TStmt n) s depth) ss s.

(** On a clone. *)
Definition branch (ss : list Node) (s : checkState) (depth : Z) : C unit :=
  b ← clone ctxErr s; stmtsOf ss b depth;; mret tt.

Definition substitutionsOf (ns : list Node) (s : checkState) (depth : Z) : C unit :=
  foldC (fun n _ => rec (TSubst n) s depth;; mret tt) ns tt.

(** The entry of [$(<file)]. *)
Definition catEntry (cs stmt : Node) (s : checkState) (depth : Z) : C unit :=
  e ← add Pos cs;
  match e with
  | None => mret tt
  | Some entry =>
      let entry := commandPolicy registry policy false (st_pipeline s) (setCommand (lit "cat") entry) in
      let rds := match view stmt with VStmt _ rds _ _ _ _ => rds | _ => [] end in
      entry ← redirects X ctxErr policy s rds entry;
      record entry;;
      substitutionsOf rds s (depth + 1)
  end.

Definition isStopped : C bool := fun k => Ok (ck_stopped k) k.

(** The closure of [substitutions]. *)
Definition substitutionNode (s : checkState) (depth : Z) (n : Node) (u : unit) : C (bool * unit) :=
  stopped ← isStopped;
  if stopped : bool then mret (false, u)
  else
    done ← cancelled ctxErr;
    if done : bool then mret (false, u)
    else
      match view n with
      | VCmdSubst ss =>
          match ss with
          | [stmt] =>
              match catShortcutArg stmt with
              | Some _ => catEntry n stmt s depth
              | None => branch ss s (depth + 1)
              end
          | _ => branch ss s (depth + 1)
          end;;
          mret (false, u)
      | _ => mret (true, u)
      end.

Definition substitutions (n : Node) (s : checkState) (depth : Z) : C unit :=
  if (maxCheckDepth <? depth)%Z then limit
  else walkC (substitutionNode s depth) n tt.

(** [call]. *)
Definition callEntry (s : checkState) (assigns args rds : list Node) (entry : CommandCheck)
    : C (option (CommandCheck * checkState)) :=
  t ← collectWords s args (mkArgv [] 0 true entry);
  let elevated := isSudo (av_fields t) in
  let fields := if elevated then tail (av_fields t) else av_fields t in
  let entry := av_entry t in
  let entry :=
    match fields with
    | name :: _ => commandPolicy registry policy elevated (st_pipeline s) (setCommand name entry)
    | [] => issueIf (elevated && av_complete t) CheckInvalidArguments (lit "sudo: command is required") entry
    end in
  let entry := issueIf (negb (av_complete t)) CheckRequiresExecution
                 (lit "command arguments depend on runtime expansion or globbing") entry in
  if bool_decide (cm_Status entry = CheckDenied) then mret (Some (entry, s))
  else
    entry ← redirects X ctxErr policy s rds entry;
    assignmentState ← (match assigns with [] => mret s | _ => clone ctxErr s end);
    r ← assignments s assigns entry assignmentState;
    match r with
    | None => mret None
    | Some (entry, assignmentState) =>
        entry ← (match fields with
                 | _ :: args =>
                     if av_complete t
                     then arguments registry ctxErr policy serviceText InspectArgs assignmentState args elevated entry
                     else mret entry
                 | [] => mret entry
                 end);
        mret (Some (entry,
          if match fields with [] => true | _ => false end && av_complete t && negb (bool_decide (cm_Status entry = CheckDenied))
          then mkState (st_env s) (st_vars assignmentState) (st_valueBytes assignmentState) (st_envUnknown s)
                       (st_dir s) (st_dirKnown s) (st_pipeline s)
          else s))
    end.

Definition checkCall (n call : Node) (assigns args rds : list Node) (s : checkState) (depth : Z) : C checkState :=
  e ← add Pos n;
  match e with
  | None => mret s
  | Some entry =>
      r ← callEntry s assigns args rds entry;
      match r with
      | None => mret s
      | Some (entry, s) =>
          record entry;;
          substitutionsOf [call] s depth;;
          substitutionsOf rds s depth;;
          if match args with [] => false | _ => true end && negb (bool_decide (cm_Status entry = CheckDenied))
          then forgetCommandEffects ctxErr (cm_Command entry) s
          else mret s
      end
  end.

(** The entry of the redirections of a compound command or of none. *)
Definition redirectEntry (n : Node) (rds : list Node) (s : checkState) (depth : Z) : C bool :=
  match rds with
  | [] => mret true
  | _ =>
      e ← add Pos n;
      match e with
      | None => mret false
      | Some entry =>
          entry ← redirects X ctxErr policy s rds entry;
          record entry;;
          substitutionsOf rds s depth;;
          mret true
      end
  end.

Definition compound (c : Node) (s : checkState) (depth : Z) : C checkState :=
  match view c with
  | VBlock ss => stmtsOf ss s (depth + 1)
  | VSubshell ss => branch ss s (depth + 1);; mret s
  | VBinaryCmd op x y =>
      if decide (op = Pipe) then
        l ← clone ctxErr s; r ← clone ctxErr s;
        rec (TStmt x) (setPipeline l) (depth + 1);;
        rec (TStmt y) (setPipeline r) (depth + 1);;
        mret s
      else
        s ← rec (TStmt x) s (depth + 1);
        branch [y] s (depth + 1);;
        invalidate X registry ctxErr y s
  | VIfClause _ _ _ _ =>
      s ← invalidate X registry ctxErr c s;
      rec (TIf c) s (depth + 1)
  | VWhileClause _ cond body =>
      s ← invalidate X registry ctxErr c s;
      branch cond s (depth + 1);;
      branch body s (depth + 1);;
      mret s
  | VForClause _ loop body =>
      s ← invalidate X registry ctxErr c s;
      substitutionsOf (match loop with WordIter _ _ items => items | OtherLoop => [] end) s depth;;
      branch body s (depth + 1);;
      mret s
  | _ => mret s
  end.

Definition checkStmt (n : Node) (s : checkState) (depth : Z) : C checkState :=
  stopped ← isStopped;
  if stopped : bool then mret s
  else
    done ← cancelled ctxErr;
    if done : bool then mret s
    else if (maxCheckDepth <? depth)%Z then limit;; mret s
    else
      match view n with
      | VStmt cmd rds _ _ _ _ =>
          match cmd with
          | Some c =>
              match view c with
              | VCallExpr assigns args => checkCall n c assigns args rds s depth
              | _ =>
                  go ← redirectEntry n rds s depth;
                  if go : bool then compound c s depth else mret s
              end
          | None => redirectEntry n rds s depth;; mret s
          end
      | _ => mret s
      end.

(** [ifClause]; the state of the caller is not changed. *)
Definition checkIf (n : Node) (s : checkState) (depth : Z) : C checkState :=
  if (maxCheckDepth <? depth)%Z then limit;; mret s
  else
    match view n with
    | VIfClause _ cond body els =>
        branch cond s depth;;
        branch body s depth;;
        match els with
        | Some e => b ← clone ctxErr s; rec (TIf e) b (depth + 1);; mret s
        | None => mret s
        end
    | _ => mret s
    end.

Definition perform (t : task) (s : checkState) (depth : Z) : C checkState :=
  match t with
  | TStmt n => checkStmt n s depth
  | TIf n => checkIf n s depth
  | TSubst n => substitutions n s depth;; mret s
  end.
End Level.

Fixpoint performFuel (fuel : nat) (t : task) (s : checkState) (depth : Z) : C checkState :=
  match fuel with
  | 0 => noFuel
  | S fuel => perform (performFuel fuel) t s depth
  end.

(** Three for each of the levels [0] to [maxCheckDepth + 1]. *)
Definition checkFuel : nat := 3 * (Z.to_nat maxCheckDepth + 3).

(** ** The report *)

(** A report, the error of the context, or the panic of the expander. *)
Inductive checkOutcome := Report (r : CheckResult) | Cancelled | CheckPanic (msg : bytes) | CheckNoFuel.

Definition finalStatus (k : checker) : CheckStatus :=
  foldl combineCheckStatus (ck_Status k) (map cm_Status (ck_Commands k)).

Definition denyAll (code : CheckIssueCode) (message : bytes) (warnings : list bytes) (polls : nat) : checkOutcome :=
  if ctxErr polls then Cancelled else Report (mkReport false CheckDenied [] [mkIssue code message []] warnings).

(** The walk over the statements of the program. *)
Definition checkProgram (ss : list Node) (s : checkState) (polls : nat) : result checkState :=
  stmtsOf (performFuel checkFuel) ss s 0 (mkChecker [] [] CheckAllowed false 0 polls []).

(** How often the context was asked when the validator is done, having been
    asked once before. *)
Definition validationPolls (program : Node) : nat :=
  InterpValidate.w_polls
    (Walk _ (InterpValidate.visit ctxErr (cp_remediationMode policy)) program (InterpValidate.mkWalk None [] [] 1)).

Definition checkScriptPolicy (parse : bytes -> goErr + Node) (script : bytes) (s : checkState) (warnings : list bytes)
    : checkOutcome :=
  if ctxErr 0 then Cancelled
  else
    match InterpExec.ParseScript parse script with
    | inl e => denyAll CheckParseError (errText e) warnings 1
    | inr program =>
        let polls := validationPolls program in
        match InterpValidate.validateNode ctxErr program (cp_remediationMode policy) 1 with
        | Some InterpValidate.CtxDone => Cancelled
        | Some e => denyAll CheckUnsupportedSyntax (InterpExec.validationText e) warnings polls
        | None =>
            match checkProgram (match view program with VFile ss => ss | _ => [] end) s polls with
            | Panic msg => CheckPanic msg
            | OutOfFuel => CheckNoFuel
            | Ok _ k =>
                if ctxErr (ck_polls k) then Cancelled
                else
                  let status := finalStatus k in
                  Report (mkReport (bool_decide (status = CheckAllowed)) status (ck_Commands k) (ck_Issues k) warnings)
            end
        end
    end.

End Run.

(** ** [Check] and [CheckRemote] *)

Section Entry.
Context {SX : Syntax} (X : expander) (registry : bytes -> option command).
Context (Pos : Node -> Z * Z) (ctxErr : nat -> bool).
Context (serviceText : serviceErr -> bytes) (InspectArgs : bytes -> list bytes -> goErr + (FlagSet * list bytes)).
Context (parse : bytes -> goErr + Node).

Definition startState (env : bytes -> Var) (vs : gmap bytes checkValue) (dir : bytes) (dirKnown : bool) : checkState :=
  mkState env vs 0 false dir dirKnown false.

(** The policy of a runner; its registry is the global one. *)
Definition localPolicy (cfg : runnerConfig) (services : systemdGrants) (sandbox : checkPathPolicy) : checkPolicy :=
  mkPolicy (allowedCommands cfg) (allowAllCommands cfg) (elevatableCommands cfg) (cf_elevate cfg)
    (cf_remediationMode cfg) services sandbox (cf_sandbox cfg) false.

(** [Check] of a runner made by [New]; [env] reads its environment. *)
Definition Check (cfg : runnerConfig) (services : systemdGrants) (sandbox : checkPathPolicy) (env : bytes -> Var)
    (dir : bytes) (warnings : list bytes) (script : bytes) : checkOutcome :=
  if ctxErr 0 then Cancelled
  else checkScriptPolicy X registry Pos (fun n => ctxErr (S n)) (localPolicy cfg services sandbox) serviceText InspectArgs
         parse script (startState env ∅ dir true) warnings.

Record RemotePolicy := mkRemote {
  rp_AllowedCommands : list bytes;
  rp_AllowedPaths : option (list bytes);     (* nil, or the grants *)
  rp_Mode : bytes;
  rp_AllowedSystemServices : list SystemServiceControlGrant;
  rp_ElevatableCommands : list bytes;
  rp_Env : list bytes;
  rp_Dir : bytes;
  rp_Timeout : Z }.

Inductive remoteErr :=
| RemoteTimeout | RemoteMode (mode : bytes) | RemoteDir | RemoteCommands (e : InterpOptions.optionError)
| RemoteElevatable (e : InterpOptions.optionError) | RemotePaths (e : PathPolicy.policyError)
| RemoteService (e : serviceErr) | RemoteAction (action : bytes) | RemoteEnv.

Definition ModeReadOnly : bytes := lit "read-only".
Definition ModeRemediation : bytes := lit "remediation".

Definition invalidAction (action : bytes) : bool :=
  negb (bytes_eqb action SystemServiceAllActions) && negb (validSystemServiceAction action).

(** The first invalid grant. *)
Fixpoint invalidGrant (grants : list SystemServiceControlGrant) : option remoteErr :=
  match grants with
  | [] => None
  | g :: grants =>
      match validateSystemServiceName (gr_Service g) with
      | Some e => Some (RemoteService e)
      | None =>
          match filter (fun a => invalidAction a = true) (gr_Actions g) with
          | a :: _ => Some (RemoteAction a)
          | [] => invalidGrant grants
          end
      end
  end.

(** A pair has a name before its equals sign, and no NUL. *)
Definition validPair (pair : bytes) : bool :=
  match IndexByte pair "="%char with Some (S _) => negb (existsb (Ascii.eqb "000") pair) | _ => false end.

Definition validMode (mode : bytes) : bool :=
  bytes_eqb mode [] || bytes_eqb mode ModeReadOnly || bytes_eqb mode ModeRemediation.

(** The environment of a fresh runner over the pairs of the policy. *)
Section Env.
Context (ListEnviron : list bytes -> bytes -> Var) (Version : bytes).

Definition standardVars (dir : bytes) : list (bytes * bytes) :=
  [(lit "PWD", dir); (lit "IFS", [" "; "009"; "010"]%char); (lit "OPTIND", lit "1"); (lit "RSHELL_VERSION", Version)].

Definition remoteEnv (pairs : list bytes) (dir : bytes) : bytes -> Var :=
  let base := ListEnviron pairs in
  let h := mkHeap {[0%nat := mkOverlay (Some EnvBase) ∅ None ∅ noStorage]} ∅ 1 in
  let h := foldl (fun h nv => setUncapped (Declared X) base 0 (fst nv) (stringVar (snd nv)) h) h (standardVars dir) in
  Get base h 0.

Definition remoteState (policy : RemotePolicy) : checkState :=
  let unknownIf (b : bool) name (vs : gmap bytes checkValue) := if b then <[name := unknown]> vs else vs in
  startState (remoteEnv (rp_Env policy) (rp_Dir policy))
    (unknownIf (match rp_AllowedPaths policy with Some _ => true | None => false end) (lit "ALLOWED_PATHS")
       (unknownIf (bytes_eqb (rp_Dir policy) []) (lit "PWD") ∅))
    (rp_Dir policy) (negb (bytes_eqb (rp_Dir policy) [])).

(** The lexical policy as the paths of a check. *)
Definition lexicalPaths (policyText : PathPolicy.policyError -> bytes) (roots : list PathPolicy.lexicalRoot) : checkPathPolicy :=
  mkPathPolicy (fun _ q => policyText <$> PathPolicy.lexicalCheckPath roots (q_path q) (q_dir q) (q_op q))
    (PathPolicy.lexicalPathAccesses roots).

Definition inSet (m : gset bytes) (name : bytes) : bool := bool_decide (name ∈ m).

Definition remotePolicy (policyText : PathPolicy.policyError -> bytes) (policy : RemotePolicy)
    (commands elevatable : gset bytes) (roots : list PathPolicy.lexicalRoot) : checkPolicy :=
  mkPolicy (inSet commands) false (inSet elevatable) true (bytes_eqb (rp_Mode policy) ModeRemediation)
    (fst (parseSystemServiceGrants (rp_AllowedSystemServices policy))) (lexicalPaths policyText roots)
    (match rp_AllowedPaths policy with Some _ => true | None => false end) true.

(** The configuration, or its first error. *)
Definition remoteConfig (policyText : PathPolicy.policyError -> bytes) (policy : RemotePolicy) : remoteErr + checkPolicy :=
  if (rp_Timeout policy <? 0)%Z then inl RemoteTimeout
  else if negb (validMode (rp_Mode policy)) then inl (RemoteMode (rp_Mode policy))
  else if negb (bytes_eqb (rp_Dir policy) []) && (negb (IsAbs (rp_Dir policy)) || existsb (Ascii.eqb "000") (rp_Dir policy))
  then inl RemoteDir
  else
    match InterpOptions.parseAllowedCommands (rp_AllowedCommands policy) with
    | inl e => inl (RemoteCommands e)
    | inr commands =>
        match InterpOptions.parseAllowedCommands (rp_ElevatableCommands policy) with
        | inl e => inl (RemoteElevatable e)
        | inr elevatable =>
            match PathPolicy.NewLexicalPolicy (default [] (rp_AllowedPaths policy)) with
            | inl e => inl (RemotePaths e)
            | inr roots =>
                match invalidGrant (rp_AllowedSystemServices policy) with
                | Some e => inl e
                | None =>
                    if negb (forallb validPair (rp_Env policy)) then inl RemoteEnv
                    else inr (remotePolicy policyText policy commands elevatable roots)
                end
            end
        end
    end.

Definition CheckRemote (policyText : PathPolicy.policyError -> bytes) (script : bytes) (policy : RemotePolicy)
    : remoteErr + checkOutcome :=
  if ctxErr 0 then inr Cancelled
  else
    match remoteConfig policyText policy with
    | inl e => inl e
    | inr config =>
        inr (checkScriptPolicy X registry Pos (fun n => ctxErr (S n)) config serviceText InspectArgs parse script
               (remoteState policy) [])
    end.
End Env.
End Entry.

End InterpCheckRun.
