(* ===== verification/InterpCheckSteps.v ===== *)
(** * The operations of the dry-run checker, one by one (interp/check.go)

    [quietly] is the judgement on operations that only count polls and bytes;
    [steps] on those that work on one entry: an entry that is allowed at the end
    was allowed before, and every path it asked about was granted. *)

From S2P Require Import Prelude PathPolicy InterpSyntax InterpVars InterpState InterpExpand InterpCall InterpServices InterpCheck InterpCheckArgs InterpCheckRun.
From stdpp Require Import base list gmap sets strings.
From Stdlib Require Import ZArith Lia Ascii.

(** * Reasoning about the dry-run checker (interp/check.go)

    What every operation of the checker does to its state: entries are only
    added, each with the status its issues give it; the budgets stay within their
    bounds; an entry that is still allowed has had all its paths granted. *)

Module InterpCheckLogic.
Import InterpSyntax InterpVars InterpState InterpExpand InterpCall InterpServices InterpCheck InterpCheckArgs InterpCheckRun.

(** ** Outcomes *)

Definition wp {A} (m : C A) (k : checker) (Q : A -> checker -> Prop) : Prop :=
  match m k with Ok a k' => Q a k' | Panic _ => True | OutOfFuel => False end.

Lemma cwp_ret {A} (a : A) k (Q : A -> checker -> Prop) : Q a k -> wp (mret a) k Q.
Proof. done. Qed.

Lemma cwp_bind {A B} (m : C A) (f : A -> C B) k (Q : B -> checker -> Prop) :
  wp m k (fun a k' => wp (f a) k' Q) -> wp (m ≫= f) k Q.
Proof. unfold wp, mbind, C_bind. by destruct (m k). Qed.

Lemma cwp_mono {A} (m : C A) k (Q R : A -> checker -> Prop) : wp m k Q -> (forall a k', Q a k' -> R a k') -> wp m k R.
Proof. unfold wp. destruct (m k); auto. Qed.

(** A computation after one with a known specification. *)
Lemma wp_seq {A B} (m : C A) (f : A -> C B) k (Q : A -> checker -> Prop) (R : B -> checker -> Prop) :
  wp m k Q -> (forall a k', Q a k' -> wp (f a) k' R) -> wp (m ≫= f) k R.
Proof. intros Hm Hf. apply cwp_bind. by eapply cwp_mono. Qed.

Lemma wp_foldC {A S} (f : A -> S -> C S) (I : S -> checker -> Prop) l s k :
  (forall x s k, x ∈ l -> I s k -> wp (f x s) k I) -> I s k -> wp (foldC f l s) k I.
Proof.
  revert s k. induction l as [|x l IH]; intros s k Hf HI; [done|]. cbn [foldC].
  eapply wp_seq; [apply Hf; [left|done]|]. intros s' k' HI'. apply IH; [|done]. intros. apply Hf; [by right|done].
Qed.

(** *** Walking *)

Section Walk.
Context {SX : Syntax} {T : Type} (f : Node -> T -> C (bool * T)).

Lemma walkC_unfold n t :
  forall k, walkC f n t k = ('(go, t) ← f n t; if go : bool then foldC (walkC f) (children n) t else mret t) k.
Proof.
  intros k. unfold walkC at 1. rewrite Walk_spec. unfold mbind, C_bind.
  destruct (f n t k) as [[go t'] k'|msg|]; [|done|done]. destruct go; [|done].
  generalize (children n) t' k'. clear t k t' k'. intros cs. induction cs as [|c cs IH]; intros t k; [done|].
  cbn [foldl foldC]. unfold mbind, C_bind.
  match goal with |- context [Walk (result T) ?g c (Ok t k)] =>
    change (walkC f c t k) with (Walk (result T) g c (Ok t k)); destruct (Walk (result T) g c (Ok t k)) as [t' k'|msg|] end.
  - apply IH.
  - clear IH. induction cs as [|c' cs IH]; [done|]. cbn [foldl]. rewrite Walk_spec. exact IH.
  - clear IH. induction cs as [|c' cs IH]; [done|]. cbn [foldl]. rewrite Walk_spec. exact IH.
Qed.

Lemma wp_walkC (I : T -> checker -> Prop) n t k :
  (forall n t k, I t k -> wp (f n t) k (fun r k' => I (snd r) k')) -> I t k -> wp (walkC f n t) k I.
Proof.
  intros Hf. revert t k. induction n as [n IH] using node_ind. intros t k HI. unfold wp. rewrite walkC_unfold.
  apply (wp_seq (f n t) _ k _ _ (Hf n t k HI)). intros [[] t'] k' HI'; [|done].
  apply wp_foldC; [|done]. intros c t'' k'' Hc HI''. by apply IH.
Qed.
End Walk.

(** ** Statuses *)

Definition statusOf (issues : list CheckIssue) : CheckStatus :=
  foldl combineCheckStatus CheckAllowed (map (fun i => issueStatus (ci_Code i)) issues).

Lemma combine_assoc a b c : combineCheckStatus a (combineCheckStatus b c) = combineCheckStatus (combineCheckStatus a b) c.
Proof. by destruct a, b, c. Qed.

Lemma combine_allowed a b : combineCheckStatus a b = CheckAllowed <-> a = CheckAllowed /\ b = CheckAllowed.
Proof. destruct a, b; cbn; naive_solver. Qed.

Lemma combine_denied a b : combineCheckStatus a b = CheckDenied <-> a = CheckDenied \/ b = CheckDenied.
Proof. destruct a, b; cbn; naive_solver. Qed.

Lemma combine_unit a : combineCheckStatus CheckAllowed a = a.
Proof. by destruct a. Qed.

Lemma foldl_combine a ss : foldl combineCheckStatus a ss = combineCheckStatus a (foldl combineCheckStatus CheckAllowed ss).
Proof.
  revert a. induction ss as [|s ss IH]; intros a; cbn [foldl]; [by destruct a|].
  rewrite IH, combine_unit, (IH s), combine_assoc. done.
Qed.

Lemma foldl_allowed ss : foldl combineCheckStatus CheckAllowed ss = CheckAllowed <-> Forall (eq CheckAllowed) ss.
Proof.
  induction ss as [|s ss IH]; cbn [foldl]; [by split|]. rewrite combine_unit, foldl_combine, combine_allowed, IH, Forall_cons. naive_solver.
Qed.

Lemma foldl_denied ss : foldl combineCheckStatus CheckAllowed ss = CheckDenied <-> CheckDenied ∈ ss.
Proof.
  induction ss as [|s ss IH]; cbn [foldl]; [split; [done|by intros ?%elem_of_nil]|].
  rewrite combine_unit, foldl_combine, combine_denied, IH, elem_of_cons. destruct s; naive_solver.
Qed.

Lemma statusOf_app xs js : statusOf (xs ++ js) = combineCheckStatus (statusOf xs) (statusOf js).
Proof. unfold statusOf. rewrite map_app, foldl_app, foldl_combine. done. Qed.

Lemma statusOf_allowed xs : statusOf xs = CheckAllowed <-> xs = [].
Proof.
  unfold statusOf. rewrite foldl_allowed. destruct xs as [|i xs]; [done|]. split; [|done].
  intros [H _]%Forall_cons. by destruct (ci_Code i).
Qed.

(** The status of an entry is that of its issues. *)
Definition exact (e : CommandCheck) : Prop := cm_Status e = statusOf (cm_Issues e).

Lemma issueAt_exact p code msg e : exact e -> exact (issueAt p code msg e).
Proof. unfold exact, issueAt. cbn [cm_Status cm_Issues]. intros ->. rewrite statusOf_app. f_equal. unfold statusOf. cbn [map foldl ci_Code]. by rewrite combine_unit. Qed.

(** An issue never leaves an entry allowed. *)
Lemma issueAt_not_allowed p code msg e : cm_Status (issueAt p code msg e) <> CheckAllowed.
Proof. cbn. destruct (cm_Status e), code; done. Qed.

(** [e'] is [e] with more issues. *)
Definition grown (e e' : CommandCheck) : Prop :=
  cm_Command e' = cm_Command e /\ cm_Pos e' = cm_Pos e /\ (exact e -> exact e') /\
  (cm_Status e' = CheckAllowed -> cm_Status e = CheckAllowed).

Lemma entry_grown_refl e : grown e e.
Proof. done. Qed.

Lemma entry_grown_trans e1 e2 e3 : grown e1 e2 -> grown e2 e3 -> grown e1 e3.
Proof. intros (A & B & D & E) (A' & B' & D' & E'). split; [congruence|]. split; [congruence|]. auto. Qed.

Lemma grown_issueAt p code msg e : grown e (issueAt p code msg e).
Proof. split; [done|]. split; [done|]. split; [apply issueAt_exact|]. intros H. by apply issueAt_not_allowed in H. Qed.

Lemma grown_issueIf b code msg e : grown e (issueIf b code msg e).
Proof. destruct b; [apply grown_issueAt|apply entry_grown_refl]. Qed.

Lemma issueIf_allowed b code msg e :
  cm_Status (issueIf b code msg e) = CheckAllowed <-> b = false /\ cm_Status e = CheckAllowed.
Proof.
  destruct b; cbn [issueIf]; [|tauto]. split; [intros H; by apply issueAt_not_allowed in H|by intros [? _]].
Qed.

Lemma grown_foldl {A} (f : CommandCheck -> A -> CommandCheck) l e :
  (forall e x, grown e (f e x)) -> grown e (foldl f e l).
Proof.
  intros Hf. revert e. induction l as [|x l IH]; intros e; cbn; [apply entry_grown_refl|].
  eapply entry_grown_trans; [apply Hf|apply IH].
Qed.

End InterpCheckLogic.

Module InterpCheckSteps.
Import InterpSyntax InterpVars InterpState InterpExpand InterpCall InterpServices InterpCheck InterpCheckArgs InterpCheckRun InterpCheckLogic.

Create HintDb check.

Section Steps.
Context {SX : Syntax} (X : expander) (registry : bytes -> option command).
Context (Pos : Node -> Z * Z) (ctxErr : nat -> bool) (policy : checkPolicy).
Context (serviceText : serviceErr -> bytes) (InspectArgs : bytes -> list bytes -> goErr + (FlagSet * list bytes)).

(** The context was never cancelled. *)
Definition live (k : checker) : Prop := forall p, p < ck_polls k -> ctxErr p = false.

Definition withinBytes (k : checker) : Prop := (ck_bytes k <= MaxExpandedBytesPerRun)%Z.

(** ** Operations that leave the report alone *)

Definition sameReport (k k' : checker) : Prop :=
  ck_Commands k' = ck_Commands k /\ ck_Issues k' = ck_Issues k /\ ck_Status k' = ck_Status k /\
  ck_stopped k' = ck_stopped k /\ ck_polls k <= ck_polls k' /\ (withinBytes k -> withinBytes k').

Definition quiet (k k' : checker) : Prop := sameReport k k' /\ ck_queries k' = ck_queries k.

Lemma sameReport_refl k : sameReport k k.
Proof. unfold sameReport. auto 10. Qed.

Lemma sameReport_trans k1 k2 k3 : sameReport k1 k2 -> sameReport k2 k3 -> sameReport k1 k3.
Proof.
  intros (A & B & D & E & F & G) (A' & B' & D' & E' & F' & G'). unfold sameReport.
  repeat (split; [solve [congruence|lia]|]). auto.
Qed.

Lemma ck_quiet_refl k : quiet k k.
Proof. split; [apply sameReport_refl|done]. Qed.

Lemma ck_quiet_trans k1 k2 k3 : quiet k1 k2 -> quiet k2 k3 -> quiet k1 k3.
Proof. intros [A B] [A' B']. split; [by eapply sameReport_trans|congruence]. Qed.

Lemma live_quiet k k' : quiet k k' -> live k' -> live k.
Proof. intros [(_ & _ & _ & _ & Hp & _) _] H p Hlt. apply H. lia. Qed.

Definition quietly {A} (m : C A) : Prop := forall k, wp m k (fun _ k' => quiet k k').

Lemma ck_q_ret {A} (a : A) : quietly (mret a).
Proof. intros k. apply ck_quiet_refl. Qed.

Lemma ck_q_panic {A} msg : quietly (panicC (A := A) msg).
Proof. done. Qed.

Lemma ck_q_bind {A B} (m : C A) (f : A -> C B) : quietly m -> (forall a, quietly (f a)) -> quietly (m ≫= f).
Proof.
  intros Hm Hf k. eapply wp_seq; [apply Hm|]. intros a k' Hk. eapply cwp_mono; [apply Hf|].
  intros b k'' Hk'. exact (ck_quiet_trans _ _ _ Hk Hk').
Qed.

Lemma q_foldC {A S} (f : A -> S -> C S) l s : (forall x s, quietly (f x s)) -> quietly (foldC f l s).
Proof.
  intros Hf k. apply (wp_foldC f (fun _ k' => quiet k k')); [|apply ck_quiet_refl].
  intros x s' k' _ Hk. eapply cwp_mono; [apply Hf|]. intros ? ? Hk'. exact (ck_quiet_trans _ _ _ Hk Hk').
Qed.

Lemma q_walkC {T} (f : Node -> T -> C (bool * T)) n t : (forall n t, quietly (f n t)) -> quietly (walkC f n t).
Proof.
  intros Hf k. apply (wp_walkC f (fun _ k' => quiet k k')); [|apply ck_quiet_refl].
  intros n' t' k' Hk. eapply cwp_mono; [apply Hf|]. intros ? ? Hk'. exact (ck_quiet_trans _ _ _ Hk Hk').
Qed.

Lemma q_cancelled : quietly (cancelled ctxErr).
Proof.
  intros k. unfold wp, cancelled, quiet, sameReport, withinBytes. cbn. auto 10.
Qed.

(** A check of the context that the whole run survived said nothing. *)
Lemma cancelled_live k : wp (cancelled ctxErr) k (fun b k' => quiet k k' /\ (live k' -> b = false)).
Proof. split; [apply q_cancelled|]. intros H. apply H. cbn. lia. Qed.

Lemma q_chargeWord m r : quietly (chargeWord m r).
Proof.
  intros k. unfold wp, chargeWord. destruct (_ || _) eqn:E; [apply ck_quiet_refl|].
  apply orb_false_iff in E as [_ E]. apply Z.ltb_ge in E.
  unfold quiet, sameReport, withinBytes. cbn [set_bytes ck_Commands ck_Issues ck_Status ck_stopped ck_polls ck_queries ck_bytes].
  split; [|done]. repeat (split; [done|]). intros _. lia.
Qed.

(** Splits the branches of an operation and applies the rules. *)
Ltac quietTac :=
  repeat first
    [ solve [eauto 2 with check] | apply ck_q_ret | apply ck_q_panic | apply q_cancelled | apply q_chargeWord | assumption
    | apply ck_q_bind; [|intros ?] | apply q_foldC; intros ? ? | apply q_walkC; intros ? ?
    | match goal with
      | |- quietly (let '(_, _) := ?x in _) => destruct x
      | |- quietly (match ?x with _ => _ end) => destruct x
      | |- quietly (if ?x then _ else _) => destruct x
      end ].

Lemma q_clone s : quietly (clone ctxErr s).
Proof. unfold clone. quietTac. Qed.

Lemma q_boundNode s n r : quietly (boundNode ctxErr s n r).
Proof. unfold boundNode. quietTac. Qed.

Lemma q_boundWord s w q m : quietly (boundWord ctxErr s w q m).
Proof. pose proof q_boundNode. unfold boundWord. quietTac. Qed.

Lemma q_forEachCheckField {T} s w (yield : bytes -> option goErr -> T -> bool * T) t :
  quietly (forEachCheckField X s w yield t).
Proof. unfold forEachCheckField. quietTac. Qed.

Lemma q_literal s w : quietly (literal X ctxErr s w).
Proof. pose proof q_boundWord. unfold literal. quietTac. Qed.

Lemma q_forgetCommandEffects name s : quietly (forgetCommandEffects ctxErr name s).
Proof. unfold forgetCommandEffects. quietTac. Qed.

Lemma q_forgetAssigns az s : quietly (forgetAssigns ctxErr az s).
Proof. unfold forgetAssigns. quietTac. Qed.

Lemma q_invalidate n s : quietly (invalidate X registry ctxErr n s).
Proof.
  pose proof q_literal. pose proof q_forgetCommandEffects. pose proof q_forgetAssigns.
  unfold invalidate. apply q_walkC. intros n' s'. unfold invalidateNode. quietTac.
Qed.

(** ** Operations on one entry *)

(** The queries after the first were granted, and ask no write outside
    remediation mode; a remote check has asked none. *)
Definition grantedSince (qs qs' : list pathQuery) : Prop :=
  qs `prefix_of` qs' /\ (cp_remote policy = true -> qs' = qs) /\
  forall i q, length qs <= i -> qs' !! i = Some q ->
    CheckPath (cp_paths policy) (take i qs') q = None /\ (isWrite (q_op q) = true -> cp_remediationMode policy = true).

Lemma granted_refl qs : grantedSince qs qs.
Proof. split; [done|]. split; [done|]. intros i q Hi Hq. apply lookup_lt_Some in Hq. lia. Qed.

Lemma granted_trans qs1 qs2 qs3 : grantedSince qs1 qs2 -> grantedSince qs2 qs3 -> grantedSince qs1 qs3.
Proof.
  intros (P1 & R1 & H1) (P2 & R2 & H2). split; [by etrans|]. split; [intros Hr; by rewrite R2, R1|].
  intros i q Hi Hq. destruct (decide (length qs2 <= i)) as [Hj|Hj]; [by apply H2|].
  destruct P2 as [rest ->]. rewrite lookup_app_l in Hq by lia. rewrite take_app_le by lia. by apply H1.
Qed.

Definition entryStep (k : checker) (e : CommandCheck) (k' : checker) (e' : CommandCheck) : Prop :=
  sameReport k k' /\ ck_queries k `prefix_of` ck_queries k' /\ grown e e' /\
  (cm_Status e' = CheckAllowed -> grantedSince (ck_queries k) (ck_queries k')).

Lemma entryStep_quiet k k' e e' : quiet k k' -> grown e e' -> entryStep k e k' e'.
Proof. intros [H Hq] He. unfold entryStep. rewrite Hq. split; [done|]. split; [done|]. split; [done|]. intros _. apply granted_refl. Qed.

Lemma entryStep_trans k1 e1 k2 e2 k3 e3 : entryStep k1 e1 k2 e2 -> entryStep k2 e2 k3 e3 -> entryStep k1 e1 k3 e3.
Proof.
  intros (A & B & D & E) (A' & B' & D' & E'). split; [by eapply sameReport_trans|]. split; [by etrans|].
  split; [by eapply entry_grown_trans|]. intros Ha. eapply granted_trans; [apply E, D', Ha|apply E', Ha].
Qed.

(** [entry] reads the entry off the result. *)
Definition steps {A} (e : CommandCheck) (entry : A -> CommandCheck) (m : C A) : Prop :=
  forall k, wp m k (fun a k' => entryStep k e k' (entry a)).

Abbreviation stepsEntry e m := (steps e (fun e => e) m).

Lemma s_ret {A} e (entry : A -> CommandCheck) a : grown e (entry a) -> steps e entry (mret a).
Proof. intros H k. apply entryStep_quiet; [apply ck_quiet_refl|done]. Qed.

Lemma s_quiet {A B} e (entry : B -> CommandCheck) (m : C A) f :
  quietly m -> (forall a, steps e entry (f a)) -> steps e entry (m ≫= f).
Proof.
  intros Hm Hf k. eapply wp_seq; [apply Hm|]. intros a k' Hk. eapply cwp_mono; [apply Hf|]. intros b k'' Hb.
  exact (entryStep_trans _ _ _ _ _ _ (entryStep_quiet _ _ e e Hk (entry_grown_refl e)) Hb).
Qed.

Lemma s_bind {A B} e (entry : A -> CommandCheck) (entry' : B -> CommandCheck) (m : C A) f :
  steps e entry m -> (forall a, steps (entry a) entry' (f a)) -> steps e entry' (m ≫= f).
Proof.
  intros Hm Hf k. eapply wp_seq; [apply Hm|]. intros a k' Hk. eapply cwp_mono; [apply Hf|]. intros b k'' Hb.
  exact (entryStep_trans _ _ _ _ _ _ Hk Hb).
Qed.

Lemma s_grown {A} e e' (entry : A -> CommandCheck) m : grown e e' -> steps e' entry m -> steps e entry m.
Proof.
  intros He Hm k. eapply cwp_mono; [apply Hm|]. intros b k' Hb.
  exact (entryStep_trans _ _ _ _ _ _ (entryStep_quiet _ _ _ _ (ck_quiet_refl k) He) Hb).
Qed.

Lemma s_foldC {A} (f : A -> CommandCheck -> C CommandCheck) l e :
  (forall x e, stepsEntry e (f x e)) -> stepsEntry e (foldC f l e).
Proof.
  intros Hf k. apply (wp_foldC f (fun e' k' => entryStep k e k' e')); [|apply entryStep_quiet; [apply ck_quiet_refl|apply entry_grown_refl]].
  intros x e' k' _ Hk. eapply cwp_mono; [apply Hf|]. intros ? ? Hk'. exact (entryStep_trans _ _ _ _ _ _ Hk Hk').
Qed.

(** *** Paths and redirections *)

Lemma s_path s p op e : stepsEntry e (path policy s p op e).
Proof.
  unfold path. destruct (isWrite op && negb (cp_remediationMode policy)) eqn:Ew; [apply s_ret, grown_issueAt|].
  destruct (cp_remote policy && _); [apply s_ret, grown_issueAt|]. destruct (negb (st_dirKnown s) && _); [apply s_ret, grown_issueAt|].
  intros k. unfold wp. cbn [set_queries ck_queries]. set (q := mkQuery p (st_dir s) op).
  assert (grown e (match CheckPath (cp_paths policy) (ck_queries k) q with
                   | Some err => issueAt p CheckPathNotAllowed err e
                   | None => if cp_remote policy then issueAt p CheckRequiresExecution (lit "remote filesystem must verify grant roots, symlink containment, file type, hard-link restrictions, and OS access") e else e end)) as Hg.
  { destruct (CheckPath _ _ _), (cp_remote policy); first [apply grown_issueAt|apply entry_grown_refl]. }
  split; [unfold sameReport, withinBytes; cbn; auto 10|]. split; [cbn; apply prefix_app_r; done|]. split; [exact Hg|].
  intros Ha. cbn [set_queries ck_queries]. split; [by apply prefix_app_r|]. split.
  { intros Hr. rewrite Hr in Ha. destruct (CheckPath _ _ q); by apply issueAt_not_allowed in Ha. }
  intros i q' Hi Hq'.
  assert (i = length (ck_queries k)) as -> by (apply lookup_lt_Some in Hq'; rewrite length_app in Hq'; cbn in Hq'; lia).
  rewrite list_lookup_middle in Hq' by done. injection Hq' as <-. rewrite take_app_length.
  destruct (CheckPath _ _ q) as [err|]; [by apply issueAt_not_allowed in Ha|]. split; [done|]. intros Hw. cbn in Hw. rewrite Hw in Ew.
  by destruct (cp_remediationMode policy).
Qed.

#[local] Hint Resolve entry_grown_refl grown_issueAt grown_issueIf : check.
#[local] Hint Resolve s_path : check.

Ltac stepTac :=
  repeat first
    [ solve [eauto 3 with check]
    | apply s_ret; solve [eauto 4 using entry_grown_trans, grown_issueAt, grown_issueIf with check]
    | match goal with
      | |- steps _ _ (let '(_, _) := ?x in _) => destruct x
      | |- steps _ _ (match ?x with _ => _ end) => destruct x
      | |- steps _ _ (if ?x then _ else _) => destruct x
      | |- steps _ _ (_ ≫= _) => first [apply s_quiet; [solve [eauto 2 with check | quietTac]|intros ?] | eapply s_bind; [solve [eauto 2 with check]|intros ?]]
      end ].

Lemma s_redirect s rd e : stepsEntry e (redirect X ctxErr policy s rd e).
Proof.
  pose proof q_boundWord. pose proof @q_forEachCheckField. unfold redirect, issue.
  destruct (view rd); try (apply s_ret, entry_grown_refl). destruct Word; [|apply s_ret, entry_grown_refl].
  destruct (redirectOperation Op); [|apply s_ret, entry_grown_refl].
  stepTac.
Qed.

Lemma s_redirects s rds e : stepsEntry e (redirects X ctxErr policy s rds e).
Proof. unfold redirects. apply s_foldC. intros. apply s_redirect. Qed.

(** *** The gates *)

(** A command passes the gates that do not depend on the marker of elevation. *)
Definition passes (name : bytes) : Prop :=
  (cp_allowAllCommands policy = true \/ cp_allowedCommands policy name = true) /\
  registered registry name = true /\
  remediationOnlyRefusal (policyConfig registry policy) name (cp_remediationMode policy) = None.

Lemma grown_commandPolicy elevated pipeline e : grown e (commandPolicy registry policy elevated pipeline e).
Proof.
  unfold commandPolicy. destruct (remediationOnlyRefusal _ _ _); [eapply entry_grown_trans; [|apply grown_issueAt]|];
    eauto 8 using entry_grown_trans, grown_issueIf.
Qed.

(** [commandPolicy] leaves an entry allowed exactly when every gate lets it pass. *)
Lemma commandPolicy_allowed elevated pipeline e :
  cm_Status (commandPolicy registry policy elevated pipeline e) = CheckAllowed <->
  cm_Status e = CheckAllowed /\ passes (cm_Command e) /\
  (elevated = true -> cp_elevationEnabled policy = true /\ cp_elevatableCommands policy (cm_Command e) = true /\ pipeline = false).
Proof.
  unfold commandPolicy, passes. destruct (remediationOnlyRefusal _ _ _) as [msg|].
  { split; [intros H; by apply issueAt_not_allowed in H|]. intros (_ & (_ & _ & ?) & _). done. }
  rewrite !issueIf_allowed. destruct (cp_allowAllCommands policy), (cp_allowedCommands policy _), (registered registry _),
    elevated, (cp_elevationEnabled policy), (cp_elevatableCommands policy _), pipeline; cbn; naive_solver.
Qed.

#[local] Hint Resolve grown_commandPolicy : check.

(** *** Operands *)

(** Cases on a list that is chosen by a test: none, one, or more. *)
Ltac caseList :=
  match goal with
  | |- context [match (if ?b then ?x else ?y) with [] => _ | _ => _ end] =>
      destruct (if b then x else y) as [|? [|? [|? ?]]]
  end.

Definition operandEntry (o : operandCheck) : CommandCheck :=
  match o with Checked e => e | CheckPaths e _ _ _ => e end.

Lemma grown_authorizeUnits action units e : grown e (authorizeUnits policy serviceText action units e).
Proof. apply grown_foldl. intros e' u. destruct (authorize _ _ _); eauto with check. Qed.

Lemma grown_systemctl e args : grown e (checkSystemctl policy serviceText e args).
Proof.
  unfold checkSystemctl, issue. destruct args as [|v args]; cbn; [eauto with check|]. destruct (_ =s _)%go; [eauto with check|].
  destruct (verbAction v); [|eauto with check]. destruct args; [eauto with check|apply grown_authorizeUnits].
Qed.

Lemma grown_journalctl e flags args : grown e (checkJournalctl policy serviceText e flags args).
Proof.
  unfold checkJournalctl, issue. destruct args; [|eauto with check]. destruct (_ && _); [eauto with check|].
  caseList; [eauto with check|apply grown_authorizeUnits..].
Qed.

Lemma grown_sort flags operands e : grown e (operandEntry (sortOperands flags operands e)).
Proof. apply grown_foldl. intros. eauto with check. Qed.

Lemma grown_list flags operands e : grown e (operandEntry (listOperands flags operands e)).
Proof. unfold listOperands, requires, issue. cbn. destruct (_ && _); eauto with check. Qed.

Lemma grown_grep flags operands e : grown e (operandEntry (grepOperands flags operands e)).
Proof. unfold grepOperands, invalid, issue. destruct (changed _ _), operands; cbn; eauto with check. Qed.

Lemma grown_sed flags operands e : grown e (operandEntry (sedOperands flags operands e)).
Proof.
  unfold sedOperands, requires, invalid, issue. destruct (checkFlag _ _), (changed _ _), operands; cbn;
    eauto using entry_grown_trans with check.
Qed.

Lemma grown_awk flags operands e : grown e (operandEntry (awkOperands flags operands e)).
Proof.
  unfold awkOperands, requires, invalid, issue. destruct (changed _ _), operands; cbn; try destruct (existsb _ _); cbn;
    eauto using entry_grown_trans with check.
Qed.

Lemma grown_findOptions paths op e :
  match findOptions paths op e with inl e' => grown e e' | inr _ => True end.
Proof.
  revert op. induction paths as [|p paths IH]; intros op; cbn [findOptions]; [done|].
  unfold invalid, issue. repeat (destruct (_ =s _)%go; [first [apply IH|done|eauto with check]|]). done.
Qed.

Lemma grown_find operands e : grown e (operandEntry (findOperands operands e)).
Proof.
  unfold findOperands. pose proof (grown_findOptions operands PathPolicy.PathLstat e) as H.
  destruct (findOptions _ _ _) as [e'|[paths op]]; [exact H|]. cbn. eauto with check.
Qed.

Lemma s_cd s operands e : steps e operandEntry (cdOperands policy s operands e).
Proof.
  unfold cdOperands, requires, invalid, issue. cbv zeta.
  destruct (_ && negb _); [apply s_ret; cbn; eauto with check|].
  caseList; [apply s_ret; cbn; eauto with check| |apply s_ret; cbn; eauto with check..].
  destruct (_ && _); [|destruct (existsb _ _); apply s_ret; cbn; eauto with check].
  eapply (s_bind _ (fun e : CommandCheck => e)); [apply s_path|]. intros e'. apply s_ret. cbn. eauto with check.
Qed.

Lemma s_test s operands e : steps e operandEntry (testOperands policy s operands e).
Proof.
  unfold testOperands, requires, issue. cbv zeta. caseList; try solve [apply s_ret; cbn; eauto with check].
  destruct (testOperation _); [|apply s_ret; cbn; eauto with check].
  eapply (s_bind _ (fun e : CommandCheck => e)); [apply s_path|]. intros e'. apply s_ret. cbn. eauto with check.
Qed.

(** The child of xargs gets an entry of its own, whose issues are taken over. *)
Lemma grown_child e child : exact child -> grown e (mkCheck (cm_Command e) (cm_Pos e)
  (combineCheckStatus (cm_Status e) (cm_Status child)) (cm_Issues e ++ cm_Issues child)).
Proof.
  intros Hc. unfold grown, exact in *. cbn [cm_Command cm_Pos cm_Status cm_Issues].
  split; [done|]. split; [done|]. split.
  - intros ->. by rewrite statusOf_app, Hc.
  - rewrite combine_allowed. tauto.
Qed.

Lemma s_xargs s flags elevated operands e : steps e operandEntry (xargsOperands registry policy s flags elevated operands e).
Proof.
  unfold xargsOperands. eapply (s_bind _ (fun e : CommandCheck => e)); [destruct (changed _ _); [apply s_path|apply s_ret, entry_grown_refl]|].
  intros e'. cbv zeta. apply s_ret. cbn [operandEntry]. unfold requires, issue. eapply entry_grown_trans; [|apply grown_issueAt].
  destruct (_ && _); [apply grown_issueAt|]. apply grown_child.
  apply (grown_commandPolicy elevated (st_pipeline s) (mkCheck _ (0, 0)%Z CheckAllowed [])). done.
Qed.

#[local] Hint Resolve grown_systemctl grown_journalctl grown_sort grown_list grown_grep grown_sed grown_awk grown_find s_cd s_test s_xargs : check.

Lemma s_operandsOf s flags elevated operands e :
  steps e operandEntry (operandsOf registry policy serviceText s flags elevated operands e).
Proof.
  unfold operandsOf, requires, invalid, issue. cbv zeta.
  repeat (match goal with |- steps _ _ (if ?b then _ else _) => destruct b end;
          [solve [eauto with check | apply s_ret; cbn [operandEntry]; eauto with check
                 | apply s_ret; destruct (1 <? _); cbn [operandEntry]; eauto with check]|]).
  apply s_ret. cbn. eauto with check.
Qed.

Lemma s_checkPaths s paths op dash e : stepsEntry e (checkPaths ctxErr policy s paths op dash e).
Proof.
  revert e. induction paths as [|p paths IH]; intros e; cbn [checkPaths]; [apply s_ret, entry_grown_refl|].
  apply s_quiet; [apply q_cancelled|]. intros [|]; [apply s_ret, entry_grown_refl|].
  eapply s_bind; [|exact IH]. destruct (_ && _); [apply s_ret, entry_grown_refl|apply s_path].
Qed.

Lemma s_arguments s args elevated e :
  stepsEntry e (arguments registry ctxErr policy serviceText InspectArgs s args elevated e).
Proof.
  unfold arguments, issue. destruct (InspectArgs _ _) as [err|[flags operands]]; [apply s_ret; eauto with check|].
  destruct (_ && _ && _); [apply s_ret; eauto with check|].
  destruct (needsWritableRoot _ flags && negb _); [apply s_ret; eauto with check|]. cbv zeta.
  eapply s_grown; [apply grown_issueIf|]. destruct (_ && negb _); [apply s_ret; eauto with check|].
  destruct (checkFlag _ _); [apply s_ret; eauto with check|].
  eapply s_bind; [apply s_operandsOf|]. intros [e'|e' paths op dash]; [apply s_ret, entry_grown_refl|apply s_checkPaths].
Qed.

End Steps.
End InterpCheckSteps.
