(* ===== verification/InterpCheckWalk.v ===== *)
(** * What the dry-run checker visits (interp/check.go)

    [site s x]: the statement [s] holds [x], a simple command, a statement with
    redirections or a [$(<file)], in a branch or in a substitution of one of its
    words.  Unless it was stopped or cancelled, the checker has an entry for every
    site, and what it adds to the report is sound. *)

From S2P Require Import Prelude PathPolicy InterpSyntax InterpVars InterpState InterpExpand InterpCall InterpServices InterpCheck InterpCheckArgs InterpCheckRun InterpCheckSteps.
From stdpp Require Import base list gmap sets strings.
From Stdlib Require Import ZArith Lia Ascii.

Module InterpCheckWalk.
Import InterpSyntax InterpVars InterpState InterpExpand InterpCall InterpServices InterpCheck InterpCheckArgs InterpCheckRun InterpCheckLogic InterpCheckSteps.

(** ** Sites *)

Section Sites.
Context {SX : Syntax}.

(** The statements of an [if] and of what follows its [else]. *)
Inductive ifStmt : Node -> Node -> Prop :=
| if_own c b cond body els s : view c = VIfClause b cond body els -> s ∈ cond ++ body -> ifStmt c s
| if_else c b cond body e s : view c = VIfClause b cond body (Some e) -> ifStmt e s -> ifStmt c s.

(** The statements directly in a command. *)
Definition bodyStmt (c s : Node) : Prop :=
  match view c with
  | VBlock ss | VSubshell ss => s ∈ ss
  | VBinaryCmd _ x y => s = x \/ s = y
  | VIfClause _ _ _ _ => ifStmt c s
  | VWhileClause _ cond body => s ∈ cond ++ body
  | VForClause _ _ body => s ∈ body
  | _ => False
  end.

(** The nodes of a statement whose command substitutions are run. *)
Definition wordNodes (cmd : option Node) (rds : list Node) : list Node :=
  rds ++ match cmd with
         | Some c =>
             match view c with
             | VCallExpr _ _ => [c]
             | VForClause _ (WordIter _ _ items) _ => items
             | _ => []
             end
         | None => []
         end.

Definition isCall (cmd : option Node) : bool :=
  match cmd with Some c => match view c with VCallExpr _ _ => true | _ => false end | None => false end.

Definition stmtRedirs (stmt : Node) : list Node := match view stmt with VStmt _ rds _ _ _ _ => rds | _ => [] end.

(** The statement of a substitution that is [$(<file)]. *)
Definition shortcut (ss : list Node) : option Node :=
  match ss with [stmt] => match catShortcutArg stmt with Some _ => Some stmt | None => None end | _ => None end.

Inductive site : Node -> Node -> Prop :=
| site_here n cmd rds a b c d :
    view n = VStmt cmd rds a b c d -> isCall cmd = true \/ rds <> [] -> site n n
| site_body n cmd rds a b c d s x :
    view n = VStmt (Some cmd) rds a b c d -> bodyStmt cmd s -> site s x -> site n x
| site_word n cmd rds a b c d w x :
    view n = VStmt cmd rds a b c d -> w ∈ wordNodes cmd rds -> wordSite w x -> site n x
with wordSite : Node -> Node -> Prop :=
| word_child n c x : (forall ss, view n <> VCmdSubst ss) -> c ∈ children n -> wordSite c x -> wordSite n x
| word_stmt n ss s x : view n = VCmdSubst ss -> shortcut ss = None -> s ∈ ss -> site s x -> wordSite n x
| word_cat n ss stmt : view n = VCmdSubst ss -> shortcut ss = Some stmt -> wordSite n n
| word_cat_redir n ss stmt rd x :
    view n = VCmdSubst ss -> shortcut ss = Some stmt -> rd ∈ stmtRedirs stmt -> wordSite rd x -> wordSite n x.

End Sites.

Section Walk.
Context {SX : Syntax} {X : expander} {registry : bytes -> option command}.
Context {Pos : Node -> Z * Z} {ctxErr : nat -> bool} {policy : checkPolicy}.
Context {serviceText : serviceErr -> bytes} {InspectArgs : bytes -> list bytes -> goErr + (FlagSet * list bytes)}.

Abbreviation alive := (live ctxErr).

(** ** Extending a report *)

Definition good (e : CommandCheck) : Prop :=
  exact e /\ (cm_Status e = CheckAllowed -> cm_Command e <> [] -> passes registry policy (cm_Command e)).

Definition withinCount (k : checker) : Prop := (Z.of_nat (length (ck_Commands k)) <= MaxCheckCommands)%Z.

(** Script-wide issues: none, or the limit. *)
Definition limitIssue : CheckIssue := mkIssue CheckLimitExceeded (lit "static check exceeds command or nesting limit") [].

Definition statusInv (k : checker) : Prop :=
  if ck_stopped k then ck_Status k = CheckIndeterminate /\ ck_Issues k = [limitIssue]
  else ck_Status k = CheckAllowed /\ ck_Issues k = [].

Record extends (k k' : checker) : Prop := mkExtends {
  ex_new : list CommandCheck;
  ex_commands : ck_Commands k' = ck_Commands k ++ ex_new;
  ex_good : Forall good ex_new;
  ex_polls : ck_polls k <= ck_polls k';
  ex_stopped : ck_stopped k = true -> ck_stopped k' = true;
  ex_status : statusInv k -> statusInv k';
  ex_bytes : withinBytes k -> withinBytes k';
  ex_count : withinCount k -> withinCount k';
  ex_queries : ck_queries k `prefix_of` ck_queries k';
  ex_granted : alive k' -> Forall (fun e => cm_Status e = CheckAllowed) ex_new ->
               grantedSince policy (ck_queries k) (ck_queries k') }.

Lemma extends_alive k k' : extends k k' -> alive k' -> alive k.
Proof. intros [new _ _ Hp _ _ _ _ _ _] H p Hlt. apply H. lia. Qed.

Lemma extends_same k k' : sameReport k k' -> ck_queries k `prefix_of` ck_queries k' ->
  (alive k' -> grantedSince policy (ck_queries k) (ck_queries k')) -> extends k k'.
Proof.
  intros (A & B & D & E & F & G) Hq Hg. exists []; unfold statusInv, withinCount; rewrite ?A, ?B, ?D, ?E, ?app_nil_r; auto.
Qed.

Lemma extends_quiet k k' : quiet k k' -> extends k k'.
Proof. intros [H Hq]. apply extends_same; [done|by rewrite Hq|]. rewrite Hq. intros _. apply granted_refl. Qed.

Lemma extends_refl k : extends k k.
Proof. apply extends_quiet, ck_quiet_refl. Qed.

Lemma extends_trans k1 k2 k3 : extends k1 k2 -> extends k2 k3 -> extends k1 k3.
Proof.
  intros H1 H2. pose proof (extends_alive _ _ H2) as Hl. destruct H1 as [n1 c1 g1 p1 s1 t1 b1 w1 q1 r1], H2 as [n2 c2 g2 p2 s2 t2 b2 w2 q2 r2].
  exists (n1 ++ n2); auto.
  - by rewrite c2, c1, app_assoc.
  - by apply Forall_app.
  - lia.
  - by etrans.
  - intros Ha [H H']%Forall_app. eapply granted_trans; [apply r1|apply r2]; auto.
Qed.

(** The work on an entry that is about to be added. *)
Definition entryDone (pos : Z * Z) (k k' : checker) (e : CommandCheck) : Prop :=
  sameReport k k' /\ ck_queries k `prefix_of` ck_queries k' /\ cm_Pos e = pos /\ good e /\
  (cm_Status e = CheckAllowed -> grantedSince policy (ck_queries k) (ck_queries k')).

Lemma extends_record pos k k' e : entryDone pos k k' e ->
  (Z.of_nat (length (ck_Commands k)) < MaxCheckCommands)%Z ->
  extends k (set_Commands (ck_Commands k' ++ [e]) k').
Proof.
  intros ((A & B & D & E & F & G) & Hq & _ & Hgood & Hr) Hlt.
  exists [e]; cbn [set_Commands ck_Commands ck_Issues ck_Status ck_stopped ck_bytes ck_polls ck_queries].
  - by rewrite A.
  - by apply Forall_singleton.
  - done.
  - by rewrite E.
  - unfold statusInv. cbn. by rewrite B, D, E.
  - exact G.
  - intros _. unfold withinCount. cbn. rewrite A, length_app. cbn. lia.
  - done.
  - intros _ H. apply Hr. by inversion H.
Qed.

(** ** The judgement *)

(** Neither stopped nor cancelled. *)
Definition clear (k : checker) : Prop := alive k /\ ck_stopped k = false.

Lemma clear_extends k k' : extends k k' -> clear k' -> clear k.
Proof.
  intros H [Ha Hs]. split; [by eapply extends_alive|]. destruct (ck_stopped k) eqn:E; [|done].
  destruct H as [_ _ _ _ Hst _ _ _ _ _]. by rewrite Hst in Hs.
Qed.

(** [m] extends the report, and when the check is clear at its end the entries
    satisfy [Q]. *)
Definition does {A} (Q : list CommandCheck -> Prop) (m : C A) : Prop :=
  forall k, wp m k (fun _ k' => extends k k' /\ (clear k' -> Q (ck_Commands k'))).

Definition monotone (Q : list CommandCheck -> Prop) : Prop := forall c new, Q c -> Q (c ++ new).

Lemma monotone_extends Q k k' : monotone Q -> extends k k' -> Q (ck_Commands k) -> Q (ck_Commands k').
Proof. intros HQ [new -> _ _ _ _ _ _ _ _]. apply HQ. Qed.

Lemma d_weaken {A} (P Q : list CommandCheck -> Prop) (m : C A) : (forall c, P c -> Q c) -> does P m -> does Q m.
Proof. intros H Hm k. eapply cwp_mono; [apply Hm|]. intros ? k' [He Hp]. auto. Qed.

Lemma d_quiet {A} (m : C A) : quietly m -> does (fun _ => True) m.
Proof. intros Hm k. eapply cwp_mono; [apply Hm|]. intros ? k' Hk. split; [by apply extends_quiet|done]. Qed.

Lemma d_bind {A B} (P Q : list CommandCheck -> Prop) (m : C A) (f : A -> C B) :
  monotone P -> does P m -> (forall a, does Q (f a)) -> does (fun c => P c /\ Q c) (m ≫= f).
Proof.
  intros HP Hm Hf k. eapply wp_seq; [apply Hm|]. intros a k' [He HPk]. eapply cwp_mono; [apply Hf|].
  intros b k'' [He' HQk]. split; [by eapply extends_trans|]. intros Hc. split; [|by apply HQk].
  eapply monotone_extends; [done..|]. by apply HPk, (clear_extends k' k'').
Qed.

(** Sequences in which one part alone does the work. *)
Lemma d_then {A B} (Q : list CommandCheck -> Prop) (m : C A) (f : A -> C B) :
  does (fun _ => True) m -> (forall a, does Q (f a)) -> does Q (m ≫= f).
Proof. intros Hm Hf. eapply d_weaken; [|apply (d_bind (fun _ => True)); [done|exact Hm|exact Hf]]. by intros c [_ H]. Qed.

Lemma d_first {A B} (Q : list CommandCheck -> Prop) (m : C A) (f : A -> C B) :
  monotone Q -> does Q m -> (forall a, does (fun _ => True) (f a)) -> does Q (m ≫= f).
Proof. intros HQ Hm Hf. eapply d_weaken; [|apply (d_bind Q (fun _ => True)); done]. by intros c [H _]. Qed.

Lemma d_ret {A} (a : A) : does (fun _ => True) (mret a).
Proof. apply d_quiet, ck_q_ret. Qed.

Lemma d_foldC {A S} (Q : A -> list CommandCheck -> Prop) (f : A -> S -> C S) l s :
  (forall x, monotone (Q x)) -> (forall x s, x ∈ l -> does (Q x) (f x s)) ->
  does (fun c => forall x, x ∈ l -> Q x c) (foldC f l s).
Proof.
  intros HQ. revert s. induction l as [|x l IH]; intros s Hf; cbn [foldC].
  - eapply d_weaken; [|apply d_ret]. intros c _ x []%elem_of_nil.
  - eapply d_weaken; [|apply (d_bind (Q x)); [apply HQ|apply Hf; by left|intros; apply IH; intros; apply Hf; by right]].
    intros c [Hx Hl] y [->|Hy]%elem_of_cons; auto.
Qed.

Lemma d_limit {A} Q (a : A) : does Q (limit;; mret a).
Proof.
  intros k. unfold wp, mbind, C_bind, limit. destruct (ck_stopped k) eqn:E; cbn.
  - split; [apply extends_refl|]. intros [_ Hs]. congruence.
  - split; [|by intros [_ Hs]]. exists []; cbn; rewrite ?app_nil_r; auto.
    + unfold statusInv. rewrite E. cbn. intros [_ ->]. done.
    + intros _ _. apply granted_refl.
Qed.

Lemma d_limit_unit Q : does Q limit.
Proof.
  intros k. pose proof (d_limit Q tt k) as H. unfold wp, mbind, C_bind in *. destruct (limit k); exact H.
Qed.

(** ** Entries *)

Definition covered (x : Node) (c : list CommandCheck) : Prop := exists e, e ∈ c /\ cm_Pos e = Pos x.

Lemma covered_monotone x : monotone (covered x).
Proof. intros c new (e & He & Hp). exists e. split; [apply elem_of_app; by left|done]. Qed.

(** Every site of a family is covered. *)
Definition coversAll (P : Node -> Prop) (c : list CommandCheck) : Prop := forall x, P x -> covered x c.

Lemma coversAll_monotone P : monotone (coversAll P).
Proof. intros c new H x Hx. by apply covered_monotone, H. Qed.

Definition fresh (n : Node) : CommandCheck := mkCheck [] (Pos n) CheckAllowed [].

(** [add], and then an entry that is worked on and added. *)
Lemma wp_entry {A} n (none : C A) (f : CommandCheck -> C A) k (Q : A -> checker -> Prop) :
  (forall k', extends k k' -> ck_stopped k' = true -> wp none k' Q) ->
  ((Z.of_nat (length (ck_Commands k)) < MaxCheckCommands)%Z -> wp (f (fresh n)) k Q) ->
  wp (e ← add Pos n; match e with None => none | Some e => f e end) k Q.
Proof.
  intros Hn Hf. unfold wp, add, mbind, C_bind. destruct (Z.leb_spec MaxCheckCommands (Z.of_nat (length (ck_Commands k)))); [|by apply Hf].
  pose proof (d_limit (fun _ => False) (@None CommandCheck) k) as H0. unfold wp, mbind, C_bind, limit in *.
  destruct (ck_stopped k) eqn:E; cbn in *; (apply Hn; [apply H0|cbn; done || exact E]).
Qed.

Lemma fresh_entryStep n k k' e : entryStep policy k (fresh n) k' e -> entryDone (Pos n) k k' e.
Proof.
  intros (Hs & Hq & (Hc & Hp & Hx & _) & Hg). split; [done|]. split; [done|]. split; [done|]. split; [|done].
  split; [by apply Hx|]. intros _ H. by rewrite Hc in H.
Qed.

(** The entry of a command whose name is known. *)
Lemma named_entryStep n k k1 k2 b elevated pipeline e :
  quiet k k1 -> exact b -> cm_Pos b = Pos n ->
  entryStep policy k1 (commandPolicy registry policy elevated pipeline b) k2 e -> entryDone (Pos n) k k2 e.
Proof.
  intros Hk Hb Hp He. pose proof (entryStep_trans policy _ _ _ _ _ _ (entryStep_quiet policy _ _ _ _ Hk (grown_commandPolicy registry policy elevated pipeline b)) He) as (Hs & Hq & (Hc' & Hp' & Hx' & _) & Hg).
  split; [done|]. split; [done|]. split; [congruence|]. split; [|done]. split; [by apply Hx'|].
  intros Ha _. destruct He as (_ & _ & (_ & _ & _ & Ha') & _). specialize (Ha' Ha).
  apply commandPolicy_allowed in Ha' as (_ & Hpass & _). by rewrite Hc'.
Qed.

(** *** Simple commands *)

(** What the consumer of an expansion keeps is kept by the expansion. *)
Lemma runCheckExp_keeps {T} (R : T -> T -> Prop) s (yield : bytes -> option goErr -> T -> bool * T) p :
  (forall t, R t t) -> (forall t1 t2 t3, R t1 t2 -> R t2 t3 -> R t1 t3) -> (forall f err t, R t (snd (yield f err t))) ->
  forall t, R t (snd (runCheckExp s yield p t)).
Proof.
  intros Hr Ht Hy. induction p; intros t; cbn [runCheckExp]; auto.
  pose proof (Hy field err t) as H. destruct (yield field err t) as [[] t']; cbn in *; [eapply Ht; [exact H|apply IHp]|exact H].
Qed.

Lemma yieldField_grown f err t : grown (av_entry t) (av_entry (snd (yieldField f err t))).
Proof. unfold yieldField. destruct err; [apply entry_grown_refl|]. cbv zeta. destruct (_ || _)%Z; [apply grown_issueAt|apply entry_grown_refl]. Qed.

Lemma s_collectWords s words t : steps policy (av_entry t) av_entry (collectWords X ctxErr s words t).
Proof.
  revert t. induction words as [|w words IH]; intros t; cbn [collectWords]; [apply s_ret, entry_grown_refl|].
  apply s_quiet; [apply q_boundWord|]. intros [|]; cbn [negb]; [|apply s_ret, entry_grown_refl].
  assert (steps policy (av_entry t) (fun r => av_entry (snd r)) (forEachCheckField X s w yieldField t)) as Hfe.
  { unfold forEachCheckField. pose proof (runCheckExp_keeps (fun t t' => grown (av_entry t) (av_entry t')) s yieldField (FieldsSeq X w)
      (fun t => entry_grown_refl _) (fun t1 t2 t3 => entry_grown_trans _ _ _) yieldField_grown t) as Hg.
    destruct (runCheckExp _ _ _ _) as [[] t']; cbn in *; try (apply s_ret; exact Hg).
    destruct (isGlobPatternPanic msg); [apply s_ret; exact Hg|]. intros k. exact I. }
  eapply s_bind; [exact Hfe|]. intros [[|] t']; cbn [snd negb]; [|apply s_ret, entry_grown_refl].
  destruct (av_complete t'); cbn [negb]; [apply IH|apply s_ret, entry_grown_refl].
Qed.

(** The assignments, or a cancellation on the way. *)
Definition assigned (k : checker) (e : CommandCheck) (r : option (CommandCheck * checkState)) (k' : checker) : Prop :=
  quiet k k' /\ match r with Some (e', _) => grown e e' | None => ~ alive k' end.

Lemma wp_assignOne s a e st k : wp (assignOne X ctxErr s a e st) k (fun r k' => quiet k k' /\ grown e (fst r)).
Proof.
  unfold assignOne. destruct (view a); try (split; [apply ck_quiet_refl|apply entry_grown_refl]).
  destruct (v_ReadOnly _); [split; [apply ck_quiet_refl|apply grown_issueAt]|].
  eapply wp_seq; [apply q_literal|]. intros [v known] k' Hk. split; [exact Hk|]. cbn [fst].
  eapply entry_grown_trans; apply grown_issueIf.
Qed.

Lemma wp_assignments s az e st k : wp (assignments X ctxErr s az e st) k (assigned k e).
Proof.
  revert e st k. induction az as [|a az IH]; intros e st k; cbn [assignments]; [split; [apply ck_quiet_refl|apply entry_grown_refl]|].
  eapply wp_seq; [apply cancelled_live|]. intros [|] k1 [Hk1 Hl].
  { split; [exact Hk1|]. intros Ha. by apply Hl in Ha. }
  eapply wp_seq; [apply wp_assignOne|]. intros [e1 st1] k2 [Hk2 He1]. eapply cwp_mono; [apply IH|].
  intros r k3 [Hk3 Hr]. split; [eapply ck_quiet_trans; [exact Hk1|eapply ck_quiet_trans; done]|].
  destruct r as [[e2 st2]|]; [|done]. by eapply entry_grown_trans.
Qed.

(** An entry that is ready, or a cancellation on the way. *)
Definition called (n : Node) (k : checker) (r : option (CommandCheck * checkState)) (k' : checker) : Prop :=
  match r with
  | Some (e, _) => entryDone (Pos n) k k' e
  | None => sameReport k k' /\ ck_queries k `prefix_of` ck_queries k' /\ ~ alive k'
  end.

(** The gates and the operands of a command keep an entry whose name is set. *)
Definition settled (n : Node) (e : CommandCheck) : Prop := cm_Pos e = Pos n /\ good e.

Lemma settled_grown n e e' : settled n e -> grown e e' -> settled n e'.
Proof.
  intros (Hp & Hx & Hg) (Hc & Hp' & Hx' & Ha). split; [congruence|]. split; [auto|]. rewrite Hc. auto.
Qed.

Lemma settled_name n e name elevated pipeline : exact e -> cm_Pos e = Pos n ->
  settled n (commandPolicy registry policy elevated pipeline (setCommand name e)).
Proof.
  intros Hx Hp. set (b := setCommand name e).
  destruct (grown_commandPolicy registry policy elevated pipeline b) as (Hc & Hp' & Hx' & _).
  split; [by rewrite Hp'|]. split; [by apply Hx'|]. intros Ha _. rewrite Hc. by apply commandPolicy_allowed in Ha as (_ & ? & _).
Qed.

Lemma settled_issueIf n e b code msg : settled n e -> settled n (issueIf b code msg e).
Proof. intros H. eapply settled_grown; [exact H|apply grown_issueIf]. Qed.

Lemma settled_anonymous n e : exact e -> cm_Pos e = Pos n -> cm_Command e = [] -> settled n e.
Proof. intros Hx Hp Hc. split; [done|]. split; [done|]. intros _ H. by rewrite Hc in H. Qed.

Lemma settled_done n k k1 e k2 e' : entryStep policy k (fresh n) k1 e -> settled n e' ->
  (cm_Status e' = CheckAllowed -> cm_Status e = CheckAllowed) ->
  sameReport k1 k2 -> ck_queries k1 `prefix_of` ck_queries k2 ->
  (cm_Status e' = CheckAllowed -> grantedSince policy (ck_queries k1) (ck_queries k2)) -> entryDone (Pos n) k k2 e'.
Proof.
  intros (Hs & Hq & _ & Hg) [Hp Hgood] Ha Hs' Hq' Hg'. split; [by eapply sameReport_trans|]. split; [by etrans|].
  split; [done|]. split; [done|]. intros H. eapply granted_trans; [apply Hg, Ha, H|apply Hg', H].
Qed.

(** After the words and the gates: redirections, assignments, operands. *)
Lemma wp_callEntry s az args rds n k :
  wp (callEntry X registry ctxErr policy serviceText InspectArgs s az args rds (fresh n)) k (called n k).
Proof.
  unfold callEntry. eapply wp_seq; [apply (s_collectWords s args (mkArgv [] 0 true (fresh n)))|].
  intros t k1 H1. cbn [av_entry] in H1. pose proof H1 as (_ & _ & (Hc & Hp & Hx & _) & _).
  specialize (Hx eq_refl). cbn in Hc, Hp. set (entry := issueIf (negb (av_complete t)) _ _ _).
  assert (settled n entry /\ (cm_Status entry = CheckAllowed -> cm_Status (av_entry t) = CheckAllowed)) as [Hset Hall].
  { unfold entry. rewrite issueIf_allowed.
    destruct (if isSudo (av_fields t) then tail (av_fields t) else av_fields t) as [|name rest].
    - rewrite issueIf_allowed. split; [|tauto]. apply settled_issueIf, settled_issueIf, settled_anonymous; auto.
    - split; [apply settled_issueIf, settled_name; auto|]. intros [_ Ha]. by apply commandPolicy_allowed in Ha as [? _]. }
  clearbody entry. case_bool_decide.
  { eapply settled_done; [exact H1|done|done|apply sameReport_refl|done|intros _; apply granted_refl]. }
  assert (forall e' k', entryStep policy k1 entry k' e' -> entryDone (Pos n) k k' e') as Hdone.
  { intros e' k' (Hs & Hq & Hg & Hr). eapply settled_done; [exact H1|by eapply settled_grown| |done|done|done].
    intros Ha. apply Hall, Hg, Ha. }
  eapply wp_seq; [apply s_redirects|]. intros e2 k2 H2.
  eapply (wp_seq _ _ k2 (fun _ k' => quiet k2 k')); [destruct az; [apply ck_q_ret|apply q_clone]|]. intros st k3 H3.
  eapply wp_seq; [apply wp_assignments|]. intros [[e4 st']|] k4 [H4 Hr]; cbn.
  2:{ pose proof (Hdone e2 k4 (entryStep_trans _ _ _ _ _ _ _ H2 (entryStep_quiet _ _ _ _ _ (ck_quiet_trans _ _ _ H3 H4) (entry_grown_refl _)))) as (? & ? & _).
      split; [done|]. split; [done|]. exact Hr. }
  eapply (wp_seq _ _ k4 (fun e5 k5 => entryStep policy k4 e4 k5 e5)).
  { destruct (if isSudo (av_fields t) then tail (av_fields t) else av_fields t) as [|name rest]; [apply s_ret, entry_grown_refl|].
    destruct (av_complete t); [apply s_arguments|apply s_ret, entry_grown_refl]. }
  intros e5 k5 H5. apply cwp_ret. cbn. apply Hdone. eapply entryStep_trans; [exact H2|].
  eapply entryStep_trans; [apply entryStep_quiet; [eapply ck_quiet_trans; [exact H3|exact H4]|exact Hr]|exact H5].
Qed.

(** ** One level of the walk *)

Section Level.
Context {rec : task -> checkState -> Z -> C checkState} {fits : task -> Z -> Prop}.

(** What a task covers. *)
Definition taskSites (t : task) (x : Node) : Prop :=
  match t with
  | TStmt n => site n x
  | TIf n => exists s, ifStmt n s /\ site s x
  | TSubst n => wordSite n x
  end.

Context (Hrec : forall t s d, fits t d -> does (coversAll (taskSites t)) (rec t s d)).

Definition stmtsSites (ss : list Node) (x : Node) : Prop := exists s, s ∈ ss /\ site s x.
Definition wordsSites (ns : list Node) (x : Node) : Prop := exists w, w ∈ ns /\ wordSite w x.

Lemma d_all {A} (P : A -> Node -> Prop) (l : list A) {B} (m : C B) :
  does (fun c => forall a, a ∈ l -> coversAll (P a) c) m -> does (coversAll (fun x => exists a, a ∈ l /\ P a x)) m.
Proof. apply d_weaken. intros c H x (a & Ha & Hx). by apply (H a Ha). Qed.

Lemma d_stmtsOf ss s d : (forall n, fits (TStmt n) d) -> does (coversAll (stmtsSites ss)) (stmtsOf rec ss s d).
Proof.
  intros Hf. apply (d_all (fun n => site n)), d_foldC; [intros; apply coversAll_monotone|].
  intros n s' _. apply (Hrec (TStmt n)), Hf.
Qed.

Lemma d_branch ss s d : (forall n, fits (TStmt n) d) -> does (coversAll (stmtsSites ss)) (branch ctxErr rec ss s d).
Proof.
  intros Hf. unfold branch. apply d_then; [apply d_quiet, q_clone|]. intros b.
  apply d_first; [apply coversAll_monotone|by apply d_stmtsOf|intros; apply d_ret].
Qed.

Lemma d_substitutionsOf ns s d : (forall n, fits (TSubst n) d) -> does (coversAll (wordsSites ns)) (substitutionsOf rec ns s d).
Proof.
  intros Hf. apply (d_all (fun n => wordSite n)), d_foldC; [intros; apply coversAll_monotone|].
  intros n u _. apply d_first; [apply coversAll_monotone|apply (Hrec (TSubst n)), Hf|intros; apply d_ret].
Qed.

(** An entry, and then what is done after it was added. *)
Lemma wp_record {A} n e (m : C A) Q k k' :
  entryDone (Pos n) k k' e -> (Z.of_nat (length (ck_Commands k)) < MaxCheckCommands)%Z -> does Q m ->
  wp (record e;; m) k' (fun _ k2 => extends k k2 /\ (clear k2 -> covered n (ck_Commands k2) /\ Q (ck_Commands k2))).
Proof.
  intros He Hlt Hm. pose proof (extends_record _ _ _ _ He Hlt) as Hx. set (k1 := set_Commands _ _) in Hx.
  unfold wp. change ((record e;; m) k') with (m k1). eapply cwp_mono; [apply (Hm k1)|].
  intros a k2 [Hx2 HQ]. split; [by eapply extends_trans|]. intros Hc. split; [|by apply HQ].
  eapply monotone_extends; [apply covered_monotone|exact Hx2|]. exists e. destruct He as (_ & _ & Hp & _).
  split; [cbn; apply elem_of_app; right; left|done].
Qed.

Lemma d_redirectEntry n rds s d k : (forall n, fits (TSubst n) d) ->
  wp (redirectEntry X Pos ctxErr policy rec n rds s d) k (fun go k' =>
    extends k k' /\ (go = false -> ck_stopped k' = true) /\
    (clear k' -> (rds <> [] -> covered n (ck_Commands k')) /\ coversAll (wordsSites rds) (ck_Commands k'))).
Proof.
  intros Hf. unfold redirectEntry. destruct rds as [|rd rds].
  { split; [apply extends_refl|]. split; [done|]. intros _. split; [done|]. intros x (w & []%elem_of_nil & _). }
  apply (wp_entry n); [intros k' Hx Hs; split; [exact Hx|split; [done|intros [_ ?]; congruence]]|].
  intros Hlt. eapply wp_seq; [apply s_redirects|]. intros e k1 He.
  pose proof (wp_record n e _ _ k k1 (fresh_entryStep _ _ _ _ He) Hlt (d_substitutionsOf (rd :: rds) s d Hf)) as H.
  unfold wp, mbind, C_bind, record in *. destruct (substitutionsOf _ _ _ _ _) as [u k2|msg|]; [|done|done].
  destruct H as [Hx HQ]. split; [exact Hx|]. split; [done|]. intros Hc. destruct (HQ Hc). auto.
Qed.

(** *** Substitutions *)

Lemma shortcut_spec ss stmt : shortcut ss = Some stmt -> ss = [stmt] /\ exists w, catShortcutArg stmt = Some w.
Proof.
  unfold shortcut. destruct ss as [|s [|]]; try done. destruct (catShortcutArg s) eqn:E; [|done]. intros [= <-]. eauto.
Qed.

Lemma d_catEntry cs stmt s d : (forall n, fits (TSubst n) (d + 1)%Z) ->
  does (fun c => covered cs c /\ coversAll (wordsSites (stmtRedirs stmt)) c) (catEntry X registry Pos ctxErr policy rec cs stmt s d).
Proof.
  intros Hf k. unfold catEntry. apply (wp_entry cs); [intros k' Hx Hs; split; [exact Hx|intros [_ ?]; congruence]|].
  intros Hlt. cbv zeta. eapply wp_seq; [apply s_redirects|]. intros e k1 He.
  apply (named_entryStep cs k k) in He; [|apply ck_quiet_refl|done|done].
  apply (wp_record cs e _ _ k k1 He Hlt). by apply d_substitutionsOf.
Qed.

(** What the closure does at one node. *)
Lemma d_substitutionNode s d n u k :
  (forall n, fits (TStmt n) (d + 1)%Z) -> (forall n, fits (TSubst n) (d + 1)%Z) ->
  wp (substitutionNode X registry Pos ctxErr policy rec s d n u) k (fun r k' =>
    extends k k' /\
    (clear k' -> if fst r then forall ss, view n <> VCmdSubst ss else coversAll (wordSite n) (ck_Commands k'))).
Proof.
  intros Hs Hw. unfold substitutionNode, isStopped. unfold wp at 1. unfold mbind, C_bind.
  destruct (ck_stopped k) eqn:Est; cbn [mret C_ret].
  { split; [apply extends_refl|]. intros [_ ?]. congruence. }
  pose proof (cancelled_live ctxErr k) as Hc. unfold wp in Hc. destruct (cancelled ctxErr k) as [b k1| |]; [|done|done].
  destruct Hc as [Hq Hl]. destruct b.
  { split; [by apply extends_quiet|]. intros [Ha _]. by apply Hl in Ha. }
  assert (forall (m : C unit), does (coversAll (wordSite n)) m ->
    wp (m;; mret (false, u)) k1 (fun r k' => extends k k' /\
      (clear k' -> if fst r then forall ss, view n <> VCmdSubst ss else coversAll (wordSite n) (ck_Commands k')))) as Hdo.
  { intros m Hm. eapply wp_seq; [apply Hm|]. intros [] k2 [Hx HQ]. split; [|exact HQ].
    eapply extends_trans; [by apply extends_quiet|exact Hx]. }
  destruct (view n) as [| | | | | | | | | | | | | | | | | | | | | | | |ss| | | | | | |] eqn:Ev;
    try (split; [by apply extends_quiet|done]).
  assert (shortcut ss = None -> does (coversAll (wordSite n)) (branch ctxErr rec ss s (d + 1)%Z)) as Hplain.
  { intros Hn. eapply d_weaken; [|by apply d_branch]. intros c Hc x Hx. inversion Hx as [? ? ? Hno|? ss' st ? Ev' _ Hin Hst|? ? ? Ev' Hsh|? ? ? ? ? Ev' Hsh]; subst.
    - by destruct (Hno ss).
    - rewrite Ev in Ev'. injection Ev' as <-. apply Hc. by exists st.
    - rewrite Ev in Ev'. injection Ev' as <-. congruence.
    - rewrite Ev in Ev'. injection Ev' as <-. congruence. }
  destruct ss as [|stmt [|s2 ss]]; [apply Hdo, Hplain; done| |apply Hdo, Hplain; done].
  destruct (catShortcutArg stmt) as [w|] eqn:Ecat; [|apply Hdo, Hplain; cbn; by rewrite Ecat].
  apply Hdo. eapply d_weaken; [|by apply d_catEntry]. intros c [Hcov Hall] x Hx.
  assert (shortcut [stmt] = Some stmt) as Hsc by (cbn; by rewrite Ecat).
  inversion Hx as [? ? ? Hno|? ss' st ? Ev' Hsh|? ? ? Ev' Hsh|? ? stmt' rd ? Ev' Hsh Hin Hw']; subst.
  - by destruct (Hno [stmt]).
  - rewrite Ev in Ev'. injection Ev' as <-. congruence.
  - exact Hcov.
  - rewrite Ev in Ev'. injection Ev' as <-. rewrite Hsc in Hsh. injection Hsh as <-. apply Hall. by exists rd.
Qed.

Lemma d_substitutions n s d :
  (d <= maxCheckDepth -> forall n, fits (TStmt n) (d + 1) /\ fits (TSubst n) (d + 1))%Z ->
  does (coversAll (wordSite n)) (substitutions X registry Pos ctxErr policy rec n s d).
Proof.
  intros Hf. unfold substitutions. destruct (Z.ltb_spec maxCheckDepth d) as [|Hd]; [apply d_limit_unit|].
  assert ((forall n, fits (TStmt n) (d + 1)%Z) /\ (forall n, fits (TSubst n) (d + 1)%Z)) as [Hs Hw] by (split; intros; by apply Hf).
  revert n. induction n as [n IH] using node_ind. intros k. unfold wp. rewrite walkC_unfold.
  pose proof (d_substitutionNode s d n tt k Hs Hw) as Hn. unfold wp in Hn. unfold mbind, C_bind.
  destruct (substitutionNode _ _ _ _ _ _ _ _ _ _ _) as [[go u] k1| |]; [|done|done]. destruct Hn as [Hx HQ].
  destruct go; cbn [fst] in HQ; [|split; [exact Hx|exact HQ]].
  assert (does (fun c => forall x, x ∈ children n -> coversAll (wordSite x) c) (foldC (walkC (substitutionNode X registry Pos ctxErr policy rec s d)) (children n) u)) as Hk.
  { apply d_foldC; [intros; apply coversAll_monotone|]. intros c [] Hc. by apply IH. }
  specialize (Hk k1). unfold wp in Hk. destruct (foldC _ _ _ _) as [u' k2| |]; [|done|done]. destruct Hk as [Hx2 HQ2].
  split; [by eapply extends_trans|]. intros Hc x Hx'. specialize (HQ (clear_extends _ _ Hx2 Hc)). specialize (HQ2 Hc).
  inversion Hx' as [? c ? _ Hin Hcs|? ss' st ? Ev'|? ? ? Ev'|? ? ? ? ? Ev']; subst; [by apply (HQ2 c)|by destruct (HQ _ Ev')..].
Qed.

(** *** Statements *)

Lemma d_checkCall n call az args rds s d : (forall n, fits (TSubst n) d) ->
  does (fun c => covered n c /\ coversAll (wordsSites (rds ++ [call])) c)
    (checkCall X registry Pos ctxErr policy serviceText InspectArgs rec n call az args rds s d).
Proof.
  intros Hf k. unfold checkCall. apply (wp_entry n); [intros k' Hx Hs; split; [exact Hx|intros [_ ?]; congruence]|].
  intros Hlt. eapply wp_seq; [apply wp_callEntry|]. intros [[e s']|] k1 He; cbn in He.
  2:{ destruct He as (Hs & Hq & Hna). split; [apply extends_same; [done|done|tauto]|]. intros [Ha _]. tauto. }
  refine (wp_record n e _ (coversAll (wordsSites (rds ++ [call]))) k k1 He Hlt _).
  eapply (d_weaken (fun c => coversAll (wordsSites [call]) c /\ coversAll (wordsSites rds) c)).
  { intros c [H1 H2] x (w & [Hw|Hw]%elem_of_app & Hx); [apply H2|apply H1]; by exists w. }
  apply d_bind; [apply coversAll_monotone|by apply d_substitutionsOf|]. intros _.
  apply d_first; [apply coversAll_monotone|by apply d_substitutionsOf|]. intros _.
  destruct (_ && _); [apply d_quiet, q_forgetCommandEffects|apply d_ret].
Qed.

(** What the statements and words of a compound command cover. *)
Definition compoundSites (c : Node) (x : Node) : Prop :=
  (exists s, bodyStmt c s /\ site s x) \/ wordsSites (wordNodes (Some c) []) x.

Lemma d_compound c s d : (forall n, fits (TStmt n) (d + 1)%Z) -> (forall n, fits (TIf n) (d + 1)%Z) -> (forall n, fits (TSubst n) d) ->
  isCall (Some c) = false ->
  does (coversAll (compoundSites c)) (compound X registry ctxErr rec c s d).
Proof.
  intros Hs Hi Hw Hcall. unfold compound, compoundSites, bodyStmt, wordNodes, isCall in *.
  destruct (view c) as [| | |op x y|b cond body els|u cond body|sel loop body|ss|ss| | | | | | | | | | | | | | | | | | | | | | |] eqn:Ev; cbn in *;
    try discriminate;
    try (eapply d_weaken; [|apply d_ret]; intros c' _ x' [(st & [] & _)|(w & []%elem_of_nil & _)]).
  - destruct (decide (op = Pipe)).
    + apply d_then; [apply d_quiet, q_clone|]. intros l. apply d_then; [apply d_quiet, q_clone|]. intros r.
      eapply (d_weaken (fun c => coversAll (site x) c /\ coversAll (site y) c)).
      { intros c' [H1 H2] x' [(st & [->| ->] & Hx)|(w & []%elem_of_nil & _)]; [by apply H1|by apply H2]. }
      apply d_bind; [apply coversAll_monotone|apply (Hrec (TStmt x)), Hs|]. intros _.
      apply d_first; [apply coversAll_monotone|apply (Hrec (TStmt y)), Hs|intros; apply d_ret].
    + eapply (d_weaken (fun c => coversAll (site x) c /\ coversAll (stmtsSites [y]) c)).
      { intros c' [H1 H2] x' [(st & [->| ->] & Hx)|(w & []%elem_of_nil & _)]; [by apply H1|apply H2]. exists y. split; [by left|done]. }
      apply d_bind; [apply coversAll_monotone|apply (Hrec (TStmt x)), Hs|]. intros s'.
      apply d_first; [apply coversAll_monotone|by apply d_branch|intros; apply d_quiet, q_invalidate].
  - apply d_then; [apply d_quiet, q_invalidate|]. intros s'. eapply d_weaken; [|apply (Hrec (TIf c)), Hi].
    intros c' H x' [Hx|(w & []%elem_of_nil & _)]. by apply H.
  - apply d_then; [apply d_quiet, q_invalidate|]. intros s'.
    eapply (d_weaken (fun c => coversAll (stmtsSites cond) c /\ coversAll (stmtsSites body) c)).
    { intros c' [H1 H2] x' [(st & [Hin|Hin]%elem_of_app & Hx)|(w & []%elem_of_nil & _)]; [apply H1|apply H2]; by exists st. }
    apply d_bind; [apply coversAll_monotone|by apply d_branch|]. intros _.
    apply d_first; [apply coversAll_monotone|by apply d_branch|intros; apply d_ret].
  - apply d_then; [apply d_quiet, q_invalidate|]. intros s'.
    eapply (d_weaken (fun c => coversAll (wordsSites (match loop with WordIter _ _ items => items | OtherLoop => [] end)) c /\
                               coversAll (stmtsSites body) c)).
    { intros c' [H1 H2] x' [(st & Hin & Hx)|Hw']; [apply H2; by exists st|]. apply H1. destruct loop; exact Hw'. }
    apply d_bind; [apply coversAll_monotone|by apply d_substitutionsOf|]. intros _.
    apply d_first; [apply coversAll_monotone|by apply d_branch|intros; apply d_ret].
  - eapply d_weaken; [|by apply d_stmtsOf]. intros c' H x' [Hx|(w & []%elem_of_nil & _)]. by apply H.
  - eapply d_weaken; [|apply d_first; [apply coversAll_monotone|by apply (d_branch ss)|intros; apply d_ret]].
    intros c' H x' [Hx|(w & []%elem_of_nil & _)]. by apply H.
Qed.

Lemma d_checkIf n s d :
  (d <= maxCheckDepth -> (forall n, fits (TStmt n) d) /\ (forall n, fits (TIf n) (d + 1)))%Z ->
  does (coversAll (taskSites (TIf n))) (checkIf ctxErr rec n s d).
Proof.
  intros Hf. unfold checkIf. destruct (Z.ltb_spec maxCheckDepth d) as [|Hd]; [apply d_limit|]. destruct (Hf Hd) as [Hs Hi].
  destruct (view n) as [| | | |b cond body els| | | | | | | | | | | | | | | | | | | | | | | | | | |] eqn:Ev;
    try (eapply d_weaken; [|apply d_ret]; intros c _ x (st & Hif & _); inversion Hif; congruence).
  eapply (d_weaken (fun c => coversAll (stmtsSites cond) c /\ coversAll (stmtsSites body) c /\
                             coversAll (fun x => exists e, els = Some e /\ taskSites (TIf e) x) c)).
  { intros c (H1 & H2 & H3) x (st & Hif & Hx). inversion Hif as [? ? ? ? ? ? Ev' Hin|? ? ? ? ? ? Ev' Hif']; subst;
      rewrite Ev in Ev'; injection Ev' as -> -> -> ->.
    - apply elem_of_app in Hin as [Hin|Hin]; [apply H1|apply H2]; by exists st.
    - apply H3. eexists. split; [done|]. by exists st. }
  apply d_bind; [apply coversAll_monotone|by apply d_branch|]. intros _.
  apply d_bind; [apply coversAll_monotone|by apply d_branch|]. intros _. destruct els as [e|].
  - apply d_then; [apply d_quiet, q_clone|]. intros b'. eapply d_weaken; [|apply d_first; [apply coversAll_monotone|apply (Hrec (TIf e)), Hi|intros; apply d_ret]].
    intros c H x (e' & [= <-] & Hx). by apply H.
  - eapply d_weaken; [|apply d_ret]. by intros c _ x (e & [=] & _).
Qed.

Lemma d_checkStmt n s d :
  (d <= maxCheckDepth -> (forall n, fits (TStmt n) (d + 1)) /\ (forall n, fits (TIf n) (d + 1)) /\ (forall n, fits (TSubst n) d))%Z ->
  does (coversAll (site n)) (checkStmt X registry Pos ctxErr policy serviceText InspectArgs rec n s d).
Proof.
  intros Hf k. unfold checkStmt, isStopped. unfold wp. unfold mbind at 1, C_bind at 1. destruct (ck_stopped k) eqn:Est.
  { split; [apply extends_refl|]. intros [_ ?]. congruence. }
  unfold mbind at 1, C_bind at 1. pose proof (cancelled_live ctxErr k) as Hc. unfold wp in Hc.
  destruct (cancelled ctxErr k) as [b k1| |]; [|done|done]. destruct Hc as [Hq Hl]. destruct b.
  { split; [by apply extends_quiet|]. intros [Ha _]. by apply Hl in Ha. }
  match goal with |- match ?m k1 with _ => _ end => assert (does (coversAll (site n)) m) as Hm end.
  2:{ specialize (Hm k1). unfold wp in Hm. destruct (_ k1) as [a k2| |]; [|done|done]. destruct Hm as [Hx HQ].
      split; [|exact HQ]. eapply extends_trans; [by apply extends_quiet|exact Hx]. }
  clear k k1 Est Hq Hl. destruct (Z.ltb_spec maxCheckDepth d) as [|Hd]; [apply d_limit|]. destruct (Hf Hd) as (Hs & Hi & Hw).
  destruct (view n) as [|cmd rds b1 b2 b3 b4| | | | | | | | | | | | | | | | | | | | | | | | | | | | | |] eqn:Ev;
    try (eapply d_weaken; [|apply d_ret]; intros c _ x Hx; inversion Hx; congruence).
  assert (forall x, site n x -> (x = n /\ (isCall cmd = true \/ rds <> [])) \/
      (exists cm st, cmd = Some cm /\ bodyStmt cm st /\ site st x) \/ wordsSites (wordNodes cmd rds) x) as Hsite.
  { intros x Hx. inversion Hx as [? ? ? ? ? ? ? Ev' Hor|? ? ? ? ? ? ? st ? Ev' Hb Hst|? ? ? ? ? ? ? w ? Ev' Hin Hws]; subst;
      rewrite Ev in Ev'; injection Ev' as -> -> -> -> -> ->; [left; tauto|right; left; eauto|right; right; by exists w]. }
  destruct cmd as [cm|].
  - destruct (isCall (Some cm)) eqn:Ecall.
    + cbn in Ecall. destruct (view cm) as [| |az args| | | | | | | | | | | | | | | | | | | | | | | | | | | | |] eqn:Evc; try discriminate.
      eapply d_weaken; [|apply (d_checkCall n cm az args rds s d Hw)]. intros c [H1 H2] x Hx.
      apply Hsite in Hx as [[-> _]|[(cm' & st & [= <-] & Hb & _)|Hw']]; [exact H1| |].
      * unfold bodyStmt in Hb. by rewrite Evc in Hb.
      * apply H2. unfold wordNodes in Hw'. by rewrite Evc in Hw'.
    + assert (forall c, ((rds <> [] -> covered n c) /\ coversAll (wordsSites rds) c) /\ coversAll (compoundSites cm) c -> coversAll (site n) c) as Hall.
      { intros c [[H1 H2] H3] x Hx. apply Hsite in Hx as [[-> [Hc|Hr]]|[(cm' & st & [= <-] & Hb & Hst)|(w & Hin & Hx)]]; [congruence|by apply H1| |].
        - apply H3. left. by exists st.
        - unfold wordNodes in Hin. apply elem_of_app in Hin as [Hin|Hin]; [apply H2; by exists w|]. apply H3. right. by exists w. }
      pose proof (d_compound cm s d Hs Hi Hw Ecall) as Hcomp. intros k. cbn in Ecall. destruct (view cm); try discriminate Ecall;
        (eapply wp_seq; [apply (d_redirectEntry n rds s d k Hw)|]; intros go k1 (Hx & Hgo & HQ); destruct go;
         [eapply cwp_mono; [apply Hcomp|]; intros a k2 [Hx2 HQ2];
          split; [by eapply extends_trans|]; intros Hc; apply Hall; split; [|by apply HQ2];
          pose proof (HQ (clear_extends _ _ Hx2 Hc)) as [HA HB]; split;
          [intros Hr; eapply monotone_extends; [apply covered_monotone|exact Hx2|by apply HA]
          |eapply monotone_extends; [apply coversAll_monotone|exact Hx2|exact HB]]
         |split; [exact Hx|]; intros [_ Hst]; specialize (Hgo eq_refl); congruence]).
  - intros k. eapply wp_seq; [apply (d_redirectEntry n rds s d k Hw)|]. intros go k1 (Hx & _ & HQ).
    split; [exact Hx|]. intros Hc x Hx'. destruct (HQ Hc) as [H1 H2].
    apply Hsite in Hx' as [[-> [[=]|Hr]]|[(cm' & st & [=] & _)|Hw']]; [by apply H1|].
    apply H2. unfold wordNodes in Hw'. by rewrite app_nil_r in Hw'.
Qed.

End Level.

(** ** Fuel *)

(** Levels left below a depth, three units each. *)
Definition need (t : task) (d : Z) : nat :=
  3 * Z.to_nat (maxCheckDepth + 1 - d) + match t with TSubst _ => 1 | TStmt _ => 2 | TIf _ => 3 end.

Theorem performFuel_does fuel : forall t s d, need t d <= fuel ->
  does (coversAll (taskSites t)) (performFuel X registry Pos ctxErr policy serviceText InspectArgs fuel t s d).
Proof.
  induction fuel as [|fuel IH]; intros t s d Hn; [unfold need in Hn; destruct t; lia|]. cbn [performFuel].
  assert (forall t s d, need t d <= fuel -> does (coversAll (taskSites t)) (performFuel X registry Pos ctxErr policy serviceText InspectArgs fuel t s d)) as Hrec
    by exact IH.
  unfold need, maxCheckDepth in *. destruct t as [n|n|n]; cbn [perform taskSites].
  - apply (d_checkStmt (fits := fun t d => need t d <= fuel)); [exact Hrec|]. unfold need, maxCheckDepth. intros Hd. repeat split; lia.
  - apply (d_checkIf (fits := fun t d => need t d <= fuel)); [exact Hrec|]. unfold need, maxCheckDepth. intros Hd. repeat split; lia.
  - apply d_first; [apply coversAll_monotone| |intros; apply d_ret].
    apply (d_substitutions (fits := fun t d => need t d <= fuel)); [exact Hrec|]. unfold need, maxCheckDepth. intros Hd. repeat split; lia.
Qed.

(** The walk over a program. *)
Lemma wp_checkProgram ss s polls :
  match checkProgram X registry Pos ctxErr policy serviceText InspectArgs ss s polls with
  | Ok _ k => extends (mkChecker [] [] CheckAllowed false 0 polls []) k /\
              (clear k -> coversAll (stmtsSites ss) (ck_Commands k))
  | Panic _ => True
  | OutOfFuel => False
  end.
Proof.
  apply (d_stmtsOf (rec := performFuel X registry Pos ctxErr policy serviceText InspectArgs checkFuel)
           (fits := fun t d => need t d <= checkFuel)); [intros t s' d; apply performFuel_does|].
  intros n. unfold need, checkFuel, maxCheckDepth. lia.
Qed.

End Walk.
End InterpCheckWalk.
