(* ===== verification/InterpCheckTop.v ===== *)
(** * What the dry-run checker promises (interp/check.go, check_remote.go)

    A report that allows a script covers all of it; a report's status says which
    issues it has; the checks on a command are the gates of its execution; a check
    for a remote host approves no path. *)

From S2P Require Import Prelude PathPolicy InterpSyntax InterpValidate InterpVars InterpState InterpExpand InterpCall InterpExec InterpBuiltins InterpRunWitness InterpServices InterpCheck InterpCheckArgs InterpCheckRun InterpCheckSteps InterpCheckWalk.
From stdpp Require Import base list gmap sets strings.
From Stdlib Require Import ZArith Lia Ascii.

Module InterpCheckTop.
Import InterpSyntax InterpVars InterpState InterpExpand InterpCall InterpServices InterpCheck InterpCheckArgs InterpCheckRun
  InterpCheckLogic InterpCheckSteps InterpCheckWalk InterpBuiltins InterpRunWitness.

Lemma statusOf_denied issues : statusOf issues = CheckDenied <-> exists i, i ∈ issues /\ ci_Code i <> CheckRequiresExecution.
Proof.
  unfold statusOf. rewrite foldl_denied, list_elem_of_fmap. split; intros (i & H1 & H2); exists i.
  - split; [done|]. by intros Hc; rewrite Hc in H1.
  - split; [by destruct (ci_Code i)|done].
Qed.

Section Top.
Context {SX : Syntax} (X : expander) (registry : bytes -> option command).
Context (Pos : Node -> Z * Z) (ctxErr : nat -> bool) (policy : checkPolicy).
Context (serviceText : serviceErr -> bytes) (InspectArgs : bytes -> list bytes -> goErr + (FlagSet * list bytes)).
Context (parse : bytes -> goErr + Node) (script : bytes) (start : checkState) (warnings : list bytes).

Abbreviation theCheck := (checkScriptPolicy X registry Pos ctxErr policy serviceText InspectArgs parse script start warnings).
Abbreviation theWalk := (checkProgram X registry Pos ctxErr policy serviceText InspectArgs).

Definition statements (program : Node) : list Node := match view program with VFile ss => ss | _ => [] end.

(** How a report comes about: the script is refused, or it is walked to the end. *)
Lemma report_cases r : theCheck = Report r ->
  (exists code msg, r = mkReport false CheckDenied [] [mkIssue code msg []] warnings /\
     (code = CheckParseError \/ code = CheckUnsupportedSyntax)) \/
  (exists program s' k, InterpExec.ParseScript parse script = inr program /\
     InterpValidate.validateNode ctxErr program (cp_remediationMode policy) 1 = None /\
     theWalk (statements program) start (validationPolls ctxErr policy program) = Ok s' k /\
     ctxErr (ck_polls k) = false /\
     r = mkReport (bool_decide (finalStatus k = CheckAllowed)) (finalStatus k) (ck_Commands k) (ck_Issues k) warnings).
Proof.
  unfold checkScriptPolicy, denyAll. destruct (ctxErr 0); [done|]. destruct (InterpExec.ParseScript parse script) as [e|program] eqn:Ep.
  { destruct (ctxErr 1); [done|]. intros [= <-]. left. eauto 6. }
  destruct (InterpValidate.validateNode _ _ _ _) as [e|] eqn:Ev.
  { intros H. left. exists CheckUnsupportedSyntax, (InterpExec.validationText e). destruct e; try done; cbv zeta in H;
      destruct (ctxErr _); try done; injection H as <-; eauto. }
  cbv zeta. fold (statements program). destruct (theWalk _ _ _) as [s' k| |] eqn:Ew; [|done|done].
  destruct (ctxErr (ck_polls k)) eqn:Ek; [done|]. intros [= <-]. right. exists program, s', k. auto.
Qed.

(** The walk of a report keeps the invariants of the checker. *)
Lemma walk_extends ss polls s' k : theWalk ss start polls = Ok s' k ->
  extends (registry := registry) (ctxErr := ctxErr) (policy := policy) (mkChecker [] [] CheckAllowed false 0 polls []) k /\
  (clear (ctxErr := ctxErr) k -> coversAll (Pos := Pos) (stmtsSites ss) (ck_Commands k)).
Proof.
  intros E. pose proof (wp_checkProgram (X := X) (registry := registry) (Pos := Pos) (ctxErr := ctxErr) (policy := policy)
    (serviceText := serviceText) (InspectArgs := InspectArgs) ss start polls) as H. by rewrite E in H.
Qed.

(** The context answers the same once it is cancelled. *)
Definition sticky : Prop := forall p q, p <= q -> ctxErr p = true -> ctxErr q = true.

(** C15. When Check allows a script, nothing of it was left unchecked: every simple
    command, redirection and file substitution in any branch or substitution of a
    word has an entry; every entry is without an issue, and its command is known,
    allowed and usable in the mode; and every path it asked about was granted by
    the path policy, none for writing outside remediation mode.  A check for a
    remote host that allows the script has asked about no path at all. *)
Theorem check_allowed_sound r : sticky -> theCheck = Report r -> cr_Allowed r = true ->
  cr_Issues r = [] /\
  Forall (fun e => cm_Issues e = [] /\ (cm_Command e <> [] -> passes registry policy (cm_Command e))) (cr_Commands r) /\
  exists program s' k, InterpExec.ParseScript parse script = inr program /\
    InterpValidate.validateNode ctxErr program (cp_remediationMode policy) 1 = None /\
    (forall s x, s ∈ statements program -> site s x -> exists e, e ∈ cr_Commands r /\ cm_Pos e = Pos x) /\
    theWalk (statements program) start (validationPolls ctxErr policy program) = Ok s' k /\
    ck_Commands k = cr_Commands r /\ grantedSince policy [] (ck_queries k).
Proof.
  intros Hst [(code & msg & -> & _)|(program & s' & k & Hp & Hv & Hw & Hlast & ->)]%report_cases; [done|].
  cbn [cr_Allowed cr_Issues cr_Commands]. intros Hs%bool_decide_eq_true. destruct (walk_extends _ _ _ _ Hw) as [Hx Hcov].
  assert (live ctxErr k) as Ha.
  { intros p Hlt. destruct (ctxErr p) eqn:E; [|done]. rewrite (Hst p (ck_polls k)) in Hlast; [done|lia|done]. }
  unfold finalStatus in Hs. rewrite foldl_combine, combine_allowed, foldl_allowed, Forall_map in Hs. destruct Hs as [Hs Hall].
  destruct Hx as [new Hc Hgood _ _ Hinv _ _ _ Hq]. cbn [ck_Commands app] in Hc. subst new.
  assert (ck_stopped k = false /\ ck_Issues k = []) as [Hns Hni].
  { specialize (Hinv (conj eq_refl eq_refl)). unfold statusInv in Hinv. destruct (ck_stopped k), Hinv; [congruence|done]. }
  split; [done|]. split.
  - apply Forall_forall. intros e He. rewrite Forall_forall in Hgood, Hall. destruct (Hgood e He) as [Hex Hpass].
    specialize (Hall e He). cbn in Hall. unfold exact in Hex. rewrite <- Hall in Hex. split; [by apply statusOf_allowed|by apply Hpass].
  - exists program, s', k. split; [done|]. split; [done|]. split; [|split; [done|split; [done|]]].
    + intros s x Hin Hx. apply (Hcov (conj Ha Hns)). by exists s.
    + apply Hq; [done|]. eapply Forall_impl; [exact Hall|]. by intros e <-.
Qed.

(** What a report says of its status. *)
Definition exactReport (r : CheckResult) : Prop :=
  (cr_Allowed r = true <-> cr_Status r = CheckAllowed) /\
  (cr_Status r = CheckAllowed <-> cr_Issues r = [] /\ forall e, e ∈ cr_Commands r -> cm_Issues e = []) /\
  (cr_Status r = CheckDenied <->
     (exists i, i ∈ cr_Issues r /\ (ci_Code i = CheckParseError \/ ci_Code i = CheckUnsupportedSyntax)) \/
     exists e i, e ∈ cr_Commands r /\ i ∈ cm_Issues e /\ ci_Code i <> CheckRequiresExecution) /\
  (forall e, e ∈ cr_Commands r -> cm_Status e = statusOf (cm_Issues e)) /\
  (Z.of_nat (length (cr_Commands r)) <= MaxCheckCommands)%Z.

Lemma report_exact r : theCheck = Report r -> exactReport r.
Proof.
  unfold exactReport. intros [(code & msg & -> & Hcode)|(program & s' & k & _ & _ & Hw & _ & ->)]%report_cases; cbn.
  { split; [done|]. split; [split; [done|by intros [? _]]|]. split; [|split; [by intros e ?%elem_of_nil|done]].
    split; [intros _; left|done]. eexists. split; [by left|done]. }
  destruct (walk_extends _ _ _ _ Hw) as [[new Hc Hgood _ _ Hinv _ Hcount _ _] _]. cbn [ck_Commands app] in Hc. subst new.
  specialize (Hinv (conj eq_refl eq_refl)). specialize (Hcount ltac:(unfold withinCount; cbn; discriminate)).
  rewrite Forall_forall in Hgood.
  assert (forall e, e ∈ ck_Commands k -> cm_Status e = statusOf (cm_Issues e)) as Hexact by (intros e He; apply Hgood, He).
  split; [by rewrite bool_decide_eq_true|]. unfold finalStatus. rewrite foldl_combine, combine_allowed, combine_denied.
  rewrite foldl_allowed, foldl_denied, Forall_map, Forall_forall, list_elem_of_fmap. split; [|split; [|split; [done|done]]].
  - split; intros [H1 H2].
    + split; [unfold statusInv in Hinv; destruct (ck_stopped k), Hinv; congruence|]. intros e He.
      apply statusOf_allowed. rewrite <- Hexact by done. symmetry. by apply H2.
    + split; [unfold statusInv in Hinv; destruct (ck_stopped k), Hinv; congruence|]. intros e He. rewrite Hexact by done.
      symmetry. by apply statusOf_allowed, H2.
  - assert (ck_Status k <> CheckDenied /\ forall i, i ∈ ck_Issues k -> ci_Code i = CheckLimitExceeded) as [Hnd Hnc].
    { unfold statusInv in Hinv. destruct (ck_stopped k), Hinv as [-> ->]; (split; [done|]); [by intros i ->%list_elem_of_singleton|by intros i ?%elem_of_nil]. }
    split.
    + intros [?|(e & He & Hin)]; [done|]. right. symmetry in He. rewrite Hexact in He by done.
      apply statusOf_denied in He as (i & Hi & Hne). by exists e, i.
    + intros [(i & Hi & Hor)|(e & i & He & Hi & Hne)]; [specialize (Hnc i Hi); naive_solver congruence|].
      right. exists e. split; [|done]. symmetry. rewrite Hexact by done. apply statusOf_denied. by exists i.
Qed.

(** A check ends: with a report, with the context's error when the context was
    cancelled, or with a panic of the expander that is not the glob matcher's. *)
Lemma check_returns :
  match theCheck with
  | Report _ | CheckPanic _ => True
  | Cancelled => (exists p, ctxErr p = true) \/
                 exists program, InterpValidate.validateNode ctxErr program (cp_remediationMode policy) 1 = Some InterpValidate.CtxDone
  | CheckNoFuel => False
  end.
Proof.
  unfold checkScriptPolicy, denyAll. destruct (ctxErr 0) eqn:E0; [left; eauto|]. destruct (InterpExec.ParseScript parse script) as [e|program].
  { destruct (ctxErr 1) eqn:E1; [left; eauto|done]. }
  destruct (InterpValidate.validateNode _ _ _ _) as [e|] eqn:Ev.
  { destruct e; cbv zeta; try (destruct (ctxErr (validationPolls _ _ _)) eqn:E; [left; eauto|done]). right. eauto. }
  cbv zeta. fold (statements program).
  pose proof (wp_checkProgram (X := X) (registry := registry) (Pos := Pos) (ctxErr := ctxErr) (policy := policy)
    (serviceText := serviceText) (InspectArgs := InspectArgs) (statements program) start (validationPolls ctxErr policy program)) as H.
  destruct (theWalk _ _ _) as [s' k| |]; [|done|done]. destruct (ctxErr (ck_polls k)) eqn:E; [left; eauto|done].
Qed.

(** C17. A check always ends: with a report, with the error of a cancelled context, or
    with a panic of the expander that is not the glob matcher's.  A report is
    allowed exactly when nothing has an issue, denied exactly when the script does
    not parse, is not supported, or some command has an issue other than needing
    its execution; denials so take precedence.  An entry's status is that of its
    own issues, and a report has at most [MaxCheckCommands] entries. *)
Theorem check_report_exact :
  match theCheck with
  | Report r => exactReport r
  | CheckPanic _ => True
  | Cancelled => (exists p, ctxErr p = true) \/
                 exists program, InterpValidate.validateNode ctxErr program (cp_remediationMode policy) 1 = Some InterpValidate.CtxDone
  | CheckNoFuel => False
  end.
Proof.
  pose proof check_returns as He. destruct theCheck as [r| | |] eqn:E; [|done..]. by apply report_exact.
Qed.

End Top.

(** ** The gates *)

Section Gates.
Context {SX : Syntax} (O : oracles) (X : expander) (cfg : runnerConfig) (spawnDepth : bytes -> list bytes -> nat).

(** [call] goes on to expand and run the command. *)
Definition admitted (elevated : bool) (name : bytes) (r : Runner) (w : world) : Prop :=
  forall setup, gatedCall O X cfg spawnDepth elevated name setup r w = dispatch O X cfg spawnDepth elevated name setup r w.

(** [call] decides without running the preparation of the command. *)
Definition refusedEarly (elevated : bool) (name : bytes) (r : Runner) (w : world) : Prop :=
  forall setup setup', gatedCall O X cfg spawnDepth elevated name setup r w = gatedCall O X cfg spawnDepth elevated name setup' r w.

(** The gates that [call] passes a command through. *)
Definition gatesOpen (elevated : bool) (name : bytes) (pipeline : bool) : bool :=
  (allowAllCommands cfg || allowedCommands cfg name) &&
  (negb elevated || (cf_elevate cfg && elevatableCommands cfg name && negb pipeline)) &&
  match remediationOnlyRefusal cfg name (cf_remediationMode cfg) with Some _ => false | None => true end.

Lemma gates_decide elevated name r w :
  if gatesOpen elevated name (inPipelineStage r) then admitted elevated name r w else refusedEarly elevated name r w.
Proof.
  unfold gatesOpen, admitted, refusedEarly, gatedCall, isAllowed. destruct (_ || _); cbn [negb andb]; [|done].
  destruct elevated; cbn [negb andb orb].
  - destruct (cf_elevate cfg), (elevatableCommands cfg name); cbn [negb andb orb]; try done.
    unfold mbind, M_bind, getR. destruct (inPipelineStage r); cbn [negb andb]; [done|]. by destruct (remediationOnlyRefusal _ _ _).
  - unfold mbind, M_bind, getR. by destruct (remediationOnlyRefusal _ _ _).
Qed.

Lemma commandPolicy_gates services sandbox elevated pipeline name pos :
  cm_Status (commandPolicy (registry cfg) (localPolicy cfg services sandbox) elevated pipeline (mkCheck name pos CheckAllowed [])) = CheckAllowed <->
  gatesOpen elevated name pipeline = true /\ registry cfg name <> None.
Proof.
  rewrite commandPolicy_allowed. unfold passes, gatesOpen, registered. cbn [cm_Command cm_Status].
  change (remediationOnlyRefusal (policyConfig (registry cfg) (localPolicy cfg services sandbox)) name
    (cp_remediationMode (localPolicy cfg services sandbox))) with (remediationOnlyRefusal cfg name (cf_remediationMode cfg)).
  cbn [localPolicy cp_allowAllCommands cp_allowedCommands cp_elevationEnabled cp_elevatableCommands].
  destruct (remediationOnlyRefusal _ _ _), (registry cfg name), (allowAllCommands cfg), (allowedCommands cfg name), elevated,
    (cf_elevate cfg), (elevatableCommands cfg name), pipeline; cbn; intuition congruence.
Qed.

(** C16. The checks that Check makes on a command are the gates of its execution: an
    entry stays allowed exactly when the command is registered and, whatever the
    runner and the world, [call] would go on to expand and run it, in the runner's
    mode and inside or outside a pipeline; when the entry is not allowed, [call]
    refuses before anything is expanded, or the command is unknown. *)
Theorem check_agrees_with_gates services sandbox elevated name pos r w :
  let entry := commandPolicy (registry cfg) (localPolicy cfg services sandbox) elevated (inPipelineStage r)
                 (mkCheck name pos CheckAllowed []) in
  if bool_decide (cm_Status entry = CheckAllowed)
  then cm_Issues entry = [] /\ registry cfg name <> None /\ admitted elevated name r w
  else cm_Issues entry <> [] /\ (registry cfg name = None \/ refusedEarly elevated name r w).
Proof.
  cbv zeta. set (e := commandPolicy _ _ _ _ _).
  assert (cm_Status e = statusOf (cm_Issues e)) as Hexact by (by apply grown_commandPolicy).
  pose proof (commandPolicy_gates services sandbox elevated (inPipelineStage r) name pos) as Hiff. fold e in Hiff.
  pose proof (gates_decide elevated name r w) as Hg. pose proof (statusOf_allowed (cm_Issues e)) as Hs. rewrite <- Hexact in Hs.
  case_bool_decide as Ha.
  - apply Hiff in Ha as Hopen. destruct Hopen as [Ho Hreg]. rewrite Ho in Hg. tauto.
  - split; [tauto|]. destruct (registry cfg name); [right|by left].
    destruct (gatesOpen _ _ _); [|done]. destruct Ha. by apply Hiff.
Qed.

End Gates.

(** ** [if true; then echo hi > /d/f; fi] *)

Definition checkedTable : list (nodeView nat) :=
  [VFile [1]; stmtOf 2; VIfClause true [3] [4] None; stmtOf 5; VStmt (Some 6) [7] false false false false;
   VCallExpr [] [8]; VCallExpr [] [10; 12]; VRedirect RdrOut None (Some 14) None]
  ++ word "true" 8 ++ word "echo" 10 ++ word "hi" 12 ++ word "/d/f" 14.

#[local] Instance checkedSyntax : Syntax := tableSyntax checkedTable (fun _ => (false, [])).

(** One writable root, and nothing else. *)
Definition oneFile : checkPathPolicy :=
  mkPathPolicy (fun _ q => if bytes_eqb (q_path q) (lit "/d/f") then None else Some (lit "not allowed")) [(lit "/d", true)].

Definition checkedConfig : runnerConfig :=
  mkConfig false (fun n => str_in n ["echo"; "true"]%string) true true false (fun _ => false) controlRegistry.

Definition theScript : bytes := lit "if true; then echo hi > /d/f; fi".

(** A command line without flags. *)
Definition operandsOnly (name : bytes) (args : list bytes) : goErr + (FlagSet * list bytes) :=
  inr (mkFlags (fun _ => None) (fun _ => false) (fun _ => []), args).

Definition checkedState : checkState := startState (fun _ => zeroVar) ∅ (lit "/") true.
Definition position (n : nat) : Z * Z := (1%Z, Z.of_nat n).

Abbreviation checkedReport :=
  (checkScriptPolicy (SX := checkedSyntax) (plainExpander (SX := checkedSyntax)) controlRegistry position (fun _ : nat => false)
    (localPolicy checkedConfig ∅ oneFile) (fun _ : serviceErr => []) operandsOnly (fun _ : bytes => inr 0) theScript checkedState []).

Example checkedReport_is :
  checkedReport = Report (mkReport true CheckAllowed
    [mkCheck (lit "true") (1%Z, 3%Z) CheckAllowed []; mkCheck (lit "echo") (1%Z, 4%Z) CheckAllowed []] [] []).
Proof. vm_compute. reflexivity. Qed.

Lemma check_allowed_sound_witness : exists r, checkedReport = Report r /\ cr_Allowed r = true /\
  cr_Issues r = [] /\ length (cr_Commands r) = 2.
Proof.
  pose proof (check_allowed_sound (SX := checkedSyntax) (plainExpander (SX := checkedSyntax)) controlRegistry position
    (fun _ : nat => false) (localPolicy checkedConfig ∅ oneFile) (fun _ : serviceErr => []) operandsOnly (fun _ : bytes => inr 0)
    theScript checkedState []) as H.
  destruct (H _ ltac:(intros ? ? _ E; exact E) checkedReport_is eq_refl) as [Hissues _].
  eexists. split; [exact checkedReport_is|]. split; [reflexivity|]. split; [exact Hissues|reflexivity].
Defined.

End InterpCheckTop.
