(* ===== verification/LineFilters.v ===== *)
(** * Line filters (builtins/cut/cut.go)

    [Filter]: what the filters ask of the shell, and bufio.Scanner with a cap on
    lines.  [Cut]: the command, against a description of its output line by line. *)

From S2P Require Import Prelude GoStd Filepath.
From stdpp Require Import base list strings sorting.
From Stdlib Require Import ZArith Lia Ascii.

(** ** The shell as a filter sees it *)

Module Filter.

Inductive ferr := ECtx | EOpen (e : bytes) | ERead (e : bytes) | ETooLong | EWrite (e : bytes) | EOther (e : bytes).

Inductive event :=
| EvOpen (file : bytes)
| EvClose
| EvOut (p : bytes)      (* a write to the standard output *)
| EvErr (p : bytes)
| EvUsage.               (* the text of --help *)

(** What a reader delivers until its end or an error. *)
Record source := mkSource { content : bytes; failure : option bytes }.

(** The host: is the context done at the [n]th question; opening a file and
    reading the standard input, [None] when it is nil; the error of a write. *)
Record host := mkHost {
  ctxDone : nat -> bool;
  OpenFile : list event -> bytes -> bytes + source;
  Stdin : option (list event -> source);
  writeErr : list event -> option bytes;
  PortableErr : ferr -> bytes }.

Record world := mkWorld { events : list event; polls : nat }.

Definition F (A : Type) : Type := world -> A * world.

#[export] Instance F_ret : MRet F := fun _ a w => (a, w).
#[export] Instance F_bind : MBind F := fun _ _ f m w => let '(a, w) := m w in f a w.

Definition emit (e : event) : F unit := fun w => (tt, mkWorld (events w ++ [e]) (polls w)).

Section Ops.
Context (h : host).

(** [ctx.Err() != nil]. *)
Definition done : F bool := fun w => (ctxDone h (polls w), mkWorld (events w) (S (polls w))).

Definition write (p : bytes) : F (option ferr) := fun w =>
  let e := writeErr h (events w) in (EWrite <$> e, mkWorld (events w ++ [EvOut p]) (polls w)).

(** A write whose error is ignored. *)
Definition out (p : bytes) : F unit := write p;; mret tt.

Definition errf (p : bytes) : F unit := emit (EvErr p).

Definition isStdin (file : bytes) : bool := file =s "-".

Definition displayName (file : bytes) : bytes := if isStdin file then lit "standard input" else file.

(** Opens a file, or takes the standard input for a dash; [None] when that is nil. *)
Definition openInput (file : bytes) : F (ferr + option source) := fun w =>
  if isStdin file then (inr ((fun read => read (events w)) <$> Stdin h), w)
  else
    match OpenFile h (events w) file with
    | inl e => (inl (EOpen e), w)
    | inr src => (inr (Some src), mkWorld (events w ++ [EvOpen file]) (polls w))
    end.

(** The deferred close of a file. *)
Definition closing {A} (file : bytes) (m : F A) : F A :=
  a ← m; (if isStdin file then mret tt else emit EvClose);; mret a.

(** *** bufio.Scanner

    The tokens of a stream that a delimiter ends, each with whether it was there;
    the scanner fails when a token, with its delimiter or the end of the stream,
    does not fit into a buffer of [cap] bytes. *)

Section Scan.
Context (delim : ascii) (cap : Z).

Fixpoint scanLines (cur data : bytes) : list (bytes * bool) * bool :=
  match data with
  | [] =>
      match cur with
      | [] => ([], false)
      | _ => if (cap <=? Z.of_nat (length cur))%Z then ([], true) else ([(cur, false)], false)
      end
  | c :: data =>
      if Ascii.eqb c delim then
        if (cap <=? Z.of_nat (length cur))%Z then ([], true)
        else let '(ls, long) := scanLines [] data in ((cur, true) :: ls, long)
      else scanLines (cur ++ [c]) data
  end.

(** [sc.Err()] at the end. *)
Definition scanErr (src : source) (long : bool) : option ferr :=
  if long then Some ETooLong else ERead <$> failure src.

(** [for sc.Scan() { if ctx.Err() != nil { return } ... }; return sc.Err()]. *)
Fixpoint eachLine {S : Type} (body : bytes * bool -> S -> F (option ferr * S)) (ls : list (bytes * bool)) (s : S) : F (option ferr * S) :=
  match ls with
  | [] => mret (None, s)
  | l :: ls =>
      d ← done;
      if d : bool then mret (Some ECtx, s)
      else
        '(e, s) ← body l s;
        match e with
        | Some e => mret (Some e, s)
        | None => eachLine body ls s
        end
  end.

Definition forLines {S : Type} (src : source) (body : bytes * bool -> S -> F (option ferr * S)) (s : S) : F (option ferr * S) :=
  let '(ls, long) := scanLines [] (content src) in
  '(e, s) ← eachLine body ls s;
  match e with
  | Some e => mret (Some e, s)
  | None => mret (scanErr src long, s)
  end.

(** The tokens, put together again, are the stream, up to a line that is too long. *)
Definition joined (ls : list (bytes * bool)) : bytes :=
  mjoin (map (fun l : bytes * bool => fst l ++ (if snd l then [delim] else [])) ls).

Lemma scanLines_joined cur data :
  if snd (scanLines cur data) then joined (fst (scanLines cur data)) `prefix_of` cur ++ data
  else joined (fst (scanLines cur data)) = cur ++ data.
Proof.
  revert cur. induction data as [|c data IH]; intros cur; cbn [scanLines].
  - destruct cur as [|x cur]; [done|]. destruct (_ <=? _)%Z; cbn; [apply prefix_nil|]. unfold joined. cbn. by rewrite !app_nil_r.
  - destruct (Ascii.eqb_spec c delim) as [->|_].
    + destruct (_ <=? _)%Z; cbn; [apply prefix_nil|]. specialize (IH []). destruct (scanLines [] data) as [ls long]. cbn [fst snd] in *.
      unfold joined in *. cbn [map mjoin list_join fst snd] in *. cbn [app] in IH. rewrite <- app_assoc. destruct long.
      * apply prefix_app. by apply (prefix_app [delim]).
      * cbn. by f_equal; f_equal.
    + specialize (IH (cur ++ [c])). by rewrite <- app_assoc in IH.
Qed.

(** No token holds the delimiter, and only the last one may lack it. *)
Lemma scanLines_tokens cur data : delim ∉ cur ->
  Forall (fun l => delim ∉ fst l /\ (Z.of_nat (length (fst l)) < cap)%Z) (fst (scanLines cur data)).
Proof.
  revert cur. induction data as [|c data IH]; intros cur Hc; cbn [scanLines].
  - destruct cur as [|x cur]; [constructor|]. destruct (Z.leb_spec cap (Z.of_nat (length (x :: cur)))); constructor; [done|constructor].
  - destruct (Ascii.eqb_spec c delim) as [->|Hne].
    + destruct (Z.leb_spec cap (Z.of_nat (length cur))); [constructor|].
      specialize (IH [] ltac:(apply not_elem_of_nil)). destruct (scanLines [] data). by constructor.
    + apply IH. rewrite elem_of_app, list_elem_of_singleton. intros [?|?]; [done|congruence].
Qed.
End Scan.
End Ops.

(** ** What a computation prints *)

(** The bytes offered to the standard output. *)
Definition stdout (es : list event) : bytes := mjoin (map (fun e => match e with EvOut p => p | _ => [] end) es).

Lemma stdout_app es es' : stdout (es ++ es') = stdout es ++ stdout es'.
Proof. unfold stdout. by rewrite map_app, join_app. Qed.

(** The context lasts, and every write is taken. *)
Record calm (h : host) : Prop := mkCalm { calm_ctx : forall n, ctxDone h n = false; calm_write : forall es, writeErr h es = None }.

(** [m] prints [p] and nothing on the standard error, and returns [a]. *)
Definition prints {A} (m : F A) (p : bytes) (a : A) : Prop :=
  forall w, exists es, m w = (a, mkWorld (events w ++ es) (polls (snd (m w)))) /\ stdout es = p /\ Forall (fun e => exists q, e = EvOut q) es.

Lemma prints_ret {A} (a : A) : prints (mret a) [] a.
Proof. intros [es n]. exists []. cbn. by rewrite app_nil_r. Qed.

Lemma prints_bind {A B} (m : F A) (f : A -> F B) p q a b : prints m p a -> prints (f a) q b -> prints (m ≫= f) (p ++ q) b.
Proof.
  intros Hm Hf w. destruct (Hm w) as (es & E & Hp & Ho). unfold mbind, F_bind. rewrite E. cbn [events polls snd].
  destruct (Hf (mkWorld (events w ++ es) (polls (snd (m w))))) as (es' & E' & Hq & Ho'). cbn [events] in E'. rewrite E'.
  exists (es ++ es'). cbn [snd polls]. rewrite app_assoc. split; [done|]. split; [by rewrite stdout_app, Hp, Hq|]. by apply Forall_app.
Qed.

Lemma prints_eq {A} (m : F A) p q a : prints m p a -> p = q -> prints m q a.
Proof. by intros H <-. Qed.

(** The same for a computation that also opens and closes files. *)
Definition answers {A} (m : F A) (p : bytes) (a : A) : Prop :=
  forall w, exists es, m w = (a, mkWorld (events w ++ es) (polls (snd (m w)))) /\ stdout es = p /\
    Forall (fun e => match e with EvErr _ | EvUsage => False | _ => True end) es.

Lemma answers_prints {A} (m : F A) p a : prints m p a -> answers m p a.
Proof.
  intros Hm w. destruct (Hm w) as (es & E & Hp & Ho). exists es. split; [done|]. split; [done|].
  eapply Forall_impl; [exact Ho|]. by intros e [q ->].
Qed.

Lemma answers_bind {A B} (m : F A) (f : A -> F B) p q a b : answers m p a -> answers (f a) q b -> answers (m ≫= f) (p ++ q) b.
Proof.
  intros Hm Hf w. destruct (Hm w) as (es & E & Hp & Ho). unfold mbind, F_bind. rewrite E. cbn [events polls snd].
  destruct (Hf (mkWorld (events w ++ es) (polls (snd (m w))))) as (es' & E' & Hq & Ho'). cbn [events] in E'. rewrite E'.
  exists (es ++ es'). cbn [snd polls]. rewrite app_assoc. split; [done|]. split; [by rewrite stdout_app, Hp, Hq|]. by apply Forall_app.
Qed.

Lemma answers_silent {A B} (m : F A) (f : A -> F B) q a b : answers m [] a -> answers (f a) q b -> answers (m ≫= f) q b.
Proof. intros. by apply (answers_bind m f [] q a b). Qed.

Lemma answers_last {A B} (m : F A) (f : A -> F B) p a b : answers m p a -> answers (f a) [] b -> answers (m ≫= f) p b.
Proof. intros. rewrite <- (app_nil_r p). by apply (answers_bind m f p [] a b). Qed.

Lemma answers_ret {A} (a : A) : answers (mret a) [] a.
Proof. apply answers_prints, prints_ret. Qed.

Lemma answers_closing {A} file (m : F A) p a : answers m p a -> answers (closing file m) p a.
Proof.
  intros Hm. unfold closing. apply (answers_last m _ p a a Hm).
  apply (answers_silent _ _ [] tt a); [|apply answers_ret]. destruct (isStdin file); [apply answers_ret|].
  intros w. exists [EvClose]. split; [done|]. split; [done|]. by repeat constructor.
Qed.

(** Opening [file] succeeds, and its reader delivers [src]. *)
Definition delivers (h : host) (file : bytes) (src : source) : Prop := forall w, fst (openInput h file w) = inr (Some src).

Lemma answers_open h file src : delivers h file src -> answers (openInput h file) [] (inr (Some src)).
Proof.
  intros Hd w. specialize (Hd w). unfold openInput in *. destruct (isStdin file).
  - exists []. cbn in *. rewrite Hd, app_nil_r. by destruct w.
  - destruct (OpenFile h (events w) file); [done|]. cbn in *. exists [EvOpen file]. rewrite Hd. split; [done|]. split; [done|]. by repeat constructor.
Qed.

Section Calm.
Context (h : host) (Hc : calm h).

Lemma prints_done : prints (done h) [] false.
Proof. intros [es n]. exists []. unfold done. cbn. by rewrite app_nil_r, (calm_ctx h Hc). Qed.

Lemma prints_write p : prints (write h p) p None.
Proof.
  intros [es n]. exists [EvOut p]. unfold write. cbn. rewrite (calm_write h Hc). split; [done|]. unfold stdout. cbn. rewrite app_nil_r.
  split; [done|]. constructor; [by exists p|constructor].
Qed.

Lemma prints_out p : prints (out h p) p tt.
Proof. eapply prints_eq; [eapply prints_bind; [apply prints_write|apply prints_ret]|apply app_nil_r]. Qed.

(** A loop over lines whose body prints a function of the line and the state. *)
Lemma prints_eachLine {S : Type} (body : bytes * bool -> S -> F (option ferr * S)) (f : bytes * bool -> S -> bytes * S) (I : S -> Prop) ls s :
  (forall l s, l ∈ ls -> I s -> prints (body l s) (fst (f l s)) (None, snd (f l s)) /\ I (snd (f l s))) -> I s ->
  prints (eachLine h body ls s)
    (fst (foldl (fun '(p, s) l => (p ++ fst (f l s), snd (f l s))) ([], s) ls))
    (None, snd (foldl (fun '(p, s) l => (p ++ fst (f l s), snd (f l s))) ([], s) ls)).
Proof.
  assert (forall ls p s, foldl (fun '(p, s) l => (p ++ fst (f l s), snd (f l s))) (p, s) ls =
    (p ++ fst (foldl (fun '(p, s) l => (p ++ fst (f l s), snd (f l s))) ([], s) ls),
     snd (foldl (fun '(p, s) l => (p ++ fst (f l s), snd (f l s))) ([], s) ls))) as Hacc.
  { clear. induction ls as [|l ls IH]; intros p s; cbn [foldl]; [by rewrite app_nil_r|].
    rewrite (IH (p ++ _)), (IH ([] ++ _)). cbn. by rewrite app_assoc. }
  revert s. induction ls as [|l ls IH]; intros s Hf HI; cbn [eachLine foldl]; [apply prints_ret|].
  rewrite Hacc. cbn [fst snd app]. destruct (Hf l s ltac:(left) HI) as [Hb HI'].
  eapply prints_eq; [eapply prints_bind; [apply prints_done|]|apply app_nil_l].
  eapply prints_bind; [exact Hb|]. cbn. apply IH; [|done]. intros. apply Hf; [by right|done].
Qed.

(** The same without a state. *)
Lemma prints_eachLine_map (body : bytes * bool -> unit -> F (option ferr * unit)) (g : bytes * bool -> bytes) ls :
  (forall l, l ∈ ls -> prints (body l tt) (g l) (None, tt)) -> prints (eachLine h body ls tt) (mjoin (map g ls)) (None, tt).
Proof.
  induction ls as [|l ls IH]; intros Hf; cbn [eachLine]; [apply prints_ret|].
  eapply prints_eq; [eapply prints_bind; [apply prints_done|]|apply app_nil_l].
  eapply (prints_bind _ _ _ _ (None, tt)); [apply Hf; left|]. apply IH. intros. apply Hf. by right.
Qed.

End Calm.
End Filter.

(** ** cut *)

Module Cut.
Import GoStd Filter.
#[local] Open Scope Z_scope.

Definition MaxLineBytes : Z := 2 ^ 20.
Definition MaxInt32 : Z := 2 ^ 31 - 1.

Inductive mode := modeNone | modeBytes | modeChars | modeFields.

Record cutConfig := mkConfig {
  cf_mode : mode;
  ranges : list (Z * Z);     (* sorted, merged, 1-based inclusive *)
  delimByte : ascii;
  onlyDelimited : bool;
  complement : bool;
  outDelim : bytes;
  outDelimSet : bool }.

(** *** Lists of ranges *)

Inductive cutError := invalidRange (s : bytes) | invalidDecreasingRange (s : bytes).

Definition errorText (e : cutError) : bytes :=
  match e with
  | invalidRange s => lit "invalid byte, character or field list: " ++ s
  | invalidDecreasingRange s => lit "invalid decreasing range: " ++ s
  end.

(** [strconv.Atoi], as far as a positive number. *)
Definition positive (s : bytes) : option Z :=
  match ParseInt s with inr n => if n <=? 0 then None else Some n | inl _ => None end.

(** One element of the list [s]. *)
Definition parsePart (s part : bytes) : cutError + (Z * Z) :=
  match part with
  | [] => inl (invalidRange s)
  | _ =>
      match IndexByte part "-"%char with
      | None => match positive part with Some n => inr (n, n) | None => inl (invalidRange part) end
      | Some i =>
          let left := take i part in
          let right := drop (S i) part in
          match left, right with
          | [], [] => inl (invalidRange part)
          | _, _ =>
              match (match left with [] => Some 1 | _ => positive left end) with
              | None => inl (invalidRange part)
              | Some start =>
                  match (match right with [] => Some MaxInt32 | _ => positive right end) with
                  | None => inl (invalidRange part)
                  | Some stop => if stop <? start then inl (invalidDecreasingRange part) else inr (start, stop)
                  end
              end
          end
      end
  end.

Fixpoint parseParts (s : bytes) (parts : list bytes) : cutError + list (Z * Z) :=
  match parts with
  | [] => inr []
  | part :: parts =>
      match parsePart s part with
      | inl e => inl e
      | inr r => match parseParts s parts with inl e => inl e | inr rs => inr (r :: rs) end
      end
  end.

(** The order of [slices.SortFunc]. *)
Definition rangeLe (a b : Z * Z) : Prop := fst a < fst b \/ (fst a = fst b /\ snd a <= snd b).

#[export] Instance rangeLe_dec a b : Decision (rangeLe a b).
Proof. unfold rangeLe. apply _. Defined.

(** Overlapping ranges are merged, adjacent ones are not. *)
Fixpoint mergeRanges (last : Z * Z) (rs : list (Z * Z)) : list (Z * Z) :=
  match rs with
  | [] => [last]
  | r :: rs =>
      if fst r <=? snd last
      then mergeRanges (fst last, if snd last <? snd r then snd r else snd last) rs
      else last :: mergeRanges r rs
  end.

Definition parseList (s : bytes) : cutError + list (Z * Z) :=
  match parseParts s (Split ","%char s) with
  | inl e => inl e
  | inr rs =>
      match merge_sort rangeLe rs with
      | [] => inl (invalidRange s)
      | r :: rs => inr (mergeRanges r rs)
      end
  end.

Fixpoint inRanges (pos : Z) (rs : list (Z * Z)) : bool :=
  match rs with
  | [] => false
  | r :: rs => if pos <? fst r then false else if pos <=? snd r then true else inRanges pos rs
  end.

Fixpoint complementFrom (next total : Z) (rs : list (Z * Z)) : list (Z * Z) :=
  match rs with
  | [] => if next <=? total then [(next, total)] else []
  | (start, stop) :: rs =>
      if total <? start then if next <=? total then [(next, total)] else []
      else
        (if next <? start then [(next, start - 1)] else []) ++
        (if total <=? stop then [] else complementFrom (stop + 1) total rs)
  end.

Definition complementRanges (rs : list (Z * Z)) (total : Z) : list (Z * Z) := complementFrom 1 total rs.

(** *** Lines *)

Section Lines.
Context (h : host) (cfg : cutConfig).

Definition stripNewline (b : bytes) : bytes :=
  match last b with Some c => if (c =c "010")%go then take (length b - 1) b else b | None => b end.

(** [raw[i:j]]. *)
Definition slice (raw : bytes) (i j : nat) : bytes := take (j - i) (drop i raw).

Definition cancelCheckInterval : Z := 2 ^ 10.

(** The loop over the bytes: [k] of them are left from [i] on; the bytes from
    [start] on are selected and not yet written. *)
Fixpoint writeRuns (keep : Z -> bool) (raw : bytes) (k i : nat) (start : option nat) : F (option ferr) :=
  match k with
  | O => match start with Some s => out h (drop s raw);; mret None | None => mret None end
  | S k =>
      d ← (if Z.land (Z.of_nat i) (cancelCheckInterval - 1) =? 0 then done h else mret false);
      if d : bool then mret (Some ECtx)
      else if keep (Z.of_nat i + 1) then writeRuns keep raw k (S i) (match start with None => Some i | Some s => Some s end)
      else
        match start with
        | Some s => out h (slice raw s i);; writeRuns keep raw k (S i) None
        | None => writeRuns keep raw k (S i) None
        end
  end.

(** [processBytesWithOutDelim]; a range after the end of the line stops the loop. *)
Fixpoint withOutDelim (raw : bytes) (rs : list (Z * Z)) (first : bool) : F (option ferr) :=
  match rs with
  | [] => mret None
  | r :: rs =>
      d ← done h;
      if d : bool then mret (Some ECtx)
      else
        let n := Z.of_nat (length raw) in
        if n <? fst r then mret None
        else
          let stop := if n <? snd r then n else snd r in
          (if first then mret tt else out h (outDelim cfg));;
          out h (slice raw (Z.to_nat (fst r - 1)) (Z.to_nat stop));;
          withOutDelim raw rs false
  end.

(** [processBytesComplementWithOutDelim], over the complemented ranges. *)
Fixpoint segmentsWithOutDelim (raw : bytes) (rs : list (Z * Z)) (first : bool) : F (option ferr) :=
  match rs with
  | [] => mret None
  | r :: rs =>
      d ← done h;
      if d : bool then mret (Some ECtx)
      else
        (if first then mret tt else out h (outDelim cfg));;
        out h (slice raw (Z.to_nat (fst r - 1)) (Z.to_nat (snd r)));;
        segmentsWithOutDelim raw rs false
  end.

Definition nl : bytes := [ch_nl].

Definition processBytes (raw : bytes) : F (option ferr) :=
  match raw with
  | [] => out h nl;; mret None
  | _ =>
      e ← (if outDelimSet cfg then
             if complement cfg then segmentsWithOutDelim raw (complementRanges (ranges cfg) (Z.of_nat (length raw))) true
             else withOutDelim raw (ranges cfg) true
           else writeRuns (fun pos => xorb (complement cfg) (inRanges pos (ranges cfg))) raw (length raw) 0 None);
      match e with
      | Some e => mret (Some e)
      | None => out h nl;; mret None
      end
  end.

(** The loop over the fields: the bytes left, the index of the first of them,
    the fields so far and where the current one starts. *)
Fixpoint fieldsLoop (raw rest : bytes) (i : nat) (fieldIdx : Z) (fieldStart : nat) (firstOutput : bool) : F (option ferr) :=
  let endField (k : bool -> F (option ferr)) :=
    d ← done h;
    if d : bool then mret (Some ECtx)
    else if xorb (complement cfg) (inRanges (fieldIdx + 1) (ranges cfg))
    then
      (if firstOutput then mret tt else out h (outDelim cfg));;
      out h (slice raw fieldStart i);;
      k false
    else k firstOutput in
  match rest with
  | [] => endField (fun _ => out h nl;; mret None)
  | c :: rest =>
      if Ascii.eqb c (delimByte cfg)
      then endField (fieldsLoop raw rest (S i) (fieldIdx + 1) (S i))
      else fieldsLoop raw rest (S i) fieldIdx fieldStart firstOutput
  end.

Definition processFields (raw : bytes) : F (option ferr) :=
  if negb (existsb (fun b => Ascii.eqb b (delimByte cfg)) raw) then
    if onlyDelimited cfg then mret None else out h raw;; out h nl;; mret None
  else fieldsLoop raw raw 0 0 0 true.

Definition processLine (raw : bytes) : F (option ferr) :=
  match cf_mode cfg with
  | modeBytes | modeChars => processBytes raw
  | modeFields => processFields raw
  | modeNone => mret None
  end.

(** The scanner keeps the newline, which is stripped again. *)
Definition processSource (src : source) : F (option ferr) :=
  '(e, _) ← forLines h ch_nl MaxLineBytes src
    (fun l s => e ← processLine (stripNewline (fst l ++ (if snd l then [ch_nl] else []))); mret (e, s)) tt;
  mret e.

Definition processFile (file : bytes) : F (option ferr) :=
  opened ← openInput h file;
  match opened with
  | inl e => mret (Some e)
  | inr None => mret None
  | inr (Some src) => closing file (processSource src)
  end.

Fixpoint processFiles (files : list bytes) (failed : bool) : F bool :=
  match files with
  | [] => mret failed
  | file :: files =>
      d ← done h;
      if d : bool then mret failed
      else
        e ← processFile file;
        match e with
        | Some e => errf (lit "cut: " ++ displayName file ++ lit ": " ++ PortableErr h e ++ nl);; processFiles files true
        | None => processFiles files failed
        end
  end.
End Lines.

(** *** The command *)

(** The parsed flags; [None] where a flag was not given. *)
Record cutFlags := mkFlags {
  fl_help : bool;
  fl_bytes : option bytes;
  fl_characters : option bytes;
  fl_fields : option bytes;
  fl_delimiter : option bytes;
  fl_onlyDelimited : bool;
  fl_complement : bool;
  fl_outputDelimiter : option bytes }.

Definition given {A} (o : option A) : bool := match o with Some _ => true | None => false end.

(** The delimiter, a tab by default. *)
Definition delimiterOf (fl : cutFlags) : bytes := default [ch_tab] (fl_delimiter fl).

(** The mode and its list: the last one given of bytes, characters and fields. *)
Definition modeOf (fl : cutFlags) : mode * bytes :=
  match fl_fields fl, fl_characters fl, fl_bytes fl with
  | Some l, _, _ => (modeFields, l)
  | None, Some l, _ => (modeChars, l)
  | None, None, Some l => (modeBytes, l)
  | None, None, None => (modeNone, [])
  end.

Definition modeCount (fl : cutFlags) : nat :=
  length (filter (fun b => b = true) [given (fl_bytes fl); given (fl_characters fl); given (fl_fields fl)]).

(** The configuration, or the message of the first error; [fl] without [--help]. *)
Definition configure (fl : cutFlags) : bytes + cutConfig :=
  match modeCount fl with
  | O => inl (lit "cut: you must specify a list of bytes, characters, or fields" ++ nl)
  | S (S _) => inl (lit "cut: only one type of list may be specified" ++ nl)
  | S O =>
      let '(m, listStr) := modeOf fl in
      let onFields := match m with modeFields => true | _ => false end in
      if negb onFields && given (fl_delimiter fl)
      then inl (lit "cut: an input delimiter may be specified only when operating on fields" ++ nl)
      else if negb onFields && fl_onlyDelimited fl
      then inl (lit "cut: suppressing non-delimited lines makes sense" ++ nl ++ [ch_tab] ++ lit "only when operating on fields" ++ nl)
      else
        match parseList listStr with
        | inl e => inl (lit "cut: " ++ errorText e ++ nl)
        | inr rs =>
            inr (mkConfig m rs (default ch_tab (head (delimiterOf fl))) (fl_onlyDelimited fl) (fl_complement fl)
                   (default (delimiterOf fl) (fl_outputDelimiter fl)) (given (fl_outputDelimiter fl)))
        end
  end.

(** The handler; its result is the exit code. *)
Definition run (h : host) (fl : cutFlags) (files : list bytes) : F Z :=
  if given (fl_delimiter fl) && negb (length (delimiterOf fl) =? 1)%nat then
    errf (lit "cut: the delimiter must be a single character" ++ nl);;
    errf (lit "Try 'cut --help' for more information." ++ nl);;
    mret 1
  else if fl_help fl then emit EvUsage;; mret 0
  else
    match configure fl with
    | inl message => errf message;; mret 1
    | inr cfg =>
        failed ← processFiles h cfg (match files with [] => [lit "-"] | _ => files end) false;
        mret (if failed : bool then 1 else 0)
    end.

(** *** What a list of ranges selects *)

Definition within (pos : Z) (r : Z * Z) : Prop := fst r <= pos <= snd r.
Definition covers (rs : list (Z * Z)) (pos : Z) : Prop := exists r, r ∈ rs /\ within pos r.

(** Ranges from one, in order, that do not overlap. *)
Definition separated (rs : list (Z * Z)) : Prop :=
  Forall (fun r => 1 <= fst r <= snd r) rs /\ StronglySorted (fun a b => snd a < fst b) rs.

Lemma covers_cons r rs pos : covers (r :: rs) pos <-> within pos r \/ covers rs pos.
Proof. unfold covers. setoid_rewrite elem_of_cons. naive_solver. Qed.

Lemma covers_nil pos : covers [] pos <-> False.
Proof. unfold covers. split; [by intros (r & ?%elem_of_nil & _)|done]. Qed.

Lemma separated_cons r rs : separated (r :: rs) <->
  1 <= fst r <= snd r /\ (forall r', r' ∈ rs -> snd r < fst r') /\ separated rs.
Proof.
  unfold separated. rewrite Forall_cons. split.
  - intros [[H1 H2] [Hs Hf]%StronglySorted_inv]. rewrite Forall_forall in Hf. auto.
  - intros (H1 & H2 & H3 & H4). split; [auto|]. constructor; [done|]. by apply Forall_forall.
Qed.

Lemma inRanges_covers pos rs : separated rs -> inRanges pos rs = true <-> covers rs pos.
Proof.
  induction rs as [|r rs IH]; cbn [inRanges]; [by rewrite covers_nil|]. intros (Hv & Hlt & Hs)%separated_cons.
  rewrite covers_cons. unfold within at 1. destruct (Z.ltb_spec pos (fst r)).
  { split; [done|]. intros [?|(r' & Hr' & ?)]; [lia|]. specialize (Hlt r' Hr'). unfold within in *. lia. }
  destruct (Z.leb_spec pos (snd r)); [split; [lia|done]|]. rewrite IH by done. split; [auto|]. intros [?|?]; [lia|done].
Qed.

Lemma mergeRanges_spec rs last : Forall (fun r => 1 <= fst r <= snd r) (last :: rs) -> Sorted rangeLe (last :: rs) ->
  separated (mergeRanges last rs) /\ (forall r, r ∈ mergeRanges last rs -> fst last <= fst r) /\
  forall pos, covers (mergeRanges last rs) pos <-> covers (last :: rs) pos.
Proof.
  revert last. induction rs as [|r rs IH]; intros last [Hl Hv]%Forall_cons Hs; cbn [mergeRanges].
  - split; [apply separated_cons|].
    + split; [done|]. split; [by intros r' ?%elem_of_nil|]. split; constructor.
    + split; [|done]. intros r' ->%list_elem_of_singleton. lia.
  - apply Forall_cons in Hv as [Hr Hv]. inversion Hs as [|? ? Hsr Hh]; subst. inversion Hh as [|? ? Hle]; subst.
    inversion Hsr as [|? ? Hsrs Hhr]; subst. destruct (Z.leb_spec (fst r) (snd last)) as [Hov|Hgap].
    + set (last' := (fst last, if snd last <? snd r then snd r else snd last)).
      assert (1 <= fst last' <= snd last' /\ snd last <= snd last' /\ snd r <= snd last' /\ (snd last' = snd last \/ snd last' = snd r)) as (Hv' & A & B & D).
      { cbn. destruct (Z.ltb_spec (snd last) (snd r)); lia. }
      destruct (IH last') as (H1 & H2 & H3).
      { by constructor. }
      { constructor; [done|]. destruct rs as [|r' rs]; constructor. inversion Hhr as [|? ? Hrr]; subst. unfold rangeLe in *. cbn [fst] in *.
        destruct Hle as [?|[? ?]]; destruct Hrr as [?|[? ?]]; try (left; cbn; lia). right. cbn in *. destruct (Z.ltb_spec (snd last) (snd r)); lia. }
      split; [done|]. split; [exact H2|]. intros pos. rewrite H3, !covers_cons.
      assert (within pos last' <-> within pos last \/ within pos r) as ->; [|tauto].
      unfold within, rangeLe in *. change (fst last') with (fst last). clearbody last'. lia.
    + destruct (IH r) as (H1 & H2 & H3); [by constructor|done|].
      split; [apply separated_cons; split; [done|]; split; [|done]; intros r' Hr'; specialize (H2 r' Hr'); lia|].
      split; [intros r' [->|Hr']%elem_of_cons; [lia|]; specialize (H2 r' Hr'); unfold rangeLe in *; lia|].
      intros pos. by rewrite (covers_cons last), H3, covers_cons, !covers_cons.
Qed.

Lemma positive_pos s n : positive s = Some n -> 1 <= n.
Proof. unfold positive. destruct (ParseInt s) as [|m]; [done|]. destruct (Z.leb_spec m 0); [done|]. intros [= <-]. lia. Qed.

Lemma parsePart_valid s part r : parsePart s part = inr r -> 1 <= fst r <= snd r.
Proof.
  unfold parsePart. destruct part as [|c part]; [done|]. destruct (IndexByte _ _) as [i|].
  - destruct (take i _) as [|x left], (drop (S i) _) as [|y right]; try done;
      repeat match goal with
        | |- context [positive ?x] => let E := fresh in destruct (positive x) eqn:E; [apply positive_pos in E|done]
        end;
      match goal with |- context [?a <? ?b] => destruct (Z.ltb_spec a b) end; try done; intros [= <-]; cbn; lia.
  - destruct (positive _) eqn:E; [|done]. apply positive_pos in E. intros [= <-]. cbn. lia.
Qed.

Lemma parseParts_spec s parts rs : parseParts s parts = inr rs -> Forall2 (fun part r => parsePart s part = inr r) parts rs.
Proof.
  revert rs. induction parts as [|part parts IH]; intros rs; cbn [parseParts]; [intros [= <-]; constructor|].
  destruct (parsePart s part) eqn:E; [done|]. destruct (parseParts s parts); [done|]. intros [= <-]. constructor; auto.
Qed.

Lemma cut_list_ok s rs : parseList s = inr rs -> separated rs.
Proof.
  unfold parseList. destruct (parseParts s _) as [|parsed] eqn:E; [done|]. apply parseParts_spec in E.
  assert (Forall (fun r => 1 <= fst r <= snd r) (merge_sort rangeLe parsed)) as Hv.
  { rewrite merge_sort_Permutation. apply Forall_forall. intros r [i Hi]%list_elem_of_lookup.
    eapply Forall2_lookup_r in E as (part & _ & Hp); [|exact Hi]. by eapply parsePart_valid. }
  assert (Sorted rangeLe (merge_sort rangeLe parsed)) as Hsort.
  { apply Sorted_merge_sort. intros [a b] [a' b']. unfold rangeLe. cbn. lia. }
  destruct (merge_sort rangeLe parsed) as [|r rs']; [done|]. intros [= <-]. by apply mergeRanges_spec.
Qed.

(** A list of ranges is accepted exactly when every element between commas is one;
    the ranges kept are in order and apart, and a position lies in them exactly
    when it lies in an element. *)
Theorem cut_list_exact s :
  (forall rs, parseList s = inr rs ->
     separated rs /\
     forall pos, inRanges pos rs = true <->
       exists part r, part ∈ Split ","%char s /\ parsePart s part = inr r /\ fst r <= pos <= snd r) /\
  ((exists e, parseList s = inl e) <-> exists part e, part ∈ Split ","%char s /\ parsePart s part = inl e).
Proof.
  assert (forall parts, (exists e, parseParts s parts = inl e) <-> exists part e, part ∈ parts /\ parsePart s part = inl e) as Herr.
  { induction parts as [|part parts IH]; cbn [parseParts].
    - split; [by intros [e [=]]|by intros (part & e & ?%elem_of_nil & _)].
    - destruct (parsePart s part) as [e|r] eqn:E; [split; eauto using list_elem_of_here|]. setoid_rewrite elem_of_cons.
      transitivity (exists e, parseParts s parts = inl e).
      { destruct (parseParts s parts); naive_solver. }
      rewrite IH. split; intros (p & e & H1 & H2); exists p, e; [auto|]. destruct H1 as [->|]; [congruence|done]. }
  assert (Split ","%char s <> []) as Hne by (destruct s as [|c s']; cbn; [done|]; destruct (Ascii.eqb _ _); [done|by destruct (Split _ _)]).
  unfold parseList. destruct (parseParts s (Split ","%char s)) as [e|rs] eqn:E.
  { split; [done|]. rewrite <- Herr, E. split; intros _; eauto. }
  apply parseParts_spec in E as Hf. assert (Permutation (merge_sort rangeLe rs) rs) as Hperm by apply merge_sort_Permutation.
  assert (Sorted rangeLe (merge_sort rangeLe rs)) as Hsort.
  { apply Sorted_merge_sort. intros [a b] [a' b']. unfold rangeLe. cbn. lia. }
  assert (Forall (fun r => 1 <= fst r <= snd r) (merge_sort rangeLe rs)) as Hvalid.
  { rewrite Hperm. apply Forall_forall. intros r Hr. apply list_elem_of_lookup in Hr as [i Hi].
    eapply Forall2_lookup_r in Hf as (part & _ & Hp); [|exact Hi]. by eapply parsePart_valid. }
  assert (forall pos, covers rs pos <-> exists part r, part ∈ Split ","%char s /\ parsePart s part = inr r /\ fst r <= pos <= snd r) as Hcov.
  { intros pos. split.
    - intros (r & [i Hi]%list_elem_of_lookup & Hw). eapply Forall2_lookup_r in Hf as (part & Hl & Hp); [|exact Hi].
      exists part, r. split; [by eapply list_elem_of_lookup_2|done].
    - intros (part & r & [i Hi]%list_elem_of_lookup & Hp & Hw). eapply Forall2_lookup_l in Hf as (r' & Hl & Hp'); [|exact Hi].
      exists r. split; [|done]. assert (r' = r) as -> by congruence. by eapply list_elem_of_lookup_2. }
  destruct (merge_sort rangeLe rs) as [|r rs'].
  { apply Permutation_nil in Hperm. subst rs. inversion Hf. congruence. }
  destruct (mergeRanges_spec rs' r Hvalid Hsort) as (Hs & _ & Hm). split.
  - intros ? [= <-]. split; [done|]. intros pos. rewrite inRanges_covers, Hm, <- Hcov by done. unfold covers. by setoid_rewrite Hperm.
  - split; [by intros [? [=]]|]. intros Hbad. apply Herr in Hbad as [e He]. congruence.
Qed.

(** *** The output, line by line *)

(** The elements of [l], numbered from [pos], that are kept. *)
Fixpoint pick {A} (keep : Z -> bool) (pos : Z) (l : list A) : list A :=
  match l with
  | [] => []
  | x :: l => if keep pos then x :: pick keep (pos + 1) l else pick keep (pos + 1) l
  end.

Definition joinWith (sep : bytes) (l : list bytes) : bytes :=
  match l with [] => [] | x :: l => x ++ mjoin (map (app sep) l) end.

(** The parts of a line that ranges in order select. *)
Definition segments (raw : bytes) (rs : list (Z * Z)) : list bytes :=
  map (fun r => slice raw (Z.to_nat (fst r - 1)) (Z.to_nat (Z.min (snd r) (Z.of_nat (length raw)))))
    (filter (fun r => fst r <= Z.of_nat (length raw)) rs).

Definition selects (cfg : cutConfig) (pos : Z) : bool := xorb (complement cfg) (inRanges pos (ranges cfg)).

Definition cutBytes (cfg : cutConfig) (raw : bytes) : bytes :=
  if outDelimSet cfg
  then joinWith (outDelim cfg) (segments raw (if complement cfg then complementRanges (ranges cfg) (Z.of_nat (length raw)) else ranges cfg))
  else pick (selects cfg) 1 raw.

Definition cutLine (cfg : cutConfig) (raw : bytes) : bytes :=
  match cf_mode cfg with
  | modeBytes | modeChars => cutBytes cfg raw ++ nl
  | modeFields =>
      if negb (existsb (fun b => Ascii.eqb b (delimByte cfg)) raw) then if onlyDelimited cfg then [] else raw ++ nl
      else joinWith (outDelim cfg) (pick (selects cfg) 1 (Split (delimByte cfg) raw)) ++ nl
  | modeNone => []
  end.

(** Pieces that follow others, if any. *)
Definition prefixed (sep : bytes) (first : bool) (l : list bytes) : bytes :=
  if first then joinWith sep l else mjoin (map (app sep) l).

Lemma prefixed_cons sep first x l :
  prefixed sep first (x :: l) = (if first then [] else sep) ++ x ++ prefixed sep false l.
Proof. destruct first; unfold prefixed; cbn; [done|]. by rewrite app_assoc. Qed.

Lemma filter_none {A} (P : A -> Prop) `{forall x, Decision (P x)} (l : list A) : (forall x, x ∈ l -> ~ P x) -> filter P l = [].
Proof.
  induction l as [|x l IH]; intros Hl; [done|]. rewrite filter_cons_False by (apply Hl; left). apply IH. intros y Hy. apply Hl. by right.
Qed.

Lemma slice_snoc raw s i c : (s <= i)%nat -> raw !! i = Some c -> slice raw s (S i) = slice raw s i ++ [c].
Proof.
  intros Hs Hi. unfold slice. replace (S i - s)%nat with (S (i - s)) by lia. apply take_S_r. rewrite lookup_drop.
  by replace (s + (i - s))%nat with i by lia.
Qed.

Lemma slice_self raw s : slice raw s s = [].
Proof. unfold slice. by rewrite Nat.sub_diag. Qed.

Section Output.
Context (h : host) (Hc : calm h) (cfg : cutConfig).

Lemma prints_done_then {A} (f : bool -> F A) p a : prints (f false) p a -> prints (d ← done h; f d) p a.
Proof. intros Hf. eapply prints_eq; [eapply prints_bind; [by apply prints_done|exact Hf]|done]. Qed.

Lemma prints_out_then {A} (m : F A) q p a : prints m p a -> prints (out h q;; m) (q ++ p) a.
Proof. intros Hm. eapply prints_bind; [by apply prints_out|exact Hm]. Qed.

Lemma prints_writeRuns keep raw k i start :
  (i + k = length raw)%nat -> (forall s, start = Some s -> (s <= i)%nat) ->
  prints (writeRuns h keep raw k i start)
    ((match start with Some s => slice raw s i | None => [] end) ++ pick keep (Z.of_nat i + 1) (drop i raw)) None.
Proof.
  revert i start. induction k as [|k IH]; intros i start Hk Hs; cbn [writeRuns].
  - rewrite (drop_ge raw i) by lia. cbn [pick]. rewrite app_nil_r. destruct start as [s|]; [|apply prints_ret].
    eapply prints_eq; [apply prints_out_then, prints_ret|]. rewrite app_nil_r. unfold slice. rewrite take_ge; [done|]. rewrite length_drop. lia.
  - destruct (lookup_lt_is_Some_2 raw i ltac:(lia)) as [c Hi]. rewrite (drop_S raw c i Hi). cbn [pick].
    replace (Z.of_nat i + 1 + 1) with (Z.of_nat (S i) + 1) by lia.
    assert (forall (f : bool -> F (option ferr)) p a, prints (f false) p a ->
      prints (d ← (if Z.land (Z.of_nat i) (cancelCheckInterval - 1) =? 0 then done h else mret false); f d) p a) as Hpoll.
    { intros f p a Hf. destruct (_ =? 0); [by apply prints_done_then|]. exact (prints_bind _ _ [] _ _ _ (prints_ret _) Hf). }
    apply Hpoll. destruct (keep (Z.of_nat i + 1)).
    + eapply prints_eq; [apply IH; [lia|]|].
      * intros s. destruct start as [s'|]; intros [= <-]; [|lia]. specialize (Hs s' eq_refl). lia.
      * destruct start as [s|]; cbv iota; [rewrite (slice_snoc raw s i c) by auto; by rewrite <- app_assoc|].
        rewrite (slice_snoc raw i i c), slice_self by (done || lia). done.
    + destruct start as [s|].
      * apply prints_out_then. eapply prints_eq; [apply IH; [lia|done]|done].
      * eapply prints_eq; [apply IH; [lia|done]|done].
Qed.

Lemma prints_segments raw rs first : Forall (fun r => snd r <= Z.of_nat (length raw)) rs -> Forall (fun r => 1 <= fst r <= snd r) rs ->
  prints (segmentsWithOutDelim h cfg raw rs first) (prefixed (outDelim cfg) first (segments raw rs)) None.
Proof.
  intros Hn Hv. revert first. induction rs as [|r rs IH]; intros first; cbn [segmentsWithOutDelim].
  { eapply prints_eq; [apply prints_ret|]. by destruct first. }
  apply Forall_cons in Hn as [Hr Hn], Hv as [Hr' Hv]. apply prints_done_then. unfold segments. rewrite filter_cons_True by lia.
  cbn [map]. rewrite prefixed_cons, Z.min_l by lia. destruct first.
  - eapply prints_eq; [eapply prints_bind; [apply prints_ret|]|done]. by apply prints_out_then, IH.
  - apply prints_out_then. by apply prints_out_then, IH.
Qed.

Lemma prints_withOutDelim raw rs first : separated rs ->
  prints (withOutDelim h cfg raw rs first) (prefixed (outDelim cfg) first (segments raw rs)) None.
Proof.
  revert first. induction rs as [|r rs IH]; intros first; cbn [withOutDelim].
  { intros _. eapply prints_eq; [apply prints_ret|]. by destruct first. }
  intros (Hv & Hlt & Hs)%separated_cons. apply prints_done_then. unfold segments.
  destruct (Z.ltb_spec (Z.of_nat (length raw)) (fst r)) as [Hgt|Hle].
  - assert (filter (fun r => fst r <= Z.of_nat (length raw)) (r :: rs) = []) as ->.
    { apply filter_none. intros r' [->|Hr']%elem_of_cons; [lia|]. specialize (Hlt r' Hr'). lia. }
    eapply prints_eq; [apply prints_ret|]. by destruct first.
  - rewrite filter_cons_True by lia. cbn [map]. rewrite prefixed_cons.
    assert ((if Z.of_nat (length raw) <? snd r then Z.of_nat (length raw) else snd r) = Z.min (snd r) (Z.of_nat (length raw))) as ->.
    { destruct (Z.ltb_spec (Z.of_nat (length raw)) (snd r)); lia. }
    destruct first.
    + eapply prints_eq; [eapply prints_bind; [apply prints_ret|]|done]. by apply prints_out_then, IH.
    + apply prints_out_then. by apply prints_out_then, IH.
Qed.

(** *** The complement *)

Lemma complementFrom_spec rs next total : 1 <= next -> separated rs -> (forall r, r ∈ rs -> next <= fst r) ->
  separated (complementFrom next total rs) /\ (forall r, r ∈ complementFrom next total rs -> next <= fst r /\ snd r <= total) /\
  forall pos, covers (complementFrom next total rs) pos <-> next <= pos <= total /\ ~ covers rs pos.
Proof.
  revert next. induction rs as [|[start stop] rs IH]; intros next Hn Hs Hlow; cbn [complementFrom].
  - destruct (Z.leb_spec next total).
    + split; [apply separated_cons; split; [cbn; lia|]; split; [by intros r ?%elem_of_nil|split; constructor]|].
      split; [intros r ->%list_elem_of_singleton; cbn; lia|]. intros pos. rewrite covers_cons, !covers_nil. unfold within. cbn. lia.
    + split; [split; constructor|]. split; [by intros r ?%elem_of_nil|]. intros pos. rewrite !covers_nil. lia.
  - apply separated_cons in Hs as (Hv & Hlt & Hs). cbn [fst snd] in *. pose proof (Hlow (start, stop) ltac:(left)) as Hst. cbn in Hst.
    destruct (Z.ltb_spec total start) as [Hgt|Hle].
    { assert (forall pos, pos <= total -> ~ covers ((start, stop) :: rs) pos) as Hout.
      { intros pos Hp (r & [->|Hr]%elem_of_cons & Hw); unfold within in Hw; cbn in Hw; [lia|]. specialize (Hlt r Hr). lia. }
      destruct (Z.leb_spec next total).
      + split; [apply separated_cons; split; [cbn; lia|]; split; [by intros r ?%elem_of_nil|split; constructor]|].
        split; [intros r ->%list_elem_of_singleton; cbn; lia|]. intros pos. rewrite covers_cons, covers_nil. unfold within. cbn.
        split; [intros [?|[]]; split; [done|apply Hout; lia]|tauto].
      + split; [split; constructor|]. split; [by intros r ?%elem_of_nil|]. intros pos. rewrite covers_nil. lia. }
    set (tail := if total <=? stop then [] else complementFrom (stop + 1) total rs).
    assert (separated tail /\ (forall r, r ∈ tail -> stop + 1 <= fst r /\ snd r <= total) /\
      forall pos, covers tail pos <-> stop + 1 <= pos <= total /\ ~ covers rs pos) as (T1 & T2 & T3).
    { unfold tail. destruct (Z.leb_spec total stop).
      - split; [split; constructor|]. split; [by intros r ?%elem_of_nil|]. intros pos. rewrite covers_nil. lia.
      - apply IH; [lia|done|]. intros r Hr. specialize (Hlt r Hr). lia. }
    assert (forall pos, pos <= stop -> ~ covers rs pos) as Hrs.
    { intros pos Hp (r & Hr & Hw). specialize (Hlt r Hr). unfold within in Hw. lia. }
    destruct (Z.ltb_spec next start); cbn [app].
    + split; [apply separated_cons; split; [cbn; lia|]; split; [|done]; intros r Hr; apply T2 in Hr; cbn; lia|].
      split; [intros r [->|Hr]%elem_of_cons; [cbn; lia|apply T2 in Hr; lia]|]. intros pos.
      rewrite covers_cons, T3, covers_cons. unfold within. cbn [fst snd]. specialize (Hrs pos).
      destruct (decide (pos <= stop)); [|tauto || (intuition lia)]. intuition lia.
    + split; [done|]. split; [intros r Hr; apply T2 in Hr; lia|]. intros pos. rewrite T3, covers_cons. unfold within. cbn [fst snd].
      specialize (Hrs pos). destruct (decide (pos <= stop)); intuition lia.
Qed.

Lemma complementRanges_spec rs total : separated rs ->
  separated (complementRanges rs total) /\ Forall (fun r => snd r <= total) (complementRanges rs total) /\
  forall pos, covers (complementRanges rs total) pos <-> 1 <= pos <= total /\ ~ covers rs pos.
Proof.
  intros Hs. destruct (complementFrom_spec rs 1 total ltac:(lia) Hs) as (H1 & H2 & H3).
  { intros r Hr. destruct Hs as [Hv _]. rewrite Forall_forall in Hv. by apply Hv. }
  split; [done|]. split; [|done]. apply Forall_forall. intros r Hr. by apply H2.
Qed.

(** *** Picking *)

Lemma pick_ext {A} (keep keep' : Z -> bool) pos (l : list A) :
  (forall p, pos <= p < pos + Z.of_nat (length l) -> keep p = keep' p) -> pick keep pos l = pick keep' pos l.
Proof.
  revert pos. induction l as [|x l IH]; intros pos Hk; cbn [pick]; [done|]. cbn [length] in Hk. rewrite (Hk pos) by lia.
  rewrite IH by (intros; apply Hk; lia). done.
Qed.

Lemma pick_app {A} keep pos (l1 l2 : list A) : pick keep pos (l1 ++ l2) = pick keep pos l1 ++ pick keep (pos + Z.of_nat (length l1)) l2.
Proof.
  revert pos. induction l1 as [|x l1 IH]; intros pos; cbn [pick app length]; [by rewrite Z.add_0_r|].
  rewrite IH. replace (pos + 1 + Z.of_nat (length l1)) with (pos + Z.of_nat (S (length l1))) by lia. by destruct (keep pos).
Qed.

Lemma pick_const {A} (b : bool) pos (l : list A) : pick (fun _ => b) pos l = if b then l else [].
Proof. revert pos. induction l as [|x l IH]; intros pos; cbn [pick]; [by destruct b|]. rewrite IH. by destruct b. Qed.

Lemma pick_all {A} (b : bool) keep pos (l : list A) :
  (forall p, pos <= p < pos + Z.of_nat (length l) -> keep p = b) -> pick keep pos l = if b then l else [].
Proof. intros Hk. by rewrite (pick_ext keep (fun _ => b)), pick_const. Qed.

Lemma segments_beyond raw rs : (forall r, r ∈ rs -> Z.of_nat (length raw) < fst r) -> segments raw rs = [].
Proof. intros Hr. unfold segments. rewrite filter_none; [done|]. intros r Hin. specialize (Hr r Hin). lia. Qed.

Lemma segments_pick raw rs next : separated rs -> 1 <= next -> (forall r, r ∈ rs -> next <= fst r) ->
  pick (fun pos => inRanges pos rs) next (drop (Z.to_nat (next - 1)) raw) = mjoin (segments raw rs).
Proof.
  revert next. induction rs as [|[a b] rs IH]; intros next Hs Hn Hlow.
  { by rewrite (pick_all false) by done. }
  apply separated_cons in Hs as (Hv & Hlt & Hs). cbn [fst snd] in *. pose proof (Hlow (a, b) ltac:(left)) as Ha. cbn in Ha.
  set (n := Z.of_nat (length raw)). destruct (decide (n < a)) as [Hgt|Hle].
  { rewrite segments_beyond; [|intros r [->|Hr]%elem_of_cons; [done|specialize (Hlt r Hr); lia]].
    rewrite (pick_all false); [done|]. intros p Hp. rewrite length_drop in Hp. cbn [inRanges fst]. rewrite (proj2 (Z.ltb_lt p a)) by lia. done. }
  set (stop := Z.min b n).
  assert (drop (Z.to_nat (next - 1)) raw = slice raw (Z.to_nat (next - 1)) (Z.to_nat (a - 1)) ++
          (slice raw (Z.to_nat (a - 1)) (Z.to_nat stop) ++ drop (Z.to_nat stop) raw)) as ->.
  { unfold slice. assert (forall i j, (i <= j)%nat -> drop i raw = take (j - i) (drop i raw) ++ drop j raw) as Hcut.
    { intros i j Hij. rewrite <- (take_drop (j - i) (drop i raw)) at 1. rewrite drop_drop. by replace (i + (j - i))%nat with j by lia. }
    rewrite (Hcut (Z.to_nat (next - 1)) (Z.to_nat (a - 1))) at 1 by lia. f_equal. apply Hcut. unfold stop. lia. }
  assert (length (slice raw (Z.to_nat (next - 1)) (Z.to_nat (a - 1))) = Z.to_nat (a - next)) as L1.
  { unfold slice. rewrite length_take_le; [lia|]. rewrite length_drop. lia. }
  assert (length (slice raw (Z.to_nat (a - 1)) (Z.to_nat stop)) = Z.to_nat (stop - a + 1)) as L2.
  { unfold slice, stop. rewrite length_take_le; [lia|]. rewrite length_drop. lia. }
  rewrite !pick_app, L1, L2. rewrite (pick_all false); [|rewrite L1; intros p Hp; cbn [inRanges fst]; by rewrite (proj2 (Z.ltb_lt p a)) by lia].
  rewrite (pick_all true).
  2:{ rewrite L2. intros p Hp. cbn [inRanges fst snd]. rewrite (proj2 (Z.ltb_ge p a)) by lia. by rewrite (proj2 (Z.leb_le p b)) by lia. }
  cbn [app]. unfold segments. rewrite filter_cons_True by (cbn; lia). cbn [map mjoin list_join fst snd]. f_equal.
  replace (next + Z.of_nat (Z.to_nat (a - next)) + Z.of_nat (Z.to_nat (stop - a + 1))) with (stop + 1) by (unfold stop; lia).
  rewrite (pick_ext _ (fun pos => inRanges pos rs)).
  2:{ intros p Hp. rewrite length_drop in Hp. cbn [inRanges fst snd]. rewrite (proj2 (Z.ltb_ge p a)) by (unfold stop in *; lia).
      rewrite (proj2 (Z.leb_gt p b)); [done|]. unfold stop in *. lia. }
  replace (Z.to_nat stop) with (Z.to_nat (stop + 1 - 1)) by lia. apply IH; [done|unfold stop; lia|].
  intros r Hr. specialize (Hlt r Hr). unfold stop. lia.
Qed.

(** The selected segments, one after the other, are the selected bytes. *)
Lemma segments_selects raw : separated (ranges cfg) ->
  mjoin (segments raw (if complement cfg then complementRanges (ranges cfg) (Z.of_nat (length raw)) else ranges cfg)) =
  pick (selects cfg) 1 raw.
Proof.
  intros Hs. unfold selects. destruct (complement cfg); cbn [xorb].
  - destruct (complementRanges_spec (ranges cfg) (Z.of_nat (length raw)) Hs) as (H1 & _ & H3).
    rewrite <- (segments_pick raw _ 1 H1); [|lia|by intros r Hr; apply (proj1 (Forall_forall _ _) (proj1 H1))].
    apply pick_ext. intros p Hp. apply eq_true_iff_eq. rewrite inRanges_covers, H3, <- inRanges_covers by done. cbn [drop] in Hp.
    destruct (inRanges p (ranges cfg)); cbn; intuition (lia || congruence).
  - rewrite <- (segments_pick raw _ 1 Hs); [done|lia|]. by intros r Hr; apply (proj1 (Forall_forall _ _) (proj1 Hs)).
Qed.

(** *** A line *)

Lemma prints_processBytes raw : separated (ranges cfg) -> prints (processBytes h cfg raw) (cutBytes cfg raw ++ nl) None.
Proof.
  intros Hs. unfold processBytes, cutBytes. destruct raw as [|c raw'] eqn:Er.
  { eapply prints_eq; [apply prints_out_then, prints_ret|]. rewrite app_nil_r.
    destruct (outDelimSet cfg); [|done]. rewrite segments_beyond; [done|]. intros r Hr. cbn [length] in *.
    destruct (complementRanges_spec (ranges cfg) 0 Hs) as ([Hv _] & _ & _), Hs as [Hv' _].
    rewrite Forall_forall in Hv, Hv'. destruct (complement cfg); [specialize (Hv r Hr)|specialize (Hv' r Hr)]; lia. }
  rewrite <- Er. clear Er c raw'. eapply (prints_bind _ _ _ _ None); [|eapply prints_eq; [apply prints_out_then, prints_ret|apply app_nil_r]].
  destruct (outDelimSet cfg).
  - destruct (complement cfg); [|by apply (prints_withOutDelim raw (ranges cfg) true)].
    destruct (complementRanges_spec (ranges cfg) (Z.of_nat (length raw)) Hs) as ([Hv _] & Hn & _).
    by apply (prints_segments raw _ true).
  - eapply prints_eq; [apply prints_writeRuns; [lia|done]|]. done.
Qed.

(** The end of a field. *)
Lemma prints_endField raw i fieldIdx fieldStart (first : bool) (k : bool -> F (option ferr)) tl :
  (forall b, prints (k b) (prefixed (outDelim cfg) b tl ++ nl) None) ->
  prints (d ← done h;
          if d : bool then mret (Some ECtx)
          else if xorb (complement cfg) (inRanges (fieldIdx + 1) (ranges cfg))
          then (if first then mret tt else out h (outDelim cfg));; out h (slice raw fieldStart i);; k false
          else k first)
    (prefixed (outDelim cfg) first ((if selects cfg (fieldIdx + 1) then [slice raw fieldStart i] else []) ++ tl) ++ nl) None.
Proof.
  intros Hk. apply prints_done_then. fold (selects cfg (fieldIdx + 1)). destruct (selects cfg (fieldIdx + 1)); [|apply Hk].
  cbn [app]. rewrite prefixed_cons, <- !app_assoc. destruct first.
  - eapply prints_eq; [eapply prints_bind; [apply prints_ret|]|done]. apply prints_out_then, Hk.
  - apply prints_out_then, prints_out_then, Hk.
Qed.

Lemma prints_fieldsLoop raw rest i fieldIdx fieldStart first :
  drop i raw = rest -> (fieldStart <= i <= length raw)%nat -> delimByte cfg ∉ slice raw fieldStart i ->
  prints (fieldsLoop h cfg raw rest i fieldIdx fieldStart first)
    (prefixed (outDelim cfg) first (pick (selects cfg) (fieldIdx + 1) (Split (delimByte cfg) (slice raw fieldStart i ++ rest))) ++ nl) None.
Proof.
  revert i fieldIdx fieldStart first. induction rest as [|c rest IH]; intros i fieldIdx fieldStart first Hd Hi Hn; cbn [fieldsLoop].
  - rewrite app_nil_r, (Filepath.Split_word _ _ Hn). cbn [pick].
    rewrite <- (app_nil_r (if selects cfg (fieldIdx + 1) then _ else _)).
    apply (prints_endField raw i fieldIdx fieldStart first (fun _ => out h nl;; mret None)). intros b. eapply prints_eq; [apply prints_out_then, prints_ret|]. by destruct b.
  - assert (raw !! i = Some c) as Hc'.
    { assert (drop i raw !! 0%nat = Some c) as E by (by rewrite Hd). by rewrite lookup_drop, Nat.add_0_r in E. }
    assert (drop (S i) raw = rest) as Hd' by (by rewrite (drop_S _ _ _ Hc') in Hd; injection Hd).
    pose proof (lookup_lt_Some _ _ _ Hc') as Hlt. destruct (Ascii.eqb_spec c (delimByte cfg)) as [->|Hne].
    + rewrite (Filepath.Split_app _ _ _ Hn). cbn [pick].
      assert (forall (b : bool) (x : bytes) l, (if b then x :: l else l) = (if b then [x] else []) ++ l) as -> by (by intros []).
      apply (prints_endField raw i fieldIdx fieldStart first (fieldsLoop h cfg raw rest (S i) (fieldIdx + 1) (S i))). intros b. eapply prints_eq; [apply IH; [done|lia|]|]; rewrite slice_self; [apply not_elem_of_nil|done].
    + eapply prints_eq; [apply IH; [done|lia|]|].
      * rewrite (slice_snoc raw fieldStart i c) by (done || lia). rewrite elem_of_app, list_elem_of_singleton. intros [?|?]; [done|congruence].
      * rewrite (slice_snoc raw fieldStart i c) by (done || lia). by rewrite <- app_assoc.
Qed.

Lemma prints_processLine raw : separated (ranges cfg) -> prints (processLine h cfg raw) (cutLine cfg raw) None.
Proof.
  intros Hs. unfold processLine, cutLine. destruct (cf_mode cfg); [apply prints_ret|by apply prints_processBytes..|].
  unfold processFields. destruct (existsb _ raw); cbn [negb].
  - exact (prints_fieldsLoop raw raw 0 0 0 true eq_refl ltac:(lia) ltac:(apply not_elem_of_nil)).
  - destruct (onlyDelimited cfg); [apply prints_ret|]. apply prints_out_then. eapply prints_eq; [apply prints_out_then, prints_ret|apply app_nil_r].
Qed.

End Output.

Lemma stripNewline_token (l : bytes * bool) : ch_nl ∉ fst l -> stripNewline (fst l ++ (if snd l then [ch_nl] else [])) = fst l.
Proof.
  intros Hn. unfold stripNewline. destruct (snd l).
  - rewrite last_snoc, length_app. cbn [length]. replace (length (fst l) + 1 - 1)%nat with (length (fst l)) by lia. apply take_app_length.
  - rewrite app_nil_r. destruct (last (fst l)) as [c|] eqn:E; [|done]. destruct (Ascii.eqb_spec c ch_nl) as [->|]; [|done].
    apply last_Some in E as [l' E]. rewrite E, elem_of_app in Hn. destruct Hn. right. left.
Qed.

(** C38. What cut does with an open stream, while the context lasts and writes are
    taken: for each of its lines, up to one that does not fit into the buffer, it
    prints the selection of the line, and it reports the error that ends the
    stream.  In bytes mode the pieces that an output delimiter separates are,
    without it, exactly the bytes at the selected positions; adjacent ranges stay
    apart, and with --complement the pieces are those of the other positions. *)
Theorem cut_output_exact h cfg src : calm h -> separated (ranges cfg) ->
  (let '(ls, long) := scanLines ch_nl MaxLineBytes [] (content src) in
   prints (processSource h cfg src) (mjoin (map (fun l => cutLine cfg (fst l)) ls)) (scanErr src long)) /\
  forall raw, mjoin (segments raw (if complement cfg then complementRanges (ranges cfg) (Z.of_nat (length raw)) else ranges cfg)) =
              pick (selects cfg) 1 raw.
Proof.
  intros Hc Hs. split; [|intros raw; by apply segments_selects]. unfold processSource, forLines.
  pose proof (scanLines_tokens ch_nl MaxLineBytes [] (content src) ltac:(apply not_elem_of_nil)) as Ht.
  destruct (scanLines ch_nl MaxLineBytes [] (content src)) as [ls long]. cbn [fst] in Ht. rewrite Forall_forall in Ht.
  set (body := fun (l : bytes * bool) (s : unit) => e ← processLine h cfg (stripNewline (fst l ++ (if snd l then [ch_nl] else []))); mret (e, s)).
  eapply prints_eq; [|apply app_nil_r].
  eapply (prints_bind _ _ _ _ (scanErr src long, tt)); [|apply prints_ret].
  eapply prints_eq; [|apply app_nil_r]. eapply (prints_bind _ _ _ _ (None, tt)); [|apply prints_ret].
  apply (prints_eachLine_map h Hc). intros l Hl. unfold body. rewrite stripNewline_token by (by apply Ht).
  eapply prints_eq; [eapply prints_bind; [by apply prints_processLine|apply prints_ret]|apply app_nil_r].
Qed.

(** [cut -d: -f1,3- --output-delimiter=/] on two lines. *)
Definition quiet : host := mkHost (fun _ => false) (fun _ _ => inl []) None (fun _ => None) (fun _ => []).

Lemma quiet_calm : calm quiet.
Proof. by split. Qed.

Definition demoConfig : cutConfig := mkConfig modeFields [(1, 1); (3, MaxInt32)] ":" false false (lit "/") true.

Lemma cut_output_exact_witness :
  parseList (lit "3-,1") = inr (ranges demoConfig) /\
  prints (processSource quiet demoConfig (mkSource (lit "a:b:c:d" ++ [ch_nl] ++ lit "x") None)) (lit "a/c/d" ++ [ch_nl] ++ lit "x" ++ [ch_nl]) None.
Proof.
  split; [vm_compute; reflexivity|].
  assert (separated (ranges demoConfig)) as Hs.
  { apply (cut_list_ok (lit "3-,1")). vm_compute. reflexivity. }
  exact (proj1 (cut_output_exact quiet demoConfig (mkSource (lit "a:b:c:d" ++ [ch_nl] ++ lit "x") None) quiet_calm Hs)).
Defined.

End Cut.
