(* ===== verification/Uniq.v ===== *)
(** * uniq (builtins/uniq/uniq.go)

    The comparison keys, the loop over the lines with its three kinds of output,
    and the flags.  The output is that of the groups of adjacent lines with equal
    keys. *)

From S2P Require Import Prelude GoStd LineFilters.
From stdpp Require Import base list strings.
From Stdlib Require Import ZArith Lia Ascii.

Module Uniq.
Import GoStd Filter.
#[local] Open Scope Z_scope.

Definition MaxLineBytes : Z := 2 ^ 20.
Definition MaxCount : Z := 2 ^ 31 - 1.
Definition countFieldWidth : nat := 7.

Inductive groupMethod := groupSeparate | groupPrepend | groupAppend | groupBoth.
Inductive allRepeatedMethod := allRepeatedNone | allRepeatedPrepend | allRepeatedSeparate.

#[export] Instance groupMethod_eq_dec : EqDecision groupMethod.
Proof. solve_decision. Defined.
#[export] Instance allRepeatedMethod_eq_dec : EqDecision allRepeatedMethod.
Proof. solve_decision. Defined.

Record uniqConfig := mkConfig {
  count : bool;
  repeated : bool;
  unique : bool;
  ignoreCase : bool;
  skipFields : Z;
  skipChars : Z;
  checkChars : Z;
  delim : ascii;
  useAllRepeated : bool;
  arMethod : allRepeatedMethod;
  useGroup : bool;
  grpMethod : groupMethod }.

(** ** Keys *)

Definition isBlankByte (c : ascii) : bool := (c =c " ")%go || Ascii.eqb c ch_tab.

Definition asciiLower (c : ascii) : ascii :=
  if (65 <=? code c) && (code c <=? 90) then ascii_of_N (Z.to_N (code c + 32)) else c.

Definition asciiToLowerBytes (s : bytes) : bytes := map asciiLower s.

(** A turn consumes a byte, so the length is fuel enough. *)
Fixpoint skipFieldsFuel (fuel : nat) (s : bytes) (n : Z) : bytes :=
  match fuel, s with
  | S fuel, _ :: _ =>
      if 0 <? n then
        let s := drop (run_length isBlankByte s) s in
        skipFieldsFuel fuel (drop (run_length (fun c => negb (isBlankByte c)) s) s) (n - 1)
      else s
  | _, _ => s
  end.

Definition skipFieldsBytesN (s : bytes) (n : Z) : bytes := skipFieldsFuel (length s) s n.

Definition compareKeyBytes (cfg : uniqConfig) (line : bytes) : bytes :=
  let s := if 0 <? skipFields cfg then skipFieldsBytesN line (skipFields cfg) else line in
  let s := if (0 <? skipChars cfg) && negb (bytes_eqb s [])
           then drop (Z.to_nat (if Z.of_nat (length s) <? skipChars cfg then Z.of_nat (length s) else skipChars cfg)) s else s in
  let s := if (0 <=? checkChars cfg) && (checkChars cfg <? Z.of_nat (length s)) then take (Z.to_nat (checkChars cfg)) s else s in
  if ignoreCase cfg then asciiToLowerBytes s else s.

(** A turn that skips a field leaves less. *)
Lemma skipped_shorter c s : let s := c :: s in
  let t := drop (run_length isBlankByte s) s in
  (length (drop (run_length (fun c => negb (isBlankByte c)) t) t) < length s)%nat.
Proof.
  cbn zeta. rewrite !length_drop. cbn [run_length]. destruct (isBlankByte c) eqn:E; cbn [length]; [lia|].
  change (drop 0 (c :: s)) with (c :: s). cbn [run_length]. rewrite E. cbn [negb]. lia.
Qed.

Lemma skipFieldsFuel_enough n m s k : (length s <= n)%nat -> (length s <= m)%nat -> skipFieldsFuel n s k = skipFieldsFuel m s k.
Proof.
  revert m s k. induction n as [|n IH]; intros m s k Hn Hm; destruct s as [|c s]; try (cbn in Hn; lia); [by destruct m|by destruct m|].
  destruct m as [|m]; [cbn in Hm; lia|]. cbn [skipFieldsFuel]. destruct (0 <? k); [|done].
  pose proof (skipped_shorter c s) as Hs. cbn zeta in Hs. cbn [length] in Hn, Hm, Hs. apply IH; lia.
Qed.

(** ** The loop *)

Section Loop.
Context (h : host) (cfg : uniqConfig).

Definition orFail (m k : F (option ferr)) : F (option ferr) :=
  e ← m; match e with Some e => mret (Some e) | None => k end.

Definition reportWrite (m : F (option ferr)) : F (option ferr) :=
  e ← m; match e with Some e => errf (lit "uniq: write error" ++ [ch_nl]);; mret (Some e) | None => mret None end.

Definition writeLine (line : bytes) : F (option ferr) := orFail (write h line) (write h [delim cfg]).

(** A report of the blank line and of a line. *)
Definition reportLine (line : bytes) : F (option ferr) := reportWrite (writeLine line).

Definition padCount (n : Z) : bytes :=
  let s := FormatInt n in replicate (countFieldWidth - length s) " "%char ++ s.

Definition emitStandard (line : bytes) (n : Z) : F (option ferr) :=
  if repeated cfg && unique cfg then mret None
  else if repeated cfg && (n <? 2) then mret None
  else if unique cfg && (2 <=? n) then mret None
  else if count cfg then orFail (write h (padCount n ++ [" "%char])) (writeLine line)
  else writeLine line.

(** The variables of the loop; [None] before the first line. *)
Record openGroup := mkOpen { prevLine : bytes; prevKey : bytes; lineCount : Z; groupNum : Z }.

Definition firstLine (line : bytes) : F (option ferr) :=
  if useGroup cfg then
    orFail (if decide (grpMethod cfg = groupPrepend \/ grpMethod cfg = groupBoth) then reportLine [] else mret None)
      (reportLine line)
  else mret None.

(** A line with the key of the group. *)
Definition sameLine (g : openGroup) (line : bytes) : F (option ferr * openGroup) :=
  let g := mkOpen (prevLine g) (prevKey g) (if lineCount g <? maxInt64 then lineCount g + 1 else lineCount g) (groupNum g) in
  if useGroup cfg then e ← reportLine line; mret (e, g)
  else if useAllRepeated cfg then
    if lineCount g =? 2 then
      e ← orFail (if (0 <? groupNum g) && negb (bool_decide (arMethod cfg = allRepeatedNone)) then reportLine [] else mret None)
            (orFail (if (groupNum g =? 0) && bool_decide (arMethod cfg = allRepeatedPrepend) then reportLine [] else mret None)
               (orFail (reportLine (prevLine g)) (reportLine line)));
      mret (e, mkOpen (prevLine g) (prevKey g) (lineCount g) (groupNum g + 1))
    else e ← reportLine line; mret (e, g)
  else mret (None, g).

(** A line with another key. *)
Definition otherLine (g : openGroup) (line key : bytes) : F (option ferr * openGroup) :=
  e ← (if useGroup cfg then orFail (reportLine []) (reportLine line)
       else if useAllRepeated cfg then mret None
       else reportWrite (emitStandard (prevLine g) (lineCount g)));
  mret (e, mkOpen line key 1 (if useGroup cfg then groupNum g + 1 else groupNum g)).

Definition step (l : bytes * bool) (st : option openGroup) : F (option ferr * option openGroup) :=
  let line := fst l in
  let key := compareKeyBytes cfg line in
  match st with
  | None => e ← firstLine line; mret (e, Some (mkOpen line key 1 0))
  | Some g =>
      '(e, g) ← (if bytes_eqb (prevKey g) key then sameLine g line else otherLine g line key);
      mret (e, Some g)
  end.

(** After the last line. *)
Definition flush (st : option openGroup) : F (option ferr) :=
  match st with
  | None => mret None
  | Some g =>
      if useGroup cfg then
        if decide (grpMethod cfg = groupAppend \/ grpMethod cfg = groupBoth) then reportLine [] else mret None
      else if useAllRepeated cfg then mret None
      else reportWrite (emitStandard (prevLine g) (lineCount g))
  end.

(** The error of the scanner is reported; a cancelled context or a failed write
    ends the loop before. *)
Definition processInput (src : source) : F (option ferr) :=
  let '(ls, long) := scanLines (delim cfg) MaxLineBytes [] (content src) in
  '(e, st) ← eachLine h step ls None;
  match e with
  | Some e => mret (Some e)
  | None =>
      match scanErr src long with
      | Some e => errf (lit "uniq: " ++ PortableErr h e ++ [ch_nl]);; mret (Some e)
      | None => flush st
      end
  end.
End Loop.

(** ** The command *)

(** The parsed flags; [None] where a flag was not given. *)
Record uniqFlags := mkFlags {
  fl_help : bool; fl_count : bool; fl_repeated : bool; fl_unique : bool; fl_ignoreCase : bool; fl_zeroTerminated : bool;
  fl_skipFields : bytes; fl_skipChars : bytes; fl_checkChars : option bytes;
  fl_allRepeated : option bytes; fl_group : option bytes }.

Definition parseNonNegativeInt (s : bytes) : option Z :=
  match s with
  | [] => None
  | c :: _ =>
      match ParseInt s with
      | inl ErrRange => if (c =c "-")%go then None else Some MaxCount
      | inl ErrSyntax => None
      | inr n => if n <? 0 then None else Some (if MaxCount <? n then MaxCount else n)
      end
  end.

Definition parseAllRepeatedMethod (s : bytes) : option allRepeatedMethod :=
  if bytes_eqb s [] then None
  else if HasPrefix (lit "none") s then Some allRepeatedNone
  else if HasPrefix (lit "prepend") s then Some allRepeatedPrepend
  else if HasPrefix (lit "separate") s then Some allRepeatedSeparate
  else None.

Definition parseGroupMethod (s : bytes) : option groupMethod :=
  if bytes_eqb s [] then None
  else if HasPrefix (lit "separate") s then Some groupSeparate
  else if HasPrefix (lit "prepend") s then Some groupPrepend
  else if HasPrefix (lit "append") s then Some groupAppend
  else if HasPrefix (lit "both") s then Some groupBoth
  else None.

(** The first error of the flags. *)
Inductive flagError :=
| BadFields (s : bytes) | BadChars (s : bytes) | BadCheck (s : bytes) | BadAllRepeated (s : bytes) | BadGroup (s : bytes)
| GroupExclusive | CountMeaningless | ExtraOperand (s : bytes).

Definition invalidArg (arg flag : bytes) (valid : list string) : bytes :=
  lit "invalid argument '" ++ arg ++ lit "' for '" ++ flag ++ lit "'" ++ [ch_nl] ++ lit "Valid arguments are:" ++ [ch_nl] ++
  mjoin (map (fun v => lit "  - '" ++ lit v ++ lit "'" ++ [ch_nl]) valid).

(** The texts; the escapes of SafeOperand are left out. *)
Definition flagText (e : flagError) : bytes :=
  let help := lit "Try 'uniq --help' for more information." ++ [ch_nl] in
  match e with
  | BadFields s => s ++ lit ": invalid number of fields to skip" ++ [ch_nl]
  | BadChars s => s ++ lit ": invalid number of bytes to skip" ++ [ch_nl]
  | BadCheck s => s ++ lit ": invalid number of bytes to compare" ++ [ch_nl]
  | BadAllRepeated s => invalidArg s (lit "--all-repeated") ["none"; "prepend"; "separate"]%string ++ [ch_nl]
  | BadGroup s => invalidArg s (lit "--group") ["prepend"; "append"; "separate"; "both"]%string ++ [ch_nl]
  | GroupExclusive => lit "--group is mutually exclusive with -c/-d/-D/-u" ++ [ch_nl] ++ help
  | CountMeaningless => lit "printing all duplicated lines and repeat counts is meaningless" ++ [ch_nl] ++ help
  | ExtraOperand s => lit "extra operand '" ++ s ++ lit "'" ++ [ch_nl] ++ help
  end.

(** The numbers are read before [--help] is looked at. *)
Definition parseNumbers (fl : uniqFlags) : flagError + (Z * Z * Z) :=
  match parseNonNegativeInt (fl_skipFields fl) with
  | None => inl (BadFields (fl_skipFields fl))
  | Some fields =>
      match parseNonNegativeInt (fl_skipChars fl) with
      | None => inl (BadChars (fl_skipChars fl))
      | Some chars =>
          match fl_checkChars fl with
          | None => inr (fields, chars, -1)
          | Some s => match parseNonNegativeInt s with None => inl (BadCheck s) | Some n => inr (fields, chars, n) end
          end
      end
  end.

Definition parseMethods (fl : uniqFlags) (args : list bytes) : flagError + (allRepeatedMethod * groupMethod) :=
  match (match fl_allRepeated fl with None => Some allRepeatedNone | Some s => parseAllRepeatedMethod s end) with
  | None => inl (BadAllRepeated (default [] (fl_allRepeated fl)))
  | Some ar =>
      match (match fl_group fl with None => Some groupSeparate | Some s => parseGroupMethod s end) with
      | None => inl (BadGroup (default [] (fl_group fl)))
      | Some grp =>
          let all := match fl_allRepeated fl with Some _ => true | None => false end in
          let group := match fl_group fl with Some _ => true | None => false end in
          if group && (fl_count fl || fl_repeated fl || all || fl_unique fl) then inl GroupExclusive
          else if all && fl_count fl then inl CountMeaningless
          else match args with _ :: extra :: _ => inl (ExtraOperand extra) | _ => inr (ar, grp) end
      end
  end.

(** Printing all of the repeated lines and the unique ones is printing one of
    each repeated group. *)
Definition configure (fl : uniqFlags) (nums : Z * Z * Z) (ar : allRepeatedMethod) (grp : groupMethod) : uniqConfig :=
  let '(fields, chars, check) := nums in
  let all := match fl_allRepeated fl with Some _ => true | None => false end in
  let both := all && fl_unique fl in
  mkConfig (fl_count fl) (fl_repeated fl || both) (fl_unique fl && negb both) (fl_ignoreCase fl) fields chars check
    (if fl_zeroTerminated fl then "000"%char else ch_nl) (all && negb both) ar
    (match fl_group fl with Some _ => true | None => false end) grp.

Definition run (h : host) (fl : uniqFlags) (args : list bytes) : F Z :=
  let fail (e : flagError) : F Z := errf (lit "uniq: " ++ flagText e);; mret 1 in
  match parseNumbers fl with
  | inl e => fail e
  | inr nums =>
      if fl_help fl then emit EvUsage;; mret 0
      else
        match parseMethods fl args with
        | inl e => fail e
        | inr (ar, grp) =>
            let file := match args with f :: _ => f | [] => lit "-" end in
            opened ← openInput h file;
            match opened with
            | inl e => errf (lit "uniq: " ++ file ++ lit ": " ++ PortableErr h e ++ [ch_nl]);; mret 1
            | inr None => mret 0
            | inr (Some src) =>
                e ← closing file (processInput h (configure fl nums ar grp) src);
                mret (match e with Some _ => 1 | None => 0 end)
            end
        end
  end.

(** ** Groups *)

Section Groups.
Context (cfg : uniqConfig).

Definition keyOf : bytes -> bytes := compareKeyBytes cfg.

(** Adjacent lines with equal keys. *)
Fixpoint groupLines (ls : list bytes) : list (list bytes) :=
  match ls with
  | [] => []
  | l :: ls =>
      match groupLines ls with
      | (l' :: g) :: gs => if bytes_eqb (keyOf l) (keyOf l') then (l :: l' :: g) :: gs else [l] :: (l' :: g) :: gs
      | gs => [l] :: gs
      end
  end.

Definition lineText (l : bytes) : bytes := l ++ [delim cfg].
Definition linesText (ls : list bytes) : bytes := mjoin (map lineText ls).

(** A group in the standard output: its first line, if its size is asked for. *)
Definition groupText (first : bytes) (n : Z) : bytes :=
  if repeated cfg && unique cfg then []
  else if repeated cfg && (n <? 2) then []
  else if unique cfg && (2 <=? n) then []
  else (if count cfg then padCount n ++ [" "%char] else []) ++ lineText first.

Definition sizeOf (g : list bytes) : Z := Z.min maxInt64 (Z.of_nat (length g)).

(** All lines of the groups that repeat, [k] of which came before. *)
Fixpoint repeatedText (k : Z) (gs : list (list bytes)) : bytes :=
  match gs with
  | [] => []
  | g :: gs =>
      match g with
      | _ :: _ :: _ =>
          (if (0 <? k) && negb (bool_decide (arMethod cfg = allRepeatedNone)) then [delim cfg] else []) ++
          (if (k =? 0) && bool_decide (arMethod cfg = allRepeatedPrepend) then [delim cfg] else []) ++
          linesText g ++ repeatedText (k + 1) gs
      | _ => repeatedText k gs
      end
  end.

(** The lines of every group, with blank lines in between. *)
Definition separatedText (gs : list (list bytes)) : bytes := mjoin (map (fun g => delim cfg :: linesText g) gs).

Definition uniqText (ls : list bytes) : bytes :=
  match ls with
  | [] => []
  | _ =>
      let gs := groupLines ls in
      if useGroup cfg then
        (if decide (grpMethod cfg = groupPrepend \/ grpMethod cfg = groupBoth) then [delim cfg] else []) ++
        drop 1 (separatedText gs) ++
        (if decide (grpMethod cfg = groupAppend \/ grpMethod cfg = groupBoth) then [delim cfg] else [])
      else if useAllRepeated cfg then repeatedText 0 gs
      else mjoin (map (fun g => groupText (default [] (head g)) (sizeOf g)) gs)
  end.

(** The group that lines with key [k] continue, and the groups after it. *)
Definition continued (k : bytes) (ls : list bytes) : list bytes * list (list bytes) :=
  match groupLines ls with
  | (l :: g) :: gs => if bytes_eqb k (keyOf l) then (l :: g, gs) else ([], (l :: g) :: gs)
  | gs => ([], gs)
  end.

Lemma groupLines_cons l ls :
  groupLines (l :: ls) = (l :: fst (continued (keyOf l) ls)) :: snd (continued (keyOf l) ls).
Proof.
  unfold continued. cbn [groupLines]. destruct (groupLines ls) as [|[|l' g] gs]; [done..|]. by destruct (bytes_eqb _ _).
Qed.

Lemma continued_cons k l ls : continued k (l :: ls) =
  if bytes_eqb k (keyOf l) then (l :: fst (continued (keyOf l) ls), snd (continued (keyOf l) ls))
  else ([], (l :: fst (continued (keyOf l) ls)) :: snd (continued (keyOf l) ls)).
Proof. unfold continued at 1. by rewrite groupLines_cons. Qed.

(** The groups are the lines, in order; those of one group have one key. *)
Lemma groupLines_join ls : mjoin (groupLines ls) = ls.
Proof.
  induction ls as [|l ls IH]; [done|]. rewrite <- IH at 2. cbn [groupLines].
  destruct (groupLines ls) as [|[|l' g] gs]; [done..|]. by destruct (bytes_eqb _ _).
Qed.

(** *** The loop prints the groups *)

Context (h : host) (Hc : calm h).

Lemma prints_orFail m k p q : prints m p None -> prints k q None -> prints (orFail m k) (p ++ q) None.
Proof. intros Hm Hk. by eapply (prints_bind _ _ _ _ None). Qed.

Lemma prints_report m p : prints m p None -> prints (reportWrite m) p None.
Proof. intros Hm. eapply prints_eq; [eapply (prints_bind _ _ _ _ None); [done|apply prints_ret]|apply app_nil_r]. Qed.

Lemma prints_writeLine l : prints (writeLine h cfg l) (lineText l) None.
Proof. apply prints_orFail; by apply prints_write. Qed.

Lemma prints_reportLine l : prints (reportLine h cfg l) (lineText l) None.
Proof. apply prints_report, prints_writeLine. Qed.

Lemma prints_emitStandard l n : prints (emitStandard h cfg l n) (groupText l n) None.
Proof.
  unfold emitStandard, groupText. destruct (repeated cfg && unique cfg); [apply prints_ret|].
  destruct (repeated cfg && _); [apply prints_ret|]. destruct (unique cfg && _); [apply prints_ret|].
  destruct (count cfg); [|apply prints_writeLine]. apply prints_orFail; [by apply prints_write|apply prints_writeLine].
Qed.

Lemma prints_if (b : bool) (m : F (option ferr)) p : prints m p None -> prints (if b then m else mret None) (if b then p else []) None.
Proof. destruct b; [done|]. intros _. apply prints_ret. Qed.

Lemma prints_decide (P : Prop) `{Decision P} (m : F (option ferr)) p : prints m p None -> prints (if decide P then m else mret None) (if decide P then p else []) None.
Proof. destruct (decide P); [done|]. intros _. apply prints_ret. Qed.

Definition endText : bytes := if decide (grpMethod cfg = groupAppend \/ grpMethod cfg = groupBoth) then [delim cfg] else [].

(** What is printed from a state on. *)
Definition restText (g : openGroup) (ls : list bytes) : bytes :=
  let '(same, gs) := continued (prevKey g) ls in
  if useGroup cfg then linesText same ++ separatedText gs ++ endText
  else if useAllRepeated cfg then
    match same with
    | [] => repeatedText (groupNum g) gs
    | _ => if lineCount g =? 1 then repeatedText (groupNum g) ((prevLine g :: same) :: gs) else linesText same ++ repeatedText (groupNum g) gs
    end
  else groupText (prevLine g) (Z.min maxInt64 (lineCount g + Z.of_nat (length same))) ++ mjoin (map (fun g => groupText (default [] (head g)) (sizeOf g)) gs).

Definition wellOpen (g : openGroup) : Prop :=
  prevKey g = keyOf (prevLine g) /\ 1 <= lineCount g <= maxInt64 /\ 0 <= groupNum g.

Lemma prints_flush g : wellOpen g -> prints (flush h cfg (Some g)) (restText g []) None.
Proof.
  intros (_ & Hn & _). unfold flush, restText. cbn. destruct (useGroup cfg); cbn [app].
  - apply prints_decide. exact (prints_reportLine []).
  - destruct (useAllRepeated cfg); [apply prints_ret|]. rewrite app_nil_r, Z.add_0_r, Z.min_r by lia. apply prints_report, prints_emitStandard.
Qed.

(** A step of the loop whose computation returns no error. *)
Lemma prints_pair (m : F (option ferr)) p (g : openGroup) : prints m p None -> prints (e ← m; mret (e, g)) p (None, g).
Proof. intros Hm. eapply prints_eq; [eapply (prints_bind _ _ _ _ None); [done|apply prints_ret]|apply app_nil_r]. Qed.

Definition counted (g : openGroup) : Z := if lineCount g <? maxInt64 then lineCount g + 1 else lineCount g.

Lemma sameLine_ok g l ls : wellOpen g -> prevKey g = keyOf l -> exists p g',
  prints (sameLine h cfg g l) p (None, g') /\ wellOpen g' /\ restText g (l :: ls) = p ++ restText g' ls.
Proof.
  intros (Hk & Hn & Hg) Hl. unfold sameLine. fold (counted g).
  assert (1 < counted g <= maxInt64) as Hcount by (unfold counted, maxInt64 in *; destruct (Z.ltb_spec (lineCount g) (2 ^ 63 - 1)); lia).
  assert (forall n, wellOpen (mkOpen (prevLine g) (prevKey g) (counted g) n) <-> 0 <= n) as Hwell by (unfold wellOpen; cbn; intuition lia).
  unfold restText. rewrite continued_cons, Hl, bytes_eqb_refl. cbn [prevLine prevKey lineCount groupNum].
  destruct (continued (keyOf l) ls) as [same gs] eqn:E. cbn [fst snd]. destruct (useGroup cfg).
  { eexists _, _. split; [apply prints_pair, prints_reportLine|]. rewrite <- Hl, Hwell. split; [done|]. cbn [prevKey]. rewrite Hl, E.
    unfold linesText. cbn [map mjoin list_join]. by rewrite <- !app_assoc. }
  destruct (useAllRepeated cfg).
  - assert (forall n, (match same with
        | [] => repeatedText n gs
        | _ => if counted g =? 1 then repeatedText n ((prevLine g :: same) :: gs) else linesText same ++ repeatedText n gs
        end) = linesText same ++ repeatedText n gs) as Hrest.
    { intros n. rewrite (proj2 (Z.eqb_neq (counted g) 1)) by lia. by destruct same. }
    destruct (Z.eqb_spec (counted g) 2) as [H2|H2].
    + eexists _, _. split.
      { apply prints_pair. apply prints_orFail; [apply prints_if; exact (prints_reportLine [])|].
        apply prints_orFail; [apply prints_if; exact (prints_reportLine [])|]. apply prints_orFail; apply prints_reportLine. }
      rewrite <- Hl, Hwell. split; [lia|]. cbn [prevKey prevLine lineCount groupNum]. rewrite Hl, E, Hrest.
      assert (lineCount g = 1) as -> by (unfold counted, maxInt64 in *; destruct (Z.ltb_spec (lineCount g) (2 ^ 63 - 1)); lia).
      cbn [Z.eqb Pos.eqb repeatedText]. unfold linesText, lineText. cbn [map mjoin list_join app]. by rewrite <- !app_assoc.
    + eexists _, _. split; [apply prints_pair, prints_reportLine|]. rewrite <- Hl, Hwell. split; [done|].
      cbn [prevKey prevLine lineCount groupNum]. rewrite Hl, E, Hrest.
      assert (lineCount g <> 1) as Hne by (intros H1; unfold counted in H2; rewrite H1 in H2; done). rewrite (proj2 (Z.eqb_neq _ _) Hne).
      unfold linesText. cbn [map mjoin list_join]. by rewrite <- !app_assoc.
  - eexists [], _. split; [apply prints_ret|]. rewrite <- Hl, Hwell. split; [done|]. cbn [prevKey prevLine lineCount groupNum]. rewrite Hl, E.
    cbn [app length]. do 2 f_equal. unfold counted, maxInt64 in *. destruct (Z.ltb_spec (lineCount g) (2 ^ 63 - 1)); lia.
Qed.

Lemma otherLine_ok g l ls : wellOpen g -> prevKey g <> keyOf l -> exists p g',
  prints (otherLine h cfg g l (keyOf l)) p (None, g') /\ wellOpen g' /\ restText g (l :: ls) = p ++ restText g' ls.
Proof.
  intros (Hk & Hn & Hg) Hl. unfold otherLine, restText. rewrite continued_cons, (proj2 (bytes_eqb_false _ _) Hl).
  assert (forall n, wellOpen (mkOpen l (keyOf l) 1 n) <-> 0 <= n) as Hwell by (unfold wellOpen, maxInt64; cbn; intuition lia).
  destruct (continued (keyOf l) ls) as [same gs] eqn:E. destruct (useGroup cfg).
  { eexists _, _. split; [apply prints_pair, prints_orFail; apply prints_reportLine|]. rewrite Hwell. split; [lia|].
    cbn [prevKey fst snd]. rewrite E. unfold separatedText, linesText, lineText. cbn [map mjoin list_join app]. by rewrite <- !app_assoc. }
  destruct (useAllRepeated cfg).
  - eexists [], _. split; [apply prints_pair, prints_ret|]. rewrite Hwell. split; [done|]. cbn [prevKey prevLine lineCount groupNum fst snd].
    rewrite E. by destruct same.
  - eexists _, _. split; [apply prints_pair, prints_report, prints_emitStandard|]. rewrite Hwell. split; [done|].
    cbn [prevKey prevLine lineCount groupNum fst snd length map mjoin list_join head default]. rewrite E. rewrite Z.add_0_r, Z.min_r by lia.
    unfold sizeOf. cbn [length]. do 3 f_equal. lia.
Qed.

(** One turn of the loop. *)
Lemma prints_step g l b ls : wellOpen g -> exists p g',
  prints (step h cfg (l, b) (Some g)) p (None, Some g') /\ wellOpen g' /\ restText g (l :: ls) = p ++ restText g' ls.
Proof.
  intros Hg. unfold step. cbn [fst]. fold (keyOf l). destruct (bytes_eqb_spec (prevKey g) (keyOf l)) as [E|E].
  - destruct (sameLine_ok g l ls Hg E) as (p & g' & Hp & Hg' & Hr). exists p, g'. split; [|done].
    eapply prints_eq; [eapply (prints_bind _ _ _ _ (None, g')); [done|apply prints_ret]|apply app_nil_r].
  - destruct (otherLine_ok g l ls Hg E) as (p & g' & Hp & Hg' & Hr). exists p, g'. split; [|done].
    eapply prints_eq; [eapply (prints_bind _ _ _ _ (None, g')); [done|apply prints_ret]|apply app_nil_r].
Qed.

Lemma prints_turn {S : Type} (body : bytes * bool -> S -> F (option ferr * S)) l ls s s' p q r :
  prints (body l s) p (None, s') -> prints (eachLine h body ls s') q r -> prints (eachLine h body (l :: ls) s) (p ++ q) r.
Proof.
  intros Hb Hl. cbn [eachLine]. eapply prints_eq; [eapply prints_bind; [by apply prints_done|]|apply app_nil_l].
  by eapply (prints_bind _ _ _ _ (None, s')).
Qed.

Lemma prints_rest ls g : wellOpen g -> exists p g',
  prints (eachLine h (step h cfg) ls (Some g)) p (None, Some g') /\ wellOpen g' /\ restText g (map fst ls) = p ++ restText g' [].
Proof.
  revert g. induction ls as [|[l b] ls IH]; intros g Hg; [exists [], g; split; [apply prints_ret|done]|]. cbn [map fst].
  destruct (prints_step g l b (map fst ls) Hg) as (p & g1 & Hp & Hg1 & Hr). destruct (IH g1 Hg1) as (q & g2 & Hq & Hg2 & Hr2).
  exists (p ++ q), g2. split; [by eapply prints_turn|]. split; [done|]. by rewrite Hr, Hr2, app_assoc.
Qed.

End Groups.

(** C39. What uniq prints for a stream without an error, while the context lasts and
    writes are taken: the text of the groups of adjacent lines with equal keys.
    With -d, -u and -c the first line of the groups that qualify, with their size;
    with -D all lines of the groups that repeat, delimited as METHOD says; with
    --group all lines, every group apart.  The groups are the lines of the stream
    in their order. *)
Theorem uniq_output_exact h cfg src ls : calm h ->
  scanLines (delim cfg) MaxLineBytes [] (content src) = (ls, false) -> failure src = None ->
  prints (processInput h cfg src) (uniqText cfg (map fst ls)) None /\ mjoin (groupLines cfg (map fst ls)) = map fst ls.
Proof.
  intros Hc Hls Hf. split; [|apply groupLines_join]. unfold processInput. rewrite Hls. unfold scanErr. rewrite Hf. cbn [fmap option_fmap option_map].
  destruct ls as [|[l b] ls]; cbn [map fst].
  { eapply prints_eq; [eapply (prints_bind _ _ _ _ (None, None)); apply prints_ret|done]. }
  set (g0 := mkOpen l (keyOf cfg l) 1 0). assert (wellOpen cfg g0) as Hg0 by (unfold wellOpen, maxInt64; cbn; split; [done|lia]).
  destruct (prints_rest cfg h Hc ls g0 Hg0) as (p & g & Hp & Hg & Hr).
  set (p0 := if useGroup cfg then (if decide (grpMethod cfg = groupPrepend \/ grpMethod cfg = groupBoth) then [delim cfg] else []) ++ lineText cfg l else []).
  assert (prints (step h cfg (l, b) None) p0 (None, Some g0)) as H0.
  { unfold step, firstLine. cbn [fst]. eapply prints_eq; [eapply (prints_bind _ _ _ _ None); [|apply prints_ret]|apply app_nil_r].
    unfold p0. destruct (useGroup cfg); [|apply prints_ret]. apply prints_orFail; [|by apply prints_reportLine].
    apply prints_decide. exact (prints_reportLine cfg h Hc []). }
  eapply prints_eq.
  { eapply (prints_bind _ _ _ _ (None, Some g)); [by eapply (prints_turn h Hc)|]. cbv beta iota. by apply prints_flush. }
  rewrite <- app_assoc, <- Hr. unfold uniqText, p0, restText. rewrite groupLines_cons. cbn [prevKey prevLine lineCount groupNum g0].
  destruct (continued cfg (keyOf cfg l) (map fst ls)) as [same gs]. cbn [fst snd]. destruct (useGroup cfg).
  - unfold separatedText, linesText, endText. cbn [map mjoin list_join app drop]. rewrite drop_0. by rewrite <- !app_assoc.
  - destruct (useAllRepeated cfg); [by destruct same|]. unfold sizeOf. cbn [map mjoin list_join head default app length]. do 3 f_equal. lia.
Qed.

(** [uniq -c] on [a a b]. *)
Definition demoUniq : uniqConfig :=
  mkConfig true false false false 0 0 (-1) ch_nl false allRepeatedNone false groupSeparate.

Lemma uniq_output_exact_witness :
  prints (processInput Cut.quiet demoUniq (mkSource (lit "a" ++ [ch_nl] ++ lit "a" ++ [ch_nl] ++ lit "b") None))
    (lit "      2 a" ++ [ch_nl] ++ lit "      1 b" ++ [ch_nl]) None.
Proof.
  exact (proj1 (uniq_output_exact Cut.quiet demoUniq (mkSource (lit "a" ++ [ch_nl] ++ lit "a" ++ [ch_nl] ++ lit "b") None)
    [(lit "a", true); (lit "a", true); (lit "b", false)] Cut.quiet_calm eq_refl eq_refl)).
Defined.

End Uniq.
