(* ===== verification/SortCmd.v ===== *)
(** * sort (builtins/sort/sort.go)

    Key definitions, keys, the comparisons, and the command: reading under its
    limits, sorting, -u, -c and the output.  [SortOrder] has the theorems. *)

From S2P Require Import Prelude GoStd Filepath LineFilters.
From stdpp Require Import base list strings sorting.
From Stdlib Require Import ZArith Lia Ascii QArith.

Module SortCmd.
Import GoStd Filter.
#[local] Open Scope Z_scope.

Definition MaxLines : Z := 1000000.
Definition MaxLineBytes : Z := 2 ^ 20.
Definition MaxTotalBytes : Z := 5 * 1024 * 1024.

Record keyOpts := mkOpts {
  numeric : bool; humanNumeric : bool; reverse : bool; ignBlanks : bool; ignCase : bool; dictOrder : bool }.

Record keySpec := mkKey {
  startField : Z;
  startChar : Z;
  endField : Z;
  endChar : Z;
  opts : keyOpts;
  hasOpts : bool;
  startIgnBlanks : bool;
  endIgnBlanks : bool }.

Definition noOpts : keyOpts := mkOpts false false false false false false.

(** ** Key definitions *)

Inductive keyError :=
| InvalidAfterComma | CharZero | BadOption (c : ascii) | BadField | BadChar | EmptyField
| FieldNotPositive | EndFieldZero | IncompatibleDn | IncompatibleHn | IncompatibleDh.

Record fieldPos := mkPos { field : Z; char : Z; hasDot : bool }.

Definition mergeOpts (a b : keyOpts) : keyOpts :=
  mkOpts (numeric a || numeric b) (humanNumeric a || humanNumeric b) (reverse a || reverse b)
    (ignBlanks a || ignBlanks b) (ignCase a || ignCase b) (dictOrder a || dictOrder b).

Fixpoint parseKeyOpts (s : bytes) (o : keyOpts) : keyError + keyOpts :=
  match s with
  | [] => inr o
  | c :: s =>
      if (c =c "n")%go then parseKeyOpts s (mkOpts true (humanNumeric o) (reverse o) (ignBlanks o) (ignCase o) (dictOrder o))
      else if (c =c "h")%go then parseKeyOpts s (mkOpts (numeric o) true (reverse o) (ignBlanks o) (ignCase o) (dictOrder o))
      else if (c =c "r")%go then parseKeyOpts s (mkOpts (numeric o) (humanNumeric o) true (ignBlanks o) (ignCase o) (dictOrder o))
      else if (c =c "b")%go then parseKeyOpts s (mkOpts (numeric o) (humanNumeric o) (reverse o) true (ignCase o) (dictOrder o))
      else if (c =c "f")%go then parseKeyOpts s (mkOpts (numeric o) (humanNumeric o) (reverse o) (ignBlanks o) true (dictOrder o))
      else if (c =c "d")%go then parseKeyOpts s (mkOpts (numeric o) (humanNumeric o) (reverse o) (ignBlanks o) (ignCase o) true)
      else inl (BadOption c)
  end.

Definition isDigit (c : ascii) : bool := (48 <=? code c) && (code c <=? 57).

(** [parseFieldSpec]; are there options, and which. *)
Definition parseFieldSpec (s : bytes) : keyError + (fieldPos * bool * keyOpts) :=
  let i := run_length (fun c => isDigit c || (c =c ".")%go) s in
  let numPart := take i s in
  let optPart := drop i s in
  match parseKeyOpts optPart noOpts with
  | inl e => inl e
  | inr ko =>
      let hasAny := negb (bytes_eqb optPart []) in
      match IndexByte numPart "."%char with
      | Some d =>
          match ParseInt (take d numPart) with
          | inl _ => inl BadField
          | inr f =>
              match ParseInt (drop (S d) numPart) with
              | inl _ => inl BadChar
              | inr c => inr (mkPos f c true, hasAny, ko)
              end
          end
      | None =>
          match numPart with
          | [] => inl EmptyField
          | _ => match ParseInt numPart with inl _ => inl BadField | inr f => inr (mkPos f 0 false, hasAny, ko) end
          end
      end
  end.

(** The checks at the end of [parseKeyDef]. *)
Definition checkKey (hasEnd : bool) (k : keySpec) : keyError + keySpec :=
  if startField k <? 1 then inl FieldNotPositive
  else if hasEnd && (endField k <? 1) then inl EndFieldZero
  else if hasOpts k && dictOrder (opts k) && numeric (opts k) then inl IncompatibleDn
  else if hasOpts k && humanNumeric (opts k) && numeric (opts k) then inl IncompatibleHn
  else if hasOpts k && dictOrder (opts k) && humanNumeric (opts k) then inl IncompatibleDh
  else inr k.

Definition parseKeyDef (s : bytes) : keyError + keySpec :=
  let '(startPart, endPart) :=
    match IndexByte s ","%char with Some ci => (take ci s, Some (drop (S ci) s)) | None => (s, None) end in
  match endPart with
  | Some [] => inl InvalidAfterComma
  | _ =>
      match parseFieldSpec startPart with
      | inl e => inl e
      | inr (start, hasAny, ko) =>
          if hasDot start && (char start =? 0) then inl CharZero
          else
            let o := if hasAny then ko else noOpts in
            match endPart with
            | None => checkKey false (mkKey (field start) (char start) 0 0 o hasAny (ignBlanks o) false)
            | Some endPart =>
                match parseFieldSpec endPart with
                | inl e => inl e
                | inr (stop, hasAnyEnd, koEnd) =>
                    checkKey true (mkKey (field start) (char start) (field stop) (char stop)
                      (if hasAnyEnd then mergeOpts o koEnd else o) (hasAny || hasAnyEnd) (ignBlanks o)
                      (hasAnyEnd && ignBlanks koEnd))
                end
            end
      end
  end.

(** ** Keys *)

Definition isBlank (c : ascii) : bool := (c =c " ")%go || Ascii.eqb c ch_tab.

(** Two's complement, 64 bits. *)
Definition wrap64 (z : Z) : Z := (z + 2 ^ 63) mod 2 ^ 64 - 2 ^ 63.

(** Fields that a blank starts; a turn takes a byte, so the length is fuel enough. *)
Fixpoint blankFieldsFuel (fuel : nat) (line : bytes) : list bytes :=
  match fuel, line with
  | S fuel, _ :: _ =>
      let i := run_length isBlank line in
      match drop i line with
      | [] => [line]
      | rest =>
          let n := (i + run_length (fun c => negb (isBlank c)) rest)%nat in
          take n line :: blankFieldsFuel fuel (drop n line)
      end
  | _, _ => []
  end.

Definition splitBlankFields (line : bytes) : list bytes := blankFieldsFuel (length line) line.

(** The bounds of fields that follow each other, [gap] bytes apart. *)
Fixpoint boundsOf (gap pos : nat) (fields : list bytes) : list (nat * nat) :=
  match fields with
  | [] => []
  | f :: fields => (pos, pos + length f)%nat :: boundsOf gap (pos + length f + gap)%nat fields
  end.

Definition fieldBounds (line : bytes) (sep : option ascii) : list (nat * nat) :=
  match sep with
  | Some c => boundsOf 1 0 (Split c line)
  | None => boundsOf 0 0 (splitBlankFields line)
  end.

Definition skipBlanks (line : bytes) (pos : nat) : nat := (pos + run_length isBlank (drop pos line))%nat.

(** [line[i:j]]; a negative index panics. *)
Definition slice (line : bytes) (i j : Z) : option bytes :=
  if i <? 0 then None else Some (take (Z.to_nat (j - i)) (drop (Z.to_nat i) line)).

(** [None] for a panic: the character offset may overflow. *)
Definition extractKey (line : bytes) (k : keySpec) (sep : option ascii) (ignBlanksStart ignBlanksEnd : bool) : option bytes :=
  let bounds := fieldBounds line sep in
  let n := Z.of_nat (length line) in
  if Z.of_nat (length bounds) <=? startField k - 1 then Some []
  else
    let start := fst (nth (Z.to_nat (startField k - 1)) bounds (0, 0)%nat) in
    let keyStart := Z.of_nat (if ignBlanksStart then skipBlanks line start else start) in
    let keyStart := if 0 <? startChar k then wrap64 (keyStart + (startChar k - 1)) else keyStart in
    if n <=? keyStart then Some []
    else if (endField k =? 0) || (Z.of_nat (length bounds) <=? endField k - 1) then slice line keyStart n
    else
      let '(endStart, endStop) := nth (Z.to_nat (endField k - 1)) bounds (0, 0)%nat in
      let endFieldStart := if ignBlanksEnd then skipBlanks line endStart else endStart in
      let keyEnd := if 0 <? endChar k then wrap64 (Z.of_nat endFieldStart + endChar k) else Z.of_nat endStop in
      let keyEnd := if n <? keyEnd then n else keyEnd in
      if keyEnd <=? keyStart then Some [] else slice line keyStart keyEnd.

(** ** Comparisons

    An int below, at or above zero is a [comparison]. *)

Definition trimLeadingBlanks (s : bytes) : bytes := drop (run_length isBlank s) s.

Definition foldCase (s : bytes) : bytes :=
  map (fun c => if (97 <=? code c) && (code c <=? 122) then ascii_of_N (Z.to_N (code c - 32)) else c) s.

Definition isAlnum (c : ascii) : bool :=
  ((97 <=? code c) && (code c <=? 122)) || ((65 <=? code c) && (code c <=? 90)) || isDigit c.

Definition dictFilter (s : bytes) : bytes := filter (fun c => isBlank c || isAlnum c = true) s.

Definition compareBytes (a b : bytes) : comparison :=
  if bytes_ltb a b then Lt else if bytes_ltb b a then Gt else Eq.

(** The digits that both fractions have, and then the rest of the longer one. *)
Fixpoint compareFrac (a b : bytes) : comparison :=
  match a, b with
  | x :: a, y :: b => if code x <? code y then Lt else if code y <? code x then Gt else compareFrac a b
  | [], _ => if existsb (fun c => 48 <? code c) b then Lt else Eq
  | _, [] => if existsb (fun c => 48 <? code c) a then Gt else Eq
  end.

Definition compareMagnitude (aInt aFrac bInt bFrac : bytes) : comparison :=
  if negb (length aInt =? length bInt)%nat then if (length aInt <? length bInt)%nat then Lt else Gt
  else if bytes_ltb aInt bInt then Lt
  else if bytes_ltb bInt aInt then Gt
  else compareFrac aFrac bFrac.

Definition isZeroNum (intPart fracPart : bytes) : bool :=
  forallb (fun c => (c =c "0")%go) intPart && forallb (fun c => (c =c "0")%go) fracPart.

(** All leading zeros but the last digit. *)
Fixpoint stripZeros (s : bytes) : bytes :=
  match s with
  | [] => []
  | c :: t => match t with [] => s | _ => if (c =c "0")%go then stripZeros t else s end
  end.

Definition canonicalInt (s : bytes) : bytes := match stripZeros s with [] => lit "0" | t => t end.

(** A sign, and digits with their fraction; what is left of the text. *)
Definition takeNumber (s : bytes) : bool * bytes * bytes * bytes :=
  let '(neg, s) := match s with c :: t => if (c =c "-")%go then (true, t) else (false, s) | [] => (false, s) end in
  let n := run_length isDigit s in
  match drop n s with
  | c :: rest =>
      if (c =c ".")%go then
        let m := run_length isDigit rest in (neg, take n s, take m rest, drop m rest)
      else (neg, take n s, [], drop n s)
  | [] => (neg, take n s, [], [])
  end.

(** Does the text, after a sign, start with a digit or a point? *)
Definition startsNumber (s : bytes) : bool :=
  match (match s with c :: t => if (c =c "-")%go then t else s | [] => s end) with
  | c :: _ => isDigit c || (c =c ".")%go
  | [] => false
  end.

Definition parseNumParts (s : bytes) : bool * bytes * bytes :=
  let s := trimLeadingBlanks s in
  if negb (startsNumber s) then (false, lit "0", [])
  else
    let '(neg, i, f, _) := takeNumber s in
    let i := canonicalInt i in
    (neg && negb (isZeroNum i f), i, f).

Definition compareNumeric (a b : bytes) : comparison :=
  let '(aNeg, aInt, aFrac) := parseNumParts a in
  let '(bNeg, bInt, bFrac) := parseNumParts b in
  if negb (Bool.eqb aNeg bNeg) then if aNeg then Lt else Gt
  else
    let c := compareMagnitude aInt aFrac bInt bFrac in
    if aNeg then CompOpp c else c.

Definition suffixOrder (s : bytes) : Z :=
  match s with
  | c :: _ =>
      if (c =c "K")%go || (c =c "k")%go then 1 else if (c =c "M")%go then 2 else if (c =c "G")%go then 3
      else if (c =c "T")%go then 4 else if (c =c "P")%go then 5 else if (c =c "E")%go then 6 else if (c =c "Z")%go then 7
      else if (c =c "Y")%go then 8 else if (c =c "R")%go then 9 else if (c =c "Q")%go then 10 else 0
  | [] => 0
  end.

(** Sign category, magnitude of the suffix, digits and fraction. *)
Definition parseHumanParts (s : bytes) : Z * Z * bytes * bytes :=
  let s := trimLeadingBlanks s in
  let '(neg, rawInt, rawFrac, rest) := takeNumber s in
  match rawInt, rawFrac with
  | [], [] => (0, 0, lit "0", [])
  | _, _ =>
      let i := canonicalInt rawInt in
      (if isZeroNum i rawFrac then 0 else if neg then -1 else 1, suffixOrder rest, i, rawFrac)
  end.

Definition compareHuman (a b : bytes) : comparison :=
  let '(aSign, aOrder, aInt, aFrac) := parseHumanParts a in
  let '(bSign, bOrder, bInt, bFrac) := parseHumanParts b in
  if negb (aSign =? bSign) then if aSign <? bSign then Lt else Gt
  else if aSign =? 0 then Eq
  else
    let c := if negb (aOrder =? bOrder) then if aOrder <? bOrder then Lt else Gt
             else compareMagnitude aInt aFrac bInt bFrac in
    if aSign <? 0 then CompOpp c else c.

Definition compareStrings (a b : bytes) (o : keyOpts) : comparison :=
  let prepare s := let s := if ignBlanks o then trimLeadingBlanks s else s in if ignCase o then foldCase s else s in
  let a := prepare a in
  let b := prepare b in
  if humanNumeric o then compareHuman a b
  else
    let a := if dictOrder o then dictFilter a else a in
    let b := if dictOrder o then dictFilter b else b in
    if numeric o then compareNumeric a b else compareBytes a b.

Definition reversed (o : keyOpts) (c : comparison) : comparison := if reverse o then CompOpp c else c.

Definition withoutBlanks (o : keyOpts) : keyOpts :=
  mkOpts (numeric o) (humanNumeric o) (reverse o) false (ignCase o) (dictOrder o).

Section Compare.
Context (globalOpts : keyOpts) (sep : option ascii) (stableSort : bool).

Definition optsOf (k : keySpec) : keyOpts := if hasOpts k then opts k else globalOpts.

(** The text of a key of a line. *)
Definition keyText (k : keySpec) (line : bytes) : option bytes :=
  if hasOpts k then extractKey line k sep (startIgnBlanks k) (endIgnBlanks k)
  else extractKey line k sep (ignBlanks globalOpts) (ignBlanks globalOpts).

Definition lastResort (a b : bytes) : comparison :=
  if stableSort then Eq else reversed globalOpts (compareBytes a b).

(** The loop over the keys; [None] for a panic. *)
Fixpoint compareKeys (keys : list keySpec) (a b : bytes) : option comparison :=
  match keys with
  | [] => Some (lastResort a b)
  | k :: keys =>
      match keyText k a, keyText k b with
      | Some ka, Some kb =>
          match reversed (optsOf k) (compareStrings ka kb (withoutBlanks (optsOf k))) with
          | Eq => compareKeys keys a b
          | c => Some c
          end
      | _, _ => None
      end
  end.

(** The function that [buildCompare] makes. *)
Definition compareLines (keys : list keySpec) (a b : bytes) : option comparison :=
  match keys with
  | [] =>
      match reversed globalOpts (compareStrings a b globalOpts) with
      | Eq => Some (lastResort a b)
      | c => Some c
      end
  | _ => compareKeys keys a b
  end.
End Compare.

(** ** Sorting *)

(** [slices.SortStableFunc], and [slices.SortFunc] where equal elements are the
    same: an element goes before the first one that it is not above. *)
Fixpoint insertLine (cmp : bytes -> bytes -> comparison) (x : bytes) (ls : list bytes) : list bytes :=
  match ls with
  | [] => [x]
  | y :: ls => match cmp x y with Gt => y :: insertLine cmp x ls | _ => x :: y :: ls end
  end.

Definition sortFunc (cmp : bytes -> bytes -> comparison) (ls : list bytes) : list bytes := foldr (insertLine cmp) [] ls.

(** ** The command *)

Inductive outcome := Exit (code : Z) | MayPanic.

Section Command.
Context (h : host).

(** How often a sort compares elements of a list, and what it leaves of the list
    when the context is cancelled on the way. *)
Context (comparisons : list bytes -> nat) (interrupted : list bytes -> list bytes).

(** Reading: the bytes and lines so far. *)
Definition takeLine (l : bytes * bool) (st : Z * list bytes) : F (option ferr * (Z * list bytes)) :=
  let total := fst st + Z.of_nat (length (fst l)) in
  if MaxTotalBytes <? total
  then mret (Some (EOther (lit "input exceeds maximum of 5 MiB; pre-filter or split the input before sorting")), (total, snd st))
  else
    let ls := snd st ++ [fst l] in
    mret (if MaxLines <? Z.of_nat (length ls) then Some (EOther (lit "too many input lines")) else None, (total, ls)).

(** The lines of a file, and the bytes of all of them. *)
Definition readFile (file : bytes) (totalBytes : Z) : F (ferr + (list bytes * Z)) :=
  opened ← openInput h file;
  match opened with
  | inl e => mret (inl e)
  | inr None => mret (inr ([], totalBytes))
  | inr (Some src) =>
      '(e, st) ← closing file (forLines h ch_nl (MaxLineBytes + 1) src takeLine (totalBytes, []));
      mret (match e with Some e => inl e | None => inr (snd st, fst st) end)
  end.

Definition reportFile (file : bytes) (e : ferr) : F unit :=
  errf (lit "sort: " ++ displayName file ++ lit ": " ++ PortableErr h e ++ [ch_nl]).

(** The lines of all files, or the exit code of the first failure. *)
Fixpoint readFiles (files : list bytes) (all : list bytes) (totalBytes : Z) : F (Z + list bytes) :=
  match files with
  | [] => mret (inr all)
  | file :: files =>
      d ← done h;
      if d : bool then mret (inl 1)
      else
        r ← readFile file totalBytes;
        match r with
        | inl e => reportFile file e;; mret (inl 1)
        | inr (ls, total) =>
            let all := all ++ ls in
            if MaxLines <? Z.of_nat (length all)
            then errf (lit "sort: input exceeds maximum of 1000000 lines" ++ [ch_nl]);; mret (inl 1)
            else readFiles files all total
        end
  end.

(** The sort asks the context at every comparison. *)
Definition sorting (cmp : bytes -> bytes -> comparison) (ls : list bytes) : F (list bytes) := fun w =>
  let n := comparisons ls in
  (if existsb (ctxDone h) (seq (polls w) n) then interrupted ls else sortFunc cmp ls, mkWorld (events w) (polls w + n)).

(** [dedup] after the first line, of which [prev] is the one before. *)
Fixpoint dedupFrom (cmp : bytes -> bytes -> comparison) (prev : bytes) (ls : list bytes) : F (list bytes) :=
  match ls with
  | [] => mret []
  | l :: ls =>
      d ← done h;
      if d : bool then mret []
      else
        rest ← dedupFrom cmp l ls;
        mret (match cmp prev l with Eq => rest | _ => l :: rest end)
  end.

Definition dedup (cmp : bytes -> bytes -> comparison) (ls : list bytes) : F (list bytes) :=
  match ls with [] => mret [] | l :: ls => rest ← dedupFrom cmp l ls; mret (l :: rest) end.

Fixpoint printLines (ls : list bytes) : F Z :=
  match ls with
  | [] => mret 0
  | l :: ls => d ← done h; if d : bool then mret 1 else out h (l ++ [ch_nl]);; printLines ls
  end.

(** [checkSorted] after line [i], which is [prev]. *)
Fixpoint checkSortedFrom (cmp : bytes -> bytes -> comparison) (silent unique : bool) (file : bytes) (i : Z) (prev : bytes)
    (ls : list bytes) : F Z :=
  match ls with
  | [] => mret 0
  | l :: ls =>
      d ← done h;
      if d : bool then mret 1
      else
        if match cmp prev l with Gt => true | Eq => unique | Lt => false end
        then (if silent then mret tt else errf (lit "sort: " ++ file ++ lit ":" ++ FormatInt (i + 1) ++ lit ": disorder: " ++ l ++ [ch_nl]));; mret 1
        else checkSortedFrom cmp silent unique file (i + 1) l ls
  end.

Definition checkSorted (cmp : bytes -> bytes -> comparison) (silent unique : bool) (file : bytes) (ls : list bytes) : F Z :=
  match ls with [] => mret 0 | l :: ls => checkSortedFrom cmp silent unique file 1 l ls end.

(** The parsed flags; [fl_check] are the values of --check in their order. *)
Record sortFlags := mkSortFlags {
  fl_help : bool; fl_opts : keyOpts; fl_unique : bool; fl_keys : list bytes; fl_sep : option bytes;
  fl_check : list bytes; fl_checkSilent : bool; fl_stable : bool;
  fl_output : bool; fl_temporary : bool; fl_compress : bool }.

Inductive flagError :=
| BadCheck (s : bytes) | IncompatibleC | EmptyTab | LongTab (s : bytes) | BadKey (e : keyError)
| GlobalDn | GlobalDh | GlobalHn | NoOutput | NoTemporary | NoCompress | ExtraOperand (s : bytes).

Definition isSilent (s : bytes) : bool := str_in s ["silent"; "quiet"]%string.
Definition isDiagnose (s : bytes) : bool := str_in s ["diagnose"; "diagnose-first"]%string.

(** The checks before [--help]: the values of --check, the separator, the keys. *)
Definition parseChecks (fl : sortFlags) : option flagError :=
  match filter (fun s => negb (isSilent s) && negb (isDiagnose s) = true) (fl_check fl) with
  | s :: _ => Some (BadCheck s)
  | [] =>
      let diag := existsb isDiagnose (fl_check fl) in
      if diag && existsb isSilent (fl_check fl) then Some IncompatibleC
      else if fl_checkSilent fl && diag then Some IncompatibleC
      else None
  end.

Definition parseSep (fl : sortFlags) : flagError + option ascii :=
  match fl_sep fl with
  | None => inr None
  | Some [] => inl EmptyTab
  | Some [c] => inr (Some c)
  | Some s => inl (LongTab s)
  end.

Fixpoint parseKeys (ks : list bytes) : flagError + list keySpec :=
  match ks with
  | [] => inr []
  | k :: ks =>
      match parseKeyDef k with
      | inl e => inl (BadKey e)
      | inr k => match parseKeys ks with inl e => inl e | inr ks => inr (k :: ks) end
      end
  end.

(** Some key, or the absence of keys, uses the global options. *)
Definition globalsUsed (keys : list keySpec) : bool :=
  match keys with [] => true | _ => existsb (fun k => negb (hasOpts k)) keys end.

(** The checks after [--help], with the exit code of a refusal. *)
Definition refusal (fl : sortFlags) (keys : list keySpec) : option (flagError * Z) :=
  let o := fl_opts fl in
  let used := globalsUsed keys in
  if dictOrder o && numeric o && used then Some (GlobalDn, 2)
  else if dictOrder o && humanNumeric o && used then Some (GlobalDh, 2)
  else if humanNumeric o && numeric o && used then Some (GlobalHn, 2)
  else if fl_output fl then Some (NoOutput, 1)
  else if fl_temporary fl then Some (NoTemporary, 1)
  else if fl_compress fl then Some (NoCompress, 1)
  else None.

(** The texts are left out. *)
Definition reportFlag (e : flagError) : F unit := errf (lit "sort: ").

(** Every comparison of two of the lines returns. *)
Definition comparable (cmp : bytes -> bytes -> option comparison) (ls : list bytes) : bool :=
  forallb (fun a => forallb (fun b => match cmp a b with Some _ => true | None => false end) ls) ls.

Definition total (cmp : bytes -> bytes -> option comparison) (a b : bytes) : comparison := default Eq (cmp a b).

(** Lines among which some comparison panics may make the command panic. *)
Definition onLines (cmp : bytes -> bytes -> option comparison) (ls : list bytes) (m : (bytes -> bytes -> comparison) -> F Z) : F outcome :=
  if comparable cmp ls then code ← m (total cmp); mret (Exit code) else mret MayPanic.

Definition sortAndPrint (unique : bool) (ls : list bytes) (cmp : bytes -> bytes -> comparison) : F Z :=
  sorted ← sorting cmp ls;
  sorted ← (if unique then dedup cmp sorted else mret sorted);
  printLines sorted.

Definition run (fl : sortFlags) (files : list bytes) : F outcome :=
  let fail (e : flagError) (code : Z) : F outcome := reportFlag e;; mret (Exit code) in
  match parseChecks fl with
  | Some e => fail e 2
  | None =>
      match parseSep fl with
      | inl e => fail e 2
      | inr sep =>
          match parseKeys (fl_keys fl) with
          | inl e => fail e 2
          | inr keys =>
              if fl_help fl then emit EvUsage;; mret (Exit 0)
              else
                match refusal fl keys with
                | Some (e, code) => fail e code
                | None =>
                    let files := match files with [] => [lit "-"] | _ => files end in
                    let cmp := compareLines (fl_opts fl) sep (fl_stable fl || fl_unique fl) keys in
                    if negb (bool_decide (fl_check fl = [])) || fl_checkSilent fl then
                      match files with
                      | _ :: extra :: _ => fail (ExtraOperand extra) 2
                      | _ =>
                          let file := default (lit "-") (head files) in
                          r ← readFile file 0;
                          match r with
                          | inl e => reportFile file e;; mret (Exit 2)
                          | inr (ls, _) =>
                              onLines cmp ls (fun cmp =>
                                checkSorted cmp (existsb isSilent (fl_check fl) || fl_checkSilent fl) (fl_unique fl) file ls)
                          end
                      end
                    else
                      r ← readFiles files [] 0;
                      match r with
                      | inl code => mret (Exit code)
                      | inr ls => onLines cmp ls (sortAndPrint (fl_unique fl) ls)
                      end
                end
          end
      end
  end.
End Command.
End SortCmd.

(** ** The order of sort and what it prints (builtins/sort/sort.go)

    Every comparison sort can be asked for is a total preorder; -n compares the
    values of the numbers; the output is the sorted lines, stable where that shows,
    and with -u one line of every class, the first. *)

Module SortOrder.
Import GoStd Filter SortCmd.
#[local] Open Scope Z_scope.

(** ** Comparisons that are total preorders *)

Class TotalCmp {A} (c : A -> A -> comparison) : Prop := {
  cmp_sym a b : c b a = CompOpp (c a b);
  cmp_trans a b d : c a b <> Gt -> c b d <> Gt -> c a d <> Gt }.

Section Total.
Context {A : Type} (c : A -> A -> comparison) `{!TotalCmp c}.

Lemma cmp_refl a : c a a = Eq.
Proof. pose proof (cmp_sym a a) as H. destruct (c a a); done. Qed.

Lemma cmp_eq_sym a b : c a b = Eq -> c b a = Eq.
Proof. intros H. by rewrite cmp_sym, H. Qed.

(** Equal elements compare alike. *)
Lemma cmp_eq_left a b d : c a b = Eq -> c a d = c b d.
Proof.
  intros He. pose proof (cmp_eq_sym _ _ He) as He'.
  assert (forall x y z, c x y = Eq -> c y x = Eq -> c x z <> Gt -> c y z <> Gt) as Hle.
  { intros x y z _ Hyx Hxz. apply (cmp_trans y x z); [by rewrite Hyx|done]. }
  assert (forall x y z, c x y = Eq -> c y x = Eq -> c z x <> Gt -> c z y <> Gt) as Hle'.
  { intros x y z Hxy _ Hzx. apply (cmp_trans z x y); [done|by rewrite Hxy]. }
  pose proof (Hle a b d He He') as H1. pose proof (Hle b a d He' He) as H2.
  pose proof (Hle' a b d He He') as H3. pose proof (Hle' b a d He' He) as H4.
  rewrite !(cmp_sym _ d) in H3, H4. clear Hle Hle'. destruct (c a d), (c b d); cbn in *; try done; exfalso; first [by apply H1|by apply H2|by apply H3|by apply H4].
Qed.

Lemma cmp_lt_trans a b d : c a b <> Gt -> c b d <> Gt -> c a d = Eq -> c a b = Eq /\ c b d = Eq.
Proof.
  intros Hab Hbd Had. split.
  - destruct (c a b) eqn:E; [done| |done]. exfalso. apply (cmp_trans b d a); [done| |].
    + by rewrite cmp_sym, Had.
    + by rewrite cmp_sym, E.
  - destruct (c b d) eqn:E; [done| |done]. exfalso. apply (cmp_trans d a b); [|done|].
    + by rewrite cmp_sym, Had.
    + by rewrite cmp_sym, E.
Qed.
End Total.

(** Closure: along a function, backwards, one after the other. *)
#[export] Instance pullback_total {A B} (f : A -> B) (c : B -> B -> comparison) `{!TotalCmp c} : TotalCmp (fun a b => c (f a) (f b)).
Proof. split; intros; [apply cmp_sym|by eapply cmp_trans]. Qed.

#[export] Instance opp_total {A} (c : A -> A -> comparison) `{!TotalCmp c} : TotalCmp (fun a b => CompOpp (c a b)).
Proof.
  split; intros *; [by rewrite (cmp_sym a b)|]. intros H1 H2 H3. apply (cmp_trans d b a).
  - rewrite (cmp_sym b d). by destruct (c b d).
  - rewrite (cmp_sym a b). by destruct (c a b).
  - rewrite (cmp_sym a d). by destruct (c a d).
Qed.

#[export] Instance lex_total {A} (c1 c2 : A -> A -> comparison) `{!TotalCmp c1} `{!TotalCmp c2} :
  TotalCmp (fun a b => match c1 a b with Eq => c2 a b | c => c end).
Proof.
  split; intros *.
  - rewrite (cmp_sym (c := c1)), (cmp_sym (c := c2)). by destruct (c1 a b).
  - intros H1 H2.
    assert (c1 a b <> Gt) as L1 by (by destruct (c1 a b)). assert (c1 b d <> Gt) as L2 by (by destruct (c1 b d)).
    pose proof (cmp_trans a b d L1 L2) as L3. destruct (c1 a d) eqn:E; [|done|done].
    destruct (cmp_lt_trans c1 a b d L1 L2 E) as [E1 E2]. rewrite E1 in H1. rewrite E2 in H2. by apply (cmp_trans a b d).
Qed.

#[export] Instance const_total {A} : TotalCmp (fun _ _ : A => Eq).
Proof. by split. Qed.

#[export] Instance Z_total : TotalCmp Z.compare.
Proof. split; intros *; [apply Z.compare_antisym|]. rewrite !Z.compare_le_iff. lia. Qed.

#[export] Instance Q_total : TotalCmp Qcompare.
Proof. split; intros *; [symmetry; apply Qcompare_antisym|]. rewrite <- !Qle_alt. apply Qle_trans. Qed.

#[export] Instance reversed_total (o : keyOpts) {A} (c : A -> A -> comparison) `{!TotalCmp c} : TotalCmp (fun a b => reversed o (c a b)).
Proof. unfold reversed. destruct (reverse o); apply _. Qed.

Lemma TotalCmp_ext {A} (c c' : A -> A -> comparison) : (forall a b, c a b = c' a b) -> TotalCmp c' -> TotalCmp c.
Proof. intros He Hc. split; intros *; rewrite !He; [apply cmp_sym|apply cmp_trans]. Qed.

(** ** Bytes *)

Lemma bytes_ltb_irrefl a : bytes_ltb a a = false.
Proof. induction a as [|x a IH]; cbn; [done|]. by rewrite Z.ltb_irrefl. Qed.

Lemma compareBytes_cons x a y b :
  compareBytes (x :: a) (y :: b) = match Z.compare (code x) (code y) with Eq => compareBytes a b | c => c end.
Proof.
  unfold compareBytes. cbn. destruct (Z.compare_spec (code x) (code y)) as [E|E|E].
  - by rewrite E, Z.ltb_irrefl.
  - by rewrite (proj2 (Z.ltb_lt _ _) E).
  - by rewrite (proj2 (Z.ltb_ge (code x) (code y))), (proj2 (Z.ltb_lt (code y) (code x)) E) by lia.
Qed.

Lemma compareBytes_eq a b : compareBytes a b = Eq <-> a = b.
Proof.
  revert b. induction a as [|x a IH]; intros [|y b]; try (split; [done|congruence]); [done|].
  rewrite compareBytes_cons. destruct (Z.compare_spec (code x) (code y)) as [E|E|E].
  - apply code_inj in E as ->. rewrite IH. split; congruence.
  - split; [done|]. intros [= -> _]. lia.
  - split; [done|]. intros [= -> _]. lia.
Qed.

#[export] Instance bytes_total : TotalCmp compareBytes.
Proof.
  split.
  - induction a as [|x a IH]; intros [|y b]; try done. rewrite !compareBytes_cons, IH, (Z.compare_antisym (code x)). by destruct (code x ?= code y).
  - induction a as [|x a IH]; intros [|y b] [|z d]; try done. rewrite !compareBytes_cons.
    destruct (Z.compare_spec (code x) (code y)), (Z.compare_spec (code y) (code z)), (Z.compare_spec (code x) (code z)); try done; try lia; try apply IH.
Qed.

(** ** Numbers *)

Definition digitsVal (s : bytes) : Z := foldl (fun n c => n * 10 + (code c - 48)) 0 s.

Abbreviation allDigits s := (Forall (fun c => isDigit c = true) s).
Abbreviation pow10 s := (10 ^ Z.of_nat (length s)).

(** The number with these digits before and after the point. *)
Definition magnitude (neg : bool) (i f : bytes) : Q :=
  Qmake (let v := digitsVal (i ++ f) in if neg then - v else v) (Z.to_pos (pow10 f)).

(** The value of the number a text starts with; zero when it starts with none. *)
Definition numericValue (s : bytes) : Q :=
  let s := trimLeadingBlanks s in
  if startsNumber s then let '(neg, i, f, _) := takeNumber s in magnitude neg i f else 0%Q.

Lemma isDigit_range c : isDigit c = true -> 0 <= code c - 48 < 10.
Proof. unfold isDigit. rewrite andb_true_iff, !Z.leb_le. lia. Qed.

Lemma digitsVal_acc n s : foldl (fun n c => n * 10 + (code c - 48)) n s = n * pow10 s + digitsVal s.
Proof.
  unfold digitsVal. revert n. induction s as [|c s IH]; intros n; cbn [foldl length]; [lia|].
  rewrite IH, (IH (0 * 10 + _)). rewrite Nat2Z.inj_succ, Z.pow_succ_r by lia. lia.
Qed.

Lemma digitsVal_cons c s : digitsVal (c :: s) = (code c - 48) * pow10 s + digitsVal s.
Proof. unfold digitsVal at 1. cbn [foldl]. rewrite digitsVal_acc. lia. Qed.

Lemma digitsVal_app a b : digitsVal (a ++ b) = digitsVal a * pow10 b + digitsVal b.
Proof. unfold digitsVal at 1. by rewrite foldl_app, digitsVal_acc. Qed.

Lemma pow10_pos (s : bytes) : 0 < pow10 s.
Proof. apply Z.pow_pos_nonneg; lia. Qed.

Lemma pow10_cons (c : ascii) (s : bytes) : pow10 (c :: s) = 10 * pow10 s.
Proof. cbn [length]. by rewrite Nat2Z.inj_succ, Z.pow_succ_r by lia. Qed.

Lemma digitsVal_bound s : allDigits s -> 0 <= digitsVal s < pow10 s.
Proof.
  induction 1 as [|c s Hc Hs IH]; [cbn; lia|]. apply isDigit_range in Hc. rewrite digitsVal_cons, pow10_cons.
  pose proof (pow10_pos s). nia.
Qed.

Lemma digitsVal_zero s : allDigits s -> forallb (fun c => (c =c "0")%go) s = true <-> digitsVal s = 0.
Proof.
  induction 1 as [|c s Hc Hs IH]; [done|]. cbn [forallb]. rewrite andb_true_iff, IH, digitsVal_cons, Ascii.eqb_eq.
  pose proof (isDigit_range _ Hc). pose proof (digitsVal_bound _ Hs). pose proof (pow10_pos s). split.
  - intros [-> ->]. done.
  - intros Hz. assert (code c - 48 = 0) by nia. split; [apply code_inj; change (code "0") with 48; lia|nia].
Qed.

(** Some digit is above zero. *)
Lemma nonzero_digit s : allDigits s -> existsb (fun c => 48 <? code c) s = negb (digitsVal s =? 0).
Proof.
  intros Hs. pose proof (digitsVal_zero s Hs) as Hz.
  transitivity (negb (forallb (fun c => (c =c "0")%go) s)).
  - clear Hz. induction Hs as [|c s Hc Hs IH]; [done|]. cbn. rewrite IH, negb_andb. f_equal. apply isDigit_range in Hc.
    destruct (Ascii.eqb_spec c "0"%char) as [->|Hne]; [done|]. cbn. apply Z.ltb_lt.
    assert (code c <> 48) by (intros E; apply Hne, code_inj; by rewrite E). lia.
  - f_equal. apply eq_true_iff_eq. by rewrite Hz, Z.eqb_eq.
Qed.

Lemma compareFrac_spec a b : allDigits a -> allDigits b ->
  compareFrac a b = Z.compare (digitsVal a * pow10 b) (digitsVal b * pow10 a).
Proof.
  intros Ha. revert b. induction Ha as [|x a Hx Ha IH]; intros b Hb.
  - cbn [compareFrac length]. change (digitsVal []) with 0. rewrite Z.mul_0_l, Z.mul_1_r.
    rewrite nonzero_digit by done. pose proof (digitsVal_bound b Hb). destruct (Z.eqb_spec (digitsVal b) 0) as [E|E]; cbn [negb].
    + by rewrite E.
    + symmetry. apply Z.compare_lt_iff. lia.
  - destruct Hb as [|y b Hy Hb].
    + cbn [compareFrac]. change (digitsVal []) with 0. rewrite Z.mul_0_l. cbn [length]. rewrite Z.mul_1_r.
      assert (allDigits (x :: a)) as Hd by (by constructor). rewrite nonzero_digit by done.
      pose proof (digitsVal_bound _ Hd). destruct (Z.eqb_spec (digitsVal (x :: a)) 0) as [E|E]; cbn [negb].
      * by rewrite E.
      * symmetry. apply Z.compare_gt_iff. lia.
    + cbn [compareFrac]. rewrite !digitsVal_cons, !pow10_cons.
      pose proof (isDigit_range _ Hx). pose proof (isDigit_range _ Hy). pose proof (digitsVal_bound _ Ha). pose proof (digitsVal_bound _ Hb).
      pose proof (pow10_pos a). pose proof (pow10_pos b). set (A := digitsVal a) in *. set (B := digitsVal b) in *. set (p := pow10 a) in *. set (q := pow10 b) in *.
      assert (0 <= A * q < p * q) by nia. assert (0 <= B * p < p * q) by nia. set (r := p * q) in *.
      replace (((code x - 48) * p + A) * (10 * q)) with (10 * ((code x - 48) * r + A * q)) by (unfold r; ring).
      replace (((code y - 48) * q + B) * (10 * p)) with (10 * ((code y - 48) * r + B * p)) by (unfold r; ring).
      destruct (Z.ltb_spec (code x) (code y)); [symmetry; apply Z.compare_lt_iff; nia|].
      destruct (Z.ltb_spec (code y) (code x)); [symmetry; apply Z.compare_gt_iff; nia|].
      rewrite IH by done. fold A B p q. replace (code y) with (code x) by lia.
      destruct (Z.compare_spec (A * q) (B * p)); symmetry; [apply Z.compare_eq_iff|apply Z.compare_lt_iff|apply Z.compare_gt_iff]; lia.
Qed.

(** Digits without zeros in front, but one. *)
Definition canonical (s : bytes) : Prop :=
  allDigits s /\ s <> [] /\ ((length s <= 1)%nat \/ 10 ^ (Z.of_nat (length s) - 1) <= digitsVal s).

Lemma compareBytes_digits a b : allDigits a -> allDigits b -> length a = length b -> compareBytes a b = Z.compare (digitsVal a) (digitsVal b).
Proof.
  intros Ha. revert b. induction Ha as [|x a Hx Ha IH]; intros b Hb Hl; destruct Hb as [|y b Hy Hb]; try done.
  injection Hl as Hl. rewrite compareBytes_cons, IH, !digitsVal_cons, Hl by done. pose proof (digitsVal_bound _ Ha) as Ba.
  pose proof (digitsVal_bound _ Hb). rewrite Hl in Ba. pose proof (pow10_pos b).
  destruct (Z.compare_spec (code x) (code y)) as [E|E|E].
  - rewrite E. destruct (Z.compare_spec (digitsVal a) (digitsVal b)); symmetry; [apply Z.compare_eq_iff|apply Z.compare_lt_iff|apply Z.compare_gt_iff]; lia.
  - symmetry. apply Z.compare_lt_iff. nia.
  - symmetry. apply Z.compare_gt_iff. nia.
Qed.

Lemma compareInt_spec a b : canonical a -> canonical b ->
  (if negb (length a =? length b)%nat then if (length a <? length b)%nat then Lt else Gt else compareBytes a b)
  = Z.compare (digitsVal a) (digitsVal b).
Proof.
  intros (Ha & Hna & Hca) (Hb & Hnb & Hcb). pose proof (digitsVal_bound _ Ha). pose proof (digitsVal_bound _ Hb).
  assert (forall x y : bytes, (length x < length y)%nat -> pow10 x <= 10 ^ (Z.of_nat (length y) - 1)) as Hpow.
  { intros x y Hxy. apply Z.pow_le_mono_r; lia. }
  assert (length a <> 0)%nat by (by destruct a). assert (length b <> 0)%nat by (by destruct b).
  destruct (Nat.eqb_spec (length a) (length b)) as [E|E]; cbn [negb]; [by apply compareBytes_digits|].
  destruct (Nat.ltb_spec (length a) (length b)); symmetry.
  - apply Z.compare_lt_iff. destruct Hcb; [lia|]. specialize (Hpow a b). lia.
  - apply Z.compare_gt_iff. destruct Hca; [lia|]. specialize (Hpow b a). lia.
Qed.

Lemma compareMagnitude_int ai af bi bf :
  compareMagnitude ai af bi bf =
  match (if negb (length ai =? length bi)%nat then if (length ai <? length bi)%nat then Lt else Gt else compareBytes ai bi) with
  | Eq => compareFrac af bf
  | c => c
  end.
Proof.
  unfold compareMagnitude, compareBytes. destruct (negb _); [by destruct (_ <? _)%nat|].
  destruct (bytes_ltb ai bi), (bytes_ltb bi ai); done.
Qed.

Lemma compareMagnitude_spec ai af bi bf : canonical ai -> canonical bi -> allDigits af -> allDigits bf ->
  compareMagnitude ai af bi bf = Qcompare (magnitude false ai af) (magnitude false bi bf).
Proof.
  intros Ha Hb Hfa Hfb. rewrite compareMagnitude_int, compareInt_spec, compareFrac_spec by done.
  unfold Qcompare, magnitude. cbn [Qnum Qden]. pose proof (pow10_pos af). pose proof (pow10_pos bf).
  rewrite !Z2Pos.id, !digitsVal_app by done. pose proof (digitsVal_bound _ Hfa). pose proof (digitsVal_bound _ Hfb).
  set (I := digitsVal ai). set (J := digitsVal bi). set (F := digitsVal af) in *. set (G := digitsVal bf) in *.
  set (p := pow10 af) in *. set (q := pow10 bf) in *.
  assert (0 <= F * q < p * q) by nia. assert (0 <= G * p < p * q) by nia. set (r := p * q) in *.
  replace ((I * p + F) * q) with (I * r + F * q) by (unfold r; ring). replace ((J * q + G) * p) with (J * r + G * p) by (unfold r; ring).
  destruct (Z.compare_spec I J) as [E|E|E].
  - rewrite E. destruct (Z.compare_spec (F * q) (G * p)); symmetry; [apply Z.compare_eq_iff|apply Z.compare_lt_iff|apply Z.compare_gt_iff]; lia.
  - symmetry. apply Z.compare_lt_iff. nia.
  - symmetry. apply Z.compare_gt_iff. nia.
Qed.

Lemma stripZeros_spec s : allDigits s ->
  digitsVal (stripZeros s) = digitsVal s /\ allDigits (stripZeros s) /\
  (stripZeros s = [] <-> s = []) /\
  ((length (stripZeros s) <= 1)%nat \/ 10 ^ (Z.of_nat (length (stripZeros s)) - 1) <= digitsVal (stripZeros s)).
Proof.
  induction 1 as [|c s Hc Hs IH]; [split; [done|]; split; [constructor|]; split; [done|by left; cbn; lia]|].
  cbn [stripZeros]. destruct s as [|d s].
  { split; [done|]. split; [by constructor|]. split; [done|left; cbn; lia]. }
  destruct (Ascii.eqb_spec c "0"%char) as [->|Hne].
  - destruct IH as (H1 & H2 & H3 & H4). split; [|split; [done|split; [|done]]].
    + rewrite H1, (digitsVal_cons "0"). change (code "0") with 48. lia.
    + split; [|done]. intros E. by apply H3 in E.
  - split; [done|]. split; [by constructor|]. split; [done|]. right. rewrite digitsVal_cons.
    replace (Z.of_nat (length (c :: d :: s)) - 1) with (Z.of_nat (length (d :: s))) by (cbn; lia).
    pose proof (isDigit_range _ Hc). pose proof (digitsVal_bound _ Hs). pose proof (pow10_pos (d :: s)).
    assert (code c <> 48) by (intros E; apply Hne, code_inj; by rewrite E).
    assert (1 * pow10 (d :: s) <= (code c - 48) * pow10 (d :: s)) by (apply Z.mul_le_mono_nonneg_r; lia). lia.
Qed.

Lemma canonicalInt_spec s : allDigits s -> canonical (canonicalInt s) /\ digitsVal (canonicalInt s) = digitsVal s.
Proof.
  intros Hs. destruct (stripZeros_spec s Hs) as (H1 & H2 & H3 & H4). unfold canonicalInt.
  destruct (stripZeros s) as [|c t]; [|by split].
  rewrite (proj1 H3 eq_refl). split; [|done]. split; [by repeat constructor|]. split; [done|left; vm_compute; constructor].
Qed.

(** *** The comparisons of numbers *)

Lemma run_length_digits s : allDigits (take (run_length isDigit s) s).
Proof. induction s as [|c s IH]; cbn; [constructor|]. destruct (isDigit c) eqn:E; cbn; [by constructor|constructor]. Qed.

Lemma takeNumber_digits s neg i f rest : takeNumber s = (neg, i, f, rest) -> allDigits i /\ allDigits f.
Proof.
  unfold takeNumber. destruct (match s with c :: t => _ | [] => _ end) as [b t].
  destruct (drop _ t) as [|c r]; [intros [= <- <- <- <-]; split; [apply run_length_digits|constructor]|].
  destruct (Ascii.eqb c _); intros [= <- <- <- <-]; (split; [apply run_length_digits|]); [apply run_length_digits|constructor].
Qed.

Lemma magnitude_ext neg i i' f : digitsVal i = digitsVal i' -> magnitude neg i f = magnitude neg i' f.
Proof. intros E. unfold magnitude. by rewrite !digitsVal_app, E. Qed.

(** The sign of a number, and comparing under it. *)
Definition signOf (neg : bool) (i f : bytes) : Z := if isZeroNum i f then 0 else if neg then -1 else 1.

Lemma isZeroNum_spec i f : allDigits i -> allDigits f -> isZeroNum i f = true <-> digitsVal (i ++ f) = 0.
Proof. intros Hi Hf. unfold isZeroNum. rewrite <- forallb_app. apply digitsVal_zero. by apply Forall_app. Qed.

Lemma magnitude_neg i f : magnitude true i f = Qopp (magnitude false i f).
Proof. done. Qed.

Lemma Qcompare_opp p q : Qcompare (- p) (- q) = CompOpp (Qcompare p q).
Proof. unfold Qcompare, Qopp. cbn [Qnum Qden]. rewrite !Z.mul_opp_l. by rewrite Z.compare_opp, Z.compare_antisym. Qed.

Lemma magnitude_sign neg i f : allDigits i -> allDigits f -> Qcompare (magnitude neg i f) 0 = Z.compare (signOf neg i f) 0.
Proof.
  intros Hi Hf. assert (allDigits (i ++ f)) as Hd by (by apply Forall_app). pose proof (isZeroNum_spec i f Hi Hf) as Hz.
  pose proof (digitsVal_bound _ Hd). unfold signOf, magnitude, Qcompare. cbn [Qnum Qden]. rewrite Z.mul_0_l, Z.mul_1_r.
  destruct (isZeroNum i f); [rewrite (proj1 Hz eq_refl); by destruct neg|].
  assert (digitsVal (i ++ f) <> 0) by (intros E; by apply Hz in E).
  destruct neg; [apply Z.compare_lt_iff; lia|apply Z.compare_gt_iff; lia].
Qed.

(** What [parseNumParts] returns. *)
Lemma parseNumParts_spec s : let '(neg, i, f) := parseNumParts s in
  canonical i /\ allDigits f /\ (neg = true -> isZeroNum i f = false) /\ Qcompare (numericValue s) (magnitude neg i f) = Eq.
Proof.
  unfold parseNumParts, numericValue. destruct (startsNumber _); cbn [negb].
  - destruct (takeNumber _) as [[[neg i] f] rest] eqn:E. destruct (takeNumber_digits _ _ _ _ _ E) as [Hi Hf].
    destruct (canonicalInt_spec i Hi) as [Hc Hv]. split; [done|]. split; [done|].
    split; [by destruct neg, (isZeroNum _ _)|]. destruct neg; cbn [andb].
    + destruct (isZeroNum (canonicalInt i) f) eqn:Ez; cbn [negb].
      * apply isZeroNum_spec in Ez; [|apply Hc|done]. rewrite digitsVal_app, Hv in Ez.
        unfold magnitude, Qcompare. cbn [Qnum Qden]. rewrite !digitsVal_app, Hv, Ez. done.
      * rewrite (magnitude_ext true (canonicalInt i) i) by done. apply cmp_refl, _.
    + rewrite (magnitude_ext false (canonicalInt i) i) by done. apply cmp_refl, _.
  - split; [split; [by repeat constructor|split; [done|left; vm_compute; constructor]]|]. split; [constructor|]. done.
Qed.

(** -n compares the values of the numbers. *)
Lemma compareNumeric_value a b : compareNumeric a b = Qcompare (numericValue a) (numericValue b).
Proof.
  unfold compareNumeric. pose proof (parseNumParts_spec a) as Ha. pose proof (parseNumParts_spec b) as Hb.
  destruct (parseNumParts a) as [[an ai] af], (parseNumParts b) as [[bn bi] bf].
  destruct Ha as (Hai & Haf & Hna & Eva), Hb as (Hbi & Hbf & Hnb & Evb).
  rewrite (cmp_eq_left Qcompare _ _ _ Eva), (cmp_sym (c := Qcompare) (numericValue b)), (cmp_eq_left Qcompare _ _ _ Evb), <- (cmp_sym (c := Qcompare)).
  pose proof (magnitude_sign an ai af (proj1 Hai) Haf) as Sa. pose proof (magnitude_sign bn bi bf (proj1 Hbi) Hbf) as Sb.
  unfold signOf in Sa, Sb.
  destruct an, bn; cbn [Bool.eqb negb].
  - by rewrite compareMagnitude_spec, !magnitude_neg, Qcompare_opp.
  - rewrite Hna in Sa by done. symmetry. change (-1 ?= 0) with Lt in Sa. apply Qlt_alt in Sa. apply Qlt_alt. eapply Qlt_le_trans; [exact Sa|].
    apply Qge_alt. rewrite Sb. by destruct (isZeroNum bi bf).
  - rewrite Hnb in Sb by done. symmetry. change (-1 ?= 0) with Lt in Sb. apply Qlt_alt in Sb. apply Qgt_alt. eapply Qlt_le_trans; [exact Sb|].
    apply Qge_alt. rewrite Sa. by destruct (isZeroNum ai af).
  - by apply compareMagnitude_spec.
Qed.

#[export] Instance numeric_total : TotalCmp compareNumeric.
Proof. eapply TotalCmp_ext; [apply compareNumeric_value|]. apply _. Qed.

(** -h compares the sign, then the suffix and then the number, both under the
    sign. *)
Definition humanRank (s : bytes) : Z * Z * Q :=
  let '(sign, order, i, f) := parseHumanParts s in
  (sign, sign * order, if sign =? 0 then 0%Q else magnitude (sign <? 0) i f).

Definition compareRank (a b : Z * Z * Q) : comparison :=
  match Z.compare (fst (fst a)) (fst (fst b)) with
  | Eq => match Z.compare (snd (fst a)) (snd (fst b)) with Eq => Qcompare (snd a) (snd b) | c => c end
  | c => c
  end.

#[export] Instance rank_total : TotalCmp compareRank.
Proof.
  apply (lex_total (fun a b : Z * Z * Q => Z.compare (fst (fst a)) (fst (fst b)))
    (fun a b => match Z.compare (snd (fst a)) (snd (fst b)) with Eq => Qcompare (snd a) (snd b) | c => c end)).
Qed.

Lemma parseHumanParts_spec s : let '(sign, order, i, f) := parseHumanParts s in
  canonical i /\ allDigits f /\ (sign = 0 \/ sign = 1 \/ sign = -1).
Proof.
  unfold parseHumanParts. destruct (takeNumber _) as [[[neg i] f] rest] eqn:E. destruct (takeNumber_digits _ _ _ _ _ E) as [Hi Hf].
  assert (canonical (lit "0")) as H0 by (split; [by repeat constructor|split; [done|left; vm_compute; constructor]]).
  pose proof (proj1 (canonicalInt_spec i Hi)) as Hc.
  destruct i, f; (split; [done|]); (split; [done|]); try (destruct (isZeroNum _ _), neg; tauto). by left.
Qed.

Lemma compareHuman_rank a b : compareHuman a b = compareRank (humanRank a) (humanRank b).
Proof.
  unfold compareHuman, humanRank, compareRank. pose proof (parseHumanParts_spec a) as Ha. pose proof (parseHumanParts_spec b) as Hb.
  destruct (parseHumanParts a) as [[[sa oa] ia] fa], (parseHumanParts b) as [[[sb ob] ib] fb].
  destruct Ha as (Hia & Hfa & Hsa), Hb as (Hib & Hfb & Hsb). cbn [fst snd].
  destruct (Z.compare_spec sa sb) as [<-|E|E].
  2:{ rewrite (proj2 (Z.eqb_neq sa sb)) by lia. cbn [negb]. by rewrite (proj2 (Z.ltb_lt sa sb) E). }
  2:{ rewrite (proj2 (Z.eqb_neq sa sb)) by lia. cbn [negb]. by rewrite (proj2 (Z.ltb_ge sa sb)) by lia. }
  rewrite Z.eqb_refl. cbn [negb]. pose proof (compareMagnitude_spec ia fa ib fb Hia Hib Hfa Hfb) as Hm.
  destruct Hsa as [->|[->| ->]]; cbn [Z.eqb Z.ltb Z.compare].
  - done.
  - rewrite !Z.mul_1_l, Hm. destruct (Z.compare_spec oa ob) as [->|E|E]; [by rewrite Z.eqb_refl|..].
    + rewrite (proj2 (Z.eqb_neq oa ob)) by lia. by rewrite (proj2 (Z.ltb_lt oa ob) E).
    + rewrite (proj2 (Z.eqb_neq oa ob)) by lia. by rewrite (proj2 (Z.ltb_ge oa ob)) by lia.
  - rewrite !magnitude_neg, Qcompare_opp, Hm. destruct (Z.compare_spec (-1 * oa) (-1 * ob)) as [E|E|E].
    + assert (oa = ob) as -> by lia. by rewrite Z.eqb_refl.
    + rewrite (proj2 (Z.eqb_neq oa ob)) by lia. by rewrite (proj2 (Z.ltb_ge oa ob)) by lia.
    + rewrite (proj2 (Z.eqb_neq oa ob)) by lia. by rewrite (proj2 (Z.ltb_lt oa ob)) by lia.
Qed.

#[export] Instance human_total : TotalCmp compareHuman.
Proof. eapply TotalCmp_ext; [apply compareHuman_rank|]. apply _. Qed.

(** ** Lines *)

#[export] Instance strings_total o : TotalCmp (fun a b => compareStrings a b o).
Proof.
  unfold compareStrings. destruct (humanNumeric o).
  - apply (pullback_total (fun s => let s := if ignBlanks o then trimLeadingBlanks s else s in if ignCase o then foldCase s else s) compareHuman).
  - destruct (numeric o).
    + apply (pullback_total (fun s => let s := let s := if ignBlanks o then trimLeadingBlanks s else s in if ignCase o then foldCase s else s in
        if dictOrder o then dictFilter s else s) compareNumeric).
    + apply (pullback_total (fun s => let s := let s := if ignBlanks o then trimLeadingBlanks s else s in if ignCase o then foldCase s else s in
        if dictOrder o then dictFilter s else s) compareBytes).
Qed.

Section Order.
Context (g : keyOpts) (sep : option ascii) (stableSort : bool).

(** The order by one key, where one that panics counts as empty. *)
Definition keyOrder (k : keySpec) (a b : bytes) : comparison :=
  reversed (optsOf g k)
    (compareStrings (default [] (keyText g sep k a)) (default [] (keyText g sep k b)) (withoutBlanks (optsOf g k))).

Fixpoint keysOrder (keys : list keySpec) (a b : bytes) : comparison :=
  match keys with
  | [] => lastResort g stableSort a b
  | k :: keys => match keyOrder k a b with Eq => keysOrder keys a b | c => c end
  end.

Definition lineOrder (keys : list keySpec) (a b : bytes) : comparison :=
  match keys with
  | [] => match reversed g (compareStrings a b g) with Eq => lastResort g stableSort a b | c => c end
  | _ => keysOrder keys a b
  end.

#[export] Instance lastResort_total : TotalCmp (lastResort g stableSort).
Proof. unfold lastResort. destruct stableSort; apply _. Qed.

#[export] Instance keyOrder_total k : TotalCmp (keyOrder k).
Proof.
  apply (pullback_total (fun a => default [] (keyText g sep k a)) (fun a b => reversed (optsOf g k) (compareStrings a b (withoutBlanks (optsOf g k))))).
Qed.

#[export] Instance keysOrder_total keys : TotalCmp (keysOrder keys).
Proof. induction keys as [|k keys IH]; [apply lastResort_total|]. apply (lex_total (keyOrder k) (keysOrder keys)). Qed.

#[export] Instance lineOrder_total keys : TotalCmp (lineOrder keys).
Proof.
  destruct keys; [|apply keysOrder_total].
  apply (lex_total (fun a b => reversed g (compareStrings a b g)) (lastResort g stableSort)).
Qed.

(** Where the comparison of the code returns, it is this order. *)
Lemma compareKeys_order keys a b c : compareKeys g sep stableSort keys a b = Some c -> c = keysOrder keys a b.
Proof.
  induction keys as [|k keys IH]; cbn; [congruence|]. unfold keyOrder.
  destruct (keyText g sep k a), (keyText g sep k b); try done. cbn. destruct (reversed _ _); [done|congruence..].
Qed.

Lemma compareLines_order keys a b c : compareLines g sep stableSort keys a b = Some c -> c = lineOrder keys a b.
Proof. destruct keys; [|apply compareKeys_order]. cbn. destruct (reversed g _); congruence. Qed.

Lemma compareKeys_sym keys a b c :
  compareKeys g sep stableSort keys a b = Some c -> compareKeys g sep stableSort keys b a = Some (CompOpp c).
Proof.
  induction keys as [|k keys IH]; cbn.
  - intros [= <-]. by rewrite <- (cmp_sym a).
  - destruct (keyText g sep k a) as [ka|], (keyText g sep k b) as [kb|]; try done.
    rewrite (cmp_sym (c := fun a b => reversed (optsOf g k) (compareStrings a b (withoutBlanks (optsOf g k)))) ka kb).
    destruct (reversed _ _); [done|by intros [= <-]..].
Qed.

Lemma compareLines_sym keys a b c :
  compareLines g sep stableSort keys a b = Some c -> compareLines g sep stableSort keys b a = Some (CompOpp c).
Proof.
  destruct keys; [|apply compareKeys_sym]. cbn. rewrite (cmp_sym (c := fun a b => reversed g (compareStrings a b g)) a b).
  destruct (reversed g _); intros [= <-]; [|done..]. by rewrite <- (cmp_sym a).
Qed.

(** With the last resort, equal lines are the same. *)
Lemma lastResort_eq a b : stableSort = false -> lastResort g stableSort a b = Eq -> a = b.
Proof.
  unfold lastResort, reversed. intros ->. intros H. apply compareBytes_eq. destruct (reverse g); [|done]. by destruct (compareBytes a b).
Qed.

Lemma lineOrder_eq keys a b : stableSort = false -> lineOrder keys a b = Eq -> a = b.
Proof.
  intros Hs. assert (forall keys, keysOrder keys a b = Eq -> a = b) as Hk.
  { induction keys0 as [|k keys0 IH]; cbn; [by apply lastResort_eq|]. by destruct (keyOrder k a b). }
  destruct keys; [|apply Hk]. cbn. destruct (reversed g _); try done. by apply lastResort_eq.
Qed.
End Order.

(** ** Sorting *)

Section Sorting.
Context (c : bytes -> bytes -> comparison) `{!TotalCmp c}.

Definition le (a b : bytes) : Prop := c a b <> Gt.
Definition lt (a b : bytes) : Prop := c a b = Lt.

#[export] Instance equals_dec x y : Decision (c x y = Eq).
Proof. destruct (c x y); [by left|by right..]. Defined.

(** The elements of a class, in their order. *)
Definition class (x : bytes) (ls : list bytes) : list bytes := filter (fun y => c x y = Eq) ls.

Lemma class_cons x y ls : class x (y :: ls) = if decide (c x y = Eq) then y :: class x ls else class x ls.
Proof. unfold class. by rewrite filter_cons. Qed.

Lemma insertLine_perm x ls : insertLine c x ls ≡ₚ x :: ls.
Proof. induction ls as [|y ls IH]; cbn; [done|]. destruct (c x y); try done. rewrite IH. constructor. Qed.

Lemma sortFunc_perm ls : sortFunc c ls ≡ₚ ls.
Proof. induction ls as [|x ls IH]; cbn; [done|]. by rewrite insertLine_perm, IH. Qed.

Lemma insertLine_sorted x ls : StronglySorted le ls -> StronglySorted le (insertLine c x ls).
Proof.
  induction 1 as [|y ls Hs IH Hy]; cbn; [by repeat constructor|].
  assert (c x y <> Gt -> StronglySorted le (x :: y :: ls)) as Hle.
  { intros Hxy. constructor; [by constructor|]. constructor; [done|]. eapply Forall_impl; [exact Hy|]. intros z Hz. by apply (cmp_trans x y z). }
  destruct (c x y) eqn:E; [by apply Hle|by apply Hle|]. constructor; [done|].
  rewrite insertLine_perm. constructor; [|done]. unfold le. by rewrite (cmp_sym x y), E.
Qed.

Lemma sortFunc_sorted ls : StronglySorted le (sortFunc c ls).
Proof. induction ls; cbn; [constructor|by apply insertLine_sorted]. Qed.

(** An element goes before the others of its class. *)
Lemma insertLine_class z x ls : StronglySorted le ls -> class z (insertLine c x ls) = class z (x :: ls).
Proof.
  induction 1 as [|y ls Hs IH Hy]; cbn [insertLine]; [done|]. destruct (c x y) eqn:E; [done|done|].
  rewrite !class_cons, IH, class_cons. destruct (decide (c z x = Eq)) as [Ex|]; [|done].
  destruct (decide (c z y = Eq)) as [Ey|]; [|done]. exfalso.
  pose proof (cmp_eq_left c x z y (cmp_eq_sym c _ _ Ex)). congruence.
Qed.

Lemma sortFunc_class z ls : class z (sortFunc c ls) = class z ls.
Proof.
  induction ls as [|x ls IH]; [done|]. change (sortFunc c (x :: ls)) with (insertLine c x (sortFunc c ls)).
  rewrite insertLine_class by apply sortFunc_sorted. by rewrite !class_cons, IH.
Qed.

Lemma cmp_lt_left a b d : c a b = Lt -> lt b d -> lt a d.
Proof.
  unfold lt. intros Hab Hbd. destruct (c a d) eqn:E; [|done|].
  - destruct (cmp_lt_trans c a b d ltac:(congruence) ltac:(congruence) E). congruence.
  - exfalso. apply (cmp_trans a b d); congruence.
Qed.

(** One line of every class: the first. *)
Fixpoint firstsFrom (prev : bytes) (ls : list bytes) : list bytes :=
  match ls with [] => [] | l :: ls => match c prev l with Eq => firstsFrom l ls | _ => l :: firstsFrom l ls end end.

Definition firsts (ls : list bytes) : list bytes := match ls with [] => [] | l :: ls => l :: firstsFrom l ls end.

Lemma firstsFrom_sorted prev ls : StronglySorted le (prev :: ls) -> Forall (lt prev) (firstsFrom prev ls) /\ StronglySorted lt (firstsFrom prev ls).
Proof.
  revert prev. induction ls as [|l ls IH]; intros prev Hs; cbn; [by repeat constructor|].
  inversion_clear Hs as [|? ? Hls Hp]. destruct (IH l Hls) as [H1 H2]. inversion_clear Hp as [|? ? Hl _]. destruct (c prev l) eqn:E; [|..|done].
  - split; [|done]. eapply Forall_impl; [exact H1|]. intros z Hz. unfold lt. by rewrite (cmp_eq_left c prev l z E).
  - split; [|by constructor]. constructor; [done|]. eapply Forall_impl; [exact H1|]. intros z Hz. unfold lt in *.
    by apply (cmp_lt_left prev l z).
Qed.

Lemma firsts_sorted ls : StronglySorted le ls -> StronglySorted lt (firsts ls).
Proof. destruct ls as [|l ls]; cbn; [constructor|]. intros Hs. apply firstsFrom_sorted in Hs as [? ?]. by constructor. Qed.

Lemma class_none z ls : Forall (lt z) ls -> class z ls = [].
Proof.
  induction 1 as [|y ls Hy _ IH]; [done|]. rewrite class_cons. unfold lt in Hy. by rewrite decide_False by congruence.
Qed.

Lemma firstsFrom_class z prev ls : StronglySorted le (prev :: ls) ->
  class z (firstsFrom prev ls) = if decide (c z prev = Eq) then [] else take 1 (class z ls).
Proof.
  revert prev. induction ls as [|l ls IH]; intros prev Hs; cbn [firstsFrom]; [by destruct (decide _)|].
  inversion_clear Hs as [|? ? Hls Hp]. rewrite class_cons. inversion_clear Hp as [|? ? Hl Hrest].
  destruct (c prev l) eqn:E; [|..|done].
  - assert (c z prev = c z l) as Hz by (rewrite !(cmp_sym (c := c) _ z); f_equal; by apply cmp_eq_left).
    rewrite IH by done. destruct (decide (c z l = Eq)), (decide (c z prev = Eq)); congruence.
  - assert (Forall (lt prev) (firstsFrom l ls)) as Hf.
    { eapply Forall_impl; [by apply firstsFrom_sorted|]. intros y Hy. by apply (cmp_lt_left prev l y). }
    rewrite class_cons. destruct (decide (c z l = Eq)) as [El|Nl], (decide (c z prev = Eq)) as [Ep|Np].
    + pose proof (cmp_eq_left c prev z l (cmp_eq_sym c _ _ Ep)). congruence.
    + rewrite IH by done. by rewrite decide_True.
    + apply class_none. eapply Forall_impl; [exact Hf|]. intros y Hy. unfold lt in *. by rewrite (cmp_eq_left c z prev y Ep).
    + rewrite IH by done. by rewrite decide_False.
Qed.

Lemma firsts_class z ls : StronglySorted le ls -> class z (firsts ls) = take 1 (class z ls).
Proof.
  destruct ls as [|l ls]; [done|]. intros Hs. cbn [firsts]. rewrite !class_cons, firstsFrom_class by done.
  by destruct (decide (c z l = Eq)).
Qed.
End Sorting.

(** ** The command *)

Lemma answers_done h : calm h -> answers (done h) [] false.
Proof. intros Hc. by apply answers_prints, prints_done. Qed.

(** The lines of a stream. *)
Definition linesOf (src : source) : list bytes := map fst (fst (scanLines ch_nl (MaxLineBytes + 1) [] (content src))).
Definition allLines (srcs : list source) : list bytes := mjoin (map linesOf srcs).
Definition sizeOf (ls : list bytes) : Z := Z.of_nat (sum_list_with length ls).

(** The stream ends without an error, and no line is too long. *)
Definition readable (src : source) : Prop := failure src = None /\ snd (scanLines ch_nl (MaxLineBytes + 1) [] (content src)) = false.

Definition linesText (ls : list bytes) : bytes := mjoin (map (fun l => l ++ [ch_nl]) ls).

Lemma sizeOf_app ls ls' : sizeOf (ls ++ ls') = sizeOf ls + sizeOf ls'.
Proof. unfold sizeOf. rewrite sum_list_with_app. lia. Qed.

Section Run.
Context (h : host) (Hc : calm h) (comparisons : list bytes -> nat) (interrupted : list bytes -> list bytes).

Lemma prints_takeLines ls t acc : t + sizeOf (map fst ls) <= MaxTotalBytes -> Z.of_nat (length acc + length ls) <= MaxLines ->
  prints (eachLine h takeLine ls (t, acc)) [] (None, (t + sizeOf (map fst ls), acc ++ map fst ls)).
Proof.
  revert t acc. induction ls as [|[l b] ls IH]; intros t acc Ht Hl; cbn [eachLine].
  { cbn [map]. rewrite app_nil_r. change (sizeOf []) with 0. rewrite Z.add_0_r. apply prints_ret. }
  apply (prints_bind _ _ [] [] false); [by apply prints_done|]. change ((l, b) :: ls) with ([(l, b)] ++ ls) in *.
  rewrite !map_app, sizeOf_app in *. rewrite app_assoc, Z.add_assoc. unfold takeLine. cbn [fst snd map] in *.
  assert (sizeOf [l] = Z.of_nat (length l)) as E by (unfold sizeOf; cbn; lia). rewrite E in *. cbn [length app] in Hl.
  assert (0 <= sizeOf (map fst ls)) by (unfold sizeOf; lia).
  rewrite (proj2 (Z.ltb_ge _ _)) by lia. rewrite (proj2 (Z.ltb_ge MaxLines _)) by (rewrite length_app; cbn [length]; lia).
  apply (prints_bind _ _ [] [] (None, (t + Z.of_nat (length l), acc ++ [l]))); [apply prints_ret|].
  apply IH; [lia|]. rewrite length_app. cbn [length]. lia.
Qed.

Lemma answers_readFile file src t : delivers h file src -> readable src -> 0 <= t ->
  t + sizeOf (linesOf src) <= MaxTotalBytes -> Z.of_nat (length (linesOf src)) <= MaxLines ->
  answers (readFile h file t) [] (inr (linesOf src, t + sizeOf (linesOf src))).
Proof.
  intros Hd [Hf Hr] H0 Ht Hl. unfold readFile. apply (answers_silent _ _ [] (inr (Some src))); [by apply answers_open|]. cbv beta iota.
  apply (answers_silent _ _ [] (None, (t + sizeOf (linesOf src), linesOf src))); [|apply answers_ret].
  apply answers_closing, answers_prints. unfold forLines, linesOf in *.
  destruct (scanLines ch_nl (MaxLineBytes + 1) [] (content src)) as [ls long]. cbn [fst snd] in *. subst long.
  eapply (prints_bind _ _ [] [] (None, (t + sizeOf (map fst ls), [] ++ map fst ls))).
  - apply prints_takeLines; [done|]. rewrite length_map in Hl. done.
  - unfold scanErr. rewrite Hf. apply prints_ret.
Qed.

Lemma answers_readFiles files srcs all t : Forall2 (delivers h) files srcs -> Forall readable srcs -> 0 <= t ->
  t + sizeOf (allLines srcs) <= MaxTotalBytes -> Z.of_nat (length all + length (allLines srcs)) <= MaxLines ->
  answers (readFiles h files all t) [] (inr (all ++ allLines srcs)).
Proof.
  intros Hd. revert all t. induction Hd as [|file src files srcs Hd _ IH]; intros all t Hr H0 Ht Hl; cbn [readFiles].
  { cbn. rewrite app_nil_r. apply answers_ret. }
  inversion_clear Hr as [|? ? Hr1 Hr2]. apply (answers_silent _ _ [] false); [by apply answers_done|]. cbv beta iota.
  change (allLines (src :: srcs)) with (linesOf src ++ allLines srcs) in *.
  rewrite sizeOf_app in Ht. rewrite length_app in Hl. assert (0 <= sizeOf (allLines srcs)) by (unfold sizeOf; lia).
  assert (0 <= sizeOf (linesOf src)) by (unfold sizeOf; lia).
  apply (answers_silent _ _ [] (inr (linesOf src, t + sizeOf (linesOf src)))).
  { apply answers_readFile; try done; lia. }
  cbv beta iota zeta. rewrite (proj2 (Z.ltb_ge MaxLines _)) by (rewrite length_app; lia). rewrite app_assoc.
  apply IH; [done|lia..|]. rewrite length_app. lia.
Qed.

Lemma prints_lines ls : prints (printLines h ls) (linesText ls) 0.
Proof.
  induction ls as [|l ls IH]; cbn [printLines]; [apply prints_ret|].
  apply (prints_bind _ _ [] _ false); [by apply prints_done|]. cbv beta iota. apply (prints_bind _ _ _ _ tt); [by apply prints_out|done].
Qed.

Lemma prints_sorting c ls : prints (sorting h comparisons interrupted c ls) [] (sortFunc c ls).
Proof.
  intros [es n]. exists []. unfold sorting. cbn [events polls snd]. rewrite app_nil_r.
  assert (existsb (ctxDone h) (seq n (comparisons ls)) = false) as ->; [|done].
  generalize (seq n (comparisons ls)). induction l as [|x l IH]; cbn; [done|]. by rewrite (calm_ctx h Hc).
Qed.

Lemma prints_dedupFrom c prev ls : prints (dedupFrom h c prev ls) [] (firstsFrom c prev ls).
Proof.
  revert prev. induction ls as [|l ls IH]; intros prev; cbn [dedupFrom firstsFrom]; [apply prints_ret|].
  apply (prints_bind _ _ [] [] false); [by apply prints_done|]. cbv beta iota.
  apply (prints_bind _ _ [] [] (firstsFrom c l ls)); [apply IH|]. destruct (c prev l); apply prints_ret.
Qed.

Lemma prints_dedup c ls : prints (dedup h c ls) [] (firsts c ls).
Proof.
  destruct ls as [|l ls]; cbn; [apply prints_ret|]. apply (prints_bind _ _ [] [] (firstsFrom c l ls)); [apply prints_dedupFrom|apply prints_ret].
Qed.

Definition sortedOutput (c : bytes -> bytes -> comparison) (unique : bool) (ls : list bytes) : list bytes :=
  if unique then firsts c (sortFunc c ls) else sortFunc c ls.

Lemma prints_sortAndPrint unique ls c :
  prints (sortAndPrint h comparisons interrupted unique ls c) (linesText (sortedOutput c unique ls)) 0.
Proof.
  unfold sortAndPrint, sortedOutput. apply (prints_bind _ _ [] _ (sortFunc c ls)); [apply prints_sorting|].
  destruct unique; apply (prints_bind _ _ [] _ _ _ (prints_dedup c _) (prints_lines _)) || apply (prints_bind _ _ [] _ _ _ (prints_ret _) (prints_lines _)).
Qed.
End Run.

(** Two comparisons that agree on some lines sort them alike. *)
Section Agree.
Context (c c' : bytes -> bytes -> comparison).

Definition agree (ls : list bytes) : Prop := forall a b, a ∈ ls -> b ∈ ls -> c a b = c' a b.

Lemma agree_perm ls ls' : ls ≡ₚ ls' -> agree ls -> agree ls'.
Proof. intros Hp H a b Ha Hb. apply H; by rewrite Hp. Qed.

Lemma agree_sub ls ls' : (forall x, x ∈ ls' -> x ∈ ls) -> agree ls -> agree ls'.
Proof. intros Hs H a b Ha Hb. apply H; by apply Hs. Qed.

Lemma insertLine_agree x ls : agree (x :: ls) -> insertLine c x ls = insertLine c' x ls.
Proof.
  induction ls as [|y ls IH]; intros H; cbn; [done|]. rewrite <- (H x y) by (rewrite ?elem_of_cons; tauto).
  destruct (c x y); try done. f_equal. apply IH. eapply agree_sub; [|exact H]. intros z. rewrite !elem_of_cons. tauto.
Qed.

Lemma sortFunc_agree ls : agree ls -> sortFunc c ls = sortFunc c' ls.
Proof.
  induction ls as [|x ls IH]; intros H; [done|]. cbn. change (foldr (insertLine c) [] ls) with (sortFunc c ls).
  rewrite IH by (eapply agree_sub; [|exact H]; by right). apply insertLine_agree.
  eapply agree_perm; [|exact H]. constructor. symmetry. change (foldr (insertLine c') [] ls) with (sortFunc c' ls). apply sortFunc_perm.
Qed.

Lemma firsts_agree ls : agree ls -> firsts c ls = firsts c' ls.
Proof.
  destruct ls as [|p ls]; [done|]. cbn. intros H. f_equal. revert p H. induction ls as [|l ls IH]; intros p H; cbn; [done|].
  rewrite <- (H p l) by (rewrite ?elem_of_cons; tauto). rewrite IH by (eapply agree_sub; [|exact H]; by right). done.
Qed.

Lemma sortedOutput_agree unique ls : agree ls -> sortedOutput c unique ls = sortedOutput c' unique ls.
Proof.
  intros H. unfold sortedOutput. rewrite <- (sortFunc_agree ls) by done. destruct unique; [|done].
  apply firsts_agree. eapply agree_perm; [symmetry; apply sortFunc_perm|done].
Qed.

Lemma class_agree x ls : agree ls -> x ∈ ls -> forall ls', (forall y, y ∈ ls' -> y ∈ ls) -> class c x ls' = class c' x ls'.
Proof.
  intros H Hx ls' Hs. induction ls' as [|y ls' IH]; [done|]. rewrite !class_cons, IH by (intros; apply Hs; by right).
  pose proof (H x y Hx (Hs y ltac:(left))) as E. destruct (decide (c x y = Eq)), (decide (c' x y = Eq)); congruence.
Qed.
End Agree.

Lemma firsts_sub c ls x : x ∈ firsts c ls -> x ∈ ls.
Proof.
  destruct ls as [|p ls]; cbn; [done|]. rewrite !elem_of_cons. intros [?|Hx]; [by left|right]. revert p Hx.
  induction ls as [|l ls IH]; intros p; cbn; [done|]. rewrite elem_of_cons. destruct (c p l); rewrite ?elem_of_cons; naive_solver.
Qed.

Lemma sortedOutput_sub c unique ls x : x ∈ sortedOutput c unique ls -> x ∈ ls.
Proof. unfold sortedOutput. destruct unique; [intros Hx%firsts_sub|intros Hx]; by rewrite sortFunc_perm in Hx. Qed.

Lemma StronglySorted_sub {A} (R R' : A -> A -> Prop) l :
  (forall a b, a ∈ l -> b ∈ l -> R a b -> R' a b) -> StronglySorted R l -> StronglySorted R' l.
Proof.
  intros H Hs. induction Hs as [|x l Hs IH Hx]; constructor.
  - apply IH. intros a b Ha Hb. apply H; by right.
  - rewrite Forall_forall in *. intros y Hy. apply H; [by left|by right|by apply Hx].
Qed.

(** What sort prints, by the comparison of the code: the lines in order, the
    equal ones as they came, or with -u the first of each class. *)
Definition sorts (c : bytes -> bytes -> comparison) (unique : bool) (ls out : list bytes) : Prop :=
  StronglySorted (fun a b => if unique then c a b = Lt else c a b <> Gt) out /\
  (unique = false -> out ≡ₚ ls) /\
  forall x, x ∈ ls -> class c x out = if unique then take 1 (class c x ls) else class c x ls.

Lemma sortedOutput_sorts c c' unique ls : TotalCmp c' -> agree c c' ls -> sorts c unique ls (sortedOutput c unique ls).
Proof.
  intros Ht Ha. pose proof (sortFunc_sorted c' ls) as Hs. split; [|split].
  - eapply (StronglySorted_sub (fun a b => if unique then c' a b = Lt else c' a b <> Gt)).
    + intros a b Hx%sortedOutput_sub Hy%sortedOutput_sub. by rewrite (Ha a b).
    + rewrite (sortedOutput_agree c c') by done. unfold sortedOutput. destruct unique; [by apply (firsts_sorted c')|done].
  - intros ->. apply sortFunc_perm.
  - intros x Hx. rewrite (class_agree c c' x ls Ha Hx (sortedOutput c unique ls)) by apply sortedOutput_sub.
    rewrite (class_agree c c' x ls Ha Hx ls) by done. rewrite (sortedOutput_agree c c') by done.
    unfold sortedOutput. destruct unique; [rewrite (firsts_class c') by done; f_equal|]; apply sortFunc_class, Ht.
Qed.

Section Comparable.
Context (g : keyOpts) (sep : option ascii) (stableSort : bool) (keys : list keySpec).

Lemma comparable_agree ls : comparable (compareLines g sep stableSort keys) ls = true ->
  agree (total (compareLines g sep stableSort keys)) (lineOrder g sep stableSort keys) ls.
Proof.
  intros H a b Ha Hb. unfold comparable in H. rewrite forallb_forall in H. specialize (H a (proj1 (list_elem_of_In _ _) Ha)).
  rewrite forallb_forall in H. specialize (H b (proj1 (list_elem_of_In _ _) Hb)). unfold total.
  destruct (compareLines g sep stableSort keys a b) eqn:E; [|done]. by apply compareLines_order.
Qed.
End Comparable.

(** ** -c *)

Definition inOrder (c : bytes -> bytes -> comparison) (unique : bool) (a b : bytes) : Prop :=
  if unique then c a b = Lt else c a b <> Gt.

Lemma inOrder_test c unique a b :
  match c a b with Gt => true | Eq => unique | Lt => false end = false <-> inOrder c unique a b.
Proof. unfold inOrder. destruct (c a b), unique; split; congruence. Qed.

Section CheckMode.
Context (h : host) (Hc : calm h) (c : bytes -> bytes -> comparison) (silent unique : bool) (file : bytes).

Lemma checkSortedFrom_code i prev ls w :
  let code := fst (checkSortedFrom h c silent unique file i prev ls w) in
  (code = 0 \/ code = 1) /\ (code = 0 <-> Sorted (inOrder c unique) (prev :: ls)).
Proof.
  revert i prev w. induction ls as [|l ls IH]; intros i prev w; cbn zeta; cbn [checkSortedFrom].
  { split; [by left|]. split; [by repeat constructor|done]. }
  unfold mbind, F_bind. cbn [done]. unfold done. rewrite (calm_ctx h Hc).
  pose proof (inOrder_test c unique prev l) as Ht. destruct (match c prev l with Gt => true | Eq => unique | Lt => false end).
  - destruct silent; cbn; (split; [by right|]); (split; [done|]); intros Hs; inversion_clear Hs as [|? ? _ Hd]; inversion_clear Hd as [|? ? Hd'];
      by apply Ht in Hd'.
  - destruct (IH (i + 1) l (mkWorld (events w) (S (polls w)))) as [H1 H2]. split; [done|]. rewrite H2. clear - Ht. split.
    + intros Hs. constructor; [done|]. constructor. by apply Ht.
    + by intros [? _]%Sorted_inv.
Qed.

Lemma checkSorted_code ls w :
  let code := fst (checkSorted h c silent unique file ls w) in
  (code = 0 \/ code = 1) /\ (code = 0 <-> Sorted (inOrder c unique) ls).
Proof. destruct ls as [|l ls]; [|apply checkSortedFrom_code]. cbn. split; [by left|]. split; [constructor|done]. Qed.
End CheckMode.

(** ** Keys *)

(** Fields put together again. *)
Fixpoint glue (g : bytes) (fs : list bytes) : bytes :=
  match fs with [] => [] | f :: fs => f ++ match fs with [] => [] | _ => g ++ glue g fs end end.

Definition fieldsOf (sep : option ascii) (line : bytes) : list bytes :=
  match sep with Some c => Split c line | None => splitBlankFields line end.

Definition gapOf (sep : option ascii) : bytes := match sep with Some c => [c] | None => [] end.

Lemma glue_cons g f fs : fs <> [] -> glue g (f :: fs) = f ++ g ++ glue g fs.
Proof. by destruct fs. Qed.

Lemma glue_Split c line : glue [c] (Split c line) = line.
Proof.
  induction line as [|x line IH]; [done|]. cbn [Split]. destruct (Ascii.eqb_spec x c) as [->|Hne].
  - rewrite glue_cons by apply Filepath.Split_nonempty. by rewrite IH.
  - pose proof (Filepath.Split_nonempty c line). destruct (Split c line) as [|w ws]; [done|]. rewrite <- IH. by destruct ws.
Qed.

Lemma glue_blankFields fuel line : (length line <= fuel)%nat -> glue [] (blankFieldsFuel fuel line) = line.
Proof.
  revert line. induction fuel as [|fuel IH]; intros [|x line] Hl; cbn [length] in Hl; [done|lia|done|]. cbn [blankFieldsFuel].
  set (l := x :: line) in *. set (i := run_length isBlank l). destruct (drop i l) as [|y rest] eqn:E; [cbn; by rewrite app_nil_r|].
  set (n := (i + run_length (fun c => negb (isBlank c)) (y :: rest))%nat).
  assert (0 < n)%nat as Hn.
  { unfold n. destruct (decide (i = 0%nat)) as [Ei|]; [|lia]. rewrite Ei in E. injection E as <- <-.
    unfold i in Ei. cbn in Ei |- *. destruct (isBlank x); [done|]. cbn. lia. }
  clearbody n. assert (length (drop n l) <= fuel)%nat as Hd by (rewrite length_drop; change (length l) with (S (length line)); lia).
  specialize (IH _ Hd). rewrite <- (take_drop n l) at 3. rewrite <- IH at 2. by destruct (blankFieldsFuel fuel (drop n l)); cbn; rewrite ?app_nil_r.
Qed.

Lemma glue_fieldsOf sep line : glue (gapOf sep) (fieldsOf sep line) = line.
Proof. destruct sep; [apply glue_Split|by apply glue_blankFields]. Qed.

Lemma fieldBounds_fields line sep : fieldBounds line sep = boundsOf (length (gapOf sep)) 0 (fieldsOf sep line).
Proof. by destruct sep. Qed.

Lemma boundsOf_length gap pos fs : length (boundsOf gap pos fs) = length fs.
Proof. revert pos. induction fs as [|f fs IH]; intros pos; cbn; [done|]. by rewrite IH. Qed.

(** The bounds of field [i] are what lies before it, and its own length more. *)
Lemma boundsOf_nth g pos fs i : (i < length fs)%nat ->
  let '(a, b) := nth i (boundsOf (length g) pos fs) (0, 0)%nat in
  (pos <= a)%nat /\ b = (a + length (nth i fs []))%nat /\ (b <= pos + length (glue g fs))%nat /\
  drop (a - pos) (glue g fs) = glue g (drop i fs).
Proof.
  revert pos i. induction fs as [|f fs IH]; intros pos i Hi; cbn [length] in Hi; [lia|]. destruct i as [|i]; cbn [boundsOf nth].
  - replace (pos - pos)%nat with 0%nat by lia. split; [done|]. split; [done|]. split; [|done]. cbn. rewrite length_app. lia.
  - assert (fs <> []) as Hne by (by destruct fs; cbn in Hi; [lia|]). specialize (IH (pos + length f + length g)%nat i ltac:(lia)).
    destruct (nth i (boundsOf _ _ fs) _) as [a b]. destruct IH as (H1 & H2 & H3 & H4).
    rewrite (glue_cons g f fs Hne), !length_app. split; [lia|]. split; [done|]. split; [lia|].
    cbn [drop]. rewrite <- H4, app_assoc, drop_app_ge by (rewrite length_app; lia). f_equal. rewrite length_app. lia.
Qed.

(** Up to the end of field [j]. *)
Lemma glue_take g fs j : (j < length fs)%nat ->
  let '(_, b) := nth j (boundsOf (length g) 0 fs) (0, 0)%nat in take b (glue g fs) = glue g (take (S j) fs).
Proof.
  assert (forall pos, (j < length fs)%nat ->
    let '(_, b) := nth j (boundsOf (length g) pos fs) (0, 0)%nat in take (b - pos) (glue g fs) = glue g (take (S j) fs)) as H.
  2:{ intros Hj. specialize (H 0%nat Hj). destruct (nth _ _ _) as [a b]. by rewrite Nat.sub_0_r in H. }
  revert j. induction fs as [|f fs IH]; intros j pos Hj; cbn [length] in Hj; [lia|]. destruct j as [|j]; cbn [boundsOf nth].
  - replace (pos + length f - pos)%nat with (length f) by lia. cbn. rewrite app_nil_r. apply take_app_length.
  - assert (fs <> []) as Hne by (by destruct fs; cbn in Hj; [lia|]).
    pose proof (boundsOf_nth g (pos + length f + length g) fs j ltac:(lia)) as Hb.
    specialize (IH j (pos + length f + length g)%nat ltac:(lia)). destruct (nth j (boundsOf _ _ fs) _) as [a b].
    destruct Hb as (H1 & H2 & _ & _). rewrite (glue_cons g f fs Hne).
    change (take (S (S j)) (f :: fs)) with (f :: take (S j) fs). rewrite glue_cons by (by destruct fs). rewrite <- IH, !app_assoc.
    rewrite take_app_ge by (rewrite length_app; lia). f_equal. f_equal. rewrite length_app. lia.
Qed.


Lemma boundsOf_take gap pos fs n : boundsOf gap pos (take n fs) = take n (boundsOf gap pos fs).
Proof. revert pos n. induction fs as [|f fs IH]; intros pos [|n]; cbn; try done. by rewrite IH. Qed.

Lemma nth_take_lt {A} n i (l : list A) d : (i < n)%nat -> nth i (take n l) d = nth i l d.
Proof. revert n i. induction l as [|x l IH]; intros [|n] [|i] Hi; cbn; try lia; try done. apply IH. lia. Qed.

Section FieldKeys.
Context (line : bytes) (sep : option ascii).
Abbreviation fs := (fieldsOf sep line).

Lemma fieldBounds_nth i : (i < length fs)%nat ->
  let '(a, b) := nth i (fieldBounds line sep) (0, 0)%nat in
  b = (a + length (nth i fs []))%nat /\ (b <= length line)%nat /\ drop a line = glue (gapOf sep) (drop i fs) /\
  take b line = glue (gapOf sep) (take (S i) fs).
Proof.
  intros Hi. rewrite fieldBounds_fields. pose proof (boundsOf_nth (gapOf sep) 0 fs i Hi) as H. pose proof (glue_take (gapOf sep) fs i Hi) as H'.
  destruct (nth i _ _) as [a b]. rewrite glue_fieldsOf, ?Nat.sub_0_r in *. tauto.
Qed.

(** The fields from one to another. *)
Lemma fieldBounds_between i j : (i <= j < length fs)%nat ->
  let a := fst (nth i (fieldBounds line sep) (0, 0)%nat) in
  let b := snd (nth j (fieldBounds line sep) (0, 0)%nat) in
  (a <= b)%nat /\ take (b - a) (drop a line) = glue (gapOf sep) (take (S j - i) (drop i fs)).
Proof.
  intros Hij a b. pose proof (fieldBounds_nth j ltac:(lia)) as Hj. unfold b. destruct (nth j _ _) as [aj bj]. cbn [snd].
  destruct Hj as (_ & _ & _ & Ht).
  pose proof (boundsOf_nth (gapOf sep) 0 (take (S j) fs) i) as H. rewrite length_take, boundsOf_take, nth_take_lt, <- fieldBounds_fields in H by lia.
  specialize (H ltac:(lia)). unfold a. destruct (nth i _ _) as [ai bi]. cbn [fst]. destruct H as (_ & H2 & H3 & H4). rewrite Nat.sub_0_r, <- Ht in H4.
  rewrite <- Ht in H3. rewrite length_take in H3. split; [lia|].
  rewrite take_drop_commute. replace (ai + (bj - ai))%nat with bj by lia. rewrite H4. by rewrite skipn_firstn_comm.
Qed.
End FieldKeys.

Lemma wrap64_id x : 0 <= x < 2 ^ 63 -> wrap64 x = x.
Proof. intros Hx. unfold wrap64. rewrite Z.mod_small by lia. lia. Qed.

Lemma skipBlanks_le line pos : (pos <= length line)%nat -> (skipBlanks line pos <= length line)%nat.
Proof.
  intros Hp. unfold skipBlanks. assert (forall s, (run_length isBlank s <= length s)%nat) as Hr.
  { induction s as [|x s IH]; cbn; [lia|]. destruct (isBlank x); lia. }
  specialize (Hr (drop pos line)). rewrite length_drop in Hr. lia.
Qed.

Lemma slice_some line i j : 0 <= i -> is_Some (slice line i j).
Proof. intros Hi. unfold slice. by rewrite (proj2 (Z.ltb_ge i 0)) by lia. Qed.

(** A key whose character offset stays far from the largest integer does not panic. *)
Lemma extractKey_some line k sep sb eb : 1 <= startField k -> startChar k <= 2 ^ 62 -> Z.of_nat (length line) <= 2 ^ 62 ->
  is_Some (extractKey line k sep sb eb).
Proof.
  intros Hf Hc Hl. unfold extractKey. destruct (Z.leb_spec (Z.of_nat (length (fieldBounds line sep))) (startField k - 1)) as [|Hn]; [by eexists|].
  rewrite fieldBounds_fields, boundsOf_length in Hn.
  pose proof (fieldBounds_nth line sep (Z.to_nat (startField k - 1)) ltac:(lia)) as Hb. destruct (nth (Z.to_nat (startField k - 1)) _ _) as [a b]. cbn [fst].
  destruct Hb as (H1 & H2 & _ & _).
  set (p := if sb then skipBlanks line a else a). assert (p <= length line)%nat as Hp.
  { unfold p. destruct sb; [|lia]. apply skipBlanks_le. lia. }
  set (q := if 0 <? startChar k then wrap64 (Z.of_nat p + (startChar k - 1)) else Z.of_nat p). assert (0 <= q) as Hq.
  { unfold q. destruct (Z.ltb_spec 0 (startChar k)); [|lia]. rewrite wrap64_id by lia. lia. }
  cbv zeta. destruct (_ <=? q); [by eexists|]. destruct (_ || _); [by apply slice_some|]. destruct (nth (Z.to_nat (endField k - 1)) _ _) as [a' b'].
  destruct (_ <=? q); [by eexists|by apply slice_some].
Qed.

Lemma compareLines_some g sep st keys a b :
  Forall (fun k => 1 <= startField k /\ startChar k <= 2 ^ 62) keys ->
  Z.of_nat (length a) <= 2 ^ 62 -> Z.of_nat (length b) <= 2 ^ 62 -> is_Some (compareLines g sep st keys a b).
Proof.
  intros Hk Ha Hb. assert (is_Some (compareKeys g sep st keys a b)) as H.
  { induction Hk as [|k keys [Hf Hc] _ IH]; cbn; [by eexists|].
    assert (is_Some (keyText g sep k a)) as [ka ->] by (unfold keyText; destruct (hasOpts k); by apply extractKey_some).
    assert (is_Some (keyText g sep k b)) as [kb ->] by (unfold keyText; destruct (hasOpts k); by apply extractKey_some).
    destruct (reversed _ _); [done|by eexists..]. }
  destruct keys; [|done]. cbn. destruct (reversed _ _); by eexists.
Qed.

Lemma parseKeyDef_start s k : parseKeyDef s = inr k -> 1 <= startField k.
Proof.
  assert (forall e k k', checkKey e k = inr k' -> k' = k /\ 1 <= startField k) as Hck.
  { intros e k0 k'. unfold checkKey. destruct (Z.ltb_spec (startField k0) 1); [done|].
    repeat (case_match; [done|]). by intros [= ->]. }
  unfold parseKeyDef. destruct (match IndexByte s _ with Some _ => _ | None => _ end) as [sp ep].
  destruct ep as [[|c ep]|]; [done|..]; (destruct (parseFieldSpec sp) as [|[[st ha] ko]]; [done|]); (destruct (hasDot st && (char st =? 0)); [done|]).
  - destruct (parseFieldSpec (c :: ep)) as [|[[en hb] koe]]; [done|]. by intros [-> ?]%Hck.
  - by intros [-> ?]%Hck.
Qed.

Lemma glue_take_prefix g n fs : glue g (take n fs) `prefix_of` glue g fs.
Proof.
  revert n. induction fs as [|f fs IH]; intros [|n]; cbn [take]; try apply prefix_nil. destruct fs as [|f' fs]; [by rewrite take_nil|].
  rewrite (glue_cons g f (f' :: fs)) by done. destruct n as [|n]; [cbn; rewrite app_nil_r; by exists (g ++ glue g (f' :: fs))|].
  rewrite glue_cons by done. apply prefix_app, prefix_app, (IH (S n)).
Qed.

(** ** The theorems *)

(** Every order that sort can be asked for is a total preorder, on the lines
    whose comparisons return: swapping the lines turns the result round, and it
    is transitive.  Without -s and -u, only identical lines compare equal. *)
Theorem sort_order_total g sep stableSort keys a b d cab cbd cad :
  compareLines g sep stableSort keys a b = Some cab ->
  compareLines g sep stableSort keys b d = Some cbd ->
  compareLines g sep stableSort keys a d = Some cad ->
  compareLines g sep stableSort keys b a = Some (CompOpp cab) /\
  (cab <> Gt -> cbd <> Gt -> cad <> Gt) /\
  (cab = Eq -> cad = cbd) /\
  (stableSort = false -> cab = Eq -> a = b).
Proof.
  intros Hab Hbd Had. split; [by apply compareLines_sym|].
  apply compareLines_order in Hab as ->, Hbd as ->, Had as ->.
  split; [apply (cmp_trans (c := lineOrder g sep stableSort keys))|]. split; [|apply lineOrder_eq].
  by apply (cmp_eq_left (lineOrder g sep stableSort keys)).
Qed.

(** [sort -k 2] on three lines. *)
Definition byField2 : keySpec := mkKey 2 0 0 0 noOpts false false false.

Lemma sort_order_total_witness :
  compareLines noOpts None false [byField2] (lit "x b") (lit "y a") = Some (CompOpp Lt) /\
  (Lt <> Gt -> Lt <> Gt -> Lt <> Gt) /\ (Lt = Eq -> Lt = Lt) /\ (false = false -> Lt = Eq -> lit "y a" = lit "x b").
Proof. exact (sort_order_total noOpts None false [byField2] (lit "y a") (lit "x b") (lit "w c") Lt Lt Lt eq_refl eq_refl eq_refl). Defined.

(** C37. sort -n compares two lines as the rational numbers that they start with,
    without any conversion to a machine number; sort -h compares first the sign,
    then the suffix, then the number. *)
Theorem sort_numbers_exact a b :
  compareNumeric a b = Qcompare (numericValue a) (numericValue b) /\
  compareHuman a b = compareRank (humanRank a) (humanRank b).
Proof. split; [apply compareNumeric_value|apply compareHuman_rank]. Qed.

(** C36. sort prints the lines of its files in order: when the context lasts,
    the writes succeed, the files can be read and fit the limits of the command,
    and no key panics, it exits with 0, writes nothing but the sorted lines, and
    these are the lines of the files, equal lines in the order in which they
    came; with -u they are the first lines of the classes of equal lines. *)
Theorem sort_output_exact h comparisons interrupted fl files srcs keys sep :
  calm h ->
  parseChecks fl = None -> parseSep fl = inr sep -> parseKeys (fl_keys fl) = inr keys -> fl_help fl = false ->
  refusal fl keys = None -> fl_check fl = [] -> fl_checkSilent fl = false ->
  Forall2 (delivers h) (match files with [] => [lit "-"] | _ => files end) srcs -> Forall readable srcs ->
  sizeOf (allLines srcs) <= MaxTotalBytes -> Z.of_nat (length (allLines srcs)) <= MaxLines ->
  let cmp := compareLines (fl_opts fl) sep (fl_stable fl || fl_unique fl) keys in
  comparable cmp (allLines srcs) = true ->
  exists out,
    answers (run h comparisons interrupted fl files) (linesText out) (Exit 0) /\
    sorts (total cmp) (fl_unique fl) (allLines srcs) out.
Proof.
  intros Hc Hpc Hps Hpk Hh Hr Hck Hcs Hd Hre Hsz Hln cmp Hcmp.
  exists (sortedOutput (total cmp) (fl_unique fl) (allLines srcs)). split.
  - unfold run. rewrite Hpc, Hps, Hpk, Hh, Hr, Hck, Hcs. cbn [negb orb]. rewrite bool_decide_true by done. cbn [negb orb].
    apply (answers_silent _ _ _ (inr (allLines srcs))).
    { apply (answers_readFiles h Hc _ srcs [] 0 Hd Hre); [done|done|]. done. }
    cbv beta iota. unfold onLines. fold cmp. rewrite Hcmp. apply (answers_last _ _ _ 0); [|apply answers_ret].
    by apply answers_prints, prints_sortAndPrint.
  - eapply sortedOutput_sorts, comparable_agree; [apply _|done].
Qed.

(** [sort -u -k 2,2] of two files. *)
Definition demoHost : host :=
  mkHost (fun _ => false) (fun _ f => inr (mkSource (if f =s "p" then lit "x b" ++ [ch_nl] ++ lit "y a" else lit "z b" ++ [ch_nl]) None)) None
    (fun _ => None) (fun _ => []).

Definition demoFlags : sortFlags := mkSortFlags false noOpts true [lit "2,2"] None [] false false false false false.
Definition demoSources : list source := [mkSource (lit "x b" ++ [ch_nl] ++ lit "y a") None; mkSource (lit "z b" ++ [ch_nl]) None].

Lemma demoHost_calm : calm demoHost.
Proof. by split. Qed.

Lemma sort_output_exact_witness : exists out,
  answers (run demoHost (fun _ => 0%nat) id demoFlags [lit "p"; lit "q"]) (linesText out) (Exit 0) /\
  sorts (total (compareLines noOpts None true [mkKey 2 0 2 0 noOpts false false false])) true (allLines demoSources) out.
Proof.
  refine (sort_output_exact demoHost (fun _ => 0%nat) id demoFlags [lit "p"; lit "q"] demoSources [mkKey 2 0 2 0 noOpts false false false] None
    demoHost_calm _ _ _ _ _ _ _ _ _ _ _ _); try by vm_compute.
  - constructor; [by intros w|]. constructor; [by intros w|constructor].
  - repeat constructor.
Defined.

(** Without character offsets, the key [-k i,j] of a line is its fields from
    [i] to [j] with what separates them, and [-k i] is the fields from [i] on;
    the fields, put together again, are the line. *)
Theorem sort_key_fields line sep i j o ho sb eb : 1 <= i -> j = 0 \/ i <= j ->
  glue (gapOf sep) (fieldsOf sep line) = line /\
  extractKey line (mkKey i 0 j 0 o ho sb eb) sep false false =
    Some (glue (gapOf sep) ((if j =? 0 then id else take (Z.to_nat (j - i + 1))) (drop (Z.to_nat (i - 1)) (fieldsOf sep line)))).
Proof.
  intros Hi Hj. split; [apply glue_fieldsOf|]. unfold extractKey. cbn [startField startChar endField endChar]. cbn [Z.ltb Z.compare].
  rewrite fieldBounds_fields, boundsOf_length, <- fieldBounds_fields.
  destruct (Z.leb_spec (Z.of_nat (length (fieldsOf sep line))) (i - 1)) as [Hn|Hn].
  { rewrite drop_ge by lia. by destruct (j =? 0); [|rewrite take_nil]. }
  set (i' := Z.to_nat (i - 1)). assert (i' < length (fieldsOf sep line))%nat as Hi' by (unfold i'; lia).
  pose proof (fieldBounds_nth line sep i' Hi') as Hb. destruct (nth i' _ _) as [a b] eqn:Ea. destruct Hb as (_ & Hb & Hd & _). cbn [fst].
  assert (slice line (Z.of_nat a) (Z.of_nat (length line)) = Some (glue (gapOf sep) (drop i' (fieldsOf sep line)))) as Hall.
  { unfold slice. rewrite (proj2 (Z.ltb_ge _ 0)) by lia. rewrite Nat2Z.id, Hd, take_ge; [done|]. rewrite <- Hd, length_drop. lia. }
  destruct (Z.leb_spec (Z.of_nat (length line)) (Z.of_nat a)) as [Hend|Hend].
  { rewrite drop_ge in Hd by lia. f_equal. destruct (j =? 0); [done|]. symmetry. apply prefix_nil_inv. rewrite Hd. apply glue_take_prefix. }
  destruct (Z.eqb_spec j 0) as [->|Hj0]; [by rewrite Hall|]. cbn [orb]. destruct Hj as [|Hj]; [done|].
  destruct (Z.leb_spec (Z.of_nat (length (fieldsOf sep line))) (j - 1)) as [Hm|Hm].
  { rewrite Hall, take_ge; [done|]. rewrite length_drop. lia. }
  destruct (fieldBounds_between line sep i' (Z.to_nat (j - 1)) ltac:(lia)) as [Hab Hbt].
  pose proof (fieldBounds_nth line sep (Z.to_nat (j - 1)) ltac:(lia)) as Hbj.
  destruct (nth (Z.to_nat (j - 1)) _ _) as [aj bj]. destruct Hbj as (_ & Hbj & _ & _). rewrite Ea in Hab, Hbt. cbn [fst snd] in Hab, Hbt. cbv beta iota zeta.
  rewrite (proj2 (Z.ltb_ge _ (Z.of_nat bj))) by lia.
  replace (Z.to_nat (j - i + 1)) with (S (Z.to_nat (j - 1)) - i')%nat by lia. rewrite <- Hbt.
  destruct (Z.leb_spec (Z.of_nat bj) (Z.of_nat a)); [replace (bj - a)%nat with 0%nat by lia; done|].
  unfold slice. rewrite (proj2 (Z.ltb_ge _ 0)) by lia. rewrite Nat2Z.id. do 2 f_equal. lia.
Qed.

(** [-t : -k 2,3] of [a:b:c:d]. *)
Lemma sort_key_fields_witness :
  glue [":"%char] (fieldsOf (Some ":"%char) (lit "a:b:c:d")) = lit "a:b:c:d" /\
  extractKey (lit "a:b:c:d") (mkKey 2 0 3 0 noOpts false false false) (Some ":"%char) false false = Some (lit "b:c").
Proof. exact (sort_key_fields (lit "a:b:c:d") (Some ":"%char) 2 3 noOpts false false false ltac:(lia) ltac:(lia)). Defined.

(** Comparing returns for the keys that [parseKeyDef] accepts, as long as
    their character offsets are below 2^62; an offset near the largest integer
    makes the position of the key negative, and its slice panics. *)
Theorem sort_keys_safe g sep st (defs : list bytes) keys a b :
  parseKeys defs = inr keys -> Forall (fun k => startChar k <= 2 ^ 62) keys ->
  Z.of_nat (length a) <= 2 ^ 62 -> Z.of_nat (length b) <= 2 ^ 62 ->
  is_Some (compareLines g sep st keys a b) /\
  (exists k, parseKeyDef (lit "2.9223372036854775807") = inr k /\ extractKey (lit "aa b") k None false false = None).
Proof.
  intros Hp Hk Ha Hb. split; [|exists (mkKey 2 (2 ^ 63 - 1) 0 0 noOpts false false false); split; by vm_compute]. apply compareLines_some; [|done|done].
  revert keys Hp Hk. induction defs as [|d defs IH]; intros keys; cbn [parseKeys]; [intros [= <-] _; constructor|].
  destruct (parseKeyDef d) as [|k] eqn:Ek; [done|]. destruct (parseKeys defs) as [|ks]; [done|]. intros [= <-] Hk. inversion_clear Hk.
  constructor; [|by apply IH]. split; [|done]. by apply parseKeyDef_start in Ek.
Qed.

Lemma sort_keys_safe_witness :
  is_Some (compareLines noOpts None false [mkKey 2 0 0 0 noOpts false false false] (lit "x b") (lit "y a")) /\
  (exists k, parseKeyDef (lit "2.9223372036854775807") = inr k /\ extractKey (lit "aa b") k None false false = None).
Proof.
  apply (sort_keys_safe noOpts None false [lit "2"] [mkKey 2 0 0 0 noOpts false false false] (lit "x b") (lit "y a"));
    [by vm_compute|by repeat constructor|by vm_compute|by vm_compute].
Defined.

(** sort -c, while the context lasts, exits with 0 when the lines are in
    order, with -u strictly, and with 1 when they are not; so it accepts what
    sort prints. *)
Theorem sort_check_exact h c silent unique file ls w out : calm h -> sorts c unique ls out ->
  (let code := fst (checkSorted h c silent unique file ls w) in
   (code = 0 \/ code = 1) /\ (code = 0 <-> Sorted (inOrder c unique) ls)) /\
  fst (checkSorted h c silent unique file out w) = 0.
Proof.
  intros Hc [Hs _]. split; [by apply checkSorted_code|]. apply checkSorted_code; [done|].
  apply StronglySorted_Sorted. exact Hs.
Qed.

Lemma sort_check_exact_witness :
  (let code := fst (checkSorted demoHost compareBytes true false (lit "-") [lit "b"; lit "a"] (mkWorld [] 0)) in
   (code = 0 \/ code = 1) /\ (code = 0 <-> Sorted (inOrder compareBytes false) [lit "b"; lit "a"])) /\
  fst (checkSorted demoHost compareBytes true false (lit "-") [lit "a"; lit "b"] (mkWorld [] 0)) = 0.
Proof.
  apply (sort_check_exact demoHost compareBytes true false (lit "-") [lit "b"; lit "a"] (mkWorld [] 0) [lit "a"; lit "b"] demoHost_calm).
  exact (sortedOutput_sorts compareBytes compareBytes false [lit "b"; lit "a"] bytes_total (fun _ _ _ _ => eq_refl)).
Defined.
End SortOrder.
