(* ===== verification/Tr.v ===== *)
(** * tr (builtins/tr/tr.go)

    Expansion of sets, the checks on the operands, and the loop over the chunks of
    the input with its transforms.  The output depends only on the bytes of the
    input, and is that of a description without tables and states. *)

From S2P Require Import Prelude GoStd Utf8 LineFilters.
From stdpp Require Import base list strings.
From Stdlib Require Import ZArith Lia Ascii.

Module Tr.
Import GoStd Utf8 Filter.
#[local] Open Scope Z_scope.

Definition maxSetLen : Z := 2 ^ 20.

(** ** Errors *)

Inductive trError :=
| ClassInSet2
| EquivInSet2
| MissingEquiv (s : bytes)
| LongEquiv (s : bytes)
| FillInSet1
| FillOutside
| SecondFill
| BadRepeat
| BadRepeatCount (s : bytes)
| ReverseRange (a b : ascii)
| MissingClassName
| BadClass (s : bytes)
| Misaligned.

(** [trError.Error]. *)
Definition errorText (e : trError) : bytes :=
  match e with
  | ClassInSet2 => lit "when translating, the only character classes that may appear in" ++ [ch_nl] ++ lit "string2 are 'upper' and 'lower'"
  | EquivInSet2 => lit "[=c=] expressions may not appear in string2 when translating"
  | MissingEquiv s => lit "missing equivalence class character '" ++ s ++ lit "'"
  | LongEquiv s => s ++ lit ": equivalence class operand must be a single character"
  | FillInSet1 => lit "the [c*] repeat construct may not appear in string1"
  | FillOutside => lit "the [c*] construct may appear in string2 only when translating"
  | SecondFill => lit "only one [c*] repeat construct may appear in string2"
  | BadRepeat => lit "invalid repeat construct"
  | BadRepeatCount s => lit "invalid repeat count '" ++ s ++ lit "' in [c*n] construct"
  | ReverseRange a b => lit "range-endpoints of '" ++ [a] ++ lit "-" ++ [b] ++ lit "' are in reverse collating sequence order"
  | MissingClassName => lit "missing character class name '[::]'"
  | BadClass s => lit "invalid character class '" ++ s ++ lit "'"
  | Misaligned => lit "misaligned [:upper:] and/or [:lower:] construct"
  end.

(** ** Classes *)

(** The bytes from one code to another. *)
Definition byteRange (a b : Z) : bytes := map byteOf (seqZ a (b - a + 1)).

Definition buildCntrl : bytes := byteRange 0 31 ++ [byteOf 127].

Definition isAlnum (n : Z) : bool :=
  ((48 <=? n) && (n <=? 57)) || ((65 <=? n) && (n <=? 90)) || ((97 <=? n) && (n <=? 122)).

Definition buildPunct : bytes := filter (fun c => isAlnum (code c) = false) (byteRange 33 126).

Definition charClasses : list (bytes * bytes) :=
  [(lit "alnum", byteRange 48 57 ++ byteRange 65 90 ++ byteRange 97 122);
   (lit "alpha", byteRange 65 90 ++ byteRange 97 122);
   (lit "blank", map byteOf [9; 32]);
   (lit "cntrl", buildCntrl);
   (lit "digit", byteRange 48 57);
   (lit "graph", byteRange 33 126);
   (lit "lower", byteRange 97 122);
   (lit "print", byteRange 32 126);
   (lit "punct", buildPunct);
   (lit "space", map byteOf [9; 10; 11; 12; 13; 32]);
   (lit "upper", byteRange 65 90);
   (lit "xdigit", byteRange 48 57 ++ byteRange 65 70 ++ byteRange 97 102)].

Definition expandCharClass (name : bytes) : trError + bytes :=
  match name with
  | [] => inl MissingClassName
  | _ =>
      match find (fun cc => bytes_eqb (fst cc) name) charClasses with
      | Some cc => inr (snd cc)
      | None => inl (BadClass name)
      end
  end.

(** ** Escapes

    A byte, how many bytes it takes, and a warning.  The functions get the text
    from their position on. *)

Definition isOctal (c : ascii) : bool := (48 <=? code c) && (code c <=? 55).

Definition octalValue (s : bytes) : Z := foldl (fun n c => n * 8 + (code c - 48)) 0 s.

(** [parseOctal]; the text starts at the first digit. *)
Definition parseOctal (s : bytes) : ascii * nat * option bytes :=
  let count := Nat.min 3 (run_length isOctal s) in
  let val := octalValue (take count s) in
  if 255 <? val then
    let less := (count - 1)%nat in
    if (length s <=? less)%nat then (byteOf (val / 8), S less, None)
    else
      (byteOf (val / 8), S less,
       Some (lit "tr: warning: the ambiguous octal escape \" ++ take count s ++ lit " is being" ++ [ch_nl; ch_tab] ++
             lit "interpreted as the 2-byte sequence \0" ++ take less s ++ lit ", " ++ take 1 (drop less s) ++ [ch_nl]))
  else (byteOf val, S count, None).

(** The text starts with a backslash. *)
Definition parseBackslashEscapeSingle (s : bytes) : ascii * nat * option bytes :=
  match drop 1 s with
  | [] => (ch_bs, 1%nat, None)
  | c :: _ =>
      if (c =c "a")%go then (byteOf 7, 2%nat, None)
      else if (c =c "b")%go then (byteOf 8, 2%nat, None)
      else if (c =c "f")%go then (byteOf 12, 2%nat, None)
      else if (c =c "n")%go then (ch_nl, 2%nat, None)
      else if (c =c "r")%go then (byteOf 13, 2%nat, None)
      else if (c =c "t")%go then (ch_tab, 2%nat, None)
      else if (c =c "v")%go then (byteOf 11, 2%nat, None)
      else if Ascii.eqb c ch_bs then (ch_bs, 2%nat, None)
      else if isOctal c then parseOctal (drop 1 s)
      else (c, 2%nat, None)
  end.

(** A character of a set, escaped or not. *)
Definition readChar (s : bytes) : ascii * nat * option bytes :=
  match s with
  | c :: _ :: _ => if Ascii.eqb c ch_bs then parseBackslashEscapeSingle s else (c, 1%nat, None)
  | c :: [] => (c, 1%nat, None)
  | [] => (ch_bs, 1%nat, None)
  end.

(** ** Constructs in brackets *)

(** [findClosingBracket] from [start]: the next [delim] before a closing bracket. *)
Fixpoint closingFrom (delim : ascii) (start : nat) (s : bytes) : option nat :=
  match s with
  | c :: (d :: _) as t => if Ascii.eqb c delim && (d =c "]")%go then Some start else closingFrom delim (S start) t
  | _ => None
  end.

Definition findClosingBracket (s : bytes) (start : nat) (delim : ascii) : option nat := closingFrom delim start (drop start s).

(** [strconv.ParseInt(s, 8, 64)] of a text without a sign. *)
Definition ParseInt8 (s : bytes) : numError + Z :=
  match ParseUint 8 64 s with inl e => inl e | inr n => if 2 ^ 63 <=? n then inl ErrRange else inr n end.

Definition maxRepeat : Z := 2 ^ 20.

Inductive repeat :=
| NoRepeat
| Fill (ch : ascii) (advance : nat)
| Times (cs : bytes) (advance : nat)
| Wrong.

(** The place of the star, or none. *)
Definition repeatStar (s : bytes) : ascii * nat :=
  let ch := nth 1 s ch_bs in
  if Ascii.eqb ch ch_bs && (3 <? length s)%nat
  then let '(c, adv, _) := parseBackslashEscapeSingle (drop 1 s) in (c, S adv)
  else (ch, 2%nat).

Definition parseRepeat (s : bytes) : repeat :=
  if (length s <=? 2)%nat then NoRepeat
  else
    let '(ch, star) := repeatStar s in
    match drop star s with
    | c :: rest =>
        if negb (c =c "*")%go then NoRepeat
        else
          match IndexByte rest "]"%char with
          | None => NoRepeat
          | Some n =>
              let count := take n rest in
              let advance := (star + n + 2)%nat in
              match count with
              | [] => Fill ch advance
              | d :: more =>
                  if (d =c "-")%go then Wrong
                  else
                    match (if negb (bytes_eqb more []) && (d =c "0")%go then ParseInt8 count else ParseInt count) with
                    | inl _ => Wrong
                    | inr k =>
                        if k =? 0 then Fill ch advance
                        else if k <? 0 then Wrong
                        else Times (replicate (Z.to_nat (if maxRepeat <? k then maxRepeat else k)) ch) advance
                    end
              end
          end
    | [] => NoRepeat
    end.

(** [rptErrMsg]. *)
Definition repeatError (s : bytes) : trError :=
  if (length s <=? 2)%nat then BadRepeat
  else
    let rest := drop (S (snd (repeatStar s))) s in
    match IndexByte rest "]"%char with
    | Some (S n) => BadRepeatCount (take (S n) rest)
    | _ => BadRepeat
    end.

(** ** Tokens *)

(** What a token says about the end of the set: a class of this name, no class,
    or nothing. *)
Inductive mark := MClass (name : bytes) | MPlain | MKeep.

Inductive token :=
| TFail (e : trError)
| TChars (cs : bytes) (advance : nat) (m : mark)
| TFillTo (ch : ascii) (advance : nat).

Record expansion := mkExp { chars : bytes; classes : list nat; endsWithClass : bool; containsCharClass : bool }.

Definition isCase (name : bytes) : bool := str_in name ["upper"; "lower"]%string.

Section Expand.
Context (isSet2 : bool) (set1Len : Z) (translateSet2 : bool).

(** [:name:] *)
Definition classToken (s : bytes) : option token :=
  if (3 <? length s)%nat && Ascii.eqb (nth 1 s ch_bs) ":" then
    match findClosingBracket s 2 ":" with
    | None => None
    | Some stop =>
        let name := take (stop - 2) (drop 2 s) in
        Some (if translateSet2 && negb (isCase name) then TFail ClassInSet2
              else match expandCharClass name with inl e => TFail e | inr cs => TChars cs (stop + 2) (MClass name) end)
    end
  else None.

(** [=c=] *)
Definition equivToken (s : bytes) : option token :=
  if (3 <? length s)%nat && Ascii.eqb (nth 1 s ch_bs) "=" then
    match findClosingBracket s 2 "=" with
    | None => None
    | Some stop =>
        let eqChars := take (stop - 2) (drop 2 s) in
        Some (if translateSet2 then TFail EquivInSet2
              else
                match eqChars with
                | [] => TFail (MissingEquiv (take (stop + 2) s))
                | [c] => TChars [c] (stop + 2) MPlain
                | c :: _ :: _ =>
                    if Ascii.eqb c ch_bs then
                      let '(b, adv, _) := parseBackslashEscapeSingle eqChars in
                      if (adv =? length eqChars)%nat then TChars [b] (stop + 2) MPlain else TFail (LongEquiv eqChars)
                    else TFail (LongEquiv eqChars)
                end)
    end
  else None.

(** [c*n] and [c*] *)
Definition repeatToken (seenFill : bool) (s : bytes) : option token :=
  match parseRepeat s with
  | NoRepeat => None
  | Fill ch advance =>
      Some (if negb isSet2 then TFail FillInSet1
            else if negb translateSet2 then TFail FillOutside
            else if seenFill then TFail SecondFill
            else TFillTo ch advance)
  | Times cs advance => Some (TChars cs advance MPlain)
  | Wrong => Some (TFail (repeatError s))
  end.

(** A character or a range of them, with warnings. *)
Definition charToken (s : bytes) : list bytes * token :=
  if Ascii.eqb (nth 0 s ch_nl) ch_bs && (length s =? 1)%nat
  then ([lit "tr: warning: an unescaped backslash at end of string is not portable" ++ [ch_nl]], TChars [ch_bs] 1 MKeep)
  else
    let '(ch, adv, warn) := readChar s in
    if (S adv <? length s)%nat && Ascii.eqb (nth adv s ch_nl) "-" then
      let '(endCh, endAdv, warn') := readChar (drop (S adv) s) in
      (option_list warn ++ option_list warn',
       if code ch <=? code endCh then TChars (byteRange (code ch) (code endCh)) (S adv + endAdv) MPlain
       else TFail (ReverseRange ch endCh))
    else (option_list warn, TChars [ch] adv MPlain).

Definition nextToken (seenFill : bool) (s : bytes) : list bytes * token :=
  if Ascii.eqb (nth 0 s ch_nl) "[" && (1 <? length s)%nat then
    match classToken s with
    | Some t => ([], t)
    | None =>
        match equivToken s with
        | Some t => ([], t)
        | None =>
            match (if (2 <? length s)%nat then repeatToken seenFill s else None) with
            | Some t => ([], t)
            | None => charToken s
            end
        end
    end
  else charToken s.

Definition lenZ {A} (l : list A) : Z := Z.of_nat (length l).

(** What the loop gives when it stops: the warnings on the way. *)
Definition result : Type := list bytes * (trError + expansion).

(** The rest of the set after a fill, the characters before it and the rest
    being known. *)
Definition fillTo (ch : ascii) (acc : bytes) (cls : list nat) (has : bool) (tail : expansion) : expansion :=
  let needed := Z.min (Z.max (set1Len - (lenZ acc + lenZ (chars tail))) 0) (maxSetLen - lenZ acc) in
  let acc := acc ++ replicate (Z.to_nat needed) ch in
  mkExp (acc ++ chars tail) (cls ++ map (fun o => length acc + o)%nat (classes tail)) (endsWithClass tail) has.

(** [expandSetBytes] from a position on; every token takes a byte, so a fuel of
    the length is enough. *)
Fixpoint expandFuel (fuel : nat) (seenFill : bool) (s : bytes) (acc : bytes) (cls : list nat) (last has : bool) : option result :=
  match s, fuel with
  | [], _ => Some ([], inr (mkExp acc cls last has))
  | _, O => None
  | _, S fuel =>
      if maxSetLen <? lenZ acc
      then Some ([lit "tr: warning: set expansion exceeded 1048576 bytes, truncating" ++ [ch_nl]],
                 inr (mkExp (take (Z.to_nat maxSetLen) acc) cls false has))
      else
        let '(warns, t) := nextToken seenFill s in
        match
          match t with
          | TFail e => Some ([], inl e)
          | TChars cs adv m =>
              let cls := match m with MClass name => if isCase name then cls ++ [length acc] else cls | _ => cls end in
              let '(last, has) := match m with MClass _ => (true, true) | MPlain => (false, has) | MKeep => (last, has) end in
              expandFuel fuel seenFill (drop adv s) (acc ++ cs) cls last has
          | TFillTo ch adv =>
              match expandFuel fuel true (drop adv s) [] [] false false with
              | None => None
              | Some (ws, inl e) => Some (ws, inl e)
              | Some (ws, inr tail) => Some (ws, inr (fillTo ch acc cls has tail))
              end
          end
        with
        | None => None
        | Some (ws, r) => Some (warns ++ ws, r)
        end
  end.

Definition expandSet (s : bytes) : result := default ([], inl BadRepeat) (expandFuel (length s) false s [] [] false false).
End Expand.

(** ** Operands *)

Definition complementSet (set : bytes) : bytes := filter (fun c => c ∉ set) (byteRange 0 255).

(** Every class position of the second set is one of the first. *)
Definition validateCaseClassAlignment (set1Classes set2Classes : list nat) : option trError :=
  if forallb (fun o => bool_decide (o ∈ set1Classes)) set2Classes then None else Some Misaligned.

Definition mapsToSingleByte (set : bytes) : bool :=
  match set with [] => true | c :: set => forallb (fun d => Ascii.eqb d c) set end.

Record trFlags := mkFlags { fl_help : bool; fl_delete : bool; fl_squeeze : bool; fl_complement : bool; fl_truncateSet1 : bool }.

Inductive operandError :=
| MissingOperand | MissingAfterDs (s : bytes) | ExtraAfterD (s : bytes) | MissingAfter (s : bytes) | Extra (s : bytes)
| SetError (e : trError) | LongerThanClass | ComplementedClass | EmptySet2.

(** The texts; the escapes of SafeOperand are left out. *)
Definition operandText (e : operandError) : bytes :=
  match e with
  | MissingOperand => lit "missing operand"
  | MissingAfterDs s => lit "missing operand after '" ++ s ++ lit "'" ++ [ch_nl] ++ lit "Two strings must be given when both deleting and squeezing repeats."
  | ExtraAfterD s => lit "extra operand '" ++ s ++ lit "'" ++ [ch_nl] ++ lit "Only one string may be given when deleting without squeezing repeats."
  | MissingAfter s => lit "missing operand after '" ++ s ++ lit "'"
  | Extra s => lit "extra operand '" ++ s ++ lit "'"
  | SetError e => errorText e
  | LongerThanClass => lit "when translating with string1 longer than string2," ++ [ch_nl] ++ lit "the latter string must not end with a character class"
  | ComplementedClass => lit "when translating with complemented character classes," ++ [ch_nl] ++ lit "string2 must map all characters in the domain to one"
  | EmptySet2 => lit "when not truncating set1, string2 must be non-empty"
  end.

Inductive plan :=
| DeleteBytes (set1 : bytes)
| DeleteAndSqueeze (set1 set2 : bytes)
| SqueezeOnly (set1 : bytes)
| Translate (set1 set2 : bytes) (squeeze truncate : bool)
| Nothing.

(** The checks on the number of operands. *)
Definition checkOperands (fl : trFlags) (operands : list bytes) : option operandError :=
  match operands with
  | [] => Some MissingOperand
  | a :: rest =>
      if fl_delete fl && fl_squeeze fl && bool_decide (rest = []) then Some (MissingAfterDs a)
      else
        match rest with
        | [] => if negb (fl_delete fl) && negb (fl_squeeze fl) then Some (MissingAfter a) else None
        | b :: rest =>
            if fl_delete fl && negb (fl_squeeze fl) then Some (ExtraAfterD b)
            else match rest with [] => None | c :: _ => Some (Extra c) end
        end
  end.

(** The checks on the sets when translating. *)
Definition checkTranslation (fl : trFlags) (set1 : expansion) (set2 : expansion) : option operandError :=
  match (if fl_complement fl then None else validateCaseClassAlignment (classes set1) (classes set2)) with
  | Some e => Some (SetError e)
  | None =>
      if negb (fl_truncateSet1 fl) && (lenZ (chars set2) <? lenZ (chars set1)) && endsWithClass set2 then Some LongerThanClass
      else if fl_complement fl && containsCharClass set1 && (fl_truncateSet1 fl || negb (mapsToSingleByte (chars set2)))
      then Some ComplementedClass
      else None
  end.

(** The warnings, and what to do. *)
Definition makePlan (fl : trFlags) (operands : list bytes) : list bytes * (operandError + plan) :=
  match checkOperands fl operands with
  | Some e => ([], inl e)
  | None =>
      let set1Str := nth 0 operands [] in
      let set2Str := nth 1 operands [] in
      let two := (1 <? length operands)%nat in
      let '(warns, e1) := expandSet false 0 false set1Str in
      match e1 with
      | inl e => (warns, inl (SetError e))
      | inr e1 =>
          let set1 := if fl_complement fl then mkExp (complementSet (chars e1)) [] (endsWithClass e1) (containsCharClass e1) else e1 in
          let translateMode := negb (fl_delete fl) && two in
          let '(warns', e2) := if two then expandSet true (lenZ (chars set1)) translateMode set2Str else ([], inr (mkExp [] [] false false)) in
          (warns ++ warns',
           match e2 with
           | inl e => inl (SetError e)
           | inr set2 =>
               match (if translateMode then checkTranslation fl set1 set2 else None) with
               | Some e => inl e
               | None =>
                   if fl_delete fl then
                     inr (if fl_squeeze fl then DeleteAndSqueeze (chars set1) (chars set2) else DeleteBytes (chars set1))
                   else if fl_squeeze fl && negb two then inr (SqueezeOnly (chars set1))
                   else if two then
                     if negb (fl_truncateSet1 fl) && bytes_eqb set2Str [] && (0 <? lenZ (chars set1)) then inl EmptySet2
                     else inr (Translate (chars set1) (chars set2) (fl_squeeze fl) (fl_truncateSet1 fl))
                   else inr Nothing
               end
           end)
      end
  end.

(** ** The loop *)

(** A finite stream, read by read; the last read also gives the end of the
    stream or an error. *)
Inductive reader :=
| ReadMore (chunk : bytes) (r : reader)
| ReadLast (chunk : bytes) (e : option bytes).

(** A chunk gives output and a state; the state is the byte written last. *)
Definition chunkTransform : Type := option ascii -> bytes -> bytes * option ascii.

Definition inSet (set : bytes) (c : ascii) : bool := bool_decide (c ∈ set).

(** The body of the transforms: a byte that is kept, unless it is squeezed. *)
Fixpoint squeezeBytes (squeezed : ascii -> bool) (last : option ascii) (src : bytes) : bytes * option ascii :=
  match src with
  | [] => ([], last)
  | b :: src =>
      if squeezed b && bool_decide (last = Some b) then squeezeBytes squeezed last src
      else let '(out, last) := squeezeBytes squeezed (Some b) src in (b :: out, last)
  end.

Definition deleteBytes (set1 : bytes) : chunkTransform := fun last src => (filter (fun b => inSet set1 b = false) src, last).

Definition deleteAndSqueeze (set1 set2 : bytes) : chunkTransform := fun last src =>
  squeezeBytes (inSet set2) last (filter (fun b => inSet set1 b = false) src).

Definition squeezeOnly (set1 : bytes) : chunkTransform := squeezeBytes (inSet set1).

(** The table after the loop over the first set. *)
Definition tableOf (set1 set2 : bytes) : ascii -> ascii :=
  foldl (fun table p b => if Ascii.eqb b (fst p) then snd p else table b) id (zip set1 set2).

Definition padSet2 (set1 set2 : bytes) : bytes :=
  match last set2 with Some c => set2 ++ replicate (length set1 - length set2) c | None => set2 end.

Definition translate (set1 set2 : bytes) (squeeze truncate : bool) : chunkTransform :=
  let set1 := if truncate then take (length set2) set1 else set1 in
  let set2 := if truncate then set2 else padSet2 set1 set2 in
  let table := tableOf set1 set2 in
  fun last src => squeezeBytes (fun b => squeeze && inSet set2 b) last (map table src).

Definition transformOf (p : plan) : option chunkTransform :=
  match p with
  | DeleteBytes set1 => Some (deleteBytes set1)
  | DeleteAndSqueeze set1 set2 => Some (deleteAndSqueeze set1 set2)
  | SqueezeOnly set1 => Some (squeezeOnly set1)
  | Translate set1 set2 squeeze truncate => Some (translate set1 set2 squeeze truncate)
  | Nothing => None
  end.

Section Loop.
Context (h : host) (transform : chunkTransform).

(** The transform and write of one read. *)
Definition turn (last : option ascii) (chunk : bytes) : F (option ferr * option ascii) :=
  match chunk with
  | [] => mret (None, last)
  | _ =>
      let '(out, last) := transform last chunk in
      e ← match out with [] => mret None | _ => write h out end;
      mret (e, last)
  end.

Definition reportEnd (what : string) (e : ferr) : F Z :=
  errf (lit "tr: " ++ lit what ++ lit " error: " ++ PortableErr h e ++ [ch_nl]);; mret 1.

Fixpoint processLoop (last : option ascii) (r : reader) : F Z :=
  d ← done h;
  if d : bool then mret 0
  else
    match r with
    | ReadMore chunk r =>
        '(e, last) ← turn last chunk;
        match e with Some e => reportEnd "write" e | None => processLoop last r end
    | ReadLast chunk e' =>
        '(e, _) ← turn last chunk;
        match e with
        | Some e => reportEnd "write" e
        | None => match e' with Some e => reportEnd "read" (ERead e) | None => mret 0 end
        end
    end.
End Loop.

(** The plan on the standard input, which may be nil. *)
Definition process (h : host) (p : plan) (stdin : option reader) : F Z :=
  match transformOf p, stdin with
  | Some transform, Some r => processLoop h transform None r
  | _, _ => mret 0
  end.

Definition run (h : host) (fl : trFlags) (operands : list bytes) (stdin : option reader) : F Z :=
  if fl_help fl then emit EvUsage;; mret 0
  else
    let '(warns, p) := makePlan fl operands in
    (fix warn (ws : list bytes) : F unit := match ws with [] => mret tt | w :: ws => errf w;; warn ws end) warns;;
    match p with
    | inl e => errf (lit "tr: " ++ operandText e ++ [ch_nl]);; mret 1
    | inr p => process h p stdin
    end.

(** ** Expansion ends, within bounds *)

Definition setBound : Z := 3 * 2 ^ 20.

Lemma lenZ_app {A} (l l' : list A) : lenZ (l ++ l') = lenZ l + lenZ l'.
Proof. unfold lenZ. rewrite length_app. lia. Qed.

Lemma lenZ_byteRange a b : lenZ (byteRange a b) = Z.max 0 (b - a + 1).
Proof. unfold lenZ, byteRange. rewrite length_map, length_seqZ. lia. Qed.

Lemma expandCharClass_length name cs : expandCharClass name = inr cs -> lenZ cs <= 256.
Proof.
  unfold expandCharClass. destruct name as [|c name]; [done|]. destruct (find _ charClasses) as [cc|] eqn:E; [|done]. intros [= <-].
  apply find_some in E as [E _]. apply list_elem_of_In in E.
  assert (Forall (fun cc => lenZ (snd cc) <= 256) charClasses) as H by (unfold charClasses; repeat constructor; by vm_compute).
  rewrite Forall_forall in H. by apply H.
Qed.

Lemma parseBackslash_advance s : (1 <= snd (fst (parseBackslashEscapeSingle s)))%nat.
Proof.
  unfold parseBackslashEscapeSingle. destruct (drop 1 s) as [|c t]; [done|].
  repeat (destruct (Ascii.eqb c _); [cbn; lia|]). destruct (isOctal c); [|cbn; lia]. unfold parseOctal.
  destruct (255 <? _); [destruct (_ <=? _)%nat|]; cbn; lia.
Qed.

Lemma readChar_advance s : (1 <= snd (fst (readChar s)))%nat.
Proof.
  unfold readChar. destruct s as [|c [|d s]]; try (cbn; lia). destruct (Ascii.eqb c ch_bs); [apply parseBackslash_advance|cbn; lia].
Qed.

(** What the loop relies on: a token takes a byte, adds no more than a repeat, and
    there is only one fill. *)
Definition okToken (seenFill : bool) (t : token) : Prop :=
  match t with
  | TFail _ => True
  | TChars cs adv _ => (1 <= adv)%nat /\ lenZ cs <= maxRepeat
  | TFillTo _ adv => (1 <= adv)%nat /\ seenFill = false
  end.

Lemma code_range c : 0 <= code c < 256.
Proof. unfold code. pose proof (N_ascii_bounded c). lia. Qed.

Lemma charToken_ok seenFill s : okToken seenFill (snd (charToken s)).
Proof.
  unfold charToken. destruct (_ && (length s =? 1)%nat); [by cbn; split; [lia|vm_compute]|].
  pose proof (readChar_advance s) as Ha. destruct (readChar s) as [[ch adv] w]. cbn [fst snd] in Ha. destruct (_ && _).
  - destruct (readChar (drop (S adv) s)) as [[ch' adv'] w']. cbn [snd]. destruct (_ <=? _); [|done]. split; [lia|].
    rewrite lenZ_byteRange. pose proof (code_range ch). pose proof (code_range ch'). unfold maxRepeat. lia.
  - split; [done|by vm_compute].
Qed.

Section Bounds.
Context (isSet2 : bool) (set1Len : Z) (translateSet2 : bool).

Lemma classToken_ok seenFill s t : classToken translateSet2 s = Some t -> okToken seenFill t.
Proof.
  unfold classToken. destruct (_ && _); [|done]. destruct (findClosingBracket s 2 _) as [stop|]; [|done]. intros [= <-].
  destruct (_ && _); [done|]. destruct (expandCharClass _) as [|cs] eqn:E; [done|]. apply expandCharClass_length in E.
  split; [lia|unfold maxRepeat; lia].
Qed.

Lemma equivToken_ok seenFill s t : equivToken translateSet2 s = Some t -> okToken seenFill t.
Proof.
  unfold equivToken. destruct (_ && _); [|done]. destruct (findClosingBracket s 2 _) as [stop|]; [|done]. intros [= <-].
  destruct translateSet2; [done|]. destruct (take _ _) as [|c [|d l]]; [done|split; [lia|by vm_compute]|].
  destruct (Ascii.eqb c ch_bs); [|done]. destruct (parseBackslashEscapeSingle _) as [[b adv] w]. destruct (_ =? _)%nat; [|done].
  split; [lia|by vm_compute].
Qed.

Lemma parseRepeat_times s cs adv : parseRepeat s = Times cs adv -> (1 <= adv)%nat /\ lenZ cs <= maxRepeat.
Proof.
  unfold parseRepeat. destruct (_ <=? 2)%nat; [done|]. destruct (repeatStar s) as [ch star]. destruct (drop star s) as [|c rest]; [done|].
  destruct (negb _); [done|]. destruct (IndexByte rest _) as [n|]; [|done]. destruct (take n rest) as [|d more]; [done|].
  destruct (d =c "-")%go; [done|].
  destruct (if negb (bytes_eqb more []) && (d =c "0")%go then _ else _) as [|k]; [done|]. destruct (k =? 0); [done|]. destruct (k <? 0); [done|].
  intros [= <- <-]. split; [lia|]. unfold lenZ. rewrite length_replicate. destruct (Z.ltb_spec maxRepeat k); unfold maxRepeat in *; lia.
Qed.

Lemma parseRepeat_fill s ch adv : parseRepeat s = Fill ch adv -> (1 <= adv)%nat.
Proof.
  unfold parseRepeat. destruct (_ <=? 2)%nat; [done|]. destruct (repeatStar s) as [ch' star]. destruct (drop star s) as [|c rest]; [done|].
  destruct (negb _); [done|]. destruct (IndexByte rest _) as [n|]; [|done]. destruct (take n rest) as [|d more]; [intros [= <- <-]; lia|].
  destruct (d =c "-")%go; [done|].
  destruct (if negb (bytes_eqb more []) && (d =c "0")%go then _ else _) as [|k]; [done|].
  destruct (k =? 0); [intros [= <- <-]; lia|]. by destruct (k <? 0).
Qed.

Lemma repeatToken_ok seenFill s t : repeatToken isSet2 translateSet2 seenFill s = Some t -> okToken seenFill t.
Proof.
  unfold repeatToken. destruct (parseRepeat s) as [|ch adv|cs adv|] eqn:E; [done|..]; intros [= <-].
  - destruct (negb isSet2); [done|]. destruct (negb translateSet2); [done|]. destruct seenFill; [done|]. split; [|done].
    by eapply parseRepeat_fill.
  - by apply parseRepeat_times in E.
  - done.
Qed.

Lemma nextToken_ok seenFill s : okToken seenFill (snd (nextToken isSet2 translateSet2 seenFill s)).
Proof.
  unfold nextToken. destruct (_ && _); [|apply charToken_ok].
  destruct (classToken translateSet2 s) eqn:E1; [by eapply classToken_ok|]. destruct (equivToken translateSet2 s) eqn:E2; [by eapply equivToken_ok|].
  destruct (2 <? length s)%nat; [|apply charToken_ok]. destruct (repeatToken _ _ seenFill s) eqn:E3; [by eapply repeatToken_ok|apply charToken_ok].
Qed.

Lemma fillTo_length ch acc cls has tail : lenZ acc <= maxSetLen ->
  lenZ (chars (fillTo set1Len ch acc cls has tail)) <= maxSetLen + lenZ (chars tail).
Proof.
  intros Ha. unfold fillTo. cbn [chars]. rewrite !lenZ_app. unfold lenZ at 2. rewrite length_replicate. unfold maxSetLen in *. lia.
Qed.

Lemma expandFuel_bound fuel seenFill s acc cls last has :
  (length s <= fuel)%nat -> lenZ acc <= maxSetLen + maxRepeat ->
  exists ws r, expandFuel isSet2 set1Len translateSet2 fuel seenFill s acc cls last has = Some (ws, r) /\
    forall e, r = inr e -> lenZ (chars e) <= if seenFill then maxSetLen + maxRepeat else setBound.
Proof.
  assert (maxSetLen + maxRepeat <= setBound) as Hb by (by vm_compute).
  revert seenFill s acc cls last has. induction fuel as [|fuel IH]; intros seenFill s acc cls last has Hf Ha; destruct s as [|c s]; cbn [length] in Hf; try lia; cbn [expandFuel].
  1-2: do 2 eexists; (split; [done|]); intros e [= <-]; cbn [chars]; destruct seenFill; lia.
  destruct (Z.ltb_spec maxSetLen (lenZ acc)) as [Hl|Hl].
  { do 2 eexists. split; [done|]. intros e [= <-]. cbn [chars]. unfold lenZ in *. rewrite length_take.
    unfold maxSetLen, maxRepeat, setBound in *. destruct seenFill; lia. }
  pose proof (nextToken_ok seenFill (c :: s)) as Ht. destruct (nextToken _ _ seenFill (c :: s)) as [warns t]. cbn [snd] in Ht.
  assert (forall adv, (1 <= adv)%nat -> (length (drop adv (c :: s)) <= fuel)%nat) as Hd by (intros; rewrite length_drop; cbn [length]; lia).
  destruct t as [e|cs adv m|ch adv]; cbn [okToken] in Ht.
  - do 2 eexists. split; [done|]. by intros.
  - destruct Ht as [Hadv Hcs]. destruct (match m with MClass _ => (true, true) | MPlain => (false, has) | MKeep => (last, has) end) as [last' has'].
    destruct (IH seenFill (drop adv (c :: s)) (acc ++ cs) (match m with MClass name => if isCase name then cls ++ [length acc] else cls | _ => cls end) last' has' (Hd _ Hadv))
      as (ws & r & E & Hr); [rewrite lenZ_app; lia|]. rewrite E. do 2 eexists. by split.
  - destruct Ht as [Hadv ->]. destruct (IH true (drop adv (c :: s)) [] [] false false (Hd _ Hadv)) as (ws & r & E & Hr); [by vm_compute|]. rewrite E.
    destruct r as [e|tail]; do 2 eexists; (split; [done|]); [by intros|]. intros e [= <-].
    pose proof (fillTo_length ch acc cls has tail Hl). specialize (Hr tail eq_refl). unfold setBound, maxSetLen, maxRepeat in *. lia.
Qed.
End Bounds.

(** *** Every byte string is a set *)

Definition octalDigit (n : Z) : ascii := byteOf (48 + n).

(** A backslash and three octal digits for every byte. *)
Definition escapeByte (c : ascii) : bytes := [ch_bs; octalDigit (code c / 64); octalDigit (code c / 8 mod 8); octalDigit (code c mod 8)].
Definition escapeSet (s : bytes) : bytes := mjoin (map escapeByte s).

Lemma escapeSet_length s : length (escapeSet s) = (4 * length s)%nat.
Proof.
  induction s as [|c s IH]; [done|]. change (escapeSet (c :: s)) with (escapeByte c ++ escapeSet s). rewrite length_app, IH. cbn [length escapeByte]. lia.
Qed.

Lemma escape_readChar c rest : readChar (escapeByte c ++ rest) = (c, 4%nat, None).
Proof. destruct c as [[] [] [] [] [] [] [] []]; vm_compute; reflexivity. Qed.

Lemma escape_token isSet2 translateSet2 seenFill c s :
  nextToken isSet2 translateSet2 seenFill (escapeByte c ++ escapeSet s) = ([], TChars [c] 4 MPlain).
Proof.
  unfold nextToken. change (nth 0 (escapeByte c ++ escapeSet s) ch_nl) with ch_bs. change (Ascii.eqb ch_bs "[") with false. cbn [andb].
  unfold charToken. change (nth 0 (escapeByte c ++ escapeSet s) ch_nl) with ch_bs. rewrite Ascii.eqb_refl.
  change (length (escapeByte c ++ escapeSet s) =? 1)%nat with false. cbn [andb]. rewrite escape_readChar.
  change (nth 4 (escapeByte c ++ escapeSet s) ch_nl) with (nth 0 (escapeSet s) ch_nl).
  assert (Ascii.eqb (nth 0 (escapeSet s) ch_nl) "-" = false) as -> by (by destruct s). rewrite andb_false_r. done.
Qed.

Lemma escape_expand isSet2 n translateSet2 fuel s acc last : (4 * length s <= fuel)%nat -> lenZ acc + lenZ s <= maxSetLen ->
  expandFuel isSet2 n translateSet2 fuel false (escapeSet s) acc [] last false =
    Some ([], inr (mkExp (acc ++ s) [] (match s with [] => last | _ => false end) false)).
Proof.
  revert fuel acc last. induction s as [|c s IH]; intros fuel acc last Hf Hl.
  { rewrite app_nil_r. by destruct fuel. }
  destruct fuel as [|fuel]; [cbn in Hf; lia|]. change (escapeSet (c :: s)) with (escapeByte c ++ escapeSet s).
  change (c :: s) with ([c] ++ s) in Hl |- *. rewrite lenZ_app in Hl. change (lenZ [c]) with 1 in Hl. assert (0 <= lenZ s) by (unfold lenZ; lia).
  cbn [expandFuel]. change (escapeByte c ++ escapeSet s) with (ch_bs :: drop 1 (escapeByte c ++ escapeSet s)) at 1. cbv beta iota.
  rewrite (proj2 (Z.ltb_ge _ _)) by lia. rewrite escape_token. change (drop 4 (escapeByte c ++ escapeSet s)) with (escapeSet s).
  rewrite IH; [|cbn in Hf; lia|rewrite lenZ_app; change (lenZ [c]) with 1; lia]. rewrite <- app_assoc. by destruct s.
Qed.

(** ** What tr writes *)

(** Maximal runs of equal bytes. *)
Fixpoint runs (s : bytes) : list bytes :=
  match s with
  | [] => []
  | b :: s =>
      match runs s with
      | (c :: r) :: rs => if Ascii.eqb b c then (b :: c :: r) :: rs else [b] :: (c :: r) :: rs
      | rs => [b] :: rs
      end
  end.

(** One byte of each run of a byte that is squeezed. *)
Definition squeezeRun (squeezed : ascii -> bool) (r : bytes) : bytes :=
  match r with b :: _ => if squeezed b then [b] else r | [] => [] end.

Definition squeezeText (squeezed : ascii -> bool) (s : bytes) : bytes := mjoin (map (squeezeRun squeezed) (runs s)).

(** The place of the last occurrence. *)
Fixpoint lastIndex (b : ascii) (s : bytes) : option nat :=
  match s with
  | [] => None
  | c :: s => match lastIndex b s with Some i => Some (S i) | None => if Ascii.eqb b c then Some 0%nat else None end
  end.

(** A byte becomes the byte at its last place in the first set, or the last one
    when the second set is shorter. *)
Definition image (set1 set2 : bytes) (b : ascii) : ascii :=
  match lastIndex b set1 with Some i => nth (Nat.min i (length set2 - 1)) set2 b | None => b end.

Definition planText (p : plan) (input : bytes) : bytes :=
  match p with
  | DeleteBytes set1 => filter (fun b => b ∉ set1) input
  | DeleteAndSqueeze set1 set2 => squeezeText (inSet set2) (filter (fun b => b ∉ set1) input)
  | SqueezeOnly set1 => squeezeText (inSet set1) input
  | Translate set1 set2 squeeze truncate =>
      let set1 := if truncate then take (length set2) set1 else set1 in
      let output := map (image set1 set2) input in
      if squeeze then squeezeText (inSet set2) output else output
  | Nothing => []
  end.

Fixpoint contents (r : reader) : bytes := match r with ReadMore chunk r => chunk ++ contents r | ReadLast chunk _ => chunk end.
Fixpoint ending (r : reader) : option bytes := match r with ReadMore _ r => ending r | ReadLast _ e => e end.

(** *** Squeezing *)

Lemma squeezeBytes_app squeezed last s t :
  squeezeBytes squeezed last (s ++ t) =
  let '(out, last) := squeezeBytes squeezed last s in
  let '(out', last) := squeezeBytes squeezed last t in (out ++ out', last).
Proof.
  revert last. induction s as [|b s IH]; intros last; cbn [app squeezeBytes]; [by destruct (squeezeBytes squeezed last t)|].
  destruct (_ && _); [apply IH|]. rewrite IH. destruct (squeezeBytes squeezed (Some b) s) as [out l]. by destruct (squeezeBytes squeezed l t).
Qed.

Lemma runs_cons b s : exists r rs, runs (b :: s) = (b :: r) :: rs.
Proof.
  cbn [runs]. destruct (runs s) as [|[|c r] rs]; [by do 2 eexists..|]. by destruct (Ascii.eqb b c); do 2 eexists.
Qed.

(** After a byte, the rest of its run is dropped if it is squeezed. *)
Lemma squeezeBytes_after squeezed b s :
  b :: fst (squeezeBytes squeezed (Some b) s) = squeezeText squeezed (b :: s).
Proof.
  revert b. induction s as [|c s IH]; intros b.
  { unfold squeezeText. cbn. by destruct (squeezed b). }
  assert (squeezeText squeezed (b :: c :: s) =
    if Ascii.eqb b c && squeezed b then squeezeText squeezed (c :: s) else b :: squeezeText squeezed (c :: s)) as ->.
  { unfold squeezeText. destruct (runs_cons c s) as (r & rs & E).
    change (runs (b :: c :: s)) with (match runs (c :: s) with (c :: r) :: rs => if Ascii.eqb b c then (b :: c :: r) :: rs else [b] :: (c :: r) :: rs | rs => [b] :: rs end).
    rewrite E. destruct (Ascii.eqb_spec b c) as [->|]; cbn; [by destruct (squeezed c)|by destruct (squeezed b)]. }
  cbn [squeezeBytes]. destruct (Ascii.eqb_spec b c) as [->|Hne].
  - rewrite bool_decide_true, andb_true_r by done. cbn [andb]. destruct (squeezed c) eqn:Es; [apply IH|].
    rewrite <- IH. by destruct (squeezeBytes squeezed (Some c) s).
  - rewrite (bool_decide_false (Some b = Some c)) by congruence. rewrite andb_false_r. cbn [andb]. rewrite <- IH.
    by destruct (squeezeBytes squeezed (Some c) s).
Qed.

Lemma squeezeBytes_text squeezed s : fst (squeezeBytes squeezed None s) = squeezeText squeezed s.
Proof.
  destruct s as [|b s]; [done|]. rewrite <- squeezeBytes_after. cbn [squeezeBytes]. rewrite bool_decide_false by done. rewrite andb_false_r.
  by destruct (squeezeBytes squeezed (Some b) s).
Qed.

Lemma squeezeText_none s : squeezeText (fun _ => false) s = s.
Proof.
  unfold squeezeText. assert (map (squeezeRun (fun _ => false)) (runs s) = runs s) as ->.
  { induction (runs s) as [|r rs IH]; [done|]. cbn. rewrite IH. by destruct r. }
  induction s as [|b s IH]; [done|]. transitivity (b :: mjoin (runs s)); [|by rewrite IH]. clear IH.
  cbn [runs]. destruct (runs s) as [|[|c r] rs]; try done. by destruct (Ascii.eqb b c).
Qed.

Lemma squeezeText_ext f g s : (forall b, b ∈ s -> f b = g b) -> squeezeText f s = squeezeText g s.
Proof.
  intros H. rewrite <- !squeezeBytes_text. f_equal. generalize (@None ascii). induction s as [|b s IH]; intros l; cbn; [done|].
  rewrite (H b ltac:(left)). rewrite !IH by (intros; apply H; by right). done.
Qed.

(** *** Translating *)

Lemma tableOf_image set1 set2 b : tableOf set1 set2 b = match lastIndex b (take (length set2) set1) with Some i => nth i set2 b | None => b end.
Proof.
  unfold tableOf. assert (forall f, foldl (fun table p b => if Ascii.eqb b (fst p) then snd p else table b) f (zip set1 set2) b =
    match lastIndex b (take (length set2) set1) with Some i => nth i set2 b | None => f b end) as H; [|apply H].
  revert set2. induction set1 as [|c set1 IH]; intros set2 f; [by rewrite take_nil|]. destruct set2 as [|d set2]; [done|].
  cbn [zip zip_with foldl length take lastIndex]. change (zip_with pair set1 set2) with (zip set1 set2). rewrite IH.
  destruct (lastIndex b (take (length set2) set1)); [done|]. cbn [fst snd]. by destruct (Ascii.eqb b c).
Qed.

Lemma lastIndex_lt b s i : lastIndex b s = Some i -> (i < length s)%nat.
Proof.
  revert i. induction s as [|c s IH]; intros i; cbn; [done|]. destruct (lastIndex b s) as [j|]; [|destruct (Ascii.eqb b c); [|done]]; intros [= <-].
  - specialize (IH j eq_refl). lia.
  - lia.
Qed.

Lemma padSet2_nth set1 set2 i b : (i < length set1)%nat -> set2 <> [] -> nth i (padSet2 set1 set2) b = nth (Nat.min i (length set2 - 1)) set2 b.
Proof.
  intros Hi Hne. unfold padSet2. destruct (last set2) as [c|] eqn:E; [|by apply last_None in E].
  apply last_Some in E as [l ->]. rewrite !length_app. cbn [length]. destruct (decide (i < length l + 1)%nat) as [Hlt|Hge].
  - rewrite app_nth1 by (rewrite length_app; cbn; lia). f_equal. lia.
  - rewrite app_nth2 by (rewrite length_app; cbn; lia). rewrite nth_indep with (d' := c) by (rewrite length_replicate, length_app; cbn; lia).
    replace (Nat.min i _) with (length l) by lia. rewrite app_nth2, Nat.sub_diag by lia. cbn.
    generalize (i - length (l ++ [c]))%nat (length set1 - (length l + 1))%nat. intros m n. revert m. induction n as [|n IH]; intros [|m]; cbn; done.
Qed.

Lemma padSet2_length set1 set2 : set2 <> [] -> (length set1 <= length (padSet2 set1 set2))%nat.
Proof.
  intros Hne. unfold padSet2. destruct (last set2) eqn:E; [|by apply last_None in E]. rewrite length_app, length_replicate. lia.
Qed.

Lemma inSet_padSet2 set1 set2 b : inSet (padSet2 set1 set2) b = inSet set2 b.
Proof.
  unfold inSet, padSet2. destruct (last set2) as [c|] eqn:E; [|done]. apply last_Some in E as [l ->]. apply bool_decide_ext.
  rewrite !elem_of_app, list_elem_of_singleton. split; [|by left]. intros [?|Hr]; [done|]. apply elem_of_replicate in Hr as [-> _]. by right.
Qed.

Lemma table_padded set1 set2 b : tableOf set1 (padSet2 set1 set2) b = image set1 set2 b.
Proof.
  rewrite tableOf_image. unfold image. destruct set2 as [|d set2].
  { cbn. destruct (lastIndex b set1) as [[|i]|]; done. }
  rewrite take_ge by (by apply padSet2_length). destruct (lastIndex b set1) as [i|] eqn:E; [|done]. apply lastIndex_lt in E.
  by apply padSet2_nth.
Qed.

Lemma table_truncated set1 set2 b : tableOf (take (length set2) set1) set2 b = image (take (length set2) set1) set2 b.
Proof.
  rewrite tableOf_image, take_ge by (rewrite length_take; lia). unfold image. destruct (lastIndex b _) as [i|] eqn:E; [|done].
  apply lastIndex_lt in E. rewrite length_take in E. f_equal. lia.
Qed.

(** *** Chunks *)

(** A transform that does not see where chunks end. *)
Definition seamless (t : chunkTransform) : Prop :=
  (forall l, t l [] = ([], l)) /\
  forall l s s', t l (s ++ s') = let '(o, l) := t l s in let '(o', l) := t l s' in (o ++ o', l).

Lemma seamless_squeeze squeezed (f : bytes -> bytes) : f [] = [] -> (forall s s', f (s ++ s') = f s ++ f s') ->
  seamless (fun l s => squeezeBytes squeezed l (f s)).
Proof. intros H0 Hf. split; [intros l; by rewrite H0|]. intros l s s'. by rewrite Hf, squeezeBytes_app. Qed.

Lemma transformOf_seamless p t : transformOf p = Some t -> seamless t.
Proof.
  destruct p as [set1|set1 set2|set1|set1 set2 sq tr|]; intros [= <-].
  - split; [done|]. intros l s s'. unfold deleteBytes. by rewrite filter_app.
  - apply (seamless_squeeze _ (filter (fun b => inSet set1 b = false))); [done|]. intros. apply filter_app.
  - by apply (seamless_squeeze _ id).
  - apply (seamless_squeeze _ (map _)); [done|]. intros. apply map_app.
Qed.

Lemma filter_inSet set (s : bytes) : filter (fun b => inSet set b = false) s = filter (fun b => b ∉ set) s.
Proof. apply list_filter_iff. intros b. unfold inSet. by rewrite bool_decide_eq_false. Qed.

(** A transform on the whole input. *)
Lemma transformOf_text p t s : transformOf p = Some t -> fst (t None s) = planText p s.
Proof.
  destruct p as [set1|set1 set2|set1|set1 set2 sq tr|]; intros [= <-]; cbn [planText].
  - apply filter_inSet.
  - unfold deleteAndSqueeze. by rewrite squeezeBytes_text, filter_inSet.
  - apply squeezeBytes_text.
  - unfold translate. rewrite squeezeBytes_text.
    set (set1' := if tr then take (length set2) set1 else set1).
    assert (map (tableOf set1' (if tr then set2 else padSet2 set1' set2)) s = map (image set1' set2) s) as ->.
    { apply map_ext. intros b. unfold set1'. destruct tr; [apply table_truncated|apply table_padded]. }
    destruct sq; [|apply squeezeText_none]. apply squeezeText_ext. intros b _. destruct tr; [done|apply inSet_padSet2].
Qed.

(** What a computation writes to the standard output, whatever it reports. *)
Definition emits {A} (m : F A) (p : bytes) (a : A) : Prop :=
  forall w, exists es, m w = (a, mkWorld (events w ++ es) (polls (snd (m w)))) /\ stdout es = p.

Lemma emits_prints {A} (m : F A) p a : prints m p a -> emits m p a.
Proof. intros Hm w. destruct (Hm w) as (es & E & Hp & _). by exists es. Qed.

Lemma emits_eq {A} (m : F A) p q a : emits m p a -> p = q -> emits m q a.
Proof. by intros H <-. Qed.

Lemma emits_bind {A B} (m : F A) (f : A -> F B) p q a b : emits m p a -> emits (f a) q b -> emits (m ≫= f) (p ++ q) b.
Proof.
  intros Hm Hf w. destruct (Hm w) as (es & E & Hp). unfold mbind, F_bind. rewrite E. cbn [events polls snd].
  destruct (Hf (mkWorld (events w ++ es) (polls (snd (m w))))) as (es' & E' & Hq). cbn [events] in E'. rewrite E'.
  exists (es ++ es'). cbn [snd polls]. rewrite app_assoc. split; [done|]. by rewrite stdout_app, Hp, Hq.
Qed.

Section Output.
Context (h : host) (Hc : calm h).

Lemma emits_turn t l chunk : seamless t -> emits (turn h t l chunk) (fst (t l chunk)) (None, snd (t l chunk)).
Proof.
  intros Ht. apply emits_prints. destruct chunk as [|c chunk]; cbn [turn]; [rewrite (proj1 Ht); apply prints_ret|].
  destruct (t l (c :: chunk)) as [o l']. cbn [fst snd]. apply (prints_eq _ (o ++ [])); [|apply app_nil_r].
  apply (prints_bind _ _ o [] None); [|apply prints_ret]. destruct o; [apply prints_ret|by apply prints_write].
Qed.

Lemma emits_loop t l r : seamless t ->
  emits (processLoop h t l r) (fst (t l (contents r))) (match ending r with None => 0 | Some _ => 1 end).
Proof.
  intros Ht. revert l. induction r as [chunk r IH|chunk e]; intros l; cbn [processLoop contents ending].
  - apply (emits_bind _ _ [] _ false); [by apply emits_prints, prints_done|]. cbv beta iota. rewrite (proj2 Ht).
    pose proof (emits_turn t l chunk Ht) as Hturn. destruct (t l chunk) as [o l'].
    specialize (IH l'). destruct (t l' (contents r)) as [o' l'']. by apply (emits_bind _ _ _ _ (None, l')).
  - apply (emits_bind _ _ [] _ false); [by apply emits_prints, prints_done|]. cbv beta iota.
    apply (emits_eq _ (fst (t l chunk) ++ [])); [|apply app_nil_r].
    refine (emits_bind _ _ (fst (t l chunk)) [] (None, snd (t l chunk)) _ (emits_turn t l chunk Ht) _). cbv beta iota.
    destruct e as [e|]; [|by apply emits_prints, prints_ret].
    intros w. by exists [EvErr (lit "tr: " ++ lit "read" ++ lit " error: " ++ PortableErr h (ERead e) ++ [ch_nl])].
Qed.
End Output.

(** ** The theorems *)

(** Expanding a set ends within as many turns as it has bytes, whatever
    escapes, ranges, classes and repeats it has, and gives at most 3 MiB; and
    every list of bytes up to 1 MiB is the expansion of a set, the one that
    escapes each of them as three octal digits. *)
Theorem tr_sets_bounded isSet2 set1Len translateSet2 s :
  (exists ws r, expandFuel isSet2 set1Len translateSet2 (length s) false s [] [] false false = Some (ws, r) /\
     expandSet isSet2 set1Len translateSet2 s = (ws, r) /\
     forall e, r = inr e -> lenZ (chars e) <= setBound) /\
  (lenZ s <= maxSetLen -> expandSet isSet2 set1Len translateSet2 (escapeSet s) = ([], inr (mkExp s [] false false))).
Proof.
  split.
  - destruct (expandFuel_bound isSet2 set1Len translateSet2 (length s) false s [] [] false false) as (ws & r & E & Hr); [done|by vm_compute|].
    exists ws, r. unfold expandSet. by rewrite E.
  - intros Hs. unfold expandSet. rewrite escape_expand; [by destruct s| |by change (lenZ []) with 0].
    rewrite escapeSet_length. lia.
Qed.

Lemma tr_sets_bounded_witness :
  expandSet true 5 true (escapeSet (lit "a-[")) = ([], inr (mkExp (lit "a-[") [] false false)).
Proof. apply (tr_sets_bounded true 5 true (lit "a-[")). by vm_compute. Defined.

(** C35. While the context lasts and writes are taken, tr writes a function of
    the bytes of its input, however the reads cut it: with -d the bytes that are
    not in the first set, with -s one byte of every run of a byte in the last
    set, and otherwise the image of each byte, that at its last place in the first
    set, the second one continued by its last byte.  It exits with 0, or with 1
    when reading fails. *)
Theorem tr_output_exact h p r : calm h -> p <> Nothing ->
  emits (process h p (Some r)) (planText p (contents r)) (match ending r with None => 0 | Some _ => 1 end).
Proof.
  intros Hc Hp. unfold process. destruct (transformOf p) as [t|] eqn:E; [|by destruct p].
  rewrite <- (transformOf_text p t) by done. apply emits_loop; [done|by eapply transformOf_seamless].
Qed.

(** [tr -s a-c x[y*]] on an input of two reads. *)
Lemma tr_output_exact_witness :
  makePlan (mkFlags false false true false false) [lit "a-c"; lit "x[y*]"] = ([], inr (Translate (lit "abc") (lit "xyy") true false)) /\
  emits (process Cut.quiet (Translate (lit "abc") (lit "xyy") true false) (Some (ReadMore (lit "aab") (ReadLast (lit "cdda") None))))
    (lit "xyddx") 0.
Proof.
  split; [by vm_compute|].
  exact (tr_output_exact Cut.quiet (Translate (lit "abc") (lit "xyy") true false) (ReadMore (lit "aab") (ReadLast (lit "cdda") None))
    Cut.quiet_calm ltac:(done)).
Defined.

(** A set that ends in a backslash after a class counts as ending with the class. *)
Example backslash_after_class :
  let '(_, r) := makePlan (mkFlags false false false false false) [lit "[:upper:]12"; lit "[:lower:]\"] in
  r = inl LongerThanClass.
Proof. vm_compute. reflexivity. Qed.
End Tr.
