(* ===== verification/FileCmds.v ===== *)
(** * Commands that change files (builtins/rm, truncate, logrotate, tee,
    internal/sizeparse; SafeOperand of builtins/builtins.go)

    The handlers over the callbacks of the call context, every call of which is an
    event.  The interpreter's side of the callbacks is in [InterpCall]. *)

From S2P Require Import Prelude GoStd Filepath Utf8.
From stdpp Require Import base list strings.
From Stdlib Require Import ZArith Lia Ascii.

Module FileCmds.
Import GoStd Utf8.
#[local] Open Scope Z_scope.

(** ** Operands in messages *)

(** [unicode.In(r, unicode.Zl, unicode.Zp, unicode.Cf)] is a parameter. *)
Section Escape.
Context (inFormat : Z -> bool).

Definition isControl (r : Z) : bool := ((0 <=? r) && (r <? 32)) || ((127 <=? r) && (r <? 160)).

Definition hexChar (d : Z) : ascii := byteOf (if d <? 10 then 48 + d else 87 + d).

Fixpoint hexFuel (fuel : nat) (r : Z) : bytes :=
  match fuel with
  | O => []
  | S fuel => (if r <? 16 then [] else hexFuel fuel (r / 16)) ++ [hexChar (r mod 16)]
  end.

(** [%0*x] of a rune, which has at most six digits. *)
Definition hexText (width : nat) (r : Z) : bytes := let s := hexFuel 6 r in replicate (width - length s) "0"%char ++ s.

Definition escapeRune (escapeBackslash : bool) (r : Z) : bytes :=
  if (r =? 92) && escapeBackslash then [ch_bs; ch_bs]
  else if r =? 10 then ch_bs :: lit "n"
  else if r =? 13 then ch_bs :: lit "r"
  else if r =? 9 then ch_bs :: lit "t"
  else if isControl r || inFormat r then
    if 255 <? r then ch_bs :: lit "u" ++ hexText 4 r else ch_bs :: lit "x" ++ hexText 2 r
  else EncodeRune r.

Definition escapeUnsafeRunes (s : bytes) (escapeBackslash : bool) : bytes :=
  mjoin (map (fun ch => escapeRune escapeBackslash (fst (DecodeRune ch))) (runes s)).

Definition SafeOperand (s : bytes) : bytes := escapeUnsafeRunes s true.
Definition SafeMessage (s : bytes) : bytes := escapeUnsafeRunes s false.

(** A byte that no terminal or log reader takes for a control character. *)
Definition plainByte (c : ascii) : Prop := 32 <= code c /\ code c <> 127.

Lemma byteOf_plain z : 32 <= z < 256 -> z <> 127 -> plainByte (byteOf z).
Proof. intros Hz Hne. unfold plainByte. rewrite code_byteOf by lia. lia. Qed.

Lemma hexFuel_plain fuel r : Forall plainByte (hexFuel fuel r).
Proof.
  revert r. induction fuel as [|fuel IH]; intros r; cbn [hexFuel]; [constructor|]. apply Forall_app. split; [destruct (r <? 16); [constructor|apply IH]|].
  constructor; [|constructor]. pose proof (Z.mod_pos_bound r 16 ltac:(lia)). unfold hexChar.
  destruct (Z.ltb_spec (r mod 16) 10); apply byteOf_plain; lia.
Qed.

Lemma hexText_plain width r : Forall plainByte (hexText width r).
Proof.
  unfold hexText. apply Forall_app. split; [|apply hexFuel_plain]. apply Forall_replicate. by vm_compute.
Qed.

Lemma EncodeRune_plain r : isControl r = false -> Forall plainByte (EncodeRune r).
Proof.
  unfold isControl, EncodeRune. intros Hr. apply orb_false_iff in Hr as [H1 H2]. apply andb_false_iff in H1, H2. rewrite ?Z.leb_gt, ?Z.ltb_ge in H1, H2.
  assert (exists r', (if validRune r then r else RuneError) = r' /\ (32 <= r' < 127 \/ 160 <= r' <= 1114111)) as (r' & -> & H').
  { destruct (validRune r) eqn:E; [|exists RuneError; split; [done|right; unfold RuneError; lia]]. apply validRune_range in E. exists r. split; [done|lia]. }
  clear H1 H2. unfold encodeValid. pose proof (Z.mod_pos_bound r' 64 ltac:(lia)). pose proof (Z.mod_pos_bound (r' / 64) 64 ltac:(lia)).
  pose proof (Z.mod_pos_bound (r' / 4096) 64 ltac:(lia)).
  destruct (Z.ltb_spec r' 128); [repeat constructor; rewrite code_byteOf; lia|].
  assert (0 <= r' / 64 /\ (r' < 2048 -> r' / 64 < 32)) as [? ?] by (split; [apply Z.div_pos; lia|intros; apply Z.div_lt_upper_bound; lia]).
  assert (0 <= r' / 4096 /\ (r' < 65536 -> r' / 4096 < 16)) as [? ?] by (split; [apply Z.div_pos; lia|intros; apply Z.div_lt_upper_bound; lia]).
  assert (0 <= r' / 262144 < 5) by (split; [apply Z.div_pos; lia|apply Z.div_lt_upper_bound; lia]).
  destruct (Z.ltb_spec r' 2048); [|destruct (Z.ltb_spec r' 65536)]; repeat constructor; rewrite code_byteOf; lia.
Qed.

Lemma escapeRune_plain b r : Forall plainByte (escapeRune b r).
Proof.
  unfold escapeRune. destruct (_ && b); [by repeat constructor|]. destruct (r =? 10); [by repeat constructor|]. destruct (r =? 13); [by repeat constructor|].
  destruct (r =? 9); [by repeat constructor|]. destruct (isControl r) eqn:E; cbn [orb].
  2: destruct (inFormat r); [|by apply EncodeRune_plain].
  all: destruct (255 <? r); (constructor; [done|]); apply Forall_app; (split; [by repeat constructor|apply hexText_plain]).
Qed.

Lemma escape_plain s b : Forall plainByte (escapeUnsafeRunes s b).
Proof. unfold escapeUnsafeRunes. induction (runes s) as [|ch chs IH]; cbn; [constructor|]. apply Forall_app. split; [apply escapeRune_plain|done]. Qed.
End Escape.

(** ** Sizes *)

Inductive sizeError := ErrInvalid | ErrRelative.

Definition multipliers : list (bytes * Z) :=
  [(lit "", 1);
   (lit "K", 2 ^ 10); (lit "k", 2 ^ 10); (lit "KiB", 2 ^ 10); (lit "kiB", 2 ^ 10); (lit "KB", 1000); (lit "kB", 1000);
   (lit "M", 2 ^ 20); (lit "m", 2 ^ 20); (lit "MiB", 2 ^ 20); (lit "miB", 2 ^ 20); (lit "MB", 1000 ^ 2); (lit "mB", 1000 ^ 2);
   (lit "G", 2 ^ 30); (lit "g", 2 ^ 30); (lit "GiB", 2 ^ 30); (lit "giB", 2 ^ 30); (lit "GB", 1000 ^ 3); (lit "gB", 1000 ^ 3);
   (lit "T", 2 ^ 40); (lit "t", 2 ^ 40); (lit "TiB", 2 ^ 40); (lit "tiB", 2 ^ 40); (lit "TB", 1000 ^ 4); (lit "tB", 1000 ^ 4);
   (lit "P", 2 ^ 50); (lit "PiB", 2 ^ 50); (lit "PB", 1000 ^ 5);
   (lit "E", 2 ^ 60); (lit "EiB", 2 ^ 60); (lit "EB", 1000 ^ 6)].

Definition multiplier (suffix : bytes) : option Z := snd <$> find (fun m => bytes_eqb (fst m) suffix) multipliers.

Definition isDigit (c : ascii) : bool := (48 <=? code c) && (code c <=? 57).

(** [sizeparse.Parse]. *)
Definition Parse (s : bytes) : sizeError + Z :=
  match s with
  | [] => inl ErrInvalid
  | c :: _ =>
      if str_in [c] ["+"; "-"; "<"; ">"; "/"; "%"]%string then inl ErrRelative
      else
        let i := run_length isDigit s in
        if (i =? 0)%nat then inl ErrInvalid
        else
          match multiplier (drop i s) with
          | None => inl ErrInvalid
          | Some mult =>
              match ParseInt (take i s) with
              | inl _ => inl ErrInvalid
              | inr n =>
                  if mult =? 1 then inr n
                  else if maxInt64 / mult <? n then inl ErrInvalid
                  else inr (n * mult)
              end
          end
  end.

(** ** The call context *)

Inductive ferr := ENotExist (e : bytes) | EBudget | EBrokenPipe | ENotRegular | EOther (e : bytes).

Record fileInfo := mkInfo { IsDir : bool; isSymlink : bool; isRegular : bool }.

Inductive event :=
| EvOut (p : bytes) | EvErr (p : bytes) | EvUsage
| EvLstat (path : bytes) | EvStat (path : bytes)
| EvRemove (path : bytes) (ok : bool)
| EvTruncate (path : bytes) (size : Z) (create : bool)
| EvRotate (path : bytes) (threshold : Z) (dryRun : bool)
| EvOpen (path : bytes) (append ok : bool)
| EvWrite (dest : nat) (p : bytes) (e : option ferr)
| EvClose (dest : nat).

(** A finite stream, read by read. *)
Inductive reader := ReadMore (chunk : bytes) (r : reader) | ReadLast (chunk : bytes) (e : option bytes).

(** Callbacks are functions of the events before the call; [None] is a nil one.
    [AllowedPathsList] tells for every root whether it is writable. *)
Record host := mkHost {
  ctxDone : nat -> bool;
  RemediationMode : bool;
  AllowedPathsList : option (list bool);
  LstatFile : list event -> bytes -> ferr + fileInfo;
  StatFile : list event -> bytes -> ferr + fileInfo;
  statWired : bool;
  Remove : option (list event -> bytes -> option ferr);
  Truncate : option (list event -> bytes -> Z -> bool -> option ferr);
  TruncateToZeroIfAtLeast : option (list event -> bytes -> Z -> bool -> Z * bool * option ferr);
  OpenFile : option (list event -> bytes -> bool -> option ferr);
  writeErr : list event -> nat -> option ferr;
  closeErr : list event -> nat -> option ferr;
  Stdin : option reader;
  PortableErr : ferr -> bytes;
  Quote : bytes -> bytes;         (* %q *)
  inFormat : Z -> bool }.

Record world := mkWorld { events : list event; polls : nat }.

Definition F (A : Type) : Type := world -> A * world.

#[export] Instance F_ret : MRet F := fun _ a w => (a, w).
#[export] Instance F_bind : MBind F := fun _ _ f m w => let '(a, w) := m w in f a w.

Definition emit (e : event) : F unit := fun w => (tt, mkWorld (events w ++ [e]) (polls w)).

(** A call whose answer depends on the events before it. *)
Definition call {A} (f : list event -> A) (e : A -> event) : F A := fun w =>
  let a := f (events w) in (a, mkWorld (events w ++ [e a]) (polls w)).

Definition succeeds {E} (e : option E) : bool := match e with None => true | Some _ => false end.

Section Commands.
Context (h : host).

Definition done : F bool := fun w => (ctxDone h (polls w), mkWorld (events w) (S (polls w))).
Definition errf (p : bytes) : F unit := emit (EvErr p).
Definition outf (p : bytes) : F unit := emit (EvOut p).

Definition safe (s : bytes) : bytes := SafeOperand (inFormat h) s.

Definition hasWritableRoot : bool := existsb id (default [] (AllowedPathsList h)).

(** *** rm *)

Definition MaxRemoveFiles : nat := 10.

(** On Unix. *)
Definition hasTrailingDirSyntax (path : bytes) : bool :=
  match last path with
  | None => false
  | Some c => (c =c "/")%go || (let base := Filepath.Base path in (base =s ".") || (base =s ".."))
  end.

Definition cannotRemove (path why : bytes) : F unit := errf (lit "rm: cannot remove '" ++ safe path ++ lit "': " ++ why ++ [ch_nl]).

(** The call of Remove and what follows. *)
Definition removeCall (remove : list event -> bytes -> option ferr) (path : bytes) (verbose : bool) : F (option ferr) :=
  e ← call (fun es => remove es path) (fun e => EvRemove path (succeeds e));
  match e with
  | Some EBudget =>
      errf (lit "rm: refusing to remove '" ++ safe path ++ lit "': run-wide budget of 100 file removals is exhausted; the limit is shared across all commands, loops, and subshells in one script run" ++ [ch_nl]);;
      mret (Some EBudget)
  | Some e => cannotRemove path (PortableErr h e);; mret (Some e)
  | None => (if verbose then outf (lit "removed '" ++ path ++ lit "'" ++ [ch_nl]) else mret tt);; mret None
  end.

Definition isDirectory (i : ferr + fileInfo) : bool := match i with inr i => IsDir i && negb (isSymlink i) | inl _ => false end.

Definition removeFile (remove : list event -> bytes -> option ferr) (path : bytes) (verbose : bool) : F (option ferr) :=
  info ← call (fun es => LstatFile h es path) (fun _ => EvLstat path);
  if isDirectory info then cannotRemove path (lit "Is a directory");; mret (Some (EOther (lit "is a directory")))
  else if hasTrailingDirSyntax path then
    target ← call (fun es => StatFile h es path) (fun _ => EvStat path);
    match target with
    | inr i =>
        if IsDir i then cannotRemove path (lit "Is a directory");; mret (Some (EOther (lit "is a directory")))
        else cannotRemove path (lit "Not a directory");; mret (Some (EOther (lit "not a directory")))
    | inl e => cannotRemove path (PortableErr h e);; mret (Some e)
    end
  else removeCall remove path verbose.

Fixpoint removeFiles (remove : list event -> bytes -> option ferr) (verbose : bool) (files : list bytes) (failed : bool) : F Z :=
  match files with
  | [] => mret (if failed then 1 else 0)
  | file :: files =>
      d ← done;
      if d : bool then mret 1
      else
        e ← removeFile remove file verbose;
        match e with
        | None => removeFiles remove verbose files failed
        | Some EBudget => mret 1
        | Some _ => removeFiles remove verbose files true
        end
  end.

Definition refuse (p : bytes) : F Z := errf p;; mret 1.

Definition readOnlyMessage (name : bytes) : bytes := name ++ lit ": filesystem capability not available (remediation mode required)" ++ [ch_nl].
Definition noWritableRootHint (name : bytes) : bytes :=
  name ++ lit ": no writable path is configured (remediation mode requires an AllowedPaths entry with :rw)" ++ [ch_nl].

Definition rm (help verbose : bool) (files : list bytes) : F Z :=
  if negb (RemediationMode h) then refuse (readOnlyMessage (lit "rm"))
  else
    match Remove h with
    | None => refuse (noWritableRootHint (lit "rm"))
    | Some remove =>
        if negb hasWritableRoot then refuse (noWritableRootHint (lit "rm"))
        else if help then emit EvUsage;; mret 0
        else
          match files with
          | [] => refuse (lit "rm: missing operand" ++ [ch_nl])
          | _ =>
              if (MaxRemoveFiles <? length files)%nat
              then refuse (lit "rm: refusing to remove " ++ FormatInt (Z.of_nat (length files)) ++ lit " files: exceeds the 10-file limit per invocation" ++ [ch_nl])
              else removeFiles remove verbose files false
          end
    end.

(** *** truncate *)

Definition badSize (name s : bytes) (e : sizeError) : F Z :=
  refuse (name ++ lit ": invalid size " ++ Quote h s ++
          match e with ErrRelative => lit ": relative size operators not supported" | ErrInvalid => [] end ++ [ch_nl]).

Fixpoint truncateFiles (truncate : list event -> bytes -> Z -> bool -> option ferr) (size : Z) (noCreate : bool)
    (files : list bytes) (failed : bool) : F Z :=
  match files with
  | [] => mret (if failed then 1 else 0)
  | file :: files =>
      d ← done;
      if d : bool then mret 1
      else
        e ← call (fun es => truncate es file size (negb noCreate)) (fun _ => EvTruncate file size (negb noCreate));
        match e with
        | None => truncateFiles truncate size noCreate files failed
        | Some e =>
            if noCreate && match e with ENotExist _ => true | _ => false end then truncateFiles truncate size noCreate files failed
            else errf (lit "truncate: " ++ Quote h file ++ lit ": " ++ PortableErr h e ++ [ch_nl]);; truncateFiles truncate size noCreate files true
        end
  end.

(** [size] is the value of --size, if it was given. *)
Definition truncate (help noCreate : bool) (size : option bytes) (files : list bytes) : F Z :=
  if negb (RemediationMode h) then refuse (readOnlyMessage (lit "truncate"))
  else
    match Truncate h with
    | None => refuse (noWritableRootHint (lit "truncate"))
    | Some f =>
        if negb hasWritableRoot then refuse (noWritableRootHint (lit "truncate"))
        else if help then emit EvUsage;; mret 0
        else
          match size with
          | None => refuse (lit "truncate: you must specify --size" ++ [ch_nl])
          | Some s =>
              match Parse s with
              | inl e => badSize (lit "truncate") s e
              | inr n => match files with [] => refuse (lit "truncate: missing file operand" ++ [ch_nl]) | _ => truncateFiles f n noCreate files false end
              end
          end
    end.

(** *** logrotate *)

(** The line about a file that was looked at. *)
Definition rotateReport (file : bytes) (threshold sizeBefore : Z) (truncated dryRun : bool) : bytes :=
  lit "logrotate: " ++ file ++
  (if negb truncated then
     if (sizeBefore =? 0) && (threshold =? 0) then lit ": already empty, skipping"
     else if dryRun then lit ": would skip, " ++ FormatInt sizeBefore ++ lit " bytes below threshold " ++ FormatInt threshold
     else lit ": " ++ FormatInt sizeBefore ++ lit " bytes below threshold " ++ FormatInt threshold ++ lit ", skipping"
   else if dryRun then lit ": would truncate " ++ FormatInt sizeBefore ++ lit " bytes"
   else lit ": truncated " ++ FormatInt sizeBefore ++ lit " bytes") ++ [ch_nl].

Fixpoint rotateFiles (rotate : list event -> bytes -> Z -> bool -> Z * bool * option ferr) (threshold : Z) (dryRun report : bool)
    (files : list bytes) (failed : bool) : F Z :=
  match files with
  | [] => mret (if failed then 1 else 0)
  | file :: files =>
      d ← done;
      if d : bool then mret 1
      else
        a ← call (fun es => rotate es file threshold dryRun) (fun _ => EvRotate file threshold dryRun);
        let '(sizeBefore, truncated, e) := a in
        match e with
        | Some e => errf (lit "logrotate: " ++ Quote h file ++ lit ": " ++ PortableErr h e ++ [ch_nl]);; rotateFiles rotate threshold dryRun report files true
        | None =>
            (if report then outf (rotateReport file threshold sizeBefore truncated dryRun) else mret tt);;
            rotateFiles rotate threshold dryRun report files failed
        end
  end.

Definition logrotate (help force dryRun verbose : bool) (size : option bytes) (files : list bytes) : F Z :=
  match TruncateToZeroIfAtLeast h with
  | None => refuse ((if RemediationMode h then noWritableRootHint else readOnlyMessage) (lit "logrotate"))
  | Some f =>
      if help then emit EvUsage;; mret 0
      else
        match size, force with
        | None, false => refuse (lit "logrotate: you must specify --size or --force" ++ [ch_nl])
        | Some _, true => refuse (lit "logrotate: --size and --force cannot be combined" ++ [ch_nl])
        | _, _ =>
            match (match size with None => inr 0 | Some s => Parse s end) with
            | inl e => badSize (lit "logrotate") (default [] size) e
            | inr threshold =>
                match files with
                | [] => refuse (lit "logrotate: missing file operand" ++ [ch_nl])
                | _ => rotateFiles f threshold dryRun (verbose || dryRun) files false
                end
            end
        end
  end.

(** *** tee *)

Definition MaxFileOperands : nat := 64.

(** Number 0 is the standard output. *)
Record dest := mkDest { id : nat; name : bytes; live : bool }.

Definition safeErr (e : ferr) : bytes := SafeMessage (inFormat h) (PortableErr h e).

Definition rejectNonRegularTarget (path : bytes) : F (option ferr) :=
  info ← call (fun es => StatFile h es path) (fun _ => EvStat path);
  mret (match info with inl _ => None | inr i => if isRegular i then None else Some ENotRegular end).

(** Opening the files from number [n] on; [None] when the context is done. *)
Fixpoint openDests (openFile : list event -> bytes -> bool -> option ferr) (append : bool) (n : nat) (files : list bytes) : F (list dest * option bool) :=
  match files with
  | [] => mret ([], Some false)
  | file :: files =>
      d ← done;
      if d : bool then mret ([], None)
      else
        let failure (e : ferr) : F (list dest * option bool) :=
          errf (lit "tee: '" ++ safe file ++ lit "': " ++ safeErr e ++ [ch_nl]);;
          '(ds, failed) ← openDests openFile append n files;
          mret (ds, (fun _ => true) <$> failed) in
        e ← rejectNonRegularTarget file;
        match e with
        | Some e => failure e
        | None =>
            e ← call (fun es => openFile es file append) (fun e => EvOpen file append (succeeds e));
            match e with
            | Some e => failure e
            | None => '(ds, failed) ← openDests openFile append (S n) files; mret (mkDest n (safe file) true :: ds, failed)
            end
        end
  end.

(** A chunk to every live destination: the destinations after it, whether a pipe
    broke, and whether a write failed. *)
Fixpoint writeAll (chunk : bytes) (ds : list dest) : F (list dest * bool * bool) :=
  match ds with
  | [] => mret ([], false, false)
  | d :: ds =>
      if negb (live d) then '(ds, broken, failed) ← writeAll chunk ds; mret (d :: ds, broken, failed)
      else
        e ← call (fun es => writeErr h es (id d)) (fun e => EvWrite (id d) chunk e);
        match e with
        | None => '(ds, broken, failed) ← writeAll chunk ds; mret (d :: ds, broken, failed)
        | Some EBrokenPipe => mret (d :: ds, true, false)
        | Some e =>
            errf (lit "tee: " ++ name d ++ lit ": " ++ safeErr e ++ [ch_nl]);;
            '(ds, broken, failed) ← writeAll chunk ds;
            mret (mkDest (id d) (name d) false :: ds, broken, true)
        end
  end.

(** A read: the destinations, whether to stop, and whether something failed. *)
Definition copyChunk (chunk : bytes) (ds : list dest) : F (list dest * bool * bool) :=
  match chunk with
  | [] => mret (ds, false, false)
  | _ => '(ds, broken, failed) ← writeAll chunk ds; mret (ds, broken || negb (existsb live ds), failed)
  end.

(** The result is whether the copy failed. *)
Fixpoint copyToAll (r : reader) (ds : list dest) (anyFailed : bool) : F bool :=
  d ← done;
  if d : bool then mret true
  else
    match r with
    | ReadMore chunk r =>
        '(ds, stop, failed) ← copyChunk chunk ds;
        let anyFailed := anyFailed || failed in
        if stop : bool then mret anyFailed else copyToAll r ds anyFailed
    | ReadLast chunk e =>
        '(_, stop, failed) ← copyChunk chunk ds;
        let anyFailed := anyFailed || failed in
        if stop : bool then mret anyFailed
        else
          match e with
          | None => mret anyFailed
          | Some e => errf (lit "tee: read error: " ++ safeErr (EOther e) ++ [ch_nl]);; mret true
          end
    end.

(** Closing the files; did all succeed? *)
Fixpoint closeAllDests (ds : list dest) : F bool :=
  match ds with
  | [] => mret true
  | d :: ds =>
      if (id d =? 0)%nat then closeAllDests ds
      else
        e ← call (fun es => closeErr h es (id d)) (fun _ => EvClose (id d));
        match e with
        | None => closeAllDests ds
        | Some e => errf (lit "tee: " ++ name d ++ lit ": " ++ safeErr e ++ [ch_nl]);; _ ← closeAllDests ds; mret false
        end
  end.

(** The deferred closes, last one first; their errors are ignored. *)
Fixpoint deferredCloses (ds : list dest) : F unit :=
  match ds with
  | [] => mret tt
  | d :: ds => deferredCloses ds;; emit (EvClose (id d))
  end.

Definition tee (help append : bool) (files : list bytes) : F Z :=
  if negb (RemediationMode h) then refuse (readOnlyMessage (lit "tee"))
  else
    match OpenFile h with
    | None => refuse (noWritableRootHint (lit "tee"))
    | Some openFile =>
        if negb (statWired h) || negb hasWritableRoot then refuse (noWritableRootHint (lit "tee"))
        else if help then emit EvUsage;; mret 0
        else if (MaxFileOperands <? length files)%nat
        then refuse (lit "tee: too many operands (maximum 64)" ++ [ch_nl])
        else
          '(opened, failed) ← openDests openFile append 1 files;
          code ← match failed with
                 | None => mret 1
                 | Some failed =>
                     let ds := mkDest 0 (lit "standard output") true :: opened in
                     copyFailed ← match Stdin h with None => mret false | Some r => copyToAll r ds false end;
                     closed ← closeAllDests ds;
                     mret (if failed || copyFailed || negb closed then 1 else 0)
                 end;
          deferredCloses opened;;
          mret code
    end.
End Commands.

(** ** What a command does

    [m ⊳ P]: [m] appends events [es] to those before it, and [P] relates these,
    [es] and the result. *)

Definition spec {A} (m : F A) (P : list event -> list event -> A -> Prop) : Prop :=
  forall w, exists es, events (snd (m w)) = events w ++ es /\ P (events w) es (fst (m w)).

Lemma spec_mono {A} (m : F A) (P Q : list event -> list event -> A -> Prop) :
  spec m P -> (forall past es a, P past es a -> Q past es a) -> spec m Q.
Proof. intros Hm HPQ w. destruct (Hm w) as (es & E & HP). exists es. auto. Qed.

Lemma spec_ret {A} (a : A) (P : list event -> list event -> A -> Prop) : (forall past, P past [] a) -> spec (mret a) P.
Proof. intros HP w. exists []. cbn. by rewrite app_nil_r. Qed.

(** The rest may rely on what is known of the first result. *)
Lemma spec_then {A B} (m : F A) (f : A -> F B) P (Q : A -> list event -> list event -> B -> Prop) R :
  spec m P -> (forall past es a, P past es a -> spec (f a) (Q a)) ->
  (forall past es a es' b, P past es a -> Q a (past ++ es) es' b -> R past (es ++ es') b) -> spec (m ≫= f) R.
Proof.
  intros Hm Hf HR w. unfold mbind, F_bind. destruct (Hm w) as (es & E & HP). destruct (m w) as [a w1]. cbn [fst snd] in *.
  destruct (Hf _ _ a HP w1) as (es' & E' & HQ). rewrite E in E', HQ. exists (es ++ es'). rewrite app_assoc. eauto.
Qed.

Lemma spec_bind {A B} (m : F A) (f : A -> F B) P (Q : A -> list event -> list event -> B -> Prop) R :
  spec m P -> (forall a, spec (f a) (Q a)) ->
  (forall past es a es' b, P past es a -> Q a (past ++ es) es' b -> R past (es ++ es') b) -> spec (m ≫= f) R.
Proof. intros Hm Hf. by apply (spec_then m f P Q R Hm). Qed.

Lemma spec_done h : spec (done h) (fun _ es _ => es = []).
Proof. intros w. exists []. cbn. by rewrite app_nil_r. Qed.

Lemma spec_emit e : spec (emit e) (fun _ es _ => es = [e]).
Proof. intros w. by exists [e]. Qed.

Lemma spec_call {A} (f : list event -> A) e : spec (call f e) (fun past es a => a = f past /\ es = [e a]).
Proof. intros w. by exists [e (f (events w))]. Qed.

(** After the poll of a loop. *)
Lemma spec_poll {B} h (f : bool -> F B) (R : list event -> list event -> B -> Prop) : (forall d, spec (f d) R) -> spec (d ← done h; f d) R.
Proof. intros Hf. eapply spec_bind; [apply spec_done|exact Hf|]. intros past es d es' b -> H. by rewrite app_nil_r in H. Qed.

(** *** rm *)

Definition removals (es : list event) : list (bytes * bool) :=
  omap (fun e => match e with EvRemove p ok => Some (p, ok) | _ => None end) es.

Lemma removals_app es es' : removals (es ++ es') = removals es ++ removals es'.
Proof. apply omap_app. Qed.

Section Rm.
Context (h : host) (remove : list event -> bytes -> option ferr) (verbose : bool).

(** Right before every removal the path was looked at, and was no directory. *)
Definition guarded (past es : list event) : Prop :=
  forall i p ok, es !! i = Some (EvRemove p ok) ->
    exists j, i = S j /\ es !! j = Some (EvLstat p) /\ isDirectory (LstatFile h (past ++ take j es) p) = false /\ hasTrailingDirSyntax p = false.

Lemma rm_guarded_app past es es' : guarded past es -> guarded (past ++ es) es' -> guarded past (es ++ es').
Proof.
  intros H H' i p ok Hi. destruct (decide (i < length es)%nat) as [Hlt|Hge].
  - rewrite lookup_app_l in Hi by done. destruct (H i p ok Hi) as (j & -> & Hj & Hd & Ht). exists j. split; [done|].
    rewrite lookup_app_l by lia. split; [done|]. rewrite take_app_le by lia. done.
  - rewrite lookup_app_r in Hi by lia. destruct (H' _ p ok Hi) as (j & Ej & Hj & Hd & Ht). exists (length es + j)%nat. split; [lia|].
    split; [rewrite lookup_app_r by lia; by replace (length es + j - length es)%nat with j by lia|].
    rewrite take_app_ge by lia. replace (length es + j - length es)%nat with j by lia. by rewrite app_assoc.
Qed.

Lemma guarded_none past es : removals es = [] -> guarded past es.
Proof.
  intros H i p ok Hi. exfalso. apply list_elem_of_lookup_2 in Hi. assert ((p, ok) ∈ removals es) as Hin by (apply list_elem_of_omap; by eexists).
  rewrite H in Hin. by apply elem_of_nil in Hin.
Qed.

(** One operand: refused, or removed after the look. *)
Definition removesOne (p : bytes) (past es : list event) (r : option ferr) : Prop :=
  guarded past es /\ ((removals es = [] /\ r <> None) \/ removals es = [(p, succeeds r)]).

Lemma spec_removeCall p :
  spec (removeCall h remove p verbose) (fun _ es r => exists rest, es = EvRemove p (succeeds r) :: rest /\ removals rest = []).
Proof.
  unfold removeCall. eapply (spec_bind _ _ _ (fun e _ es r => succeeds e = succeeds r /\ removals es = [])); [apply spec_call| |].
  - intros e. destruct e as [e|].
    + destruct e; (eapply (spec_bind _ _ _ (fun _ _ es r => es = [] /\ succeeds r = false)); [apply spec_emit|intros; by apply spec_ret|]); by intros past es a es' b -> [-> ->].
    + eapply (spec_bind _ _ (fun _ es _ => removals es = []) (fun _ _ es r => es = [] /\ r = None)); [|intros; by apply spec_ret|].
      * destruct verbose; [|by apply spec_ret]. eapply spec_mono; [apply spec_emit|]. by intros past es a ->.
      * intros past es a es' b He [-> ->]. by rewrite app_nil_r.
  - intros past es a es' b [_ ->] [Hs Hr]. exists es'. by rewrite <- Hs.
Qed.

Lemma spec_removeFile p : spec (removeFile h remove p verbose) (removesOne p).
Proof.
  assert (forall q (e : ferr), spec (cannotRemove h p q;; mret (Some e)) (fun _ es r => removals es = [] /\ r <> None)) as Hrefuse.
  { intros q e. unfold cannotRemove. eapply (spec_bind _ _ _ (fun _ _ es r => es = [] /\ r = Some e)); [apply spec_emit|intros; by apply spec_ret|].
    by intros past es a es' b -> [-> ->]. }
  unfold removeFile. eapply (spec_bind _ _ _ (fun info past es r =>
    (removals es = [] /\ r <> None) \/
    (isDirectory info = false /\ hasTrailingDirSyntax p = false /\ exists rest, es = EvRemove p (succeeds r) :: rest /\ removals rest = []))); [apply spec_call| |].
  - intros info. destruct (isDirectory info) eqn:Ed; [eapply spec_mono; [apply Hrefuse|]; by left|]. destruct (hasTrailingDirSyntax p) eqn:Et.
    + eapply (spec_bind _ _ _ (fun _ _ es r => removals es = [] /\ r <> None)); [apply spec_call| |].
      * intros [e|i]; [apply Hrefuse|]. destruct (IsDir i); apply Hrefuse.
      * intros past es a es' b [_ ->] Hb. by left.
    + eapply spec_mono; [apply spec_removeCall|]. intros past es r Hr. right. by split.
  - intros past es info es' r [-> ->] [[Hes Hr]|(Hd & Ht & rest & -> & Hrest)]; split.
    + by apply guarded_none.
    + by left.
    + intros [|[|i]] q ok Hi; [done| |].
      * injection Hi as <- <-. exists 0%nat. cbn. by rewrite app_nil_r.
      * exfalso. cbn in Hi. apply list_elem_of_lookup_2 in Hi.
        assert ((q, ok) ∈ removals rest) as Hin by (apply list_elem_of_omap; by eexists). rewrite Hrest in Hin. by apply elem_of_nil in Hin.
    + right. change (removals _) with ((p, succeeds r) :: removals rest). by rewrite Hrest.
Qed.

Lemma spec_removeFiles files failed :
  spec (removeFiles h remove verbose files failed) (fun past es code =>
    guarded past es /\ map fst (removals es) `sublist_of` files /\
    (code = 0 \/ code = 1) /\ (code = 0 -> failed = false /\ removals es = map (fun f => (f, true)) files)).
Proof.
  revert failed. induction files as [|file files IH]; intros failed; cbn [removeFiles].
  { apply spec_ret. intros past. split; [by apply guarded_none|]. split; [constructor|]. destruct failed; split; [by right|done|by left|done]. }
  apply spec_poll. intros d. destruct d.
  { apply spec_ret. intros past. split; [by apply guarded_none|]. split; [apply sublist_nil_l|]. by split; [right|]. }
  eapply (spec_bind _ _ _ (fun e past es code =>
    guarded past es /\ map fst (removals es) `sublist_of` files /\ (code = 0 \/ code = 1) /\
    (code = 0 -> e = None /\ failed = false /\ removals es = map (fun f => (f, true)) files))); [apply spec_removeFile| |].
  - intros e. destruct e as [e|].
    + assert (spec (mret 1 : F Z) (fun past es code => guarded past es /\ map fst (removals es) `sublist_of` files /\ (code = 0 \/ code = 1) /\
        (code = 0 -> Some e = None /\ failed = false /\ removals es = map (fun f => (f, true)) files))) as Hstop.
      { apply spec_ret. intros past. split; [by apply guarded_none|]. split; [apply sublist_nil_l|]. by split; [right|]. }
      assert (spec (removeFiles h remove verbose files true) (fun past es code => guarded past es /\ map fst (removals es) `sublist_of` files /\ (code = 0 \/ code = 1) /\
        (code = 0 -> Some e = None /\ failed = false /\ removals es = map (fun f => (f, true)) files))) as Hgo.
      { eapply spec_mono; [apply IH|]. intros past es code (H1 & H2 & H3 & H4). do 3 (split; [done|]). intros Hc. by destruct (H4 Hc). }
      by destruct e.
    + eapply spec_mono; [apply IH|]. intros past es code (H1 & H2 & H3 & H4). do 3 (split; [done|]). intros Hc. by destruct (H4 Hc).
  - intros past es e es' code [Hg Hone] (H1 & H2 & H3 & H4). rewrite removals_app. split; [by apply rm_guarded_app|]. split; [|split; [done|]].
    + rewrite map_app. destruct Hone as [[-> _]| ->]; cbn; [by constructor|by constructor].
    + intros Hc. destruct (H4 Hc) as (-> & -> & ->). split; [done|]. destruct Hone as [[_ Hone]| ->]; [done|]. done.
Qed.
End Rm.

(** *** Sizes *)

(** The number that digits write, after others worth [n]. *)
Definition decimalFrom (n : Z) (s : bytes) : Z := foldl (fun n c => n * 10 + (code c - 48)) n s.

Abbreviation allDigits s := (Forall (fun c => isDigit c = true) s).

Lemma isDigit_code c : isDigit c = true -> 0 <= code c - 48 < 10.
Proof. unfold isDigit. rewrite andb_true_iff, !Z.leb_le. lia. Qed.

Lemma decimalFrom_ge n s : allDigits s -> 0 <= n -> n <= decimalFrom n s.
Proof.
  intros Hs. revert n. induction Hs as [|c s Hc _ IH]; intros n Hn; [done|]. change (decimalFrom n (c :: s)) with (decimalFrom (n * 10 + (code c - 48)) s).
  apply isDigit_code in Hc. specialize (IH (n * 10 + (code c - 48))). lia.
Qed.

Lemma parseDigits_decimal n s : allDigits s -> 0 <= n <= 2 ^ 64 - 1 ->
  parseDigits 10 (2 ^ 64 - 1) n s = if decimalFrom n s <=? 2 ^ 64 - 1 then inr (decimalFrom n s) else inl ErrRange.
Proof.
  intros Hs. revert n. induction Hs as [|c s Hc Hs IH]; intros n Hn.
  { cbn [parseDigits decimalFrom foldl]. by rewrite (proj2 (Z.leb_le _ _)) by lia. }
  pose proof (decimalFrom_ge (n * 10 + (code c - 48)) s Hs) as Hge. pose proof (isDigit_code c Hc) as Hr.
  change (decimalFrom n (c :: s)) with (decimalFrom (n * 10 + (code c - 48)) s). cbn [parseDigits].
  assert (digitVal c = Some (code c - 48)) as -> by (unfold digitVal; unfold isDigit in Hc; by rewrite Hc).
  rewrite (proj2 (Z.leb_gt 10 _)) by lia. change (maxUint64 / 10 + 1) with 1844674407370955162.
  destruct (Z.leb_spec 1844674407370955162 n) as [Hb|Hb]; [by rewrite (proj2 (Z.leb_gt _ (2 ^ 64 - 1))) by lia|].
  destruct (Z.ltb_spec (2 ^ 64 - 1) (n * 10 + (code c - 48))); [by rewrite (proj2 (Z.leb_gt _ (2 ^ 64 - 1))) by lia|].
  apply IH. lia.
Qed.

Lemma ParseInt_decimal s n : allDigits s -> s <> [] -> ParseInt s = inr n <-> n = decimalFrom 0 s /\ n <= maxInt64.
Proof.
  intros Hs Hne. unfold ParseInt. destruct s as [|c s']; [done|]. pose proof Hs as Hs'. inversion_clear Hs' as [|? ? Hc _].
  assert (forall d, isDigit d = false -> Ascii.eqb c d = false) as Hd by (intros d Hd; destruct (Ascii.eqb_spec c d); congruence).
  rewrite !Hd by done. unfold ParseUint. rewrite parseDigits_decimal by (done || lia). pose proof (decimalFrom_ge 0 (c :: s') Hs ltac:(lia)) as Hge.
  set (v := decimalFrom 0 (c :: s')) in *. destruct (Z.leb_spec v (2 ^ 64 - 1)); cbn [negb andb].
  - destruct (Z.leb_spec (2 ^ 63) v); (split; [|intros [-> Hm]; unfold maxInt64 in Hm; try lia]).
    + done.
    + intros [= <-]. unfold maxInt64. lia.
    + done.
  - split; [done|]. intros [-> Hm]. unfold maxInt64 in Hm. lia.
Qed.

Lemma digits_run s : allDigits (take (run_length isDigit s) s).
Proof. induction s as [|c s IH]; cbn; [constructor|]. destruct (isDigit c) eqn:E; cbn; [by constructor|constructor]. Qed.

Lemma digits_run_app d s : allDigits d -> match s with c :: _ => isDigit c = false | [] => True end -> run_length isDigit (d ++ s) = length d.
Proof.
  induction 1 as [|c d Hc _ IH]; intros Hs; cbn.
  - destruct s as [|c s]; [done|]. cbn. by rewrite Hs.
  - rewrite Hc. by rewrite IH.
Qed.

Lemma multiplier_range suffix m : multiplier suffix = Some m ->
  1 <= m <= 2 ^ 60 /\ match suffix with c :: _ => isDigit c = false | [] => True end.
Proof.
  unfold multiplier. destruct (find _ multipliers) as [[k v]|] eqn:E; [|done]. intros [= <-]. apply find_some in E as [Hin Hk].
  cbn in Hk. destruct (bytes_eqb_spec k suffix) as [<-|]; [|done]. apply list_elem_of_In in Hin.
  assert (Forall (fun m => 1 <= snd m <= 2 ^ 60 /\ match fst m with c :: _ => isDigit c = false | [] => True end) multipliers) as H.
  { unfold multipliers. repeat constructor; vm_compute; congruence. }
  rewrite Forall_forall in H. by apply (H _ Hin).
Qed.

(** *** truncate and logrotate *)

Definition sizeCalls (es : list event) : list event :=
  filter (fun e => match e with EvTruncate _ _ _ | EvRotate _ _ _ | EvRemove _ _ | EvOpen _ _ _ => true | _ => false end = true) es.

Lemma sizeCalls_app es es' : sizeCalls (es ++ es') = sizeCalls es ++ sizeCalls es'.
Proof. apply filter_app. Qed.

Section SizeLoops.
Context (h : host).

(** The calls are those for the first operands, each with the same arguments;
    all of them when the exit code is 0. *)
Definition callsOn (mk : bytes -> event) (files : list bytes) (failed : bool) (es : list event) (code : Z) : Prop :=
  sizeCalls es `prefix_of` map mk files /\ (code = 0 \/ code = 1) /\ (code = 0 -> failed = false /\ sizeCalls es = map mk files).

Lemma callsOn_nil mk failed : callsOn mk [] failed [] (if failed then 1 else 0).
Proof. split; [done|]. destruct failed; split; [by right|done|by left|done]. Qed.

Lemma callsOn_stop mk files failed : callsOn mk files failed [] 1.
Proof. split; [apply prefix_nil|]. split; [by right|done]. Qed.

Lemma callsOn_cons mk file files failed failed' es es' code : sizeCalls es = [mk file] -> (failed' = false -> failed = false) ->
  callsOn mk files failed' es' code -> callsOn mk (file :: files) failed (es ++ es') code.
Proof.
  intros He Hf (H1 & H2 & H3). unfold callsOn. rewrite sizeCalls_app, He. split; [by apply prefix_cons|]. split; [done|].
  intros Hc. destruct (H3 Hc) as [? ->]. auto.
Qed.

Lemma spec_truncateFiles f size noCreate files failed :
  spec (truncateFiles h f size noCreate files failed) (fun _ es code => callsOn (fun p => EvTruncate p size (negb noCreate)) files failed es code).
Proof.
  revert failed. induction files as [|file files IH]; intros failed; cbn [truncateFiles]; [apply spec_ret; intros; apply callsOn_nil|].
  apply spec_poll. intros d. destruct d; [apply spec_ret; intros; apply callsOn_stop|].
  eapply (spec_bind _ _ _ (fun _ _ es code => exists q es' failed', es = q ++ es' /\ sizeCalls q = [] /\ (failed' = false -> failed = false) /\
    callsOn (fun p => EvTruncate p size (negb noCreate)) files failed' es' code)); [apply spec_call| |].
  - intros [e|]; [|eapply spec_mono; [apply IH|]; intros past es code H; by exists [], es, failed].
    destruct (_ && _); [eapply spec_mono; [apply IH|]; intros past es code H; by exists [], es, failed|].
    eapply spec_bind; [apply spec_emit|intros; apply (IH true)|]. intros past es a es' b -> H. by eexists _, es', true.
  - intros past es a es' b [_ ->] (q & es'' & failed' & -> & Hq & Hf & H). rewrite app_assoc. eapply callsOn_cons; [|exact Hf|exact H].
    by rewrite sizeCalls_app, Hq.
Qed.

Lemma spec_rotateFiles f threshold dryRun report files failed :
  spec (rotateFiles h f threshold dryRun report files failed) (fun _ es code => callsOn (fun p => EvRotate p threshold dryRun) files failed es code).
Proof.
  revert failed. induction files as [|file files IH]; intros failed; cbn [rotateFiles]; [apply spec_ret; intros; apply callsOn_nil|].
  apply spec_poll. intros d. destruct d; [apply spec_ret; intros; apply callsOn_stop|].
  eapply (spec_bind _ _ _ (fun _ _ es code => exists q es' failed', es = q ++ es' /\ sizeCalls q = [] /\ (failed' = false -> failed = false) /\
    callsOn (fun p => EvRotate p threshold dryRun) files failed' es' code)); [apply spec_call| |].
  - intros [[sz tr] [e|]].
    + eapply spec_bind; [apply spec_emit|intros; apply (IH true)|]. intros past es a es' b -> H. by eexists _, es', true.
    + eapply (spec_bind _ _ (fun _ es _ => sizeCalls es = [])); [|intros; apply IH|].
      * destruct report; [|by apply spec_ret]. eapply spec_mono; [apply spec_emit|]. by intros past es a ->.
      * intros past es a es' b Hq H. by exists es, es', failed.
  - intros past es a es' b [_ ->] (q & es'' & failed' & -> & Hq & Hf & H). rewrite app_assoc. eapply callsOn_cons; [|exact Hf|exact H].
    by rewrite sizeCalls_app, Hq.
Qed.
End SizeLoops.

(** *** tee *)

Definition written (i : nat) (es : list event) : bytes :=
  mjoin (omap (fun e => match e with EvWrite j p _ => if (j =? i)%nat then Some p else None | _ => None end) es).

Definition opens (es : list event) : list (bytes * bool * bool) :=
  omap (fun e => match e with EvOpen p a ok => Some (p, a, ok) | _ => None end) es.

(** A pipe broke. *)
Definition refused (es : list event) : Prop := exists i p, EvWrite i p (Some EBrokenPipe) ∈ es.

Lemma tee_written_app i es es' : written i (es ++ es') = written i es ++ written i es'.
Proof. unfold written. by rewrite omap_app, join_app. Qed.

Lemma opens_app es es' : opens (es ++ es') = opens es ++ opens es'.
Proof. apply omap_app. Qed.

Lemma refused_app es es' : refused es \/ refused es' -> refused (es ++ es').
Proof. intros [(i & p & H)|(i & p & H)]; exists i, p; rewrite elem_of_app; tauto. Qed.

(** Neither opens nor writes. *)
Definition idle (es : list event) : Prop := (forall i, written i es = []) /\ opens es = [].

Lemma idle_nil : idle [].
Proof. done. Qed.

Lemma idle_app es es' : idle es -> idle es' -> idle (es ++ es').
Proof. intros [H1 H2] [H3 H4]. split; [intros i; by rewrite tee_written_app, H1, H3|by rewrite opens_app, H2, H4]. Qed.

Lemma idle_err p : idle [EvErr p].
Proof. done. Qed.

Section Tee.
Context (h : host).

(** The same destination, perhaps no longer live. *)
Definition after (d d' : dest) : Prop := id d' = id d /\ (live d' = true -> live d = true).

Definition wroteAll (chunk : bytes) (ds : list dest) (es : list event) (r : list dest * bool * bool) : Prop :=
  let '(ds', broken, failed) := r in
  Forall2 after ds ds' /\ opens es = [] /\
  (forall i, i ∉ map id ds -> written i es = []) /\
  (forall d, d ∈ ds -> written (id d) es = [] \/ live d = true /\ written (id d) es = chunk) /\
  (broken = false -> forall d, d ∈ ds -> live d = true -> written (id d) es = chunk) /\
  (broken = false -> failed = false -> ds' = ds) /\
  (broken = true -> refused es).

Lemma after_refl d : after d d.
Proof. done. Qed.

Lemma Forall2_after_refl ds : Forall2 after ds ds.
Proof. induction ds; by constructor. Qed.

(** Events about the first destination before those about the rest. *)
Lemma wroteAll_cons chunk d d' ds es es' ds' broken failed failed' :
  NoDup (map id (d :: ds)) -> wroteAll chunk ds es' (ds', broken, failed) -> after d d' ->
  opens es = [] -> (forall i, i <> id d -> written i es = []) ->
  written (id d) es = (if live d then chunk else []) ->
  (failed' = false -> failed = false /\ d' = d) ->
  wroteAll chunk (d :: ds) (es ++ es') (d' :: ds', broken, failed').
Proof.
  intros Hnd (H1 & H2 & H3 & H4 & H5 & H6 & H7) Ha Ho Hw Hd Hf. cbn [map] in Hnd. apply NoDup_cons in Hnd as [Hni Hnd].
  assert (forall x, x ∈ ds -> id x <> id d) as Hne by (intros x Hx E; apply Hni; rewrite <- E; by apply list_elem_of_fmap_2).
  split; [by constructor|]. split; [by rewrite opens_app, Ho, H2|]. split; [|split; [|split; [|split]]].
  - intros i Hi. cbn [map] in Hi. apply not_elem_of_cons in Hi as [Hi1 Hi2]. by rewrite tee_written_app, Hw, H3.
  - intros x Hx. rewrite tee_written_app. apply elem_of_cons in Hx as [->|Hx].
    + rewrite Hd, (H3 (id d) Hni), app_nil_r. destruct (live d); [by right|by left].
    + rewrite Hw by (by apply Hne). by apply H4.
  - intros Hb x Hx Hl. rewrite tee_written_app. apply elem_of_cons in Hx as [->|Hx].
    + by rewrite Hd, Hl, (H3 (id d) Hni), app_nil_r.
    + rewrite Hw by (by apply Hne). by apply H5.
  - intros Hb Hf'. destruct (Hf Hf') as [Hf1 ->]. by rewrite H6.
  - intros Hb. apply refused_app. right. by apply H7.
Qed.

Lemma written_self i p e : written i [EvWrite i p e] = p.
Proof. unfold written. cbn. rewrite Nat.eqb_refl. cbn. apply app_nil_r. Qed.

Lemma written_other i j p e : i <> j -> written i [EvWrite j p e] = [].
Proof. intros H. unfold written. cbn. by rewrite (proj2 (Nat.eqb_neq j i)) by congruence. Qed.

Lemma spec_writeAll chunk ds : NoDup (map id ds) -> spec (writeAll h chunk ds) (fun _ es r => wroteAll chunk ds es r).
Proof.
  induction ds as [|d ds IH]; intros Hnd; cbn [writeAll].
  { apply spec_ret. intros past. repeat split; try done; try (by intros; left); intros; exfalso; by eapply elem_of_nil. }
  assert (NoDup (map id ds)) as Hnd' by (by apply NoDup_cons in Hnd as [_ ?]). specialize (IH Hnd').
  destruct (live d) eqn:El; cbn [negb].
  2:{ eapply (spec_bind _ _ _ (fun r _ es b => es = [] /\ b = (d :: fst (fst r), snd (fst r), snd r))); [exact IH|intros [[ds' b] f]; by apply spec_ret|].
      intros past es [[ds' b] f] es' r H [-> ->]. rewrite app_nil_r. cbn [fst snd].
      apply (wroteAll_cons chunk d d ds [] es ds' b f f Hnd H (after_refl d)); [done|done|by rewrite El|done]. }
  eapply (spec_bind _ _ _ (fun e _ es r => wroteAll chunk (d :: ds) (EvWrite (id d) chunk e :: es) r)); [apply spec_call| |by intros past es e es' r [-> ->]].
  assert (forall e, e <> EBrokenPipe -> spec (errf (lit "tee: " ++ name d ++ lit ": " ++ safeErr h e ++ [ch_nl]);;
      '(ds, broken, failed) ← writeAll h chunk ds; mret (mkDest (id d) (name d) false :: ds, broken, true))
    (fun _ es r => wroteAll chunk (d :: ds) (EvWrite (id d) chunk (Some e) :: es) r)) as Hfail.
  { intros e He. eapply (spec_bind _ _ _ (fun _ _ es r => exists ds' b f, r = (mkDest (id d) (name d) false :: ds', b, true) /\ wroteAll chunk ds es (ds', b, f))); [apply spec_emit| |].
    - intros []. eapply (spec_bind _ _ _ (fun r _ es b => es = [] /\ b = (mkDest (id d) (name d) false :: fst (fst r), snd (fst r), true))); [exact IH|intros [[ds' b] f]; by apply spec_ret|].
      intros past es [[ds' b] f] es' r H [-> ->]. rewrite app_nil_r. by exists ds', b, f.
    - intros past es a es' r -> (ds' & b & f & -> & H). apply (wroteAll_cons chunk d _ ds (EvWrite (id d) chunk (Some e) :: [EvErr _]) es' ds' b f true Hnd H); try done.
      + intros i Hi. change (written i ([EvWrite (id d) chunk (Some e)] ++ [EvErr (lit "tee: " ++ name d ++ lit ": " ++ safeErr h e ++ [ch_nl])]) = []). by rewrite tee_written_app, written_other.
      + change (written (id d) ([EvWrite (id d) chunk (Some e)] ++ [EvErr (lit "tee: " ++ name d ++ lit ": " ++ safeErr h e ++ [ch_nl])]) = if live d then chunk else []).
        rewrite tee_written_app, written_self, El. apply app_nil_r. }
  intros [e|].
  - destruct e; try (by apply Hfail). apply spec_ret. intros past.
    split; [apply Forall2_after_refl|]. split; [done|]. split; [|split; [|split; [done|split; [done|]]]].
    + intros i Hi. apply written_other. cbn [map] in Hi. by apply not_elem_of_cons in Hi as [? _].
    + intros x Hx. destruct (decide (id x = id d)) as [E|E]; [|left; by apply written_other]. rewrite E, written_self. right. split; [|done].
      apply elem_of_cons in Hx as [->|Hx]; [done|]. exfalso. cbn [map] in Hnd. apply NoDup_cons in Hnd as [Hni _]. apply Hni. rewrite <- E.
      by apply list_elem_of_fmap_2.
    + intros _. exists (id d), chunk. by left.
  - eapply (spec_bind _ _ _ (fun r _ es b => es = [] /\ b = (d :: fst (fst r), snd (fst r), snd r))); [exact IH|intros [[ds' b] f]; by apply spec_ret|].
    intros past es [[ds' b] f] es' r H [-> ->]. rewrite app_nil_r. cbn [fst snd].
    apply (wroteAll_cons chunk d d ds [EvWrite (id d) chunk None] es ds' b f f Hnd H (after_refl d)); [done| | |done].
    + intros i Hi. by apply written_other.
    + by rewrite written_self, El.
Qed.

(** A read and its writes: what stops the copy, and what failed. *)
Definition copied (chunk : bytes) (ds : list dest) (es : list event) (r : list dest * bool * bool) : Prop :=
  let '(ds', stop, failed) := r in
  Forall2 after ds ds' /\ opens es = [] /\
  (forall i, i ∉ map id ds -> written i es = []) /\
  (forall d, d ∈ ds -> written (id d) es = [] \/ live d = true /\ written (id d) es = chunk) /\
  (stop = false -> forall d, d ∈ ds -> live d = true -> written (id d) es = chunk) /\
  (failed = false -> refused es \/ (ds' = ds /\ (stop = true -> existsb live ds = false))).

Lemma spec_copyChunk chunk ds : NoDup (map id ds) -> spec (copyChunk h chunk ds) (fun _ es r => copied chunk ds es r).
Proof.
  intros Hnd. unfold copyChunk. destruct chunk as [|c chunk].
  { apply spec_ret. intros past. split; [apply Forall2_after_refl|]. split; [done|]. split; [done|]. split; [by left|]. split; [done|]. intros _. right. by split. }
  eapply (spec_bind _ _ _ (fun r _ es b => es = [] /\ b = (fst (fst r), snd (fst r) || negb (existsb live (fst (fst r))), snd r)));
    [by apply spec_writeAll|intros [[ds' b] f]; by apply spec_ret|].
  intros past es [[ds' b] f] es' r (H1 & H2 & H3 & H4 & H5 & H6 & H7) [-> ->]. rewrite app_nil_r. cbn [fst snd].
  split; [done|]. split; [done|]. split; [done|]. split; [done|]. split; [intros Hs; apply orb_false_iff in Hs as [Hb _]; by apply H5|].
  intros Hf. destruct b; [left; by apply H7|]. right. rewrite (H6 eq_refl Hf). split; [done|]. cbn [orb]. by intros Hs%negb_true_iff.
Qed.

(** The whole input, and what stopped the copy before its end. *)
Fixpoint contents (r : reader) : bytes := match r with ReadMore chunk r => chunk ++ contents r | ReadLast chunk _ => chunk end.

Definition copiedAll (r : reader) (ds : list dest) (anyFailed : bool) (es : list event) (failed : bool) : Prop :=
  opens es = [] /\
  (forall i, i ∉ map id ds -> written i es = []) /\
  (forall d, d ∈ ds -> written (id d) es `prefix_of` contents r /\ (live d = false -> written (id d) es = [])) /\
  (failed = false -> anyFailed = false /\ (refused es \/ forall d, d ∈ ds -> live d = true -> written (id d) es = contents r)).

Lemma copiedAll_idle r ds anyFailed es : idle es -> copiedAll r ds anyFailed es true.
Proof. intros [H1 H2]. split; [done|]. split; [done|]. split; [|done]. intros d _. rewrite H1. split; [apply prefix_nil|done]. Qed.

(** A read that ends the copy. *)
Lemma copiedAll_last chunk rest r ds ds' stop failed anyFailed es es' :
  contents r = chunk ++ rest -> copied chunk ds es (ds', stop, failed) -> idle es' ->
  (stop = true \/ rest = []) -> copiedAll r ds anyFailed (es ++ es') (anyFailed || failed).
Proof.
  intros Hr (H1 & H2 & H3 & H4 & H5 & H6) [Hi1 Hi2] Hstop. unfold copiedAll. rewrite opens_app, H2, Hi2. split; [done|].
  split; [intros i Hi; by rewrite tee_written_app, H3, Hi1|]. split.
  - intros d Hd. rewrite tee_written_app, Hi1, app_nil_r, Hr. destruct (H4 d Hd) as [->|[Hl ->]].
    + split; [apply prefix_nil|done].
    + split; [by apply prefix_app_r|]. by rewrite Hl.
  - intros Hf. apply orb_false_iff in Hf as [-> Hf]. split; [done|]. destruct (H6 Hf) as [Hb|[-> Hn]]; [left; apply refused_app; by left|].
    right. intros d Hd Hl. rewrite tee_written_app, Hi1, app_nil_r. destruct stop.
    + specialize (Hn eq_refl). exfalso. assert (existsb live ds = true) as E; [|congruence]. apply existsb_exists. exists d. split; [by apply list_elem_of_In|done].
    + destruct Hstop as [|Hrest]; [done|]. by rewrite Hr, Hrest, app_nil_r, (H5 eq_refl d).
Qed.

Lemma after_ids ds ds' : Forall2 after ds ds' -> map id ds = map id ds'.
Proof. induction 1 as [|d d' ds ds' [H _] _ IH]; cbn; [done|]. by rewrite H, IH. Qed.

(** A read after which the copy goes on. *)
Lemma copiedAll_more chunk r ds ds' failed anyFailed es es' res :
  copied chunk ds es (ds', false, failed) -> copiedAll r ds' (anyFailed || failed) es' res ->
  copiedAll (ReadMore chunk r) ds anyFailed (es ++ es') res.
Proof.
  intros (H1 & H2 & H3 & H4 & H5 & H6) (K1 & K2 & K3 & K4). pose proof (after_ids _ _ H1) as Hids.
  assert (forall d, d ∈ ds -> exists d', d' ∈ ds' /\ id d' = id d /\ (live d = false -> live d' = false)) as Hfind.
  { intros d [i Hi]%list_elem_of_lookup. eapply Forall2_lookup_l in H1 as (d' & Hd' & Hid & Hl); [|exact Hi]. exists d'.
    split; [by eapply list_elem_of_lookup_2|]. split; [done|]. intros Hf. destruct (live d'); [|done]. rewrite Hl in Hf; done. }
  split; [by rewrite opens_app, H2, K1|]. split; [intros i Hi; rewrite tee_written_app, H3 by done; apply K2; by rewrite <- Hids|]. split.
  - intros d Hd. destruct (Hfind d Hd) as (d' & Hd' & Hid & Hl). destruct (K3 d' Hd') as [Kp Kn]. rewrite Hid in Kp, Kn. rewrite tee_written_app. cbn [contents].
    destruct (live d) eqn:El.
    + rewrite (H5 eq_refl d Hd El). split; [by apply prefix_app|done].
    + destruct (H4 d Hd) as [->|[? _]]; [|congruence]. rewrite Kn by (by apply Hl). split; [apply prefix_nil|done].
  - intros Hres. destruct (K4 Hres) as [[-> Hf]%orb_false_iff Kc]. split; [done|].
    destruct (H6 Hf) as [Hb|[-> _]]; [left; apply refused_app; by left|]. destruct Kc as [Hb|Kc]; [left; apply refused_app; by right|]. right.
    intros d Hd Hl. rewrite tee_written_app, (H5 eq_refl d Hd Hl), (Kc d Hd Hl). done.
Qed.

Lemma spec_copyToAll r ds anyFailed : NoDup (map id ds) -> spec (copyToAll h r ds anyFailed) (fun _ es failed => copiedAll r ds anyFailed es failed).
Proof.
  revert ds anyFailed. induction r as [chunk r IH|chunk e]; intros ds anyFailed Hnd; cbn [copyToAll]; apply spec_poll; intros d;
    (destruct d; [apply spec_ret; intros; by apply copiedAll_idle|]).
  - eapply (spec_then _ _ _ (fun (b : list dest * bool * bool) _ es failed => let '(ds', stop, f) := b in
      if stop then es = [] /\ failed = anyFailed || f else copiedAll r ds' (anyFailed || f) es failed)); [by apply spec_copyChunk| |].
    + intros past es [[ds' stop] f] (Ha & _). destruct stop; [by apply spec_ret|]. apply IH. by rewrite <- (after_ids ds ds').
    + intros past es [[ds' stop] f] es' failed Hk. destruct stop.
      * intros [-> ->]. by apply (copiedAll_last chunk (contents r) _ ds ds' true); [|..|left].
      * by apply copiedAll_more.
  - eapply (spec_bind _ _ _ (fun (b : list dest * bool * bool) _ es failed => let '(ds', stop, f) := b in
      idle es /\ (failed = true \/ failed = anyFailed || f))); [by apply spec_copyChunk| |].
    + intros [[ds' stop] f]. destruct stop; [apply spec_ret; intros; split; [done|by right]|].
      destruct e as [e|]; [|apply spec_ret; intros; split; [done|by right]].
      eapply (spec_bind _ _ _ (fun _ _ es failed => es = [] /\ failed = true)); [apply spec_emit|intros; by apply spec_ret|].
      intros past es a es' b -> [-> ->]. split; [apply idle_err|by left].
    + intros past es [[ds' stop] f] es' failed Hk [Hi Hfail].
      pose proof (copiedAll_last chunk [] (ReadLast chunk e) ds ds' stop f anyFailed es es' (eq_sym (app_nil_r _)) Hk Hi (or_intror eq_refl)) as H.
      destruct Hfail as [->| ->]; [|done]. destruct H as (H1 & H2 & H3 & _). by do 3 (split; [done|]).
Qed.

(** The files that are opened get the numbers from [n] on. *)
Definition opened (append : bool) (n : nat) (files : list bytes) (es : list event) (r : list dest * option bool) : Prop :=
  let '(ds, failed) := r in
  map id ds = seq n (length ds) /\ Forall (fun d => live d = true) ds /\
  length (filter (fun o => snd o = true) (opens es)) = length ds /\
  (forall i, written i es = []) /\
  map (fun o => fst (fst o)) (opens es) `sublist_of` files /\
  Forall (fun o => snd (fst o) = append) (opens es) /\
  (failed = Some false -> opens es = map (fun f => (f, append, true)) files /\ length ds = length files).

Lemma opened_nil append n files failed : failed <> Some false -> opened append n files [] ([], failed).
Proof. intros Hf. split; [done|]. split; [constructor|]. do 2 (split; [done|]). split; [apply sublist_nil_l|]. by split. Qed.

Lemma opened_failure append n file files es es' ds failed :
  (forall i, written i es = []) -> opens es = [] \/ opens es = [(file, append, false)] -> opened append n files es' (ds, failed) ->
  opened append n (file :: files) (es ++ es') (ds, (fun _ => true) <$> failed).
Proof.
  intros Hw Ho (H1 & H2 & Hn & H3 & H4 & H5 & _). do 2 (split; [done|]). rewrite opens_app. split; [by destruct Ho as [-> | ->]|].
  split; [intros i; by rewrite tee_written_app, Hw, H3|]. split; [|split; [|by destruct failed]].
  - rewrite map_app. by destruct Ho as [-> | ->]; constructor.
  - apply Forall_app. split; [|done]. by destruct Ho as [-> | ->]; repeat constructor.
Qed.

Lemma spec_openDests openFile append n files :
  spec (openDests h openFile append n files) (fun _ es r => opened append n files es r).
Proof.
  revert n. induction files as [|file files IH]; intros n; cbn [openDests].
  { apply spec_ret. intros past. split; [done|]. split; [constructor|]. do 3 (split; [done|]). by split. }
  apply spec_poll. intros d. destruct d; [apply spec_ret; intros; by apply opened_nil|]. cbv zeta.
  assert (forall (e : ferr) n, spec (errf (lit "tee: '" ++ safe h file ++ lit "': " ++ safeErr h e ++ [ch_nl]);;
      '(ds, failed) ← openDests h openFile append n files; mret (ds, (fun _ => true) <$> failed))
    (fun _ es r => exists q es' ds failed, es = EvErr q :: es' /\ r = (ds, (fun _ => true) <$> failed) /\ opened append n files es' (ds, failed))) as Hfail.
  { intros e m. eapply (spec_bind _ _ _ (fun _ _ es b => exists ds failed, b = (ds, (fun _ => true) <$> failed) /\ opened append m files es (ds, failed)));
      [apply spec_emit|intros []|].
    - eapply (spec_bind _ _ _ (fun r _ es b => es = [] /\ b = (fst r, (fun _ => true) <$> snd r))); [apply (IH m)|intros [ds failed]; by apply spec_ret|].
      intros past es [ds failed] es' b H [-> ->]. rewrite app_nil_r. by exists ds, failed.
    - intros past es a es' b -> (ds & failed & -> & H). by eexists _, es', ds, failed. }
  eapply (spec_bind _ _ (fun _ es _ => (forall i, written i es = []) /\ opens es = [])
    (fun e _ es r => opened append n (file :: files) es r)).
  - unfold rejectNonRegularTarget. eapply (spec_bind _ _ _ (fun _ _ es _ => es = [])); [apply spec_call|intros; by apply spec_ret|].
    by intros past es a es' b [_ ->] ->.
  - intros [e|].
    + eapply spec_mono; [apply Hfail|]. intros past es r (q & es' & ds & failed & -> & -> & H).
      by apply (opened_failure append n file files [EvErr q] es' ds failed); [|left|].
    + eapply (spec_bind _ _ _ (fun e _ es r => opened append n (file :: files) (EvOpen file append (succeeds e) :: es) r)); [apply spec_call| |by intros past es e es' r [-> ->]].
      intros [e|]; cbn [succeeds].
      * eapply spec_mono; [apply Hfail|]. intros past es r (q & es' & ds & failed & -> & -> & H).
        by apply (opened_failure append n file files [EvOpen file append false; EvErr q] es' ds failed); [|right|].
      * eapply (spec_bind _ _ _ (fun r _ es b => es = [] /\ b = (mkDest n (safe h file) true :: fst r, snd r))); [apply (IH (S n))|intros [ds failed]; by apply spec_ret|].
        intros past es [ds failed] es' b (H1 & H2 & Hn & H3 & H4 & H5 & H6) [-> ->]. rewrite app_nil_r. cbn [fst snd].
        change (EvOpen file append true :: es) with ([EvOpen file append true] ++ es). unfold opened. rewrite opens_app.
        split; [cbn; by rewrite H1|]. split; [by constructor|]. split; [cbn; by rewrite <- Hn|]. split; [intros i; by rewrite tee_written_app, H3|]. split; [by constructor|].
        split; [by constructor|]. intros Hf. destruct (H6 Hf) as [-> Hlen]. split; [done|]. cbn. by rewrite Hlen.
  - intros past es e es' r [Hw Ho] H. destruct r as [ds failed]. destruct H as (H1 & H2 & Hn & H3 & H4 & H5 & H6). unfold opened. rewrite opens_app, Ho.
    do 2 (split; [done|]). split; [done|]. split; [intros i; by rewrite tee_written_app, Hw, H3|]. cbn [app]. split; [done|]. by split.
Qed.

Lemma spec_closeAllDests ds : spec (closeAllDests h ds) (fun _ es _ => idle es).
Proof.
  induction ds as [|d ds IH]; cbn [closeAllDests]; [by apply spec_ret|]. destruct (id d =? 0)%nat; [done|].
  eapply (spec_bind _ _ _ (fun _ _ es _ => idle es)); [apply spec_call| |intros past es a es' b [_ ->] H; by apply (idle_app [_])].
  intros [e|]; [|done]. eapply (spec_bind _ _ _ (fun _ _ es _ => idle es)); [apply spec_emit| |intros past es a es' b -> H; by apply (idle_app [_])].
  intros _. eapply (spec_bind _ _ _ (fun _ _ es _ => es = [])); [exact IH|intros; by apply spec_ret|]. intros past es a es' b H ->. by rewrite app_nil_r.
Qed.

Lemma spec_deferredCloses ds : spec (deferredCloses ds) (fun _ es _ => idle es /\ forall d, d ∈ ds -> EvClose (id d) ∈ es).
Proof.
  induction ds as [|d ds IH]; cbn [deferredCloses]; [apply spec_ret; intros; split; [done|by intros d ?%elem_of_nil]|].
  eapply spec_bind; [exact IH|intros; apply spec_emit|]. intros past es a es' b [H1 H2] ->. split; [by apply idle_app|].
  intros x Hx. rewrite elem_of_app, list_elem_of_singleton. apply elem_of_cons in Hx as [->|Hx]; [by right|left; by apply H2].
Qed.
End Tee.

(** *** Messages *)

(** A line of plain bytes. *)
Definition oneLine (p : bytes) : Prop := exists q, p = q ++ [ch_nl] /\ Forall plainByte q.

Definition tidy (es : list event) : Prop := Forall (fun e => match e with EvErr p => oneLine p | _ => True end) es.

Lemma tidy_app es es' : tidy es -> tidy es' -> tidy (es ++ es').
Proof. intros. by apply Forall_app. Qed.

Lemma oneLine_intro q : Forall plainByte q -> oneLine (q ++ [ch_nl]).
Proof. by exists q. Qed.

Lemma plain_lit s : forallb (fun c => (32 <=? code c) && negb (code c =? 127)) (lit s) = true -> Forall plainByte (lit s).
Proof.
  intros H. apply Forall_forall. intros c Hc. rewrite forallb_forall in H. specialize (H c (proj1 (list_elem_of_In _ _) Hc)).
  apply andb_true_iff in H as [H1 H2]. apply Z.leb_le in H1. apply negb_true_iff, Z.eqb_neq in H2. by split.
Qed.

Lemma spec_tidy_bind {A B} (m : F A) (f : A -> F B) (I : A -> Prop) (J : B -> Prop) :
  spec m (fun _ es a => tidy es /\ I a) -> (forall a, I a -> spec (f a) (fun _ es b => tidy es /\ J b)) ->
  spec (m ≫= f) (fun _ es b => tidy es /\ J b).
Proof.
  intros Hm Hf. eapply (spec_then m f _ (fun _ _ es b => tidy es /\ J b)); [exact Hm| |].
  - intros past es a [_ Ha]. by apply Hf.
  - intros past es a es' b [H1 _] [H2 Hb]. split; [by apply tidy_app|done].
Qed.

Abbreviation tidily m J := (spec m (fun _ es b => tidy es /\ J b)).

Lemma tidy_ret {A} (a : A) (J : A -> Prop) : J a -> tidily (mret a) J.
Proof. intros Hj. apply spec_ret. intros past. by split; [constructor|]. Qed.

Lemma tidy_err q : Forall plainByte q -> tidily (errf (q ++ [ch_nl])) (fun _ => True).
Proof. intros Hq. eapply spec_mono; [apply spec_emit|]. intros past es a ->. split; [|done]. repeat constructor. by apply oneLine_intro. Qed.

Lemma tidy_call {A} (f : list event -> A) e : (forall a, match e a with EvErr p => False | _ => True end) -> tidily (call f e) (fun _ => True).
Proof. intros He. eapply spec_mono; [apply spec_call|]. intros past es a [_ ->]. split; [|done]. constructor; [|constructor]. specialize (He a). by destruct (e a). Qed.

Lemma tidy_poll {B} h (f : bool -> F B) J : (forall d, tidily (f d) J) -> tidily (d ← done h; f d) J.
Proof. intros Hf. by apply spec_poll. Qed.

Create HintDb tidy.
#[local] Hint Resolve tidy_err : tidy.
#[local] Hint Extern 1 (Forall plainByte (_ ++ _)) => (apply Forall_app; split) : tidy.
#[local] Hint Extern 1 (Forall plainByte (lit _)) => (apply plain_lit; vm_compute; reflexivity) : tidy.
#[local] Hint Extern 1 (Forall plainByte (SafeOperand _ _)) => (apply escape_plain) : tidy.
#[local] Hint Extern 1 (Forall plainByte (safe _ _)) => (apply escape_plain) : tidy.
#[local] Hint Extern 1 (Forall plainByte (safeErr _ _)) => (apply escape_plain) : tidy.

(** A message of texts put together from left to right. *)
Lemma tidy_refuse p J : (exists q, p = q ++ [ch_nl] /\ Forall plainByte q) -> J 1 -> tidily (refuse p) J.
Proof.
  intros (q & -> & Hq) Hj. unfold refuse. apply (spec_tidy_bind _ _ (fun _ => True)); [by apply tidy_err|]. intros _ _. by apply tidy_ret.
Qed.

Section Messages.
Context (h : host).

Definition tidyDests (ds : list dest) : Prop := Forall (fun d => Forall plainByte (name d)) ds.

Lemma tidy_dest_error d e : Forall plainByte (name d) -> tidily (errf (lit "tee: " ++ name d ++ lit ": " ++ safeErr h e ++ [ch_nl])) (fun _ => True).
Proof. intros Hd. rewrite !app_assoc. apply tidy_err. rewrite <- !app_assoc. eauto 20 with tidy. Qed.

Lemma tidy_writeAll chunk ds : tidyDests ds -> tidily (writeAll h chunk ds) (fun r => tidyDests (fst (fst r))).
Proof.
  induction 1 as [|d ds Hd Hds IH]; cbn [writeAll]; [apply tidy_ret; constructor|].
  assert (forall (d' : dest) x, Forall plainByte (name d') ->
    tidily ('(ds, broken, failed) ← writeAll h chunk ds; mret (d' :: ds, broken, match x with Some b => b | None => failed end)) (fun r => tidyDests (fst (fst r)))) as Hrest.
  { intros d' x Hd'. eapply spec_tidy_bind; [exact IH|]. intros [[ds' b] f] Hds'. apply tidy_ret. by constructor. }
  destruct (live d); cbn [negb]; [|by apply (Hrest d None)].
  apply (spec_tidy_bind _ _ (fun _ => True)); [by apply tidy_call|]. intros e _.
  assert (forall e, tidily (errf (lit "tee: " ++ name d ++ lit ": " ++ safeErr h e ++ [ch_nl]);;
      '(ds, broken, failed) ← writeAll h chunk ds; mret (mkDest (id d) (name d) false :: ds, broken, true)) (fun r => tidyDests (fst (fst r)))) as Hfail.
  { intros e'. apply (spec_tidy_bind _ _ (fun _ => True)); [by apply tidy_dest_error|]. intros _ _. by apply (Hrest (mkDest (id d) (name d) false) (Some true)). }
  destruct e as [e|]; [|by apply (Hrest d None)]. destruct e; try apply Hfail. apply tidy_ret. by constructor.
Qed.

Lemma tidy_copyChunk chunk ds : tidyDests ds -> tidily (copyChunk h chunk ds) (fun r => tidyDests (fst (fst r))).
Proof.
  intros Hds. unfold copyChunk. destruct chunk; [by apply tidy_ret|]. eapply spec_tidy_bind; [by apply tidy_writeAll|].
  intros [[ds' b] f] H. by apply tidy_ret.
Qed.

Lemma tidy_copyToAll r ds anyFailed : tidyDests ds -> tidily (copyToAll h r ds anyFailed) (fun _ => True).
Proof.
  revert ds anyFailed. induction r as [chunk r IH|chunk e]; intros ds anyFailed Hds; cbn [copyToAll]; apply tidy_poll; intros [];
    try by apply tidy_ret.
  - eapply spec_tidy_bind; [by apply tidy_copyChunk|]. intros [[ds' stop] f] H. cbn [fst] in H. destruct stop; [by apply tidy_ret|by apply IH].
  - eapply spec_tidy_bind; [by apply tidy_copyChunk|]. intros [[ds' stop] f] H. destruct stop; [by apply tidy_ret|].
    destruct e as [e|]; [|by apply tidy_ret]. apply (spec_tidy_bind _ _ (fun _ => True)); [|intros; by apply tidy_ret].
    rewrite !app_assoc. apply tidy_err. eauto 20 with tidy.
Qed.

Lemma tidy_openDests openFile append n files : tidily (openDests h openFile append n files) (fun r => tidyDests (fst r)).
Proof.
  revert n. induction files as [|file files IH]; intros n; cbn [openDests]; [apply tidy_ret; constructor|].
  apply tidy_poll. intros []; [apply tidy_ret; constructor|]. cbv zeta.
  assert (forall (e : ferr) n, tidily (errf (lit "tee: '" ++ safe h file ++ lit "': " ++ safeErr h e ++ [ch_nl]);;
      '(ds, failed) ← openDests h openFile append n files; mret (ds, (fun _ => true) <$> failed)) (fun r => tidyDests (fst r))) as Hfail.
  { intros e m. apply (spec_tidy_bind _ _ (fun _ => True)); [rewrite !app_assoc; apply tidy_err; rewrite <- !app_assoc; eauto 20 with tidy|].
    intros _ _. eapply spec_tidy_bind; [apply IH|]. intros [ds failed] H. by apply tidy_ret. }
  apply (spec_tidy_bind _ _ (fun _ => True)).
  { unfold rejectNonRegularTarget. apply (spec_tidy_bind _ _ (fun _ => True)); [by apply tidy_call|]. intros. by apply tidy_ret. }
  intros [e|] _; [apply Hfail|]. apply (spec_tidy_bind _ _ (fun _ => True)); [by apply tidy_call|]. intros [e|] _; [apply Hfail|].
  eapply spec_tidy_bind; [apply IH|]. intros [ds failed] H. apply tidy_ret. constructor; [apply escape_plain|done].
Qed.

Lemma tidy_closeAllDests ds : tidyDests ds -> tidily (closeAllDests h ds) (fun _ => True).
Proof.
  induction 1 as [|d ds Hd Hds IH]; cbn [closeAllDests]; [by apply tidy_ret|]. destruct (id d =? 0)%nat; [done|].
  apply (spec_tidy_bind _ _ (fun _ => True)); [by apply tidy_call|]. intros [e|] _; [|done].
  apply (spec_tidy_bind _ _ (fun _ => True)); [by apply tidy_dest_error|]. intros _ _.
  apply (spec_tidy_bind _ _ (fun _ => True)); [done|]. intros. by apply tidy_ret.
Qed.

Lemma tidy_deferredCloses ds : tidily (deferredCloses ds) (fun _ => True).
Proof.
  induction ds as [|d ds IH]; cbn [deferredCloses]; [by apply tidy_ret|]. apply (spec_tidy_bind _ _ (fun _ => True)); [done|]. intros _ _.
  eapply spec_mono; [apply spec_emit|]. intros past es a ->. split; [by repeat constructor|done].
Qed.
End Messages.

(** ** The theorems *)

Lemma spec_refuse p : spec (refuse p) (fun _ es code => es = [EvErr p] /\ code = 1).
Proof.
  unfold refuse. eapply (spec_bind _ _ _ (fun _ _ es code => es = [] /\ code = 1)); [apply spec_emit|intros; by apply spec_ret|].
  by intros past es a es' b -> [-> ->].
Qed.

Lemma spec_usage : spec (emit EvUsage;; mret 0) (fun _ es code => es = [EvUsage] /\ code = 0).
Proof.
  eapply (spec_bind _ _ _ (fun _ _ es code => es = [] /\ code = 0)); [apply spec_emit|intros; by apply spec_ret|].
  by intros past es a es' b -> [-> ->].
Qed.

(** C31. rm removes operands only, in their order and each once, at most ten of
    them, and none unless remediation mode is on and some root is writable; right
    before each removal it looked at the path without following a link and saw
    no directory, and the path does not ask for one.  It exits with 0 only after
    the usage text or when every operand was removed. *)
Theorem rm_removes_exact h help verbose files w :
  exists es, events (snd (rm h help verbose files w)) = events w ++ es /\
    guarded h (events w) es /\
    map fst (removals es) `sublist_of` files /\ (length (removals es) <= MaxRemoveFiles)%nat /\
    (removals es <> [] -> RemediationMode h = true /\ hasWritableRoot h = true /\ help = false) /\
    (fst (rm h help verbose files w) = 0 -> help = true \/ (files <> [] /\ removals es = map (fun f => (f, true)) files)).
Proof.
  assert (forall es : list event, removals es = [] -> guarded h (events w) es /\ map fst (removals es) `sublist_of` files /\ (length (removals es) <= MaxRemoveFiles)%nat /\
    (removals es <> [] -> RemediationMode h = true /\ hasWritableRoot h = true /\ help = false)) as Hnone.
  { intros es He. split; [by apply guarded_none|]. rewrite He. split; [apply sublist_nil_l|]. split; [cbn; lia|done]. }
  assert (forall p, exists es, events (snd (refuse p w)) = events w ++ es /\
    guarded h (events w) es /\ map fst (removals es) `sublist_of` files /\ (length (removals es) <= MaxRemoveFiles)%nat /\
    (removals es <> [] -> RemediationMode h = true /\ hasWritableRoot h = true /\ help = false) /\
    (fst (refuse p w) = 0 -> help = true \/ (files <> [] /\ removals es = map (fun f => (f, true)) files))) as Hrefuse.
  { intros p. destruct (spec_refuse p w) as (es & E & -> & Hc). eexists. split; [exact E|]. destruct (Hnone [EvErr p] eq_refl) as (H1 & H2 & H3 & H4).
    do 4 (split; [done|]). by rewrite Hc. }
  unfold rm. destruct (RemediationMode h) eqn:Em; cbn [negb]; [|apply Hrefuse]. destruct (Remove h) as [remove|]; [|apply Hrefuse].
  destruct (hasWritableRoot h) eqn:Ew; cbn [negb]; [|apply Hrefuse]. destruct help.
  { destruct (spec_usage w) as (es & E & -> & _). eexists. split; [exact E|]. destruct (Hnone [EvUsage] eq_refl) as (H1 & H2 & H3 & H4).
    do 4 (split; [done|]). by left. }
  destruct files as [|file files]; [apply Hrefuse|]. destruct (Nat.ltb_spec MaxRemoveFiles (length (file :: files))) as [|Hl]; [apply Hrefuse|].
  destruct (spec_removeFiles h remove verbose (file :: files) false w) as (es & E & H1 & H2 & H3 & H4). exists es. split; [done|]. split; [done|]. split; [done|].
  split; [apply sublist_length in H2; rewrite length_map in H2; lia|]. split; [done|]. intros Hc. right. split; [done|]. by apply H4.
Qed.

(** The input of tee. *)
Definition inputOf (h : host) : bytes := match Stdin h with Some r => contents r | None => [] end.

Definition openedOK (es : list event) : nat := length (filter (fun o => snd o = true) (opens es)).

(** What tee claims of its events. *)
Definition tees (h : host) (help append : bool) (files : list bytes) (es : list event) (code : Z) : Prop :=
  map (fun o => fst (fst o)) (opens es) `sublist_of` files /\ Forall (fun o => snd (fst o) = append) (opens es) /\
  (opens es <> [] -> RemediationMode h = true /\ hasWritableRoot h = true /\ (length files <= MaxFileOperands)%nat) /\
  (forall i, written i es `prefix_of` inputOf h) /\
  (forall i, (1 <= i <= openedOK es)%nat -> EvClose i ∈ es) /\
  (code = 0 -> help = true \/
     (opens es = map (fun f => (f, append, true)) files /\
      (refused es \/ forall i, (i <= length files)%nat -> written i es = inputOf h))).

Lemma tees_idle h help append files es code : idle es -> (code = 0 -> help = true) -> tees h help append files es code.
Proof.
  intros [Hw Ho] Hc. unfold tees, openedOK. rewrite Ho. split; [apply sublist_nil_l|]. split; [constructor|]. split; [done|].
  split; [intros i; rewrite Hw; apply prefix_nil|]. split; [intros i Hi; cbn in Hi; lia|]. intros H0. left. by apply Hc.
Qed.

(** After the files are opened. *)
Lemma tees_opened h append files es es1 es2 ds failed code :
  RemediationMode h = true -> hasWritableRoot h = true -> (length files <= MaxFileOperands)%nat ->
  opened append 1 files es (ds, failed) ->
  match failed with
  | None => idle es1 /\ code = 1
  | Some f => exists esA esB copyFailed, es1 = esA ++ esB /\ idle esB /\ (code = 0 -> f = false /\ copyFailed = false) /\
      match Stdin h with
      | Some r => copiedAll r (mkDest 0 (lit "standard output") true :: ds) false esA copyFailed
      | None => esA = []
      end
  end ->
  idle es2 -> (forall d, d ∈ ds -> EvClose (id d) ∈ es2) -> tees h false append files (es ++ es1 ++ es2) code.
Proof.
  intros Hm Hw Hl (H1 & H2 & Hn & H3 & H4 & H5 & H6) Hrun [Hi1 Hi2] Hclose.
  assert (opens es1 = []) as Ho1.
  { destruct failed as [f|]; [|by destruct Hrun as [[_ ?] _]]. destruct Hrun as (esA & esB & cf & -> & [_ HB] & _ & HA). rewrite opens_app, HB, app_nil_r.
    destruct (Stdin h); [by destruct HA|by rewrite HA]. }
  unfold tees, openedOK. rewrite !opens_app, Ho1, Hi2, !app_nil_r. split; [done|]. split; [done|]. split; [done|].
  assert (map id (mkDest 0 (lit "standard output") true :: ds) = seq 0 (S (length ds))) as Hids by (cbn; by rewrite H1).
  assert (forall i, (i <= length ds)%nat -> exists d, d ∈ mkDest 0 (lit "standard output") true :: ds /\ id d = i /\ live d = true) as Hfind.
  { intros i Hi. assert (i ∈ map id (mkDest 0 (lit "standard output") true :: ds)) as Hin by (rewrite Hids; apply elem_of_seq; lia).
    apply list_elem_of_fmap in Hin as (d & -> & Hd). exists d. split; [done|]. split; [done|]. apply elem_of_cons in Hd as [->|Hd]; [done|].
    rewrite Forall_forall in H2. by apply H2. }
  split; [|split].
  - intros i. rewrite !tee_written_app, H3, Hi1, app_nil_r. cbn [app]. unfold inputOf. destruct failed as [f|]; [|destruct Hrun as [[-> _] _]; apply prefix_nil].
    destruct Hrun as (esA & esB & cf & -> & [HB _] & _ & HA). rewrite tee_written_app, HB, app_nil_r. destruct (Stdin h) as [r|]; [|rewrite HA; apply prefix_nil].
    destruct HA as (_ & A2 & A3 & _). destruct (decide (i <= length ds)%nat) as [Hi|Hi].
    + destruct (Hfind i Hi) as (d & Hd & <- & _). by apply A3.
    + rewrite A2; [apply prefix_nil|]. rewrite Hids. intros ?%elem_of_seq. lia.
  - intros i Hi. rewrite Hn in Hi. destruct (Hfind i ltac:(lia)) as (d & Hd & Hid & _). apply elem_of_cons in Hd as [->|Hd]; [cbn in Hid; lia|].
    rewrite !elem_of_app. right. right. rewrite <- Hid. by apply Hclose.
  - intros Hc. right. destruct failed as [f|]; [|destruct Hrun as [_ ->]; done]. destruct Hrun as (esA & esB & cf & -> & [HB _] & Hcode & HA).
    destruct (Hcode Hc) as [-> ->]. destruct (H6 eq_refl) as [Ho Hlen]. split; [done|]. unfold inputOf. destruct (Stdin h) as [r|].
    + destruct HA as (_ & _ & _ & A4). destruct (A4 eq_refl) as [_ [Hb|Hall]]; [left; apply refused_app; right; apply refused_app; left; apply refused_app; by left|].
      right. intros i Hi. rewrite !tee_written_app, H3, Hi1, HB, !app_nil_r. cbn [app]. destruct (Hfind i ltac:(lia)) as (d & Hd & <- & Hl'). by apply Hall.
    + right. intros i Hi. by rewrite !tee_written_app, H3, Hi1, HB, HA, !app_nil_r.
Qed.

(** C32. tee opens operands only, in their order, at most 64, as -a says, and none
    unless remediation mode is on and some root is writable; what it writes to
    the standard output and to each file is a prefix of its input, every file
    that was opened is closed, and it exits with 0 only after the usage text or
    when every file was opened and, unless a pipe broke, each got the whole
    input.  A name given twice is two operands: each is opened, written and
    closed on its own, where the command's documentation says that the second
    reuses the handle of the first. *)
Theorem tee_copies_exact h help append files w :
  exists es, events (snd (tee h help append files w)) = events w ++ es /\ tees h help append files es (fst (tee h help append files w)).
Proof.
  assert (forall p, exists es, events (snd (refuse p w)) = events w ++ es /\ tees h help append files es (fst (refuse p w))) as Hrefuse.
  { intros p. destruct (spec_refuse p w) as (es & E & -> & ->). exists [EvErr p]. split; [done|]. by apply tees_idle. }
  unfold tee. destruct (RemediationMode h) eqn:Em; cbn [negb]; [|apply Hrefuse]. destruct (OpenFile h) as [openFile|]; [|apply Hrefuse].
  destruct (statWired h); cbn [negb orb]; [|apply Hrefuse]. destruct (hasWritableRoot h) eqn:Ew; cbn [negb]; [|apply Hrefuse]. destruct help.
  { destruct (spec_usage w) as (es & E & -> & ->). exists [EvUsage]. split; [done|]. by apply tees_idle. }
  destruct (Nat.ltb_spec MaxFileOperands (length files)) as [|Hl]; [apply Hrefuse|].
  match goal with |- context [?m w] => assert (spec m (fun _ es code => tees h false append files es code)) as H; [|exact (H w)] end.
  eapply (spec_then _ _ _ (fun r _ es code => forall es0, opened append 1 files es0 r -> tees h false append files (es0 ++ es) code));
    [apply spec_openDests| |intros past es r es' code Ho H; by apply H].
  intros past0 es0 [ds failed] Hopen. eapply (spec_bind _ _ (fun _ es1 code => match failed with
    | None => idle es1 /\ code = 1
    | Some f => exists esA esB copyFailed, es1 = esA ++ esB /\ idle esB /\ (code = 0 -> f = false /\ copyFailed = false) /\
        match Stdin h with
        | Some r => copiedAll r (mkDest 0 (lit "standard output") true :: ds) false esA copyFailed
        | None => esA = []
        end
    end) (fun code _ es code' => code' = code /\ idle es /\ forall d, d ∈ ds -> EvClose (id d) ∈ es)).
  - destruct failed as [f|]; [|by apply spec_ret].
    eapply (spec_bind _ _ (fun _ es cf => match Stdin h with Some r => copiedAll r (mkDest 0 (lit "standard output") true :: ds) false es cf | None => es = [] end)
      (fun cf _ es code => idle es /\ (code = 0 -> f = false /\ cf = false))).
    + destruct (Stdin h) as [r|]; [|by apply spec_ret]. apply spec_copyToAll. cbn [map id]. destruct Hopen as [-> _]. apply (NoDup_seq 0 (S (length ds))).
    + intros cf. eapply (spec_bind _ _ _ (fun _ _ es code => es = [] /\ (code = 0 -> f = false /\ cf = false))); [apply spec_closeAllDests| |].
      * intros closed. apply spec_ret. intros past. split; [done|]. by destruct f, cf.
      * intros past es a es' code Hi [-> Hc]. by rewrite app_nil_r.
    + intros past es cf es' code Hcopy [Hi Hc]. by exists es, es', cf.
  - intros code. eapply (spec_bind _ _ _ (fun _ _ es code' => es = [] /\ code' = code)); [apply spec_deferredCloses|intros; by apply spec_ret|].
    intros past es a es' code' [H1 H2] [-> ->]. by rewrite app_nil_r.
  - intros past es code es' code' Hrun (-> & Hi & Hclose) es1 Ho. by apply (tees_opened h append files es1 es es' ds failed code).
Qed.

(** [tee f f] opens [f] twice, and writes its input to both. *)
Lemma tee_reopens_duplicates :
  let calm := mkHost (fun _ => false) true (Some [true]) (fun _ _ => inl (ENotExist [])) (fun _ _ => inl (ENotExist [])) true
    None None None (Some (fun _ _ _ => None)) (fun _ _ => None) (fun _ _ => None) (Some (ReadLast (lit "x") None))
    (fun _ => []) (fun s => s) (fun _ => false) in
  events (snd (tee calm false false [lit "f"; lit "f"] (mkWorld [] 0))) =
    [EvStat (lit "f"); EvOpen (lit "f") false true; EvStat (lit "f"); EvOpen (lit "f") false true;
     EvWrite 0 (lit "x") None; EvWrite 1 (lit "x") None; EvWrite 2 (lit "x") None; EvClose 1; EvClose 2;
     EvClose 2; EvClose 1].
Proof. vm_compute. reflexivity. Qed.

(** C34. A size is accepted exactly when it is decimal digits with a known suffix
    and the product fits 63 bits; its value is that product, computed without
    overflow. *)
Theorem size_parse_exact s n :
  Parse s = inr n <->
  exists digits suffix m, s = digits ++ suffix /\ digits <> [] /\ allDigits digits /\ multiplier suffix = Some m /\
    n = decimalFrom 0 digits * m /\ n <= maxInt64.
Proof.
  split.
  - unfold Parse. destruct s as [|c s']; [done|]. set (s := c :: s'). destruct (str_in [c] _); [done|].
    destruct (Nat.eqb_spec (run_length isDigit s) 0) as [|Hr]; [done|]. destruct (multiplier (drop _ s)) as [m|] eqn:Em; [|done].
    pose proof (multiplier_range _ _ Em) as [[Hm _] _]. pose proof (digits_run s) as Hd.
    assert (take (run_length isDigit s) s <> []) as Hne.
    { intros E. apply (f_equal length) in E. rewrite length_take in E. change (length s) with (S (length s')) in E. cbn [length] in E. lia. }
    pose proof (decimalFrom_ge 0 _ Hd ltac:(lia)) as Hv.
    destruct (ParseInt (take (run_length isDigit s) s)) as [|v] eqn:Ev; [done|]. apply ParseInt_decimal in Ev as [-> Hmax]; [|done|done].
    intros H. exists (take (run_length isDigit s) s), (drop (run_length isDigit s) s), m. split; [by rewrite take_drop|]. do 3 (split; [done|]).
    revert H Hv Hmax. clear - Hm. generalize (decimalFrom 0 (take (run_length isDigit s) s)). intros v H Hv Hmax.
    destruct (Z.eqb_spec m 1) as [->|Hm1]; [injection H as <-; lia|]. destruct (Z.ltb_spec (maxInt64 / m) v) as [|Hle]; [done|].
    injection H as <-. split; [done|]. pose proof (Z.mul_div_le maxInt64 m ltac:(lia)). nia.
  - intros (d & suffix & m & -> & Hne & Hd & Em & -> & Hmax). pose proof (multiplier_range _ _ Em) as [Hm Hs]. unfold Parse.
    pose proof (decimalFrom_ge 0 _ Hd ltac:(lia)) as Hv.
    assert (match d ++ suffix with [] => False | c :: _ => isDigit c = true end) as Hc by (destruct d; [done|]; cbn; by inversion_clear Hd).
    destruct (d ++ suffix) as [|c t] eqn:E; [done|]. rewrite <- E.
    assert (str_in [c] ["+"; "-"; "<"; ">"; "/"; "%"]%string = false) as ->.
    { destruct (str_in [c] _) eqn:Ein; [|done]. exfalso. clear - Hc Ein. destruct c as [[] [] [] [] [] [] [] []]; vm_compute in Hc, Ein; congruence. }
    rewrite digits_run_app, take_app_length, drop_app_length, Em by done. destruct (Nat.eqb_spec (length d) 0) as [|_]; [by destruct d|].
    rewrite (proj2 (ParseInt_decimal d (decimalFrom 0 d) Hd Hne)) by (split; [done|nia]). destruct (Z.eqb_spec m 1) as [->|]; [f_equal; lia|].
    rewrite (proj2 (Z.ltb_ge _ _)); [done|]. apply Z.div_le_lower_bound; lia.
Qed.

(** truncate and logrotate call their callback for a prefix of the operands,
    each time with the size that was parsed and the flags as given, and change
    nothing else; they exit with 0 only after the usage text or when every
    operand was handled. *)
Theorem resize_exact h help noCreate force dryRun verbose size files w :
  (exists es, events (snd (truncate h help noCreate size files w)) = events w ++ es /\
    (sizeCalls es <> [] -> RemediationMode h = true /\ hasWritableRoot h = true /\
       exists s n, size = Some s /\ Parse s = inr n /\ sizeCalls es `prefix_of` map (fun f => EvTruncate f n (negb noCreate)) files) /\
    (fst (truncate h help noCreate size files w) = 0 -> help = true \/ length (sizeCalls es) = length files)) /\
  (exists es, events (snd (logrotate h help force dryRun verbose size files w)) = events w ++ es /\
    (sizeCalls es <> [] -> exists n, match size with Some s => force = false /\ Parse s = inr n | None => force = true /\ n = 0 end /\
       sizeCalls es `prefix_of` map (fun f => EvRotate f n dryRun) files) /\
    (fst (logrotate h help force dryRun verbose size files w) = 0 -> help = true \/ length (sizeCalls es) = length files)).
Proof.
  assert (forall p (G : list event -> Prop), exists es, events (snd (refuse p w)) = events w ++ es /\ (sizeCalls es <> [] -> G es) /\
    (fst (refuse p w) = 0 -> help = true \/ length (sizeCalls es) = length files)) as Hrefuse.
  { intros p G. destruct (spec_refuse p w) as (es & E & -> & ->). by exists [EvErr p]. }
  assert (forall (G : list event -> Prop), help = true -> exists es, events (snd ((emit EvUsage;; mret 0) w)) = events w ++ es /\ (sizeCalls es <> [] -> G es) /\
    (fst ((emit EvUsage;; mret 0) w) = 0 -> help = true \/ length (sizeCalls es) = length files)) as Husage.
  { intros G Hh. destruct (spec_usage w) as (es & E & -> & ->). exists [EvUsage]. split; [done|]. split; [done|]. by left. }
  split.
  - unfold truncate. destruct (RemediationMode h); cbn [negb]; [|apply Hrefuse]. destruct (Truncate h) as [f|]; [|apply Hrefuse].
    destruct (hasWritableRoot h); cbn [negb]; [|apply Hrefuse]. destruct help; [by apply Husage|]. destruct size as [s|]; [|apply Hrefuse].
    destruct (Parse s) as [e|n] eqn:Ep; [apply Hrefuse|]. destruct files as [|file files]; [apply Hrefuse|].
    destruct (spec_truncateFiles h f n noCreate (file :: files) false w) as (es & E & H1 & _ & H3). exists es. split; [done|].
    split; [intros _; split; [done|]; split; [done|]; by exists s, n|]. intros Hc. right. destruct (H3 Hc) as [_ ->]. by rewrite length_map.
  - unfold logrotate. destruct (TruncateToZeroIfAtLeast h) as [f|]; [|apply Hrefuse]. destruct help; [by apply Husage|].
    assert (forall n, match size with Some s => force = false /\ Parse s = inr n | None => force = true /\ n = 0 end ->
      exists es, events (snd (rotateFiles h f n dryRun (verbose || dryRun) files false w)) = events w ++ es /\
        (sizeCalls es <> [] -> exists n, match size with Some s => force = false /\ Parse s = inr n | None => force = true /\ n = 0 end /\
           sizeCalls es `prefix_of` map (fun f => EvRotate f n dryRun) files) /\
        (fst (rotateFiles h f n dryRun (verbose || dryRun) files false w) = 0 -> false = true \/ length (sizeCalls es) = length files)) as Hrot.
    { intros n Hn. destruct (spec_rotateFiles h f n dryRun (verbose || dryRun) files false w) as (es & E & H1 & _ & H3). exists es. split; [done|].
      split; [intros _; by exists n|]. intros Hc. right. destruct (H3 Hc) as [_ ->]. by rewrite length_map. }
    destruct size as [s|], force; try apply Hrefuse.
    + destruct (Parse s) as [e|n] eqn:Ep; [apply Hrefuse|]. destruct files as [|file files]; [apply Hrefuse|]. by apply Hrot.
    + destruct files as [|file files]; [apply Hrefuse|]. by apply Hrot.
Qed.

(** C33. Every message of tee is one line without control bytes, whatever the
    operands are called and whatever errors say: neither can forge a line or
    drive a terminal. *)
Theorem tee_messages_plain h help append files w p :
  exists es, events (snd (tee h help append files w)) = events w ++ es /\ (EvErr p ∈ es -> oneLine p).
Proof.
  assert (tidily (tee h help append files) (fun _ => True)) as H.
  { unfold tee.
    assert (forall s, forallb (fun c => (32 <=? code c) && negb (code c =? 127)) (lit s) = true -> oneLine (lit s ++ [ch_nl])) as Hlit.
    { intros s Hs. by apply oneLine_intro, plain_lit. }
    assert (forall s, forallb (fun c => (32 <=? code c) && negb (code c =? 127)) (lit s) = true -> oneLine (lit "tee" ++ lit s ++ [ch_nl])) as Hlit2.
    { intros s Hs. rewrite app_assoc. apply oneLine_intro, Forall_app. split; by apply plain_lit. }
    destruct (RemediationMode h); cbn [negb]; [|apply tidy_refuse; [by apply Hlit2|done]].
    destruct (OpenFile h) as [openFile|]; [|apply tidy_refuse; [by apply Hlit2|done]].
    destruct (_ || _); [apply tidy_refuse; [by apply Hlit2|done]|].
    destruct help; [eapply spec_mono; [apply spec_usage|]; intros past es a [-> ->]; by repeat constructor|].
    destruct (_ <? _)%nat; [apply tidy_refuse; [by apply Hlit|done]|].
    eapply spec_tidy_bind; [apply tidy_openDests|]. intros [ds failed] Hds. cbn [fst] in Hds.
    apply (spec_tidy_bind _ _ (fun _ => True)).
    - destruct failed as [f|]; [|by apply tidy_ret]. set (all := mkDest 0 (lit "standard output") true :: ds).
      assert (tidyDests all) as Hall by (constructor; [by apply plain_lit|done]).
      apply (spec_tidy_bind _ _ (fun _ => True)); [destruct (Stdin h); [by apply tidy_copyToAll|by apply tidy_ret]|]. intros cf _.
      apply (spec_tidy_bind _ _ (fun _ => True)); [by apply tidy_closeAllDests|]. intros closed _. by apply tidy_ret.
    - intros code _. apply (spec_tidy_bind _ _ (fun _ => True)); [apply tidy_deferredCloses|]. intros. by apply tidy_ret. }
  destruct (H w) as (es & E & Ht & _). exists es. split; [done|]. intros Hp. unfold tidy in Ht. rewrite Forall_forall in Ht. by apply (Ht _ Hp).
Qed.
End FileCmds.
